(* ===== verification/_CoqProject ===== *)
-Q . S2P
Prelude.v
Numeric.v
OfferMath.v
Types.v
StrKey.v
Sorting.v
Quorums.v
QuorumFacts.v
QuorumSearch.v
Ballots.v
BallotOrder.v
SlotState.v
BallotProtocol.v
Nomination.v
ScpMachine.v
ScpRefinement.v
BallotRefinement.v
SlotRefinement.v
Agreement.v
Decisions.v
ScpTermination.v
NominationTermination.v
Buckets.v
BucketMerge.v
BucketList.v
BucketHistory.v
BucketInvariant.v
BucketSizes.v
Sums.v
OfferOrder.v
LedgerTxn.v
BucketState.v
LedgerTxnOffers.v
InflationWinners.v
LedgerState.v
TransactionUtils.v
Positions.v
OfferExchange.v
Sides.v
Crossing.v
Converting.v
Accounting.v
Operations.v
Upgrades.v
Lumens.v
Payments.v
ManageOffers.v
OperationLumens.v
Transactions.v
TransactionEffects.v
TxSets.v
ApplyOrder.v
TrimValid.v
Surge.v
LedgerClose.v
Checkpoints.v
LedgerManager.v
LedgerChain.v
Authorization.v
Conservation.v
LedgerCloseLumens.v
ValidFees.v
UpgradeCycle.v
ClosedHeaders.v
HerderSCPDriver.v
Combination.v
Proposal.v
Extraction.v
PendingQueue.v
Envelopes.v
EnvelopeFacts.v
EnvelopeDelivery.v
Books.v
OperationBooks.v
TransactionBooks.v
Reserves.v
Invariants.v
InvariantManager.v
InvariantFacts.v
OperationChecks.v
