(* ===== verification/Prelude.v ===== *)
(** Verification of the core of zagg-core.

    zagg-core is a fork of stellar-core: a node that agrees with its peers on a
    sequence of ledgers and applies to each one the set of transactions agreed
    on.  This library models the part that computes - amounts, offers, the
    ledger and its nested transactions, operations, transactions, transaction
    sets, upgrades, the closing of a ledger, text keys, quorums, consensus,
    buckets, the Herder, the ledger manager, the verification of archives, the
    invariants - as functional
    programs translated from the C++ under [src/src/], and proves what makes
    that code correct.

    * Conventions

    A C++ integer is a [Z]; where an operation can leave the range of its type
    the wrap is written out ([s64], [u32], ...), and the theorems have ranges
    as hypotheses only where the code relies on them.  A call that can throw
    returns an [outcome]; a failed [assert] is an outcome of its own, since it
    ends the process.  Names are the source's, with the class in front where
    two classes share one ([tx_checkValid], [Payment_doApply]).

    * The files, bottom up

    - this file: outcomes, machine integers, rounding divisions, tactics.
    - [Numeric]: 128-bit products and quotients, [addBalance]
      ([util/numeric.cpp], [util/types.cpp]).
    - [OfferMath]: [exchangeV10], [adjustOffer] and their parts
      ([transactions/OfferExchange.cpp]).
    - [Types]: assets, keys, entries, the header, with decidable equality and
      the ordering of the XDR types ([xdr/Stellar-ledger-entries.x]).
    - [StrKey]: base-32 text keys with a CRC ([crypto/StrKey.cpp],
      [util/crc16.cpp], [lib/util/basen.h] as a loop of its own).
    - [Sorting]: [std::sort] as a class with the standard's promise, and
      merge sort as an instance, and [std::set] as an ascending list; [Sums]: sums
      over finite maps.
    - [OfferOrder]: [isBetterOffer], with prices as IEEE doubles
      ([ledger/LedgerTxnOfferSQL.cpp]).
    - [LedgerTxn], [LedgerTxnOffers], [InflationWinners]: [LedgerTxn] as it is
      written, a stack of levels with active entries and consolidated deltas
      over a root ([ledger/LedgerTxn.cpp]); they show that the stack behaves
      like one map and a header, for entries and deltas, for the best offer,
      and (up to the finding below) for the inflation vote.
    - [LedgerState]: that flat state and the monad [M] in which the rest of the
      code runs; [nested] is a [LedgerTxn] that commits or rolls back.  A
      handle on an entry is its key, so two handles share the entry as they do
      in the source.  [lastModifiedLedgerSeq] is not part of the flat state: no
      code above [LedgerTxn] reads it.
    - [TransactionUtils], [Positions]: balances, limits, liabilities, minimum
      balances, trust line wrappers ([transactions/TransactionUtils.cpp],
      [ledger/TrustLineWrapper.cpp]) and their refinement of an abstract
      position.
    - [OfferExchange], [Sides], [Crossing], [Converting]: crossing one offer and
      converting along the book, and which relations computations respect
      ([transactions/OfferExchange.cpp]).
    - [Operations], [Payments], [ManageOffers], [Transactions]:
      every operation frame, the signature checker and the transaction frame
      ([transactions/*OpFrame.cpp], [SignatureChecker.cpp],
      [TransactionFrame.cpp]).
    - [Accounting], [Lumens], [OperationLumens], [Conservation]: the measure of
      a ledger, the relation "moved by x" and how each operation moves lumens.
    - [TransactionEffects], [Authorization]: what a failed transaction changes,
      and what the signature checker accepts.
    - [TxSets], [ApplyOrder], [TrimValid], [Surge], [ValidFees]:
      transaction sets ([herder/TxSetFrame.cpp]).
    - [Upgrades], [UpgradeCycle]: protocol upgrades
      ([herder/Upgrades.cpp]).
    - [LedgerClose], [LedgerCloseLumens]: [closeLedger]
      ([ledger/LedgerManagerImpl.cpp]).
    - [LedgerManager]: what the ledger manager does with the ledgers that
      consensus reports - closing, buffering, catching up, coming back in sync
      ([ledger/LedgerManagerImpl.cpp], [SyncingLedgerChain.cpp]) - as a machine
      driven by events, against the class [LedgerCloser].  [ClosedHeaders]: the
      headers of closed ledgers and of a new network, the skip list
      ([bucket/BucketManagerImpl.cpp]), and the instance of [LedgerCloser] that
      [closeLedger] makes.
    - [Checkpoints]: the arithmetic of checkpoints and the range of ledgers to
      catch up ([history/HistoryManagerImpl.cpp], [catchup/CatchupWork.cpp],
      [CatchupConfiguration.cpp]).  [LedgerChain]: verifying the headers that were
      downloaded ([catchup/VerifyLedgerChainWork.cpp]).
    - [Quorums], [QuorumFacts], [QuorumSearch]: quorum sets,
      slices, v-blocking sets, the search for a quorum, the closest blocking
      set, the transitive quorum, sanity and normalization
      ([scp/LocalNode.cpp], [scp/QuorumSetUtils.cpp]).
    - [Ballots], [BallotOrder]: SCP's statements, the pure functions of the
      ballot protocol, their orders and what the candidate sets contain
      ([xdr/Stellar-SCP.x], [scp/BallotProtocol.cpp]).
    - [SlotState]: the state of a slot, the monad its code runs in (it can
      throw or dereference null), the driver as a class of functions with a log
      of the calls that only inform it ([scp/Slot.h], [scp/SCPDriver.h]).
    - [BallotProtocol], [Nomination]: every function of
      [scp/BallotProtocol.cpp], [scp/NominationProtocol.cpp], [scp/Slot.cpp]
      and [scp/SCP.cpp] that is not for printing.
    - [ScpMachine]: the ballot protocol as an abstract machine, one transition
      per decision, and what every reachable state of it satisfies.  [ScpRefinement], [BallotRefinement], [SlotRefinement]: weakest
      preconditions for the monad, and the proof that every operation of a slot
      is a sequence of transitions.
    - [Agreement]: a network of nodes running the code among dishonest ones, and
      a network that decides.  [Decisions]: finality, the order of statements,
      the prepared ballots, and two places where the code does not do what it
      means to.  [ScpTermination], [NominationTermination]: every operation of a
      slot ends.

    - [Buckets], [BucketMerge]: buckets as sorted lists of live
      and dead entries, their merge under shadows, and the bucket of a batch
      ([bucket/Bucket.cpp], [BucketOutputIterator.cpp], [LedgerCmp.h]).
      [BucketList]: the levels, their pending merges and the arithmetic of their
      sizes ([bucket/BucketList.cpp], [FutureBucket.cpp]).  [BucketHistory],
      [BucketInvariant], [BucketSizes]: the range of ledgers
      each bucket and each pending merge covers, after any number of batches.
    - [BucketState]: applying buckets through
      [LedgerTxn], and the work of catch-up that applies a whole list
      ([bucket/BucketApplicator.cpp], [catchup/ApplyBucketsWork.cpp],
      [work/Work.cpp]).

    - [HerderSCPDriver]: what SCP asks of the Herder - validating, extracting and
      combining values - with the tracked consensus and the timers
      ([herder/HerderSCPDriver.cpp]), then the queue of pending
      transactions and the trigger of a ledger ([herder/HerderImpl.cpp]).
      [Combination], [Proposal], [Extraction]: valid sets and combined
      candidates, a node's own proposal, extracted values with a concrete
      encoding of values and a node to evaluate.  [PendingQueue]: the life of a
      transaction in the queue.
    - [Envelopes]: the envelopes that wait for what they refer to, the trackers
      that fetch it, the caches of what came, and the Herder's filter
      ([herder/PendingEnvelopes.cpp], [overlay/ItemFetcher.cpp], [Tracker.cpp],
      [lib/util/lrucache.hpp]).  [EnvelopeFacts]: these operations as the steps
      of a world, and its invariant.  [EnvelopeDelivery]: the arrival of an
      item, and runs to evaluate.

    - [Books]: linear accounts over the entries of a ledger, one for every way
      to weigh sub-entries and liabilities, and what the functions on entries
      and the crossing of offers post to them.  [OperationBooks],
      [TransactionBooks]: every operation that succeeds, and every transaction,
      keeps them level.  [Reserves]: no operation takes from an account without
      leaving its reserve and its selling liabilities covered.
    - [Invariants]: the checks of the five invariants
      ([invariant/ConservationOfLumens.cpp], [AccountSubEntriesCountIsValid.cpp],
      [LiabilitiesMatchOffers.cpp], [LedgerEntryIsValid.cpp],
      [BucketListIsConsistentWithDatabase.cpp]); [InvariantManager]: which of
      them run and what is recorded ([invariant/InvariantManagerImpl.cpp]).
      [InvariantFacts], [OperationChecks]: what a delta sums up to, and why the
      checks pass.

    * What the theorems show

    Conservation: a transaction, and the closing of a whole ledger with its
    upgrades, leaves account balances plus fee pool less total coins unchanged,
    whatever fails or throws.  Exchange: [exchangeV10] respects the offers'
    prices and limits, favours the right side, and is stable under
    [adjustOffer]; crossing an offer and converting along the book transfer
    exactly what they report.  The ledger: nesting, committing and rolling back
    refine the flat map, deltas replay to the new state, the best offer is the
    head of the book.  Transactions: failure is atomic up to bookkeeping.
    Transaction sets: applied in an order that respects every account's
    sequence numbers, valid after trimming, cut fairly by surge pricing, and
    able to pay their fees.  Upgrades: proposals converge, and the node accepts
    all but those that lower the protocol version or set a value to zero.  Text
    keys round-trip.  Consensus: nodes that externalize a slot agree, if honest
    quorums meet in an honest node, whatever the others send; the code refines
    the abstract protocol; a decision is reported once and is final; statements
    are replaced by newer ones only; every operation ends.
    Buckets: the bucket list built from any sequence of batches, applied by the
    work of catch-up to an empty ledger, gives the ledger those batches produce;
    the sizes computed from the ledger number are those of the buckets built.
    The Herder: the value combined out of valid candidates is valid; the set a
    node proposes is valid, whatever waits in its queue, and so is the value
    unless its clock is late or its own upgrades are not; a transaction waits
    for four ledgers at most and what the queue knows of an account is exact;
    extracting from a value settles, so that the driver keeps what the termination
    of nomination asks of it; an envelope reaches SCP at most once while its slot is
    remembered, complete, and none that is being fetched is forgotten; the arrival
    of an item takes every envelope that waited for it back to the Herder.
    The ledger manager: whatever consensus and the work of catch-up report, in any
    order these can keep to, no assertion fails, what is closed is a chain, and a
    node that has caught up comes back in sync.  Archives: headers that verify
    against the network's hash are the network's, and those of an honest archive
    verify; the range to catch up covers what was asked for; the skip list holds
    what its arithmetic says.
    Invariants: in a balanced ledger every account counts its signers and entries,
    and records the liabilities that its offers come to; every transaction keeps
    it so, and no successful operation is ever reported by the checks of lumens,
    sub-entries and liabilities.
    The theorems marked as findings show where the code does not do what its
    comments and tests say: the signature checker of this fork
    accepts any signature and then fails every signed transaction; a stack of
    ledger transactions can miss an inflation winner; a reserve upgrade leaves
    stale liabilities; one lagging node keeps [attemptBump] from catching up
    with a blocking set; [validateValues] lets an invalid value pass beside one
    that may be valid; applying a bucket list to a database that is behind can
    leave an entry that is gone; a value extracted from an invalid one can be
    invalid; parameters of upgrades are taken that the node itself rejects; an
    item that left its cache may never be asked for again; the slot
    just forgotten is still admitted; a gap at the end of the buffered ledgers, or
    catching up by command on a synced node, ends the process, and so does an
    archive's file that begins late; two of the invariants' checks, of deleted
    accounts and of rising liabilities, can never find anything.

    * Fuel and bounds

    [convertWithOffersLoop] runs on fuel, the number of entries plus one: every
    round erases an offer or stops, and its theorem shows that this fuel is
    never exhausted.  [isQuorum] and [isNodeInQuorum] run on the number of
    nodes.  The nesting of ballot emissions has fuel 50, the bound at which the
    code throws; the loop of [attemptBump] has 2^34 rounds, one for every phase
    and counter; nominations nest at most four times the number of values
    mentioned ([NominationTermination] shows that none of these is exhausted).
    The sizes of buckets recurse at most six times per level, and the work of
    catch-up has as many turns as it has entries and three per level
    ([BucketSizes] and [BucketState] show that this is enough); the number of
    levels is at most 15, where 32 bits suffice.  The chain of ledgers is verified in as
    many calls as the range has checkpoints ([verification_ends]).  The other loops are
    structural.  Protocol versions below
    8, with the old exchange arithmetic and the account cache, are not
    modelled; conservation starts at version 8, the exchange theorems are about
    version 10.

    * Parameters

    What is not in the repository, or only calls into libraries, is a
    parameter: [Externals] (contents hash, and the two functions of the Bitcoin
    node that [MarkAccountOpFrame] calls), [TxSetExternals] (the full hash of a
    transaction, the hash of a set), [StdSort], [HerderExternals] (XDR of values
    and upgrades, SHA-256), and [SCPDriver], the abstract class that the Herder
    implements ([Extraction.HerderDriver] is the link).  A [HerderView] holds what
    the driver reads of the rest of the node, [Regex] what [std::regex] matches,
    [BucketKeeper] the bucket manager as the closing of a ledger uses it.  [dbgAssert] is modelled with and
    without [NDEBUG].

    * Not modelled

    The agreement theorem is about nodes that do not restart: a node that
    restores its state from its last envelope ([setStateFromEnvelope], which is
    modelled) forgets what it had heard.  The database and its SQL, and the caches of [LedgerTxnRoot]; metadata,
    transaction history and metrics; the overlay, the publishing of history, the rest of
    catch-up (downloads, and the replay of transactions), files and
    hashes of buckets, background threads (a merge has its result when it is
    asked for), work scheduling but for the turns of the work above, process
    and application glue, which are I/O and scheduling throughout;
    cryptography, which is libsodium; [lib/], which is third-party, but for the
    cache above. *)

From Stdlib Require Export ZArith Lia.
From stdpp Require Export prelude gmap strings.

#[global] Open Scope Z_scope.

(** * Outcomes of fallible code

    C++ code that can throw, or stop on an [assert], is a computation that
    ends either in a value or in an exception.  The exception's text is the
    one the source gives it. *)
Inductive exn :=
  | RuntimeError (what : string)
  | OverflowError (what : string)
  | AssertFailure (what : string).

Inductive outcome (A : Type) :=
  | Ok (a : A)
  | Throw (e : exn).
Arguments Ok {A} a.
Arguments Throw {A} e.

#[global] Instance outcome_ret : MRet outcome := fun A a => Ok a.
#[global] Instance outcome_bind : MBind outcome := fun A B f m =>
  match m with Ok a => f a | Throw e => Throw e end.
#[global] Instance outcome_fmap : FMap outcome := fun A B f m =>
  match m with Ok a => Ok (f a) | Throw e => Throw e end.

(** [assert(b)] of the source. *)
Definition cassert (what : string) (b : bool) : outcome unit :=
  if b then Ok tt else Throw (AssertFailure what).

Definition is_ok {A} (m : outcome A) : Prop := exists a, m = Ok a.

Lemma outcome_bind_Ok {A B} (m : outcome A) (f : A -> outcome B) b :
  (m ≫= f) = Ok b <-> exists a, m = Ok a /\ f a = Ok b.
Proof. destruct m; cbn; naive_solver. Qed.

Lemma cassert_Ok what b u : cassert what b = Ok u <-> b = true.
Proof. destruct u, b; cbn; naive_solver. Qed.

Lemma cassert_true what b : b = true -> cassert what b = Ok tt.
Proof. by intros ->. Qed.

(** * Machine integers

    An integer variable is a [Z] together with the range of its C++ type.
    Unsigned arithmetic wraps; signed arithmetic is written with [s64] and
    [s32], the two's complement value, and a lemma shows where the range
    makes the wrap the identity. *)
Definition INT64_MAX : Z := 9223372036854775807.
Definition INT64_MIN : Z := -9223372036854775808.
Definition INT32_MAX : Z := 2147483647.
Definition UINT32_MAX : Z := 4294967295.
Definition UINT64_MAX : Z := 18446744073709551615.
Definition UINT128_MAX : Z := 340282366920938463463374607431768211455.

Definition u32 (z : Z) : Z := z mod 4294967296.
Definition u64 (z : Z) : Z := z mod 18446744073709551616.
Definition u128 (z : Z) : Z := z mod 340282366920938463463374607431768211456.
Definition s64 (z : Z) : Z :=
  (z + 9223372036854775808) mod 18446744073709551616 - 9223372036854775808.
Definition s32 (z : Z) : Z :=
  (z + 2147483648) mod 4294967296 - 2147483648.

#[global] Arguments u32 : simpl never.
#[global] Arguments u64 : simpl never.
#[global] Arguments u128 : simpl never.
#[global] Arguments s64 : simpl never.
#[global] Arguments s32 : simpl never.
#[global] Arguments INT64_MAX : simpl never.
#[global] Arguments INT64_MIN : simpl never.
#[global] Arguments UINT32_MAX : simpl never.
#[global] Arguments UINT64_MAX : simpl never.

Definition in_s64 (z : Z) : Prop := INT64_MIN <= z <= INT64_MAX.
Definition in_u64 (z : Z) : Prop := 0 <= z <= UINT64_MAX.
Definition in_u32 (z : Z) : Prop := 0 <= z <= UINT32_MAX.
Definition in_u128 (z : Z) : Prop := 0 <= z <= UINT128_MAX.
(** The amounts the protocol manipulates: an [int64_t] that is not negative. *)
Definition amount (z : Z) : Prop := 0 <= z <= INT64_MAX.

Ltac unfold_ints :=
  unfold amount, in_s64, in_u64, in_u32, in_u128,
    INT64_MAX, INT64_MIN, INT32_MAX, UINT32_MAX, UINT64_MAX, UINT128_MAX in *.

Lemma s64_id z : in_s64 z -> s64 z = z.
Proof. unfold s64; unfold_ints; intros; rewrite Z.mod_small; lia. Qed.
Lemma u32_id z : in_u32 z -> u32 z = z.
Proof. unfold u32; unfold_ints; intros; rewrite Z.mod_small; lia. Qed.
Lemma u64_id z : in_u64 z -> u64 z = z.
Proof. unfold u64; unfold_ints; intros; rewrite Z.mod_small; lia. Qed.
Lemma u128_id z : in_u128 z -> u128 z = z.
Proof. unfold u128; unfold_ints; intros; rewrite Z.mod_small; lia. Qed.
Lemma s64_add_l a b : s64 (s64 a + b) = s64 (a + b).
Proof.
  unfold s64. f_equal.
  replace ((a + 9223372036854775808) mod 18446744073709551616 - 9223372036854775808
           + b + 9223372036854775808)
    with ((a + 9223372036854775808) mod 18446744073709551616 + b) by lia.
  rewrite Zplus_mod_idemp_l. f_equal. lia.
Qed.
Lemma s64_range z : in_s64 (s64 z).
Proof.
  unfold s64; unfold_ints.
  pose proof (Z.mod_pos_bound (z + 9223372036854775808) 18446744073709551616).
  lia.
Qed.
Lemma u64_range z : in_u64 (u64 z).
Proof.
  unfold u64; unfold_ints.
  pose proof (Z.mod_pos_bound z 18446744073709551616). lia.
Qed.
Lemma u32_range z : in_u32 (u32 z).
Proof.
  unfold u32; unfold_ints.
  pose proof (Z.mod_pos_bound z 4294967296). lia.
Qed.

Create HintDb ints discriminated.
#[export] Hint Resolve s64_range u64_range u32_range : ints.

(** Turns boolean comparisons of [Z] into propositions, everywhere. *)
Ltac zbool :=
  repeat match goal with
  | H : context [Z.gtb _ _] |- _ => rewrite Z.gtb_ltb in H
  | H : context [Z.geb _ _] |- _ => rewrite Z.geb_leb in H
  | H : (_ <? _) = true |- _ => apply Z.ltb_lt in H
  | H : (_ <? _) = false |- _ => apply Z.ltb_ge in H
  | H : (_ <=? _) = true |- _ => apply Z.leb_le in H
  | H : (_ <=? _) = false |- _ => apply Z.leb_gt in H
  | H : (_ =? _) = true |- _ => apply Z.eqb_eq in H
  | H : (_ =? _) = false |- _ => apply Z.eqb_neq in H
  | H : _ && _ = true |- _ => apply andb_true_iff in H as [? ?]
  | H : _ && _ = false |- _ => apply andb_false_iff in H
  | H : _ || _ = true |- _ => apply orb_true_iff in H
  | H : _ || _ = false |- _ => apply orb_false_iff in H as [? ?]
  | H : negb _ = true |- _ => apply negb_true_iff in H
  | H : negb _ = false |- _ => apply negb_false_iff in H
  end.

(** Case analysis on the next comparison of the goal. *)
Ltac zcase :=
  match goal with
  | |- context [Z.ltb ?a ?b] => destruct (Z.ltb_spec a b)
  | |- context [Z.leb ?a ?b] => destruct (Z.leb_spec a b)
  | |- context [Z.eqb ?a ?b] => destruct (Z.eqb_spec a b)
  | |- context [Z.gtb ?a ?b] => rewrite (Z.gtb_ltb a b)
  | |- context [Z.geb ?a ?b] => rewrite (Z.geb_leb a b)
  end; cbn [andb orb negb].

(** Opens a hypothesis [m = Ok v] where [m] is built with the monad. *)
Ltac inv_ok H :=
  repeat match type of H with
  | (_ ≫= _) = Ok _ => apply outcome_bind_Ok in H; destruct H as (? & ? & H)
  | Throw _ = Ok _ => discriminate H
  | Ok _ = Ok _ => injection H as H; subst
  | cassert _ _ = Ok _ => apply cassert_Ok in H
  end.

(** * Division with a chosen rounding

    [a / b] rounds down; [(a + b - 1) / b] rounds up.  Both are
    characterised by two inequalities, which is the form [nia] can use. *)
Lemma floor_spec a b : 0 < b -> (a / b) * b <= a < (a / b + 1) * b.
Proof.
  intros. pose proof (Z.div_mod a b). pose proof (Z.mod_pos_bound a b). nia.
Qed.

Lemma ceil_spec a b :
  0 < b -> ((a + b - 1) / b - 1) * b < a <= ((a + b - 1) / b) * b.
Proof. intros. pose proof (floor_spec (a + b - 1) b). nia. Qed.

Lemma floor_unique a b q : 0 < b -> q * b <= a < (q + 1) * b -> a / b = q.
Proof. intros. pose proof (floor_spec a b). nia. Qed.

Lemma ceil_unique a b q :
  0 < b -> (q - 1) * b < a <= q * b -> (a + b - 1) / b = q.
Proof. intros. apply floor_unique; nia. Qed.
