(* ===== verification/Numeric.v ===== *)
(** 128-bit helper arithmetic: [src/src/util/numeric.cpp] and the balance
    arithmetic of [src/src/util/types.cpp].  The overloads of [bigDivide] get
    one name each.  A "no throw" overload returns [true] with a result, or
    [false] with a result that no caller but [getNodeWeight] reads ([Quorums]):
    it is an [option] here. *)

From S2P Require Import Prelude.

Inductive Rounding := ROUND_DOWN | ROUND_UP.

#[export] Instance Rounding_eq_dec : EqDecision Rounding.
Proof. solve_decision. Defined.

(** The exact quotient a caller asks for. *)
Definition exact_div (a b : Z) (r : Rounding) : Z :=
  match r with ROUND_DOWN => a / b | ROUND_UP => (a + b - 1) / b end.

(** ** A*B/C *)
Definition bigDivide_u64 (A B C : Z) (rounding : Rounding) : option Z :=
  let x := match rounding with
           | ROUND_DOWN => u128 (A * B) / C
           | ROUND_UP => u128 (u128 (A * B) + C - 1) / C
           end in
  if x <=? UINT64_MAX then Some (u64 x) else None.

Definition bigDivide_s64 (A B C : Z) (rounding : Rounding)
    : outcome (option Z) :=
  _ ← cassert "(A >= 0) && (B >= 0) && (C > 0)"
        ((0 <=? A) && (0 <=? B) && (0 <? C));
  match bigDivide_u64 A B C rounding with
  | Some r2 => Ok (if r2 <=? INT64_MAX then Some r2 else None)
  | None => Ok None
  end.

Definition bigDivide (A B C : Z) (rounding : Rounding) : outcome Z :=
  res ← bigDivide_s64 A B C rounding;
  match res with
  | Some r => Ok r
  | None => Throw (OverflowError "overflow while performing bigDivide")
  end.

(** ** a/B for a 128-bit a *)
Definition bigDivide128_u64 (a B : Z) (rounding : Rounding)
    : outcome (option Z) :=
  _ ← cassert "B != 0" (negb (B =? 0));
  if bool_decide (rounding = ROUND_UP) && (UINT128_MAX - (B - 1) <? a)
  then Ok None
  else
    let x := match rounding with
             | ROUND_DOWN => a / B
             | ROUND_UP => u128 (a + B - 1) / B
             end in
    Ok (if x <=? UINT64_MAX then Some (u64 x) else None).

Definition bigDivide128_s64 (a B : Z) (rounding : Rounding)
    : outcome (option Z) :=
  _ ← cassert "B > 0" (0 <? B);
  res ← bigDivide128_u64 a B rounding;
  Ok (match res with
      | Some r2 => if r2 <=? INT64_MAX then Some r2 else None
      | None => None
      end).

Definition bigDivide128 (a B : Z) (rounding : Rounding) : outcome Z :=
  res ← bigDivide128_s64 a B rounding;
  match res with
  | Some r => Ok r
  | None => Throw (OverflowError "overflow while performing bigDivide")
  end.

(** ** Products *)
Definition bigMultiply_u64 (a b : Z) : Z := u128 (a * b).

Definition bigMultiply (a b : Z) : outcome Z :=
  _ ← cassert "(a >= 0) && (b >= 0)" ((0 <=? a) && (0 <=? b));
  Ok (bigMultiply_u64 a b).

(** ** [stellar::addBalance] of types.cpp: [None] is the return value [false],
    which leaves the balance alone. *)
Definition addBalance (balance delta maxBalance : Z) : outcome (option Z) :=
  _ ← cassert "balance >= 0" (0 <=? balance);
  _ ← cassert "maxBalance >= 0" (0 <=? maxBalance);
  if delta =? 0 then Ok (Some balance)
  else if delta <? s64 (- balance) then Ok None
  else if s64 (maxBalance - balance) <? delta then Ok None
  else Ok (Some (s64 (balance + delta))).

(** * Lemmas *)

Lemma exact_div_spec a b r :
  0 < b ->
  match r with
  | ROUND_DOWN => exact_div a b r * b <= a < (exact_div a b r + 1) * b
  | ROUND_UP => (exact_div a b r - 1) * b < a <= exact_div a b r * b
  end.
Proof. destruct r; cbn; intros; [apply floor_spec | apply ceil_spec]; lia. Qed.

Lemma exact_div_nonneg a b r : 0 <= a -> 0 < b -> 0 <= exact_div a b r.
Proof.
  intros Ha Hb. pose proof (exact_div_spec a b r Hb). destruct r; nia.
Qed.

(** The quotient is at most [m] exactly when the dividend is at most [m*b],
    whichever way it is rounded, up to the last unit of a rounding down. *)
Lemma exact_div_le a b r m : 0 < b -> a <= m * b -> exact_div a b r <= m.
Proof.
  intros Hb Ha. pose proof (exact_div_spec a b r Hb). destruct r; nia.
Qed.

Lemma bigDivide_u64_spec A B C r :
  in_u64 A -> in_u64 B -> 0 < C <= UINT64_MAX ->
  bigDivide_u64 A B C r =
    if exact_div (A * B) C r <=? UINT64_MAX
    then Some (exact_div (A * B) C r) else None.
Proof.
  intros HA HB HC. unfold bigDivide_u64.
  assert (u128 (A * B) = A * B) as ->
    by (apply u128_id; unfold_ints; nia).
  assert (u128 (A * B + C - 1) = A * B + C - 1) as ->
    by (apply u128_id; unfold_ints; nia).
  assert (0 <= A * B) by (unfold_ints; nia).
  pose proof (exact_div_nonneg (A * B) C r ltac:(lia) ltac:(lia)).
  destruct r; cbn [exact_div] in *; zcase; auto;
    rewrite u64_id by (unfold_ints; lia); auto.
Qed.

Lemma bigDivide_s64_spec A B C r :
  amount A -> amount B -> 0 < C <= INT64_MAX ->
  bigDivide_s64 A B C r =
    Ok (if exact_div (A * B) C r <=? INT64_MAX
        then Some (exact_div (A * B) C r) else None).
Proof.
  intros HA HB HC. unfold bigDivide_s64.
  rewrite cassert_true
    by (rewrite !andb_true_iff, !Z.leb_le, Z.ltb_lt; unfold_ints; lia).
  cbn. rewrite bigDivide_u64_spec by (unfold_ints; lia).
  repeat (zcase; auto; try (unfold_ints; lia)).
Qed.

Lemma bigDivide_Ok A B C r m :
  amount A -> amount B -> 0 < C <= INT64_MAX ->
  m <= INT64_MAX -> A * B <= m * C ->
  bigDivide A B C r = Ok (exact_div (A * B) C r).
Proof.
  intros HA HB HC Hm Hle. unfold bigDivide. rewrite bigDivide_s64_spec by auto.
  cbn. pose proof (exact_div_le (A * B) C r m).
  zcase; auto. lia.
Qed.

Lemma bigDivide128_s64_spec a B r :
  in_u128 a -> 0 < B <= INT64_MAX ->
  bigDivide128_s64 a B r =
    Ok (if exact_div a B r <=? INT64_MAX then Some (exact_div a B r) else None).
Proof.
  intros Ha HB. unfold bigDivide128_s64, bigDivide128_u64.
  rewrite (cassert_true "B > 0") by (apply Z.ltb_lt; lia).
  rewrite (cassert_true "B != 0") by (apply negb_true_iff, Z.eqb_neq; lia).
  cbn [mbind outcome_bind].
  pose proof (exact_div_spec a B r ltac:(lia)) as Hspec.
  pose proof (exact_div_nonneg a B r) as Hnn.
  destruct (bool_decide (r = ROUND_UP) && (UINT128_MAX - (B - 1) <? a)) eqn:E.
  - apply andb_true_iff in E as [Er Ea]. apply bool_decide_eq_true in Er as ->.
    zbool. cbn [mbind outcome_bind]. zcase; auto. unfold_ints. nia.
  - cbn [mbind outcome_bind].
    assert (match r with
            | ROUND_DOWN => a / B | ROUND_UP => u128 (a + B - 1) / B
            end = exact_div a B r) as ->.
    { destruct r; cbn [exact_div]; auto. rewrite u128_id; auto.
      rewrite bool_decide_eq_true_2 in E by done. cbn [andb] in E. zbool.
      unfold_ints. lia. }
    specialize (Hnn ltac:(unfold_ints; lia) ltac:(lia)).
    destruct (Z.leb_spec (exact_div a B r) UINT64_MAX).
    + by rewrite u64_id by (unfold_ints; lia).
    + zcase; auto. unfold_ints; lia.
Qed.

Lemma bigDivide128_Ok a B r m :
  in_u128 a -> 0 < B <= INT64_MAX -> m <= INT64_MAX -> a <= m * B ->
  bigDivide128 a B r = Ok (exact_div a B r).
Proof.
  intros Ha HB Hm Hle. unfold bigDivide128.
  rewrite bigDivide128_s64_spec by auto. cbn.
  pose proof (exact_div_le a B r m). zcase; auto. lia.
Qed.

Lemma bigMultiply_Ok a b :
  amount a -> amount b -> bigMultiply a b = Ok (a * b).
Proof.
  intros Ha Hb. unfold bigMultiply, bigMultiply_u64.
  rewrite cassert_true
    by (rewrite andb_true_iff, !Z.leb_le; unfold_ints; lia).
  cbn. rewrite u128_id; auto. unfold_ints. nia.
Qed.

Lemma addBalance_eq balance delta maxBalance :
  amount balance -> amount maxBalance -> in_s64 delta ->
  addBalance balance delta maxBalance =
    Ok (if delta =? 0 then Some balance
        else if (balance + delta <? 0) || (maxBalance <? balance + delta)
        then None else Some (balance + delta)).
Proof.
  intros Hb Hm Hd. unfold addBalance.
  rewrite !cassert_true by (apply Z.leb_le; unfold_ints; lia). cbn.
  rewrite (s64_id (- balance)), (s64_id (maxBalance - balance))
    by (unfold_ints; lia).
  destruct (Z.eqb_spec delta 0); auto.
  destruct (Z.ltb_spec delta (- balance)), (Z.ltb_spec (maxBalance - balance) delta),
    (Z.ltb_spec (balance + delta) 0), (Z.ltb_spec maxBalance (balance + delta));
    cbn [orb]; auto; try lia.
  rewrite s64_id; auto. unfold_ints; lia.
Qed.

(** * Properties *)

(** C17. [bigDivide] on [int64_t] arguments computes the exact rounded value of
    A*B/C: it returns the quotient when it fits in an [int64_t] and throws
    [overflow_error] exactly when it does not; no intermediate 128-bit value
    wraps around. *)
Theorem bigDivide_exact A B C r :
  amount A -> amount B -> 0 < C <= INT64_MAX ->
  bigDivide A B C r =
    if exact_div (A * B) C r <=? INT64_MAX
    then Ok (exact_div (A * B) C r)
    else Throw (OverflowError "overflow while performing bigDivide").
Proof.
  intros. unfold bigDivide. rewrite bigDivide_s64_spec by auto. cbn.
  by zcase.
Qed.

Lemma bigDivide_exact_witness :
  amount INT64_MAX /\ amount 3 /\ 0 < 2 <= INT64_MAX /\
  bigDivide INT64_MAX 3 2 ROUND_UP =
    Throw (OverflowError "overflow while performing bigDivide").
Proof.
  assert (amount INT64_MAX) by (unfold_ints; lia).
  assert (amount 3) by (unfold_ints; lia).
  assert (0 < 2 <= INT64_MAX) by (unfold_ints; lia).
  split; [auto|]. split; [auto|]. split; [auto|].
  rewrite (bigDivide_exact INT64_MAX 3 2 ROUND_UP) by auto. reflexivity.
Defined.
