(* ===== verification/OfferMath.v ===== *)
(** Exchange arithmetic of the order book: the pure part of
    [src/src/transactions/OfferExchange.cpp] (exchangeV2, exchangeV3,
    exchangeV10 with its price error thresholds, adjustOffer) and the price
    comparisons of [src/src/util/types.cpp]. *)

From S2P Require Import Prelude Numeric.

Record Price := mkPrice { pn : Z; pd : Z }.

#[export] Instance Price_eq_dec : EqDecision Price.
Proof. solve_decision. Defined.

(** Both components of a valid price are positive [int32_t] values. *)
Definition valid_price (p : Price) : Prop :=
  0 < pn p <= INT32_MAX /\ 0 < pd p <= INT32_MAX.

(** ** Price order of types.cpp, by cross multiplication *)
Definition price_ge (a b : Price) : bool :=
  u128 (u128 (pd a) * u128 (pn b)) <=? u128 (u128 (pn a) * u128 (pd b)).
Definition price_gt (a b : Price) : bool :=
  u128 (u128 (pd a) * u128 (pn b)) <? u128 (u128 (pn a) * u128 (pd b)).
Definition price_eq (a b : Price) : bool :=
  (pn a =? pn b) && (pd a =? pd b).

(** ** Protocol versions before 10 *)
Inductive ExchangeResultType := NORMAL | REDUCED_TO_ZERO | BOGUS.

Record ExchangeResult := mkExchangeResult {
  er_numWheatReceived : Z;
  er_numSheepSend : Z;
  er_reduced : bool }.

Definition ExchangeResult_type (r : ExchangeResult) : ExchangeResultType :=
  if negb (er_numWheatReceived r =? 0) && negb (er_numSheepSend r =? 0)
  then NORMAL
  else if er_reduced r then REDUCED_TO_ZERO else BOGUS.

Definition exchangeV2 (wheatReceived : Z) (price : Price)
    (maxWheatReceive maxSheepSend : Z) : outcome ExchangeResult :=
  let reduced := maxWheatReceive <? wheatReceived in
  let wheatReceived := Z.min wheatReceived maxWheatReceive in
  q ← bigDivide_s64 wheatReceived (pn price) (pd price) ROUND_DOWN;
  let numSheepSend := default INT64_MAX q in
  let reduced := reduced || (maxSheepSend <? numSheepSend) in
  let numSheepSend := Z.min numSheepSend maxSheepSend in
  numWheatReceived ← bigDivide numSheepSend (pd price) (pn price) ROUND_DOWN;
  Ok (mkExchangeResult numWheatReceived numSheepSend reduced).

Definition exchangeV3 (wheatReceived : Z) (price : Price)
    (maxWheatReceive maxSheepSend : Z) : outcome ExchangeResult :=
  let reduced := maxWheatReceive <? wheatReceived in
  let numWheatReceived := Z.min wheatReceived maxWheatReceive in
  q ← bigDivide_s64 numWheatReceived (pn price) (pd price) ROUND_UP;
  let reduced := match q with Some _ => reduced | None => true end in
  let numSheepSend := default INT64_MAX q in
  let reduced := reduced || (maxSheepSend <? numSheepSend) in
  let numSheepSend := Z.min numSheepSend maxSheepSend in
  q' ← bigDivide_s64 numSheepSend (pd price) (pn price) ROUND_DOWN;
  let newWheatReceived := default INT64_MAX q' in
  Ok (mkExchangeResult (Z.min numWheatReceived newWheatReceived)
        numSheepSend reduced).

(** ** Protocol version 10 *)
Record ExchangeResultV10 := mkV10 {
  numWheatReceived : Z;
  numSheepSend : Z;
  wheatStays : bool }.

Definition checkPriceErrorBound (price : Price) (wheatReceive sheepSend : Z)
    (canFavorWheat : bool) : outcome bool :=
  let errN := 100 * pn price in
  let errD := 100 * pd price in
  lhs ← bigMultiply errN wheatReceive;
  rhs ← bigMultiply errD sheepSend;
  if canFavorWheat && (lhs <? rhs) then Ok true
  else
    let absDiff := if rhs <? lhs then lhs - rhs else rhs - lhs in
    cap ← bigMultiply (pn price) wheatReceive;
    Ok (absDiff <=? cap).

Definition calculateOfferValue (priceN priceD maxSend maxReceive : Z)
    : outcome Z :=
  sendValue ← bigMultiply maxSend priceN;
  receiveValue ← bigMultiply maxReceive priceD;
  Ok (Z.min sendValue receiveValue).

Definition exchangeV10WithoutPriceErrorThresholds (price : Price)
    (maxWheatSend maxWheatReceive maxSheepSend maxSheepReceive : Z)
    (isPathPayment : bool) : outcome ExchangeResultV10 :=
  wheatValue ←
    calculateOfferValue (pn price) (pd price) maxWheatSend maxSheepReceive;
  sheepValue ←
    calculateOfferValue (pd price) (pn price) maxSheepSend maxWheatReceive;
  let wheatStays := sheepValue <? wheatValue in
  '(wheatReceive, sheepSend) ←
    (if wheatStays then
       if (pd price <? pn price) || isPathPayment then
         wheatReceive ← bigDivide128 sheepValue (pn price) ROUND_DOWN;
         sheepSend ← bigDivide wheatReceive (pn price) (pd price) ROUND_UP;
         Ok (wheatReceive, sheepSend)
       else
         sheepSend ← bigDivide128 sheepValue (pd price) ROUND_DOWN;
         wheatReceive ← bigDivide sheepSend (pd price) (pn price) ROUND_DOWN;
         Ok (wheatReceive, sheepSend)
     else
       if pd price <? pn price then
         wheatReceive ← bigDivide128 wheatValue (pn price) ROUND_DOWN;
         sheepSend ← bigDivide wheatReceive (pn price) (pd price) ROUND_DOWN;
         Ok (wheatReceive, sheepSend)
       else
         sheepSend ← bigDivide128 wheatValue (pd price) ROUND_DOWN;
         wheatReceive ← bigDivide sheepSend (pd price) (pn price) ROUND_UP;
         Ok (wheatReceive, sheepSend));
  if (wheatReceive <? 0) || (Z.min maxWheatReceive maxWheatSend <? wheatReceive)
  then Throw (RuntimeError "wheatReceive out of bounds")
  else if (sheepSend <? 0) || (Z.min maxSheepReceive maxSheepSend <? sheepSend)
  then Throw (RuntimeError "sheepSend out of bounds")
  else Ok (mkV10 wheatReceive sheepSend wheatStays).

Definition applyPriceErrorThresholds (price : Price)
    (wheatReceive sheepSend : Z) (wheatStays isPathPayment : bool)
    : outcome ExchangeResultV10 :=
  if (0 <? wheatReceive) && (0 <? sheepSend) then
    wheatReceiveValue ← bigMultiply wheatReceive (pn price);
    sheepSendValue ← bigMultiply sheepSend (pd price);
    if wheatStays && (sheepSendValue <? wheatReceiveValue)
    then Throw (RuntimeError "favored sheep when wheat stays")
    else if negb wheatStays && (wheatReceiveValue <? sheepSendValue)
    then Throw (RuntimeError "favored wheat when sheep stays")
    else if negb isPathPayment then
      ok ← checkPriceErrorBound price wheatReceive sheepSend false;
      if (ok : bool) then Ok (mkV10 wheatReceive sheepSend wheatStays)
      else Ok (mkV10 0 0 wheatStays)
    else
      ok ← checkPriceErrorBound price wheatReceive sheepSend true;
      if (ok : bool) then Ok (mkV10 wheatReceive sheepSend wheatStays)
      else Throw (RuntimeError "exceeded price error bound")
  else Ok (mkV10 0 0 wheatStays).

Definition exchangeV10 (price : Price)
    (maxWheatSend maxWheatReceive maxSheepSend maxSheepReceive : Z)
    (isPathPayment : bool) : outcome ExchangeResultV10 :=
  before ← exchangeV10WithoutPriceErrorThresholds price maxWheatSend
             maxWheatReceive maxSheepSend maxSheepReceive isPathPayment;
  applyPriceErrorThresholds price (numWheatReceived before)
    (numSheepSend before) (wheatStays before) isPathPayment.

Definition adjustOffer (price : Price) (maxWheatSend maxSheepReceive : Z)
    : outcome Z :=
  res ← exchangeV10 price maxWheatSend INT64_MAX INT64_MAX
          maxSheepReceive false;
  Ok (numWheatReceived res).

Example exchangeV10_doc_example :
  exchangeV10 (mkPrice 2 3) 150 101 INT64_MAX INT64_MAX true
  = Ok (mkV10 101 68 true).
Proof. reflexivity. Qed.
Example exchangeV10_nopath :
  exchangeV10 (mkPrice 2 3) 150 101 INT64_MAX INT64_MAX false
  = Ok (mkV10 100 67 true).
Proof. reflexivity. Qed.

(** * Lemmas *)

Create HintDb offer discriminated.

Lemma amount_price p : valid_price p -> amount (pn p) /\ amount (pd p).
Proof. unfold valid_price; unfold_ints; lia. Qed.

Lemma calculateOfferValue_Ok n d s r :
  amount s -> amount r -> 0 < n <= INT32_MAX -> 0 < d <= INT32_MAX ->
  calculateOfferValue n d s r = Ok (Z.min (s * n) (r * d)).
Proof.
  intros. unfold calculateOfferValue.
  rewrite !bigMultiply_Ok by (unfold_ints; lia). reflexivity.
Qed.

Lemma checkPriceErrorBound_Ok p wr ss fav :
  valid_price p -> amount wr -> amount ss ->
  checkPriceErrorBound p wr ss fav =
    Ok ((fav && (100 * (pn p * wr) <? 100 * (pd p * ss)))
        || (100 * Z.abs (pn p * wr - pd p * ss) <=? pn p * wr)).
Proof.
  intros [Hn Hd] Hwr Hss. unfold checkPriceErrorBound.
  rewrite !bigMultiply_Ok by (unfold_ints; lia). cbn [mbind outcome_bind].
  replace (100 * pn p * wr) with (100 * (pn p * wr)) by ring.
  replace (100 * pd p * ss) with (100 * (pd p * ss)) by ring.
  destruct fav; cbn [andb orb];
    repeat (zcase; cbn [orb]); auto; try lia.
Qed.

(** The amounts exchanged for a value [v] (the smaller of the two offers'),
    in exact arithmetic: [stays] is the direction of the rounding. *)
Definition exact_amounts (p : Price) (v : Z) (stays path : bool) : Z * Z :=
  let r := if stays then ROUND_UP else ROUND_DOWN in
  let r' := if stays then ROUND_DOWN else ROUND_UP in
  if (pd p <? pn p) || (stays && path)
  then let wr := v / pn p in (wr, exact_div (wr * pn p) (pd p) r)
  else let ss := v / pd p in (exact_div (ss * pd p) (pn p) r', ss).

Lemma exact_amounts_bounds p v stays path wr ss :
  valid_price p -> 0 <= v -> exact_amounts p v stays path = (wr, ss) ->
  0 <= wr /\ 0 <= ss /\
  (forall m, v <= m * pn p -> wr <= m) /\ (forall m, v <= m * pd p -> ss <= m).
Proof.
  intros [Hn Hd] Hv. unfold exact_amounts.
  destruct ((pd p <? pn p) || (stays && path)); intros [= <- <-].
  - pose proof (floor_spec v (pn p)).
    set (wr := v / pn p) in *.
    assert (0 <= wr) by nia.
    split; [auto|]. split; [apply exact_div_nonneg; nia|].
    split; intros; [nia|]. apply exact_div_le; nia.
  - pose proof (floor_spec v (pd p)).
    set (ss := v / pd p) in *.
    assert (0 <= ss) by nia.
    split; [apply exact_div_nonneg; nia|]. split; [auto|].
    split; intros; [apply exact_div_le; nia|nia].
Qed.

(** The seller whose offer stays is the one the rounding favours. *)
Lemma exact_amounts_favour p v (stays path : bool) wr ss :
  valid_price p -> exact_amounts p v stays path = (wr, ss) ->
  if stays then wr * pn p <= ss * pd p else ss * pd p <= wr * pn p.
Proof.
  intros [Hn Hd]. unfold exact_amounts.
  destruct ((pd p <? pn p) || (stays && path)); intros [= <- <-];
    [pose proof (exact_div_spec (v / pn p * pn p) (pd p)
        (if stays then ROUND_UP else ROUND_DOWN))
    |pose proof (exact_div_spec (v / pd p * pd p) (pn p)
        (if stays then ROUND_DOWN else ROUND_UP))];
    destruct stays; lia.
Qed.

Definition wheatValue_of (p : Price) (mws msr : Z) : Z :=
  Z.min (mws * pn p) (msr * pd p).
Definition sheepValue_of (p : Price) (mwr mss : Z) : Z :=
  Z.min (mss * pd p) (mwr * pn p).

Lemma offer_value_range n d a b :
  0 < n <= INT32_MAX -> 0 < d <= INT32_MAX -> amount a -> amount b ->
  in_u128 (Z.min (a * n) (b * d)).
Proof.
  unfold_ints. intros.
  assert (0 <= a * n) by nia. assert (0 <= b * d) by nia.
  assert (a * n <= 9223372036854775807 * 2147483647) by nia. lia.
Qed.

Section V10.
Context (p : Price) (mws mwr mss msr : Z) (path : bool).
Context (Hp : valid_price p).
Context (Hmws : amount mws) (Hmwr : amount mwr).
Context (Hmss : amount mss) (Hmsr : amount msr).
Local Abbreviation wheatValue := (wheatValue_of p mws msr).
Local Abbreviation sheepValue := (sheepValue_of p mwr mss).

Lemma V10_amounts_in_bounds v stays wr ss :
  0 <= v -> v <= wheatValue -> v <= sheepValue ->
  exact_amounts p v stays path = (wr, ss) ->
  0 <= wr <= Z.min mwr mws /\ 0 <= ss <= Z.min msr mss.
Proof.
  intros Hv Hw Hs E.
  destruct (exact_amounts_bounds p v stays path wr ss)
    as (? & ? & Bw & Bs); auto.
  unfold wheatValue_of, sheepValue_of in *.
  pose proof (Bw mwr). pose proof (Bw mws).
  pose proof (Bs msr). pose proof (Bs mss). lia.
Qed.

(** The division steps of exchangeV10 compute the exact amounts. *)
Lemma V10_divisions v stays wr ss :
  in_u128 v -> v <= wheatValue -> v <= sheepValue ->
  exact_amounts p v stays path = (wr, ss) ->
  (if (pd p <? pn p) || (stays && path)
   then w ← bigDivide128 v (pn p) ROUND_DOWN;
        s ← bigDivide w (pn p) (pd p) (if stays then ROUND_UP else ROUND_DOWN);
        Ok (w, s)
   else s ← bigDivide128 v (pd p) ROUND_DOWN;
        w ← bigDivide s (pd p) (pn p) (if stays then ROUND_DOWN else ROUND_UP);
        Ok (w, s)) = Ok (wr, ss).
Proof.
  intros Hv Hw Hs E.
  destruct (amount_price p Hp) as [Han Had]. destruct Hp as [Hn Hd].
  assert (v <= mwr * pn p) by (unfold sheepValue_of in *; lia).
  assert (v <= mss * pd p) by (unfold sheepValue_of in *; lia).
  pose proof (floor_spec v (pn p) ltac:(lia)) as Fn.
  pose proof (floor_spec v (pd p) ltac:(lia)) as Fd.
  assert (0 <= v) by apply Hv.
  unfold exact_amounts in E.
  destruct ((pd p <? pn p) || (stays && path)); injection E as <- <-.
  - rewrite (bigDivide128_Ok v (pn p) ROUND_DOWN mwr)
      by (auto; unfold_ints; lia).
    cbn [exact_div mbind outcome_bind].
    assert (0 <= v / pn p <= mwr) by nia.
    rewrite (bigDivide_Ok _ _ _ _ mss) by (unfold_ints; lia). reflexivity.
  - rewrite (bigDivide128_Ok v (pd p) ROUND_DOWN mss)
      by (auto; unfold_ints; lia).
    cbn [exact_div mbind outcome_bind].
    assert (0 <= v / pd p <= mss) by nia.
    rewrite (bigDivide_Ok _ _ _ _ mwr) by (unfold_ints; lia). reflexivity.
Qed.

Lemma exchangeV10_before_eq :
  let stays := sheepValue <? wheatValue in
  let a := exact_amounts p (Z.min wheatValue sheepValue) stays path in
  exchangeV10WithoutPriceErrorThresholds p mws mwr mss msr path =
    Ok (mkV10 a.1 a.2 stays).
Proof.
  intros stays a. destruct Hp as [Hn Hd].
  assert (in_u128 wheatValue /\ in_u128 sheepValue) as [Hwv Hsv]
    by (split; apply offer_value_range; auto).
  assert (in_u128 (Z.min wheatValue sheepValue)) by (unfold_ints; lia).
  assert (exact_amounts p (Z.min wheatValue sheepValue) stays path
          = (a.1, a.2)) as E by (subst a; by destruct exact_amounts).
  pose proof (V10_divisions _ stays _ _ ltac:(eassumption)
                ltac:(lia) ltac:(lia) E) as Hdiv.
  assert (0 <= Z.min wheatValue sheepValue) as Hmin0
    by (unfold_ints; lia).
  destruct (V10_amounts_in_bounds _ _ _ _ Hmin0
              ltac:(lia) ltac:(lia) E) as [Bw Bs].
  clearbody a. unfold exchangeV10WithoutPriceErrorThresholds.
  rewrite !calculateOfferValue_Ok by auto. cbn [mbind outcome_bind].
  fold (wheatValue_of p mws msr) (sheepValue_of p mwr mss). fold stays.
  assert (forall b : bool, stays = b ->
    Z.min wheatValue sheepValue
    = if b then sheepValue else wheatValue) as Hmin.
  { intros b <-. subst stays. zcase; lia. }
  rewrite (Hmin stays) in Hdiv by auto. clearbody stays.
  destruct stays; cbn [andb] in Hdiv; rewrite ?orb_false_r in Hdiv;
    cbn [mbind outcome_bind] in Hdiv |- *;
    rewrite Hdiv; cbn [mbind outcome_bind];
    (destruct (Z.ltb_spec a.1 0); [lia|]);
    (destruct (Z.ltb_spec (Z.min mwr mws) a.1); [lia|]);
    (destruct (Z.ltb_spec a.2 0); [lia|]);
    (destruct (Z.ltb_spec (Z.min msr mss) a.2); [lia|]); reflexivity.
Qed.
End V10.

(** When the amounts favour the right side, the thresholds reduce to the one
    percent test, which a favoured wheat seller passes for free in a path
    payment. *)
Lemma applyPriceErrorThresholds_eq p wr ss (stays path : bool) :
  valid_price p -> amount wr -> amount ss ->
  (if stays then wr * pn p <= ss * pd p else ss * pd p <= wr * pn p) ->
  applyPriceErrorThresholds p wr ss stays path =
    if (0 <? wr) && (0 <? ss) then
      if (path && stays) || (100 * Z.abs (pn p * wr - pd p * ss) <=? pn p * wr)
      then Ok (mkV10 wr ss stays)
      else if path then Throw (RuntimeError "exceeded price error bound")
      else Ok (mkV10 0 0 stays)
    else Ok (mkV10 0 0 stays).
Proof.
  intros Hp Hwr Hss Hfav. destruct (amount_price p Hp) as [Han Had].
  unfold applyPriceErrorThresholds.
  destruct ((0 <? wr) && (0 <? ss)) eqn:Epos; auto. zbool.
  assert (0 <= pn p * wr) by (unfold_ints; nia).
  rewrite !bigMultiply_Ok by auto. cbn [mbind outcome_bind].
  destruct (Z.ltb_spec (ss * pd p) (wr * pn p));
    destruct (Z.ltb_spec (wr * pn p) (ss * pd p));
    destruct stays; cbn [andb negb]; try lia;
    rewrite !checkPriceErrorBound_Ok by auto; cbn [mbind outcome_bind];
    destruct path; cbn [andb orb negb];
    destruct (Z.leb_spec (100 * Z.abs (pn p * wr - pd p * ss)) (pn p * wr));
    destruct (Z.ltb_spec (100 * (pn p * wr)) (100 * (pd p * ss)));
    cbn [andb orb]; try reflexivity; lia.
Qed.

(** Everything the theorems need of one exchange, at once. *)
Lemma exchangeV10_inv p mws mwr mss msr path :
  valid_price p -> amount mws -> amount mwr -> amount mss -> amount msr ->
  let wv := wheatValue_of p mws msr in
  let sv := sheepValue_of p mwr mss in
  exists wr ss : Z,
    let stays := sv <? wv in
    exact_amounts p (Z.min wv sv) stays path = (wr, ss) /\
    0 <= wr <= Z.min mwr mws /\ 0 <= ss <= Z.min msr mss /\
    (if stays then wr * pn p <= ss * pd p else ss * pd p <= wr * pn p) /\
    exchangeV10 p mws mwr mss msr path =
      applyPriceErrorThresholds p wr ss stays path.
Proof.
  intros Hp Hmws Hmwr Hmss Hmsr wv sv.
  assert (in_u128 wv /\ in_u128 sv) as [Hwv Hsv]
    by (destruct Hp; split; apply offer_value_range; auto).
  destruct (exact_amounts p (Z.min wv sv) (sv <? wv) path) as [wr ss] eqn:E.
  exists wr, ss. split; [auto|].
  destruct (V10_amounts_in_bounds p mws mwr mss msr path
              Hp (Z.min wv sv) (sv <? wv) wr ss) as [Bw Bs];
    [unfold_ints; lia | lia | lia | exact E |].
  split; [auto|]. split; [auto|].
  split; [exact (exact_amounts_favour p _ _ path _ _ Hp E)|].
  unfold exchangeV10. rewrite exchangeV10_before_eq by auto.
  fold wv sv. cbn. by rewrite E.
Qed.

(** * Properties *)

(** The contract of the header comment of [exchangeV10]. *)
Record v10_contract (p : Price) (mws mwr mss msr : Z)
    (res : ExchangeResultV10) : Prop := {
  v10_wheat_bound : 0 <= numWheatReceived res <= Z.min mwr mws;
  v10_sheep_bound : 0 <= numSheepSend res <= Z.min msr mss;
  v10_smaller_leaves :
    wheatStays res = true <->
    Z.min (mss * pd p) (mwr * pn p) < Z.min (mws * pn p) (msr * pd p);
  v10_favours_stayer :
    if wheatStays res
    then numWheatReceived res * pn p <= numSheepSend res * pd p
    else numSheepSend res * pd p <= numWheatReceived res * pn p;
  v10_all_or_nothing :
    (numWheatReceived res = 0 <-> numSheepSend res = 0) }.

(** The relative error between the price and the effective price is at most
    one percent. *)
Definition within_one_percent (p : Price) (res : ExchangeResultV10) : Prop :=
  100 * Z.abs (pn p * numWheatReceived res - pd p * numSheepSend res)
    <= pn p * numWheatReceived res.

Lemma v10_contract_intro p mws mwr mss msr wr ss (stays : bool) :
  0 <= wr <= Z.min mwr mws -> 0 <= ss <= Z.min msr mss ->
  stays = (Z.min (mss * pd p) (mwr * pn p) <? Z.min (mws * pn p) (msr * pd p)) ->
  (if stays then wr * pn p <= ss * pd p else ss * pd p <= wr * pn p) ->
  (0 < wr <-> 0 < ss) ->
  v10_contract p mws mwr mss msr (mkV10 wr ss stays).
Proof.
  intros Hw Hs -> Hf Hz. split; cbn; auto; [apply Z.ltb_lt | lia].
Qed.

Lemma v10_zero_contract p mws mwr mss msr stays :
  amount mws -> amount mwr -> amount mss -> amount msr ->
  stays = (Z.min (mss * pd p) (mwr * pn p) <? Z.min (mws * pn p) (msr * pd p)) ->
  v10_contract p mws mwr mss msr (mkV10 0 0 stays).
Proof.
  intros. apply v10_contract_intro; auto; unfold_ints; try lia.
  by destruct stays.
Qed.

(** What [adjustOffer] returns: an unlimited buyer takes the whole offer. *)
Definition adjusted (p : Price) (w r : Z) : Z :=
  let a := exact_amounts p (Z.min (w * pn p) (r * pd p)) false false in
  if (0 <? a.1) && (0 <? a.2)
     && (100 * Z.abs (pn p * a.1 - pd p * a.2) <=? pn p * a.1)
  then a.1 else 0.

Lemma sheep_stays_against_unlimited p w r :
  valid_price p -> amount w -> amount r ->
  wheatValue_of p w r <= sheepValue_of p INT64_MAX INT64_MAX.
Proof.
  intros [Hn Hd] Hw Hr. unfold wheatValue_of, sheepValue_of. unfold_ints. nia.
Qed.

Lemma adjustOffer_eq p w r :
  valid_price p -> amount w -> amount r ->
  adjustOffer p w r = Ok (adjusted p w r).
Proof.
  intros Hp Hw Hr. unfold adjustOffer.
  assert (amount INT64_MAX) as Hmax by (unfold_ints; lia).
  destruct (exchangeV10_inv p w INT64_MAX INT64_MAX r false)
    as (wr & ss & E & Bw & Bs & Hf & ->); auto.
  pose proof (sheep_stays_against_unlimited p w r Hp Hw Hr).
  revert E Hf. rewrite (proj2 (Z.ltb_ge _ _)) by lia.
  rewrite Z.min_l by lia. intros E Hf.
  rewrite applyPriceErrorThresholds_eq by (auto; unfold_ints; lia).
  unfold wheatValue_of in E. unfold adjusted. rewrite E.
  cbn [andb orb fst snd].
  destruct ((0 <? wr) && (0 <? ss)), (_ <=? _); reflexivity.
Qed.

Lemma exact_amounts_stable p w r wr ss :
  valid_price p -> amount w -> amount r ->
  exact_amounts p (Z.min (w * pn p) (r * pd p)) false false = (wr, ss) ->
  exact_amounts p (Z.min (wr * pn p) (r * pd p)) false false = (wr, ss).
Proof.
  intros Hp Hw Hr E.
  set (v := Z.min (w * pn p) (r * pd p)) in *.
  destruct (exact_amounts_bounds p v false false wr ss Hp) as (? & ? & Bw & Bs);
    [destruct Hp; unfold_ints; nia | exact E |].
  pose proof (Bw w ltac:(lia)). pose proof (Bs r ltac:(lia)).
  pose proof (exact_amounts_favour p _ _ _ _ _ Hp E) as Hf. cbn in Hf.
  destruct Hp as [Hn Hd]. revert E. unfold exact_amounts. cbn [andb].
  destruct (Z.ltb_spec (pd p) (pn p)); cbn [orb]; intros [= <- <-].
  - pose proof (floor_spec v (pn p) ltac:(lia)).
    rewrite Z.min_l by lia. rewrite Z.div_mul by lia. reflexivity.
  - set (ss := v / pd p) in *. unfold exact_div in *.
    set (wr := (ss * pd p + pn p - 1) / pn p) in *.
    pose proof (floor_spec v (pd p) ltac:(lia)) as Fv. fold ss in Fv.
    assert (wr * pn p <= w * pn p) by (apply Z.mul_le_mono_nonneg_r; lia).
    assert (v = Z.min (w * pn p) (r * pd p)) by reflexivity.
    assert (Z.min (wr * pn p) (r * pd p) / pd p = ss) as Hss
      by (apply floor_unique; lia).
    cbn beta zeta. rewrite Hss. reflexivity.
Qed.

Lemma adjusted_bounds p w r :
  valid_price p -> amount w -> amount r -> 0 <= adjusted p w r <= w.
Proof.
  intros Hp Hw Hr. unfold adjusted.
  destruct (exact_amounts p _ false false) as [wr ss] eqn:E.
  assert (0 <= Z.min (w * pn p) (r * pd p)) as H0
    by (destruct Hp; unfold_ints; nia).
  destruct (exact_amounts_bounds p _ false false wr ss Hp H0 E)
    as (? & ? & Bw & Bs).
  pose proof (Bw w ltac:(lia)). cbn [fst snd].
  destruct (_ && _ && _); unfold_ints; lia.
Qed.

Lemma adjusted_stable p w r :
  valid_price p -> amount w -> amount r ->
  adjusted p (adjusted p w r) r = adjusted p w r.
Proof.
  intros Hp Hw Hr.
  destruct (Z.eq_dec (adjusted p w r) 0) as [->|Hnz].
  - pose proof (adjusted_bounds p 0 r Hp). unfold_ints. lia.
  - revert Hnz. unfold adjusted at 1 3 4.
    destruct (exact_amounts p (Z.min (w * pn p) (r * pd p)) false false)
      as [wr ss] eqn:E. cbn [fst snd].
    destruct (_ && _ && _) eqn:Eg; [intros _|lia].
    unfold adjusted. rewrite (exact_amounts_stable p w r wr ss) by auto.
    cbn [fst snd]. by rewrite Eg.
Qed.

(** The two kinds of operation, separately and together. *)
Lemma exchangeV10_nopath_total p mws mwr mss msr :
  valid_price p -> amount mws -> amount mwr -> amount mss -> amount msr ->
  exists res,
    exchangeV10 p mws mwr mss msr false = Ok res /\
    v10_contract p mws mwr mss msr res /\ within_one_percent p res.
Proof.
  intros Hp Hmws Hmwr Hmss Hmsr.
  destruct (exchangeV10_inv p mws mwr mss msr false)
    as (wr & ss & E & Bw & Bs & Hf & ->); auto.
  rewrite applyPriceErrorThresholds_eq by (auto; unfold_ints; lia).
  unfold wheatValue_of, sheepValue_of in *. cbn [andb orb].
  destruct (Z.ltb_spec 0 wr), (Z.ltb_spec 0 ss); cbn [andb];
    try (eexists; split; [done|]; split;
         [by apply v10_zero_contract | unfold within_one_percent; cbn; lia]).
  destruct (Z.leb_spec (100 * Z.abs (pn p * wr - pd p * ss)) (pn p * wr)).
  - eexists; split; [done|]; split; [by apply v10_contract_intro | done].
  - eexists; split; [done|]; split;
      [by apply v10_zero_contract | unfold within_one_percent; cbn; lia].
Qed.

(** The sample offer the witnesses use: 3 sheep for 2 wheat. *)
Definition sample_price : Price := mkPrice 3 2.
Lemma sample_price_valid : valid_price sample_price.
Proof. unfold valid_price; cbn; unfold_ints; lia. Qed.

Lemma exchangeV10_path_total p mws mwr mss msr :
  valid_price p -> amount mws -> amount mwr -> amount mss -> amount msr ->
  adjusted p mws msr = mws ->
  exists res,
    exchangeV10 p mws mwr mss msr true = Ok res /\
    v10_contract p mws mwr mss msr res /\
    (wheatStays res = false -> numWheatReceived res = mws).
Proof.
  intros Hp Hmws Hmwr Hmss Hmsr Hadj.
  destruct (exchangeV10_inv p mws mwr mss msr true)
    as (wr & ss & E & Bw & Bs & Hf & ->); auto.
  rewrite applyPriceErrorThresholds_eq by (auto; unfold_ints; lia).
  unfold wheatValue_of, sheepValue_of in *.
  destruct (Z.ltb_spec (Z.min (mss * pd p) (mwr * pn p))
              (Z.min (mws * pn p) (msr * pd p))) as [Hlt|Hge]; cbn [andb orb].
  - assert (true = (Z.min (mss * pd p) (mwr * pn p)
              <? Z.min (mws * pn p) (msr * pd p))) as Est
      by (symmetry; by apply Z.ltb_lt).
    destruct (Z.ltb_spec 0 wr), (Z.ltb_spec 0 ss); cbn [andb];
      (eexists; split; [done|]; split; [|done]);
      first [by apply v10_zero_contract | by apply v10_contract_intro].
  - assert (false = (Z.min (mss * pd p) (mwr * pn p)
              <? Z.min (mws * pn p) (msr * pd p))) as Est
      by (symmetry; by apply Z.ltb_ge).
    rewrite Z.min_l in E by lia.
    assert (exact_amounts p (Z.min (mws * pn p) (msr * pd p)) false false
            = (wr, ss)) as E' by exact E.
    unfold adjusted in Hadj. rewrite E' in Hadj. cbn [fst snd] in Hadj.
    destruct ((0 <? wr) && (0 <? ss)) eqn:Epos; cbn [andb] in Hadj.
    + destruct (_ <=? _).
      * zbool. eexists; split; [done|]; split; [by apply v10_contract_intro|done].
      * zbool. lia.
    + eexists; split; [done|]; split; [by apply v10_zero_contract|].
      cbn. by intros _.
Qed.

Lemma exchangeV10_total p mws mwr mss msr path :
  valid_price p -> amount mws -> amount mwr -> amount mss -> amount msr ->
  (path = true -> adjusted p mws msr = mws) ->
  exists res,
    exchangeV10 p mws mwr mss msr path = Ok res /\
    v10_contract p mws mwr mss msr res /\
    (path = false -> within_one_percent p res) /\
    (path = true -> wheatStays res = false -> numWheatReceived res = mws).
Proof.
  intros. destruct path.
  - destruct (exchangeV10_path_total p mws mwr mss msr) as (res & ? & ? & ?);
      auto. exists res. by repeat split_and!.
  - destruct (exchangeV10_nopath_total p mws mwr mss msr) as (res & ? & ? & ?);
      auto. exists res. by repeat split_and!.
Qed.

(** C18. Crossing two offers at protocol 10 (not in a path payment) never
    throws, trades within all four limits, removes the smaller offer, rounds
    in favour of the offer that stays, trades both assets or neither, and
    the effective price is within one percent of the offer's price. *)
Theorem exchangeV10_correct p mws mwr mss msr :
  valid_price p -> amount mws -> amount mwr -> amount mss -> amount msr ->
  exists res,
    exchangeV10 p mws mwr mss msr false = Ok res /\
    v10_contract p mws mwr mss msr res /\ within_one_percent p res.
Proof.
  intros. destruct (exchangeV10_total p mws mwr mss msr false)
    as (res & ? & ? & ? & _); auto; [done|]. exists res. auto.
Qed.

Lemma exchangeV10_correct_witness :
  valid_price sample_price /\ amount 100 /\
  exists res, exchangeV10 sample_price 100 70 100 100 false = Ok res /\
    v10_contract sample_price 100 70 100 100 res /\
    within_one_percent sample_price res.
Proof.
  assert (forall z, 0 <= z <= 100 -> amount z) as A by (unfold_ints; lia).
  split; [exact sample_price_valid|]. split; [apply A; lia|].
  apply (exchangeV10_correct sample_price 100 70 100 100);
    first [exact sample_price_valid | apply A; lia].
Defined.

(** [adjustOffer] never throws, never increases an offer, and has no
    effect on an offer it has already adjusted. *)
Theorem adjustOffer_idempotent p maxWheatSend maxSheepReceive :
  valid_price p -> amount maxWheatSend -> amount maxSheepReceive ->
  exists a,
    adjustOffer p maxWheatSend maxSheepReceive = Ok a /\
    0 <= a <= maxWheatSend /\
    adjustOffer p a maxSheepReceive = Ok a.
Proof.
  intros Hp Hw Hr. exists (adjusted p maxWheatSend maxSheepReceive).
  pose proof (adjusted_bounds _ _ _ Hp Hw Hr).
  split; [by apply adjustOffer_eq|]. split; [auto|].
  rewrite adjustOffer_eq by (auto; unfold_ints; lia).
  f_equal. by apply adjusted_stable.
Qed.

Lemma adjustOffer_idempotent_witness :
  valid_price sample_price /\
  exists a, adjustOffer sample_price 101 150 = Ok a /\ 0 <= a <= 101 /\
    adjustOffer sample_price a 150 = Ok a.
Proof.
  split; [exact sample_price_valid|].
  apply (adjustOffer_idempotent sample_price 101 150);
    first [exact sample_price_valid | unfold_ints; lia].
Defined.

(** Crossing an adjusted offer in a path payment never throws (the one
    percent test cannot fail), and an offer that does not stay is taken
    entirely, so that removing it from the book loses nothing. *)
Theorem exchangeV10_path_adjusted p mws mwr mss msr :
  valid_price p -> amount mws -> amount mwr -> amount mss -> amount msr ->
  adjustOffer p mws msr = Ok mws ->
  exists res,
    exchangeV10 p mws mwr mss msr true = Ok res /\
    v10_contract p mws mwr mss msr res /\
    (wheatStays res = false -> numWheatReceived res = mws).
Proof.
  intros Hp ? ? ? ? Hadj. rewrite adjustOffer_eq in Hadj by auto.
  injection Hadj as Hadj. destruct (exchangeV10_total p mws mwr mss msr true)
    as (res & ? & ? & _ & ?); auto. exists res. auto.
Qed.

Lemma exchangeV10_path_adjusted_witness :
  adjustOffer sample_price 100 150 = Ok 100 /\
  exists res, exchangeV10 sample_price 100 1000 1000 150 true = Ok res /\
    v10_contract sample_price 100 1000 1000 150 res /\
    (wheatStays res = false -> numWheatReceived res = 100).
Proof.
  split; [reflexivity|].
  apply (exchangeV10_path_adjusted sample_price 100 1000 1000 150);
    first [exact sample_price_valid | reflexivity | unfold_ints; lia].
Defined.

(** In a path payment the offer that stays delivers exactly the wheat the
    path needs, for the rounded-up price, whenever the sender's sheep can pay
    for it. *)
Theorem exchangeV10_path_exact p mws mwr mss msr :
  valid_price p -> amount mws -> 0 < mwr <= INT64_MAX -> amount mss ->
  amount msr ->
  mwr * pn p <= mss * pd p ->
  mwr * pn p < Z.min (mws * pn p) (msr * pd p) ->
  exchangeV10 p mws mwr mss msr true =
    Ok (mkV10 mwr (exact_div (mwr * pn p) (pd p) ROUND_UP) true).
Proof.
  intros Hp Hmws Hmwr Hmss Hmsr Hpay Hlt.
  destruct (exchangeV10_inv p mws mwr mss msr true)
    as (wr & ss & E & Bw & Bs & Hf & ->); auto; [unfold_ints; lia|].
  unfold wheatValue_of, sheepValue_of in *. destruct Hp as [Hn Hd].
  rewrite (Z.min_r (mss * pd p)) in * by lia.
  rewrite (proj2 (Z.ltb_lt _ _)) in * by lia.
  rewrite Z.min_r in E by lia.
  unfold exact_amounts in E. rewrite orb_true_r in E.
  rewrite Z.div_mul in E by lia. injection E as <- <-.
  pose proof (exact_div_spec (mwr * pn p) (pd p) ROUND_UP ltac:(lia)) as Hs.
  cbn [andb] in *. set (ss := exact_div _ _ _) in *.
  assert (0 < ss) by nia.
  rewrite applyPriceErrorThresholds_eq by (done || (unfold_ints; lia)).
  rewrite !(proj2 (Z.ltb_lt _ _)) by lia. reflexivity.
Qed.

Lemma exchangeV10_path_exact_witness :
  valid_price (mkPrice 2 3) /\
  exchangeV10 (mkPrice 2 3) 150 101 INT64_MAX INT64_MAX true =
    Ok (mkV10 101 68 true).
Proof.
  assert (valid_price (mkPrice 2 3))
    by (unfold valid_price; cbn; unfold_ints; lia).
  split; [done|].
  rewrite (exchangeV10_path_exact (mkPrice 2 3) 150 101 INT64_MAX INT64_MAX);
    cbn; unfold_ints; first [done | lia].
Defined.
