(* ===== verification/Types.v ===== *)
(** The ledger's data: the XDR types of [src/src/xdr/Stellar-ledger-entries.x]
    and [Stellar-ledger.x] that the modelled code uses, and the helpers of
    [src/src/util/types.cpp] on assets, keys and strings.

    A 256-bit key or hash is the number its bytes spell, most significant
    byte first, so that the lexicographic order of the bytes is the order of
    the numbers.  Asset codes stay lists of bytes, because the code inspects
    them one by one. *)

From S2P Require Import Prelude Numeric OfferMath.

Abbreviation AccountID := Z (only parsing).
Abbreviation Hash := Z (only parsing).

(** * Assets *)
Inductive Asset :=
  | ASSET_NATIVE
  | ALPHANUM4 (assetCode : list Z) (issuer : AccountID)
  | ALPHANUM12 (assetCode : list Z) (issuer : AccountID).

#[export] Instance Asset_eq_dec : EqDecision Asset.
Proof. solve_decision. Defined.
#[export] Instance Asset_countable : Countable Asset.
Proof.
  refine (inj_countable'
    (fun a => match a with
              | ASSET_NATIVE => inl tt
              | ALPHANUM4 c i => inr (inl (c, i))
              | ALPHANUM12 c i => inr (inr (c, i))
              end)
    (fun x => match x with
              | inl _ => ASSET_NATIVE
              | inr (inl (c, i)) => ALPHANUM4 c i
              | inr (inr (c, i)) => ALPHANUM12 c i
              end) _); by intros [].
Defined.

Definition is_native (a : Asset) : bool :=
  match a with ASSET_NATIVE => true | _ => false end.

(** [b > 0x7F || !isalnum(b)], in the C locale. *)
Definition isalnum (b : Z) : bool :=
  ((48 <=? b) && (b <=? 57)) || ((65 <=? b) && (b <=? 90))
  || ((97 <=? b) && (b <=? 122)).

(** The scan of [isAssetValid]: [zeros] is set at the first zero byte, and
    the number of characters is counted; [None] is the early [return false]. *)
Fixpoint scanAssetCode (code : list Z) (zeros : bool) (charcount : nat)
    : option nat :=
  match code with
  | [] => Some charcount
  | b :: rest =>
      if b =? 0 then scanAssetCode rest true charcount
      else if zeros then None
      else if (127 <? b) || negb (isalnum b) then None
      else scanAssetCode rest zeros (S charcount)
  end.

Definition isAssetValid (cur : Asset) : bool :=
  match cur with
  | ASSET_NATIVE => true
  | ALPHANUM4 code _ =>
      match scanAssetCode code false 0 with
      | Some n => bool_decide (0 < n)%nat
      | None => false
      end
  | ALPHANUM12 code _ =>
      match scanAssetCode code false 0 with
      | Some n => bool_decide (4 < n)%nat
      | None => false
      end
  end.

(** Reading [alphaNum12] of a native asset is an access to the wrong arm of
    the union, which throws. *)
Definition getIssuer (asset : Asset) : outcome AccountID :=
  match asset with
  | ALPHANUM4 _ i => Ok i
  | ALPHANUM12 _ i => Ok i
  | ASSET_NATIVE => Throw (RuntimeError "Asset: alphaNum12 accessed when not selected")
  end.

Definition compareAsset (first second : Asset) : bool :=
  match first, second with
  | ASSET_NATIVE, ASSET_NATIVE => true
  | ALPHANUM4 c i, ALPHANUM4 c' i' => (i =? i') && bool_decide (c = c')
  | ALPHANUM12 c i, ALPHANUM12 c' i' => (i =? i') && bool_decide (c = c')
  | _, _ => false
  end.

(** * Strings and hashes *)
Definition iscntrl (c : Z) : bool := (c <? 32) || (c =? 127).
Definition ascii_code (a : Ascii.ascii) : Z := Z.of_N (Ascii.N_of_ascii a).
Definition isString32Valid (str : string) : bool :=
  forallb (fun a => negb ((127 <? ascii_code a) || iscntrl (ascii_code a)))
    (String.list_ascii_of_string str).

Definition isZero (b : Hash) : bool := b =? 0.
Definition lessThanXored (l r x : Hash) : bool := Z.lxor x l <? Z.lxor x r.

(** * Entries *)
Record Liabilities := mkLiabilities { buying : Z; selling : Z }.

Inductive SignerKey :=
  | SIGNER_KEY_ED25519 (ed25519 : Z)
  | SIGNER_KEY_PRE_AUTH_TX (preAuthTx : Z)
  | SIGNER_KEY_HASH_X (hashX : Z).

Record Signer := mkSigner { signer_key : SignerKey; signer_weight : Z }.

Record Thresholds := mkThresholds {
  masterWeight : Z; thLow : Z; thMed : Z; thHigh : Z }.

Record AccountEntry := mkAccount {
  acc_id : AccountID;
  acc_balance : Z;
  acc_seqNum : Z;
  acc_marker : string;
  acc_numSubEntries : Z;
  acc_inflationDest : option AccountID;
  acc_flags : Z;
  acc_homeDomain : string;
  acc_thresholds : Thresholds;
  acc_signers : list Signer;
  acc_ext : option Liabilities }.   (* [None]: ext.v() == 0 *)

Record TrustLineEntry := mkTrustLine {
  tl_account : AccountID;
  tl_asset : Asset;
  tl_balance : Z;
  tl_limit : Z;
  tl_flags : Z;
  tl_ext : option Liabilities }.

Record OfferEntry := mkOffer {
  of_seller : AccountID;
  of_offerID : Z;
  of_selling : Asset;
  of_buying : Asset;
  of_amount : Z;
  of_price : Price;
  of_flags : Z }.

Record DataEntry := mkData {
  da_account : AccountID;
  da_name : string;
  da_value : list Z }.

Inductive LedgerEntryData :=
  | ACCOUNT (account : AccountEntry)
  | TRUSTLINE (trustLine : TrustLineEntry)
  | OFFER (offer : OfferEntry)
  | DATA (data : DataEntry).

Record LedgerEntry := mkEntry {
  lastModifiedLedgerSeq : Z;
  le_data : LedgerEntryData }.

#[export] Instance Liabilities_eq_dec : EqDecision Liabilities.
Proof. solve_decision. Defined.
#[export] Instance SignerKey_eq_dec : EqDecision SignerKey.
Proof. solve_decision. Defined.
#[export] Instance SignerKey_countable : Countable SignerKey.
Proof.
  refine (inj_countable'
    (fun k => match k with
              | SIGNER_KEY_ED25519 x => inl x
              | SIGNER_KEY_PRE_AUTH_TX x => inr (inl x)
              | SIGNER_KEY_HASH_X x => inr (inr x)
              end)
    (fun x => match x with
              | inl x => SIGNER_KEY_ED25519 x
              | inr (inl x) => SIGNER_KEY_PRE_AUTH_TX x
              | inr (inr x) => SIGNER_KEY_HASH_X x
              end) _); by intros [].
Defined.
#[export] Instance Signer_eq_dec : EqDecision Signer.
Proof. solve_decision. Defined.
#[export] Instance Thresholds_eq_dec : EqDecision Thresholds.
Proof. solve_decision. Defined.
#[export] Instance AccountEntry_eq_dec : EqDecision AccountEntry.
Proof. solve_decision. Defined.
#[export] Instance TrustLineEntry_eq_dec : EqDecision TrustLineEntry.
Proof. solve_decision. Defined.
#[export] Instance OfferEntry_eq_dec : EqDecision OfferEntry.
Proof. solve_decision. Defined.
#[export] Instance DataEntry_eq_dec : EqDecision DataEntry.
Proof. solve_decision. Defined.
#[export] Instance LedgerEntryData_eq_dec : EqDecision LedgerEntryData.
Proof. solve_decision. Defined.
#[export] Instance LedgerEntry_eq_dec : EqDecision LedgerEntry.
Proof. solve_decision. Defined.

(** Flags *)
Definition AUTH_REQUIRED_FLAG : Z := 1.
Definition AUTH_REVOCABLE_FLAG : Z := 2.
Definition AUTH_IMMUTABLE_FLAG : Z := 4.
Definition MASK_ACCOUNT_FLAGS : Z := 7.
Definition AUTHORIZED_FLAG : Z := 1.
Definition PASSIVE_FLAG : Z := 1.

(** Assignments to one field of an entry. *)
Definition set_balance (b : Z) (a : AccountEntry) : AccountEntry :=
  mkAccount (acc_id a) b (acc_seqNum a) (acc_marker a) (acc_numSubEntries a)
    (acc_inflationDest a) (acc_flags a) (acc_homeDomain a) (acc_thresholds a)
    (acc_signers a) (acc_ext a).
Definition set_seqNum (s : Z) (a : AccountEntry) : AccountEntry :=
  mkAccount (acc_id a) (acc_balance a) s (acc_marker a) (acc_numSubEntries a)
    (acc_inflationDest a) (acc_flags a) (acc_homeDomain a) (acc_thresholds a)
    (acc_signers a) (acc_ext a).
Definition set_numSubEntries (n : Z) (a : AccountEntry) : AccountEntry :=
  mkAccount (acc_id a) (acc_balance a) (acc_seqNum a) (acc_marker a) n
    (acc_inflationDest a) (acc_flags a) (acc_homeDomain a) (acc_thresholds a)
    (acc_signers a) (acc_ext a).
Definition set_ext (e : option Liabilities) (a : AccountEntry) : AccountEntry :=
  mkAccount (acc_id a) (acc_balance a) (acc_seqNum a) (acc_marker a)
    (acc_numSubEntries a) (acc_inflationDest a) (acc_flags a)
    (acc_homeDomain a) (acc_thresholds a) (acc_signers a) e.
Definition set_inflationDest (d : option AccountID) (a : AccountEntry) : AccountEntry :=
  mkAccount (acc_id a) (acc_balance a) (acc_seqNum a) (acc_marker a) (acc_numSubEntries a)
    d (acc_flags a) (acc_homeDomain a) (acc_thresholds a)
    (acc_signers a) (acc_ext a).
Definition set_flags (f : Z) (a : AccountEntry) : AccountEntry :=
  mkAccount (acc_id a) (acc_balance a) (acc_seqNum a) (acc_marker a) (acc_numSubEntries a)
    (acc_inflationDest a) f (acc_homeDomain a) (acc_thresholds a)
    (acc_signers a) (acc_ext a).
Definition set_homeDomain (d : string) (a : AccountEntry) : AccountEntry :=
  mkAccount (acc_id a) (acc_balance a) (acc_seqNum a) (acc_marker a) (acc_numSubEntries a)
    (acc_inflationDest a) (acc_flags a) d (acc_thresholds a)
    (acc_signers a) (acc_ext a).
Definition set_thresholds (t : Thresholds) (a : AccountEntry) : AccountEntry :=
  mkAccount (acc_id a) (acc_balance a) (acc_seqNum a) (acc_marker a) (acc_numSubEntries a)
    (acc_inflationDest a) (acc_flags a) (acc_homeDomain a) t
    (acc_signers a) (acc_ext a).
Definition set_tl_balance (b : Z) (t : TrustLineEntry) : TrustLineEntry :=
  mkTrustLine (tl_account t) (tl_asset t) b (tl_limit t) (tl_flags t) (tl_ext t).
Definition set_tl_flags (f : Z) (t : TrustLineEntry) : TrustLineEntry :=
  mkTrustLine (tl_account t) (tl_asset t) (tl_balance t) (tl_limit t) f (tl_ext t).
Definition set_tl_limit (l : Z) (t : TrustLineEntry) : TrustLineEntry :=
  mkTrustLine (tl_account t) (tl_asset t) (tl_balance t) l (tl_flags t) (tl_ext t).
Definition set_tl_ext (e : option Liabilities) (t : TrustLineEntry)
    : TrustLineEntry :=
  mkTrustLine (tl_account t) (tl_asset t) (tl_balance t) (tl_limit t)
    (tl_flags t) e.
Definition set_amount (a : Z) (o : OfferEntry) : OfferEntry :=
  mkOffer (of_seller o) (of_offerID o) (of_selling o) (of_buying o) a
    (of_price o) (of_flags o).
Definition set_offerID (i : Z) (o : OfferEntry) : OfferEntry :=
  mkOffer (of_seller o) i (of_selling o) (of_buying o) (of_amount o)
    (of_price o) (of_flags o).

(** * Keys *)
Inductive LedgerKey :=
  | KeyAccount (accountID : AccountID)
  | KeyTrustLine (accountID : AccountID) (asset : Asset)
  | KeyOffer (sellerID : AccountID) (offerID : Z)
  | KeyData (accountID : AccountID) (dataName : string).

#[export] Instance LedgerKey_eq_dec : EqDecision LedgerKey.
Proof. solve_decision. Defined.
#[export] Instance LedgerKey_countable : Countable LedgerKey.
Proof.
  refine (inj_countable'
    (fun k => match k with
              | KeyAccount a => inl (inl a)
              | KeyTrustLine a s => inl (inr (a, s))
              | KeyOffer a o => inr (inl (a, o))
              | KeyData a n => inr (inr (a, n))
              end)
    (fun x => match x with
              | inl (inl a) => KeyAccount a
              | inl (inr (a, s)) => KeyTrustLine a s
              | inr (inl (a, o)) => KeyOffer a o
              | inr (inr (a, n)) => KeyData a n
              end) _); by intros [].
Defined.

Definition LedgerDataKey (d : LedgerEntryData) : LedgerKey :=
  match d with
  | ACCOUNT a => KeyAccount (acc_id a)
  | TRUSTLINE t => KeyTrustLine (tl_account t) (tl_asset t)
  | OFFER o => KeyOffer (of_seller o) (of_offerID o)
  | DATA d => KeyData (da_account d) (da_name d)
  end.
Definition LedgerEntryKey (e : LedgerEntry) : LedgerKey :=
  LedgerDataKey (le_data e).

Definition is_offer_key (k : LedgerKey) : bool :=
  match k with KeyOffer _ _ => true | _ => false end.

(** * The ledger header *)
Record LedgerHeader := mkHeader {
  ledgerVersion : Z;
  ledgerSeq : Z;
  closeTime : Z;
  totalCoins : Z;
  feePool : Z;
  inflationSeq : Z;
  idPool : Z;
  baseFee : Z;
  baseReserve : Z;
  maxTxSetSize : Z }.

#[export] Instance LedgerHeader_eq_dec : EqDecision LedgerHeader.
Proof. solve_decision. Defined.

Definition set_idPool (i : Z) (h : LedgerHeader) : LedgerHeader :=
  mkHeader (ledgerVersion h) (ledgerSeq h) (closeTime h) (totalCoins h)
    (feePool h) (inflationSeq h) i (baseFee h) (baseReserve h)
    (maxTxSetSize h).
Definition set_feePool (f : Z) (h : LedgerHeader) : LedgerHeader :=
  mkHeader (ledgerVersion h) (ledgerSeq h) (closeTime h) (totalCoins h)
    f (inflationSeq h) (idPool h) (baseFee h) (baseReserve h)
    (maxTxSetSize h).

Definition set_totalCoins (c : Z) (h : LedgerHeader) : LedgerHeader :=
  mkHeader (ledgerVersion h) (ledgerSeq h) (closeTime h) c
    (feePool h) (inflationSeq h) (idPool h) (baseFee h) (baseReserve h)
    (maxTxSetSize h).
Definition set_inflationSeq (i : Z) (h : LedgerHeader) : LedgerHeader :=
  mkHeader (ledgerVersion h) (ledgerSeq h) (closeTime h) (totalCoins h)
    (feePool h) i (idPool h) (baseFee h) (baseReserve h)
    (maxTxSetSize h).
Definition set_ledgerVersion (x : Z) (h : LedgerHeader) : LedgerHeader :=
  mkHeader x (ledgerSeq h) (closeTime h) (totalCoins h) (feePool h)
    (inflationSeq h) (idPool h) (baseFee h) (baseReserve h) (maxTxSetSize h).
Definition set_ledgerSeq (x : Z) (h : LedgerHeader) : LedgerHeader :=
  mkHeader (ledgerVersion h) x (closeTime h) (totalCoins h) (feePool h)
    (inflationSeq h) (idPool h) (baseFee h) (baseReserve h) (maxTxSetSize h).
Definition set_closeTime (x : Z) (h : LedgerHeader) : LedgerHeader :=
  mkHeader (ledgerVersion h) (ledgerSeq h) x (totalCoins h) (feePool h)
    (inflationSeq h) (idPool h) (baseFee h) (baseReserve h) (maxTxSetSize h).
Definition set_baseFee (x : Z) (h : LedgerHeader) : LedgerHeader :=
  mkHeader (ledgerVersion h) (ledgerSeq h) (closeTime h) (totalCoins h) (feePool h)
    (inflationSeq h) (idPool h) x (baseReserve h) (maxTxSetSize h).
Definition set_baseReserve (x : Z) (h : LedgerHeader) : LedgerHeader :=
  mkHeader (ledgerVersion h) (ledgerSeq h) (closeTime h) (totalCoins h) (feePool h)
    (inflationSeq h) (idPool h) (baseFee h) x (maxTxSetSize h).
Definition set_maxTxSetSize (x : Z) (h : LedgerHeader) : LedgerHeader :=
  mkHeader (ledgerVersion h) (ledgerSeq h) (closeTime h) (totalCoins h) (feePool h)
    (inflationSeq h) (idPool h) (baseFee h) (baseReserve h) x.

(** * Lemmas *)

Lemma compareAsset_spec a b : compareAsset a b = true <-> a = b.
Proof.
  destruct a, b; cbn; try done;
    rewrite andb_true_iff, Z.eqb_eq, bool_decide_eq_true;
    (split; [by intros [-> ->] | by intros [= -> ->]]).
Qed.

(** A valid code is a run of alphanumeric characters padded with zeros. *)
Definition asset_code_form (code : list Z) (n : nat) : Prop :=
  exists chars pad, code = chars ++ replicate pad 0 /\ length chars = n /\
    Forall (fun b => isalnum b = true) chars.

Lemma scanAssetCode_zeros code k n :
  scanAssetCode code true k = Some n <->
  n = k /\ code = replicate (length code) 0.
Proof.
  induction code as [|b code IH]; cbn.
  { split; [by intros [= <-] | by intros [-> _]]. }
  destruct (Z.eqb_spec b 0); [subst; rewrite IH|].
  - split; intros [-> E]; split; congruence.
  - split; [done|]. intros [_ E]. congruence.
Qed.

Lemma isalnum_range b : isalnum b = true -> 0 < b <= 127.
Proof.
  unfold isalnum. rewrite !orb_true_iff, !andb_true_iff, !Z.leb_le. lia.
Qed.

Lemma scanAssetCode_spec code k n :
  scanAssetCode code false k = Some n <->
  exists m, (n = k + m)%nat /\ asset_code_form code m.
Proof.
  unfold asset_code_form.
  revert k. induction code as [|b code IH]; intros k; cbn.
  - split.
    + intros [= <-]. exists 0%nat. split; [lia|]. by exists [], 0%nat.
    + intros (m & -> & chars & pad & E & <- & _). symmetry in E.
      apply app_nil in E as [-> E]. cbn. f_equal. lia.
  - destruct (Z.eqb_spec b 0) as [->|Hb].
    + rewrite scanAssetCode_zeros. split.
      * intros [-> E]. exists 0%nat. split; [lia|].
        exists [], (S (length code)). cbn. by rewrite <- E.
      * intros (m & -> & [|c chars] & pad & E & <- & HF); cbn in *.
        -- split; [lia|]. destruct pad as [|pad]; [done|]. injection E as ->.
           by rewrite length_replicate.
        -- injection E as <- E. apply Forall_cons in HF as [HF _].
           apply isalnum_range in HF. lia.
    + destruct (isalnum b) eqn:Eb; cycle 1.
      { rewrite orb_true_r. split; [done|].
        intros (m & -> & [|c chars] & pad & E & <- & HF); cbn in *.
        - destruct pad; [done|]. by injection E as ->.
        - injection E as -> _. apply Forall_cons in HF as [HF _]. congruence. }
      pose proof (isalnum_range b Eb).
      rewrite (proj2 (Z.ltb_ge _ _)) by lia. cbn [orb negb].
      rewrite IH. split.
      * intros (m & -> & chars & pad & -> & <- & HF).
        exists (S (length chars)). split; [lia|].
        exists (b :: chars), pad. split; [done|]. split; [done|]. by constructor.
      * intros (m & -> & [|c chars] & pad & E & <- & HF); cbn in *.
        -- destruct pad; [done|]. by injection E as ->.
        -- injection E as -> ->. apply Forall_cons in HF as [_ HF].
           exists (length chars). split; [lia|]. by exists chars, pad.
Qed.
