(* ===== verification/StrKey.v ===== *)
(** The text form of keys: [src/src/crypto/StrKey.cpp] with the base-32
    conversion of [src/lib/util/basen.h] and the checksum of
    [src/lib/util/crc16.cpp].

    A string is the list of its character codes.  The order of these strings
    breaks ties between inflation winners. *)

From S2P Require Import Prelude.

(** * crc16 *)
Definition crc16tab : list Z :=
  [0x0000; 0x1021; 0x2042; 0x3063; 0x4084; 0x50a5; 0x60c6; 0x70e7;
   0x8108; 0x9129; 0xa14a; 0xb16b; 0xc18c; 0xd1ad; 0xe1ce; 0xf1ef;
   0x1231; 0x0210; 0x3273; 0x2252; 0x52b5; 0x4294; 0x72f7; 0x62d6;
   0x9339; 0x8318; 0xb37b; 0xa35a; 0xd3bd; 0xc39c; 0xf3ff; 0xe3de;
   0x2462; 0x3443; 0x0420; 0x1401; 0x64e6; 0x74c7; 0x44a4; 0x5485;
   0xa56a; 0xb54b; 0x8528; 0x9509; 0xe5ee; 0xf5cf; 0xc5ac; 0xd58d;
   0x3653; 0x2672; 0x1611; 0x0630; 0x76d7; 0x66f6; 0x5695; 0x46b4;
   0xb75b; 0xa77a; 0x9719; 0x8738; 0xf7df; 0xe7fe; 0xd79d; 0xc7bc;
   0x48c4; 0x58e5; 0x6886; 0x78a7; 0x0840; 0x1861; 0x2802; 0x3823;
   0xc9cc; 0xd9ed; 0xe98e; 0xf9af; 0x8948; 0x9969; 0xa90a; 0xb92b;
   0x5af5; 0x4ad4; 0x7ab7; 0x6a96; 0x1a71; 0x0a50; 0x3a33; 0x2a12;
   0xdbfd; 0xcbdc; 0xfbbf; 0xeb9e; 0x9b79; 0x8b58; 0xbb3b; 0xab1a;
   0x6ca6; 0x7c87; 0x4ce4; 0x5cc5; 0x2c22; 0x3c03; 0x0c60; 0x1c41;
   0xedae; 0xfd8f; 0xcdec; 0xddcd; 0xad2a; 0xbd0b; 0x8d68; 0x9d49;
   0x7e97; 0x6eb6; 0x5ed5; 0x4ef4; 0x3e13; 0x2e32; 0x1e51; 0x0e70;
   0xff9f; 0xefbe; 0xdfdd; 0xcffc; 0xbf1b; 0xaf3a; 0x9f59; 0x8f78;
   0x9188; 0x81a9; 0xb1ca; 0xa1eb; 0xd10c; 0xc12d; 0xf14e; 0xe16f;
   0x1080; 0x00a1; 0x30c2; 0x20e3; 0x5004; 0x4025; 0x7046; 0x6067;
   0x83b9; 0x9398; 0xa3fb; 0xb3da; 0xc33d; 0xd31c; 0xe37f; 0xf35e;
   0x02b1; 0x1290; 0x22f3; 0x32d2; 0x4235; 0x5214; 0x6277; 0x7256;
   0xb5ea; 0xa5cb; 0x95a8; 0x8589; 0xf56e; 0xe54f; 0xd52c; 0xc50d;
   0x34e2; 0x24c3; 0x14a0; 0x0481; 0x7466; 0x6447; 0x5424; 0x4405;
   0xa7db; 0xb7fa; 0x8799; 0x97b8; 0xe75f; 0xf77e; 0xc71d; 0xd73c;
   0x26d3; 0x36f2; 0x0691; 0x16b0; 0x6657; 0x7676; 0x4615; 0x5634;
   0xd94c; 0xc96d; 0xf90e; 0xe92f; 0x99c8; 0x89e9; 0xb98a; 0xa9ab;
   0x5844; 0x4865; 0x7806; 0x6827; 0x18c0; 0x08e1; 0x3882; 0x28a3;
   0xcb7d; 0xdb5c; 0xeb3f; 0xfb1e; 0x8bf9; 0x9bd8; 0xabbb; 0xbb9a;
   0x4a75; 0x5a54; 0x6a37; 0x7a16; 0x0af1; 0x1ad0; 0x2ab3; 0x3a92;
   0xfd2e; 0xed0f; 0xdd6c; 0xcd4d; 0xbdaa; 0xad8b; 0x9de8; 0x8dc9;
   0x7c26; 0x6c07; 0x5c64; 0x4c45; 0x3ca2; 0x2c83; 0x1ce0; 0x0cc1;
   0xef1f; 0xff3e; 0xcf5d; 0xdf7c; 0xaf9b; 0xbfba; 0x8fd9; 0x9ff8;
   0x6e17; 0x7e36; 0x4e55; 0x5e74; 0x2e93; 0x3eb2; 0x0ed1; 0x1ef0].

Definition u16 (z : Z) : Z := z mod 65536.
Definition u8 (z : Z) : Z := z mod 256.

Definition crc16_step (crc b : Z) : Z :=
  Z.lxor (Z.land (Z.shiftl crc 8) 65535)
    (nth (Z.to_nat (Z.land (Z.lxor (Z.shiftr crc 8) b) 255)) crc16tab 0).
Definition crc16 (buf : list Z) : Z := fold_left crc16_step buf 0.

(** * basen *)
Definition extract_partial_bits (value start_bit bits_count : Z) : Z :=
  let t1 := Z.shiftr value (8 - bits_count - start_bit) in
  Z.land t1 (u8 (Z.lnot (Z.shiftl 255 bits_count))).

Definition extract_overlapping_bits (previous next start_bit bits_count : Z) : Z :=
  let bits_count_in_previous := 8 - start_bit in
  let bits_count_in_next := bits_count - bits_count_in_previous in
  let t1 := u8 (Z.shiftl previous bits_count_in_next) in
  let t2 := Z.land (Z.shiftr next (8 - bits_count_in_next))
              (u8 (Z.lnot (Z.shiftl 255 bits_count_in_next))) in
  Z.land (Z.lor t1 t2) (u8 (Z.lnot (Z.shiftl 255 bits_count))).

(** [b32_conversion_traits]: letters, then the digits from 2 to 7. *)
Definition b32_group_length : Z := 5.
Definition b32_encode (index : Z) : Z := if index <? 26 then 65 + index else 50 + (index - 26).

(** The [while (has_backlog || iter != end)] loop.  Each character stands for
    [g] bits and each byte is read once, so for [g >= 4] three rounds per byte
    and two more are enough. *)
Fixpoint encodeLoop (fuel : nat) (g : Z) (enc : Z -> Z) (iter : list Z)
    (start_bit : Z) (backlog : option Z) : list Z * Z :=
  match fuel with
  | O => ([], start_bit)
  | S fuel =>
      match backlog, iter with
      | None, [] => ([], start_bit)
      | None, b :: rest =>
          if start_bit + g <? 8 then
            let '(out, bit) := encodeLoop fuel g enc iter (start_bit + g) None in
            (enc (extract_partial_bits b start_bit g) :: out, bit)
          else encodeLoop fuel g enc rest start_bit (Some b)
      | Some p, _ =>
          let next := match iter with [] => 0 | b :: _ => b end in
          let '(out, bit) :=
            encodeLoop fuel g enc iter ((start_bit + g) mod 8) None in
          (enc (extract_overlapping_bits p next start_bit g) :: out, bit)
      end
  end.

(** The [=] characters that complete the last group; [start_bit] comes back
    to 0 within eight steps. *)
Fixpoint padLoop (fuel : nat) (g start_bit : Z) : list Z :=
  match fuel with
  | O => []
  | S fuel =>
      if start_bit =? 0 then [] else 61 :: padLoop fuel g ((start_bit + g) mod 8)
  end.

Definition encode (g : Z) (enc : Z -> Z) (bytes : list Z) : list Z :=
  let '(out, bit) := encodeLoop (3 * length bytes + 2) g enc bytes 0 None in
  out ++ padLoop 8 g bit.
Definition encode_b32 (bytes : list Z) : list Z :=
  encode b32_group_length b32_encode bytes.

(** [b32_conversion_traits::decode]: 255 is [Error]. *)
Definition b32_decode (c : Z) : Z :=
  if (65 <=? c) && (c <=? 90) then c - 65
  else if (50 <=? c) && (c <=? 55) then c - 50 + 26
  else 255.

Definition isspace (c : Z) : bool := (c =? 32) || ((9 <=? c) && (c <=? 13)).

(** One round of [decode]'s loop: the state is [output_current_bit] and
    [buffer], and a round emits at most one byte. *)
Definition decodeStep (g : Z) (dec : Z -> Z) (c bit buffer : Z)
    : list Z * Z * Z :=
  if isspace c then ([], bit, buffer)
  else
  let value := dec c in
  if value =? 255 then ([], bit, buffer)
  else
  let bits_in_current_byte := Z.min (bit + g) 8 - bit in
  if bits_in_current_byte =? g then
    let buffer := Z.lor buffer (u8 (Z.shiftl value (8 - bit - g))) in
    if bit + g =? 8 then ([buffer], 0, 0) else ([], bit + g, buffer)
  else
    let bits_in_next_byte := g - bits_in_current_byte in
    ([Z.lor buffer (Z.shiftr value bits_in_next_byte)], bits_in_next_byte,
     u8 (Z.shiftl value (8 - bits_in_next_byte))).

Fixpoint decodeLoop (g : Z) (dec : Z -> Z) (chars : list Z) (bit buffer : Z)
    : list Z :=
  match chars with
  | [] => []
  | c :: rest =>
      let '(out, bit, buffer) := decodeStep g dec c bit buffer in
      out ++ decodeLoop g dec rest bit buffer
  end.
Definition decode_b32 (chars : list Z) : list Z :=
  decodeLoop b32_group_length b32_decode chars 0 0.

(** * StrKey *)
Definition toStrKey (ver : Z) (bin : list Z) : list Z :=
  let toEncode := u8 (Z.shiftl ver 3) :: bin in
  let crc := crc16 toEncode in
  encode_b32 (toEncode ++ [Z.land crc 255; Z.land (Z.shiftr crc 8) 255]).

(** The version and the data; [None] is [return false]. *)
Definition fromStrKey (strKey : list Z) : option (Z * list Z) :=
  if negb (Z.land (Z.of_nat (length strKey)) 7 =? 0) then None
  else
  match rev (decode_b32 strKey) with
  | hi :: lo :: d :: rest =>
      let decoded := rev (d :: rest) in
      let crc := Z.lor (u16 (Z.shiftl hi 8)) lo in
      if negb (crc16 decoded =? crc) then None
      else match decoded with
           | ver :: data => Some (Z.shiftr ver 3, data)
           | [] => None
           end
  | _ => None
  end.

Definition STRKEY_PUBKEY_ED25519 : Z := 6.

(** The 32 bytes of a key, most significant first. *)
Definition key_bytes (k : Z) : list Z :=
  map (fun i => Z.land (Z.shiftr k (8 * (31 - Z.of_nat i))) 255) (seq 0 32).

Definition PublicKey_toStrKey (k : Z) : list Z :=
  toStrKey STRKEY_PUBKEY_ED25519 (key_bytes k).

(** [a > b] on strings. *)
Fixpoint string_gt (a b : list Z) : bool :=
  match a, b with
  | [], _ => false
  | _ :: _, [] => true
  | x :: a, y :: b => if x =? y then string_gt a b else y <? x
  end.

Example crc16_check : crc16 [49; 50; 51; 52; 53; 54; 55; 56; 57] = 12739.
Proof. reflexivity. Qed.
Example encode_b32_foobar :
  encode_b32 [102; 111; 111; 98; 97] = [77; 90; 88; 87; 54; 89; 84; 66].
Proof. reflexivity. Qed.
Example encode_b32_padding : encode_b32 [102] = [77; 89; 61; 61; 61; 61; 61; 61].
Proof. reflexivity. Qed.

Example decode_b32_foobar :
  decode_b32 [77; 90; 88; 87; 54; 89; 84; 66] = [102; 111; 111; 98; 97].
Proof. reflexivity. Qed.
Example fromStrKey_one : fromStrKey (PublicKey_toStrKey 1) = Some (6, key_bytes 1).
Proof. vm_compute. reflexivity. Qed.

(** * Decoding undoes encoding *)
Definition is_byte (b : Z) : Prop := 0 <= b < 256.

Lemma u8_byte z : is_byte (u8 z).
Proof. apply Z.mod_pos_bound. lia. Qed.
Lemma u8_small z : is_byte z -> u8 z = z.
Proof. apply Z.mod_small. Qed.
Lemma testbit_u8 z n : 0 <= n -> Z.testbit (u8 z) n = (n <? 8) && Z.testbit z n.
Proof.
  intros Hn. unfold u8. change 256 with (2 ^ 8).
  destruct (Z.ltb_spec n 8); [by rewrite Z.mod_pow2_bits_low|].
  by rewrite Z.mod_pow2_bits_high.
Qed.
Lemma testbit_byte b n : is_byte b -> 8 <= n -> Z.testbit b n = false.
Proof.
  intros Hb Hn. rewrite <- (u8_small b Hb), testbit_u8 by lia.
  by rewrite (proj2 (Z.ltb_ge _ _)).
Qed.

(** The index of a character is below 32, and the dictionary is injective. *)
Definition in_group (v : Z) : Prop := 0 <= v < 32.
Lemma land31_in_group x : in_group (Z.land x 31).
Proof.
  unfold in_group. change 31 with (Z.ones 5). rewrite Z.land_ones by lia.
  apply Z.mod_pos_bound. lia.
Qed.
Lemma decodeStep_encode v bit buffer :
  in_group v ->
  decodeStep 5 b32_decode (b32_encode v) bit buffer =
  let cur := Z.min (bit + 5) 8 - bit in
  if cur =? 5 then
    let buffer := Z.lor buffer (u8 (Z.shiftl v (8 - bit - 5))) in
    if bit + 5 =? 8 then ([buffer], 0, 0) else ([], bit + 5, buffer)
  else ([Z.lor buffer (Z.shiftr v (5 - cur))], 5 - cur,
        u8 (Z.shiftl v (8 - (5 - cur)))).
Proof.
  intros Hv. unfold decodeStep.
  assert (isspace (b32_encode v) = false) as ->.
  { unfold isspace, b32_encode, in_group in *. repeat case_match; lia. }
  assert (b32_decode (b32_encode v) = v) as ->.
  { unfold b32_decode, b32_encode, in_group in *. repeat case_match; lia. }
  unfold in_group in Hv. by rewrite (proj2 (Z.eqb_neq v 255)) by lia.
Qed.
Lemma decodeStep_pad bit buffer :
  decodeStep 5 b32_decode 61 bit buffer = ([], bit, buffer).
Proof. done. Qed.

(** The eight characters of five bytes, by their indices. *)
Definition direct (b start : Z) : Z := Z.land (Z.shiftr b (3 - start)) 31.
Definition across (p n start : Z) : Z :=
  Z.land (Z.lor (u8 (Z.shiftl p (start - 3)))
            (Z.land (Z.shiftr n (11 - start)) (u8 (Z.lnot (Z.shiftl 255 (start - 3))))))
    31.

Lemma direct_spec b start : extract_partial_bits b start 5 = direct b start.
Proof. unfold extract_partial_bits, direct. do 2 f_equal; lia. Qed.
Lemma across_spec p n start : extract_overlapping_bits p n start 5 = across p n start.
Proof.
  unfold extract_overlapping_bits, across.
  assert (5 - (8 - start) = start - 3) as -> by lia.
  assert (8 - (start - 3) = 11 - start) as -> by lia. done.
Qed.

Definition emit (c : Z) (r : list Z * Z) : list Z * Z := (c :: r.1, r.2).
Definition next_byte (l : list Z) : Z := match l with [] => 0 | b :: _ => b end.

Lemma encodeLoop_direct fuel enc b rest start :
  start + 5 < 8 ->
  encodeLoop (S fuel) 5 enc (b :: rest) start None =
  emit (enc (direct b start)) (encodeLoop fuel 5 enc (b :: rest) (start + 5) None).
Proof.
  intros H. cbn [encodeLoop]. rewrite (proj2 (Z.ltb_lt _ _)) by done.
  rewrite direct_spec. by destruct (encodeLoop fuel _ _ _ _ _).
Qed.
Lemma encodeLoop_across fuel enc b rest start :
  8 <= start + 5 ->
  encodeLoop (S (S fuel)) 5 enc (b :: rest) start None =
  emit (enc (across b (next_byte rest) start))
    (encodeLoop fuel 5 enc rest ((start + 5) mod 8) None).
Proof.
  intros H. cbn [encodeLoop]. rewrite (proj2 (Z.ltb_ge _ _)) by done.
  rewrite across_spec. unfold next_byte. by destruct (encodeLoop fuel _ _ _ _ _).
Qed.

(** The fields of the masks, bit by bit. *)
Lemma testbit_ones5 n : 0 <= n -> Z.testbit 31 n = (n <? 5).
Proof.
  intros Hn. change 31 with (Z.ones 5).
  destruct (Z.ltb_spec n 5); [by apply Z.ones_spec_low|by apply Z.ones_spec_high].
Qed.
Lemma testbit_mask k n :
  0 <= k < 8 -> 0 <= n -> Z.testbit (u8 (Z.lnot (Z.shiftl 255 k))) n = (n <? k).
Proof.
  intros Hk Hn. rewrite testbit_u8, Z.lnot_spec, Z.shiftl_spec by done.
  change 255 with (Z.ones 8).
  destruct (Z.ltb_spec n 8), (Z.ltb_spec n k); cbn; try lia; try done.
  - by rewrite Z.testbit_neg_r by lia.
  - by rewrite Z.ones_spec_low by lia.
Qed.
Lemma testbit_shiftr x a n :
  0 <= n -> Z.testbit (Z.shiftr x a) n = Z.testbit x (n + a).
Proof. apply Z.shiftr_spec. Qed.

(** Two numbers below 256 with the same eight bits are equal. *)
Lemma byte_eq a b :
  is_byte a -> is_byte b ->
  Forall (fun n => Z.testbit a n = Z.testbit b n) [0; 1; 2; 3; 4; 5; 6; 7] -> a = b.
Proof.
  intros Ha Hb HF. apply Z.bits_inj'. intros n Hn.
  destruct (decide (8 <= n)); [by rewrite !testbit_byte|].
  rewrite Forall_forall in HF. apply HF. rewrite !elem_of_cons. lia.
Qed.
Lemma lor_byte a b : is_byte a -> is_byte b -> is_byte (Z.lor a b).
Proof.
  intros Ha Hb. unfold is_byte. rewrite Z.lor_nonneg. 
  destruct Ha as [Ha Ha'], Hb as [Hb Hb'].
  rewrite <- (u8_small a), <- (u8_small b) by done.
  assert (E : Z.lor (u8 a) (u8 b) = u8 (Z.lor a b)).
  { apply Z.bits_inj'. intros n Hn. rewrite Z.lor_spec, !testbit_u8, Z.lor_spec by done.
    by destruct (n <? 8). }
  rewrite !u8_small by done. split; [lia|].
  rewrite <- (u8_small a), <- (u8_small b), E by done. apply u8_byte.
Qed.
Lemma shiftr_group_byte v k : 0 <= k -> in_group v -> is_byte (Z.shiftr v k).
Proof.
  intros Hk [Hv Hv']. rewrite Z.shiftr_div_pow2 by done. unfold is_byte.
  assert (0 < 2 ^ k) by (apply Z.pow_pos_nonneg; lia).
  split; [by apply Z.div_pos|]. apply Z.div_lt_upper_bound; nia.
Qed.

Lemma testbit_neg x n : n < 0 -> Z.testbit x n = false.
Proof. apply Z.testbit_neg_r. Qed.

Ltac ground_step :=
  match goal with
  | |- context [Z.testbit ?x ?e] =>
      is_ground e; let v := eval vm_compute in e in
      progress change (Z.testbit x e) with (Z.testbit x v)
  | |- context [?a <? ?b] =>
      is_ground a; is_ground b; let v := eval vm_compute in (a <? b) in
      change (a <? b) with v
  end.
Ltac bit_step :=
  first [ground_step
        |match goal with
         |- context [Z.testbit ?x ?n] => rewrite (testbit_neg x n) by lia
         end
        |rewrite Z.lor_spec |rewrite Z.land_spec |rewrite testbit_mask by lia
        |rewrite testbit_u8 by lia |rewrite testbit_ones5 by lia
        |rewrite Z.shiftl_spec by lia |rewrite testbit_shiftr by lia].
(** A byte put together from characters is the byte they were cut from. *)
Ltac bits_of_byte :=
  apply byte_eq;
  [repeat first [apply lor_byte | apply u8_byte
                |apply shiftr_group_byte; [lia|apply land31_in_group]
                |by (cbv; split; congruence)] | done
  |repeat (apply Forall_cons; split); [..|apply Forall_nil_2];
   unfold direct, across; repeat bit_step;
   rewrite ?andb_true_l, ?andb_true_r, ?andb_false_r, ?orb_false_l, ?orb_false_r;
   try done].


Lemma byte1 b n : is_byte b ->
  Z.lor (Z.lor 0 (u8 (Z.shiftl (direct b 0) 3))) (Z.shiftr (across b n 5) 2) = b.
Proof. intros Hb. bits_of_byte. Qed.
Lemma byte2 a b n : is_byte b ->
  Z.lor (Z.lor (u8 (Z.shiftl (across a b 5) 6)) (u8 (Z.shiftl (direct b 2) 1)))
    (Z.shiftr (across b n 7) 4) = b.
Proof. intros Hb. bits_of_byte. Qed.
Lemma byte3 a b n : is_byte b ->
  Z.lor (u8 (Z.shiftl (across a b 7) 4)) (Z.shiftr (across b n 4) 1) = b.
Proof. intros Hb. bits_of_byte. Qed.
Lemma byte4 a b n : is_byte b ->
  Z.lor (Z.lor (u8 (Z.shiftl (across a b 4) 7)) (u8 (Z.shiftl (direct b 1) 2)))
    (Z.shiftr (across b n 6) 3) = b.
Proof. intros Hb. bits_of_byte. Qed.
Lemma byte5 a b n : is_byte b ->
  Z.lor (u8 (Z.shiftl (across a b 6) 5)) (u8 (Z.shiftl (across b n 3) 0)) = b.
Proof. intros Hb. bits_of_byte. Qed.

(** The three ways a character is consumed. *)
Section Steps.
Context (v bit buffer : Z) (Hv : in_group v).
Notation step := (decodeStep 5 b32_decode (b32_encode v) bit buffer).

Lemma decodeStep_fits :
  0 <= bit -> bit + 5 < 8 ->
  step = ([], bit + 5, Z.lor buffer (u8 (Z.shiftl v (3 - bit)))).
Proof using Hv.
  intros. rewrite decodeStep_encode by done. cbv zeta.
  rewrite (proj2 (Z.eqb_eq _ 5)), (proj2 (Z.eqb_neq _ 8)) by lia.
  by assert (8 - bit - 5 = 3 - bit) as -> by lia.
Qed.
Lemma decodeStep_fills :
  bit = 3 -> step = ([Z.lor buffer (u8 (Z.shiftl v 0))], 0, 0).
Proof using Hv. intros ->. by rewrite decodeStep_encode. Qed.
Lemma decodeStep_spans :
  3 < bit < 8 ->
  step = ([Z.lor buffer (Z.shiftr v (bit - 3))], bit - 3,
          u8 (Z.shiftl v (11 - bit))).
Proof using Hv.
  intros. rewrite decodeStep_encode by done. cbv zeta.
  rewrite (proj2 (Z.eqb_neq _ 5)) by lia.
  assert (5 - (Z.min (bit + 5) 8 - bit) = bit - 3) as -> by lia.
  by assert (8 - (bit - 3) = 11 - bit) as -> by lia.
Qed.
End Steps.

Ltac decode_char :=
  first [rewrite decodeStep_fits by (apply land31_in_group || lia)
        |rewrite decodeStep_spans by (apply land31_in_group || lia)
        |rewrite decodeStep_fills by (apply land31_in_group || lia)];
  cbv beta iota zeta.
Ltac decode_chars :=
  cbn [map app emit fst decodeLoop]; repeat decode_char.

(** Five bytes are eight characters, and back. *)
Definition group (b1 b2 b3 b4 b5 n : Z) : list Z :=
  [direct b1 0; across b1 b2 5; direct b2 2; across b2 b3 7;
   across b3 b4 4; direct b4 1; across b4 b5 6; across b5 n 3].

Ltac encode_chars :=
  first [rewrite encodeLoop_direct by by vm_compute
        |rewrite encodeLoop_across by by vm_compute].

Lemma encodeLoop_group fuel enc b1 b2 b3 b4 b5 rest :
  encodeLoop (13 + fuel) 5 enc (b1 :: b2 :: b3 :: b4 :: b5 :: rest) 0 None =
  foldr emit (encodeLoop fuel 5 enc rest 0 None)
    (map enc (group b1 b2 b3 b4 b5 (next_byte rest))).
Proof. cbn [Nat.add]. do 8 encode_chars. reflexivity. Qed.

Lemma decodeLoop_group b1 b2 b3 b4 b5 n rest :
  Forall is_byte [b1; b2; b3; b4; b5] ->
  decodeLoop 5 b32_decode (map b32_encode (group b1 b2 b3 b4 b5 n) ++ rest) 0 0 =
  b1 :: b2 :: b3 :: b4 :: b5 :: decodeLoop 5 b32_decode rest 0 0.
Proof.
  rewrite !Forall_cons. intros (H1 & H2 & H3 & H4 & H5 & _).
  unfold group. decode_chars. rewrite byte1, byte2, byte3, byte4, byte5 by done.
  done.
Qed.

Lemma encodeLoop_nil fuel enc start : encodeLoop fuel 5 enc [] start None = ([], start).
Proof. by destruct fuel. Qed.

Lemma emit_fst l r : (foldr emit r l).1 = l ++ r.1.
Proof. induction l; cbn; congruence. Qed.
Lemma decodeLoop_pads n bit buffer :
  decodeLoop 5 b32_decode (replicate n 61) bit buffer = [].
Proof. induction n; cbn; [done|]. apply IHn. Qed.


(** The last, shorter group. *)
Ltac short_group :=
  repeat encode_chars; rewrite encodeLoop_nil; decode_chars;
  rewrite decodeLoop_pads; cbn [app next_byte];
  rewrite ?byte1, ?byte2, ?byte3, ?byte4 by done; done.

Lemma decode_encodeLoop n bytes fuel :
  Forall is_byte bytes -> (3 * length bytes + 2 <= fuel)%nat ->
  decodeLoop 5 b32_decode
    ((encodeLoop fuel 5 b32_encode bytes 0 None).1 ++ replicate n 61) 0 0 = bytes.
Proof.
  revert fuel. induction bytes as [bytes IH] using (induction_ltof1 _ length).
  unfold ltof in IH. intros fuel Hb Hfuel.
  destruct bytes as [|b1 [|b2 [|b3 [|b4 [|b5 rest]]]]]; cbn [length] in Hfuel.
  - rewrite encodeLoop_nil. apply decodeLoop_pads.
  - do 5 (destruct fuel as [|fuel]; [lia|]). apply Forall_cons in Hb as [H1 _].
    short_group.
  - do 8 (destruct fuel as [|fuel]; [lia|]). rewrite !Forall_cons in Hb.
    destruct Hb as (H1 & H2 & _). short_group.
  - do 11 (destruct fuel as [|fuel]; [lia|]). rewrite !Forall_cons in Hb.
    destruct Hb as (H1 & H2 & H3 & _). short_group.
  - do 14 (destruct fuel as [|fuel]; [lia|]). rewrite !Forall_cons in Hb.
    destruct Hb as (H1 & H2 & H3 & H4 & _). short_group.
  - assert (exists f, fuel = (13 + f)%nat /\ (3 * length rest + 2 <= f)%nat)
      as (f & -> & Hf) by (exists (fuel - 13)%nat; lia).
    rewrite encodeLoop_group, emit_fst, <- app_assoc.
    change (b1 :: b2 :: b3 :: b4 :: b5 :: rest)
      with ([b1; b2; b3; b4; b5] ++ rest) in Hb.
    apply Forall_app in Hb as [Hb Hrest].
    rewrite decodeLoop_group by done. by rewrite IH by (done || cbn; lia).
Qed.

Lemma padLoop_pads fuel g bit : exists n, padLoop fuel g bit = replicate n 61.
Proof.
  revert bit. induction fuel as [|fuel IH]; intros bit; cbn; [by exists 0%nat|].
  case_match; [by exists 0%nat|]. destruct (IH ((bit + g) mod 8)) as [n ->].
  by exists (S n).
Qed.

Lemma decode_encode_b32 bytes :
  Forall is_byte bytes -> decode_b32 (encode_b32 bytes) = bytes.
Proof.
  intros Hb. unfold decode_b32, encode_b32, encode, b32_group_length.
  destruct (encodeLoop _ _ _ _ _ _) as [out bit] eqn:E.
  destruct (padLoop_pads 8 5 bit) as [n ->].
  replace out with (encodeLoop (3 * length bytes + 2) 5 b32_encode bytes 0 None).1
    by by rewrite E.
  by apply decode_encodeLoop.
Qed.

(** Every text is a whole number of groups of eight characters. *)
Lemma encodeLoop_bit fuel enc bytes start backlog :
  0 <= start < 8 ->
  let r := encodeLoop fuel 5 enc bytes start backlog in
  r.2 = (start + 5 * Z.of_nat (length r.1)) mod 8.
Proof.
  revert bytes start backlog. induction fuel as [|fuel IH]; intros bytes start backlog Hs;
    cbn [encodeLoop].
  - cbn. by rewrite Z.add_0_r, Z.mod_small.
  - assert (Hnext : forall s' r c, r.2 = (s' + 5 * Z.of_nat (length r.1)) mod 8 ->
        s' mod 8 = (start + 5) mod 8 ->
        (let '(out, bit) := r in (c :: out : list Z, bit)).2
        = (start + 5 * Z.of_nat
             (length (let '(out, bit) := r in (c :: out : list Z, bit)).1)) mod 8).
    { intros s' [out bit] c E Es. cbn [fst snd length] in *. rewrite E.
      rewrite Z.add_mod, Es, <- Z.add_mod by lia. f_equal. lia. }
    destruct backlog as [p|], bytes as [|b rest]; cbn [length fst snd].
    + eapply Hnext; [apply IH, Z.mod_pos_bound; lia|by rewrite Z.mod_mod].
    + eapply Hnext; [apply IH, Z.mod_pos_bound; lia|by rewrite Z.mod_mod].
    + by rewrite Z.add_0_r, Z.mod_small.
    + case_match; [|by apply IH]. eapply Hnext; [apply IH; lia|done].
Qed.
Lemma encode_b32_length bytes : Z.of_nat (length (encode_b32 bytes)) mod 8 = 0.
Proof.
  unfold encode_b32, encode, b32_group_length.
  pose proof (encodeLoop_bit (3 * length bytes + 2) b32_encode bytes 0 None) as H.
  destruct (encodeLoop _ _ _ _ _ _) as [out bit]. cbn [fst snd] in H.
  rewrite length_app. specialize (H ltac:(lia)).
  assert (Hpad : bit = 0 \/ bit = 1 \/ bit = 2 \/ bit = 3 \/ bit = 4 \/ bit = 5 \/
                 bit = 6 \/ bit = 7).
  { rewrite H. pose proof (Z.mod_pos_bound (0 + 5 * Z.of_nat (length out)) 8). lia. }
  assert (Hout : Z.of_nat (length out) mod 8 = 5 * bit mod 8)
    by (clear Hpad; Z.to_euclidean_division_equations; lia).
  destruct Hpad as [E|[E|[E|[E|[E|[E|[E|E]]]]]]]; rewrite E in Hout |- *;
    match goal with |- context [length (padLoop 8 5 ?k)] =>
      let p := eval vm_compute in (length (padLoop 8 5 k)) in
      change (length (padLoop 8 5 k)) with p
    end; Z.to_euclidean_division_equations; lia.
Qed.

(** The checksum is a 16-bit number, stored low byte first. *)
Lemma testbit_u16 z n : 0 <= n -> Z.testbit (u16 z) n = (n <? 16) && Z.testbit z n.
Proof.
  intros Hn. unfold u16. change 65536 with (2 ^ 16).
  destruct (Z.ltb_spec n 16); [by rewrite Z.mod_pow2_bits_low|].
  by rewrite Z.mod_pow2_bits_high.
Qed.
Lemma u16_idem z : u16 (u16 z) = u16 z.
Proof. apply Z.mod_mod. lia. Qed.
Lemma crc16_step_range crc b : u16 (crc16_step crc b) = crc16_step crc b.
Proof.
  unfold crc16_step. set (i := Z.to_nat _).
  assert (Ht : u16 (nth i crc16tab 0) = nth i crc16tab 0).
  { destruct (nth_in_or_default i crc16tab 0) as [Hin| ->]; [|done].
    assert (HF : Forall (fun z => u16 z = z) crc16tab).
    { apply Forall_forall. intros z Hz.
      apply (bool_decide_unpack _) . revert z Hz. apply Forall_forall.
      apply (bool_decide_unpack _). by vm_compute. }
    rewrite Forall_forall in HF. by apply HF, list_elem_of_In. }
  change 65535 with (Z.ones 16). rewrite Z.land_ones by lia.
  change (2 ^ 16) with 65536. fold (u16 (Z.shiftl crc 8)).
  rewrite <- Ht. apply Z.bits_inj'. intros n Hn.
  rewrite testbit_u16, !Z.lxor_spec, !testbit_u16 by done. by destruct (n <? 16).
Qed.
Lemma crc16_range buf : u16 (crc16 buf) = crc16 buf.
Proof.
  unfold crc16. induction buf as [|b buf IH] using rev_ind; [done|].
  rewrite fold_left_app. apply crc16_step_range.
Qed.
Lemma crc_bytes crc :
  u16 crc = crc ->
  Z.lor (u16 (Z.shiftl (Z.land (Z.shiftr crc 8) 255) 8)) (Z.land crc 255) = crc.
Proof.
  intros <-. change 255 with (Z.ones 8). apply Z.bits_inj'. intros n Hn.
  rewrite !Z.land_ones by lia. change (2 ^ 8) with 256. fold (u8 (u16 crc)).
  rewrite Z.lor_spec, testbit_u8, testbit_u16, Z.shiftl_spec by done.
  destruct (Z.ltb_spec n 8).
  { rewrite (Z.testbit_neg_r _ (n - 8)) by lia. by rewrite andb_false_r. }
  fold (u8 (Z.shiftr (u16 crc) 8)).
  rewrite testbit_u8, Z.shiftr_spec, testbit_u16 by lia.
  replace (n - 8 + 8) with n by lia. rewrite testbit_u16 by done.
  destruct (Z.ltb_spec n 16), (Z.ltb_spec (n - 8) 8); lia || done || by destruct (Z.testbit crc n).
Qed.

Lemma land_byte a : is_byte (Z.land a 255).
Proof. change 255 with (Z.ones 8). rewrite Z.land_ones by lia. apply Z.mod_pos_bound. lia. Qed.

Lemma fromStrKey_toStrKey ver bin :
  0 <= ver < 32 -> Forall is_byte bin -> fromStrKey (toStrKey ver bin) = Some (ver, bin).
Proof.
  intros Hver Hbin. unfold fromStrKey, toStrKey.
  set (data := u8 (Z.shiftl ver 3) :: bin). set (crc := crc16 data).
  assert (Hmod : Z.land (Z.of_nat (length (encode_b32 (data ++
    [Z.land crc 255; Z.land (Z.shiftr crc 8) 255])))) 7 = 0).
  { change 7 with (Z.ones 3). rewrite Z.land_ones by lia. apply encode_b32_length. }
  rewrite Hmod, decode_encode_b32; cbn [negb Z.eqb].
  2:{ apply Forall_app. split; [by apply Forall_cons; split; [apply u8_byte|]|].
      repeat (apply Forall_cons; split; [apply land_byte|]). apply Forall_nil_2. }
  rewrite rev_app_distr. cbn [rev app].
  destruct (rev data) as [|d rest] eqn:E.
  { apply (f_equal length) in E. rewrite length_rev in E. done. }
  assert (rev rest ++ [d] = data) as ->.
  { change (rev (d :: rest) = data). rewrite <- E. apply rev_involutive. }
  unfold crc. rewrite crc_bytes by apply crc16_range.
  rewrite Z.eqb_refl. cbn [negb]. unfold data. do 2 f_equal.
  rewrite Z.shiftl_mul_pow2 by lia. rewrite u8_small by (unfold is_byte; lia).
  rewrite Z.shiftr_div_pow2 by lia. apply Z.div_mul. lia.
Qed.

Definition is_key (k : Z) : Prop := 0 <= k < 2 ^ 256.

Lemma key_bytes_byte k : Forall is_byte (key_bytes k).
Proof.
  unfold key_bytes. apply Forall_forall. intros b Hb.
  apply list_elem_of_In, in_map_iff in Hb as (i & <- & _). apply land_byte.
Qed.
Lemma key_bytes_inj a b : is_key a -> is_key b -> key_bytes a = key_bytes b -> a = b.
Proof.
  intros Ha Hb E. apply Z.bits_inj'. intros n Hn.
  destruct (decide (n < 256)) as [Hlt|Hge].
  2:{ rewrite <- (Z.mod_small a (2 ^ 256)), <- (Z.mod_small b (2 ^ 256)) by done.
      by rewrite !Z.mod_pow2_bits_high by lia. }
  set (i := Z.to_nat (31 - n / 8)).
  assert (Hi : 8 * (31 - Z.of_nat i) = n - n mod 8 /\ (i < 32)%nat).
  { unfold i. Z.to_euclidean_division_equations; lia. }
  assert (Hnth : nth_error (key_bytes a) i = nth_error (key_bytes b) i) by by rewrite E.
  unfold key_bytes in Hnth. destruct Hi as [Hi Hlen].
  rewrite !nth_error_map, nth_error_seq in Hnth.
  rewrite (proj2 (Nat.ltb_lt i 32) Hlen) in Hnth. cbn [option_map Nat.add] in Hnth.
  injection Hnth as Hnth. rewrite Hi in Hnth.
  apply (f_equal (fun z => Z.testbit z (n mod 8))) in Hnth.
  pose proof (Z.mod_pos_bound n 8).
  change 255 with (Z.ones 8) in Hnth.
  rewrite !Z.land_spec, Z.ones_spec_low, !andb_true_r, !Z.shiftr_spec in Hnth by lia.
  by replace (n mod 8 + (n - n mod 8)) with n in Hnth by lia.
Qed.

Lemma PublicKey_toStrKey_inj a b :
  is_key a -> is_key b -> PublicKey_toStrKey a = PublicKey_toStrKey b -> a = b.
Proof.
  intros Ha Hb E. apply key_bytes_inj; [done..|].
  apply (f_equal fromStrKey) in E. unfold PublicKey_toStrKey in E.
  rewrite !fromStrKey_toStrKey in E by (apply key_bytes_byte || by vm_compute).
  congruence.
Qed.

(** C25. Round trip of the text form: for every 5-bit version and every
    data, [toStrKey] gives a text whose length is a multiple of 8, in which
    [fromStrKey] finds the version and the data again; and two public keys
    with the same text are the same key. *)
Theorem strKey_roundtrip ver bin a b :
  0 <= ver < 32 -> Forall is_byte bin -> is_key a -> is_key b ->
  fromStrKey (toStrKey ver bin) = Some (ver, bin) /\
  Z.of_nat (length (toStrKey ver bin)) mod 8 = 0 /\
  (PublicKey_toStrKey a = PublicKey_toStrKey b -> a = b).
Proof.
  intros Hver Hbin Ha Hb. split_and!.
  - by apply fromStrKey_toStrKey.
  - apply encode_b32_length.
  - by apply PublicKey_toStrKey_inj.
Qed.

Lemma strKey_roundtrip_witness :
  fromStrKey (toStrKey 6 [1; 2; 3]) = Some (6, [1; 2; 3]) /\
  Z.of_nat (length (toStrKey 6 [1; 2; 3])) mod 8 = 0 /\
  (PublicKey_toStrKey 5 = PublicKey_toStrKey 7 -> 5 = 7).
Proof.
  apply (strKey_roundtrip 6 [1; 2; 3] 5 7).
  - lia.
  - repeat constructor; lia.
  - split; [lia|by vm_compute].
  - split; [lia|by vm_compute].
Defined.
