(* ===== verification/Sorting.v ===== *)
(** [std::sort], as an interface: the standard promises a permutation that is
    sorted for a strict weak order and leaves the order of equivalent elements
    open.  The theorems that use it hold for every implementation; merge sort
    is one.

    Then [std::set]: the elements in the order of [operator<], without
    duplicates.  A set is the list of its elements in iteration order; [insert]
    keeps it strictly sorted, an element equivalent to one already there is not
    inserted, and the second component of the pair the source gets says so. *)

From stdpp Require Import sorting.
From S2P Require Import Prelude.

(** A comparison that [std::sort] accepts, on the elements of [P]. *)
Record strict_weak_order {A} (P : A -> Prop) (lt : A -> A -> bool) : Prop := {
  swo_asym x y : P x -> P y -> lt x y = true -> lt y x = false;
  swo_cotrans x y z : P x -> P y -> P z -> lt x z = true -> lt x y = true \/ lt y z = true }.

(** [y] may follow [x]. *)
Definition may_follow {A} (lt : A -> A -> bool) (x y : A) : Prop := lt y x = false.

Class StdSort := {
  std_sort : forall {A : Type}, (A -> A -> bool) -> list A -> list A;
  std_sort_perm : forall A lt (l : list A), Permutation (std_sort lt l) l;
  std_sort_sorted : forall A (lt : A -> A -> bool) l,
    strict_weak_order (fun x => In x l) lt ->
    StronglySorted (may_follow lt) (std_sort lt l) }.

Section Consequences.
Context `{Sort : StdSort} {A : Type} (lt : A -> A -> bool).

Lemma std_sort_In l x : In x (std_sort lt l) <-> In x l.
Proof using.
  split; apply Permutation_in; [|symmetry]; apply std_sort_perm.
Qed.
Lemma std_sort_length l : length (std_sort lt l) = length l.
Proof using. apply Permutation_length, std_sort_perm. Qed.
Lemma strict_weak_mono (P Q : A -> Prop) :
  (forall x, Q x -> P x) -> strict_weak_order P lt -> strict_weak_order Q lt.
Proof using. intros HPQ [Ha Hc]. split; intros; [apply Ha|apply Hc]; auto. Qed.
End Consequences.

Lemma StronglySorted_app_inv {A} (R : A -> A -> Prop) l1 l2 :
  StronglySorted R (l1 ++ l2) ->
  StronglySorted R l1 /\ StronglySorted R l2 /\
  forall x y, In x l1 -> In y l2 -> R x y.
Proof.
  induction l1 as [|a l1 IH]; cbn; [intros; split; [constructor|by split]|].
  intros [H1 H2]%StronglySorted_inv. destruct (IH H1) as (S1 & S2 & H).
  rewrite Forall_forall in H2.
  split; [constructor; [done|]|split; [done|]].
  - apply Forall_forall. intros x Hx. apply H2. set_solver.
  - intros x y [->|Hx] Hy; [|auto]. apply H2. rewrite <- list_elem_of_In in Hy. set_solver.
Qed.
Lemma StronglySorted_app_intro {A} (R : A -> A -> Prop) l1 l2 :
  StronglySorted R l1 -> StronglySorted R l2 ->
  (forall x y, In x l1 -> In y l2 -> R x y) -> StronglySorted R (l1 ++ l2).
Proof.
  induction 1 as [|a l1 H1 IH Ha]; cbn; [done|]. intros H2 H. constructor.
  - apply IH; auto.
  - apply Forall_app. split; [done|]. apply Forall_forall. intros y Hy.
    rewrite list_elem_of_In in Hy. auto.
Qed.
Lemma StronglySorted_filter {A} (R : A -> A -> Prop) (f : A -> bool) l :
  StronglySorted R l -> StronglySorted R (List.filter f l).
Proof.
  induction 1 as [|a l H1 IH Ha]; cbn; [constructor|]. destruct (f a); [|done].
  constructor; [done|]. rewrite Forall_forall in *. intros x Hx.
  rewrite list_elem_of_In in Hx. apply filter_In in Hx as [Hx _].
  apply Ha. by rewrite list_elem_of_In.
Qed.
Lemma StronglySorted_mono {A} (R R' : A -> A -> Prop) l :
  (forall x y, In x l -> In y l -> R x y -> R' x y) ->
  StronglySorted R l -> StronglySorted R' l.
Proof.
  intros HR H. induction H as [|a l H1 IH Ha]; [constructor|]. constructor.
  - apply IH. intros x y Hx Hy. apply HR; by right.
  - rewrite Forall_forall in *. intros x Hx. specialize (Ha x Hx).
    rewrite list_elem_of_In in Hx. apply HR; [by left|by right|done].
Qed.

(** ** Insertion sort is an implementation *)
Section InsertionSort.
Context {A : Type} (lt : A -> A -> bool).

Fixpoint insert_sorted (x : A) (l : list A) : list A :=
  match l with
  | [] => [x]
  | y :: l' => if lt y x then y :: insert_sorted x l' else x :: l
  end.
Definition insertion_sort (l : list A) : list A := foldr insert_sorted [] l.

Lemma insert_sorted_perm x l : Permutation (insert_sorted x l) (x :: l).
Proof using.
  induction l as [|y l IH]; cbn; [done|]. destruct (lt y x); [|done].
  rewrite IH. constructor.
Qed.
Lemma insertion_sort_perm l : Permutation (insertion_sort l) l.
Proof using. induction l as [|x l IH]; cbn; [done|]. by rewrite insert_sorted_perm, IH. Qed.

Lemma insert_sorted_sorted x l :
  strict_weak_order (fun y => In y (x :: l)) lt ->
  StronglySorted (may_follow lt) l -> StronglySorted (may_follow lt) (insert_sorted x l).
Proof using.
  intros Hswo Hl. induction Hl as [|y l Hl IH Hy]; cbn; [repeat constructor|].
  pose proof (swo_asym _ _ Hswo) as Ha. pose proof (swo_cotrans _ _ Hswo) as Hc.
  rewrite Forall_forall in Hy.
  destruct (lt y x) eqn:E.
  - constructor.
    + apply IH. eapply strict_weak_mono; [|exact Hswo]. cbn. tauto.
    + apply Forall_forall. intros z. rewrite insert_sorted_perm, elem_of_cons.
      intros [->|Hz]; [|auto]. apply Ha; cbn; auto.
  - constructor; [by constructor; [|apply Forall_forall]|].
    constructor; [done|]. apply Forall_forall. intros z Hz. specialize (Hy z Hz).
    unfold may_follow in *. rewrite list_elem_of_In in Hz.
    destruct (lt z x) eqn:Ezx; [|done].
    destruct (Hc z y x) as [H|H]; cbn; auto; congruence.
Qed.
Lemma insertion_sort_sorted l :
  strict_weak_order (fun x => In x l) lt ->
  StronglySorted (may_follow lt) (insertion_sort l).
Proof using.
  induction l as [|x l IH]; cbn; intros Hswo; [constructor|]. apply insert_sorted_sorted.
  - eapply strict_weak_mono; [|exact Hswo]. cbn. intros y [->|Hy]; [by left|right].
    rewrite <- list_elem_of_In, insertion_sort_perm, list_elem_of_In in Hy. done.
  - apply IH. eapply strict_weak_mono; [|exact Hswo]. cbn. auto.
Qed.
End InsertionSort.

Definition insertion_StdSort : StdSort := {|
  std_sort A lt l := insertion_sort lt l;
  std_sort_perm A := @insertion_sort_perm A;
  std_sort_sorted A := @insertion_sort_sorted A |}.

(** The elements of a [std::map] in the order of their keys. *)
Definition in_key_order {A} (m : gmap Z A) : list (Z * A) :=
  insertion_sort (fun x y => x.1 <? y.1) (map_to_list m).

(** * Ordered sets *)

Section Sets.
Context {A : Type} (lt : A -> A -> bool).

Fixpoint set_insert (x : A) (l : list A) : list A :=
  match l with
  | [] => [x]
  | y :: l' => if lt y x then y :: set_insert x l' else if lt x y then x :: l else l
  end.
(** [find(x) != end()] *)
Definition set_has (x : A) (l : list A) : bool :=
  existsb (fun y => negb (lt x y) && negb (lt y x)) l.
Definition set_inserts (xs : list A) (l : list A) : list A :=
  fold_left (fun l x => set_insert x l) xs l.
Definition set_of (xs : list A) : list A := set_inserts xs [].
End Sets.

(** A strict total order, as a boolean function. *)
Class StrictTotal {A} (lt : A -> A -> bool) : Prop := {
  lt_irrefl x : lt x x = false;
  lt_trans x y z : lt x y = true -> lt y z = true -> lt x z = true;
  lt_total x y : lt x y = false -> lt y x = false -> x = y }.

#[export] Instance Z_ltb_strict : StrictTotal Z.ltb.
Proof.
  split; intros; zbool; rewrite ?Z.ltb_lt; lia.
Qed.

Section Facts.
Context {A : Type} (lt : A -> A -> bool) `{!StrictTotal lt}.

Lemma lt_asym x y : lt x y = true -> lt y x = false.
Proof using Type*.
  intros H. destruct (lt y x) eqn:E; [|done].
  pose proof (lt_trans _ _ _ H E) as Hx. by rewrite lt_irrefl in Hx.
Qed.
Lemma lt_neq x y : lt x y = true -> x <> y.
Proof using Type*. intros H ->. by rewrite lt_irrefl in H. Qed.

Definition ascending : list A -> Prop := StronglySorted (fun x y => lt x y = true).

Lemma elem_of_set_insert x y l : y ∈ set_insert lt x l <-> y = x \/ y ∈ l.
Proof using Type*.
  induction l as [|z l IH]; cbn [set_insert]; [set_solver|].
  destruct (lt z x) eqn:E1; [set_solver|]. destruct (lt x z) eqn:E2; [set_solver|].
  rewrite (lt_total _ _ E1 E2). set_solver.
Qed.
Lemma set_insert_ascending x l : ascending l -> ascending (set_insert lt x l).
Proof using Type*.
  induction 1 as [|z l Hl IH Hz]; cbn [set_insert]; [repeat constructor|].
  destruct (lt z x) eqn:E1.
  - constructor; [done|]. rewrite Forall_forall in *. intros y Hy%elem_of_set_insert.
    destruct Hy as [->|]; auto.
  - destruct (lt x z) eqn:E2; [|by constructor]. constructor; [by constructor|].
    constructor; [done|]. rewrite Forall_forall in *. intros y Hy.
    exact (lt_trans _ _ _ E2 (Hz y Hy)).
Qed.

Lemma elem_of_set_inserts xs l y : y ∈ set_inserts lt xs l <-> y ∈ xs \/ y ∈ l.
Proof using Type*.
  unfold set_inserts. revert l. induction xs as [|x xs IH]; intros l; cbn [fold_left]; [set_solver|].
  rewrite IH, elem_of_set_insert. set_solver.
Qed.
Lemma set_inserts_ascending xs l : ascending l -> ascending (set_inserts lt xs l).
Proof using Type*.
  unfold set_inserts. revert l.
  induction xs as [|x xs IH]; intros l; cbn [fold_left]; auto using set_insert_ascending.
Qed.
Lemma elem_of_set_of xs y : y ∈ set_of lt xs <-> y ∈ xs.
Proof using Type*. unfold set_of. rewrite elem_of_set_inserts. set_solver. Qed.
Lemma set_of_ascending xs : ascending (set_of lt xs).
Proof using Type*. apply set_inserts_ascending. constructor. Qed.

Lemma set_has_spec x l : set_has lt x l = true <-> x ∈ l.
Proof using Type*.
  unfold set_has. rewrite existsb_exists, list_elem_of_In. split.
  - intros (y & Hy & [H1 H2]%andb_true_iff). apply negb_true_iff in H1, H2.
    by rewrite (lt_total _ _ H1 H2).
  - intros H. exists x. by rewrite (lt_irrefl (lt := lt)).
Qed.
Lemma ascending_NoDup l : ascending l -> NoDup l.
Proof using Type*.
  induction 1 as [|x l Hl IH Hx]; constructor; [|done]. intros Hin.
  rewrite Forall_forall in Hx. by apply Hx, lt_neq in Hin.
Qed.
End Facts.

#[export] Hint Resolve set_insert_ascending set_inserts_ascending set_of_ascending : core.
