(* ===== verification/Quorums.v ===== *)
(** Quorum sets: [src/src/scp/LocalNode.cpp] and
    [src/src/scp/QuorumSetUtils.cpp].

    A set of nodes is the vector or set the source passes around; a statement
    is opaque, and the quorum set it announces is looked up by a function, as
    in the source. *)

From S2P Require Import Prelude Numeric Sorting.

Abbreviation NodeID := Z (only parsing).

Inductive SCPQuorumSet := mkQSet {
  threshold : Z;
  validators : list NodeID;
  innerSets : list SCPQuorumSet }.

Definition contains (nodeSet : list NodeID) (n : NodeID) : bool :=
  existsb (fun m => m =? n) nodeSet.

Definition buildSingletonQSet (nodeID : NodeID) : SCPQuorumSet := mkQSet 1 [nodeID] [].

(** ** All nodes *)
Fixpoint forAllNodesInternal (qset : SCPQuorumSet) : list NodeID :=
  validators qset ++ concat (map forAllNodesInternal (innerSets qset)).

(** The order of the calls of [proc]: every node once. *)
Fixpoint firstOccurrences (done : list NodeID) (nodes : list NodeID) : list NodeID :=
  match nodes with
  | [] => []
  | n :: nodes =>
      if contains done n then firstOccurrences done nodes
      else n :: firstOccurrences (n :: done) nodes
  end.
Definition forAllNodes (qset : SCPQuorumSet) : list NodeID :=
  firstOccurrences [] (forAllNodesInternal qset).

(** ** Weight *)

(** What [bigDivide] stores for [ROUND_UP], whether it fits or not. *)
Definition bigDivide_stored (A B C : Z) : Z := u64 (u128 (u128 (A * B) + C - 1) / C).

Definition first_nonzero {A} (f : A -> Z) : list A -> Z :=
  fix go l := match l with [] => 0 | x :: l => if negb (f x =? 0) then f x else go l end.

Fixpoint getNodeWeight (nodeID : NodeID) (qset : SCPQuorumSet) : Z :=
  let n := threshold qset in
  let d := Z.of_nat (length (innerSets qset) + length (validators qset)) in
  if contains (validators qset) nodeID then bigDivide_stored UINT64_MAX n d
  else
    let leafW := first_nonzero (getNodeWeight nodeID) (innerSets qset) in
    if negb (leafW =? 0) then bigDivide_stored leafW n d else 0.

(** ** Slices and blocking sets

    Both count down from a number and return as soon as it reaches zero:
    [None] is that [return true]. *)
Definition countDown {A} (decr : Z -> Z) (f : A -> bool) : list A -> Z -> option Z :=
  fix go l left :=
    match l with
    | [] => Some left
    | x :: l =>
        if f x then
          let left := decr left in
          if left <=? 0 then None else go l left
        else go l left
    end.

Fixpoint isQuorumSliceInternal (nodeSet : list NodeID) (qset : SCPQuorumSet) : bool :=
  let decr left := u32 (left - 1) in
  match countDown decr (contains nodeSet) (validators qset) (threshold qset) with
  | None => true
  | Some thresholdLeft =>
      match countDown decr (isQuorumSliceInternal nodeSet) (innerSets qset) thresholdLeft with
      | None => true
      | Some _ => false
      end
  end.
Definition isQuorumSlice (qSet : SCPQuorumSet) (nodeSet : list NodeID) : bool :=
  isQuorumSliceInternal nodeSet qSet.

Fixpoint isVBlockingInternal (nodeSet : list NodeID) (qset : SCPQuorumSet) : bool :=
  if threshold qset =? 0 then false
  else
    let decr left := s32 (left - 1) in
    let leftTillBlock :=
      s32 (u64 (1 + Z.of_nat (length (validators qset))
                + Z.of_nat (length (innerSets qset)) - threshold qset)) in
    match countDown decr (contains nodeSet) (validators qset) leftTillBlock with
    | None => true
    | Some leftTillBlock =>
        match countDown decr (isVBlockingInternal nodeSet) (innerSets qset) leftTillBlock with
        | None => true
        | Some _ => false
        end
    end.
Definition isVBlocking (qSet : SCPQuorumSet) (nodeSet : list NodeID) : bool :=
  isVBlockingInternal nodeSet qSet.

Section Statements.
Context {SCPStatement : Type}
  (qfun : SCPStatement -> option SCPQuorumSet) (filter : SCPStatement -> bool).

(** The nodes of a [std::map] whose statement passes the filter. *)
Definition filteredNodes (map : gmap NodeID SCPStatement) : list NodeID :=
  (List.filter (fun it => filter it.2) (in_key_order map)).*1.

Definition isVBlockingFiltered (qSet : SCPQuorumSet) (map : gmap NodeID SCPStatement) : bool :=
  isVBlocking qSet (filteredNodes map).

(** The loop that drops the nodes whose slices are not satisfied. *)
Definition quorumFilter (map : gmap NodeID SCPStatement) (pNodes : list NodeID)
    (nodeID : NodeID) : bool :=
  match st ← map !! nodeID; qfun st with
  | Some qSet => isQuorumSlice qSet pNodes
  | None => false
  end.
Fixpoint pruneNodes (fuel : nat) (map : gmap NodeID SCPStatement) (pNodes : list NodeID)
    : option (list NodeID) :=
  match fuel with
  | O => None
  | S fuel =>
      let fNodes := List.filter (quorumFilter map pNodes) pNodes in
      if Nat.eqb (length pNodes) (length fNodes) then Some fNodes
      else pruneNodes fuel map fNodes
  end.
(** [None] is a loop that does not end. *)
Definition isQuorum (qSet : SCPQuorumSet) (map : gmap NodeID SCPStatement) : option bool :=
  let pNodes := filteredNodes map in
  pNodes ← pruneNodes (S (length pNodes)) map pNodes;
  Some (isQuorumSlice qSet pNodes).
End Statements.

(** ** [findClosestVBlocking] *)

(** [emplace] into the multiset ordered by size. *)
Fixpoint emplace (v : list NodeID) (l : list (list NodeID)) : list (list NodeID) :=
  match l with
  | [] => [v]
  | w :: l' => if Nat.ltb (length v) (length w) then v :: l else w :: emplace v l'
  end.

Section Closest.
Context (nodes : list NodeID) (excluded : option NodeID).

Definition not_excluded (n : NodeID) : bool :=
  match excluded with Some e => negb (n =? e) | None => true end.

(** The loops over validators and inner sets; [None] is "already blocked". *)
Fixpoint closestValidators (vs : list NodeID) (leftTillBlock : Z) (res : list NodeID)
    : option (Z * list NodeID) :=
  match vs with
  | [] => Some (leftTillBlock, res)
  | v :: vs =>
      if not_excluded v then
        if contains nodes v then closestValidators vs leftTillBlock (res ++ [v])
        else
          let leftTillBlock := u64 (leftTillBlock - 1) in
          if leftTillBlock =? 0 then None else closestValidators vs leftTillBlock res
      else closestValidators vs leftTillBlock res
  end.
Definition closestInner (f : SCPQuorumSet -> list NodeID)
    : list SCPQuorumSet -> Z -> list (list NodeID) -> option (Z * list (list NodeID)) :=
  fix go inners leftTillBlock resInternals :=
    match inners with
    | [] => Some (leftTillBlock, resInternals)
    | inner :: inners =>
        match f inner with
        | [] =>
            let leftTillBlock := u64 (leftTillBlock - 1) in
            if leftTillBlock =? 0 then None else go inners leftTillBlock resInternals
        | v => go inners leftTillBlock (emplace v resInternals)
        end
    end.
Fixpoint addSmallest (leftTillBlock : Z) (resInternals : list (list NodeID)) (res : list NodeID)
    : list NodeID :=
  match resInternals with
  | [] => res
  | v :: rest =>
      if leftTillBlock =? 0 then res else addSmallest (u64 (leftTillBlock - 1)) rest (res ++ v)
  end.

Fixpoint findClosestVBlocking (qset : SCPQuorumSet) : list NodeID :=
  let leftTillBlock :=
    u64 (1 + Z.of_nat (length (validators qset)) + Z.of_nat (length (innerSets qset))
         - threshold qset) in
  match closestValidators (validators qset) leftTillBlock [] with
  | None => []
  | Some (leftTillBlock, res) =>
      match closestInner findClosestVBlocking (innerSets qset) leftTillBlock [] with
      | None => []
      | Some (leftTillBlock, resInternals) =>
          let res := if leftTillBlock <? Z.of_nat (length res)
                     then take (Z.to_nat leftTillBlock) res else res in
          addSmallest (leftTillBlock - Z.of_nat (length res)) resInternals res
      end
  end.
End Closest.

(** ** [isNodeInQuorum]

    The order in which an [unordered_set] is iterated is a parameter: [pick]
    is the element [begin()] points to. *)
Inductive TriBool := TB_TRUE | TB_FALSE | TB_MAYBE.

Section NodeInQuorum.
Context {SCPStatement : Type} (qfun : SCPStatement -> option SCPQuorumSet)
  (map : gmap NodeID (list SCPStatement)) (pick : gset NodeID -> NodeID).

Record Search := mkSearch { backlog : gset NodeID; visited : gset NodeID; res : TriBool }.

(** The loop over the statements of one node. *)
Definition exploreStatement (s : Search) (st : SCPStatement) : Search :=
  match qfun st with
  | None => mkSearch (backlog s) (visited s) TB_MAYBE
  | Some qset =>
      mkSearch (backlog s ∪ (list_to_set (forAllNodes qset) ∖ visited s)) (visited s) (res s)
  end.
Definition explore (c : NodeID) (s : Search) : Search :=
  let s := mkSearch (backlog s ∖ {[c]}) (visited s ∪ {[c]}) (res s) in
  match map !! c with
  | None => mkSearch (backlog s) (visited s) TB_MAYBE
  | Some sts => fold_left exploreStatement sts s
  end.
Fixpoint searchQuorum (fuel : nat) (node : NodeID) (s : Search) : option TriBool :=
  match fuel with
  | O => None
  | S fuel =>
      if decide (backlog s = ∅) then Some (res s)
      else
        let c := pick (backlog s) in
        if c =? node then Some TB_TRUE else searchQuorum fuel node (explore c s)
  end.

(** Every node that can be met: the fuel is their number, and one. *)
Definition mentioned : gset NodeID :=
  list_to_set (concat (List.map (fun st => from_option forAllNodes [] (qfun st))
                         (concat (map_to_list map).*2))).
Definition isNodeInQuorum (mNodeID node : NodeID) : option TriBool :=
  searchQuorum (S (size ({[mNodeID]} ∪ mentioned))) node (mkSearch {[mNodeID]} ∅ TB_FALSE).
End NodeInQuorum.

(** ** Sanity *)

(** [mKnownNodes] and [mCount]; [None] is [return false]. *)
Definition Known : Type := list NodeID * Z.
Fixpoint insertNodes (vs : list NodeID) (mKnownNodes : list NodeID) : option (list NodeID) :=
  match vs with
  | [] => Some mKnownNodes
  | n :: vs => if contains mKnownNodes n then None else insertNodes vs (n :: mKnownNodes)
  end.
Definition checkAll (f : SCPQuorumSet -> Known -> option Known)
    : list SCPQuorumSet -> Known -> option Known :=
  fix go l st := match l with [] => Some st | q :: l => st ← f q st; go l st end.

Fixpoint checkSanity (mExtraChecks : bool) (depth : Z) (qSet : SCPQuorumSet) (st : Known)
    : option Known :=
  if 2 <? depth then None
  else if threshold qSet <? 1 then None
  else
    let totEntries :=
      Z.of_nat (length (validators qSet)) + Z.of_nat (length (innerSets qSet)) in
    let vBlockingSize := u64 (totEntries - threshold qSet + 1) in
    let mCount := u64 (st.2 + Z.of_nat (length (validators qSet))) in
    if totEntries <? threshold qSet then None
    else if mExtraChecks && (threshold qSet <? vBlockingSize) then None
    else
      mKnownNodes ← insertNodes (validators qSet) st.1;
      checkAll (checkSanity mExtraChecks (depth + 1)) (innerSets qSet) (mKnownNodes, mCount).

Definition isQuorumSetSane (qSet : SCPQuorumSet) (extraChecks : bool) : bool :=
  match checkSanity extraChecks 0 qSet ([], 0) with
  | Some (_, mCount) => (1 <=? mCount) && (mCount <=? 1000)
  | None => false
  end.

(** ** Normalization *)
Definition singletonOf (q : SCPQuorumSet) : option NodeID :=
  match q with mkQSet 1 [n] [] => Some n | _ => None end.
(** One round of the loop over inner sets, already normalized. *)
Definition mergeInner (st : list NodeID * list SCPQuorumSet) (q : SCPQuorumSet)
    : list NodeID * list SCPQuorumSet :=
  match singletonOf q with
  | Some n => (st.1 ++ [n], st.2)
  | None => (st.1, st.2 ++ [q])
  end.
Fixpoint normalizeQSet (idToRemove : option NodeID) (qSet : SCPQuorumSet) : SCPQuorumSet :=
  let '(t, v) :=
    match idToRemove with
    | Some id =>
        let v := List.filter (fun n => negb (n =? id)) (validators qSet) in
        (u32 (threshold qSet - u32 (Z.of_nat (length (validators qSet) - length v))), v)
    | None => (threshold qSet, validators qSet)
    end in
  let '(v, i) := fold_left mergeInner (map (normalizeQSet idToRemove) (innerSets qSet)) (v, []) in
  match v, i with
  | [], [q] => if t =? 1 then q else mkQSet t v i
  | _, _ => mkQSet t v i
  end.
