(* ===== verification/QuorumFacts.v ===== *)
(** Quorum slices, blocking sets and quorums: the countdowns of the code count
    what they should, blocking sets are those that meet every slice, and the
    search for a quorum finds the largest one.

    Last, [findClosestVBlocking]: together with the nodes that already fail,
    what it returns blocks the quorum set. *)

From S2P Require Import Prelude Numeric Sorting Quorums.

(** ** Induction on quorum sets *)
Section Induction.
Context (P : SCPQuorumSet -> Prop).
Context (step : forall t vs qs, Forall P qs -> P (mkQSet t vs qs)).
Fixpoint qset_induction (q : SCPQuorumSet) : P q :=
  match q with
  | mkQSet t vs qs =>
      step t vs qs ((fix go l : Forall P l :=
        match l with [] => Forall_nil_2 P | q :: l => Forall_cons_2 P q l (qset_induction q) (go l) end) qs)
  end.
End Induction.

(** Thresholds have their C++ type; and are in range. *)
Inductive typed : SCPQuorumSet -> Prop :=
  | typed_intro t vs qs : in_u32 t -> Forall typed qs -> typed (mkQSet t vs qs).
Inductive sane : SCPQuorumSet -> Prop :=
  | sane_intro t vs qs :
      1 <= t <= Z.of_nat (length vs) + Z.of_nat (length qs) ->
      Z.of_nat (length vs) + Z.of_nat (length qs) < INT32_MAX ->
      Forall sane qs -> sane (mkQSet t vs qs).

Lemma sane_typed q : sane q -> typed q.
Proof.
  induction q as [t vs qs IH] using qset_induction. inversion 1 as [? ? ? Ht Hl His]; subst.
  constructor; [unfold_ints; unfold INT32_MAX in *; lia|].
  rewrite Forall_forall in *. auto.
Qed.

(** ** Counting *)
Definition count {A} (f : A -> bool) (l : list A) : Z := Z.of_nat (length (List.filter f l)).

Lemma count_nil {A} (f : A -> bool) : count f [] = 0.
Proof. done. Qed.
Lemma count_cons {A} (f : A -> bool) x l : count f (x :: l) = (if f x then 1 else 0) + count f l.
Proof. unfold count. cbn. destruct (f x); cbn [length]; lia. Qed.
Lemma count_range {A} (f : A -> bool) l : 0 <= count f l <= Z.of_nat (length l).
Proof. unfold count. pose proof (filter_length_le f l). lia. Qed.
Lemma count_app {A} (f : A -> bool) l l' : count f (l ++ l') = count f l + count f l'.
Proof. unfold count. rewrite List.filter_app, length_app. lia. Qed.
Lemma count_mono {A} (f g : A -> bool) l :
  (forall x, In x l -> f x = true -> g x = true) -> count f l <= count g l.
Proof.
  induction l as [|x l IH]; intros H; [done|]. rewrite !count_cons.
  assert (count f l <= count g l) by (apply IH; intros; apply H; cbn; auto).
  specialize (H x). destruct (f x); [rewrite H; cbn; auto; lia|]. destruct (g x); lia.
Qed.
Lemma count_ext {A} (f g : A -> bool) l :
  (forall x, In x l -> f x = g x) -> count f l = count g l.
Proof.
  induction l as [|x l IH]; intros H; [done|]. rewrite !count_cons, H by (cbn; auto).
  rewrite IH; [done|]. intros; apply H; cbn; auto.
Qed.
Lemma count_negb {A} (f : A -> bool) l : count (fun x => negb (f x)) l = Z.of_nat (length l) - count f l.
Proof.
  induction l as [|x l IH]; [done|]. rewrite !count_cons, IH. destruct (f x); cbn [negb length]; lia.
Qed.
Lemma count_map {A B} (f : B -> bool) (g : A -> B) l : count f (map g l) = count (fun x => f (g x)) l.
Proof. induction l as [|x l IH]; [done|]. cbn [map]. by rewrite !count_cons, IH. Qed.
Lemma count_perm {A} (f : A -> bool) l l' : Permutation l l' -> count f l = count f l'.
Proof.
  induction 1 as [|x l l' _ IH|x y l|]; [done| | |congruence]; rewrite !count_cons; lia.
Qed.

Lemma contains_In nodes n : contains nodes n = true <-> In n nodes.
Proof.
  unfold contains. rewrite existsb_exists. split.
  - intros (m & Hm & E%Z.eqb_eq). by subst.
  - intros H. exists n. by rewrite Z.eqb_refl.
Qed.
Lemma contains_false nodes n : contains nodes n = false <-> ~ In n nodes.
Proof. rewrite <- contains_In. by destruct (contains nodes n). Qed.

(** ** [isQuorumSlice] counts *)

(** How many hits a [uint32] countdown from [left] needs: it wraps at zero. *)
Definition need (left : Z) : Z := if left =? 0 then 4294967296 else left.

Lemma countDown_u32 {A} (f : A -> bool) l left :
  in_u32 left ->
  countDown (fun left => u32 (left - 1)) f l left =
    if need left <=? count f l then None else Some (u32 (left - count f l)).
Proof.
  revert left. induction l as [|x l IH]; intros left Hl; cbn [countDown].
  { unfold count, need. cbn. rewrite Z.sub_0_r, u32_id by done.
    destruct (Z.eqb_spec left 0); rewrite (proj2 (Z.leb_gt _ _)); [done|lia|done|].
    unfold_ints. lia. }
  rewrite count_cons. pose proof (count_range f l) as Hc. destruct (f x); [|apply IH; done].
  assert (Hd : u32 (left - 1) = need left - 1).
  { unfold need. destruct (Z.eqb_spec left 0) as [->|]; [done|]. apply u32_id. unfold_ints. lia. }
  rewrite Hd. unfold need in *. destruct (Z.eqb_spec left 0) as [->|Hn].
  - rewrite (proj2 (Z.leb_gt _ _)) by lia. rewrite IH by (unfold_ints; lia).
    rewrite (proj2 (Z.eqb_neq _ _)) by lia.
    destruct (Z.leb_spec (4294967296 - 1) (count f l)), (Z.leb_spec 4294967296 (1 + count f l));
      try lia; [done|].
    f_equal. unfold u32. rewrite <- (Z.mod_add (0 - (1 + count f l)) 1 4294967296) by lia.
    f_equal. lia.
  - destruct (Z.leb_spec (left - 1) 0).
    + by rewrite (proj2 (Z.leb_le _ _)) by (unfold_ints; lia).
    + rewrite IH by (unfold_ints; lia). unfold need. rewrite (proj2 (Z.eqb_neq (left - 1) 0)) by lia.
      destruct (Z.leb_spec (left - 1) (count f l)), (Z.leb_spec left (1 + count f l)); try lia; [done|].
      do 2 f_equal. lia.
Qed.

Lemma isQuorumSlice_count t vs qs S :
  in_u32 t ->
  isQuorumSlice (mkQSet t vs qs) S =
    (need t <=? count (contains S) vs + count (fun q => isQuorumSlice q S) qs).
Proof.
  intros Ht. unfold isQuorumSlice. cbn [isQuorumSliceInternal threshold validators innerSets].
  rewrite countDown_u32 by done. pose proof (count_range (contains S) vs) as Hv.
  pose proof (count_range (isQuorumSliceInternal S) qs) as Hi.
  change (count (fun q => isQuorumSliceInternal S q) qs) with (count (isQuorumSliceInternal S) qs).
  destruct (Z.leb_spec (need t) (count (contains S) vs)) as [Hle|Hgt].
  { symmetry. apply Z.leb_le. lia. }
  rewrite countDown_u32 by auto with ints.
  assert (Hn : need (u32 (t - count (contains S) vs)) = need t - count (contains S) vs).
  { unfold need in *. unfold_ints. destruct (Z.eqb_spec t 0) as [->|Hn0].
    - destruct (decide (count (contains S) vs = 0)) as [->|Hc]; [done|].
      assert (E : u32 (0 - count (contains S) vs) = 4294967296 - count (contains S) vs).
      { unfold u32. rewrite <- (Z.mod_add _ 1), Z.mod_small by lia. lia. }
      rewrite E. by rewrite (proj2 (Z.eqb_neq _ _)) by lia.
    - rewrite u32_id by (unfold_ints; lia). by rewrite (proj2 (Z.eqb_neq _ _)) by lia. }
  rewrite Hn.
  destruct (Z.leb_spec (need t - count (contains S) vs) (count (isQuorumSliceInternal S) qs));
    symmetry; [apply Z.leb_le|apply Z.leb_gt]; lia.
Qed.

Lemma isQuorumSlice_sane t vs qs S :
  sane (mkQSet t vs qs) ->
  isQuorumSlice (mkQSet t vs qs) S =
    (t <=? count (contains S) vs + count (fun q => isQuorumSlice q S) qs).
Proof.
  inversion 1; subst. rewrite isQuorumSlice_count by (unfold_ints; unfold INT32_MAX in *; lia).
  unfold need. by rewrite (proj2 (Z.eqb_neq t 0)) by lia.
Qed.

(** More nodes satisfy more; only the nodes of the set matter. *)
Lemma in_all_nodes n t vs qs :
  In n (forAllNodesInternal (mkQSet t vs qs)) <->
  In n vs \/ exists q, In q qs /\ In n (forAllNodesInternal q).
Proof.
  cbn [forAllNodesInternal validators innerSets]. rewrite in_app_iff, in_concat. split.
  - intros [H|(l & Hl & Hn)]; [auto|]. apply in_map_iff in Hl as (q & <- & Hq). eauto.
  - intros [H|(q & Hq & Hn)]; [auto|]. right. exists (forAllNodesInternal q). split; [by apply in_map|done].
Qed.
Lemma isQuorumSlice_mono q S T :
  typed q -> (forall n, In n (forAllNodesInternal q) -> In n S -> In n T) ->
  isQuorumSlice q S = true -> isQuorumSlice q T = true.
Proof.
  induction q as [t vs qs IH] using qset_induction. inversion 1 as [? ? ? Ht Hq]; subst.
  intros Hn. rewrite !isQuorumSlice_count by done. rewrite !Z.leb_le.
  rewrite Forall_forall in IH, Hq.
  assert (count (contains S) vs <= count (contains T) vs).
  { apply count_mono. intros n Hin. rewrite !contains_In. apply Hn, in_all_nodes. auto. }
  assert (count (fun q => isQuorumSlice q S) qs <= count (fun q => isQuorumSlice q T) qs); [|lia].
  apply count_mono. intros q Hin Hs. apply list_elem_of_In in Hin as Hin'. apply IH; auto.
  intros n Hn'. apply Hn, in_all_nodes. eauto.
Qed.

(** ** [isVBlocking] counts *)
Lemma countDown_s32 {A} (f : A -> bool) l left :
  0 < left <= INT32_MAX ->
  countDown (fun left => s32 (left - 1)) f l left =
    if left <=? count f l then None else Some (left - count f l).
Proof.
  revert left. induction l as [|x l IH]; intros left Hl; cbn [countDown].
  { unfold count. cbn. rewrite (proj2 (Z.leb_gt _ _)) by lia. f_equal. lia. }
  rewrite count_cons. pose proof (count_range f l) as Hc. destruct (f x); [|apply IH; done].
  assert (Hd : s32 (left - 1) = left - 1).
  { unfold s32, INT32_MAX in *. rewrite Z.mod_small; lia. }
  rewrite Hd. destruct (Z.leb_spec (left - 1) 0); [by rewrite (proj2 (Z.leb_le _ _)) by lia|].
  rewrite IH by lia.
  destruct (Z.leb_spec (left - 1) (count f l)), (Z.leb_spec left (1 + count f l)); try lia; [done|].
  f_equal. lia.
Qed.
Lemma isVBlocking_count t vs qs S :
  sane (mkQSet t vs qs) ->
  isVBlocking (mkQSet t vs qs) S =
    (1 + Z.of_nat (length vs) + Z.of_nat (length qs) - t
     <=? count (contains S) vs + count (fun q => isVBlocking q S) qs).
Proof.
  inversion 1 as [? ? ? Ht Hl _]; subst. unfold isVBlocking.
  cbn [isVBlockingInternal threshold validators innerSets].
  rewrite (proj2 (Z.eqb_neq t 0)) by lia.
  set (left := _ - t). assert (Hleft : 0 < left <= INT32_MAX) by (unfold left; lia).
  rewrite (u64_id left) by (unfold_ints; lia).
  assert (Hs : s32 left = left) by (unfold s32, INT32_MAX in *; rewrite Z.mod_small; lia).
  rewrite Hs, countDown_s32 by done. pose proof (count_range (contains S) vs) as Hv.
  pose proof (count_range (isVBlockingInternal S) qs) as Hi.
  change (count (fun q => isVBlockingInternal S q) qs) with (count (isVBlockingInternal S) qs).
  destruct (Z.leb_spec left (count (contains S) vs)); [symmetry; apply Z.leb_le; lia|].
  rewrite countDown_s32 by lia.
  destruct (Z.leb_spec (left - count (contains S) vs) (count (isVBlockingInternal S) qs));
    symmetry; [apply Z.leb_le|apply Z.leb_gt]; lia.
Qed.

(** ** A set blocks what its complement cannot satisfy *)
Lemma blocking_dual q S T :
  sane q -> (forall n, In n (forAllNodesInternal q) -> contains T n = negb (contains S n)) ->
  isVBlocking q S = negb (isQuorumSlice q T).
Proof.
  induction q as [t vs qs IH] using qset_induction. intros Hsane Hn.
  rewrite isVBlocking_count, isQuorumSlice_sane by done.
  inversion Hsane as [? ? ? Ht Hl Hq]; subst. rewrite Forall_forall in IH, Hq.
  rewrite (count_ext (contains T) (fun n => negb (contains S n)) vs), count_negb
    by (intros n Hin; apply Hn, in_all_nodes; auto).
  rewrite (count_ext (fun q => isVBlocking q S) (fun q => negb (isQuorumSlice q T)) qs), count_negb.
  2:{ intros q Hin. apply list_elem_of_In in Hin as Hin'. apply IH; auto.
      intros n Hn'. apply Hn, in_all_nodes. eauto. }
  destruct (Z.leb_spec t (Z.of_nat (length vs) - count (contains S) vs
                          + count (fun q => isQuorumSlice q T) qs)); cbn [negb];
    [apply Z.leb_gt|apply Z.leb_le]; lia.
Qed.

(** The nodes of [q] outside [S]. *)
Definition others (q : SCPQuorumSet) (S : list NodeID) : list NodeID :=
  List.filter (fun n => negb (contains S n)) (forAllNodesInternal q).
Lemma others_spec q S n :
  In n (forAllNodesInternal q) -> contains (others q S) n = negb (contains S n).
Proof.
  intros Hn. unfold others. destruct (contains S n) eqn:E; cbn [negb].
  - apply contains_false. rewrite filter_In, E. by intros [_ ?].
  - apply contains_In. by rewrite filter_In, E.
Qed.

(** [isVBlocking] is what its name says: a set of nodes blocks a quorum set
    in range if and only if it meets every set of nodes that contains a slice
    of it - so that no slice, and no quorum, can do without it. *)
Theorem isVBlocking_meets_slices q S :
  sane q ->
  isVBlocking q S = true <->
  forall T, isQuorumSlice q T = true ->
    exists n, In n (forAllNodesInternal q) /\ In n S /\ In n T.
Proof.
  intros Hs. rewrite (blocking_dual q S (others q S)), negb_true_iff
    by auto using others_spec. split.
  - intros Hno T HT.
    destruct (existsb (fun n => contains S n && contains T n) (forAllNodesInternal q)) eqn:E.
    + apply existsb_exists in E as (n & Hn & [HS HT']%andb_true_iff). exists n.
      rewrite <- (contains_In S), <- (contains_In T). auto.
    + exfalso. rewrite (isQuorumSlice_mono q T) in Hno; [done|by apply sane_typed| |done].
      intros n Hn HnT. rewrite <- contains_In, others_spec by done. apply negb_true_iff.
      destruct (contains S n) eqn:HnS; [|done].
      enough (existsb (fun n => contains S n && contains T n) (forAllNodesInternal q) = true) by congruence.
      apply existsb_exists. exists n. by rewrite HnS, (proj2 (contains_In T n)).
  - intros H. destruct (isQuorumSlice q (others q S)) eqn:E; [|done].
    destruct (H _ E) as (n & Hn & HnS & HnT). rewrite <- contains_In, others_spec in HnT by done.
    rewrite <- contains_In in HnS. by rewrite HnS in HnT.
Qed.

(** ** The search for a quorum *)
Section Search.
Context {SCPStatement : Type}
  (qfun : SCPStatement -> option SCPQuorumSet) (filter : SCPStatement -> bool)
  (map : gmap NodeID SCPStatement).
Context (Htyped : forall st q, qfun st = Some q -> typed q).

(** Every node of [Q] has announced a quorum set with a slice in [Q]. *)
Definition selfSupporting (Q : list NodeID) : Prop :=
  forall n, In n Q -> exists st q,
    map !! n = Some st /\ qfun st = Some q /\ isQuorumSlice q Q = true.

Lemma quorumFilter_true Q n :
  quorumFilter qfun map Q n = true <->
  exists st q, map !! n = Some st /\ qfun st = Some q /\ isQuorumSlice q Q = true.
Proof using.
  unfold quorumFilter. destruct (map !! n) as [st|]; cbn.
  - destruct (qfun st) as [q|] eqn:E; split; [eauto| | |].
    + by intros (? & ? & [= <-] & [= <-]%(eq_trans (eq_sym E)) & ?).
    + done.
    + intros (? & ? & [= <-] & E' & _). congruence.
  - split; [done|]. by intros (? & ? & ? & _).
Qed.
Lemma quorumFilter_mono Q Q' n :
  incl Q Q' -> quorumFilter qfun map Q n = true -> quorumFilter qfun map Q' n = true.
Proof using Htyped.
  rewrite !quorumFilter_true. intros HQ (st & q & Hm & Hq & Hs). exists st, q.
  do 2 (split; [done|]). eapply isQuorumSlice_mono; [by eapply Htyped| |exact Hs].
  intros m _. apply HQ.
Qed.
Lemma filter_same_length {A} (f : A -> bool) l :
  length l = length (List.filter f l) -> List.filter f l = l.
Proof using.
  induction l as [|x l IH]; cbn; [done|]. pose proof (filter_length_le f l).
  destruct (f x); cbn; [|lia]. intros [= H']. by rewrite IH.
Qed.

Lemma pruneNodes_correct fuel pNodes :
  (length pNodes < fuel)%nat ->
  exists r, pruneNodes qfun fuel map pNodes = Some r /\
    incl r pNodes /\ selfSupporting r /\
    forall Q, incl Q pNodes -> selfSupporting Q -> incl Q r.
Proof using Htyped.
  revert pNodes. induction fuel as [|fuel IH]; intros p Hf; [lia|]. cbn [pruneNodes].
  set (f := quorumFilter qfun map p). set (p' := List.filter f p).
  assert (Hkeep : forall Q, incl Q p -> selfSupporting Q -> incl Q p').
  { intros Q HQ Hself n Hn. apply filter_In. split; [by apply HQ|].
    apply (quorumFilter_mono Q); [done|]. by apply quorumFilter_true, Hself. }
  destruct (Nat.eqb_spec (length p) (length p')) as [E|E].
  - apply filter_same_length in E. fold p' in E. exists p'. split; [done|].
    split; [rewrite E; apply incl_refl|]. split; [|done].
    intros n Hn. apply quorumFilter_true. rewrite E.
    apply filter_In in Hn. apply Hn.
  - pose proof (filter_length_le f p) as Hlen. fold p' in Hlen.
    destruct (IH p') as (r & Hr & Hincl & Hself & Hmax); [lia|]. exists r. split; [done|].
    split; [|split; [done|auto]]. intros n Hn. apply Hincl in Hn. apply filter_In in Hn. apply Hn.
Qed.

(** C33. [isQuorum] terminates and is right: it returns [true] exactly if some
    set of the nodes that pass the filter is a quorum that contains a slice of
    the local quorum set - a set in which every node has announced a quorum
    set and has a slice. *)
Theorem isQuorum_correct qSet :
  typed qSet ->
  exists b, isQuorum qfun filter qSet map = Some b /\
    (b = true <-> exists Q, incl Q (filteredNodes filter map) /\ selfSupporting Q /\
                            isQuorumSlice qSet Q = true).
Proof using Htyped.
  intros Hq. unfold isQuorum.
  destruct (pruneNodes_correct (S (length (filteredNodes filter map))) (filteredNodes filter map))
    as (r & Hr & Hincl & Hself & Hmax); [lia|].
  rewrite Hr. cbn. exists (isQuorumSlice qSet r). split; [done|]. split; [by exists r|].
  intros (Q & HQ & HQs & HQq). eapply isQuorumSlice_mono; [done| |exact HQq].
  intros n _. by apply Hmax.
Qed.
End Search.

(** ** Normalization *)

(** No level loses as many validators as it needs. *)
Inductive removable (id : NodeID) : SCPQuorumSet -> Prop :=
  | removable_intro t vs qs :
      count (fun n => n =? id) vs < t -> Forall (removable id) qs ->
      removable id (mkQSet t vs qs).
Definition keepsSlices (idToRemove : option NodeID) (q : SCPQuorumSet) : Prop :=
  match idToRemove with Some id => removable id q | None => True end.
Definition withRemoved (idToRemove : option NodeID) (S : list NodeID) : list NodeID :=
  match idToRemove with Some id => id :: S | None => S end.

Lemma keepsSlices_inner id t vs qs :
  keepsSlices id (mkQSet t vs qs) -> Forall (keepsSlices id) qs.
Proof.
  destruct id as [id|]; cbn.
  - inversion 1; subst. done.
  - intros _. by apply Forall_true.
Qed.

Lemma singletonOf_slice q n S :
  singletonOf q = Some n -> isQuorumSlice q S = contains S n.
Proof.
  destruct q as [t vs qs]. cbn [singletonOf].
  destruct t as [|[]|]; try done. destruct vs as [|m []]; try done. destruct qs; [|done].
  intros [= ->]. rewrite isQuorumSlice_count by (unfold_ints; lia). unfold count. cbn.
  by destruct (contains S n).
Qed.

Lemma mergeInner_count S qs v i :
  let r := fold_left mergeInner qs (v, i) in
  count (contains S) r.1 + count (fun q => isQuorumSlice q S) r.2 =
  count (contains S) v + count (fun q => isQuorumSlice q S) i
  + count (fun q => isQuorumSlice q S) qs.
Proof.
  revert v i. induction qs as [|q qs IH]; intros v i; cbn [fold_left].
  { rewrite count_nil. cbn [fst snd]. lia. }
  rewrite count_cons. cbn zeta in IH. unfold mergeInner at 2 4.
  destruct (singletonOf q) as [n|] eqn:E; rewrite IH; cbn [fst snd]; rewrite count_app, count_cons.
  - rewrite (singletonOf_slice _ _ S E), count_nil. lia.
  - rewrite count_nil. lia.
Qed.
Lemma mergeInner_Forall (P : SCPQuorumSet -> Prop) qs v i :
  Forall P qs -> Forall P i -> Forall P (fold_left mergeInner qs (v, i)).2.
Proof.
  revert v i. induction qs as [|q qs IH]; intros v i Hq Hi; cbn [fold_left]; [done|].
  apply Forall_cons in Hq as [Hq Hqs]. unfold mergeInner at 2.
  destruct (singletonOf q); apply IH; try done. cbn. apply Forall_app. by rewrite Forall_singleton.
Qed.

(** The final simplification. *)
Lemma simplified_slice t v i S :
  in_u32 t -> Forall typed i ->
  let q := match v, i with
           | [], [q] => if t =? 1 then q else mkQSet t v i
           | _, _ => mkQSet t v i
           end in
  typed q /\ isQuorumSlice q S = isQuorumSlice (mkQSet t v i) S.
Proof.
  intros Ht Hi. assert (H0 : typed (mkQSet t v i)) by by constructor.
  destruct v; [|done]. destruct i as [|q []]; try done. destruct (Z.eqb_spec t 1) as [->|]; [|done].
  apply Forall_cons in Hi as [Hi _]. split; [exact Hi|]. rewrite isQuorumSlice_count by done.
  unfold count. cbn. by destruct (isQuorumSlice q S).
Qed.

Lemma count_removed id S vs :
  count (contains (id :: S)) vs =
    count (fun n => n =? id) vs
    + count (contains S) (List.filter (fun n => negb (n =? id)) vs).
Proof.
  induction vs as [|n vs IH]; [done|]. rewrite !count_cons, IH. cbn [contains existsb List.filter].
  rewrite (Z.eqb_sym id). destruct (n =? id); cbn [negb orb]; [lia|]. rewrite count_cons.
  fold (contains S n). destruct (contains S n); lia.
Qed.
Lemma filter_removed_length (id : NodeID) vs :
  Z.of_nat (length vs - length (List.filter (fun n => negb (n =? id)) vs)) = count (fun n => n =? id) vs.
Proof.
  pose proof (count_negb (fun n => n =? id) vs) as H. unfold count in *.
  pose proof (filter_length_le (fun n => negb (n =? id)) vs). lia.
Qed.

Lemma normalizeQSet_slices id q S :
  typed q -> keepsSlices id q ->
  typed (normalizeQSet id q) /\
  isQuorumSlice (normalizeQSet id q) S = isQuorumSlice q (withRemoved id S).
Proof.
  induction q as [t vs qs IH] using qset_induction. intros Hty Hk.
  inversion Hty as [? ? ? Ht Hqs]; subst. apply keepsSlices_inner in Hk as Hki.
  cbn [normalizeQSet threshold validators innerSets].
  set (tv := match id with Some _ => _ | None => _ end).
  assert (Htv : in_u32 tv.1 /\ need tv.1 - count (contains S) tv.2
                              = need t - count (contains (withRemoved id S)) vs).
  { destruct id as [id|]; cbn [withRemoved keepsSlices] in *; [|done]. subst tv. cbn [fst snd].
    rewrite filter_removed_length, count_removed. inversion Hk as [? ? ? Hlt _]; subst.
    pose proof (count_range (fun n => n =? id) vs). rewrite !u32_id by (unfold_ints; rewrite ?u32_id; lia || (unfold_ints; lia)).
    split; [unfold_ints; lia|]. unfold need. rewrite !(proj2 (Z.eqb_neq _ 0)) by lia. lia. }
  clearbody tv. destruct tv as [t' v']. cbn [fst snd] in Htv. destruct Htv as [Ht' Hneed].
  assert (Hin : Forall typed (map (normalizeQSet id) qs) /\
    count (fun q => isQuorumSlice q S) (map (normalizeQSet id) qs)
    = count (fun q => isQuorumSlice q (withRemoved id S)) qs).
  { rewrite Forall_forall in IH, Hqs, Hki. split.
    - apply Forall_forall. intros q' Hq'. apply list_elem_of_In, in_map_iff in Hq' as (q & <- & Hq).
      apply list_elem_of_In in Hq. by apply IH; auto.
    - rewrite count_map. apply count_ext. intros q Hq%list_elem_of_In. by apply IH; auto. }
  destruct Hin as [Hty' Hcount].
  pose proof (mergeInner_count S (map (normalizeQSet id) qs) v' []) as Hm.
  pose proof (mergeInner_Forall typed (map (normalizeQSet id) qs) v' [] Hty' (Forall_nil_2 _)) as HF.
  destruct (fold_left mergeInner _ _) as [v i]. cbn [fst snd] in *. cbv zeta in Hm.
  destruct (simplified_slice t' v i S Ht' HF) as [Hs1 Hs2]. split; [exact Hs1|].
  rewrite Hs2, !isQuorumSlice_count by done. rewrite Hcount in Hm.
  change (count _ []) with 0 in Hm.
  match goal with |- (?a <=? ?b) = (?c <=? ?d) => destruct (Z.leb_spec a b), (Z.leb_spec c d) end; lia.
Qed.

(** The slices that are left when a node is taken for granted: at each level the node counts
    as present, but a level whose whole threshold it was has none. *)
Fixpoint sliceWithout (idToRemove : option NodeID) (S : list NodeID) (q : SCPQuorumSet) : bool :=
  match q with
  | mkQSet t vs qs =>
      (count (fun n => bool_decide (idToRemove = Some n)) vs <? t) &&
      (t <=? count (contains (withRemoved idToRemove S)) vs + count (sliceWithout idToRemove S) qs)
  end.
(** As many entries as the XDR of a quorum set can hold. *)
Inductive sized : SCPQuorumSet -> Prop :=
  | sized_intro t vs qs :
      Z.of_nat (length vs) + Z.of_nat (length qs) <= UINT32_MAX -> Forall sized qs -> sized (mkQSet t vs qs).

Lemma count_eqb_removed id vs : count (fun n => bool_decide (Some id = Some n)) vs = count (fun n => n =? id) vs.
Proof.
  apply count_ext. intros n _. destruct (Z.eqb_spec n id) as [->|Hn]; [by apply bool_decide_eq_true|].
  apply bool_decide_eq_false. congruence.
Qed.
(** A level, with its inner sets done. *)
Lemma sliceWithout_level id t vs n S :
  in_u32 t -> Z.of_nat (length vs) + n <= UINT32_MAX -> 0 <= n ->
  let tv := match id with
            | Some id => let v := List.filter (fun n => negb (n =? id)) vs in
                (u32 (t - u32 (Z.of_nat (length vs - length v))), v)
            | None => (t, vs)
            end in
  in_u32 tv.1 /\ forall c, 0 <= c <= n ->
    (need tv.1 <=? count (contains S) tv.2 + c) =
    (count (fun n => bool_decide (id = Some n)) vs <? t) && (t <=? count (contains (withRemoved id S)) vs + c).
Proof.
  intros Ht Hlen Hn. pose proof (count_range (contains (withRemoved id S)) vs) as Hr. destruct id as [id|]; cbn [fst snd withRemoved].
  - rewrite filter_removed_length, count_eqb_removed, count_removed. cbn [withRemoved] in Hr. rewrite count_removed in Hr.
    pose proof (count_range (fun n => n =? id) vs) as Hc. pose proof (count_range (contains S) (List.filter (fun n => negb (n =? id)) vs)) as Hs.
    rewrite (u32_id (count (fun n => n =? id) vs)) by (unfold_ints; lia). split; [apply u32_range|]. intros c Hc'. unfold need.
    destruct (Z.ltb_spec (count (fun n => n =? id) vs) t) as [Hlt|Hge]; cbn [andb].
    + rewrite u32_id by (unfold_ints; lia). rewrite (proj2 (Z.eqb_neq _ 0)) by lia.
      match goal with |- (?a <=? ?b) = (?c <=? ?d) => destruct (Z.leb_spec a b), (Z.leb_spec c d) end; lia.
    + apply Z.leb_gt. destruct (Z.eqb_spec (u32 (t - count (fun n => n =? id) vs)) 0) as [E|E]; [unfold_ints; lia|].
      unfold u32 in E |- *. destruct (Z.eq_dec t (count (fun n => n =? id) vs)) as [->|Hne]; [by rewrite Z.sub_diag in E|].
      rewrite <- (Z.mod_unique_pos _ 4294967296 (-1) (t - count (fun n => n =? id) vs + 4294967296)); unfold_ints; lia.
  - cbn [withRemoved] in Hr. split; [done|]. intros c Hc. unfold need. match goal with |- context [count ?f vs <? t] => assert (E : count f vs = 0) end.
    { unfold count. rewrite (List.filter_ext _ (fun _ => false)) by (intros; by apply bool_decide_eq_false). by rewrite List.filter_false. }
    rewrite E. destruct (Z.eqb_spec t 0) as [->|Ht0]; [apply Z.leb_gt; unfold_ints; lia|].
    rewrite (proj2 (Z.ltb_lt 0 t)) by (unfold_ints; lia). done.
Qed.
Lemma normalizeQSet_sliceWithout id q S :
  typed q -> sized q -> typed (normalizeQSet id q) /\ isQuorumSlice (normalizeQSet id q) S = sliceWithout id S q.
Proof.
  induction q as [t vs qs IH] using qset_induction. intros Hty Hsz.
  inversion Hty as [? ? ? Ht Hqs]; subst. inversion Hsz as [? ? ? Hlen Hss]; subst.
  cbn [normalizeQSet threshold validators innerSets sliceWithout].
  destruct (sliceWithout_level id t vs (Z.of_nat (length qs)) S Ht Hlen ltac:(lia)) as [Ht' Hlevel].
  destruct (match id with Some _ => _ | None => _ end) as [t' v']. cbn [fst snd] in Ht', Hlevel.
  assert (Hin : Forall typed (map (normalizeQSet id) qs) /\
    count (fun q => isQuorumSlice q S) (map (normalizeQSet id) qs) = count (sliceWithout id S) qs).
  { rewrite Forall_forall in IH, Hqs, Hss. split.
    - apply Forall_forall. intros q' Hq'. apply list_elem_of_In, in_map_iff in Hq' as (q & <- & Hq).
      apply list_elem_of_In in Hq. by apply IH; auto.
    - rewrite count_map. apply count_ext. intros q Hq%list_elem_of_In. by apply IH; auto. }
  destruct Hin as [Hty' Hcount]. pose proof (mergeInner_count S (map (normalizeQSet id) qs) v' []) as Hm.
  pose proof (mergeInner_Forall typed (map (normalizeQSet id) qs) v' [] Hty' (Forall_nil_2 _)) as HF.
  destruct (fold_left mergeInner _ _) as [v i]. cbn [fst snd] in *. cbv zeta in Hm.
  destruct (simplified_slice t' v i S Ht' HF) as [Hs1 Hs2]. split; [exact Hs1|].
  rewrite Hs2, isQuorumSlice_count by done. rewrite Hcount in Hm. change (count _ []) with 0 in Hm.
  rewrite <- Hlevel by apply count_range. f_equal. lia.
Qed.

(** C34. What normalizing does to the slices of a quorum set, of any shape, with the numbers and
    sizes that XDR can carry.  Without a node to remove, the same
    sets of nodes satisfy it as before.  With one, a set satisfies the result exactly if, level
    by level, it satisfied the original together with that node - the node is taken for
    granted - except that a level whose whole threshold that node was is satisfied by nothing;
    where there is no such level, that is to satisfy the original together with the node. *)
Theorem normalizeQSet_correct id q S :
  typed q -> sized q ->
  isQuorumSlice (normalizeQSet id q) S = sliceWithout id S q /\
  (keepsSlices id q -> isQuorumSlice (normalizeQSet id q) S = isQuorumSlice q (withRemoved id S)).
Proof. intros Ht Hs. split; [by apply normalizeQSet_sliceWithout|]. intros Hk. by apply normalizeQSet_slices. Qed.

(** ** Witnesses: two of the nodes 1, 2 and two of 3, 4, 5 *)
Definition sample_qset : SCPQuorumSet := mkQSet 2 [1; 2] [mkQSet 2 [3; 4; 5] []].
Lemma sample_sane : sane sample_qset.
Proof. unfold sample_qset. repeat (constructor; try (vm_compute; intuition congruence)). Qed.

Lemma isVBlocking_meets_slices_witness :
  isVBlocking sample_qset [1; 3; 4] = true <->
  forall T, isQuorumSlice sample_qset T = true ->
    exists n, In n (forAllNodesInternal sample_qset) /\ In n [1; 3; 4] /\ In n T.
Proof. apply (isVBlocking_meets_slices sample_qset), sample_sane. Defined.
Example sample_blocking :
  isVBlocking sample_qset [1; 3; 4] = true /\ isVBlocking sample_qset [1; 3] = false /\
  isQuorumSlice sample_qset [2; 4; 5] = true.
Proof. vm_compute. auto. Qed.

(** Every node has the sample quorum set, but nodes 2 and 5 have said nothing. *)
Definition sample_statements : gmap NodeID Z := {[1 := 10; 3 := 10; 4 := 10]}.
Lemma isQuorum_correct_witness :
  exists b,
    isQuorum (fun _ : Z => Some sample_qset) (fun _ => true) sample_qset sample_statements = Some b /\
    (b = true <-> exists Q, incl Q (filteredNodes (fun _ => true) sample_statements) /\
       selfSupporting (fun _ : Z => Some sample_qset) sample_statements Q /\
       isQuorumSlice sample_qset Q = true).
Proof.
  apply (isQuorum_correct (fun _ : Z => Some sample_qset) (fun _ => true) sample_statements).
  - intros st q [= <-]. apply sane_typed, sample_sane.
  - apply sane_typed, sample_sane.
Defined.
Example sample_isQuorum :
  isQuorum (fun _ : Z => Some sample_qset) (fun _ => true) sample_qset sample_statements = Some true.
Proof. reflexivity. Qed.

(** The second set is that of a node that is on its own. *)
Lemma normalizeQSet_correct_witness :
  normalizeQSet (Some 2) (mkQSet 2 [1; 2] [mkQSet 1 [3] []]) = mkQSet 1 [1; 3] [] /\
  isQuorumSlice (normalizeQSet (Some 2) (mkQSet 2 [1; 2] [mkQSet 1 [3] []])) [3] =
  isQuorumSlice (mkQSet 2 [1; 2] [mkQSet 1 [3] []]) (withRemoved (Some 2) [3]) /\
  isQuorumSlice (normalizeQSet (Some 2) (mkQSet 1 [2] [])) [2; 3] = sliceWithout (Some 2) [2; 3] (mkQSet 1 [2] []) /\
  sliceWithout (Some 2) [2; 3] (mkQSet 1 [2] []) = false.
Proof.
  split; [reflexivity|]. split; [|split; [|reflexivity]].
  - apply (normalizeQSet_correct (Some 2) (mkQSet 2 [1; 2] [mkQSet 1 [3] []]) [3]);
      repeat (constructor; try (vm_compute; intuition congruence)).
  - apply (normalizeQSet_correct (Some 2) (mkQSet 1 [2] []) [2; 3]);
      repeat (constructor; try (vm_compute; intuition congruence)).
Defined.

(** * The closest blocking set *)

Lemma sane_range t vs qs :
  sane (mkQSet t vs qs) ->
  1 <= t <= Z.of_nat (length vs) + Z.of_nat (length qs) /\
  Z.of_nat (length vs) + Z.of_nat (length qs) < INT32_MAX.
Proof. inversion 1; subst. done. Qed.
Lemma isVBlocking_mono q S T :
  sane q -> incl S T -> isVBlocking q S = true -> isVBlocking q T = true.
Proof.
  induction q as [t vs qs IH] using qset_induction. intros Hs Hn.
  rewrite !isVBlocking_count by done. rewrite !Z.leb_le.
  inversion Hs as [? ? ? _ _ Hq]; subst. rewrite Forall_forall in IH, Hq.
  assert (count (contains S) vs <= count (contains T) vs).
  { apply count_mono. intros n Hin. rewrite !contains_In. apply Hn. }
  assert (count (fun q => isVBlocking q S) qs <= count (fun q => isVBlocking q T) qs); [|lia].
  apply count_mono. intros q Hin. apply list_elem_of_In in Hin. by apply IH; auto.
Qed.

(** ** The loops *)
Definition is_nil (r : list NodeID) : bool := Nat.eqb (length r) 0.
Section Loops.
Context (nodes : list NodeID).

Lemma closestValidators_spec vs left res :
  1 <= left <= UINT64_MAX ->
  let missing := count (fun v => negb (contains nodes v)) vs in
  closestValidators nodes None vs left res =
    if left <=? missing then None
    else Some (left - missing, res ++ List.filter (contains nodes) vs).
Proof using.
  revert left res. induction vs as [|v vs IH]; intros left res Hl; cbn [closestValidators not_excluded].
  { cbn zeta. rewrite count_nil, (proj2 (Z.leb_gt _ _)) by lia. cbn. by rewrite app_nil_r, Z.sub_0_r. }
  cbn zeta in *. rewrite count_cons. cbn [List.filter].
  pose proof (count_range (fun v => negb (contains nodes v)) vs) as Hc.
  destruct (contains nodes v) eqn:E; cbn [negb].
  - rewrite IH by done. rewrite <- app_assoc. by rewrite Z.add_0_l.
  - rewrite u64_id by (unfold_ints; lia). destruct (Z.eqb_spec (left - 1) 0) as [E0|E0].
    + by rewrite (proj2 (Z.leb_le _ _)) by lia.
    + rewrite IH by lia.
      destruct (Z.leb_spec (left - 1) (count (fun v => negb (contains nodes v)) vs)),
        (Z.leb_spec left (1 + count (fun v => negb (contains nodes v)) vs)); try lia; [done|].
      do 2 f_equal. lia.
Qed.

Lemma emplace_perm v l : Permutation (emplace v l) (v :: l).
Proof using.
  induction l as [|w l IH]; cbn [emplace]; [done|]. destruct (length v <? length w)%nat; [done|]. rewrite IH. constructor.
Qed.

(** [nonempty] are the results of the inner sets that are not blocked yet. *)
Definition nonempty (f : SCPQuorumSet -> list NodeID) (qs : list SCPQuorumSet) : list (list NodeID) :=
  List.filter (fun r => negb (is_nil r)) (map f qs).

Lemma closestInner_spec f qs left acc :
  1 <= left <= UINT64_MAX ->
  let blocked := count is_nil (map f qs) in
  if left <=? blocked then closestInner f qs left acc = None
  else exists sorted, closestInner f qs left acc = Some (left - blocked, sorted) /\
         Permutation sorted (nonempty f qs ++ acc).
Proof using.
  revert left acc. induction qs as [|q qs IH]; intros left acc Hl; cbn [closestInner map].
  { cbn zeta. rewrite count_nil, (proj2 (Z.leb_gt _ _)) by lia. exists acc. by rewrite Z.sub_0_r. }
  cbn zeta in *. rewrite count_cons. unfold nonempty. cbn [map List.filter].
  fold (nonempty f qs). pose proof (count_range is_nil (map f qs)) as Hc.
  destruct (f q) as [|n r] eqn:E; cbn [is_nil length Nat.eqb negb].
  - rewrite u64_id by (unfold_ints; lia). destruct (Z.eqb_spec (left - 1) 0) as [E0|E0].
    + by rewrite (proj2 (Z.leb_le _ _)) by lia.
    + specialize (IH (left - 1) acc ltac:(lia)).
      destruct (Z.leb_spec (left - 1) (count is_nil (map f qs))),
        (Z.leb_spec left (1 + count is_nil (map f qs))); try lia; [done|].
      destruct IH as (sorted & Es & Hp). exists sorted. rewrite Es. split; [do 2 f_equal; lia|done].
  - specialize (IH left (emplace (n :: r) acc) Hl). rewrite Z.add_0_l.
    destruct (Z.leb_spec left (count is_nil (map f qs))); [done|].
    destruct IH as (sorted & Es & Hp). exists sorted. split; [done|].
    rewrite Hp, emplace_perm. cbn. symmetry. apply Permutation_middle.
Qed.

Lemma addSmallest_spec left l res :
  0 <= left <= UINT64_MAX ->
  addSmallest left l res = res ++ concat (take (Z.to_nat left) l).
Proof using.
  revert left res. induction l as [|v l IH]; intros left res Hl; cbn [addSmallest].
  { by rewrite take_nil, app_nil_r. }
  destruct (Z.eqb_spec left 0) as [->|Hn]; [by rewrite app_nil_r|].
  rewrite u64_id by (unfold_ints; lia). rewrite IH by lia.
  replace (Z.to_nat left) with (S (Z.to_nat (left - 1))) by lia. cbn. by rewrite <- app_assoc.
Qed.
End Loops.

(** ** Counting what is taken *)
Lemma count_split {A} (g P : A -> bool) l :
  count g l = count g (List.filter P l) + count g (List.filter (fun x => negb (P x)) l).
Proof.
  induction l as [|x l IH]; [done|]. cbn [List.filter]. rewrite count_cons, IH.
  destruct (P x); cbn [negb]; rewrite count_cons; lia.
Qed.
Lemma count_all {A} (g : A -> bool) l :
  (forall x, In x l -> g x = true) -> count g l = Z.of_nat (length l).
Proof. intros H. unfold count. rewrite forallb_filter_id; [done|]. by apply forallb_forall. Qed.
Lemma count_take {A} (g : A -> bool) k l :
  (forall x, In x (take k l) -> g x = true) -> Z.of_nat (length (take k l)) <= count g l.
Proof.
  intros H. rewrite <- (take_drop k l) at 2. rewrite count_app, (count_all g (take k l)) by done.
  pose proof (count_range g (drop k l)). lia.
Qed.
Lemma In_take {A} k (l : list A) x : In x (take k l) -> In x l.
Proof. rewrite <- (take_drop k l) at 2. rewrite in_app_iff. auto. Qed.

(** ** The result *)
Section Result.
Context (nodes : list NodeID).
Notation closest := (findClosestVBlocking nodes None).

Definition closes (q : SCPQuorumSet) : Prop :=
  incl (closest q) nodes /\
  isVBlocking q (others q nodes ++ closest q) = true /\
  (isVBlocking q (others q nodes) = true -> closest q = []).

Lemma others_inner t vs qs q :
  In q qs -> incl (others q nodes) (others (mkQSet t vs qs) nodes).
Proof using.
  intros Hq n. unfold others. rewrite !filter_In. intros [Hn Hc]. split; [|done].
  apply in_all_nodes. eauto.
Qed.
Lemma blocked_others q O :
  sane q -> (forall n, In n (forAllNodesInternal q) -> contains O n = negb (contains nodes n)) ->
  isVBlocking q O = negb (isQuorumSlice q nodes).
Proof using.
  intros Hs HO. apply blocking_dual; [done|]. intros n Hn. rewrite HO by done. by rewrite negb_involutive.
Qed.
Lemma closes_nil q : sane q -> closes q -> is_nil (closest q) = negb (isQuorumSlice q nodes).
Proof using.
  intros Hs (_ & Hb & Hnil). rewrite (blocked_others q (others q nodes)) in Hnil by auto using others_spec.
  destruct (isQuorumSlice q nodes) eqn:E; cbn [negb].
  - unfold is_nil. destruct (closest q) as [|n r] eqn:Er; [|done]. rewrite app_nil_r in Hb.
    rewrite (blocked_others q (others q nodes)), E in Hb by auto using others_spec. done.
  - by rewrite Hnil.
Qed.

Section Step.
Context (t : Z) (vs : list NodeID) (qs : list SCPQuorumSet).
Context (Hs : sane (mkQSet t vs qs)) (Hqs : forall q, In q qs -> sane q) (IH : forall q, In q qs -> closes q).
Let O := others (mkQSet t vs qs) nodes.

Lemma in_O n : In n vs -> contains O n = negb (contains nodes n).
Proof using. intros Hn. apply others_spec, in_all_nodes. auto. Qed.
Lemma count_O_validators : count (contains O) vs = count (fun v => negb (contains nodes v)) vs.
Proof using. apply count_ext. intros n. apply in_O. Qed.
Lemma count_O_inner : count (fun q => isVBlocking q O) qs = count is_nil (map closest qs).
Proof using Hqs IH.
  rewrite count_map. apply count_ext. intros q Hq. rewrite closes_nil by auto.
  apply blocked_others; [auto|]. intros n Hn. apply others_spec, in_all_nodes. eauto.
Qed.
Lemma blocked_by_O :
  isVBlocking (mkQSet t vs qs) O =
    (1 + Z.of_nat (length vs) + Z.of_nat (length qs) - t
     <=? count (fun v => negb (contains nodes v)) vs + count is_nil (map closest qs)).
Proof using All. by rewrite isVBlocking_count, count_O_validators, count_O_inner. Qed.

(** What is taken of the validators and of the inner sets' results counts. *)
Lemma count_validators k U :
  incl O U -> incl (take k (List.filter (contains nodes) vs)) U ->
  count (fun v => negb (contains nodes v)) vs
  + Z.of_nat (length (take k (List.filter (contains nodes) vs))) <= count (contains U) vs.
Proof using.
  intros HO HT. rewrite (count_split (contains U) (contains nodes)).
  assert (Z.of_nat (length (take k (List.filter (contains nodes) vs)))
          <= count (contains U) (List.filter (contains nodes) vs)).
  { apply count_take. intros n Hn. apply contains_In. by apply HT. }
  rewrite (count_all (contains U) (List.filter (fun x => negb (contains nodes x)) vs)).
  - unfold count at 1. lia.
  - intros n [Hn Hc]%filter_In. apply contains_In, HO, contains_In. by rewrite in_O.
Qed.
Lemma count_inner k sorted U :
  Permutation sorted (nonempty closest qs) -> incl O U -> incl (concat (take k sorted)) U ->
  count is_nil (map closest qs) + Z.of_nat (length (take k sorted))
  <= count (fun q => isVBlocking q U) qs.
Proof using Hqs IH.
  intros Hp HO HT. set (h r := is_nil r || forallb (contains U) r).
  transitivity (count h (map closest qs)).
  - rewrite (count_split h is_nil). rewrite (count_all h (List.filter is_nil _)).
    + change (List.filter (fun x => negb (is_nil x)) (map closest qs)) with (nonempty closest qs).
      rewrite <- (count_perm h _ _ Hp).
      assert (Z.of_nat (length (take k sorted)) <= count h sorted); [|unfold count at 1; lia].
      apply count_take. intros r Hr. unfold h. apply orb_true_iff. right. apply forallb_forall.
      intros n Hn. apply contains_In, HT, in_concat. eauto.
    + intros r [_ Hr]%filter_In. unfold h. by rewrite Hr.
  - rewrite count_map. apply count_mono. intros q Hq Hh. destruct (IH q Hq) as (_ & Hb & _).
    eapply isVBlocking_mono; [by apply Hqs| |exact Hb]. apply incl_app.
    + intros n Hn. apply HO. by apply (others_inner t vs qs q).
    + unfold h in Hh. apply orb_true_iff in Hh as [Hh|Hh].
      * destruct (closest q); [apply incl_nil_l|done].
      * rewrite forallb_forall in Hh. intros n Hn. by apply contains_In, Hh.
Qed.

Lemma closes_step : closes (mkQSet t vs qs).
Proof using All.
  destruct (sane_range _ _ _ Hs) as [Ht Hl]. unfold closes. fold O. rewrite blocked_by_O.
  set (left := 1 + Z.of_nat (length vs) + Z.of_nat (length qs) - t).
  set (missing := count (fun v => negb (contains nodes v)) vs).
  set (b := count is_nil (map closest qs)).
  assert (Hleft : 1 <= left <= UINT64_MAX) by (unfold left; unfold_ints; lia).
  pose proof (count_range is_nil (map closest qs)) as Hb. fold b in Hb. rewrite length_map in Hb.
  pose proof (count_range (fun v => negb (contains nodes v)) vs) as Hmiss. fold missing in Hmiss.
  cbn [findClosestVBlocking threshold validators innerSets].
  rewrite u64_id by (unfold left in Hleft; unfold_ints; lia). fold left.
  rewrite closestValidators_spec by done. fold missing. cbn zeta.
  assert (Hnone : left <= missing + b ->
    incl [] nodes /\ isVBlocking (mkQSet t vs qs) (O ++ []) = true /\
    ((left <=? missing + b) = true -> @nil NodeID = [])).
  { intros H. split; [apply incl_nil_l|]. split; [|done]. rewrite app_nil_r, blocked_by_O.
    by apply Z.leb_le. }
  destruct (Z.leb_spec left missing) as [H1|H1]; [apply Hnone; lia|].
  pose proof (closestInner_spec closest qs (left - missing) [] ltac:(lia)) as Hin.
  cbn zeta in Hin. fold b in Hin.
  destruct (Z.leb_spec (left - missing) b) as [H2|H2].
  { rewrite Hin. apply Hnone. lia. }
  destruct Hin as (sorted & -> & Hp). rewrite app_nil_r in Hp. clear Hnone. cbn [app].
  set (res0 := List.filter (contains nodes) vs).
  set (k := Z.to_nat (left - missing - b)).
  assert (Eres : (if left - missing - b <? Z.of_nat (length res0)
                  then take k res0 else res0) = take k res0).
  { destruct (Z.ltb_spec (left - missing - b) (Z.of_nat (length res0))); [done|].
    symmetry. apply take_ge. unfold k. lia. }
  rewrite Eres. rewrite addSmallest_spec by (rewrite length_take; unfold k; unfold_ints; lia).
  set (k2 := Z.to_nat (left - missing - b - Z.of_nat (length (take k res0)))).
  set (r := take k res0 ++ concat (take k2 sorted)).
  split; [|split].
  - apply incl_app.
    + intros n Hn%In_take. apply filter_In in Hn as [_ Hn]. by apply contains_In.
    + intros n (l & Hl' & Hn)%in_concat. apply In_take in Hl'.
      apply (Permutation_in _ Hp) in Hl'. apply filter_In in Hl' as [Hl' _].
      apply in_map_iff in Hl' as (q & <- & Hq). by apply (IH q Hq).
  - rewrite isVBlocking_count by done. apply Z.leb_le. fold left.
    pose proof (count_validators k (O ++ r)) as Hv. fold missing res0 in Hv.
    pose proof (count_inner k2 sorted (O ++ r) Hp) as Hi. fold b in Hi.
    specialize (Hv ltac:(apply incl_appl, incl_refl) ltac:(apply incl_appr, incl_appl, incl_refl)).
    specialize (Hi ltac:(apply incl_appl, incl_refl) ltac:(apply incl_appr, incl_appr, incl_refl)).
    assert (Hlen0 : Z.of_nat (length res0) = Z.of_nat (length vs) - missing).
    { unfold missing. rewrite count_negb. unfold res0, count. lia. }
    assert (Hlens : Z.of_nat (length sorted) = Z.of_nat (length qs) - b).
    { apply Permutation_length in Hp. rewrite Hp. unfold b, nonempty.
      rewrite <- (length_map closest qs). rewrite <- count_negb. done. }
    rewrite length_take in *. unfold k, k2 in *. rewrite length_take in *. lia.
  - rewrite (proj2 (Z.leb_gt _ _)) by lia. done.
Qed.
End Step.

Lemma closest_closes q : sane q -> closes q.
Proof using.
  induction q as [t vs qs IH] using qset_induction. intros Hs.
  inversion Hs as [? ? ? _ _ Hq]; subst. rewrite Forall_forall in IH, Hq.
  apply closes_step; [done|..]; intros q Hin; apply list_elem_of_In in Hin; auto.
Qed.

(** [findClosestVBlocking] keeps its promise on quorum sets in range: it
    returns nodes of the given set only; these, with the nodes of the quorum
    set outside the given set, block the quorum set; and it returns none
    exactly if the others block it already - that is, if the given set
    contains no slice. *)
Theorem findClosestVBlocking_correct q :
  sane q ->
  incl (closest q) nodes /\
  isVBlocking q (others q nodes ++ closest q) = true /\
  (closest q = [] <-> isQuorumSlice q nodes = false).
Proof using.
  intros Hs. pose proof (closest_closes q Hs) as Hc. destruct (Hc) as (H1 & H2 & _).
  do 2 (split; [done|]). pose proof (closes_nil q Hs Hc) as Hn. unfold is_nil in Hn.
  destruct (closest q), (isQuorumSlice q nodes); cbn in *; split; congruence.
Qed.
End Result.

Lemma findClosestVBlocking_correct_witness :
  findClosestVBlocking [1; 2; 3; 4] None sample_qset = [1; 2] /\
  isVBlocking sample_qset (others sample_qset [1; 2; 3; 4] ++ [1; 2]) = true.
Proof.
  split; [reflexivity|].
  exact (proj1 (proj2 (findClosestVBlocking_correct [1; 2; 3; 4] sample_qset sample_sane))).
Defined.
