(* ===== verification/QuorumSearch.v ===== *)
(** The transitive search for a node, the sanity check and the weight of a node. *)

From S2P Require Import Prelude Numeric Sorting Quorums QuorumFacts.

Lemma firstOccurrences_In done nodes n :
  In n (firstOccurrences done nodes) <-> In n nodes /\ ~ In n done.
Proof.
  revert done. induction nodes as [|m nodes IH]; intros done; cbn [firstOccurrences]; [cbn; tauto|].
  destruct (contains done m) eqn:E.
  - rewrite IH. apply contains_In in E. cbn. split; [tauto|]. intros [[->|?] ?]; tauto.
  - apply contains_false in E. cbn. rewrite IH. cbn.
    split; [intros [->|?]; tauto|]. intros [[->|H] ?]; [auto|].
    destruct (decide (m = n)); tauto.
Qed.
Lemma firstOccurrences_NoDup done nodes : NoDup (firstOccurrences done nodes).
Proof.
  revert done. induction nodes as [|m nodes IH]; intros done; cbn [firstOccurrences]; [constructor|].
  destruct (contains done m); [apply IH|]. constructor; [|apply IH].
  rewrite list_elem_of_In, firstOccurrences_In. cbn. tauto.
Qed.
Lemma forAllNodes_In q n : In n (forAllNodes q) <-> In n (forAllNodesInternal q).
Proof. unfold forAllNodes. rewrite firstOccurrences_In. cbn. tauto. Qed.

(** ** [isNodeInQuorum] *)
Section NodeInQuorum.
Context {SCPStatement : Type} (qfun : SCPStatement -> option SCPQuorumSet)
  (map : gmap NodeID (list SCPStatement)).

(** [c] is in a quorum set that [b] has announced. *)
Definition announces (b c : NodeID) : Prop :=
  exists sts st q, map !! b = Some sts /\ In st sts /\ qfun st = Some q /\
    In c (forAllNodesInternal q).
Inductive reaches (a : NodeID) : NodeID -> Prop :=
  | reaches_refl : reaches a a
  | reaches_step b c : reaches a b -> announces b c -> reaches a c.
(** There are statements of [b], and all their quorum sets are known. *)
Definition known (b : NodeID) : Prop :=
  exists sts, map !! b = Some sts /\ forall st, In st sts -> qfun st <> None.

Lemma announces_mentioned b c : announces b c -> c ∈ mentioned qfun map.
Proof using.
  intros (sts & st & q & Hb & Hst & Hq & Hc). unfold mentioned. apply elem_of_list_to_set.
  apply list_elem_of_In, in_concat. exists (forAllNodes q).
  split; [|by apply forAllNodes_In]. apply in_map_iff. exists st. split; [by rewrite Hq|].
  apply in_concat. exists sts. split; [|done]. apply list_elem_of_In, list_elem_of_fmap.
  exists (b, sts). split; [done|]. by apply elem_of_map_to_list.
Qed.

(** What exploring a node does. *)
Definition explored_by (sts : list SCPStatement) (s s' : Search) : Prop :=
  visited s' = visited s /\
  (forall n, n ∈ backlog s' <-> n ∈ backlog s \/
     n ∉ visited s /\ exists st q, In st sts /\ qfun st = Some q /\ In n (forAllNodesInternal q)) /\
  (res s' = res s /\ (forall st, In st sts -> qfun st <> None) \/
   res s' = TB_MAYBE /\ exists st, In st sts /\ qfun st = None).
Lemma explored_one s st : explored_by [st] s (exploreStatement qfun s st).
Proof using.
  unfold exploreStatement. destruct (qfun st) as [q|] eqn:E; (split; [done|]); cbn [backlog res visited].
  - split; [|left; split; [done|intros st' [<-|[]]; congruence]]. intros n.
    rewrite elem_of_union, elem_of_difference, elem_of_list_to_set, list_elem_of_In, forAllNodes_In.
    split.
    + intros [?|[? ?]]; [auto|right]. split; [done|]. exists st, q. cbn. auto.
    + intros [?|(Hn & st' & q' & [<-|[]] & Hq & ?)]; [auto|]. rewrite E in Hq. injection Hq as <-. auto.
  - split; [|right; split; [done|exists st; cbn; auto]]. intros n. split; [auto|].
    intros [?|(Hn & st' & q' & [<-|[]] & Hq & ?)]; [done|congruence].
Qed.
Lemma explored_trans l1 l2 s s1 s2 :
  explored_by l1 s s1 -> explored_by l2 s1 s2 -> explored_by (l1 ++ l2) s s2.
Proof using.
  intros (Hv1 & Hb1 & Hr1) (Hv2 & Hb2 & Hr2). split; [congruence|]. split.
  - intros n. rewrite Hb2, Hb1, Hv1. split.
    + intros [[?|(Hn & st & q & ? & ?)]|(Hn & st & q & ? & ?)]; [auto|right..];
        (split; [done|]); exists st, q; rewrite in_app_iff; auto.
    + intros [?|(Hn & st & q & [?|?]%in_app_iff & ?)]; [auto|left; right|right]; eauto 6.
  - destruct Hr2 as [[E2 K2]|[E2 (st & Hst & K2)]].
    + destruct Hr1 as [[E1 K1]|[E1 (st & Hst & K1)]].
      * left. split; [congruence|]. intros st [?|?]%in_app_iff; auto.
      * right. split; [congruence|]. exists st. rewrite in_app_iff. auto.
    + right. split; [done|]. exists st. rewrite in_app_iff. auto.
Qed.
Lemma exploreStatements sts s : explored_by sts s (fold_left (exploreStatement qfun) sts s).
Proof using.
  revert s. induction sts as [|st sts IH]; intros s; cbn [fold_left].
  { split; [done|]. split; [|left; split; [done|by intros ? []]]. intros n. split; [auto|].
    by intros [?|(_ & ? & ? & [] & _)]. }
  apply (explored_trans [st] sts s _ _ (explored_one s st)), IH.
Qed.

(** ** The invariant of the search *)
Record searched (self node : NodeID) (s : Search) : Prop := {
  inv_disjoint n : n ∈ backlog s -> n ∉ visited s;
  inv_self : self ∈ backlog s ∪ visited s;
  inv_reached n : n ∈ backlog s ∪ visited s -> reaches self n;
  inv_closed b c : b ∈ visited s -> announces b c -> c ∈ backlog s ∪ visited s;
  inv_node : node ∉ visited s;
  inv_res : res s = TB_FALSE /\ (forall b, b ∈ visited s -> known b) \/
            res s = TB_MAYBE /\ exists b, b ∈ visited s /\ ~ known b }.

Lemma searched_init self node : searched self node (mkSearch {[self]} ∅ TB_FALSE).
Proof using.
  split; cbn [backlog visited res]; try set_solver.
  - intros n [ ->%elem_of_singleton|?]%elem_of_union; [constructor|set_solver].
Qed.

Lemma explore_visited c s :
  visited (explore qfun map c s) = visited s ∪ {[c]}.
Proof using.
  unfold explore. destruct (map !! c) as [sts|]; [|done].
  by destruct (exploreStatements sts (mkSearch (backlog s ∖ {[c]}) (visited s ∪ {[c]}) (res s)))
    as (-> & _ & _).
Qed.
Lemma explore_backlog c s n :
  n ∈ backlog (explore qfun map c s) <->
  n ∈ backlog s ∖ {[c]} \/ n ∉ visited s ∪ {[c]} /\ announces c n.
Proof using.
  unfold explore, announces. destruct (map !! c) as [sts|] eqn:E.
  - destruct (exploreStatements sts (mkSearch (backlog s ∖ {[c]}) (visited s ∪ {[c]}) (res s)))
      as (_ & -> & _). cbn [backlog visited]. split.
    + intros [?|(? & st & q & ? & ?)]; [auto|right]. split; [done|]. exists sts, st, q. tauto.
    + intros [?|(? & sts' & st & q & [= <-] & ?)]; [auto|right]. split; [done|]. eauto.
  - cbn. split; [auto|]. intros [?|(? & sts' & st & q & ? & ?)]; [auto|congruence].
Qed.
Lemma explore_res c s :
  res (explore qfun map c s) = res s /\ known c \/
  res (explore qfun map c s) = TB_MAYBE /\ ~ known c.
Proof using.
  unfold explore, known. destruct (map !! c) as [sts|] eqn:E.
  - destruct (exploreStatements sts (mkSearch (backlog s ∖ {[c]}) (visited s ∪ {[c]}) (res s)))
      as (_ & _ & [[-> H]|[-> (st & Hst & H)]]); cbn [res].
    + left. split; [done|]. by exists sts.
    + right. split; [done|]. intros (sts' & [= <-] & Hk). by apply (Hk st).
  - right. split; [done|]. intros (sts' & [=] & _).
Qed.

Lemma searched_explore self node c s :
  searched self node s -> c ∈ backlog s -> c <> node -> searched self node (explore qfun map c s).
Proof using.
  intros [Hd Hself Hreach Hclosed Hnode Hres] Hc Hne.
  assert (Hin : forall n, n ∈ backlog (explore qfun map c s) ∪ visited (explore qfun map c s) <->
    n ∈ backlog s ∪ visited s \/ announces c n).
  { intros n. rewrite elem_of_union, explore_backlog, explore_visited.
    destruct (decide (n ∈ visited s ∪ {[c]})); set_solver. }
  split.
  - intros n. rewrite explore_backlog, explore_visited. set_solver.
  - apply Hin. auto.
  - intros n [Hn|Hn]%Hin; [auto|]. eapply reaches_step; [|exact Hn]. apply Hreach. set_solver.
  - intros b d Hb Ha. apply Hin. rewrite explore_visited in Hb.
    apply elem_of_union in Hb as [Hb| ->%elem_of_singleton]; [left; by eapply Hclosed|auto].
  - rewrite explore_visited. set_solver.
  - rewrite explore_visited. destruct (explore_res c s) as [[-> Hk]|[-> Hk]].
    + destruct Hres as [[-> Hr]|[-> (b & Hb & Hnk)]]; [left|right]; (split; [done|]).
      * intros b [?| ->%elem_of_singleton]%elem_of_union; auto.
      * exists b. set_solver.
    + right. split; [done|]. exists c. set_solver.
Qed.

Lemma searched_universe self node s :
  searched self node s -> backlog s ∪ visited s ⊆ {[self]} ∪ mentioned qfun map.
Proof using.
  intros Hs n Hn. apply (inv_reached _ _ _ Hs) in Hn. destruct Hn as [|b c _ Ha]; [set_solver|].
  apply announces_mentioned in Ha. set_solver.
Qed.

Context (pick : gset NodeID -> NodeID) (Hpick : forall s, s <> ∅ -> pick s ∈ s).

Lemma searchQuorum_correct self node fuel s :
  searched self node s ->
  (size ({[self]} ∪ mentioned qfun map) < fuel + size (visited s))%nat ->
  exists r, searchQuorum qfun map pick fuel node s = Some r /\
    (r = TB_TRUE <-> reaches self node) /\
    (r = TB_FALSE <-> ~ reaches self node /\ forall b, reaches self b -> known b).
Proof using Hpick.
  revert s. induction fuel as [|fuel IH]; intros s Hs Hf.
  { exfalso. apply searched_universe in Hs.
    assert (visited s ⊆ {[self]} ∪ mentioned qfun map) as H%subseteq_size by set_solver. lia. }
  cbn [searchQuorum]. destruct (decide (backlog s = ∅)) as [E|E].
  - exists (res s). split; [done|].
    assert (Hall : forall b, reaches self b -> b ∈ visited s).
    { induction 1 as [|b c _ IHb Ha].
      - pose proof (inv_self _ _ _ Hs). set_solver.
      - pose proof (inv_closed _ _ _ Hs b c IHb Ha). set_solver. }
    assert (Hno : ~ reaches self node) by (intros H%Hall; by apply (inv_node _ _ _ Hs)).
    destruct (inv_res _ _ _ Hs) as [[-> Hk]|[-> (b & Hb & Hk)]].
    + split; [split; [done|tauto]|]. split; [|done]. intros _. split; [done|auto].
    + split; [split; [done|tauto]|]. split; [done|]. intros [_ H]. exfalso. apply Hk, H.
      apply (inv_reached _ _ _ Hs). set_solver.
  - pose proof (Hpick _ E) as Hc. destruct (Z.eqb_spec (pick (backlog s)) node) as [En|En].
    + exists TB_TRUE. split; [done|].
      assert (reaches self node) by (rewrite <- En; apply (inv_reached _ _ _ Hs); set_solver).
      split; [tauto|]. split; [done|tauto].
    + apply IH; [by apply searched_explore|]. rewrite explore_visited.
      rewrite (size_union (visited s)), (size_singleton (pick _)); [lia|].
      pose proof (inv_disjoint _ _ _ Hs _ Hc). set_solver.
Qed.

(** C35. [isNodeInQuorum] terminates and answers right, in whatever order the
    unordered sets are iterated: [TB_TRUE] exactly if the node is reached from
    the local node through the announced quorum sets; [TB_FALSE] exactly if it
    is not, and the quorum sets of every node that is reached are known;
    [TB_MAYBE] otherwise. *)
Theorem isNodeInQuorum_correct self node :
  exists r, isNodeInQuorum qfun map pick self node = Some r /\
    (r = TB_TRUE <-> reaches self node) /\
    (r = TB_FALSE <-> ~ reaches self node /\ forall b, reaches self b -> known b).
Proof using Hpick.
  unfold isNodeInQuorum. apply searchQuorum_correct; [apply searched_init|].
  cbn [visited]. lia.
Qed.
End NodeInQuorum.

(** ** Weights *)
Lemma bigDivide_stored_range A n d :
  0 < A <= UINT64_MAX -> 1 <= n <= d -> d < INT32_MAX -> 1 <= bigDivide_stored A n d <= A.
Proof.
  intros HA Hn Hd. unfold bigDivide_stored.
  assert (HAn : 1 <= A * n <= UINT64_MAX * INT32_MAX)
    by (unfold UINT64_MAX, INT32_MAX in *; nia).
  pose proof (ceil_spec (A * n) d ltac:(lia)) as Hc.
  rewrite (u128_id (A * n)), (u128_id (A * n + d - 1))
    by (unfold in_u128, UINT128_MAX, UINT64_MAX, INT32_MAX in *; lia).
  assert (1 <= (A * n + d - 1) / d <= A) by nia.
  rewrite u64_id; [done|]. unfold in_u64. lia.
Qed.
Lemma first_nonzero_spec {A} (f : A -> Z) l :
  (first_nonzero f l = 0 /\ forall x, In x l -> f x = 0) \/
  (exists x, In x l /\ first_nonzero f l = f x /\ f x <> 0).
Proof.
  induction l as [|x l IH]; cbn [first_nonzero]; [left; split; [done|by intros ? []]|].
  destruct (Z.eqb_spec (f x) 0) as [E|E]; cbn [negb].
  - destruct IH as [[H0 H]|(y & Hy & H & Hn)].
    + left. split; [done|]. intros y [<-|?]; auto.
    + right. exists y. cbn. auto.
  - right. exists x. cbn. auto.
Qed.

(** In a quorum set in range the weight of a node is a 64-bit number,
    computed without overflow, and it is positive exactly for the nodes that
    occur in the quorum set. *)
Theorem getNodeWeight_bounds n q :
  sane q ->
  0 <= getNodeWeight n q <= UINT64_MAX /\
  (0 < getNodeWeight n q <-> In n (forAllNodesInternal q)).
Proof.
  induction q as [t vs qs IH] using qset_induction. intros Hs.
  destruct (sane_range _ _ _ Hs) as [Ht Hl]. inversion Hs as [? ? ? _ _ Hq]; subst.
  rewrite in_all_nodes. cbn [getNodeWeight validators innerSets threshold].
  rewrite Forall_forall in IH, Hq.
  assert (Hstored : forall A, 0 < A <= UINT64_MAX ->
    1 <= bigDivide_stored A t (Z.of_nat (length qs + length vs)) <= A).
  { intros A HA. apply bigDivide_stored_range; lia. }
  destruct (contains vs n) eqn:E.
  - apply contains_In in E. specialize (Hstored UINT64_MAX ltac:(unfold_ints; lia)).
    split; [lia|]. split; [auto|lia].
  - apply contains_false in E.
    destruct (first_nonzero_spec (getNodeWeight n) qs) as [[-> H0]|(q & Hin & -> & Hn)]; cbn [Z.eqb negb].
    + split; [unfold_ints; lia|]. split; [lia|]. intros [?|(q & Hin & Hq')]; [done|].
      apply list_elem_of_In in Hin as Hin'. apply (IH q) in Hq'; [|by auto..]. rewrite H0 in Hq' by done. lia.
    + rewrite (proj2 (Z.eqb_neq _ 0)) by done. cbn [negb].
      apply list_elem_of_In in Hin as Hin'. destruct (IH q Hin' (Hq q Hin')) as [Hr Hiff].
      specialize (Hstored (getNodeWeight n q) ltac:(lia)). split; [lia|]. split; [|lia].
      intros _. right. exists q. split; [done|]. apply Hiff. lia.
Qed.

(** ** Sanity *)
Inductive wellShaped (extra : bool) : Z -> SCPQuorumSet -> Prop :=
  | wellShaped_intro depth t vs qs :
      let total := Z.of_nat (length vs) + Z.of_nat (length qs) in
      depth <= 2 -> 1 <= t <= total -> (extra = true -> total - t + 1 <= t) ->
      Forall (wellShaped extra (depth + 1)) qs -> wellShaped extra depth (mkQSet t vs qs).
Inductive small : SCPQuorumSet -> Prop :=
  | small_intro t vs qs :
      Z.of_nat (length vs) + Z.of_nat (length qs) < INT32_MAX -> Forall small qs ->
      small (mkQSet t vs qs).

Lemma wellShaped_sane extra depth q : small q -> wellShaped extra depth q -> sane q.
Proof.
  revert depth. induction q as [t vs qs IH] using qset_induction. intros depth.
  inversion 1; inversion 1; subst. constructor; [done..|]. rewrite Forall_forall in *. eauto.
Qed.

(** Fresh nodes: different from each other and from the known ones. *)
Definition fresh (nodes knownNodes : list NodeID) : Prop :=
  NoDup nodes /\ forall n, In n nodes -> ~ In n knownNodes.
Lemma fresh_app l1 l2 kn :
  fresh (l1 ++ l2) kn <-> fresh l1 kn /\ fresh l2 (l1 ++ kn).
Proof.
  unfold fresh. rewrite NoDup_app. setoid_rewrite in_app_iff. setoid_rewrite list_elem_of_In.
  split.
  - intros ((H1 & Hd & H2) & Hk). split; [split; auto|]. split; [done|].
    intros n Hn [Hn'|Hn']; [by apply (Hd n)|by apply (Hk n); auto].
  - intros [[H1 Hk1] [H2 Hk2]]. split; [split; [done|split; [|done]]|].
    + intros n Hn Hn'. apply (Hk2 n Hn'). auto.
    + intros n [Hn|Hn] Hk; [by apply (Hk1 n)|apply (Hk2 n); auto].
Qed.
Lemma fresh_ext l kn kn' : (forall n, In n kn <-> In n kn') -> fresh l kn <-> fresh l kn'.
Proof. unfold fresh. intros H. by setoid_rewrite H. Qed.

(** What a step that reads the nodes [ns] does to the state. *)
Definition checked (ok : Prop) (ns : list NodeID) (st : Known) (r : option Known) : Prop :=
  match r with
  | Some st' =>
      ok /\ fresh ns st.1 /\ (forall n, In n st'.1 <-> In n (ns ++ st.1)) /\
      st'.2 = u64 (st.2 + Z.of_nat (length ns)) /\ in_u64 st'.2
  | None => ~ (ok /\ fresh ns st.1)
  end.

Lemma insertNodes_spec vs kn :
  match insertNodes vs kn with
  | Some kn' => fresh vs kn /\ forall n, In n kn' <-> In n (vs ++ kn)
  | None => ~ fresh vs kn
  end.
Proof.
  revert kn. induction vs as [|v vs IH]; intros kn; cbn [insertNodes].
  { split; [split; [constructor|by intros ? []]|done]. }
  assert (Hone : fresh [v] kn <-> ~ In v kn).
  { unfold fresh. split; [intros [_ H]; apply H; by left|]. intros H.
    split; [apply NoDup_singleton|]. by intros n [<-|[]]. }
  change (v :: vs) with ([v] ++ vs). destruct (contains kn v) eqn:E.
  - apply contains_In in E. rewrite fresh_app, Hone. tauto.
  - apply contains_false in E. specialize (IH (v :: kn)).
    destruct (insertNodes vs (v :: kn)) as [kn'|].
    + destruct IH as [Hf Hin]. rewrite fresh_app, Hone. split; [done|].
      intros n. rewrite Hin, !in_app_iff. cbn. tauto.
    + rewrite fresh_app. tauto.
Qed.

Lemma u64_add a b : u64 (u64 a + b) = u64 (a + b).
Proof. unfold u64. by rewrite Zplus_mod_idemp_l. Qed.

Lemma checked_iff ok ok' ns st r : (ok <-> ok') -> checked ok ns st r -> checked ok' ns st r.
Proof. intros E. unfold checked. destruct r; tauto. Qed.
Lemma checked_bind ok1 ok2 ns1 ns2 st r1 (f : Known -> option Known) :
  checked ok1 ns1 st r1 ->
  (forall st1, (forall n, In n st1.1 <-> In n (ns1 ++ st.1)) -> in_u64 st1.2 ->
     checked ok2 ns2 st1 (f st1)) ->
  checked (ok1 /\ ok2) (ns1 ++ ns2) st (st1 ← r1; f st1).
Proof.
  intros H1 H2. pose proof (fresh_app ns1 ns2 st.1) as Ha. unfold checked in *.
  destruct r1 as [st1|]; cbn; [|tauto].
  destruct H1 as (Hok1 & Hf1 & Hin1 & Hc1 & Hr1). specialize (H2 st1 Hin1 Hr1).
  pose proof (fresh_ext ns2 st1.1 (ns1 ++ st.1) Hin1) as Hx.
  destruct (f st1) as [st2|]; [|tauto]. destruct H2 as (Hok2 & Hf2 & Hin2 & Hc2 & Hr2).
  split; [done|]. split; [tauto|]. split; [|split; [|done]].
  - intros n. rewrite Hin2, !in_app_iff, Hin1, !in_app_iff. tauto.
  - rewrite Hc2, Hc1, u64_add, length_app. f_equal. lia.
Qed.

Lemma checkAll_spec (f : SCPQuorumSet -> Known -> option Known) (ok : SCPQuorumSet -> Prop) qs st :
  (forall q st, In q qs -> in_u64 st.2 -> checked (ok q) (forAllNodesInternal q) st (f q st)) ->
  in_u64 st.2 ->
  checked (Forall ok qs) (concat (map forAllNodesInternal qs)) st (checkAll f qs st).
Proof.
  revert st. induction qs as [|q qs IH]; intros st Hf Hst; cbn [checkAll map concat].
  { unfold checked. split; [constructor|]. split; [split; [constructor|by intros ? []]|].
    split; [done|]. cbn. rewrite Z.add_0_r, u64_id; done. }
  assert (H : checked (ok q /\ Forall ok qs)
    (forAllNodesInternal q ++ concat (map forAllNodesInternal qs)) st (st1 ← f q st; checkAll f qs st1)).
  { apply checked_bind; [apply Hf; [by left|done]|]. intros st1 _ Hr1. apply IH; [|done].
    intros q' st' Hq'. apply Hf. by right. }
  eapply checked_iff; [|exact H]. symmetry. apply Forall_cons.
Qed.

Lemma checkSanity_spec extra q depth st :
  small q -> in_u64 st.2 ->
  checked (wellShaped extra depth q) (forAllNodesInternal q) st (checkSanity extra depth q st).
Proof.
  revert depth st. induction q as [t vs qs IH] using qset_induction. intros depth st Hsm Hst.
  inversion Hsm as [? ? ? Hlen Hqs]; subst. rewrite Forall_forall in IH, Hqs.
  cbn [checkSanity forAllNodesInternal threshold validators innerSets].
  set (total := Z.of_nat (length vs) + Z.of_nat (length qs)).
  assert (Hshape : wellShaped extra depth (mkQSet t vs qs) <->
    (depth <= 2 /\ 1 <= t <= total /\ (extra = true -> total - t + 1 <= t)) /\
    Forall (wellShaped extra (depth + 1)) qs).
  { split; [by inversion 1|]. intros ((? & ? & ?) & ?). by constructor. }
  assert (Hno : ~ (depth <= 2 /\ 1 <= t <= total /\ (extra = true -> total - t + 1 <= t)) ->
    checked (wellShaped extra depth (mkQSet t vs qs))
      (vs ++ concat (map forAllNodesInternal qs)) st None).
  { intros Hn. unfold checked. rewrite Hshape. tauto. }
  destruct (Z.ltb_spec 2 depth); [apply Hno; lia|].
  destruct (Z.ltb_spec t 1); [apply Hno; lia|].
  destruct (Z.ltb_spec total t); [apply Hno; lia|].
  rewrite (u64_id (total - t + 1)) by (unfold total; unfold_ints; unfold INT32_MAX in *; lia).
  destruct (extra && (t <? total - t + 1)) eqn:Ex.
  { apply andb_true_iff in Ex as [-> Ex%Z.ltb_lt]. apply Hno. intros (_ & _ & H'). specialize (H' eq_refl). lia. }
  assert (Hok : depth <= 2 /\ 1 <= t <= total /\ (extra = true -> total - t + 1 <= t)).
  { split; [done|]. split; [lia|]. intros ->. cbn in Ex. by apply Z.ltb_ge in Ex. }
  set (cnt := u64 (st.2 + Z.of_nat (length vs))).
  assert (H' : checked (True /\ Forall (wellShaped extra (depth + 1)) qs)
    (vs ++ concat (map forAllNodesInternal qs)) st
    (st1 ← (kn ← insertNodes vs st.1; Some (kn, cnt));
     checkAll (checkSanity extra (depth + 1)) qs st1)).
  { apply checked_bind.
    - pose proof (insertNodes_spec vs st.1) as Hi. unfold checked.
      destruct (insertNodes vs st.1) as [kn|]; cbn; [|tauto]. destruct Hi as [Hf Hin].
      split; [done|]. split; [done|]. split; [done|]. split; [done|]. apply u64_range.
    - intros st1 _ Hr1. apply checkAll_spec; [|done]. intros q st' Hq Hr.
      apply list_elem_of_In in Hq. by apply IH; auto. }
  eapply (checked_iff (True /\ Forall (wellShaped extra (depth + 1)) qs));
    [rewrite Hshape; tauto|].
  by destruct (insertNodes vs st.1).
Qed.

(** C36. [isQuorumSetSane] accepts exactly the quorum sets that are at most
    three levels deep, with every threshold between one and the number of
    entries (and, with extra checks, large enough to intersect a blocking
    set), in which no node occurs twice, with one to a thousand nodes. *)
Theorem isQuorumSetSane_correct q extra :
  small q -> Z.of_nat (length (forAllNodesInternal q)) <= UINT64_MAX ->
  isQuorumSetSane q extra = true <->
  wellShaped extra 0 q /\ NoDup (forAllNodesInternal q) /\
  1 <= Z.of_nat (length (forAllNodesInternal q)) <= 1000.
Proof.
  intros Hs Hlen. pose proof (checkSanity_spec extra q 0 ([], 0) Hs) as H.
  specialize (H ltac:(unfold_ints; cbn; lia)). unfold isQuorumSetSane.
  assert (Hfresh : fresh (forAllNodesInternal q) [] <-> NoDup (forAllNodesInternal q)).
  { unfold fresh. split; [tauto|]. auto. }
  destruct (checkSanity extra 0 q ([], 0)) as [[kn cnt]|]; unfold checked in H; cbn [fst snd] in H;
    [|split; [done|]; intros (? & ? & _); by destruct H; rewrite Hfresh].
  destruct H as (Hw & Hf%Hfresh & _ & -> & _). rewrite Z.add_0_l, u64_id by (unfold in_u64; lia).
  rewrite andb_true_iff, !Z.leb_le. tauto.
Qed.

(** ** Witnesses: two of the nodes 1, 2 and two of 3, 4, 5 *)
Lemma sample_small : small sample_qset.
Proof. unfold sample_qset. repeat (constructor; try (vm_compute; reflexivity)). Qed.

Lemma getNodeWeight_bounds_witness :
  getNodeWeight 4 sample_qset = 8198552921648689607 /\
  0 <= getNodeWeight 4 sample_qset <= UINT64_MAX /\
  (0 < getNodeWeight 4 sample_qset <-> In 4 (forAllNodesInternal sample_qset)).
Proof. split; [reflexivity|]. apply (getNodeWeight_bounds 4 sample_qset), sample_sane. Defined.

Lemma isQuorumSetSane_correct_witness :
  isQuorumSetSane sample_qset true = true <->
  wellShaped true 0 sample_qset /\ NoDup (forAllNodesInternal sample_qset) /\
  1 <= Z.of_nat (length (forAllNodesInternal sample_qset)) <= 1000.
Proof. apply (isQuorumSetSane_correct sample_qset true); [exact sample_small|vm_compute; discriminate]. Defined.
Example sample_is_sane : isQuorumSetSane sample_qset true = true.
Proof. reflexivity. Qed.

Lemma isNodeInQuorum_correct_witness :
  let qfun (st : Z) := if st =? 0 then None else Some sample_qset in
  let map : gmap Z (list Z) := {[1 := [7]]} in
  let pick (s : gset Z) := default 0 (head (elements s)) in
  isNodeInQuorum qfun map pick 1 6 = Some TB_MAYBE /\
  exists r, isNodeInQuorum qfun map pick 1 5 = Some r /\
    (r = TB_TRUE <-> reaches qfun map 1 5) /\
    (r = TB_FALSE <-> ~ reaches qfun map 1 5 /\ forall b, reaches qfun map 1 b -> known qfun map b).
Proof.
  intros qfun map pick. split; [vm_compute; reflexivity|].
  apply (isNodeInQuorum_correct qfun map pick). intros s Hs. unfold pick.
  destruct (elements s) as [|x l] eqn:E; [by apply elements_empty_inv, leibniz_equiv in E|].
  cbn. apply elem_of_elements. rewrite E. by left.
Defined.
