(* ===== verification/Ballots.v ===== *)
(** Ballots and statements: the types of [src/src/xdr/Stellar-SCP.x] and the
    functions of [src/src/scp/BallotProtocol.cpp] that look at them only.

    [operator<] on values is the lexicographic order of their bytes, and on
    ballots that of counter and value.  The ballot protocol is given no
    [NOMINATE] statement ([Slot::processEnvelope] sees to it): the [default]
    arms, which abort, return the variable they would have returned. *)

From S2P Require Import Prelude Types Quorums Sorting.

Abbreviation Value := (list Z) (only parsing).

(** [std::lexicographical_compare] *)
Fixpoint valueLt (v1 v2 : Value) : bool :=
  match v1, v2 with
  | _, [] => false
  | [], _ :: _ => true
  | x :: v1, y :: v2 => if x <? y then true else if y <? x then false else valueLt v1 v2
  end.

Record SCPBallot := mkBallot { counter : Z; value : Value }.

Record SCPPrepare := mkPrepare {
  prep_quorumSetHash : Hash;
  prep_ballot : SCPBallot;
  prep_prepared : option SCPBallot;
  prep_preparedPrime : option SCPBallot;
  prep_nC : Z;
  prep_nH : Z }.
Record SCPConfirm := mkConfirm {
  con_ballot : SCPBallot;
  con_nPrepared : Z;
  con_nCommit : Z;
  con_nH : Z;
  con_quorumSetHash : Hash }.
Record SCPExternalize := mkExternalize {
  ext_commit : SCPBallot;
  ext_nH : Z;
  ext_commitQuorumSetHash : Hash }.
Record SCPNomination := mkNomination {
  nom_quorumSetHash : Hash;
  nom_votes : list Value;
  nom_accepted : list Value }.

Inductive Pledges :=
  | PREPARE (p : SCPPrepare)
  | CONFIRM (c : SCPConfirm)
  | EXTERNALIZE (e : SCPExternalize)
  | NOMINATE (n : SCPNomination).

Record SCPStatement := mkStatement {
  nodeID : NodeID;
  slotIndex : Z;
  pledges : Pledges }.
Record SCPEnvelope := mkEnvelope { statement : SCPStatement; signature : Z }.

#[export] Instance SCPBallot_eq_dec : EqDecision SCPBallot.
Proof. solve_decision. Defined.
#[export] Instance SCPPrepare_eq_dec : EqDecision SCPPrepare.
Proof. solve_decision. Defined.
#[export] Instance SCPConfirm_eq_dec : EqDecision SCPConfirm.
Proof. solve_decision. Defined.
#[export] Instance SCPExternalize_eq_dec : EqDecision SCPExternalize.
Proof. solve_decision. Defined.
#[export] Instance SCPNomination_eq_dec : EqDecision SCPNomination.
Proof. solve_decision. Defined.
#[export] Instance Pledges_eq_dec : EqDecision Pledges.
Proof. solve_decision. Defined.
#[export] Instance SCPStatement_eq_dec : EqDecision SCPStatement.
Proof. solve_decision. Defined.
#[export] Instance SCPEnvelope_eq_dec : EqDecision SCPEnvelope.
Proof. solve_decision. Defined.

(** [pledges.type()] *)
Definition pledges_type (pl : Pledges) : Z :=
  match pl with PREPARE _ => 0 | CONFIRM _ => 1 | EXTERNALIZE _ => 2 | NOMINATE _ => 3 end.

(** ** Comparing ballots *)
Definition compareBallots (b1 b2 : SCPBallot) : Z :=
  if counter b1 <? counter b2 then -1
  else if counter b2 <? counter b1 then 1
  else if valueLt (value b1) (value b2) then -1
  else if valueLt (value b2) (value b1) then 1
  else 0.
Definition compareBallotPtrs (b1 b2 : option SCPBallot) : Z :=
  match b1, b2 with
  | Some b1, Some b2 => compareBallots b1 b2
  | Some _, None => 1
  | None, Some _ => -1
  | None, None => 0
  end.
(** [operator<] *)
Definition ballotLt (b1 b2 : SCPBallot) : bool := compareBallots b1 b2 <? 0.

Definition areBallotsCompatible (b1 b2 : SCPBallot) : bool :=
  bool_decide (value b1 = value b2).
Definition areBallotsLessAndIncompatible (b1 b2 : SCPBallot) : bool :=
  (compareBallots b1 b2 <=? 0) && negb (areBallotsCompatible b1 b2).
Definition areBallotsLessAndCompatible (b1 b2 : SCPBallot) : bool :=
  (compareBallots b1 b2 <=? 0) && areBallotsCompatible b1 b2.

(** A test of what [p] points to, false if it is null. *)
Definition and_ptr (p : option SCPBallot) (f : SCPBallot -> bool) : bool :=
  match p with Some b => f b | None => false end.

(** ** Statements *)

(** The order of the statements of one node, on two of the same type. *)
Definition isNewerConfirm (oldC c : SCPConfirm) : bool :=
  let compBallot := compareBallots (con_ballot oldC) (con_ballot c) in
  if compBallot <? 0 then true
  else if compBallot =? 0 then
    if con_nPrepared oldC =? con_nPrepared c then con_nH oldC <? con_nH c
    else con_nPrepared oldC <? con_nPrepared c
  else false.
Definition isNewerPrepare (oldPrep prep : SCPPrepare) : bool :=
  let compBallot := compareBallots (prep_ballot oldPrep) (prep_ballot prep) in
  if compBallot <? 0 then true
  else if compBallot =? 0 then
    let compBallot := compareBallotPtrs (prep_prepared oldPrep) (prep_prepared prep) in
    if compBallot <? 0 then true
    else if compBallot =? 0 then
      let compBallot := compareBallotPtrs (prep_preparedPrime oldPrep) (prep_preparedPrime prep) in
      if compBallot <? 0 then true
      else if compBallot =? 0 then prep_nH oldPrep <? prep_nH prep
      else false
    else false
  else false.
Definition isNewerStatement (oldst st : SCPStatement) : bool :=
  let t := pledges_type (pledges st) in
  if negb (pledges_type (pledges oldst) =? t) then pledges_type (pledges oldst) <? t
  else
    match pledges oldst, pledges st with
    | CONFIRM oldC, CONFIRM c => isNewerConfirm oldC c
    | PREPARE oldPrep, PREPARE prep => isNewerPrepare oldPrep prep
    | _, _ => false
    end.

(** [isStatementSane] after its check of the quorum set. *)
Definition arePledgesSane (pl : Pledges) (self : bool) : bool :=
  match pl with
  | PREPARE p =>
      let isOK := self || (0 <? counter (prep_ballot p)) in
      let isOK := isOK &&
        match prep_preparedPrime p, prep_prepared p with
        | Some p', Some p => areBallotsLessAndIncompatible p' p
        | _, _ => true
        end in
      let isOK := isOK &&
        ((prep_nH p =? 0) || and_ptr (prep_prepared p) (fun b => prep_nH p <=? counter b)) in
      isOK &&
        ((prep_nC p =? 0)
         || (negb (prep_nH p =? 0) && (prep_nH p <=? counter (prep_ballot p))
             && (prep_nC p <=? prep_nH p)))
  | CONFIRM c =>
      (0 <? counter (con_ballot c)) && (con_nH c <=? counter (con_ballot c))
      && (con_nCommit c <=? con_nH c)
  | EXTERNALIZE e => (0 <? counter (ext_commit e)) && (counter (ext_commit e) <=? ext_nH e)
  | NOMINATE _ => true
  end.

Definition hasPreparedBallot (ballot : SCPBallot) (st : SCPStatement) : bool :=
  match pledges st with
  | PREPARE p =>
      and_ptr (prep_prepared p) (areBallotsLessAndCompatible ballot)
      || and_ptr (prep_preparedPrime p) (areBallotsLessAndCompatible ballot)
  | CONFIRM c =>
      areBallotsLessAndCompatible ballot (mkBallot (con_nPrepared c) (value (con_ballot c)))
  | EXTERNALIZE e => areBallotsCompatible ballot (ext_commit e)
  | NOMINATE _ => false
  end.
(** The first predicate of [attemptPreparedAccept]: a vote to prepare. *)
Definition votesPrepare (ballot : SCPBallot) (st : SCPStatement) : bool :=
  match pledges st with
  | PREPARE p => areBallotsLessAndCompatible ballot (prep_ballot p)
  | CONFIRM c => areBallotsCompatible ballot (con_ballot c)
  | EXTERNALIZE e => areBallotsCompatible ballot (ext_commit e)
  | NOMINATE _ => false
  end.

Abbreviation Interval := (Z * Z)%type (only parsing).

Definition commitPredicate (ballot : SCPBallot) (check : Interval) (st : SCPStatement) : bool :=
  match pledges st with
  | PREPARE _ => false
  | CONFIRM c =>
      areBallotsCompatible ballot (con_ballot c)
      && ((con_nCommit c <=? check.1) && (check.2 <=? con_nH c))
  | EXTERNALIZE e =>
      areBallotsCompatible ballot (ext_commit e) && (counter (ext_commit e) <=? check.1)
  | NOMINATE _ => false
  end.
(** The first predicate of [attemptAcceptCommit]: a vote to commit. *)
Definition votesCommit (ballot : SCPBallot) (cur : Interval) (st : SCPStatement) : bool :=
  match pledges st with
  | PREPARE p =>
      areBallotsCompatible ballot (prep_ballot p)
      && (negb (prep_nC p =? 0) && ((prep_nC p <=? cur.1) && (cur.2 <=? prep_nH p)))
  | CONFIRM c => areBallotsCompatible ballot (con_ballot c) && (con_nCommit c <=? cur.1)
  | EXTERNALIZE e =>
      areBallotsCompatible ballot (ext_commit e) && (counter (ext_commit e) <=? cur.1)
  | NOMINATE _ => false
  end.

Definition getWorkingBallot (st : SCPStatement) : SCPBallot :=
  match pledges st with
  | PREPARE p => prep_ballot p
  | CONFIRM c => mkBallot (con_nCommit c) (value (con_ballot c))
  | EXTERNALIZE e => ext_commit e
  | NOMINATE _ => mkBallot 0 []
  end.
Definition getCompanionQuorumSetHashFromStatement (st : SCPStatement) : Hash :=
  match pledges st with
  | PREPARE p => prep_quorumSetHash p
  | CONFIRM c => con_quorumSetHash c
  | EXTERNALIZE e => ext_commitQuorumSetHash e
  | NOMINATE n => nom_quorumSetHash n
  end.

(** ** The ballots and counters worth trying *)

(** The loop over the boundaries, highest first; [break] ends it. *)
Fixpoint extendInterval (pred : Interval -> bool) (boundaries : list Z) (candidate : Interval)
    : Interval :=
  match boundaries with
  | [] => candidate
  | b :: rest =>
      if negb (candidate.1 =? 0) && (candidate.2 <? b) then extendInterval pred rest candidate
      else
        let cur := if candidate.1 =? 0 then (b, b) else (b, candidate.2) in
        if pred cur then extendInterval pred rest cur
        else if negb (candidate.1 =? 0) then candidate
        else extendInterval pred rest candidate
  end.
Definition findExtendedInterval (candidate : Interval) (boundaries : list Z)
    (pred : Interval -> bool) : Interval :=
  extendInterval pred (rev boundaries) candidate.

(** The ballots of the hint. *)
Definition hintBallots (hint : Pledges) : list SCPBallot :=
  match hint with
  | PREPARE prep =>
      prep_ballot prep :: option_list (prep_prepared prep) ++ option_list (prep_preparedPrime prep)
  | CONFIRM con =>
      [mkBallot (con_nPrepared con) (value (con_ballot con));
       mkBallot UINT32_MAX (value (con_ballot con))]
  | EXTERNALIZE ext => [mkBallot UINT32_MAX (value (ext_commit ext))]
  | NOMINATE _ => []
  end.
(** The candidates that one statement adds below [topVote]. *)
Definition candidatesBelow (topVote : SCPBallot) (st : SCPStatement) : list SCPBallot :=
  match pledges st with
  | PREPARE prep =>
      List.filter (fun b => areBallotsLessAndCompatible b topVote)
        (prep_ballot prep :: option_list (prep_prepared prep)
           ++ option_list (prep_preparedPrime prep))
  | CONFIRM con =>
      if areBallotsCompatible topVote (con_ballot con) then
        topVote :: (if con_nPrepared con <? counter topVote
                    then [mkBallot (con_nPrepared con) (value topVote)] else [])
      else []
  | EXTERNALIZE ext => if areBallotsCompatible topVote (ext_commit ext) then [topVote] else []
  | NOMINATE _ => []
  end.
(** The loop over the hint's ballots, highest first. *)
Definition prepareCandidates (hint : Pledges) (latest : list SCPStatement) : list SCPBallot :=
  fold_left
    (fun candidates topVote =>
       fold_left (fun candidates st => set_inserts ballotLt (candidatesBelow topVote st) candidates)
         latest candidates)
    (rev (set_of ballotLt (hintBallots hint))) [].

(** The counters that one statement adds to the commit boundaries. *)
Definition commitBoundaries (ballot : SCPBallot) (st : SCPStatement) : list Z :=
  match pledges st with
  | PREPARE p =>
      if areBallotsCompatible ballot (prep_ballot p) && negb (prep_nC p =? 0)
      then [prep_nC p; prep_nH p] else []
  | CONFIRM c => if areBallotsCompatible ballot (con_ballot c) then [con_nCommit c; con_nH c] else []
  | EXTERNALIZE e =>
      if areBallotsCompatible ballot (ext_commit e)
      then [counter (ext_commit e); ext_nH e; UINT32_MAX] else []
  | NOMINATE _ => []
  end.
Definition allCommitBoundaries (ballot : SCPBallot) (latest : list SCPStatement) : list Z :=
  fold_left (fun res st => set_inserts Z.ltb (commitBoundaries ballot st) res) latest [].

(** The ballot whose value a hint proposes to commit; [None] is [return false]. *)
Definition hintCommit (hint : Pledges) : option SCPBallot :=
  match hint with
  | PREPARE prep =>
      if negb (prep_nC prep =? 0) then Some (mkBallot (prep_nH prep) (value (prep_ballot prep)))
      else None
  | CONFIRM con => Some (mkBallot (con_nH con) (value (con_ballot con)))
  | EXTERNALIZE ext => Some (mkBallot (ext_nH ext) (value (ext_commit ext)))
  | NOMINATE _ => None
  end.
(** The same for [attemptConfirmCommit]. *)
Definition hintConfirm (hint : Pledges) : option SCPBallot :=
  match hint with
  | PREPARE _ => None
  | CONFIRM con => Some (mkBallot (con_nH con) (value (con_ballot con)))
  | EXTERNALIZE ext => Some (mkBallot (ext_nH ext) (value (ext_commit ext)))
  | NOMINATE _ => None
  end.

(** The counter a statement is at, and whether that is above [n]: the two
    passes of [attemptBump]. *)
Definition statementCounter (st : SCPStatement) : Z :=
  match pledges st with
  | PREPARE p => counter (prep_ballot p)
  | CONFIRM c => counter (con_ballot c)
  | EXTERNALIZE _ => UINT32_MAX
  | NOMINATE _ => 0
  end.
Definition isAboveCounter (n : Z) (st : SCPStatement) : bool :=
  match pledges st with
  | PREPARE p => n <? counter (prep_ballot p)
  | CONFIRM c => n <? counter (con_ballot c)
  | _ => negb (n =? UINT32_MAX)
  end.
(** The filter of [checkHeardFromQuorum]. *)
Definition isAtCounter (n : Z) (st : SCPStatement) : bool :=
  match pledges st with
  | PREPARE p => n <=? counter (prep_ballot p)
  | _ => true
  end.
