(* ===== verification/BallotOrder.v ===== *)
(** The orders of the ballot protocol: values, ballots, and the statements of
    one node; and the candidates the code considers: which ballots
    [getPrepareCandidates] and which counters
    [getCommitBoundariesFromStatements] collect. *)

From S2P Require Import Prelude Types Quorums Ballots Sorting.

(** ** Values *)
#[export] Instance valueLt_strict : StrictTotal valueLt.
Proof.
  split.
  - intros v. induction v as [|x v IH]; cbn; [done|]. by rewrite Z.ltb_irrefl.
  - intros v1. induction v1 as [|x v1 IH]; intros [|y v2] [|z v3]; cbn; try done.
    destruct (Z.ltb_spec x y), (Z.ltb_spec y z), (Z.ltb_spec y x), (Z.ltb_spec z y),
      (Z.ltb_spec x z), (Z.ltb_spec z x); try done; try lia. apply IH.
  - intros v1. induction v1 as [|x v1 IH]; intros [|y v2]; cbn; try done.
    destruct (Z.ltb_spec x y), (Z.ltb_spec y x); try done; try lia.
    intros H1 H2. rewrite (IH v2) by done. f_equal. lia.
Qed.

(** ** Ballots *)
Lemma compareBallots_values b1 b2 :
  compareBallots b1 b2 = -1 \/ compareBallots b1 b2 = 0 \/ compareBallots b1 b2 = 1.
Proof. unfold compareBallots. repeat case_match; auto. Qed.

(** The order behind the three-way comparison. *)
Definition ballot_lt (b1 b2 : SCPBallot) : Prop :=
  counter b1 < counter b2 \/ (counter b1 = counter b2 /\ valueLt (value b1) (value b2) = true).

Lemma compareBallots_lt b1 b2 : compareBallots b1 b2 < 0 <-> ballot_lt b1 b2.
Proof.
  unfold compareBallots, ballot_lt.
  destruct (Z.ltb_spec (counter b1) (counter b2)), (Z.ltb_spec (counter b2) (counter b1)); try lia.
  destruct (valueLt (value b1) (value b2)) eqn:E1; [intuition lia|].
  destruct (valueLt (value b2) (value b1)); intuition (discriminate || lia).
Qed.
Lemma compareBallots_gt b1 b2 : 0 < compareBallots b1 b2 <-> ballot_lt b2 b1.
Proof.
  unfold compareBallots, ballot_lt.
  destruct (Z.ltb_spec (counter b1) (counter b2)), (Z.ltb_spec (counter b2) (counter b1)); try lia.
  destruct (valueLt (value b1) (value b2)) eqn:E1.
  - rewrite (lt_asym _ _ _ E1). intuition (discriminate || lia).
  - destruct (valueLt (value b2) (value b1)); intuition (discriminate || lia).
Qed.
Lemma compareBallots_eq b1 b2 : compareBallots b1 b2 = 0 <-> b1 = b2.
Proof.
  split.
  - intros H. destruct b1 as [n1 v1], b2 as [n2 v2]. unfold compareBallots in H. cbn in H.
    destruct (Z.ltb_spec n1 n2), (Z.ltb_spec n2 n1); try lia.
    destruct (valueLt v1 v2) eqn:E1; [lia|]. destruct (valueLt v2 v1) eqn:E2; [lia|].
    f_equal; [lia|]. by apply lt_total.
  - intros ->. unfold compareBallots. by rewrite Z.ltb_irrefl, lt_irrefl.
Qed.
Lemma compareBallots_refl b : compareBallots b b = 0.
Proof. by apply compareBallots_eq. Qed.
Lemma compareBallots_opp b1 b2 : compareBallots b2 b1 = - compareBallots b1 b2.
Proof.
  destruct (compareBallots_values b1 b2) as [H|[H|H]]; rewrite H.
  - assert (0 < compareBallots b2 b1) by (apply compareBallots_gt, compareBallots_lt; lia).
    destruct (compareBallots_values b2 b1); lia.
  - apply compareBallots_eq in H. subst. apply compareBallots_refl.
  - assert (compareBallots b2 b1 < 0) by (apply compareBallots_lt, compareBallots_gt; lia).
    destruct (compareBallots_values b2 b1); lia.
Qed.

Lemma ballot_lt_irrefl b : ~ ballot_lt b b.
Proof. intros H%compareBallots_lt. rewrite compareBallots_refl in H. lia. Qed.
Lemma ballot_lt_trans b1 b2 b3 : ballot_lt b1 b2 -> ballot_lt b2 b3 -> ballot_lt b1 b3.
Proof.
  unfold ballot_lt. intros [H1|[E1 H1]] [H2|[E2 H2]]; [left; lia..|right]. split; [lia|].
  exact (lt_trans _ _ _ H1 H2).
Qed.
Lemma ballot_lt_counter b1 b2 : ballot_lt b1 b2 -> counter b1 <= counter b2.
Proof. unfold ballot_lt. lia. Qed.

(** [<=], as the code tests it. *)
Definition ballot_le (b1 b2 : SCPBallot) : Prop := ballot_lt b1 b2 \/ b1 = b2.
Lemma compareBallots_le b1 b2 : compareBallots b1 b2 <= 0 <-> ballot_le b1 b2.
Proof.
  unfold ballot_le. rewrite <- compareBallots_lt, <- compareBallots_eq. lia.
Qed.
Lemma compareBallots_ge b1 b2 : 0 <= compareBallots b1 b2 <-> ballot_le b2 b1.
Proof. rewrite <- compareBallots_le, compareBallots_opp. lia. Qed.
Lemma ballot_le_trans b1 b2 b3 : ballot_le b1 b2 -> ballot_le b2 b3 -> ballot_le b1 b3.
Proof.
  intros [H1| ->] [H2| ->]; [left; by eapply ballot_lt_trans|by left|by left|by right].
Qed.
Lemma ballot_lt_le_trans b1 b2 b3 : ballot_lt b1 b2 -> ballot_le b2 b3 -> ballot_lt b1 b3.
Proof. intros H1 [H2| ->]; [by eapply ballot_lt_trans|done]. Qed.
Lemma ballot_le_lt_trans b1 b2 b3 : ballot_le b1 b2 -> ballot_lt b2 b3 -> ballot_lt b1 b3.
Proof. intros [H1| ->] H2; [by eapply ballot_lt_trans|done]. Qed.
Lemma ballot_le_or_lt b1 b2 : ballot_le b1 b2 \/ ballot_lt b2 b1.
Proof.
  rewrite <- compareBallots_le, <- compareBallots_gt. lia.
Qed.
Lemma ballot_le_refl b : ballot_le b b.
Proof. by right. Qed.
(** Among compatible ballots the counter decides. *)
Lemma ballot_le_compatible b1 b2 :
  value b1 = value b2 -> ballot_le b1 b2 <-> counter b1 <= counter b2.
Proof.
  intros Hv. split.
  - intros [H| ->]; [by apply ballot_lt_counter|lia].
  - intros H. destruct (Z.eq_dec (counter b1) (counter b2)) as [E|N].
    + right. destruct b1, b2; cbn in *. by subst.
    + left. left. lia.
Qed.

#[export] Instance ballotLt_strict : StrictTotal ballotLt.
Proof.
  split.
  - intros b. unfold ballotLt. by rewrite compareBallots_refl.
  - unfold ballotLt. intros b1 b2 b3. rewrite !Z.ltb_lt, !compareBallots_lt. apply ballot_lt_trans.
  - unfold ballotLt. intros b1 b2. rewrite !Z.ltb_ge, (compareBallots_opp b1 b2). intros H1 H2.
    apply compareBallots_eq. lia.
Qed.

Lemma areBallotsCompatible_spec b1 b2 : areBallotsCompatible b1 b2 = true <-> value b1 = value b2.
Proof. unfold areBallotsCompatible. by rewrite bool_decide_eq_true. Qed.
Lemma areBallotsCompatible_false b1 b2 : areBallotsCompatible b1 b2 = false <-> value b1 <> value b2.
Proof. unfold areBallotsCompatible. by rewrite bool_decide_eq_false. Qed.
Lemma lessAndCompatible_spec b1 b2 :
  areBallotsLessAndCompatible b1 b2 = true <-> ballot_le b1 b2 /\ value b1 = value b2.
Proof.
  unfold areBallotsLessAndCompatible.
  by rewrite andb_true_iff, Z.leb_le, compareBallots_le, areBallotsCompatible_spec.
Qed.
Lemma lessAndIncompatible_spec b1 b2 :
  areBallotsLessAndIncompatible b1 b2 = true <-> ballot_le b1 b2 /\ value b1 <> value b2.
Proof.
  unfold areBallotsLessAndIncompatible.
  by rewrite andb_true_iff, Z.leb_le, compareBallots_le, negb_true_iff, areBallotsCompatible_false.
Qed.

(** ** Statements *)
Lemma compareBallotPtrs_values o1 o2 :
  compareBallotPtrs o1 o2 = -1 \/ compareBallotPtrs o1 o2 = 0 \/ compareBallotPtrs o1 o2 = 1.
Proof. destruct o1, o2; cbn; auto using compareBallots_values. Qed.
Lemma compareBallotPtrs_eq o1 o2 : compareBallotPtrs o1 o2 = 0 <-> o1 = o2.
Proof.
  destruct o1, o2; cbn; rewrite ?compareBallots_eq; split; intros; try done; congruence.
Qed.
Lemma compareBallotPtrs_trans o1 o2 o3 :
  compareBallotPtrs o1 o2 < 0 -> compareBallotPtrs o2 o3 < 0 -> compareBallotPtrs o1 o3 < 0.
Proof.
  destruct o1, o2, o3; cbn; try lia. rewrite !compareBallots_lt. apply ballot_lt_trans.
Qed.

(** The statements of one type and node, as the tuples the code compares: a
    lexicographic order of tuples. *)
Definition prepare_lt (p1 p2 : SCPPrepare) : Prop :=
  ballot_lt (prep_ballot p1) (prep_ballot p2) \/
  prep_ballot p1 = prep_ballot p2 /\
  (compareBallotPtrs (prep_prepared p1) (prep_prepared p2) < 0 \/
   prep_prepared p1 = prep_prepared p2 /\
   (compareBallotPtrs (prep_preparedPrime p1) (prep_preparedPrime p2) < 0 \/
    prep_preparedPrime p1 = prep_preparedPrime p2 /\ prep_nH p1 < prep_nH p2)).
Definition confirm_lt (c1 c2 : SCPConfirm) : Prop :=
  ballot_lt (con_ballot c1) (con_ballot c2) \/
  con_ballot c1 = con_ballot c2 /\
  (con_nPrepared c1 < con_nPrepared c2 \/ con_nPrepared c1 = con_nPrepared c2 /\ con_nH c1 < con_nH c2).

Lemma isNewerPrepare_lt p1 p2 : isNewerPrepare p1 p2 = true <-> prepare_lt p1 p2.
Proof.
  unfold isNewerPrepare, prepare_lt. rewrite <- compareBallots_lt, <- compareBallots_eq.
  rewrite <- !compareBallotPtrs_eq.
  repeat zcase; rewrite ?Z.ltb_lt; intuition (discriminate || lia).
Qed.
Lemma isNewerConfirm_lt c1 c2 : isNewerConfirm c1 c2 = true <-> confirm_lt c1 c2.
Proof.
  unfold isNewerConfirm, confirm_lt. rewrite <- compareBallots_lt, <- compareBallots_eq.
  repeat zcase; intuition (discriminate || lia).
Qed.
Lemma lex_trans {A} (R : A -> A -> Prop) x y z (P12 P23 P13 : Prop) :
  (R x y -> R y z -> R x z) -> (P12 -> P23 -> P13) ->
  R x y \/ (x = y /\ P12) -> R y z \/ (y = z /\ P23) -> R x z \/ (x = z /\ P13).
Proof. intros HR HP [H1|[-> H1]] [H2|[-> H2]]; auto. Qed.

Lemma prepare_lt_trans p1 p2 p3 : prepare_lt p1 p2 -> prepare_lt p2 p3 -> prepare_lt p1 p3.
Proof.
  unfold prepare_lt. apply lex_trans; [apply ballot_lt_trans|].
  apply (lex_trans (fun o o' => compareBallotPtrs o o' < 0)); [apply compareBallotPtrs_trans|].
  apply (lex_trans (fun o o' => compareBallotPtrs o o' < 0)); [apply compareBallotPtrs_trans|lia].
Qed.
Lemma confirm_lt_trans c1 c2 c3 : confirm_lt c1 c2 -> confirm_lt c2 c3 -> confirm_lt c1 c3.
Proof.
  unfold confirm_lt. apply lex_trans; [apply ballot_lt_trans|]. apply lex_trans; lia.
Qed.
Lemma prepare_lt_irrefl p : ~ prepare_lt p p.
Proof.
  assert (forall o, ~ compareBallotPtrs o o < 0).
  { intros o. rewrite (proj2 (compareBallotPtrs_eq o o)) by done. lia. }
  unfold prepare_lt. intros [H1|(_ & [H1|(_ & [H1|(_ & H1)])])];
    [by apply ballot_lt_irrefl in H1|by apply H in H1..|lia].
Qed.
Lemma confirm_lt_irrefl c : ~ confirm_lt c c.
Proof. unfold confirm_lt. intros [H|[_ H]]; [by apply ballot_lt_irrefl in H|lia]. Qed.

Lemma isNewerStatement_trans st1 st2 st3 :
  isNewerStatement st1 st2 = true -> isNewerStatement st2 st3 = true ->
  isNewerStatement st1 st3 = true.
Proof.
  unfold isNewerStatement.
  destruct (pledges st1), (pledges st2); cbn; try done;
    destruct (pledges st3); cbn; try done.
  - rewrite !isNewerPrepare_lt. apply prepare_lt_trans.
  - rewrite !isNewerConfirm_lt. apply confirm_lt_trans.
Qed.
Lemma isNewerStatement_irrefl st : isNewerStatement st st = false.
Proof.
  unfold isNewerStatement. rewrite Z.eqb_refl. cbn. destruct (pledges st); try done.
  - destruct (isNewerPrepare p p) eqn:E; [|done]. by apply isNewerPrepare_lt, prepare_lt_irrefl in E.
  - destruct (isNewerConfirm c c) eqn:E; [|done]. by apply isNewerConfirm_lt, confirm_lt_irrefl in E.
Qed.

(** * Candidates *)

Lemma elem_of_rev {A} (x : A) l : x ∈ rev l <-> x ∈ l.
Proof. by rewrite !list_elem_of_In, <- in_rev. Qed.

Lemma elem_of_opt {A} (x : A) (o : option A) : x ∈ option_list o <-> o = Some x.
Proof. destruct o; cbn; rewrite ?list_elem_of_singleton, ?elem_of_nil; naive_solver. Qed.

Lemma fold_inserts_elem {A B} (lt : B -> B -> bool) `{!StrictTotal lt} (f : A -> list B) l init y :
  y ∈ fold_left (fun acc a => set_inserts lt (f a) acc) l init <->
  y ∈ init \/ exists a, In a l /\ y ∈ f a.
Proof.
  revert init. induction l as [|a l IH]; intros init; cbn; [naive_solver|].
  rewrite IH, elem_of_set_inserts by done. naive_solver.
Qed.
Lemma prepareCandidates_elem hint latest x :
  x ∈ prepareCandidates hint latest <->
  exists top st, top ∈ hintBallots hint /\ In st latest /\ x ∈ candidatesBelow top st.
Proof.
  unfold prepareCandidates.
  enough (H : forall tops init, x ∈ fold_left (fun candidates topVote =>
       fold_left (fun candidates st => set_inserts ballotLt (candidatesBelow topVote st) candidates)
         latest candidates) tops init <->
     x ∈ init \/ exists top st, top ∈ tops /\ In st latest /\ x ∈ candidatesBelow top st).
  { rewrite H. setoid_rewrite elem_of_rev. setoid_rewrite elem_of_set_of; [|apply _]. set_solver. }
  intros tops. induction tops as [|top tops IH]; intros init; cbn [fold_left]; [set_solver|].
  rewrite IH, fold_inserts_elem by apply _. set_solver.
Qed.
