(* ===== verification/SlotState.v ===== *)
(** The state of an SCP slot, and the monad its code runs in.

    [Slot] ([src/src/scp/Slot.h]) owns a [BallotProtocol] and a
    [NominationProtocol], which call each other through it: one state holds
    all three.  A computation can throw, and can dereference a null
    [unique_ptr]; either ends the run, as nothing above [SCP] recovers.

    The driver ([src/src/scp/SCPDriver.h]) is the abstract class the code is
    written against: a class of functions, and a log of the calls that only
    inform it.  It answers the same throughout one run; different runs may be
    given different drivers. *)

From S2P Require Import Prelude Types Quorums Ballots Sorting.

(** ** State *)
Inductive SCPPhase := SCP_PHASE_PREPARE | SCP_PHASE_CONFIRM | SCP_PHASE_EXTERNALIZE.
#[export] Instance SCPPhase_eq_dec : EqDecision SCPPhase.
Proof. solve_decision. Defined.

(** A [shared_ptr<SCPEnvelope>]: the allocation it points to, and what is there. *)
Abbreviation EnvelopePtr := (option (nat * SCPEnvelope)) (only parsing).

Record BallotState := mkBallotState {
  mHeardFromQuorum : bool;
  mCurrentBallot : option SCPBallot;
  mPrepared : option SCPBallot;
  mPreparedPrime : option SCPBallot;
  mHighBallot : option SCPBallot;
  mCommit : option SCPBallot;
  mLatestEnvelopes : gmap NodeID SCPEnvelope;
  mPhase : SCPPhase;
  mValueOverride : option Value;
  mCurrentMessageLevel : Z;
  mLastEnvelope : EnvelopePtr;
  mLastEnvelopeEmit : EnvelopePtr }.

Record NominationState := mkNominationState {
  mRoundNumber : Z;
  mVotes : list Value;
  mAccepted : list Value;
  mCandidates : list Value;
  mLatestNominations : gmap NodeID SCPEnvelope;
  mLastNomination : option SCPEnvelope;
  mRoundLeaders : list NodeID;
  mNominationStarted : bool;
  mLatestCompositeCandidate : Value;
  mPreviousValue : Value }.

(** What the driver is told, latest first. *)
Inductive DriverCall :=
  | SignEnvelope (e : SCPEnvelope)
  | EmitEnvelope (e : SCPEnvelope)
  | ValueExternalized (v : Value)
  | NominatingValue (v : Value)
  | UpdatedCandidateValue (v : Value)
  | StartedBallotProtocol (b : SCPBallot)
  | AcceptedBallotPrepared (b : SCPBallot)
  | ConfirmedBallotPrepared (b : SCPBallot)
  | AcceptedCommit (b : SCPBallot)
  | BallotDidHearFromQuorum (b : SCPBallot)
  | SetupTimer (timerID : Z) (timeout : Z) (armed : bool).

Record Slot := mkSlot {
  ballots : BallotState;
  nomination : NominationState;
  mStatementsHistory : list (SCPStatement * bool);
  mFullyValidated : bool;
  calls : list DriverCall;
  allocations : nat }.

Definition NOMINATION_TIMER : Z := 0.
Definition BALLOT_PROTOCOL_TIMER : Z := 1.

Definition initialBallotState : BallotState :=
  mkBallotState false None None None None None ∅ SCP_PHASE_PREPARE None 0 None None.
Definition initialNominationState : NominationState :=
  mkNominationState 0 [] [] [] ∅ None [] false [] [].
(** The constructor of [Slot], given [isValidator()]. *)
Definition initialSlot (isValidator : bool) : Slot :=
  mkSlot initialBallotState initialNominationState [] isValidator [] 0.

(** ** Updates of one field *)
Definition on_ballots (f : BallotState -> BallotState) (s : Slot) : Slot :=
  mkSlot (f (ballots s)) (nomination s) (mStatementsHistory s) (mFullyValidated s) (calls s)
    (allocations s).
Definition on_nomination (f : NominationState -> NominationState) (s : Slot) : Slot :=
  mkSlot (ballots s) (f (nomination s)) (mStatementsHistory s) (mFullyValidated s) (calls s)
    (allocations s).
Definition set_history h (s : Slot) : Slot :=
  mkSlot (ballots s) (nomination s) h (mFullyValidated s) (calls s) (allocations s).
Definition set_validated v (s : Slot) : Slot :=
  mkSlot (ballots s) (nomination s) (mStatementsHistory s) v (calls s) (allocations s).
Definition add_call c (s : Slot) : Slot :=
  mkSlot (ballots s) (nomination s) (mStatementsHistory s) (mFullyValidated s) (c :: calls s)
    (allocations s).
Definition set_allocations n (s : Slot) : Slot :=
  mkSlot (ballots s) (nomination s) (mStatementsHistory s) (mFullyValidated s) (calls s) n.

Section BallotFields.
Context (b : BallotState).
Definition set_heard x := mkBallotState x (mCurrentBallot b) (mPrepared b) (mPreparedPrime b)
  (mHighBallot b) (mCommit b) (mLatestEnvelopes b) (mPhase b) (mValueOverride b)
  (mCurrentMessageLevel b) (mLastEnvelope b) (mLastEnvelopeEmit b).
Definition set_current x := mkBallotState (mHeardFromQuorum b) x (mPrepared b) (mPreparedPrime b)
  (mHighBallot b) (mCommit b) (mLatestEnvelopes b) (mPhase b) (mValueOverride b)
  (mCurrentMessageLevel b) (mLastEnvelope b) (mLastEnvelopeEmit b).
Definition set_prepared x := mkBallotState (mHeardFromQuorum b) (mCurrentBallot b) x
  (mPreparedPrime b) (mHighBallot b) (mCommit b) (mLatestEnvelopes b) (mPhase b)
  (mValueOverride b) (mCurrentMessageLevel b) (mLastEnvelope b) (mLastEnvelopeEmit b).
Definition set_preparedPrime x := mkBallotState (mHeardFromQuorum b) (mCurrentBallot b)
  (mPrepared b) x (mHighBallot b) (mCommit b) (mLatestEnvelopes b) (mPhase b)
  (mValueOverride b) (mCurrentMessageLevel b) (mLastEnvelope b) (mLastEnvelopeEmit b).
Definition set_high x := mkBallotState (mHeardFromQuorum b) (mCurrentBallot b) (mPrepared b)
  (mPreparedPrime b) x (mCommit b) (mLatestEnvelopes b) (mPhase b) (mValueOverride b)
  (mCurrentMessageLevel b) (mLastEnvelope b) (mLastEnvelopeEmit b).
Definition set_commit x := mkBallotState (mHeardFromQuorum b) (mCurrentBallot b) (mPrepared b)
  (mPreparedPrime b) (mHighBallot b) x (mLatestEnvelopes b) (mPhase b) (mValueOverride b)
  (mCurrentMessageLevel b) (mLastEnvelope b) (mLastEnvelopeEmit b).
Definition set_latest x := mkBallotState (mHeardFromQuorum b) (mCurrentBallot b) (mPrepared b)
  (mPreparedPrime b) (mHighBallot b) (mCommit b) x (mPhase b) (mValueOverride b)
  (mCurrentMessageLevel b) (mLastEnvelope b) (mLastEnvelopeEmit b).
Definition set_phase x := mkBallotState (mHeardFromQuorum b) (mCurrentBallot b) (mPrepared b)
  (mPreparedPrime b) (mHighBallot b) (mCommit b) (mLatestEnvelopes b) x (mValueOverride b)
  (mCurrentMessageLevel b) (mLastEnvelope b) (mLastEnvelopeEmit b).
Definition set_override x := mkBallotState (mHeardFromQuorum b) (mCurrentBallot b) (mPrepared b)
  (mPreparedPrime b) (mHighBallot b) (mCommit b) (mLatestEnvelopes b) (mPhase b) x
  (mCurrentMessageLevel b) (mLastEnvelope b) (mLastEnvelopeEmit b).
Definition set_level x := mkBallotState (mHeardFromQuorum b) (mCurrentBallot b) (mPrepared b)
  (mPreparedPrime b) (mHighBallot b) (mCommit b) (mLatestEnvelopes b) (mPhase b)
  (mValueOverride b) x (mLastEnvelope b) (mLastEnvelopeEmit b).
Definition set_last x := mkBallotState (mHeardFromQuorum b) (mCurrentBallot b) (mPrepared b)
  (mPreparedPrime b) (mHighBallot b) (mCommit b) (mLatestEnvelopes b) (mPhase b)
  (mValueOverride b) (mCurrentMessageLevel b) x (mLastEnvelopeEmit b).
Definition set_emit x := mkBallotState (mHeardFromQuorum b) (mCurrentBallot b) (mPrepared b)
  (mPreparedPrime b) (mHighBallot b) (mCommit b) (mLatestEnvelopes b) (mPhase b)
  (mValueOverride b) (mCurrentMessageLevel b) (mLastEnvelope b) x.
End BallotFields.

Section NominationFields.
Context (n : NominationState).
Definition set_round x := mkNominationState x (mVotes n) (mAccepted n) (mCandidates n)
  (mLatestNominations n) (mLastNomination n) (mRoundLeaders n) (mNominationStarted n)
  (mLatestCompositeCandidate n) (mPreviousValue n).
Definition set_votes x := mkNominationState (mRoundNumber n) x (mAccepted n) (mCandidates n)
  (mLatestNominations n) (mLastNomination n) (mRoundLeaders n) (mNominationStarted n)
  (mLatestCompositeCandidate n) (mPreviousValue n).
Definition set_accepted x := mkNominationState (mRoundNumber n) (mVotes n) x (mCandidates n)
  (mLatestNominations n) (mLastNomination n) (mRoundLeaders n) (mNominationStarted n)
  (mLatestCompositeCandidate n) (mPreviousValue n).
Definition set_candidates x := mkNominationState (mRoundNumber n) (mVotes n) (mAccepted n) x
  (mLatestNominations n) (mLastNomination n) (mRoundLeaders n) (mNominationStarted n)
  (mLatestCompositeCandidate n) (mPreviousValue n).
Definition set_nominations x := mkNominationState (mRoundNumber n) (mVotes n) (mAccepted n)
  (mCandidates n) x (mLastNomination n) (mRoundLeaders n) (mNominationStarted n)
  (mLatestCompositeCandidate n) (mPreviousValue n).
Definition set_lastNomination x := mkNominationState (mRoundNumber n) (mVotes n) (mAccepted n)
  (mCandidates n) (mLatestNominations n) x (mRoundLeaders n) (mNominationStarted n)
  (mLatestCompositeCandidate n) (mPreviousValue n).
Definition set_leaders x := mkNominationState (mRoundNumber n) (mVotes n) (mAccepted n)
  (mCandidates n) (mLatestNominations n) (mLastNomination n) x (mNominationStarted n)
  (mLatestCompositeCandidate n) (mPreviousValue n).
Definition set_started x := mkNominationState (mRoundNumber n) (mVotes n) (mAccepted n)
  (mCandidates n) (mLatestNominations n) (mLastNomination n) (mRoundLeaders n) x
  (mLatestCompositeCandidate n) (mPreviousValue n).
Definition set_composite x := mkNominationState (mRoundNumber n) (mVotes n) (mAccepted n)
  (mCandidates n) (mLatestNominations n) (mLastNomination n) (mRoundLeaders n)
  (mNominationStarted n) x (mPreviousValue n).
Definition set_previous x := mkNominationState (mRoundNumber n) (mVotes n) (mAccepted n)
  (mCandidates n) (mLatestNominations n) (mLastNomination n) (mRoundLeaders n)
  (mNominationStarted n) (mLatestCompositeCandidate n) x.
End NominationFields.

(** ** The monad *)

(** Why a run stops.  [OutOfFuel] is not an event of the program: it marks a
    loop that needed more rounds than the model gives it. *)
Inductive stop := Thrown (e : exn) | NullDereference | OutOfFuel.
Inductive run (A : Type) := Done (a : A) (s : Slot) | Stopped (x : stop).
Arguments Done {A} a s.
Arguments Stopped {A} x.

Definition SlotM (A : Type) : Type := Slot -> run A.
#[export] Instance SlotM_ret : MRet SlotM := fun A a s => Done a s.
#[export] Instance SlotM_bind : MBind SlotM := fun A B f m s =>
  match m s with Done a s' => f a s' | Stopped x => Stopped x end.

Definition gets {A} (f : Slot -> A) : SlotM A := fun s => Done (f s) s.
Definition modifies (f : Slot -> Slot) : SlotM unit := fun s => Done tt (f s).
Definition stops {A} (x : stop) : SlotM A := fun _ => Stopped x.
Definition throws {A} (what : string) : SlotM A := stops (Thrown (RuntimeError what)).
(** [*p] *)
Definition deref {A} (p : option A) : SlotM A :=
  match p with Some a => mret a | None => stops NullDereference end.
Definition assign (f : BallotState -> BallotState) : SlotM unit := modifies (on_ballots f).
Definition getb {A} (f : BallotState -> A) : SlotM A := gets (fun s => f (ballots s)).
Definition assignN (f : NominationState -> NominationState) : SlotM unit :=
  modifies (on_nomination f).
Definition getn {A} (f : NominationState -> A) : SlotM A := gets (fun s => f (nomination s)).
Definition tell (c : DriverCall) : SlotM unit := modifies (add_call c).
Definition when (b : bool) (m : SlotM unit) : SlotM unit := if b then m else mret tt.
(** [std::make_shared] *)
Definition make_shared {A} (a : A) : SlotM (nat * A) :=
  n ← gets allocations; _ ← modifies (set_allocations (S n)); mret (n, a).

(** ** The driver and the local node *)
Inductive ValidationLevel := kInvalidValue | kFullyValidatedValue | kMaybeValidValue.
#[export] Instance ValidationLevel_eq_dec : EqDecision ValidationLevel.
Proof. solve_decision. Defined.
Inductive EnvelopeState := INVALID | VALID.
#[export] Instance EnvelopeState_eq_dec : EqDecision EnvelopeState.
Proof. solve_decision. Defined.

Class SCPDriver := {
  getQSet : Hash -> option SCPQuorumSet;
  validateValue : Z -> Value -> bool -> ValidationLevel;
  extractValidValue : Z -> Value -> Value;
  signEnvelope : SCPStatement -> Z;
  computeHashNode : Z -> Value -> bool -> Z -> NodeID -> Z;
  computeValueHash : Z -> Value -> Z -> Value -> Z;
  combineCandidates : Z -> list Value -> Value }.

Record LocalNode := mkLocalNode {
  mNodeID : NodeID;
  mIsValidator : bool;
  mQSet : SCPQuorumSet;
  mQSetHash : Hash }.

(** [SCPDriver::computeTimeout], in milliseconds. *)
Definition MAX_TIMEOUT_SECONDS : Z := 30 * 60.
Definition computeTimeout (roundNumber : Z) : Z :=
  let timeoutInSeconds :=
    if MAX_TIMEOUT_SECONDS <? roundNumber then MAX_TIMEOUT_SECONDS else roundNumber in
  timeoutInSeconds * 1000.

(** ** What a slot offers its two protocols ([src/src/scp/Slot.cpp]) *)
Section Slots.
Context `{D : SCPDriver} (L : LocalNode) (mSlotIndex : Z).

Definition isFullyValidated : SlotM bool := gets mFullyValidated.
Definition setFullyValidated (v : bool) : SlotM unit := modifies (set_validated v).
Definition recordStatement (st : SCPStatement) : SlotM unit :=
  modifies (fun s => set_history (mStatementsHistory s ++ [(st, mFullyValidated s)]) s).

Definition createEnvelope (pl : Pledges) : SlotM SCPEnvelope :=
  let st := mkStatement (mNodeID L) mSlotIndex pl in
  let envelope := mkEnvelope st (signEnvelope st) in
  _ ← tell (SignEnvelope envelope); mret envelope.

Definition getQuorumSetFromStatement (st : SCPStatement) : option SCPQuorumSet :=
  match pledges st with
  | EXTERNALIZE _ => Some (buildSingletonQSet (nodeID st))
  | PREPARE p => getQSet (prep_quorumSetHash p)
  | CONFIRM c => getQSet (con_quorumSetHash c)
  | NOMINATE n => getQSet (nom_quorumSetHash n)
  end.

(** [LocalNode::isQuorum] on the local quorum set; the search for a quorum
    always ends ([ScpRefinement.isQuorum_ends]). *)
Definition isLocalQuorum (envs : gmap NodeID SCPEnvelope) (filter : SCPStatement -> bool) : bool :=
  default false (isQuorum getQuorumSetFromStatement filter (mQSet L) (statement <$> envs)).
Definition isLocalVBlocking (envs : gmap NodeID SCPEnvelope) (filter : SCPStatement -> bool)
    : bool :=
  isVBlockingFiltered filter (mQSet L) (statement <$> envs).

Definition federatedAccept (voted accepted : SCPStatement -> bool)
    (envs : gmap NodeID SCPEnvelope) : bool :=
  if isLocalVBlocking envs accepted then true
  else isLocalQuorum envs (fun st => accepted st || voted st).
Definition federatedRatify (voted : SCPStatement -> bool) (envs : gmap NodeID SCPEnvelope) : bool :=
  isLocalQuorum envs voted.

Definition stopNomination : SlotM unit := assignN (fun n => set_started n false).
Definition getLatestCompositeCandidate : SlotM Value := getn mLatestCompositeCandidate.
End Slots.
