(* ===== verification/BallotProtocol.v ===== *)
(** The ballot protocol: [src/src/scp/BallotProtocol.cpp].

    [emitCurrentStateStatement] feeds the node's own statement back to
    [processEnvelope], which may emit again: the functions between the two
    take [emit], and a fixpoint closes the circle.  The code bounds the nesting
    by [MAX_ADVANCE_SLOT_RECURSION] and throws beyond; fuel of that number is
    never exhausted.

    [dbgAssert] does nothing if [NDEBUG] is defined. *)

From S2P Require Import Prelude Types Sorting Quorums Ballots SlotState.

Definition MAX_ADVANCE_SLOT_RECURSION : Z := 50.

(** [do { c = body(); work = c || work; } while (c)], at most [2 ^ k] rounds. *)
Fixpoint repeatWhile (k : nat) (body : SlotM bool) (work : bool) : SlotM (bool * bool) :=
  match k with
  | O => c ← body; mret (c, c || work)
  | S k =>
      r ← repeatWhile k body work;
      let '(c, work) := r in
      if c : bool then repeatWhile k body work else mret (c, work)
  end.
(** More rounds than there are counters, in each of three phases. *)
Definition doWhile (body : SlotM bool) (work : bool) : SlotM bool :=
  r ← repeatWhile 34 body work;
  let '(c, work) := r in if c : bool then stops OutOfFuel else mret work.

Section BallotProtocol.
Context `{D : SCPDriver} (NDEBUG : bool) (L : LocalNode) (mSlotIndex : Z).

Definition dbgAssert (m : SlotM bool) : SlotM unit :=
  if NDEBUG then mret tt
  else c ← m; if c : bool then mret tt else stops (Thrown (AssertFailure "dbgAssert")).

Definition latestStatements : SlotM (list SCPStatement) :=
  getb (fun b => List.map (fun e => statement e.2) (in_key_order (mLatestEnvelopes b))).
Definition votingPhase : SlotM bool :=
  getb (fun b => negb (bool_decide (mPhase b = SCP_PHASE_EXTERNALIZE))).

Definition recordEnvelope (env : SCPEnvelope) : SlotM unit :=
  _ ← assign (fun b => set_latest b (<[nodeID (statement env) := env]> (mLatestEnvelopes b)));
  recordStatement (statement env).

Definition isNewerFrom (n : NodeID) (st : SCPStatement) : SlotM bool :=
  getb (fun b =>
    match mLatestEnvelopes b !! n with
    | None => true
    | Some old => isNewerStatement (statement old) st
    end).

Definition isStatementSane (st : SCPStatement) (self : bool) : bool :=
  match getQuorumSetFromStatement st with
  | Some qSet => isQuorumSetSane qSet false && arePledgesSane (pledges st) self
  | None => false
  end.

(** The values of a statement that are validated, in the order of the set. *)
Definition valuesToValidate (st : SCPStatement) : list Value :=
  set_of valueLt
    match pledges st with
    | PREPARE prep =>
        (if negb (counter (prep_ballot prep) =? 0) then [value (prep_ballot prep)] else [])
        ++ match prep_prepared prep with Some p => [value p] | None => [] end
    | CONFIRM con => [value (con_ballot con)]
    | EXTERNALIZE ext => [value (ext_commit ext)]
    | NOMINATE _ => []
    end.
Definition validateValues (st : SCPStatement) : ValidationLevel :=
  fold_left
    (fun res v =>
       match validateValue mSlotIndex v false with
       | kFullyValidatedValue => res
       | kInvalidValue => kInvalidValue
       | kMaybeValidValue => kMaybeValidValue
       end)
    (valuesToValidate st) kFullyValidatedValue.

Definition checkInvariants : SlotM unit :=
  if NDEBUG then mret tt
  else
    b ← getb id;
    _ ← dbgAssert (mret match mCurrentBallot b with Some cur => negb (counter cur =? 0) | None => true end);
    _ ← dbgAssert (mret match mPrepared b, mPreparedPrime b with
                        | Some p, Some p' => areBallotsLessAndIncompatible p' p
                        | _, _ => true
                        end);
    _ ← match mHighBallot b with
        | Some h => dbgAssert (mret (and_ptr (mCurrentBallot b) (areBallotsLessAndCompatible h)))
        | None => mret tt
        end;
    _ ← match mCommit b with
        | Some c =>
            _ ← dbgAssert (mret (bool_decide (is_Some (mCurrentBallot b))));
            h ← deref (mHighBallot b);
            _ ← dbgAssert (mret (areBallotsLessAndCompatible c h));
            cur ← deref (mCurrentBallot b);
            dbgAssert (mret (areBallotsLessAndCompatible h cur))
        | None => mret tt
        end;
    match mPhase b with
    | SCP_PHASE_PREPARE => mret tt
    | SCP_PHASE_CONFIRM => dbgAssert (mret (bool_decide (is_Some (mCommit b))))
    | SCP_PHASE_EXTERNALIZE =>
        _ ← dbgAssert (mret (bool_decide (is_Some (mCommit b))));
        dbgAssert (mret (bool_decide (is_Some (mHighBallot b))))
    end.

Definition createStatement (t : SCPPhase) : SlotM Pledges :=
  _ ← checkInvariants;
  b ← getb id;
  match t with
  | SCP_PHASE_PREPARE =>
      mret (PREPARE (mkPrepare (mQSetHash L) (default (mkBallot 0 []) (mCurrentBallot b))
                       (mPrepared b) (mPreparedPrime b)
                       (from_option counter 0 (mCommit b)) (from_option counter 0 (mHighBallot b))))
  | SCP_PHASE_CONFIRM =>
      cur ← deref (mCurrentBallot b);
      p ← deref (mPrepared b);
      c ← deref (mCommit b);
      h ← deref (mHighBallot b);
      mret (CONFIRM (mkConfirm cur (counter p) (counter c) (counter h) (mQSetHash L)))
  | SCP_PHASE_EXTERNALIZE =>
      c ← deref (mCommit b);
      h ← deref (mHighBallot b);
      mret (EXTERNALIZE (mkExternalize c (counter h) (mQSetHash L)))
  end.

Definition sendLatestEnvelope : SlotM unit :=
  b ← getb id;
  fullyValidated ← isFullyValidated;
  match mLastEnvelope b with
  | Some (p, e) =>
      when ((mCurrentMessageLevel b =? 0) && fullyValidated
            && match mLastEnvelopeEmit b with Some (p', _) => negb (Nat.eqb p p') | None => true end)
        (_ ← assign (fun b => set_emit b (mLastEnvelope b)); tell (EmitEnvelope e))
  | None => mret tt
  end.

(** ** Timers *)
Definition startBallotProtocolTimer : SlotM unit :=
  cur ← getb mCurrentBallot; cur ← deref cur;
  tell (SetupTimer BALLOT_PROTOCOL_TIMER (computeTimeout (counter cur)) true).
Definition stopBallotProtocolTimer : SlotM unit :=
  tell (SetupTimer BALLOT_PROTOCOL_TIMER 0 false).

Definition checkHeardFromQuorum : SlotM unit :=
  b ← getb id;
  match mCurrentBallot b with
  | None => mret tt
  | Some cur =>
      if isLocalQuorum L (mLatestEnvelopes b) (isAtCounter (counter cur)) then
        let oldHQ := mHeardFromQuorum b in
        _ ← assign (fun b => set_heard b true);
        _ ← when (negb oldHQ)
              (_ ← tell (BallotDidHearFromQuorum cur);
               voting ← votingPhase; when voting startBallotProtocolTimer);
        voting ← votingPhase;
        when (negb voting) stopBallotProtocolTimer
      else
        _ ← assign (fun b => set_heard b false); stopBallotProtocolTimer
  end.

(** ** Moving to a ballot *)
Definition bumpToBallot (ballot : SCPBallot) (check : bool) : SlotM unit :=
  _ ← dbgAssert votingPhase;
  _ ← dbgAssert (cur ← getb mCurrentBallot;
                 mret (negb check || match cur with
                                     | Some cur => 0 <=? compareBallots ballot cur
                                     | None => true
                                     end));
  b ← getb id;
  let gotBumped :=
    match mCurrentBallot b with Some cur => negb (counter cur =? counter ballot) | None => true end in
  _ ← when (bool_decide (mCurrentBallot b = None)) (tell (StartedBallotProtocol ballot));
  _ ← assign (fun b => set_current b (Some ballot));
  _ ← when (and_ptr (mHighBallot b) (fun h => negb (areBallotsCompatible ballot h)))
        (assign (fun b => set_high b None));
  when gotBumped (assign (fun b => set_heard b false)).

Definition updateCurrentIfNeeded (h : SCPBallot) : SlotM bool :=
  cur ← getb mCurrentBallot;
  if match cur with Some cur => compareBallots cur h <? 0 | None => true end
  then _ ← bumpToBallot h true; mret true
  else mret false.

Definition updateCurrentValue (ballot : SCPBallot) : SlotM bool :=
  voting ← votingPhase;
  if negb voting then mret false
  else
    b ← getb id;
    match mCurrentBallot b with
    | None => _ ← bumpToBallot ballot true; _ ← checkInvariants; mret true
    | Some cur =>
        _ ← dbgAssert (mret (compareBallots cur ballot <=? 0));
        if and_ptr (mCommit b) (fun c => negb (areBallotsCompatible c ballot)) then mret false
        else
          let comp := compareBallots cur ballot in
          if comp <? 0 then
            _ ← bumpToBallot ballot true; _ ← checkInvariants; mret true
          else if 0 <? comp then mret false
          else _ ← checkInvariants; mret false
    end.

Definition setPrepared (ballot : SCPBallot) : SlotM bool :=
  b ← getb id;
  match mPrepared b with
  | Some p =>
      let comp := compareBallots p ballot in
      if comp <? 0 then
        _ ← when (negb (areBallotsCompatible p ballot))
              (assign (fun b => set_preparedPrime b (Some p)));
        _ ← assign (fun b => set_prepared b (Some ballot)); mret true
      else if (0 <? comp) && match mPreparedPrime b with
                             | Some p' => compareBallots p' ballot <? 0
                             | None => true
                             end
      then _ ← assign (fun b => set_preparedPrime b (Some ballot)); mret true
      else mret false
  | None => _ ← assign (fun b => set_prepared b (Some ballot)); mret true
  end.

Section Emit.
Context (emit : SlotM unit).

Definition bumpStateTo (v : Value) (n : Z) : SlotM bool :=
  voting ← votingPhase;
  if negb voting then mret false
  else
    b ← getb id;
    updated ← updateCurrentValue (mkBallot n (default v (mValueOverride b)));
    _ ← when updated (_ ← emit; checkHeardFromQuorum);
    mret updated.
Definition bumpState (v : Value) (force : bool) : SlotM bool :=
  cur ← getb mCurrentBallot;
  if negb force && bool_decide (is_Some cur) then mret false
  else bumpStateTo v match cur with Some cur => u32 (counter cur + 1) | None => 1 end.
Definition abandonBallot (n : Z) : SlotM bool :=
  v ← getLatestCompositeCandidate;
  cur ← getb mCurrentBallot;
  let v := match v, cur with [], Some cur => value cur | _, _ => v end in
  match v with
  | [] => mret false
  | _ => if n =? 0 then bumpState v true else bumpStateTo v n
  end.

(** ** Accepting a ballot as prepared *)
Definition setPreparedAccept (ballot : SCPBallot) : SlotM bool :=
  didWork ← setPrepared ballot;
  b ← getb id;
  let clearC :=
    bool_decide (is_Some (mCommit b))
    && and_ptr (mHighBallot b) (fun h =>
         and_ptr (mPrepared b) (areBallotsLessAndIncompatible h)
         || and_ptr (mPreparedPrime b) (areBallotsLessAndIncompatible h)) in
  _ ← when clearC
        (_ ← dbgAssert (mret (bool_decide (mPhase b = SCP_PHASE_PREPARE)));
         assign (fun b => set_commit b None));
  let didWork := clearC || didWork in
  _ ← when didWork (_ ← tell (AcceptedBallotPrepared ballot); emit);
  mret didWork.

(** The loop over the candidates, highest first. *)
Fixpoint acceptPrepared (candidates : list SCPBallot) : SlotM bool :=
  match candidates with
  | [] => mret false
  | ballot :: rest =>
      b ← getb id;
      raisesP ←
        (if bool_decide (mPhase b = SCP_PHASE_CONFIRM) then
           p ← deref (mPrepared b);
           if areBallotsLessAndCompatible p ballot then
             _ ← dbgAssert (c ← deref (mCommit b); mret (areBallotsCompatible c ballot)); mret true
           else mret false
         else mret true);
      if negb raisesP
         || and_ptr (mPreparedPrime b) (fun p' => compareBallots ballot p' <=? 0)
         || and_ptr (mPrepared b) (fun p => areBallotsLessAndCompatible ballot p)
      then acceptPrepared rest
      else if federatedAccept L (votesPrepare ballot) (hasPreparedBallot ballot) (mLatestEnvelopes b)
      then setPreparedAccept ballot
      else acceptPrepared rest
  end.
Definition attemptPreparedAccept (hint : SCPStatement) : SlotM bool :=
  voting ← votingPhase;
  if negb voting then mret false
  else
    latest ← latestStatements;
    acceptPrepared (rev (prepareCandidates (pledges hint) latest)).

(** ** Confirming a ballot as prepared *)
Definition setPreparedConfirmed (newC newH : SCPBallot) : SlotM bool :=
  _ ← assign (fun b => set_override b (Some (value newH)));
  b ← getb id;
  didWork ←
    (if match mCurrentBallot b with Some cur => areBallotsCompatible cur newH | None => true end then
       let raisesH :=
         match mHighBallot b with Some h => 0 <? compareBallots newH h | None => true end in
       _ ← when raisesH (assign (fun b => set_high b (Some newH)));
       let setsC := negb (counter newC =? 0) in
       _ ← when setsC
             (_ ← dbgAssert (c ← getb mCommit; mret (bool_decide (c = None)));
              assign (fun b => set_commit b (Some newC)));
       _ ← when (setsC || raisesH) (tell (ConfirmedBallotPrepared newH));
       mret (setsC || raisesH)
     else mret false);
  updated ← updateCurrentIfNeeded newH;
  let didWork := updated || didWork in
  _ ← when didWork emit;
  mret didWork.

(** The first loop: the candidates from the new [h] on. *)
Fixpoint findNewH (high : option SCPBallot) (ratified : SCPBallot -> bool)
    (candidates : list SCPBallot) : option (SCPBallot * list SCPBallot) :=
  match candidates with
  | [] => None
  | ballot :: rest =>
      if and_ptr high (fun h => 0 <=? compareBallots h ballot) then None
      else if ratified ballot then Some (ballot, candidates)
      else findNewH high ratified rest
  end.
(** The second loop, which continues where the first one stopped. *)
Fixpoint findNewC (b newH : SCPBallot) (ratified : SCPBallot -> bool) (newC : SCPBallot)
    (candidates : list SCPBallot) : SCPBallot :=
  match candidates with
  | [] => newC
  | ballot :: rest =>
      if compareBallots ballot b <? 0 then newC
      else if negb (areBallotsLessAndCompatible ballot newH) then
        findNewC b newH ratified newC rest
      else if ratified ballot then findNewC b newH ratified ballot rest
      else newC
  end.
Definition attemptPreparedConfirmed (hint : SCPStatement) : SlotM bool :=
  b ← getb id;
  if negb (bool_decide (mPhase b = SCP_PHASE_PREPARE)) then mret false
  else if negb (bool_decide (is_Some (mPrepared b))) then mret false
  else
    latest ← latestStatements;
    let ratified ballot := federatedRatify L (hasPreparedBallot ballot) (mLatestEnvelopes b) in
    match findNewH (mHighBallot b) ratified (rev (prepareCandidates (pledges hint) latest)) with
    | None => mret false
    | Some (newH, candidates) =>
        let cur := default (mkBallot 0 []) (mCurrentBallot b) in
        let newC :=
          if bool_decide (mCommit b = None)
             && negb (and_ptr (mPrepared b) (areBallotsLessAndIncompatible newH))
             && negb (and_ptr (mPreparedPrime b) (areBallotsLessAndIncompatible newH))
          then findNewC cur newH ratified (mkBallot 0 []) candidates
          else mkBallot 0 [] in
        setPreparedConfirmed newC newH
    end.

(** ** Accepting a commit *)
Definition setAcceptCommit (c h : SCPBallot) : SlotM bool :=
  _ ← assign (fun b => set_override b (Some (value h)));
  b ← getb id;
  let changes :=
    negb (and_ptr (mHighBallot b) (fun h0 => compareBallots h0 h =? 0)
          && and_ptr (mCommit b) (fun c0 => compareBallots c0 c =? 0)) in
  _ ← when changes (assign (fun b => set_high (set_commit b (Some c)) (Some h)));
  let preparing := bool_decide (mPhase b = SCP_PHASE_PREPARE) in
  _ ← when preparing
        (_ ← assign (fun b => set_phase b SCP_PHASE_CONFIRM);
         _ ← when (and_ptr (mCurrentBallot b) (fun cur => negb (areBallotsLessAndCompatible h cur)))
               (bumpToBallot h false);
         assign (fun b => set_preparedPrime b None));
  let didWork := preparing || changes in
  _ ← when didWork
        (high ← getb mHighBallot; high ← deref high;
         _ ← updateCurrentIfNeeded high;
         _ ← tell (AcceptedCommit h);
         emit);
  mret didWork.

Definition attemptAcceptCommit (hint : SCPStatement) : SlotM bool :=
  voting ← votingPhase;
  if negb voting then mret false
  else
    match hintCommit (pledges hint) with
    | None => mret false
    | Some ballot =>
        b ← getb id;
        let confirming := bool_decide (mPhase b = SCP_PHASE_CONFIRM) in
        compatible ←
          (if confirming : bool then h ← deref (mHighBallot b); mret (areBallotsCompatible ballot h)
           else mret true);
        if negb compatible then mret false
        else
          latest ← latestStatements;
          let pred cur :=
            federatedAccept L (votesCommit ballot cur) (commitPredicate ballot cur)
              (mLatestEnvelopes b) in
          let boundaries := allCommitBoundaries ballot latest in
          match boundaries with
          | [] => mret false
          | _ =>
              let candidate := findExtendedInterval (0, 0) boundaries pred in
              if candidate.1 =? 0 then mret false
              else
                raises ←
                  (if confirming : bool then
                     h ← deref (mHighBallot b); mret (counter h <? candidate.2)
                   else mret true);
                if raises : bool then
                  setAcceptCommit (mkBallot candidate.1 (value ballot))
                    (mkBallot candidate.2 (value ballot))
                else mret false
          end
    end.

(** ** Confirming a commit *)
Definition setConfirmCommit (c h : SCPBallot) : SlotM bool :=
  _ ← assign (fun b => set_high (set_commit b (Some c)) (Some h));
  _ ← updateCurrentIfNeeded h;
  _ ← assign (fun b => set_phase b SCP_PHASE_EXTERNALIZE);
  _ ← emit;
  _ ← stopNomination;
  commit ← getb mCommit; commit ← deref commit;
  _ ← tell (ValueExternalized (value commit));
  mret true.

Definition attemptConfirmCommit (hint : SCPStatement) : SlotM bool :=
  b ← getb id;
  if negb (bool_decide (mPhase b = SCP_PHASE_CONFIRM)) then mret false
  else
    match mHighBallot b, mCommit b, hintConfirm (pledges hint) with
    | Some _, Some commit, Some ballot =>
        if negb (areBallotsCompatible ballot commit) then mret false
        else
          latest ← latestStatements;
          let pred cur :=
            federatedRatify L (commitPredicate ballot cur) (mLatestEnvelopes b) in
          let candidate :=
            findExtendedInterval (0, 0) (allCommitBoundaries ballot latest) pred in
          if candidate.1 =? 0 then mret false
          else setConfirmCommit (mkBallot candidate.1 (value ballot))
                 (mkBallot candidate.2 (value ballot))
    | _, _, _ => mret false
    end.

(** ** Catching up with the counters of other nodes *)

(** The loop over the counters, lowest first: the counter to move to. *)
Fixpoint findTarget (target : Z) (vBlocking : Z -> bool) (counters : list Z) : option Z :=
  match counters with
  | [] => None
  | n :: rest =>
      if n <? target then None
      else if n =? target then
        if negb (vBlocking n) then None else findTarget target vBlocking rest
      else if negb (vBlocking n) then Some n
      else findTarget target vBlocking rest
  end.
Definition attemptBump : SlotM bool :=
  voting ← votingPhase;
  if negb voting then mret false
  else
    b ← getb id;
    latest ← latestStatements;
    let target := from_option counter 0 (mCurrentBallot b) in
    let allCounters := set_insert Z.ltb target (set_of Z.ltb (List.map statementCounter latest)) in
    match findTarget target (fun n => isLocalVBlocking L (mLatestEnvelopes b) (isAboveCounter n))
            allCounters with
    | Some n => abandonBallot n
    | None => mret false
    end.

(** ** Processing an envelope *)
Definition advanceSlot (hint : SCPStatement) : SlotM unit :=
  _ ← assign (fun b => set_level b (mCurrentMessageLevel b + 1));
  level ← getb mCurrentMessageLevel;
  if MAX_ADVANCE_SLOT_RECURSION <=? level then
    throws "maximum number of transitions reached in advanceSlot"
  else
    didWork ← attemptPreparedAccept hint;
    work ← attemptPreparedConfirmed hint;
    let didWork := work || didWork in
    work ← attemptAcceptCommit hint;
    let didWork := work || didWork in
    work ← attemptConfirmCommit hint;
    let didWork := work || didWork in
    didWork ←
      (if level =? 1 then
         didWork ← doWhile attemptBump didWork; _ ← checkHeardFromQuorum; mret didWork
       else mret didWork);
    _ ← assign (fun b => set_level b (mCurrentMessageLevel b - 1));
    when didWork sendLatestEnvelope.

Definition processEnvelopeWith (envelope : SCPEnvelope) (self : bool) : SlotM EnvelopeState :=
  let st := statement envelope in
  _ ← dbgAssert (mret (slotIndex st =? mSlotIndex));
  if negb (isStatementSane st self) then mret INVALID
  else
    newer ← isNewerFrom (nodeID st) st;
    if negb newer then mret INVALID
    else
      let validationRes := validateValues st in
      if bool_decide (validationRes = kInvalidValue) then mret INVALID
      else
        b ← getb id;
        if negb (bool_decide (mPhase b = SCP_PHASE_EXTERNALIZE)) then
          _ ← when (bool_decide (validationRes = kMaybeValidValue)) (setFullyValidated false);
          _ ← recordEnvelope envelope;
          _ ← advanceSlot st;
          mret VALID
        else
          commit ← deref (mCommit b);
          if bool_decide (value commit = value (getWorkingBallot st)) then
            _ ← recordEnvelope envelope; mret VALID
          else mret INVALID.
End Emit.

(** ** Emitting the node's own statement *)
Definition emitBody (process : SCPEnvelope -> bool -> SlotM EnvelopeState) : SlotM unit :=
  t ← getb mPhase;
  pl ← createStatement t;
  envelope ← createEnvelope L mSlotIndex pl;
  b ← getb id;
  let canEmit := bool_decide (is_Some (mCurrentBallot b)) in
  if bool_decide (mLatestEnvelopes b !! mNodeID L = Some envelope) then mret tt
  else
    r ← process envelope true;
    match r with
    | VALID =>
        last ← getb mLastEnvelope;
        when (canEmit && match last with
                         | Some (_, e) => isNewerStatement (statement e) (statement envelope)
                         | None => true
                         end)
          (p ← make_shared envelope;
           _ ← assign (fun b => set_last b (Some p));
           sendLatestEnvelope)
    | INVALID => throws "moved to a bad state (ballot protocol)"
    end.
Fixpoint emitCurrentStateStatement (fuel : nat) : SlotM unit :=
  match fuel with
  | O => stops OutOfFuel
  | S fuel => emitBody (processEnvelopeWith (emitCurrentStateStatement fuel))
  end.

(** ** The operations, closed *)
Definition emitting : SlotM unit :=
  emitCurrentStateStatement (Z.to_nat MAX_ADVANCE_SLOT_RECURSION).
Definition ballot_processEnvelope (envelope : SCPEnvelope) (self : bool) : SlotM EnvelopeState :=
  processEnvelopeWith emitting envelope self.
Definition ballot_bumpState (v : Value) (force : bool) : SlotM bool := bumpState emitting v force.
Definition ballot_abandonBallot (n : Z) : SlotM bool := abandonBallot emitting n.
Definition ballotProtocolTimerExpired : SlotM unit := _ ← ballot_abandonBallot 0; mret tt.

(** Restoring the state from the last envelope sent, after a restart. *)
Definition ballot_setStateFromEnvelope (e : SCPEnvelope) : SlotM unit :=
  cur ← getb mCurrentBallot;
  if bool_decide (is_Some cur) then throws "Cannot set state after starting ballot protocol"
  else
    _ ← recordEnvelope e;
    p ← make_shared e;
    _ ← assign (fun b => set_emit (set_last b (Some p)) (Some p));
    match pledges (statement e) with
    | PREPARE prep =>
        let v := value (prep_ballot prep) in
        _ ← bumpToBallot (prep_ballot prep) true;
        _ ← when (bool_decide (is_Some (prep_prepared prep)))
              (assign (fun b => set_prepared b (prep_prepared prep)));
        _ ← when (bool_decide (is_Some (prep_preparedPrime prep)))
              (assign (fun b => set_preparedPrime b (prep_preparedPrime prep)));
        _ ← when (negb (prep_nH prep =? 0))
              (assign (fun b => set_high b (Some (mkBallot (prep_nH prep) v))));
        _ ← when (negb (prep_nC prep =? 0))
              (assign (fun b => set_commit b (Some (mkBallot (prep_nC prep) v))));
        assign (fun b => set_phase b SCP_PHASE_PREPARE)
    | CONFIRM c =>
        let v := value (con_ballot c) in
        _ ← bumpToBallot (con_ballot c) true;
        _ ← assign (fun b => set_prepared b (Some (mkBallot (con_nPrepared c) v)));
        _ ← assign (fun b => set_high b (Some (mkBallot (con_nH c) v)));
        _ ← assign (fun b => set_commit b (Some (mkBallot (con_nCommit c) v)));
        assign (fun b => set_phase b SCP_PHASE_CONFIRM)
    | EXTERNALIZE ext =>
        let v := value (ext_commit ext) in
        _ ← bumpToBallot (mkBallot UINT32_MAX v) true;
        _ ← assign (fun b => set_prepared b (Some (mkBallot UINT32_MAX v)));
        _ ← assign (fun b => set_high b (Some (mkBallot (ext_nH ext) v)));
        _ ← assign (fun b => set_commit b (Some (ext_commit ext)));
        assign (fun b => set_phase b SCP_PHASE_EXTERNALIZE)
    | NOMINATE _ => mret tt
    end.

(** ** What other nodes are told *)
Definition ballot_getCurrentState : SlotM (list SCPEnvelope) :=
  s ← gets id;
  mret (List.map snd (List.filter (fun n => negb (n.1 =? mNodeID L) || mFullyValidated s)
                        (in_key_order (mLatestEnvelopes (ballots s))))).
Definition ballot_getExternalizingState : SlotM (list SCPEnvelope) :=
  s ← gets id;
  if bool_decide (mPhase (ballots s) = SCP_PHASE_EXTERNALIZE) then
    commit ← deref (mCommit (ballots s));
    mret (List.map snd (List.filter
      (fun n => if negb (n.1 =? mNodeID L)
                then areBallotsCompatible (getWorkingBallot (statement n.2)) commit
                else mFullyValidated s)
      (in_key_order (mLatestEnvelopes (ballots s)))))
  else mret [].
End BallotProtocol.
