(* ===== verification/Nomination.v ===== *)
(** The nomination protocol, [src/src/scp/NominationProtocol.cpp], and the slots that
    join it to the ballot protocol, [Slot.cpp] and [SCP.cpp].

    As in the ballot protocol, [emitNomination] feeds the node's own statement
    back to [processEnvelope], which may emit again; here nothing but the
    growth of the sets of votes and accepted values bounds the nesting, and
    the fuel counts the values they can grow by. *)

From S2P Require Import Prelude Types Sorting Quorums Ballots SlotState BallotProtocol.

(** [std::includes(v.begin(), v.end(), p.begin(), p.end())] *)
Fixpoint includes (v p : list Value) : bool :=
  match p, v with
  | [], _ => true
  | _, [] => false
  | y :: p', x :: v =>
      if valueLt y x then false
      else if negb (valueLt x y) then includes v p' else includes v p
  end.
(** The result and [notEqual]. *)
Definition isSubsetHelper (p v : list Value) : bool * bool :=
  if Nat.leb (length p) (length v) then
    let res := includes v p in
    (res, if res then negb (Nat.eqb (length p) (length v)) else true)
  else (false, true).
Definition isNewerNomination (oldst st : SCPNomination) : bool :=
  let '(subset, grows) := isSubsetHelper (nom_votes oldst) (nom_votes st) in
  if subset then
    let '(subset, g) := isSubsetHelper (nom_accepted oldst) (nom_accepted st) in
    if subset then grows || g else false
  else false.

(** [adjacent_find(.., !(l < r)) == end()] *)
Fixpoint strictlySorted (vs : list Value) : bool :=
  match vs with
  | l :: (r :: _) as rest => valueLt l r && strictlySorted rest
  | _ => true
  end.
Definition isSaneNomination (nom : SCPNomination) : bool :=
  negb (Nat.eqb (length (nom_votes nom) + length (nom_accepted nom)) 0)
  && strictlySorted (nom_votes nom) && strictlySorted (nom_accepted nom).

(** [pledges.nominate()]: the protocol keeps nominations only. *)
Definition nominate_of (st : SCPStatement) : SCPNomination :=
  match pledges st with NOMINATE n => n | _ => mkNomination 0 [] [] end.
Definition finds (v : Value) (vs : list Value) : bool := existsb (fun w => bool_decide (w = v)) vs.
Definition acceptPredicate (v : Value) (st : SCPStatement) : bool :=
  finds v (nom_accepted (nominate_of st)).
Definition votePredicate (v : Value) (st : SCPStatement) : bool :=
  finds v (nom_votes (nominate_of st)).

(** [applyAll]: the values in the order in which they are processed. *)
Definition nominationValues (nom : SCPNomination) : list Value :=
  nom_votes nom ++ nom_accepted nom.

Section Nomination.
Context `{D : SCPDriver} (NDEBUG : bool) (L : LocalNode) (mSlotIndex : Z).

Definition recordNomination (env : SCPEnvelope) : SlotM unit :=
  _ ← assignN (fun n => set_nominations n (<[nodeID (statement env) := env]> (mLatestNominations n)));
  recordStatement (statement env).
Definition isNewerNominationFrom (node : NodeID) (nom : SCPNomination) : SlotM bool :=
  getn (fun n =>
    match mLatestNominations n !! node with
    | None => true
    | Some old => isNewerNomination (nominate_of (statement old)) nom
    end).

(** ** Leaders *)
Definition hashNode (isPriority : bool) (node : NodeID) : SlotM Z :=
  n ← getn id;
  _ ← dbgAssert NDEBUG (mret (negb (bool_decide (mPreviousValue n = []))));
  mret (computeHashNode mSlotIndex (mPreviousValue n) isPriority (mRoundNumber n) node).
Definition hashValue (v : Value) : SlotM Z :=
  n ← getn id;
  _ ← dbgAssert NDEBUG (mret (negb (bool_decide (mPreviousValue n = []))));
  mret (computeValueHash mSlotIndex (mPreviousValue n) (mRoundNumber n) v).
Definition getNodePriority (node : NodeID) (qset : SCPQuorumSet) : SlotM Z :=
  let w := if node =? mNodeID L then UINT64_MAX else getNodeWeight node qset in
  h ← hashNode false node;
  if h <? w then hashNode true node else mret 0.

Fixpoint electLeaders (qset : SCPQuorumSet) (nodes : list NodeID) (topPriority : Z) : SlotM unit :=
  match nodes with
  | [] => mret tt
  | cur :: nodes =>
      w ← getNodePriority cur qset;
      _ ← when (topPriority <? w) (assignN (fun n => set_leaders n []));
      let topPriority := if topPriority <? w then w else topPriority in
      _ ← when ((w =? topPriority) && (0 <? w))
            (assignN (fun n => set_leaders n (set_insert Z.ltb cur (mRoundLeaders n))));
      electLeaders qset nodes topPriority
  end.
Definition updateRoundLeaders : SlotM unit :=
  let localID := mNodeID L in
  let myQSet := normalizeQSet (Some localID) (mQSet L) in
  _ ← assignN (fun n => set_leaders n [localID]);
  topPriority ← getNodePriority localID myQSet;
  electLeaders myQSet (forAllNodes myQSet) topPriority.

(** ** The best new value of a leader *)
Definition valueToNominate (v : Value) : Value :=
  if bool_decide (validateValue mSlotIndex v true = kFullyValidatedValue) then v
  else extractValidValue mSlotIndex v.
Fixpoint bestNewValue (values : list Value) (newVote : Value) (newHash : Z) : SlotM Value :=
  match values with
  | [] => mret newVote
  | v :: values =>
      let v := valueToNominate v in
      votes ← getn mVotes;
      if negb (bool_decide (v = [])) && negb (set_has valueLt v votes) then
        curHash ← hashValue v;
        if newHash <=? curHash then bestNewValue values v curHash
        else bestNewValue values newVote newHash
      else bestNewValue values newVote newHash
  end.
Definition getNewValueFromNomination (nom : SCPNomination) : SlotM Value :=
  bestNewValue (nominationValues nom) [] 0.

(** ** Processing a nomination *)

(** [mVotes.emplace(v)]: was it new? *)
Definition addVote (v : Value) : SlotM bool :=
  votes ← getn mVotes;
  _ ← assignN (fun n => set_votes n (set_insert valueLt v (mVotes n)));
  mret (negb (set_has valueLt v votes)).

(** The loop that promotes votes to accepted values. *)
Fixpoint promoteVotes (votes : list Value) (modified : bool) : SlotM bool :=
  match votes with
  | [] => mret modified
  | v :: votes =>
      n ← getn id;
      if negb (set_has valueLt v (mAccepted n))
         && federatedAccept L (votePredicate v) (acceptPredicate v) (mLatestNominations n)
      then
        if bool_decide (validateValue mSlotIndex v true = kFullyValidatedValue) then
          _ ← assignN (fun n => set_accepted n (set_insert valueLt v (mAccepted n)));
          _ ← addVote v;
          promoteVotes votes true
        else
          let toVote := extractValidValue mSlotIndex v in
          if bool_decide (toVote = []) then promoteVotes votes modified
          else
            isNew ← addVote toVote;
            promoteVotes votes (isNew || modified)
      else promoteVotes votes modified
  end.
(** The loop that promotes accepted values to candidates. *)
Fixpoint promoteAccepted (accepted : list Value) (newCandidates : bool) : SlotM bool :=
  match accepted with
  | [] => mret newCandidates
  | a :: accepted =>
      n ← getn id;
      if negb (set_has valueLt a (mCandidates n))
         && federatedRatify L (acceptPredicate a) (mLatestNominations n)
      then
        _ ← assignN (fun n => set_candidates n (set_insert valueLt a (mCandidates n)));
        promoteAccepted accepted true
      else promoteAccepted accepted newCandidates
  end.

Definition takeLeaderVote (st : SCPStatement) (modified : bool) : SlotM bool :=
  n ← getn id;
  if bool_decide (mCandidates n = []) && set_has Z.ltb (nodeID st) (mRoundLeaders n) then
    newVote ← getNewValueFromNomination (nominate_of st);
    if bool_decide (newVote = []) then mret modified
    else _ ← addVote newVote; _ ← tell (NominatingValue newVote); mret true
  else mret modified.

Section Emit.
Context (emitNomination : SlotM unit).

Definition advanceNomination (st : SCPStatement) : SlotM unit :=
  modified ← promoteVotes (nom_votes (nominate_of st)) false;
  accepted ← getn mAccepted;
  newCandidates ← promoteAccepted accepted false;
  modified ← takeLeaderVote st modified;
  _ ← when modified emitNomination;
  when newCandidates
    (candidates ← getn mCandidates;
     _ ← assignN (fun n => set_composite n (combineCandidates mSlotIndex candidates));
     composite ← getLatestCompositeCandidate;
     _ ← tell (UpdatedCandidateValue composite);
     _ ← ballot_bumpState NDEBUG L mSlotIndex composite false;
     mret tt).
Definition processNominationWith (envelope : SCPEnvelope) : SlotM EnvelopeState :=
  let st := statement envelope in
  newer ← isNewerNominationFrom (nodeID st) (nominate_of st);
  if newer && isSaneNomination (nominate_of st) then
    _ ← recordNomination envelope;
    started ← getn mNominationStarted;
    _ ← when started (advanceNomination st);
    mret VALID
  else mret INVALID.
End Emit.

Definition emitNominationBody (process : SCPEnvelope -> SlotM EnvelopeState) : SlotM unit :=
  n ← getn id;
  let nom := mkNomination (mQSetHash L) (mVotes n) (mAccepted n) in
  envelope ← createEnvelope L mSlotIndex (NOMINATE nom);
  r ← process envelope;
  match r with
  | VALID =>
      last ← getn mLastNomination;
      when match last with
           | Some e => isNewerNomination (nominate_of (statement e)) nom
           | None => true
           end
        (_ ← assignN (fun n => set_lastNomination n (Some envelope));
         validated ← isFullyValidated;
         when validated (tell (EmitEnvelope envelope)))
  | INVALID => throws "moved to a bad state (nomination)"
  end.
Fixpoint emitNomination (fuel : nat) : SlotM unit :=
  match fuel with
  | O => stops OutOfFuel
  | S fuel => emitNominationBody (processNominationWith (emitNomination fuel))
  end.

(** Every emission has grown the votes or the accepted values, by values that
    some statement or vote mentions or by those extracted from them. *)
Definition mentionedValues (n : NominationState) : list Value :=
  mVotes n ++ mAccepted n
  ++ concat (List.map (fun e => nominationValues (nominate_of (statement e.2)))
               (map_to_list (mLatestNominations n))).
Definition emissions (n : NominationState) : nat := 4 * length (mentionedValues n) + 2.

Definition nomination_processEnvelope (envelope : SCPEnvelope) : SlotM EnvelopeState :=
  n ← getn id;
  processNominationWith
    (emitNomination (emissions n + 4 * length (nominationValues (nominate_of (statement envelope)))))
    envelope.

(** ** Nominating *)

(** The loop over the leaders that are not this node. *)
Fixpoint takeLeaderVotes (leaders : list NodeID) (nominatingValue : Value) (updated : bool)
    : SlotM (Value * bool) :=
  match leaders with
  | [] => mret (nominatingValue, updated)
  | leader :: leaders =>
      nominations ← getn mLatestNominations;
      match nominations !! leader with
      | None => takeLeaderVotes leaders nominatingValue updated
      | Some e =>
          v ← getNewValueFromNomination (nominate_of (statement e));
          if bool_decide (v = []) then takeLeaderVotes leaders v updated
          else _ ← addVote v; takeLeaderVotes leaders v true
      end
  end.
Definition nomination_nominate (v previousValue : Value) (timedout : bool) : SlotM bool :=
  started ← getn mNominationStarted;
  if timedout && negb started then mret false
  else
    _ ← assignN (fun n => set_previous (set_started n true) previousValue);
    _ ← assignN (fun n => set_round n (s32 (mRoundNumber n + 1)));
    _ ← updateRoundLeaders;
    leaders ← getn mRoundLeaders;
    r ← (if set_has Z.ltb (mNodeID L) leaders then
           isNew ← addVote v; mret (v, isNew)
         else takeLeaderVotes leaders [] false);
    let '(nominatingValue, updated) := r in
    round ← getn mRoundNumber;
    _ ← tell (NominatingValue nominatingValue);
    _ ← tell (SetupTimer NOMINATION_TIMER (computeTimeout (u32 round)) true);
    n ← getn id;
    _ ← when updated (emitNomination (emissions n));
    mret updated.

Definition nomination_setStateFromEnvelope (e : SCPEnvelope) : SlotM unit :=
  started ← getn mNominationStarted;
  if started : bool then throws "Cannot set state after nomination is started"
  else
    _ ← recordNomination e;
    let nom := nominate_of (statement e) in
    assignN (fun n =>
      set_lastNomination
        (set_votes (set_accepted n (set_inserts valueLt (nom_accepted nom) (mAccepted n)))
           (set_inserts valueLt (nom_votes nom) (mVotes n)))
        (Some e)).
Definition nomination_getCurrentState : SlotM (list SCPEnvelope) :=
  s ← gets id;
  mret (List.map snd (List.filter (fun n => negb (n.1 =? mNodeID L) || mFullyValidated s)
                        (in_key_order (mLatestNominations (nomination s))))).
End Nomination.

(** * A slot, and the slots of a node *)

Section Slot.
Context `{D : SCPDriver} (NDEBUG : bool) (L : LocalNode) (mSlotIndex : Z).

Definition slot_processEnvelope (envelope : SCPEnvelope) (self : bool) : SlotM EnvelopeState :=
  _ ← dbgAssert NDEBUG (mret (slotIndex (statement envelope) =? mSlotIndex));
  match pledges (statement envelope) with
  | NOMINATE _ => nomination_processEnvelope NDEBUG L mSlotIndex envelope
  | _ => ballot_processEnvelope NDEBUG L mSlotIndex envelope self
  end.
Definition slot_abandonBallot : SlotM bool := ballot_abandonBallot NDEBUG L mSlotIndex 0.
Definition slot_bumpState (v : Value) (force : bool) : SlotM bool :=
  ballot_bumpState NDEBUG L mSlotIndex v force.
Definition slot_nominate (v previousValue : Value) (timedout : bool) : SlotM bool :=
  nomination_nominate NDEBUG L mSlotIndex v previousValue timedout.

Definition slot_setStateFromEnvelope (e : SCPEnvelope) : SlotM unit :=
  if (nodeID (statement e) =? mNodeID L) && (slotIndex (statement e) =? mSlotIndex) then
    match pledges (statement e) with
    | NOMINATE _ => nomination_setStateFromEnvelope e
    | _ => ballot_setStateFromEnvelope NDEBUG e
    end
  else mret tt.

(** The messages that were emitted; the ones known. *)
Definition getLatestMessagesSend : SlotM (list SCPEnvelope) :=
  s ← gets id;
  mret (if mFullyValidated s
        then option_list (mLastNomination (nomination s))
             ++ option_list (snd <$> mLastEnvelopeEmit (ballots s))
        else []).
Definition getCurrentState : SlotM (list SCPEnvelope) :=
  res ← nomination_getCurrentState L; r2 ← ballot_getCurrentState L; mret (res ++ r2).
Definition getEntireCurrentState : SlotM (list SCPEnvelope) :=
  old ← isFullyValidated;
  _ ← setFullyValidated true;
  r ← getCurrentState;
  _ ← setFullyValidated old;
  mret r.

Definition getStatementValues (st : SCPStatement) : list Value :=
  match pledges st with
  | NOMINATE n => nominationValues n
  | _ => [value (getWorkingBallot st)]
  end.

(** The statements of the history, by node. *)
Definition statementsByNode (history : list (SCPStatement * bool)) : gmap NodeID (list SCPStatement) :=
  fold_left (fun m h => <[nodeID h.1 := default [] (m !! nodeID h.1) ++ [h.1]]> m) history ∅.
Definition slot_isNodeInQuorum (pick : gset NodeID -> NodeID) (node : NodeID) (s : Slot)
    : option TriBool :=
  isNodeInQuorum (fun st => getQSet (getCompanionQuorumSetHashFromStatement st))
    (statementsByNode (mStatementsHistory s)) pick (mNodeID L) node.
End Slot.

(** ** The slots of a node

    [mKnownSlots], and the operations of [SCP] on it. *)
Section SCP.
Context `{D : SCPDriver} (verifyEnvelope : SCPEnvelope -> bool) (NDEBUG : bool) (L : LocalNode).
Implicit Types mKnownSlots : gmap Z Slot.

(** [getSlot(slotIndex, true)] *)
Definition getOrCreateSlot mKnownSlots (index : Z) : Slot :=
  default (initialSlot (mIsValidator L)) (mKnownSlots !! index).
(** Runs [m] on a slot, which is created if need be. *)
Definition on_slot {A} (index : Z) (m : SlotM A) mKnownSlots : (A * gmap Z Slot) + stop :=
  match m (getOrCreateSlot mKnownSlots index) with
  | Done a s => inl (a, <[index := s]> mKnownSlots)
  | Stopped x => inr x
  end.

Definition receiveEnvelope (envelope : SCPEnvelope) mKnownSlots
    : (EnvelopeState * gmap Z Slot) + stop :=
  if negb (verifyEnvelope envelope) then inl (INVALID, mKnownSlots)
  else
    let index := slotIndex (statement envelope) in
    on_slot index (slot_processEnvelope NDEBUG L index envelope false) mKnownSlots.
Definition SCP_nominate (index : Z) (v previousValue : Value) mKnownSlots
    : (bool * gmap Z Slot) + stop :=
  on_slot index
    (_ ← dbgAssert NDEBUG (mret (mIsValidator L));
     slot_nominate NDEBUG L index v previousValue false) mKnownSlots.
Definition SCP_stopNomination (index : Z) mKnownSlots : (unit * gmap Z Slot) + stop :=
  match mKnownSlots !! index with
  | Some _ => on_slot index stopNomination mKnownSlots
  | None => inl (tt, mKnownSlots)
  end.
Definition SCP_setStateFromEnvelope (index : Z) (e : SCPEnvelope) mKnownSlots
    : (unit * gmap Z Slot) + stop :=
  if verifyEnvelope e then on_slot index (slot_setStateFromEnvelope NDEBUG L index e) mKnownSlots
  else inl (tt, mKnownSlots).
Definition purgeSlots (maxSlotIndex : Z) mKnownSlots : gmap Z Slot :=
  filter (fun it => ~ it.1 < maxSlotIndex) mKnownSlots.
Definition isSlotFullyValidated (index : Z) mKnownSlots : bool :=
  match mKnownSlots !! index with Some s => mFullyValidated s | None => false end.
Definition getCumulativeStatemtCount mKnownSlots : nat :=
  foldr (fun it c => length (mStatementsHistory it.2) + c)%nat 0%nat (map_to_list mKnownSlots).
(** The first of the recent slots that knows. *)
Fixpoint firstAnswer (answers : list (option TriBool)) : option TriBool :=
  match answers with
  | [] => Some TB_MAYBE
  | Some TB_MAYBE :: answers => firstAnswer answers
  | res :: _ => res
  end.
Definition SCP_isNodeInQuorum (pick : gset NodeID -> NodeID) (node : NodeID) mKnownSlots
    : option TriBool :=
  firstAnswer (List.map (fun it => slot_isNodeInQuorum L pick node it.2)
                 (rev (in_key_order mKnownSlots))).
End SCP.
