(* ===== verification/ScpMachine.v ===== *)
(** The ballot protocol as an abstract machine, in the terms of the protocol's
    description: one transition per decision, each with the condition under
    which the protocol allows it.

    The machine has the state [(b, p, p', h, c, M, phi)], the statements the
    node has signed and the values it has reported as externalized.  What the
    protocol means by a quorum that ratifies, or a blocking set that accepts,
    is stated with sets of nodes.  [BallotRefinement] shows that every run of
    the code is a sequence of these transitions.

    What every reachable state satisfies follows: the value is locked once a
    commit has been accepted, and an externalized value has a quorum behind it. *)

From S2P Require Import Prelude Types Sorting Quorums QuorumFacts Ballots BallotOrder SlotState.

Record Machine := mkMachine {
  m_b : option SCPBallot;
  m_p : option SCPBallot;
  m_p' : option SCPBallot;
  m_h : option SCPBallot;
  m_c : option SCPBallot;
  m_M : gmap NodeID SCPStatement;
  m_phi : SCPPhase;
  m_signed : list SCPStatement;
  m_externalized : list Value }.

(** The calls of the driver that the machine records. *)
Definition signedOf (calls : list DriverCall) : list SCPStatement :=
  omap (fun c => match c with SignEnvelope e => Some (statement e) | _ => None end) calls.
Definition externalizedOf (calls : list DriverCall) : list Value :=
  omap (fun c => match c with ValueExternalized v => Some v | _ => None end) calls.
Definition machine (s : Slot) : Machine :=
  let b := ballots s in
  mkMachine (mCurrentBallot b) (mPrepared b) (mPreparedPrime b) (mHighBallot b) (mCommit b)
    (statement <$> mLatestEnvelopes b) (mPhase b) (signedOf (calls s)) (externalizedOf (calls s)).

(** [h] is kept only if it has the value of the new ballot. *)
Definition keepCompatible (x : SCPBallot) (h : option SCPBallot) : option SCPBallot :=
  match h with Some h0 => if areBallotsCompatible x h0 then h else None | None => None end.
(** The two highest incompatible prepared ballots, with one more. *)
Definition raisePrepared (p p' : option SCPBallot) (x : SCPBallot)
    : option SCPBallot * option SCPBallot :=
  match p with
  | None => (Some x, p')
  | Some p0 =>
      if compareBallots p0 x <? 0 then
        (Some x, if areBallotsCompatible p0 x then p' else Some p0)
      else if (0 <? compareBallots p0 x)
              && match p' with Some p0' => compareBallots p0' x <? 0 | None => true end
      then (p, Some x)
      else (p, p')
  end.
(** Is the vote to commit up to [h] contradicted by a prepared ballot? *)
Definition aborted (p p' h c : option SCPBallot) : bool :=
  bool_decide (is_Some c)
  && and_ptr h (fun h => and_ptr p (areBallotsLessAndIncompatible h)
                         || and_ptr p' (areBallotsLessAndIncompatible h)).
(** [b] after the counters [c..h] have been accepted as committed. *)
Definition raiseCurrent (phi : SCPPhase) (b : option SCPBallot) (h : SCPBallot) : option SCPBallot :=
  match b with
  | None => Some h
  | Some b0 =>
      if (compareBallots b0 h <? 0)
         || (bool_decide (phi = SCP_PHASE_PREPARE) && negb (areBallotsLessAndCompatible h b0))
      then Some h else b
  end.

Section Machine.
Context `{D : SCPDriver} (L : LocalNode) (K : SCPStatement -> Prop).

(** A quorum, of which the node has a slice, whose statements satisfy [f]. *)
Definition ratified (M : gmap NodeID SCPStatement) (f : SCPStatement -> bool) : Prop :=
  exists Q, isQuorumSlice (mQSet L) Q = true /\ selfSupporting getQuorumSetFromStatement M Q /\
    forall n, In n Q -> exists st, M !! n = Some st /\ f st = true.
(** Such a quorum that votes or accepts, or a blocking set that accepts. *)
Definition accepted (M : gmap NodeID SCPStatement) (voted acc : SCPStatement -> bool) : Prop :=
  ratified M (fun st => acc st || voted st) \/
  exists S, isVBlocking (mQSet L) S = true /\
    forall n, In n S -> exists st, M !! n = Some st /\ acc st = true.

(** The statement that describes the state. *)
Definition describes (m : Machine) (pl : Pledges) : Prop :=
  match pl with
  | NOMINATE _ => True
  | PREPARE p =>
      m_phi m = SCP_PHASE_PREPARE /\
      p = mkPrepare (mQSetHash L) (default (mkBallot 0 []) (m_b m)) (m_p m) (m_p' m)
            (from_option counter 0 (m_c m)) (from_option counter 0 (m_h m))
  | CONFIRM con =>
      m_phi m = SCP_PHASE_CONFIRM /\
      exists b p c h, m_b m = Some b /\ m_p m = Some p /\ m_c m = Some c /\ m_h m = Some h /\
        con = mkConfirm b (counter p) (counter c) (counter h) (mQSetHash L)
  | EXTERNALIZE e =>
      m_phi m = SCP_PHASE_EXTERNALIZE /\
      exists c h, m_c m = Some c /\ m_h m = Some h /\ e = mkExternalize c (counter h) (mQSetHash L)
  end.

Inductive transition (m : Machine) : Machine -> Prop :=
  | Receive st :
      K st \/ st ∈ m_signed m ->
      (forall old, m_M m !! nodeID st = Some old -> isNewerStatement old st = true) ->
      (m_phi m = SCP_PHASE_EXTERNALIZE ->
       exists c, m_c m = Some c /\ value c = value (getWorkingBallot st)) ->
      transition m (mkMachine (m_b m) (m_p m) (m_p' m) (m_h m) (m_c m)
                      (<[nodeID st := st]> (m_M m)) (m_phi m) (m_signed m) (m_externalized m))
  | Sign st :
      nodeID st = mNodeID L -> describes m (pledges st) ->
      transition m (mkMachine (m_b m) (m_p m) (m_p' m) (m_h m) (m_c m) (m_M m) (m_phi m)
                      (st :: m_signed m) (m_externalized m))
  | Bump x :
      m_phi m <> SCP_PHASE_EXTERNALIZE ->
      (forall b, m_b m = Some b -> ballot_lt b x) ->
      (m_phi m = SCP_PHASE_CONFIRM -> m_b m <> None ->
       forall c, m_c m = Some c -> value c = value x) ->
      transition m (mkMachine (Some x) (m_p m) (m_p' m) (keepCompatible x (m_h m)) (m_c m) (m_M m)
                      (m_phi m) (m_signed m) (m_externalized m))
  | AcceptPrepared x p1 p1' :
      m_phi m <> SCP_PHASE_EXTERNALIZE ->
      accepted (m_M m) (votesPrepare x) (hasPreparedBallot x) ->
      (forall p', m_p' m = Some p' -> ballot_lt p' x) ->
      (forall p, m_p m = Some p -> ~ (ballot_le x p /\ value x = value p)) ->
      (m_phi m = SCP_PHASE_CONFIRM ->
       exists p, m_p m = Some p /\ ballot_le p x /\ value p = value x) ->
      raisePrepared (m_p m) (m_p' m) x = (p1, p1') ->
      (m_phi m = SCP_PHASE_CONFIRM -> aborted p1 p1' (m_h m) (m_c m) = false) ->
      transition m (mkMachine (m_b m) p1 p1' (m_h m)
                      (if aborted p1 p1' (m_h m) (m_c m) then None else m_c m) (m_M m) (m_phi m)
                      (m_signed m) (m_externalized m))
  | ConfirmPrepared newC newH :
      m_phi m = SCP_PHASE_PREPARE ->
      ratified (m_M m) (hasPreparedBallot newH) ->
      (forall b, m_b m = Some b -> value b = value newH) ->
      (forall h, m_h m = Some h -> ballot_lt h newH) ->
      (forall c, newC = Some c ->
         m_c m = None /\ counter c <> 0 /\ ratified (m_M m) (hasPreparedBallot c) /\
         ballot_le (default (mkBallot 0 []) (m_b m)) c /\ ballot_le c newH /\ value c = value newH) ->
      transition m (mkMachine (m_b m) (m_p m) (m_p' m) (Some newH)
                      (match newC with Some c => Some c | None => m_c m end) (m_M m) (m_phi m)
                      (m_signed m) (m_externalized m))
  | AcceptCommit c h :
      m_phi m <> SCP_PHASE_EXTERNALIZE ->
      value c = value h -> 0 <> counter c -> counter c <= counter h ->
      (m_phi m = SCP_PHASE_CONFIRM ->
       exists h0, m_h m = Some h0 /\ value h0 = value h /\ counter h0 < counter h) ->
      accepted (m_M m) (votesCommit h (counter c, counter h))
        (commitPredicate h (counter c, counter h)) ->
      transition m (mkMachine (raiseCurrent (m_phi m) (m_b m) h) (m_p m)
                      (if bool_decide (m_phi m = SCP_PHASE_PREPARE) then None else m_p' m)
                      (Some h) (Some c) (m_M m) SCP_PHASE_CONFIRM (m_signed m) (m_externalized m))
  | ConfirmCommit c h :
      m_phi m = SCP_PHASE_CONFIRM ->
      value c = value h -> 0 <> counter c -> counter c <= counter h ->
      (exists c0, m_c m = Some c0 /\ value c0 = value h) ->
      ratified (m_M m) (commitPredicate h (counter c, counter h)) ->
      transition m (mkMachine (raiseCurrent (m_phi m) (m_b m) h) (m_p m) (m_p' m) (Some h) (Some c)
                      (m_M m) SCP_PHASE_EXTERNALIZE (m_signed m) (m_externalized m))
  | Externalize c :
      m_phi m = SCP_PHASE_EXTERNALIZE -> m_c m = Some c -> m_externalized m = [] ->
      transition m (mkMachine (m_b m) (m_p m) (m_p' m) (m_h m) (m_c m) (m_M m) (m_phi m) (m_signed m)
                      [value c]).

(** Sequences of transitions. *)
Definition reaches : Machine -> Machine -> Prop := rtc transition.
End Machine.

(** * Invariants of the machine *)

(** The value a statement accepts to commit. *)
Definition commits (st : SCPStatement) : option Value :=
  match pledges st with
  | CONFIRM c => Some (value (con_ballot c))
  | EXTERNALIZE e => Some (value (ext_commit e))
  | _ => None
  end.
Definition has_value (o : option SCPBallot) (v : Value) : Prop := exists b, o = Some b /\ value b = v.

Lemma has_value_inj o v1 v2 : has_value o v1 -> has_value o v2 -> v1 = v2.
Proof. intros (b1 & E1 & <-) (b2 & E2 & <-). congruence. Qed.

Lemma commitPredicate_commits b i st : commitPredicate b i st = true -> commits st = Some (value b).
Proof.
  unfold commitPredicate, commits. destruct (pledges st); try done;
    intros [H%areBallotsCompatible_spec _]%andb_true_iff; by rewrite H.
Qed.

Section Invariants.
(** [announced st q]: what is known of a quorum set found for [st]. *)
Context (L : LocalNode) (announced : SCPStatement -> SCPQuorumSet -> Prop).
Implicit Types (m : Machine) (K : SCPStatement -> Prop).

(** A set of nodes with a slice of this node's, each of which has accepted to
    commit [v] with a slice of its own in the set. *)
Definition backed K m (v : Value) : Prop :=
  exists Q, isQuorumSlice (mQSet L) Q = true /\
    forall n, In n Q -> exists st q,
      nodeID st = n /\ (K st \/ st ∈ m_signed m) /\ commits st = Some v /\
      announced st q /\ isQuorumSlice q Q = true.

Record sound K m : Prop := {
  sound_locked : m_phi m <> SCP_PHASE_PREPARE ->
    exists v, has_value (m_b m) v /\ has_value (m_h m) v /\ has_value (m_c m) v;
  sound_signed st : st ∈ m_signed m ->
    nodeID st = mNodeID L /\
    (forall v, commits st = Some v ->
       m_phi m <> SCP_PHASE_PREPARE /\ has_value (m_c m) v /\
       getCompanionQuorumSetHashFromStatement st = mQSetHash L) /\
    (pledges_type (pledges st) = 2 -> m_phi m = SCP_PHASE_EXTERNALIZE);
  sound_recorded n st : m_M m !! n = Some st -> nodeID st = n /\ (K st \/ st ∈ m_signed m);
  sound_backed : m_phi m = SCP_PHASE_EXTERNALIZE -> exists v, has_value (m_c m) v /\ backed K m v }.

Lemma backed_mono K K' m m' v :
  (forall st, K st -> K' st) -> (forall st, st ∈ m_signed m -> st ∈ m_signed m') ->
  backed K m v -> backed K' m' v.
Proof using.
  intros HK Hs (Q & HQ & H). exists Q. split; [done|]. intros n Hn.
  destruct (H n Hn) as (st & q & E & Hst & Hrest). exists st, q. split; [done|]. split; [|done].
  destruct Hst; auto.
Qed.
Lemma sound_mono K K' m : (forall st, K st -> K' st) -> sound K m -> sound K' m.
Proof using.
  intros HK [H1 H2 H3 H4]. split; [done|done| |].
  - intros n st Hn. destruct (H3 n st Hn) as [E [H|H]]; auto.
  - intros Hp. destruct (H4 Hp) as (v & Hv & Hb). exists v. split; [done|].
    eapply backed_mono; [exact HK| |exact Hb]. done.
Qed.
Lemma sound_initial K v : sound K (machine (initialSlot v)).
Proof using.
  split; cbn; [done| | |done].
  - intros st H. by apply elem_of_nil in H.
  - intros n st. by rewrite lookup_fmap, lookup_empty.
Qed.

(** A change of ballots that keeps what is locked. *)
Lemma sound_ballots K m b p p' h c ext :
  (m_phi m <> SCP_PHASE_PREPARE -> forall v, has_value (m_b m) v -> has_value (m_h m) v ->
     has_value (m_c m) v -> has_value b v /\ has_value h v /\ has_value c v) ->
  sound K m -> sound K (mkMachine b p p' h c (m_M m) (m_phi m) (m_signed m) ext).
Proof using.
  intros Hc [H1 H2 H3 H4].
  assert (Hkeep : forall v, m_phi m <> SCP_PHASE_PREPARE -> has_value (m_c m) v -> has_value c v).
  { intros v Hp Hv. destruct (H1 Hp) as (w & Hb & Hh & Hw).
    rewrite (has_value_inj _ _ _ Hv Hw) in *. by apply Hc. }
  split; cbn.
  - intros Hp. destruct (H1 Hp) as (v & Hb & Hh & Hv). exists v. by apply Hc.
  - intros st Hst. destruct (H2 st Hst) as (E & Hcom & Hext). split; [done|]. split; [|done].
    intros v Hv. destruct (Hcom v Hv) as (Hp & Hval & Hhash). auto.
  - done.
  - intros Hp. destruct (H4 Hp) as (v & Hv & Hb). exists v. split; [apply Hkeep; congruence|].
    eapply backed_mono; [| |exact Hb]; done.
Qed.

Lemma raiseCurrent_value phi b h v :
  value h = v -> phi <> SCP_PHASE_PREPARE -> has_value b v -> has_value (raiseCurrent phi b h) v.
Proof using.
  intros <- Hp (b0 & -> & Hv). unfold raiseCurrent. destruct (_ || _); eexists; split; done.
Qed.
(** Leaving the first phase, [b] ends up with the value of [h]. *)
Lemma raiseCurrent_prepare b h : has_value (raiseCurrent SCP_PHASE_PREPARE b h) (value h).
Proof using.
  unfold raiseCurrent. destruct b as [b0|]; [|by eexists].
  rewrite bool_decide_eq_true_2 by done. cbn [andb].
  destruct (_ || _) eqn:E; [by eexists|]. exists b0. split; [done|].
  apply orb_false_iff in E as [_ E%negb_false_iff]. by apply lessAndCompatible_spec in E as [_ E].
Qed.

Context `{D : SCPDriver} (K : SCPStatement -> Prop)
  (Hannounced : forall st q, getQuorumSetFromStatement st = Some q -> announced st q).

(** A quorum that ratifies a commit backs its value. *)
Lemma ratified_backed m h i :
  (forall n st, m_M m !! n = Some st -> nodeID st = n /\ (K st \/ st ∈ m_signed m)) ->
  ratified L (m_M m) (commitPredicate h i) -> backed K m (value h).
Proof using Hannounced.
  intros HM (Q & Hs & Hself & Hf). exists Q. split; [done|]. intros n Hn.
  destruct (Hself n Hn) as (st & q & Hst & Hq & Hslice), (Hf n Hn) as (st' & Hst' & Hc).
  rewrite Hst in Hst'. injection Hst' as <-. destruct (HM n st Hst) as [E HK].
  exists st, q. split_and!; auto. by eapply commitPredicate_commits.
Qed.

Lemma describes_commits m st v :
  sound K m -> describes L m (pledges st) -> commits st = Some v ->
  m_phi m <> SCP_PHASE_PREPARE /\ has_value (m_c m) v /\
  getCompanionQuorumSetHashFromStatement st = mQSetHash L.
Proof using.
  intros Hm Hd Hc. unfold commits, getCompanionQuorumSetHashFromStatement in *.
  destruct (pledges st) as [p|con|e|n]; try done; injection Hc as <-; destruct Hd as [Hp Hd];
    destruct (sound_locked _ _ Hm) as (w & Hb & Hh & Hw); try congruence; (split; [congruence|]).
  - destruct Hd as (b & p & c & h & Eb & Ep & Ec & Eh & ->). cbn. split; [|done].
    destruct Hb as (b' & Eb' & <-). rewrite Eb in Eb'. injection Eb' as ->. done.
  - destruct Hd as (c & h & Ec & Eh & ->). cbn. split; [|done]. by exists c.
Qed.

Lemma sound_receive m st M :
  K st \/ st ∈ m_signed m -> M = <[nodeID st := st]> (m_M m) -> sound K m ->
  sound K (mkMachine (m_b m) (m_p m) (m_p' m) (m_h m) (m_c m) M (m_phi m) (m_signed m)
             (m_externalized m)).
Proof using.
  intros HK -> [H1 H2 H3 H4]. split; cbn; try done. intros n st'.
  destruct (decide (n = nodeID st)) as [->|Hne]; [|rewrite lookup_insert_ne by done; apply H3].
  rewrite lookup_insert_eq. by intros [= <-].
Qed.
Lemma sound_sign m st :
  nodeID st = mNodeID L -> describes L m (pledges st) -> sound K m ->
  sound K (mkMachine (m_b m) (m_p m) (m_p' m) (m_h m) (m_c m) (m_M m) (m_phi m) (st :: m_signed m)
             (m_externalized m)).
Proof using.
  intros Hself Hd Hm. pose proof (describes_commits m st) as Hdc. pose proof Hm as [H1 H2 H3 H4].
  split; cbn.
  - done.
  - intros st' [->|Hin]%elem_of_cons; [|by apply H2]. split; [done|]. split; [intros v; by apply Hdc|].
    destruct (pledges st) eqn:E; try done. intros _. by destruct Hd.
  - intros n st' Hn. destruct (H3 n st' Hn) as [E [H|H]]; split; auto. right. by right.
  - intros Hp. destruct (H4 Hp) as (v & Hv & Hb). exists v. split; [done|].
    eapply backed_mono; [| |exact Hb]; [done|]. intros st' Hin. by right.
Qed.
(** The value locked before, if any, is that of the new commit. *)
Lemma sound_accept_commit m p' c h ext :
  m_phi m <> SCP_PHASE_EXTERNALIZE -> value c = value h ->
  (m_phi m = SCP_PHASE_CONFIRM -> exists h0, m_h m = Some h0 /\ value h0 = value h) ->
  sound K m ->
  sound K (mkMachine (raiseCurrent (m_phi m) (m_b m) h) (m_p m) p' (Some h) (Some c) (m_M m)
             SCP_PHASE_CONFIRM (m_signed m) ext).
Proof using.
  intros Hp Hv Hcon [H1 H2 H3 H4].
  assert (Hold : forall w, m_phi m <> SCP_PHASE_PREPARE -> has_value (m_c m) w -> w = value h).
  { intros w Hp' Hw. destruct (H1 Hp') as (v & _ & Hhv & Hcv). destruct Hcon as (h0 & Eh & Hh);
      [destruct (m_phi m); congruence|].
    rewrite (has_value_inj _ _ _ Hw Hcv). destruct Hhv as (h1 & Eh1 & <-). congruence. }
  split; cbn.
  - intros _. exists (value h). split; [|split; by eexists].
    destruct (m_phi m) eqn:Ep; [apply raiseCurrent_prepare| |done].
    destruct (H1 ltac:(done)) as (v & Hbv & Hhv & Hcv).
    apply raiseCurrent_value; try done. rewrite <- (Hold v); try done.
  - intros st Hst. destruct (H2 st Hst) as (E & Hcom & Hext). split; [done|]. split.
    + intros v Hv'. destruct (Hcom v Hv') as (Hp' & Hval & Hhash). split; [done|]. split; [|done].
      rewrite (Hold v Hp' Hval). by exists c.
    + intros Ht. by apply Hext in Ht.
  - done.
  - done.
Qed.
Lemma sound_confirm_commit m c h i ext :
  m_phi m = SCP_PHASE_CONFIRM -> value c = value h ->
  (exists c0, m_c m = Some c0 /\ value c0 = value h) ->
  ratified L (m_M m) (commitPredicate h i) -> sound K m ->
  sound K (mkMachine (raiseCurrent (m_phi m) (m_b m) h) (m_p m) (m_p' m) (Some h) (Some c) (m_M m)
             SCP_PHASE_EXTERNALIZE (m_signed m) ext).
Proof using Hannounced.
  intros Hp Hv Hc Hr [H1 H2 H3 H4]. destruct (H1 ltac:(congruence)) as (v & Hbv & Hhv & Hcv).
  assert (Hvh : v = value h).
  { destruct Hc as (c0 & Ec & <-). destruct Hcv as (c1 & Ec1 & <-). congruence. }
  subst v. split; cbn.
  - intros _. exists (value h). split; [|split; by eexists].
    apply raiseCurrent_value; try done. congruence.
  - intros st Hst. destruct (H2 st Hst) as (E & Hcom & Hext). split; [done|]. split; [|done].
    intros w Hw. destruct (Hcom w Hw) as (Hp' & Hval & Hhash). split; [done|]. split; [|done].
    rewrite (has_value_inj _ _ _ Hval Hcv). by exists c.
  - done.
  - intros _. exists (value h). split; [by exists c|]. apply (ratified_backed m) in Hr; [|done]. exact Hr.
Qed.
Lemma sound_bump m x :
  m_phi m <> SCP_PHASE_EXTERNALIZE ->
  (m_phi m = SCP_PHASE_CONFIRM -> m_b m <> None -> forall c, m_c m = Some c -> value c = value x) ->
  sound K m ->
  sound K (mkMachine (Some x) (m_p m) (m_p' m) (keepCompatible x (m_h m)) (m_c m) (m_M m) (m_phi m)
             (m_signed m) (m_externalized m)).
Proof using.
  intros Hp Hc. apply sound_ballots. intros Hp' v (b & Eb & Hb') (h & Eh & Hh) Hc'.
  assert (Hx : value x = v).
  { destruct Hc' as (c & Ec & <-). symmetry. apply Hc; try done; [|by rewrite Eb].
    destruct (m_phi m); congruence. }
  split; [by exists x|]. split; [|done]. exists h. split; [|done]. rewrite Eh. cbn.
  unfold areBallotsCompatible. by rewrite bool_decide_eq_true_2 by congruence.
Qed.

Lemma transition_sound m m' : transition L K m m' -> sound K m -> sound K m'.
Proof using Hannounced.
  intros Ht Hm. destruct Ht as [st HK Hnew Hext|st Hself Hd|x Hp Hb Hc|x p1 p1' Hp Hacc _ _ Hcon Hr Hab
    |newC newH Hp Hr Hb Hh Hc|c h Hp Hv H0 Hle Hcon Hacc|c h Hp Hv H0 Hle Hc Hr|c Hp Hc Hn].
  - by eapply sound_receive.
  - by apply sound_sign.
  - by apply sound_bump.
  - apply sound_ballots; [|done]. intros Hp' v Hb Hh Hc. split; [done|]. split; [done|].
    rewrite Hab; [done|]. destruct (m_phi m); congruence.
  - apply sound_ballots; [|done]. congruence.
  - apply sound_accept_commit; try done. intros Hp'. destruct (Hcon Hp') as (h0 & ? & ? & _). eauto.
  - by eapply sound_confirm_commit.
  - by apply sound_ballots.
Qed.
Lemma reaches_sound m m' : reaches L K m m' -> sound K m -> sound K m'.
Proof using Hannounced. induction 1; eauto using transition_sound. Qed.
End Invariants.
