(* ===== verification/ScpRefinement.v ===== *)
(** From the code of the slot to the abstract machine: weakest preconditions
    with one postcondition for a run that ends and one for a run that stops, and
    a tactic that walks through a computation; what the code's quorum predicates
    mean to the machine, what the elementary moves do to it, and the relation
    between machine states that every run respects. *)

From S2P Require Import Prelude Types Sorting Quorums QuorumFacts Ballots BallotOrder.
From S2P Require Import SlotState BallotProtocol ScpMachine.

(** * Weakest preconditions for runs of a slot *)

Definition swp {A} (m : SlotM A) (Q : A -> Slot -> Prop) (E : stop -> Prop) (s : Slot) : Prop :=
  match m s with Done a s' => Q a s' | Stopped x => E x end.

Section Rules.
Context {A B : Type} (E : stop -> Prop).
Implicit Types (m : SlotM A) (Q : A -> Slot -> Prop) (s : Slot).

Lemma swp_ret (a : A) Q s : Q a s -> swp (mret a) Q E s.
Proof. done. Qed.
Lemma swp_bind m (f : A -> SlotM B) (Q : B -> Slot -> Prop) s :
  swp m (fun a s' => swp (f a) Q E s') E s -> swp (m ≫= f) Q E s.
Proof. unfold swp, mbind, SlotM_bind. by destruct (m s). Qed.
Lemma swp_mono m Q Q' s :
  swp m Q E s -> (forall a s', Q a s' -> Q' a s') -> swp m Q' E s.
Proof. unfold swp. destruct (m s); auto. Qed.
Lemma swp_gets (f : Slot -> A) Q s : Q (f s) s -> swp (gets f) Q E s.
Proof. done. Qed.
Lemma swp_getb (f : BallotState -> A) Q s : Q (f (ballots s)) s -> swp (getb f) Q E s.
Proof. done. Qed.
Lemma swp_getn (f : NominationState -> A) Q s : Q (f (nomination s)) s -> swp (getn f) Q E s.
Proof. done. Qed.
Lemma swp_deref (p : option A) Q s :
  (forall a, p = Some a -> Q a s) -> (p = None -> E NullDereference) -> swp (deref p) Q E s.
Proof. unfold swp, deref. destruct p; cbn; auto. Qed.
Lemma swp_stops x Q s : E x -> swp (stops (A := A) x) Q E s.
Proof. done. Qed.
Lemma swp_throws what Q s : E (Thrown (RuntimeError what)) -> swp (throws (A := A) what) Q E s.
Proof. done. Qed.
Lemma swp_make_shared (a : A) (Q : nat * A -> Slot -> Prop) s :
  Q (allocations s, a) (set_allocations (S (allocations s)) s) -> swp (make_shared a) Q E s.
Proof. done. Qed.
End Rules.

Section Units.
Context (E : stop -> Prop).
Implicit Types (Q : unit -> Slot -> Prop) (s : Slot).
Lemma swp_modifies f Q s : Q tt (f s) -> swp (modifies f) Q E s.
Proof. done. Qed.
Lemma swp_assign f Q s : Q tt (on_ballots f s) -> swp (assign f) Q E s.
Proof. done. Qed.
Lemma swp_assignN f Q s : Q tt (on_nomination f s) -> swp (assignN f) Q E s.
Proof. done. Qed.
Lemma swp_tell c Q s : Q tt (add_call c s) -> swp (tell c) Q E s.
Proof. done. Qed.
Lemma swp_when b m Q s :
  (b = true -> swp m Q E s) -> (b = false -> Q tt s) -> swp (when b m) Q E s.
Proof. destruct b; cbn; auto. Qed.
End Units.

Lemma swp_if {A} (E : stop -> Prop) (b : bool) (m1 m2 : SlotM A) Q s :
  (b = true -> swp m1 Q E s) -> (b = false -> swp m2 Q E s) ->
  swp (if b then m1 else m2) Q E s.
Proof. destruct b; auto. Qed.

(** ** Assertions

    [dbgAssert] reads the state; if it fails it stops the run, but never for
    want of fuel. *)
Definition reads {A} (m : SlotM A) : Prop :=
  forall s, match m s with Done _ s' => s' = s | Stopped x => x <> OutOfFuel end.
Lemma reads_ret {A} (a : A) : reads (mret a).
Proof. done. Qed.
Lemma reads_getb {A} (f : BallotState -> A) : reads (getb f).
Proof. done. Qed.
Lemma reads_deref {A} (p : option A) : reads (deref p).
Proof. intros s. by destruct p. Qed.
Lemma reads_bind {A B} (m : SlotM A) (f : A -> SlotM B) :
  reads m -> (forall a, reads (f a)) -> reads (m ≫= f).
Proof.
  intros Hm Hf s. specialize (Hm s). unfold mbind, SlotM_bind.
  destruct (m s) as [a s'|x]; [|done]. subst. apply Hf.
Qed.
Lemma reads_dbgAssert NDEBUG m : reads m -> reads (dbgAssert NDEBUG m).
Proof.
  unfold dbgAssert. destruct NDEBUG; [intros; apply reads_ret|]. intros Hm.
  apply reads_bind; [done|]. intros []; [apply reads_ret|done].
Qed.
Create HintDb slots discriminated.
#[export] Hint Resolve reads_ret reads_getb reads_deref reads_bind reads_dbgAssert : slots.

Lemma reads_checkInvariants NDEBUG : reads (checkInvariants NDEBUG).
Proof.
  unfold checkInvariants. destruct NDEBUG; [apply reads_ret|].
  apply reads_bind; [apply reads_getb|]. intros b.
  do 4 (apply reads_bind; [repeat case_match; auto 9 with slots|intros _]).
  destruct (mPhase b); auto 7 with slots.
Qed.

(** A computation that only reads, and whose value does not matter. *)
Lemma swp_reads {A} (E : stop -> Prop) (m : SlotM A) Q s :
  (forall x, x <> OutOfFuel -> E x) -> reads m -> (forall a, Q a s) -> swp m Q E s.
Proof.
  intros HE Hm HQ. specialize (Hm s). unfold swp. destruct (m s) as [a s'|x]; [|auto].
  by subst.
Qed.

(** One step through the syntax of a computation. *)
Ltac sstep :=
  lazymatch goal with
  | |- swp (mret _) _ _ _ => apply swp_ret
  | |- swp (_ ≫= _) _ _ _ => apply swp_bind
  | |- swp (gets _) _ _ _ => apply swp_gets
  | |- swp (getb _) _ _ _ => apply swp_getb
  | |- swp (getn _) _ _ _ => apply swp_getn
  | |- swp (modifies _) _ _ _ => apply swp_modifies
  | |- swp (assign _) _ _ _ => apply swp_assign
  | |- swp (assignN _) _ _ _ => apply swp_assignN
  | |- swp (tell _) _ _ _ => apply swp_tell
  | |- swp (make_shared _) _ _ _ => apply swp_make_shared
  | |- swp votingPhase _ _ _ => apply swp_getb
  | |- swp latestStatements _ _ _ => apply swp_getb
  | |- swp (when _ _) _ _ _ => apply swp_when; intros
  | |- swp (deref _) _ _ _ => apply swp_deref; intros
  | |- swp (stops _) _ _ _ => apply swp_stops
  | |- swp (throws _) _ _ _ => apply swp_throws
  | |- swp (if ?b then _ else _) _ _ _ => apply swp_if; intros
  | |- swp (match ?x with _ => _ end) _ _ _ => destruct x eqn:?
  end.

(** ** From the code's quorum predicates to the machine's *)
Section Votes.
Context `{D : SCPDriver} (L : LocalNode) (envs : gmap NodeID SCPEnvelope).

Lemma pruneNodes_sound {St} (qfun : St -> option SCPQuorumSet) fuel (map : gmap NodeID St) p r :
  pruneNodes qfun fuel map p = Some r -> incl r p /\ selfSupporting qfun map r.
Proof using.
  revert p. induction fuel as [|fuel IH]; intros p; cbn [pruneNodes]; [done|].
  destruct (Nat.eqb_spec (length p) (length (List.filter (quorumFilter qfun map p) p))) as [E|N].
  - intros [= <-]. rewrite filter_same_length by done. split; [apply incl_refl|].
    intros n Hn. rewrite <- (filter_same_length _ _ E) in Hn.
    by apply filter_In in Hn as [_ H%quorumFilter_true].
  - intros [Hi Hs]%IH. split; [|done]. intros n Hn. apply Hi, filter_In in Hn. tauto.
Qed.
Lemma isQuorum_ends {St} (qfun : St -> option SCPQuorumSet) f qSet (map : gmap NodeID St) :
  is_Some (isQuorum qfun f qSet map).
Proof using.
  unfold isQuorum. assert (H : forall fuel p, (length p < fuel)%nat -> is_Some (pruneNodes qfun fuel map p)).
  { induction fuel as [|fuel IH]; intros p Hp; [lia|]. cbn [pruneNodes].
    destruct (Nat.eqb_spec (length p) (length (List.filter (quorumFilter qfun map p) p))); [done|].
    apply IH. pose proof (List.filter_length_le (quorumFilter qfun map p) p). lia. }
  destruct (H (S (length (filteredNodes f map))) (filteredNodes f map)) as [r Hr]; [lia|].
  rewrite Hr. done.
Qed.
Lemma filteredNodes_In {St} (f : St -> bool) (map : gmap NodeID St) n :
  In n (filteredNodes f map) -> exists st, map !! n = Some st /\ f st = true.
Proof using.
  unfold filteredNodes. intros H%list_elem_of_In. apply list_elem_of_fmap in H as ((n' & st) & -> & H).
  apply list_elem_of_In, filter_In in H as [H Hf]. exists st. split; [|done]. cbn.
  apply elem_of_map_to_list. apply list_elem_of_In in H. unfold in_key_order in H.
  by rewrite insertion_sort_perm in H.
Qed.

Lemma isLocalQuorum_ratified f :
  isLocalQuorum L envs f = true -> ratified L (statement <$> envs) f.
Proof using.
  unfold isLocalQuorum, isQuorum.
  destruct (pruneNodes _ _ _ _) as [Q|] eqn:E; cbn; [|done]. intros Hs.
  apply pruneNodes_sound in E as [Hi Hself]. exists Q. split; [done|]. split; [done|].
  intros n Hn. apply Hi in Hn. by apply filteredNodes_In in Hn.
Qed.
Lemma federatedRatify_ratified f :
  federatedRatify L f envs = true -> ratified L (statement <$> envs) f.
Proof using. apply isLocalQuorum_ratified. Qed.
Lemma federatedAccept_accepted voted acc :
  federatedAccept L voted acc envs = true -> accepted L (statement <$> envs) voted acc.
Proof using.
  unfold federatedAccept. destruct (isLocalVBlocking L envs acc) eqn:E.
  - intros _. right. exists (filteredNodes acc (statement <$> envs)). split; [exact E|].
    intros n. apply filteredNodes_In.
  - intros H%isLocalQuorum_ratified. by left.
Qed.
Lemma ratified_ext M f g : (forall st, f st = g st) -> ratified L M f -> ratified L M g.
Proof using.
  intros Hfg (Q & Hs & Hq & Hf). exists Q. do 2 (split; [done|]). intros n Hn.
  destruct (Hf n Hn) as (st & Hst & H). exists st. by rewrite <- Hfg.
Qed.
Lemma accepted_ext M v v' a a' :
  (forall st, v st = v' st) -> (forall st, a st = a' st) -> accepted L M v a -> accepted L M v' a'.
Proof using.
  intros Hv Ha [H|(S & Hb & H)]; [left|right].
  - eapply ratified_ext; [|exact H]. intros st. cbn. by rewrite Hv, Ha.
  - exists S. split; [done|]. intros n Hn. destruct (H n Hn) as (st & Hst & E). exists st.
    by rewrite <- Ha.
Qed.
End Votes.

(** Only the value of the ballot matters when looking for a commit. *)
Lemma commitPredicate_value b1 b2 i st :
  value b1 = value b2 -> commitPredicate b1 i st = commitPredicate b2 i st.
Proof. intros H. unfold commitPredicate, areBallotsCompatible. by rewrite H. Qed.
Lemma votesCommit_value b1 b2 i st :
  value b1 = value b2 -> votesCommit b1 i st = votesCommit b2 i st.
Proof. intros H. unfold votesCommit, areBallotsCompatible. by rewrite H. Qed.

(** What [findExtendedInterval] returns satisfies its predicate. *)
Lemma extendInterval_pred pred bs cand :
  (cand.1 <> 0 -> pred cand = true /\ cand.1 <= cand.2) ->
  let r := extendInterval pred bs cand in r.1 <> 0 -> pred r = true /\ r.1 <= r.2.
Proof.
  revert cand. induction bs as [|b bs IH]; intros cand Hc; cbn; [done|].
  destruct (Z.eqb_spec (cand.1) 0) as [E|N]; cbn [negb andb].
  - destruct (pred (b, b)) eqn:Ep; apply IH; [|done]. cbn. split; [done|lia].
  - destruct (Z.ltb_spec (cand.2) b); cbn [andb]; [apply IH; done|].
    destruct (pred (b, cand.2)) eqn:Ep; [|intros _; by apply Hc].
    apply IH. cbn. split; [done|lia].
Qed.

(** ** Moving the current ballot *)
Definition bumpMachine (x : SCPBallot) (m : Machine) : Machine :=
  mkMachine (Some x) (m_p m) (m_p' m) (keepCompatible x (m_h m)) (m_c m) (m_M m) (m_phi m)
    (m_signed m) (m_externalized m).
Definition phaseMachine (phi : SCPPhase) (m : Machine) : Machine :=
  mkMachine (m_b m) (m_p m) (m_p' m) (m_h m) (m_c m) (m_M m) phi (m_signed m) (m_externalized m).
Definition primeMachine (p' : option SCPBallot) (m : Machine) : Machine :=
  mkMachine (m_b m) (m_p m) p' (m_h m) (m_c m) (m_M m) (m_phi m) (m_signed m) (m_externalized m).
Ltac mproj := cbn [m_b m_p m_p' m_h m_c m_M m_phi m_signed m_externalized].
(** What else a change of the ballots' fields leaves alone. *)
Definition level (s : Slot) : Z := mCurrentMessageLevel (ballots s).

Section Bumping.
Context (NDEBUG : bool) (E : stop -> Prop) (HE : forall x, x <> OutOfFuel -> E x).

Lemma swp_bumpToBallot x check (Q : unit -> Slot -> Prop) s :
  (forall s', machine s' = bumpMachine x (machine s) -> level s' = level s -> Q tt s') ->
  swp (bumpToBallot NDEBUG x check) Q E s.
Proof using HE.
  intros HQ. unfold bumpToBallot.
  sstep. apply swp_reads; [done|apply reads_dbgAssert, reads_getb|]. intros _.
  sstep. apply swp_reads; [done|auto 9 with slots|]. intros _.
  repeat sstep; apply HQ; try done; unfold machine, bumpMachine; cbn;
    f_equal; unfold keepCompatible, id in *;
    (destruct (mHighBallot (ballots s)) as [h|]; cbn in *; [|done]);
    by destruct (areBallotsCompatible x h).
Qed.

(** [b] is behind [x]. *)
Definition behind (b : option SCPBallot) (x : SCPBallot) : bool :=
  match b with Some b => compareBallots b x <? 0 | None => true end.
Lemma swp_updateCurrentIfNeeded x (Q : bool -> Slot -> Prop) s :
  (forall s', machine s' = (if behind (mCurrentBallot (ballots s)) x
                            then bumpMachine x (machine s) else machine s) ->
              level s' = level s -> Q (behind (mCurrentBallot (ballots s)) x) s') ->
  swp (updateCurrentIfNeeded NDEBUG x) Q E s.
Proof using HE.
  intros HQ. unfold updateCurrentIfNeeded. do 2 sstep.
  fold (behind (mCurrentBallot (ballots s)) x).
  destruct (behind _ _) eqn:Eb; [|by apply HQ].
  sstep. apply swp_bumpToBallot. intros s' Hm Hl. by apply HQ.
Qed.

(** Does [updateCurrentValue] move to [x]? *)
Definition canMoveTo (b : BallotState) (x : SCPBallot) : bool :=
  negb (bool_decide (mPhase b = SCP_PHASE_EXTERNALIZE))
  && behind (mCurrentBallot b) x
  && (bool_decide (mCurrentBallot b = None)
      || negb (and_ptr (mCommit b) (fun c => negb (areBallotsCompatible c x)))).
Lemma swp_updateCurrentValue x (Q : bool -> Slot -> Prop) s :
  (forall s', machine s' = (if canMoveTo (ballots s) x then bumpMachine x (machine s) else machine s) ->
              level s' = level s -> Q (canMoveTo (ballots s) x) s') ->
  swp (updateCurrentValue NDEBUG x) Q E s.
Proof using HE.
  intros HQ. unfold updateCurrentValue, canMoveTo in *. do 2 sstep. rewrite negb_involutive.
  destruct (bool_decide (mPhase (ballots s) = _)); cbn [negb andb] in *; [by apply HQ|].
  do 2 sstep. unfold id. destruct (mCurrentBallot (ballots s)) as [cur|]; cbn [behind] in *.
  - rewrite bool_decide_eq_false_2 in HQ by done. cbn [orb] in HQ.
    sstep. apply swp_reads; [done|auto with slots|]. intros _.
    destruct (and_ptr (mCommit (ballots s)) _); cbn [negb] in HQ.
    { rewrite andb_false_r in HQ. by apply HQ. }
    rewrite andb_true_r in HQ. destruct (Z.ltb_spec (compareBallots cur x) 0).
    + sstep. apply swp_bumpToBallot. intros s' Hm Hl. sstep.
      apply swp_reads; [done|apply reads_checkInvariants|]. intros _. by apply HQ.
    + destruct (0 <? _); [by apply HQ|]. sstep.
      apply swp_reads; [done|apply reads_checkInvariants|]. intros _. by apply HQ.
  - cbn [andb] in HQ. rewrite bool_decide_eq_true_2 in HQ by done. cbn [orb] in HQ.
    sstep. apply swp_bumpToBallot. intros s' Hm Hl. sstep.
    apply swp_reads; [done|apply reads_checkInvariants|]. intros _. by apply HQ.
Qed.

Definition preparedMachine (x : SCPBallot) (m : Machine) : Machine :=
  let '(p, p') := raisePrepared (m_p m) (m_p' m) x in
  mkMachine (m_b m) p p' (m_h m) (m_c m) (m_M m) (m_phi m) (m_signed m) (m_externalized m).
Lemma swp_setPrepared x (Q : bool -> Slot -> Prop) s :
  (forall didWork s', machine s' = preparedMachine x (machine s) -> level s' = level s ->
                      Q didWork s') ->
  swp (setPrepared x) Q E s.
Proof using.
  intros HQ. unfold setPrepared. do 2 sstep. unfold id, preparedMachine, raisePrepared in *.
  cbn [machine m_p m_p'] in HQ. destruct (mPrepared (ballots s)) as [p|] eqn:Ep.
  - destruct (compareBallots p x <? 0).
    + sstep. destruct (areBallotsCompatible p x); cbn [negb when]; repeat sstep; by apply HQ.
    + destruct (_ && _); repeat sstep; apply HQ; try done; unfold machine; cbn; by rewrite Ep.
  - repeat sstep. by apply HQ.
Qed.
End Bumping.

(** ** The relation that runs respect

    Besides being a sequence of transitions, a run reports the externalized
    value by the time it ends, unless it started between the decision and the
    report; then it leaves the report to its caller. *)
Definition unreported (m : Machine) : Prop :=
  m_phi m <> SCP_PHASE_EXTERNALIZE -> m_externalized m = [].
Definition reported (m : Machine) : Prop :=
  m_phi m = SCP_PHASE_EXTERNALIZE -> m_externalized m <> [].

Section Refinement.
Context `{D : SCPDriver} (NDEBUG : bool) (L : LocalNode) (mSlotIndex : Z) (K : SCPStatement -> Prop).
Implicit Types m : Machine.

Definition evolves m m' : Prop :=
  unreported m ->
  reaches L K m m' /\ (reported m -> reported m')
  /\ (m_phi m = SCP_PHASE_EXTERNALIZE -> m_externalized m' = m_externalized m).

Lemma transition_externalize m m' :
  transition L K m m' -> m_phi m = SCP_PHASE_EXTERNALIZE -> m_phi m' = SCP_PHASE_EXTERNALIZE.
Proof using. destruct 1; cbn; congruence. Qed.
Lemma transition_unreported m m' : transition L K m m' -> unreported m -> unreported m'.
Proof using. unfold unreported. destruct 1; cbn; intuition congruence. Qed.
Lemma reaches_externalize m m' :
  reaches L K m m' -> m_phi m = SCP_PHASE_EXTERNALIZE -> m_phi m' = SCP_PHASE_EXTERNALIZE.
Proof using. induction 1; eauto using transition_externalize. Qed.
Lemma reaches_unreported m m' : reaches L K m m' -> unreported m -> unreported m'.
Proof using. induction 1; eauto using transition_unreported. Qed.

Lemma evolves_refl m : evolves m m.
Proof using. intros _. split; [apply rtc_refl|]. auto. Qed.
Lemma evolves_eq m m' : m' = m -> evolves m m'.
Proof using. intros ->. apply evolves_refl. Qed.
Lemma evolves_trans m1 m2 m3 : evolves m1 m2 -> evolves m2 m3 -> evolves m1 m3.
Proof using.
  intros H12 H23 H1. destruct (H12 H1) as (R12 & D12 & E12).
  destruct (H23 (reaches_unreported _ _ R12 H1)) as (R23 & D23 & E23).
  split; [by eapply rtc_trans|]. split; [auto|]. intros H.
  rewrite E23 by eauto using reaches_externalize. auto.
Qed.
(** A transition other than the decision and the report. *)
Lemma evolves_step m m' :
  transition L K m m' -> m_externalized m' = m_externalized m ->
  (m_phi m' = SCP_PHASE_EXTERNALIZE -> m_phi m = SCP_PHASE_EXTERNALIZE) ->
  evolves m m'.
Proof using.
  intros Ht He Hp _. split; [by apply rtc_once|]. unfold reported. rewrite He. auto.
Qed.

Definition refines {A} (c : SlotM A) : Prop :=
  forall s, swp c (fun _ s' => evolves (machine s) (machine s')) (fun _ => True) s.

Lemma refines_at {A} (c : SlotM A) m s (Q : A -> Slot -> Prop) :
  refines c -> evolves m (machine s) ->
  (forall a s', evolves m (machine s') -> Q a s') -> swp c Q (fun _ => True) s.
Proof using.
  intros Hc Hm HQ. eapply swp_mono; [apply Hc|]. intros a s' H. apply HQ.
  by eapply evolves_trans.
Qed.
Lemma refines_bind {A B} (c : SlotM A) (f : A -> SlotM B) :
  refines c -> (forall a, refines (f a)) -> refines (c ≫= f).
Proof using.
  intros Hc Hf s. apply swp_bind. eapply refines_at; [done|apply evolves_refl|].
  intros a s1 H1. eapply refines_at; eauto.
Qed.
Lemma refines_ret {A} (a : A) : refines (mret a).
Proof using. intros s. apply evolves_refl. Qed.
Lemma refines_when b c : refines c -> refines (when b c).
Proof using. destruct b; [done|intros; apply refines_ret]. Qed.
Lemma refines_reads {A} (c : SlotM A) : reads c -> refines c.
Proof using. intros H s. apply swp_reads; auto. intros. apply evolves_refl. Qed.
Lemma refines_quiet (f : Slot -> Slot) :
  (forall s, machine (f s) = machine s) -> refines (modifies f).
Proof using. intros H s. apply swp_modifies, evolves_eq, H. Qed.
Lemma refines_stops {A} x : refines (stops (A := A) x).
Proof using. intros s. apply I. Qed.

(** ** Steps the machine does not see *)
Lemma refines_assign f :
  (forall s, machine (on_ballots f s) = machine s) -> refines (assign f).
Proof using. apply refines_quiet. Qed.
Lemma refines_assignN f : refines (assignN f).
Proof using. by apply refines_quiet. Qed.
Lemma refines_tell c :
  match c with SignEnvelope _ | ValueExternalized _ => False | _ => True end -> refines (tell c).
Proof using. intros H. apply refines_quiet. intros s. unfold machine. cbn. by destruct c. Qed.
Lemma refines_setFullyValidated v : refines (setFullyValidated v).
Proof using. by apply refines_quiet. Qed.
Lemma refines_getn {A} (f : NominationState -> A) : refines (getn f).
Proof using. intros s. apply evolves_refl. Qed.
Lemma refines_gets {A} (f : Slot -> A) : refines (gets f).
Proof using. intros s. apply evolves_refl. Qed.
Lemma refines_getb {A} (f : BallotState -> A) : refines (getb f).
Proof using. intros s. apply evolves_refl. Qed.
End Refinement.

#[export] Hint Resolve refines_ret refines_bind refines_when refines_assignN refines_setFullyValidated
  refines_getn refines_gets refines_getb refines_stops : slots.
#[export] Hint Extern 2 (refines _ _ (tell _)) => (apply refines_tell; exact I) : slots.
#[export] Hint Extern 2 (refines _ _ (assign _)) => (apply refines_assign; reflexivity) : slots.
#[export] Hint Extern 4 (refines _ _ (deref _)) => (apply refines_reads, reads_deref) : slots.
#[export] Hint Extern 4 (refines _ _ (dbgAssert _ _)) =>
  (apply refines_reads, reads_dbgAssert; auto 9 with slots) : slots.
#[export] Hint Extern 4 (refines _ _ (checkInvariants _)) => (apply refines_reads, reads_checkInvariants) : slots.

(** Binds, branches and quiet steps. *)
Ltac quiet :=
  repeat first
    [ match goal with |- forall _, _ => intro end
    | match goal with |- refines _ _ (_ ≫= _) => apply refines_bind | |- refines _ _ (when _ _) => apply refines_when end
    | match goal with |- refines _ _ (match ?x with _ => _ end) => destruct x end
    | solve [auto 9 with slots] ].

Section Quiet.
Context `{D : SCPDriver} (NDEBUG : bool) (L : LocalNode) (K : SCPStatement -> Prop).
Lemma refines_sendLatestEnvelope : refines L K sendLatestEnvelope.
Proof using. unfold sendLatestEnvelope, isFullyValidated. quiet. Qed.
Lemma refines_checkHeardFromQuorum : refines L K (checkHeardFromQuorum L).
Proof using.
  unfold checkHeardFromQuorum, startBallotProtocolTimer, stopBallotProtocolTimer, votingPhase. quiet.
Qed.
Lemma refines_make_shared {A} (a : A) : refines L K (make_shared a).
Proof using. unfold make_shared. quiet. by apply refines_quiet. Qed.
Lemma refines_stopNomination : refines L K stopNomination.
Proof using. unfold stopNomination. quiet. Qed.
Lemma refines_createStatement t : refines L K (createStatement NDEBUG L t).
Proof using. unfold createStatement. quiet. Qed.
End Quiet.
#[export] Hint Resolve refines_sendLatestEnvelope refines_checkHeardFromQuorum refines_make_shared
  refines_stopNomination refines_createStatement : slots.
