(* ===== verification/BallotRefinement.v ===== *)
(** The code of the ballot protocol implements the abstract machine: every run
    that ends is a sequence of transitions, whatever the driver answers. *)

From S2P Require Import Prelude Types Sorting Quorums QuorumFacts Ballots BallotOrder SlotState BallotProtocol ScpMachine ScpRefinement.

Section BallotRefinement.
Context `{D : SCPDriver} (NDEBUG : bool) (L : LocalNode) (mSlotIndex : Z) (K : SCPStatement -> Prop).
Implicit Types m : Machine.
#[local] Abbreviation refines := (ScpRefinement.refines L K).
#[local] Abbreviation evolves := (ScpRefinement.evolves L K).

(** ** The operations between two emissions

    [emit] is any computation that respects the relation, and that does not
    return from the confirm phase without a commit. *)
Section Emit.
Context (emit : SlotM unit) (Hemit : refines emit)
  (Hcrash : forall s, mPhase (ballots s) = SCP_PHASE_CONFIRM -> mCommit (ballots s) = None ->
     swp emit (fun _ _ => False) (fun _ => True) s).
Hint Resolve Hemit : slots.

Lemma votingPhase_true s :
  negb (bool_decide (mPhase (ballots s) = SCP_PHASE_EXTERNALIZE)) = true ->
  m_phi (machine s) <> SCP_PHASE_EXTERNALIZE.
Proof using. rewrite negb_true_iff, bool_decide_eq_false. done. Qed.
Lemma behind_lt (o : option SCPBallot) x b : behind o x = true -> o = Some b -> ballot_lt b x.
Proof using. intros H ->. by apply compareBallots_lt, Z.ltb_lt. Qed.

Lemma evolves_bump x m :
  m_phi m <> SCP_PHASE_EXTERNALIZE -> behind (m_b m) x = true ->
  (m_phi m = SCP_PHASE_CONFIRM -> m_b m <> None -> forall c, m_c m = Some c -> value c = value x) ->
  evolves m (bumpMachine x m).
Proof using.
  intros Hp Hb Hc. apply evolves_step; [|done..]. apply Bump; eauto using behind_lt.
Qed.

Lemma refines_updateCurrentValue x : refines (updateCurrentValue NDEBUG x).
Proof using.
  intros s. apply swp_updateCurrentValue; [done|]. intros s1 Hm _. rewrite Hm. unfold canMoveTo.
  destruct (bool_decide (mPhase _ = _)) eqn:Ep; [apply evolves_refl|].
  apply bool_decide_eq_false in Ep. cbn [negb andb].
  destruct (behind (mCurrentBallot (ballots s)) x) eqn:Eb; [|apply evolves_refl].
  destruct (_ || _) eqn:Ec; [|apply evolves_refl]. apply evolves_bump; [done|done|].
  intros _ Hb c Hc. apply orb_true_iff in Ec as [Ec%bool_decide_eq_true|Ec]; [done|].
  cbn in Hc. rewrite Hc in Ec. cbn in Ec. apply negb_true_iff, negb_false_iff in Ec.
  by apply areBallotsCompatible_spec in Ec.
Qed.
Lemma refines_bumpStateTo v n : refines (bumpStateTo NDEBUG L emit v n).
Proof using Hemit.
  unfold bumpStateTo, votingPhase. quiet. apply refines_updateCurrentValue.
Qed.
Lemma refines_bumpState v force : refines (bumpState NDEBUG L emit v force).
Proof using Hemit. unfold bumpState. quiet. apply refines_bumpStateTo. Qed.
Lemma refines_abandonBallot n : refines (abandonBallot NDEBUG L emit n).
Proof using Hemit.
  unfold abandonBallot, getLatestCompositeCandidate. quiet;
    auto using refines_bumpState, refines_bumpStateTo.
Qed.
Lemma refines_attemptBump : refines (attemptBump NDEBUG L emit).
Proof using Hemit.
  unfold attemptBump, votingPhase, latestStatements. quiet. apply refines_abandonBallot.
Qed.

(** *** Accepting as prepared *)
Lemma swp_setPreparedAccept x s :
  m_phi (machine s) <> SCP_PHASE_EXTERNALIZE ->
  accepted L (m_M (machine s)) (votesPrepare x) (hasPreparedBallot x) ->
  (forall p', m_p' (machine s) = Some p' -> ballot_lt p' x) ->
  (forall p, m_p (machine s) = Some p -> ~ (ballot_le x p /\ value x = value p)) ->
  (m_phi (machine s) = SCP_PHASE_CONFIRM ->
   exists p, m_p (machine s) = Some p /\ ballot_le p x /\ value p = value x) ->
  swp (setPreparedAccept NDEBUG emit x) (fun _ s' => evolves (machine s) (machine s'))
    (fun _ => True) s.
Proof using Hemit Hcrash.
  intros H1 H2 H3 H4 H5. unfold setPreparedAccept.
  apply swp_bind, swp_setPrepared. intros work s1 Hs1 _. sstep. sstep. cbn [id].
  change (bool_decide _ && _) with
    (aborted (m_p (machine s1)) (m_p' (machine s1)) (m_h (machine s1)) (m_c (machine s1))).
  destruct (raisePrepared (m_p (machine s)) (m_p' (machine s)) x) as [p1 p1'] eqn:Er.
  assert (Hs : machine s1 = mkMachine (m_b (machine s)) p1 p1' (m_h (machine s)) (m_c (machine s))
    (m_M (machine s)) (m_phi (machine s)) (m_signed (machine s)) (m_externalized (machine s))).
  { rewrite Hs1. unfold preparedMachine. by rewrite Er. }
  pose proof (AcceptPrepared L K (machine s) x p1 p1' H1 H2 H3 H4 H5 Er) as Ht.
  rewrite Hs. cbn [m_p m_p' m_h m_c].
  destruct (aborted p1 p1' _ _) eqn:Ea; cbn [orb when].
  - destruct (decide (mPhase (ballots s1) = SCP_PHASE_CONFIRM)) as [Hc|Hc].
    + sstep. sstep. apply swp_reads; [done|auto with slots|]. intros _.
      do 4 sstep. eapply swp_mono; [by apply Hcrash|done].
    + sstep. sstep. apply swp_reads; [done|auto with slots|]. intros _.
      do 2 sstep. eapply refines_at with (m := machine s); [quiet| |auto].
      assert (Hphi : mPhase (ballots s1) = m_phi (machine s)) by (change (m_phi (machine s1) = m_phi (machine s)); by rewrite Hs).
      match goal with |- evolves _ (machine ?s2) =>
        assert (E2 : machine s2 = mkMachine (m_b (machine s1)) (m_p (machine s1)) (m_p' (machine s1))
          (m_h (machine s1)) None (m_M (machine s1)) (m_phi (machine s1)) (m_signed (machine s1))
          (m_externalized (machine s1))) by done end.
      rewrite E2, Hs. cbn. apply evolves_step; [|done..]. apply Ht. congruence.
  - do 2 sstep. eapply refines_at with (m := machine s); [quiet| |auto]. rewrite Hs.
    apply evolves_step; [|done..]. by apply Ht.
Qed.

Lemma and_ptr_false o f : and_ptr o f = false <-> forall b, o = Some b -> f b = false.
Proof using. destruct o; cbn; split; intros; try done; [congruence|auto]. Qed.
Lemma and_ptr_true o f : and_ptr o f = true <-> exists b, o = Some b /\ f b = true.
Proof using. destruct o; cbn; split; intros; try done; [eauto|naive_solver|naive_solver]. Qed.

Lemma refines_acceptPrepared candidates s :
  m_phi (machine s) <> SCP_PHASE_EXTERNALIZE ->
  swp (acceptPrepared NDEBUG L emit candidates) (fun _ s' => evolves (machine s) (machine s'))
    (fun _ => True) s.
Proof using Hemit Hcrash.
  intros Hv. induction candidates as [|x rest IH]; cbn [acceptPrepared]; [apply swp_ret, evolves_refl|].
  sstep. sstep. sstep. cbn [id].
  apply swp_mono with (Q := fun r s' => s' = s /\
    (r = true -> mPhase (ballots s) = SCP_PHASE_CONFIRM ->
     exists p, mPrepared (ballots s) = Some p /\ ballot_le p x /\ value p = value x)).
  { destruct (bool_decide_reflect (mPhase (ballots s) = SCP_PHASE_CONFIRM)); [|sstep; naive_solver].
    do 2 sstep; [|done]. destruct (areBallotsLessAndCompatible a x) eqn:Ec.
    - apply lessAndCompatible_spec in Ec. sstep.
      apply swp_reads; [done|auto 9 with slots|]. intros _. sstep. eauto.
    - sstep. by split. }
  intros r s' [-> Hr]. destruct (_ || _ || _) eqn:Eo; [exact IH|].
  apply orb_false_iff in Eo as [[E1%negb_false_iff E2]%orb_false_iff E3].
  destruct (federatedAccept _ _ _ _) eqn:Ef; [|exact IH].
  apply swp_setPreparedAccept; [done|by apply federatedAccept_accepted|..].
  - intros p' Hp'. rewrite and_ptr_false in E2. specialize (E2 _ Hp').
    apply Z.leb_gt in E2. by apply compareBallots_gt.
  - intros p Hp. rewrite and_ptr_false in E3. specialize (E3 _ Hp).
    by rewrite <- lessAndCompatible_spec, E3.
  - cbn. auto.
Qed.
Lemma refines_attemptPreparedAccept hint : refines (attemptPreparedAccept NDEBUG L emit hint).
Proof using Hemit Hcrash.
  intros s. unfold attemptPreparedAccept. do 3 sstep; [apply swp_ret, evolves_refl|].
  do 2 sstep. apply refines_acceptPrepared, votingPhase_true. by apply negb_false_iff.
Qed.

(** *** Confirming as prepared *)
Lemma findNewH_spec high f candidates newH rest :
  findNewH high f candidates = Some (newH, rest) ->
  f newH = true /\ (forall h, high = Some h -> ballot_lt h newH).
Proof using.
  induction candidates as [|x candidates IH]; cbn; [done|].
  destruct (and_ptr high _) eqn:Eh; [done|]. destruct (f x) eqn:Ef; [|done].
  intros [= <- <-]. split; [done|]. intros h Hh. rewrite and_ptr_false in Eh.
  specialize (Eh _ Hh). apply Z.leb_gt in Eh. by apply compareBallots_lt.
Qed.
Lemma findNewC_spec b newH f newC candidates (P : SCPBallot -> Prop) :
  P newC ->
  (forall x, f x = true -> ballot_le b x -> ballot_le x newH -> value x = value newH -> P x) ->
  P (findNewC b newH f newC candidates).
Proof using.
  intros H0 HP. revert newC H0. induction candidates as [|x candidates IH]; intros newC H0; cbn; [done|].
  destruct (Z.ltb_spec (compareBallots x b) 0) as [|Hb]; [done|].
  destruct (areBallotsLessAndCompatible x newH) eqn:Ec; cbn [negb]; [|by apply IH].
  destruct (f x) eqn:Ef; [|done]. apply lessAndCompatible_spec in Ec as [Hle Hv].
  apply IH, HP; try done. by apply compareBallots_ge.
Qed.

Lemma swp_setPreparedConfirmed newC newH s :
  m_phi (machine s) = SCP_PHASE_PREPARE ->
  ratified L (m_M (machine s)) (hasPreparedBallot newH) ->
  (forall h, m_h (machine s) = Some h -> ballot_lt h newH) ->
  (counter newC <> 0 ->
     m_c (machine s) = None /\ counter newC <> 0 /\
     ratified L (m_M (machine s)) (hasPreparedBallot newC) /\
     ballot_le (default (mkBallot 0 []) (m_b (machine s))) newC /\ ballot_le newC newH
     /\ value newC = value newH) ->
  swp (setPreparedConfirmed NDEBUG emit newC newH)
    (fun _ s' => evolves (machine s) (machine s')) (fun _ => True) s.
Proof using Hemit.
  intros H1 H2 H3 H4. unfold setPreparedConfirmed. do 5 sstep. cbn [id].
  apply swp_mono with (Q := fun _ s' => evolves (machine s) (machine s')
    /\ m_phi (machine s') = SCP_PHASE_PREPARE).
  { cbn [ballots on_ballots set_override mCurrentBallot mHighBallot]. sstep.
    - sstep. set (c := if counter newC =? 0 then None else Some newC).
      assert (Hb : forall b, m_b (machine s) = Some b -> value b = value newH).
      { intros b Hb. cbn in Hb. rewrite Hb in H. by apply areBallotsCompatible_spec in H. }
      assert (Hc : forall c0, c = Some c0 -> m_c (machine s) = None /\ counter c0 <> 0 /\
         ratified L (m_M (machine s)) (hasPreparedBallot c0) /\
         ballot_le (default (mkBallot 0 []) (m_b (machine s))) c0 /\ ballot_le c0 newH
         /\ value c0 = value newH).
      { unfold c. destruct (Z.eqb_spec (counter newC) 0); [done|]. intros c0 [= <-]. auto. }
      pose proof (ConfirmPrepared L K (machine s) c newH H1 H2 Hb H3 Hc) as Ht.
      assert (Hev : evolves (machine s) (mkMachine (m_b (machine s)) (m_p (machine s))
        (m_p' (machine s)) (Some newH) (match c with Some c => Some c | None => m_c (machine s) end)
        (m_M (machine s)) (m_phi (machine s)) (m_signed (machine s)) (m_externalized (machine s)))).
      { by apply evolves_step. }
      assert (Hr : match mHighBallot (ballots s) with
                   | Some h => 0 <? compareBallots newH h | None => true end = true).
      { destruct (mHighBallot (ballots s)) as [h|] eqn:Eh; [|done].
        by apply Z.ltb_lt, compareBallots_gt, H3. }
      rewrite Hr. rewrite orb_true_r. cbn [when]. do 2 sstep. sstep.
      + sstep. apply swp_reads; [done|auto 9 with slots|]. intros _. do 4 sstep.
        unfold c in *. destruct (Z.eqb_spec (counter newC) 0); [done|]. by split.
      + do 3 sstep. unfold c in *. destruct (Z.eqb_spec (counter newC) 0); [|done]. by split.
    - sstep. split; [apply evolves_refl|done]. }
  intros work s1 [Hev Hphi]. sstep. apply swp_updateCurrentIfNeeded; [done|]. intros s2 Hm _.
  assert (evolves (machine s) (machine s2)).
  { eapply evolves_trans; [exact Hev|]. rewrite Hm. destruct (behind _ _) eqn:Eb; [|apply evolves_refl].
    apply evolves_bump; [congruence|exact Eb|congruence]. }
  eapply refines_at; [|eassumption|auto]. quiet.
Qed.
Lemma refines_attemptPreparedConfirmed hint : refines (attemptPreparedConfirmed NDEBUG L emit hint).
Proof using Hemit.
  intros s. unfold attemptPreparedConfirmed. do 2 sstep. cbn [id].
  destruct (bool_decide_reflect (mPhase (ballots s) = SCP_PHASE_PREPARE)) as [Hp|]; cbn [negb];
    [|sstep; apply evolves_refl].
  sstep; [sstep; apply evolves_refl|]. do 2 sstep.
  destruct (findNewH _ _ _) as [[newH rest]|] eqn:Ef; [|sstep; apply evolves_refl].
  apply findNewH_spec in Ef as [Hr Hh]. apply federatedRatify_ratified in Hr.
  apply swp_setPreparedConfirmed; [done..|].
  destruct (bool_decide_reflect (mCommit (ballots s) = None)) as [Hc|]; cbn [andb]; [|done].
  destruct (_ && _); [|done].
  refine (findNewC_spec _ _ _ _ _ (fun newC => counter newC <> 0 -> m_c (machine s) = None /\
     counter newC <> 0 /\ ratified L (m_M (machine s)) (hasPreparedBallot newC) /\
     ballot_le (default (mkBallot 0 []) (m_b (machine s))) newC /\ ballot_le newC newH
     /\ value newC = value newH) _ _); [done|].
  intros x Hx%federatedRatify_ratified ? ? ? ?. done.
Qed.

(** *** Accepting and confirming a commit *)
Lemma raiseCurrent_behind phi b h :
  phi <> SCP_PHASE_PREPARE -> raiseCurrent phi b h = (if behind b h then Some h else b).
Proof using.
  intros Hp. unfold raiseCurrent. destruct b as [b|]; [|done]. cbn [behind].
  rewrite (bool_decide_eq_false_2 _ Hp), orb_false_r. done.
Qed.
Lemma behind_self h : behind (Some h) h = false.
Proof using. cbn. by rewrite compareBallots_refl. Qed.
(** [b] in two steps: the change of phase, then [updateCurrentIfNeeded]. *)
Lemma raiseCurrent_step phi b h :
  let b2 := if bool_decide (phi = SCP_PHASE_PREPARE)
               && and_ptr b (fun cur => negb (areBallotsLessAndCompatible h cur))
            then Some h else b in
  raiseCurrent phi b h = if behind b2 h then Some h else b2.
Proof using.
  cbn zeta. unfold raiseCurrent. destruct b as [b|]; cbn [and_ptr].
  - destruct (bool_decide (phi = SCP_PHASE_PREPARE)); cbn [andb]; [|by rewrite orb_false_r].
    destruct (areBallotsLessAndCompatible h b); cbn [negb]; [by rewrite orb_false_r|].
    by rewrite orb_true_r, behind_self.
  - by rewrite andb_false_r.
Qed.
Lemma keepCompatible_same h : keepCompatible h (Some h) = Some h.
Proof using. unfold keepCompatible, areBallotsCompatible. by rewrite bool_decide_eq_true_2. Qed.

(** The two parts of [setAcceptCommit] before [updateCurrentIfNeeded]. *)
Definition commitMachine c h m : Machine :=
  mkMachine (m_b m) (m_p m) (m_p' m) (Some h) (Some c) (m_M m) (m_phi m) (m_signed m) (m_externalized m).
Lemma swp_commitFields b c h s (Q : unit -> Slot -> Prop) :
  mHighBallot b = m_h (machine s) -> mCommit b = m_c (machine s) ->
  (forall s', machine s' = commitMachine c h (machine s) -> Q tt s') ->
  swp (when (negb (and_ptr (mHighBallot b) (fun h0 => compareBallots h0 h =? 0)
                   && and_ptr (mCommit b) (fun c0 => compareBallots c0 c =? 0)))
         (assign (fun b => set_high (set_commit b (Some c)) (Some h)))) Q (fun _ => True) s.
Proof using.
  intros Eh Ec HQ. sstep; [sstep; by apply HQ|].
  match goal with H : _ = false |- _ => apply negb_false_iff, andb_true_iff in H as [Hh Hc] end.
  apply and_ptr_true in Hh as (h0 & Eh0 & Hh), Hc as (c0 & Ec0 & Hc).
  apply Z.eqb_eq, compareBallots_eq in Hh, Hc. subst. apply HQ. unfold commitMachine.
  by rewrite <- Eh0, <- Ec0, Eh, Ec.
Qed.
Definition enterMachine h m : Machine :=
  let preparing := bool_decide (m_phi m = SCP_PHASE_PREPARE) in
  mkMachine
    (if preparing && and_ptr (m_b m) (fun cur => negb (areBallotsLessAndCompatible h cur))
     then Some h else m_b m)
    (m_p m) (if preparing then None else m_p' m) (m_h m) (m_c m) (m_M m) SCP_PHASE_CONFIRM
    (m_signed m) (m_externalized m).
Lemma swp_enterConfirm b h s (Q : unit -> Slot -> Prop) :
  mPhase b = m_phi (machine s) -> mCurrentBallot b = m_b (machine s) ->
  m_h (machine s) = Some h -> m_phi (machine s) <> SCP_PHASE_EXTERNALIZE ->
  (forall s', machine s' = enterMachine h (machine s) -> Q tt s') ->
  swp (when (bool_decide (mPhase b = SCP_PHASE_PREPARE))
         (_ ← assign (fun b => set_phase b SCP_PHASE_CONFIRM);
          _ ← when (and_ptr (mCurrentBallot b) (fun cur => negb (areBallotsLessAndCompatible h cur)))
                (bumpToBallot NDEBUG h false);
          assign (fun b => set_preparedPrime b None))) Q (fun _ => True) s.
Proof using.
  intros -> -> Hh Hphi HQ. unfold enterMachine in HQ.
  destruct (bool_decide_reflect (m_phi (machine s) = SCP_PHASE_PREPARE)) as [Hp|Hp]; cbn [when andb] in *.
  - do 3 sstep. set (s2 := on_ballots _ s).
    assert (Hs2 : machine s2 = phaseMachine SCP_PHASE_CONFIRM (machine s)) by done. clearbody s2.
    sstep; match goal with H : and_ptr _ _ = _ |- _ => rewrite H in HQ end.
    + apply swp_bumpToBallot; [done|]. intros s3 Hs3 _. sstep. apply HQ.
      match goal with |- machine ?s' = _ => change (machine s') with (primeMachine None (machine s3)) end.
      rewrite Hs3, Hs2. unfold bumpMachine, primeMachine, phaseMachine. mproj.
      by rewrite Hh, keepCompatible_same.
    + sstep. apply HQ.
      match goal with |- machine ?s' = _ => change (machine s') with (primeMachine None (machine s2)) end.
      by rewrite Hs2.
  - sstep. apply HQ. destruct (machine s). cbn in *. f_equal. destruct m_phi; congruence.
Qed.

Lemma swp_setAcceptCommit c h s :
  m_phi (machine s) <> SCP_PHASE_EXTERNALIZE ->
  value c = value h -> 0 <> counter c -> counter c <= counter h ->
  (m_phi (machine s) = SCP_PHASE_CONFIRM ->
   exists h0, m_h (machine s) = Some h0 /\ value h0 = value h /\ counter h0 < counter h) ->
  accepted L (m_M (machine s)) (votesCommit h (counter c, counter h))
    (commitPredicate h (counter c, counter h)) ->
  swp (setAcceptCommit NDEBUG emit c h) (fun _ s' => evolves (machine s) (machine s'))
    (fun _ => True) s.
Proof using Hemit.
  intros H1 H2 H3 H4 H5 H6. pose proof (AcceptCommit L K (machine s) c h H1 H2 H3 H4 H5 H6) as Ht.
  unfold setAcceptCommit. do 4 sstep. cbv zeta. cbn [id]. sstep.
  apply swp_commitFields; [done..|]. intros s1 Hs1. sstep.
  change (machine (on_ballots _ s)) with (machine s) in Hs1.
  apply swp_enterConfirm; [by rewrite Hs1..|]. intros s2 Hs2. sstep.
  match goal with |- swp (when ?w _) _ _ _ => assert (Hd : w = true) end.
  { match goal with |- ?p || negb ?e = true => destruct p eqn:Ep, e eqn:Ea; try done end. exfalso.
    apply bool_decide_eq_false in Ep. cbn in *.
    apply andb_true_iff in Ea as [Hh _]. apply and_ptr_true in Hh as (h0 & Eh & Hh).
    apply Z.eqb_eq, compareBallots_eq in Hh. subst h0.
    destruct H5 as (h0 & Eh0 & _ & Hlt); [destruct (mPhase (ballots s)); congruence|].
    rewrite Eh in Eh0. injection Eh0 as <-. lia. }
  rewrite Hd. cbn [when]. do 4 sstep; [|done]. rewrite Hs1 in Hs2.
  assert (Ha : a = h).
  { match goal with H : mHighBallot (ballots s2) = Some a |- _ =>
      change (m_h (machine s2) = Some a) in H; rewrite Hs2 in H; by injection H end. }
  subst a. sstep. apply swp_updateCurrentIfNeeded; [done|]. intros s3 Hs3 _.
  change (mCurrentBallot (ballots s2)) with (m_b (machine s2)) in Hs3. rewrite Hs2 in Hs3.
  eapply refines_at with (m := machine s); [quiet| |intros; sstep; done].
  match type of Ht with transition _ _ _ ?m => assert (Hm : machine s3 = m) end.
  { rewrite Hs3. clear. destruct (machine s) as [b p p' h0 c0 M phi signed ext].
    unfold enterMachine, commitMachine. mproj. rewrite raiseCurrent_step.
    destruct (behind _ h); [|done]. unfold bumpMachine. mproj. by rewrite keepCompatible_same. }
  rewrite Hm. by apply evolves_step.
Qed.

(** What the search for an interval found. *)
Lemma foundInterval pred boundaries (candidate := findExtendedInterval (0, 0) boundaries pred) :
  (candidate.1 =? 0) = false ->
  0 <> candidate.1 /\ candidate.1 <= candidate.2 /\ pred (candidate.1, candidate.2) = true.
Proof using.
  intros Hne%Z.eqb_neq. destruct (extendInterval_pred pred (rev boundaries) (0, 0)) as [Hp Hle].
  - by intros [].
  - exact Hne.
  - fold (findExtendedInterval (0, 0) boundaries pred) in Hp, Hle. fold candidate in Hp, Hle.
    destruct candidate. cbn in *. auto.
Qed.

Lemma refines_attemptAcceptCommit hint : refines (attemptAcceptCommit NDEBUG L emit hint).
Proof using Hemit.
  intros s. unfold attemptAcceptCommit. do 3 sstep; [sstep; apply evolves_refl|].
  match goal with H : negb _ = false |- _ => apply negb_false_iff, votingPhase_true in H as Hv end.
  destruct (hintCommit _) as [ballot|]; [|sstep; apply evolves_refl]. do 2 sstep. cbn [id]. sstep.
  (* The two tests of the confirm phase. *)
  apply swp_mono with (Q := fun r s' => s' = s /\ (r = true -> mPhase (ballots s) = SCP_PHASE_CONFIRM ->
    exists h, mHighBallot (ballots s) = Some h /\ value h = value ballot)).
  { destruct (bool_decide_reflect (mPhase (ballots s) = SCP_PHASE_CONFIRM)); [|by sstep].
    do 2 sstep; [|done]. sstep. split; [done|]. intros Hc%areBallotsCompatible_spec _. eauto. }
  intros compatible s' [-> Hcompat]. sstep; [sstep; apply evolves_refl|].
  match goal with H : negb compatible = false |- _ => apply negb_false_iff in H; subst compatible end.
  do 2 sstep. destruct (allCommitBoundaries _ _) as [|n boundaries]; [sstep; apply evolves_refl|].
  set (candidate := findExtendedInterval _ _ _).
  destruct (candidate.1 =? 0) eqn:Ez; [sstep; apply evolves_refl|].
  apply foundInterval in Ez as (Hne & Hle & Hp). fold candidate in Hne, Hle, Hp. sstep.
  apply swp_mono with (Q := fun r s' => s' = s /\ (r = true -> mPhase (ballots s) = SCP_PHASE_CONFIRM ->
    exists h, mHighBallot (ballots s) = Some h /\ counter h < candidate.2)).
  { destruct (bool_decide_reflect (mPhase (ballots s) = SCP_PHASE_CONFIRM)); [|by sstep].
    do 2 sstep; [|done]. sstep. split; [done|]. intros Hlt%Z.ltb_lt _. eauto. }
  intros raises s' [-> Hraises]. destruct raises; [|sstep; apply evolves_refl].
  apply swp_setAcceptCommit; cbn [value counter]; try done.
  - intros Hc. destruct (Hcompat eq_refl Hc) as (h & Hh & Hvh), (Hraises eq_refl Hc) as (h' & Hh' & Hlt).
    exists h. change (m_h (machine s)) with (mHighBallot (ballots s)). split; [done|]. split; [done|].
    congruence.
  - apply federatedAccept_accepted in Hp.
    eapply accepted_ext; [| |exact Hp]; intros st;
      [by apply votesCommit_value|by apply commitPredicate_value].
Qed.

Lemma swp_setConfirmCommit c h s :
  m_phi (machine s) = SCP_PHASE_CONFIRM ->
  value c = value h -> 0 <> counter c -> counter c <= counter h ->
  (exists c0, m_c (machine s) = Some c0 /\ value c0 = value h) ->
  ratified L (m_M (machine s)) (commitPredicate h (counter c, counter h)) ->
  swp (setConfirmCommit NDEBUG emit c h) (fun _ s' => evolves (machine s) (machine s'))
    (fun _ => True) s.
Proof using Hemit.
  intros H1 H2 H3 H4 H5 H6. pose proof (ConfirmCommit L K (machine s) c h H1 H2 H3 H4 H5 H6) as Ht.
  unfold setConfirmCommit. do 3 sstep.
  match goal with |- swp _ _ _ ?s' => set (s1 := s') end.
  assert (Hs1 : machine s1 = mkMachine (m_b (machine s)) (m_p (machine s)) (m_p' (machine s))
    (Some h) (Some c) (m_M (machine s)) (m_phi (machine s)) (m_signed (machine s))
    (m_externalized (machine s))) by done.
  assert (Hb1 : mCurrentBallot (ballots s1) = m_b (machine s)) by done. clearbody s1.
  apply swp_updateCurrentIfNeeded; [done|]. intros s2 Hs2 _. rewrite Hb1, Hs1 in Hs2. do 2 sstep.
  match goal with |- swp _ _ _ ?s' => set (s3 := s') end.
  assert (Hs3 : machine s3 = phaseMachine SCP_PHASE_EXTERNALIZE (machine s2)) by done. clearbody s3.
  set (m3 := mkMachine _ _ _ _ _ _ SCP_PHASE_EXTERNALIZE _ _) in Ht.
  assert (Hm3 : machine s3 = m3).
  { rewrite Hs3, Hs2. unfold m3. rewrite raiseCurrent_behind by (by rewrite H1).
    destruct (behind _ h); [|done]. unfold bumpMachine, phaseMachine. mproj.
    by rewrite keepCompatible_same. }
  sstep. eapply swp_mono; [apply Hemit|]. intros ? s4 H34. unfold stopNomination. do 2 sstep.
  match goal with |- swp _ _ _ ?s' => set (s5 := s') end.
  assert (Hs5 : machine s5 = machine s4) by done. clearbody s5.
  do 4 sstep; [|done]. do 3 sstep.
  match goal with H : mCommit (ballots s5) = Some ?x |- _ =>
    change (m_c (machine s5) = Some x) in H; rename H into Hc; rename x into cm end.
  match goal with |- evolves _ ?m => set (m6 := m) end.
  assert (Hm6 : m6 = mkMachine (m_b (machine s5)) (m_p (machine s5)) (m_p' (machine s5))
    (m_h (machine s5)) (m_c (machine s5)) (m_M (machine s5)) (m_phi (machine s5))
    (m_signed (machine s5)) (value cm :: m_externalized (machine s5))) by done. clearbody m6.
  intros Hun. rewrite Hm3 in H34. rewrite Hs5 in *.
  destruct H34 as (R & _ & Hext); [by intros []|]. specialize (Hext eq_refl).
  assert (Hnil : m_externalized (machine s4) = []) by (rewrite Hext; apply Hun; by rewrite H1).
  assert (Hphi : m_phi (machine s4) = SCP_PHASE_EXTERNALIZE) by (by eapply reaches_externalize).
  split; [|split].
  - eapply rtc_l; [exact Ht|]. eapply rtc_r; [exact R|]. rewrite Hm6, Hnil.
    by apply Externalize.
  - intros _ _. by rewrite Hm6.
  - rewrite H1. done.
Qed.
Lemma refines_attemptConfirmCommit hint : refines (attemptConfirmCommit NDEBUG L emit hint).
Proof using Hemit.
  intros s. unfold attemptConfirmCommit. do 2 sstep. cbn [id].
  destruct (bool_decide_reflect (mPhase (ballots s) = SCP_PHASE_CONFIRM)) as [Hp|]; cbn [negb];
    [|sstep; apply evolves_refl].
  destruct (mHighBallot (ballots s)); [|sstep; apply evolves_refl].
  destruct (mCommit (ballots s)) as [c0|] eqn:Ec; [|sstep; apply evolves_refl].
  destruct (hintConfirm _) as [ballot|]; [|sstep; apply evolves_refl].
  destruct (areBallotsCompatible ballot c0) eqn:Ev; cbn [negb]; [|sstep; apply evolves_refl].
  apply areBallotsCompatible_spec in Ev. do 2 sstep. set (candidate := findExtendedInterval _ _ _).
  destruct (candidate.1 =? 0) eqn:Ez; [sstep; apply evolves_refl|].
  apply foundInterval in Ez as (Hne & Hle & Hr). fold candidate in Hne, Hle, Hr.
  apply swp_setConfirmCommit; cbn [value counter]; try done.
  - exists c0. split; [exact Ec|done].
  - apply federatedRatify_ratified in Hr. eapply ratified_ext; [|exact Hr].
    intros st. by apply commitPredicate_value.
Qed.

(** *** Processing an envelope *)
Lemma refines_repeatWhile k body work : refines body -> refines (repeatWhile k body work).
Proof using.
  intros Hb. revert work. induction k as [|k IH]; intros work; cbn [repeatWhile]; quiet; done.
Qed.
Lemma refines_doWhile body work : refines body -> refines (doWhile body work).
Proof using. intros Hb. unfold doWhile. quiet. by apply refines_repeatWhile. Qed.
Lemma refines_advanceSlot hint : refines (advanceSlot NDEBUG L emit hint).
Proof using Hemit Hcrash.
  unfold advanceSlot, throws. quiet;
    auto using refines_attemptPreparedAccept, refines_attemptPreparedConfirmed,
      refines_attemptAcceptCommit, refines_attemptConfirmCommit, refines_doWhile, refines_attemptBump.
Qed.

Lemma swp_recordEnvelope e s (Q : unit -> Slot -> Prop) :
  K (statement e) \/ statement e ∈ m_signed (machine s) ->
  (forall old, m_M (machine s) !! nodeID (statement e) = Some old ->
               isNewerStatement old (statement e) = true) ->
  (m_phi (machine s) = SCP_PHASE_EXTERNALIZE -> exists c,
     m_c (machine s) = Some c /\ value c = value (getWorkingBallot (statement e))) ->
  (forall s', evolves (machine s) (machine s') -> Q tt s') ->
  swp (recordEnvelope e) Q (fun _ => True) s.
Proof using.
  intros H1 H2 H3 HQ. unfold recordEnvelope, recordStatement. do 3 sstep. apply HQ.
  pose proof (Receive L K (machine s) (statement e) H1 H2 H3) as Ht.
  apply evolves_step; [|done..].
  assert (E : <[nodeID (statement e) := statement e]> (m_M (machine s))
              = statement <$> <[nodeID (statement e) := e]> (mLatestEnvelopes (ballots s)))
    by (symmetry; apply fmap_insert).
  rewrite E in Ht. exact Ht.
Qed.
Lemma swp_processEnvelopeWith e self s :
  K (statement e) \/ statement e ∈ m_signed (machine s) ->
  swp (processEnvelopeWith NDEBUG L mSlotIndex emit e self)
    (fun _ s' => evolves (machine s) (machine s')) (fun _ => True) s.
Proof using Hemit Hcrash.
  intros HK. unfold processEnvelopeWith. sstep. apply swp_reads; [done|auto with slots|]. intros _.
  sstep; [sstep; apply evolves_refl|]. unfold isNewerFrom. do 2 sstep.
  sstep; [sstep; apply evolves_refl|].
  match goal with H : negb _ = false |- _ => apply negb_false_iff in H; rename H into Hnew end.
  assert (Hn : forall old, m_M (machine s) !! nodeID (statement e) = Some old ->
               isNewerStatement old (statement e) = true).
  { intros old. cbn [machine m_M]. rewrite lookup_fmap.
    destruct (mLatestEnvelopes (ballots s) !! _); cbn; [|done]. by intros [= <-]. }
  sstep; [sstep; apply evolves_refl|]. do 2 sstep. cbn [id].
  destruct (bool_decide_reflect (mPhase (ballots s) = SCP_PHASE_EXTERNALIZE)) as [Hp|Hp]; cbn [negb].
  - do 2 sstep; [|done]. sstep; [|sstep; apply evolves_refl].
    match goal with H : bool_decide _ = true |- _ => apply bool_decide_eq_true in H end.
    sstep. apply swp_recordEnvelope; [done|done|eauto|]. intros s' H'. by sstep.
  - sstep. apply swp_mono with (Q := fun _ s' => machine s' = machine s); [repeat sstep; done|].
    intros ? s1 Hs1. sstep. rewrite <- Hs1 in HK, Hn. apply swp_recordEnvelope; [done|done| |].
    { rewrite Hs1. done. }
    rewrite Hs1. intros s2 H2. eapply refines_at; [|exact H2|auto].
    quiet. apply refines_advanceSlot.
Qed.
End Emit.

(** ** Closing the circle *)
Lemma swp_createStatement t s (Q : Pledges -> Slot -> Prop) :
  t = mPhase (ballots s) -> (forall pl, describes L (machine s) pl -> Q pl s) ->
  swp (createStatement NDEBUG L t) Q (fun _ => True) s.
Proof using.
  intros -> HQ. unfold createStatement. sstep.
  apply swp_reads; [done|apply reads_checkInvariants|]. intros _. do 2 sstep. cbn [id].
  destruct (mPhase (ballots s)) eqn:Ep; repeat (sstep; [|done] || sstep); apply HQ; cbn; naive_solver.
Qed.

Lemma refines_emitBody process :
  (forall e s, statement e ∈ m_signed (machine s) ->
     swp (process e true) (fun _ s' => evolves (machine s) (machine s')) (fun _ => True) s) ->
  refines (emitBody NDEBUG L mSlotIndex process).
Proof using.
  intros Hp s. unfold emitBody. do 3 sstep. apply swp_createStatement; [done|]. intros pl Hpl.
  unfold createEnvelope. do 3 sstep. sstep. sstep. sstep.
  match goal with |- swp _ _ _ ?s' => set (s1 := s') end.
  assert (H1 : evolves (machine s) (machine s1)).
  { apply evolves_step; [|done..]. apply (Sign L K (machine s) (mkStatement _ mSlotIndex pl)); done. }
  assert (Hin : mkStatement (mNodeID L) mSlotIndex pl ∈ m_signed (machine s1)) by (by left).
  clearbody s1. sstep; [by sstep|]. sstep.
  eapply swp_mono; [by apply Hp|]. intros r s2 H2.
  assert (H12 : evolves (machine s) (machine s2)) by by eapply evolves_trans.
  eapply refines_at; [|exact H12|auto]. unfold throws. quiet.
Qed.

Lemma emitBody_crash process s :
  mPhase (ballots s) = SCP_PHASE_CONFIRM -> mCommit (ballots s) = None ->
  swp (emitBody NDEBUG L mSlotIndex process) (fun _ _ => False) (fun _ => True) s.
Proof using.
  intros Hp Hc. unfold emitBody, createStatement. do 4 sstep.
  apply swp_reads; [done|apply reads_checkInvariants|]. intros _. rewrite Hp. do 2 sstep. cbn [id].
  do 2 (sstep; sstep; [|done]). sstep. sstep; [|done]. congruence.
Qed.

Lemma refines_emitCurrentStateStatement fuel :
  refines (emitCurrentStateStatement NDEBUG L mSlotIndex fuel) /\
  forall s, mPhase (ballots s) = SCP_PHASE_CONFIRM -> mCommit (ballots s) = None ->
    swp (emitCurrentStateStatement NDEBUG L mSlotIndex fuel) (fun _ _ => False) (fun _ => True) s.
Proof using.
  induction fuel as [|fuel [IH1 IH2]]; cbn [emitCurrentStateStatement]; [by split|].
  split; [|intros; by apply emitBody_crash]. apply refines_emitBody. intros e s He.
  apply swp_processEnvelopeWith; auto.
Qed.
Lemma refines_emitting : refines (emitting NDEBUG L mSlotIndex).
Proof using. apply refines_emitCurrentStateStatement. Qed.
Lemma emitting_crash s :
  mPhase (ballots s) = SCP_PHASE_CONFIRM -> mCommit (ballots s) = None ->
  swp (emitting NDEBUG L mSlotIndex) (fun _ _ => False) (fun _ => True) s.
Proof using K. apply refines_emitCurrentStateStatement. Qed.

Lemma refines_ballot_processEnvelope e self s :
  K (statement e) \/ statement e ∈ m_signed (machine s) ->
  swp (ballot_processEnvelope NDEBUG L mSlotIndex e self)
    (fun _ s' => evolves (machine s) (machine s')) (fun _ => True) s.
Proof using. apply swp_processEnvelopeWith; [apply refines_emitting|apply emitting_crash]. Qed.
Lemma refines_ballot_bumpState v force : refines (ballot_bumpState NDEBUG L mSlotIndex v force).
Proof using. apply refines_bumpState, refines_emitting. Qed.
Lemma refines_ballot_abandonBallot n : refines (ballot_abandonBallot NDEBUG L mSlotIndex n).
Proof using. apply refines_abandonBallot, refines_emitting. Qed.
End BallotRefinement.
