(* ===== verification/SlotRefinement.v ===== *)
(** Every operation of a slot implements the abstract machine: nomination, which
    the machine does not see except for the statements it signs and the ballots
    it starts, and the operations of the slot itself. *)

From S2P Require Import Prelude Types Sorting Quorums QuorumFacts Ballots BallotOrder SlotState BallotProtocol Nomination ScpMachine ScpRefinement BallotRefinement.

Section Nomination.
Context `{D : SCPDriver} (NDEBUG : bool) (L : LocalNode) (mSlotIndex : Z) (K : SCPStatement -> Prop).
#[local] Abbreviation refines := (ScpRefinement.refines L K).

Lemma refines_getNodePriority node qset : refines (getNodePriority NDEBUG L mSlotIndex node qset).
Proof using. unfold getNodePriority, hashNode. quiet. Qed.
Lemma refines_updateRoundLeaders : refines (updateRoundLeaders NDEBUG L mSlotIndex).
Proof using.
  unfold updateRoundLeaders. quiet; [apply refines_getNodePriority|].
  generalize (forAllNodes (normalizeQSet (Some (mNodeID L)) (mQSet L))). intros nodes. revert a0.
  induction nodes as [|n nodes IH]; intros top; cbn [electLeaders]; quiet;
    auto using refines_getNodePriority.
Qed.
Lemma refines_getNewValueFromNomination nom :
  refines (getNewValueFromNomination NDEBUG mSlotIndex nom).
Proof using.
  unfold getNewValueFromNomination. generalize (nominationValues nom), ([] : list Z), 0.
  induction l as [|v l IH]; intros vote h; cbn [bestNewValue]; unfold hashValue; quiet; auto.
Qed.
Lemma refines_addVote v : refines (addVote v).
Proof using. unfold addVote. quiet. Qed.
Hint Resolve refines_updateRoundLeaders refines_getNewValueFromNomination refines_addVote : slots.

Lemma refines_promoteVotes votes modified : refines (promoteVotes L mSlotIndex votes modified).
Proof using.
  revert modified. induction votes as [|v votes IH]; intros modified; cbn [promoteVotes]; quiet; auto.
Qed.
Lemma refines_promoteAccepted accepted newCandidates :
  refines (promoteAccepted L accepted newCandidates).
Proof using.
  revert newCandidates.
  induction accepted as [|v accepted IH]; intros newC; cbn [promoteAccepted]; quiet; auto.
Qed.
Lemma refines_takeLeaderVote st modified : refines (takeLeaderVote NDEBUG mSlotIndex st modified).
Proof using. unfold takeLeaderVote. quiet. Qed.
Lemma refines_takeLeaderVotes leaders v updated :
  refines (takeLeaderVotes NDEBUG mSlotIndex leaders v updated).
Proof using.
  revert v updated. induction leaders as [|l leaders IH]; intros v updated; cbn [takeLeaderVotes];
    quiet; auto.
Qed.
Lemma refines_recordNomination e : refines (recordNomination e).
Proof using. unfold recordNomination, recordStatement. quiet. by apply refines_quiet. Qed.
Hint Resolve refines_promoteVotes refines_promoteAccepted refines_takeLeaderVote
  refines_takeLeaderVotes refines_recordNomination refines_ballot_bumpState : slots.

Lemma refines_processNominationWith emit e :
  refines emit -> refines (processNominationWith NDEBUG L mSlotIndex emit e).
Proof using.
  intros He. unfold processNominationWith, isNewerNominationFrom, advanceNomination,
    getLatestCompositeCandidate. quiet.
Qed.
Lemma refines_signNomination nom : refines (createEnvelope L mSlotIndex (NOMINATE nom)).
Proof using.
  intros s. unfold createEnvelope. do 3 sstep. apply evolves_step; [|done..].
  by apply (Sign L K (machine s) (mkStatement (mNodeID L) mSlotIndex (NOMINATE nom))).
Qed.
Lemma refines_emitNomination fuel : refines (emitNomination NDEBUG L mSlotIndex fuel).
Proof using.
  induction fuel as [|fuel IH]; cbn [emitNomination]; [apply refines_stops|].
  unfold emitNominationBody, isFullyValidated, throws. quiet;
    auto using refines_signNomination, refines_processNominationWith.
Qed.
Hint Resolve refines_emitNomination refines_processNominationWith : slots.
Lemma refines_nomination_processEnvelope e :
  refines (nomination_processEnvelope NDEBUG L mSlotIndex e).
Proof using. unfold nomination_processEnvelope. quiet. Qed.
Lemma refines_nomination_nominate v previousValue timedout :
  refines (nomination_nominate NDEBUG L mSlotIndex v previousValue timedout).
Proof using. unfold nomination_nominate. quiet. Qed.
End Nomination.

(** ** The operations of a slot *)
Inductive SlotOp :=
  | ProcessEnvelope (e : SCPEnvelope)
  | AbandonBallot
  | BumpState (v : Value) (force : bool)
  | Nominate (v previousValue : Value) (timedout : bool)
  | StopNomination.

(** The result is dropped; the ballot timer is [AbandonBallot]. *)
Definition run_op `{SCPDriver} (NDEBUG : bool) (L : LocalNode) (mSlotIndex : Z) (op : SlotOp)
    : SlotM unit :=
  match op with
  | ProcessEnvelope e => _ ← slot_processEnvelope NDEBUG L mSlotIndex e false; mret tt
  | AbandonBallot => _ ← slot_abandonBallot NDEBUG L mSlotIndex; mret tt
  | BumpState v force => _ ← slot_bumpState NDEBUG L mSlotIndex v force; mret tt
  | Nominate v previousValue timedout =>
      _ ← slot_nominate NDEBUG L mSlotIndex v previousValue timedout; mret tt
  | StopNomination => stopNomination
  end.
Definition received (op : SlotOp) : option SCPStatement :=
  match op with ProcessEnvelope e => Some (statement e) | _ => None end.

Section Operations.
Context `{D : SCPDriver} (NDEBUG : bool) (L : LocalNode) (mSlotIndex : Z) (K : SCPStatement -> Prop).

Lemma run_op_evolves op s :
  (forall st, received op = Some st -> K st \/ st ∈ m_signed (machine s)) ->
  swp (run_op NDEBUG L mSlotIndex op) (fun _ s' => evolves L K (machine s) (machine s'))
    (fun _ => True) s.
Proof using.
  intros HK. destruct op as [e| |v force|v pv timedout|]; cbn [run_op].
  - sstep. unfold slot_processEnvelope. sstep. apply swp_reads; [done|auto with slots|]. intros _.
    specialize (HK _ eq_refl).
    destruct (pledges (statement e)); try (eapply swp_mono;
      [by apply refines_ballot_processEnvelope|by intros; sstep]).
    apply refines_nomination_processEnvelope.
  - revert s HK. intros s _. apply refines_bind; [apply refines_ballot_abandonBallot|].
    intros. apply refines_ret.
  - apply refines_bind; [apply refines_ballot_bumpState|]. intros. apply refines_ret.
  - apply refines_bind; [apply refines_nomination_nominate|]. intros. apply refines_ret.
  - apply refines_stopNomination.
Qed.
End Operations.

(** C5. The code of a slot implements the ballot protocol: every operation - an
    envelope received, whatever it says, a timer, a nomination, a new value -
    that returns has taken the slot through a sequence of transitions of the
    abstract machine, in which every ballot accepted or confirmed has the
    blocking set or the quorum that the protocol asks for.  The envelope
    received is the only statement of others that can be recorded. *)
Theorem slot_refines_machine `{D : SCPDriver} NDEBUG L mSlotIndex op s s' :
  (m_phi (machine s) <> SCP_PHASE_EXTERNALIZE -> m_externalized (machine s) = []) ->
  run_op NDEBUG L mSlotIndex op s = Done tt s' ->
  reaches L (fun st => received op = Some st) (machine s) (machine s').
Proof.
  intros Hun Hrun.
  pose proof (run_op_evolves NDEBUG L mSlotIndex (fun st => received op = Some st) op s) as H.
  unfold swp in H. rewrite Hrun in H. apply H; [|done]. auto.
Qed.
