(* ===== verification/Agreement.v ===== *)
(** Agreement: the nodes that run this code never externalize different values
    for a slot, as long as their quorums intersect.

    A network is the slots of its nodes.  The honest ones take steps by running
    the operations of [Slot]; the others may send anything.  An envelope that
    carries the name of an honest node was signed by it: signatures are checked
    before SCP sees an envelope ([SCP::receiveEnvelope]).  Steps interleave in
    any order, envelopes may be lost, repeated and reordered, and the driver of
    a node may answer differently at every step, except that a quorum set it
    finds under the hash an honest node announces is that node's.  A node whose
    run stops takes no further step.  Restarts are left out. *)

From S2P Require Import Prelude Types Sorting Quorums QuorumFacts Ballots BallotOrder.
From S2P Require Import SlotState BallotProtocol Nomination ScpMachine ScpRefinement BallotRefinement.
From S2P Require Import SlotRefinement.

Section Network.
Context (NDEBUG : bool) (mSlotIndex : Z) (honest : NodeID -> Prop) (node : NodeID -> LocalNode).

(** The honest nodes' quorum sets are found under their hashes. *)
Definition faithful (D : SCPDriver) : Prop :=
  forall n q, honest n -> getQSet (mQSetHash (node n)) = Some q -> q = mQSet (node n).

Abbreviation Network := (NodeID -> Slot) (only parsing).
Definition initialNetwork : Network := fun n => initialSlot (mIsValidator (node n)).
Definition set_slot (n : NodeID) (s : Slot) (net : Network) : Network :=
  fun m => if m =? n then s else net m.
(** [st] may arrive: if its author is honest, it has signed it. *)
Definition authentic (net : Network) (st : SCPStatement) : Prop :=
  honest (nodeID st) -> st ∈ m_signed (machine (net (nodeID st))).

Inductive step (net : Network) : Network -> Prop :=
  | node_step n (D : SCPDriver) op s' :
      honest n -> faithful D ->
      (forall st, received op = Some st -> authentic net st) ->
      run_op NDEBUG (node n) mSlotIndex op (net n) = Done tt s' ->
      step net (set_slot n s' net).
Definition reachable (net : Network) : Prop := rtc step initialNetwork net.

(** ** Quorums

    A set of nodes in which every honest member has a slice. *)
Definition has_slice (q : SCPQuorumSet) (T : NodeID -> Prop) : Prop :=
  exists Q, (forall n, In n Q -> T n) /\ isQuorumSlice q Q = true.
Definition is_quorum (T : NodeID -> Prop) : Prop :=
  (exists n, honest n /\ T n) /\ forall n, honest n -> T n -> has_slice (mQSet (node n)) T.
Definition quorum_intersection : Prop :=
  forall T1 T2, is_quorum T1 -> is_quorum T2 -> exists n, honest n /\ T1 n /\ T2 n.

(** ** The invariant of the network *)
Context (Hnode : forall n, mNodeID (node n) = n).

(** What a faithful driver finds for a statement. *)
Definition announced (st : SCPStatement) (q : SCPQuorumSet) : Prop :=
  forall n, honest n -> pledges_type (pledges st) <> 2 ->
    getCompanionQuorumSetHashFromStatement st = mQSetHash (node n) -> q = mQSet (node n).
Lemma faithful_announced (D : SCPDriver) st q :
  faithful D -> getQuorumSetFromStatement st = Some q -> announced st q.
Proof using.
  intros Hf Hq n Hn Ht Hh. apply (Hf n); [done|]. rewrite <- Hh.
  unfold getQuorumSetFromStatement, getCompanionQuorumSetHashFromStatement in *.
  by destruct (pledges st).
Qed.

Definition slot_sound (net : Network) (s : Slot) (n : NodeID) : Prop :=
  sound (node n) announced (authentic net) (machine s) /\ unreported (machine s).
Definition network_sound (net : Network) : Prop := forall n, honest n -> slot_sound net (net n) n.

(** Nodes only add to what they have signed. *)
Lemma transition_signed `{D : SCPDriver} L K m m' st :
  transition L K m m' -> st ∈ m_signed m -> st ∈ m_signed m'.
Proof using. destruct 1; cbn; try done. by right. Qed.
Lemma reaches_signed `{D : SCPDriver} L K m m' st :
  reaches L K m m' -> st ∈ m_signed m -> st ∈ m_signed m'.
Proof using. induction 1; eauto using transition_signed. Qed.

Lemma set_slot_same n s net : set_slot n s net n = s.
Proof using. unfold set_slot. by rewrite Z.eqb_refl. Qed.
Lemma step_authentic net n s' st :
  (forall st, st ∈ m_signed (machine (net n)) -> st ∈ m_signed (machine s')) ->
  authentic net st -> authentic (set_slot n s' net) st.
Proof using.
  intros Hs Ha Hh. specialize (Ha Hh). unfold set_slot. destruct (Z.eqb_spec (nodeID st) n) as [E|]; [|done].
  rewrite <- E in Hs. auto.
Qed.

Lemma step_sound net net' : step net net' -> network_sound net -> network_sound net'.
Proof using.
  intros [n D op s' Hn Hf Hop Hrun] Hnet. destruct (Hnet n Hn) as [Hsound Hun].
  pose proof (run_op_evolves NDEBUG (node n) mSlotIndex (authentic net) op (net n)) as H.
  unfold swp in H. rewrite Hrun in H. destruct H as [R _]; [by left; apply Hop|exact Hun|].
  assert (Hsigned : forall st, st ∈ m_signed (machine (net n)) -> st ∈ m_signed (machine s'))
    by eauto using reaches_signed.
  assert (Hauth : forall st, authentic net st -> authentic (set_slot n s' net) st)
    by eauto using step_authentic.
  intros k Hk. unfold slot_sound, set_slot. destruct (Z.eqb_spec k n) as [->|].
  - split; [|by eapply reaches_unreported]. eapply sound_mono; [exact Hauth|].
    eapply reaches_sound; [|exact R|done]. intros st q. by apply faithful_announced.
  - destruct (Hnet k Hk) as [Hk1 Hk2]. split; [|done]. by eapply sound_mono.
Qed.
Lemma reachable_sound net : reachable net -> network_sound net.
Proof using.
  unfold reachable. assert (H0 : network_sound initialNetwork).
  { intros n Hn. split; [apply sound_initial|done]. }
  revert H0. induction 2; eauto using step_sound.
Qed.

(** ** What an honest node has accepted *)
Definition externalizes (net : Network) (n : NodeID) (v : Value) : Prop :=
  mPhase (ballots (net n)) = SCP_PHASE_EXTERNALIZE /\ has_value (mCommit (ballots (net n))) v.
Definition commits_to (net : Network) (n : NodeID) (v : Value) : Prop :=
  mPhase (ballots (net n)) <> SCP_PHASE_PREPARE /\ has_value (mCommit (ballots (net n))) v.

(** The nodes behind [v]: those that externalize it, and the quorums they saw. *)
Definition behind_value (net : Network) (v : Value) (n : NodeID) : Prop :=
  externalizes net n v \/
  exists a Q, honest a /\ externalizes net a v /\ isQuorumSlice (mQSet (node a)) Q = true /\ In n Q /\
    forall k, In k Q -> exists st q, nodeID st = k /\ (authentic net st \/ st ∈ m_signed (machine (net a)))
      /\ commits st = Some v /\ announced st q /\ isQuorumSlice q Q = true.

(** A statement of an honest node in such a quorum was signed by it. *)
Lemma witnessed_signed net a k st :
  network_sound net -> honest a -> honest k -> nodeID st = k ->
  authentic net st \/ st ∈ m_signed (machine (net a)) -> st ∈ m_signed (machine (net k)).
Proof using Hnode.
  intros Hnet Ha Hk <- [H|H]; [by apply H|].
  destruct (sound_signed _ _ _ _ (proj1 (Hnet a Ha)) st H) as (E & _).
  rewrite Hnode in E. by rewrite E.
Qed.
Lemma behind_value_commits net v n :
  network_sound net -> honest n -> behind_value net v n -> commits_to net n v.
Proof using Hnode.
  intros Hnet Hn [[Hp Hv]|(a & Q & Ha & _ & _ & Hin & HQ)]; [split; [congruence|done]|].
  destruct (HQ n Hin) as (st & q & E & Hst & Hc & _).
  apply (witnessed_signed net a n) in Hst; try done.
  destruct (sound_signed _ _ _ _ (proj1 (Hnet n Hn)) st Hst) as (_ & H & _).
  by destruct (H v Hc) as (H1 & H2 & _).
Qed.
Lemma externalizes_backed net n v :
  network_sound net -> honest n -> externalizes net n v ->
  backed (node n) announced (authentic net) (machine (net n)) v.
Proof using.
  intros Hnet Hn [Hp Hv]. destruct (sound_backed _ _ _ _ (proj1 (Hnet n Hn)) Hp) as (w & Hw & Hb).
  by rewrite (has_value_inj _ _ _ Hv Hw).
Qed.
Lemma behind_value_slice net v n :
  network_sound net -> honest n -> behind_value net v n ->
  has_slice (mQSet (node n)) (behind_value net v).
Proof using Hnode.
  intros Hnet Hn Hbv.
  assert (Hext : externalizes net n v -> has_slice (mQSet (node n)) (behind_value net v)).
  { intros He. destruct (externalizes_backed net n v Hnet Hn He) as (Q & Hs & HQ). exists Q.
    split; [|done]. intros k Hk. right. exists n, Q. auto. }
  destruct Hbv as [He|(a & Q & Ha & Hea & Hs & Hin & HQ)]; [by apply Hext|].
  destruct (HQ n Hin) as (st & q & E & Hst & Hc & Hq & Hslice).
  apply (witnessed_signed net a n) in Hst; try done.
  destruct (sound_signed _ _ _ _ (proj1 (Hnet n Hn)) st Hst) as (_ & Hcom & Hx).
  destruct (Hcom v Hc) as (_ & Hv & Hh).
  destruct (decide (pledges_type (pledges st) = 2)) as [Ht|Ht]; [by apply Hext; split; [apply Hx|]|].
  rewrite (Hq n Hn Ht Hh) in Hslice. exists Q. split; [|done]. intros k Hk. right. exists a, Q. auto.
Qed.
Lemma behind_value_quorum net n v :
  network_sound net -> honest n -> externalizes net n v -> is_quorum (behind_value net v).
Proof using Hnode.
  intros Hnet Hn He. split; [exists n; split; [done|by left]|].
  intros k Hk Hb. by apply behind_value_slice.
Qed.

(** C1. Agreement.  In every reachable state of the network, whatever the
    dishonest nodes send and in whatever order messages arrive, two honest
    nodes that have externalized the slot have externalized the same value -
    provided that any two sets of nodes in which every honest member has a
    slice share an honest node. *)
Theorem scp_agreement net n1 n2 v1 v2 :
  quorum_intersection -> reachable net -> honest n1 -> honest n2 ->
  externalizes net n1 v1 -> externalizes net n2 v2 -> v1 = v2.
Proof using Hnode.
  intros Hqi Hnet%reachable_sound H1 H2 He1 He2.
  destruct (Hqi (behind_value net v1) (behind_value net v2)) as (k & Hk & Hk1 & Hk2);
    [by apply (behind_value_quorum net n1)|by apply (behind_value_quorum net n2)|].
  apply behind_value_commits in Hk1 as [_ Hk1], Hk2 as [_ Hk2]; try done.
  by eapply has_value_inj.
Qed.
End Network.

(** * A network of four nodes, each trusting any three of them, of which one is faulty *)

Definition sample_qs : SCPQuorumSet := mkQSet 3 [0; 1; 2; 3] [].
Definition sample_hash : Hash := 7.
Definition sample_driver : SCPDriver := {|
  getQSet h := if h =? sample_hash then Some sample_qs else None;
  validateValue _ _ _ := kFullyValidatedValue;
  extractValidValue _ v := v;
  signEnvelope st := nodeID st;
  computeHashNode _ _ _ _ n := n;
  computeValueHash _ _ _ _ := 1;
  combineCandidates _ vs := default [] (head vs) |}.
Definition sample_node (n : NodeID) : LocalNode := mkLocalNode n true sample_qs sample_hash.
Definition sample_honest (n : NodeID) : Prop := n = 0 \/ n = 1 \/ n = 2.
Definition sample_value : Value := [42].

Lemma sample_slices S :
  isQuorumSlice sample_qs S = true ->
  2 <= count (contains S) [0; 1; 2].
Proof.
  unfold sample_qs. rewrite isQuorumSlice_count by (unfold_ints; lia). unfold need, count. cbn.
  destruct (contains S 0), (contains S 1), (contains S 2), (contains S 3); cbn; done.
Qed.
Lemma sample_intersection : quorum_intersection sample_honest sample_node.
Proof.
  intros T1 T2 [(n1 & H1 & N1) Q1] [(n2 & H2 & N2) Q2].
  destruct (Q1 n1 H1 N1) as (S1 & HS1 & C1%sample_slices), (Q2 n2 H2 N2) as (S2 & HS2 & C2%sample_slices).
  unfold count in C1, C2. cbn [List.filter] in C1, C2. unfold sample_honest.
  assert (Hin : forall n, contains S1 n = true -> contains S2 n = true -> T1 n /\ T2 n).
  { intros n ?%contains_In ?%contains_In. auto. }
  destruct (contains S1 0) eqn:A0, (contains S1 1) eqn:A1, (contains S1 2) eqn:A2; cbn in C1; try lia;
    destruct (contains S2 0) eqn:B0, (contains S2 1) eqn:B1, (contains S2 2) eqn:B2; cbn in C2; try lia;
    first [exists 0; split; [tauto|by apply Hin]
          |exists 1; split; [tauto|by apply Hin]
          |exists 2; split; [tauto|by apply Hin]].
Qed.
Lemma sample_faithful : faithful sample_honest sample_node sample_driver.
Proof. intros n q _. cbn. by intros [= <-]. Qed.

(** ** Runs of the network *)
Inductive Event :=
  | Local (n : NodeID) (op : SlotOp)
  | Deliver (from to : NodeID).      (* what [from] signed last *)

Definition lastSigned (calls : list DriverCall) : option SCPEnvelope :=
  head (omap (fun c => match c with SignEnvelope e => Some e | _ => None end) calls).
Definition eventOp (net : NodeID -> Slot) (ev : Event) : option (NodeID * SlotOp) :=
  match ev with
  | Local n op => match op with ProcessEnvelope _ => None | _ => Some (n, op) end
  | Deliver from to =>
      e ← lastSigned (calls (net from));
      if nodeID (statement e) =? from then Some (to, ProcessEnvelope e) else None
  end.
Definition isHonest (n : NodeID) : bool := (n =? 0) || (n =? 1) || (n =? 2).
Definition exec_event (NDEBUG : bool) (net : NodeID -> Slot) (ev : Event) : option (NodeID -> Slot) :=
  match eventOp net ev with
  | Some (n, op) =>
      if isHonest n then
        match run_op (H := sample_driver) NDEBUG (sample_node n) 5 op (net n) with
        | Done _ s => Some (set_slot n s net)
        | Stopped _ => None
        end
      else None
  | None => None
  end.
Fixpoint exec (NDEBUG : bool) (evs : list Event) (net : NodeID -> Slot) : option (NodeID -> Slot) :=
  match evs with
  | [] => Some net
  | ev :: evs => net ← exec_event NDEBUG net ev; exec NDEBUG evs net
  end.

Lemma lastSigned_signed s e : lastSigned (calls s) = Some e -> statement e ∈ m_signed (machine s).
Proof.
  unfold lastSigned. cbn [machine m_signed]. unfold signedOf. induction (calls s) as [|c cs IH]; [done|].
  destruct c; cbn; auto. intros [= <-]. by left.
Qed.
Lemma exec_event_step NDEBUG net ev net' :
  exec_event NDEBUG net ev = Some net' -> step NDEBUG 5 sample_honest sample_node net net'.
Proof.
  unfold exec_event. destruct (eventOp net ev) as [[n op]|] eqn:Eo; [|done].
  destruct (isHonest n) eqn:Eh; [|done]. destruct (run_op _ _ _ _ _) as [[] s|] eqn:Er; [|done].
  intros [= <-]. eapply node_step; [|apply sample_faithful| |exact Er].
  - unfold isHonest in Eh. unfold sample_honest. zbool. lia.
  - intros st Hst. destruct ev as [m op'|from to]; cbn in Eo.
    + destruct op'; try done; injection Eo as <- <-; done.
    + destruct (lastSigned (calls (net from))) as [e|] eqn:El; cbn in Eo; [|done].
      destruct (Z.eqb_spec (nodeID (statement e)) from) as [Ef|]; [|done].
      injection Eo as <- <-. injection Hst as <-. intros _. rewrite Ef. by apply lastSigned_signed.
Qed.
Lemma exec_reaches NDEBUG evs net net' :
  exec NDEBUG evs net = Some net' -> rtc (step NDEBUG 5 sample_honest sample_node) net net'.
Proof.
  revert net. induction evs as [|ev evs IH]; intros net; cbn; [by intros [= ->]|].
  destruct (exec_event NDEBUG net ev) as [net1|] eqn:E; cbn; [|done]. intros H.
  eapply rtc_l; [by eapply exec_event_step|auto].
Qed.

(** Three honest nodes start on the same value, then talk. *)
Definition gossip : list Event :=
  [Deliver 0 1; Deliver 0 2; Deliver 1 0; Deliver 1 2; Deliver 2 0; Deliver 2 1].
Definition schedule : list Event :=
  [Local 0 (BumpState sample_value true); Local 1 (BumpState sample_value true);
   Local 2 (BumpState sample_value true)] ++ gossip ++ gossip ++ gossip ++ gossip.
Definition decidedAt (net : NodeID -> Slot) (n : NodeID) : bool :=
  bool_decide (mPhase (ballots (net n)) = SCP_PHASE_EXTERNALIZE)
  && bool_decide (value <$> mCommit (ballots (net n)) = Some sample_value).
Lemma decidedAt_externalizes net n : decidedAt net n = true -> externalizes net n sample_value.
Proof.
  intros [H1%bool_decide_eq_true H2%bool_decide_eq_true]%andb_true_iff. split; [done|].
  unfold has_value. destruct (mCommit _) as [c|]; [|done]. exists c. split; [done|]. by injection H2.
Qed.
Definition all_decided (o : option (NodeID -> Slot)) : bool :=
  match o with Some net => decidedAt net 0 && decidedAt net 1 && decidedAt net 2 | None => false end.
Example schedule_decides :
  all_decided (exec false schedule (initialNetwork sample_node)) = true.
Proof. vm_compute. reflexivity. Qed.

Lemma scp_agreement_witness :
  exists net, reachable false 5 sample_honest sample_node net /\
    externalizes net 0 sample_value /\ externalizes net 2 sample_value /\
    sample_value = sample_value.
Proof.
  pose proof schedule_decides as H.
  destruct (exec false schedule (initialNetwork sample_node)) as [net|] eqn:E; [|discriminate H].
  apply exec_reaches in E. cbn [all_decided] in H.
  apply andb_true_iff in H as [[H0 _]%andb_true_iff H2].
  apply decidedAt_externalizes in H0, H2. exists net. split; [exact E|]. split; [exact H0|].
  split; [exact H2|].
  exact (scp_agreement false 5 sample_honest sample_node (fun n => eq_refl) net 0 2 _ _
    sample_intersection E (or_introl eq_refl) (or_intror (or_intror eq_refl)) H0 H2).
Defined.
