(* ===== verification/Decisions.v ===== *)
(** What a slot does over its life: what it decides is final and is reported
    once, what it knows of the other nodes only gets newer, and the ballots it
    has accepted as prepared stay incompatible. *)

From stdpp Require Import sorting.
From S2P Require Import Prelude Types Sorting Quorums QuorumFacts Ballots BallotOrder.
From S2P Require Import SlotState BallotProtocol Nomination ScpMachine ScpRefinement BallotRefinement.
From S2P Require Import SlotRefinement Agreement.

(** One operation that returns, with any driver. *)
Definition slot_step (NDEBUG : bool) (L : LocalNode) (mSlotIndex : Z) (s s' : Slot) : Prop :=
  exists (D : SCPDriver) op, run_op NDEBUG L mSlotIndex op s = Done tt s'.
(** The life of a slot. *)
Definition life NDEBUG L mSlotIndex (s : Slot) : Prop :=
  rtc (slot_step NDEBUG L mSlotIndex) (initialSlot (mIsValidator L)) s.

Section Life.
Context (NDEBUG : bool) (L : LocalNode) (mSlotIndex : Z).
Abbreviation slot_step := (slot_step NDEBUG L mSlotIndex).

(** Invariants and relations of the machine are those of slots. *)
Lemma slot_step_evolves s s' :
  slot_step s s' ->
  exists D : SCPDriver, evolves L (fun _ => True) (machine s) (machine s').
Proof using.
  intros (D & op & Hrun). exists D.
  pose proof (run_op_evolves NDEBUG L mSlotIndex (fun _ => True) op s) as H.
  unfold swp in H. rewrite Hrun in H. apply H. auto.
Qed.
Lemma life_unreported s s' :
  rtc slot_step s s' -> unreported (machine s) -> unreported (machine s').
Proof using.
  induction 1 as [|s s1 s' H1 _ IH]; [done|]. intros Hs. apply IH.
  apply slot_step_evolves in H1 as (D & H1). destruct (H1 Hs) as [R _].
  by eapply reaches_unreported.
Qed.
Lemma life_ind (P : Machine -> Machine -> Prop) s s' :
  (forall m, P m m) -> (forall m1 m2 m3, P m1 m2 -> P m2 m3 -> P m1 m3) ->
  (forall (D : SCPDriver) K m m', transition L K m m' -> P m m') ->
  unreported (machine s) -> rtc slot_step s s' -> P (machine s) (machine s').
Proof using.
  intros Hr Ht Hs Hun H. revert Hun. induction H as [|s s1 s' H1 H IH]; [auto|]. intros Hun.
  apply slot_step_evolves in H1 as (D & H1). destruct (H1 Hun) as [R _].
  eapply Ht; [|apply IH; by eapply reaches_unreported].
  clear -R Hr Ht Hs. induction R as [|m1 m2 m3 R1 R IH]; [done|]. eapply Ht; [by eapply Hs|done].
Qed.
Lemma life_invariant (I : Machine -> Prop) s :
  I (machine (initialSlot (mIsValidator L))) ->
  (forall (D : SCPDriver) K m m', transition L K m m' -> I m -> I m') ->
  life NDEBUG L mSlotIndex s -> I (machine s).
Proof using.
  intros H0 Hs Hl. revert H0. apply (life_ind (fun m m' => I m -> I m')); by eauto.
Qed.

(** ** Decisions *)
Definition settled (m : Machine) : Prop :=
  m_externalized m = match m_phi m, m_c m with
                     | SCP_PHASE_EXTERNALIZE, Some c => [value c]
                     | _, _ => []
                     end.
(** At most one report, of the value that is committed. *)
Definition truthful (m : Machine) : Prop :=
  (m_phi m = SCP_PHASE_EXTERNALIZE -> is_Some (m_c m)) /\
  (m_externalized m = [] \/
   m_phi m = SCP_PHASE_EXTERNALIZE /\ exists c, m_c m = Some c /\ m_externalized m = [value c]).
Lemma transition_truthful (D : SCPDriver) K m m' : transition L K m m' -> truthful m -> truthful m'.
Proof using.
  unfold truthful. intros Ht [Hc He].
  assert (Hn : m_phi m <> SCP_PHASE_EXTERNALIZE -> m_externalized m = []) by (destruct He as [|[]]; [auto|by intros []]).
  destruct Ht; cbn; try (by split).
  - split; [done|left; auto].
  - split; [congruence|left; apply Hn; congruence].
  - split; [done|left; auto].
  - split; [eauto|left; apply Hn; congruence].
  - split; [auto|right; eauto].
Qed.
Lemma life_reported s s' :
  rtc slot_step s s' -> unreported (machine s) -> reported (machine s) -> reported (machine s').
Proof using.
  induction 1 as [|s s1 s' H1 _ IH]; [done|]. intros Hun Hr.
  apply slot_step_evolves in H1 as (D & H1). destruct (H1 Hun) as (R & Hr1 & _).
  apply IH; [by eapply reaches_unreported|auto].
Qed.
Definition frozen (m m' : Machine) : Prop :=
  m_phi m = SCP_PHASE_EXTERNALIZE ->
  m_phi m' = SCP_PHASE_EXTERNALIZE /\ m_c m' = m_c m /\ m_h m' = m_h m /\ m_b m' = m_b m /\
  m_p m' = m_p m /\ m_p' m' = m_p' m.
Lemma transition_frozen (D : SCPDriver) K m m' : transition L K m m' -> frozen m m'.
Proof using. unfold frozen. destruct 1; cbn; intuition congruence. Qed.

(** C6. A decision is final and is reported exactly once.  After any sequence of
    operations on a new slot, [valueExternalized] has been called once if the
    slot has externalized, with the value it has committed to, and not at all
    otherwise; and whatever happens to a slot that has externalized, it stays
    so, with the same current ballot, prepared ballots, high ballot and commit. *)
Theorem externalized_once_and_final s s' :
  life NDEBUG L mSlotIndex s -> rtc slot_step s s' ->
  settled (machine s') /\
  (mPhase (ballots s) = SCP_PHASE_EXTERNALIZE ->
   mPhase (ballots s') = SCP_PHASE_EXTERNALIZE /\ mCommit (ballots s') = mCommit (ballots s) /\
   mHighBallot (ballots s') = mHighBallot (ballots s) /\ mCurrentBallot (ballots s') = mCurrentBallot (ballots s) /\
   mPrepared (ballots s') = mPrepared (ballots s) /\ mPreparedPrime (ballots s') = mPreparedPrime (ballots s)).
Proof using.
  intros Hs Hs'. assert (H0 : unreported (machine (initialSlot (mIsValidator L)))) by done.
  assert (Hl : life NDEBUG L mSlotIndex s') by by eapply rtc_trans. split.
  - assert (Ht : truthful (machine s')).
    { apply (life_invariant truthful); [|exact transition_truthful|done]. split; [done|by left]. }
    assert (Hr : reported (machine s')) by (eapply life_reported; [exact Hl|done..]).
    pose proof (life_unreported _ _ Hl H0) as Hun. unfold settled, reported, unreported, truthful in *.
    destruct (m_phi (machine s')) eqn:Ep; [by apply Hun..|].
    destruct Ht as [(c & Ec) [Hn|(_ & c' & Ec' & He)]]; [done| |]; rewrite Ec in *; [by destruct Hr|].
    by injection Ec' as <-.
  - pose proof (life_ind frozen s s') as H. unfold frozen in H at 4. intros Hp.
    destruct H as (H1 & H2 & H3 & H4 & H5 & H6); auto.
    + unfold frozen. auto 10.
    + unfold frozen. intros m1 m2 m3 H12 H23 H1. destruct (H12 H1) as (P2 & ? & ? & ? & ? & ?).
      destruct (H23 P2) as (P3 & ? & ? & ? & ? & ?). split_and!; congruence.
    + exact transition_frozen.
    + by eapply life_unreported.
    + by split_and!.
Qed.

(** ** What is known of the other nodes *)
Definition only_newer (m m' : Machine) : Prop :=
  forall n st, m_M m !! n = Some st ->
    exists st', m_M m' !! n = Some st' /\ (st' = st \/ isNewerStatement st st' = true).

(** C8. The statement recorded for a node is replaced only by a newer one, and
    newer is a strict order: whatever arrives, in whatever order and however
    often, a slot never goes back to a statement it has left behind. *)
Theorem recorded_only_newer s s' n e :
  life NDEBUG L mSlotIndex s -> rtc slot_step s s' ->
  mLatestEnvelopes (ballots s) !! n = Some e ->
  exists e', mLatestEnvelopes (ballots s') !! n = Some e' /\
    (statement e' = statement e \/
     isNewerStatement (statement e) (statement e') = true /\
     isNewerStatement (statement e') (statement e) = false).
Proof using.
  intros Hl Hs He.
  assert (H : only_newer (machine s) (machine s')).
  { apply (life_ind only_newer); [..|done].
    - intros m k st H. eauto.
    - intros m1 m2 m3 H12 H23 k st H. destruct (H12 k st H) as (st2 & H2 & C2).
      destruct (H23 k st2 H2) as (st3 & H3 & C3). exists st3. split; [done|].
      destruct C2 as [->|C2], C3 as [->|C3]; auto. right. by eapply isNewerStatement_trans.
    - intros D K m m' Ht k st Hk. destruct Ht as [st' _ Hnew _| | | | | | |]; cbn; eauto.
      destruct (decide (k = nodeID st')) as [->|]; [|rewrite lookup_insert_ne by done; eauto].
      rewrite lookup_insert_eq. exists st'. eauto.
    - by eapply life_unreported. }
  destruct (H n (statement e)) as (st' & Hst' & C); [cbn; by rewrite lookup_fmap, He|].
  cbn in Hst'. rewrite lookup_fmap in Hst'.
  destruct (mLatestEnvelopes (ballots s') !! n) as [e'|]; [|done]. injection Hst' as <-.
  exists e'. split; [done|]. destruct C as [C|C]; [by left|]. right. split; [done|].
  destruct (isNewerStatement (statement e') (statement e)) eqn:E; [|done].
  pose proof (isNewerStatement_trans _ _ _ C E) as Hc. by rewrite isNewerStatement_irrefl in Hc.
Qed.

(** ** The prepared ballots *)
Definition prepared_ok (m : Machine) : Prop :=
  forall p', m_p' m = Some p' ->
    exists p, m_p m = Some p /\ ballot_lt p' p /\ value p' <> value p.

Lemma raisePrepared_ok p p' x p1 p1' :
  (forall q', p' = Some q' -> exists q, p = Some q /\ ballot_lt q' q /\ value q' <> value q) ->
  (forall q', p' = Some q' -> ballot_lt q' x) ->
  (forall q, p = Some q -> ~ (ballot_le x q /\ value x = value q)) ->
  raisePrepared p p' x = (p1, p1') ->
  forall q', p1' = Some q' -> exists q, p1 = Some q /\ ballot_lt q' q /\ value q' <> value q.
Proof using.
  intros Hok Hlt Hnew. unfold raisePrepared. destruct p as [p0|].
  - destruct (Z.ltb_spec (compareBallots p0 x) 0) as [Hc%compareBallots_lt|Hc].
    + intros [= <- <-] q' Hq'. exists x. split; [done|].
      destruct (areBallotsCompatible p0 x) eqn:E.
      * apply areBallotsCompatible_spec in E. destruct (Hok _ Hq') as (q & [= <-] & Hl & Hv).
        split; [auto|congruence].
      * apply areBallotsCompatible_false in E. by injection Hq' as <-.
    + destruct (_ && _) eqn:Eb; intros [= <- <-]; [|done]. intros q' [= <-].
      apply andb_true_iff in Eb as [Hg%Z.ltb_lt%compareBallots_gt _]. exists p0. split; [done|].
      split; [done|]. intros Hv. apply (Hnew p0 eq_refl). split; [by left|done].
  - intros [= <- <-] q' Hq'. by destruct (Hok _ Hq') as (q & [=] & _).
Qed.
Lemma transition_prepared_ok (D : SCPDriver) K m m' :
  transition L K m m' -> prepared_ok m -> prepared_ok m'.
Proof using.
  unfold prepared_ok. destruct 1; cbn; try done.
  - intros Hok. by eapply raisePrepared_ok.
  - intros Hok p' Hp'. apply Hok. by destruct (bool_decide _).
Qed.

(** In every slot [p'] is below [p] and incompatible with it, as
    [checkInvariants] asserts after every change, whatever was received. *)
Theorem prepared_incompatible s p p' :
  life NDEBUG L mSlotIndex s ->
  mPrepared (ballots s) = Some p -> mPreparedPrime (ballots s) = Some p' ->
  areBallotsLessAndIncompatible p' p = true.
Proof using.
  intros Hl Hp Hp'. apply (life_invariant prepared_ok) in Hl; [|done|exact transition_prepared_ok].
  destruct (Hl p' Hp') as (q & Hq & Hlt & Hv). cbn in Hq. rewrite Hp in Hq. injection Hq as <-.
  apply lessAndIncompatible_spec. split; [by left|done].
Qed.
End Life.

(** ** Witnesses: node 0 hears from nodes 1 and 2 *)
Fixpoint run_ops (ops : list SlotOp) (s : Slot) : option Slot :=
  match ops with
  | [] => Some s
  | op :: ops =>
      match run_op (H := sample_driver) false (sample_node 0) 5 op s with
      | Done _ s => run_ops ops s
      | Stopped _ => None
      end
  end.
Lemma run_ops_steps ops s s' :
  run_ops ops s = Some s' -> rtc (slot_step false (sample_node 0) 5) s s'.
Proof.
  revert s. induction ops as [|op ops IH]; intros s; cbn; [by intros [= ->]|].
  destruct (run_op _ _ _ _ s) as [[] s1|] eqn:E; [|done]. intros H.
  eapply rtc_l; [|by apply IH]. by exists sample_driver, op.
Qed.

Definition sample_ballot (n : Z) (v : Value) : SCPBallot := mkBallot n v.
Definition sample_envelope (n : NodeID) (pl : Pledges) : SlotOp :=
  ProcessEnvelope (mkEnvelope (mkStatement n 5 pl) n).
Definition sample_prepare n b p p' c h : SlotOp :=
  sample_envelope n (PREPARE (mkPrepare sample_hash b p p' c h)).
Definition v1 : SCPBallot := mkBallot 1 sample_value.
Definition deciding : list SlotOp :=
  [BumpState sample_value false;
   sample_prepare 1 v1 (Some v1) None 0 0; sample_prepare 2 v1 (Some v1) None 0 0;
   sample_prepare 1 v1 (Some v1) None 1 1; sample_prepare 2 v1 (Some v1) None 1 1;
   sample_envelope 1 (CONFIRM (mkConfirm v1 1 1 1 sample_hash));
   sample_envelope 2 (CONFIRM (mkConfirm v1 1 1 1 sample_hash))].
Definition afterwards : list SlotOp :=
  [AbandonBallot; sample_envelope 2 (EXTERNALIZE (mkExternalize v1 1 sample_hash));
   sample_envelope 3 (EXTERNALIZE (mkExternalize (mkBallot 9 [7]) 9 sample_hash))].

(** The state that a list of operations ends in. *)
Definition after (ops : list SlotOp) (s : Slot) : Slot := default s (run_ops ops s).
Lemma after_steps ops s :
  is_Some (run_ops ops s) -> rtc (slot_step false (sample_node 0) 5) s (after ops s).
Proof. intros [s' E]. unfold after. rewrite E. by apply run_ops_steps with (ops := ops). Qed.
Definition newSlot : Slot := initialSlot true.
Definition decidedSlot : Slot := after deciding newSlot.

Lemma externalized_once_and_final_witness :
  mPhase (ballots decidedSlot) = SCP_PHASE_EXTERNALIZE /\
  settled (machine (after afterwards decidedSlot)) /\
  (mPhase (ballots decidedSlot) = SCP_PHASE_EXTERNALIZE ->
   mPhase (ballots (after afterwards decidedSlot)) = SCP_PHASE_EXTERNALIZE /\
   mCommit (ballots (after afterwards decidedSlot)) = mCommit (ballots decidedSlot) /\
   mHighBallot (ballots (after afterwards decidedSlot)) = mHighBallot (ballots decidedSlot) /\
   mCurrentBallot (ballots (after afterwards decidedSlot)) = mCurrentBallot (ballots decidedSlot) /\
   mPrepared (ballots (after afterwards decidedSlot)) = mPrepared (ballots decidedSlot) /\
   mPreparedPrime (ballots (after afterwards decidedSlot)) = mPreparedPrime (ballots decidedSlot)).
Proof.
  split; [by vm_compute|].
  apply (externalized_once_and_final false (sample_node 0) 5).
  - apply (after_steps deciding newSlot). vm_compute. by eexists.
  - apply (after_steps afterwards decidedSlot). vm_compute. by eexists.
Defined.

Lemma recorded_only_newer_witness :
  exists e e', mLatestEnvelopes (ballots (after (take 3 deciding) newSlot)) !! 1 = Some e /\
    mLatestEnvelopes (ballots (after (drop 3 deciding) (after (take 3 deciding) newSlot))) !! 1 = Some e' /\
    (statement e' = statement e \/
     isNewerStatement (statement e) (statement e') = true /\
     isNewerStatement (statement e') (statement e) = false).
Proof.
  destruct (mLatestEnvelopes (ballots (after (take 3 deciding) newSlot)) !! 1) as [e|] eqn:E;
    [|vm_compute in E; discriminate E].
  exists e. destruct (recorded_only_newer false (sample_node 0) 5 (after (take 3 deciding) newSlot)
    (after (drop 3 deciding) (after (take 3 deciding) newSlot)) 1 e) as (e' & H1 & H2).
  - apply (after_steps (take 3 deciding) newSlot). vm_compute. by eexists.
  - apply (after_steps (drop 3 deciding)). vm_compute. by eexists.
  - exact E.
  - exists e'. split; [reflexivity|]. split; [exact H1|exact H2].
Defined.

(** Nodes 1 and 2 prepare one value, then both prepare a smaller ballot of
    another. *)
Definition quarrel : list SlotOp :=
  [BumpState sample_value false;
   sample_prepare 1 (mkBallot 3 [9]) (Some (mkBallot 3 [9])) (Some (mkBallot 2 [7])) 0 0;
   sample_prepare 2 (mkBallot 3 [9]) (Some (mkBallot 3 [9])) (Some (mkBallot 2 [7])) 0 0;
   sample_prepare 3 (mkBallot 2 [7]) (Some (mkBallot 2 [7])) None 0 0].
Lemma prepared_incompatible_witness :
  mPrepared (ballots (after quarrel newSlot)) = Some (mkBallot 3 [9]) /\
  mPreparedPrime (ballots (after quarrel newSlot)) = Some (mkBallot 2 [7]) /\
  areBallotsLessAndIncompatible (mkBallot 2 [7]) (mkBallot 3 [9]) = true.
Proof.
  split; [by vm_compute|]. split; [by vm_compute|].
  apply (prepared_incompatible false (sample_node 0) 5 (after quarrel newSlot)); [|by vm_compute..].
  apply (after_steps quarrel newSlot). vm_compute. by eexists.
Defined.

Lemma slot_refines_machine_witness :
  exists s', run_op (H := sample_driver) false (sample_node 0) 5 (BumpState sample_value false) newSlot
             = Done tt s' /\
    reaches (D := sample_driver) (sample_node 0)
      (fun st => received (BumpState sample_value false) = Some st) (machine newSlot) (machine s').
Proof.
  eexists. split; [vm_compute; reflexivity|].
  apply (slot_refines_machine (D := sample_driver) false (sample_node 0) 5 (BumpState sample_value false));
    [done|vm_compute; reflexivity].
Defined.

(** * Two places where the code does not do what it means to do *)

(** ** A node that lags behind stops the others from catching up

    [attemptBump] looks for the lowest counter that no blocking set is above.
    Its loop goes through the counters from the lowest and ends at the first
    one below the node's own. *)
Lemma findTarget_low target vBlocking counters :
  ascending Z.ltb counters -> (exists n, n ∈ counters /\ n < target) ->
  findTarget target vBlocking counters = None.
Proof.
  intros Hs (n & Hn & Hlt). destruct counters as [|m counters]; [done|]. cbn.
  assert (m < target); [|by rewrite (proj2 (Z.ltb_lt _ _))].
  apply StronglySorted_inv in Hs as [_ Hm]. rewrite Forall_forall in Hm.
  apply elem_of_cons in Hn as [->|Hn]; [done|]. specialize (Hm n Hn). apply Z.ltb_lt in Hm. lia.
Qed.

Section Bump.
Context `{D : SCPDriver} (NDEBUG : bool) (L : LocalNode) (emit : SlotM unit).

Theorem attemptBump_held_back s b n e :
  mCurrentBallot (ballots s) = Some b ->
  mLatestEnvelopes (ballots s) !! n = Some e -> statementCounter (statement e) < counter b ->
  attemptBump NDEBUG L emit s = Done false s.
Proof using.
  intros Hb He Hlt. unfold attemptBump, votingPhase, latestStatements, getb, gets.
  unfold mbind, SlotM_bind. destruct (negb (negb _)); [done|]. cbn [id]. rewrite Hb. cbn [from_option].
  rewrite findTarget_low; [done|by apply set_insert_ascending, set_of_ascending; apply _|].
  exists (statementCounter (statement e)). split; [|done].
  apply elem_of_set_insert; [apply _|]. right. apply elem_of_set_of; [apply _|].
  rewrite <- list_fmap_compose. apply list_elem_of_fmap. exists (n, e). split; [done|].
  unfold in_key_order. rewrite insertion_sort_perm. by apply elem_of_map_to_list.
Qed.
End Bump.

(** Nodes 1 and 2, a blocking set, are at counter 5; node 0 is at 2. *)
Definition behind_two : list SlotOp :=
  [BumpState sample_value false; AbandonBallot;
   sample_prepare 1 (mkBallot 5 sample_value) None None 0 0;
   sample_prepare 2 (mkBallot 5 sample_value) None None 0 0].
(** The same, but node 3 has been heard at counter 1. *)
Definition held_back : list SlotOp :=
  [BumpState sample_value false; AbandonBallot;
   sample_prepare 3 (mkBallot 1 sample_value) None None 0 0;
   sample_prepare 1 (mkBallot 5 sample_value) None None 0 0;
   sample_prepare 2 (mkBallot 5 sample_value) None None 0 0].
Example lagging_node_holds_back :
  mCurrentBallot (ballots (after behind_two newSlot)) = Some (mkBallot 5 sample_value) /\
  mCurrentBallot (ballots (after held_back newSlot)) = Some (mkBallot 2 sample_value).
Proof. vm_compute. auto. Qed.

(** ** An invalid value next to one that may be valid

    [validateValues] keeps the answer for the last value that is not fully
    valid, in the order of the values, and not the worst one. *)
Definition doubtful_driver : SCPDriver := {|
  getQSet := getQSet (SCPDriver := sample_driver);
  validateValue _ v _ :=
    if bool_decide (v = [1]) then kInvalidValue
    else if bool_decide (v = [2]) then kMaybeValidValue else kFullyValidatedValue;
  extractValidValue _ v := v;
  signEnvelope st := nodeID st;
  computeHashNode _ _ _ _ n := n;
  computeValueHash _ _ _ _ := 1;
  combineCandidates _ vs := default [] (head vs) |}.
Definition prepare_statement (b : SCPBallot) (p : option SCPBallot) : SCPStatement :=
  mkStatement 1 5 (PREPARE (mkPrepare sample_hash b p None 0 0)).
Example invalid_value_accepted :
  validateValues (D := doubtful_driver) 5 (prepare_statement (mkBallot 1 [1]) None) = kInvalidValue /\
  validateValues (D := doubtful_driver) 5
    (prepare_statement (mkBallot 1 [1]) (Some (mkBallot 1 [2]))) = kMaybeValidValue /\
  match ballot_processEnvelope (D := doubtful_driver) false (sample_node 0) 5
          (mkEnvelope (prepare_statement (mkBallot 1 [1]) (Some (mkBallot 1 [2]))) 1) false newSlot with
  | Done r _ => r = VALID
  | Stopped _ => False
  end.
Proof. vm_compute. auto. Qed.
