(* ===== verification/ScpTermination.v ===== *)
(** Every operation of the ballot protocol ends: the nesting of emissions is cut
    off by [MAX_ADVANCE_SLOT_RECURSION], and the loop of [attemptBump] raises
    the phase or the counter of the current ballot in every round.  Counters
    are 32 bits wide in every statement received. *)

From S2P Require Import Prelude Types Sorting Quorums QuorumFacts Ballots BallotOrder SlotState BallotProtocol ScpMachine ScpRefinement BallotRefinement.

(** ** Counters in range *)
Definition typed_ballot (b : SCPBallot) : Prop := in_u32 (counter b).
Definition typed_opt (o : option SCPBallot) : Prop := forall b, o = Some b -> typed_ballot b.
Definition typed_statement (st : SCPStatement) : Prop :=
  match pledges st with
  | PREPARE p =>
      typed_ballot (prep_ballot p) /\ typed_opt (prep_prepared p) /\ typed_opt (prep_preparedPrime p)
      /\ in_u32 (prep_nC p) /\ in_u32 (prep_nH p)
  | CONFIRM c =>
      typed_ballot (con_ballot c) /\ in_u32 (con_nPrepared c) /\ in_u32 (con_nCommit c)
      /\ in_u32 (con_nH c)
  | EXTERNALIZE e => typed_ballot (ext_commit e) /\ in_u32 (ext_nH e)
  | NOMINATE _ => True
  end.
Record typed (m : Machine) : Prop := mkTyped {
  typed_b : typed_opt (m_b m);
  typed_p : typed_opt (m_p m);
  typed_p' : typed_opt (m_p' m);
  typed_h : typed_opt (m_h m);
  typed_c : typed_opt (m_c m);
  typed_M n st : m_M m !! n = Some st -> typed_statement st }.

Lemma typed_Some b : typed_ballot b -> typed_opt (Some b).
Proof. by intros H ? [= <-]. Qed.
Lemma typed_None : typed_opt None.
Proof. done. Qed.
Create HintDb typed discriminated.
#[export] Hint Resolve typed_Some typed_None typed_b typed_p typed_p' typed_h typed_c : typed.

Lemma typed_initial v : typed (machine (initialSlot v)).
Proof.
  by split.
Qed.
Lemma typed_keepCompatible x o : typed_opt o -> typed_opt (keepCompatible x o).
Proof. unfold keepCompatible. destruct o; [|done]. by destruct (areBallotsCompatible _ _). Qed.
Lemma typed_bump x m : typed_ballot x -> typed m -> typed (bumpMachine x m).
Proof. intros Hx []. split; cbn; auto using typed_Some, typed_keepCompatible. Qed.
Lemma typed_raisePrepared p p' x :
  typed_opt p -> typed_opt p' -> typed_ballot x ->
  typed_opt (raisePrepared p p' x).1 /\ typed_opt (raisePrepared p p' x).2.
Proof.
  intros Hp Hp' Hx. unfold raisePrepared. destruct p as [p0|]; [|split; cbn; by auto using typed_Some].
  destruct (_ <? 0); [|destruct (_ && _)]; cbn; [|by split; auto using typed_Some..].
  split; [by apply typed_Some|]. by destruct (areBallotsCompatible _ _).
Qed.

(** ** Candidates, boundaries and hints are in range *)
Lemma prepareCandidates_typed hint latest x :
  typed_statement hint -> (forall st, In st latest -> typed_statement st) ->
  x ∈ prepareCandidates (pledges hint) latest -> typed_ballot x.
Proof.
  intros Hh Hl (top & st & Htop & Hst & Hx)%prepareCandidates_elem.
  assert (Ht : typed_ballot top).
  { unfold hintBallots, typed_statement in *. destruct (pledges hint) as [p|c|e|]; [| | |set_solver].
    - destruct Hh as (H1 & H2 & H3 & _). rewrite !elem_of_cons, elem_of_app, !elem_of_opt in Htop.
      destruct Htop as [->|[H|H]]; auto.
    - destruct Hh as (_ & H & _). rewrite !elem_of_cons, elem_of_nil in Htop.
      destruct Htop as [->|[->|[]]]; [exact H|unfold typed_ballot; cbn; unfold_ints; lia].
    - apply list_elem_of_singleton in Htop as ->. unfold typed_ballot. cbn. unfold_ints. lia. }
  specialize (Hl st Hst). unfold candidatesBelow, typed_statement in *.
  destruct (pledges st) as [p|c|e|]; [| | |set_solver].
  - apply list_elem_of_In, filter_In in Hx as [Hx%list_elem_of_In _]. destruct Hl as (H1 & H2 & H3 & _).
    rewrite !elem_of_cons, elem_of_app, !elem_of_opt in Hx. destruct Hx as [->|[H|H]]; auto.
  - destruct (areBallotsCompatible _ _); [|set_solver]. apply elem_of_cons in Hx as [->|Hx]; [done|].
    destruct (_ <? _); [|set_solver]. apply list_elem_of_singleton in Hx as ->. apply Hl.
  - destruct (areBallotsCompatible _ _); [|set_solver]. by apply list_elem_of_singleton in Hx as ->.
Qed.
Lemma allCommitBoundaries_typed ballot latest n :
  (forall st, In st latest -> typed_statement st) ->
  n ∈ allCommitBoundaries ballot latest -> in_u32 n.
Proof.
  intros Hl [Hn|(st & Hst & Hn)]%(fold_inserts_elem Z.ltb); [set_solver|]. specialize (Hl st Hst).
  unfold commitBoundaries, typed_statement, typed_ballot in *.
  destruct (pledges st) as [p|c|e|]; [| | |set_solver];
    (case_match; [|set_solver]); rewrite !elem_of_cons, elem_of_nil in Hn;
    destruct_and?; destruct_or? Hn; subst; try done.
Qed.
(** The interval found is made of boundaries. *)
Lemma extendInterval_elem pred bs cand :
  let r := extendInterval pred bs cand in
  r = cand \/ (r.1 ∈ bs /\ (r.2 ∈ bs \/ r.2 = cand.2)).
Proof.
  revert cand. induction bs as [|b bs IH]; intros cand; cbn; [by left|].
  assert (Hskip : let r := extendInterval pred bs cand in
    r = cand \/ (r.1 ∈ b :: bs /\ (r.2 ∈ b :: bs \/ r.2 = cand.2))).
  { cbn. destruct (IH cand) as [->|[H1 H2]]; [by left|right]. set_solver. }
  destruct (_ && _); [exact Hskip|]. destruct (cand.1 =? 0); cbn [negb].
  - destruct (pred (b, b)); [|exact Hskip]. right.
    destruct (IH (b, b)) as [->|[H1 H2]]; cbn in *; set_solver.
  - destruct (pred (b, cand.2)); [|by left]. right.
    destruct (IH (b, cand.2)) as [->|[H1 H2]]; cbn in *; set_solver.
Qed.

Lemma findNewH_elem high f candidates newH rest :
  findNewH high f candidates = Some (newH, rest) -> newH ∈ candidates /\ forall x, x ∈ rest -> x ∈ candidates.
Proof.
  induction candidates as [|x candidates IH]; cbn; [done|]. destruct (and_ptr _ _); [done|].
  destruct (f x); [intros [= <- <-]; set_solver|]. intros H. destruct (IH H). set_solver.
Qed.
Lemma findNewC_elem b newH f newC candidates :
  findNewC b newH f newC candidates = newC \/ findNewC b newH f newC candidates ∈ candidates.
Proof.
  revert newC. induction candidates as [|x candidates IH]; intros newC; cbn; [by left|].
  destruct (_ <? 0); [by left|]. destruct (negb _); [destruct (IH newC); set_solver|].
  destruct (f x); [|by left]. destruct (IH x) as [->|]; set_solver.
Qed.
Lemma typed_counter o : typed_opt o -> in_u32 (from_option counter 0 o).
Proof. intros H. destruct o as [b|]; cbn; [by apply H|unfold_ints; lia]. Qed.
Lemma typed_zero : typed_ballot (mkBallot 0 []).
Proof. unfold typed_ballot. cbn. unfold_ints. lia. Qed.

(** ** Runs that do not want for fuel *)
Definition enough (x : stop) : Prop := x <> OutOfFuel.
(** Nesting level [l].  Outside of any [advanceSlot], nothing is externalized
    before the decision. *)
Definition inv (l : Z) (s : Slot) : Prop :=
  typed (machine s) /\ level s = l /\ (l = 0 -> unreported (machine s)).
Definition keepsMachine (f : Slot -> Slot) : Prop :=
  forall s, level (f s) = level s /\ (typed (machine s) -> typed (machine (f s))) /\
    (unreported (machine s) -> unreported (machine (f s))).

Section Safe.
Context `{D : SCPDriver} (NDEBUG : bool) (L : LocalNode) (mSlotIndex : Z).

(** At nesting level [l], [c] ends, and keeps the level. *)
Definition safe (l : Z) {A} (c : SlotM A) : Prop :=
  forall s, inv l s -> swp c (fun _ s' => inv l s') enough s.

Lemma enough_other x : x <> OutOfFuel -> enough x.
Proof using. done. Qed.
Lemma safe_bind l {A B} (c : SlotM A) (f : A -> SlotM B) :
  safe l c -> (forall a, safe l (f a)) -> safe l (c ≫= f).
Proof using.
  intros Hc Hf s Hs. apply swp_bind. eapply swp_mono; [by apply Hc|]. intros a s'. apply Hf.
Qed.
Lemma safe_ret l {A} (a : A) : safe l (mret a).
Proof using. by intros s. Qed.
Lemma safe_when l b c : safe l c -> safe l (when b c).
Proof using. destruct b; [done|intros; apply safe_ret]. Qed.
Lemma safe_reads l {A} (c : SlotM A) : reads c -> safe l c.
Proof using. intros H s Hs. apply swp_reads; auto. Qed.
Lemma safe_gets l {A} (f : Slot -> A) : safe l (gets f).
Proof using. by intros s. Qed.
Lemma safe_getb l {A} (f : BallotState -> A) : safe l (getb f).
Proof using. by intros s. Qed.
Lemma safe_getn l {A} (f : NominationState -> A) : safe l (getn f).
Proof using. by intros s. Qed.
Lemma safe_stops l {A} x : x <> OutOfFuel -> safe l (stops (A := A) x).
Proof using. by intros H s. Qed.
(** What the machine and the level do not see, or only as a signature. *)
Lemma safe_quiet l f : keepsMachine f -> safe l (modifies f).
Proof using.
  intros Hf s (Ht & Hl & Hu). apply swp_modifies. destruct (Hf s) as (H1 & H2 & H3).
  split; [auto|]. split; [congruence|auto].
Qed.
Lemma keepsMachine_split f :
  (forall s, level (f s) = level s) -> (forall s, typed (machine s) -> typed (machine (f s))) ->
  (forall s, m_phi (machine (f s)) = m_phi (machine s) /\
             m_externalized (machine (f s)) = m_externalized (machine s)) ->
  keepsMachine f.
Proof using.
  intros H1 H2 H3 s. destruct (H3 s) as [E1 E2]. unfold unreported. rewrite E1, E2. auto.
Qed.
Lemma safe_tell l c :
  match c with ValueExternalized _ => False | _ => True end -> safe l (tell c).
Proof using.
  intros Hc. apply safe_quiet, keepsMachine_split; try done.
  - intros s []. by split.
  - intros s. split; [done|]. by destruct c.
Qed.
Lemma safe_assignN l f : safe l (assignN f).
Proof using. apply safe_quiet. intros s. auto. Qed.
Lemma safe_setFullyValidated l v : safe l (setFullyValidated v).
Proof using. apply safe_quiet. intros s. auto. Qed.
Lemma safe_assign l f :
  (forall s, machine (on_ballots f s) = machine s /\ level (on_ballots f s) = level s) ->
  safe l (assign f).
Proof using. intros H. apply safe_quiet. intros s. destruct (H s) as [-> ->]. auto. Qed.
(** Inside [advanceSlot], nothing but the ranges counts. *)
Lemma safe_inside l f :
  l <> 0 ->
  (forall s, level (f s) = level s /\ (typed (machine s) -> typed (machine (f s)))) ->
  safe l (modifies f).
Proof using.
  intros Hl Hf s (Ht & Hs & _). apply swp_modifies. destruct (Hf s) as [H1 H2].
  split; [auto|]. split; [congruence|done].
Qed.
End Safe.

#[export] Hint Resolve safe_ret safe_gets safe_getb safe_getn safe_assignN
  safe_setFullyValidated : slots.
#[export] Hint Extern 2 (safe _ (tell _)) => (apply safe_tell; exact I) : slots.
#[export] Hint Extern 2 (safe _ (assign _)) => (apply safe_assign; split; reflexivity) : slots.
#[export] Hint Extern 3 (safe _ (stops _)) => (apply safe_stops; discriminate) : slots.
#[export] Hint Extern 4 (safe _ (deref _)) => (apply safe_reads, reads_deref) : slots.
#[export] Hint Extern 4 (safe _ (dbgAssert _ _)) =>
  (apply safe_reads, reads_dbgAssert; auto 9 with slots) : slots.
#[export] Hint Extern 4 (safe _ (checkInvariants _)) => (apply safe_reads, reads_checkInvariants) : slots.
Ltac calm :=
  repeat first
    [ match goal with |- forall _, _ => intro end
    | match goal with |- safe _ (_ ≫= _) => apply safe_bind | |- safe _ (when _ _) => apply safe_when end
    | match goal with |- safe _ (match ?x with _ => _ end) => destruct x end
    | solve [auto 9 with slots] ].

Section Operations.
Context `{D : SCPDriver} (NDEBUG : bool) (L : LocalNode) (mSlotIndex : Z).

Lemma safe_sendLatestEnvelope l : safe l sendLatestEnvelope.
Proof using. unfold sendLatestEnvelope, isFullyValidated. calm. Qed.
Lemma safe_checkHeardFromQuorum l : safe l (checkHeardFromQuorum L).
Proof using.
  unfold checkHeardFromQuorum, startBallotProtocolTimer, stopBallotProtocolTimer, votingPhase. calm.
Qed.
Lemma safe_make_shared l {A} (a : A) : safe l (make_shared a).
Proof using. unfold make_shared. calm. apply safe_quiet. intros s. auto. Qed.
Hint Resolve safe_sendLatestEnvelope safe_checkHeardFromQuorum safe_make_shared : slots.

(** The statements known are in range, as the invariant says. *)
Lemma latest_typed l s st :
  inv l s -> In st (List.map (fun e => statement e.2) (in_key_order (mLatestEnvelopes (ballots s)))) ->
  typed_statement st.
Proof using.
  intros [Ht _] ((n & e) & <- & He)%in_map_iff. apply list_elem_of_In in He.
  unfold in_key_order in He. rewrite insertion_sort_perm in He. apply elem_of_map_to_list in He.
  apply (typed_M _ Ht n). cbn. by rewrite lookup_fmap, He.
Qed.

Section Emit.
Context (l : Z) (emit : SlotM unit) (Hemit : safe l emit).
Hint Resolve Hemit : slots.

Lemma inv_bump (c : bool) x s s' :
  typed_ballot x -> inv l s -> machine s' = (if c then bumpMachine x (machine s) else machine s) ->
  level s' = level s -> inv l s'.
Proof using.
  intros Hx (Ht & Hl & Hu) Hs' Hl'. unfold inv. rewrite Hs'. split; [destruct c; auto using typed_bump|].
  split; [congruence|]. by destruct c.
Qed.
Lemma safe_updateCurrentValue x : typed_ballot x -> safe l (updateCurrentValue NDEBUG x).
Proof using.
  intros Hx s Hi. apply swp_updateCurrentValue; [done|]. intros s'. by apply inv_bump.
Qed.
Lemma safe_bumpStateTo v n : in_u32 n -> safe l (bumpStateTo NDEBUG L emit v n).
Proof using Hemit.
  intros Hn. unfold bumpStateTo, votingPhase. calm. by apply safe_updateCurrentValue.
Qed.
Lemma safe_bumpState v force : safe l (bumpState NDEBUG L emit v force).
Proof using Hemit.
  unfold bumpState. calm. apply safe_bumpStateTo.
  case_match; [auto with ints|unfold_ints; lia].
Qed.
Lemma safe_abandonBallot n : in_u32 n -> safe l (abandonBallot NDEBUG L emit n).
Proof using Hemit.
  intros Hn. unfold abandonBallot, getLatestCompositeCandidate. calm;
    auto using safe_bumpState, safe_bumpStateTo.
Qed.

Lemma safe_setPreparedAccept x : typed_ballot x -> safe l (setPreparedAccept NDEBUG emit x).
Proof using Hemit.
  intros Hx. unfold setPreparedAccept. apply safe_bind.
  - intros s (Ht & Hl & Hu). apply swp_setPrepared. intros _ s' Hs' Hl'. unfold inv. rewrite Hs'.
    unfold preparedMachine. pose proof (typed_raisePrepared _ _ x (typed_p _ Ht) (typed_p' _ Ht) Hx) as [H1 H2].
    destruct (raisePrepared _ _ x). split; [destruct Ht; by split|]. split; [congruence|done].
  - calm. apply safe_quiet, keepsMachine_split; try done. intros s []. by split.
Qed.
Lemma safe_acceptPrepared candidates :
  (forall x, x ∈ candidates -> typed_ballot x) -> safe l (acceptPrepared NDEBUG L emit candidates).
Proof using Hemit.
  induction candidates as [|x candidates IH]; intros Hx; cbn [acceptPrepared]; calm;
    try (apply IH; set_solver); apply safe_setPreparedAccept; set_solver.
Qed.
Lemma safe_attemptPreparedAccept hint :
  typed_statement hint -> safe l (attemptPreparedAccept NDEBUG L emit hint).
Proof using Hemit.
  intros Hh s Hs. unfold attemptPreparedAccept. do 3 sstep; [by sstep|]. do 2 sstep.
  apply safe_acceptPrepared; [|done]. intros x Hx. rewrite elem_of_rev in Hx.
  eapply prepareCandidates_typed; [done| |exact Hx]. intros st. by apply latest_typed with (l := l).
Qed.

Lemma safe_updateCurrentIfNeeded x : typed_ballot x -> safe l (updateCurrentIfNeeded NDEBUG x).
Proof using.
  intros Hx s Hi. apply swp_updateCurrentIfNeeded; [done|]. intros s'. by apply inv_bump.
Qed.
(** Inside [advanceSlot]. *)
Context (Hinside : l <> 0).
(** Setting ballots in range. *)
Lemma safe_set_high x : typed_ballot x -> safe l (assign (fun b => set_high b (Some x))).
Proof using. intros Hx. apply safe_quiet, keepsMachine_split; try done. intros s []. split; cbn; auto with typed. Qed.
Lemma safe_set_commit x : typed_ballot x -> safe l (assign (fun b => set_commit b (Some x))).
Proof using. intros Hx. apply safe_quiet, keepsMachine_split; try done. intros s []. split; cbn; auto with typed. Qed.
Lemma safe_set_commit_high c h :
  typed_ballot c -> typed_ballot h ->
  safe l (assign (fun b => set_high (set_commit b (Some c)) (Some h))).
Proof using. intros Hc Hh. apply safe_quiet, keepsMachine_split; try done. intros s []. split; cbn; auto with typed. Qed.
Lemma safe_set_phase p : safe l (assign (fun b => set_phase b p)).
Proof using Hinside. apply safe_inside; [done|]. intros s. split; [done|]. intros []. by split. Qed.
Lemma safe_externalized v : safe l (tell (ValueExternalized v)).
Proof using Hinside. apply safe_inside; [done|]. intros s. split; [done|]. intros []. by split. Qed.
Lemma safe_set_prime : safe l (assign (fun b => set_preparedPrime b None)).
Proof using. apply safe_quiet, keepsMachine_split; try done. intros s []. by split. Qed.
Lemma safe_bumpToBallot x check : typed_ballot x -> safe l (bumpToBallot NDEBUG x check).
Proof using.
  intros Hx s Hi. apply swp_bumpToBallot; [done|]. intros s' Hs'. by apply (inv_bump true x s).
Qed.
Hint Resolve safe_set_high safe_set_commit safe_set_commit_high safe_set_phase safe_set_prime safe_externalized
  safe_updateCurrentIfNeeded safe_bumpToBallot : slots.

Lemma safe_setPreparedConfirmed newC newH :
  typed_ballot newC -> typed_ballot newH -> safe l (setPreparedConfirmed NDEBUG emit newC newH).
Proof using Hemit. intros Hc Hh. unfold setPreparedConfirmed. calm. Qed.

Lemma safe_attemptPreparedConfirmed hint :
  typed_statement hint -> safe l (attemptPreparedConfirmed NDEBUG L emit hint).
Proof using Hemit.
  intros Hh s Hs. unfold attemptPreparedConfirmed. do 2 sstep. cbn [id].
  sstep; [by sstep|]. sstep; [by sstep|]. do 2 sstep.
  destruct (findNewH _ _ _) as [[newH rest]|] eqn:Ef; [|by sstep].
  apply findNewH_elem in Ef as [HnewH Hrest].
  assert (Hc : forall x, x ∈ rev (prepareCandidates (pledges hint)
    (List.map (fun e => statement e.2) (in_key_order (mLatestEnvelopes (ballots s))))) -> typed_ballot x).
  { intros x Hx. rewrite elem_of_rev in Hx. eapply prepareCandidates_typed; [done| |exact Hx].
    intros st. by apply latest_typed with (l := l). }
  apply safe_setPreparedConfirmed; [|auto|done]. case_match; [|apply typed_zero].
  match goal with |- typed_ballot (findNewC ?b ?h ?f ?c ?r) =>
    destruct (findNewC_elem b h f c r) as [->|Hin] end; [apply typed_zero|auto].
Qed.

Lemma safe_derefHigh {A} (k : SCPBallot -> SlotM A) :
  (forall x, typed_ballot x -> safe l (k x)) ->
  safe l (high ← getb mHighBallot; high ← deref high; k high).
Proof using.
  intros Hk s Hs. do 4 sstep; [|done]. apply Hk; [|done]. destruct Hs as [Ht _]. by apply (typed_h _ Ht).
Qed.
Lemma safe_setAcceptCommit c h :
  typed_ballot c -> typed_ballot h -> safe l (setAcceptCommit NDEBUG emit c h).
Proof using Hemit Hinside.
  intros Hc Hh. unfold setAcceptCommit. do 4 (apply safe_bind; [calm|intros ?]).
  apply safe_bind; [|calm]. apply safe_when, safe_derefHigh. calm.
Qed.
Lemma safe_setConfirmCommit c h :
  typed_ballot c -> typed_ballot h -> safe l (setConfirmCommit NDEBUG emit c h).
Proof using Hemit Hinside. intros Hc Hh. unfold setConfirmCommit, stopNomination. calm. Qed.

(** The interval found between boundaries in range is in range. *)
Lemma interval_typed boundaries pred v (candidate := findExtendedInterval (0, 0) boundaries pred) :
  (forall n, n ∈ boundaries -> in_u32 n) ->
  typed_ballot (mkBallot candidate.1 v) /\ typed_ballot (mkBallot candidate.2 v).
Proof using.
  intros Hb. unfold candidate, findExtendedInterval, typed_ballot. cbn [counter].
  assert (H0 : in_u32 0) by (unfold_ints; lia).
  destruct (extendInterval_elem pred (rev boundaries) (0, 0)) as [->|[H1 H2]]; [done|].
  rewrite elem_of_rev in H1, H2. destruct H2 as [H2| ->]; auto.
Qed.
Lemma safe_attemptAcceptCommit hint : safe l (attemptAcceptCommit NDEBUG L emit hint).
Proof using Hemit Hinside.
  intros s Hs. unfold attemptAcceptCommit. do 3 sstep; [by sstep|].
  destruct (hintCommit _) as [ballot|]; [|by sstep]. do 2 sstep. cbn [id]. sstep.
  apply swp_reads; [done|case_match; auto with slots|]. intros compatible. sstep; [by sstep|].
  do 2 sstep. pose proof (allCommitBoundaries_typed ballot (List.map (fun e => statement e.2)
    (in_key_order (mLatestEnvelopes (ballots s))))) as Hb.
  destruct (allCommitBoundaries _ _) as [|n boundaries]; [by sstep|].
  sstep; [by sstep|]. sstep. apply swp_reads; [done|case_match; auto with slots|]. intros [];
    [|by sstep].
  apply safe_setAcceptCommit; [| |done]; apply interval_typed; intros m; apply Hb; intros st;
    by apply latest_typed with (l := l).
Qed.
Lemma safe_attemptConfirmCommit hint : safe l (attemptConfirmCommit NDEBUG L emit hint).
Proof using Hemit Hinside.
  intros s Hs. unfold attemptConfirmCommit. do 2 sstep. cbn [id]. sstep; [by sstep|].
  destruct (mHighBallot (ballots s)); [|by sstep]. destruct (mCommit (ballots s)); [|by sstep].
  destruct (hintConfirm _) as [ballot|]; [|by sstep]. sstep; [by sstep|]. do 2 sstep. sstep; [by sstep|].
  apply safe_setConfirmCommit; [| |done]; apply interval_typed; intros m; apply allCommitBoundaries_typed;
    intros st; by apply latest_typed with (l := l).
Qed.
End Emit.

(** ** The loop of [attemptBump]: phase and counter only grow *)
Definition phase_index (p : SCPPhase) : Z :=
  match p with SCP_PHASE_PREPARE => 0 | SCP_PHASE_CONFIRM => 1 | SCP_PHASE_EXTERNALIZE => 2 end.
Definition rank (m : Machine) : Z :=
  phase_index (m_phi m) * 2 ^ 32 + from_option counter 0 (m_b m).
Definition opt_le (o o' : option SCPBallot) : Prop :=
  match o, o' with Some b, Some b' => counter b <= counter b' | None, _ => True | Some _, None => False end.
Definition grows (m m' : Machine) : Prop :=
  phase_index (m_phi m) < phase_index (m_phi m') \/
  m_phi m = m_phi m' /\ opt_le (m_b m) (m_b m').

Lemma opt_le_refl o : opt_le o o.
Proof using. destruct o; cbn; lia. Qed.
Lemma opt_le_trans o1 o2 o3 : opt_le o1 o2 -> opt_le o2 o3 -> opt_le o1 o3.
Proof using. destruct o1, o2, o3; cbn; try done; lia. Qed.
Lemma grows_trans m1 m2 m3 : grows m1 m2 -> grows m2 m3 -> grows m1 m3.
Proof using.
  unfold grows. intros [H1|[E1 H1]] [H2|[E2 H2]]; [left; lia|left; congruence|left; congruence|].
  right. split; [congruence|by eapply opt_le_trans].
Qed.
Lemma raiseCurrent_le phi b h : phi <> SCP_PHASE_PREPARE -> opt_le b (raiseCurrent phi b h).
Proof using.
  intros Hp. rewrite raiseCurrent_behind by done. destruct b as [b|]; [|done]. cbn [behind].
  destruct (Z.ltb_spec (compareBallots b h) 0) as [H|]; cbn; [|lia].
  by apply compareBallots_lt, ballot_lt_counter in H.
Qed.
Lemma transition_grows K m m' : transition L K m m' -> grows m m'.
Proof using.
  unfold grows. intros Ht. destruct Ht as [| |x Hp Hb Hc| | |c h Hp|c h Hp|]; cbn;
    try (right; split; [done|apply opt_le_refl]).
  - right. split; [done|]. destruct (m_b m) as [b|]; cbn; [|done]. by apply ballot_lt_counter, Hb.
  - destruct (m_phi m) eqn:E; cbn; [left; lia| |done]. right. split; [done|].
    by apply raiseCurrent_le.
  - left. rewrite Hp. cbn. lia.
Qed.
Lemma reaches_grows K m m' : reaches L K m m' -> grows m m'.
Proof using.
  induction 1; [right; split; [done|apply opt_le_refl]|].
  eapply grows_trans; [by eapply transition_grows|done].
Qed.
Lemma typed_range m : typed m -> 0 <= from_option counter 0 (m_b m) < 2 ^ 32.
Proof using.
  intros [Hb _ _ _ _ _]. destruct (m_b m) as [b|]; cbn; [|lia]. specialize (Hb b eq_refl).
  unfold typed_ballot in Hb. unfold_ints. lia.
Qed.
Lemma grows_rank m m' : typed m -> typed m' -> grows m m' -> rank m <= rank m'.
Proof using.
  intros H%typed_range H'%typed_range. unfold grows, rank. intros [Hp|[-> Hb]]; [lia|].
  destruct (m_b m) as [b|], (m_b m') as [b'|]; cbn in *; lia || done.
Qed.
Lemma rank_range m : typed m -> 0 <= rank m < 2 ^ 34.
Proof using. intros H%typed_range. unfold rank. destruct (m_phi m); cbn [phase_index]; lia. Qed.

(** Every statement may be received. *)
Definition anything (st : SCPStatement) : Prop := True.
Definition running (l : Z) (s : Slot) : Prop := inv l s /\ unreported (machine s).
Lemma climbs l {A} (c : SlotM A) s :
  safe l c -> refines L anything c -> running l s ->
  swp c (fun _ s' => running l s' /\ rank (machine s) <= rank (machine s')) enough s.
Proof using.
  intros Hs Hr [Hi Hu]. specialize (Hs s Hi). specialize (Hr s). unfold swp in *.
  destruct (c s) as [a s'|x]; [|done]. destruct (Hr Hu) as [R _].
  split; [split; [done|by eapply reaches_unreported]|].
  apply grows_rank; [apply Hi|apply Hs|by eapply reaches_grows].
Qed.

Lemma repeatWhile_climbs l k body work s :
  (forall s, running l s -> swp body (fun c s' => running l s' /\
     (c = true -> rank (machine s) + 1 <= rank (machine s'))) enough s) ->
  running l s ->
  swp (repeatWhile k body work) (fun r s' => running l s' /\
     (r.1 = true -> rank (machine s) + 2 ^ Z.of_nat k <= rank (machine s'))) enough s.
Proof using.
  intros Hb. revert work s. induction k as [|k IH]; intros work s Hs; cbn [repeatWhile].
  - sstep. eapply swp_mono; [by apply Hb|]. intros c s' [H1 H2]. by sstep.
  - sstep. eapply swp_mono; [by apply IH|]. intros [c w] s1 [H1 H2]. cbn in H2.
    destruct c; [|by sstep]. eapply swp_mono; [by apply IH|]. intros [c' w'] s2 [H3 H4].
    split; [done|]. intros Hc. specialize (H2 eq_refl). specialize (H4 Hc).
    rewrite Nat2Z.inj_succ, Z.pow_succ_r by lia. lia.
Qed.
Lemma doWhile_ends l body work s :
  (forall s, running l s -> swp body (fun c s' => running l s' /\
     (c = true -> rank (machine s) + 1 <= rank (machine s'))) enough s) ->
  running l s -> swp (doWhile body work) (fun _ s' => running l s') enough s.
Proof using.
  intros Hb Hs. unfold doWhile. sstep. eapply swp_mono; [by apply (repeatWhile_climbs l)|].
  intros [[] w] s' [H1 H2]; [|by sstep]. specialize (H2 eq_refl). exfalso.
  pose proof (rank_range _ (proj1 (proj1 Hs))). pose proof (rank_range _ (proj1 (proj1 H1))). lia.
Qed.

Lemma findTarget_spec target f counters n :
  findTarget target f counters = Some n -> n ∈ counters /\ target < n.
Proof using.
  induction counters as [|m counters IH]; cbn; [done|].
  destruct (Z.ltb_spec m target); [done|]. destruct (Z.eqb_spec m target).
  - destruct (negb _); [done|]. intros H'. apply IH in H'. set_solver.
  - destruct (negb _); [|intros H'; apply IH in H'; set_solver].
    intros [= ->]. split; [by left|lia].
Qed.
Lemma statementCounter_typed st : typed_statement st -> in_u32 (statementCounter st).
Proof using.
  unfold typed_statement, statementCounter, typed_ballot. destruct (pledges st); unfold_ints; lia.
Qed.

Section Bump.
Context (l : Z) (emit : SlotM unit) (Hsafe : safe l emit) (Hrefines : refines L anything emit).

Lemma bumpStateTo_climbs v n s :
  in_u32 n -> from_option counter 0 (m_b (machine s)) < n -> running l s ->
  swp (bumpStateTo NDEBUG L emit v n) (fun c s' => running l s' /\
    (c = true -> rank (machine s) + 1 <= rank (machine s'))) enough s.
Proof using Hsafe Hrefines.
  intros Hn Hlt Hs. unfold bumpStateTo. do 3 sstep; [by sstep|]. do 3 sstep. set (x := mkBallot n _).
  eapply swp_mono with (Q := fun c s1 => running l s1 /\
    (c = true -> rank (machine s) + 1 <= rank (machine s1))).
  { destruct Hs as [Hi Hu]. apply swp_updateCurrentValue; [done|]. intros s1 Hm Hl1.
    split; [split; [by apply (inv_bump l (canMoveTo (ballots s) x) x s)|rewrite Hm; by destruct (canMoveTo _ _)]|].
    intros Hc. rewrite Hc in Hm. rewrite Hm. unfold rank, bumpMachine. mproj. cbn [from_option x counter].
    lia. }
  intros updated s1 [Hs1 Hr]. sstep. destruct updated; [|by sstep; sstep]. cbn [when].
  eapply swp_mono; [apply (climbs l); [| |exact Hs1]|].
  - apply safe_bind; [done|]. intros. apply safe_checkHeardFromQuorum.
  - apply refines_bind; [done|]. intros. apply refines_checkHeardFromQuorum.
  - intros ? s2 [Hs2 Hr2]. sstep. split; [done|]. intros _. specialize (Hr eq_refl). lia.
Qed.
Lemma attemptBump_climbs s :
  running l s ->
  swp (attemptBump NDEBUG L emit) (fun c s' => running l s' /\
    (c = true -> rank (machine s) + 1 <= rank (machine s'))) enough s.
Proof using Hsafe Hrefines.
  intros Hs. unfold attemptBump. do 3 sstep; [by sstep|]. do 4 sstep. cbn [id].
  set (counters := set_insert _ _ _).
  assert (Hc : forall n, n ∈ counters -> in_u32 n).
  { intros n [->|Hn]%(elem_of_set_insert Z.ltb).
    - destruct Hs as [[Ht _] _]. pose proof (typed_range _ Ht) as H'. cbn in H'. unfold_ints. lia.
    - apply (elem_of_set_of Z.ltb), list_elem_of_In, in_map_iff in Hn as (st & <- & Hst).
      apply statementCounter_typed. apply (latest_typed l s); [apply Hs|done]. }
  destruct (findTarget _ _ counters) as [n|] eqn:Ef; [|by sstep].
  apply findTarget_spec in Ef as [Hn Hlt]. apply Hc in Hn. unfold abandonBallot, getLatestCompositeCandidate.
  do 4 sstep. case_match; [by sstep|].
  assert (Hn0 : n =? 0 = false).
  { apply Z.eqb_neq. destruct Hs as [[Ht _] _]. pose proof (typed_range _ Ht) as H'. cbn in H'. lia. }
  rewrite Hn0. by apply bumpStateTo_climbs.
Qed.
End Bump.

(** ** Processing an envelope, and emitting *)
Section Advance.
Context (l : Z) (Hl : 0 <= l) (emit : SlotM unit) (Hsafe : l + 1 < MAX_ADVANCE_SLOT_RECURSION -> safe (l + 1) emit)
  (Hrefines : refines L anything emit)
  (Hcrash : forall s, mPhase (ballots s) = SCP_PHASE_CONFIRM -> mCommit (ballots s) = None ->
     swp emit (fun _ _ => False) (fun _ => True) s).

Definition inside (s : Slot) : Prop := inv (l + 1) s /\ (l = 0 -> unreported (machine s)).
Lemma stays {A} (c : SlotM A) s :
  safe (l + 1) c -> refines L anything c -> inside s -> swp c (fun _ s' => inside s') enough s.
Proof using.
  intros Hs Hr [Hi Hu]. specialize (Hs s Hi). specialize (Hr s). unfold swp in *.
  destruct (c s) as [a s'|x]; [|done]. split; [done|]. intros H0.
  destruct (Hr (Hu H0)) as [R _]. eapply reaches_unreported; eauto.
Qed.
Lemma safe_advanceSlot hint : typed_statement hint -> safe l (advanceSlot NDEBUG L emit hint).
Proof using Hl Hsafe Hrefines Hcrash.
  intros Hh s (Ht & Hlev & Hu). unfold advanceSlot. do 4 sstep.
  match goal with |- swp _ _ _ ?s' => set (s0 := s') end.
  assert (H0 : inside s0).
  { split; [split; [done|]|exact Hu]. split; [|lia]. cbn. unfold level in Hlev. congruence. }
  assert (Elev : mCurrentMessageLevel (ballots s0) = l + 1) by apply H0. clearbody s0. rewrite Elev.
  sstep; [by sstep|]. match goal with H : (_ <=? _) = false |- _ => apply Z.leb_gt in H; specialize (Hsafe H) end.
  sstep. eapply swp_mono; [apply stays; [by apply safe_attemptPreparedAccept|by apply refines_attemptPreparedAccept|exact H0]|].
  intros w1 s1 H1. sstep.
  eapply swp_mono; [apply stays; [by apply safe_attemptPreparedConfirmed|by apply refines_attemptPreparedConfirmed|exact H1]|].
  intros w2 s2 H2. sstep.
  eapply swp_mono; [apply stays; [apply safe_attemptAcceptCommit; [done|lia]|by apply refines_attemptAcceptCommit|exact H2]|].
  intros w3 s3 H3. sstep.
  eapply swp_mono; [apply stays; [apply safe_attemptConfirmCommit; [done|lia]|by apply refines_attemptConfirmCommit|exact H3]|].
  intros w4 s4 H4. sstep. apply swp_mono with (Q := fun _ s' => inside s').
  - sstep; [|by sstep].
    match goal with H : (_ =? _) = true |- _ => apply Z.eqb_eq in H; assert (El : l = 0) by lia end.
    sstep. eapply swp_mono.
    { apply (doWhile_ends (l + 1)); [by apply attemptBump_climbs|]. split; by apply H4. }
    intros w5 s5 [Hi5 Hu5]. sstep.
    eapply swp_mono; [apply stays; [apply safe_checkHeardFromQuorum|apply refines_checkHeardFromQuorum|by split]|].
    intros ? s6 H6. by sstep.
  - intros w5 s5 [(Ht5 & Hl5 & _) Hu5]. do 2 sstep.
    apply safe_when; [apply safe_sendLatestEnvelope|]. split; [done|]. split; [|exact Hu5].
    cbn. unfold level in Hl5. lia.
Qed.

Lemma safe_recordEnvelope e : typed_statement (statement e) -> safe l (recordEnvelope e).
Proof using.
  intros He. unfold recordEnvelope, recordStatement. apply safe_bind.
  - apply safe_quiet, keepsMachine_split; try done. intros s []. split; try done.
    intros n st. cbn. rewrite (fmap_insert statement). intros [[_ <-]|[_ Hst]]%lookup_insert_Some; [done|].
    by eapply (typed_M0 n).
  - intros _. apply safe_quiet. intros s. auto.
Qed.
Lemma safe_processEnvelopeWith e self :
  typed_statement (statement e) -> safe l (processEnvelopeWith NDEBUG L mSlotIndex emit e self).
Proof using Hl Hsafe Hrefines Hcrash.
  intros He. unfold processEnvelopeWith, isNewerFrom. calm;
    auto using safe_recordEnvelope, safe_advanceSlot.
Qed.
End Advance.

Lemma describes_typed m st : typed m -> describes L m (pledges st) -> typed_statement st.
Proof using.
  intros []. unfold describes, typed_statement. destruct (pledges st) as [p|c|e|]; [| | |done].
  - intros [_ ->]. cbn. split; [|auto using typed_counter].
    destruct (m_b m) as [b|]; [by apply typed_b0|apply typed_zero].
  - intros (_ & b & p & c0 & h & Hb & Hp & Hc & Hh & ->). cbn. split; [auto|]. split; [by apply typed_p0|].
    split; [by apply typed_c0|by apply typed_h0].
  - intros (_ & c & h & Hc & Hh & ->). cbn. split; [auto|by apply typed_h0].
Qed.
Lemma createStatement_described t s :
  t = mPhase (ballots s) ->
  swp (createStatement NDEBUG L t) (fun pl s' => s' = s /\ describes L (machine s) pl) enough s.
Proof using.
  intros Ht. pose proof (swp_createStatement NDEBUG L t s (fun pl s' => s' = s /\ describes L (machine s) pl) Ht
    ltac:(done)) as H.
  assert (Hr : reads (createStatement NDEBUG L t)).
  { unfold createStatement. apply reads_bind; [apply reads_checkInvariants|]. intros _.
    apply reads_bind; [apply reads_getb|]. intros b. destruct t; auto 12 with slots. }
  specialize (Hr s). unfold swp in *. by destruct (createStatement _ _ _ _).
Qed.

Lemma safe_emitBody l process :
  (forall e, typed_statement (statement e) -> safe l (process e true)) ->
  safe l (emitBody NDEBUG L mSlotIndex process).
Proof using.
  intros Hp s Hs. unfold emitBody. do 3 sstep.
  eapply swp_mono; [by apply createStatement_described|]. intros pl ? [-> Hd].
  sstep. unfold createEnvelope. sstep. set (st := mkStatement (mNodeID L) mSlotIndex pl).
  assert (Hst : typed_statement st) by (eapply describes_typed; [apply Hs|exact Hd]).
  eapply swp_mono; [apply (safe_tell l (SignEnvelope (mkEnvelope st (signEnvelope st)))); [done|exact Hs]|].
  intros ? s1 H1. do 3 sstep. sstep; [by sstep|]. sstep.
  eapply swp_mono; [by apply Hp|]. intros r s2 H2.
  match goal with |- swp ?c _ _ _ => enough (Hc : safe l c) by (by apply Hc) end.
  unfold throws. calm. all: auto using safe_make_shared, safe_sendLatestEnvelope.
Qed.
Lemma safe_emitCurrentStateStatement fuel l :
  0 <= l < MAX_ADVANCE_SLOT_RECURSION -> MAX_ADVANCE_SLOT_RECURSION <= l + Z.of_nat fuel ->
  safe l (emitCurrentStateStatement NDEBUG L mSlotIndex fuel).
Proof using.
  revert l. induction fuel as [|fuel IH]; intros l Hl Hf; [lia|]. cbn [emitCurrentStateStatement].
  apply safe_emitBody. intros e He.
  pose proof (refines_emitCurrentStateStatement NDEBUG L mSlotIndex anything fuel) as [Hr Hc].
  apply safe_processEnvelopeWith; [lia|intros; apply IH; lia|done..].
Qed.
Lemma safe_emitting : safe 0 (emitting NDEBUG L mSlotIndex).
Proof using. apply safe_emitCurrentStateStatement; unfold MAX_ADVANCE_SLOT_RECURSION; lia. Qed.

(** The operations, closed. *)
Lemma safe_ballot_processEnvelope e self :
  typed_statement (statement e) -> safe 0 (ballot_processEnvelope NDEBUG L mSlotIndex e self).
Proof using.
  intros He. pose proof (refines_emitCurrentStateStatement NDEBUG L mSlotIndex anything
    (Z.to_nat MAX_ADVANCE_SLOT_RECURSION)) as [Hr Hc].
  apply safe_processEnvelopeWith; [lia| |done..].
  intros _. apply safe_emitCurrentStateStatement; unfold MAX_ADVANCE_SLOT_RECURSION; lia.
Qed.
Lemma safe_ballot_bumpState v force : safe 0 (ballot_bumpState NDEBUG L mSlotIndex v force).
Proof using. apply safe_bumpState, safe_emitting. Qed.
Lemma safe_ballot_abandonBallot n :
  in_u32 n -> safe 0 (ballot_abandonBallot NDEBUG L mSlotIndex n).
Proof using. apply safe_abandonBallot, safe_emitting. Qed.
End Operations.
