(* ===== verification/NominationTermination.v ===== *)
(** Every operation of a slot ends.  Nomination emits again whenever the votes
    or the accepted values have grown; they grow by values that some statement
    mentions, or that the driver extracts from them, so that the emissions
    nested in each other are at most four times the values mentioned - provided
    that what the driver extracts is a value it finds fully valid. *)

From S2P Require Import Prelude Types Sorting Quorums QuorumFacts Ballots BallotOrder SlotState BallotProtocol Nomination ScpMachine ScpRefinement BallotRefinement SlotRefinement ScpTermination Agreement.

(** Extracting a valid value from a value already extracted gives nothing new.
    This is less than the contract of [SCPDriver::extractValidValue] ("a
    different value that the local node would agree to (fully validated)"),
    which the Herder does not keep ([Extraction.extracted_yet_invalid]); it
    does keep this ([Extraction.herder_extracts_settle]). *)
Definition extracts_settle (D : SCPDriver) (mSlotIndex : Z) : Prop :=
  forall v, let w := extractValidValue mSlotIndex v in
  w = [] \/ validateValue mSlotIndex w true = kFullyValidatedValue \/
  extractValidValue mSlotIndex w = [] \/ extractValidValue mSlotIndex w = w.

(** How much of [U] has been voted for and accepted. *)
Definition within (U : list Value) (vs : list Value) : nat :=
  length (List.filter (fun u => set_has valueLt u vs) U).
Definition progress (U : list Value) (s : Slot) : nat :=
  within U (mVotes (nomination s)) + within U (mAccepted (nomination s)).
Definition mentions (U : list Value) (st : SCPStatement) : Prop :=
  forall v, v ∈ nominationValues (nominate_of st) -> v ∈ U.
Record nominating (U : list Value) (s : Slot) : Prop := mkNominating {
  nominating_inv : inv 0 s;
  nominating_votes v : v ∈ mVotes (nomination s) -> v ∈ U;
  nominating_accepted v : v ∈ mAccepted (nomination s) -> v ∈ U;
  nominating_latest n e : mLatestNominations (nomination s) !! n = Some e -> mentions U (statement e) }.

Lemma within_le U vs : (within U vs <= length U)%nat.
Proof. unfold within. apply List.filter_length_le. Qed.
Lemma progress_le U s : (progress U s <= 2 * length U)%nat.
Proof. unfold progress. pose proof (within_le U (mVotes (nomination s))). pose proof (within_le U (mAccepted (nomination s))). lia. Qed.
Lemma filter_grows {A} (f g : A -> bool) (l : list A) :
  (forall x, f x = true -> g x = true) ->
  (length (List.filter f l) <= length (List.filter g l))%nat /\
  forall x, x ∈ l -> f x = false -> g x = true ->
    (length (List.filter f l) < length (List.filter g l))%nat.
Proof.
  intros Hfg. induction l as [|y l [IH1 IH2]]; cbn [List.filter]; [split; [done|set_solver]|].
  assert (Hs : forall x, f x = true \/ f x = false) by (intros x; destruct (f x); auto).
  split.
  - destruct (f y) eqn:Ef; [rewrite (Hfg y Ef); cbn; lia|]. destruct (g y); cbn; lia.
  - intros x [->|Hx]%elem_of_cons Hf Hg; [rewrite Hf, Hg; cbn; lia|]. specialize (IH2 x Hx Hf Hg).
    destruct (f y) eqn:Ef; [rewrite (Hfg y Ef); cbn; lia|]. destruct (g y); cbn; lia.
Qed.
Lemma within_insert U v vs :
  (within U vs <= within U (set_insert valueLt v vs))%nat /\
  (v ∈ U -> set_has valueLt v vs = false -> within U vs < within U (set_insert valueLt v vs))%nat.
Proof.
  assert (Hm : forall u, set_has valueLt u vs = true -> set_has valueLt u (set_insert valueLt v vs) = true).
  { intros u. rewrite !set_has_spec, elem_of_set_insert by apply _. auto. }
  destruct (filter_grows _ _ U Hm) as [H1 H2]. split; [done|]. intros Hv Hf. apply (H2 v); [done..|].
  apply set_has_spec; [apply _|]. apply elem_of_set_insert; [apply _|]. by left.
Qed.

Section Nomination.
Context `{D : SCPDriver} (NDEBUG : bool) (L : LocalNode) (mSlotIndex : Z).

(** ** Steps that leave votes, accepted values and statements alone *)
Definition sets (s : Slot) : list Value * list Value * gmap NodeID SCPEnvelope :=
  (mVotes (nomination s), mAccepted (nomination s), mLatestNominations (nomination s)).
Definition idle {A} (c : SlotM A) : Prop :=
  forall s, inv 0 s -> swp c (fun _ s' => inv 0 s' /\ sets s' = sets s) enough s.

Lemma idle_bind {A B} (c : SlotM A) (f : A -> SlotM B) : idle c -> (forall a, idle (f a)) -> idle (c ≫= f).
Proof using.
  intros Hc Hf s Hs. apply swp_bind. eapply swp_mono; [by apply Hc|]. intros a s1 [H1 E1].
  eapply swp_mono; [by apply Hf|]. intros b s2 [H2 E2]. split; [done|congruence].
Qed.
Lemma idle_ret {A} (a : A) : idle (mret a).
Proof using. by intros s. Qed.
Lemma idle_when b c : idle c -> idle (when b c).
Proof using. destruct b; [done|intros; apply idle_ret]. Qed.
Lemma idle_getn {A} (f : NominationState -> A) : idle (getn f).
Proof using. by intros s. Qed.
Lemma idle_gets {A} (f : Slot -> A) : idle (gets f).
Proof using. by intros s. Qed.
Lemma idle_dbgAssert c : reads c -> idle (dbgAssert NDEBUG c).
Proof using. intros Hc s Hs. apply swp_reads; [done|by apply reads_dbgAssert|done]. Qed.
Lemma idle_assignN f :
  (forall n, (mVotes (f n), mAccepted (f n), mLatestNominations (f n)) = (mVotes n, mAccepted n, mLatestNominations n)) ->
  idle (assignN f).
Proof using. intros Hf s Hs. apply swp_assignN. split; [exact Hs|apply Hf]. Qed.
Lemma idle_tell c : match c with ValueExternalized _ => False | _ => True end -> idle (tell c).
Proof using.
  intros Hc s Hs. pose proof (safe_tell 0 c Hc s Hs) as H. unfold swp in *. cbn in *. by split.
Qed.
End Nomination.
#[export] Hint Resolve idle_ret idle_getn idle_gets : slots.
#[export] Hint Extern 2 (idle (tell _)) => (apply idle_tell; exact I) : slots.
#[export] Hint Extern 2 (idle (assignN _)) => (apply idle_assignN; reflexivity) : slots.
#[export] Hint Extern 2 (idle (dbgAssert _ _)) => (apply idle_dbgAssert; auto 9 with slots) : slots.
Ltac idles :=
  repeat first
    [ match goal with |- forall _, _ => intro end
    | match goal with |- idle (_ ≫= _) => apply idle_bind | |- idle (when _ _) => apply idle_when end
    | match goal with |- idle (match ?x with _ => _ end) => destruct x end
    | solve [auto 9 with slots] ].

Section Steps.
Context `{D : SCPDriver} (NDEBUG : bool) (L : LocalNode) (mSlotIndex : Z).

Lemma idle_getNodePriority node qset : idle (getNodePriority NDEBUG L mSlotIndex node qset).
Proof using. unfold getNodePriority, hashNode. idles. Qed.
Lemma idle_updateRoundLeaders : idle (updateRoundLeaders NDEBUG L mSlotIndex).
Proof using.
  unfold updateRoundLeaders. idles; [apply idle_getNodePriority|].
  generalize (forAllNodes (normalizeQSet (Some (mNodeID L)) (mQSet L))). intros nodes. revert a0.
  induction nodes as [|n nodes IH]; intros top; cbn [electLeaders]; idles;
    auto using idle_getNodePriority.
Qed.

(** ** Votes and accepted values, within [U] *)
Section Within.
Context (U : list Value)
  (HU : forall v, v ∈ U ->
     validateValue mSlotIndex v true <> kFullyValidatedValue ->
     extractValidValue mSlotIndex v = [] \/ extractValidValue mSlotIndex v ∈ U).

Definition advances {A} (c : SlotM A) : Prop :=
  forall s, nominating U s ->
  swp c (fun _ s' => nominating U s' /\ (progress U s <= progress U s')%nat) enough s.
Lemma sets_nominating s s' : sets s' = sets s -> inv 0 s' -> nominating U s -> nominating U s'.
Proof using. unfold sets. intros [= E1 E2 E3] Hi []. split; [done|..]; rewrite ?E1, ?E2, ?E3; auto. Qed.
Lemma sets_progress s s' : sets s' = sets s -> progress U s' = progress U s.
Proof using. unfold sets, progress. by intros [= -> -> _]. Qed.
Lemma swp_idle {A} (c : SlotM A) s (Q : A -> Slot -> Prop) :
  idle c -> nominating U s ->
  (forall a s', nominating U s' -> progress U s' = progress U s -> sets s' = sets s -> Q a s') ->
  swp c Q enough s.
Proof using.
  intros Hc Hs HQ. eapply swp_mono; [apply Hc, Hs|]. intros a s' [Hi E].
  apply HQ; [by eapply sets_nominating|by apply sets_progress|done].
Qed.

Lemma swp_addVote v s :
  nominating U s -> v ∈ U ->
  swp (addVote v) (fun isNew s' => nominating U s' /\ (progress U s <= progress U s')%nat /\
    (set_has valueLt v (mVotes (nomination s)) = false -> progress U s < progress U s')%nat /\
    isNew = negb (set_has valueLt v (mVotes (nomination s)))) enough s.
Proof using.
  intros [Hi Hv Ha Hl] Hin. unfold addVote. do 4 sstep.
  destruct (within_insert U v (mVotes (nomination s))) as [W1 W2].
  split; [split; [exact Hi| |exact Ha|exact Hl]|].
  - cbn. intros w [->|Hw]%elem_of_set_insert; [done|by apply Hv|apply _].
  - unfold progress. cbn. split; [lia|]. split; [|done]. intros E. specialize (W2 Hin E). lia.
Qed.
Lemma swp_accept v s :
  nominating U s -> v ∈ U ->
  swp (assignN (fun n => set_accepted n (set_insert valueLt v (mAccepted n))))
    (fun _ s' => nominating U s' /\ (progress U s <= progress U s')%nat /\
    (set_has valueLt v (mAccepted (nomination s)) = false -> progress U s < progress U s')%nat)
    enough s.
Proof using.
  intros [Hi Hv Ha Hl] Hin. sstep.
  destruct (within_insert U v (mAccepted (nomination s))) as [W1 W2].
  split; [split; [exact Hi|exact Hv| |exact Hl]|].
  - cbn. intros w [->|Hw]%elem_of_set_insert; [done|by apply Ha|apply _].
  - unfold progress. cbn. split; [lia|]. intros E. specialize (W2 Hin E). lia.
Qed.

(** [modified] is set only by progress. *)
Definition counts (modified : bool) (s : Slot) (r : bool) (s' : Slot) : Prop :=
  nominating U s' /\ (progress U s <= progress U s')%nat /\
  (modified = false -> r = true -> progress U s < progress U s')%nat.
Lemma counts_step m m1 s s1 r s' :
  (progress U s <= progress U s1)%nat ->
  (m = false -> m1 = true -> progress U s < progress U s1)%nat ->
  counts m1 s1 r s' -> counts m s r s'.
Proof using.
  intros H1 H2 (Hn & H3 & H4). split; [done|]. split; [lia|]. intros Hm Hr.
  destruct m1; [specialize (H2 Hm eq_refl); lia|]. specialize (H4 eq_refl Hr). lia.
Qed.
Lemma swp_promoteVotes votes modified s :
  nominating U s -> (forall v, v ∈ votes -> v ∈ U) ->
  swp (promoteVotes L mSlotIndex votes modified) (counts modified s) enough s.
Proof using HU.
  revert modified s. induction votes as [|v votes IH]; intros modified s Hs Hv; cbn [promoteVotes].
  - sstep. split; [done|]. split; [lia|congruence].
  - assert (Hvs : forall w, w ∈ votes -> w ∈ U) by set_solver.
    assert (Hin : v ∈ U) by set_solver.
    do 2 sstep. cbn [id]. sstep; [|by apply IH].
    match goal with H : _ && _ = true |- _ =>
      apply andb_true_iff in H as [Hacc%negb_true_iff _] end.
    sstep.
    + sstep. eapply swp_mono; [by apply swp_accept|]. intros _ s1 (Hs1 & H1 & H1').
      specialize (H1' Hacc). sstep.
      eapply swp_mono; [by apply swp_addVote|]. intros isNew s2 (Hs2 & H2 & _).
      eapply swp_mono; [by apply IH|]. intros r s3. apply counts_step; lia.
    + match goal with H : bool_decide _ = false |- _ => apply bool_decide_eq_false in H; rename H into Hval end.
      sstep; [by apply IH|]. match goal with H : bool_decide _ = false |- _ => apply bool_decide_eq_false in H; rename H into Hne end.
      assert (HinU : extractValidValue mSlotIndex v ∈ U) by (by destruct (HU v Hin Hval)).
      sstep. eapply swp_mono; [by apply swp_addVote|]. intros isNew s1 (Hs1 & H1 & H1' & ->).
      eapply swp_mono; [by apply IH|]. intros r s2. apply counts_step; [done|]. intros -> Hn.
      rewrite orb_false_r in Hn. apply negb_true_iff in Hn. auto.
Qed.

Lemma idle_promoteAccepted accepted newCandidates : idle (promoteAccepted L accepted newCandidates).
Proof using.
  revert newCandidates.
  induction accepted as [|v accepted IH]; intros newC; cbn [promoteAccepted]; idles; auto.
Qed.

(** The value proposed by a leader is new. *)
Definition novel (s : Slot) (v : Value) : Prop :=
  v = [] \/ (v ∈ U /\ set_has valueLt v (mVotes (nomination s)) = false).
Lemma swp_bestNewValue values newVote newHash s :
  nominating U s -> (forall v, v ∈ values -> v ∈ U) -> novel s newVote ->
  swp (bestNewValue NDEBUG mSlotIndex values newVote newHash) (fun v s' => s' = s /\ novel s v) enough s.
Proof using HU.
  intros Hs. revert newVote newHash. induction values as [|v values IH]; intros newVote newHash Hv Hn;
    cbn [bestNewValue]; [by sstep|].
  assert (Hvs : forall w, w ∈ values -> w ∈ U) by set_solver.
  assert (Hin : v ∈ U) by set_solver. do 2 sstep. sstep; [|by apply IH].
  match goal with H : _ && _ = true |- _ =>
    apply andb_true_iff in H as [Hne%negb_true_iff%bool_decide_eq_false Hnew%negb_true_iff] end.
  sstep. unfold hashValue. sstep. sstep. cbn [id]. sstep.
  apply swp_reads; [done|auto with slots|]. intros _. sstep. sstep; [|by apply IH].
  apply IH; [done|]. right. split; [|done]. unfold valueToNominate in *.
  destruct (bool_decide_reflect (validateValue mSlotIndex v true = kFullyValidatedValue)) as [|N]; [done|].
  by destruct (HU v Hin N).
Qed.
Lemma swp_takeLeaderVote st modified s :
  nominating U s -> mentions U st ->
  swp (takeLeaderVote NDEBUG mSlotIndex st modified) (counts modified s) enough s.
Proof using HU.
  intros Hs Hst. unfold takeLeaderVote. do 2 sstep. cbn [id].
  assert (Hsame : counts modified s modified s) by (split; [done|split; [lia|congruence]]).
  sstep; [|by sstep]. sstep. unfold getNewValueFromNomination.
  eapply swp_mono; [apply swp_bestNewValue; [done|exact Hst|by left]|]. intros v ? [-> Hv].
  sstep; [by sstep|]. destruct Hv as [->|[Hin Hnew]]; [by rewrite bool_decide_eq_true_2 in *|].
  sstep. eapply swp_mono; [by apply swp_addVote|]. intros isNew s1 (Hs1 & H1 & H1' & _). sstep.
  apply swp_idle; [auto with slots|done|]. intros ? s2 Hs2 E _. sstep. rewrite <- E in H1, H1'.
  split; [done|]. split; [done|auto].
Qed.
Lemma advances_takeLeaderVotes leaders v updated s :
  nominating U s ->
  swp (takeLeaderVotes NDEBUG mSlotIndex leaders v updated) (fun _ s' => nominating U s') enough s.
Proof using HU.
  revert v updated s. induction leaders as [|l leaders IH]; intros v updated s Hs;
    cbn [takeLeaderVotes]; [by sstep|].
  do 2 sstep. destruct (mLatestNominations (nomination s) !! l) as [e|] eqn:El; [|by apply IH].
  sstep. unfold getNewValueFromNomination.
  eapply swp_mono; [apply swp_bestNewValue; [done|by apply (nominating_latest _ _ Hs l)|by left]|].
  intros w ? [-> Hw]. sstep; [by apply IH|].
  destruct Hw as [->|[Hin Hnew]]; [by rewrite bool_decide_eq_true_2 in *|].
  sstep. eapply swp_mono; [by apply swp_addVote|]. intros isNew s1 (Hs1 & _). by apply IH.
Qed.

Lemma swp_recordNomination e s :
  nominating U s -> mentions U (statement e) ->
  swp (recordNomination e) (fun _ s' => nominating U s' /\ progress U s' = progress U s) enough s.
Proof using.
  intros [Hi Hv Ha Hl] He. unfold recordNomination, recordStatement. do 3 sstep.
  split; [|done]. split; [exact Hi|exact Hv|exact Ha|]. cbn.
  intros n e' [[_ <-]|[_ H]]%lookup_insert_Some; [done|by eapply Hl].
Qed.

(** ** Emissions *)
Lemma safe_idle {A} (c : SlotM A) : idle c -> safe 0 c.
Proof using. intros Hc s Hs. eapply swp_mono; [by apply Hc|]. by intros a s' []. Qed.
Lemma swp_advanceNomination emit st s :
  nominating U s -> mentions U st ->
  (forall s', nominating U s' -> (progress U s < progress U s')%nat ->
     swp emit (fun _ s'' => inv 0 s'') enough s') ->
  swp (advanceNomination NDEBUG L mSlotIndex emit st) (fun _ s' => inv 0 s') enough s.
Proof using HU.
  intros Hs Hst Hemit. unfold advanceNomination. sstep.
  eapply swp_mono; [apply swp_promoteVotes; [done|]|].
  { intros v Hv. apply Hst. unfold nominationValues. set_solver. }
  intros m1 s1 (Hs1 & P1 & P1'). do 2 sstep. sstep. apply swp_idle; [apply idle_promoteAccepted|done|].
  intros newC s2 Hs2 E2 _. rewrite <- E2 in P1, P1'. sstep.
  eapply swp_mono; [by apply swp_takeLeaderVote|]. intros m2 s3 H3.
  destruct (counts_step false m1 s s2 m2 s3 P1 P1' H3) as (Hs3 & _ & P3). sstep.
  apply swp_mono with (Q := fun _ s' => inv 0 s').
  { sstep; [|by apply Hs3]. apply Hemit; auto. }
  intros _ s4 Hs4. match goal with |- swp ?c _ _ _ => enough (Hc : safe 0 c) by (by apply Hc) end.
  unfold getLatestCompositeCandidate. calm. apply safe_ballot_bumpState.
Qed.
Lemma swp_processNominationWith emit e s :
  nominating U s -> mentions U (statement e) ->
  (forall s', nominating U s' -> (progress U s < progress U s')%nat ->
     swp emit (fun _ s'' => inv 0 s'') enough s') ->
  swp (processNominationWith NDEBUG L mSlotIndex emit e) (fun _ s' => inv 0 s') enough s.
Proof using HU.
  intros Hs He Hemit. unfold processNominationWith, isNewerNominationFrom. do 2 sstep.
  sstep; [|sstep; apply Hs]. sstep. eapply swp_mono; [by apply swp_recordNomination|].
  intros _ s1 [Hs1 E1]. do 3 sstep. apply swp_mono with (Q := fun _ s' => inv 0 s').
  - sstep; [|apply Hs1]. apply swp_advanceNomination; [done|done|]. by rewrite E1.
  - intros _ s2 Hs2. by sstep.
Qed.
Lemma swp_emitNomination fuel s :
  nominating U s -> (2 * length U < fuel + progress U s)%nat ->
  swp (emitNomination NDEBUG L mSlotIndex fuel) (fun _ s' => inv 0 s') enough s.
Proof using HU.
  revert s. induction fuel as [|fuel IH]; intros s Hs Hf; cbn [emitNomination].
  - pose proof (progress_le U s). lia.
  - unfold emitNominationBody. do 2 sstep. cbn [id]. unfold createEnvelope. sstep. sstep.
    apply swp_idle; [auto with slots|done|]. intros _ s1 Hs1 E1 Esets. do 2 sstep.
    eapply swp_mono; [apply swp_processNominationWith; [done| |]|].
    + intros v. unfold nominationValues, nominate_of. cbn. rewrite elem_of_app.
      intros [Hv|Hv]; [by apply (nominating_votes _ _ Hs)|by apply (nominating_accepted _ _ Hs)].
    + intros s2 Hs2 P2. apply IH; [done|lia].
    + intros r s2 Hs2. match goal with |- swp ?c _ _ _ => enough (Hc : safe 0 c) by (by apply Hc) end.
      unfold throws, isFullyValidated. calm.
Qed.
End Within.
End Steps.

(** ** The operations of a slot *)
Section Operations.
Context `{D : SCPDriver} (NDEBUG : bool) (L : LocalNode) (mSlotIndex : Z)
  (Hextracts : extracts_settle D mSlotIndex).

(** The values mentioned, and those extracted from them. *)
Definition universe (mentioned : list Value) : list Value :=
  mentioned ++ List.filter (fun v => negb (bool_decide (v = [])))
                 (List.map (extractValidValue mSlotIndex) mentioned).
Lemma universe_length mentioned : (length (universe mentioned) <= 2 * length mentioned)%nat.
Proof using.
  unfold universe. rewrite length_app.
  pose proof (List.filter_length_le (fun v : Value => negb (bool_decide (v = [])))
    (List.map (extractValidValue mSlotIndex) mentioned)) as H.
  rewrite length_map in H. lia.
Qed.
Lemma universe_closed mentioned v :
  v ∈ universe mentioned -> validateValue mSlotIndex v true <> kFullyValidatedValue ->
  extractValidValue mSlotIndex v = [] \/ extractValidValue mSlotIndex v ∈ universe mentioned.
Proof using Hextracts.
  unfold universe. intros Hv N. destruct (decide (extractValidValue mSlotIndex v = [])) as [|Hne]; [by left|].
  right. apply elem_of_app. right. apply list_elem_of_In, filter_In.
  split; [|by rewrite bool_decide_eq_false_2].
  apply elem_of_app in Hv as [Hv|Hv]; [apply in_map_iff; exists v; split; [done|by apply list_elem_of_In]|].
  apply list_elem_of_In, filter_In in Hv as [Hv Hw]. pose proof Hv as (w & <- & _)%in_map_iff.
  destruct (Hextracts w) as [E|[E|[E|E]]]; try done; [by rewrite E in Hw|by rewrite E].
Qed.
Lemma universe_nominating mentioned s :
  inv 0 s -> (forall v, v ∈ mentionedValues (nomination s) -> v ∈ mentioned) ->
  nominating (universe mentioned) s.
Proof using.
  clear Hextracts. intros Hi Hm. unfold mentionedValues in Hm.
  assert (H : forall v, v ∈ mentioned -> v ∈ universe mentioned) by (unfold universe; set_solver).
  split; [done|intros v Hv; apply H, Hm; set_solver..|]. intros n e He v Hv. apply H, Hm.
  rewrite !elem_of_app. do 2 right. apply list_elem_of_In, in_concat. eexists. split.
  - apply in_map_iff. exists (n, e). split; [reflexivity|]. by apply list_elem_of_In, elem_of_map_to_list.
  - by apply list_elem_of_In.
Qed.

Lemma safe_nomination_processEnvelope e :
  safe 0 (nomination_processEnvelope NDEBUG L mSlotIndex e).
Proof using Hextracts.
  intros s Hs. unfold nomination_processEnvelope. do 2 sstep. cbn [id].
  set (vs := nominationValues (nominate_of (statement e))).
  set (m := mentionedValues (nomination s) ++ vs).
  assert (Hu : nominating (universe m) s) by (apply universe_nominating; set_solver).
  apply (swp_processNominationWith NDEBUG L mSlotIndex (universe m)); [apply universe_closed|done| |].
  - intros v Hv. unfold universe, m. set_solver.
  - intros s' Hs' P. apply (swp_emitNomination NDEBUG L mSlotIndex (universe m)); [apply universe_closed|done|].
    pose proof (universe_length m) as H. unfold m in H at 2. rewrite length_app in H.
    unfold emissions. lia.
Qed.
Lemma safe_nomination_nominate v previousValue timedout :
  safe 0 (nomination_nominate NDEBUG L mSlotIndex v previousValue timedout).
Proof using Hextracts.
  intros s Hs. unfold nomination_nominate. do 2 sstep. sstep; [by sstep|].
  sstep. sstep. sstep. sstep. sstep. eapply swp_mono; [by apply idle_updateRoundLeaders|].
  intros _ s1 [Hs1 _]. do 3 sstep.
  set (m := v :: mentionedValues (nomination s1)).
  assert (Hu : nominating (universe m) s1) by (apply universe_nominating; set_solver).
  apply swp_mono with (Q := fun _ s' => nominating (universe m) s').
  { sstep.
    - sstep. eapply swp_mono; [apply (swp_addVote (universe m)); [done|unfold universe, m; set_solver]|].
      intros isNew s2 (Hs2 & _). by sstep.
    - apply (advances_takeLeaderVotes NDEBUG mSlotIndex (universe m)); [apply universe_closed|done]. }
  intros [nominatingValue updated] s2 Hs2. do 6 sstep. do 2 sstep. cbn [id].
  match goal with |- swp _ _ _ ?s' => set (s3 := s') end.
  assert (Hi3 : inv 0 s3) by apply Hs2.
  clearbody s3. sstep.
  apply swp_mono with (Q := fun _ s' => inv 0 s'); [|intros _ s4 Hs4; by sstep].
  sstep; [|done]. set (m' := mentionedValues (nomination s3)).
  apply (swp_emitNomination NDEBUG L mSlotIndex (universe m')); [apply universe_closed|by apply universe_nominating|].
  pose proof (universe_length m') as H'. unfold emissions. fold m'. lia.
Qed.

Definition typed_op (op : SlotOp) : Prop :=
  match op with ProcessEnvelope e => typed_statement (statement e) | _ => True end.
Lemma safe_run_op op : typed_op op -> safe 0 (run_op NDEBUG L mSlotIndex op).
Proof using Hextracts.
  intros Hop. destruct op as [e| |v force|v pv timedout|]; cbn [run_op];
    [apply safe_bind; [|calm]..|].
  - unfold slot_processEnvelope. apply safe_bind; [calm|]. intros _.
    pose proof (safe_ballot_processEnvelope NDEBUG L mSlotIndex e false Hop).
    destruct (pledges (statement e)); auto using safe_nomination_processEnvelope.
  - apply safe_ballot_abandonBallot. unfold_ints. lia.
  - apply safe_ballot_bumpState.
  - apply safe_nomination_nominate.
  - unfold stopNomination. calm.
Qed.

(** A sequence of operations. *)
Fixpoint run_slot (ops : list SlotOp) : SlotM unit :=
  match ops with
  | [] => mret tt
  | op :: ops => _ ← run_op NDEBUG L mSlotIndex op; run_slot ops
  end.
Lemma safe_run_slot ops : Forall typed_op ops -> safe 0 (run_slot ops).
Proof using Hextracts.
  induction 1 as [|op ops Hop _ IH]; cbn [run_slot]; [apply safe_ret|].
  apply safe_bind; [by apply safe_run_op|done].
Qed.
End Operations.

(** C7. Whatever is received, and in whatever order the operations come, every
    operation of a slot ends: it returns, with the nesting level of
    [advanceSlot] back at zero, or it throws.  The rounds of [attemptBump]'s
    loop and the emissions nested in each other never exhaust the fuel of the
    model.  Counters received are 32 bits wide, and extracting again from what the
    driver extracted gives nothing new. *)
Theorem slot_operations_end (D : SCPDriver) NDEBUG L mSlotIndex ops :
  extracts_settle D mSlotIndex -> Forall typed_op ops ->
  match run_slot NDEBUG L mSlotIndex ops (initialSlot (mIsValidator L)) with
  | Done _ s => mCurrentMessageLevel (ballots s) = 0
  | Stopped x => x <> OutOfFuel
  end.
Proof.
  intros HD Hops. pose proof (safe_run_slot NDEBUG L mSlotIndex HD ops Hops
    (initialSlot (mIsValidator L))) as H.
  unfold swp in H. destruct (run_slot _ _ _ _ _) as [[] s|x].
  - apply H. split; [apply typed_initial|]. by split.
  - apply H. split; [apply typed_initial|]. by split.
Qed.

(** Node 0 nominates, hears two other nodes, and goes through the ballots. *)
Definition sample_nominate (n : NodeID) : SlotOp :=
  ProcessEnvelope (mkEnvelope (mkStatement n 5
    (NOMINATE (mkNomination sample_hash [sample_value] [sample_value]))) n).
Definition sample_externalize (n : NodeID) : SlotOp :=
  ProcessEnvelope (mkEnvelope (mkStatement n 5
    (EXTERNALIZE (mkExternalize (mkBallot 1 sample_value) 1 sample_hash))) n).
Definition whole_slot : list SlotOp :=
  [Nominate sample_value [1] false; sample_nominate 1; sample_nominate 2; AbandonBallot;
   sample_externalize 1; sample_externalize 2; sample_externalize 3].
Lemma slot_operations_end_witness :
  match run_slot (D := sample_driver) false (sample_node 0) 5 whole_slot (initialSlot true) with
  | Done _ s => mPhase (ballots s) = SCP_PHASE_EXTERNALIZE /\ mCandidates (nomination s) = [sample_value]
  | Stopped _ => False
  end /\
  match run_slot (D := sample_driver) false (sample_node 0) 5 whole_slot (initialSlot true) with
  | Done _ s => mCurrentMessageLevel (ballots s) = 0
  | Stopped x => x <> OutOfFuel
  end.
Proof.
  split; [vm_compute; auto|].
  apply (slot_operations_end sample_driver false (sample_node 0) 5 whole_slot).
  - intros v. right. by left.
  - repeat (apply Forall_cons; split; [cbn; unfold typed_ballot; unfold_ints; cbn; lia|]).
    by apply Forall_nil.
Defined.
