(* ===== verification/Buckets.v ===== *)
(** Buckets: sorted runs of live and dead entries, and their merge
    ([src/src/bucket/Bucket.cpp], [BucketOutputIterator.cpp],
    [BucketInputIterator.cpp], [LedgerCmp.h]).

    A bucket is the list of its entries: the file that holds them and the hash
    that names it are left out.  An input iterator is what remains to be read;
    the output iterator is what has been written and the entry it holds back. *)

From S2P Require Import Prelude Types Sorting Ballots BallotOrder.

Inductive BucketEntry :=
  | LIVEENTRY (liveEntry : LedgerEntry)
  | DEADENTRY (deadEntry : LedgerKey).
#[export] Instance BucketEntry_eq_dec : EqDecision BucketEntry.
Proof. solve_decision. Defined.
Abbreviation Bucket := (list BucketEntry) (only parsing).

(** The key by which entries are compared. *)
Definition entryKey (e : BucketEntry) : LedgerKey :=
  match e with LIVEENTRY e => LedgerEntryKey e | DEADENTRY k => k end.
Definition isDead (e : BucketEntry) : bool :=
  match e with DEADENTRY _ => true | LIVEENTRY _ => false end.

(** ** The order of identities *)

(** First components, then second ones. *)
Definition lexLt {A B} (ltA : A -> A -> bool) (ltB : B -> B -> bool) (x y : A * B) : bool :=
  if ltA x.1 y.1 then true else if ltA y.1 x.1 then false else ltB x.2 y.2.
Definition nameBytes (s : string) : list Z := ascii_code <$> String.list_ascii_of_string s.
Definition assetType (a : Asset) : Z :=
  match a with ASSET_NATIVE => 0 | ALPHANUM4 _ _ => 1 | ALPHANUM12 _ _ => 2 end.
(** [operator<] of the XDR union: the discriminants, then the arms. *)
Definition assetLt (a b : Asset) : bool :=
  if assetType a <? assetType b then true
  else if assetType b <? assetType a then false
  else
    match a, b with
    | ALPHANUM4 c i, ALPHANUM4 c' i' => lexLt valueLt Z.ltb (c, i) (c', i')
    | ALPHANUM12 c i, ALPHANUM12 c' i' => lexLt valueLt Z.ltb (c, i) (c', i')
    | _, _ => false
    end.
Definition keyType (k : LedgerKey) : Z :=
  match k with
  | KeyAccount _ => 0 | KeyTrustLine _ _ => 1 | KeyOffer _ _ => 2 | KeyData _ _ => 3
  end.
(** [LedgerEntryIdCmp] *)
Definition LedgerEntryIdCmp (a b : LedgerKey) : bool :=
  if keyType a <? keyType b then true
  else if keyType b <? keyType a then false
  else
    match a, b with
    | KeyAccount i, KeyAccount i' => i <? i'
    | KeyTrustLine i s, KeyTrustLine i' s' => lexLt Z.ltb assetLt (i, s) (i', s')
    | KeyOffer i o, KeyOffer i' o' => lexLt Z.ltb Z.ltb (i, o) (i', o')
    | KeyData i n, KeyData i' n' => lexLt Z.ltb valueLt (i, nameBytes n) (i', nameBytes n')
    | _, _ => false
    end.
Definition BucketEntryIdCmp (a b : BucketEntry) : bool :=
  LedgerEntryIdCmp (entryKey a) (entryKey b).

(** ** Writing a bucket *)
Record BucketOutputIterator := mkOut {
  mOut : list BucketEntry;
  mBuf : option BucketEntry;
  mKeepDeadEntries : bool }.
Definition newOut (keepDeadEntries : bool) : BucketOutputIterator := mkOut [] None keepDeadEntries.
Definition put (e : BucketEntry) (out : BucketOutputIterator) : outcome BucketOutputIterator :=
  if negb (mKeepDeadEntries out) && isDead e then mret out
  else
    match mBuf out with
    | Some buf =>
        _ ← cassert "!mCmp(e, *mBuf)" (negb (BucketEntryIdCmp e buf));
        mret (mkOut (if BucketEntryIdCmp buf e then mOut out ++ [buf] else mOut out) (Some e)
                (mKeepDeadEntries out))
    | None => mret (mkOut (mOut out) (Some e) (mKeepDeadEntries out))
    end.
Definition getBucket (out : BucketOutputIterator) : Bucket := mOut out ++ option_list (mBuf out).

(** ** Merging *)

(** [while (si && cmp( *si, entry)) ++si] *)
Fixpoint skipBelow (entry : BucketEntry) (si : list BucketEntry) : list BucketEntry :=
  match si with
  | x :: rest => if BucketEntryIdCmp x entry then skipBelow entry rest else si
  | [] => []
  end.
(** The loop over the shadows: is [entry] in one of them?  Those after the
    first that has it are not advanced. *)
Fixpoint isShadowed (entry : BucketEntry) (shadowIterators : list (list BucketEntry))
    : bool * list (list BucketEntry) :=
  match shadowIterators with
  | [] => (false, [])
  | si :: rest =>
      let si := skipBelow entry si in
      match si with
      | x :: _ =>
          if negb (BucketEntryIdCmp entry x) then (true, si :: rest)
          else let '(shadowed, rest) := isShadowed entry rest in (shadowed, si :: rest)
      | [] => let '(shadowed, rest) := isShadowed entry rest in (shadowed, si :: rest)
      end
  end.
Definition MergeState : Type := BucketOutputIterator * list (list BucketEntry).
Definition maybePut (entry : BucketEntry) (s : MergeState) : outcome MergeState :=
  let '(out, shadowIterators) := s in
  let '(shadowed, shadowIterators) := isShadowed entry shadowIterators in
  if shadowed : bool then mret (out, shadowIterators)
  else out ← put entry out; mret (out, shadowIterators).

(** The loop of [merge]: [oi] and [ni] are what is left of the old and of the
    new bucket. *)
Fixpoint mergeLoop (oi : list BucketEntry) : list BucketEntry -> MergeState -> outcome MergeState :=
  fix mergeNew (ni : list BucketEntry) (s : MergeState) : outcome MergeState :=
    match oi, ni with
    | [], [] => mret s
    | o :: oi', [] => s ← maybePut o s; mergeLoop oi' [] s
    | [], n :: ni' => s ← maybePut n s; mergeNew ni' s
    | o :: oi', n :: ni' =>
        if BucketEntryIdCmp o n then s ← maybePut o s; mergeLoop oi' ni s
        else if BucketEntryIdCmp n o then s ← maybePut n s; mergeNew ni' s
        else s ← maybePut n s; mergeLoop oi' ni' s
    end.
Definition merge (oldBucket newBucket : Bucket) (shadows : list Bucket) (keepDeadEntries : bool)
    : outcome Bucket :=
  s ← mergeLoop oldBucket newBucket (newOut keepDeadEntries, shadows);
  mret (getBucket s.1).

(** ** Fresh buckets *)
Section Fresh.
Context `{Sort : StdSort}.
Definition convertLive (liveEntries : list LedgerEntry) : list BucketEntry :=
  std_sort BucketEntryIdCmp (LIVEENTRY <$> liveEntries).
Definition convertDead (deadEntries : list LedgerKey) : list BucketEntry :=
  std_sort BucketEntryIdCmp (DEADENTRY <$> deadEntries).
Fixpoint putAll (es : list BucketEntry) (out : BucketOutputIterator) : outcome BucketOutputIterator :=
  match es with
  | [] => mret out
  | e :: es => out ← put e out; putAll es out
  end.
Definition fresh (liveEntries : list LedgerEntry) (deadEntries : list LedgerKey) : outcome Bucket :=
  liveOut ← putAll (convertLive liveEntries) (newOut true);
  deadOut ← putAll (convertDead deadEntries) (newOut true);
  merge (getBucket liveOut) (getBucket deadOut) [] true.
End Fresh.

(** [containsBucketIdentity], [countLiveAndDeadEntries] *)
Definition containsBucketIdentity (b : Bucket) (id : BucketEntry) : bool :=
  existsb (fun e => negb (BucketEntryIdCmp e id || BucketEntryIdCmp id e)) b.
Definition countLiveAndDeadEntries (b : Bucket) : nat * nat :=
  (length (List.filter (fun e => negb (isDead e)) b), length (List.filter isDead b)).
