(* ===== verification/BucketMerge.v ===== *)
(** What merging two buckets yields, for every key: the newer entry, or the
    older one, unless a shadow has the key or dead entries are not kept; and
    what a fresh bucket holds: its batch, and of a key that is both live and dead
    the dead entry. *)

From stdpp Require Import sorting.
From S2P Require Import Prelude Types Sorting Ballots BallotOrder Buckets.

(** ** The order of identities is total *)
#[export] Instance lexLt_strict {A B} (ltA : A -> A -> bool) (ltB : B -> B -> bool)
  `{!StrictTotal ltA, !StrictTotal ltB} : StrictTotal (lexLt ltA ltB).
Proof.
  unfold lexLt. split.
  - intros x. by rewrite !lt_irrefl.
  - intros x y z. destruct (ltA x.1 y.1) eqn:E1.
    + intros _. destruct (ltA y.1 z.1) eqn:E2.
      * by rewrite (lt_trans _ _ _ E1 E2).
      * destruct (ltA z.1 y.1) eqn:E3; [done|]. intros _. by rewrite <- (lt_total _ _ E2 E3), E1.
    + destruct (ltA y.1 x.1) eqn:E2; [done|]. rewrite (lt_total _ _ E1 E2).
      intros H1. destruct (ltA y.1 z.1); [done|]. destruct (ltA z.1 y.1); [done|].
      by apply lt_trans.
  - intros [a b] [a' b']. cbn. destruct (ltA a a') eqn:E1; [done|]. destruct (ltA a' a) eqn:E2; [done|].
    intros H1 H2. by rewrite (lt_total _ _ E1 E2), (lt_total _ _ H1 H2).
Qed.
(** A choice by a number first. *)
Lemma by_type_strict {A} (type : A -> Z) (lt : A -> A -> bool) :
  (forall x, lt x x = false) ->
  (forall x y z, type x = type y -> type y = type z -> lt x y = true -> lt y z = true -> lt x z = true) ->
  (forall x y, type x = type y -> lt x y = false -> lt y x = false -> x = y) ->
  StrictTotal (fun a b => if type a <? type b then true
                          else if type b <? type a then false else lt a b).
Proof.
  intros H1 H2 H3. split.
  - intros x. by rewrite Z.ltb_irrefl.
  - intros x y z. destruct (Z.ltb_spec (type x) (type y)), (Z.ltb_spec (type y) (type x)),
      (Z.ltb_spec (type y) (type z)), (Z.ltb_spec (type z) (type y)),
      (Z.ltb_spec (type x) (type z)), (Z.ltb_spec (type z) (type x)); try done; try lia.
    apply H2; lia.
  - intros x y. destruct (Z.ltb_spec (type x) (type y)), (Z.ltb_spec (type y) (type x)); try done.
    apply H3. lia.
Qed.
#[export] Instance assetLt_strict : StrictTotal assetLt.
Proof.
  unfold assetLt. apply by_type_strict.
  - intros [| |]; [done|apply lt_irrefl..].
  - intros [| |] [| |] [| |]; try done; intros _ _; apply lt_trans.
  - intros [| |] [| |]; try done; intros _ H1 H2; by injection (lt_total _ _ H1 H2) as -> ->.
Qed.
Lemma nameBytes_inj s s' : nameBytes s = nameBytes s' -> s = s'.
Proof.
  unfold nameBytes. intros H. rewrite <- (String.string_of_list_ascii_of_string s),
    <- (String.string_of_list_ascii_of_string s'). f_equal.
  assert (Inj (=) (=) ascii_code).
  { intros a b E. unfold ascii_code in E. apply N2Z.inj in E.
    by rewrite <- (Ascii.ascii_N_embedding a), E, Ascii.ascii_N_embedding. }
  by apply (inj (fmap ascii_code)) in H.
Qed.
#[export] Instance LedgerEntryIdCmp_strict : StrictTotal LedgerEntryIdCmp.
Proof.
  unfold LedgerEntryIdCmp. apply by_type_strict.
  - intros [| | |]; apply lt_irrefl.
  - intros [| | |] [| | |] [| | |]; try done; intros _ _; apply lt_trans.
  - intros [| | |] [| | |]; try done; intros _ H1 H2.
    + by rewrite (lt_total _ _ H1 H2).
    + by injection (lt_total _ _ H1 H2) as -> ->.
    + by injection (lt_total _ _ H1 H2) as -> ->.
    + injection (lt_total _ _ H1 H2) as -> E. by rewrite (nameBytes_inj _ _ E).
Qed.
Lemma BucketEntryIdCmp_key a b :
  BucketEntryIdCmp a b = false -> BucketEntryIdCmp b a = false -> entryKey a = entryKey b.
Proof. apply (lt_total (lt := LedgerEntryIdCmp)). Qed.
Lemma BucketEntryIdCmp_irrefl a b : entryKey a = entryKey b -> BucketEntryIdCmp a b = false.
Proof. unfold BucketEntryIdCmp. intros ->. apply lt_irrefl. Qed.
Lemma BucketEntryIdCmp_trans a b c :
  BucketEntryIdCmp a b = true -> BucketEntryIdCmp b c = true -> BucketEntryIdCmp a c = true.
Proof. apply (lt_trans (lt := LedgerEntryIdCmp)). Qed.

(** ** Buckets as maps *)
Definition sortedBucket (b : Bucket) : Prop := StronglySorted (fun x y => BucketEntryIdCmp x y = true) b.
Definition entryAt (k : LedgerKey) (b : Bucket) : option BucketEntry :=
  List.find (fun e => bool_decide (entryKey e = k)) b.
Definition hasKey (k : LedgerKey) (b : Bucket) : bool := bool_decide (is_Some (entryAt k b)).

Lemma entryAt_Some k b e : entryAt k b = Some e -> e ∈ b /\ entryKey e = k.
Proof.
  intros [H1 H2]%List.find_some. rewrite bool_decide_eq_true in H2. by rewrite list_elem_of_In.
Qed.
Lemma entryAt_None k b e : entryAt k b = None -> e ∈ b -> entryKey e <> k.
Proof.
  intros H He. apply list_elem_of_In in He. pose proof (List.find_none _ _ H _ He) as Hk.
  by apply bool_decide_eq_false in Hk.
Qed.
Lemma entryAt_sorted b e : sortedBucket b -> e ∈ b -> entryAt (entryKey e) b = Some e.
Proof.
  induction 1 as [|x b Hb IH Hx]; [set_solver|]. intros He. unfold entryAt. cbn.
  apply elem_of_cons in He as [->|He]; [by rewrite bool_decide_eq_true_2|].
  rewrite bool_decide_eq_false_2; [by apply IH|]. intros E. rewrite Forall_forall in Hx.
  specialize (Hx e He). by rewrite BucketEntryIdCmp_irrefl in Hx.
Qed.
Lemma entryAt_iff k b e : sortedBucket b -> entryAt k b = Some e <-> e ∈ b /\ entryKey e = k.
Proof.
  intros Hb. split; [apply entryAt_Some|]. intros [He <-]. by apply entryAt_sorted.
Qed.
Lemma hasKey_iff k b : hasKey k b = true <-> exists e, e ∈ b /\ entryKey e = k.
Proof.
  unfold hasKey. rewrite bool_decide_eq_true. split.
  - intros [e He]. exists e. by apply entryAt_Some.
  - intros (e & He & Hk). destruct (entryAt k b) eqn:E; [done|]. by destruct (entryAt_None _ _ _ E He).
Qed.
Lemma entryAt_filter k f b :
  sortedBucket b -> entryAt k (List.filter f b) = (e ← entryAt k b; if f e : bool then Some e else None).
Proof.
  induction 1 as [|x b Hb IH Hx]; [done|]. unfold entryAt in *. cbn [List.filter List.find].
  destruct (bool_decide_reflect (entryKey x = k)) as [E|N].
  - cbn. destruct (f x) eqn:Ef; cbn; [by rewrite bool_decide_eq_true_2|].
    rewrite IH. destruct (List.find _ b) as [e|] eqn:Ee; [|done].
    apply entryAt_Some in Ee as [He Hk]. rewrite Forall_forall in Hx. specialize (Hx e He).
    rewrite BucketEntryIdCmp_irrefl in Hx; congruence.
  - destruct (f x); cbn; [rewrite bool_decide_eq_false_2 by done|]; apply IH.
Qed.
Lemma sortedBucket_filter f b : sortedBucket b -> sortedBucket (List.filter f b).
Proof. apply StronglySorted_filter. Qed.

(** ** The entries the merge offers, in order *)
Fixpoint offers (oi : list BucketEntry) : list BucketEntry -> list BucketEntry :=
  fix offersNew ni :=
    match oi, ni with
    | [], [] => []
    | o :: oi', [] => o :: offers oi' []
    | [], n :: ni' => n :: offersNew ni'
    | o :: oi', n :: ni' =>
        if BucketEntryIdCmp o n then o :: offers oi' ni
        else if BucketEntryIdCmp n o then n :: offersNew ni'
        else n :: offers oi' ni'
    end.
Fixpoint offerAll (es : list BucketEntry) (s : MergeState) : outcome MergeState :=
  match es with [] => mret s | e :: es => s ← maybePut e s; offerAll es s end.

Lemma mergeLoop_offers oi ni s : mergeLoop oi ni s = offerAll (offers oi ni) s.
Proof.
  revert ni s. induction oi as [|o oi IHo]; intros ni; induction ni as [|n ni IHn]; intros s; cbn; [done|..].
  - destruct (maybePut n s); cbn; [apply IHn|done].
  - destruct (maybePut o s); cbn; [apply IHo|done].
  - destruct (BucketEntryIdCmp o n); [|destruct (BucketEntryIdCmp n o)]; cbn.
    + destruct (maybePut o s); cbn; [apply IHo|done].
    + destruct (maybePut n s); cbn; [apply IHn|done].
    + destruct (maybePut n s); cbn; [apply IHo|done].
Qed.
Lemma offers_elem oi ni e :
  e ∈ offers oi ni ->
  e ∈ ni \/ e ∈ oi.
Proof.
  revert ni. induction oi as [|o oi IHo]; intros ni; induction ni as [|n ni IHn]; cbn; [set_solver|..].
  - intros [->|H]%elem_of_cons; set_solver.
  - intros [->|H]%elem_of_cons; [set_solver|]. apply IHo in H. set_solver.
  - destruct (BucketEntryIdCmp o n); [|destruct (BucketEntryIdCmp n o)].
    + intros [->|H]%elem_of_cons; [set_solver|]. apply IHo in H. set_solver.
    + intros [->|H]%elem_of_cons; [set_solver|]. apply IHn in H. set_solver.
    + intros [->|H]%elem_of_cons; [set_solver|]. apply IHo in H. set_solver.
Qed.
Lemma sortedBucket_cons e b :
  sortedBucket (e :: b) <-> sortedBucket b /\ forall x, x ∈ b -> BucketEntryIdCmp e x = true.
Proof.
  split; [|intros [H1 H2]; constructor; [done|by apply Forall_forall]].
  intros [H1 H2]%StronglySorted_inv. split; [done|]. by apply Forall_forall.
Qed.
Lemma above_sorted e n b :
  BucketEntryIdCmp e n = true -> sortedBucket (n :: b) -> forall x, x ∈ n :: b -> BucketEntryIdCmp e x = true.
Proof.
  intros H [_ Hb]%sortedBucket_cons x [->|Hx]%elem_of_cons; [done|].
  eapply BucketEntryIdCmp_trans; [done|auto].
Qed.
Lemma BucketEntryIdCmp_same a b c :
  entryKey a = entryKey b -> BucketEntryIdCmp b c = true -> BucketEntryIdCmp a c = true.
Proof. unfold BucketEntryIdCmp. by intros ->. Qed.
Lemma offers_sorted oi ni : sortedBucket oi -> sortedBucket ni -> sortedBucket (offers oi ni).
Proof.
  revert ni. induction oi as [|o oi IHo]; intros ni Ho; induction ni as [|n ni IHn]; intros Hn; cbn; [done|..].
  - pose proof Hn as Hn'. apply sortedBucket_cons in Hn' as [Hn1 Hn2]. apply sortedBucket_cons.
    split; [by apply IHn|]. intros x Hx. apply (offers_elem []) in Hx. set_solver.
  - apply sortedBucket_cons in Ho as [Ho1 Ho2]. apply sortedBucket_cons. split; [by apply IHo|].
    intros x Hx. apply offers_elem in Hx. set_solver.
  - pose proof Ho as Ho'. pose proof Hn as Hn'. apply sortedBucket_cons in Hn' as [Hn1 Hn2], Ho' as [Ho1 Ho2].
    destruct (BucketEntryIdCmp o n) eqn:E1; [|destruct (BucketEntryIdCmp n o) eqn:E2]; apply sortedBucket_cons.
    + split; [by apply IHo|]. intros x [Hx|Hx]%offers_elem; [by eapply above_sorted|auto].
    + split; [by apply IHn|]. intros x Hx. apply (offers_elem (o :: oi)) in Hx as [Hx|Hx]; [auto|by eapply above_sorted].
    + pose proof (BucketEntryIdCmp_key _ _ E1 E2) as Ek. split; [by apply IHo|].
      intros x [Hx|Hx]%offers_elem; [auto|]. eapply BucketEntryIdCmp_same; [by symmetry|auto].
Qed.
Lemma offers_entryAt oi ni k :
  sortedBucket oi -> sortedBucket ni ->
  entryAt k (offers oi ni) = match entryAt k ni with Some e => Some e | None => entryAt k oi end.
Proof.
  revert ni. induction oi as [|o oi IHo]; intros ni Ho; induction ni as [|n ni IHn]; intros Hn; cbn; [done|..].
  - apply sortedBucket_cons in Hn as [Hn1 Hn2]. unfold entryAt in *. cbn in *.
    destruct (bool_decide (entryKey n = k)); [done|]. rewrite IHn by done. done.
  - apply sortedBucket_cons in Ho as [Ho1 Ho2]. unfold entryAt in *. cbn in *.
    destruct (bool_decide (entryKey o = k)); [done|]. by rewrite IHo.
  - pose proof Ho as Ho'. pose proof Hn as Hn'. apply sortedBucket_cons in Hn' as [Hn1 Hn2], Ho' as [Ho1 Ho2].
    destruct (BucketEntryIdCmp o n) eqn:E1; [|destruct (BucketEntryIdCmp n o) eqn:E2].
    + specialize (IHo (n :: ni) Ho1 Hn). unfold entryAt in *. cbn in *.
      destruct (bool_decide_reflect (entryKey o = k)) as [Ek|]; [|done].
      rewrite bool_decide_eq_false_2 by (intros E; rewrite (BucketEntryIdCmp_irrefl o n) in E1; congruence).
      destruct (List.find _ ni) eqn:Ef; [|done]. apply entryAt_Some in Ef as [He Hk].
      pose proof (above_sorted o n ni E1 Hn b ltac:(by right)) as H.
      rewrite BucketEntryIdCmp_irrefl in H; congruence.
    + specialize (IHn Hn1). unfold entryAt in *. cbn in *.
      destruct (bool_decide (entryKey n = k)); [done|]. exact IHn.
    + pose proof (BucketEntryIdCmp_key _ _ E1 E2) as Ek. specialize (IHo ni Ho1 Hn1).
      unfold entryAt in *. cbn in *. rewrite Ek. destruct (bool_decide (entryKey n = k)); [done|]. exact IHo.
Qed.

(** ** Shadows *)
Definition inShadows (k : LedgerKey) (shadows : list (list BucketEntry)) : bool := existsb (hasKey k) shadows.
Lemma hasKey_cons k x si : hasKey k (x :: si) = bool_decide (entryKey x = k) || hasKey k si.
Proof. unfold hasKey, entryAt. cbn. by destruct (bool_decide (entryKey x = k)); cbn. Qed.
Lemma hasKey_above k x si :
  sortedBucket (x :: si) -> BucketEntryIdCmp (DEADENTRY k) x = true -> hasKey k (x :: si) = false.
Proof.
  intros Hs Hx. apply not_true_is_false. intros (e & He & Hk)%hasKey_iff.
  pose proof (above_sorted _ _ _ Hx Hs e He) as H. by rewrite BucketEntryIdCmp_irrefl in H.
Qed.
Lemma skipBelow_spec e si :
  sortedBucket si ->
  sortedBucket (skipBelow e si) /\
  hasKey (entryKey e) si = (match skipBelow e si with x :: _ => negb (BucketEntryIdCmp e x) | [] => false end) /\
  forall e', BucketEntryIdCmp e e' = true -> hasKey (entryKey e') (skipBelow e si) = hasKey (entryKey e') si.
Proof.
  induction si as [|x si IH]; intros Hs; cbn; [done|].
  pose proof Hs as Hs'. apply sortedBucket_cons in Hs' as [H1 H2].
  destruct (BucketEntryIdCmp x e) eqn:E.
  - destruct (IH H1) as (IH1 & IH2 & IH3). split; [done|]. rewrite hasKey_cons.
    rewrite bool_decide_eq_false_2 by (intros Ek; by rewrite (BucketEntryIdCmp_irrefl x e) in E).
    split; [done|]. intros e' He'. rewrite hasKey_cons, IH3 by done.
    rewrite bool_decide_eq_false_2; [done|]. intros Ek.
    pose proof (BucketEntryIdCmp_trans _ _ _ E He') as H. by rewrite BucketEntryIdCmp_irrefl in H.
  - split; [done|]. split; [|done]. destruct (BucketEntryIdCmp e x) eqn:E'; cbn [negb].
    + by apply hasKey_above.
    + rewrite hasKey_cons, bool_decide_eq_true_2; [done|]. by apply BucketEntryIdCmp_key.
Qed.
Lemma isShadowed_spec e sis :
  Forall sortedBucket sis ->
  (isShadowed e sis).1 = inShadows (entryKey e) sis /\ Forall sortedBucket (isShadowed e sis).2 /\
  forall e', BucketEntryIdCmp e e' = true -> inShadows (entryKey e') (isShadowed e sis).2 = inShadows (entryKey e') sis.
Proof.
  induction 1 as [|si sis Hs Hsis (IH1 & IH2 & IH3)]; cbn; [done|].
  destruct (skipBelow_spec e si Hs) as (S1 & S2 & S3). rewrite S2.
  destruct (isShadowed e sis) as [b rest] eqn:Eb. cbn in IH1, IH2, IH3.
  destruct (skipBelow e si) as [|x si'] eqn:Esk.
  - cbn. split; [done|]. split; [by constructor|]. intros e' He'. cbn. rewrite <- (S3 e' He'), IH3 by done. done.
  - destruct (BucketEntryIdCmp e x); cbn.
    + split; [done|]. split; [by constructor|]. intros e' He'. unfold inShadows in *. cbn.
      by rewrite <- (S3 e' He'), IH3.
    + split; [done|]. split; [by constructor|]. intros e' He'. unfold inShadows in *. cbn.
      by rewrite <- (S3 e' He').
Qed.

(** ** The output *)
Definition after_buf (out : BucketOutputIterator) (es : list BucketEntry) : Prop :=
  forall buf e, mBuf out = Some buf -> e ∈ es -> BucketEntryIdCmp buf e = true.
Lemma BucketEntryIdCmp_asym a b : BucketEntryIdCmp a b = true -> BucketEntryIdCmp b a = false.
Proof. apply (lt_asym LedgerEntryIdCmp). Qed.
Lemma put_spec e out :
  after_buf out [e] ->
  exists out', put e out = Ok out' /\ mKeepDeadEntries out' = mKeepDeadEntries out /\
    getBucket out' = getBucket out ++ (if mKeepDeadEntries out || negb (isDead e) then [e] else []) /\
    forall buf, mBuf out' = Some buf -> buf = e \/ mBuf out = Some buf.
Proof.
  intros Hbuf. unfold put, getBucket.
  destruct (negb (mKeepDeadEntries out) && isDead e) eqn:Ek.
  - apply andb_true_iff in Ek as [Ek1%negb_true_iff Ek2]. exists out. rewrite Ek1, Ek2. cbn.
    rewrite app_nil_r. auto.
  - assert (Ek' : mKeepDeadEntries out || negb (isDead e) = true).
    { destruct (mKeepDeadEntries out), (isDead e); done. }
    rewrite Ek'. destruct (mBuf out) as [buf|] eqn:Eb.
    + assert (Hlt : BucketEntryIdCmp buf e = true) by (apply Hbuf; [done|set_solver]).
      rewrite (BucketEntryIdCmp_asym _ _ Hlt), Hlt. cbn. eexists. split; [reflexivity|]. split; [done|].
      split; [done|]. intros b [= <-]. by left.
    + cbn. eexists. split; [reflexivity|]. rewrite app_nil_r. split; [done|]. split; [done|].
      intros b [= <-]. by left.
Qed.
Lemma offerAll_spec es sis out :
  sortedBucket es -> Forall sortedBucket sis -> after_buf out es ->
  exists out' sis', offerAll es (out, sis) = Ok (out', sis') /\
    getBucket out' = getBucket out ++
      List.filter (fun e => negb (inShadows (entryKey e) sis) && (mKeepDeadEntries out || negb (isDead e))) es.
Proof.
  revert sis out. induction es as [|e es IH]; intros sis out Hes Hsis Hbuf; cbn [offerAll List.filter].
  - exists out, sis. by rewrite app_nil_r.
  - apply sortedBucket_cons in Hes as [Hes He].
    destruct (isShadowed_spec e sis Hsis) as (S1 & S2 & S3). unfold maybePut.
    destruct (isShadowed e sis) as [b sis1]. cbn [fst snd] in S1, S2, S3. subst b.
    assert (Hfilter : forall keep, List.filter (fun e => negb (inShadows (entryKey e) sis1) && (keep || negb (isDead e))) es
      = List.filter (fun e => negb (inShadows (entryKey e) sis) && (keep || negb (isDead e))) es).
    { intros keep. apply List.filter_ext_in. intros x Hx%list_elem_of_In. by rewrite S3 by auto. }
    destruct (inShadows (entryKey e) sis); cbn [negb andb].
    + cbn. destruct (IH sis1 out) as (out' & sis' & H1 & H2); [done|done| |].
      { intros buf x Hb Hx. apply Hbuf; [done|set_solver]. }
      exists out', sis'. rewrite <- Hfilter. done.
    + destruct (put_spec e out) as (out1 & P1 & P2 & P3 & P4).
      { intros buf x Hb Hx. apply Hbuf; [done|set_solver]. }
      rewrite P1. cbn. destruct (IH sis1 out1) as (out' & sis' & H1 & H2); [done|done| |].
      { intros buf x Hb Hx. destruct (P4 buf Hb) as [->|Hb']; [auto|]. apply Hbuf; [done|set_solver]. }
      exists out', sis'. split; [done|]. rewrite H2, P3, P2, Hfilter, <- app_assoc. f_equal.
      destruct (mKeepDeadEntries out || negb (isDead e)); done.
Qed.

(** ** The merge *)
Definition survives (shadows : list Bucket) (keepDeadEntries : bool) (e : BucketEntry) : bool :=
  negb (inShadows (entryKey e) shadows) && (keepDeadEntries || negb (isDead e)).
Lemma merge_spec old new shadows keep :
  sortedBucket old -> sortedBucket new -> Forall sortedBucket shadows ->
  merge old new shadows keep = Ok (List.filter (survives shadows keep) (offers old new)).
Proof.
  intros Ho Hn Hs. unfold merge. rewrite mergeLoop_offers.
  destruct (offerAll_spec (offers old new) shadows (newOut keep)) as (out & sis & H1 & H2);
    [by apply offers_sorted|done|by intros buf|].
  rewrite H1. cbn. by rewrite H2.
Qed.
Lemma merge_entryAt old new shadows keep k :
  sortedBucket old -> sortedBucket new -> Forall sortedBucket shadows ->
  exists b, merge old new shadows keep = Ok b /\ sortedBucket b /\
    entryAt k b = (e ← match entryAt k new with Some e => Some e | None => entryAt k old end;
                   if survives shadows keep e : bool then Some e else None).
Proof.
  intros Ho Hn Hs. eexists. split; [by apply merge_spec|].
  split; [by apply sortedBucket_filter, offers_sorted|].
  rewrite entryAt_filter by by apply offers_sorted. by rewrite offers_entryAt.
Qed.

(** * Fresh buckets *)

Section FreshBuckets.
Context `{Sort : StdSort}.

(** Entries with distinct keys, sorted, follow each other strictly. *)
Lemma sort_entries es :
  NoDup (entryKey <$> es) -> sortedBucket (std_sort BucketEntryIdCmp es).
Proof using.
  intros Hd. pose proof (std_sort_perm _ BucketEntryIdCmp es) as Hp.
  assert (Hs : StronglySorted (may_follow BucketEntryIdCmp) (std_sort BucketEntryIdCmp es)).
  { apply std_sort_sorted. split.
    - intros x y _ _. apply (lt_asym LedgerEntryIdCmp).
    - intros x y z _ _ _ Hxz. unfold BucketEntryIdCmp in *.
      destruct (LedgerEntryIdCmp (entryKey x) (entryKey y)) eqn:E1; [by left|]. right.
      destruct (LedgerEntryIdCmp (entryKey y) (entryKey x)) eqn:E2.
      + by eapply lt_trans.
      + by rewrite <- (lt_total _ _ E1 E2). }
  assert (Hd' : NoDup (entryKey <$> std_sort BucketEntryIdCmp es)) by by rewrite Hp.
  clear Hp Hd. induction Hs as [|x l Hl IH Hx]; [constructor|].
  apply NoDup_cons in Hd' as [Hn Hd']. constructor; [exact (IH Hd')|].
  rewrite Forall_forall in Hx. apply Forall_forall. intros y Hy. specialize (Hx y Hy). unfold may_follow in Hx.
  destruct (BucketEntryIdCmp x y) eqn:E; [done|]. exfalso. apply Hn.
  rewrite (BucketEntryIdCmp_key _ _ E Hx). by apply list_elem_of_fmap_2.
Qed.
Lemma putAll_spec es out :
  sortedBucket es -> after_buf out es -> mKeepDeadEntries out = true ->
  exists out', putAll es out = Ok out' /\ getBucket out' = getBucket out ++ es.
Proof using.
  revert out. induction es as [|e es IH]; intros out Hs Hb Hk; cbn [putAll].
  { exists out. by rewrite app_nil_r. }
  apply sortedBucket_cons in Hs as [Hs He].
  destruct (put_spec e out) as (out1 & P1 & P2 & P3 & P4).
  { intros buf x E Hx. apply Hb; [done|set_solver]. }
  rewrite P1. cbn. destruct (IH out1) as (out' & H1 & H2); [done| |congruence|].
  { intros buf x E Hx. destruct (P4 buf E) as [->|E']; [auto|]. apply Hb; [done|set_solver]. }
  exists out'. split; [done|]. by rewrite H2, P3, Hk, <- app_assoc.
Qed.
Lemma entryAt_sort k es :
  NoDup (entryKey <$> es) -> entryAt k (std_sort BucketEntryIdCmp es) = entryAt k es.
Proof using.
  intros Hd. pose proof (sort_entries es Hd) as Hs. pose proof (std_sort_perm _ BucketEntryIdCmp es) as Hp.
  destruct (entryAt k es) as [e|] eqn:E.
  - apply entryAt_Some in E as [He <-]. apply entryAt_sorted; [done|by rewrite Hp].
  - destruct (entryAt k (std_sort _ es)) as [e|] eqn:E'; [|done]. apply entryAt_Some in E' as [He Hk].
    rewrite Hp in He. by destruct (entryAt_None _ _ _ E He).
Qed.

(** What a batch says of [k]. *)
Definition batchEntry (liveEntries : list LedgerEntry) (deadEntries : list LedgerKey) (k : LedgerKey)
    : option BucketEntry :=
  if bool_decide (k ∈ deadEntries) then Some (DEADENTRY k)
  else entryAt k (LIVEENTRY <$> liveEntries).
Lemma entryAt_dead k ks :
  entryAt k (DEADENTRY <$> ks) = if bool_decide (k ∈ ks) then Some (DEADENTRY k) else None.
Proof using.
  destruct (entryAt k (DEADENTRY <$> ks)) as [e|] eqn:E.
  - apply entryAt_Some in E as [(k' & -> & Hk)%list_elem_of_fmap E]. cbn in E. subst.
    by rewrite bool_decide_eq_true_2.
  - rewrite bool_decide_eq_false_2; [done|]. intros Hk.
    by destruct (entryAt_None _ _ (DEADENTRY k) E (list_elem_of_fmap_2 _ _ _ Hk)).
Qed.
Lemma fresh_entryAt live dead :
  NoDup (LedgerEntryKey <$> live) -> NoDup dead ->
  exists b, fresh live dead = Ok b /\ sortedBucket b /\ forall k, entryAt k b = batchEntry live dead k.
Proof using.
  intros Hl Hd.
  assert (Hl' : NoDup (entryKey <$> (LIVEENTRY <$> live))) by by rewrite <- list_fmap_compose.
  assert (Hd' : NoDup (entryKey <$> (DEADENTRY <$> dead))).
  { rewrite <- list_fmap_compose. erewrite list_fmap_ext; [by rewrite list_fmap_id|done]. }
  destruct (putAll_spec (convertLive live) (newOut true)) as (lo & L1 & L2); [by apply sort_entries|by intros ?|done|].
  destruct (putAll_spec (convertDead dead) (newOut true)) as (do' & D1 & D2); [by apply sort_entries|by intros ?|done|].
  unfold fresh. rewrite L1. cbn. rewrite D1. cbn. rewrite L2, D2. cbn.
  pose proof (sort_entries _ Hl') as Sl. pose proof (sort_entries _ Hd') as Sd.
  eexists. split; [by apply merge_spec|]. split; [by apply sortedBucket_filter, offers_sorted|]. intros k.
  rewrite entryAt_filter, offers_entryAt by (try apply offers_sorted; done).
  unfold convertDead, convertLive, batchEntry. rewrite !entryAt_sort, entryAt_dead by done.
  case_bool_decide; cbn; [done|]. by destruct (entryAt k (LIVEENTRY <$> live)).
Qed.
End FreshBuckets.
