(* ===== verification/BucketList.v ===== *)
(** The bucket list: [src/src/bucket/BucketList.cpp] and [FutureBucket.cpp].

    [kNumLevels] is a parameter, as tests change it.  A merge runs in the
    background on buckets that never change, so its result is that of [merge]
    on the inputs whenever it is asked for: a [FutureBucket] in the state
    [FB_LIVE_INPUTS] holds the inputs, and [resolve] merges them.  The states
    of a [FutureBucket] read from a file ([FB_HASH_INPUTS], [FB_HASH_OUTPUT])
    are left out; so are hashes.

    [levelSize] asserts that its level exists: every call below is in range. *)

From S2P Require Import Prelude Types Sorting Buckets.

Inductive FutureBucket :=
  | FB_CLEAR
  | FB_LIVE_INPUTS (curr snap : Bucket) (shadows : list Bucket) (keepDeadEntries : bool)
  | FB_LIVE_OUTPUT (output : Bucket).
Definition isLive (fb : FutureBucket) : bool :=
  match fb with FB_CLEAR => false | _ => true end.
Definition isMerging (fb : FutureBucket) : bool :=
  match fb with FB_LIVE_INPUTS _ _ _ _ => true | _ => false end.
(** The bucket; the state becomes [FB_LIVE_OUTPUT]. *)
Definition resolve (fb : FutureBucket) : outcome (Bucket * FutureBucket) :=
  match fb with
  | FB_LIVE_INPUTS curr snap shadows keep =>
      b ← merge curr snap shadows keep; mret (b, FB_LIVE_OUTPUT b)
  | FB_LIVE_OUTPUT b => mret (b, fb)
  | FB_CLEAR => Throw (AssertFailure "isLive()")
  end.

Record BucketLevel := mkLevel {
  mLevel : Z;
  mNextCurr : FutureBucket;
  mCurr : Bucket;
  mSnap : Bucket }.
Definition newLevel (i : Z) : BucketLevel := mkLevel i FB_CLEAR [] [].

(** ** Arithmetic of levels *)
Definition levelSize (level : Z) : Z := u32 (Z.shiftl 1 (2 * (level + 1))).
Definition levelHalf (level : Z) : Z := Z.shiftr (levelSize level) 1.
Definition mask (v m : Z) : Z := Z.land v (u32 (Z.lnot (u32 (m - 1)))).

Section BucketList.
Context `{Sort : StdSort} (kNumLevels : Z).

Definition levelShouldSpill (ledger level : Z) : bool :=
  if level =? kNumLevels - 1 then false
  else (ledger =? mask ledger (levelHalf level)) || (ledger =? mask ledger (levelSize level)).
Definition keepDeadEntries (level : Z) : bool := level <? kNumLevels - 1.

(** The numbers of ledgers in [curr] and [snap], by recursion between the two;
    [fuel] bounds its depth. *)
Fixpoint sizeOfCurrWith (fuel : nat) (ledger level : Z) : option Z :=
  match fuel with
  | O => None
  | S fuel =>
      let sumBelow :=
        fold_left
          (fun acc l =>
             size ← acc; c ← sizeOfCurrWith fuel ledger (Z.of_nat l);
             s ← sizeOfSnapWith fuel ledger (Z.of_nat l); Some (u32 (u32 (size + c) + s)))
          (seq 0 (Z.to_nat level)) (Some 0) in
      if level =? 0 then Some (if ledger =? 1 then 1 else 1 + Z.rem ledger 2)
      else
        let size := levelSize level in
        let half := levelHalf level in
        if negb (level =? kNumLevels - 1) && negb (mask ledger half =? 0) then
          let sizeDelta := u32 (Z.shiftl 1 (2 * level - 1)) in
          if (mask ledger half =? ledger) || (mask ledger size =? ledger) then Some sizeDelta
          else
            let prevSize := levelSize (level - 1) in
            let prevHalf := levelHalf (level - 1) in
            let previousRelevantLedger :=
              Z.max (Z.max (mask (ledger - 1) prevHalf) (mask (ledger - 1) prevSize))
                    (Z.max (mask (ledger - 1) half) (mask (ledger - 1) size)) in
            c ← sizeOfCurrWith fuel previousRelevantLedger level;
            Some (if (mask ledger prevHalf =? ledger) || (mask ledger prevSize =? ledger)
                  then u32 (c + sizeDelta) else c)
        else blsize ← sumBelow; Some (u32 (ledger - blsize))
  end
with sizeOfSnapWith (fuel : nat) (ledger level : Z) : option Z :=
  match fuel with
  | O => None
  | S fuel =>
      let sumBelow :=
        fold_left
          (fun acc l =>
             size ← acc; c ← sizeOfCurrWith fuel ledger (Z.of_nat l);
             s ← sizeOfSnapWith fuel ledger (Z.of_nat l); Some (u32 (u32 (size + c) + s)))
          (seq 0 (Z.to_nat level)) (Some 0) in
      if level =? kNumLevels - 1 then Some 0
      else if negb (mask ledger (levelSize level) =? 0) then Some (levelHalf level)
      else
        size ← sumBelow; c ← sizeOfCurrWith fuel ledger level;
        Some (u32 (ledger - u32 (size + c)))
  end.
Definition sizeOfCurr (ledger level : Z) : option Z :=
  sizeOfCurrWith (6 * Z.to_nat (level + 1)) ledger level.
Definition sizeOfSnap (ledger level : Z) : option Z :=
  sizeOfSnapWith (1 + 6 * Z.to_nat (level + 1)) ledger level.

(** [count], after the loop over the levels below [level]. *)
Definition countAbove (ledger level : Z) : option Z :=
  fold_left
    (fun acc l =>
       count ← acc; c ← sizeOfCurr ledger (Z.of_nat l); s ← sizeOfSnap ledger (Z.of_nat l);
       Some (u32 (u32 (count - c) - s)))
    (seq 0 (Z.to_nat level)) (Some ledger).
Definition oldestLedgerInCurr (ledger level : Z) : option Z :=
  c ← sizeOfCurr ledger level;
  if c =? 0 then Some UINT32_MAX
  else count ← countAbove ledger level; Some (u32 (u32 (count - c) + 1)).
Definition oldestLedgerInSnap (ledger level : Z) : option Z :=
  s ← sizeOfSnap ledger level;
  if s =? 0 then Some UINT32_MAX
  else count ← countAbove ledger (level + 1); Some (u32 (count + 1)).

(** ** Levels *)
Definition commitLevel (l : BucketLevel) : outcome BucketLevel :=
  if isLive (mNextCurr l) then
    r ← resolve (mNextCurr l);
    let '(b, _) := r in mret (mkLevel (mLevel l) FB_CLEAR b (mSnap l))
  else mret l.
Definition prepare (currLedger : Z) (snap : Bucket) (shadows : list Bucket) (l : BucketLevel)
    : outcome BucketLevel :=
  _ ← cassert "!mNextCurr.isMerging()" (negb (isMerging (mNextCurr l)));
  let curr :=
    if negb (mLevel l =? 0)
       && levelShouldSpill (u32 (currLedger + levelHalf (mLevel l - 1))) (mLevel l)
    then [] else mCurr l in
  mret (mkLevel (mLevel l) (FB_LIVE_INPUTS curr snap shadows (keepDeadEntries (mLevel l)))
          (mCurr l) (mSnap l)).
(** The new snap, and the level. *)
Definition snapLevel (l : BucketLevel) : Bucket * BucketLevel :=
  (mCurr l, mkLevel (mLevel l) (mNextCurr l) [] (mCurr l)).

(** ** Adding a batch *)
Definition getLevel (mLevels : list BucketLevel) (i : nat) : outcome BucketLevel :=
  match mLevels !! i with
  | Some l => mret l
  | None => Throw (RuntimeError "vector::at")
  end.
(** The body of the loop for level [j + 1]. *)
Definition spillLevel (currLedger : Z) (shadows : list Bucket) (j : nat)
    (mLevels : list BucketLevel) : outcome (list BucketLevel) :=
  below ← getLevel mLevels j;
  let '(snap, below) := snapLevel below in
  let mLevels := <[j := below]> mLevels in
  level ← getLevel mLevels (S j);
  level ← commitLevel level;
  level ← prepare currLedger snap shadows level;
  mret (<[S j := level]> mLevels).
Definition pop_back (shadows : list Bucket) : list Bucket := removelast shadows.
Fixpoint spillLoop (currLedger : Z) (i : nat) (shadows : list Bucket)
    (mLevels : list BucketLevel) : outcome (list Bucket * list BucketLevel) :=
  match i with
  | O => mret (shadows, mLevels)
  | S j =>
      _ ← cassert "shadows.size() >= 2" (Nat.leb 2 (length shadows));
      let shadows := pop_back (pop_back shadows) in
      mLevels ← (if levelShouldSpill currLedger (Z.of_nat j)
                 then spillLevel currLedger shadows j mLevels else mret mLevels);
      spillLoop currLedger j shadows mLevels
  end.
Definition levelBuckets (l : BucketLevel) : list Bucket := [mCurr l; mSnap l].
Definition addBatch (currLedger : Z) (liveEntries : list LedgerEntry) (deadEntries : list LedgerKey)
    (mLevels : list BucketLevel) : outcome (list BucketLevel) :=
  _ ← cassert "currLedger > 0" (0 <? currLedger);
  let shadows := concat (List.map levelBuckets mLevels) in
  _ ← cassert "shadows.size() >= 2" (Nat.leb 2 (length shadows));
  r ← spillLoop currLedger (length mLevels - 1) (pop_back (pop_back shadows)) mLevels;
  let '(shadows, mLevels) := r in
  _ ← cassert "shadows.size() == 0" (Nat.eqb (length shadows) 0);
  b ← fresh liveEntries deadEntries;
  level0 ← getLevel mLevels 0;
  level0 ← prepare currLedger b shadows level0;
  level0 ← commitLevel level0;
  mret (<[0%nat := level0]> mLevels).

Definition newBucketList : list BucketLevel :=
  List.map (fun i => newLevel (Z.of_nat i)) (seq 0 (Z.to_nat kNumLevels)).
End BucketList.
Definition DEFAULT_kNumLevels : Z := 11.
