(* ===== verification/BucketHistory.v ===== *)
(** What a bucket of the list says of a range of ledgers, given the batches of
    the ledgers closed so far.

    First, which ledgers they are: after ledger [T], level [i] has spilled last
    at [lastSpill i T].  Its [curr] holds the ledgers after [lowCurr i T] and its
    [snap] those after [lowSnap i T]; the next level starts where it ends. *)

From stdpp Require Import sorting.
From S2P Require Import Prelude Types Sorting Buckets BucketMerge BucketList.

(** * Ranges of ledgers *)

(** ** Masks *)
Definition half (i : nat) : Z := 2 ^ (2 * Z.of_nat i + 1).
Lemma mask_pow2 v j :
  0 <= j <= 32 -> 0 <= v < 2 ^ 32 -> mask v (2 ^ j) = v - v mod 2 ^ j.
Proof.
  intros Hj Hv.
  pose proof (Z.pow_le_mono_r 2 j 32 ltac:(lia) ltac:(lia)) as Hle.
  assert (0 < 2 ^ j) by (apply Z.pow_pos_nonneg; lia).
  unfold mask, u32. change 4294967296 with (2 ^ 32).
  rewrite (Z.mod_small (2 ^ j - 1)) by lia.
  replace (2 ^ j - 1) with (Z.ones j) by (rewrite Z.ones_equiv; lia).
  rewrite <- (Z.land_ones (Z.lnot _)) by lia. rewrite Z.land_assoc.
  rewrite <- Z.ldiff_land, Z.ldiff_ones_r by lia.
  rewrite Z.shiftl_mul_pow2, Z.shiftr_div_pow2 by lia.
  pose proof (Z.div_mod v (2 ^ j) ltac:(lia)). pose proof (Z.mod_pos_bound v (2 ^ j) ltac:(lia)).
  assert (E : v / 2 ^ j * 2 ^ j = v - v mod 2 ^ j) by lia.
  rewrite Z.land_ones, E by lia. apply Z.mod_small. pose proof (Z.mod_le v (2 ^ j)). lia.
Qed.
Lemma half_pos i : 0 < half i.
Proof. apply Z.pow_pos_nonneg; lia. Qed.
Lemma half_S i : half (S i) = 4 * half i.
Proof.
  unfold half. replace (2 * Z.of_nat (S i) + 1) with (2 + (2 * Z.of_nat i + 1)) by lia.
  by rewrite Z.pow_add_r by lia.
Qed.
Lemma half_bound i : (i < 15)%nat -> half i <= 2 ^ 29.
Proof. intros H. apply Z.pow_le_mono_r; lia. Qed.
Lemma levelSize_half i : (i < 15)%nat -> levelSize (Z.of_nat i) = 2 * half i.
Proof.
  intros H. unfold levelSize, u32. pose proof (half_bound i H). pose proof (half_pos i).
  rewrite Z.shiftl_1_l. replace (2 * (Z.of_nat i + 1)) with (1 + (2 * Z.of_nat i + 1)) by lia.
  rewrite Z.pow_add_r by lia. fold (half i). rewrite Z.mod_small; lia.
Qed.
Lemma levelHalf_half i : (i < 15)%nat -> levelHalf (Z.of_nat i) = half i.
Proof.
  intros H. unfold levelHalf. rewrite levelSize_half by done.
  rewrite Z.shiftr_div_pow2 by lia. change (2 ^ 1) with 2. rewrite Z.mul_comm. by apply Z.div_mul.
Qed.
Lemma mask_half i v :
  (i < 15)%nat -> 0 <= v < 2 ^ 32 -> mask v (levelHalf (Z.of_nat i)) = v - v mod half i.
Proof. intros H Hv. rewrite levelHalf_half by done. apply mask_pow2; lia. Qed.
Lemma mask_size i v :
  (i < 15)%nat -> 0 <= v < 2 ^ 32 -> mask v (levelSize (Z.of_nat i)) = v - v mod (2 * half i).
Proof.
  intros H Hv. rewrite levelSize_half by done. unfold half. rewrite <- Z.pow_succ_r by lia.
  apply mask_pow2; lia.
Qed.

(** ** Spills *)
#[export] Instance divide_decision a b : Decision (a | b).
Proof. exact (Znumtheory.Zdivide_dec a b). Defined.
Section Ranges.
Context (N : nat).

Definition spills (i : nat) (T : Z) : Prop := (S i < N)%nat /\ (half i | T).
#[export] Instance spills_dec i T : Decision (spills i T).
Proof. apply and_dec; apply _. Defined.

Lemma levelShouldSpill_iff i T :
  (N <= 15)%nat -> (i < N)%nat -> 0 <= T < 2 ^ 32 ->
  levelShouldSpill (Z.of_nat N) T (Z.of_nat i) = bool_decide (spills i T).
Proof using.
  intros HN Hi HT. pose proof (half_pos i). unfold levelShouldSpill.
  destruct (Z.eqb_spec (Z.of_nat i) (Z.of_nat N - 1)).
  { rewrite bool_decide_eq_false_2; [done|]. intros [? _]. lia. }
  rewrite mask_half, mask_size by lia.
  assert (Hm : forall m, 0 < m -> (T =? T - T mod m) = (T mod m =? 0)).
  { intros m Hm. destruct (Z.eqb_spec (T mod m) 0), (Z.eqb_spec T (T - T mod m)); lia. }
  rewrite !Hm by lia. destruct (Z.eqb_spec (T mod half i) 0) as [E|E]; cbn.
  - rewrite bool_decide_eq_true_2; [done|]. split; [lia|]. by apply Z.mod_divide; [lia|].
  - assert (~ (half i | T)) by (intros D%Z.mod_divide; lia).
    rewrite (bool_decide_eq_false_2 (spills i T)) by (by intros [_ ?]).
    apply Z.eqb_neq. intros E'. apply Z.mod_divide in E' as [q ->]; [|lia].
    match goal with H : ~ (_ | _) |- _ => apply H end. exists (q * 2). lia.
Qed.

Definition lastSpill (i : nat) (T : Z) : Z := T - T mod half i.
(** The ledgers by which level [i] lags behind its spills. *)
Fixpoint offset (i : nat) : Z := match i with O => 1 | S j => offset j + 2 * half j end.
Definition lowCurr (i : nat) (T : Z) : Z :=
  if bool_decide (S i < N)%nat then Z.max 0 (lastSpill i T - offset i) else 0.
Definition lowSnap (i : nat) (T : Z) : Z :=
  if bool_decide (S i < N)%nat then Z.max 0 (lastSpill i T - half i - offset i) else 0.
Definition topCurr (i : nat) (T : Z) : Z := match i with O => T | S j => lowSnap j T end.

Lemma offset_pos i : 0 < offset i.
Proof using. induction i; cbn; [lia|]. pose proof (half_pos i). lia. Qed.
Lemma lastSpill_bounds i T : 0 <= T -> 0 <= lastSpill i T <= T /\ T < lastSpill i T + half i.
Proof using.
  intros HT. pose proof (half_pos i). unfold lastSpill.
  pose proof (Z.mod_pos_bound T (half i) ltac:(lia)).
  pose proof (Z.mod_le T (half i) ltac:(lia) ltac:(lia)). lia.
Qed.
Lemma lastSpill_divide i T : (half i | lastSpill i T).
Proof using.
  pose proof (half_pos i). unfold lastSpill. apply Z.mod_divide; [lia|].
  rewrite Zminus_mod_idemp_r. by rewrite Z.sub_diag.
Qed.
Lemma lastSpill_unique i T s : (half i | s) -> s <= T < s + half i -> lastSpill i T = s.
Proof using.
  intros [q ->] H. pose proof (half_pos i). unfold lastSpill.
  replace T with (T - q * half i + q * half i) at 2 by lia. rewrite Z.mod_add by lia.
  rewrite Z.mod_small by lia. lia.
Qed.
Lemma lastSpill_at i T : (half i | T) -> lastSpill i T = T.
Proof using. intros H. pose proof (half_pos i). apply lastSpill_unique; [done|lia]. Qed.
Lemma lastSpill_before i T : (half i | T + 1) -> lastSpill i T = T + 1 - half i.
Proof using.
  intros H. pose proof (half_pos i). apply lastSpill_unique; [|lia].
  apply Z.divide_sub_r; [done|apply Z.divide_refl].
Qed.
Lemma lastSpill_same i T : ~ (half i | T + 1) -> lastSpill i (T + 1) = lastSpill i T.
Proof using.
  intros H. pose proof (half_pos i). pose proof (lastSpill_divide i T).
  apply lastSpill_unique; [done|]. unfold lastSpill in *.
  pose proof (Z.mod_pos_bound T (half i) ltac:(lia)).
  destruct (decide (T + 1 = T - T mod half i + half i)) as [E|]; [|lia].
  destruct H. rewrite E. apply Z.divide_add_r; [done|apply Z.divide_refl].
Qed.
Lemma half_divide i T : (half (S i) | T) -> (half i | T).
Proof using. rewrite half_S. intros [q ->]. exists (q * 4). lia. Qed.
Lemma lastSpill_le i T : 0 <= T -> lastSpill (S i) T <= lastSpill i T.
Proof using.
  intros HT. pose proof (half_pos i). pose proof (lastSpill_bounds (S i) T HT).
  pose proof (lastSpill_bounds i T HT). pose proof (lastSpill_divide i T) as [a Ha].
  pose proof (half_divide _ _ (lastSpill_divide (S i) T)) as [b Hb]. assert (b < a + 1) by (apply (Z.mul_lt_mono_pos_r (half i)); lia).
  rewrite Ha, Hb. apply Z.mul_le_mono_nonneg_r; lia.
Qed.

(** ** How the boundaries move *)
Lemma low_same i T :
  ~ spills i (T + 1) -> lowCurr i (T + 1) = lowCurr i T /\ lowSnap i (T + 1) = lowSnap i T.
Proof using.
  intros H. unfold lowCurr, lowSnap, spills in *. case_bool_decide; [|done].
  rewrite lastSpill_same; [done|]. naive_solver.
Qed.
Lemma lowSnap_spill i T : spills i (T + 1) -> lowSnap i (T + 1) = lowCurr i T.
Proof using.
  intros [H1 H2]. unfold lowCurr, lowSnap. rewrite bool_decide_eq_true_2 by done.
  rewrite lastSpill_at, lastSpill_before by done. lia.
Qed.
Lemma lowCurr_spill i T : 0 <= T -> spills i (T + 1) -> lowCurr i (T + 1) = topCurr i T.
Proof using.
  intros HT [H1 H2]. unfold lowCurr. rewrite bool_decide_eq_true_2, lastSpill_at by done.
  destruct i as [|j]; cbn [topCurr offset]; [lia|].
  unfold lowSnap. rewrite bool_decide_eq_true_2 by lia.
  rewrite lastSpill_before by by apply half_divide. lia.
Qed.
Lemma spills_below i T : spills (S i) T -> spills i T.
Proof using. intros [H1 H2]. split; [lia|by apply half_divide]. Qed.
Lemma low_ordered i T : 0 <= T -> 0 <= lowSnap i T <= lowCurr i T /\ lowCurr i T <= topCurr i T.
Proof using.
  intros HT. pose proof (half_pos i). pose proof (lastSpill_bounds i T HT). pose proof (offset_pos i).
  unfold lowCurr, lowSnap. case_bool_decide.
  - split; [lia|]. destruct i as [|j]; cbn [topCurr offset] in *; [lia|].
    unfold lowSnap. rewrite bool_decide_eq_true_2 by lia. pose proof (lastSpill_le j T HT).
    pose proof (half_pos j). lia.
  - split; [lia|]. destruct i as [|j]; cbn [topCurr]; [lia|]. unfold lowSnap. case_bool_decide; lia.
Qed.
Lemma topCurr_le i j T : 0 <= T -> (i <= j)%nat -> topCurr j T <= topCurr i T.
Proof using.
  intros HT H. induction H as [|j H IH]; [lia|]. cbn [topCurr].
  pose proof (low_ordered j T HT). lia.
Qed.
End Ranges.

Section History.
Context (batches : Z -> list LedgerEntry * list LedgerKey).

Definition mention (t : Z) (k : LedgerKey) : option BucketEntry := batchEntry (batches t).1 (batches t).2 k.
(** A ledger of [(lo, hi]] changes [k]. *)
Definition mentioned (lo hi : Z) (k : LedgerKey) : Prop := exists t, lo < t <= hi /\ is_Some (mention t k).
(** [e] is what the last ledger of [(lo, hi]] that changes [k] says. *)
Definition latest (lo hi : Z) (k : LedgerKey) (e : BucketEntry) : Prop :=
  exists t, lo < t <= hi /\ mention t k = Some e /\ forall t', t < t' <= hi -> mention t' k = None.
(** [b] holds the changes of [(lo, hi]], but for keys that ledgers up to [T]
    change later.  Dead entries may be missing at the bottom. *)
Definition covers (T : Z) (b : Bucket) (lo hi : Z) : Prop :=
  sortedBucket b /\ forall k,
  (forall e, entryAt k b = Some e -> exists t, lo < t <= hi /\ mention t k = Some e) /\
  (mentioned hi T k \/
   match entryAt k b with
   | Some e => latest lo hi k e
   | None => ~ mentioned lo hi k \/ lo = 0 /\ latest lo hi k (DEADENTRY k)
   end).

Lemma mention_dead t k e : mention t k = Some e -> isDead e = true -> e = DEADENTRY k.
Proof using.
  unfold mention, batchEntry. case_bool_decide; [by intros [= <-]|].
  intros [(x & -> & _)%list_elem_of_fmap _]%entryAt_Some. done.
Qed.
Lemma mentioned_split lo mid hi k :
  mentioned lo hi k -> mentioned lo mid k \/ mentioned mid hi k.
Proof using.
  intros (t & Ht & Hm). destruct (decide (t <= mid)); [left|right]; exists t; (split; [lia|done]).
Qed.
Lemma mentioned_mono lo hi lo' hi' k :
  mentioned lo hi k -> lo' <= lo -> hi <= hi' -> mentioned lo' hi' k.
Proof using. intros (t & Ht & Hm) H1 H2. exists t. split; [lia|done]. Qed.
Lemma latest_mentioned lo hi k e : latest lo hi k e -> mentioned lo hi k.
Proof using. intros (t & Ht & Hm & _). exists t. by rewrite Hm. Qed.
Lemma latest_up lo mid hi k e : latest mid hi k e -> lo <= mid -> latest lo hi k e.
Proof using. intros (t & Ht & Hm & Hl) H. exists t. split; [lia|done]. Qed.
Lemma latest_down lo mid hi k e :
  latest lo mid k e -> ~ mentioned mid hi k -> mid <= hi -> latest lo hi k e.
Proof using.
  intros (t & Ht & Hm & Hl) Hn H. exists t. split; [lia|]. split; [done|]. intros t' Ht'.
  destruct (decide (t' <= mid)) as [|]; [apply Hl; lia|].
  destruct (mention t' k) eqn:E; [|done]. destruct Hn. exists t'. rewrite E. split; [lia|done].
Qed.
Lemma latest_unique lo hi k e e' : latest lo hi k e -> latest lo hi k e' -> e = e'.
Proof using.
  intros (t & Ht & Hm & Hl) (t' & Ht' & Hm' & Hl').
  destruct (decide (t < t')); [rewrite Hl in Hm' by lia; done|].
  destruct (decide (t' < t)); [rewrite Hl' in Hm by lia; done|].
  replace t' with t in Hm' by lia. congruence.
Qed.

Lemma covers_later T T' b lo hi : covers T b lo hi -> T <= T' -> covers T' b lo hi.
Proof using.
  intros [Hs H] HT. split; [done|]. intros k. destruct (H k) as [H1 H2]. split; [done|].
  destruct H2 as [H2|H2]; [left|by right]. by eapply mentioned_mono; [done|lia|].
Qed.
Lemma covers_nil T lo : covers T [] lo lo.
Proof using.
  split; [constructor|]. intros k. split; [done|]. right. left. intros (t & Ht & _). lia.
Qed.
Lemma covers_empty T b lo k : covers T b lo lo -> entryAt k b = None.
Proof using.
  intros [_ H]. destruct (H k) as [H1 _]. destruct (entryAt k b) as [e|]; [|done].
  destruct (H1 e eq_refl) as (t & Ht & _). lia.
Qed.
Lemma covers_hasKey T b lo hi k : covers T b lo hi -> hasKey k b = true -> mentioned lo hi k.
Proof using.
  intros [_ H] [e He]%bool_decide_eq_true. destruct (H k) as [H1 _].
  destruct (H1 e He) as (t & Ht & Hm). exists t. by rewrite Hm.
Qed.
Lemma covers_fresh `{StdSort} T :
  NoDup (LedgerEntryKey <$> (batches T).1) -> NoDup (batches T).2 ->
  exists b, fresh (batches T).1 (batches T).2 = Ok b /\ covers T b (T - 1) T.
Proof using.
  intros Hl Hd. destruct (fresh_entryAt _ _ Hl Hd) as (b & Hb & Hs & He). exists b.
  split; [done|]. split; [done|]. intros k. rewrite He. split.
  - intros e E. exists T. split; [lia|done].
  - right. destruct (batchEntry _ _ _) as [e|] eqn:E.
    + exists T. split; [lia|]. split; [done|]. lia.
    + left. intros (t & Ht & [x Hx]). replace t with T in Hx by lia.
      unfold mention in Hx. congruence.
Qed.

(** A merge whose shadows are newer than its inputs covers the union. *)
Definition newer (T hi : Z) (s : Bucket) : Prop :=
  exists lo' hi', hi <= lo' /\ hi' <= T /\ covers T s lo' hi'.
Lemma inShadows_mentioned T hi shadows k :
  Forall (newer T hi) shadows -> inShadows k shadows = true -> mentioned hi T k.
Proof using.
  intros Hs (s & Hin & Hk)%existsb_exists. rewrite <- list_elem_of_In in Hin.
  rewrite Forall_forall in Hs. destruct (Hs s Hin) as (lo' & hi' & H1 & H2 & H3).
  eapply mentioned_mono; [by eapply covers_hasKey|done..].
Qed.
Lemma covers_merge T old new shadows keep lo mid hi :
  covers T old lo mid -> covers T new mid hi -> 0 <= lo <= mid -> mid <= hi ->
  Forall (newer T hi) shadows -> keep = true \/ lo = 0 ->
  exists b, merge old new shadows keep = Ok b /\ covers T b lo hi.
Proof using.
  intros Ho Hn Hlo Hhi Hs Hkeep.
  destruct Ho as [So Ho], Hn as [Sn Hn].
  assert (Ss : Forall sortedBucket shadows).
  { eapply Forall_impl; [exact Hs|]. by intros s (? & ? & _ & _ & ? & _). }
  eexists. split; [by apply merge_spec|]. split; [by apply sortedBucket_filter, offers_sorted|].
  intros k. rewrite entryAt_filter, offers_entryAt by (try apply offers_sorted; done).
  destruct (Ho k) as [Ho1 Ho2], (Hn k) as [Hn1 Hn2].
  set (m := match entryAt k new with Some e => Some e | None => entryAt k old end).
  assert (M1 : forall e, m = Some e -> exists t, lo < t <= hi /\ mention t k = Some e).
  { intros e E. unfold m in E. destruct (entryAt k new) as [e'|] eqn:En.
    - injection E as ->. destruct (Hn1 e eq_refl) as (t & Ht & Hm). exists t. split; [lia|done].
    - destruct (Ho1 e E) as (t & Ht & Hm). exists t. split; [lia|done]. }
  assert (M2 : mentioned hi T k \/
    match m with
    | Some e => latest lo hi k e
    | None => ~ mentioned lo hi k \/ lo = 0 /\ latest lo hi k (DEADENTRY k)
    end).
  { destruct Hn2 as [?|Hn2]; [by left|]. unfold m. destruct (entryAt k new) as [e|] eqn:En.
    - right. eapply latest_up; [done|lia].
    - destruct Hn2 as [Hn2|[-> Hn2]].
      + destruct Ho2 as [Ho2|Ho2]; [destruct (mentioned_split _ hi _ _ Ho2); [done|by left]|].
        right. destruct (entryAt k old) as [e|]; [by eapply latest_down|].
        destruct Ho2 as [Ho2|[? Ho2]]; [left|right; split; [done|by eapply latest_down]].
        intros [?|?]%(mentioned_split _ mid); done.
      + right. replace lo with 0 in * by lia. destruct (entryAt k old) as [e|].
        * destruct (Ho1 e eq_refl) as (t & Ht & _). lia.
        * right. done. }
  destruct m as [e|]; cbn; [|split; [done|exact M2]].
  destruct (survives shadows keep e) eqn:Es.
  - split; [|exact M2]. intros e' [= <-]. by apply M1.
  - split; [done|]. destruct M2 as [?|M2]; [by left|].
    destruct (M1 e eq_refl) as (t & Ht & Hm).
    assert (Hk : entryKey e = k).
    { unfold mention, batchEntry in Hm. case_bool_decide; [by injection Hm as <-|]. by apply entryAt_Some in Hm as [_ Hm]. }
    unfold survives in Es. rewrite Hk in Es. apply andb_false_iff in Es as [Es|Es].
    + left. apply negb_false_iff in Es. by eapply inShadows_mentioned.
    + apply orb_false_iff in Es as [-> Ed]. apply negb_false_iff in Ed.
      destruct Hkeep as [?| ->]; [done|]. right. right. split; [done|].
      by rewrite <- (mention_dead _ _ _ Hm Ed).
Qed.

(** ** The ledger the batches produce *)
Definition applyBatch (batch : list LedgerEntry * list LedgerKey) (m : gmap LedgerKey LedgerEntry)
    : gmap LedgerKey LedgerEntry :=
  foldr delete (foldr (fun e => <[LedgerEntryKey e := e]>) m batch.1) batch.2.
Fixpoint ledgerAfter (T : nat) : gmap LedgerKey LedgerEntry :=
  match T with O => ∅ | S t => applyBatch (batches (Z.of_nat (S t))) (ledgerAfter t) end.
Definition entryLive (e : BucketEntry) : option LedgerEntry :=
  match e with LIVEENTRY e => Some e | DEADENTRY _ => None end.
Lemma lookup_applyBatch t m k :
  applyBatch (batches t) m !! k = match mention t k with Some e => entryLive e | None => m !! k end.
Proof using.
  unfold applyBatch, mention, batchEntry. destruct (batches t) as [live dead]. cbn [fst snd].
  case_bool_decide as Hk; cbn.
  - induction dead as [|d dead IH]; [set_solver|]. cbn.
    destruct (decide (d = k)) as [->|]; [by rewrite lookup_delete_eq|].
    rewrite lookup_delete_ne by done. apply IH. set_solver.
  - assert (foldr delete (foldr (fun e => <[LedgerEntryKey e := e]>) m live) dead !! k
            = foldr (fun e => <[LedgerEntryKey e := e]>) m live !! k) as ->.
    { induction dead as [|d dead IH]; [done|]. cbn. rewrite lookup_delete_ne by set_solver.
      apply IH. set_solver. }
    clear Hk. induction live as [|e live IH]; [done|]. unfold entryAt in *. cbn.
    case_bool_decide as E; [subst; by rewrite lookup_insert_eq|].
    by rewrite lookup_insert_ne.
Qed.
(** What it holds of [k] is what the last change of [k] says. *)
Lemma ledgerAfter_latest T k e :
  latest 0 (Z.of_nat T) k e -> ledgerAfter T !! k = entryLive e.
Proof using.
  intros (t & Ht & Hm & Hl). induction T as [|T IH]; [lia|]. cbn [ledgerAfter].
  rewrite lookup_applyBatch. destruct (decide (t = Z.of_nat (S T))) as [->|]; [by rewrite Hm|].
  rewrite Hl by lia. apply IH; [lia|]. intros t' Ht'. apply Hl. lia.
Qed.
Lemma ledgerAfter_unmentioned T k : ~ mentioned 0 (Z.of_nat T) k -> ledgerAfter T !! k = None.
Proof using.
  induction T as [|T IH]; intros Hn; cbn [ledgerAfter]; [done|]. rewrite lookup_applyBatch.
  destruct (mention _ _) as [e|] eqn:E.
  - destruct Hn. exists (Z.of_nat (S T)). rewrite E. split; [lia|done].
  - apply IH. intros H. apply Hn. eapply mentioned_mono; [done|lia..].
Qed.
End History.
