(* ===== verification/BucketInvariant.v ===== *)
(** The invariant of the bucket list: after every ledger, every bucket, and
    every merge that is under way, holds the changes of its range of ledgers. *)

From stdpp Require Import sorting.
From S2P Require Import Prelude Types Sorting Buckets BucketMerge BucketList BucketHistory.

Section Invariant.
Context `{Sort : StdSort} (N : nat) (batches : Z -> list LedgerEntry * list LedgerKey).
Hypothesis HN : (1 <= N <= 15)%nat.
Hypothesis batches_ok :
  forall t, NoDup (LedgerEntryKey <$> (batches t).1) /\ NoDup (batches t).2.
Abbreviation covers := (covers batches).
Abbreviation newer := (newer batches).
Abbreviation lowCurr := (lowCurr N).
Abbreviation lowSnap := (lowSnap N).
Abbreviation topCurr := (topCurr N).

(** The merge into level [i]; its bottom is that of [curr], or of [snap] when
    [curr] will have been spilled by the time it is used. *)
Definition pending_ok (T : Z) (i : nat) (fb : FutureBucket) : Prop :=
  match i with
  | O => fb = FB_CLEAR
  | S j =>
      match fb with
      | FB_CLEAR => T < half j
      | FB_LIVE_INPUTS curr snap shadows keep =>
          let lo := if bool_decide (spills N (S j) (lastSpill j T + half j))
                    then lowSnap j T else lowCurr (S j) T in
          covers T curr lo (lowSnap j T) /\ (keep = true \/ lo = 0) /\
          covers T snap (lowSnap j T) (lowCurr j T) /\ Forall (newer T (lowCurr j T)) shadows
      | FB_LIVE_OUTPUT _ => False
      end
  end.
Definition level_ok (T : Z) (i : nat) (l : BucketLevel) : Prop :=
  mLevel l = Z.of_nat i /\
  covers T (mCurr l) (lowCurr i T) (topCurr i T) /\
  covers T (mSnap l) (lowSnap i T) (lowCurr i T) /\
  pending_ok T i (mNextCurr l).
Definition list_ok (T : Z) (mLevels : list BucketLevel) : Prop :=
  length mLevels = N /\ forall i l, mLevels !! i = Some l -> level_ok T i l.

(** The same bucket, later. *)
Ltac later := eapply covers_later; [done|lia].
Lemma newer_later T T' hi sh : Forall (newer T hi) sh -> T <= T' -> Forall (newer T' hi) sh.
Proof using HN.
  intros H HT. eapply Forall_impl; [exact H|]. intros s (lo' & hi' & H1 & H2 & H3).
  exists lo', hi'. split; [done|]. split; [lia|]. later.
Qed.

(** ** A level whose neighbour below does not spill *)
Lemma pending_idle T j fb :
  ~ spills N j (T + 1) -> (S j < N)%nat -> pending_ok T (S j) fb -> pending_ok (T + 1) (S j) fb.
Proof using HN.
  intros Hn Hj H. destruct (low_same N j T Hn) as [E1 E2].
  assert (Hn' : ~ spills N (S j) (T + 1)) by (by intros ?%spills_below).
  destruct (low_same N (S j) T Hn') as [E3 _].
  assert (Hd : ~ (half j | T + 1)) by (intros D; apply Hn; by split).
  cbn in *. destruct fb as [|c s sh keep|o]; [|rewrite lastSpill_same, E1, E2, E3 by done|done].
  - destruct (decide (T + 1 = half j)) as [E|]; [|lia]. destruct Hd. rewrite E. apply Z.divide_refl.
  - destruct H as (H1 & H2 & H3 & H4). split; [later|]. split; [done|].
    split; [later|]. eapply newer_later; [done|lia].
Qed.
Lemma level_idle T j l :
  ~ spills N j (T + 1) -> (S j < N)%nat -> level_ok T (S j) l -> level_ok (T + 1) (S j) l.
Proof using HN.
  intros Hn Hj (H1 & H2 & H3 & H4). destruct (low_same N j T Hn) as [E1 E2].
  assert (Hn' : ~ spills N (S j) (T + 1)) by (by intros ?%spills_below).
  destruct (low_same N (S j) T Hn') as [E3 E4]. split; [done|]. cbn [BucketHistory.topCurr] in *.
  rewrite E2, E3, E4. split; [later|]. split; [later|].
  by apply pending_idle.
Qed.

(** ** A level that spills, or not, itself *)
Definition snapped (T : Z) (i : nat) (l : BucketLevel) : BucketLevel :=
  if bool_decide (spills N i T) then (snapLevel l).2 else l.
Lemma snapped_ok T i l :
  0 <= T -> level_ok T i l ->
  covers (T + 1) (mSnap (snapped (T + 1) i l)) (lowSnap i (T + 1)) (lowCurr i (T + 1)) /\
  covers (T + 1) (mCurr (snapped (T + 1) i l)) (lowCurr i (T + 1)) (topCurr i T) /\
  mNextCurr (snapped (T + 1) i l) = mNextCurr l /\ mLevel (snapped (T + 1) i l) = Z.of_nat i.
Proof using HN.
  intros HT (H1 & H2 & H3 & H4). unfold snapped. case_bool_decide as Hs; cbn.
  - rewrite lowSnap_spill, lowCurr_spill by done.
    split; [later|]. split; [apply covers_nil|done].
  - destruct (low_same N i T Hs) as [-> ->].
    split; [later|]. split; [later|done].
Qed.

(** ** A level whose neighbour below spills *)
Lemma commit_ok T j l :
  0 <= T -> (S j < N)%nat -> spills N j (T + 1) -> level_ok T (S j) l ->
  exists l', commitLevel (snapped (T + 1) (S j) l) = Ok l' /\ mLevel l' = Z.of_nat (S j) /\
    mNextCurr l' = FB_CLEAR /\
    covers (T + 1) (mCurr l') (lowCurr (S j) (T + 1)) (lowSnap j (T + 1)) /\
    covers (T + 1) (mSnap l') (lowSnap (S j) (T + 1)) (lowCurr (S j) (T + 1)).
Proof using HN.
  intros HT Hj Hs Hl. destruct (snapped_ok T (S j) l HT Hl) as (S1 & S2 & S3 & S4).
  destruct Hl as (_ & _ & _ & Hp). rewrite (lowSnap_spill N j T Hs).
  unfold commitLevel. rewrite S3. set (l' := snapped (T + 1) (S j) l) in *.
  pose proof (low_ordered N j T HT) as Hord. cbn [pending_ok BucketHistory.topCurr] in *.
  pose proof (lastSpill_before j T (proj2 Hs)) as Hb.
  destruct (mNextCurr l) as [|c s sh keep|o] eqn:En; [| |done]; cbn [isLive resolve].
  - exists l'. split; [done|]. split; [done|]. split; [done|]. split; [|done].
    enough (lowCurr j T = lowSnap j T) as -> by done. unfold BucketHistory.lowCurr, BucketHistory.lowSnap.
    pose proof (lastSpill_bounds j T HT). pose proof (offset_pos j). case_bool_decide; lia.
  - destruct Hp as (P1 & P2 & P3 & P4).
    replace (lastSpill j T + half j) with (T + 1) in * by lia.
    set (lo := if bool_decide _ then _ else _) in *.
    assert (Elo : lo = lowCurr (S j) (T + 1)).
    { unfold lo. case_bool_decide as Hs'; [by rewrite lowCurr_spill|].
      by destruct (low_same N (S j) T Hs') as [-> _]. }
    destruct (covers_merge batches T c s sh keep lo (lowSnap j T) (lowCurr j T)) as (b & Hm & Hc); try done.
    { unfold lo. pose proof (low_ordered N (S j) T HT) as Hord'. cbn in Hord'. case_bool_decide; lia. }
    { lia. }
    rewrite Hm. cbn. eexists. split; [done|]. cbn. split; [done|]. split; [done|].
    rewrite <- Elo in *. split; [later|done].
Qed.
Lemma prepare_ok T j l snap shadows :
  0 <= T < 2 ^ 31 -> (S j < N)%nat -> spills N j T ->
  mLevel l = Z.of_nat (S j) -> mNextCurr l = FB_CLEAR ->
  covers T (mCurr l) (lowCurr (S j) T) (lowSnap j T) ->
  covers T (mSnap l) (lowSnap (S j) T) (lowCurr (S j) T) ->
  covers T snap (lowSnap j T) (lowCurr j T) -> Forall (newer T (lowCurr j T)) shadows ->
  exists l', prepare (Z.of_nat N) T snap shadows l = Ok l' /\ level_ok T (S j) l'.
Proof using HN.
  intros HT Hj Hs El En Hc Hsn Hsnap Hsh. unfold prepare. rewrite En, El. cbn [isMerging negb].
  pose proof (half_bound j ltac:(lia)). pose proof (half_pos j).
  replace (Z.of_nat (S j) =? 0) with false by (symmetry; apply Z.eqb_neq; lia). cbn [negb andb].
  replace (Z.of_nat (S j) - 1) with (Z.of_nat j) by lia. rewrite levelHalf_half by lia.
  unfold u32. rewrite Z.mod_small by lia. rewrite levelShouldSpill_iff by lia.
  eexists. split; [reflexivity|]. split; [done|]. cbn [mCurr mSnap mNextCurr BucketHistory.topCurr].
  split; [done|]. split; [done|]. cbn [pending_ok]. rewrite lastSpill_at by apply Hs.
  split; [|split; [|done]]; case_bool_decide as Hk; try done; try apply covers_nil.
  - left. unfold keepDeadEntries. apply Z.ltb_lt. destruct Hk. lia.
  - unfold keepDeadEntries. destruct (Z.ltb_spec (Z.of_nat (S j)) (Z.of_nat N - 1)); [by left|right].
    unfold BucketHistory.lowCurr. rewrite bool_decide_eq_false_2; [done|lia].
Qed.

(** ** The loop *)
Definition bucketsOf (mLevels : list BucketLevel) : list Bucket := concat (List.map levelBuckets mLevels).
Lemma bucketsOf_take L i l :
  L !! i = Some l -> bucketsOf (take (S i) L) = bucketsOf (take i L) ++ [mCurr l; mSnap l].
Proof using HN.
  intros H. unfold bucketsOf. rewrite (take_S_r _ _ _ H), List.map_app, List.concat_app. done.
Qed.
Lemma pop_back_two (bs : list Bucket) x y : pop_back (pop_back (bs ++ [x; y])) = bs.
Proof using HN.
  unfold pop_back. replace (bs ++ [x; y]) with ((bs ++ [x]) ++ [y]) by by rewrite <- app_assoc.
  by rewrite !removelast_last.
Qed.
Lemma two_shadows (bs : list Bucket) x y : Nat.leb 2 (length (bs ++ [x; y])) = true.
Proof using. by rewrite length_app, Nat.add_comm. Qed.
Lemma shadows_newer T L j :
  0 <= T -> list_ok T L -> Forall (newer T (topCurr j T)) (bucketsOf (take j L)).
Proof using HN.
  intros HT [Hlen HL]. unfold bucketsOf. apply Forall_concat, Forall_map, Forall_forall.
  intros l [i Hi]%list_elem_of_lookup. apply lookup_take_Some in Hi as [Hi Hij].
  destruct (HL i l Hi) as (_ & H2 & H3 & _).
  pose proof (low_ordered N i T HT) as Hord. pose proof (topCurr_le N (S i) j T HT ltac:(lia)) as Htop.
  pose proof (topCurr_le N 0 i T HT ltac:(lia)) as Htop0. cbn [BucketHistory.topCurr] in Htop, Htop0.
  constructor; [|constructor; [|constructor]].
  - exists (lowCurr i T), (topCurr i T). split; [lia|]. by split; [lia|].
  - exists (lowSnap i T), (lowCurr i T). split; [lia|]. by split; [lia|].
Qed.
Lemma spillLoop_ok T L :
  0 <= T -> T + 1 < 2 ^ 31 -> list_ok T L -> forall i M,
  (i < N)%nat -> length M = N ->
  (forall m, (m < i)%nat -> M !! m = L !! m) -> M !! i = snapped (T + 1) i <$> L !! i ->
  (forall m l, (i < m)%nat -> M !! m = Some l -> level_ok (T + 1) m l) ->
  exists M', spillLoop (Z.of_nat N) (T + 1) i (bucketsOf (take i L)) M = Ok ([], M') /\ length M' = N /\
    M' !! 0%nat = snapped (T + 1) 0 <$> L !! 0%nat /\
    forall m l, (0 < m)%nat -> M' !! m = Some l -> level_ok (T + 1) m l.
Proof using HN.
  intros HT HT1 HL. pose proof HL as [Hlen Hok].
  induction i as [|j IH]; intros M Hi HM Hbelow Hat Habove; cbn [spillLoop]; [by exists M|].
  destruct (lookup_lt_is_Some_2 L j ltac:(lia)) as [lj Hj].
  destruct (lookup_lt_is_Some_2 L (S j) ltac:(lia)) as [l Hl].
  rewrite (bucketsOf_take L j lj Hj), two_shadows, pop_back_two. cbn [cassert mbind outcome_bind].
  rewrite levelShouldSpill_iff by lia. rewrite Hl in Hat. cbn in Hat.
  assert (HMj : M !! j = Some lj) by (rewrite Hbelow by lia; done).
  case_bool_decide as Hs.
  - unfold spillLevel, getLevel. rewrite HMj. cbn [mret outcome_ret mbind outcome_bind snapLevel].
    rewrite list_lookup_insert_ne, Hat by lia.
    destruct (commit_ok T j l HT ltac:(lia) Hs (Hok _ _ Hl)) as (l1 & C1 & C2 & C3 & C4 & C5).
    cbn [mret outcome_ret mbind outcome_bind]. rewrite C1. cbn [mbind outcome_bind].
    destruct (Hok _ _ Hj) as (_ & J2 & _ & _).
    destruct (prepare_ok (T + 1) j l1 (mCurr lj) (bucketsOf (take j L))) as (l2 & P1 & P2); try done; try lia.
    { rewrite lowSnap_spill, lowCurr_spill by done. later. }
    { rewrite lowCurr_spill by done. eapply newer_later; [by apply shadows_newer|lia]. }
    rewrite P1. cbn [mret outcome_ret mbind outcome_bind].
    apply IH; [lia|by rewrite !length_insert|..].
    + intros m Hm. rewrite !list_lookup_insert_ne by lia. apply Hbelow. lia.
    + rewrite list_lookup_insert_ne, list_lookup_insert_eq by (rewrite ?HM; lia). rewrite Hj. cbn.
      unfold snapped. by rewrite bool_decide_eq_true_2.
    + intros m l' Hm. destruct (decide (m = S j)) as [->|].
      * rewrite list_lookup_insert_eq by (rewrite length_insert, HM; lia). by intros [= <-].
      * rewrite !list_lookup_insert_ne by lia. apply Habove. lia.
  - cbn [mret outcome_ret mbind outcome_bind]. apply IH; [lia|done|intros m Hm; apply Hbelow; lia|..].
    + rewrite HMj, Hj. cbn. unfold snapped. by rewrite bool_decide_eq_false_2.
    + intros m l' Hm E. destruct (decide (m = S j)) as [->|]; [|apply Habove; [lia|done]].
      unfold snapped in Hat. rewrite bool_decide_eq_false_2 in Hat by (by intros ?%spills_below).
      rewrite Hat in E. injection E as <-. apply level_idle; [done|lia|]. by apply Hok.
Qed.

(** ** A batch *)
Lemma level0_ok T l b :
  0 <= T -> level_ok T 0 l -> covers (T + 1) b T (T + 1) ->
  exists l1 l2, prepare (Z.of_nat N) (T + 1) b [] (snapped (T + 1) 0 l) = Ok l1 /\
    commitLevel l1 = Ok l2 /\ level_ok (T + 1) 0 l2.
Proof using HN.
  intros HT Hl Hb. destruct (snapped_ok T 0 l HT Hl) as (S1 & S2 & S3 & S4).
  destruct Hl as (_ & _ & _ & Hp). set (l' := snapped (T + 1) 0 l) in *. cbn in Hp. rewrite Hp in S3.
  pose proof (low_ordered N 0 (T + 1) ltac:(lia)) as Hord. cbn [BucketHistory.topCurr] in *.
  assert (Hle : lowCurr 0 (T + 1) <= T).
  { unfold BucketHistory.lowCurr. pose proof (lastSpill_bounds 0 (T + 1) ltac:(lia)).
    cbn [offset]. case_bool_decide; lia. }
  destruct (covers_merge batches (T + 1) (mCurr l') b [] (keepDeadEntries (Z.of_nat N) (mLevel l'))
              (lowCurr 0 (T + 1)) T (T + 1)) as (b' & M1 & M2); [done|done|lia|lia|done| |].
  { rewrite S4. unfold keepDeadEntries. destruct (Z.ltb_spec (Z.of_nat 0) (Z.of_nat N - 1)); [by left|right].
    unfold BucketHistory.lowCurr. rewrite bool_decide_eq_false_2; [done|lia]. }
  unfold prepare. rewrite S3. cbn [isMerging negb cassert mbind outcome_bind mret outcome_ret].
  eexists. eexists. split; [reflexivity|].
  replace (negb (mLevel l' =? 0)) with false by by rewrite S4. cbn [andb].
  unfold commitLevel. cbn [mNextCurr isLive resolve]. rewrite M1. split; [reflexivity|]. done.
Qed.
Theorem addBatch_ok T L :
  0 <= T -> T + 1 < 2 ^ 31 -> list_ok T L ->
  exists L', addBatch (Z.of_nat N) (T + 1) (batches (T + 1)).1 (batches (T + 1)).2 L = Ok L' /\
    list_ok (T + 1) L'.
Proof using HN batches_ok.
  intros HT HT1 HL. pose proof HL as [Hlen Hok]. unfold addBatch.
  rewrite (cassert_true "currLedger > 0") by (apply Z.ltb_lt; lia). cbn [mbind outcome_bind].
  destruct (lookup_lt_is_Some_2 L (N - 1) ltac:(lia)) as [l Hl].
  change (concat (List.map levelBuckets L)) with (bucketsOf L).
  assert (EL : bucketsOf L = bucketsOf (take (N - 1) L) ++ [mCurr l; mSnap l]).
  { rewrite <- (bucketsOf_take L _ l Hl), take_ge; [done|lia]. }
  rewrite EL, pop_back_two, two_shadows.
  cbn [cassert mbind outcome_bind].
  destruct (spillLoop_ok T L HT HT1 HL (N - 1) L) as (M & H1 & H2 & H3 & H4); try done; try lia.
  { rewrite Hl. cbn. unfold snapped. rewrite bool_decide_eq_false_2; [done|]. intros [? _]. lia. }
  { intros m x Hm E. apply lookup_lt_Some in E. lia. }
  rewrite Hlen, H1. cbn [mbind outcome_bind length Nat.eqb cassert].
  destruct (batches_ok (T + 1)) as [Bl Bd].
  destruct (covers_fresh batches (T + 1) Bl Bd) as (b & F1 & F2). rewrite F1.
  cbn [mbind outcome_bind]. replace (T + 1 - 1) with T in F2 by lia.
  destruct (lookup_lt_is_Some_2 L 0 ltac:(lia)) as [l0 Hl0]. rewrite Hl0 in H3. cbn in H3.
  destruct (level0_ok T l0 b HT (Hok _ _ Hl0) F2) as (l1 & l2 & P1 & P2 & P3).
  unfold getLevel. rewrite H3. cbn [mret outcome_ret mbind outcome_bind]. rewrite P1.
  cbn [mbind outcome_bind]. rewrite P2. cbn [mbind outcome_bind]. eexists. split; [reflexivity|].
  split; [by rewrite length_insert|]. intros i x Hi. destruct i as [|i].
  - rewrite list_lookup_insert_eq in Hi by lia. by injection Hi as <-.
  - rewrite list_lookup_insert_ne in Hi by lia. apply H4; [lia|done].
Qed.

(** ** The batches of all ledgers up to [T] *)
Fixpoint closeLedgers (T : nat) : outcome (list BucketLevel) :=
  match T with
  | O => Ok (newBucketList (Z.of_nat N))
  | S t =>
      L ← closeLedgers t;
      let T := Z.of_nat (S t) in addBatch (Z.of_nat N) T (batches T).1 (batches T).2 L
  end.
Lemma ranges_0 i : lowCurr i 0 = 0 /\ lowSnap i 0 = 0 /\ topCurr i 0 = 0.
Proof using HN.
  pose proof (low_ordered N i 0 ltac:(lia)). pose proof (topCurr_le N 0 i 0 ltac:(lia) ltac:(lia)) as H'.
  cbn in H'. lia.
Qed.
Lemma newBucketList_ok : list_ok 0 (newBucketList (Z.of_nat N)).
Proof using HN.
  unfold newBucketList. split; [rewrite List.length_map, length_seq; lia|].
  intros i l Hl. apply list_lookup_fmap_Some in Hl as (m & -> & Hm). apply lookup_seq in Hm as [-> Hm].
  destruct (ranges_0 i) as (E1 & E2 & E3). unfold level_ok. rewrite E1, E2, E3.
  split; [done|]. split; [apply covers_nil|]. split; [apply covers_nil|]. destruct i; cbn; [done|]. apply half_pos.
Qed.
Lemma closeLedgers_ok T :
  Z.of_nat T < 2 ^ 31 -> exists L, closeLedgers T = Ok L /\ list_ok (Z.of_nat T) L.
Proof using HN batches_ok.
  induction T as [|T IH]; intros HT; cbn [closeLedgers].
  { eexists. split; [done|]. apply newBucketList_ok. }
  destruct (IH ltac:(lia)) as (L & -> & HL). cbn [mbind outcome_bind].
  replace (Z.of_nat (S T)) with (Z.of_nat T + 1) in * by lia. apply addBatch_ok; [lia|done..].
Qed.
End Invariant.
