(* ===== verification/BucketSizes.v ===== *)
(** [sizeOfCurr], [sizeOfSnap] and [oldestLedgerIn...] compute the ranges of
    [BucketHistory], and their recursion ends. *)

From S2P Require Import Prelude Types Sorting Buckets BucketList BucketHistory.

Lemma offset_half i : offset i < half i.
Proof.
  induction i as [|i IH]; [done|]. cbn [offset]. rewrite half_S. pose proof (half_pos i). lia.
Qed.
Lemma mask_zero i T :
  (i < 15)%nat -> 0 <= T < 2 ^ 32 -> (mask T (levelHalf (Z.of_nat i)) =? 0) = (T <? half i).
Proof.
  intros Hi HT. rewrite mask_half by done. fold (lastSpill i T).
  pose proof (lastSpill_bounds i T ltac:(lia)). pose proof (lastSpill_divide i T) as [q Hq].
  pose proof (half_pos i). destruct (Z.eqb_spec (lastSpill i T) 0), (Z.ltb_spec T (half i)); try done; exfalso; [lia|].
  assert (0 < q) by (apply (Z.mul_pos_cancel_r q (half i)); lia). nia.
Qed.
Lemma mask_size_zero i T :
  (i < 15)%nat -> 0 <= T < 2 ^ 32 -> (mask T (levelSize (Z.of_nat i)) =? 0) = (T <? 2 * half i).
Proof.
  intros Hi HT. rewrite mask_size by done. pose proof (half_pos i).
  pose proof (Z.mod_pos_bound T (2 * half i) ltac:(lia)).
  pose proof (Z.div_mod T (2 * half i) ltac:(lia)).
  destruct (Z.eqb_spec (T - T mod (2 * half i)) 0), (Z.ltb_spec T (2 * half i)); try done; [nia|].
  rewrite Z.mod_small in * by lia. lia.
Qed.
(** Is [T] a multiple of the half? *)
Lemma mask_self i T :
  (i < 15)%nat -> 0 <= T < 2 ^ 32 ->
  (mask T (levelHalf (Z.of_nat i)) =? T) || (mask T (levelSize (Z.of_nat i)) =? T)
  = bool_decide (half i | T).
Proof.
  intros Hi HT. pose proof (half_pos i). rewrite mask_half, mask_size by done.
  assert (Hm : forall m, 0 < m -> (T - T mod m =? T) = (T mod m =? 0)).
  { intros m Hm. destruct (Z.eqb_spec (T mod m) 0), (Z.eqb_spec (T - T mod m) T); lia. }
  rewrite !Hm by lia. destruct (Z.eqb_spec (T mod half i) 0) as [E|E]; cbn.
  - rewrite bool_decide_eq_true_2; [done|]. by apply Z.mod_divide; [lia|].
  - assert (Hd : ~ (half i | T)) by (intros D%Z.mod_divide; lia).
    rewrite bool_decide_eq_false_2 by done. apply Z.eqb_neq. intros E'.
    apply Z.mod_divide in E' as [q ->]; [|lia]. apply Hd. exists (q * 2). lia.
Qed.
(** The last ledger that changed level [j + 1]. *)
Lemma previous_relevant j T :
  (S j < 15)%nat -> 1 <= T < 2 ^ 32 ->
  Z.max (Z.max (mask (T - 1) (levelHalf (Z.of_nat j))) (mask (T - 1) (levelSize (Z.of_nat j))))
        (Z.max (mask (T - 1) (levelHalf (Z.of_nat (S j)))) (mask (T - 1) (levelSize (Z.of_nat (S j)))))
  = lastSpill j (T - 1).
Proof.
  intros Hj HT. rewrite !mask_half, !mask_size by lia. fold (lastSpill j (T - 1)) (lastSpill (S j) (T - 1)).
  pose proof (lastSpill_le j (T - 1) ltac:(lia)).
  assert (Hs : forall i, T - 1 - (T - 1) mod (2 * half i) <= lastSpill i (T - 1)).
  { intros i. pose proof (half_pos i). unfold lastSpill.
    rewrite Z.mul_comm, (Z.rem_mul_r (T - 1) (half i) 2) by lia.
    pose proof (Z.mod_pos_bound ((T - 1) / half i) 2 ltac:(lia)). nia. }
  pose proof (Hs j). pose proof (Hs (S j)). lia.
Qed.

Lemma lastSpill_idem i T : lastSpill i (lastSpill i T) = lastSpill i T.
Proof. apply lastSpill_at, lastSpill_divide. Qed.

Section Sizes.
Context (N : nat).
Abbreviation lowCurr := (lowCurr N).
Abbreviation lowSnap := (lowSnap N).
Abbreviation topCurr := (topCurr N).

(** ** Specification *)
Definition curr_size (T : Z) (i : nat) : Z := topCurr i T - lowCurr i T.
Definition snap_size (T : Z) (i : nat) : Z := lowCurr i T - lowSnap i T.
Lemma sizes_range T i : 0 <= T -> 0 <= curr_size T i <= T /\ 0 <= snap_size T i <= T.
Proof using.
  intros HT. unfold curr_size, snap_size. pose proof (low_ordered N i T HT).
  pose proof (topCurr_le N 0 i T HT ltac:(lia)) as Ht. cbn [BucketHistory.topCurr] in Ht. lia.
Qed.
Lemma lowCurr_early T i : 0 <= T < half i -> lowCurr i T = 0.
Proof using.
  intros HT. unfold BucketHistory.lowCurr. rewrite (lastSpill_unique i T 0) by (try apply Z.divide_0_r; lia).
  pose proof (offset_pos i). case_bool_decide; lia.
Qed.
Lemma lowSnap_early T i : 0 <= T < 2 * half i -> lowSnap i T = 0.
Proof using.
  intros HT. unfold BucketHistory.lowSnap. pose proof (offset_pos i).
  pose proof (lastSpill_bounds i T ltac:(lia)). pose proof (lastSpill_divide i T) as [q Hq].
  pose proof (half_pos i).
  assert (q < 2) by (apply (Z.mul_lt_mono_pos_r (half i)); lia).
  assert (lastSpill i T <= half i) by nia. case_bool_decide; lia.
Qed.
Lemma snap_size_full T i : (S i < N)%nat -> 2 * half i <= T -> snap_size T i = half i.
Proof using.
  intros Hi HT. unfold snap_size, BucketHistory.lowCurr, BucketHistory.lowSnap. pose proof (half_pos i).
  rewrite bool_decide_eq_true_2 by done. pose proof (offset_half i). pose proof (offset_pos i).
  pose proof (lastSpill_bounds i T ltac:(lia)). pose proof (lastSpill_divide i T) as [q Hq].
  assert (1 < q) by (apply (Z.mul_lt_mono_pos_r (half i)); lia).
  assert (2 * half i <= lastSpill i T) by nia. lia.
Qed.
Lemma curr_size_spill T j :
  spills N (S j) T -> half (S j) <= T -> curr_size T (S j) = half j.
Proof using.
  intros [Hj Hs] HT. unfold curr_size, BucketHistory.lowCurr. cbn [BucketHistory.topCurr].
  unfold BucketHistory.lowSnap. rewrite !bool_decide_eq_true_2 by lia.
  rewrite (lastSpill_at j) by by apply half_divide. rewrite lastSpill_at by done. pose proof (offset_half (S j)).
  pose proof (half_S j). pose proof (half_pos j). pose proof (offset_half j). cbn [offset] in *. lia.
Qed.
(** Between two spills of level [j + 1]: what the previous spill of [j] left,
    and one half more when [j] spills at [T]. *)
Lemma curr_size_step T j :
  (S (S j) < N)%nat -> half (S j) <= T -> ~ (half (S j) | T) ->
  let prev := lastSpill j (T - 1) in
  half (S j) <= prev < T /\ lastSpill (S j) prev = lastSpill (S j) T /\
  curr_size T (S j) = curr_size prev (S j) + (if bool_decide (half j | T) then half j else 0).
Proof using.
  intros Hj HT Hn prev. pose proof (half_pos j). pose proof (half_S j) as HS.
  pose proof (lastSpill_bounds j (T - 1) ltac:(lia)) as Hb. fold prev in Hb.
  pose proof (lastSpill_divide j (T - 1)) as [p Hp]. fold prev in Hp.
  pose proof (lastSpill_bounds (S j) T ltac:(lia)) as Hb'.
  pose proof (half_divide _ _ (lastSpill_divide (S j) T)) as [q Hq].
  assert (Hlt : lastSpill (S j) T < T).
  { destruct (decide (lastSpill (S j) T = T)) as [E|]; [|lia]. destruct Hn.
    rewrite <- E. apply lastSpill_divide. }
  assert (Hprev : lastSpill (S j) T <= prev).
  { assert (q < p + 1); [apply (Z.mul_lt_mono_pos_r (half j)); lia|]. rewrite Hp, Hq.
    apply Z.mul_le_mono_nonneg_r; lia. }
  assert (Hge : half (S j) <= lastSpill (S j) T).
  { pose proof (lastSpill_divide (S j) T) as [r Hr]. pose proof (half_pos (S j)).
    assert (0 < r) by nia. nia. }
  assert (E2 : lastSpill (S j) prev = lastSpill (S j) T).
  { apply lastSpill_unique; [apply lastSpill_divide|lia]. }
  split; [lia|]. split; [done|].
  unfold curr_size, BucketHistory.lowCurr. cbn [BucketHistory.topCurr]. unfold BucketHistory.lowSnap.
  rewrite !bool_decide_eq_true_2, E2 by lia.
  replace (lastSpill j prev) with prev by (symmetry; apply lastSpill_idem).
  pose proof (offset_half j). pose proof (offset_half (S j)). pose proof (offset_pos j).
  case_bool_decide as Hd.
  - rewrite (lastSpill_at j T) by done.
    assert (prev = T - half j).
    { unfold prev. rewrite lastSpill_before; [lia|]. by replace (T - 1 + 1) with T by lia. }
    assert (half (S j) <= prev) by lia. lia.
  - assert (lastSpill j T = prev) as ->; [|lia].
    unfold prev. replace T with (T - 1 + 1) at 1 by lia. apply lastSpill_same.
    by replace (T - 1 + 1) with T by lia.
Qed.

(** ** The recursion *)
Hypothesis HN : (2 <= N <= 15)%nat.
Definition sumBelow (f g : Z -> option Z) (i : nat) : option Z :=
  fold_left (fun acc l => size ← acc; c ← f (Z.of_nat l); s ← g (Z.of_nat l); Some (u32 (u32 (size + c) + s)))
    (seq 0 i) (Some 0).
Lemma sumBelow_spec T f g i :
  0 <= T < 2 ^ 32 ->
  (forall l, (l < i)%nat -> f (Z.of_nat l) = Some (curr_size T l) /\ g (Z.of_nat l) = Some (snap_size T l)) ->
  sumBelow f g i = Some (T - topCurr i T).
Proof using HN.
  intros HT. unfold sumBelow. induction i as [|i IH]; intros H; cbn [BucketHistory.topCurr].
  { cbn. f_equal. lia. }
  rewrite seq_S, fold_left_app, IH by (intros; apply H; lia). cbn [fold_left mbind option_bind Nat.add].
  destruct (H i ltac:(lia)) as [-> ->]. cbn [mbind option_bind]. unfold curr_size, snap_size.
  pose proof (low_ordered N i T ltac:(lia)). pose proof (topCurr_le N 0 i T ltac:(lia) ltac:(lia)) as Ht.
  cbn [BucketHistory.topCurr] in Ht. unfold u32. change 4294967296 with (2 ^ 32).
  rewrite (Z.mod_small (T - topCurr i T + (topCurr i T - lowCurr i T))) by lia.
  rewrite Z.mod_small by lia. f_equal. lia.
Qed.
Lemma sizeOfCurrWith_S fuel T level :
  sizeOfCurrWith (Z.of_nat N) (S fuel) T level =
  let below := sumBelow (sizeOfCurrWith (Z.of_nat N) fuel T) (sizeOfSnapWith (Z.of_nat N) fuel T)
                 (Z.to_nat level) in
  if level =? 0 then Some (if T =? 1 then 1 else 1 + Z.rem T 2)
  else
    if negb (level =? Z.of_nat N - 1) && negb (mask T (levelHalf level) =? 0) then
      let sizeDelta := u32 (Z.shiftl 1 (2 * level - 1)) in
      if (mask T (levelHalf level) =? T) || (mask T (levelSize level) =? T) then Some sizeDelta
      else
        c ← sizeOfCurrWith (Z.of_nat N) fuel
              (Z.max (Z.max (mask (T - 1) (levelHalf (level - 1))) (mask (T - 1) (levelSize (level - 1))))
                     (Z.max (mask (T - 1) (levelHalf level)) (mask (T - 1) (levelSize level)))) level;
        Some (if (mask T (levelHalf (level - 1)) =? T) || (mask T (levelSize (level - 1)) =? T)
              then u32 (c + sizeDelta) else c)
    else blsize ← below; Some (u32 (T - blsize)).
Proof using HN. reflexivity. Qed.
Lemma sizeOfSnapWith_S fuel T level :
  sizeOfSnapWith (Z.of_nat N) (S fuel) T level =
  let below := sumBelow (sizeOfCurrWith (Z.of_nat N) fuel T) (sizeOfSnapWith (Z.of_nat N) fuel T)
                 (Z.to_nat level) in
  if level =? Z.of_nat N - 1 then Some 0
  else if negb (mask T (levelSize level) =? 0) then Some (levelHalf level)
  else size ← below; c ← sizeOfCurrWith (Z.of_nat N) fuel T level; Some (u32 (T - u32 (size + c))).
Proof using HN. reflexivity. Qed.

Lemma u32_below v : 0 <= v < 2 ^ 32 -> u32 v = v.
Proof using HN. intros H. by apply Z.mod_small. Qed.
Lemma curr_size_0 T : 1 <= T -> curr_size T 0 = if T =? 1 then 1 else 1 + Z.rem T 2.
Proof using HN.
  intros HT. unfold curr_size, BucketHistory.lowCurr, lastSpill. cbn [BucketHistory.topCurr offset].
  rewrite bool_decide_eq_true_2 by lia. change (half 0) with 2.
  rewrite Z.rem_mod_nonneg by lia. pose proof (Z.mod_pos_bound T 2 ltac:(lia)).
  destruct (Z.eqb_spec T 1) as [->|]; [done|]. pose proof (Z.div_mod T 2 ltac:(lia)). lia.
Qed.
(** Enough fuel: [n] more rounds at the same level. *)
Definition rounds (T : Z) (i n : nat) : Prop :=
  match i with O => True | S j => T <= lastSpill i T + Z.of_nat n * half j end.
Definition curr_fuel (fuel : nat) : Prop := forall T i n,
  (i < N)%nat -> 1 <= T < 2 ^ 32 -> rounds T i n -> (6 * i + 2 + n <= fuel)%nat ->
  sizeOfCurrWith (Z.of_nat N) fuel T (Z.of_nat i) = Some (curr_size T i).
Definition snap_fuel (fuel : nat) : Prop := forall T i,
  (i < N)%nat -> 1 <= T < 2 ^ 32 -> (6 * i + 7 <= fuel)%nat ->
  sizeOfSnapWith (Z.of_nat N) fuel T (Z.of_nat i) = Some (snap_size T i).
Lemma rounds_4 T i : 0 <= T -> rounds T i 4.
Proof using HN.
  intros HT. destruct i as [|j]; cbn; [done|]. pose proof (lastSpill_bounds (S j) T HT).
  rewrite half_S in *. lia.
Qed.
Lemma below_spec fuel T i :
  curr_fuel fuel -> snap_fuel fuel -> (i < N)%nat -> 1 <= T < 2 ^ 32 -> (6 * i + 1 <= fuel)%nat ->
  sumBelow (sizeOfCurrWith (Z.of_nat N) fuel T) (sizeOfSnapWith (Z.of_nat N) fuel T)
    (Z.to_nat (Z.of_nat i)) = Some (T - topCurr i T).
Proof using HN.
  intros Hc Hs Hi HT Hf. rewrite Nat2Z.id. apply sumBelow_spec; [lia|]. intros l Hl. split.
  - apply (Hc T l 4%nat); [lia|lia|by apply rounds_4; lia|lia].
  - apply Hs; lia.
Qed.
Lemma curr_fuel_step fuel : curr_fuel fuel -> snap_fuel fuel -> curr_fuel (S fuel).
Proof using HN.
  intros Hc Hs T i n Hi HT Hr Hf. rewrite sizeOfCurrWith_S. cbv zeta.
  destruct i as [|j]; [by rewrite curr_size_0 by lia|].
  replace (Z.of_nat (S j) =? 0) with false by (symmetry; apply Z.eqb_neq; lia).
  rewrite mask_zero by lia.
  replace (negb (Z.of_nat (S j) =? Z.of_nat N - 1)) with (bool_decide (S (S j) < N)%nat).
  2:{ case_bool_decide; destruct (Z.eqb_spec (Z.of_nat (S j)) (Z.of_nat N - 1)); cbn; try done; lia. }
  case_bool_decide as HjN; cbn [andb negb].
  2:{ rewrite below_spec by (done || lia). cbn. unfold curr_size, BucketHistory.lowCurr.
      rewrite bool_decide_eq_false_2 by done. pose proof (sizes_range T (S j) ltac:(lia)) as Hz.
      unfold curr_size, BucketHistory.lowCurr in Hz. rewrite bool_decide_eq_false_2 in Hz by done.
      cbn [BucketHistory.topCurr] in *. rewrite u32_below by lia. f_equal. lia. }
  destruct (Z.ltb_spec T (half (S j))) as [Hlt|Hge]; cbn [negb].
  { rewrite below_spec by (done || lia). cbn. unfold curr_size. rewrite lowCurr_early by lia.
    pose proof (sizes_range T (S j) ltac:(lia)) as Hz. unfold curr_size in Hz.
    rewrite lowCurr_early in Hz by lia. cbn [BucketHistory.topCurr] in *. rewrite u32_below by lia. f_equal. lia. }
  rewrite mask_self by lia.
  replace (Z.of_nat (S j) - 1) with (Z.of_nat j) by lia.
  assert (Ed : u32 (Z.shiftl 1 (2 * Z.of_nat (S j) - 1)) = half j).
  { rewrite Z.shiftl_1_l. replace (2 * Z.of_nat (S j) - 1) with (2 * Z.of_nat j + 1) by lia. fold (half j).
    apply u32_below. pose proof (half_bound j ltac:(lia)). pose proof (half_pos j). lia. }
  rewrite Ed. case_bool_decide as Hd.
  { rewrite curr_size_spill; [done| |done]. by split. }
  rewrite previous_relevant, mask_self by lia.
  destruct (curr_size_step T j HjN Hge Hd) as (S1 & S2 & S3). cbv zeta in *.
  pose proof (half_pos (S j)). pose proof (lastSpill_bounds (S j) T ltac:(lia)).
  destruct n as [|n].
  { exfalso. cbn in Hr. apply Hd. replace T with (lastSpill (S j) T) by lia. apply lastSpill_divide. }
  rewrite (Hc _ (S j) n); [|lia|lia| |lia].
  - cbn. rewrite S3. pose proof (sizes_range T (S j) ltac:(lia)) as Hz.
    case_bool_decide; f_equal; [|lia]. apply u32_below. lia.
  - cbn in *. rewrite S2. pose proof (lastSpill_divide j (T - 1)) as [p Hp].
    pose proof (half_divide _ _ (lastSpill_divide (S j) T)) as [q Hq]. pose proof (half_pos j).
    assert (p < q + Z.of_nat n + 1) by (apply (Z.mul_lt_mono_pos_r (half j)); lia). nia.
Qed.
Lemma snap_fuel_step fuel : curr_fuel fuel -> snap_fuel fuel -> snap_fuel (S fuel).
Proof using HN.
  intros Hc Hs T i Hi HT Hf. rewrite sizeOfSnapWith_S. cbv zeta.
  destruct (Z.eqb_spec (Z.of_nat i) (Z.of_nat N - 1)).
  { unfold snap_size, BucketHistory.lowCurr, BucketHistory.lowSnap. rewrite bool_decide_eq_false_2 by lia. done. }
  rewrite mask_size_zero by lia. destruct (Z.ltb_spec T (2 * half i)); cbn [negb].
  - rewrite below_spec by (done || lia). cbn.
    rewrite (Hc T i 4%nat) by (try apply rounds_4; lia). cbn.
    pose proof (sizes_range T i ltac:(lia)) as Hz. unfold curr_size, snap_size in *.
    rewrite lowSnap_early in * by lia.
    pose proof (topCurr_le N 0 i T ltac:(lia) ltac:(lia)) as Ht. cbn [BucketHistory.topCurr] in Ht.
    rewrite (u32_below (_ + _)) by lia. rewrite u32_below by lia. f_equal. lia.
  - rewrite levelHalf_half by lia. by rewrite snap_size_full by lia.
Qed.
Lemma enough_fuel fuel : curr_fuel fuel /\ snap_fuel fuel.
Proof using HN.
  induction fuel as [|fuel [IHc IHs]]; [split; intros T i; lia|].
  split; [by apply curr_fuel_step|by apply snap_fuel_step].
Qed.

Lemma sizeOfCurr_spec T i :
  (i < N)%nat -> 1 <= T < 2 ^ 32 -> sizeOfCurr (Z.of_nat N) T (Z.of_nat i) = Some (curr_size T i).
Proof using HN.
  intros Hi HT. unfold sizeOfCurr. destruct (enough_fuel (6 * Z.to_nat (Z.of_nat i + 1))) as [H _].
  apply (H T i 4%nat); [done|done|apply rounds_4; lia|lia].
Qed.
Lemma sizeOfSnap_spec T i :
  (i < N)%nat -> 1 <= T < 2 ^ 32 -> sizeOfSnap (Z.of_nat N) T (Z.of_nat i) = Some (snap_size T i).
Proof using HN.
  intros Hi HT. unfold sizeOfSnap. destruct (enough_fuel (1 + 6 * Z.to_nat (Z.of_nat i + 1))) as [_ H].
  apply H; [done|done|lia].
Qed.
Lemma countAbove_spec T i :
  (i <= N)%nat -> 1 <= T < 2 ^ 32 -> countAbove (Z.of_nat N) T (Z.of_nat i) = Some (topCurr i T).
Proof using HN.
  intros Hi HT. unfold countAbove. rewrite Nat2Z.id. induction i as [|i IH]; [done|].
  rewrite seq_S, fold_left_app, IH by lia. cbn [fold_left mbind option_bind Nat.add].
  rewrite sizeOfCurr_spec, sizeOfSnap_spec by lia. cbn [mbind option_bind BucketHistory.topCurr].
  pose proof (sizes_range T i ltac:(lia)) as Hz. unfold curr_size, snap_size in *.
  pose proof (low_ordered N i T ltac:(lia)).
  pose proof (topCurr_le N 0 i T ltac:(lia) ltac:(lia)) as Ht. cbn [BucketHistory.topCurr] in Ht.
  rewrite (u32_below (topCurr i T - _)) by lia. rewrite u32_below by lia. f_equal. lia.
Qed.
Lemma oldestLedgerInCurr_spec T i :
  (i < N)%nat -> 1 <= T < 2 ^ 32 ->
  oldestLedgerInCurr (Z.of_nat N) T (Z.of_nat i)
  = Some (if curr_size T i =? 0 then UINT32_MAX else lowCurr i T + 1).
Proof using HN.
  intros Hi HT. unfold oldestLedgerInCurr. rewrite sizeOfCurr_spec by done. cbn [mbind option_bind].
  destruct (Z.eqb_spec (curr_size T i) 0); [done|]. rewrite countAbove_spec by lia. cbn [mbind option_bind].
  pose proof (low_ordered N i T ltac:(lia)). pose proof (sizes_range T i ltac:(lia)) as Hz.
  pose proof (topCurr_le N 0 i T ltac:(lia) ltac:(lia)) as Ht. cbn [BucketHistory.topCurr] in Ht.
  unfold curr_size in *. rewrite (u32_below (topCurr i T - _)) by lia. rewrite u32_below by lia. f_equal. lia.
Qed.
Lemma oldestLedgerInSnap_spec T i :
  (i < N)%nat -> 1 <= T < 2 ^ 32 ->
  oldestLedgerInSnap (Z.of_nat N) T (Z.of_nat i)
  = Some (if snap_size T i =? 0 then UINT32_MAX else lowSnap i T + 1).
Proof using HN.
  intros Hi HT. unfold oldestLedgerInSnap. rewrite sizeOfSnap_spec by done. cbn [mbind option_bind].
  destruct (Z.eqb_spec (snap_size T i) 0); [done|].
  replace (Z.of_nat i + 1) with (Z.of_nat (S i)) by lia. rewrite countAbove_spec by lia.
  cbn [mbind option_bind BucketHistory.topCurr]. pose proof (low_ordered N i T ltac:(lia)).
  pose proof (topCurr_le N 0 i T ltac:(lia) ltac:(lia)) as Ht. cbn [BucketHistory.topCurr] in Ht.
  unfold snap_size in *. rewrite u32_below by lia. done.
Qed.
End Sizes.
