(* ===== verification/Sums.v ===== *)
(** Sums over finite maps: votes, balances and liabilities of a ledger are
    sums of a measure over its entries, and a change of one entry changes the
    sum by the difference of its measures. *)

From S2P Require Import Prelude.

Section Sums.
Context {K : Type} `{Countable K} {V : Type}.
Implicit Types (f g : K -> V -> Z) (m : gmap K V).

Definition msum f m : Z := map_fold (fun k v acc => f k v + acc) 0 m.

(** The measure of what a key holds. *)
Definition at_key f m (k : K) : Z := from_option (f k) 0 (m !! k).

Lemma msum_empty f : msum f ∅ = 0.
Proof. done. Qed.

Lemma msum_insert_new f m k v :
  m !! k = None -> msum f (<[k := v]> m) = f k v + msum f m.
Proof.
  intros Hk. unfold msum.
  rewrite (map_fold_insert_L (fun k v acc => f k v + acc)); [done| |done].
  intros. lia.
Qed.

Lemma msum_delete f m k : msum f (delete k m) = msum f m - at_key f m k.
Proof.
  unfold at_key. destruct (m !! k) as [v|] eqn:E; cbn.
  - rewrite <- (insert_delete_id m k v E) at 2.
    rewrite msum_insert_new by apply lookup_delete_eq. lia.
  - rewrite delete_id by done. lia.
Qed.

Lemma msum_insert f m k v :
  msum f (<[k := v]> m) = msum f m - at_key f m k + f k v.
Proof.
  rewrite <- insert_delete_eq, msum_insert_new by apply lookup_delete_eq.
  rewrite msum_delete. lia.
Qed.

Lemma msum_ext f g m :
  (forall k v, m !! k = Some v -> f k v = g k v) -> msum f m = msum g m.
Proof.
  induction m as [|k v m Hk IH] using map_ind; [done|]. intros Hfg.
  rewrite !msum_insert_new by done. rewrite IH.
  - by rewrite (Hfg k v) by apply lookup_insert_eq.
  - intros k' v' Hk'. apply Hfg. rewrite lookup_insert_ne; congruence.
Qed.

Lemma msum_nonneg f m :
  (forall k v, m !! k = Some v -> 0 <= f k v) -> 0 <= msum f m.
Proof.
  induction m as [|k v m Hk IH] using map_ind; [done|]. intros Hf.
  rewrite msum_insert_new by done.
  assert (0 <= f k v) by (apply Hf, lookup_insert_eq).
  enough (0 <= msum f m) by lia. apply IH.
  intros k' v' Hk'. apply Hf. rewrite lookup_insert_ne; congruence.
Qed.

Lemma msum_le f g m :
  (forall k v, m !! k = Some v -> f k v <= g k v) -> msum f m <= msum g m.
Proof.
  induction m as [|k v m Hk IH] using map_ind; [done|]. intros Hfg.
  rewrite !msum_insert_new by done.
  assert (f k v <= g k v) by (apply Hfg, lookup_insert_eq).
  enough (msum f m <= msum g m) by lia. apply IH.
  intros k' v' Hk'. apply Hfg. rewrite lookup_insert_ne; congruence.
Qed.

(** One term is at most the sum of nonnegative terms, and two at most. *)
Lemma msum_ge_at f m k :
  (forall k v, m !! k = Some v -> 0 <= f k v) -> at_key f m k <= msum f m.
Proof.
  intros Hf. enough (0 <= msum f (delete k m)) by (rewrite msum_delete in *; lia).
  apply msum_nonneg. intros k' v' Hk'. apply lookup_delete_Some in Hk' as [_ Hk'].
  by apply Hf.
Qed.
Lemma msum_ge_two f m k k' :
  k <> k' -> (forall k v, m !! k = Some v -> 0 <= f k v) ->
  at_key f m k + at_key f m k' <= msum f m.
Proof.
  intros Hne Hf.
  assert (Hd : at_key f (delete k m) k' <= msum f (delete k m)).
  { apply msum_ge_at. intros j v Hj. apply lookup_delete_Some in Hj as [_ Hj].
    by apply Hf. }
  rewrite msum_delete in Hd. unfold at_key at 1 in Hd.
  rewrite lookup_delete_ne in Hd by done. unfold at_key in *. lia.
Qed.

Lemma msum_plus f g m : msum (fun k v => f k v + g k v) m = msum f m + msum g m.
Proof.
  induction m as [|k v m Hk IH] using map_ind; [done|].
  rewrite !msum_insert_new by done. lia.
Qed.
Lemma msum_zero f m : (forall k v, m !! k = Some v -> f k v = 0) -> msum f m = 0.
Proof.
  induction m as [|k v m Hk IH] using map_ind; [done|]. intros Hf.
  rewrite msum_insert_new by done.
  rewrite (Hf k v) by apply lookup_insert_eq. rewrite IH; [done|].
  intros k' v' Hk'. apply Hf. rewrite lookup_insert_ne; congruence.
Qed.
End Sums.

Lemma msum_fmap {K} `{Countable K} {V W} (f : K -> W -> Z) (h : V -> W)
    (m : gmap K V) : msum f (h <$> m) = msum (fun k v => f k (h v)) m.
Proof.
  induction m as [|k v m Hk IH] using map_ind; [by rewrite fmap_empty|].
  rewrite fmap_insert, !msum_insert_new; rewrite ?lookup_fmap, ?Hk; [|done..].
  by rewrite IH.
Qed.

(** Overlaying changes on a base replaces the terms of the changed keys. *)
Section Overlay.
Context {K : Type} `{Countable K} {V : Type}.

Lemma msum_merge_overlay (f : K -> V -> Z) (d : gmap K (option V)) (base : gmap K V) :
  msum f (merge (fun o b => match o with Some oe => oe | None => b end) d base)
  = msum f base
    + msum (fun k oe => from_option (f k) 0 oe - at_key f base k) d.
Proof.
  induction d as [|k oe d Hk IH] using map_ind.
  { rewrite msum_empty, Z.add_0_r. f_equal. apply map_eq. intros k.
    rewrite lookup_merge, lookup_empty. by destruct (base !! k). }
  rewrite msum_insert_new by done.
  set (ov := merge _ d base) in *.
  assert (Hov : ov !! k = base !! k).
  { unfold ov. rewrite lookup_merge, Hk. by destruct (base !! k). }
  assert (E : merge (fun o b => match o with Some oe => oe | None => b end)
                (<[k := oe]> d) base
              = match oe with Some e => <[k := e]> ov | None => delete k ov end).
  { apply map_eq. intros j. rewrite lookup_merge.
    destruct (decide (j = k)) as [->|Hj].
    - rewrite lookup_insert_eq. destruct oe; [by rewrite lookup_insert_eq|].
      rewrite lookup_delete_eq. by destruct (base !! k).
    - rewrite lookup_insert_ne by done.
      transitivity (ov !! j); [unfold ov; by rewrite lookup_merge|].
      destruct oe; [by rewrite lookup_insert_ne|by rewrite lookup_delete_ne]. }
  rewrite E. destruct oe as [e|]; cbn.
  - rewrite msum_insert. unfold at_key at 1. rewrite Hov. unfold at_key in *. lia.
  - rewrite msum_delete. unfold at_key at 1. rewrite Hov. unfold at_key in *. lia.
Qed.
End Overlay.

(** A fold whose step at [k] only touches [k] is pointwise. *)
Lemma lookup_map_fold_pointwise {K} `{Countable K} {A B}
    (f : K -> A -> gmap K B -> gmap K B)
    (g : K -> A -> option B -> option B)
    (m0 : gmap K B) (es : gmap K A) j :
  (forall k x m, f k x m !! k = g k x (m !! k)) ->
  (forall k x m i, i <> k -> f k x m !! i = m !! i) ->
  map_fold f m0 es !! j = match es !! j with
                          | Some x => g j x (m0 !! j)
                          | None => m0 !! j
                          end.
Proof.
  intros Hhit Hmiss.
  apply (map_fold_weak_ind (fun r es => r !! j =
    match es !! j with Some x => g j x (m0 !! j) | None => m0 !! j end)).
  - by rewrite lookup_empty.
  - intros i x m r Hi IH. destruct (decide (i = j)) as [->|Hne].
    + rewrite Hi in IH. by rewrite lookup_insert_eq, Hhit, IH.
    + rewrite lookup_insert_ne by done. rewrite Hmiss by done. done.
Qed.
