(* ===== verification/OfferOrder.v ===== *)
(** The order of the book: [isBetterOffer] of
    [src/src/ledger/LedgerTxnOfferSQL.cpp], which compares prices as IEEE
    doubles and breaks ties by offer id, and the choice of the best offer of
    a sequence. *)

From Stdlib Require Import SpecFloat.
From S2P Require Import Prelude Numeric OfferMath Types.

(** [double(n)] for an [int32_t]: the conversion is exact, and the division
    below rounds to 53 bits whatever the form of its operands. *)
Definition double_of_int32 (z : Z) : spec_float :=
  match z with
  | Z0 => S754_zero false
  | Zpos m => S754_finite false m 0
  | Zneg m => S754_finite true m 0
  end.

(** [double(price.n) / double(price.d)] *)
Definition double_price (p : Price) : spec_float :=
  SFdiv 53 1024 (double_of_int32 (pn p)) (double_of_int32 (pd p)).

Definition isBetterOffer (lhs rhs : OfferEntry) : bool :=
  let lhsPrice := double_price (of_price lhs) in
  let rhsPrice := double_price (of_price rhs) in
  if SFltb lhsPrice rhsPrice then true
  else if SFeqb lhsPrice rhsPrice then of_offerID lhs <? of_offerID rhs
  else false.

(** The loop of [LedgerTxn::Impl::getBestOffer] that keeps the best offer
    seen so far. *)
Definition keep_better (best : option OfferEntry) (o : OfferEntry)
    : option OfferEntry :=
  match best with
  | None => Some o
  | Some b => if isBetterOffer o b then Some o else Some b
  end.

(** [getBestOffer]'s last step: the better of the local and the parent's. *)
Definition better_of (mine parents : option OfferEntry) : option OfferEntry :=
  match mine, parents with
  | Some a, Some b => if isBetterOffer a b then Some a else Some b
  | Some a, None => Some a
  | None, b => b
  end.

(** * Doubles that are not NaN and not negative form a total order *)

Definition plain (f : spec_float) : Prop :=
  match f with
  | S754_zero _ | S754_infinity false | S754_finite false _ _ => True
  | _ => False
  end.

(** Class, exponent, mantissa: compared lexicographically. *)
Definition fkey (f : spec_float) : Z * Z * Z :=
  match f with
  | S754_zero _ => (0, 0, 0)
  | S754_finite _ m e => (1, e, Zpos m)
  | _ => (2, 0, 0)
  end.
Definition lexcmp (a b : Z * Z * Z) : comparison :=
  match a.1.1 ?= b.1.1 with
  | Eq => match a.1.2 ?= b.1.2 with Eq => a.2 ?= b.2 | c => c end
  | c => c
  end.

Lemma SFcompare_plain f g :
  plain f -> plain g -> SFcompare f g = Some (lexcmp (fkey f) (fkey g)).
Proof.
  destruct f as [?|[]| |[] m e], g as [?|[]| |[] m' e']; try done.
Qed.

Lemma lexcmp_cases a b :
  match lexcmp a b with
  | Lt => a.1.1 < b.1.1 \/ a.1.1 = b.1.1 /\
            (a.1.2 < b.1.2 \/ a.1.2 = b.1.2 /\ a.2 < b.2)
  | Eq => a = b
  | Gt => b.1.1 < a.1.1 \/ a.1.1 = b.1.1 /\
            (b.1.2 < a.1.2 \/ a.1.2 = b.1.2 /\ b.2 < a.2)
  end.
Proof.
  destruct a as [[a1 a2] a3], b as [[b1 b2] b3]. unfold lexcmp. cbn.
  destruct (Z.compare_spec a1 b1), (Z.compare_spec a2 b2),
    (Z.compare_spec a3 b3); subst; auto.
Qed.

(** * The quotient of positive integers is such a double *)

Lemma shr_1_nonneg r : 0 <= shr_m r -> 0 <= shr_m (shr_1 r).
Proof. destruct r as [m ? ?]; cbn. destruct m as [|[]|[]]; cbn; lia. Qed.

Lemma iter_pos_shr_nonneg n : forall r,
  0 <= shr_m r -> 0 <= shr_m (SpecFloat.iter_pos shr_1 n r).
Proof. induction n; cbn; auto using shr_1_nonneg. Qed.

Lemma shr_fexp_nonneg m e l : 0 <= m -> 0 <= shr_m (shr_fexp 53 1024 m e l).1.
Proof.
  intros Hm. unfold shr_fexp, shr.
  assert (0 <= shr_m (shr_record_of_loc m l)) by (by destruct l as [|[]]).
  destruct (_ - _); cbn; auto using iter_pos_shr_nonneg.
Qed.

Lemma round_nonneg m l : 0 <= m -> 0 <= round_nearest_even m l.
Proof.
  unfold round_nearest_even. destruct l as [|[]]; try destruct (Z.even m); lia.
Qed.

Lemma binary_round_plain m e l :
  0 <= m -> plain (binary_round_aux 53 1024 false m e l).
Proof.
  intros Hm. unfold binary_round_aux.
  pose proof (shr_fexp_nonneg m e l Hm) as H1.
  destruct (shr_fexp 53 1024 m e l) as [mrs' e']. cbn in H1.
  set (r := round_nearest_even _ _).
  assert (0 <= r) as Hr by (by apply round_nonneg).
  pose proof (shr_fexp_nonneg r e' loc_Exact Hr) as H2.
  destruct (shr_fexp 53 1024 r e' loc_Exact) as [mrs'' e'']. cbn in H2.
  destruct (shr_m mrs''); cbn; [done | by destruct (e'' <=? _) | lia].
Qed.

Lemma quotient_plain n d :
  0 <= n -> 0 < d -> plain (SFdiv 53 1024 (double_of_int32 n) (double_of_int32 d)).
Proof.
  intros Hn Hd. destruct n as [|n|n], d as [|d|d]; try lia; [done|].
  cbn [double_of_int32 SFdiv]. unfold SFdiv_core_binary.
  set (s := _ - _ - _). set (m' := match s with Zpos _ => _ | _ => _ end).
  assert (0 <= m') as Hm'.
  { subst m'. destruct s; try lia. apply Z.shiftl_nonneg. lia. }
  pose proof (Z.div_pos m' (Zpos d) Hm' ltac:(lia)) as Hq. unfold Z.div in Hq.
  destruct (Z.div_eucl m' (Zpos d)) as [q r]. by apply binary_round_plain.
Qed.
Lemma double_price_plain p : valid_price p -> plain (double_price p).
Proof. destruct p as [n d]. intros [Hn Hd]. apply quotient_plain; cbn in *; lia. Qed.

(** * The order on offers *)

Definition valid_offer_price (o : OfferEntry) : Prop := valid_price (of_price o).

Lemma isBetterOffer_cases a b :
  valid_offer_price a -> valid_offer_price b ->
  isBetterOffer a b =
    match lexcmp (fkey (double_price (of_price a)))
                 (fkey (double_price (of_price b))) with
    | Lt => true
    | Eq => of_offerID a <? of_offerID b
    | Gt => false
    end.
Proof.
  intros Ha Hb. unfold isBetterOffer, SFltb, SFeqb.
  rewrite SFcompare_plain by (by apply double_price_plain).
  by destruct (lexcmp _ _).
Qed.

Lemma isBetterOffer_irrefl a : valid_offer_price a -> isBetterOffer a a = false.
Proof.
  intros Ha. rewrite isBetterOffer_cases by auto.
  pose proof (lexcmp_cases (fkey (double_price (of_price a)))
                (fkey (double_price (of_price a)))).
  destruct (lexcmp _ _); [apply Z.ltb_irrefl | lia | done].
Qed.

Ltac offer_order :=
  repeat match goal with
  | |- context [lexcmp ?x ?y] =>
      pose proof (lexcmp_cases x y); destruct (lexcmp x y)
  | H : context [match lexcmp ?x ?y with Lt => true | _ => _ end] |- _ =>
      pose proof (lexcmp_cases x y); destruct (lexcmp x y)
  end.

Lemma isBetterOffer_trans a b c :
  valid_offer_price a -> valid_offer_price b -> valid_offer_price c ->
  isBetterOffer a b = true -> isBetterOffer b c = true ->
  isBetterOffer a c = true.
Proof.
  intros Ha Hb Hc. rewrite !isBetterOffer_cases by auto.
  generalize (fkey (double_price (of_price a)))
    (fkey (double_price (of_price b))) (fkey (double_price (of_price c))).
  intros [[a1 a2] a3] [[b1 b2] b3] [[c1 c2] c3].
  offer_order; cbn in *; intros; zbool; simplify_eq; try done; try lia;
    apply Z.ltb_lt; lia.
Qed.

Lemma isBetterOffer_neg_trans a b c :
  valid_offer_price a -> valid_offer_price b -> valid_offer_price c ->
  isBetterOffer a b = false -> isBetterOffer b c = false ->
  isBetterOffer a c = false.
Proof.
  intros Ha Hb Hc. rewrite !isBetterOffer_cases by auto.
  generalize (fkey (double_price (of_price a)))
    (fkey (double_price (of_price b))) (fkey (double_price (of_price c))).
  intros [[a1 a2] a3] [[b1 b2] b3] [[c1 c2] c3].
  offer_order; cbn in *; intros; zbool; simplify_eq; try done; try lia;
    apply Z.ltb_ge; lia.
Qed.

(** [isBetterOffer] is a strict total order on offers with valid prices
    and different ids: irreflexive, transitive, and never undecided between
    two offers (no NaN, and equal doubles fall back to the id). *)
Theorem isBetterOffer_strict_total_order a b c :
  valid_offer_price a -> valid_offer_price b -> valid_offer_price c ->
  isBetterOffer a a = false /\
  (isBetterOffer a b = true -> isBetterOffer b c = true ->
     isBetterOffer a c = true) /\
  (of_offerID a <> of_offerID b ->
     isBetterOffer a b = negb (isBetterOffer b a)).
Proof.
  intros Ha Hb Hc. split; [by apply isBetterOffer_irrefl|].
  split; [by apply isBetterOffer_trans|]. intros Hid.
  rewrite !isBetterOffer_cases by auto.
  generalize (fkey (double_price (of_price a)))
    (fkey (double_price (of_price b))).
  intros [[a1 a2] a3] [[b1 b2] b3].
  offer_order; cbn in *; simplify_eq; try done; try lia.
Qed.

Definition sample_offer (id n d : Z) : OfferEntry :=
  mkOffer 7 id (ALPHANUM4 [85; 83; 68; 0] 9) ASSET_NATIVE 100 (mkPrice n d) 0.

Lemma isBetterOffer_strict_total_order_witness :
  valid_offer_price (sample_offer 1 1 3) /\
  isBetterOffer (sample_offer 1 1 3) (sample_offer 2 2 3) =
    negb (isBetterOffer (sample_offer 2 2 3) (sample_offer 1 1 3)).
Proof.
  assert (forall id n, 0 < n < 100 -> valid_offer_price (sample_offer id n 3)) as V
    by (intros; unfold valid_offer_price, valid_price; cbn; unfold_ints; lia).
  split; [apply V; lia|].
  apply (isBetterOffer_strict_total_order
           (sample_offer 1 1 3) (sample_offer 2 2 3) (sample_offer 3 1 3));
    [apply V; lia..|cbn; lia].
Defined.

(** Doubles are coarser than the exact price: here the more expensive offer
    has the smaller id and goes first. *)
Example close_prices_fall_back_to_id :
  let cheap := sample_offer 2 2147483647 2147483646 in
  let dear := sample_offer 1 2147483646 2147483645 in
  price_gt (of_price dear) (of_price cheap) = true /\
  isBetterOffer dear cheap = true.
Proof. vm_compute. done. Qed.
