(* ===== verification/LedgerTxn.v ===== *)
(** Nested ledger transactions: [src/src/ledger/LedgerTxn.cpp] and
    [LedgerTxnEntry.cpp].

    A [Ledger] is the chain of open [LedgerTxn]s, innermost first, over the
    [LedgerTxnRoot].  A handle ([LedgerTxnEntry]) is represented by its key:
    reading and writing through it act on the entry its transaction holds
    for that key, and [mActive] records which handles are alive.  The SQL
    tables behind the root are the map [rEntries]. *)

From S2P Require Import Prelude Numeric OfferMath Types Sums OfferOrder.

Abbreviation EntryMap := (gmap LedgerKey (option LedgerEntry)) (only parsing).

Record LedgerTxn := mkTxn {
  mChild : bool;
  mHeader : LedgerHeader;
  mEntry : EntryMap;
  mActive : gset LedgerKey;
  mActiveHeader : bool;
  mShouldUpdateLastModified : bool;
  mIsSealed : bool }.

(** One entry of [mBestOffersCache]. *)
Record BestOffersCacheEntry := mkCache {
  bestOffers : list OfferEntry;
  allLoaded : bool }.

Record LedgerTxnRoot := mkRoot {
  rChild : bool;
  rHeader : LedgerHeader;
  rEntries : gmap LedgerKey LedgerEntry;
  rBestOffersCache : gmap (Asset * Asset) BestOffersCacheEntry }.

Inductive Ledger :=
  | Root (r : LedgerTxnRoot)
  | Txn (t : LedgerTxn) (parent : Ledger).

(** ** Assignments to members *)
Definition set_mChild (b : bool) (t : LedgerTxn) : LedgerTxn :=
  mkTxn b (mHeader t) (mEntry t) (mActive t) (mActiveHeader t)
    (mShouldUpdateLastModified t) (mIsSealed t).
Definition set_mHeader (h : LedgerHeader) (t : LedgerTxn) : LedgerTxn :=
  mkTxn (mChild t) h (mEntry t) (mActive t) (mActiveHeader t)
    (mShouldUpdateLastModified t) (mIsSealed t).
Definition set_mEntry (m : EntryMap) (t : LedgerTxn) : LedgerTxn :=
  mkTxn (mChild t) (mHeader t) m (mActive t) (mActiveHeader t)
    (mShouldUpdateLastModified t) (mIsSealed t).
Definition set_mActive (s : gset LedgerKey) (t : LedgerTxn) : LedgerTxn :=
  mkTxn (mChild t) (mHeader t) (mEntry t) s (mActiveHeader t)
    (mShouldUpdateLastModified t) (mIsSealed t).
Definition set_mActiveHeader (b : bool) (t : LedgerTxn) : LedgerTxn :=
  mkTxn (mChild t) (mHeader t) (mEntry t) (mActive t) b
    (mShouldUpdateLastModified t) (mIsSealed t).
Definition set_mIsSealed (b : bool) (t : LedgerTxn) : LedgerTxn :=
  mkTxn (mChild t) (mHeader t) (mEntry t) (mActive t) (mActiveHeader t)
    (mShouldUpdateLastModified t) b.

(** ** Guards *)
Definition throwIfChild (t : LedgerTxn) : outcome unit :=
  if mChild t then Throw (RuntimeError "LedgerTxn has child") else Ok tt.
Definition throwIfSealed (t : LedgerTxn) : outcome unit :=
  if mIsSealed t then Throw (RuntimeError "LedgerTxn is sealed") else Ok tt.
Definition throwIfNotUsable (t : LedgerTxn) : outcome unit :=
  _ ← throwIfSealed t; throwIfChild t.

(** ** Reading *)
Fixpoint getNewestVersion (l : Ledger) (key : LedgerKey) : option LedgerEntry :=
  match l with
  | Root r => rEntries r !! key
  | Txn t parent =>
      match mEntry t !! key with
      | Some oe => oe
      | None => getNewestVersion parent key
      end
  end.

Definition getHeader (l : Ledger) : LedgerHeader :=
  match l with Root r => rHeader r | Txn t _ => mHeader t end.

(** ** Opening a child *)
Definition addChild (l : Ledger) : outcome Ledger :=
  match l with
  | Root r =>
      if rChild r then Throw (RuntimeError "LedgerTxnRoot already has child")
      else Ok (Root (mkRoot true (rHeader r) (rEntries r) (rBestOffersCache r)))
  | Txn t parent =>
      _ ← throwIfNotUsable t;
      Ok (Txn (set_mActiveHeader false (set_mActive ∅ (set_mChild true t)))
            parent)
  end.

Definition openTxn (shouldUpdateLastModified : bool) (parent : Ledger)
    : outcome Ledger :=
  let t := mkTxn false (getHeader parent) ∅ ∅ false
             shouldUpdateLastModified false in
  parent' ← addChild parent;
  Ok (Txn t parent').

(** ** Operations of the innermost transaction *)
Definition create (entry : LedgerEntry) (t : LedgerTxn) (parent : Ledger)
    : outcome LedgerTxn :=
  _ ← throwIfNotUsable t;
  let key := LedgerEntryKey entry in
  match getNewestVersion (Txn t parent) key with
  | Some _ => Throw (RuntimeError "Key already exists")
  | None =>
      Ok (set_mEntry (<[key := Some entry]> (mEntry t))
            (set_mActive ({[key]} ∪ mActive t) t))
  end.

Definition deactivate (key : LedgerKey) (t : LedgerTxn) : outcome LedgerTxn :=
  if decide (key ∈ mActive t)
  then Ok (set_mActive (mActive t ∖ {[key]}) t)
  else Throw (RuntimeError "Key is not active").

Definition deactivateHeader (t : LedgerTxn) : outcome LedgerTxn :=
  if mActiveHeader t then Ok (set_mActiveHeader false t)
  else Throw (RuntimeError "LedgerTxnHeader is not active").

Definition erase (key : LedgerKey) (t : LedgerTxn) (parent : Ledger)
    : outcome LedgerTxn :=
  _ ← throwIfNotUsable t;
  match getNewestVersion (Txn t parent) key with
  | None => Throw (RuntimeError "Key does not exist")
  | Some _ =>
      let entries :=
        match getNewestVersion parent key with
        | None => delete key (mEntry t)        (* created in this LedgerTxn *)
        | Some _ => <[key := None]> (mEntry t) (* existed in a previous one *)
        end in
      Ok (set_mEntry entries (set_mActive (mActive t ∖ {[key]}) t))
  end.

(** The result is the entry the new handle reads, [None] for no handle. *)
Definition load (key : LedgerKey) (t : LedgerTxn) (parent : Ledger)
    : outcome (option LedgerEntry * LedgerTxn) :=
  _ ← throwIfNotUsable t;
  if decide (key ∈ mActive t) then Throw (RuntimeError "Key is active")
  else
    match getNewestVersion (Txn t parent) key with
    | None => Ok (None, t)
    | Some newest =>
        Ok (Some newest,
            set_mEntry (<[key := Some newest]> (mEntry t))
              (set_mActive ({[key]} ∪ mActive t) t))
    end.

Definition loadWithoutRecord (key : LedgerKey) (t : LedgerTxn) (parent : Ledger)
    : outcome (option LedgerEntry * LedgerTxn) :=
  _ ← throwIfNotUsable t;
  if decide (key ∈ mActive t) then Throw (RuntimeError "Key is active")
  else
    match getNewestVersion (Txn t parent) key with
    | None => Ok (None, t)
    | Some newest => Ok (Some newest, set_mActive ({[key]} ∪ mActive t) t)
    end.

(** Assignment through the handle of [key]: [handle.current() = e]. *)
Definition writeCurrent (key : LedgerKey) (e : LedgerEntry) (t : LedgerTxn)
    : outcome LedgerTxn :=
  if decide (key ∈ mActive t)
  then Ok (set_mEntry (<[key := Some e]> (mEntry t)) t)
  else Throw (RuntimeError "LedgerTxnEntry not active").

Definition loadHeader (t : LedgerTxn) : outcome (LedgerHeader * LedgerTxn) :=
  _ ← throwIfNotUsable t;
  if mActiveHeader t then Throw (RuntimeError "LedgerTxnHeader is active")
  else Ok (mHeader t, set_mActiveHeader true t).

Definition writeHeader (h : LedgerHeader) (t : LedgerTxn) : outcome LedgerTxn :=
  if mActiveHeader t then Ok (set_mHeader h t)
  else Throw (RuntimeError "LedgerTxnHeader not active").

Definition unsealHeader (f : LedgerHeader -> LedgerHeader) (t : LedgerTxn)
    : outcome LedgerTxn :=
  if negb (mIsSealed t) then Throw (RuntimeError "LedgerTxn is not sealed")
  else if mActiveHeader t
  then Throw (RuntimeError "LedgerTxnHeader is active")
  else Ok (set_mHeader (f (mHeader t)) t).

(** ** Sealing *)
Definition stamp (t : LedgerTxn) (e : LedgerEntry) : LedgerEntry :=
  if mShouldUpdateLastModified t
  then mkEntry (ledgerSeq (mHeader t)) (le_data e) else e.

Definition maybeUpdateLastModified (t : LedgerTxn) : outcome EntryMap :=
  _ ← throwIfNotUsable t;
  Ok ((fun oe : option LedgerEntry => stamp t <$> oe) <$> mEntry t).

(** [maybeUpdateLastModifiedThenInvokeThenSeal(f)]: the entries [f] sees and
    the sealed transaction. *)
Definition sealed_entries (t : LedgerTxn) : outcome (EntryMap * LedgerTxn) :=
  if mIsSealed t then Ok (mEntry t, t)
  else
    entries ← maybeUpdateLastModified t;
    Ok (entries,
        set_mIsSealed true (set_mActiveHeader false
          (set_mActive ∅ (set_mEntry entries t)))).

(** ** Commit and rollback *)
Definition commitEntry (grandparent : Ledger) (key : LedgerKey)
    (oe : option LedgerEntry) (m : EntryMap) : EntryMap :=
  match oe with
  | Some e => <[key := Some e]> m
  | None =>
      match getNewestVersion grandparent key with
      | None => delete key m
      | Some _ => <[key := None]> m
      end
  end.

Definition storeEntry (key : LedgerKey) (oe : option LedgerEntry)
    (m : gmap LedgerKey LedgerEntry) : gmap LedgerKey LedgerEntry :=
  match oe with Some e => <[key := e]> m | None => delete key m end.

Definition commitChild (childHeader : LedgerHeader) (entries : EntryMap)
    (l : Ledger) : Ledger :=
  match l with
  | Txn t parent =>
      Txn (set_mChild false (set_mHeader childHeader
             (set_mEntry (map_fold (commitEntry parent) (mEntry t) entries) t)))
        parent
  | Root r =>
      Root (mkRoot false childHeader
              (map_fold storeEntry (rEntries r) entries) ∅)
  end.

Definition commit (t : LedgerTxn) (parent : Ledger) : outcome Ledger :=
  '(entries, _) ← sealed_entries t;
  Ok (commitChild (mHeader t) entries parent).

Definition rollbackChild (l : Ledger) : Ledger :=
  match l with
  | Txn t parent => Txn (set_mChild false t) parent
  | Root r =>
      Root (mkRoot false (rHeader r) (rEntries r) (rBestOffersCache r))
  end.

Definition rollback (t : LedgerTxn) (parent : Ledger) : Ledger :=
  rollbackChild parent.

(** ** Reports *)
Inductive LedgerEntryChange :=
  | LEDGER_ENTRY_STATE (e : LedgerEntry)
  | LEDGER_ENTRY_UPDATED (e : LedgerEntry)
  | LEDGER_ENTRY_REMOVED (k : LedgerKey)
  | LEDGER_ENTRY_CREATED (e : LedgerEntry).

Definition changesOf (parent : Ledger) (kv : LedgerKey * option LedgerEntry)
    : outcome (list LedgerEntryChange) :=
  match getNewestVersion parent kv.1, kv.2 with
  | Some previous, Some e =>
      Ok [LEDGER_ENTRY_STATE previous; LEDGER_ENTRY_UPDATED e]
  | Some previous, None =>
      Ok [LEDGER_ENTRY_STATE previous; LEDGER_ENTRY_REMOVED kv.1]
  | None, Some e => Ok [LEDGER_ENTRY_CREATED e]
  | None, None => Throw (AssertFailure "entry")
  end.

Fixpoint collect {A B} (f : A -> outcome (list B)) (l : list A)
    : outcome (list B) :=
  match l with
  | [] => Ok []
  | x :: rest => ys ← f x; zs ← collect f rest; Ok (ys ++ zs)
  end.

Definition getChanges (t : LedgerTxn) (parent : Ledger)
    : outcome (list LedgerEntryChange * LedgerTxn) :=
  '(entries, t') ← sealed_entries t;
  changes ← collect (changesOf parent) (map_to_list entries);
  Ok (changes, t').

Record LedgerTxnDelta := mkDelta {
  delta_entry : gmap LedgerKey (option LedgerEntry * option LedgerEntry);
  delta_header : LedgerHeader * LedgerHeader }.

Definition getDelta (t : LedgerTxn) (parent : Ledger)
    : outcome (LedgerTxnDelta * LedgerTxn) :=
  '(entries, t') ← sealed_entries t;
  Ok (mkDelta (map_imap (fun k oe => Some (oe, getNewestVersion parent k))
                 entries)
        (mHeader t, getHeader parent), t').

Definition getDeadEntries (t : LedgerTxn)
    : outcome (list LedgerKey * LedgerTxn) :=
  '(entries, t') ← sealed_entries t;
  Ok (omap (fun kv : LedgerKey * option LedgerEntry =>
              match kv.2 with None => Some kv.1 | Some _ => None end)
        (map_to_list entries), t').

Definition getLiveEntries (t : LedgerTxn)
    : outcome (list LedgerEntry * LedgerTxn) :=
  '(entries, t') ← sealed_entries t;
  Ok (omap (fun kv : LedgerKey * option LedgerEntry => kv.2)
        (map_to_list entries), t').

(** * The flat ledger a chain of transactions stands for *)

Definition overlay (m : EntryMap) (base : gmap LedgerKey LedgerEntry)
    : gmap LedgerKey LedgerEntry :=
  merge (fun o b => match o with Some oe => oe | None => b end) m base.

Fixpoint view (l : Ledger) : gmap LedgerKey LedgerEntry :=
  match l with
  | Root r => rEntries r
  | Txn t parent => overlay (mEntry t) (view parent)
  end.

Lemma lookup_overlay m base k :
  overlay m base !! k = match m !! k with Some oe => oe | None => base !! k end.
Proof.
  unfold overlay. rewrite lookup_merge. by destruct (m !! k), (base !! k).
Qed.

Lemma lookup_view l k : view l !! k = getNewestVersion l k.
Proof.
  induction l as [r|t l IH]; cbn; [done|].
  rewrite lookup_overlay. by destruct (mEntry t !! k).
Qed.

Lemma lookup_commit_entries parent m es k :
  map_fold (commitEntry parent) m es !! k =
    match es !! k with
    | Some (Some e) => Some (Some e)
    | Some None => (fun _ => None) <$> getNewestVersion parent k
    | None => m !! k
    end.
Proof.
  rewrite (lookup_map_fold_pointwise _ (fun k oe _ =>
    match oe with Some e => Some (Some e)
    | None => (fun _ => None) <$> getNewestVersion parent k end)).
  - by destruct (es !! k).
  - intros i [e|] m'; cbn; [by rewrite lookup_insert_eq|].
    destruct (getNewestVersion parent i); cbn;
      [by rewrite lookup_insert_eq | by rewrite lookup_delete_eq].
  - intros i [e|] m' j Hj; cbn; [by rewrite lookup_insert_ne|].
    destruct (getNewestVersion parent i);
      [by rewrite lookup_insert_ne | by rewrite lookup_delete_ne].
Qed.

Lemma lookup_store_entries m es k :
  map_fold storeEntry m es !! k =
    match es !! k with Some oe => oe | None => m !! k end.
Proof.
  rewrite (lookup_map_fold_pointwise _ (fun _ oe _ => oe)); [done|..].
  - intros i [e|] m'; cbn; [by rewrite lookup_insert_eq | by rewrite lookup_delete_eq].
  - intros i [e|] m' j Hj; cbn;
      [by rewrite lookup_insert_ne | by rewrite lookup_delete_ne].
Qed.

(** Committing entries replaces the parent's version of each of them. *)
Lemma view_commitChild h es l k :
  view (commitChild h es l) !! k =
    match es !! k with Some oe => oe | None => view l !! k end.
Proof.
  rewrite !lookup_view. destruct l as [r|t parent]; cbn.
  - apply lookup_store_entries.
  - rewrite lookup_commit_entries. destruct (es !! k) as [[e|]|]; cbn; try done.
    by destruct (getNewestVersion parent k) eqn:E.
Qed.

Lemma getHeader_commitChild h es l : getHeader (commitChild h es l) = h.
Proof. by destruct l. Qed.

(** ** Well-formed chains *)

(** An entry sits under its own key; a tombstone only hides an entry that
    exists below; a live handle has an entry; the parent of a transaction
    knows it has a child, and has no live handle. *)
Definition txn_ok (t : LedgerTxn) (parent : Ledger) : Prop :=
  (forall k e, mEntry t !! k = Some (Some e) -> LedgerEntryKey e = k) /\
  (forall k, mEntry t !! k = Some None -> is_Some (getNewestVersion parent k)) /\
  (forall k, k ∈ mActive t -> is_Some (getNewestVersion (Txn t parent) k)).

Definition waiting (l : Ledger) : Prop :=
  match l with
  | Root r => rChild r = true
  | Txn t _ => mChild t = true /\ mActive t = ∅
  end.

Fixpoint chain_ok (l : Ledger) : Prop :=
  match l with
  | Root r => forall k e, rEntries r !! k = Some e -> LedgerEntryKey e = k
  | Txn t parent => chain_ok parent /\ waiting parent /\ txn_ok t parent
  end.

Lemma chain_ok_key l k e :
  chain_ok l -> getNewestVersion l k = Some e -> LedgerEntryKey e = k.
Proof.
  induction l as [r|t l IH]; cbn; [eauto|].
  intros (Hl & _ & Hk & _ & _) Hg.
  destruct (mEntry t !! k) as [oe|] eqn:E; subst; eauto.
Qed.

Lemma throwIfNotUsable_Ok t u :
  throwIfNotUsable t = Ok u <-> mIsSealed t = false /\ mChild t = false.
Proof.
  destruct u. unfold throwIfNotUsable, throwIfSealed, throwIfChild.
  destruct (mIsSealed t), (mChild t); cbn; naive_solver.
Qed.

Create HintDb ltx discriminated.

(** The operations a holder of the innermost transaction can perform. *)
Inductive ltx_op :=
  | OpCreate (e : LedgerEntry)
  | OpErase (k : LedgerKey)
  | OpLoad (k : LedgerKey)
  | OpLoadWithoutRecord (k : LedgerKey)
  | OpWrite (k : LedgerKey) (e : LedgerEntry)
  | OpDeactivate (k : LedgerKey)
  | OpLoadHeader
  | OpWriteHeader (h : LedgerHeader)
  | OpDeactivateHeader.

Definition run_op (o : ltx_op) (t : LedgerTxn) (parent : Ledger)
    : outcome LedgerTxn :=
  match o with
  | OpCreate e => create e t parent
  | OpErase k => erase k t parent
  | OpLoad k => '(_, t') ← load k t parent; Ok t'
  | OpLoadWithoutRecord k => '(_, t') ← loadWithoutRecord k t parent; Ok t'
  | OpWrite k e => writeCurrent k e t
  | OpDeactivate k => deactivate k t
  | OpLoadHeader => '(_, t') ← loadHeader t; Ok t'
  | OpWriteHeader h => writeHeader h t
  | OpDeactivateHeader => deactivateHeader t
  end.

(** The specification: a flat map and a header. *)
Definition flat : Type := gmap LedgerKey LedgerEntry * LedgerHeader.

Definition flat_op (o : ltx_op) (s : flat) : option flat :=
  match o with
  | OpCreate e =>
      match s.1 !! LedgerEntryKey e with
      | Some _ => None
      | None => Some (<[LedgerEntryKey e := e]> s.1, s.2)
      end
  | OpErase k =>
      match s.1 !! k with Some _ => Some (delete k s.1, s.2) | None => None end
  | OpWrite k e => Some (<[k := e]> s.1, s.2)
  | OpWriteHeader h => Some (s.1, h)
  | _ => Some s
  end.

Definition abs (l : Ledger) : flat := (view l, getHeader l).

(** Writing through a handle keeps the key of the entry. *)
Definition op_respects_keys (o : ltx_op) : Prop :=
  match o with OpWrite k e => LedgerEntryKey e = k | _ => True end.

(** ** What an update of [mEntry] does to the view *)

Lemma view_only_entries t t' parent :
  mEntry t' = mEntry t -> view (Txn t' parent) = view (Txn t parent).
Proof. intros E. cbn. by rewrite E. Qed.

Lemma view_insert t t' parent k oe :
  mEntry t' = <[k := oe]> (mEntry t) ->
  view (Txn t' parent) =
    match oe with
    | Some e => <[k := e]> (view (Txn t parent))
    | None => delete k (view (Txn t parent))
    end.
Proof.
  intros E. apply map_eq. intros j. cbn. rewrite lookup_overlay, E.
  destruct oe, (decide (k = j)) as [->|Hj];
    by rewrite ?lookup_insert_eq, ?lookup_delete_eq,
      ?lookup_insert_ne, ?lookup_delete_ne, ?lookup_overlay.
Qed.

Lemma view_forget t t' parent k :
  mEntry t' = delete k (mEntry t) -> getNewestVersion parent k = None ->
  view (Txn t' parent) = delete k (view (Txn t parent)).
Proof.
  intros E Hp. apply map_eq. intros j. cbn. rewrite lookup_overlay, E.
  destruct (decide (k = j)) as [->|Hj].
  - by rewrite !lookup_delete_eq, lookup_view.
  - by rewrite !lookup_delete_ne, lookup_overlay.
Qed.

(** Well-formedness of a transaction in terms of its view. *)
Lemma txn_ok_insert t t' parent k e :
  txn_ok t parent -> LedgerEntryKey e = k ->
  mEntry t' = <[k := Some e]> (mEntry t) ->
  mActive t' ⊆ {[k]} ∪ mActive t ->
  txn_ok t' parent.
Proof.
  intros (Hk & Ht & Ha) He Em Ea. split; [|split].
  - intros j e'. rewrite Em. intros [[-> [= ->]]|[_ Hj]]%lookup_insert_Some; eauto.
  - intros j. rewrite Em. intros [[_ ?]|[_ Hj]]%lookup_insert_Some; [done|eauto].
  - intros j Hj. cbn. rewrite Em.
    destruct (decide (k = j)) as [->|Hne]; [by rewrite lookup_insert_eq|].
    rewrite lookup_insert_ne by done. apply Ha. set_solver.
Qed.

Lemma txn_ok_active t t' parent :
  txn_ok t parent -> mEntry t' = mEntry t ->
  (forall k, k ∈ mActive t' ->
     k ∈ mActive t \/ is_Some (getNewestVersion (Txn t parent) k)) ->
  txn_ok t' parent.
Proof.
  intros (Hk & Ht & Ha) Em Ea. split; [|split]; rewrite ?Em; auto.
  intros k Hk'. cbn. rewrite Em. destruct (Ea k Hk') as [?|?]; [by apply Ha|done].
Qed.

Lemma txn_ok_erase t t' parent k :
  txn_ok t parent ->
  mEntry t' = match getNewestVersion parent k with
              | None => delete k (mEntry t)
              | Some _ => <[k := None]> (mEntry t)
              end ->
  mActive t' = mActive t ∖ {[k]} ->
  txn_ok t' parent.
Proof.
  intros (Hk & Ht & Ha) Em Ea.
  assert (forall j, j <> k -> mEntry t' !! j = mEntry t !! j) as Hother.
  { intros j Hj. rewrite Em. destruct (getNewestVersion parent k);
      [by rewrite lookup_insert_ne | by rewrite lookup_delete_ne]. }
  assert (mEntry t' !! k = (fun _ => None) <$> getNewestVersion parent k) as Hhit.
  { rewrite Em. destruct (getNewestVersion parent k);
      [by rewrite lookup_insert_eq | by rewrite lookup_delete_eq]. }
  split; [|split]; intros j.
  - intros e. destruct (decide (j = k)) as [->|Hj].
    + rewrite Hhit. by destruct (getNewestVersion parent k).
    + rewrite Hother by done. apply Hk.
  - destruct (decide (j = k)) as [->|Hj].
    + rewrite Hhit. destruct (getNewestVersion parent k); [|done]. eauto.
    + rewrite Hother by done. apply Ht.
  - rewrite Ea. intros Hj. cbn. rewrite Hother by set_solver. apply Ha. set_solver.
Qed.

(** One step of the innermost transaction is one step of the flat ledger. *)
Lemma run_op_simulation o t parent t' :
  chain_ok (Txn t parent) -> op_respects_keys o ->
  run_op o t parent = Ok t' ->
  chain_ok (Txn t' parent) /\
  flat_op o (abs (Txn t parent)) = Some (abs (Txn t' parent)).
Proof.
  intros (Hp & Hc & Hok) Hkeys Hrun. unfold abs.
  assert (forall k e, getNewestVersion (Txn t parent) k = Some e ->
            LedgerEntryKey e = k) as Hkey
    by (intros; by eapply (chain_ok_key (Txn t parent))).
  enough (txn_ok t' parent /\
    flat_op o (view (Txn t parent), mHeader t)
      = Some (view (Txn t' parent), mHeader t')) by (cbn; tauto).
  destruct o; cbn [run_op] in Hrun.
  - unfold create in Hrun. inv_ok Hrun.
    destruct (getNewestVersion _ _) eqn:E in Hrun; [done|]. inv_ok Hrun.
    split; [by apply (txn_ok_insert t _ parent (LedgerEntryKey e) e)|].
    cbn [flat_op fst]. rewrite lookup_view, E. do 2 f_equal. symmetry.
    by apply (view_insert t _ parent (LedgerEntryKey e) (Some e)).
  - unfold erase in Hrun. inv_ok Hrun.
    destruct (getNewestVersion (Txn t parent) k) eqn:E; [|done]. inv_ok Hrun.
    split; [by eapply txn_ok_erase|]. cbn [flat_op fst].
    rewrite lookup_view, E. do 2 f_equal. symmetry.
    destruct (getNewestVersion parent k) eqn:Ep;
      [by apply (view_insert t _ parent k None) | by apply view_forget].
  - unfold load in Hrun. inv_ok Hrun. destruct x as [? ?]. inv_ok Hrun.
    inv_ok H. case_decide; [done|]. destruct (getNewestVersion (Txn t parent) k) eqn:E.
    + inv_ok H. split; [by apply (txn_ok_insert t _ parent k l); auto|].
      cbn [flat_op].
      do 2 f_equal. symmetry.
      etrans; [by apply (view_insert t _ parent k (Some l))|].
      apply insert_id. by rewrite lookup_view.
    + inv_ok H. done.
  - unfold loadWithoutRecord in Hrun. inv_ok Hrun. destruct x as [? ?].
    inv_ok Hrun. inv_ok H. case_decide; [done|].
    destruct (getNewestVersion (Txn t parent) k) eqn:E; inv_ok H; [|done].
    split; [|done]. eapply txn_ok_active; [eauto|done|]. cbn.
    intros j [->%elem_of_singleton|?]%elem_of_union; [|auto].
    right. cbn in E. rewrite E. eauto.
  - unfold writeCurrent in Hrun. case_decide; inv_ok Hrun.
    split; [apply (txn_ok_insert t _ parent k e); auto; set_solver|].
    cbn [flat_op fst].
    do 2 f_equal. symmetry. by apply (view_insert t _ parent k (Some e)).
  - unfold deactivate in Hrun. case_decide; inv_ok Hrun.
    split; [|done]. eapply txn_ok_active; [eauto|done|]. cbn. set_solver.
  - unfold loadHeader in Hrun. inv_ok Hrun. destruct x as [? ?]. inv_ok Hrun.
    inv_ok H. destruct (mActiveHeader t); inv_ok H. done.
  - unfold writeHeader in Hrun. destruct (mActiveHeader t); inv_ok Hrun. done.
  - unfold deactivateHeader in Hrun. destruct (mActiveHeader t); inv_ok Hrun.
    done.
Qed.

(** ** Sequences of operations *)

Fixpoint run_ops (os : list ltx_op) (t : LedgerTxn) (parent : Ledger)
    : outcome LedgerTxn :=
  match os with
  | [] => Ok t
  | o :: rest => t' ← run_op o t parent; run_ops rest t' parent
  end.

Fixpoint flat_ops (os : list ltx_op) (s : flat) : option flat :=
  match os with
  | [] => Some s
  | o :: rest => s' ← flat_op o s; flat_ops rest s'
  end.

Lemma run_op_mode o t parent t' :
  run_op o t parent = Ok t' ->
  mChild t' = mChild t /\ mIsSealed t' = mIsSealed t /\
  mShouldUpdateLastModified t' = mShouldUpdateLastModified t.
Proof.
  destruct o; cbn [run_op];
    unfold create, erase, load, loadWithoutRecord, writeCurrent, deactivate,
      loadHeader, writeHeader, deactivateHeader; intros H;
    inv_ok H;
    repeat first [case_decide | progress inv_ok H | destruct x as [? ?]
      | match type of H with
        | context [match ?d with Some _ => _ | None => _ end] => destruct d
        | context [if ?b then _ else _] => destruct b
        end
      | match goal with
        | H' : _ = Ok (_, t') |- _ => progress inv_ok H'
        | H' : context [match ?d with Some _ => _ | None => _ end] |- _ =>
            destruct d
        | H' : context [if ?b then _ else _] |- _ => destruct b
        end]; done.
Qed.

Lemma run_ops_simulation os t parent t' :
  chain_ok (Txn t parent) -> Forall op_respects_keys os ->
  run_ops os t parent = Ok t' ->
  chain_ok (Txn t' parent) /\
  flat_ops os (abs (Txn t parent)) = Some (abs (Txn t' parent)) /\
  mChild t' = mChild t /\ mIsSealed t' = mIsSealed t /\
  mShouldUpdateLastModified t' = mShouldUpdateLastModified t.
Proof.
  revert t. induction os as [|o os IH]; cbn; intros t Hc Hk Hrun.
  { inv_ok Hrun. done. }
  apply Forall_cons in Hk as [Hk Hks]. inv_ok Hrun.
  destruct (run_op_simulation o t parent x) as [Hc' ->]; auto.
  destruct (run_op_mode o t parent x) as (<- & <- & <-); auto. cbn.
  by apply IH.
Qed.

Lemma openTxn_Ok b l l' :
  chain_ok l -> openTxn b l = Ok l' ->
  exists p0, l' = Txn (mkTxn false (getHeader l) ∅ ∅ false b false) p0 /\
    chain_ok l' /\ view p0 = view l /\ getHeader p0 = getHeader l.
Proof.
  intros Hl Hopen. unfold openTxn in Hopen. inv_ok Hopen.
  exists x. split; [done|].
  assert (chain_ok x /\ waiting x /\ view x = view l /\
          getHeader x = getHeader l) as (? & ? & ? & ?).
  { destruct l as [r|t parent]; cbn in H.
    - destruct (rChild r); inv_ok H. done.
    - inv_ok H. destruct Hl as (? & ? & ?). split; [|done].
      split; [done|]. split; [done|].
      eapply txn_ok_active; [eauto|done|]. cbn. set_solver. }
  split; [|done]. split; [done|]. split; [done|].
  split; [|split]; cbn; intros *; [by rewrite lookup_empty..|set_solver].
Qed.

Lemma commitChild_chain_ok h es l :
  chain_ok l -> waiting l ->
  (forall k e, es !! k = Some (Some e) -> LedgerEntryKey e = k) ->
  chain_ok (commitChild h es l).
Proof.
  intros Hl Hw Hes. destruct l as [r|t parent]; cbn.
  - intros k e. rewrite lookup_store_entries.
    destruct (es !! k) as [oe|] eqn:E; [intros ->; eauto | apply Hl].
  - destruct Hl as (Hp & Hw' & Hk & Ht & Ha), Hw as [_ Hact].
    split; [done|]. split; [done|]. split; [|split]; cbn; intros k.
    + intros e. rewrite lookup_commit_entries.
      destruct (es !! k) as [[e'|]|] eqn:E; [intros [= ->]; eauto | | apply Hk].
      by destruct (getNewestVersion parent k).
    + rewrite lookup_commit_entries.
      destruct (es !! k) as [[e'|]|] eqn:E; [done | | apply Ht].
      destruct (getNewestVersion parent k); [eauto|done].
    + rewrite Hact. set_solver.
Qed.

Lemma stamp_data t e : le_data (stamp t e) = le_data e.
Proof. unfold stamp. by destruct (mShouldUpdateLastModified t). Qed.

Lemma commit_Ok t parent :
  mIsSealed t = false -> mChild t = false ->
  commit t parent =
    Ok (commitChild (mHeader t)
          ((fun oe : option LedgerEntry => stamp t <$> oe) <$> mEntry t) parent).
Proof.
  intros Hs Hc. unfold commit, sealed_entries, maybeUpdateLastModified,
    throwIfNotUsable, throwIfSealed, throwIfChild. by rewrite Hs, Hc.
Qed.

Lemma view_commit t parent k :
  view (commitChild (mHeader t)
    ((fun oe : option LedgerEntry => stamp t <$> oe) <$> mEntry t) parent) !! k =
  match mEntry t !! k with
  | Some oe => stamp t <$> oe
  | None => view parent !! k
  end.
Proof.
  rewrite view_commitChild, lookup_fmap. by destruct (mEntry t !! k) as [[]|].
Qed.

(** ** Replaying a change list *)

Definition applyChange (m : gmap LedgerKey LedgerEntry) (c : LedgerEntryChange)
    : gmap LedgerKey LedgerEntry :=
  match c with
  | LEDGER_ENTRY_STATE _ => m
  | LEDGER_ENTRY_UPDATED e => <[LedgerEntryKey e := e]> m
  | LEDGER_ENTRY_REMOVED k => delete k m
  | LEDGER_ENTRY_CREATED e => <[LedgerEntryKey e := e]> m
  end.

Lemma changesOf_replay parent k oe m :
  (forall e, oe = Some e -> LedgerEntryKey e = k) ->
  (oe = None -> is_Some (getNewestVersion parent k)) ->
  exists cs, changesOf parent (k, oe) = Ok cs /\
    foldl applyChange m cs = storeEntry k oe m.
Proof.
  intros Hk Ht. unfold changesOf. cbn [fst snd]. destruct oe as [e|].
  - destruct (getNewestVersion parent k); (eexists; split; [done|]); cbn;
      by rewrite Hk.
  - destruct (Ht eq_refl) as [? ->]. by eexists.
Qed.

Lemma collect_replay parent kvs m :
  (forall k e, (k, Some e) ∈ kvs -> LedgerEntryKey e = k) ->
  (forall k, (k, None) ∈ kvs -> is_Some (getNewestVersion parent k)) ->
  exists cs, collect (changesOf parent) kvs = Ok cs /\
    foldl applyChange m cs = foldl (fun m kv => storeEntry kv.1 kv.2 m) m kvs.
Proof.
  revert m. induction kvs as [|[k oe] kvs IH]; intros m Hk Ht; cbn.
  { by exists []. }
  destruct (changesOf_replay parent k oe m) as (cs & -> & Hcs).
  { intros e ->. apply Hk. left. }
  { intros ->. apply Ht. left. }
  destruct (IH (storeEntry k oe m)) as (cs' & -> & Hcs').
  { intros. apply Hk. by right. }
  { intros. apply Ht. by right. }
  exists (cs ++ cs'). split; [done|]. by rewrite foldl_app, Hcs.
Qed.

Lemma foldl_store_lookup (kvs : list (LedgerKey * option LedgerEntry)) m j :
  NoDup kvs.*1 ->
  foldl (fun m kv => storeEntry kv.1 kv.2 m) m kvs !! j =
    match (list_to_map kvs : EntryMap) !! j with
    | Some oe => oe
    | None => m !! j
    end.
Proof.
  revert m. induction kvs as [|[k oe] kvs IH]; intros m Hnd; cbn;
    [by rewrite lookup_empty|].
  apply NoDup_cons in Hnd as [Hk Hnd]. rewrite IH by done.
  destruct (decide (k = j)) as [->|Hne].
  - rewrite lookup_insert_eq, (not_elem_of_list_to_map_1 kvs) by done.
    destruct oe; cbn; by rewrite ?lookup_insert_eq, ?lookup_delete_eq.
  - rewrite lookup_insert_ne by done.
    destruct (list_to_map kvs !! j); [done|].
    destruct oe; cbn; by rewrite ?lookup_insert_ne, ?lookup_delete_ne.
Qed.

Lemma sealed_entries_Ok t :
  mIsSealed t = false -> mChild t = false ->
  sealed_entries t =
    Ok ((fun oe : option LedgerEntry => stamp t <$> oe) <$> mEntry t,
        set_mIsSealed true (set_mActiveHeader false (set_mActive ∅
          (set_mEntry ((fun oe : option LedgerEntry => stamp t <$> oe)
             <$> mEntry t) t)))).
Proof.
  intros Hs Hc. unfold sealed_entries, maybeUpdateLastModified,
    throwIfNotUsable, throwIfSealed, throwIfChild. by rewrite Hs, Hc.
Qed.

Lemma stamped_entries_ok t parent k :
  txn_ok t parent ->
  let es := (fun oe : option LedgerEntry => stamp t <$> oe) <$> mEntry t in
  (forall e, es !! k = Some (Some e) -> LedgerEntryKey e = k) /\
  (es !! k = Some None -> is_Some (getNewestVersion parent k)).
Proof.
  intros (Hk & Ht & _). cbn. rewrite lookup_fmap.
  destruct (mEntry t !! k) as [[e'|]|] eqn:E; cbn; split; try done; intros.
  - simplify_eq. unfold LedgerEntryKey. rewrite stamp_data. by apply Hk.
  - by apply Ht.
Qed.

(** Rolling back a child undoes everything done through it: the parent
    has the contents and the header it had before, whatever ran. *)
Lemma nested_rollback_restores b l t0 p0 os t :
  chain_ok l -> openTxn b l = Ok (Txn t0 p0) -> run_ops os t0 p0 = Ok t ->
  view (rollback t p0) = view l /\
  getHeader (rollback t p0) = getHeader l /\ chain_ok (rollback t p0).
Proof.
  intros Hl Hopen _.
  destruct (openTxn_Ok b l _ Hl Hopen) as (p & [= -> ->] & Hc & Hv & Hh).
  rewrite <- Hv, <- Hh. unfold rollback. destruct Hc as (Hp & _ & _).
  destruct p as [r|tp pp]; cbn; [done|]. split; [done|]. split; [done|].
  destruct Hp as (? & ? & ?). split; [done|]. split; [done|].
  eapply txn_ok_active; [eauto|done|]. cbn. auto.
Qed.

(** * Properties *)

(** C21. A nested [LedgerTxn] refines a flat map: open a child over any
    well-formed chain, run any operations on it, and commit; the parent's
    contents and header are then exactly what the same operations give on the
    flat map (up to [lastModifiedLedgerSeq] when the child stamps it), and
    the chain is well-formed again. *)
Theorem nested_commit_refines_flat b l t0 p0 os t :
  chain_ok l -> openTxn b l = Ok (Txn t0 p0) ->
  Forall op_respects_keys os -> run_ops os t0 p0 = Ok t ->
  exists l' s,
    commit t p0 = Ok l' /\ chain_ok l' /\
    flat_ops os (abs l) = Some s /\ getHeader l' = s.2 /\
    le_data <$> view l' = le_data <$> s.1 /\
    (b = false -> view l' = s.1).
Proof.
  intros Hl Hopen Hk Hrun.
  destruct (openTxn_Ok b l _ Hl Hopen) as (p & [= -> ->] & Hc & Hv & Hh).
  destruct (run_ops_simulation os _ _ _ Hc Hk Hrun)
    as (Hc' & Hflat & Hch & Hs & Hb). cbn in Hch, Hs, Hb.
  eexists _, (abs (Txn t p)). split; [by apply commit_Ok|].
  destruct Hc' as (Hp & Hw & Hkey & Htomb & _).
  split; [|split; [|split; [apply getHeader_commitChild|split]]].
  - apply commitChild_chain_ok; auto. intros k e. rewrite lookup_fmap.
    destruct (mEntry t !! k) as [[e'|]|] eqn:E; cbn; [|done..].
    intros [= <-]. unfold LedgerEntryKey. rewrite stamp_data. by apply Hkey.
  - rewrite <- Hflat. f_equal. unfold abs. cbn. f_equal. rewrite <- Hv.
    apply map_eq. intros k. by rewrite lookup_overlay, lookup_empty.
  - apply map_eq. intros k. cbn. rewrite !lookup_fmap, view_commit, lookup_overlay.
    destruct (mEntry t !! k) as [[e|]|]; cbn; [by rewrite stamp_data|done..].
  - intros ->. apply map_eq. intros k. cbn. rewrite view_commit, lookup_overlay.
    destruct (mEntry t !! k) as [[e|]|]; cbn; [|done..].
    unfold stamp. by rewrite Hb.
Qed.

(** The change list of a transaction is a faithful diff: [getChanges]
    never fails its assertion, and replaying the list on the parent's contents
    gives the contents of the (sealed) transaction. *)
Theorem getChanges_replay t parent :
  chain_ok (Txn t parent) -> mIsSealed t = false -> mChild t = false ->
  exists cs t',
    getChanges t parent = Ok (cs, t') /\
    foldl applyChange (view parent) cs = view (Txn t' parent) /\
    mIsSealed t' = true.
Proof.
  intros (Hp & Hw & Hok) Hs Hc. unfold getChanges.
  rewrite sealed_entries_Ok by done. cbn [mbind outcome_bind].
  set (es := _ <$> mEntry t).
  destruct (collect_replay parent (map_to_list es) (view parent))
    as (cs & -> & Hcs).
  { intros k e Hke%elem_of_map_to_list.
    by apply (stamped_entries_ok t parent k Hok). }
  { intros k Hke%elem_of_map_to_list.
    by apply (stamped_entries_ok t parent k Hok). }
  eexists cs, _. split; [done|]. split; [|done].
  rewrite Hcs. apply map_eq. intros j.
  rewrite foldl_store_lookup by apply NoDup_fst_map_to_list.
  rewrite list_to_map_to_list. cbn. by rewrite lookup_overlay.
Qed.

(** The sample chain of the witnesses: a root with one account, and a child. *)
Definition sample_account (id balance : Z) : AccountEntry :=
  mkAccount id balance 1 "" 0 None 0 "" (mkThresholds 1 0 0 0) [] None.
Definition sample_header : LedgerHeader :=
  mkHeader 10 100 0 1000000000000 0 0 0 100 5 1000.
Definition sample_entry (id balance : Z) : LedgerEntry :=
  mkEntry 1 (ACCOUNT (sample_account id balance)).
Definition sample_root : Ledger :=
  Root (mkRoot false sample_header
          {[KeyAccount 1 := sample_entry 1 500]} ∅).
Definition sample_waiting_root : Ledger :=
  Root (mkRoot true sample_header
          {[KeyAccount 1 := sample_entry 1 500]} ∅).
Definition sample_open : LedgerTxn :=
  mkTxn false sample_header ∅ ∅ false true false.
Definition sample_ops : list ltx_op :=
  [OpLoad (KeyAccount 1); OpWrite (KeyAccount 1) (sample_entry 1 300);
   OpCreate (sample_entry 2 200)].

Lemma sample_root_ok : chain_ok sample_root.
Proof. intros k e. cbn. by intros [<- <-]%lookup_singleton_Some. Qed.
Lemma sample_open_ok : chain_ok (Txn sample_open sample_waiting_root).
Proof.
  split; [exact sample_root_ok|]. split; [done|].
  split; [|split]; cbn; intros *; [by rewrite lookup_empty..|set_solver].
Qed.

Lemma nested_commit_refines_flat_witness :
  exists t, run_ops sample_ops sample_open sample_waiting_root = Ok t /\
    exists l' s, commit t sample_waiting_root = Ok l' /\ chain_ok l' /\
    flat_ops sample_ops (abs sample_root) = Some s /\ getHeader l' = s.2 /\
    le_data <$> view l' = le_data <$> s.1 /\ (true = false -> view l' = s.1).
Proof.
  eexists. split; [vm_compute; reflexivity|].
  eapply (nested_commit_refines_flat true sample_root sample_open
            sample_waiting_root sample_ops);
    [exact sample_root_ok | reflexivity | by repeat constructor
    | vm_compute; reflexivity].
Defined.

Lemma getChanges_replay_witness :
  chain_ok (Txn sample_open sample_waiting_root) /\
    exists cs t', getChanges sample_open sample_waiting_root = Ok (cs, t') /\
    foldl applyChange (view sample_waiting_root) cs
      = view (Txn t' sample_waiting_root) /\
    mIsSealed t' = true.
Proof.
  split; [exact sample_open_ok|].
  apply (getChanges_replay sample_open sample_waiting_root);
    [exact sample_open_ok | reflexivity | reflexivity].
Defined.
