(* ===== verification/BucketState.v ===== *)
(** Applying buckets to the ledger: [src/src/bucket/BucketApplicator.cpp],
    [Bucket::apply], and the work that applies a whole bucket list at catch-up,
    [src/src/catchup/ApplyBucketsWork.cpp], run by [src/src/work/Work.cpp].

    An applicator is what its iterator has still to read.  Buckets are compared
    where the code compares their hashes.  The counters of progress, the
    metrics and the invariant checks, which only observe, are left out.

    Applying the buckets of a list to an empty ledger rebuilds the ledger.

    The last part composes this with the work of catch-up. *)

From stdpp Require Import sorting.
From S2P Require Import Prelude Types Sorting Buckets BucketMerge BucketList BucketHistory BucketInvariant.
From S2P Require Import BucketSizes LedgerTxn.

(** * Applying buckets to the ledger *)

(** ** [BucketApplicator::advance] *)

(** The body of the loop.  The handle of [entry] dies with it. *)
Definition applyEntry (e : BucketEntry) (ltx : LedgerTxn) (root : Ledger) : outcome LedgerTxn :=
  match e with
  | LIVEENTRY bucketEntry =>
      let key := LedgerEntryKey bucketEntry in
      r ← load key ltx root;
      let '(entry, ltx) := r in
      match entry with
      | Some _ => ltx ← writeCurrent key bucketEntry ltx; deactivate key ltx
      | None => ltx ← create bucketEntry ltx root; deactivate key ltx
      end
  | DEADENTRY key =>
      r ← load key ltx root;
      let '(entry, ltx) := r in
      match entry with Some _ => erase key ltx root | None => mret ltx end
  end.
(** [break] leaves the iterator on the entry just applied. *)
Fixpoint advanceLoop (count : Z) (mBucketIter : list BucketEntry) (ltx : LedgerTxn) (root : Ledger)
    : outcome (Z * list BucketEntry * LedgerTxn) :=
  match mBucketIter with
  | [] => mret (count, [], ltx)
  | e :: rest =>
      ltx ← applyEntry e ltx root;
      if Z.land (count + 1) 255 =? 255 then mret (count + 1, mBucketIter, ltx)
      else advanceLoop (count + 1) rest ltx root
  end.
Definition advance (mBucketIter : list BucketEntry) (root : Ledger)
    : outcome (Z * list BucketEntry * Ledger) :=
  l ← openTxn false root;
  match l with
  | Txn ltx root =>
      r ← advanceLoop 0 mBucketIter ltx root;
      let '(count, mBucketIter, ltx) := r in
      root ← commit ltx root; mret (count, mBucketIter, root)
  | Root _ => Throw (RuntimeError "not a LedgerTxn")
  end.
(** [Bucket::apply]; [fuel] bounds the rounds. *)
Fixpoint applyWith (fuel : nat) (applicator : list BucketEntry) (root : Ledger) : outcome Ledger :=
  match applicator, fuel with
  | [], _ => mret root
  | _ :: _, O => Throw (RuntimeError "out of fuel")
  | _ :: _, S fuel => r ← advance applicator root; applyWith fuel r.1.2 r.2
  end.
Definition apply (b : Bucket) (root : Ledger) : outcome Ledger := applyWith (length b) b root.

(** [LedgerTxnRoot::deleteObjectsModifiedOnOrAfterLedger] *)
Definition deleteObjectsModifiedOnOrAfterLedger (ledger : Z) (l : Ledger) : outcome Ledger :=
  match l with
  | Root r =>
      if rChild r then Throw (RuntimeError "LedgerTxnRoot has child")
      else mret (Root (mkRoot (rChild r) (rHeader r)
             (base.filter (fun kv => lastModifiedLedgerSeq kv.2 < ledger) (rEntries r)) ∅))
  | Txn _ _ => Throw (RuntimeError "not a LedgerTxnRoot")
  end.

(** ** [ApplyBucketsWork] *)
Record HistoryStateBucket := mkHsb { hsb_curr : Bucket; hsb_snap : Bucket }.
Record HistoryArchiveState := mkHas { currentLedger : Z; currentBuckets : list HistoryStateBucket }.
Record ApplyBucketsWork := mkWork {
  work_mLevel : nat;
  mApplying : bool;
  mSnapApplicator : option (list BucketEntry);
  mCurrApplicator : option (list BucketEntry) }.
Inductive WorkState := WORK_PENDING | WORK_RUNNING | WORK_SUCCESS.

Section Work.
Context (kNumLevels : Z) (mApplyState : HistoryArchiveState) (bucketList : list BucketLevel).

Definition onReset : ApplyBucketsWork := mkWork (Z.to_nat (kNumLevels - 1)) false None None.
Definition orThrow {A} (o : option A) : outcome A :=
  match o with Some a => mret a | None => Throw (RuntimeError "out of fuel") end.
Definition at_ {A} (l : list A) (i : nat) : outcome A :=
  match l !! i with Some a => mret a | None => Throw (RuntimeError "vector::at") end.
Definition onStart (w : ApplyBucketsWork) (root : Ledger) : outcome (ApplyBucketsWork * Ledger) :=
  let mLevel := work_mLevel w in
  level ← at_ bucketList mLevel;
  i ← at_ (currentBuckets mApplyState) mLevel;
  let applySnap := bool_decide (hsb_snap i <> mSnap level) in
  let applyCurr := bool_decide (hsb_curr i <> mCurr level) in
  root ← (if negb (mApplying w) && (applySnap || applyCurr)
          then
            oldestLedger ← orThrow
              (if applySnap then oldestLedgerInSnap kNumLevels (currentLedger mApplyState) (Z.of_nat mLevel)
               else oldestLedgerInCurr kNumLevels (currentLedger mApplyState) (Z.of_nat mLevel));
            deleteObjectsModifiedOnOrAfterLedger oldestLedger root
          else mret root);
  let w := if mApplying w || applySnap
           then mkWork mLevel true (Some (hsb_snap i)) (mCurrApplicator w) else w in
  let w := if mApplying w || applyCurr
           then mkWork mLevel true (mSnapApplicator w) (Some (hsb_curr i)) else w in
  mret (w, root).
Definition workAdvance (applicator : list BucketEntry) (root : Ledger)
    : outcome (list BucketEntry * Ledger) :=
  match applicator with
  | [] => mret (applicator, root)
  | _ => r ← advance applicator root; mret (r.1.2, r.2)
  end.
Definition onRun (w : ApplyBucketsWork) (root : Ledger) : outcome (ApplyBucketsWork * Ledger) :=
  match mSnapApplicator w, mCurrApplicator w with
  | Some a, _ =>
      r ← workAdvance a root;
      mret (mkWork (work_mLevel w) (mApplying w) (Some r.1) (mCurrApplicator w), r.2)
  | None, Some a =>
      r ← workAdvance a root;
      mret (mkWork (work_mLevel w) (mApplying w) (mSnapApplicator w) (Some r.1), r.2)
  | None, None => mret (w, root)
  end.
(** Has the applicator more to do? *)
Definition unfinished (applicator : option (list BucketEntry)) : bool :=
  match applicator with Some (_ :: _) => true | _ => false end.
Definition onSuccess (w : ApplyBucketsWork) : WorkState * ApplyBucketsWork :=
  if unfinished (mSnapApplicator w) then (WORK_RUNNING, w)
  else
    let w := mkWork (work_mLevel w) (mApplying w) None (mCurrApplicator w) in
    if unfinished (mCurrApplicator w) then (WORK_RUNNING, w)
    else
      let w := mkWork (work_mLevel w) (mApplying w) None None in
      match work_mLevel w with
      | S level => (WORK_PENDING, mkWork level (mApplying w) None None)
      | O => (WORK_SUCCESS, w)
      end.
(** [Work::run] and [Work::complete]: one turn of the scheduler. *)
Definition turn (st : WorkState) (w : ApplyBucketsWork) (root : Ledger)
    : outcome (WorkState * ApplyBucketsWork * Ledger) :=
  r ← match st with WORK_PENDING => onStart w root | _ => mret (w, root) end;
  r ← onRun r.1 r.2;
  mret (onSuccess r.1, r.2).
Fixpoint runWork (fuel : nat) (st : WorkState) (w : ApplyBucketsWork) (root : Ledger)
    : outcome (WorkState * Ledger) :=
  match st, fuel with
  | WORK_SUCCESS, _ | _, O => mret (st, root)
  | _, S fuel => r ← turn st w root; runWork fuel r.1.1 r.1.2 r.2
  end.
Definition applyBuckets (fuel : nat) (root : Ledger) : outcome (WorkState * Ledger) :=
  runWork fuel WORK_PENDING onReset root.
End Work.

(** ** One entry *)
Definition applyEntryMap (e : BucketEntry) (m : gmap LedgerKey LedgerEntry) : gmap LedgerKey LedgerEntry :=
  match e with LIVEENTRY e => <[LedgerEntryKey e := e]> m | DEADENTRY k => delete k m end.
Lemma lookup_applyEntryMap e m k :
  applyEntryMap e m !! k = if bool_decide (entryKey e = k) then entryLive e else m !! k.
Proof.
  destruct e as [e|d]; cbn; case_bool_decide; subst;
    by rewrite ?lookup_insert_eq, ?lookup_delete_eq, ?lookup_insert_ne, ?lookup_delete_ne.
Qed.
(** A transaction between two entries: nothing is active. *)
Definition idle (ltx : LedgerTxn) (root : Ledger) : Prop :=
  chain_ok (Txn ltx root) /\ mActive ltx = ∅ /\ mIsSealed ltx = false /\ mChild ltx = false /\
  mShouldUpdateLastModified ltx = false.
Lemma usable ltx : mIsSealed ltx = false -> mChild ltx = false -> throwIfNotUsable ltx = Ok tt.
Proof. intros. by apply throwIfNotUsable_Ok. Qed.
(** Operations that leave nothing active. *)
Lemma idle_ops os ltx root ltx' :
  idle ltx root -> Forall op_respects_keys os -> run_ops os ltx root = Ok ltx' -> mActive ltx' = ∅ ->
  idle ltx' root /\ flat_ops os (abs (Txn ltx root)) = Some (abs (Txn ltx' root)).
Proof.
  intros (H1 & H2 & H3 & H4 & H5) Hk Hrun Ha.
  destruct (run_ops_simulation os ltx root ltx' H1 Hk Hrun) as (R1 & R2 & R3 & R4 & R5).
  split; [|done]. unfold idle. by rewrite R3, R4, R5.
Qed.
(** Both branches of [applyEntry] run operations of the ledger transaction. *)
Definition entryOps (e : BucketEntry) (found : bool) : list ltx_op :=
  match e with
  | LIVEENTRY x =>
      let key := LedgerEntryKey x in
      if found then [OpLoad key; OpWrite key x; OpDeactivate key]
      else [OpLoad key; OpCreate x; OpDeactivate key]
  | DEADENTRY key => if found then [OpLoad key; OpErase key] else [OpLoad key]
  end.
Definition found (e : BucketEntry) (ltx : LedgerTxn) (root : Ledger) : bool :=
  bool_decide (is_Some (getNewestVersion (Txn ltx root) (entryKey e))).
Lemma applyEntry_ops e ltx root :
  idle ltx root ->
  exists ltx', applyEntry e ltx root = Ok ltx' /\
    run_ops (entryOps e (found e ltx root)) ltx root = Ok ltx' /\ mActive ltx' = ∅.
Proof.
  intros (H1 & Ha & Hs & Hc & _). pose proof (usable _ Hs Hc) as Hu.
  assert (Hload : forall k, load k ltx root = match getNewestVersion (Txn ltx root) k with
    | None => Ok (None, ltx)
    | Some newest => Ok (Some newest,
        set_mEntry (<[k := Some newest]> (mEntry ltx)) (set_mActive ({[k]} ∪ mActive ltx) ltx)) end).
  { intros k. unfold load. rewrite Hu. cbn. rewrite decide_False; [done|]. rewrite Ha. set_solver. }
  unfold found. destruct e as [x|k]; cbn [applyEntry entryOps entryKey].
  - set (key := LedgerEntryKey x). destruct (getNewestVersion (Txn ltx root) key) as [old|] eqn:E;
      [rewrite bool_decide_eq_true_2 by done|rewrite bool_decide_eq_false_2 by by intros [? ?]];
      cbn [run_ops run_op]; rewrite Hload, E; cbn.
    + unfold writeCurrent. cbn. rewrite decide_True by set_solver. cbn.
      unfold deactivate. cbn. rewrite decide_True by set_solver.
      eexists. split; [reflexivity|]. split; [reflexivity|]. cbn. rewrite Ha. set_solver.
    + unfold create. rewrite Hu. fold key. rewrite E. cbn.
      unfold deactivate. cbn. rewrite decide_True by set_solver.
      eexists. split; [reflexivity|]. split; [reflexivity|]. cbn. rewrite Ha. set_solver.
  - destruct (getNewestVersion (Txn ltx root) k) as [old|] eqn:E;
      [rewrite bool_decide_eq_true_2 by done|rewrite bool_decide_eq_false_2 by by intros [? ?]];
      cbn [run_ops run_op]; rewrite Hload, E; cbn.
    + unfold erase, throwIfNotUsable, throwIfSealed, throwIfChild. cbn. rewrite Hs, Hc, lookup_insert_eq. cbn.
      eexists. split; [reflexivity|]. split; [reflexivity|]. cbn. rewrite Ha. set_solver.
    + eexists. split; [reflexivity|]. split; [reflexivity|done].
Qed.
Lemma applyEntry_ok e ltx root :
  idle ltx root ->
  exists ltx', applyEntry e ltx root = Ok ltx' /\ idle ltx' root /\
    view (Txn ltx' root) = applyEntryMap e (view (Txn ltx root)) /\ mHeader ltx' = mHeader ltx.
Proof.
  intros Hi. destruct (applyEntry_ops e ltx root Hi) as (ltx' & H1 & H2 & H3).
  exists ltx'. split; [done|].
  assert (Hk : Forall op_respects_keys (entryOps e (found e ltx root))).
  { destruct e, (found _ _ _); by repeat constructor. }
  destruct (idle_ops _ _ _ _ Hi Hk H2 H3) as [Hi' Hf]. split; [done|]. unfold abs in Hf. cbn [getHeader] in Hf.
  unfold found in Hf. rewrite <- lookup_view in Hf. set (v := view (Txn ltx root)) in *.
  set (v' := view (Txn ltx' root)) in *.
  destruct e as [x|k]; cbn [entryKey] in Hf; [destruct (v !! LedgerEntryKey x) eqn:E|destruct (v !! k) eqn:E];
    [rewrite bool_decide_eq_true_2 in Hf by done|rewrite bool_decide_eq_false_2 in Hf by by intros [? ?]
    |rewrite bool_decide_eq_true_2 in Hf by done|rewrite bool_decide_eq_false_2 in Hf by by intros [? ?]];
    cbn [entryOps flat_ops flat_op mbind option_bind fst snd] in Hf; rewrite ?E in Hf;
    cbn [mbind option_bind] in Hf.
  - by injection Hf as <- <-.
  - by injection Hf as <- <-.
  - by injection Hf as <- <-.
  - injection Hf as <- ->. split; [|done]. cbn. symmetry. by apply delete_id.
Qed.

(** ** Many entries *)
Definition applyEntries (es : list BucketEntry) (m : gmap LedgerKey LedgerEntry) : gmap LedgerKey LedgerEntry :=
  fold_left (fun m e => applyEntryMap e m) es m.
Lemma applyEntries_app es es' m : applyEntries (es ++ es') m = applyEntries es' (applyEntries es m).
Proof. apply fold_left_app. Qed.
Lemma applyEntryMap_twice e m : applyEntryMap e (applyEntryMap e m) = applyEntryMap e m.
Proof. apply map_eq. intros k. rewrite !lookup_applyEntryMap. by case_bool_decide. Qed.
Lemma lookup_applyEntries b m k :
  sortedBucket b ->
  applyEntries b m !! k = match entryAt k b with Some e => entryLive e | None => m !! k end.
Proof.
  intros Hb. revert m. induction Hb as [|e b Hb IH He]; intros m; [done|].
  change (applyEntries (e :: b) m) with (applyEntries b (applyEntryMap e m)).
  rewrite IH, lookup_applyEntryMap. unfold entryAt. cbn [List.find].
  case_bool_decide as Hk; [|done]. destruct (List.find _ b) as [e'|] eqn:E; [|done].
  apply entryAt_Some in E as [Hin Hk']. rewrite Forall_forall in He. specialize (He e' Hin).
  rewrite BucketEntryIdCmp_irrefl in He; congruence.
Qed.
Lemma advanceLoop_ok count es ltx root :
  idle ltx root ->
  exists c rest ltx', advanceLoop count es ltx root = Ok (c, rest, ltx') /\ idle ltx' root /\
    mHeader ltx' = mHeader ltx /\
    applyEntries rest (view (Txn ltx' root)) = applyEntries es (view (Txn ltx root)) /\
    (length rest <= length es)%nat /\
    (es <> [] -> Z.land (count + 1) 255 <> 255 -> (length rest < length es)%nat).
Proof.
  revert count ltx. induction es as [|e es IH]; intros count ltx Hi; cbn [advanceLoop].
  { exists count, [], ltx. done. }
  destruct (applyEntry_ok e ltx root Hi) as (ltx1 & H1 & H2 & H3 & H4).
  rewrite H1. cbn [mbind outcome_bind].
  assert (E : applyEntries es (view (Txn ltx1 root)) = applyEntries (e :: es) (view (Txn ltx root))).
  { by rewrite H3. }
  destruct (Z.eqb_spec (Z.land (count + 1) 255) 255).
  - exists (count + 1), (e :: es), ltx1. split; [done|]. split; [done|]. split; [done|]. split; [|done].
    rewrite H3. change (applyEntries (e :: es) ?m) with (applyEntries es (applyEntryMap e m)).
    by rewrite applyEntryMap_twice.
  - destruct (IH (count + 1) ltx1 H2) as (c & rest & ltx' & R1 & R2 & R3 & R4 & R5 & R6).
    exists c, rest, ltx'. split; [done|]. split; [done|]. split; [congruence|]. split; [congruence|].
    cbn [length]. split; [lia|]. intros _ _. lia.
Qed.
(** A root that can be opened. *)
Definition open_root (l : Ledger) : Prop := exists r, l = Root r /\ rChild r = false /\ chain_ok l.
Lemma commit_root ltx r :
  idle ltx (Root r) ->
  exists l, commit ltx (Root r) = Ok l /\ open_root l /\ view l = view (Txn ltx (Root r)) /\
    getHeader l = mHeader ltx.
Proof.
  intros (H1 & _ & Hs & Hc & Hu). rewrite commit_Ok by done. eexists. split; [reflexivity|].
  assert (Hst : ((fun oe : option LedgerEntry => stamp ltx <$> oe) <$> mEntry ltx) = mEntry ltx).
  { apply map_eq. intros k. rewrite lookup_fmap. destruct (mEntry ltx !! k) as [[e|]|]; cbn; try done.
    unfold stamp. by rewrite Hu. }
  rewrite Hst. destruct H1 as (Hp & Hw & Hk & _). split.
  - eexists. split; [reflexivity|]. split; [done|].
    by apply (commitChild_chain_ok (mHeader ltx) (mEntry ltx) (Root r)).
  - split; [|done]. apply map_eq. intros k. rewrite view_commitChild. cbn. by rewrite lookup_overlay.
Qed.
Lemma advance_ok es root :
  open_root root ->
  exists c rest root', advance es root = Ok (c, rest, root') /\ open_root root' /\
    getHeader root' = getHeader root /\ applyEntries rest (view root') = applyEntries es (view root) /\
    (es <> [] -> (length rest < length es)%nat).
Proof.
  intros (r & -> & Hr & Hc). unfold advance, openTxn, addChild. rewrite Hr. cbn [mbind outcome_bind].
  set (r' := mkRoot true (rHeader r) (rEntries r) (rBestOffersCache r)).
  set (ltx := mkTxn _ _ _ _ _ _ _).
  assert (Hi : idle ltx (Root r')).
  { split; [|done]. split; [exact Hc|]. split; [done|].
    split; [|split]; cbn; intros *; [by rewrite lookup_empty..|set_solver]. }
  assert (Hv : view (Txn ltx (Root r')) = rEntries r).
  { apply map_eq. intros k. cbn. by rewrite lookup_overlay, lookup_empty. }
  destruct (advanceLoop_ok 0 es ltx (Root r') Hi) as (c & rest & ltx' & R1 & R2 & R3 & R4 & R5 & R6).
  rewrite R1. cbn [mbind outcome_bind].
  destruct (commit_root ltx' r' R2) as (l & C1 & C2 & C3 & C4). rewrite C1. cbn [mbind outcome_bind].
  exists c, rest, l. split; [done|]. split; [done|]. split; [by rewrite C4, R3|].
  split; [by rewrite C3, R4, Hv|]. intros Hne. by apply R6.
Qed.
Lemma applyWith_ok fuel es root :
  open_root root -> (length es <= fuel)%nat ->
  exists root', applyWith fuel es root = Ok root' /\ open_root root' /\
    getHeader root' = getHeader root /\ view root' = applyEntries es (view root).
Proof.
  revert es root. induction fuel as [|fuel IH]; intros es root Hr Hf; (destruct es as [|e es]; [by exists root|]).
  { cbn in Hf. lia. }
  destruct (advance_ok (e :: es) root Hr) as (c & rest & root1 & A1 & A2 & A3 & A4 & A5).
  cbn [applyWith]. rewrite A1. cbn [mbind outcome_bind fst snd].
  destruct (IH rest root1 A2) as (root' & R1 & R2 & R3 & R4).
  { specialize (A5 ltac:(done)). cbn in *. lia. }
  exists root'. split; [done|]. split; [done|]. split; congruence.
Qed.

(** ** From the bottom of the list to the top *)
Section Agreement.
Context (batches : Z -> list LedgerEntry * list LedgerKey).
(** [m] is the ledger after [b], but for keys that change up to [T]. *)
Definition agrees (T b : Z) (m : gmap LedgerKey LedgerEntry) : Prop := forall k,
  (is_Some (m !! k) -> mentioned batches 0 b k) /\
  (mentioned batches b T k \/
   (~ mentioned batches 0 b k /\ m !! k = None) \/
   exists e, latest batches 0 b k e /\ m !! k = entryLive e).
Lemma agrees_0 T : agrees T 0 ∅.
Proof using.
  intros k. rewrite lookup_empty. split; [by intros [? ?]|]. right. left. split; [|done].
  intros (t & Ht & _). lia.
Qed.
Lemma agrees_step T lo hi b m :
  0 <= lo <= hi -> covers batches T b lo hi -> agrees T lo m -> agrees T hi (applyEntries b m).
Proof using.
  intros Hle [Hs Hc] Hm k. rewrite lookup_applyEntries by done.
  destruct (Hc k) as [C1 C2], (Hm k) as [M1 M2]. split.
  - destruct (entryAt k b) as [e|] eqn:E.
    + intros _. destruct (C1 e eq_refl) as (t & Ht & Hk). exists t. split; [lia|by rewrite Hk].
    + intros H. by eapply mentioned_mono; [by apply M1| |]; lia.
  - destruct C2 as [?|C2]; [by left|]. destruct (entryAt k b) as [e|].
    { right. right. exists e. split; [|done]. eapply latest_up; [done|lia]. }
    destruct C2 as [C2|[-> C2]].
    + destruct M2 as [M2|[[M2 E]|(e & M2 & E)]].
      * apply (mentioned_split _ _ hi) in M2 as [?|?]; [done|by left].
      * right. left. split; [|done]. by intros [?|?]%(mentioned_split _ _ lo).
      * right. right. exists e. split; [|done]. eapply latest_down; [done..|lia].
    + right. right. exists (DEADENTRY k). split; [done|]. cbn.
      destruct (m !! k) eqn:E; [|done]. destruct (M1 (ex_intro _ _ eq_refl)) as (t & Ht & _). lia.
Qed.
Lemma agrees_end T m : agrees (Z.of_nat T) (Z.of_nat T) m -> m = ledgerAfter batches T.
Proof using.
  intros Hm. apply map_eq. intros k. destruct (Hm k) as [_ [(t & Ht & _)|[[M E]|(e & M & E)]]]; [lia|..].
  - by rewrite E, ledgerAfter_unmentioned.
  - rewrite E. symmetry. by apply ledgerAfter_latest.
Qed.
End Agreement.

(** The entries of the levels below [l], oldest first. *)
Fixpoint entriesBelow (L : list BucketLevel) (l : nat) : list BucketEntry :=
  match l with
  | O => []
  | S i => match L !! i with
           | Some level => mSnap level ++ mCurr level ++ entriesBelow L i
           | None => entriesBelow L i
           end
  end.
Lemma entriesBelow_agrees N batches T L l m :
  0 <= T -> list_ok N batches T L -> (l <= N)%nat ->
  agrees batches T (topCurr N l T) m -> agrees batches T T (applyEntries (entriesBelow L l) m).
Proof.
  intros HT [Hlen HL]. revert m. induction l as [|i IH]; intros m Hl Hm; [done|]. cbn [entriesBelow].
  destruct (lookup_lt_is_Some_2 L i ltac:(lia)) as [level Hi]. rewrite Hi.
  destruct (HL i level Hi) as (_ & H2 & H3 & _). pose proof (low_ordered N i T HT) as Ho.
  rewrite !applyEntries_app. apply IH; [lia|].
  eapply agrees_step; [|exact H2|]; [lia|]. by eapply agrees_step; [|exact H3|]; [lia|].
Qed.
Lemma entriesBelow_all N batches T L :
  (1 <= N)%nat -> list_ok N batches (Z.of_nat T) L ->
  applyEntries (entriesBelow L N) ∅ = ledgerAfter batches T.
Proof.
  intros HN HL. apply agrees_end. eapply entriesBelow_agrees; [lia|done|done|].
  destruct N as [|n]; [lia|]. cbn [topCurr]. unfold lowSnap. rewrite bool_decide_eq_false_2 by lia.
  apply agrees_0.
Qed.

(** ** The work *)
Definition stateOf (T : Z) (L : list BucketLevel) : HistoryArchiveState :=
  mkHas T (List.map (fun l => mkHsb (mCurr l) (mSnap l)) L).
#[local] Instance WorkState_eq_dec : EqDecision WorkState.
Proof. solve_decision. Defined.
Section Work.
Context (N T : nat) (L : list BucketLevel).
Hypothesis HN : (2 <= N <= 15)%nat.
Hypothesis HT : 1 <= Z.of_nat T < 2 ^ 32.
Hypothesis HL : length L = N.
Abbreviation has := (stateOf (Z.of_nat T) L).
Abbreviation fresh_list := (newBucketList (Z.of_nat N)).

Definition pendingOf (applicator : option (list BucketEntry)) : list BucketEntry :=
  match applicator with Some es => es | None => [] end.
(** What is still to be applied, oldest first. *)
Definition toApply (st : WorkState) (w : ApplyBucketsWork) : list BucketEntry :=
  match st with
  | WORK_PENDING => entriesBelow L (S (work_mLevel w))
  | WORK_RUNNING => pendingOf (mSnapApplicator w) ++ pendingOf (mCurrApplicator w) ++ entriesBelow L (work_mLevel w)
  | WORK_SUCCESS => []
  end.
(** A bound on the turns left. *)
Definition turnsLeft (st : WorkState) (w : ApplyBucketsWork) : nat :=
  match st with
  | WORK_PENDING => length (entriesBelow L (S (work_mLevel w))) + 3 * S (work_mLevel w)
  | WORK_RUNNING =>
      length (pendingOf (mSnapApplicator w)) + length (pendingOf (mCurrApplicator w))
      + (if mSnapApplicator w then 1 else 0) + 1
      + length (entriesBelow L (work_mLevel w)) + 3 * work_mLevel w
  | WORK_SUCCESS => 0
  end.
Definition work_ok (st : WorkState) (w : ApplyBucketsWork) (root : Ledger) : Prop :=
  open_root root /\ (work_mLevel w < N)%nat /\
  (st = WORK_PENDING -> mSnapApplicator w = None /\ mCurrApplicator w = None) /\
  (mApplying w = false -> view root = ∅ /\ mSnapApplicator w = None /\ mCurrApplicator w = None).

Lemma lookup_newBucketList i : (i < N)%nat -> fresh_list !! i = Some (newLevel (Z.of_nat i)).
Proof using.
  intros Hi. unfold newBucketList. rewrite list_lookup_fmap, Nat2Z.id.
  by rewrite lookup_seq_lt by done.
Qed.
Lemma delete_ok ledger root :
  open_root root -> view root = ∅ ->
  exists root', deleteObjectsModifiedOnOrAfterLedger ledger root = Ok root' /\ open_root root' /\
    view root' = ∅ /\ getHeader root' = getHeader root.
Proof using.
  intros (r & -> & Hr & Hc) Hv. cbn in *. rewrite Hr, Hv. eexists. split; [reflexivity|].
  cbn. rewrite map_filter_empty. split; [|done]. eexists. split; [reflexivity|]. split; [done|].
  cbn. intros k e. by rewrite lookup_empty.
Qed.
Lemma onStart_ok w root :
  work_ok WORK_PENDING w root ->
  exists w' root', onStart (Z.of_nat N) has fresh_list w root = Ok (w', root') /\
    work_ok WORK_RUNNING w' root' /\ getHeader root' = getHeader root /\
    applyEntries (toApply WORK_RUNNING w') (view root') = applyEntries (toApply WORK_PENDING w) (view root) /\
    (turnsLeft WORK_RUNNING w' <= turnsLeft WORK_PENDING w)%nat.
Proof using HN HT HL.
  intros (Hr & Hw & Hp & Hna). destruct (Hp eq_refl) as [Es Ec].
  destruct (lookup_lt_is_Some_2 L (work_mLevel w) ltac:(lia)) as [level Hl].
  unfold onStart, at_. rewrite lookup_newBucketList by done. cbn [currentBuckets stateOf].
  rewrite list_lookup_fmap, Hl. cbn [fmap option_fmap option_map mret outcome_ret mbind outcome_bind].
  cbn [hsb_snap hsb_curr mSnap mCurr newLevel].
  set (applySnap := bool_decide (mSnap level <> [])). set (applyCurr := bool_decide (mCurr level <> [])).
  assert (Hdel : exists root', (if negb (mApplying w) && (applySnap || applyCurr)
      then oldestLedger ← orThrow
             (if applySnap then oldestLedgerInSnap (Z.of_nat N) (currentLedger has) (Z.of_nat (work_mLevel w))
              else oldestLedgerInCurr (Z.of_nat N) (currentLedger has) (Z.of_nat (work_mLevel w)));
           deleteObjectsModifiedOnOrAfterLedger oldestLedger root
      else mret root) = Ok root' /\ open_root root' /\ view root' = view root /\
      getHeader root' = getHeader root).
  { destruct (negb (mApplying w) && (applySnap || applyCurr)) eqn:E; [|by exists root].
    apply andb_true_iff in E as [E%negb_true_iff _]. destruct (Hna E) as (Hv & _ & _).
    cbn [currentLedger stateOf]. rewrite oldestLedgerInSnap_spec, oldestLedgerInCurr_spec by done.
    destruct applySnap; cbn [orThrow mret outcome_ret mbind outcome_bind];
      match goal with |- context [deleteObjectsModifiedOnOrAfterLedger ?t root] =>
        destruct (delete_ok t root Hr Hv) as (root' & D1 & D2 & D3 & D4) end;
      exists root'; rewrite Hv; eauto. }
  destruct Hdel as (root' & D1 & D2 & D3 & D4). rewrite D1. cbn [mret outcome_ret mbind outcome_bind].
  eexists. exists root'. split; [reflexivity|].
  assert (Hsnap : applySnap = false -> mSnap level = []).
  { intros E%bool_decide_eq_false. by destruct (mSnap level); [|destruct E]. }
  assert (Hcurr : applyCurr = false -> mCurr level = []).
  { intros E%bool_decide_eq_false. by destruct (mCurr level); [|destruct E]. }
  unfold work_ok. rewrite D3, D4. cbn [toApply turnsLeft entriesBelow]. rewrite Hl, !length_app.
  destruct w as [lv ap sn cu]. cbn in *. subst sn cu.
  destruct ap, applySnap, applyCurr; cbn; rewrite ?Hsnap, ?Hcurr by done; cbn;
    repeat split; try done; try lia; naive_solver.
Qed.
Lemma workAdvance_ok es root :
  open_root root ->
  exists rest root', workAdvance es root = Ok (rest, root') /\ open_root root' /\
    getHeader root' = getHeader root /\ applyEntries rest (view root') = applyEntries es (view root) /\
    (es = [] /\ rest = [] \/ (length rest < length es)%nat).
Proof using.
  intros Hr. destruct es as [|e es].
  { exists [], root. cbn. split; [done|]. split; [done|]. split; [done|]. split; [done|]. by left. }
  destruct (advance_ok (e :: es) root Hr) as (c & rest & root' & A1 & A2 & A3 & A4 & A5).
  exists rest, root'. unfold workAdvance. rewrite A1. cbn. split; [done|]. split; [done|]. split; [done|].
  split; [done|]. right. by apply A5.
Qed.
(** [onRun], then [onSuccess]. *)
Lemma run_ok w root :
  work_ok WORK_RUNNING w root ->
  exists w' root', onRun w root = Ok (w', root') /\
    let s := onSuccess w' in
    work_ok s.1 s.2 root' /\ getHeader root' = getHeader root /\
    applyEntries (toApply s.1 s.2) (view root') = applyEntries (toApply WORK_RUNNING w) (view root) /\
    (turnsLeft s.1 s.2 < turnsLeft WORK_RUNNING w)%nat.
Proof using HN HT HL.
  intros (Hr & Hw & _ & Hna). destruct w as [lv ap sn cu]. unfold onRun. cbn in *.
  destruct sn as [es|]; [|destruct cu as [es|]].
  - assert (ap = true) as -> by (destruct ap; [done|]; by destruct (Hna eq_refl) as (_ & ? & _)).
    destruct (workAdvance_ok es root Hr) as (rest & root' & A1 & A2 & A3 & A4 & A5).
    rewrite A1. cbn. eexists. exists root'. split; [reflexivity|]. cbv zeta.
    assert (Hlen : (length rest <= length es)%nat) by (destruct A5 as [[-> ->]|]; lia).
    rewrite applyEntries_app, <- A4, <- applyEntries_app.
    destruct rest as [|x rest]; cbn; [|destruct A5 as [[_ ?]|A5]; [done|cbn in *; repeat split; (done || lia)]].
    destruct cu as [[|y cu]|]; cbn; [destruct lv; cbn..|destruct lv; cbn];
      repeat split; try done; cbn in *; try lia.
  - assert (ap = true) as -> by (destruct ap; [done|]; by destruct (Hna eq_refl) as (_ & _ & ?)).
    destruct (workAdvance_ok es root Hr) as (rest & root' & A1 & A2 & A3 & A4 & A5).
    rewrite A1. cbn. eexists. exists root'. split; [reflexivity|]. cbv zeta.
    rewrite applyEntries_app, <- A4, <- applyEntries_app.
    destruct rest as [|x rest]; cbn; [|destruct A5 as [[_ ?]|A5]; [done|cbn in *; repeat split; (done || lia)]].
    destruct lv; cbn; repeat split; try done; cbn in *; try lia.
  - eexists. exists root. split; [reflexivity|]. cbv zeta. destruct lv; cbn;
      repeat split; try done; try (cbn; lia); try (by apply Hna).
Qed.
Lemma turn_ok st w root :
  st <> WORK_SUCCESS -> work_ok st w root ->
  exists st' w' root', turn (Z.of_nat N) has fresh_list st w root = Ok (st', w', root') /\
    work_ok st' w' root' /\ getHeader root' = getHeader root /\
    applyEntries (toApply st' w') (view root') = applyEntries (toApply st w) (view root) /\
    (turnsLeft st' w' < turnsLeft st w)%nat.
Proof using HN HT HL.
  intros Hst Hok.
  assert (Hstart : exists w1 root1,
    match st with WORK_PENDING => onStart (Z.of_nat N) has fresh_list w root | _ => mret (w, root) end
      = Ok (w1, root1) /\ work_ok WORK_RUNNING w1 root1 /\ getHeader root1 = getHeader root /\
    applyEntries (toApply WORK_RUNNING w1) (view root1) = applyEntries (toApply st w) (view root) /\
    (turnsLeft WORK_RUNNING w1 <= turnsLeft st w)%nat).
  { destruct st; [by apply onStart_ok|by exists w, root|done]. }
  destruct Hstart as (w1 & root1 & S1 & S2 & S3 & S4 & S5).
  destruct (run_ok w1 root1 S2) as (w2 & root2 & R1 & R2 & R3 & R4 & R5).
  unfold turn. rewrite S1. cbn [mbind outcome_bind fst snd]. rewrite R1. cbn [mbind outcome_bind fst snd mret outcome_ret].
  destruct (onSuccess w2) as [st' w'] eqn:E. exists st', w', root2. cbn [fst snd] in *.
  split; [done|]. split; [done|]. split; [congruence|]. split; [congruence|lia].
Qed.
Lemma runWork_ok fuel st w root :
  work_ok st w root -> (turnsLeft st w <= fuel)%nat ->
  exists root', runWork (Z.of_nat N) has fresh_list fuel st w root = Ok (WORK_SUCCESS, root') /\
    getHeader root' = getHeader root /\ view root' = applyEntries (toApply st w) (view root).
Proof using HN HT HL.
  revert st w root. induction fuel as [|fuel IH]; intros st w root Hok Hf.
  { exists root. destruct st; [exfalso; cbn in Hf; lia..|done]. }
  destruct (decide (st = WORK_SUCCESS)) as [->|Hne]; [by exists root|].
  destruct (turn_ok st w root Hne Hok) as (st' & w' & root1 & T1 & T2 & T3 & T4 & T5).
  destruct (IH st' w' root1 T2 ltac:(lia)) as (root' & R1 & R2 & R3).
  exists root'. split; [|split; congruence].
  destruct st; [..|done]; cbn [runWork]; rewrite T1; exact R1.
Qed.
End Work.

(** * Catching up *)

(** No batch mentions a key twice as live, or twice as dead. *)
Definition distinct_batches (batches : Z -> list LedgerEntry * list LedgerKey) : Prop :=
  forall t, NoDup (LedgerEntryKey <$> (batches t).1) /\ NoDup (batches t).2.

(** C9. After [T] ledgers, whatever they changed, the bucket list has been
    built without a failed assertion, and the catch-up work that applies its
    buckets to an empty ledger ends in success with exactly the ledger the
    batches produce: no entry is lost to a shadow, to a merge or to the dropping
    of dead entries, none is stale, and none is resurrected. *)
Theorem buckets_rebuild_ledger `{StdSort} (N T : nat) batches (root : Ledger) :
  (2 <= N <= 15)%nat -> 1 <= Z.of_nat T < 2 ^ 31 -> distinct_batches batches ->
  open_root root -> view root = ∅ ->
  exists L, closeLedgers N batches T = Ok L /\
  exists turns, forall fuel, (turns <= fuel)%nat -> exists root',
    applyBuckets (Z.of_nat N) (stateOf (Z.of_nat T) L) (newBucketList (Z.of_nat N)) fuel root
      = Ok (WORK_SUCCESS, root') /\
    view root' = ledgerAfter batches T /\ getHeader root' = getHeader root.
Proof.
  intros HN HT Hb Hr Hv.
  destruct (closeLedgers_ok N batches ltac:(lia) Hb T ltac:(lia)) as (L & HL & Hok).
  exists L. split; [done|]. set (w := onReset (Z.of_nat N)).
  exists (turnsLeft L WORK_PENDING w). intros fuel Hf.
  assert (Hw : work_mLevel w = (N - 1)%nat) by (cbn; lia).
  destruct (runWork_ok N T L HN ltac:(lia) (proj1 Hok) fuel WORK_PENDING w root) as (root' & R1 & R2 & R3);
    [|done|].
  { split; [done|]. split; [lia|]. split; [done|]. intros _. by rewrite Hv. }
  exists root'. split; [exact R1|]. split; [|done]. rewrite R3, Hv. cbn [toApply]. rewrite Hw.
  replace (S (N - 1)) with N by lia. apply entriesBelow_all; [lia|done].
Qed.

Lemma covers_empty_nil batches T b lo : covers batches T b lo lo -> b = [].
Proof.
  intros Hc. destruct b as [|e b]; [done|]. exfalso.
  pose proof (covers_empty _ _ _ _ (entryKey e) Hc) as He. unfold entryAt in He. cbn in He.
  by rewrite bool_decide_eq_true_2 in He.
Qed.
(** [size] ledgers from [oldest] on. *)
Definition holds (batches : Z -> list LedgerEntry * list LedgerKey) (T size oldest : Z) (b : Bucket) : Prop :=
  if size =? 0 then b = [] /\ oldest = UINT32_MAX
  else 1 <= oldest /\ oldest + size - 1 <= T /\ covers batches T b (oldest - 1) (oldest + size - 1).
Lemma holds_range batches T b lo hi :
  0 <= lo <= hi -> hi <= T -> covers batches T b lo hi ->
  holds batches T (hi - lo) (if hi - lo =? 0 then UINT32_MAX else lo + 1) b.
Proof.
  intros H1 H2 Hc. unfold holds. destruct (Z.eqb_spec (hi - lo) 0) as [E|E].
  - replace hi with lo in Hc by lia. split; [by eapply covers_empty_nil|done].
  - split; [lia|]. split; [lia|]. replace (lo + 1 - 1) with lo by lia.
    by replace (lo + 1 + (hi - lo) - 1) with hi by lia.
Qed.
(** C10. [sizeOfCurr], [sizeOfSnap], [oldestLedgerInCurr] and
    [oldestLedgerInSnap], computed from the ledger number alone, always return,
    and describe the buckets the list has built: each bucket covers the changes
    of that many ledgers from that ledger on, and the sizes of all levels add up
    to the number of ledgers. *)
Theorem sizes_describe_buckets `{StdSort} (N T i : nat) batches L l :
  (2 <= N <= 15)%nat -> 1 <= Z.of_nat T < 2 ^ 31 -> distinct_batches batches ->
  closeLedgers N batches T = Ok L -> L !! i = Some l ->
  let k := Z.of_nat N in let t := Z.of_nat T in let lev := Z.of_nat i in
  (exists c o, sizeOfCurr k t lev = Some c /\ oldestLedgerInCurr k t lev = Some o /\
     holds batches t c o (mCurr l)) /\
  (exists s o, sizeOfSnap k t lev = Some s /\ oldestLedgerInSnap k t lev = Some o /\
     holds batches t s o (mSnap l)) /\
  countAbove k t k = Some 0.
Proof.
  intros HN HT Hb HL Hi k t lev.
  destruct (closeLedgers_ok N batches ltac:(lia) Hb T ltac:(lia)) as (L' & HL' & Hlen & Hok).
  rewrite HL in HL'. injection HL' as <-. pose proof (lookup_lt_Some _ _ _ Hi) as Hlt.
  destruct (Hok i l Hi) as (_ & H2 & H3 & _). pose proof (low_ordered N i t ltac:(lia)) as Ho.
  pose proof (topCurr_le N 0 i t ltac:(lia) ltac:(lia)) as Ht. cbn [topCurr] in Ht.
  unfold k, t, lev. rewrite sizeOfCurr_spec, sizeOfSnap_spec, oldestLedgerInCurr_spec, oldestLedgerInSnap_spec,
    countAbove_spec by lia.
  split; [|split].
  - eexists _, _. split; [done|]. split; [done|].
    apply (holds_range batches t (mCurr l) (lowCurr N i t) (topCurr N i t)); [lia|lia|done].
  - eexists _, _. split; [done|]. split; [done|].
    apply (holds_range batches t (mSnap l) (lowSnap N i t) (lowCurr N i t)); [lia|lia|done].
  - destruct N as [|n]; [lia|]. cbn [topCurr]. unfold lowSnap. rewrite bool_decide_eq_false_2 by lia. done.
Qed.

(** ** A ledger that creates an account and one that removes it *)
#[local] Existing Instance insertion_StdSort.
Definition one_account (t : Z) : list LedgerEntry * list LedgerKey :=
  if t =? 1 then ([sample_entry 1 100], []) else if t =? 2 then ([], [KeyAccount 1]) else ([], []).
Lemma one_account_distinct : distinct_batches one_account.
Proof.
  intros t. unfold one_account. destruct (t =? 1); [|destruct (t =? 2)]; cbn;
    split; repeat constructor; set_solver.
Qed.
Definition sample_list (T : nat) : list BucketLevel :=
  match closeLedgers 2 one_account T with Ok L => L | Throw _ => [] end.
Definition empty_root : Ledger := Root (mkRoot false sample_header ∅ ∅).
Lemma empty_root_open : open_root empty_root.
Proof. eexists. split; [reflexivity|]. split; [done|]. intros k e. cbn. by rewrite lookup_empty. Qed.

Lemma buckets_rebuild_ledger_witness :
  exists L, closeLedgers 3 one_account 5 = Ok L /\
  exists turns, forall fuel, (turns <= fuel)%nat -> exists root',
    applyBuckets 3 (stateOf 5 L) (newBucketList 3) fuel empty_root = Ok (WORK_SUCCESS, root') /\
    view root' = ledgerAfter one_account 5 /\ getHeader root' = getHeader empty_root.
Proof.
  apply (buckets_rebuild_ledger 3 5 one_account empty_root);
    [lia|lia|exact one_account_distinct|exact empty_root_open|reflexivity].
Defined.
Lemma sizes_describe_buckets_witness :
  exists l, sample_list 5 !! 1%nat = Some l /\
  (exists c o, sizeOfCurr 2 5 1 = Some c /\ oldestLedgerInCurr 2 5 1 = Some o /\
     holds one_account 5 c o (mCurr l)) /\
  (exists s o, sizeOfSnap 2 5 1 = Some s /\ oldestLedgerInSnap 2 5 1 = Some o /\
     holds one_account 5 s o (mSnap l)) /\
  countAbove 2 5 2 = Some 0.
Proof.
  eexists. split; [vm_compute; reflexivity|].
  apply (sizes_describe_buckets 2 5 1 one_account (sample_list 5));
    [lia|lia|exact one_account_distinct|vm_compute; reflexivity..].
Defined.

(** A bucket list that comes to the same buckets as the local one from a level
    on makes the work keep what the database has: here the account was created
    in the ledger the database is at, it is gone from the ledger to catch up
    with, and its dead entry has reached the bottom level, which keeps none.
    The database is left with the account. *)
Definition database_at_1 : Ledger :=
  Root (mkRoot false sample_header {[KeyAccount 1 := sample_entry 1 100]} ∅).
Example stale_entry :
  view database_at_1 = ledgerAfter one_account 1 /\ ledgerAfter one_account 6 = ∅ /\
  exists root', applyBuckets 2 (stateOf 6 (sample_list 6)) (sample_list 1) 50 database_at_1
    = Ok (WORK_SUCCESS, root') /\ view root' !! KeyAccount 1 = Some (sample_entry 1 100).
Proof.
  split; [by vm_compute|]. split; [by vm_compute|]. eexists. split; vm_compute; reflexivity.
Qed.
