(* ===== verification/LedgerTxnOffers.v ===== *)
(** Offer queries of nested ledger transactions: [getBestOffer],
    [getAllOffers], [getOffersByAccountAndAsset] and the loads built on them
    ([src/src/ledger/LedgerTxn.cpp]), down to the root's cache of best offers,
    which reads the sorted offer table in batches. *)

From Stdlib Require Import SpecFloat.
From stdpp Require Import sorting.
From S2P Require Import Prelude Numeric OfferMath Types Sums OfferOrder LedgerTxn.

Definition offer_key (o : OfferEntry) : LedgerKey :=
  KeyOffer (of_seller o) (of_offerID o).

Definition offer_of (e : LedgerEntry) : option OfferEntry :=
  match le_data e with OFFER o => Some o | _ => None end.

Definition trades (buying selling : Asset) (o : OfferEntry) : bool :=
  bool_decide (of_buying o = buying) && bool_decide (of_selling o = selling).

(** ** The offer table, in the order of its SQL query *)

(** [ORDER BY price, offerid] *)
Definition book_le (a b : OfferEntry) : Prop :=
  match lexcmp (fkey (double_price (of_price a)))
               (fkey (double_price (of_price b))) with
  | Lt => True
  | Eq => of_offerID a <= of_offerID b
  | Gt => False
  end.

#[export] Instance book_le_dec : RelDecision book_le.
Proof. intros a b. unfold book_le. destruct (lexcmp _ _); apply _. Defined.

Definition book (entries : gmap LedgerKey LedgerEntry) (buying selling : Asset)
    : list OfferEntry :=
  merge_sort book_le
    (filter (fun o => trades buying selling o = true)
       (omap (fun kv : LedgerKey * LedgerEntry => offer_of kv.2)
          (map_to_list entries))).

(** [LIMIT n OFFSET o] *)
Definition loadBestOffers (sorted : list OfferEntry) (numOffers offset : nat)
    : list OfferEntry := take numOffers (drop offset sorted).

(** ** [LedgerTxnRoot::Impl::getBestOffer] *)
Fixpoint findIncludedOffer (offers : list OfferEntry)
    (exclude : gset LedgerKey) : option OfferEntry :=
  match offers with
  | [] => None
  | o :: rest =>
      if decide (offer_key o ∈ exclude) then findIncludedOffer rest exclude
      else Some o
  end.

Definition BATCH_SIZE : nat := 5.

(** The [while (!res && !cached.allLoaded)] loop. Every round but the last
    loads a full batch, so [length sorted] rounds are enough. *)
Fixpoint loadBatches (fuel : nat) (sorted : list OfferEntry)
    (exclude : gset LedgerKey) (res : option OfferEntry)
    (cached : BestOffersCacheEntry)
    : option OfferEntry * BestOffersCacheEntry :=
  match fuel with
  | O => (res, cached)
  | S fuel =>
      if bool_decide (res = None) && negb (allLoaded cached) then
        let fresh := loadBestOffers sorted BATCH_SIZE
                       (length (bestOffers cached)) in
        loadBatches fuel sorted exclude (findIncludedOffer fresh exclude)
          (mkCache (bestOffers cached ++ fresh)
             (bool_decide (length fresh < BATCH_SIZE)%nat))
      else (res, cached)
  end.

Definition rootBestOffer (r : LedgerTxnRoot) (buying selling : Asset)
    (exclude : gset LedgerKey) : option OfferEntry * LedgerTxnRoot :=
  let sorted := book (rEntries r) buying selling in
  let cached := default (mkCache [] false)
                  (rBestOffersCache r !! (buying, selling)) in
  let res := findIncludedOffer (bestOffers cached) exclude in
  let '(res, cached) :=
    loadBatches (S (length sorted)) sorted exclude res cached in
  (res, mkRoot (rChild r) (rHeader r) (rEntries r)
          (<[(buying, selling) := cached]> (rBestOffersCache r))).

(** ** [LedgerTxn::Impl::getBestOffer] *)
Definition bestOfferStep (buying selling : Asset) (key : LedgerKey)
    (oe : option LedgerEntry) (acc : option OfferEntry * gset LedgerKey)
    : option OfferEntry * gset LedgerKey :=
  let '(best, exclude) := acc in
  if negb (is_offer_key key) then acc
  else if decide (key ∈ exclude) then acc
  else
    let exclude := {[key]} ∪ exclude in
    match oe ≫= offer_of with
    | Some o =>
        if trades buying selling o then (keep_better best o, exclude)
        else (best, exclude)
    | None => (best, exclude)
    end.

Fixpoint getBestOffer (l : Ledger) (buying selling : Asset)
    (exclude : gset LedgerKey) : option OfferEntry * Ledger :=
  match l with
  | Root r =>
      let '(res, r') := rootBestOffer r buying selling exclude in
      (res, Root r')
  | Txn t parent =>
      let '(best, exclude) :=
        map_fold (bestOfferStep buying selling) (None, exclude) (mEntry t) in
      let '(parentBest, parent') :=
        getBestOffer parent buying selling exclude in
      (better_of best parentBest, Txn t parent')
  end.

(** The loaded entry and the chain afterwards. *)
Definition loadBestOffer (buying selling : Asset) (t : LedgerTxn)
    (parent : Ledger) : outcome (option LedgerEntry * Ledger) :=
  _ ← throwIfNotUsable t;
  match getBestOffer (Txn t parent) buying selling ∅ with
  | (Some o, Txn t' parent') =>
      '(e, t'') ← load (offer_key o) t' parent';
      Ok (e, Txn t'' parent')
  | (_, l') => Ok (None, l')
  end.

(** ** [getAllOffers] and [getOffersByAccountAndAsset] *)
Fixpoint getAllOffers (l : Ledger) : gmap LedgerKey LedgerEntry :=
  match l with
  | Root r => filter (fun kv => is_offer_key kv.1 = true) (rEntries r)
  | Txn t parent =>
      map_fold (fun key oe offers =>
        if negb (is_offer_key key) then offers
        else match oe with
             | None => delete key offers
             | Some e => <[key := e]> offers
             end) (getAllOffers parent) (mEntry t)
  end.

Definition by_account_and_asset (account : AccountID) (asset : Asset)
    (e : LedgerEntry) : bool :=
  match offer_of e with
  | Some o => (of_seller o =? account) &&
                (bool_decide (of_selling o = asset)
                 || bool_decide (of_buying o = asset))
  | None => false
  end.

Fixpoint getOffersByAccountAndAsset (l : Ledger) (account : AccountID)
    (asset : Asset) : gmap LedgerKey LedgerEntry :=
  match l with
  | Root r =>
      filter (fun kv => is_offer_key kv.1 && by_account_and_asset account asset kv.2
                        = true) (rEntries r)
  | Txn t parent =>
      map_fold (fun key oe offers =>
        if negb (is_offer_key key) then offers
        else match oe with
             | None => delete key offers
             | Some e =>
                 if by_account_and_asset account asset e
                 then <[key := e]> offers else delete key offers
             end) (getOffersByAccountAndAsset parent account asset) (mEntry t)
  end.

(** The loads put a handle on every key; a failure restores [mEntry], which
    an [outcome] does by itself. *)
Fixpoint loadKeys (keys : list LedgerKey) (t : LedgerTxn) (parent : Ledger)
    : outcome (list (LedgerKey * option LedgerEntry) * LedgerTxn) :=
  match keys with
  | [] => Ok ([], t)
  | k :: rest =>
      '(e, t) ← load k t parent;
      '(es, t) ← loadKeys rest t parent;
      Ok ((k, e) :: es, t)
  end.

Definition sellerID_of (k : LedgerKey) : AccountID :=
  match k with
  | KeyAccount a => a | KeyTrustLine a _ => a
  | KeyOffer a _ => a | KeyData a _ => a
  end.

(** [offersByAccount[sellerID].emplace_back(...)], in the order of the loads. *)
Definition groupBySeller (es : list (LedgerKey * option LedgerEntry))
    : gmap AccountID (list (option LedgerEntry)) :=
  foldl (fun m kv => partial_alter (fun v => Some (default [] v ++ [kv.2]))
                       (sellerID_of kv.1) m) ∅ es.

Definition loadAllOffers (t : LedgerTxn) (parent : Ledger)
    : outcome (gmap AccountID (list (option LedgerEntry)) * LedgerTxn) :=
  _ ← throwIfNotUsable t;
  '(es, t) ←
    loadKeys (map_to_list (getAllOffers (Txn t parent))).*1 t parent;
  Ok (groupBySeller es, t).

Definition loadOffersByAccountAndAsset (account : AccountID) (asset : Asset)
    (t : LedgerTxn) (parent : Ledger)
    : outcome (list (option LedgerEntry) * LedgerTxn) :=
  _ ← throwIfNotUsable t;
  '(es, t) ← loadKeys (map_to_list
    (getOffersByAccountAndAsset (Txn t parent) account asset)).*1 t parent;
  Ok (es.*2, t).

(** * The sorted table *)

#[export] Instance book_le_total : Total book_le.
Proof.
  intros a b. unfold book_le.
  generalize (fkey (double_price (of_price a)))
    (fkey (double_price (of_price b))).
  intros [[a1 a2] a3] [[b1 b2] b3].
  pose proof (lexcmp_cases (a1, a2, a3) (b1, b2, b3)).
  pose proof (lexcmp_cases (b1, b2, b3) (a1, a2, a3)).
  destruct (lexcmp (a1, a2, a3) (b1, b2, b3)),
    (lexcmp (b1, b2, b3) (a1, a2, a3)); cbn in *; simplify_eq; auto; lia.
Qed.

#[export] Instance book_le_trans : Transitive book_le.
Proof.
  intros a b c. unfold book_le.
  generalize (fkey (double_price (of_price a)))
    (fkey (double_price (of_price b))) (fkey (double_price (of_price c))).
  intros [[a1 a2] a3] [[b1 b2] b3] [[c1 c2] c3].
  pose proof (lexcmp_cases (a1, a2, a3) (b1, b2, b3)).
  pose proof (lexcmp_cases (b1, b2, b3) (c1, c2, c3)).
  pose proof (lexcmp_cases (a1, a2, a3) (c1, c2, c3)).
  destruct (lexcmp (a1, a2, a3) (b1, b2, b3)),
    (lexcmp (b1, b2, b3) (c1, c2, c3)), (lexcmp (a1, a2, a3) (c1, c2, c3));
    cbn in *; intros; simplify_eq; try done; lia.
Qed.

(** The query's order is [isBetterOffer]'s. *)
Lemma book_le_better a b :
  valid_offer_price a -> valid_offer_price b ->
  book_le a b -> isBetterOffer b a = false.
Proof.
  intros Ha Hb. rewrite isBetterOffer_cases by auto. unfold book_le.
  generalize (fkey (double_price (of_price a)))
    (fkey (double_price (of_price b))).
  intros x y. pose proof (lexcmp_cases x y). pose proof (lexcmp_cases y x).
  destruct (lexcmp x y), (lexcmp y x); intros; subst; try done; try lia;
    apply Z.ltb_ge; lia.
Qed.

Lemma elem_of_book entries b s o :
  o ∈ book entries b s <->
  trades b s o = true /\
  exists k e, entries !! k = Some e /\ offer_of e = Some o.
Proof.
  unfold book. rewrite merge_sort_Permutation, list_elem_of_filter.
  rewrite list_elem_of_omap. split.
  - intros (? & [k e] & Hke%elem_of_map_to_list & ?). eauto.
  - intros (? & k & e & ? & ?). split; [done|]. exists (k, e).
    by rewrite elem_of_map_to_list.
Qed.

Lemma findIncludedOffer_app l1 l2 ex :
  findIncludedOffer (l1 ++ l2) ex =
    match findIncludedOffer l1 ex with
    | Some o => Some o
    | None => findIncludedOffer l2 ex
    end.
Proof. induction l1 as [|o l1 IH]; cbn; [done|]. by case_decide. Qed.

(** ** The batched, cached scan sees the whole table *)

Definition cache_ok (sorted : list OfferEntry) (c : BestOffersCacheEntry)
    : Prop :=
  bestOffers c = take (length (bestOffers c)) sorted /\
  (allLoaded c = true -> bestOffers c = sorted).

Lemma cache_ok_prefix sorted c rest :
  cache_ok sorted c -> rest = drop (length (bestOffers c)) sorted ->
  sorted = bestOffers c ++ rest.
Proof.
  intros [Hp _] ->. rewrite Hp at 1. symmetry. apply take_drop.
Qed.

Lemma loadBatches_correct fuel sorted ex c :
  cache_ok sorted c ->
  (allLoaded c = true \/ length sorted < fuel + length (bestOffers c))%nat ->
  let '(res, c') := loadBatches fuel sorted ex
                      (findIncludedOffer (bestOffers c) ex) c in
  res = findIncludedOffer sorted ex /\ cache_ok sorted c'.
Proof.
  revert c. induction fuel as [|fuel IH]; intros c Hc Hf; cbn [loadBatches].
  - split; [|done]. destruct Hc as [Hp Ha], Hf as [Hf|Hf].
    + by rewrite Ha.
    + apply (f_equal length) in Hp. rewrite length_take in Hp. lia.
  - pose proof (cache_ok_prefix sorted c _ Hc eq_refl) as Hs.
    destruct (findIncludedOffer (bestOffers c) ex) as [o|] eqn:E; cbn [andb].
    { rewrite bool_decide_eq_false_2 by done. cbn [andb]. split; [|done].
      by rewrite Hs, findIncludedOffer_app, E. }
    rewrite bool_decide_eq_true_2 by done. cbn [andb].
    destruct (allLoaded c) eqn:Eall; cbn [negb].
    { split; [|done]. destruct Hc as [_ Ha]. by rewrite <- Ha. }
    set (fresh := loadBestOffers _ _ _). set (c' := mkCache _ _).
    assert (findIncludedOffer fresh ex = findIncludedOffer (bestOffers c') ex)
      as -> by (cbn; by rewrite findIncludedOffer_app, E).
    apply IH.
    + assert (bestOffers c ++ fresh
              = take (length (bestOffers c) + BATCH_SIZE) sorted) as Hfresh.
      { unfold fresh, loadBestOffers.
        rewrite (proj1 Hc) at 1. apply take_take_drop. }
      unfold cache_ok, c'. cbn [bestOffers allLoaded]. split.
      * rewrite Hfresh, length_take.
        destruct (decide (length (bestOffers c) + BATCH_SIZE <= length sorted)%nat).
        -- by rewrite Nat.min_l.
        -- rewrite Nat.min_r by lia. by rewrite !take_ge by lia.
      * intros Hlt%bool_decide_eq_true. rewrite Hfresh. apply take_ge.
        unfold fresh, loadBestOffers in Hlt.
        rewrite length_take, length_drop in Hlt. lia.
    + unfold c'. cbn [bestOffers allLoaded].
      destruct (bool_decide _) eqn:Hlt; [by left|right].
      apply bool_decide_eq_false in Hlt. rewrite length_app.
      unfold BATCH_SIZE in *. destruct Hf as [?|Hf]; [congruence|]. lia.
Qed.

(** * The best offer of a chain *)

Definition is_best (P : OfferEntry -> Prop) (r : option OfferEntry) : Prop :=
  match r with
  | Some o => P o /\ forall o', P o' -> isBetterOffer o' o = false
  | None => forall o, ~ P o
  end.

Lemma is_best_ext P Q r : (forall o, P o <-> Q o) -> is_best P r -> is_best Q r.
Proof.
  intros E. destruct r as [o|]; cbn.
  - intros [Ho H]. split; [by apply E|]. intros o' Ho'. apply H. by apply E.
  - intros H o Ho. eapply H. by apply E.
Qed.

Lemma is_best_keep P r o :
  (forall x, P x \/ x = o -> valid_offer_price x) ->
  is_best P r -> is_best (fun x => P x \/ x = o) (keep_better r o).
Proof.
  intros Hv Hr. destruct r as [b|]; cbn in *.
  - destruct Hr as [Hb Hbest].
    assert (valid_offer_price b) by auto. assert (valid_offer_price o) by auto.
    destruct (isBetterOffer o b) eqn:E; split; auto.
    + intros x [Hx|Hx]; [|rewrite Hx; by apply isBetterOffer_irrefl].
      apply not_true_iff_false. intros Hxo.
      assert (isBetterOffer x b = true)
        by (eapply (isBetterOffer_trans x o b); auto).
      rewrite (Hbest x) in *; done.
    + intros x [Hx|Hx]; [by apply Hbest | by rewrite Hx].
  - split; [auto|]. intros x [Hx|Hx]; [by destruct (Hr x)|].
    rewrite Hx. apply isBetterOffer_irrefl. auto.
Qed.

Lemma is_best_union P Q r r' :
  (forall x, P x \/ Q x -> valid_offer_price x) ->
  is_best P r -> is_best Q r' ->
  is_best (fun x => P x \/ Q x) (better_of r r').
Proof.
  intros Hv Hr Hr'. destruct r as [a|], r' as [b|]; cbn in *.
  - destruct Hr as [Ha Hbest], Hr' as [Hb Hbest'].
    assert (valid_offer_price a) by auto. assert (valid_offer_price b) by auto.
    destruct (isBetterOffer a b) eqn:E; split; auto; intros x [Hx|Hx]; auto.
    + apply not_true_iff_false. intros Hxa.
      assert (isBetterOffer x b = true)
        by (eapply (isBetterOffer_trans x a b); auto).
      rewrite (Hbest' x) in *; done.
    + eapply (isBetterOffer_neg_trans x a b); auto.
  - destruct Hr as [Ha Hbest]. split; [auto|].
    intros x [Hx|Hx]; [auto | by destruct (Hr' x)].
  - destruct Hr' as [Hb Hbest]. split; [auto|].
    intros x [Hx|Hx]; [by destruct (Hr x) | auto].
  - intros x [Hx|Hx]; [by apply (Hr x) | by apply (Hr' x)].
Qed.

Lemma is_best_sorted sorted ex :
  StronglySorted book_le sorted ->
  (forall o, o ∈ sorted /\ offer_key o ∉ ex -> valid_offer_price o) ->
  is_best (fun o => o ∈ sorted /\ offer_key o ∉ ex)
    (findIncludedOffer sorted ex).
Proof.
  induction 1 as [|o l Hl IH Hall]; intros Hv; cbn.
  { intros o [?%elem_of_nil _]. done. }
  case_decide as Hin.
  - apply (is_best_ext (fun o => o ∈ l /\ offer_key o ∉ ex)).
    + intros x. rewrite elem_of_cons. split; [tauto|].
      intros [[->|?] ?]; [done|auto].
    + apply IH. intros x [Hx Hxe]. apply Hv. split; [by right|done].
  - split; [split; [by left|done]|]. intros x [Hx Hxe].
    assert (valid_offer_price o) by (apply Hv; split; [by left|done]).
    assert (valid_offer_price x) by (apply Hv; split; [done|done]).
    apply elem_of_cons in Hx as [Hx|Hx];
      [rewrite Hx; by apply isBetterOffer_irrefl|].
    apply book_le_better; auto. rewrite Forall_forall in Hall. by apply Hall.
Qed.

(** The offers of a map of entries for one pair, outside [exclude]. *)
Definition candidate (m : LedgerKey -> option LedgerEntry)
    (b s : Asset) (ex : gset LedgerKey) (o : OfferEntry) : Prop :=
  (exists e, m (offer_key o) = Some e /\ offer_of e = Some o) /\
  trades b s o = true /\ offer_key o ∉ ex.

Lemma offer_of_key e o : offer_of e = Some o -> LedgerEntryKey e = offer_key o.
Proof.
  unfold offer_of, LedgerEntryKey. destruct (le_data e); by intros [= ->].
Qed.

Lemma is_offer_key_inv k : is_offer_key k = true -> exists a i, k = KeyOffer a i.
Proof. destruct k; naive_solver. Qed.

Abbreviation held m := (fun k => mjoin (m !! k)) (only parsing).

Lemma candidate_insert b s ex i oe (m : EntryMap) x :
  m !! i = None ->
  candidate (held (<[i:=oe]> m)) b s ex x <->
  candidate (held m) b s ex x \/
  (offer_key x = i /\ (oe ≫= offer_of) = Some x /\ trades b s x = true /\ i ∉ ex).
Proof.
  intros Hi. unfold candidate. destruct (decide (offer_key x = i)) as [Ex|Ex].
  - rewrite Ex, lookup_insert_eq, Hi. cbn. split.
    + intros ((e & -> & Ho) & Ht & Hn). by right.
    + intros [((e & He & _) & _)|(_ & Ho & Ht & Hn)]; [done|].
      split; [|done]. destruct oe as [e|]; [by exists e|done].
  - rewrite lookup_insert_ne by done. split; [auto|].
    intros [?|[? _]]; [done|congruence].
Qed.

(** The set [exclude] after the keys of [m] have been visited. *)
Definition visited (ex ex' : gset LedgerKey) (m : EntryMap) : Prop :=
  forall k, k ∈ ex' <-> k ∈ ex \/ is_offer_key k = true /\ is_Some (m !! k).

Lemma visited_skip ex ex' (m : EntryMap) i oe :
  visited ex ex' m -> is_offer_key i = false \/ i ∈ ex ->
  visited ex ex' (<[i:=oe]> m).
Proof.
  intros Hv Hi k. rewrite (Hv k), lookup_insert_is_Some.
  destruct (decide (i = k)) as [<-|?]; [|tauto].
  destruct Hi as [Hi|Hi]; [rewrite Hi|]; split; try tauto;
    intros [?|[? _]]; done || tauto.
Qed.

Lemma visited_add ex ex' (m : EntryMap) i oe :
  visited ex ex' m -> is_offer_key i = true ->
  visited ex ({[i]} ∪ ex') (<[i:=oe]> m).
Proof.
  intros Hv Hi k. rewrite elem_of_union, elem_of_singleton, (Hv k).
  rewrite lookup_insert_is_Some.
  destruct (decide (i = k)) as [<-|?]; [tauto|].
  split; [intros [->|?]; [done|tauto] | tauto].
Qed.

(** What the loop has computed once the keys of [m] are visited. *)
Definition fold_inv (b s : Asset) (ex : gset LedgerKey)
    (acc : option OfferEntry * gset LedgerKey) (m : EntryMap) : Prop :=
  (forall k e, m !! k = Some (Some e) -> LedgerEntryKey e = k) ->
  (forall o, candidate (held m) b s ex o -> valid_offer_price o) ->
  is_best (candidate (held m) b s ex) acc.1 /\ visited ex acc.2 m.

Lemma bestOfferStep_inv b s ex i oe m acc :
  m !! i = None -> fold_inv b s ex acc m ->
  fold_inv b s ex (bestOfferStep b s i oe acc) (<[i:=oe]> m).
Proof.
  intros Hi IH Hk Hv. destruct acc as [best ex'].
  assert (forall x, candidate (held m) b s ex x ->
            candidate (held (<[i:=oe]> m)) b s ex x) as Hsub
    by (intros x Hx; apply candidate_insert; auto).
  destruct IH as [Hbest Hex]; [|auto|].
  { intros k e Hke. apply Hk. rewrite lookup_insert_ne; congruence. }
  cbn in Hbest, Hex.
  assert (forall o, (oe ≫= offer_of) = Some o -> offer_key o = i) as Hio.
  { intros o Ho. destruct oe as [e|]; [|done].
    rewrite <- (offer_of_key e o Ho). apply Hk. by rewrite lookup_insert_eq. }
  assert ((forall x, ~ (offer_key x = i /\ (oe ≫= offer_of) = Some x /\
             trades b s x = true /\ i ∉ ex)) ->
          is_best (candidate (held (<[i:=oe]> m)) b s ex) best) as Hsame.
  { intros Hno. eapply is_best_ext; [|exact Hbest]. intros x.
    rewrite candidate_insert by done. pose proof (Hno x). tauto. }
  unfold bestOfferStep. destruct (is_offer_key i) eqn:Eik; cbn [negb].
  2: { split; [|apply visited_skip; auto].
       apply Hsame. intros x (Ex & _). rewrite <- Ex in Eik. done. }
  case_decide as Hin.
  { assert (i ∈ ex) by (apply Hex in Hin as [?|[_ [? ?]]]; congruence).
    split; [apply Hsame; tauto | apply visited_skip; auto]. }
  assert (i ∉ ex) by (intros ?; apply Hin, Hex; by left).
  destruct (oe ≫= offer_of) as [o|] eqn:Eo; cbn.
  2: { split; [apply Hsame; naive_solver | by apply visited_add]. }
  pose proof (Hio o eq_refl).
  destruct (trades b s o) eqn:Et; (split; [|by apply visited_add]); cbn.
  2: { apply Hsame. intros x (_ & [= ->] & ? & _). congruence. }
  assert (forall x, candidate (held m) b s ex x \/ x = o <->
            candidate (held (<[i:=oe]> m)) b s ex x) as Heq.
  { intros x. rewrite candidate_insert, Eo by done.
    split; (intros [?|Hx]; [by left|right]);
      [by rewrite Hx | by destruct Hx as (_ & [= ->] & _)]. }
  apply (is_best_ext _ _ _ Heq), is_best_keep; [|done].
  intros x Hx. apply Hv. by apply Heq.
Qed.

(** The loop over [mEntry]. *)
Lemma bestOfferFold_correct b s ex (m : EntryMap) :
  fold_inv b s ex (map_fold (bestOfferStep b s) (None, ex) m) m.
Proof.
  apply (map_fold_weak_ind (fold_inv b s ex)).
  - intros _ _. split; cbn.
    + intros o [(e & He & _) _]. by rewrite lookup_empty in He.
    + intros k. rewrite lookup_empty. split; [auto|].
      intros [?|[_ ?%is_Some_None]]; done.
  - intros. by apply bestOfferStep_inv.
Qed.

(** The root's cached lists are prefixes of the sorted table. *)
Fixpoint caches_ok (l : Ledger) : Prop :=
  match l with
  | Root r => forall b s c, rBestOffersCache r !! (b, s) = Some c ->
                cache_ok (book (rEntries r) b s) c
  | Txn _ parent => caches_ok parent
  end.

(** Two chains that differ at most in the root's cache. *)
Fixpoint same_but_cache (l l' : Ledger) : Prop :=
  match l, l' with
  | Root r, Root r' => rChild r = rChild r' /\ rHeader r = rHeader r' /\
                         rEntries r = rEntries r'
  | Txn t p, Txn t' p' => t = t' /\ same_but_cache p p'
  | _, _ => False
  end.

Lemma same_but_cache_newest l l' k :
  same_but_cache l l' -> getNewestVersion l k = getNewestVersion l' k.
Proof.
  revert l'. induction l as [r|t p IH]; intros [r'|t' p'] H; cbn in *; try done.
  - by destruct H as (_ & _ & ->).
  - destruct H as [-> H]. destruct (mEntry t' !! k); auto.
Qed.

Lemma rootBestOffer_correct r b s ex :
  chain_ok (Root r) -> caches_ok (Root r) ->
  (forall o, candidate (getNewestVersion (Root r)) b s ex o ->
     valid_offer_price o) ->
  let '(res, r') := rootBestOffer r b s ex in
  is_best (candidate (getNewestVersion (Root r)) b s ex) res /\
  caches_ok (Root r') /\ same_but_cache (Root r) (Root r').
Proof.
  intros Hc Hcache Hv. unfold rootBestOffer.
  set (sorted := book (rEntries r) b s).
  set (c := default _ _).
  assert (cache_ok sorted c) as Hcok.
  { subst c. destruct (rBestOffersCache r !! (b, s)) as [c|] eqn:E; cbn;
      [by apply Hcache|]. split; cbn; [by rewrite take_0|done]. }
  pose proof (loadBatches_correct (S (length sorted)) sorted ex c Hcok
                ltac:(right; lia)) as Hload.
  destruct (loadBatches _ _ _ _ _) as [res c'].
  destruct Hload as [-> Hc']. split; [|split; [|done]].
  - assert (forall o, o ∈ sorted /\ offer_key o ∉ ex <->
              candidate (getNewestVersion (Root r)) b s ex o) as Heq.
    { intros o. subst sorted. rewrite elem_of_book. unfold candidate. cbn.
      split; [|naive_solver].
      intros ((Ht & k & e & Hk & Ho) & Hne). split; [|done].
      exists e. split; [|done]. rewrite <- (offer_of_key e o Ho).
      by rewrite (Hc k e Hk). }
    apply (is_best_ext _ _ _ Heq), is_best_sorted.
    + apply (StronglySorted_merge_sort book_le _).
    + intros o Ho. by apply Hv, Heq.
  - intros b' s' c''. cbn. intros [[[= <- <-] <-]|[_ ?]]%lookup_insert_Some; auto.
Qed.

Lemma getBestOffer_spec l b s ex :
  chain_ok l -> caches_ok l ->
  (forall o, candidate (getNewestVersion l) b s ex o -> valid_offer_price o) ->
  let '(res, l') := getBestOffer l b s ex in
  is_best (candidate (getNewestVersion l) b s ex) res /\
  caches_ok l' /\ same_but_cache l l'.
Proof.
  revert ex. induction l as [r|t parent IH]; intros ex Hc Hcache Hv.
  { cbn [getBestOffer]. pose proof (rootBestOffer_correct r b s ex Hc Hcache Hv).
    by destruct (rootBestOffer r b s ex). }
  cbn [getBestOffer]. destruct Hc as (Hp & _ & Hk & _ & _).
  assert (forall o, candidate (held (mEntry t)) b s ex o ->
            candidate (getNewestVersion (Txn t parent)) b s ex o) as Hmine.
  { intros o ((e & He & Ho) & Ht). split; [|done]. exists e. split; [|done].
    cbn. by destruct (mEntry t !! offer_key o) as [[]|]. }
  pose proof (bestOfferFold_correct b s ex (mEntry t)) as Hfold.
  destruct (map_fold _ _ _) as [best ex'].
  destruct Hfold as [Hbest Hex]; [done|auto|]. cbn in Hbest, Hex.
  assert (forall o, candidate (getNewestVersion parent) b s ex' o <->
    candidate (getNewestVersion parent) b s ex o /\
    mEntry t !! offer_key o = None) as Hparent.
  { intros o. unfold candidate. rewrite (Hex (offer_key o)).
    rewrite eq_None_not_Some. cbn. tauto. }
  specialize (IH ex' Hp Hcache). destruct (getBestOffer parent b s ex') as [pres l'].
  assert (forall o, candidate (held (mEntry t)) b s ex o \/
            candidate (getNewestVersion parent) b s ex' o <->
            candidate (getNewestVersion (Txn t parent)) b s ex o) as Heq.
  { intros o. split.
    - intros [?|Ho]; [by apply Hmine|]. apply Hparent in Ho as [[(e & He) Ho] E].
      split; [|done]. exists e. cbn. by rewrite E.
    - intros Ho. pose proof Ho as [(e & He & Hoe) Ht]. cbn in He.
      destruct (mEntry t !! offer_key o) as [oe|] eqn:E.
      + left. split; [|done]. exists e. by rewrite E, He.
      + right. apply Hparent. split; [|done]. split; [by exists e|done]. }
  destruct IH as (Hbest' & Hcaches & Hsame).
  { intros o Ho. apply Hv, Heq. by right. }
  split; [|done]. apply (is_best_ext _ _ _ Heq), is_best_union; [|done..].
  intros o Ho. by apply Hv, Heq.
Qed.


(** ** All the offers, and the offers of one account *)

Lemma lookup_getAllOffers l k :
  getAllOffers l !! k =
    if is_offer_key k then getNewestVersion l k else None.
Proof.
  induction l as [r|t parent IH]; cbn.
  - rewrite map_lookup_filter. cbn.
    destruct (rEntries r !! k), (is_offer_key k); done.
  - rewrite (lookup_map_fold_pointwise _ (fun k oe prev =>
      if is_offer_key k then oe else prev)).
    + rewrite IH. destruct (mEntry t !! k), (is_offer_key k); done.
    + intros i oe m. destruct (is_offer_key i), oe; cbn;
        by rewrite ?lookup_insert_eq, ?lookup_delete_eq.
    + intros i oe m j Hj. destruct (is_offer_key i), oe; cbn;
        by rewrite ?lookup_insert_ne, ?lookup_delete_ne.
Qed.

Lemma lookup_getOffersByAccountAndAsset l account asset k :
  getOffersByAccountAndAsset l account asset !! k =
    if is_offer_key k then
      e ← getNewestVersion l k;
      if by_account_and_asset account asset e then Some e else None
    else None.
Proof.
  induction l as [r|t parent IH]; cbn.
  - rewrite map_lookup_filter. cbn.
    destruct (rEntries r !! k) as [e|]; cbn; [|by destruct (is_offer_key k)].
    destruct (is_offer_key k), (by_account_and_asset account asset e); done.
  - rewrite (lookup_map_fold_pointwise _ (fun k oe prev =>
      if is_offer_key k
      then e ← oe; if by_account_and_asset account asset e then Some e else None
      else prev)).
    + rewrite IH. destruct (mEntry t !! k), (is_offer_key k); done.
    + intros i [e|] m; destruct (is_offer_key i); cbn; try done;
        [destruct (by_account_and_asset account asset e)|];
        by rewrite ?lookup_insert_eq, ?lookup_delete_eq.
    + intros i [e|] m j Hj; destruct (is_offer_key i); cbn; try done;
        [destruct (by_account_and_asset account asset e)|];
        by rewrite ?lookup_insert_ne, ?lookup_delete_ne.
Qed.

(** * Properties *)

Definition offers_valid (l : Ledger) : Prop :=
  forall k e o, getNewestVersion l k = Some e -> offer_of e = Some o ->
    valid_offer_price o.

(** C22. [getBestOffer] finds the best offer of the ledger: whatever is
    shadowed or erased at each level of nesting, and however far the root's
    cached batches have been loaded, its result is a live offer of the pair
    that no live offer of the pair beats, and there is none exactly when no
    live offer of the pair exists; the contents are untouched. *)
Theorem getBestOffer_correct l buying selling :
  chain_ok l -> caches_ok l -> offers_valid l ->
  let '(res, l') := getBestOffer l buying selling ∅ in
  let live o := (exists e, view l !! offer_key o = Some e /\
                   offer_of e = Some o) /\
                of_buying o = buying /\ of_selling o = selling in
  match res with
  | Some o => live o /\ forall o', live o' -> isBetterOffer o' o = false
  | None => forall o, ~ live o
  end /\ view l' = view l /\ caches_ok l'.
Proof.
  intros Hc Hcache Hv.
  pose proof (getBestOffer_spec l buying selling ∅ Hc Hcache) as H.
  destruct (getBestOffer l buying selling ∅) as [res l'].
  destruct H as (Hbest & Hcaches & Hsame).
  { intros o [(e & He & Ho) _]. by eapply Hv. }
  split; [|split; [|done]].
  - refine (is_best_ext _ _ res _ Hbest).
    intros o. unfold candidate, trades.
    rewrite andb_true_iff, !bool_decide_eq_true. setoid_rewrite lookup_view.
    set_solver.
  - apply map_eq. intros k. rewrite !lookup_view.
    symmetry. by apply same_but_cache_newest.
Qed.

(** A root with an offer, and a child that has replaced it by a cheaper one. *)
Definition sample_offer_entry (id n d : Z) : LedgerEntry :=
  mkEntry 1 (OFFER (sample_offer id n d)).
Definition sample_offer_root : LedgerTxnRoot :=
  mkRoot true sample_header
    {[KeyOffer 7 1 := sample_offer_entry 1 1 3;
      KeyOffer 7 2 := sample_offer_entry 2 2 3]} ∅.
Definition sample_offer_txn : LedgerTxn :=
  mkTxn false sample_header {[KeyOffer 7 1 := None]} ∅ false true false.
Definition sample_offer_chain : Ledger :=
  Txn sample_offer_txn (Root sample_offer_root).

Lemma sample_offer_chain_ok :
  chain_ok sample_offer_chain /\ caches_ok sample_offer_chain /\
  offers_valid sample_offer_chain.
Proof.
  assert (forall k e, rEntries sample_offer_root !! k = Some e ->
    LedgerEntryKey e = k /\
    forall o, offer_of e = Some o -> valid_offer_price o) as Hroot.
  { intros k e. cbn. intros [[<- <-]|[_ [<- <-]%lookup_singleton_Some]]%lookup_insert_Some;
      (split; [done|]); intros o [= <-];
      unfold valid_offer_price, valid_price; cbn; unfold_ints; lia. }
  split; [|split].
  - split; [|split; [done|split; [|split]]].
    + intros k e He. by apply Hroot.
    + intros k e. cbn. by intros [? ?]%lookup_singleton_Some.
    + intros k. cbn. intros [<- _]%lookup_singleton_Some. eauto.
    + cbn. set_solver.
  - intros b s c. cbn. by rewrite lookup_empty.
  - intros k e o He Ho. unfold sample_offer_chain in He.
    cbn [getNewestVersion] in He.
    destruct (mEntry sample_offer_txn !! k) as [oe|] eqn:E.
    + cbn in E. apply lookup_singleton_Some in E as [_ <-]. done.
    + by apply (Hroot k e).
Qed.

Lemma getBestOffer_correct_witness :
  let buying := ASSET_NATIVE in
  let selling := ALPHANUM4 [85; 83; 68; 0] 9 in
  fst (getBestOffer sample_offer_chain buying selling ∅)
    = Some (sample_offer 2 2 3) /\
  let '(res, l') := getBestOffer sample_offer_chain buying selling ∅ in
  let live o := (exists e, view sample_offer_chain !! offer_key o = Some e /\
                   offer_of e = Some o) /\
                of_buying o = buying /\ of_selling o = selling in
  match res with
  | Some o => live o /\ forall o', live o' -> isBetterOffer o' o = false
  | None => forall o, ~ live o
  end /\ view l' = view sample_offer_chain /\ caches_ok l'.
Proof.
  destruct sample_offer_chain_ok as (? & ? & ?).
  split; [vm_compute; reflexivity|].
  apply (getBestOffer_correct sample_offer_chain); assumption.
Defined.
