(* ===== verification/InflationWinners.v ===== *)
(** Inflation winners over nested ledger transactions: [getDeltaVotes],
    [getTotalVotes], [enumerateInflationWinners] and [getInflationWinners] of
    [src/src/ledger/LedgerTxn.cpp], and the query of
    [src/src/ledger/LedgerTxnAccountSQL.cpp] at the root. *)

From stdpp Require Import sorting.
From S2P Require Import Prelude Numeric OfferMath Types StrKey Sums OfferOrder LedgerTxn.

Record InflationWinner := mkWinner { w_accountID : AccountID; w_votes : Z }.

Definition MIN_VOTES_TO_INCLUDE : Z := 1000000000.

(** The vote of an entry: where it goes and how much it is. *)
Definition voteOf (e : LedgerEntry) : option (AccountID * Z) :=
  match le_data e with
  | ACCOUNT acc =>
      match acc_inflationDest acc with
      | Some dest =>
          if MIN_VOTES_TO_INCLUDE <=? acc_balance acc
          then Some (dest, acc_balance acc) else None
      | None => None
      end
  | _ => None
  end.

Definition is_account_key (k : LedgerKey) : bool :=
  match k with KeyAccount _ => true | _ => false end.

(** [deltaVotes[dest] += votes], which makes the entry when there is none. *)
Definition addVotes (dest : AccountID) (votes : Z) (m : gmap AccountID Z)
    : gmap AccountID Z :=
  <[dest := s64 (default 0 (m !! dest) + votes)]> m.

Definition deltaOf (parent : Ledger) (key : LedgerKey) (entry : option LedgerEntry)
    (m : gmap AccountID Z) : gmap AccountID Z :=
  if negb (is_account_key key) then m
  else
    let m := match entry ≫= voteOf with
             | Some (dest, votes) => addVotes dest votes m
             | None => m
             end in
    match getNewestVersion parent key ≫= voteOf with
    | Some (dest, votes) => addVotes dest (- votes) m
    | None => m
    end.
Definition getDeltaVotes (t : LedgerTxn) (parent : Ledger) : gmap AccountID Z :=
  map_fold (deltaOf parent) ∅ (mEntry t).

(** [totalVotes.emplace] keeps the first winner of an account. *)
Definition emplaceWinner (m : gmap AccountID Z) (w : InflationWinner)
    : gmap AccountID Z :=
  match m !! w_accountID w with
  | Some _ => m
  | None => <[w_accountID w := w_votes w]> m
  end.
Definition addDelta (minVotes : Z) (accountID : AccountID) (voteDelta : Z)
    (m : gmap AccountID Z) : gmap AccountID Z :=
  if bool_decide (is_Some (m !! accountID)) || (minVotes <=? voteDelta)
  then addVotes accountID voteDelta m else m.
Definition getTotalVotes (parentWinners : list InflationWinner)
    (deltaVotes : gmap AccountID Z) (minVotes : Z) : gmap AccountID Z :=
  map_fold (addDelta minVotes) (fold_left emplaceWinner parentWinners ∅) deltaVotes.

(** More votes first; a tie goes to the greater text of the key. *)
Definition winner_before (lhs rhs : InflationWinner) : bool :=
  if w_votes lhs =? w_votes rhs
  then string_gt (PublicKey_toStrKey (w_accountID lhs))
         (PublicKey_toStrKey (w_accountID rhs))
  else w_votes rhs <? w_votes lhs.
Definition winner_le (lhs rhs : InflationWinner) : Prop :=
  winner_before rhs lhs = false.
#[export] Instance winner_le_dec : RelDecision winner_le.
Proof. intros a b. unfold winner_le. apply _. Defined.

Definition winners_of (m : gmap AccountID Z) : list InflationWinner :=
  (fun kv : AccountID * Z => mkWinner kv.1 kv.2) <$> map_to_list m.

Definition enumerateInflationWinners (totalVotes : gmap AccountID Z)
    (maxWinners : nat) (minVotes : Z) : list InflationWinner :=
  take maxWinners
    (merge_sort winner_le
       (filter (fun w => minVotes <= w_votes w) (winners_of totalVotes))).

(** [SELECT sum(balance) AS votes, inflationdest FROM accounts WHERE
    inflationdest IS NOT NULL AND balance >= 1000000000 GROUP BY
    inflationdest]: the sums are not bounded. *)
Definition sumVotes (k : LedgerKey) (e : LedgerEntry) (m : gmap AccountID Z)
    : gmap AccountID Z :=
  match voteOf e with
  | Some (dest, votes) => <[dest := default 0 (m !! dest) + votes]> m
  | None => m
  end.
Definition tally (accounts : gmap LedgerKey LedgerEntry) : gmap AccountID Z :=
  map_fold sumVotes ∅ accounts.

(** [ORDER BY votes DESC, inflationdest DESC LIMIT :lim], then the loop that
    stops at the first total below the minimum. *)
Fixpoint winnersFrom (rows : list InflationWinner) (minBalance : Z)
    : list InflationWinner :=
  match rows with
  | [] => []
  | w :: rows =>
      if w_votes w <? minBalance then [] else w :: winnersFrom rows minBalance
  end.
Definition loadInflationWinners (accounts : gmap LedgerKey LedgerEntry)
    (maxWinners : nat) (minBalance : Z) : list InflationWinner :=
  winnersFrom (take maxWinners (merge_sort winner_le (winners_of (tally accounts))))
    minBalance.

(** What a transaction asks its parent for. *)
Definition numChanged (deltaVotes : gmap AccountID Z) : nat :=
  size (filter (fun kv : AccountID * Z => kv.2 <> 0) deltaVotes).
Definition maxIncrease (deltaVotes : gmap AccountID Z) : Z :=
  map_fold (fun _ => Z.max) 0 deltaVotes.
Definition newMinVotes (minVotes : Z) (deltaVotes : gmap AccountID Z) : Z :=
  if maxIncrease deltaVotes <? minVotes then minVotes - maxIncrease deltaVotes else 0.

Fixpoint getInflationWinners (l : Ledger) (maxWinners : nat) (minVotes : Z)
    : outcome (list InflationWinner) :=
  match l with
  | Root r => Ok (loadInflationWinners (rEntries r) maxWinners minVotes)
  | Txn t parent =>
      let deltaVotes := getDeltaVotes t parent in
      if UINT64_MAX - Z.of_nat (numChanged deltaVotes) <? Z.of_nat maxWinners
      then Throw (RuntimeError "max winners overflowed")
      else
        parentWinners ← getInflationWinners parent
          (maxWinners + numChanged deltaVotes) (newMinVotes minVotes deltaVotes);
        Ok (enumerateInflationWinners
              (getTotalVotes parentWinners deltaVotes minVotes)
              maxWinners minVotes)
  end.

Definition queryInflationWinners (t : LedgerTxn) (parent : Ledger)
    (maxWinners : nat) (minVotes : Z) : outcome (list InflationWinner) :=
  _ ← throwIfSealed t;
  _ ← throwIfChild t;
  getInflationWinners (Txn t parent) maxWinners minVotes.

(** * The specification: the same query on one flat ledger *)
Definition flatWinners (accounts : gmap LedgerKey LedgerEntry) (maxWinners : nat)
    (minVotes : Z) : list InflationWinner :=
  enumerateInflationWinners (tally accounts) maxWinners minVotes.

(** * The order of winners *)
Lemma string_gt_irrefl a : string_gt a a = false.
Proof. induction a; cbn; [done|]. by rewrite Z.eqb_refl. Qed.
Lemma string_gt_trans a b c :
  string_gt a b = true -> string_gt b c = true -> string_gt a c = true.
Proof.
  revert b c. induction a as [|x a IH]; intros [|y b] [|z c]; cbn; try done.
  destruct (Z.eqb_spec x y), (Z.eqb_spec y z), (Z.eqb_spec x z); subst; try lia; eauto.
Qed.
Lemma string_gt_total a b : a <> b -> string_gt a b = negb (string_gt b a).
Proof.
  revert b. induction a as [|x a IH]; intros [|y b] Hne; cbn; try done.
  rewrite (Z.eqb_sym y x). destruct (Z.eqb_spec x y); [|lia].
  subst. apply IH. congruence.
Qed.

Lemma winner_le_cases l r :
  winner_le l r <->
  w_votes r < w_votes l \/
  (w_votes l = w_votes r /\
   string_gt (PublicKey_toStrKey (w_accountID r))
     (PublicKey_toStrKey (w_accountID l)) = false).
Proof.
  unfold winner_le, winner_before.
  destruct (Z.eqb_spec (w_votes r) (w_votes l)); [|rewrite Z.ltb_ge; lia].
  split; [right; split; congruence|]. intros [?|[_ ?]]; [lia|done].
Qed.
#[export] Instance winner_le_trans : Transitive winner_le.
Proof.
  intros a b c. rewrite !winner_le_cases.
  generalize (PublicKey_toStrKey (w_accountID a)), (PublicKey_toStrKey (w_accountID b)),
    (PublicKey_toStrKey (w_accountID c)). intros x y z.
  intros [?|[? H1]] [?|[? H2]]; [left; lia..|]. right. split; [lia|].
  destruct (decide (y = x)) as [->|Hyx]; [done|].
  destruct (decide (z = y)) as [->|Hzy]; [done|].
  rewrite (string_gt_total y x Hyx), negb_false_iff in H1.
  rewrite (string_gt_total z y Hzy), negb_false_iff in H2.
  pose proof (string_gt_trans x y z H1 H2) as H3.
  destruct (decide (z = x)) as [->|Hzx]; [by rewrite string_gt_irrefl in H3|].
  by rewrite (string_gt_total z x Hzx), H3.
Qed.
#[export] Instance winner_le_total : Total winner_le.
Proof.
  intros a b. rewrite !winner_le_cases.
  destruct (Z.lt_trichotomy (w_votes a) (w_votes b)) as [?|[E|?]]; [right; by left| |left; by left].
  destruct (string_gt (PublicKey_toStrKey (w_accountID b))
              (PublicKey_toStrKey (w_accountID a))) eqn:Eg; [|left; right; done].
  right. right. split; [done|].
  destruct (decide (PublicKey_toStrKey (w_accountID b)
                    = PublicKey_toStrKey (w_accountID a))) as [Es|Hne].
  - rewrite Es. apply string_gt_irrefl.
  - by rewrite string_gt_total, Eg by congruence.
Qed.
Lemma winner_le_antisymm a b :
  is_key (w_accountID a) -> is_key (w_accountID b) ->
  winner_le a b -> winner_le b a -> a = b.
Proof.
  destruct a as [i v], b as [j w]. rewrite !winner_le_cases. cbn. intros Hi Hj.
  intros [?|[E H1]] [?|[E' H2]]; try lia. subst w. f_equal.
  apply PublicKey_toStrKey_inj; [done..|]. apply dec_stable. intros Hne.
  by rewrite string_gt_total, H1 in H2.
Qed.

Definition keyed (l : list InflationWinner) : Prop :=
  Forall (fun w => is_key (w_accountID w)) l.

(** Lists of winners have one sorted order. *)
Lemma winners_sorted_unique l l' :
  keyed l -> l ≡ₚ l' -> StronglySorted winner_le l -> StronglySorted winner_le l' ->
  l = l'.
Proof.
  intros Hk Hp Hl Hl'. apply (StronglySorted_unique_strong winner_le); [|done..].
  unfold keyed in Hk. rewrite Forall_forall in Hk.
  intros w w' Hw Hw'. rewrite <- Hp in Hw'. by apply winner_le_antisymm; apply Hk.
Qed.
Lemma merge_sort_winners l l' :
  keyed l -> l ≡ₚ l' -> merge_sort winner_le l = merge_sort winner_le l'.
Proof.
  intros Hk Hp. apply winners_sorted_unique.
  - unfold keyed. by rewrite merge_sort_Permutation.
  - by rewrite !merge_sort_Permutation.
  - apply (StronglySorted_merge_sort winner_le _).
  - apply (StronglySorted_merge_sort winner_le _).
Qed.

Lemma keyed_filter (P : InflationWinner -> Prop) `{!forall w, Decision (P w)} l :
  keyed l -> keyed (filter P l).
Proof.
  unfold keyed. rewrite !Forall_forall. intros Hl w.
  rewrite list_elem_of_filter. intros [_ Hw]. by apply Hl.
Qed.
Lemma winners_sorted_filter (P : InflationWinner -> Prop) `{!forall w, Decision (P w)} l :
  StronglySorted winner_le l -> StronglySorted winner_le (filter P l).
Proof.
  induction l as [|w l IH]; intros Hs; [constructor|].
  apply StronglySorted_inv in Hs as [Hs Hw]. rewrite filter_cons.
  case_decide; [|by apply IH]. constructor; [by apply IH|].
  rewrite Forall_forall in *. intros w'. rewrite list_elem_of_filter.
  intros [_ ?]. by apply Hw.
Qed.

(** The loop over the rows of the query stops where the filter would. *)
Lemma winnersFrom_take rows n v :
  StronglySorted winner_le rows ->
  winnersFrom (take n rows) v = take n (filter (fun w => v <= w_votes w) rows).
Proof.
  revert n. induction rows as [|w rows IH]; intros n Hs; [by destruct n|].
  apply StronglySorted_inv in Hs as [Hs Hw]. destruct n as [|n]; [done|].
  cbn [take winnersFrom]. rewrite filter_cons.
  destruct (Z.ltb_spec (w_votes w) v); case_decide; try lia.
  - assert (filter (fun w => v <= w_votes w) rows = []) as ->; [|done].
    clear IH. induction Hw as [|w' rows Hw' Hw IH]; [done|].
    rewrite filter_cons, decide_False; [apply IH; by apply StronglySorted_inv in Hs as [? _]|].
    apply winner_le_cases in Hw'. lia.
  - cbn [take]. by rewrite IH.
Qed.
Lemma loadInflationWinners_flat accounts n v :
  keyed (winners_of (tally accounts)) ->
  loadInflationWinners accounts n v = flatWinners accounts n v.
Proof.
  intros Hk. unfold loadInflationWinners, flatWinners, enumerateInflationWinners.
  rewrite winnersFrom_take by apply (StronglySorted_merge_sort winner_le _).
  f_equal. apply winners_sorted_unique.
  - apply keyed_filter. unfold keyed. by rewrite merge_sort_Permutation.
  - by rewrite !merge_sort_Permutation.
  - apply winners_sorted_filter, (StronglySorted_merge_sort winner_le _).
  - apply (StronglySorted_merge_sort winner_le _).
Qed.

(** * Votes as sums *)
Definition voteFor (a : AccountID) (e : LedgerEntry) : Z :=
  match voteOf e with
  | Some (dest, votes) => if dest =? a then votes else 0
  | None => 0
  end.
Definition votes (accounts : gmap LedgerKey LedgerEntry) (a : AccountID) : Z :=
  msum (fun _ => voteFor a) accounts.

Lemma voteOf_min e dest v : voteOf e = Some (dest, v) -> MIN_VOTES_TO_INCLUDE <= v.
Proof.
  unfold voteOf. repeat case_match; try done. intros [= _ <-]. by apply Z.leb_le.
Qed.
Lemma voteFor_nonneg a e : 0 <= voteFor a e.
Proof.
  unfold voteFor. destruct (voteOf e) as [[dest v]|] eqn:E; [|done].
  apply voteOf_min in E. unfold MIN_VOTES_TO_INCLUDE in E. case_match; lia.
Qed.
Lemma votes_nonneg accounts a : 0 <= votes accounts a.
Proof. apply msum_nonneg. intros. apply voteFor_nonneg. Qed.

Lemma lookup_tally accounts a :
  tally accounts !! a =
  if votes accounts a =? 0 then None else Some (votes accounts a).
Proof.
  unfold tally, votes.
  apply (map_fold_weak_ind (fun r m => r !! a =
    if msum (fun _ => voteFor a) m =? 0 then None
    else Some (msum (fun _ => voteFor a) m))); [done|].
  intros k e m r Hk IH. rewrite msum_insert_new by done.
  unfold sumVotes, voteFor at 1 3.
  destruct (voteOf e) as [[dest v]|] eqn:E; [|exact IH].
  apply voteOf_min in E. unfold MIN_VOTES_TO_INCLUDE in E.
  destruct (Z.eqb_spec dest a) as [->|Hd]; [|by rewrite lookup_insert_ne].
  rewrite lookup_insert_eq, IH. pose proof (votes_nonneg m a) as Hn. unfold votes in Hn.
  repeat case_match; cbn; try lia; f_equal; lia.
Qed.

Lemma elem_of_winners_of m w :
  w ∈ winners_of m <-> m !! w_accountID w = Some (w_votes w).
Proof.
  unfold winners_of. rewrite list_elem_of_fmap. split.
  - intros ([a v] & -> & Hin). by apply elem_of_map_to_list in Hin.
  - intros Hw. exists (w_accountID w, w_votes w). split; [by destruct w|].
    by apply elem_of_map_to_list.
Qed.
Lemma NoDup_winners_of m : NoDup (winners_of m).
Proof.
  unfold winners_of. apply NoDup_fmap_2; [|apply NoDup_map_to_list].
  intros [] [] [= -> ->]. done.
Qed.
(** Winners with enough votes are determined by the large totals. *)
Lemma enumerate_ext m m' n v :
  keyed (filter (fun w => v <= w_votes w) (winners_of m')) ->
  (forall a x, v <= x -> m !! a = Some x <-> m' !! a = Some x) ->
  enumerateInflationWinners m n v = enumerateInflationWinners m' n v.
Proof.
  intros Hk Hm. unfold enumerateInflationWinners. f_equal. symmetry.
  apply merge_sort_winners; [done|].
  apply NoDup_Permutation; [apply NoDup_filter, NoDup_winners_of..|].
  intros w. rewrite !list_elem_of_filter, !elem_of_winners_of.
  split; intros [Hv Hw]; (split; [done|]); by apply Hm.
Qed.

(** The delta of an account is the wrapped difference of its votes. *)
Definition changeFor (parent : Ledger) (a : AccountID) (k : LedgerKey)
    (oe : option LedgerEntry) : Z :=
  if is_account_key k
  then from_option (voteFor a) 0 oe - from_option (voteFor a) 0 (getNewestVersion parent k)
  else 0.

Lemma addVotes_spec dest v m a x :
  match m !! a with Some y => y = s64 x | None => x = 0 end ->
  match addVotes dest v m !! a with
  | Some y => y = s64 (x + if dest =? a then v else 0)
  | None => x + (if dest =? a then v else 0) = 0
  end.
Proof.
  intros Hm. unfold addVotes. destruct (Z.eqb_spec dest a) as [->|Hd].
  - rewrite lookup_insert_eq. destruct (m !! a); cbn; subst; [by rewrite s64_add_l|done].
  - rewrite lookup_insert_ne, Z.add_0_r by done. exact Hm.
Qed.
Lemma getDeltaVotes_spec t parent a :
  match getDeltaVotes t parent !! a with
  | Some y => y = s64 (msum (changeFor parent a) (mEntry t))
  | None => msum (changeFor parent a) (mEntry t) = 0
  end.
Proof.
  unfold getDeltaVotes. apply (map_fold_weak_ind (fun r m =>
    match r !! a with
    | Some y => y = s64 (msum (changeFor parent a) m)
    | None => msum (changeFor parent a) m = 0
    end)); [done|].
  intros k oe m r Hk IH. rewrite msum_insert_new by done.
  unfold deltaOf, changeFor at 1 3. destruct (is_account_key k); [|exact IH].
  cbn [negb]. rewrite Z.add_comm, Z.add_sub_assoc.
  assert (H1 : match match oe ≫= voteOf with
                     | Some (dest, v) => addVotes dest v r | None => r end !! a with
               | Some y => y = s64 (msum (changeFor parent a) m
                                    + from_option (voteFor a) 0 oe)
               | None => msum (changeFor parent a) m
                         + from_option (voteFor a) 0 oe = 0
               end).
  { destruct oe as [e|]; cbn; [|by rewrite Z.add_0_r].
    unfold voteFor. destruct (voteOf e) as [[dest v]|]; [|by rewrite Z.add_0_r].
    by apply addVotes_spec. }
  revert H1. generalize (msum (changeFor parent a) m + from_option (voteFor a) 0 oe).
  intros x. destruct (getNewestVersion parent k) as [e|]; cbn; [|by rewrite Z.sub_0_r].
  unfold voteFor. destruct (voteOf e) as [[dest v]|]; [|by rewrite Z.sub_0_r].
  intros H1. apply (addVotes_spec dest (- v)) in H1. revert H1.
  replace (x + (if dest =? a then - v else 0)) with (x - (if dest =? a then v else 0));
    [done|destruct (dest =? a); lia].
Qed.

Lemma changeFor_votes t parent a :
  chain_ok (Txn t parent) ->
  msum (changeFor parent a) (mEntry t)
  = votes (view (Txn t parent)) a - votes (view parent) a.
Proof.
  intros Hok. unfold votes. cbn [view]. unfold overlay.
  rewrite msum_merge_overlay.
  enough (msum (changeFor parent a) (mEntry t)
          = msum (fun k oe => from_option (voteFor a) 0 oe
                              - at_key (fun _ => voteFor a) (view parent) k)
              (mEntry t)) by lia.
  apply msum_ext. intros k oe Hoe. unfold changeFor, at_key. rewrite lookup_view.
  destruct (is_account_key k) eqn:Ek; [done|].
  assert (Hzero : forall l e, chain_ok l -> getNewestVersion l k = Some e ->
                              voteFor a e = 0).
  { intros l e Hl He. apply chain_ok_key in He; [|done].
    unfold voteFor, voteOf, LedgerEntryKey in *.
    destruct (le_data e); cbn in He; subst; done. }
  assert (from_option (voteFor a) 0 oe = 0) as ->.
  { destruct oe as [e|]; [|done]. apply (Hzero (Txn t parent)); [done|].
    cbn. by rewrite Hoe. }
  destruct (getNewestVersion parent k) as [e|] eqn:E; [|done]. cbn.
  rewrite (Hzero parent e); [done| |done]. apply Hok.
Qed.

(** Votes are 64-bit, and go to keys. *)
Fixpoint votes_ok (l : Ledger) : Prop :=
  (forall a, votes (view l) a <= INT64_MAX) /\
  keyed (winners_of (tally (view l))) /\
  match l with Root _ => True | Txn _ parent => votes_ok parent end.

(** No list that a parent is asked for is cut at its length. *)
Fixpoint untruncated (l : Ledger) (maxWinners : nat) (minVotes : Z) : Prop :=
  match l with
  | Root _ => True
  | Txn t parent =>
      let deltaVotes := getDeltaVotes t parent in
      let n := (maxWinners + numChanged deltaVotes)%nat in
      let v := newMinVotes minVotes deltaVotes in
      Z.of_nat n <= UINT64_MAX /\
      (length (filter (fun w => (v <= w_votes w)%Z) (winners_of (tally (view parent))))
       <= n)%nat /\
      untruncated parent n v
  end.

Lemma lookup_emplace f ws m a :
  (forall w, w ∈ ws -> w_votes w = f (w_accountID w)) ->
  (forall x, m !! a = Some x -> x = f a) ->
  fold_left emplaceWinner ws m !! a =
  if decide (a ∈ w_accountID <$> ws) then Some (f a) else m !! a.
Proof.
  revert m. induction ws as [|w ws IH]; intros m Hws Hm; cbn [fold_left].
  { rewrite decide_False; [done|]. by apply not_elem_of_nil. }
  assert (Hw : w_votes w = f (w_accountID w)) by (apply Hws; left).
  rewrite IH.
  2:{ intros w' Hw'. apply Hws. by right. }
  2:{ intros x. unfold emplaceWinner. destruct (m !! w_accountID w); [apply Hm|].
      destruct (decide (w_accountID w = a)) as [<-|Hne].
      - rewrite lookup_insert_eq. congruence.
      - rewrite lookup_insert_ne by done. apply Hm. }
  cbn [fmap list_fmap]. destruct (decide (a ∈ w_accountID <$> ws)) as [Hin|Hin].
  { by rewrite decide_True by by right. }
  unfold emplaceWinner. destruct (decide (a = w_accountID w)) as [->|Hne].
  - rewrite decide_True by left. destruct (m !! w_accountID w) eqn:E.
    + by rewrite E, (Hm z).
    + by rewrite lookup_insert_eq, Hw.
  - rewrite decide_False by (rewrite elem_of_cons; naive_solver).
    destruct (m !! w_accountID w); [done|]. by rewrite lookup_insert_ne.
Qed.

Lemma lookup_getTotalVotes ws deltaVotes v a :
  getTotalVotes ws deltaVotes v !! a =
  let base := fold_left emplaceWinner ws ∅ !! a in
  match deltaVotes !! a with
  | None => base
  | Some d =>
      if bool_decide (is_Some base) || (v <=? d)
      then Some (s64 (default 0 base + d)) else base
  end.
Proof.
  unfold getTotalVotes. cbv zeta.
  rewrite (lookup_map_fold_pointwise (addDelta v) (fun _ d base =>
    if bool_decide (is_Some base) || (v <=? d)
    then Some (s64 (default 0 base + d)) else base)); [done|..].
  - intros k x m. unfold addDelta, addVotes.
    case_match; [by rewrite lookup_insert_eq|done].
  - intros k x m i Hi. unfold addDelta, addVotes.
    case_match; [by rewrite lookup_insert_ne|done].
Qed.

Lemma maxIncrease_spec deltaVotes :
  0 <= maxIncrease deltaVotes /\
  forall a d, deltaVotes !! a = Some d -> d <= maxIncrease deltaVotes.
Proof.
  unfold maxIncrease. apply (map_fold_weak_ind (fun r m =>
    0 <= r /\ forall a d, m !! a = Some d -> d <= r)); [done|].
  intros k d m r Hk [Hr IH]. split; [lia|]. intros a x.
  destruct (decide (a = k)) as [->|Hne].
  - rewrite lookup_insert_eq. intros [= ->]. lia.
  - rewrite lookup_insert_ne by done. intros Hx. apply IH in Hx. lia.
Qed.

(** A list of winners that is right about every account it names and names
    every account with enough votes. *)
Record covers (ws : list InflationWinner) (accounts : gmap LedgerKey LedgerEntry)
    (minVotes : Z) : Prop := mkCovers {
  covers_votes w : w ∈ ws -> w_votes w = votes accounts (w_accountID w);
  covers_all a : votes accounts a <> 0 -> minVotes <= votes accounts a ->
    mkWinner a (votes accounts a) ∈ ws }.

Section OneLevel.
Context (t : LedgerTxn) (parent : Ledger) (minVotes : Z).
Context (Hchain : chain_ok (Txn t parent)) (Hmin : 0 <= minVotes).
Context (Hvotes : forall a, votes (view (Txn t parent)) a <= INT64_MAX)
        (Hpvotes : forall a, votes (view parent) a <= INT64_MAX).
Notation delta := (getDeltaVotes t parent).
Notation P := (votes (view parent)).
Notation C := (votes (view (Txn t parent))).
Notation newMin := (newMinVotes minVotes delta).

Lemma delta_exact a :
  match delta !! a with Some d => d = C a - P a | None => C a = P a end.
Proof using Hchain Hvotes Hpvotes.
  pose proof (getDeltaVotes_spec t parent a) as H.
  rewrite changeFor_votes in H by done.
  pose proof (votes_nonneg (view (Txn t parent)) a). pose proof (Hvotes a).
  pose proof (votes_nonneg (view parent) a). pose proof (Hpvotes a).
  destruct (delta !! a); [|lia].
  rewrite H, s64_id; [done|]. unfold in_s64. unfold_ints. lia.
Qed.

Lemma newMin_bounds :
  0 <= newMin <= minVotes /\
  (forall a d, delta !! a = Some d -> d < minVotes -> 0 < newMin -> newMin + d <= minVotes) /\
  (forall a d, delta !! a = Some d -> minVotes <= d -> newMin = 0).
Proof using Hmin.
  destruct (maxIncrease_spec delta) as [Hpos Hmax]. unfold newMinVotes.
  split; [case_match; lia|split]; intros a d Hd; apply Hmax in Hd; case_match; lia.
Qed.

Context (ws : list InflationWinner) (Hws : covers ws (view parent) newMin).

Lemma not_listed a : a ∉ w_accountID <$> ws -> P a = 0 \/ P a < newMin.
Proof using Hws.
  intros Hin. destruct (decide (P a = 0)); [by left|]. right.
  destruct (Z.lt_ge_cases (P a) newMin); [done|]. destruct Hin.
  apply list_elem_of_fmap. exists (mkWinner a (P a)). split; [done|].
  by apply (covers_all _ _ _ Hws).
Qed.

(** The totals are those of the flat ledger, and large ones are all there. *)
Lemma total_spec a :
  (forall x, getTotalVotes ws delta minVotes !! a = Some x -> x = C a) /\
  (C a <> 0 -> minVotes <= C a -> getTotalVotes ws delta minVotes !! a = Some (C a)).
Proof using All.
  destruct newMin_bounds as (Hnew & Hsmall & Hbig).
  rewrite lookup_getTotalVotes. cbv zeta.
  rewrite (lookup_emplace P) by (apply (covers_votes _ _ _ Hws) || done).
  rewrite lookup_empty. pose proof (delta_exact a) as HD.
  pose proof (votes_nonneg (view (Txn t parent)) a).
  pose proof (votes_nonneg (view parent) a).
  assert (Hc64 : s64 (C a) = C a).
  { apply s64_id. pose proof (Hvotes a). unfold in_s64. unfold_ints. lia. }
  case_decide as Hin.
  - destruct (delta !! a) as [d|] eqn:Ed; [|rewrite HD; naive_solver].
    rewrite bool_decide_eq_true_2 by by eexists. cbn [orb default from_option]. unfold id.
    subst d. replace (P a + (C a - P a)) with (C a) by lia. rewrite Hc64. naive_solver.
  - apply not_listed in Hin. destruct (delta !! a) as [d|] eqn:Ed; [|naive_solver lia].
    rewrite bool_decide_eq_false_2 by by intros [? [=]]. cbn [orb default from_option].
    destruct (Z.leb_spec minVotes d) as [Hd|Hd].
    + pose proof (Hbig a d Ed Hd). subst d.
      assert (P a = 0) by lia. replace (0 + (C a - P a)) with (C a) by lia.
      rewrite Hc64. naive_solver.
    + split; [done|]. intros. pose proof (Hsmall a d Ed Hd). lia.
Qed.

Lemma enumerate_covers n :
  (length (filter (fun w => (minVotes <= w_votes w)%Z)
             (winners_of (tally (view (Txn t parent))))) <= n)%nat ->
  covers (enumerateInflationWinners (getTotalVotes ws delta minVotes) n minVotes)
    (view (Txn t parent)) minVotes.
Proof using All.
  intros Hn. unfold enumerateInflationWinners. set (L := merge_sort _ _).
  assert (HL : forall w, w ∈ L <-> minVotes <= w_votes w /\
             getTotalVotes ws delta minVotes !! w_accountID w = Some (w_votes w)).
  { intros w. unfold L.
    by rewrite merge_sort_Permutation, list_elem_of_filter, elem_of_winners_of. }
  split.
  - intros w Hw. apply (total_spec (w_accountID w)), HL.
    rewrite <- (take_drop n L). apply elem_of_app. by left.
  - intros a H0 Hv. set (w := mkWinner a (C a)).
    assert (Hw : w ∈ L).
    { apply HL. split; [done|]. by apply total_spec. }
    rewrite <- (take_drop n L), elem_of_app in Hw. destruct Hw as [Hw|Hw]; [done|exfalso].
    assert (Hs : StronglySorted winner_le L) by apply (StronglySorted_merge_sort winner_le _).
    rewrite <- (take_drop n L) in Hs.
    assert (Hnd : NoDup (w :: take n L)).
    { assert (Hnd : NoDup L)
        by (unfold L; rewrite merge_sort_Permutation; apply NoDup_filter, NoDup_winners_of).
      rewrite <- (take_drop n L) in Hnd. apply NoDup_app in Hnd as (? & Hd & _).
      constructor; [|done]. intros ?. by apply (Hd w). }
    assert (Hsub : w :: take n L ⊆ filter (fun w => (minVotes <= w_votes w)%Z)
               (winners_of (tally (view (Txn t parent))))).
    { intros w' Hw'. assert (Hw'' : w' ∈ L /\ C a <= w_votes w').
      { apply elem_of_cons in Hw' as [->|Hw'].
        - split; [|done]. rewrite <- (take_drop n L). apply elem_of_app. by right.
        - split; [rewrite <- (take_drop n L); apply elem_of_app; by left|].
          pose proof (StronglySorted_app_1_elem_of winner_le _ _ _ _ Hs Hw' Hw) as Hle.
          apply winner_le_cases in Hle. unfold w in Hle; cbn [w_votes] in Hle. lia. }
      destruct Hw'' as [[Hm Htot]%HL Hge]. apply list_elem_of_filter. split; [done|].
      rewrite elem_of_winners_of, lookup_tally.
      pose proof (proj1 (total_spec (w_accountID w')) _ Htot) as E. rewrite <- E.
      pose proof (votes_nonneg (view (Txn t parent)) a).
      by rewrite (proj2 (Z.eqb_neq _ 0)) by lia. }
    apply NoDup_submseteq in Hsub; [|done]. apply submseteq_length in Hsub.
    cbn [length] in Hsub. rewrite length_take in Hsub.
    assert (length (drop n L) <> 0%nat).
    { intros E. apply length_zero_iff_nil in E. rewrite E in Hw. by apply elem_of_nil in Hw. }
    rewrite length_drop in *. lia.
Qed.
End OneLevel.

Lemma loadInflationWinners_covers accounts n v :
  (length (filter (fun w => (v <= w_votes w)%Z) (winners_of (tally accounts))) <= n)%nat ->
  covers (loadInflationWinners accounts n v) accounts v.
Proof.
  intros Hn. unfold loadInflationWinners.
  rewrite winnersFrom_take by apply (StronglySorted_merge_sort winner_le _).
  rewrite take_ge by by rewrite merge_sort_Permutation.
  assert (HL : forall w, w ∈ filter (fun w => v <= w_votes w)
                               (merge_sort winner_le (winners_of (tally accounts))) <->
             v <= w_votes w /\ tally accounts !! w_accountID w = Some (w_votes w)).
  { intros w. by rewrite list_elem_of_filter, merge_sort_Permutation, elem_of_winners_of. }
  split.
  - intros w [_ Hw]%HL. rewrite lookup_tally in Hw. case_match; congruence.
  - intros a H0 Hv. apply HL. split; [done|]. cbn. rewrite lookup_tally.
    by rewrite (proj2 (Z.eqb_neq _ 0)).
Qed.

(** What a transaction gets from its parent. *)
Lemma getInflationWinners_covers l n v :
  chain_ok l -> votes_ok l -> untruncated l n v -> 0 <= v ->
  (length (filter (fun w => (v <= w_votes w)%Z) (winners_of (tally (view l)))) <= n)%nat ->
  exists ws, getInflationWinners l n v = Ok ws /\ covers ws (view l) v.
Proof.
  revert n v. induction l as [r|t l IH]; intros n v Hok Hvotes Hunt Hv Hn.
  - eexists. split; [done|]. by apply loadInflationWinners_covers.
  - destruct Hvotes as (Hc & _ & Hvotes), Hunt as (Hmax & Hlen & Hunt).
    assert (Hp : forall a, votes (view l) a <= INT64_MAX) by by destruct l; destruct Hvotes.
    destruct (IH (n + numChanged (getDeltaVotes t l))%nat
                (newMinVotes v (getDeltaVotes t l))) as (ws & Hws & Hcov); [|done..| |done|].
    + apply Hok.
    + by apply newMin_bounds.
    + cbn [getInflationWinners]. rewrite (proj2 (Z.ltb_ge _ _)) by lia. rewrite Hws.
      eexists. split; [done|]. by apply enumerate_covers.
Qed.

(** C26. The nested query is the flat query: when every open transaction keeps
    its entries under their keys, votes are 64-bit numbers that go to keys and
    no list asked of a parent is cut at its length, [getInflationWinners]
    through any number of nested transactions returns, without throwing, the
    winners computed from the flat ledger the transactions stand for - the
    same accounts with the same votes in the same order. *)
Theorem getInflationWinners_flat l maxWinners minVotes :
  chain_ok l -> votes_ok l -> untruncated l maxWinners minVotes -> 0 < minVotes ->
  getInflationWinners l maxWinners minVotes
  = Ok (flatWinners (view l) maxWinners minVotes).
Proof.
  intros Hl Hv Ht Hmin. destruct l as [r|t l].
  - cbn. f_equal. by apply loadInflationWinners_flat, Hv.
  - destruct Hv as (Hc & Hk & Hv), Ht as (Hmax & Hlen & Ht).
    assert (Hp : forall a, votes (view l) a <= INT64_MAX) by by destruct l; destruct Hv.
    destruct (getInflationWinners_covers l (maxWinners + numChanged (getDeltaVotes t l))
                (newMinVotes minVotes (getDeltaVotes t l))) as (ws & Hws & Hcov);
      [by apply Hl|done..|apply newMin_bounds; lia|done|].
    cbn [getInflationWinners]. rewrite (proj2 (Z.ltb_ge _ _)) by lia. rewrite Hws.
    cbn. f_equal. apply enumerate_ext; [by apply keyed_filter|].
    intros a x Hx.
    destruct (total_spec t l minVotes Hl (Z.lt_le_incl _ _ Hmin) Hc Hp ws Hcov a)
      as [H1 H2].
    rewrite lookup_tally. split.
    + intros ->%H1. cbn [view] in *. by rewrite (proj2 (Z.eqb_neq _ 0)) by lia.
    + destruct (Z.eqb_spec (votes (overlay (mEntry t) (view l)) a) 0); [done|].
      intros [= <-]. apply H2; lia || done.
Qed.

(** * A chain on which the hypotheses hold, and one on which they matter *)
Lemma votes_le_all accounts a :
  votes accounts a
  <= msum (fun _ e => match voteOf e with Some (_, v) => v | None => 0 end) accounts.
Proof.
  apply msum_le. intros _ e _. unfold voteFor.
  destruct (voteOf e) as [[dest v]|] eqn:E; [|done].
  apply voteOf_min in E. unfold MIN_VOTES_TO_INCLUDE in E. case_match; lia.
Qed.

Definition sample_voter (id dest balance : Z) : LedgerEntry :=
  mkEntry 1 (ACCOUNT (mkAccount id balance 1 "" 0 (Some dest) 0 ""
                        (mkThresholds 1 0 0 0) [] None)).
Definition sample_voters : Ledger :=
  Root (mkRoot true sample_header
          (list_to_map ((fun v : Z * Z * Z => (KeyAccount v.1.1, sample_voter v.1.1 v.1.2 v.2))
             <$> [(1, 11, 100000000000); (2, 12, 99000000000);
                  (3, 13, 98000000000); (4, 14, 97000000000)])) ∅).
(** The last of the voters gets 5 billion more. *)
Definition sample_vote_change : LedgerTxn :=
  mkTxn false sample_header {[KeyAccount 4 := Some (sample_voter 4 14 102000000000)]}
    ∅ false true false.

Lemma sample_voters_ok : chain_ok (Txn sample_vote_change sample_voters).
Proof.
  split; [|split; [done|split; [|split]]].
  - intros k e Hk%elem_of_list_to_map_2.
    apply list_elem_of_fmap in Hk as ([[i d] b] & [= -> ->] & _). done.
  - intros k e. cbn. by intros [<- [= <-]]%lookup_singleton_Some.
  - intros k. cbn. by intros [_ [=]]%lookup_singleton_Some.
  - set_solver.
Qed.
Lemma sample_votes_ok : votes_ok (Txn sample_vote_change sample_voters).
Proof.
  assert (Hkeys : forall l, forallb (fun w => (0 <=? w_accountID w)
                    && (w_accountID w <? 2 ^ 256)) l = true -> keyed l).
  { intros l Hl. apply Forall_forall. intros w Hw. rewrite forallb_forall in Hl.
    apply list_elem_of_In, Hl, andb_true_iff in Hw as [H1 H2].
    by split; [apply Z.leb_le|apply Z.ltb_lt]. }
  assert (Hsmall : forall V,
    msum (fun _ e => match voteOf e with Some (_, v) => v | None => 0 end) V
      <= INT64_MAX -> forall a, votes V a <= INT64_MAX).
  { intros V HV a. etransitivity; [apply votes_le_all|done]. }
  repeat split; try (apply Hkeys; by vm_compute); apply Hsmall; by vm_compute.
Qed.

Lemma getInflationWinners_flat_witness :
  getInflationWinners (Txn sample_vote_change sample_voters) 10 10000000000
  = Ok (flatWinners (view (Txn sample_vote_change sample_voters)) 10 10000000000).
Proof.
  apply getInflationWinners_flat.
  - exact sample_voters_ok.
  - exact sample_votes_ok.
  - split_and!; [by vm_compute|apply Nat.leb_le; by vm_compute|done].
  - lia.
Defined.

(** Without the hypothesis on the length the two queries differ: an account
    that the parent leaves out, because too many accounts had more votes, and
    whose increase alone is below the minimum, is not found although it has
    the most votes. *)
Example missed_winner :
  w_accountID <$> flatWinners (view (Txn sample_vote_change sample_voters)) 1 10000000000
  = [14] /\
  exists ws, getInflationWinners (Txn sample_vote_change sample_voters) 1 10000000000 = Ok ws /\
  w_accountID <$> ws = [11].
Proof. split; [by vm_compute|]. eexists. split; by vm_compute. Qed.
