(* ===== verification/LedgerState.v ===== *)
(** The ledger as operations see it, and the monad they run in.

    [LedgerTxn] shows that a stack of nested ledger transactions behaves like
    one flat map and a header.  The transaction layer is modelled on that flat
    state: an operation is a computation that reads and changes it, and that
    can throw.  A handle ([LedgerTxnEntry]) is the key of its entry; reading
    or writing through it reads or writes the state, so two uses of one handle
    share the entry as they do in the source.  The ledger sequence number
    stamped on an entry ([lastModifiedLedgerSeq]) is not part of the state:
    no operation reads it, and [LedgerTxn] models the stamping. *)

From S2P Require Import Prelude OfferMath Types OfferOrder LedgerTxn LedgerTxnOffers.

Record LedgerState := mkState {
  st_header : LedgerHeader;
  st_entries : gmap LedgerKey LedgerEntryData }.

Definition set_entries (m : gmap LedgerKey LedgerEntryData) (s : LedgerState)
    : LedgerState := mkState (st_header s) m.

(** ** The monad *)
Definition M (A : Type) : Type := LedgerState -> outcome (A * LedgerState).

#[export] Instance M_ret : MRet M := fun A a s => Ok (a, s).
#[export] Instance M_bind : MBind M := fun A B f m s =>
  match m s with Ok (a, s') => f a s' | Throw e => Throw e end.

Definition throw {A} (what : string) : M A := fun _ => Throw (RuntimeError what).
Definition lift {A} (o : outcome A) : M A := fun s =>
  match o with Ok a => Ok (a, s) | Throw e => Throw e end.

(** [ltx.loadHeader().current()], read and written. *)
Definition currentHeader : M LedgerHeader := fun s => Ok (st_header s, s).
Definition setHeader (h : LedgerHeader) : M unit := fun s =>
  Ok (tt, mkState h (st_entries s)).

(** [(bool)ltx.load(key)], [entry.current()] read and written,
    [ltx.create], [entry.erase()]. *)
Definition exists_entry (k : LedgerKey) : M bool := fun s =>
  Ok (bool_decide (is_Some (st_entries s !! k)), s).
Definition current (k : LedgerKey) : M LedgerEntryData := fun s =>
  match st_entries s !! k with
  | Some d => Ok (d, s)
  | None => Throw (RuntimeError "LedgerTxnEntry not active")
  end.
Definition setCurrent (k : LedgerKey) (d : LedgerEntryData) : M unit := fun s =>
  Ok (tt, set_entries (<[k := d]> (st_entries s)) s).
Definition createEntry (d : LedgerEntryData) : M unit := fun s =>
  match st_entries s !! LedgerDataKey d with
  | Some _ => Throw (RuntimeError "Key already exists")
  | None => Ok (tt, set_entries (<[LedgerDataKey d := d]> (st_entries s)) s)
  end.
Definition eraseEntry (k : LedgerKey) : M unit := fun s =>
  match st_entries s !! k with
  | Some _ => Ok (tt, set_entries (delete k (st_entries s)) s)
  | None => Throw (RuntimeError "Key does not exist")
  end.

(** [LedgerTxn inner(ltx); ...]: the computation says whether it committed;
    otherwise the destructor rolls its changes back. *)
Definition nested {A} (m : M (bool * A)) : M A := fun s =>
  match m s with
  | Ok (true, a, s') => Ok (a, s')
  | Ok (false, a, _) => Ok (a, s)
  | Throw e => Throw e
  end.

(** [ltx.loadBestOffer(buying, selling)] on the flat state: the head of the
    pair's book. *)
Definition bestOffer (buying selling : Asset) : M (option LedgerKey) := fun s =>
  Ok (offer_key <$> head (book (mkEntry 0 <$> st_entries s) buying selling), s).

(** ** The arms of the entry union: the wrong one throws *)
Definition account_of (d : LedgerEntryData) : outcome AccountEntry :=
  match d with
  | ACCOUNT a => Ok a
  | _ => Throw (RuntimeError "data: account accessed when not selected")
  end.
Definition trustLine_of (d : LedgerEntryData) : outcome TrustLineEntry :=
  match d with
  | TRUSTLINE t => Ok t
  | _ => Throw (RuntimeError "data: trustLine accessed when not selected")
  end.
Definition offer_data (d : LedgerEntryData) : outcome OfferEntry :=
  match d with
  | OFFER o => Ok o
  | _ => Throw (RuntimeError "data: offer accessed when not selected")
  end.

(** A change of the entry under a handle: [None] is the return value [false],
    which changes nothing. *)
Definition modify (k : LedgerKey)
    (f : LedgerHeader -> LedgerEntryData -> outcome (option LedgerEntryData))
    : M bool :=
  h ← currentHeader;
  d ← current k;
  r ← lift (f h d);
  match r with
  | Some d' => _ ← setCurrent k d'; mret true
  | None => mret false
  end.
Definition read (k : LedgerKey)
    {A} (f : LedgerHeader -> LedgerEntryData -> outcome A) : M A :=
  h ← currentHeader;
  d ← current k;
  lift (f h d).

(** [entry.current() = f(entry.current())], which can throw. *)
Definition update (k : LedgerKey) (f : LedgerEntryData -> outcome LedgerEntryData)
    : M unit :=
  d ← current k; d' ← lift (f d); setCurrent k d'.

(** * Weakest preconditions

    [wp m Q s]: from [s], [m] does not throw and ends in a value and a state
    that satisfy [Q].  [wlp] lets it throw. *)
Definition wp {A} (m : M A) (Q : A -> LedgerState -> Prop) (s : LedgerState)
    : Prop :=
  match m s with Ok (a, s') => Q a s' | Throw _ => False end.
Definition wlp {A} (m : M A) (Q : A -> LedgerState -> Prop) (s : LedgerState)
    : Prop :=
  match m s with Ok (a, s') => Q a s' | Throw _ => True end.

Section Rules.
Context {A B : Type}.
Implicit Types (m : M A) (Q : A -> LedgerState -> Prop) (s : LedgerState).

Lemma wp_ret (a : A) Q s : Q a s -> wp (mret a) Q s.
Proof. done. Qed.
Lemma wp_bind m (f : A -> M B) (Q : B -> LedgerState -> Prop) s :
  wp m (fun a s' => wp (f a) Q s') s -> wp (m ≫= f) Q s.
Proof. unfold wp, mbind, M_bind. by destruct (m s) as [[a s']|]. Qed.
Lemma wp_mono m Q Q' s :
  wp m Q s -> (forall a s', Q a s' -> Q' a s') -> wp m Q' s.
Proof. unfold wp. destruct (m s) as [[a s']|]; auto. Qed.
Lemma wlp_ret (a : A) Q s : Q a s -> wlp (mret a) Q s.
Proof. done. Qed.
Lemma wlp_bind m (f : A -> M B) (Q : B -> LedgerState -> Prop) s :
  wlp m (fun a s' => wlp (f a) Q s') s -> wlp (m ≫= f) Q s.
Proof. unfold wlp, mbind, M_bind. by destruct (m s) as [[a s']|]. Qed.
Lemma wlp_mono m Q Q' s :
  wlp m Q s -> (forall a s', Q a s' -> Q' a s') -> wlp m Q' s.
Proof. unfold wlp. destruct (m s) as [[a s']|]; auto. Qed.
Lemma wlp_and m Q Q' s : wlp m Q s -> wlp m Q' s -> wlp m (fun a s' => Q a s' /\ Q' a s') s.
Proof. unfold wlp. by destruct (m s) as [[a s']|]. Qed.
Lemma wp_wlp m Q s : wp m Q s -> wlp m Q s.
Proof. unfold wp, wlp. by destruct (m s) as [[a s']|]. Qed.
Lemma wp_lift (o : outcome A) a Q s : o = Ok a -> Q a s -> wp (lift o) Q s.
Proof. intros ->. done. Qed.
Lemma wlp_lift (o : outcome A) Q s :
  (forall a, o = Ok a -> Q a s) -> wlp (lift o) Q s.
Proof. unfold wlp, lift. destruct o; auto. Qed.
Lemma wlp_throw what Q s : wlp (throw what) Q s.
Proof. done. Qed.

(** A nested transaction: either the inner computation committed, or the
    state is the one it started from. *)
Lemma wlp_nested (m : M (bool * A)) Q s :
  wlp m (fun r s' => if r.1 then Q r.2 s' else Q r.2 s) s ->
  wlp (nested m) Q s.
Proof. unfold wlp, nested. by destruct (m s) as [[[[] a] s']|]. Qed.
Lemma wp_nested (m : M (bool * A)) Q s :
  wp m (fun r s' => if r.1 then Q r.2 s' else Q r.2 s) s ->
  wp (nested m) Q s.
Proof. unfold wp, nested. by destruct (m s) as [[[[] a] s']|]. Qed.
End Rules.

Lemma wp_currentHeader Q s : Q (st_header s) s -> wp currentHeader Q s.
Proof. done. Qed.
Lemma wlp_currentHeader Q s : Q (st_header s) s -> wlp currentHeader Q s.
Proof. done. Qed.
Lemma wlp_setHeader h Q s : Q tt (mkState h (st_entries s)) -> wlp (setHeader h) Q s.
Proof. done. Qed.
Lemma wp_exists_entry k Q s :
  is_Some (st_entries s !! k) -> Q true s -> wp (exists_entry k) Q s.
Proof. intros Hk HQ. unfold wp, exists_entry. by rewrite bool_decide_eq_true_2. Qed.
Lemma wlp_exists_entry k Q s :
  (forall b, (b = true <-> is_Some (st_entries s !! k)) -> Q b s) ->
  wlp (exists_entry k) Q s.
Proof. intros HQ. apply HQ. apply bool_decide_eq_true. Qed.
Lemma wlp_setCurrent k d Q s :
  Q tt (set_entries (<[k := d]> (st_entries s)) s) -> wlp (setCurrent k d) Q s.
Proof. done. Qed.
Lemma wlp_bestOffer b sl Q s : (forall r, Q r s) -> wlp (bestOffer b sl) Q s.
Proof. intros H. apply H. Qed.
Lemma wlp_current k Q s :
  (forall d, st_entries s !! k = Some d -> Q d s) -> wlp (current k) Q s.
Proof. unfold wlp, current. destruct (st_entries s !! k); auto. Qed.
Lemma wp_current k d Q s :
  st_entries s !! k = Some d -> Q d s -> wp (current k) Q s.
Proof. unfold wp, current. by intros ->. Qed.
Lemma wlp_create d Q s :
  (st_entries s !! LedgerDataKey d = None ->
   Q tt (set_entries (<[LedgerDataKey d := d]> (st_entries s)) s)) ->
  wlp (createEntry d) Q s.
Proof. unfold wlp, createEntry. destruct (st_entries s !! _); auto. Qed.
Lemma wlp_erase k Q s :
  (is_Some (st_entries s !! k) ->
   Q tt (set_entries (delete k (st_entries s)) s)) ->
  wlp (eraseEntry k) Q s.
Proof. unfold wlp, eraseEntry. destruct (st_entries s !! k); auto. Qed.
Lemma wlp_modify k f Q s :
  (forall d, st_entries s !! k = Some d ->
   match f (st_header s) d with
   | Ok (Some d') => Q true (set_entries (<[k := d']> (st_entries s)) s)
   | Ok None => Q false s
   | Throw _ => True
   end) -> wlp (modify k f) Q s.
Proof.
  intros H. apply wlp_bind. cbn. apply wlp_bind, wlp_current. intros d Hd.
  apply wlp_bind, wlp_lift. intros r Hr. specialize (H d Hd). rewrite Hr in H.
  by destruct r.
Qed.
Lemma wp_modify k f d Q s :
  st_entries s !! k = Some d ->
  match f (st_header s) d with
  | Ok (Some d') => Q true (set_entries (<[k := d']> (st_entries s)) s)
  | Ok None => Q false s
  | Throw _ => False
  end -> wp (modify k f) Q s.
Proof.
  intros Hd H. apply wp_bind. cbn. apply wp_bind. eapply wp_current; [done|].
  apply wp_bind. destruct (f (st_header s) d) as [r|] eqn:E; [|done].
  eapply wp_lift; [done|]. by destruct r.
Qed.
Lemma wp_read {A} k (f : LedgerHeader -> LedgerEntryData -> outcome A) d a
    (Q : A -> LedgerState -> Prop) s :
  st_entries s !! k = Some d -> f (st_header s) d = Ok a -> Q a s ->
  wp (read k f) Q s.
Proof.
  intros Hd Hf H. apply wp_bind. cbn. apply wp_bind. eapply wp_current; [done|].
  by eapply wp_lift.
Qed.
Lemma read_state {A} k (f : LedgerHeader -> LedgerEntryData -> outcome A) s a s' :
  read k f s = Ok (a, s') -> s' = s.
Proof.
  unfold read, current, lift, mbind, M_bind. cbn. destruct (st_entries s !! k); [|done].
  destruct (f _ _); [|done]. by intros [= _ <-].
Qed.
Lemma wlp_read {A} k (f : LedgerHeader -> LedgerEntryData -> outcome A)
    (Q : A -> LedgerState -> Prop) s :
  (forall d a, st_entries s !! k = Some d -> f (st_header s) d = Ok a -> Q a s) ->
  wlp (read k f) Q s.
Proof.
  intros H. apply wlp_bind. cbn. apply wlp_bind, wlp_current. intros d Hd.
  apply wlp_lift. eauto.
Qed.

(** * Computations that respect a relation between states

    [keeps R m]: whenever [m] returns, [R] relates the states before and
    after.  For a preorder this composes, so that a whole operation inherits
    it from its primitives. *)
Definition keeps (R : LedgerState -> LedgerState -> Prop) {A} (m : M A) : Prop :=
  forall s, wlp m (fun _ s' => R s s') s.

Create HintDb keeps discriminated.

Section Keeps.
Context (R : LedgerState -> LedgerState -> Prop) `{!PreOrder R}.

Lemma keeps_ret {A} (a : A) : keeps R (mret a).
Proof using All. intros s. apply wlp_ret. reflexivity. Qed.
Lemma keeps_bind {A B} (m : M A) (f : A -> M B) :
  keeps R m -> (forall a, keeps R (f a)) -> keeps R (m ≫= f).
Proof using All.
  intros Hm Hf s. apply wlp_bind. eapply wlp_mono; [apply Hm|].
  intros a s1 H1. eapply wlp_mono; [apply Hf|]. intros b s2 H2. by transitivity s1.
Qed.
Lemma keeps_throw {A} what : keeps R (@throw A what).
Proof using. done. Qed.
Lemma keeps_lift {A} (o : outcome A) : keeps R (lift o).
Proof using All. intros s. apply wlp_lift. intros. reflexivity. Qed.
Lemma keeps_currentHeader : keeps R currentHeader.
Proof using All. intros s. apply wlp_currentHeader. reflexivity. Qed.
Lemma keeps_exists_entry k : keeps R (exists_entry k).
Proof using All. intros s. apply wlp_exists_entry. intros. reflexivity. Qed.
Lemma keeps_current k : keeps R (current k).
Proof using All. intros s. apply wlp_current. intros. reflexivity. Qed.
Lemma keeps_bestOffer b sl : keeps R (bestOffer b sl).
Proof using All. intros s. apply wlp_bestOffer. intros. reflexivity. Qed.
Lemma keeps_read {A} k (f : LedgerHeader -> LedgerEntryData -> outcome A) :
  keeps R (read k f).
Proof using All. intros s. apply wlp_read. intros. reflexivity. Qed.
Lemma keeps_if {A} (b : bool) (m m' : M A) :
  keeps R m -> keeps R m' -> keeps R (if b then m else m').
Proof using. by destruct b. Qed.
Lemma keeps_nested {A} (m : M (bool * A)) : keeps R m -> keeps R (nested m).
Proof using All.
  intros Hm s. apply wlp_nested. eapply wlp_mono; [apply Hm|].
  intros [[] a] s' H; cbn; [done|reflexivity].
Qed.
End Keeps.

#[export] Hint Resolve keeps_ret keeps_throw keeps_lift keeps_currentHeader
  keeps_exists_entry keeps_current keeps_bestOffer keeps_read : keeps.

(** Goes through a computation bind by bind and case by case; what is left
    are the primitives the hint database does not know for this relation. *)
Ltac keeps_step :=
  first
  [ solve [eauto with keeps typeclass_instances]
  | apply keeps_bind; [try exact _| |intros ?]
  | apply keeps_nested; [try exact _|]
  | match goal with
    | |- keeps _ (match ?x with _ => _ end) => destruct x
    | |- keeps _ (if ?x then _ else _) => destruct x
    | |- keeps _ (let '(_, _) := ?x in _) => destruct x
    end ].
Ltac keeps_auto := repeat keeps_step.
Ltac keeps_easy := eauto with keeps typeclass_instances.

Lemma wlp_keeps {A} R (m : M A) (Q : A -> LedgerState -> Prop) s :
  keeps R m -> (forall a s', R s s' -> Q a s') -> wlp m Q s.
Proof. intros Hm HQ. eapply wlp_mono; [apply Hm|]. auto. Qed.

Lemma wlp_top {A} (m : M A) s : wlp m (fun _ _ => True) s.
Proof. unfold wlp. by destruct (m s) as [[? ?]|]. Qed.

(** The state only loses keys. *)
Definition shrinks (s s' : LedgerState) : Prop :=
  dom (st_entries s') ⊆ dom (st_entries s).
#[export] Instance shrinks_preorder : PreOrder shrinks.
Proof.
  split; unfold shrinks; [intros s; reflexivity|]. intros a b c H H'.
  by transitivity (dom (st_entries b)).
Qed.

Lemma shrinks_modify k f : keeps shrinks (modify k f).
Proof.
  intros s. apply wlp_modify. intros d Hd. unfold shrinks.
  destruct (f _ d) as [[d'|]|]; cbn; [|reflexivity|done].
  rewrite dom_insert_lookup; [reflexivity|by eexists].
Qed.
Lemma shrinks_erase k : keeps shrinks (eraseEntry k).
Proof.
  intros s. apply wlp_erase. intros _. unfold shrinks. cbn.
  rewrite dom_delete. apply subseteq_difference_l. reflexivity.
Qed.
#[export] Hint Resolve shrinks_modify shrinks_erase : keeps.
