(* ===== verification/TransactionUtils.v ===== *)
(** Account and trust line arithmetic: [src/src/transactions/TransactionUtils.cpp]
    and the trust line wrappers of [src/src/ledger/TrustLineWrapper.cpp].

    The functions on a [LedgerEntry] are pure; the ones on a handle are
    computations on the ledger state.  A [bool] that tells whether an entry
    was changed is an [option] of the new entry in the pure functions. *)

From stdpp Require Import sorting.
From S2P Require Import Prelude Numeric OfferMath Types LedgerState.

Definition unknown_type {A} : outcome A :=
  Throw (RuntimeError "Unknown LedgerEntry type").

(** * Reserves and liabilities *)
Definition getMinBalance (header : LedgerHeader) (ownerCount : Z) : Z :=
  if ledgerVersion header <=? 8
  then u32 (u32 (2 + ownerCount) * baseReserve header)
  else s64 (u32 (2 + ownerCount) * baseReserve header).

Definition liabilities_of (ext : option Liabilities) : Liabilities :=
  default (mkLiabilities 0 0) ext.

Definition getBuyingLiabilities (header : LedgerHeader) (le : LedgerEntryData)
    : outcome Z :=
  if ledgerVersion header <? 10
  then Throw (RuntimeError "Liabilities accessed before version 10")
  else match le with
  | ACCOUNT acc => Ok (match acc_ext acc with None => 0 | Some l => buying l end)
  | TRUSTLINE tl => Ok (match tl_ext tl with None => 0 | Some l => buying l end)
  | _ => unknown_type
  end.

Definition getSellingLiabilities (header : LedgerHeader) (le : LedgerEntryData)
    : outcome Z :=
  if ledgerVersion header <? 10
  then Throw (RuntimeError "Liabilities accessed before version 10")
  else match le with
  | ACCOUNT acc => Ok (match acc_ext acc with None => 0 | Some l => selling l end)
  | TRUSTLINE tl => Ok (match tl_ext tl with None => 0 | Some l => selling l end)
  | _ => unknown_type
  end.

Definition isAuthorized (le : LedgerEntryData) : outcome bool :=
  tl ← trustLine_of le;
  Ok (negb (Z.land (tl_flags tl) AUTHORIZED_FLAG =? 0)).
Definition isAuthRequired (le : LedgerEntryData) : outcome bool :=
  acc ← account_of le;
  Ok (negb (Z.land (acc_flags acc) AUTH_REQUIRED_FLAG =? 0)).
Definition isImmutableAuth (le : LedgerEntryData) : outcome bool :=
  acc ← account_of le;
  Ok (negb (Z.land (acc_flags acc) AUTH_IMMUTABLE_FLAG =? 0)).

(** [acc.ext.v(1)] with zero liabilities if there were none, then one of them
    assigned. *)
Definition set_buying (b : Z) (ext : option Liabilities) : option Liabilities :=
  Some (mkLiabilities b (selling (liabilities_of ext))).
Definition set_selling (s : Z) (ext : option Liabilities) : option Liabilities :=
  Some (mkLiabilities (buying (liabilities_of ext)) s).

(** * The functions on an entry *)
Definition addBalance (header : LedgerHeader) (entry : LedgerEntryData)
    (delta : Z) : outcome (option LedgerEntryData) :=
  match entry with
  | ACCOUNT acc =>
      if delta =? 0 then Ok (Some entry)
      else
        r ← Numeric.addBalance (acc_balance acc) delta INT64_MAX;
        match r with
        | None => Ok None
        | Some newBalance =>
            if 10 <=? ledgerVersion header then
              let minBalance := getMinBalance header (acc_numSubEntries acc) in
              sell ← getSellingLiabilities header entry;
              if (delta <? 0) && (s64 (newBalance - minBalance) <? sell)
              then Ok None
              else
                buy ← getBuyingLiabilities header entry;
                if s64 (INT64_MAX - buy) <? newBalance then Ok None
                else Ok (Some (ACCOUNT (set_balance newBalance acc)))
            else Ok (Some (ACCOUNT (set_balance newBalance acc)))
        end
  | TRUSTLINE tl =>
      if delta =? 0 then Ok (Some entry)
      else
        auth ← isAuthorized entry;
        if negb auth then Ok None
        else
          r ← Numeric.addBalance (tl_balance tl) delta (tl_limit tl);
          match r with
          | None => Ok None
          | Some newBalance =>
              if 10 <=? ledgerVersion header then
                sell ← getSellingLiabilities header entry;
                if newBalance <? sell then Ok None
                else
                  buy ← getBuyingLiabilities header entry;
                  if s64 (tl_limit tl - buy) <? newBalance then Ok None
                  else Ok (Some (TRUSTLINE (set_tl_balance newBalance tl)))
              else Ok (Some (TRUSTLINE (set_tl_balance newBalance tl)))
          end
  | _ => unknown_type
  end.

Definition addBuyingLiabilities (header : LedgerHeader) (entry : LedgerEntryData)
    (delta : Z) : outcome (option LedgerEntryData) :=
  buyingLiab ← getBuyingLiabilities header entry;
  if delta =? 0 then Ok (Some entry)
  else match entry with
  | ACCOUNT acc =>
      let maxLiabilities := s64 (INT64_MAX - acc_balance acc) in
      r ← Numeric.addBalance buyingLiab delta maxLiabilities;
      Ok (match r with
          | Some b => Some (ACCOUNT (set_ext (set_buying b (acc_ext acc)) acc))
          | None => None
          end)
  | TRUSTLINE tl =>
      auth ← isAuthorized entry;
      if negb auth then Ok None
      else
        let maxLiabilities := s64 (tl_limit tl - tl_balance tl) in
        r ← Numeric.addBalance buyingLiab delta maxLiabilities;
        Ok (match r with
            | Some b =>
                Some (TRUSTLINE (set_tl_ext (set_buying b (tl_ext tl)) tl))
            | None => None
            end)
  | _ => unknown_type
  end.

Definition addSellingLiabilities (header : LedgerHeader) (entry : LedgerEntryData)
    (delta : Z) : outcome (option LedgerEntryData) :=
  sellingLiab ← getSellingLiabilities header entry;
  if delta =? 0 then Ok (Some entry)
  else match entry with
  | ACCOUNT acc =>
      let maxLiabilities :=
        s64 (acc_balance acc - getMinBalance header (acc_numSubEntries acc)) in
      if maxLiabilities <? 0 then Ok None
      else
        r ← Numeric.addBalance sellingLiab delta maxLiabilities;
        Ok (match r with
            | Some b => Some (ACCOUNT (set_ext (set_selling b (acc_ext acc)) acc))
            | None => None
            end)
  | TRUSTLINE tl =>
      auth ← isAuthorized entry;
      if negb auth then Ok None
      else
        let maxLiabilities := tl_balance tl in
        r ← Numeric.addBalance sellingLiab delta maxLiabilities;
        Ok (match r with
            | Some b =>
                Some (TRUSTLINE (set_tl_ext (set_selling b (tl_ext tl)) tl))
            | None => None
            end)
  | _ => unknown_type
  end.

(** [count] and the new count are [int]; the account's counter and the
    argument of [getMinBalance] are [uint32_t]. *)
Definition addNumEntries (header : LedgerHeader) (entry : LedgerEntryData)
    (count : Z) : outcome (option LedgerEntryData) :=
  acc ← account_of entry;
  let newEntriesCount := s32 (u32 (acc_numSubEntries acc + count)) in
  if newEntriesCount <? 0
  then Throw (RuntimeError "invalid account state")
  else
    let minBalance := getMinBalance header (u32 newEntriesCount) in
    effMinBalance ←
      (if 10 <=? ledgerVersion header then
         sell ← getSellingLiabilities header entry; Ok (s64 (minBalance + sell))
       else Ok minBalance);
    if (0 <? count) && (acc_balance acc <? effMinBalance) then Ok None
    else Ok (Some (ACCOUNT (set_numSubEntries (u32 newEntriesCount) acc))).

Definition getAvailableBalance (header : LedgerHeader) (le : LedgerEntryData)
    : outcome Z :=
  avail ←
    match le with
    | ACCOUNT acc =>
        Ok (s64 (acc_balance acc - getMinBalance header (acc_numSubEntries acc)))
    | TRUSTLINE tl => Ok (tl_balance tl)
    | _ => unknown_type
    end;
  if 10 <=? ledgerVersion header then
    sell ← getSellingLiabilities header le; Ok (s64 (avail - sell))
  else Ok avail.

Definition getMaxAmountReceive (header : LedgerHeader) (le : LedgerEntryData)
    : outcome Z :=
  match le with
  | ACCOUNT acc =>
      if 10 <=? ledgerVersion header then
        buy ← getBuyingLiabilities header le;
        Ok (s64 (INT64_MAX - s64 (acc_balance acc + buy)))
      else Ok INT64_MAX
  | TRUSTLINE tl =>
      auth ← isAuthorized le;
      if auth : bool then
        let amount := s64 (tl_limit tl - tl_balance tl) in
        if 10 <=? ledgerVersion header then
          buy ← getBuyingLiabilities header le; Ok (s64 (amount - buy))
        else Ok amount
      else Ok 0
  | _ => unknown_type
  end.

Definition getMinimumLimit (header : LedgerHeader) (le : LedgerEntryData)
    : outcome Z :=
  tl ← trustLine_of le;
  if 10 <=? ledgerVersion header then
    buy ← getBuyingLiabilities header le; Ok (s64 (tl_balance tl + buy))
  else Ok (tl_balance tl).

Definition getOfferBuyingLiabilities (header : LedgerHeader)
    (entry : LedgerEntryData) : outcome Z :=
  if ledgerVersion header <? 10
  then Throw (RuntimeError "Offer liabilities calculated before version 10")
  else
    oe ← offer_data entry;
    res ← exchangeV10WithoutPriceErrorThresholds (of_price oe) (of_amount oe)
            INT64_MAX INT64_MAX INT64_MAX false;
    Ok (numSheepSend res).

Definition getOfferSellingLiabilities (header : LedgerHeader)
    (entry : LedgerEntryData) : outcome Z :=
  if ledgerVersion header <? 10
  then Throw (RuntimeError "Offer liabilities calculated before version 10")
  else
    oe ← offer_data entry;
    res ← exchangeV10WithoutPriceErrorThresholds (of_price oe) (of_amount oe)
            INT64_MAX INT64_MAX INT64_MAX false;
    Ok (numWheatReceived res).

Definition getStartingSequenceNumber (header : LedgerHeader) : Z :=
  u64 (Z.shiftl (u64 (ledgerSeq header)) 32).

Definition setAuthorized (le : LedgerEntryData) (authorized : bool)
    : outcome LedgerEntryData :=
  tl ← trustLine_of le;
  let flags :=
    if authorized then Z.lor (tl_flags tl) AUTHORIZED_FLAG
    else Z.land (tl_flags tl) (u32 (Z.lnot AUTHORIZED_FLAG)) in
  Ok (TRUSTLINE (set_tl_flags flags tl)).

(** [SignerKey]s are ordered by type, then by their 32 bytes. *)
Definition signer_key_rank (k : SignerKey) : Z * Z :=
  match k with
  | SIGNER_KEY_ED25519 x => (0, x)
  | SIGNER_KEY_PRE_AUTH_TX x => (1, x)
  | SIGNER_KEY_HASH_X x => (2, x)
  end.
Definition signer_key_lt (a b : SignerKey) : bool :=
  ((signer_key_rank a).1 <? (signer_key_rank b).1)
  || (((signer_key_rank a).1 =? (signer_key_rank b).1)
      && ((signer_key_rank a).2 <? (signer_key_rank b).2)).
Definition signer_le (a b : Signer) : Prop :=
  signer_key_lt (signer_key b) (signer_key a) = false.
#[export] Instance signer_le_dec : RelDecision signer_le.
Proof. intros a b. unfold signer_le. apply _. Defined.

Definition set_signers (l : list Signer) (a : AccountEntry) : AccountEntry :=
  mkAccount (acc_id a) (acc_balance a) (acc_seqNum a) (acc_marker a)
    (acc_numSubEntries a) (acc_inflationDest a) (acc_flags a)
    (acc_homeDomain a) (acc_thresholds a) l (acc_ext a).

(** [std::sort] on the key order. *)
Definition normalizeSigners (le : LedgerEntryData) : outcome LedgerEntryData :=
  acc ← account_of le;
  Ok (ACCOUNT (set_signers (merge_sort signer_le (acc_signers acc)) acc)).

(** * Handles on the ledger *)
Definition loadAccount (accountID : AccountID) : M bool :=
  exists_entry (KeyAccount accountID).
Definition loadAccountWithoutRecord (accountID : AccountID) : M bool :=
  exists_entry (KeyAccount accountID).
Definition loadData (accountID : AccountID) (dataName : string) : M bool :=
  exists_entry (KeyData accountID dataName).
Definition loadOffer (sellerID : AccountID) (offerID : Z) : M bool :=
  exists_entry (KeyOffer sellerID offerID).

(** [++header.current().idPool] *)
Definition generateID : M Z :=
  h ← currentHeader;
  let id := u64 (idPool h + 1) in
  _ ← setHeader (set_idPool id h);
  mret id.

(** ** [TrustLineWrapper]: the operations of [AbstractImpl] *)
Record AbstractImpl := mkImpl {
  impl_bool : M bool;
  impl_getBalance : M Z;
  impl_addBalance : Z -> M bool;
  impl_getBuyingLiabilities : M Z;
  impl_getSellingLiabilities : M Z;
  impl_addBuyingLiabilities : Z -> M bool;
  impl_addSellingLiabilities : Z -> M bool;
  impl_isAuthorized : M bool;
  impl_getAvailableBalance : M Z;
  impl_getMaxAmountReceive : M Z }.

Definition NonIssuerImpl (mEntry : LedgerKey) : AbstractImpl := {|
  impl_bool := exists_entry mEntry;
  impl_getBalance := read mEntry (fun _ d => tl_balance <$> trustLine_of d);
  impl_addBalance delta := modify mEntry (fun h d => addBalance h d delta);
  impl_getBuyingLiabilities := read mEntry getBuyingLiabilities;
  impl_getSellingLiabilities := read mEntry getSellingLiabilities;
  impl_addBuyingLiabilities delta :=
    modify mEntry (fun h d => addBuyingLiabilities h d delta);
  impl_addSellingLiabilities delta :=
    modify mEntry (fun h d => addSellingLiabilities h d delta);
  impl_isAuthorized := read mEntry (fun _ d => isAuthorized d);
  impl_getAvailableBalance := read mEntry getAvailableBalance;
  impl_getMaxAmountReceive := read mEntry getMaxAmountReceive |}.

(** The issuer of an asset has no trust line to itself: it holds and receives
    any amount, and nothing is stored. *)
Definition IssuerImpl : AbstractImpl := {|
  impl_bool := mret true;
  impl_getBalance := mret INT64_MAX;
  impl_addBalance delta := mret true;
  impl_getBuyingLiabilities := mret 0;
  impl_getSellingLiabilities := mret 0;
  impl_addBuyingLiabilities delta := mret true;
  impl_addSellingLiabilities delta := mret true;
  impl_isAuthorized := mret true;
  impl_getAvailableBalance := mret INT64_MAX;
  impl_getMaxAmountReceive := mret INT64_MAX |}.

(** The two classes that implement it, and [mImpl], a [unique_ptr] to an
    object of one of them. *)
Inductive ImplObject := NonIssuer (mEntry : LedgerKey) | Issuer.
Definition impl_of (i : ImplObject) : AbstractImpl :=
  match i with NonIssuer k => NonIssuerImpl k | Issuer => IssuerImpl end.
Definition TrustLineWrapper : Type := option ImplObject.

Definition makeTrustLineWrapper (accountID : AccountID) (asset : Asset)
    : M TrustLineWrapper :=
  if is_native asset then throw "trustline for native asset"
  else
    issuer ← lift (getIssuer asset);
    if negb (issuer =? accountID) then
      let key := KeyTrustLine accountID asset in
      entry ← exists_entry key;
      mret (if entry : bool then Some (NonIssuer key) else None)
    else mret (Some Issuer).

Definition loadTrustLine (accountID : AccountID) (asset : Asset)
    : M TrustLineWrapper := makeTrustLineWrapper accountID asset.
Definition loadTrustLineIfNotNative (accountID : AccountID) (asset : Asset)
    : M TrustLineWrapper :=
  if is_native asset then mret None else makeTrustLineWrapper accountID asset.

(** [(bool)wrapper] and the access that throws when it is [false]. *)
Definition line_bool (w : TrustLineWrapper) : M bool :=
  match w with None => mret false | Some i => impl_bool (impl_of i) end.
Definition getImpl (w : TrustLineWrapper) : M AbstractImpl :=
  b ← line_bool w;
  match w with
  | Some i =>
      if b : bool then mret (impl_of i) else throw "TrustLineWrapper not active"
  | None => throw "TrustLineWrapper not active"
  end.
Definition line_addBalance (w : TrustLineWrapper) (delta : Z) : M bool :=
  i ← getImpl w; impl_addBalance i delta.
Definition line_addBuyingLiabilities (w : TrustLineWrapper) (delta : Z)
    : M bool := i ← getImpl w; impl_addBuyingLiabilities i delta.
Definition line_addSellingLiabilities (w : TrustLineWrapper) (delta : Z)
    : M bool := i ← getImpl w; impl_addSellingLiabilities i delta.
Definition line_getBalance (w : TrustLineWrapper) : M Z :=
  i ← getImpl w; impl_getBalance i.
Definition line_getBuyingLiabilities (w : TrustLineWrapper) : M Z :=
  i ← getImpl w; impl_getBuyingLiabilities i.
Definition line_getSellingLiabilities (w : TrustLineWrapper) : M Z :=
  i ← getImpl w; impl_getSellingLiabilities i.
Definition line_isAuthorized (w : TrustLineWrapper) : M bool :=
  i ← getImpl w; impl_isAuthorized i.
Definition line_getAvailableBalance (w : TrustLineWrapper) : M Z :=
  i ← getImpl w; impl_getAvailableBalance i.
Definition line_getMaxAmountReceive (w : TrustLineWrapper) : M Z :=
  i ← getImpl w; impl_getMaxAmountReceive i.

(** ** [ConstTrustLineWrapper] *)
Record ConstAbstractImpl := mkConstImpl {
  const_bool : M bool;
  const_getBalance : M Z;
  const_isAuthorized : M bool;
  const_getAvailableBalance : M Z;
  const_getMaxAmountReceive : M Z }.

Definition ConstNonIssuerImpl (mEntry : LedgerKey) : ConstAbstractImpl := {|
  const_bool := exists_entry mEntry;
  const_getBalance := read mEntry (fun _ d => tl_balance <$> trustLine_of d);
  const_isAuthorized := read mEntry (fun _ d => isAuthorized d);
  const_getAvailableBalance := read mEntry getAvailableBalance;
  const_getMaxAmountReceive := read mEntry getMaxAmountReceive |}.
Definition ConstIssuerImpl : ConstAbstractImpl := {|
  const_bool := mret true;
  const_getBalance := mret INT64_MAX;
  const_isAuthorized := mret true;
  const_getAvailableBalance := mret INT64_MAX;
  const_getMaxAmountReceive := mret INT64_MAX |}.

Definition const_impl_of (i : ImplObject) : ConstAbstractImpl :=
  match i with NonIssuer k => ConstNonIssuerImpl k | Issuer => ConstIssuerImpl end.
Definition ConstTrustLineWrapper : Type := option ImplObject.

(** Unlike the other wrapper, it does not test for the native asset first:
    [getIssuer] throws on it. *)
Definition loadTrustLineWithoutRecord (accountID : AccountID) (asset : Asset)
    : M ConstTrustLineWrapper :=
  issuer ← lift (getIssuer asset);
  if negb (issuer =? accountID) then
    let key := KeyTrustLine accountID asset in
    entry ← exists_entry key;
    mret (if entry : bool then Some (NonIssuer key) else None)
  else mret (Some Issuer).
Definition loadTrustLineWithoutRecordIfNotNative (accountID : AccountID)
    (asset : Asset) : M ConstTrustLineWrapper :=
  if is_native asset then mret None
  else loadTrustLineWithoutRecord accountID asset.

Definition const_line_bool (w : ConstTrustLineWrapper) : M bool :=
  match w with None => mret false | Some i => const_bool (const_impl_of i) end.
Definition getConstImpl (w : ConstTrustLineWrapper) : M ConstAbstractImpl :=
  b ← const_line_bool w;
  match w with
  | Some i =>
      if b : bool then mret (const_impl_of i)
      else throw "ConstTrustLineWrapper not active"
  | None => throw "ConstTrustLineWrapper not active"
  end.
Definition const_line_getBalance (w : ConstTrustLineWrapper) : M Z :=
  i ← getConstImpl w; const_getBalance i.
Definition const_line_isAuthorized (w : ConstTrustLineWrapper) : M bool :=
  i ← getConstImpl w; const_isAuthorized i.
Definition const_line_getAvailableBalance (w : ConstTrustLineWrapper) : M Z :=
  i ← getConstImpl w; const_getAvailableBalance i.
Definition const_line_getMaxAmountReceive (w : ConstTrustLineWrapper) : M Z :=
  i ← getConstImpl w; const_getMaxAmountReceive i.

(** ** Liabilities of an offer *)
Definition acquireOrReleaseLiabilities (offerEntry : LedgerKey)
    (isAcquire : bool) : M unit :=
  header ← currentHeader;
  d ← current offerEntry;
  offer ← lift (offer_data d);
  if bool_decide (of_buying offer = of_selling offer)
  then throw "buying and selling same asset"
  else
    let sellerID := of_seller offer in
    let loadAccountAndValidate : M LedgerKey :=
      account ← loadAccount sellerID;
      if account : bool then mret (KeyAccount sellerID)
      else throw "account does not exist" in
    let loadTrustAndValidate asset : M TrustLineWrapper :=
      trust ← loadTrustLine sellerID asset;
      b ← line_bool trust;
      if b : bool then mret trust else throw "trustline does not exist" in
    let check what (b : bool) : M unit := if b then mret tt else throw what in
    buyingLiab ← lift (getOfferBuyingLiabilities header d);
    let buyingLiabilities := if isAcquire then buyingLiab else s64 (- buyingLiab) in
    _ ← (if is_native (of_buying offer) then
           account ← loadAccountAndValidate;
           b ← modify account (fun h e => addBuyingLiabilities h e buyingLiabilities);
           check "could not add buying liabilities" b
         else
           buyingTrust ← loadTrustAndValidate (of_buying offer);
           b ← line_addBuyingLiabilities buyingTrust buyingLiabilities;
           check "could not add buying liabilities" b);
    sellingLiab ← lift (getOfferSellingLiabilities header d);
    let sellingLiabilities := if isAcquire then sellingLiab else s64 (- sellingLiab) in
    if is_native (of_selling offer) then
      account ← loadAccountAndValidate;
      b ← modify account (fun h e => addSellingLiabilities h e sellingLiabilities);
      check "could not add selling liabilities" b
    else
      sellingTrust ← loadTrustAndValidate (of_selling offer);
      b ← line_addSellingLiabilities sellingTrust sellingLiabilities;
      check "could not add selling liabilities" b.

Definition acquireLiabilities (offer : LedgerKey) : M unit :=
  acquireOrReleaseLiabilities offer true.
Definition releaseLiabilities (offer : LedgerKey) : M unit :=
  acquireOrReleaseLiabilities offer false.
