(* ===== verification/Positions.v ===== *)
(** The abstract view of an account's holding of one asset.

    An account entry and a trust line play the same part in the exchange code:
    a balance between a floor and a ceiling, of which [selling] is promised to
    the account's offers and into which [buying] is promised to flow.  This
    file states what each function of [TransactionUtils] does on that view
    ([Position]), for account and trust line at once, from protocol version 10
    on; the issuer of an asset, who has no entry, is the other kind of
    [Side]. *)

From S2P Require Import Prelude Numeric OfferMath Types LedgerState TransactionUtils.

#[global] Arguments liabilities_of : simpl never.

Record Position := mkPos {
  p_balance : Z;
  p_floor : Z;
  p_ceiling : Z;
  p_buying : Z;
  p_selling : Z;
  p_auth : bool }.

Definition min_balance (h : LedgerHeader) (n : Z) : Z := (2 + n) * baseReserve h.

Definition position_of (h : LedgerHeader) (d : LedgerEntryData) : option Position :=
  match d with
  | ACCOUNT a =>
      let l := liabilities_of (acc_ext a) in
      Some (mkPos (acc_balance a) (min_balance h (acc_numSubEntries a)) INT64_MAX
              (buying l) (selling l) true)
  | TRUSTLINE t =>
      let l := liabilities_of (tl_ext t) in
      Some (mkPos (tl_balance t) 0 (tl_limit t) (buying l) (selling l)
              (negb (Z.land (tl_flags t) AUTHORIZED_FLAG =? 0)))
  | _ => None
  end.

(** What is free to send, and what may still come in. *)
Definition p_available (p : Position) : Z := p_balance p - p_floor p - p_selling p.
Definition p_room (p : Position) : Z := p_ceiling p - p_balance p - p_buying p.

(** A position keeps its promises: everything promised to flow in fits under
    the ceiling, and everything promised to flow out is there above the
    floor.  (A balance may fall under the floor when nothing is promised, for
    instance by fees.) *)
Definition pos_ok (p : Position) : Prop :=
  0 <= p_floor p <= INT64_MAX /\ 0 <= p_balance p <= p_ceiling p /\
  p_ceiling p <= INT64_MAX /\ 0 <= p_buying p /\ 0 <= p_room p /\
  0 <= p_selling p /\ (p_selling p = 0 \/ 0 <= p_available p).

Definition pos_add_balance (x : Z) (p : Position) : Position :=
  mkPos (p_balance p + x) (p_floor p) (p_ceiling p) (p_buying p) (p_selling p)
    (p_auth p).
Definition pos_add_buying (x : Z) (p : Position) : Position :=
  mkPos (p_balance p) (p_floor p) (p_ceiling p) (p_buying p + x) (p_selling p)
    (p_auth p).
Definition pos_add_selling (x : Z) (p : Position) : Position :=
  mkPos (p_balance p) (p_floor p) (p_ceiling p) (p_buying p) (p_selling p + x)
    (p_auth p).

(** When each of them is allowed. *)
Definition pos_moves (x : Z) (p : Position) : bool :=
  (x =? 0)
  || (p_auth p && (if x <? 0 then - x <=? p_available p else x <=? p_room p)).
Definition pos_takes_buying (x : Z) (p : Position) : bool :=
  (x =? 0) || (p_auth p && (0 <=? p_buying p + x) && (x <=? p_room p)).
Definition pos_takes_selling (x : Z) (p : Position) : bool :=
  (x =? 0)
  || (p_auth p && (0 <=? p_selling p + x) && (p_floor p <=? p_balance p)
      && (x <=? p_available p)).

(** The same on the entry. *)
Definition entry_add_balance (x : Z) (d : LedgerEntryData) : LedgerEntryData :=
  match d with
  | ACCOUNT a => ACCOUNT (set_balance (acc_balance a + x) a)
  | TRUSTLINE t => TRUSTLINE (set_tl_balance (tl_balance t + x) t)
  | _ => d
  end.
Definition entry_add_buying (x : Z) (d : LedgerEntryData) : LedgerEntryData :=
  if x =? 0 then d
  else match d with
  | ACCOUNT a =>
      ACCOUNT (set_ext (set_buying (buying (liabilities_of (acc_ext a)) + x)
                          (acc_ext a)) a)
  | TRUSTLINE t =>
      TRUSTLINE (set_tl_ext (set_buying (buying (liabilities_of (tl_ext t)) + x)
                               (tl_ext t)) t)
  | _ => d
  end.
Definition entry_add_selling (x : Z) (d : LedgerEntryData) : LedgerEntryData :=
  if x =? 0 then d
  else match d with
  | ACCOUNT a =>
      ACCOUNT (set_ext (set_selling (selling (liabilities_of (acc_ext a)) + x)
                          (acc_ext a)) a)
  | TRUSTLINE t =>
      TRUSTLINE (set_tl_ext (set_selling (selling (liabilities_of (tl_ext t)) + x)
                               (tl_ext t)) t)
  | _ => d
  end.

(** The hypotheses on the header: a protocol with liabilities, and a base
    reserve that is a [uint32_t].  An account has far fewer than 2^30
    subentries, so that its reserve is an [int64_t]. *)
Definition header_v10 (h : LedgerHeader) : Prop :=
  10 <= ledgerVersion h /\ 0 <= baseReserve h <= UINT32_MAX.
Definition few_subentries (d : LedgerEntryData) : Prop :=
  match d with
  | ACCOUNT a => 0 <= acc_numSubEntries a <= 1073741824
  | _ => True
  end.
(** Everything the functions below ask of an entry. *)
Definition entry_ok (h : LedgerHeader) (d : LedgerEntryData) : Prop :=
  few_subentries d /\
  match position_of h d with Some p => pos_ok p | None => True end.

(** * Lemmas *)
Section V10.
Context (h : LedgerHeader) (Hh : header_v10 h).

Lemma ge10 : (10 <=? ledgerVersion h) = true.
Proof using Hh. destruct Hh. by apply Z.leb_le. Qed.
Lemma not_lt10 : (ledgerVersion h <? 10) = false.
Proof using Hh. destruct Hh. by apply Z.ltb_ge. Qed.

Lemma getMinBalance_eq n :
  0 <= n <= 1073741825 -> getMinBalance h n = min_balance h n.
Proof using Hh.
  destruct Hh as [Hv Hr]. intros Hn. unfold getMinBalance, min_balance.
  rewrite (proj2 (Z.leb_gt _ _)) by lia. unfold_ints.
  rewrite (u32_id (2 + n)) by (unfold_ints; lia).
  apply s64_id. unfold_ints. nia.
Qed.

Lemma min_balance_range n :
  0 <= n <= 1073741825 -> 0 <= min_balance h n <= INT64_MAX.
Proof using Hh.
  destruct Hh as [Hv Hr]. intros Hn. unfold min_balance. unfold_ints. nia.
Qed.

Context (d : LedgerEntryData) (p : Position).
Context (Hp : position_of h d = Some p).

Lemma getBuyingLiabilities_pos : getBuyingLiabilities h d = Ok (p_buying p).
Proof using Hh Hp.
  unfold getBuyingLiabilities. rewrite not_lt10.
  destruct d as [a|t|o|x]; try discriminate Hp; injection Hp as <-; cbn;
    [by destruct (acc_ext a) | by destruct (tl_ext t)].
Qed.

Lemma getSellingLiabilities_pos : getSellingLiabilities h d = Ok (p_selling p).
Proof using Hh Hp.
  unfold getSellingLiabilities. rewrite not_lt10.
  destruct d as [a|t|o|x]; try discriminate Hp; injection Hp as <-; cbn;
    [by destruct (acc_ext a) | by destruct (tl_ext t)].
Qed.

(** The entry updates are the position updates. *)
Lemma position_add_balance x :
  position_of h (entry_add_balance x d) = Some (pos_add_balance x p).
Proof using Hp. by destruct d; try discriminate Hp; injection Hp as <-. Qed.
Lemma position_add_buying x :
  position_of h (entry_add_buying x d) = Some (pos_add_buying x p).
Proof using Hp.
  unfold entry_add_buying. destruct (Z.eqb_spec x 0) as [->|];
    (destruct d; try discriminate Hp; injection Hp as <-; cbn;
     unfold pos_add_buying; cbn; by rewrite ?Z.add_0_r).
Qed.
Lemma position_add_selling x :
  position_of h (entry_add_selling x d) = Some (pos_add_selling x p).
Proof using Hp.
  unfold entry_add_selling. destruct (Z.eqb_spec x 0) as [->|];
    (destruct d; try discriminate Hp; injection Hp as <-; cbn;
     unfold pos_add_selling; cbn; by rewrite ?Z.add_0_r).
Qed.
Context (Hd : few_subentries d) (Hok : pos_ok p).

Local Ltac open_entry :=
  destruct d as [a|t|o|x]; try discriminate Hp; injection Hp as <-;
  unfold pos_ok, p_available, p_room in Hok; cbn in Hok, Hd.

Lemma getAvailableBalance_pos : getAvailableBalance h d = Ok (p_available p).
Proof using Hh Hd Hp Hok.
  unfold getAvailableBalance. rewrite ge10, getSellingLiabilities_pos.
  open_entry; cbn [mbind outcome_bind p_selling p_available p_balance p_floor].
  - rewrite getMinBalance_eq by lia. f_equal.
    unfold p_available. cbn [p_balance p_floor p_selling].
    rewrite (s64_id (_ - min_balance _ _)) by (unfold_ints; lia).
    apply s64_id. unfold_ints. lia.
  - f_equal. unfold p_available. cbn.
    rewrite s64_id by (unfold_ints; lia). lia.
Qed.

Lemma getMaxAmountReceive_pos :
  getMaxAmountReceive h d = Ok (if p_auth p then p_room p else 0).
Proof using Hh Hd Hp Hok.
  unfold getMaxAmountReceive. rewrite ge10, getBuyingLiabilities_pos.
  open_entry; cbn [mbind outcome_bind].
  - f_equal. unfold p_room. cbn [p_balance p_buying p_ceiling p_auth].
    rewrite (s64_id (_ + _)) by (unfold_ints; lia).
    rewrite s64_id by (unfold_ints; lia). lia.
  - unfold isAuthorized. cbn [trustLine_of mbind outcome_bind p_auth].
    destruct (negb (Z.land _ _ =? 0)); [|done]. f_equal. unfold p_room. cbn.
    rewrite (s64_id (tl_limit t - _)) by (unfold_ints; lia).
    apply s64_id. unfold_ints; lia.
Qed.

(** A balance moves exactly when the amount sent is available, or the amount
    received fits. *)
Lemma addBalance_pos delta :
  in_s64 delta ->
  addBalance h d delta =
    Ok (if (delta =? 0)
           || (p_auth p && (if delta <? 0 then - delta <=? p_available p
                            else delta <=? p_room p))
        then Some (entry_add_balance delta d) else None).
Proof using Hh Hd Hp Hok.
  intros Hdelta. unfold addBalance. destruct (Z.eqb_spec delta 0) as [->|Hnz].
  { cbn [orb]. destruct d as [a|t|o|x]; try discriminate Hp;
      cbn [entry_add_balance]; rewrite Z.add_0_r; by destruct a || destruct t. }
  rewrite ge10, getSellingLiabilities_pos, getBuyingLiabilities_pos.
  cbn [orb]. open_entry; cbn [mbind outcome_bind p_auth].
  - rewrite Numeric.addBalance_eq by (unfold_ints; lia). cbn [mbind outcome_bind].
    rewrite (proj2 (Z.eqb_neq _ _) Hnz), getMinBalance_eq by lia.
    unfold p_available, p_room.
    cbn [p_balance p_floor p_selling p_buying p_ceiling entry_add_balance].
    destruct ((_ <? 0) || _) eqn:E; zbool; cbn [andb].
    + destruct (Z.ltb_spec delta 0); zcase; try done; unfold_ints; lia.
    + rewrite (s64_id (INT64_MAX - _)), (s64_id (_ - _)) by (unfold_ints; lia).
      destruct (Z.ltb_spec delta 0); cbn [andb]; repeat zcase; try done;
        unfold_ints; lia.
  - unfold isAuthorized. cbn [trustLine_of mbind outcome_bind].
    destruct (negb (Z.land _ _ =? 0)) eqn:Ea; [|done]. cbn [negb andb].
    rewrite Numeric.addBalance_eq by (unfold_ints; lia). cbn [mbind outcome_bind].
    rewrite (proj2 (Z.eqb_neq _ _) Hnz).
    unfold p_available, p_room.
    cbn [p_balance p_floor p_selling p_buying p_ceiling entry_add_balance].
    destruct ((_ <? 0) || _) eqn:E; zbool.
    + destruct (Z.ltb_spec delta 0); zcase; try done; unfold_ints; lia.
    + rewrite (s64_id (tl_limit t - _)) by (unfold_ints; lia).
      destruct (Z.ltb_spec delta 0); repeat zcase; try done; unfold_ints; lia.
Qed.

Lemma addBuyingLiabilities_pos delta :
  in_s64 delta ->
  addBuyingLiabilities h d delta =
    Ok (if (delta =? 0)
           || (p_auth p && (0 <=? p_buying p + delta) && (delta <=? p_room p))
        then Some (entry_add_buying delta d) else None).
Proof using Hh Hd Hp Hok.
  intros Hdelta. unfold addBuyingLiabilities, entry_add_buying.
  rewrite getBuyingLiabilities_pos. cbn [mbind outcome_bind].
  destruct (Z.eqb_spec delta 0) as [->|Hnz]; [done|]. cbn [orb].
  open_entry; cbn [p_auth p_buying].
  - rewrite (s64_id (INT64_MAX - _)) by (unfold_ints; lia).
    rewrite Numeric.addBalance_eq by (unfold_ints; lia). cbn [mbind outcome_bind].
    rewrite (proj2 (Z.eqb_neq _ _) Hnz). unfold p_room. cbn.
    repeat (zcase; cbn [orb andb]); try done; lia.
  - unfold isAuthorized. cbn [trustLine_of mbind outcome_bind].
    destruct (negb (Z.land _ _ =? 0)) eqn:Ea; [|done]. cbn [negb andb].
    rewrite (s64_id (tl_limit t - _)) by (unfold_ints; lia).
    rewrite Numeric.addBalance_eq by (unfold_ints; lia). cbn [mbind outcome_bind].
    rewrite (proj2 (Z.eqb_neq _ _) Hnz). unfold p_room. cbn.
    repeat (zcase; cbn [orb andb]); try done; lia.
Qed.

Lemma addSellingLiabilities_pos delta :
  in_s64 delta ->
  addSellingLiabilities h d delta =
    Ok (if (delta =? 0)
           || (p_auth p && (0 <=? p_selling p + delta)
               && (p_floor p <=? p_balance p) && (delta <=? p_available p))
        then Some (entry_add_selling delta d) else None).
Proof using Hh Hd Hp Hok.
  intros Hdelta. unfold addSellingLiabilities, entry_add_selling.
  rewrite getSellingLiabilities_pos. cbn [mbind outcome_bind].
  destruct (Z.eqb_spec delta 0) as [->|Hnz]; [done|]. cbn [orb].
  open_entry; cbn [p_auth p_selling p_balance p_floor].
  - rewrite getMinBalance_eq by lia.
    rewrite (s64_id (_ - _)) by (unfold_ints; lia).
    unfold p_available. cbn [p_balance p_floor p_selling andb].
    destruct (Z.ltb_spec (acc_balance a - min_balance h (acc_numSubEntries a)) 0)
      as [Hlt|Hge].
    { rewrite (proj2 (Z.leb_gt (min_balance _ _) _)) by lia.
      by rewrite !andb_false_r. }
    rewrite Numeric.addBalance_eq by (unfold_ints; lia). cbn [mbind outcome_bind].
    rewrite (proj2 (Z.eqb_neq _ _) Hnz).
    repeat (zcase; cbn [orb andb]); try done; lia.
  - unfold isAuthorized. cbn [trustLine_of mbind outcome_bind].
    destruct (negb (Z.land _ _ =? 0)) eqn:Ea; [|done]. cbn [negb andb].
    rewrite Numeric.addBalance_eq by (unfold_ints; lia). cbn [mbind outcome_bind].
    rewrite (proj2 (Z.eqb_neq _ _) Hnz). unfold p_available. cbn.
    repeat (zcase; cbn [orb andb]); try done; lia.
Qed.

End V10.

Lemma few_subentries_balance x d :
  few_subentries d -> few_subentries (entry_add_balance x d).
Proof. by destruct d. Qed.
Lemma few_subentries_buying x d :
  few_subentries d -> few_subentries (entry_add_buying x d).
Proof. unfold entry_add_buying. by destruct (_ =? _), d. Qed.
Lemma few_subentries_selling x d :
  few_subentries d -> few_subentries (entry_add_selling x d).
Proof. unfold entry_add_selling. by destruct (_ =? _), d. Qed.
Lemma key_add_balance x d : LedgerDataKey (entry_add_balance x d) = LedgerDataKey d.
Proof. by destruct d. Qed.
Lemma key_add_buying x d : LedgerDataKey (entry_add_buying x d) = LedgerDataKey d.
Proof. unfold entry_add_buying. by destruct (_ =? _), d. Qed.
Lemma key_add_selling x d : LedgerDataKey (entry_add_selling x d) = LedgerDataKey d.
Proof. unfold entry_add_selling. by destruct (_ =? _), d. Qed.

(** On every account and trust line that keeps its promises, from
    protocol version 10 on, the functions of TransactionUtils never throw and
    are the operations of the abstract position: the available balance and
    the room are its free parts, a balance moves exactly when the amount is
    available or fits, liabilities grow exactly when they are covered, and an
    entry that changes has the changed position.  No machine arithmetic
    wraps. *)
Theorem entry_functions_refine_position h d p delta :
  header_v10 h -> few_subentries d -> position_of h d = Some p -> pos_ok p ->
  in_s64 delta ->
  getAvailableBalance h d = Ok (p_available p) /\
  getMaxAmountReceive h d = Ok (if p_auth p then p_room p else 0) /\
  (exists r, addBalance h d delta = Ok r /\
     (r ≫= position_of h) =
       if pos_moves delta p then Some (pos_add_balance delta p) else None) /\
  (exists r, addBuyingLiabilities h d delta = Ok r /\
     (r ≫= position_of h) =
       if pos_takes_buying delta p then Some (pos_add_buying delta p) else None) /\
  exists r, addSellingLiabilities h d delta = Ok r /\
     (r ≫= position_of h) =
       if pos_takes_selling delta p then Some (pos_add_selling delta p) else None.
Proof.
  intros Hh Hf Hp Hok Hd.
  split; [by apply getAvailableBalance_pos|].
  split; [by apply getMaxAmountReceive_pos|].
  split; [|split]; eexists; (split;
    [first [by apply addBalance_pos|by apply addBuyingLiabilities_pos
           |by apply addSellingLiabilities_pos]|]).
  - unfold pos_moves. destruct (_ || _); [by apply position_add_balance|done].
  - unfold pos_takes_buying. destruct (_ || _); [by apply position_add_buying|done].
  - unfold pos_takes_selling. destruct (_ || _); [by apply position_add_selling|done].
Qed.

Definition sample_position_account : LedgerEntryData :=
  ACCOUNT (mkAccount 1 1000 0 "" 2 None 0 "" (mkThresholds 1 0 0 0) []
    (Some (mkLiabilities 30 100))).
Definition sample_position_header : LedgerHeader :=
  mkHeader 10 7 0 100000 0 0 5 100 10 100.

Lemma entry_functions_refine_position_witness :
  header_v10 sample_position_header /\
  getAvailableBalance sample_position_header sample_position_account = Ok 860 /\
  getMaxAmountReceive sample_position_header sample_position_account
    = Ok (INT64_MAX - 1030).
Proof.
  assert (header_v10 sample_position_header) as Hh
    by (vm_compute; repeat split; discriminate).
  split; [exact Hh|].
  destruct (entry_functions_refine_position sample_position_header
    sample_position_account (mkPos 1000 40 INT64_MAX 30 100 true) (-860) Hh)
    as (H1 & H2 & _);
    [vm_compute; repeat split; discriminate|reflexivity
    |unfold pos_ok, p_room, p_available; cbn; unfold_ints; lia|unfold_ints; lia|].
  split; [exact H1|exact H2].
Defined.
