(* ===== verification/OfferExchange.v ===== *)
(** Crossing offers: the part of [src/src/transactions/OfferExchange.cpp] that
    works on the ledger.  [OfferMath] has the arithmetic it applies.

    A [LedgerTxnEntry] is the key of its entry, and the account handle that
    [crossOfferV10] leaves empty when no side is native is [None].

    The last part is about effects: which computations respect a relation
    between states ([keeps]).  Reading through handles and wrappers respects
    every preorder, and the exchange code creates no entry. *)

From S2P Require Import Prelude Numeric OfferMath Types OfferOrder LedgerTxnOffers LedgerState TransactionUtils.

(** The entry of a handle that may be empty: using it then throws. *)
Definition handle (e : option LedgerKey) : M LedgerKey :=
  match e with
  | Some k => mret k
  | None => throw "LedgerTxnEntry not active"
  end.

(** * Limits of an account *)
Definition canSellAtMostBasedOnSheep (sheep : Asset)
    (sheepLine : ConstTrustLineWrapper) (wheatPrice : Price) : M Z :=
  if is_native sheep then mret INT64_MAX
  else
    b ← const_line_bool sheepLine;
    sellerMaxSheep ←
      (if b : bool then const_line_getMaxAmountReceive sheepLine else mret 0);
    q ← lift (bigDivide_s64 sellerMaxSheep (pd wheatPrice) (pn wheatPrice)
                ROUND_DOWN);
    mret (default INT64_MAX q).

Definition canSellAtMost (account : option LedgerKey) (asset : Asset)
    (trustLine : TrustLineWrapper) : M Z :=
  if is_native asset then
    k ← handle account;
    avail ← read k getAvailableBalance;
    mret (Z.max avail 0)
  else
    b ← line_bool trustLine;
    auth ← (if b : bool then line_isAuthorized trustLine else mret false);
    if auth : bool then
      avail ← line_getAvailableBalance trustLine;
      mret (Z.max avail 0)
    else mret 0.

Definition canSellAtMost_const (account : option LedgerKey) (asset : Asset)
    (trustLine : ConstTrustLineWrapper) : M Z :=
  if is_native asset then
    k ← handle account;
    avail ← read k getAvailableBalance;
    mret (Z.max avail 0)
  else
    b ← const_line_bool trustLine;
    auth ← (if b : bool then const_line_isAuthorized trustLine else mret false);
    if auth : bool then
      avail ← const_line_getAvailableBalance trustLine;
      mret (Z.max avail 0)
    else mret 0.

Definition canBuyAtMost (account : option LedgerKey) (asset : Asset)
    (trustLine : TrustLineWrapper) : M Z :=
  if is_native asset then
    k ← handle account;
    r ← read k getMaxAmountReceive;
    mret (Z.max r 0)
  else
    b ← line_bool trustLine;
    if b : bool then
      r ← line_getMaxAmountReceive trustLine;
      mret (Z.max r 0)
    else mret 0.

Definition canBuyAtMost_const (account : option LedgerKey) (asset : Asset)
    (trustLine : ConstTrustLineWrapper) : M Z :=
  if is_native asset then
    k ← handle account;
    r ← read k getMaxAmountReceive;
    mret (Z.max r 0)
  else
    b ← const_line_bool trustLine;
    if b : bool then
      r ← const_line_getMaxAmountReceive trustLine;
      mret (Z.max r 0)
    else mret 0.

(** [offer.amount = ...] through the handle. *)
Definition setOfferAmount (offer : LedgerKey) (amount : Z) : M unit :=
  d ← current offer;
  oe ← lift (offer_data d);
  setCurrent offer (OFFER (set_amount amount oe)).
Definition currentOffer (offer : LedgerKey) : M OfferEntry :=
  d ← current offer; lift (offer_data d).

Definition adjustOffer (offer : LedgerKey) (account : option LedgerKey)
    (wheat : Asset) (wheatLine : TrustLineWrapper)
    (sheep : Asset) (sheepLine : TrustLineWrapper) : M unit :=
  oe ← currentOffer offer;
  canSell ← canSellAtMost account wheat wheatLine;
  let maxWheatSend := Z.min (of_amount oe) canSell in
  maxSheepReceive ← canBuyAtMost account sheep sheepLine;
  amount ← lift (OfferMath.adjustOffer (of_price oe) maxWheatSend maxSheepReceive);
  setOfferAmount offer amount.

(** * Crossing before protocol version 10 *)
Record Performed := mkPerformed {
  pf_type : ExchangeResultType;
  pf_numWheatReceived : Z;
  pf_numSheepSend : Z;
  pf_newAmount : Z }.

Definition performExchange (sellingWheatOffer : LedgerKey)
    (accountB : LedgerKey)
    (wheatLineAccountB sheepLineAccountB : ConstTrustLineWrapper)
    (maxWheatReceived maxSheepSend : Z) : M Performed :=
  header ← currentHeader;
  offer ← currentOffer sellingWheatOffer;
  let sheep := of_buying offer in
  let wheat := of_selling offer in
  let price := of_price offer in
  m1 ← canSellAtMostBasedOnSheep sheep sheepLineAccountB price;
  m2 ← canSellAtMost_const (Some accountB) wheat wheatLineAccountB;
  let numWheatReceived := Z.min (Z.min m1 m2) (of_amount offer) in
  _ ← lift (cassert "numWheatReceived >= 0" (0 <=? numWheatReceived));
  let newAmount := numWheatReceived in
  exchangeResult ← lift
    (if ledgerVersion header <? 3
     then exchangeV2 numWheatReceived price maxWheatReceived maxSheepSend
     else exchangeV3 numWheatReceived price maxWheatReceived maxSheepSend);
  let numWheatReceived := er_numWheatReceived exchangeResult in
  let numSheepSend := er_numSheepSend exchangeResult in
  match ExchangeResult_type exchangeResult with
  | REDUCED_TO_ZERO =>
      mret (mkPerformed REDUCED_TO_ZERO numWheatReceived numSheepSend newAmount)
  | BOGUS => mret (mkPerformed NORMAL 0 0 0)
  | NORMAL =>
      let offerTaken := of_amount offer <=? numWheatReceived in
      mret (mkPerformed NORMAL numWheatReceived numSheepSend
              (if offerTaken then 0 else s64 (newAmount - numWheatReceived)))
  end.

Inductive CrossOfferResult := eOfferPartial | eOfferTaken | eOfferCantConvert.

Record ClaimOfferAtom := mkClaim {
  ca_sellerID : AccountID;
  ca_offerID : Z;
  ca_assetSold : Asset;
  ca_amountSold : Z;
  ca_assetBought : Asset;
  ca_amountBought : Z }.

(** What a crossing gives back: the result, the two amounts (which the
    source returns by reference) and what it appends to the trail. *)
Record Crossed := mkCrossed {
  cr_result : CrossOfferResult;
  cr_numWheatReceived : Z;
  cr_numSheepSend : Z;
  cr_wheatStays : bool;
  cr_trail : list ClaimOfferAtom }.

(** The two blocks [LedgerTxn ltxInner(ltx); ...; ltxInner.commit()] that
    change the seller's balance of one asset: [false] is the early return. *)
Definition addBalanceInner (accountBID : AccountID) (asset : Asset) (delta : Z)
    : M bool :=
  nested
    (ok ← (if is_native asset then
             _ ← loadAccount accountBID;
             modify (KeyAccount accountBID) (fun h e => addBalance h e delta)
           else
             line ← loadTrustLine accountBID asset;
             line_addBalance line delta);
     mret (ok, ok)).

Definition crossOffer (sellingWheatOffer : LedgerKey)
    (maxWheatReceived maxSheepSend : Z) : M Crossed :=
  _ ← lift (cassert "maxWheatReceived > 0" (0 <? maxWheatReceived));
  _ ← lift (cassert "maxSheepSend > 0" (0 <? maxSheepSend));
  offer ← currentOffer sellingWheatOffer;
  let sheep := of_buying offer in
  let wheat := of_selling offer in
  let accountBID := of_seller offer in
  let offerID := of_offerID offer in
  accountB ← loadAccountWithoutRecord accountBID;
  if negb accountB
  then throw "invalid database state: offer must have matching account"
  else
  sheepLineAccountB ← loadTrustLineWithoutRecordIfNotNative accountBID sheep;
  wheatLineAccountB ← loadTrustLineWithoutRecordIfNotNative accountBID wheat;
  p ← performExchange sellingWheatOffer (KeyAccount accountBID)
        wheatLineAccountB sheepLineAccountB maxWheatReceived maxSheepSend;
  let numWheatReceived := pf_numWheatReceived p in
  let numSheepSend := pf_numSheepSend p in
  let newAmount := pf_newAmount p in
  let cantConvert :=
    mkCrossed eOfferCantConvert numWheatReceived numSheepSend true [] in
  match pf_type p with
  | REDUCED_TO_ZERO => mret cantConvert
  | _ =>
      _ ← (if newAmount =? 0 then
             _ ← eraseEntry sellingWheatOffer;
             _ ← loadAccount accountBID;
             _ ← modify (KeyAccount accountBID)
                   (fun h e => addNumEntries h e (-1));
             mret tt
           else setOfferAmount sellingWheatOffer newAmount);
      ok1 ← (if numSheepSend =? 0 then mret true
             else addBalanceInner accountBID sheep numSheepSend);
      if negb ok1 then mret cantConvert
      else
      ok2 ← (if numWheatReceived =? 0 then mret true
             else addBalanceInner accountBID wheat (s64 (- numWheatReceived)));
      if negb ok2 then mret cantConvert
      else
      mret (mkCrossed (if newAmount =? 0 then eOfferTaken else eOfferPartial)
              numWheatReceived numSheepSend true
              [mkClaim accountBID offerID wheat numWheatReceived
                 sheep numSheepSend])
  end.

(** * Crossing from protocol version 10 *)

(** [if (!addBalance(...)) throw]. *)
Definition addBalanceOrThrow (what : string) (account : option LedgerKey)
    (asset : Asset) (line : TrustLineWrapper) (delta : Z) : M unit :=
  ok ← (if is_native asset then
          k ← handle account; modify k (fun h e => addBalance h e delta)
        else line_addBalance line delta);
  if ok : bool then mret tt else throw what.

Definition crossOfferV10 (sellingWheatOffer : LedgerKey)
    (maxWheatReceived maxSheepSend : Z) (isPathPayment : bool) : M Crossed :=
  _ ← lift (cassert "maxWheatReceived > 0" (0 <? maxWheatReceived));
  _ ← lift (cassert "maxSheepSend > 0" (0 <? maxSheepSend));
  offer ← currentOffer sellingWheatOffer;
  let sheep := of_buying offer in
  let wheat := of_selling offer in
  let accountBID := of_seller offer in
  let offerID := of_offerID offer in
  exists_ ← loadAccountWithoutRecord accountBID;
  if negb exists_
  then throw "invalid database state: offer must have matching account"
  else
  _ ← releaseLiabilities sellingWheatOffer;
  accountB ←
    (if is_native wheat || is_native sheep then
       b ← loadAccount accountBID;
       mret (if b : bool then Some (KeyAccount accountBID) else None)
     else mret None);
  sheepLineAccountB ← loadTrustLineIfNotNative accountBID sheep;
  wheatLineAccountB ← loadTrustLineIfNotNative accountBID wheat;
  _ ← adjustOffer sellingWheatOffer accountB wheat wheatLineAccountB
        sheep sheepLineAccountB;
  maxWheatSend ← canSellAtMost accountB wheat wheatLineAccountB;
  offer ← currentOffer sellingWheatOffer;
  let maxWheatSend := Z.min (of_amount offer) maxWheatSend in
  maxSheepReceive ← canBuyAtMost accountB sheep sheepLineAccountB;
  exchangeResult ← lift
    (exchangeV10 (of_price offer) maxWheatSend maxWheatReceived maxSheepSend
       maxSheepReceive isPathPayment);
  let numWheatReceived := numWheatReceived exchangeResult in
  let numSheepSend := numSheepSend exchangeResult in
  let wheatStays := wheatStays exchangeResult in
  _ ← (if numSheepSend =? 0 then mret tt
       else addBalanceOrThrow "overflowed sheep balance" accountB sheep
              sheepLineAccountB numSheepSend);
  _ ← (if numWheatReceived =? 0 then mret tt
       else addBalanceOrThrow "overflowed wheat balance" accountB wheat
              wheatLineAccountB (s64 (- numWheatReceived)));
  _ ← (if wheatStays then
         offer ← currentOffer sellingWheatOffer;
         _ ← setOfferAmount sellingWheatOffer
               (s64 (of_amount offer - numWheatReceived));
         adjustOffer sellingWheatOffer accountB wheat wheatLineAccountB
           sheep sheepLineAccountB
       else setOfferAmount sellingWheatOffer 0);
  offer ← currentOffer sellingWheatOffer;
  let res := if of_amount offer =? 0 then eOfferTaken else eOfferPartial in
  _ ← nested
        (found ← loadOffer accountBID offerID;
         let sellingWheatOffer := KeyOffer accountBID offerID in
         _ ← (match res with
              | eOfferTaken =>
                  _ ← eraseEntry sellingWheatOffer;
                  _ ← loadAccount accountBID;
                  _ ← modify (KeyAccount accountBID)
                        (fun h e => addNumEntries h e (-1));
                  mret tt
              | _ => acquireLiabilities sellingWheatOffer
              end);
         mret (true, tt));
  mret (mkCrossed res numWheatReceived numSheepSend wheatStays
          [mkClaim accountBID offerID wheat numWheatReceived
             sheep numSheepSend]).

(** * Converting with as many offers as it takes *)
Inductive OfferFilterResult := eKeep | eStop.
Inductive ConvertResult := eOK | ePartial | eFilterStop.

(** A filter can throw (one of its users asserts).  Its users also note why
    they stopped; [cv_stoppedAt] is the offer they stopped at. *)
Definition OfferFilter : Type := OfferEntry -> outcome OfferFilterResult.

Record Converted := mkConverted {
  cv_result : ConvertResult;
  cv_sheepSend : Z;
  cv_wheatReceived : Z;
  cv_trail : list ClaimOfferAtom;
  cv_stoppedAt : option OfferEntry }.

(** How a round of the [while (needMore)] loop ends: [break], a [return], or
    the test of the loop with the remaining limits and the sums so far. *)
Inductive ConvertRound :=
  | RoundBreak
  | RoundStop (o : OfferEntry)
  | RoundReturn (r : ConvertResult) (cr : option Crossed)
      (* [Some]: after the sums were updated *)
      (trail : list ClaimOfferAtom)
  | RoundNext (cr : Crossed).

Definition convertRound (sheep wheat : Asset) (maxSheepSend maxWheatReceive : Z)
    (isPathPayment : bool) (filter : option OfferFilter)
    : M ConvertRound :=
  nested
    (wheatOffer ← bestOffer sheep wheat;
     match wheatOffer with
     | None => mret (false, RoundBreak)
     | Some k =>
         offer ← currentOffer k;
         stop ← lift (match filter with
                      | Some f => f offer
                      | None => Ok eKeep
                      end);
         match stop with
         | eStop => mret (false, RoundStop offer)
         | eKeep =>
         header ← currentHeader;
         cr ← (if 10 <=? ledgerVersion header
               then crossOfferV10 k maxWheatReceive maxSheepSend isPathPayment
               else crossOffer k maxWheatReceive maxSheepSend);
         let needMore :=
           if 10 <=? ledgerVersion header then negb (cr_wheatStays cr) else true in
         _ ← lift (cassert "numSheepSend >= 0" (0 <=? cr_numSheepSend cr));
         _ ← lift (cassert "numSheepSend <= maxSheepSend"
                     (cr_numSheepSend cr <=? maxSheepSend));
         _ ← lift (cassert "numWheatReceived >= 0"
                     (0 <=? cr_numWheatReceived cr));
         _ ← lift (cassert "numWheatReceived <= maxWheatReceive"
                     (cr_numWheatReceived cr <=? maxWheatReceive));
         match cr_result cr with
         | eOfferCantConvert =>
             mret (false, RoundReturn ePartial None (cr_trail cr))
         | _ =>
             let needMore := needMore
               && (0 <? s64 (maxWheatReceive - cr_numWheatReceived cr))
               && (0 <? s64 (maxSheepSend - cr_numSheepSend cr)) in
             if negb needMore
             then mret (true, RoundReturn eOK (Some cr) (cr_trail cr))
             else match cr_result cr with
                  | eOfferPartial =>
                      mret (true, RoundReturn ePartial (Some cr) (cr_trail cr))
                  | _ => mret (true, RoundNext cr)
                  end
         end
         end
     end).

(** The loop: [None] when [fuel] rounds were not enough. *)
Fixpoint convertLoop (fuel : nat) (sheep wheat : Asset)
    (maxSheepSend maxWheatReceive : Z) (isPathPayment : bool)
    (filter : option OfferFilter)
    (sheepSend wheatReceived : Z) (trail : list ClaimOfferAtom)
    : M (option Converted) :=
  match fuel with
  | O => mret None
  | S fuel =>
      r ← convertRound sheep wheat maxSheepSend maxWheatReceive isPathPayment
            filter;
      match r with
      | RoundBreak =>
          (* [needMore] still holds after the [break] *)
          header ← currentHeader;
          mret (Some (mkConverted
            (if ledgerVersion header <? 10 then eOK else ePartial)
            sheepSend wheatReceived trail None))
      | RoundStop o =>
          mret (Some (mkConverted eFilterStop sheepSend wheatReceived trail (Some o)))
      | RoundReturn r None tr =>
          mret (Some (mkConverted r sheepSend wheatReceived (trail ++ tr) None))
      | RoundReturn r (Some cr) tr =>
          mret (Some (mkConverted r (s64 (sheepSend + cr_numSheepSend cr))
                        (s64 (wheatReceived + cr_numWheatReceived cr))
                        (trail ++ tr) None))
      | RoundNext cr =>
          convertLoop fuel sheep wheat
            (s64 (maxSheepSend - cr_numSheepSend cr))
            (s64 (maxWheatReceive - cr_numWheatReceived cr))
            isPathPayment filter
            (s64 (sheepSend + cr_numSheepSend cr))
            (s64 (wheatReceived + cr_numWheatReceived cr))
            (trail ++ cr_trail cr)
      end
  end.

(** Every round that goes on has taken an offer off the book, so one round
    more than there are entries in the ledger is always enough. *)
Definition convertWithOffers (sheep : Asset) (maxSheepSend : Z) (wheat : Asset)
    (maxWheatReceive : Z) (isPathPayment : bool)
    (filter : option OfferFilter) : M Converted :=
  if (0 <? maxWheatReceive) && (0 <? maxSheepSend) then fun s =>
    match convertLoop (S (size (st_entries s))) sheep wheat maxSheepSend
            maxWheatReceive isPathPayment filter 0 0 [] s with
    | Ok (Some c, s') => Ok (c, s')
    | Ok (None, _) => Throw (RuntimeError "out of fuel")
    | Throw e => Throw e
    end
  else mret (mkConverted eOK 0 0 [] None).

(** * Effects *)

(** ** Nothing in a crossing creates an entry *)
Lemma shrinks_setOfferAmount k a : keeps shrinks (setOfferAmount k a).
Proof.
  intros s. unfold setOfferAmount. apply wlp_bind, wlp_current. intros d Hd.
  apply wlp_bind, wlp_lift. intros o _. apply wlp_setCurrent. unfold shrinks. cbn.
  rewrite dom_insert_lookup; [reflexivity|by eexists].
Qed.

(** The operations of a wrapper, one object at a time. *)
Lemma keeps_getImpl_at {A} (R : LedgerState -> LedgerState -> Prop) `{!PreOrder R} w
    (f : AbstractImpl -> M A) :
  (forall i, w = Some i -> keeps R (f (impl_of i))) -> keeps R (i ← getImpl w; f i).
Proof.
  intros Hf. unfold getImpl. destruct w as [i|]; [|done]. intros s.
  specialize (Hf i eq_refl).
  apply wlp_bind, wlp_bind. cbn [line_bool].
  assert (keeps R (impl_bool (impl_of i))) as Hb
    by (destruct i; cbn; keeps_easy).
  eapply wlp_mono; [apply Hb|]. intros [] s1 H1; [|done]. apply wlp_ret.
  eapply wlp_mono; [apply Hf|]. intros ? s2 H2. by transitivity s1.
Qed.

Lemma keeps_getImpl {A} (R : LedgerState -> LedgerState -> Prop) `{!PreOrder R} w
    (f : AbstractImpl -> M A) :
  (forall i, keeps R (f (impl_of i))) -> keeps R (i ← getImpl w; f i).
Proof. intros Hf. by apply keeps_getImpl_at. Qed.

Lemma shrinks_line_addBalance w x : keeps shrinks (line_addBalance w x).
Proof. apply keeps_getImpl; [exact _|]. intros []; cbn; keeps_easy. Qed.
Lemma shrinks_line_addBuying w x : keeps shrinks (line_addBuyingLiabilities w x).
Proof. apply keeps_getImpl; [exact _|]. intros []; cbn; keeps_easy. Qed.
Lemma shrinks_line_addSelling w x : keeps shrinks (line_addSellingLiabilities w x).
Proof. apply keeps_getImpl; [exact _|]. intros []; cbn; keeps_easy. Qed.

(** Reading a wrapper changes nothing, whatever the relation. *)
Section Reads.
Context (R : LedgerState -> LedgerState -> Prop) `{!PreOrder R}.

Lemma keeps_handle e : keeps R (handle e).
Proof using All. destruct e; cbn; keeps_easy. Qed.
Lemma keeps_line_bool w : keeps R (line_bool w).
Proof using All. destruct w as [[]|]; cbn; keeps_easy. Qed.
Lemma keeps_const_line_bool w : keeps R (const_line_bool w).
Proof using All. destruct w as [[]|]; cbn; keeps_easy. Qed.
Lemma keeps_line_isAuthorized w : keeps R (line_isAuthorized w).
Proof using All. apply keeps_getImpl; [exact _|]. intros []; cbn; keeps_easy. Qed.
Lemma keeps_line_available w : keeps R (line_getAvailableBalance w).
Proof using All. apply keeps_getImpl; [exact _|]. intros []; cbn; keeps_easy. Qed.
Lemma keeps_line_receive w : keeps R (line_getMaxAmountReceive w).
Proof using All. apply keeps_getImpl; [exact _|]. intros []; cbn; keeps_easy. Qed.
Lemma keeps_line_getBalance w : keeps R (line_getBalance w).
Proof using All. apply keeps_getImpl; [exact _|]. intros []; cbn; keeps_easy. Qed.
Lemma keeps_line_liabilities w :
  keeps R (line_getBuyingLiabilities w) /\ keeps R (line_getSellingLiabilities w).
Proof using All.
  split; (apply keeps_getImpl; [exact _|]); intros []; cbn; keeps_easy.
Qed.
Lemma keeps_getConstImpl {A} w (f : ConstAbstractImpl -> M A) :
  (forall i, keeps R (f (const_impl_of i))) -> keeps R (i ← getConstImpl w; f i).
Proof using All.
  intros Hf. unfold getConstImpl. destruct w as [i|]; [|done]. intros s.
  apply wlp_bind, wlp_bind. cbn [const_line_bool].
  assert (keeps R (const_bool (const_impl_of i))) as Hb
    by (destruct i; cbn; keeps_easy).
  eapply wlp_mono; [apply Hb|]. intros [] s1 H1; [|done]. apply wlp_ret.
  eapply wlp_mono; [apply Hf|]. intros ? s2 H2. by transitivity s1.
Qed.
Lemma keeps_const_isAuthorized w : keeps R (const_line_isAuthorized w).
Proof using All. apply keeps_getConstImpl. intros []; cbn; keeps_easy. Qed.
Lemma keeps_const_available w : keeps R (const_line_getAvailableBalance w).
Proof using All. apply keeps_getConstImpl. intros []; cbn; keeps_easy. Qed.
Lemma keeps_const_receive w : keeps R (const_line_getMaxAmountReceive w).
Proof using All. apply keeps_getConstImpl. intros []; cbn; keeps_easy. Qed.
Lemma keeps_const_getBalance w : keeps R (const_line_getBalance w).
Proof using All. apply keeps_getConstImpl. intros []; cbn; keeps_easy. Qed.
Lemma keeps_makeWrapper id asset : keeps R (makeTrustLineWrapper id asset).
Proof using All. unfold makeTrustLineWrapper. keeps_auto. Qed.
Lemma keeps_loadConst id asset : keeps R (loadTrustLineWithoutRecord id asset).
Proof using All. unfold loadTrustLineWithoutRecord. keeps_auto. Qed.
End Reads.
#[export] Hint Resolve keeps_handle keeps_line_bool keeps_const_line_bool
  keeps_line_isAuthorized keeps_line_available keeps_line_receive keeps_line_getBalance
  keeps_const_isAuthorized keeps_const_available keeps_const_receive keeps_const_getBalance
  keeps_makeWrapper keeps_loadConst shrinks_setOfferAmount
  shrinks_line_addBalance shrinks_line_addBuying shrinks_line_addSelling : keeps.

(** ** The exchange code *)
Lemma shrinks_acquireOrRelease k b : keeps shrinks (acquireOrReleaseLiabilities k b).
Proof.
  unfold acquireOrReleaseLiabilities, loadAccount, loadTrustLine. keeps_auto.
Qed.
Section Limits.
Context (R : LedgerState -> LedgerState -> Prop) `{!PreOrder R}.
Lemma keeps_sellBasedOnSheep a l p :
  keeps R (canSellAtMostBasedOnSheep a l p).
Proof using All. unfold canSellAtMostBasedOnSheep. keeps_auto. Qed.
Lemma keeps_canSellAtMost e a l : keeps R (canSellAtMost e a l).
Proof using All. unfold canSellAtMost. keeps_auto. Qed.
Lemma keeps_canSellAtMost_const e a l :
  keeps R (canSellAtMost_const e a l).
Proof using All. unfold canSellAtMost_const. keeps_auto. Qed.
Lemma keeps_canBuyAtMost e a l : keeps R (canBuyAtMost e a l).
Proof using All. unfold canBuyAtMost. keeps_auto. Qed.
Lemma keeps_canBuyAtMost_const e a l : keeps R (canBuyAtMost_const e a l).
Proof using All. unfold canBuyAtMost_const. keeps_auto. Qed.
Lemma keeps_currentOffer k : keeps R (currentOffer k).
Proof using All. unfold currentOffer. keeps_auto. Qed.
End Limits.
#[export] Hint Resolve keeps_sellBasedOnSheep keeps_canSellAtMost keeps_canSellAtMost_const
  keeps_canBuyAtMost keeps_canBuyAtMost_const keeps_currentOffer shrinks_acquireOrRelease : keeps.
Lemma keeps_performExchange R `{!PreOrder R} k a w1 w2 x y :
  keeps R (performExchange k a w1 w2 x y).
Proof. unfold performExchange. keeps_auto. Qed.
Lemma shrinks_adjustOffer k a w wl sh sl : keeps shrinks (adjustOffer k a w wl sh sl).
Proof. unfold adjustOffer. keeps_auto. Qed.
Lemma shrinks_addBalanceInner i a x : keeps shrinks (addBalanceInner i a x).
Proof. unfold addBalanceInner, loadAccount, loadTrustLine. keeps_auto. Qed.
Lemma shrinks_addBalanceOrThrow e k a l x : keeps shrinks (addBalanceOrThrow e k a l x).
Proof. unfold addBalanceOrThrow. keeps_auto. Qed.
#[export] Hint Resolve keeps_performExchange shrinks_adjustOffer shrinks_addBalanceInner
  shrinks_addBalanceOrThrow : keeps.

Lemma shrinks_crossOffer k x y : keeps shrinks (crossOffer k x y).
Proof.
  unfold crossOffer, loadAccount, loadAccountWithoutRecord,
    loadTrustLineWithoutRecordIfNotNative. keeps_auto.
Qed.
Lemma shrinks_crossOfferV10 k x y p : keeps shrinks (crossOfferV10 k x y p).
Proof.
  unfold crossOfferV10, loadAccount, loadAccountWithoutRecord, loadOffer,
    releaseLiabilities, acquireLiabilities, loadTrustLineIfNotNative. keeps_auto.
Qed.
