(* ===== verification/Sides.v ===== *)
(** The two kinds of holder of an asset, on the ledger state: the account or
    trust line entry of a [SideEntry], and the issuer, for whom every
    operation succeeds and stores nothing.  The lemmas of this file are the
    interface through which the exchange code is verified: what each
    operation on a handle or a wrapper does to the side it belongs to, and
    what it leaves alone. *)

From S2P Require Import Prelude Numeric OfferMath Types LedgerState.
From S2P Require Import TransactionUtils Positions OfferExchange.

Inductive Side := SideIssuer | SideEntry (k : LedgerKey).

Definition side_of (id : AccountID) (asset : Asset) : Side :=
  match asset with
  | ASSET_NATIVE => SideEntry (KeyAccount id)
  | ALPHANUM4 _ i | ALPHANUM12 _ i =>
      if i =? id then SideIssuer else SideEntry (KeyTrustLine id asset)
  end.

Definition wrapper_of (sd : Side) : TrustLineWrapper :=
  Some (match sd with
        | SideIssuer => Issuer
        | SideEntry k => NonIssuer k
        end).

(** The entry [d] at [k] holds position [p], keeps its promises and may move. *)
Definition entry_at (s : LedgerState) (k : LedgerKey) (d : LedgerEntryData)
    (p : Position) : Prop :=
  st_entries s !! k = Some d /\ LedgerDataKey d = k /\ few_subentries d /\
  position_of (st_header s) d = Some p /\ pos_ok p /\ p_auth p = true.

(** The side's position: [None] for the issuer's unbounded one. *)
Definition side_is (s : LedgerState) (sd : Side) (op : option Position) : Prop :=
  match sd, op with
  | SideIssuer, None => True
  | SideEntry k, Some p => exists d, entry_at s k d p
  | _, _ => False
  end.

Definition available (op : option Position) : Z := from_option p_available INT64_MAX op.
Definition room (op : option Position) : Z := from_option p_room INT64_MAX op.

Definition side_change (f : LedgerEntryData -> LedgerEntryData) (sd : Side)
    (s : LedgerState) : LedgerState :=
  match sd with
  | SideIssuer => s
  | SideEntry k => set_entries (alter f k (st_entries s)) s
  end.

Definition put (k : LedgerKey) (d : LedgerEntryData) (s : LedgerState)
    : LedgerState := set_entries (<[k := d]> (st_entries s)) s.

(** Sides that do not share an entry. *)
Definition apart (sd : Side) (k : LedgerKey) : Prop :=
  match sd with SideIssuer => True | SideEntry k' => k' <> k end.
Definition sides_apart (sd sd' : Side) : Prop :=
  match sd' with SideIssuer => True | SideEntry k => apart sd k end.

(** The handle and wrapper the exchange code holds for an asset. *)
Definition handles (id : AccountID) (asset : Asset)
    (account : option LedgerKey) (line : TrustLineWrapper) : Prop :=
  if is_native asset then account = Some (KeyAccount id)
  else line = wrapper_of (side_of id asset).

(** * Lemmas *)

Lemma side_of_apart id a b : a <> b -> sides_apart (side_of id a) (side_of id b).
Proof.
  unfold sides_apart, apart, side_of. intros Hab.
  destruct a, b; repeat case_match; simplify_eq; try done; intros ?; simplify_eq.
Qed.
Lemma side_of_not_offer id a id' o : apart (side_of id a) (KeyOffer id' o).
Proof. unfold side_of. destruct a; cbn; repeat case_match; by try intros ?. Qed.

Lemma st_header_change f sd s : st_header (side_change f sd s) = st_header s.
Proof. by destruct sd. Qed.

Lemma lookup_change f sd s k :
  apart sd k -> st_entries (side_change f sd s) !! k = st_entries s !! k.
Proof. destruct sd; cbn; [done|]. intros. by rewrite lookup_alter_ne. Qed.

Lemma is_Some_change f sd s k :
  is_Some (st_entries s !! k) -> is_Some (st_entries (side_change f sd s) !! k).
Proof.
  destruct sd as [|k']; cbn; [done|]. intros [d Hd].
  destruct (decide (k' = k)) as [->|].
  - rewrite lookup_alter_eq, Hd. by eexists.
  - rewrite lookup_alter_ne, Hd by done. by eexists.
Qed.

Lemma side_is_change_apart f sd sd' s op :
  sides_apart sd sd' -> side_is s sd' op -> side_is (side_change f sd s) sd' op.
Proof.
  intros Ha. destruct sd' as [|k]; [done|]. unfold side_is.
  destruct op as [p|]; [|done]. cbn in Ha. unfold entry_at.
  by setoid_rewrite lookup_change; [|done]; rewrite st_header_change.
Qed.

Lemma side_is_put k d sd s op :
  apart sd k -> side_is s sd op -> side_is (put k d s) sd op.
Proof.
  destruct sd as [|k']; [done|]. unfold side_is, entry_at.
  destruct op as [p|]; [|done]. cbn. intros ? (d' & Hd' & ?). exists d'.
  by rewrite lookup_insert_ne by done.
Qed.

(** [f] changes an entry the way [g] changes its position, within its limits,
    and does not touch the number of subentries. *)
Definition acts (h : LedgerHeader) (f : LedgerEntryData -> LedgerEntryData)
    (g : Position -> Position) (op : option Position) : Prop :=
  (forall d p, op = Some p -> few_subentries d -> position_of h d = Some p ->
     LedgerDataKey (f d) = LedgerDataKey d /\ few_subentries (f d) /\
     position_of h (f d) = Some (g p) /\ pos_ok (g p) /\ p_auth (g p) = p_auth p) /\
  forall a, exists a',
    f (ACCOUNT a) = ACCOUNT a' /\ acc_numSubEntries a' = acc_numSubEntries a.

Lemma side_is_change s sd op f g :
  side_is s sd op -> acts (st_header s) f g op ->
  side_is (side_change f sd s) sd (g <$> op).
Proof.
  intros Hs [Hf _]. destruct sd as [|k], op as [p|]; try done. cbn in *.
  destruct Hs as (d & Hd & Hk & Hfew & Hpos & Hok & Hauth).
  destruct (Hf d p) as (? & ? & ? & ? & ?); [done..|].
  exists (f d). unfold entry_at. cbn. rewrite lookup_alter_eq, Hd.
  split; [done|]. split; [congruence|]. repeat (split; [done|]). congruence.
Qed.

Section Acts.
Context (h : LedgerHeader) (op : option Position) (x : Z).

Lemma acts_add_balance :
  from_option (fun p => pos_ok (pos_add_balance x p)) True op ->
  acts h (entry_add_balance x) (pos_add_balance x) op.
Proof using.
  intros Hok. split; [|intros a; by eexists].
  intros d p -> Hfew Hpos. split; [by apply key_add_balance|].
  split; [by apply few_subentries_balance|].
  split; [by apply position_add_balance|]. done.
Qed.
Lemma acts_add_buying :
  from_option (fun p => pos_ok (pos_add_buying x p)) True op ->
  acts h (entry_add_buying x) (pos_add_buying x) op.
Proof using.
  intros Hok. split; [|intros a; unfold entry_add_buying; case_match; by eexists].
  intros d p -> Hfew Hpos. split; [by apply key_add_buying|].
  split; [by apply few_subentries_buying|].
  split; [by apply position_add_buying|]. done.
Qed.
Lemma acts_add_selling :
  from_option (fun p => pos_ok (pos_add_selling x p)) True op ->
  acts h (entry_add_selling x) (pos_add_selling x) op.
Proof using.
  intros Hok. split; [|intros a; unfold entry_add_selling; case_match; by eexists].
  intros d p -> Hfew Hpos. split; [by apply key_add_selling|].
  split; [by apply few_subentries_selling|].
  split; [by apply position_add_selling|]. done.
Qed.
End Acts.

(** ** The operations of handles and wrappers *)

Lemma set_entries_id s : set_entries (st_entries s) s = s.
Proof. by destruct s. Qed.

Lemma getImpl_wrapper sd s op i :
  side_is s sd op -> wrapper_of sd = Some i -> getImpl (wrapper_of sd) s = Ok (impl_of i, s).
Proof.
  intros Hs [= <-]. destruct sd as [|k]; [done|]. destruct op as [p|]; [|done].
  destruct Hs as (d & Hd & _). cbn. unfold mbind, M_bind, exists_entry.
  by rewrite Hd.
Qed.

Lemma wp_getImpl {A} sd s op (f : AbstractImpl -> M A) Q :
  side_is s sd op ->
  (forall i, wrapper_of sd = Some i -> wp (f (impl_of i)) Q s) ->
  wp (i ← getImpl (wrapper_of sd); f i) Q s.
Proof.
  intros Hs Hf. apply wp_bind. unfold wp at 1.
  rewrite (getImpl_wrapper sd s op _ Hs eq_refl). by apply Hf.
Qed.

Lemma wp_line_bool sd s op Q :
  side_is s sd op -> Q true s -> wp (line_bool (wrapper_of sd)) Q s.
Proof.
  intros Hs HQ. destruct sd as [|k]; [done|]. destruct op as [p|]; [|done].
  destruct Hs as (d & Hd & _). cbn. unfold wp, exists_entry. by rewrite Hd.
Qed.

Lemma wp_loadTrustLine id asset s op Q :
  is_native asset = false -> side_is s (side_of id asset) op ->
  Q (wrapper_of (side_of id asset)) s -> wp (loadTrustLine id asset) Q s.
Proof.
  intros Hn Hs HQ. unfold loadTrustLine, makeTrustLineWrapper. rewrite Hn.
  destruct asset as [|c i|c i]; [done| |]; cbn [side_of] in *;
    apply wp_bind; (eapply wp_lift; [done|]);
    destruct (i =? id); cbn [negb]; try done;
    (destruct op as [p|]; [|done]); destruct Hs as (d & Hd & _);
    apply wp_bind; unfold wp at 1, exists_entry; rewrite Hd; done.
Qed.

Lemma side_native id asset account line :
  handles id asset account line -> is_native asset = true ->
  account = Some (KeyAccount id) /\ side_of id asset = SideEntry (KeyAccount id).
Proof. unfold handles. by destruct asset. Qed.
Lemma side_line id asset account line :
  handles id asset account line -> is_native asset = false ->
  line = wrapper_of (side_of id asset).
Proof. unfold handles. by destruct (is_native asset). Qed.

Section Ops.
Context (s : LedgerState) (Hh : header_v10 (st_header s)).
Context (id : AccountID) (asset : Asset).
Context (account : option LedgerKey) (line : TrustLineWrapper).
Context (Hw : handles id asset account line).
Context (op : option Position) (Hs : side_is s (side_of id asset) op).

(** What the handle and the wrapper stand for: the entry [k] in both, or the
    issuer behind the wrapper. *)
Lemma side_cases :
  (exists k d p, op = Some p /\ side_of id asset = SideEntry k /\
     entry_at s k d p /\
     (is_native asset = true /\ account = Some k \/
      is_native asset = false /\ line = Some (NonIssuer k) /\
      isAuthorized d = Ok true)) \/
  (op = None /\ side_of id asset = SideIssuer /\ is_native asset = false /\
   line = Some Issuer).
Proof using Hw Hs.
  destruct (is_native asset) eqn:En.
  - destruct (side_native _ _ _ _ Hw En) as [Ha E]. rewrite E in Hs.
    destruct op as [p|]; [|done]. destruct Hs as (d & ?).
    left. exists (KeyAccount id), d, p. auto 10.
  - pose proof (side_line _ _ _ _ Hw En) as El.
    destruct (side_of id asset) as [|k] eqn:E, op as [p|]; try done; [by right; auto|].
    destruct Hs as (d & Hd). left. exists k, d, p. repeat (split; [done|]).
    right. repeat (split; [done|]). destruct Hd as (_ & Hk & _ & Hp & _ & Ha).
    assert (exists i a, k = KeyTrustLine i a) as (? & ? & ->).
    { unfold side_of in E. destruct asset; [done|..]; case_match; simplify_eq; eauto. }
    destruct d; try discriminate Hk. injection Hp as <-. cbn in *.
    by rewrite Ha.
Qed.

Local Ltac side_run :=
  destruct side_cases as
    [(k & d & p & Ho & E & (Hd & Hk & Hf & Hp & Hok & Ha)
        & [[En ->]|(En & -> & Hauth)])
    |(Ho & E & En & ->)]; subst op; rewrite ?En; cbn;
  repeat progress
    (unfold read, modify, mbind, M_bind, getImpl, line_bool, exists_entry, current,
       lift; cbn;
     rewrite ?bool_decide_eq_true_2 by (rewrite ?Hd; by eexists);
     rewrite ?Hd, ?Hauth; cbn).

Lemma wp_canSellAtMost Q :
  Q (Z.max (available op) 0) s -> wp (canSellAtMost account asset line) Q s.
Proof using Hh Hw Hs.
  intros HQ. unfold wp, canSellAtMost, line_isAuthorized, line_getAvailableBalance.
  side_run; by rewrite ?(getAvailableBalance_pos _ Hh d p Hp).
Qed.

Lemma wp_canBuyAtMost Q :
  Q (Z.max (room op) 0) s -> wp (canBuyAtMost account asset line) Q s.
Proof using Hh Hw Hs.
  intros HQ. unfold wp, canBuyAtMost, line_getMaxAmountReceive.
  side_run; rewrite ?(getMaxAmountReceive_pos _ Hh d p Hp), ?Ha; done.
Qed.

(** [side_change] is the assignment through the handle. *)
Lemma setCurrent_change k d f :
  st_entries s !! k = Some d ->
  set_entries (<[k := f d]> (st_entries s)) s = side_change f (SideEntry k) s.
Proof using.
  intros Hd. cbn. f_equal. apply map_eq. intros j.
  destruct (decide (k = j)) as [<-|];
    [by rewrite lookup_insert_eq, lookup_alter_eq, Hd
    |by rewrite lookup_insert_ne, lookup_alter_ne].
Qed.

(** [addBalance] through a handle or a wrapper. *)
Lemma wp_addBalance delta Q :
  in_s64 delta ->
  (if delta <? 0 then - delta <= available op else delta <= room op) ->
  Q true (side_change (entry_add_balance delta) (side_of id asset) s) ->
  wp (if is_native asset
      then k ← handle account; modify k (fun h e => addBalance h e delta)
      else line_addBalance line delta) Q s.
Proof using Hh Hw Hs.
  intros Hdelta Hfit HQ. unfold wp, line_addBalance.
  side_run; rewrite ?(addBalance_pos _ Hh d p Hp Hf Hok delta Hdelta), ?Ha; cbn [andb].
  1,2: rewrite (proj2 (orb_true_iff _ _))
    by (right; destruct (delta <? 0); apply Z.leb_le; apply Hfit);
    rewrite E, <- (setCurrent_change k d) in HQ by done; exact HQ.
  by rewrite E in HQ.
Qed.

Lemma wp_addBalanceOrThrow what delta Q :
  in_s64 delta ->
  (if delta <? 0 then - delta <= available op else delta <= room op) ->
  Q tt (side_change (entry_add_balance delta) (side_of id asset) s) ->
  wp (addBalanceOrThrow what account asset line delta) Q s.
Proof using Hh Hw Hs.
  intros. unfold addBalanceOrThrow. apply wp_bind. by apply wp_addBalance.
Qed.

Lemma wp_addBuyingLiabilities delta Q :
  in_s64 delta ->
  from_option (fun p => 0 <= p_buying p + delta) True op -> delta <= room op ->
  Q true (side_change (entry_add_buying delta) (side_of id asset) s) ->
  wp (if is_native asset
      then k ← handle account; modify k (fun h e => addBuyingLiabilities h e delta)
      else line_addBuyingLiabilities line delta) Q s.
Proof using Hh Hw Hs.
  intros Hdelta Hpos Hfit HQ. unfold wp, line_addBuyingLiabilities.
  side_run; rewrite ?(addBuyingLiabilities_pos _ Hh d p Hp Hf Hok delta Hdelta), ?Ha;
    cbn [andb].
  1,2: rewrite (proj2 (orb_true_iff _ _))
    by (right; rewrite !andb_true_iff, !Z.leb_le; cbn in Hpos, Hfit; auto);
    rewrite E, <- (setCurrent_change k d) in HQ by done; exact HQ.
  by rewrite E in HQ.
Qed.

Lemma wp_addSellingLiabilities delta Q :
  in_s64 delta ->
  from_option (fun p => 0 <= p_selling p + delta /\
                 (delta = 0 \/ p_floor p <= p_balance p)) True op ->
  delta <= available op \/ delta = 0 ->
  Q true (side_change (entry_add_selling delta) (side_of id asset) s) ->
  wp (if is_native asset
      then k ← handle account; modify k (fun h e => addSellingLiabilities h e delta)
      else line_addSellingLiabilities line delta) Q s.
Proof using Hh Hw Hs.
  intros Hdelta Hpos Hfit HQ. unfold wp, line_addSellingLiabilities.
  side_run; rewrite ?(addSellingLiabilities_pos _ Hh d p Hp Hf Hok delta Hdelta), ?Ha;
    cbn [andb].
  1,2: cbn in Hpos, Hfit; replace ((delta =? 0) || _) with true
    by (symmetry; rewrite orb_true_iff, !andb_true_iff, !Z.leb_le, Z.eqb_eq; lia);
    rewrite E, <- (setCurrent_change k d) in HQ by done; exact HQ.
  by rewrite E in HQ.
Qed.
End Ops.

(** The shape of both halves of [acquireOrReleaseLiabilities]: load the
    seller's account or trust line, apply, and throw on failure. *)
Lemma wp_loadAndApply id asset s op (onAccount : LedgerKey -> M bool)
    (onLine : TrustLineWrapper -> M bool) e1 e2 e3 Q :
  side_is s (side_of id asset) op ->
  wp (if is_native asset then k ← handle (Some (KeyAccount id)); onAccount k
      else onLine (wrapper_of (side_of id asset)))
     (fun b s' => b = true /\ Q tt s') s ->
  wp (if is_native asset
      then account ← (a ← loadAccount id;
                      if a : bool then mret (KeyAccount id) else throw e1);
           b ← onAccount account; if b : bool then mret tt else throw e2
      else trust ← (trust ← loadTrustLine id asset;
                    b ← line_bool trust;
                    if b : bool then mret trust else throw e3);
           b ← onLine trust; if b : bool then mret tt else throw e2) Q s.
Proof.
  intros Hs HQ. destruct (is_native asset) eqn:En.
  - destruct asset; try discriminate. cbn in Hs. destruct op as [p|]; [|done].
    destruct Hs as (d & Hd & _). apply wp_bind, wp_bind, wp_exists_entry;
      [by eexists|]. apply wp_ret, wp_bind.
    eapply wp_mono; [exact HQ|]. by intros ? ? [-> ?].
  - apply wp_bind, wp_bind. eapply wp_loadTrustLine; [done..|].
    apply wp_bind. eapply wp_line_bool; [done|]. apply wp_ret, wp_bind.
    eapply wp_mono; [exact HQ|]. by intros ? ? [-> ?].
Qed.

Lemma handles_loaded id asset :
  handles id asset (Some (KeyAccount id)) (wrapper_of (side_of id asset)).
Proof. unfold handles. by destruct (is_native asset). Qed.
