(* ===== verification/Crossing.v ===== *)
(** Correctness of [crossOfferV10]: from a state that keeps its promises,
    crossing an offer never throws, moves the two amounts it reports and
    nothing else, and leaves a state that keeps its promises. *)

From S2P Require Import Prelude Numeric OfferMath Types LedgerTxnOffers LedgerState.
From S2P Require Import TransactionUtils Positions OfferExchange Sides.

(** ** The liabilities of an offer *)

(** An offer that is taken entirely sends and receives these amounts; they
    are its selling and buying liabilities. *)
Definition offer_amounts (p : Price) (amt : Z) : Z * Z :=
  exact_amounts p (Z.min (amt * pn p) (INT64_MAX * pd p)) false false.

Lemma offer_liabilities_eq h o :
  header_v10 h -> valid_price (of_price o) -> amount (of_amount o) ->
  getOfferSellingLiabilities h (OFFER o) = Ok (offer_amounts (of_price o) (of_amount o)).1 /\
  getOfferBuyingLiabilities h (OFFER o) = Ok (offer_amounts (of_price o) (of_amount o)).2.
Proof.
  intros Hh Hp Ha.
  unfold getOfferSellingLiabilities, getOfferBuyingLiabilities.
  rewrite (not_lt10 _ Hh). cbn [offer_data mbind outcome_bind].
  assert (amount INT64_MAX) as Hmax by (unfold_ints; lia).
  rewrite exchangeV10_before_eq by auto. cbn [mbind outcome_bind].
  pose proof (sheep_stays_against_unlimited (of_price o) (of_amount o) INT64_MAX
                Hp Ha Hmax) as Hle.
  rewrite (proj2 (Z.ltb_ge _ _)), Z.min_l by lia. done.
Qed.

Lemma offer_amounts_bounds p amt :
  valid_price p -> amount amt ->
  0 <= (offer_amounts p amt).1 <= amt /\ amount (offer_amounts p amt).2.
Proof.
  intros Hp Ha. unfold offer_amounts. destruct (exact_amounts _ _ _ _) as [w r] eqn:E.
  apply exact_amounts_bounds in E as (? & ? & Bw & Br);
    [|done|destruct Hp; unfold_ints; nia].
  pose proof (Bw amt ltac:(lia)). pose proof (Br INT64_MAX ltac:(lia)).
  cbn. unfold_ints. lia.
Qed.

(** The liabilities of an adjusted offer are its whole amount and at most
    what its seller can receive. *)
Lemma offer_amounts_adjusted p w r :
  valid_price p -> amount w -> amount r -> adjusted p w r <> 0 ->
  (offer_amounts p (adjusted p w r)).1 = adjusted p w r /\
  0 <= (offer_amounts p (adjusted p w r)).2 <= r.
Proof.
  intros Hp Hw Hr. unfold adjusted.
  destruct (exact_amounts p (Z.min (w * pn p) (r * pd p)) false false)
    as [m ss] eqn:E. cbn [fst snd].
  destruct (_ && _ && _) eqn:G; [|done]. intros _. zbool.
  assert (m <= w /\ ss <= r) as [Bw Br].
  { apply exact_amounts_bounds in E as (? & ? & Bw & Br);
      [|done|destruct Hp; unfold_ints; nia].
    split; [apply Bw|apply Br]; lia. }
  apply (exact_amounts_stable p w r) in E; auto.
  enough (offer_amounts p m = (m, ss)) as -> by (cbn; lia).
  unfold offer_amounts. destruct Hp as [Hn Hd].
  assert (r * pd p <= INT64_MAX * pd p) by (unfold_ints; nia).
  revert E. unfold exact_amounts, exact_div. cbn [andb].
  destruct (Z.ltb_spec (pd p) (pn p)); cbn [orb]; intros [= Em Es].
  - assert (Z.min (m * pn p) (r * pd p) = m * pn p) as Ev.
    { pose proof (floor_spec (Z.min (m * pn p) (r * pd p)) (pn p)). nia. }
    rewrite Ev in *. rewrite Z.min_l by lia. by rewrite <- Es, !Em.
  - rewrite Es in Em.
    assert (Z.min (m * pn p) (INT64_MAX * pd p) / pd p = ss) as ->.
    { pose proof (floor_spec (Z.min (m * pn p) (r * pd p)) (pd p) ltac:(lia)) as F.
      rewrite Es in F.
      pose proof (ceil_spec (ss * pd p) (pn p) ltac:(lia)) as C. rewrite Em in C.
      apply floor_unique; [lia|]. split; [lia|].
      assert (m * pn p < (ss + 1) * pd p) by nia. lia. }
    by rewrite Em.
Qed.

(** ** One crossing *)

Definition offer_ok (o : OfferEntry) : Prop :=
  valid_price (of_price o) /\ amount (of_amount o).

Lemma side_limits s sd op :
  side_is s sd op -> available op <= INT64_MAX /\ amount (room op).
Proof.
  destruct sd as [|k], op as [p|]; try done; cbn.
  intros (d & _ & _ & _ & _ & Hok & _). revert Hok.
  unfold pos_ok, p_available, p_room. unfold_ints. lia.
Qed.

Section Crossing.
Context (seller offerID : Z) (sheep wheat : Asset) (Hne : sheep <> wheat).
Context (s0 : LedgerState) (Hh : header_v10 (st_header s0)).
Local Abbreviation k := (KeyOffer seller offerID).
Local Abbreviation sdS := (side_of seller sheep).
Local Abbreviation sdW := (side_of seller wheat).

(** A state in the middle of a crossing: the offer, the two positions of its
    seller, the seller's number of subentries; nothing else has moved. *)
Record crossing (o : option OfferEntry) (pS pW : option Position) (n : Z)
    (s : LedgerState) : Prop := {
  cx_header : st_header s = st_header s0;
  cx_offer : st_entries s !! k = OFFER <$> o;
  cx_sheep : side_is s sdS pS;
  cx_wheat : side_is s sdW pW;
  cx_account : exists a, st_entries s !! KeyAccount seller = Some (ACCOUNT a) /\
    acc_numSubEntries a = n;
  cx_frame : forall j, j <> k -> j <> KeyAccount seller ->
    apart sdS j -> apart sdW j -> st_entries s !! j = st_entries s0 !! j }.

Definition of_pair (o : OfferEntry) : Prop :=
  of_seller o = seller /\ of_offerID o = offerID /\ of_buying o = sheep /\
  of_selling o = wheat.

Lemma account_change f sd s n :
  (forall a, exists a',
    f (ACCOUNT a) = ACCOUNT a' /\ acc_numSubEntries a' = acc_numSubEntries a) ->
  (exists a, st_entries s !! KeyAccount seller = Some (ACCOUNT a) /\
    acc_numSubEntries a = n) ->
  exists a, st_entries (side_change f sd s) !! KeyAccount seller = Some (ACCOUNT a) /\
    acc_numSubEntries a = n.
Proof using.
  intros Hf (a & Ha & Hn). destruct sd as [|j]; [by exists a|]. cbn.
  destruct (decide (j = KeyAccount seller)) as [->|].
  - rewrite lookup_alter_eq, Ha. destruct (Hf a) as (a' & E & ?).
    exists a'. cbn. rewrite E. split; [done|congruence].
  - rewrite lookup_alter_ne by done. by exists a.
Qed.

Lemma crossing_change_sheep f g o pS pW n s :
  crossing o pS pW n s -> acts (st_header s0) f g pS ->
  crossing o (g <$> pS) pW n (side_change f sdS s).
Proof using Hne.
  intros [Hhd Ho HS HW Ha Hfr] Hact. pose proof Hact as [_ Hnum]. split.
  - by rewrite st_header_change.
  - by rewrite lookup_change by apply side_of_not_offer.
  - apply side_is_change; [done|]. by rewrite Hhd.
  - apply side_is_change_apart; [by apply side_of_apart|done].
  - by apply account_change.
  - intros j ? ? ? ?. rewrite lookup_change by done. by apply Hfr.
Qed.

Lemma crossing_change_wheat f g o pS pW n s :
  crossing o pS pW n s -> acts (st_header s0) f g pW ->
  crossing o pS (g <$> pW) n (side_change f sdW s).
Proof using Hne.
  intros [Hhd Ho HS HW Ha Hfr] Hact. pose proof Hact as [_ Hnum]. split.
  - by rewrite st_header_change.
  - by rewrite lookup_change by apply side_of_not_offer.
  - apply side_is_change_apart; [by apply side_of_apart|done].
  - apply side_is_change; [done|]. by rewrite Hhd.
  - by apply account_change.
  - intros j ? ? ? ?. rewrite lookup_change by done. by apply Hfr.
Qed.

Lemma crossing_put o o' pS pW n s :
  crossing o pS pW n s -> crossing (Some o') pS pW n (put k (OFFER o') s).
Proof using.
  intros [Hhd Ho HS HW Ha Hfr]. split; [done| | | | |].
  - cbn. by rewrite lookup_insert_eq.
  - apply side_is_put; [apply side_of_not_offer|done].
  - apply side_is_put; [apply side_of_not_offer|done].
  - cbn. by rewrite lookup_insert_ne.
  - intros j ? ? ? ?. cbn. rewrite lookup_insert_ne by done. by apply Hfr.
Qed.

Lemma wp_currentOffer o pS pW n s Q :
  crossing (Some o) pS pW n s -> Q o s -> wp (currentOffer k) Q s.
Proof using.
  intros [_ Ho _ _ _ _] HQ. unfold wp, currentOffer, mbind, M_bind, current.
  by rewrite Ho.
Qed.

Lemma wp_setOfferAmount a o pS pW n s Q :
  crossing (Some o) pS pW n s -> Q tt (put k (OFFER (set_amount a o)) s) ->
  wp (setOfferAmount k a) Q s.
Proof using.
  intros [_ Ho _ _ _ _] HQ. unfold wp, setOfferAmount, mbind, M_bind, current.
  by rewrite Ho.
Qed.

Section Handles.
Context (account : option LedgerKey) (wheatLine sheepLine : TrustLineWrapper).
Context (HwW : handles seller wheat account wheatLine).
Context (HwS : handles seller sheep account sheepLine).

Definition adjusted_amount (o : OfferEntry) (pS pW : option Position) : Z :=
  adjusted (of_price o) (Z.min (of_amount o) (Z.max (available pW) 0))
    (Z.max (room pS) 0).

Lemma wp_adjustOffer o pS pW n s Q :
  crossing (Some o) pS pW n s -> offer_ok o ->
  Q tt (put k (OFFER (set_amount (adjusted_amount o pS pW) o)) s) ->
  wp (adjustOffer k account wheat wheatLine sheep sheepLine) Q s.
Proof using Hh HwW HwS.
  intros Hx [Hp Ha] HQ. pose proof Hx as [Hhd Ho HS HW _ _].
  rewrite <- Hhd in Hh.
  destruct (side_limits _ _ _ HS), (side_limits _ _ _ HW).
  apply wp_bind. eapply wp_currentOffer; [exact Hx|].
  apply wp_bind. eapply wp_canSellAtMost; [done..|].
  apply wp_bind. eapply wp_canBuyAtMost; [done..|].
  apply wp_bind. eapply wp_lift; [apply adjustOffer_eq; auto; unfold_ints; lia|].
  eapply wp_setOfferAmount; [exact Hx|done].
Qed.
End Handles.

Definition liability_sign (isAcquire : bool) (x : Z) : Z := if isAcquire then x else - x.

(** [acquireOrReleaseLiabilities] on an offer of this pair. *)
Lemma wp_acquireOrRelease isAcquire o pS pW n s Q :
  crossing (Some o) pS pW n s -> offer_ok o -> of_pair o ->
  let ob := liability_sign isAcquire (offer_amounts (of_price o) (of_amount o)).2 in
  let os := liability_sign isAcquire (offer_amounts (of_price o) (of_amount o)).1 in
  from_option (fun p => 0 <= p_buying p + ob) True pS -> ob <= room pS ->
  from_option (fun p => 0 <= p_selling p + os /\
                 (os = 0 \/ p_floor p <= p_balance p)) True pW ->
  os <= available pW \/ os = 0 ->
  Q tt (side_change (entry_add_selling os) sdW
          (side_change (entry_add_buying ob) sdS s)) ->
  wp (acquireOrReleaseLiabilities k isAcquire) Q s.
Proof using Hh Hne.
  intros Hx [Hp Ha] (Hsel & Hid & Hbuy & Hsell) ob os Hb1 Hb2 Hs1 Hs2 HQ.
  pose proof Hx as [Hhd Ho HS HW Hacc _]. rewrite <- Hhd in Hh.
  destruct (offer_liabilities_eq (st_header s) o Hh Hp Ha) as [Eos Eob].
  destruct (offer_amounts_bounds _ _ Hp Ha) as [Bos Bob].
  assert (in_s64 ob /\ in_s64 os) as [Iob Ios]
    by (subst ob os; unfold liability_sign; destruct isAcquire; unfold_ints; lia).
  unfold acquireOrReleaseLiabilities. apply wp_bind, wp_currentHeader.
  apply wp_bind. eapply wp_current; [done|].
  apply wp_bind. eapply wp_lift; [done|].
  rewrite Hsel, Hbuy, Hsell, bool_decide_eq_false_2 by done.
  apply wp_bind. eapply wp_lift; [done|]. apply wp_bind.
  replace (if isAcquire then _ else s64 (- (offer_amounts _ _).2)) with ob
    by (subst ob; unfold liability_sign; destruct isAcquire; [done|];
        rewrite s64_id by (unfold_ints; lia); done).
  eapply wp_loadAndApply; [done|].
  eapply wp_addBuyingLiabilities; [done|apply handles_loaded|done..|].
  split; [done|]. apply wp_bind.
  eapply wp_lift; [done|]. cbn beta.
  replace (if isAcquire then _ else s64 (- (offer_amounts _ _).1)) with os
    by (subst os; unfold liability_sign; destruct isAcquire; [done|];
        rewrite s64_id by (unfold_ints; lia); done).
  assert (side_is (side_change (entry_add_buying ob) sdS s) sdW pW) as HW'
    by (apply side_is_change_apart; [by apply side_of_apart|done]).
  eapply wp_loadAndApply; [done|].
  eapply wp_addSellingLiabilities;
    [by rewrite st_header_change|apply handles_loaded|done..].
Qed.

(** Taking the offer off the book. *)
Definition moved (x b l : Z) (op op' : option Position) : Prop :=
  match op, op' with
  | Some p, Some p' =>
      p_balance p' = p_balance p + x /\ p_buying p' = p_buying p + b /\
      p_selling p' = p_selling p + l /\ p_ceiling p' = p_ceiling p /\
      p_floor p' <= p_floor p
  | None, None => True
  | _, _ => False
  end.

Lemma addNumEntries_remove h a :
  header_v10 h -> 1 <= acc_numSubEntries a <= 1073741824 ->
  addNumEntries h (ACCOUNT a) (-1) =
    Ok (Some (ACCOUNT (set_numSubEntries (acc_numSubEntries a - 1) a))).
Proof using.
  intros Hv Hn. unfold addNumEntries. cbn [account_of mbind outcome_bind].
  rewrite (u32_id (_ + -1)) by (unfold_ints; lia).
  assert (s32 (acc_numSubEntries a + -1) = acc_numSubEntries a - 1) as ->
    by (unfold s32; rewrite Z.mod_small; lia).
  rewrite (proj2 (Z.ltb_ge _ _)), (u32_id (_ - 1)) by (unfold_ints; lia).
  unfold getSellingLiabilities. rewrite (ge10 _ Hv), (not_lt10 _ Hv). done.
Qed.

Lemma side_is_numSub sd op s a :
  header_v10 (st_header s) ->
  st_entries s !! KeyAccount seller = Some (ACCOUNT a) ->
  1 <= acc_numSubEntries a <= 1073741824 ->
  side_is s sd op ->
  exists op', moved 0 0 0 op op' /\
    side_is (put (KeyAccount seller)
               (ACCOUNT (set_numSubEntries (acc_numSubEntries a - 1) a)) s) sd op'.
Proof using.
  intros [_ Hr] Ha Hn Hs.
  assert (min_balance (st_header s) (acc_numSubEntries a - 1) =
          min_balance (st_header s) (acc_numSubEntries a) - baseReserve (st_header s)) as Em
    by (unfold min_balance; ring).
  assert (0 <= min_balance (st_header s) (acc_numSubEntries a - 1))
    by (unfold min_balance; nia).
  destruct sd as [|j], op as [p|]; try done; [by exists None|].
  destruct (decide (j = KeyAccount seller)) as [->|Hj].
  - destruct Hs as (d & Hd & Hk & Hf & Hp & Hok & Hau). rewrite Ha in Hd.
    injection Hd as <-. injection Hp as <-. eexists (Some _). split; cycle 1.
    + eexists. unfold put, entry_at. cbn. rewrite lookup_insert_eq.
      split; [done|]. split; [done|]. split; [cbn in *; lia|]. split; [done|].
      split; [|done]. revert Hok. unfold pos_ok, p_available, p_room.
      cbn. change (default _ (acc_ext a)) with (liabilities_of (acc_ext a)).
      unfold_ints. lia.
    + cbn. unfold_ints. lia.
  - exists (Some p). split; [cbn; lia|]. apply side_is_put; [done|by exact Hs].
Qed.

Lemma wp_takeOffer o pS pW n s Q :
  crossing (Some o) pS pW n s -> 1 <= n <= 1073741824 ->
  (forall pS' pW' s', crossing None pS' pW' (n - 1) s' ->
     moved 0 0 0 pS pS' -> moved 0 0 0 pW pW' -> Q tt s') ->
  wp (_ ← eraseEntry k;
      _ ← loadAccount seller;
      _ ← modify (KeyAccount seller) (fun h e => addNumEntries h e (-1));
      mret tt) Q s.
Proof using Hh.
  intros Hx Hn HQ. pose proof Hx as [Hhd Ho HS HW (a & Ha & Han) Hfr].
  rewrite <- Hhd in Hh. apply wp_bind. unfold wp at 1, eraseEntry. rewrite Ho.
  set (s1 := set_entries (delete k (st_entries s)) s).
  assert (st_entries s1 !! KeyAccount seller = Some (ACCOUNT a)) as Ha1
    by (cbn; by rewrite lookup_delete_ne).
  assert (forall sd op, apart sd k -> side_is s sd op -> side_is s1 sd op) as Hside.
  { intros [|j] [p|] Hap Hs; try done. destruct Hs as (d & Hd & ?). exists d.
    unfold entry_at. cbn. by rewrite lookup_delete_ne by (cbn in Hap; congruence). }
  apply Hside in HS, HW; try apply side_of_not_offer.
  apply wp_bind, wp_exists_entry; [by eexists|].
  apply wp_bind. eapply wp_modify; [done|].
  change (st_header s1) with (st_header s).
  rewrite addNumEntries_remove by (done || lia). apply wp_ret.
  destruct (side_is_numSub _ _ s1 _ Hh Ha1 ltac:(lia) HS) as (pS' & ? & HS').
  destruct (side_is_numSub _ _ s1 _ Hh Ha1 ltac:(lia) HW) as (pW' & ? & HW').
  eapply HQ; [|done..]. split; [done| |done|done| |].
  - cbn. by rewrite lookup_insert_ne, lookup_delete_eq.
  - cbn. rewrite lookup_insert_eq. eexists. split; [done|]. cbn. lia.
  - intros j ? ? ? ?. cbn. rewrite lookup_insert_ne, lookup_delete_ne by done. auto.
Qed.
(** ** The whole crossing *)

(** The liabilities (selling, buying) of what is left of an offer. *)
Definition left_liabilities (oo : option OfferEntry) : Z * Z :=
  from_option (fun o => offer_amounts (of_price o) (of_amount o)) (0, 0) oo.

(** The seller's entries promise what the offer needs. *)
Definition offer_promised (o : OfferEntry) (pS pW : option Position) : Prop :=
  from_option (fun p => (left_liabilities (Some o)).2 <= p_buying p) True pS /\
  from_option (fun p => (left_liabilities (Some o)).1 <= p_selling p) True pW.

(** What is left of the offer [o] after the crossing [cr]. *)
Definition left_offer (o : OfferEntry) (cr : Crossed) (oo : option OfferEntry)
    : Prop :=
  match oo with
  | Some o' => cr_result cr = eOfferPartial /\ cr_wheatStays cr = true /\
      exists a, o' = set_amount a o /\
        0 < a <= of_amount o - cr_numWheatReceived cr
  | None => cr_result cr = eOfferTaken
  end.

Record crossed (o : OfferEntry) (pS pW : option Position) (n mw ms : Z)
    (cr : Crossed) (s' : LedgerState) (oo : option OfferEntry)
    (pS' pW' : option Position) : Prop := {
  cd_state : crossing oo pS' pW' (if oo then n else n - 1) s';
  cd_left : left_offer o cr oo;
  cd_wheat : 0 <= cr_numWheatReceived cr <= mw /\ cr_numWheatReceived cr <= of_amount o;
  cd_sheep : 0 <= cr_numSheepSend cr <= ms;
  cd_both : cr_numWheatReceived cr = 0 <-> cr_numSheepSend cr = 0;
  cd_favour :
    if cr_wheatStays cr
    then cr_numWheatReceived cr * pn (of_price o) <= cr_numSheepSend cr * pd (of_price o)
    else cr_numSheepSend cr * pd (of_price o) <= cr_numWheatReceived cr * pn (of_price o);
  cd_sheep_moved : moved (cr_numSheepSend cr)
    ((left_liabilities oo).2 - (left_liabilities (Some o)).2) 0 pS pS';
  cd_wheat_moved : moved (- cr_numWheatReceived cr) 0
    ((left_liabilities oo).1 - (left_liabilities (Some o)).1) pW pW';
  cd_trail : cr_trail cr =
    [mkClaim seller offerID wheat (cr_numWheatReceived cr) sheep (cr_numSheepSend cr)] }.

(** *** The phases *)
Lemma pos_ok_release_buying x p :
  pos_ok p -> 0 <= x <= p_buying p -> pos_ok (pos_add_buying (- x) p).
Proof using. unfold pos_ok, p_room, p_available. cbn. lia. Qed.
Lemma pos_ok_release_selling x p :
  pos_ok p -> 0 <= x <= p_selling p -> pos_ok (pos_add_selling (- x) p).
Proof using. unfold pos_ok, p_room, p_available. cbn. lia. Qed.
Lemma pos_ok_acquire_buying x p :
  pos_ok p -> 0 <= x <= p_room p -> pos_ok (pos_add_buying x p).
Proof using. unfold pos_ok, p_room, p_available. cbn. lia. Qed.
Lemma pos_ok_acquire_selling x p :
  pos_ok p -> 0 <= x -> x <= p_available p \/ x = 0 -> pos_ok (pos_add_selling x p).
Proof using. unfold pos_ok, p_room, p_available. cbn. lia. Qed.
Lemma pos_ok_receive x p :
  pos_ok p -> 0 <= x <= p_room p -> pos_ok (pos_add_balance x p).
Proof using. unfold pos_ok, p_room, p_available. cbn. lia. Qed.
Lemma pos_ok_send x p :
  pos_ok p -> 0 <= x -> x <= p_available p \/ x = 0 -> pos_ok (pos_add_balance (- x) p).
Proof using. unfold pos_ok, p_room, p_available. cbn. lia. Qed.

Lemma side_pos_ok s sd op : side_is s sd op -> from_option pos_ok True op.
Proof using.
  destruct sd, op; try done. by intros (d & _ & _ & _ & _ & ? & _).
Qed.

Lemma wp_release o pS pW n s Q :
  crossing (Some o) pS pW n s -> offer_ok o -> of_pair o -> offer_promised o pS pW ->
  (forall s',
     crossing (Some o) (pos_add_buying (- (left_liabilities (Some o)).2) <$> pS)
       (pos_add_selling (- (left_liabilities (Some o)).1) <$> pW) n s' -> Q tt s') ->
  wp (releaseLiabilities k) Q s.
Proof using Hh Hne.
  intros Hx Ho Hpair [HpS HpW] HQ. pose proof Ho as [Hp Ha].
  destruct (offer_amounts_bounds _ _ Hp Ha) as [Bos Bob].
  pose proof (side_pos_ok _ _ _ (cx_sheep _ _ _ _ _ Hx)) as OkS.
  pose proof (side_pos_ok _ _ _ (cx_wheat _ _ _ _ _ Hx)) as OkW.
  cbn [left_liabilities from_option] in *.
  eapply wp_acquireOrRelease; [done..| | | | |]; cbn [liability_sign].
  - destruct pS; cbn in *; [lia|done].
  - destruct pS; cbn in *; unfold_ints; [|lia]. revert OkS. unfold pos_ok. lia.
  - destruct pW as [p|]; cbn in *; [|done]. revert OkW. unfold pos_ok, p_available. lia.
  - destruct pW as [p|]; cbn in *; unfold_ints; [|lia].
    revert OkW. unfold pos_ok, p_available. lia.
  - apply HQ. apply crossing_change_wheat; [apply crossing_change_sheep; [done|]|].
    + apply acts_add_buying. destruct pS; [|done]. cbn in *.
      apply pos_ok_release_buying; [done|]. unfold_ints; lia.
    + apply acts_add_selling. destruct pW; [|done]. cbn in *.
      apply pos_ok_release_selling; [done|lia].
Qed.

Lemma wp_acquire o pS pW n s Q :
  crossing (Some o) pS pW n s -> offer_ok o -> of_pair o ->
  (offer_amounts (of_price o) (of_amount o)).2 <= room pS ->
  (offer_amounts (of_price o) (of_amount o)).1 <= available pW ->
  (forall s',
     crossing (Some o) (pos_add_buying (left_liabilities (Some o)).2 <$> pS)
       (pos_add_selling (left_liabilities (Some o)).1 <$> pW) n s' -> Q tt s') ->
  wp (acquireLiabilities k) Q s.
Proof using Hh Hne.
  intros Hx Ho Hpair HpS HpW HQ. pose proof Ho as [Hp Ha].
  destruct (offer_amounts_bounds _ _ Hp Ha) as [Bos Bob].
  pose proof (side_pos_ok _ _ _ (cx_sheep _ _ _ _ _ Hx)) as OkS.
  pose proof (side_pos_ok _ _ _ (cx_wheat _ _ _ _ _ Hx)) as OkW.
  cbn [left_liabilities from_option] in *.
  eapply wp_acquireOrRelease; [done..| | | | |]; cbn [liability_sign]; auto.
  - destruct pS; cbn in *; [|done]. revert OkS. unfold pos_ok. unfold_ints; lia.
  - destruct pW as [p|]; cbn in *; [|done]. revert OkW HpW. unfold pos_ok, p_available.
    lia.
  - apply HQ. apply crossing_change_wheat; [apply crossing_change_sheep; [done|]|].
    + apply acts_add_buying. destruct pS; [|done]. cbn in *.
      apply pos_ok_acquire_buying; [done|]. unfold_ints; lia.
    + apply acts_add_selling. destruct pW; [|done]. cbn in *.
      apply pos_ok_acquire_selling; [done|lia|lia].
Qed.

Section Handles2.
Context (account : option LedgerKey) (wheatLine sheepLine : TrustLineWrapper).
Context (HwW : handles seller wheat account wheatLine).
Context (HwS : handles seller sheep account sheepLine).

Lemma wp_receive what x o pS pW n s Q :
  crossing o pS pW n s -> 0 <= x <= Z.max (room pS) 0 ->
  (forall s', crossing o (pos_add_balance x <$> pS) pW n s' -> Q tt s') ->
  wp (if x =? 0 then mret tt
      else addBalanceOrThrow what account sheep sheepLine x) Q s.
Proof using Hh Hne HwS.
  intros Hx Hr HQ. pose proof Hx as [Hhd _ HS _ _ _].
  destruct (side_limits _ _ _ HS) as [_ Hroom].
  assert (crossing o (pos_add_balance x <$> pS) pW n
            (side_change (entry_add_balance x) sdS s)) as Hx'.
  { apply crossing_change_sheep; [done|]. apply acts_add_balance.
    pose proof (side_pos_ok _ _ _ HS). destruct pS; [|done]. cbn in *.
    apply pos_ok_receive; [done|]. unfold_ints; lia. }
  destruct (Z.eqb_spec x 0) as [->|Hx0].
  - apply wp_ret, HQ.
    assert (pos_add_balance 0 <$> pS = pS) as ->
      by (destruct pS as [[]|]; [|done]; unfold pos_add_balance; cbn;
          by rewrite Z.add_0_r). done.
  - rewrite <- Hhd in Hh. eapply wp_addBalanceOrThrow; [done..| | |by apply HQ].
    + unfold_ints; lia.
    + rewrite (proj2 (Z.ltb_ge _ _)) by lia. unfold_ints; lia.
Qed.

Lemma wp_send what x o pS pW n s Q :
  crossing o pS pW n s -> 0 <= x <= Z.max (available pW) 0 ->
  (forall s', crossing o pS (pos_add_balance (- x) <$> pW) n s' -> Q tt s') ->
  wp (if x =? 0 then mret tt
      else addBalanceOrThrow what account wheat wheatLine (s64 (- x))) Q s.
Proof using Hh Hne HwW.
  intros Hx Hr HQ. pose proof Hx as [Hhd _ _ HW _ _].
  destruct (side_limits _ _ _ HW) as [Hav _].
  assert (crossing o pS (pos_add_balance (- x) <$> pW) n
            (side_change (entry_add_balance (- x)) sdW s)) as Hx'.
  { apply crossing_change_wheat; [done|]. apply acts_add_balance.
    pose proof (side_pos_ok _ _ _ HW). destruct pW; [|done]. cbn in *.
    apply pos_ok_send; [done|lia|lia]. }
  destruct (Z.eqb_spec x 0) as [->|Hx0].
  - apply wp_ret, HQ.
    assert (pos_add_balance (- 0) <$> pW = pW) as ->
      by (destruct pW as [[]|]; [|done]; unfold pos_add_balance; cbn;
          by rewrite Z.add_0_r). done.
  - rewrite s64_id by (unfold_ints; lia). rewrite <- Hhd in Hh.
    eapply wp_addBalanceOrThrow; [done..| | |by apply HQ].
    + unfold_ints; lia.
    + rewrite (proj2 (Z.ltb_lt _ _)) by lia. lia.
Qed.
End Handles2.

(** The handle of the seller's account is loaded if an asset is native. *)
Definition account_handle : option LedgerKey :=
  if is_native wheat || is_native sheep then Some (KeyAccount seller) else None.
Definition line_handle (asset : Asset) : TrustLineWrapper :=
  if is_native asset then None else wrapper_of (side_of seller asset).

Lemma handles_wheat : handles seller wheat account_handle (line_handle wheat).
Proof using. unfold handles, account_handle, line_handle. by destruct (is_native wheat). Qed.
Lemma handles_sheep : handles seller sheep account_handle (line_handle sheep).
Proof using.
  unfold handles, account_handle, line_handle.
  destruct (is_native sheep); [by rewrite orb_true_r|done].
Qed.

Lemma wp_loadTrustLineIfNotNative asset s op Q :
  side_is s (side_of seller asset) op -> Q (line_handle asset) s ->
  wp (loadTrustLineIfNotNative seller asset) Q s.
Proof using.
  intros Hs HQ. unfold loadTrustLineIfNotNative, line_handle in *.
  destruct (is_native asset) eqn:En; [done|]. by eapply wp_loadTrustLine.
Qed.

(** What stays of the offer after the exchange: the rest, adjusted again. *)
Definition left_amount (o : OfferEntry) (x : Z) (pS pW : option Position)
    (stays : bool) : Z :=
  if stays then adjusted_amount (set_amount (of_amount o - x) o) pS pW else 0.

Lemma left_amount_spec o x pS pW n s stays :
  crossing (Some o) pS pW n s -> offer_ok o -> 0 <= x <= of_amount o ->
  let a := left_amount o x pS pW stays in
  0 <= a <= of_amount o - x /\
  (a <> 0 -> stays = true /\ (offer_amounts (of_price o) a).1 = a /\
     a <= available pW /\ (offer_amounts (of_price o) a).2 <= room pS).
Proof using.
  intros Hx [Hp Ha] Hb. cbv zeta. unfold left_amount.
  destruct stays; [|lia]. unfold adjusted_amount. cbn [set_amount of_price of_amount].
  destruct (side_limits _ _ _ (cx_sheep _ _ _ _ _ Hx)) as [_ Hr].
  destruct (side_limits _ _ _ (cx_wheat _ _ _ _ _ Hx)) as [Hav _].
  assert (amount (Z.min (of_amount o - x) (Z.max (available pW) 0))) as Hw
    by (unfold_ints; lia).
  assert (amount (Z.max (room pS) 0)) as Hs by (unfold_ints; lia).
  pose proof (adjusted_bounds _ _ _ Hp Hw Hs) as B.
  split; [lia|]. intros Hnz. split; [done|].
  destruct (offer_amounts_adjusted _ _ _ Hp Hw Hs Hnz) as [E1 E2].
  split; [done|]. unfold_ints. lia.
Qed.

Lemma wp_leave o x pS pW n s (stays : bool) Q :
  crossing (Some o) pS pW n s -> offer_ok o -> 0 <= x <= of_amount o ->
  (forall s', crossing (Some (set_amount (left_amount o x pS pW stays) o)) pS pW n s' ->
     Q tt s') ->
  wp (if stays then
        offer ← currentOffer k;
        _ ← setOfferAmount k (s64 (of_amount offer - x));
        adjustOffer k account_handle wheat (line_handle wheat)
          sheep (line_handle sheep)
      else setOfferAmount k 0) Q s.
Proof using Hh.
  intros Hx [Hp Ha] Hb HQ. destruct stays.
  - apply wp_bind. eapply wp_currentOffer; [exact Hx|]. apply wp_bind.
    eapply wp_setOfferAmount; [exact Hx|]. rewrite s64_id by (unfold_ints; lia).
    eapply wp_adjustOffer; [apply handles_wheat|apply handles_sheep
      |by eapply crossing_put| |].
    + split; [done|]. cbn. unfold_ints; lia.
    + apply HQ. eapply crossing_put, crossing_put; exact Hx.
  - eapply wp_setOfferAmount; [exact Hx|]. apply HQ. by eapply crossing_put.
Qed.

Lemma wp_finish o pS pW n s (a : Z) Q :
  crossing (Some o) pS pW n s -> offer_ok o -> of_pair o ->
  1 <= n <= 1073741824 -> of_amount o = a ->
  (a <> 0 ->
    (offer_amounts (of_price o) a).1 = a /\
    a <= available pW /\ (offer_amounts (of_price o) a).2 <= room pS) ->
  (forall oo pS' pW' s', crossing oo pS' pW' (if oo then n else n - 1) s' ->
     moved 0 (left_liabilities oo).2 0 pS pS' ->
     moved 0 0 (left_liabilities oo).1 pW pW' ->
     oo = (if a =? 0 then None else Some o) -> Q tt s') ->
  wp (nested
        (found ← loadOffer seller offerID;
         _ ← (match (if a =? 0 then eOfferTaken else eOfferPartial) with
              | eOfferTaken =>
                  _ ← eraseEntry k;
                  _ ← loadAccount seller;
                  _ ← modify (KeyAccount seller) (fun h e => addNumEntries h e (-1));
                  mret tt
              | _ => acquireLiabilities k
              end);
         mret (true, tt))) Q s.
Proof using Hh Hne.
  intros Hx Ho Hpair Hn Ha Hfit HQ. apply wp_nested, wp_bind, wp_exists_entry.
  { rewrite (cx_offer _ _ _ _ _ Hx). by eexists. }
  apply wp_bind. destruct (Z.eqb_spec a 0) as [Ea|Ea].
  - eapply wp_takeOffer; [done..|]. intros pS' pW' s' Hx' HmS HmW. apply wp_ret. cbn.
    eapply (HQ None); done.
  - destruct (Hfit Ea) as (Hos & Hav & Hroom). rewrite <- Ha in Hos, Hav, Hroom.
    eapply wp_acquire; [done..|lia|]. intros s' Hx'. apply wp_ret. cbn.
    eapply (HQ (Some o)); [exact Hx'| | |done].
    + destruct pS; cbn; [lia|done].
    + destruct pW; cbn; [lia|done].
Qed.

(** The second half of the crossing: from the adjusted offer, with its
    liabilities released, to the end. *)
Lemma wp_exchange o pS pW n mw ms path s (Q : Crossed -> LedgerState -> Prop) :
  crossing (Some o) pS pW n s -> offer_ok o -> of_pair o ->
  1 <= n <= 1073741824 -> 0 < mw <= INT64_MAX -> 0 < ms <= INT64_MAX ->
  of_amount o <= Z.max (available pW) 0 ->
  adjusted (of_price o) (of_amount o) (Z.max (room pS) 0) = of_amount o ->
  (forall x y (stays : bool) oo pS' pW' s',
     let a := left_amount o x (pos_add_balance y <$> pS) (pos_add_balance (- x) <$> pW)
                stays in
     0 <= x <= mw -> x <= of_amount o -> 0 <= y <= ms -> (x = 0 <-> y = 0) ->
     (if stays then x * pn (of_price o) <= y * pd (of_price o)
      else y * pd (of_price o) <= x * pn (of_price o)) ->
     crossing oo pS' pW' (if oo then n else n - 1) s' ->
     moved y (left_liabilities oo).2 0 pS pS' ->
     moved (- x) 0 (left_liabilities oo).1 pW pW' ->
     oo = (if a =? 0 then None else Some (set_amount a o)) ->
     (a <> 0 -> stays = true) -> 0 <= a <= of_amount o - x ->
     Q (mkCrossed (if a =? 0 then eOfferTaken else eOfferPartial) x y stays
          [mkClaim seller offerID wheat x sheep y]) s') ->
  wp (maxWheatSend ← canSellAtMost account_handle wheat (line_handle wheat);
      offer ← currentOffer k;
      maxSheepReceive ← canBuyAtMost account_handle sheep (line_handle sheep);
      exchangeResult ← lift (exchangeV10 (of_price offer)
        (Z.min (of_amount offer) maxWheatSend) mw ms maxSheepReceive path);
      _ ← (if numSheepSend exchangeResult =? 0 then mret tt
           else addBalanceOrThrow "overflowed sheep balance" account_handle sheep
                  (line_handle sheep) (numSheepSend exchangeResult));
      _ ← (if numWheatReceived exchangeResult =? 0 then mret tt
           else addBalanceOrThrow "overflowed wheat balance" account_handle wheat
                  (line_handle wheat) (s64 (- numWheatReceived exchangeResult)));
      _ ← (if wheatStays exchangeResult then
             offer ← currentOffer k;
             _ ← setOfferAmount k
                   (s64 (of_amount offer - numWheatReceived exchangeResult));
             adjustOffer k account_handle wheat (line_handle wheat)
               sheep (line_handle sheep)
           else setOfferAmount k 0);
      offer ← currentOffer k;
      let res := if of_amount offer =? 0 then eOfferTaken else eOfferPartial in
      _ ← nested
        (found ← loadOffer seller offerID;
         _ ← (match res with
              | eOfferTaken =>
                  _ ← eraseEntry k;
                  _ ← loadAccount seller;
                  _ ← modify (KeyAccount seller) (fun h e => addNumEntries h e (-1));
                  mret tt
              | _ => acquireLiabilities k
              end);
         mret (true, tt));
      mret (mkCrossed res (numWheatReceived exchangeResult)
              (numSheepSend exchangeResult) (wheatStays exchangeResult)
              [mkClaim seller offerID wheat (numWheatReceived exchangeResult)
                 sheep (numSheepSend exchangeResult)])) Q s.
Proof using Hh Hne.
  intros Hx [Hp Ha] Hpair Hn Hmw Hms Hmax Hadj HQ.
  pose proof Hx as [Hhd _ HS HW _ _].
  destruct (side_limits _ _ _ HS) as [_ Hroom], (side_limits _ _ _ HW) as [Hav _].
  pose proof Hh as Hh'. rewrite <- Hhd in Hh'.
  apply wp_bind. eapply wp_canSellAtMost; [done|apply handles_wheat|done|].
  apply wp_bind. eapply wp_currentOffer; [exact Hx|].
  apply wp_bind. eapply wp_canBuyAtMost; [done|apply handles_sheep|done|].
  rewrite Z.min_l by done.
  destruct (exchangeV10_total (of_price o) (of_amount o) mw ms (Z.max (room pS) 0) path)
    as ([x y stays] & E & [Bx By _ Hf Hz] & _ & _); [auto|auto|unfold_ints; lia..|auto|].
  cbn [numWheatReceived numSheepSend wheatStays] in *.
  apply wp_bind. eapply wp_lift; [exact E|].
  cbn [numWheatReceived numSheepSend wheatStays].
  apply wp_bind. eapply wp_receive; [apply handles_sheep|exact Hx|lia|]. intros s1 H1.
  apply wp_bind. eapply wp_send; [apply handles_wheat|exact H1|lia|]. intros s2 H2.
  apply wp_bind. eapply wp_leave; [exact H2|done|lia|]. intros s3 H3.
  apply wp_bind. eapply wp_currentOffer; [exact H3|]. cbn [set_amount of_amount].
  destruct (left_amount_spec _ x _ _ _ _ stays H2) as [Ba Hfit]; [done|lia|].
  cbv zeta in *. set (a := left_amount _ _ _ _ _) in *.
  apply wp_bind. eapply wp_finish; [exact H3| |done|done|done| |].
  - split; [done|]. cbn. unfold_ints; lia.
  - intros Hnz. cbn [set_amount of_price]. by apply Hfit.
  - intros oo pS' pW' s' H' HmS HmW Hoo. apply wp_ret.
    apply (HQ x y stays oo pS' pW'); try done; try lia.
    + destruct pS, pS'; cbn in *; try done; lia.
    + destruct pW, pW'; cbn in *; try done; lia.
    + intros Hnz. by apply Hfit.
Qed.

Lemma crossOfferV10_ok o pS pW n mw ms path :
  crossing (Some o) pS pW n s0 -> offer_ok o -> of_pair o -> offer_promised o pS pW ->
  1 <= n <= 1073741824 -> 0 < mw <= INT64_MAX -> 0 < ms <= INT64_MAX ->
  wp (crossOfferV10 k mw ms path)
     (fun cr s' => exists oo pS' pW', crossed o pS pW n mw ms cr s' oo pS' pW') s0.
Proof using Hh Hne.
  intros Hx Ho Hpair Hprom Hn Hmw Hms. pose proof Hpair as (Esel & Eid & Eb & Es).
  unfold crossOfferV10. do 2 (apply wp_bind; eapply wp_lift;
    [apply cassert_true, Z.ltb_lt; lia|]).
  apply wp_bind. eapply wp_currentOffer; [exact Hx|]. rewrite Esel, Eid, Eb, Es.
  apply wp_bind, wp_exists_entry.
  { destruct (cx_account _ _ _ _ _ Hx) as (acc & E & _). by exists (ACCOUNT acc). }
  cbn [negb]. apply wp_bind. eapply wp_release; [done..|]. intros s1 H1.
  set (pS1 := pos_add_buying _ <$> pS) in *. set (pW1 := pos_add_selling _ <$> pW) in *.
  apply wp_bind.
  assert (forall Q, Q account_handle s1 ->
    wp (if is_native wheat || is_native sheep
        then b ← loadAccount seller;
             mret (if b : bool then Some (KeyAccount seller) else None)
        else mret None) Q s1) as Hacc.
  { intros Q HQ. unfold account_handle in HQ. destruct (_ || _); [|done].
    apply wp_bind, wp_exists_entry; [|done].
    destruct (cx_account _ _ _ _ _ H1) as (acc & E & _). by exists (ACCOUNT acc). }
  apply Hacc. clear Hacc.
  apply wp_bind. eapply wp_loadTrustLineIfNotNative; [apply H1|].
  apply wp_bind. eapply wp_loadTrustLineIfNotNative; [apply H1|].
  apply wp_bind. eapply wp_adjustOffer;
    [apply handles_wheat|apply handles_sheep|done..|].
  pose proof (crossing_put _ (set_amount (adjusted_amount o pS1 pW1) o) _ _ _ _ H1) as H2.
  set (s2 := put _ _ s1) in *. set (o2 := set_amount _ o) in *.
  destruct Ho as [Hp Ha].
  destruct (side_limits _ _ _ (cx_sheep _ _ _ _ _ H1)) as [_ Hroom].
  destruct (side_limits _ _ _ (cx_wheat _ _ _ _ _ H1)) as [Hav _].
  assert (amount (Z.min (of_amount o) (Z.max (available pW1) 0))) as Hw
    by (unfold_ints; lia).
  assert (amount (Z.max (room pS1) 0)) as Hr by (unfold_ints; lia).
  pose proof (adjusted_bounds _ _ _ Hp Hw Hr) as B.
  fold (adjusted_amount o pS1 pW1) in B.
  eapply (wp_exchange o2 pS1 pW1 n); [exact H2| |done|done|done|done| | |].
  - split; [done|]. cbn. unfold_ints; lia.
  - cbn. lia.
  - cbn. by apply adjusted_stable.
  - intros x y stays oo pS' pW' s' a Hx1 Hx2 Hy Hz Hf H' HmS HmW Hoo Hst Hb.
    cbn [o2 set_amount of_amount of_price] in *. exists oo, pS', pW'.
    split; cbn [cr_numWheatReceived cr_numSheepSend cr_wheatStays cr_trail];
      try done; try lia.
    + subst oo. unfold left_offer. destruct (Z.eqb_spec a 0) as [|Hnz]; [done|].
      split; [done|]. split; [by apply Hst|]. exists a. split; [done|]. cbn. lia.
    + subst pS1. destruct pS, pS'; cbn in *; try done; lia.
    + subst pW1. destruct pW, pW'; cbn in *; try done; lia.
Qed.
End Crossing.

(** C23. [crossOfferV10] on an offer whose seller's entries keep their
    promises and promise what the offer needs: it does not throw; it stays
    within the two limits and the offer's amount, exchanges both assets or
    neither, and rounds in favour of the offer that stays; the seller's sheep
    grow and its wheat shrinks by the reported amounts; the liabilities
    follow the offer; the offer is reduced, or erased with its subentry; the
    resulting entries keep their promises; and no other entry changes. *)
Theorem crossOfferV10_correct seller offerID sheep wheat s o pS pW n mw ms path :
  sheep <> wheat -> header_v10 (st_header s) ->
  crossing seller offerID sheep wheat s (Some o) pS pW n s ->
  offer_ok o -> of_pair seller offerID sheep wheat o -> offer_promised o pS pW ->
  1 <= n <= 1073741824 -> 0 < mw <= INT64_MAX -> 0 < ms <= INT64_MAX ->
  exists cr s' oo pS' pW',
    crossOfferV10 (KeyOffer seller offerID) mw ms path s = Ok (cr, s') /\
    crossed seller offerID sheep wheat s o pS pW n mw ms cr s' oo pS' pW'.
Proof.
  intros Hne Hh Hx Ho Hpair Hprom Hn Hmw Hms.
  pose proof (crossOfferV10_ok seller offerID sheep wheat Hne s Hh o pS pW n mw ms
                path Hx Ho Hpair Hprom Hn Hmw Hms) as H. revert H. unfold wp.
  destruct (crossOfferV10 _ _ _ _ _) as [[cr s']|]; [|done].
  intros (oo & pS' & pW' & H). by exists cr, s', oo, pS', pW'.
Qed.

(** Acquiring the liabilities of an offer succeeds whenever its buying
    liabilities fit in what the seller can receive and its selling liabilities
    in what it has available, and releasing them afterwards succeeds and gives
    back the positions there were; no other entry changes. *)
Theorem acquire_release_roundtrip seller offerID sheep wheat s o pS pW n :
  sheep <> wheat -> header_v10 (st_header s) ->
  crossing seller offerID sheep wheat s (Some o) pS pW n s ->
  offer_ok o -> of_pair seller offerID sheep wheat o ->
  (offer_amounts (of_price o) (of_amount o)).2 <= room pS ->
  (offer_amounts (of_price o) (of_amount o)).1 <= available pW ->
  exists s1 s2,
    acquireLiabilities (KeyOffer seller offerID) s = Ok (tt, s1) /\
    crossing seller offerID sheep wheat s (Some o)
      (pos_add_buying (offer_amounts (of_price o) (of_amount o)).2 <$> pS)
      (pos_add_selling (offer_amounts (of_price o) (of_amount o)).1 <$> pW) n s1 /\
    releaseLiabilities (KeyOffer seller offerID) s1 = Ok (tt, s2) /\
    crossing seller offerID sheep wheat s (Some o) pS pW n s2.
Proof.
  intros Hne Hh Hx Ho Hpair Hroom Hav. pose proof Ho as [Hp Ha].
  set (ob := (offer_amounts _ _).2) in *. set (os := (offer_amounts _ _).1) in *.
  pose proof (side_pos_ok _ _ _ (cx_sheep _ _ _ _ _ _ _ _ _ _ Hx)) as OkS.
  pose proof (side_pos_ok _ _ _ (cx_wheat _ _ _ _ _ _ _ _ _ _ Hx)) as OkW.
  assert (wp (acquireLiabilities (KeyOffer seller offerID))
    (fun _ => crossing seller offerID sheep wheat s (Some o)
       (pos_add_buying ob <$> pS) (pos_add_selling os <$> pW) n) s) as H
    by (eapply wp_acquire; eauto).
  unfold wp in H. destruct (acquireLiabilities _ s) as [[[] s1]|]; [|done].
  assert (wp (releaseLiabilities (KeyOffer seller offerID))
    (fun _ => crossing seller offerID sheep wheat s (Some o) pS pW n) s1) as H2.
  { eapply wp_release; [done|done|exact H|done|done| |].
    - split; cbn; [destruct pS|destruct pW]; cbn in *; try done;
        unfold pos_ok in *; lia.
    - intros s2 H2. cbn [left_liabilities from_option] in H2. fold ob os in H2.
      replace (pos_add_buying (- ob) <$> (pos_add_buying ob <$> pS)) with pS in H2
        by (destruct pS as [[]|]; [|done]; cbn; unfold pos_add_buying; cbn;
            repeat f_equal; lia).
      replace (pos_add_selling (- os) <$> (pos_add_selling os <$> pW)) with pW in H2
        by (destruct pW as [[]|]; [|done]; cbn; unfold pos_add_selling; cbn;
            repeat f_equal; lia).
      exact H2. }
  unfold wp in H2. destruct (releaseLiabilities _ s1) as [[[] s2]|] eqn:E; [|done].
  by exists s1, s2.
Qed.

(** ** An example: account 1 sells 100 lumens for the dollars of account 9 *)
Definition sample_usd : Asset := ALPHANUM4 [85; 83; 68; 0] 9.
Definition sample_seller : AccountEntry :=
  mkAccount 1 1000 0 "" 2 None 0 "" (mkThresholds 1 0 0 0) []
    (Some (mkLiabilities 0 100)).
Definition sample_line : TrustLineEntry :=
  mkTrustLine 1 sample_usd 0 1000 1 (Some (mkLiabilities 50 0)).
Definition sample_crossed_offer : OfferEntry :=
  mkOffer 1 5 ASSET_NATIVE sample_usd 100 (mkPrice 1 2) 0.
Definition sample_v10_header : LedgerHeader :=
  mkHeader 10 7 0 100000 0 0 5 100 10 100.
Definition sample_state : LedgerState :=
  mkState sample_v10_header
    (<[KeyAccount 1 := ACCOUNT sample_seller]>
    (<[KeyTrustLine 1 sample_usd := TRUSTLINE sample_line]>
    (<[KeyOffer 1 5 := OFFER sample_crossed_offer]> ∅))).

Definition sample_pS : option Position := Some (mkPos 0 0 1000 50 0 true).
Definition sample_pW : option Position := Some (mkPos 1000 40 INT64_MAX 0 100 true).

Lemma sample_crossing :
  crossing 1 5 sample_usd ASSET_NATIVE sample_state (Some sample_crossed_offer)
    sample_pS sample_pW 2 sample_state.
Proof.
  split; [done|done| | | |done].
  - exists (TRUSTLINE sample_line). unfold entry_at. split; [done|].
    split; [done|]. split; [done|]. split; [done|]. split; [|done].
    unfold pos_ok, p_room, p_available. cbn. unfold_ints. lia.
  - exists (ACCOUNT sample_seller). unfold entry_at. split; [done|].
    split; [done|]. split; [cbn; lia|]. split; [done|]. split; [|done].
    unfold pos_ok, p_room, p_available. cbn. unfold_ints. lia.
  - by exists sample_seller.
Qed.

Lemma crossOfferV10_correct_witness :
  offer_promised sample_crossed_offer sample_pS sample_pW /\
  exists cr s' oo pS' pW',
    crossOfferV10 (KeyOffer 1 5) 60 1000 false sample_state = Ok (cr, s') /\
    crossed 1 5 sample_usd ASSET_NATIVE sample_state sample_crossed_offer
      sample_pS sample_pW 2 60 1000 cr s' oo pS' pW'.
Proof.
  assert (offer_promised sample_crossed_offer sample_pS sample_pW) as Hprom
    by (vm_compute; split; discriminate).
  split; [exact Hprom|].
  apply (crossOfferV10_correct 1 5 sample_usd ASSET_NATIVE sample_state
    sample_crossed_offer sample_pS sample_pW 2 60 1000 false);
    [discriminate|vm_compute; repeat split; discriminate|exact sample_crossing
    |vm_compute; repeat split; discriminate|repeat split|exact Hprom
    |lia|unfold_ints; lia|unfold_ints; lia].
Defined.

Example crossing_sells_sixty :
  match crossOfferV10 (KeyOffer 1 5) 60 1000 false sample_state with
  | Ok (cr, s') =>
      cr_numWheatReceived cr = 60 /\ cr_numSheepSend cr = 30 /\
      st_entries s' !! KeyOffer 1 5 =
        Some (OFFER (set_amount 40 sample_crossed_offer))
  | Throw _ => False
  end.
Proof. vm_compute. auto. Qed.

(** The same book with the offer not yet backed by liabilities. *)
Definition sample_unbacked_state : LedgerState :=
  mkState sample_v10_header
    (<[KeyAccount 1 := ACCOUNT (set_ext None sample_seller)]>
    (<[KeyTrustLine 1 sample_usd := TRUSTLINE (set_tl_ext None sample_line)]>
    (<[KeyOffer 1 5 := OFFER sample_crossed_offer]> ∅))).
Definition sample_free_pS : option Position := Some (mkPos 0 0 1000 0 0 true).
Definition sample_free_pW : option Position := Some (mkPos 1000 40 INT64_MAX 0 0 true).

Lemma sample_unbacked_crossing :
  crossing 1 5 sample_usd ASSET_NATIVE sample_unbacked_state (Some sample_crossed_offer)
    sample_free_pS sample_free_pW 2 sample_unbacked_state.
Proof.
  split; [done|done| | | |done].
  - exists (TRUSTLINE (set_tl_ext None sample_line)). unfold entry_at. split; [done|].
    split; [done|]. split; [done|]. split; [done|]. split; [|done].
    unfold pos_ok, p_room, p_available. cbn. unfold_ints. lia.
  - exists (ACCOUNT (set_ext None sample_seller)). unfold entry_at. split; [done|].
    split; [done|]. split; [cbn; lia|]. split; [done|]. split; [|done].
    unfold pos_ok, p_room, p_available. cbn. unfold_ints. lia.
  - by exists (set_ext None sample_seller).
Qed.

Lemma acquire_release_roundtrip_witness :
  sample_usd <> ASSET_NATIVE /\
  exists s1 s2,
    acquireLiabilities (KeyOffer 1 5) sample_unbacked_state = Ok (tt, s1) /\
    crossing 1 5 sample_usd ASSET_NATIVE sample_unbacked_state
      (Some sample_crossed_offer)
      (pos_add_buying 50 <$> sample_free_pS) (pos_add_selling 100 <$> sample_free_pW)
      2 s1 /\
    releaseLiabilities (KeyOffer 1 5) s1 = Ok (tt, s2) /\
    crossing 1 5 sample_usd ASSET_NATIVE sample_unbacked_state
      (Some sample_crossed_offer) sample_free_pS sample_free_pW 2 s2.
Proof.
  split; [discriminate|].
  apply (acquire_release_roundtrip 1 5 sample_usd ASSET_NATIVE sample_unbacked_state
    sample_crossed_offer sample_free_pS sample_free_pW 2);
    [discriminate|vm_compute; repeat split; discriminate
    |exact sample_unbacked_crossing|vm_compute; repeat split; discriminate|repeat split
    |vm_compute; discriminate|vm_compute; discriminate].
Defined.
