(* ===== verification/Converting.v ===== *)
(** Correctness of [convertWithOffers]: its loop ends, for every filter and
    every protocol version, and what it reports stays within its limits and
    agrees with the trail of claimed offers. *)

From S2P Require Import Prelude Numeric OfferMath Types LedgerTxnOffers.
From S2P Require Import LedgerState TransactionUtils OfferExchange Crossing.

(** At least one entry left the ledger. *)
Definition loses_entry (s s' : LedgerState) : Prop :=
  shrinks s s' /\ exists k, is_Some (st_entries s !! k) /\ st_entries s' !! k = None.

Lemma loses_entry_size s s' :
  loses_entry s s' -> (size (st_entries s') < size (st_entries s))%nat.
Proof.
  intros [Hs (k & Hk & Hk')]. rewrite <- !size_dom. apply subset_size.
  split; [done|]. intros Hsub. apply elem_of_dom in Hk. apply Hsub in Hk.
  apply elem_of_dom in Hk as [d Hd]. by rewrite Hk' in Hd.
Qed.
Lemma loses_entry_shrinks s s1 s2 : loses_entry s s1 -> shrinks s1 s2 -> loses_entry s s2.
Proof.
  intros [Hs (k & Hk & Hk')] H. split; [by transitivity s1|]. exists k. split; [done|].
  apply not_elem_of_dom in Hk'. apply not_elem_of_dom. intros ?. by apply Hk', H.
Qed.
Lemma shrinks_loses_entry s s1 s2 : shrinks s s1 -> loses_entry s1 s2 -> loses_entry s s2.
Proof.
  intros H [Hs (k & Hk & Hk')]. split; [by transitivity s1|]. exists k. split; [|done].
  apply elem_of_dom, H, elem_of_dom, Hk.
Qed.

(** One bind, remembering that nothing was created since [s0]. *)
Lemma wlp_shrink_bind {A B} (m : M A) (f : A -> M B) Q s0 s :
  keeps shrinks m -> shrinks s0 s ->
  (forall a s', shrinks s0 s' -> wlp (f a) Q s') -> wlp (m ≫= f) Q s.
Proof.
  intros Hm Hs Hf. apply wlp_bind. eapply (wlp_keeps shrinks); [done|].
  intros a s' H. apply Hf. by transitivity s.
Qed.

Ltac shrink_step :=
  eapply wlp_shrink_bind; [by keeps_auto|eassumption|intros ? ? ?].

(** What a crossing says of itself: the trail has the claim of the amounts
    reported, and an offer that is taken leaves the ledger. *)
Definition sold (l : list ClaimOfferAtom) : Z := foldr Z.add 0 (ca_amountSold <$> l).
Definition bought (l : list ClaimOfferAtom) : Z := foldr Z.add 0 (ca_amountBought <$> l).

#[global] Arguments sold : simpl never.
#[global] Arguments bought : simpl never.

Definition crossed_once (s : LedgerState) (cr : Crossed) (s' : LedgerState) : Prop :=
  shrinks s s' /\
  (cr_result cr = eOfferTaken -> loses_entry s s') /\
  (cr_result cr = eOfferCantConvert -> cr_trail cr = []) /\
  (cr_result cr <> eOfferCantConvert ->
   sold (cr_trail cr) = cr_numWheatReceived cr /\
   bought (cr_trail cr) = cr_numSheepSend cr).

(** Erasing the offer and shrinking on. *)
Lemma wlp_takeOffer k id (Q : unit -> LedgerState -> Prop) s :
  (forall s', loses_entry s s' -> Q tt s') ->
  wlp (_ ← eraseEntry k;
       _ ← loadAccount id;
       _ ← modify (KeyAccount id) (fun h e => addNumEntries h e (-1));
       mret tt) Q s.
Proof.
  intros HQ. apply wlp_bind, wlp_erase. intros Hk.
  eapply (wlp_keeps shrinks); [unfold loadAccount; keeps_auto|].
  intros [] s' H. apply HQ. eapply loses_entry_shrinks; [|done].
  split; cbn; [unfold shrinks; cbn; rewrite dom_delete; apply subseteq_difference_l; reflexivity|].
  exists k. split; [done|]. by rewrite lookup_delete_eq.
Qed.

Lemma wlp_crossOffer k x y s : wlp (crossOffer k x y) (crossed_once s) s.
Proof.
  unfold crossOffer. do 2 (apply wlp_bind, wlp_lift; intros _ _).
  apply wlp_bind. eapply (wlp_keeps eq); [keeps_auto|]. intros o _ <-.
  apply wlp_bind, wlp_exists_entry. intros b _. destruct b; [|done]. cbn [negb].
  apply wlp_bind. eapply (wlp_keeps eq);
    [unfold loadTrustLineWithoutRecordIfNotNative; keeps_auto|]. intros ? _ <-.
  apply wlp_bind. eapply (wlp_keeps eq);
    [unfold loadTrustLineWithoutRecordIfNotNative; keeps_auto|]. intros ? _ <-.
  apply wlp_bind. eapply (wlp_keeps eq); [keeps_auto|]. intros p _ <-.
  assert (forall N S st s', shrinks s s' ->
    crossed_once s (mkCrossed eOfferCantConvert N S st []) s') as H0
    by (intros; repeat split; done).
  assert (forall N S res s' st cl, shrinks s s' -> res <> eOfferCantConvert ->
    (res = eOfferTaken -> loses_entry s s') ->
    ca_amountSold cl = N -> ca_amountBought cl = S ->
    crossed_once s (mkCrossed res N S st [cl]) s') as H1.
  { intros N S res s' st cl ? ? ? <- <-. do 3 (split; [done|]).
    split; apply Z.add_0_r. }
  set (m := match pf_type p with REDUCED_TO_ZERO => _ | _ => _ end).
  enough (forall Q, (forall cr s', crossed_once s cr s' -> Q cr s') -> wlp m Q s) as H
    by (by apply H).
  intros Q HQ. subst m.
  enough (forall (res : CrossOfferResult) s1, res <> eOfferCantConvert ->
    shrinks s s1 -> (res = eOfferTaken -> loses_entry s s1) ->
    wlp (ok1 ← (if pf_numSheepSend p =? 0 then mret true
             else addBalanceInner (of_seller o) (of_buying o) (pf_numSheepSend p));
      if negb ok1
      then mret (mkCrossed eOfferCantConvert (pf_numWheatReceived p)
                   (pf_numSheepSend p) true [])
      else
      ok2 ← (if pf_numWheatReceived p =? 0 then mret true
             else addBalanceInner (of_seller o) (of_selling o)
                    (s64 (- pf_numWheatReceived p)));
      if negb ok2
      then mret (mkCrossed eOfferCantConvert (pf_numWheatReceived p)
                   (pf_numSheepSend p) true [])
      else
      mret (mkCrossed res (pf_numWheatReceived p) (pf_numSheepSend p) true
              [mkClaim (of_seller o) (of_offerID o) (of_selling o)
                 (pf_numWheatReceived p) (of_buying o) (pf_numSheepSend p)])) Q s1)
    as Hrest.
  { destruct (pf_type p); [|apply wlp_ret, HQ, H0; done|];
      apply wlp_bind; destruct (pf_newAmount p =? 0).
    1,3: apply wlp_takeOffer; intros s1 Hs1; apply Hrest; [done|apply Hs1|done].
    all: eapply (wlp_keeps shrinks); [keeps_auto|]; intros _ s1 Hs1;
      by apply Hrest. }
  intros res s1 Hres Hs1 Htaken. apply wlp_bind.
  eapply (wlp_keeps shrinks); [keeps_auto|]. intros ok1 s2 Hs2.
  assert (shrinks s s2) by (by transitivity s1).
  destruct ok1; cbn [negb]; [|by apply wlp_ret, HQ, H0].
  apply wlp_bind. eapply (wlp_keeps shrinks); [keeps_auto|]. intros ok2 s3 Hs3.
  assert (shrinks s s3) by (by transitivity s2).
  destruct ok2; cbn [negb]; apply wlp_ret, HQ; [|by apply H0].
  apply H1; try done. intros E. apply Htaken in E.
  apply (loses_entry_shrinks s s1 s3); [done|by transitivity s2].
Qed.

Lemma wlp_crossOfferV10 k x y path s :
  wlp (crossOfferV10 k x y path) (crossed_once s) s.
Proof.
  assert (shrinks s s) as H0 by reflexivity.
  unfold crossOfferV10, loadAccountWithoutRecord, loadAccount, releaseLiabilities,
    loadTrustLineIfNotNative.
  do 4 shrink_step. destruct a2; [|done]. cbn [negb]. do 13 shrink_step.
  match goal with H : shrinks s ?t |- wlp _ _ ?t => rename t into s1, H into Hs1 end.
  match goal with |- context [of_amount ?o =? 0] => set (taken := of_amount o =? 0) end.
  apply wlp_bind, wlp_nested.
  enough (wlp (found ← loadOffer (of_seller a1) (of_offerID a1);
    _ ← (match (if taken then eOfferTaken else eOfferPartial) with
         | eOfferTaken =>
             _ ← eraseEntry (KeyOffer (of_seller a1) (of_offerID a1));
             _ ← loadAccount (of_seller a1);
             _ ← modify (KeyAccount (of_seller a1)) (fun h e => addNumEntries h e (-1));
             mret tt
         | _ => acquireLiabilities (KeyOffer (of_seller a1) (of_offerID a1))
         end); mret (true, tt))
    (fun r s' => r = (true, tt) /\ shrinks s s' /\ (taken = true -> loses_entry s s')) s1)
    as Hend.
  { eapply wlp_mono; [exact Hend|]. intros [? ?] s9 ([= -> ->] & Hs' & Ht). cbn.
    apply wlp_ret. split; [done|]. split.
    - intros E. apply Ht. by destruct taken.
    - split; [by destruct taken|]. intros _. split; apply Z.add_0_r. }
  apply wlp_bind, wlp_exists_entry. intros _ _. apply wlp_bind. destruct taken.
  - apply wlp_takeOffer. intros s9 H'. apply wlp_ret. split; [done|].
    split; [transitivity s1; [done|apply H']|]. intros _. by eapply shrinks_loses_entry.
  - eapply (wlp_keeps shrinks); [unfold acquireLiabilities; keeps_auto|].
    intros _ s9 H'. apply wlp_ret. split; [done|]. split; [by transitivity s1|done].
Qed.

(** ** A round and the loop *)

(** What one round can give back. *)
Definition round_ok (mss mwr : Z) (s : LedgerState) (r : ConvertRound)
    (s' : LedgerState) : Prop :=
  let within cr :=
    0 <= cr_numSheepSend cr <= mss /\ 0 <= cr_numWheatReceived cr <= mwr in
  match r with
  | RoundBreak | RoundStop _ => True
  | RoundReturn _ None tr => tr = []
  | RoundReturn _ (Some cr) tr =>
      within cr /\ sold tr = cr_numWheatReceived cr /\ bought tr = cr_numSheepSend cr
  | RoundNext cr =>
      within cr /\ sold (cr_trail cr) = cr_numWheatReceived cr /\
      bought (cr_trail cr) = cr_numSheepSend cr /\ loses_entry s s' /\
      cr_numSheepSend cr < mss /\ cr_numWheatReceived cr < mwr
  end.

Lemma wlp_convertRound sheep wheat mss mwr path filter s :
  amount mss -> amount mwr ->
  wlp (convertRound sheep wheat mss mwr path filter) (round_ok mss mwr s) s.
Proof.
  intros Hmss Hmwr. unfold convertRound. apply wlp_nested, wlp_bind, wlp_bestOffer.
  intros [k|]; [|by apply wlp_ret]. apply wlp_bind.
  eapply (wlp_keeps eq); [by keeps_auto|]. intros o _ <-.
  apply wlp_bind, wlp_lift. intros stop _. destruct stop; [|by apply wlp_ret].
  apply wlp_bind, wlp_currentHeader, wlp_bind.
  apply (wlp_mono _ (crossed_once s)); [destruct (10 <=? _);
    [apply wlp_crossOfferV10|apply wlp_crossOffer]|].
  intros cr s1 (Hs & Htaken & Hcant & Hsums).
  do 4 (apply wlp_bind, wlp_lift; intros ? ?%cassert_Ok).
  destruct (cr_result cr) eqn:Er; cycle 2.
  { apply wlp_ret. cbn. auto. }
  all: destruct Hsums as [Hsold Hbought]; [congruence|]; zbool;
    rewrite !s64_id by (unfold_ints; lia);
    destruct (negb _) eqn:En; apply wlp_ret; cbn; zbool; try tauto; split_and!; try lia;
    auto.
Qed.

Lemma wlp_convertLoop fuel sheep wheat mss mwr path filter ss wr tr s :
  (size (st_entries s) < fuel)%nat ->
  amount mss -> amount mwr -> 0 <= ss -> 0 <= wr ->
  ss + mss <= INT64_MAX -> wr + mwr <= INT64_MAX ->
  bought tr = ss -> sold tr = wr ->
  wlp (convertLoop fuel sheep wheat mss mwr path filter ss wr tr)
    (fun r _ => exists c, r = Some c /\
       ss <= cv_sheepSend c <= ss + mss /\ wr <= cv_wheatReceived c <= wr + mwr /\
       bought (cv_trail c) = cv_sheepSend c /\ sold (cv_trail c) = cv_wheatReceived c) s.
Proof.
  assert (forall l l', sold (l ++ l') = sold l + sold l') as Hsold.
  { intros l l'. unfold sold. rewrite fmap_app.
    induction (ca_amountSold <$> l) as [|a l0 IH]; cbn; lia. }
  assert (forall l l', bought (l ++ l') = bought l + bought l') as Hbought.
  { intros l l'. unfold bought. rewrite fmap_app.
    induction (ca_amountBought <$> l) as [|a l0 IH]; cbn; lia. }
  revert mss mwr ss wr tr s. induction fuel as [|fuel IH];
    intros mss mwr ss wr tr s Hfuel Hmss Hmwr Hss Hwr Hm1 Hm2 <- <-; [lia|].
  cbn [convertLoop]. apply wlp_bind.
  eapply wlp_mono; [by apply wlp_convertRound|]. intros r s1 Hr.
  destruct r as [|o|res [cr|] tr'|cr]; cbn in Hr.
  - apply wlp_bind, wlp_currentHeader, wlp_ret. eexists. split; [done|].
    cbn. unfold_ints; lia.
  - apply wlp_ret. eexists. split; [done|]. cbn. unfold_ints; lia.
  - apply wlp_ret. eexists. split; [done|]. cbn.
    rewrite !s64_id, Hsold, Hbought by (unfold_ints; lia). lia.
  - apply wlp_ret. eexists. split; [done|]. cbn. subst tr'.
    rewrite app_nil_r. unfold_ints; lia.
  - destruct Hr as (Hw & E1 & E2 & Hlose & ? & ?).
    apply loses_entry_size in Hlose.
    rewrite !s64_id by (unfold_ints; lia).
    eapply wlp_mono; [apply IH; rewrite ?Hsold, ?Hbought; unfold_ints; lia|].
    intros r s2 (c & -> & ?). exists c. split; [done|]. lia.
Qed.

(** C24. [convertWithOffers] in every state, for every filter and protocol
    version: its loop ends within its rounds (it never runs out of fuel); the
    sheep spent and the wheat received are within the two limits; and they
    are the sums of the amounts of the claimed offers. *)
Theorem convertWithOffers_correct sheep mss wheat mwr path filter s :
  amount mss -> amount mwr ->
  match convertWithOffers sheep mss wheat mwr path filter s with
  | Ok (c, _) =>
      0 <= cv_sheepSend c <= mss /\ 0 <= cv_wheatReceived c <= mwr /\
      bought (cv_trail c) = cv_sheepSend c /\ sold (cv_trail c) = cv_wheatReceived c
  | Throw _ =>
      forall s', convertLoop (S (size (st_entries s))) sheep wheat mss mwr path filter
                   0 0 [] s <> Ok (None, s')
  end.
Proof.
  intros Hmss Hmwr. unfold convertWithOffers.
  destruct (_ && _); cycle 1.
  { cbn. change (bought []) with 0. change (sold []) with 0. unfold_ints; lia. }
  pose proof (wlp_convertLoop (S (size (st_entries s))) sheep wheat mss mwr path filter
    0 0 [] s) as H. revert H. unfold wlp.
  destruct (convertLoop _ _ _ _ _ _ _ _ _ _ s) as [[c s1]|]; [|by intros].
  intros (c' & -> & H); try done; unfold_ints; lia.
Qed.

Lemma convertWithOffers_correct_witness :
  match convertWithOffers sample_usd 1000 ASSET_NATIVE 60 false None sample_state with
  | Ok (c, _) =>
      0 <= cv_sheepSend c <= 1000 /\ 0 <= cv_wheatReceived c <= 60 /\
      bought (cv_trail c) = cv_sheepSend c /\ sold (cv_trail c) = cv_wheatReceived c
  | Throw _ =>
      forall s', convertLoop (S (size (st_entries sample_state))) sample_usd ASSET_NATIVE
                   1000 60 false None 0 0 [] sample_state <> Ok (None, s')
  end.
Proof.
  apply (convertWithOffers_correct sample_usd 1000 ASSET_NATIVE 60 false None sample_state);
    unfold_ints; lia.
Defined.
