(* ===== verification/Accounting.v ===== *)
(** Accounting: how a computation changes a total over the ledger.

    A measure gives every entry (with its key) and the header a number; the
    total of a state is the sum.  Numbers are compared modulo [N], because
    the code's integers wrap.  A computation that leaves the total alone
    [keeps] the relation [same_total], which composes as in [LedgerState];
    one that changes it is followed step by step with [moved]. *)

From S2P Require Import Prelude Numeric OfferMath Types Sums OfferOrder LedgerTxn.
From S2P Require Import LedgerTxnOffers LedgerState TransactionUtils OfferExchange.
From S2P Require Import Converting.

(** Equality up to multiples of [N]. *)
Definition eqm (N a b : Z) : Prop := exists k, a = b + k * N.

#[export] Instance eqm_equivalence N : Equivalence (eqm N).
Proof.
  split.
  - intros a. exists 0. lia.
  - intros a b [k ->]. exists (- k). lia.
  - intros a b c [k ->] [l ->]. exists (k + l). lia.
Qed.
#[export] Instance eqm_add N : Proper (eqm N ==> eqm N ==> eqm N) Z.add.
Proof. intros a b [k ->] c d [l ->]. exists (k + l). lia. Qed.
#[export] Instance eqm_sub N : Proper (eqm N ==> eqm N ==> eqm N) Z.sub.
Proof. intros a b [k ->] c d [l ->]. exists (k - l). lia. Qed.
#[export] Instance eqm_opp N : Proper (eqm N ==> eqm N) Z.opp.
Proof. intros a b [k ->]. exists (- k). lia. Qed.

Lemma eqm_eq N a b : a = b -> eqm N a b.
Proof. intros ->. reflexivity. Qed.
Lemma eqm_s64 z : eqm 18446744073709551616 (s64 z) z.
Proof.
  unfold s64. exists (- ((z + 9223372036854775808) / 18446744073709551616)).
  pose proof (Z.div_mod (z + 9223372036854775808) 18446744073709551616). lia.
Qed.
Lemma eqm_s64_eq a b : eqm 18446744073709551616 a b -> s64 a = s64 b.
Proof.
  intros [k ->]. unfold s64. f_equal.
  replace (b + k * 18446744073709551616 + 9223372036854775808)
    with (b + 9223372036854775808 + k * 18446744073709551616) by lia.
  apply Z.mod_add. lia.
Qed.

(** Every entry is under its own key. *)
Definition coherent (s : LedgerState) : Prop :=
  forall k d, st_entries s !! k = Some d -> LedgerDataKey d = k.

Class Measure := {
  weight : LedgerKey -> LedgerEntryData -> Z;
  header_weight : LedgerHeader -> Z;
  modulus : Z }.

Section Accounting.
Context `{Measure}.

Definition total (s : LedgerState) : Z :=
  msum weight (st_entries s) + header_weight (st_header s).
Notation "a ≡ᵐ b" := (eqm modulus a b) (at level 70).

(** The protocol version, which no operation changes. *)
Definition version (s : LedgerState) : Z := ledgerVersion (st_header s).

Definition same_total (s s' : LedgerState) : Prop :=
  coherent s -> coherent s' /\ version s' = version s /\ total s' ≡ᵐ total s.
#[export] Instance same_total_preorder : PreOrder same_total.
Proof.
  split; [by intros s|]. intros a b c Hab Hbc Ha. destruct (Hab Ha) as (Hb & V & E).
  destruct (Hbc Hb) as (Hc & V' & E'). split; [done|]. split; [congruence|].
  by rewrite E'.
Qed.

(** [s] is reached from [s0] with the total changed by [x]. *)
Definition moved (s0 s : LedgerState) (x : Z) : Prop :=
  coherent s /\ version s = version s0 /\ total s ≡ᵐ total s0 + x.

Lemma moved_refl s : coherent s -> moved s s 0.
Proof. intros. split; [done|]. split; [done|]. by rewrite Z.add_0_r. Qed.
Lemma moved_eqm s0 s x y : moved s0 s x -> x ≡ᵐ y -> moved s0 s y.
Proof. intros (? & ? & E) Exy. split; [done|]. split; [done|]. by rewrite E, Exy. Qed.
Lemma moved_trans s0 s1 s2 x y : moved s0 s1 x -> moved s1 s2 y -> moved s0 s2 (x + y).
Proof.
  intros (_ & V & E) (Hc & V' & E'). split; [done|]. split; [congruence|].
  rewrite E', E. by rewrite Z.add_assoc.
Qed.
Lemma moved_zero s0 s : moved s0 s 0 -> same_total s0 s.
Proof. intros (? & ? & E) _. split; [done|]. split; [done|]. by rewrite E, Z.add_0_r. Qed.
Lemma same_moved s0 s : coherent s0 -> same_total s0 s -> moved s0 s 0.
Proof. intros H0 H1. destruct (H1 H0) as (?&?&E). do 2 (split; [done|]). by rewrite Z.add_0_r. Qed.
Lemma moved_same s0 s1 s2 x : moved s0 s1 x -> same_total s1 s2 -> moved s0 s2 x.
Proof.
  intros H1 Hs. eapply moved_eqm; [eapply moved_trans; [done|]|].
  - apply same_moved; [apply H1|done].
  - by rewrite Z.add_0_r.
Qed.

(** ** Changes of one entry *)
Lemma moved_insert s k d :
  coherent s -> LedgerDataKey d = k ->
  moved s (set_entries (<[k := d]> (st_entries s)) s)
    (weight k d - at_key weight (st_entries s) k).
Proof.
  intros Hc Hk. split; [|split; [done|]].
  - intros j d'. cbn. destruct (decide (j = k)) as [->|Hj].
    + rewrite lookup_insert_eq. by intros [= <-].
    + rewrite lookup_insert_ne by done. apply Hc.
  - unfold total. cbn. rewrite msum_insert. apply eqm_eq. lia.
Qed.
Lemma moved_delete s k :
  coherent s ->
  moved s (set_entries (delete k (st_entries s)) s) (- at_key weight (st_entries s) k).
Proof.
  intros Hc. split; [|split; [done|]].
  - intros j d'. cbn. intros [_ Hj]%lookup_delete_Some. by apply Hc.
  - unfold total. cbn. rewrite msum_delete. apply eqm_eq. lia.
Qed.
Lemma moved_header s h :
  coherent s -> ledgerVersion h = version s ->
  moved s (mkState h (st_entries s)) (header_weight h - header_weight (st_header s)).
Proof. intros Hc Hv. do 2 (split; [done|]). unfold total. cbn. apply eqm_eq. lia. Qed.

(** A change with no weight. *)
Lemma moved_same_total s s' x : moved s s' x -> x ≡ᵐ 0 -> same_total s s'.
Proof. intros Hm Hx. apply moved_zero. by eapply moved_eqm. Qed.

Lemma same_total_insert s k d d0 :
  st_entries s !! k = Some d0 -> (LedgerDataKey d0 = k -> LedgerDataKey d = k) ->
  weight k d = weight k d0 ->
  same_total s (set_entries (<[k := d]> (st_entries s)) s).
Proof.
  intros Hd Hk Hw Hc. revert Hc. intros Hc. eapply moved_same_total; [|..|done].
  - apply moved_insert; [done|]. by apply Hk, Hc.
  - unfold at_key. rewrite Hd. cbn. rewrite Hw. apply eqm_eq. lia.
Qed.

(** ** Primitives that leave the total alone *)

(** A change of an entry that keeps its key and its weight. *)
Definition keeps_weight (k : LedgerKey)
    (f : LedgerHeader -> LedgerEntryData -> outcome (option LedgerEntryData)) : Prop :=
  forall h d d', f h d = Ok (Some d') ->
  LedgerDataKey d' = LedgerDataKey d /\ weight k d' = weight k d.

Lemma same_modify k f : keeps_weight k f -> keeps same_total (modify k f).
Proof.
  intros Hf s. apply wlp_modify. intros d Hd.
  destruct (f (st_header s) d) as [[d'|]|] eqn:E; [|reflexivity|done].
  apply Hf in E as [Hk Hw]. eapply same_total_insert; [done| |done].
  by rewrite Hk.
Qed.
Lemma same_erase k : (forall d, weight k d = 0) -> keeps same_total (eraseEntry k).
Proof.
  intros Hw s. apply wlp_erase. intros [d Hd] Hc.
  eapply moved_same_total; [by apply moved_delete| |done].
  unfold at_key. rewrite Hd. cbn. by rewrite Hw.
Qed.
Lemma same_create d : weight (LedgerDataKey d) d = 0 -> keeps same_total (createEntry d).
Proof.
  intros Hw s. apply wlp_create. intros Hn Hc.
  eapply moved_same_total; [by apply moved_insert| |done].
  unfold at_key. rewrite Hn. cbn. by rewrite Hw.
Qed.
Lemma same_header f :
  (forall h, ledgerVersion (f h) = ledgerVersion h /\ header_weight (f h) = header_weight h) ->
  keeps same_total (h ← currentHeader; setHeader (f h)).
Proof.
  intros Hf s. apply wlp_bind, wlp_currentHeader, wlp_setHeader. intros Hc.
  destruct (Hf (st_header s)) as [Hv Hw].
  eapply moved_same_total; [by apply moved_header| |done]. rewrite Hw. apply eqm_eq. lia.
Qed.

Lemma same_setCurrent k d :
  LedgerDataKey d = k -> (forall d', weight k d' = 0) -> keeps same_total (setCurrent k d).
Proof.
  intros Hk Hw s. apply wlp_setCurrent. intros Hc.
  eapply moved_same_total; [by apply moved_insert| |done].
  unfold at_key. rewrite Hw. destruct (st_entries s !! k); cbn; by rewrite ?Hw.
Qed.
Lemma same_update k f :
  keeps_weight k (fun _ d => Some <$> f d) -> keeps same_total (update k f).
Proof.
  intros Hf s. apply wlp_bind, wlp_current. intros d Hd.
  apply wlp_bind, wlp_lift. intros d' Hd'. apply wlp_setCurrent.
  destruct (Hf (st_header s) d d') as [Hk Hw]; [by rewrite Hd'|].
  eapply same_total_insert; [done| |done]. by rewrite Hk.
Qed.

(** Under a handle on an offer there is an offer's key. *)
Lemma same_currentOffer_bind {A} k (f : OfferEntry -> M A) :
  (forall o, k = KeyOffer (of_seller o) (of_offerID o) -> keeps same_total (f o)) ->
  keeps same_total (currentOffer k ≫= f).
Proof.
  intros Hf s. apply wlp_bind, wlp_bind, wlp_current. intros d Hd.
  apply wlp_lift. intros o Ho.
  destruct d; try done. injection Ho as ->. unfold wlp.
  destruct (f o s) as [[a s']|] eqn:E; [|done]. intros Hc.
  specialize (Hf o (eq_sym (Hc _ _ Hd)) s). unfold wlp in Hf. rewrite E in Hf. by apply Hf.
Qed.

(** ** Following a total *)
Lemma wlp_same {A} (m : M A) (Q : A -> LedgerState -> Prop) s0 s x :
  keeps same_total m -> moved s0 s x ->
  (forall a s', moved s0 s' x -> Q a s') -> wlp m Q s.
Proof.
  intros Hm Hs HQ. eapply (wlp_keeps same_total); [done|]. intros a s' H'.
  apply HQ. by eapply moved_same.
Qed.
Lemma wlp_same_bind {A B} (m : M A) (f : A -> M B) (Q : B -> LedgerState -> Prop) s0 s x :
  keeps same_total m -> moved s0 s x ->
  (forall a s', moved s0 s' x -> wlp (f a) Q s') -> wlp (m ≫= f) Q s.
Proof. intros. apply wlp_bind. by eapply wlp_same. Qed.

(** A computation with a known effect on the total. *)
Definition adds {A} (m : M A) (d : A -> Z) : Prop :=
  forall s, coherent s -> wlp m (fun a s' => moved s s' (d a)) s.

Lemma wlp_adds {A} (m : M A) d (Q : A -> LedgerState -> Prop) s0 s x :
  adds m d -> moved s0 s x ->
  (forall a s', moved s0 s' (x + d a) -> Q a s') -> wlp m Q s.
Proof.
  intros Hm Hs HQ. eapply wlp_mono; [apply Hm, Hs|]. intros a s' H'.
  apply HQ. by eapply moved_trans.
Qed.
Lemma wlp_adds_bind {A B} (m : M A) d (f : A -> M B) (Q : B -> LedgerState -> Prop) s0 s x :
  adds m d -> moved s0 s x ->
  (forall a s', moved s0 s' (x + d a) -> wlp (f a) Q s') -> wlp (m ≫= f) Q s.
Proof. intros. apply wlp_bind. by eapply wlp_adds. Qed.
Lemma adds_same {A} (m : M A) : keeps same_total m -> adds m (fun _ => 0).
Proof.
  intros Hm s Hc. eapply wlp_same; [done|by apply moved_refl|]. auto.
Qed.
Lemma same_adds {A} (m : M A) : adds m (fun _ => 0) -> keeps same_total m.
Proof.
  intros Hm s. unfold adds, wlp in *. destruct (m s) as [[a s']|] eqn:E; [|done].
  intros Hc. specialize (Hm s Hc). rewrite E in Hm. by apply moved_zero in Hm; apply Hm.
Qed.
Lemma adds_modify k f x :
  (forall h d d', f h d = Ok (Some d') -> LedgerDataKey d = k ->
     LedgerDataKey d' = LedgerDataKey d /\ weight k d' ≡ᵐ weight k d + x) ->
  adds (modify k f) (fun b : bool => if b then x else 0).
Proof.
  intros Hf s Hc. apply wlp_modify. intros d Hd.
  destruct (f (st_header s) d) as [[d'|]|] eqn:E; [|by apply moved_refl|done].
  apply Hf in E as [Hk Hw]; [|by apply Hc].
  eapply moved_eqm; [apply moved_insert; [done|]; rewrite Hk; by apply Hc|].
  unfold at_key. rewrite Hd. cbn. rewrite Hw. apply eqm_eq. lia.
Qed.
Lemma adds_create d : adds (createEntry d) (fun _ => weight (LedgerDataKey d) d).
Proof.
  intros s Hc. apply wlp_create. intros Hn.
  eapply moved_eqm; [by apply moved_insert|]. unfold at_key. rewrite Hn. cbn.
  by rewrite Z.sub_0_r.
Qed.
Lemma wlp_erase_moved k d (Q : unit -> LedgerState -> Prop) s0 s x :
  moved s0 s x -> st_entries s !! k = Some d ->
  (forall s', moved s0 s' (x - weight k d) -> Q tt s') -> wlp (eraseEntry k) Q s.
Proof.
  intros Hm Hk HQ. apply wlp_erase. intros _. apply HQ.
  eapply moved_eqm; [eapply moved_trans; [done|by apply moved_delete, Hm]|].
  unfold at_key. rewrite Hk. cbn. apply eqm_eq. lia.
Qed.
Lemma adds_setHeader f x :
  (forall h, ledgerVersion (f h) = ledgerVersion h /\
     header_weight (f h) ≡ᵐ header_weight h + x) ->
  adds (h ← currentHeader; setHeader (f h)) (fun _ => x).
Proof.
  intros Hf s Hc. apply wlp_bind, wlp_currentHeader, wlp_setHeader.
  destruct (Hf (st_header s)) as [Hv Hw].
  eapply moved_eqm; [by apply moved_header|]. rewrite Hw. apply eqm_eq. lia.
Qed.

(** A nested transaction counts when it commits. *)
Lemma adds_nested {A} (m : M (bool * A)) (d : A -> Z) :
  (forall s, coherent s ->
     wlp m (fun r s' => if r.1 then moved s s' (d r.2) else d r.2 ≡ᵐ 0) s) ->
  adds (nested m) d.
Proof.
  intros Hm s Hc. apply wlp_nested. eapply wlp_mono; [by apply Hm|].
  intros [[] a] s' H'; cbn in *; [done|].
  eapply moved_eqm; [by apply moved_refl|done].
Qed.
End Accounting.

Notation "a ≡ᵐ b" := (eqm modulus a b) (at level 70).


(** ** What the functions on an entry change *)
Lemma set_balance_id a : set_balance (acc_balance a) a = a.
Proof. by destruct a. Qed.
Lemma set_tl_balance_id t : set_tl_balance (tl_balance t) t = t.
Proof. by destruct t. Qed.

(** Peels [H : m = Ok d'], case by case. *)
Ltac entry_cases H :=
  repeat match type of H with
  | Throw _ = _ => discriminate H
  | Ok None = _ => discriminate H
  | Ok _ = Ok _ => injection H as H
  | (if ?b then _ else _) = _ => destruct b; cbn in H
  | (?m ≫= _) = _ => destruct m; cbn in H
  end.

Lemma Numeric_addBalance_eqm b x m b' :
  Numeric.addBalance b x m = Ok (Some b') -> eqm 18446744073709551616 b' (b + x).
Proof.
  unfold Numeric.addBalance, cassert. intros H.
  destruct (Z.eqb_spec x 0); entry_cases H; subst; [apply eqm_eq; lia|apply eqm_s64].
Qed.

(** A new balance, or a trust line with a new balance. *)
Inductive balance_change (x : Z) : LedgerEntryData -> LedgerEntryData -> Prop :=
  | bc_account a b :
      eqm 18446744073709551616 b (acc_balance a + x) ->
      balance_change x (ACCOUNT a) (ACCOUNT (set_balance b a))
  | bc_trustLine t b :
      eqm 18446744073709551616 b (tl_balance t + x) ->
      balance_change x (TRUSTLINE t) (TRUSTLINE (set_tl_balance b t)).

Lemma addBalance_change h d x d' :
  addBalance h d x = Ok (Some d') -> balance_change x d d'.
Proof.
  destruct d as [a|t| |]; cbn; try done.
  - destruct (Z.eqb_spec x 0) as [->|_].
    { intros [= <-]. rewrite <- (set_balance_id a) at 2. constructor. apply eqm_eq. lia. }
    destruct (Numeric.addBalance _ _ _) as [[b|]|] eqn:E; cbn; try done.
    apply Numeric_addBalance_eqm in E. intros H. entry_cases H; subst; by constructor.
  - destruct (Z.eqb_spec x 0) as [->|_].
    { intros [= <-]. rewrite <- (set_tl_balance_id t) at 2. constructor. apply eqm_eq. lia. }
    destruct (negb _); cbn; [done|].
    destruct (Numeric.addBalance _ _ _) as [[b|]|] eqn:E; cbn; try done.
    apply Numeric_addBalance_eqm in E. intros H. entry_cases H; subst; by constructor.
Qed.

(** New liabilities only. *)
Inductive liabilities_change : LedgerEntryData -> LedgerEntryData -> Prop :=
  | lc_same d : liabilities_change d d
  | lc_account a x : liabilities_change (ACCOUNT a) (ACCOUNT (set_ext x a))
  | lc_trustLine t x : liabilities_change (TRUSTLINE t) (TRUSTLINE (set_tl_ext x t)).

Lemma addBuyingLiabilities_change h d x d' :
  addBuyingLiabilities h d x = Ok (Some d') -> liabilities_change d d'.
Proof.
  unfold addBuyingLiabilities. destruct (getBuyingLiabilities h d); cbn; [|done].
  destruct (x =? 0); [intros [= ->]; constructor|].
  destruct d as [a0|t| |]; cbn; try done.
  - destruct (Numeric.addBalance _ _ _) as [[b|]|]; cbn; try done.
    intros [= <-]. constructor.
  - destruct (negb _); cbn; [done|].
    destruct (Numeric.addBalance _ _ _) as [[b|]|]; cbn; try done.
    intros [= <-]. constructor.
Qed.
Lemma addSellingLiabilities_change h d x d' :
  addSellingLiabilities h d x = Ok (Some d') -> liabilities_change d d'.
Proof.
  unfold addSellingLiabilities. destruct (getSellingLiabilities h d); cbn; [|done].
  destruct (x =? 0); [intros [= ->]; constructor|].
  destruct d as [a0|t| |]; cbn; try done.
  - destruct (_ <? 0); [done|].
    destruct (Numeric.addBalance _ _ _) as [[b|]|]; cbn; try done.
    intros [= <-]. constructor.
  - destruct (negb _); cbn; [done|].
    destruct (Numeric.addBalance _ _ _) as [[b|]|]; cbn; try done.
    intros [= <-]. constructor.
Qed.

Lemma addNumEntries_change h d x d' :
  addNumEntries h d x = Ok (Some d') ->
  exists a, d = ACCOUNT a /\
    d' = ACCOUNT (set_numSubEntries (u32 (s32 (u32 (acc_numSubEntries a + x)))) a).
Proof.
  unfold addNumEntries. destruct d as [a| | |]; cbn; try done.
  destruct (_ <? 0); [done|]. intros H. exists a. split; [done|].
  destruct (10 <=? _); cbn in H.
  - destruct (getSellingLiabilities _ _); cbn in H; [|done].
    destruct (_ && _); [done|]. by injection H as <-.
  - destruct (_ && _); [done|]. by injection H as <-.
Qed.
