(* ===== verification/Operations.v ===== *)
(** The operations that do not trade: the [doCheckValid] and [doApply] of
    CreateAccount, AccountMerge, BumpSequence, ManageData, SetOptions,
    ChangeTrust, AllowTrust and Inflation
    ([src/src/transactions/*OpFrame.cpp]).

    [src] is [getSourceID()].  [doApply] returns its [bool] with the inner
    result; a result that is [false] makes the transaction roll everything
    back.  [loadSourceAccount] is the one of protocol versions from 8 on: the
    account cache of earlier versions, which shares entries with the ledger
    transaction that loaded them, is not modelled. *)

From stdpp Require Import sorting.
From S2P Require Import Prelude Numeric OfferMath Types StrKey OfferOrder LedgerTxn.
From S2P Require Import LedgerTxnOffers InflationWinners LedgerState TransactionUtils OfferExchange.

Definition loadSourceAccount (src : AccountID) : M bool := loadAccount src.

(** [*account] of a handle, read and assigned. *)
Definition currentAccount (k : LedgerKey) : M AccountEntry :=
  d ← current k; lift (account_of d).
Definition updateAccount (k : LedgerKey) (f : AccountEntry -> AccountEntry) : M unit :=
  update k (fun d => a ← account_of d; Ok (ACCOUNT (f a))).

Definition assertM (what : string) (b : bool) : M unit := lift (cassert what b).

Inductive ThresholdLevel := LOW | MEDIUM | HIGH.

(** * CreateAccount *)
Record CreateAccountOp := mkCreateAccount {
  ca_destination : AccountID;
  ca_startingBalance : Z }.
Inductive CreateAccountResultCode :=
  | CREATE_ACCOUNT_SUCCESS | CREATE_ACCOUNT_MALFORMED
  | CREATE_ACCOUNT_UNDERFUNDED | CREATE_ACCOUNT_LOW_RESERVE
  | CREATE_ACCOUNT_ALREADY_EXIST.

Definition CreateAccount_doCheckValid (src : AccountID) (op : CreateAccountOp)
    : bool * CreateAccountResultCode :=
  if ca_startingBalance op <=? 0 then (false, CREATE_ACCOUNT_MALFORMED)
  else if ca_destination op =? src then (false, CREATE_ACCOUNT_MALFORMED)
  else (true, CREATE_ACCOUNT_SUCCESS).

Definition newAccountEntry (id balance seqNum : Z) : AccountEntry :=
  mkAccount id balance seqNum "" 0 None 0 "" (mkThresholds 1 0 0 0) [] None.

Definition CreateAccount_doApply (src : AccountID) (op : CreateAccountOp)
    : M (bool * CreateAccountResultCode) :=
  exists_ ← loadAccount (ca_destination op);
  if negb exists_ then
    header ← currentHeader;
    if ca_startingBalance op <? getMinBalance header 0
    then mret (false, CREATE_ACCOUNT_LOW_RESERVE)
    else
      doesAccountExist ←
        (if ledgerVersion header <? 8 then loadAccountWithoutRecord src
         else mret true);
      _ ← loadSourceAccount src;
      avail ← read (KeyAccount src) getAvailableBalance;
      if avail <? ca_startingBalance op
      then mret (false, CREATE_ACCOUNT_UNDERFUNDED)
      else if negb doesAccountExist
      then throw "modifying account that does not exist"
      else
        ok ← modify (KeyAccount src)
               (fun h e => addBalance h e (s64 (- ca_startingBalance op)));
        _ ← assertM "ok" ok;
        _ ← createEntry (ACCOUNT (newAccountEntry (ca_destination op)
              (ca_startingBalance op) (s64 (getStartingSequenceNumber header))));
        mret (true, CREATE_ACCOUNT_SUCCESS)
  else mret (false, CREATE_ACCOUNT_ALREADY_EXIST).

(** * AccountMerge *)
Inductive AccountMergeResult :=
  | ACCOUNT_MERGE_SUCCESS (sourceAccountBalance : Z) | ACCOUNT_MERGE_MALFORMED
  | ACCOUNT_MERGE_NO_ACCOUNT | ACCOUNT_MERGE_IMMUTABLE_SET
  | ACCOUNT_MERGE_HAS_SUB_ENTRIES | ACCOUNT_MERGE_SEQNUM_TOO_FAR
  | ACCOUNT_MERGE_DEST_FULL.

Definition Merge_doCheckValid (src destination : AccountID) : bool * AccountMergeResult :=
  if src =? destination then (false, ACCOUNT_MERGE_MALFORMED)
  else (true, ACCOUNT_MERGE_SUCCESS 0).

Definition Merge_doApply (src destination : AccountID) : M (bool * AccountMergeResult) :=
  header ← currentHeader;
  otherAccount ← loadAccount destination;
  if negb otherAccount then mret (false, ACCOUNT_MERGE_NO_ACCOUNT)
  else
  (* [None]: the early return; otherwise [sourceBalance] so far *)
  early ←
    (if (4 <? ledgerVersion header) && (ledgerVersion header <? 8) then
       thisAccount ← exists_entry (KeyAccount src);
       if negb thisAccount then mret None
       else if 5 <? ledgerVersion header then
         a ← currentAccount (KeyAccount src); mret (Some (acc_balance a))
       else mret (Some 0)
     else mret (Some 0));
  match early with
  | None => mret (false, ACCOUNT_MERGE_NO_ACCOUNT)
  | Some sourceBalance =>
      _ ← loadSourceAccount src;
      sourceAccount ← currentAccount (KeyAccount src);
      let sourceBalance :=
        if (ledgerVersion header <=? 5) || (8 <=? ledgerVersion header)
        then acc_balance sourceAccount else sourceBalance in
      immutable ← read (KeyAccount src) (fun _ d => isImmutableAuth d);
      if immutable : bool then mret (false, ACCOUNT_MERGE_IMMUTABLE_SET)
      else if negb (acc_numSubEntries sourceAccount
                    =? Z.of_nat (length (acc_signers sourceAccount)))
      then mret (false, ACCOUNT_MERGE_HAS_SUB_ENTRIES)
      else if (10 <=? ledgerVersion header)
              && (s64 (getStartingSequenceNumber header)
                  <=? acc_seqNum sourceAccount)
      then mret (false, ACCOUNT_MERGE_SEQNUM_TOO_FAR)
      else
        ok ← modify (KeyAccount destination)
               (fun h e => addBalance h e sourceBalance);
        if negb ok then mret (false, ACCOUNT_MERGE_DEST_FULL)
        else
          _ ← eraseEntry (KeyAccount src);
          mret (true, ACCOUNT_MERGE_SUCCESS sourceBalance)
  end.

(** * BumpSequence *)
Inductive BumpSequenceResultCode := BUMP_SEQUENCE_SUCCESS | BUMP_SEQUENCE_BAD_SEQ.

Definition BumpSequence_doCheckValid (bumpTo : Z) : bool * BumpSequenceResultCode :=
  if bumpTo <? 0 then (false, BUMP_SEQUENCE_BAD_SEQ) else (true, BUMP_SEQUENCE_SUCCESS).
Definition BumpSequence_isVersionSupported (protocolVersion : Z) : bool :=
  10 <=? protocolVersion.

Definition BumpSequence_doApply (src : AccountID) (bumpTo : Z)
    : M (bool * BumpSequenceResultCode) :=
  nested
    (_ ← loadSourceAccount src;
     sourceAccount ← currentAccount (KeyAccount src);
     if acc_seqNum sourceAccount <? bumpTo then
       _ ← updateAccount (KeyAccount src) (set_seqNum bumpTo);
       mret (true, (true, BUMP_SEQUENCE_SUCCESS))
     else mret (false, (true, BUMP_SEQUENCE_SUCCESS))).

(** * ManageData *)
Record ManageDataOp := mkManageData {
  md_dataName : string;
  md_dataValue : option (list Z) }.
Inductive ManageDataResultCode :=
  | MANAGE_DATA_SUCCESS | MANAGE_DATA_NOT_SUPPORTED_YET
  | MANAGE_DATA_NAME_NOT_FOUND | MANAGE_DATA_LOW_RESERVE | MANAGE_DATA_INVALID_NAME.

Definition ManageData_doCheckValid (op : ManageDataOp) (ledgerVersion : Z)
    : bool * ManageDataResultCode :=
  if ledgerVersion <? 2 then (false, MANAGE_DATA_NOT_SUPPORTED_YET)
  else if (Nat.ltb (String.length (md_dataName op)) 1)
          || negb (isString32Valid (md_dataName op))
  then (false, MANAGE_DATA_INVALID_NAME)
  else (true, MANAGE_DATA_SUCCESS).

Definition ManageData_doApply (src : AccountID) (op : ManageDataOp)
    : M (bool * ManageDataResultCode) :=
  header ← currentHeader;
  if ledgerVersion header =? 3
  then throw "MANAGE_DATA not supported on ledger version 3"
  else
  data ← loadData src (md_dataName op);
  match md_dataValue op with
  | Some value =>
      if negb data then
        _ ← loadSourceAccount src;
        ok ← modify (KeyAccount src) (fun h e => addNumEntries h e 1);
        if negb ok then mret (false, MANAGE_DATA_LOW_RESERVE)
        else
          _ ← createEntry (DATA (mkData src (md_dataName op) value));
          mret (true, MANAGE_DATA_SUCCESS)
      else
        _ ← setCurrent (KeyData src (md_dataName op))
              (DATA (mkData src (md_dataName op) value));
        mret (true, MANAGE_DATA_SUCCESS)
  | None =>
      if negb data then mret (false, MANAGE_DATA_NAME_NOT_FOUND)
      else
        _ ← eraseEntry (KeyData src (md_dataName op));
        _ ← loadSourceAccount src;
        _ ← modify (KeyAccount src) (fun h e => addNumEntries h e (-1));
        mret (true, MANAGE_DATA_SUCCESS)
  end.

(** * ChangeTrust *)
Record ChangeTrustOp := mkChangeTrust { ct_line : Asset; ct_limit : Z }.
Inductive ChangeTrustResultCode :=
  | CHANGE_TRUST_SUCCESS | CHANGE_TRUST_MALFORMED | CHANGE_TRUST_NO_ISSUER
  | CHANGE_TRUST_INVALID_LIMIT | CHANGE_TRUST_LOW_RESERVE
  | CHANGE_TRUST_SELF_NOT_ALLOWED.

Definition ChangeTrust_doCheckValid (op : ChangeTrustOp) (ledgerVersion : Z)
    : bool * ChangeTrustResultCode :=
  if ct_limit op <? 0 then (false, CHANGE_TRUST_MALFORMED)
  else if negb (isAssetValid (ct_line op)) then (false, CHANGE_TRUST_MALFORMED)
  else if (9 <? ledgerVersion) && is_native (ct_line op)
  then (false, CHANGE_TRUST_MALFORMED)
  else (true, CHANGE_TRUST_SUCCESS).

Definition ChangeTrust_doApply (src : AccountID) (op : ChangeTrustOp)
    : M (bool * ChangeTrustResultCode) :=
  header ← currentHeader;
  issuerID ← lift (getIssuer (ct_line op));
  if (2 <? ledgerVersion header) && (issuerID =? src)
  then mret (false, CHANGE_TRUST_SELF_NOT_ALLOWED)
  else if issuerID =? src then
    if ct_limit op <? INT64_MAX then mret (false, CHANGE_TRUST_INVALID_LIMIT)
    else
      issuer ← loadAccountWithoutRecord issuerID;
      if negb issuer then mret (false, CHANGE_TRUST_NO_ISSUER)
      else mret (true, CHANGE_TRUST_SUCCESS)
  else
  let key := KeyTrustLine src (ct_line op) in
  trustLine ← exists_entry key;
  if trustLine : bool then
    minLimit ← read key getMinimumLimit;
    if ct_limit op <? minLimit then mret (false, CHANGE_TRUST_INVALID_LIMIT)
    else if ct_limit op =? 0 then
      _ ← eraseEntry key;
      _ ← loadSourceAccount src;
      _ ← modify (KeyAccount src) (fun h e => addNumEntries h e (-1));
      mret (true, CHANGE_TRUST_SUCCESS)
    else
      issuer ← loadAccountWithoutRecord issuerID;
      if negb issuer then mret (false, CHANGE_TRUST_NO_ISSUER)
      else
        _ ← update key (fun d =>
              tl ← trustLine_of d; Ok (TRUSTLINE (set_tl_limit (ct_limit op) tl)));
        mret (true, CHANGE_TRUST_SUCCESS)
  else if ct_limit op =? 0 then mret (false, CHANGE_TRUST_INVALID_LIMIT)
  else
    issuer ← loadAccountWithoutRecord issuerID;
    if negb issuer then mret (false, CHANGE_TRUST_NO_ISSUER)
    else
      _ ← loadSourceAccount src;
      ok ← modify (KeyAccount src) (fun h e => addNumEntries h e 1);
      if negb ok then mret (false, CHANGE_TRUST_LOW_RESERVE)
      else
        required ← read (KeyAccount issuerID) (fun _ d => isAuthRequired d);
        let flags := if required : bool then 0 else AUTHORIZED_FLAG in
        _ ← createEntry (TRUSTLINE
              (mkTrustLine src (ct_line op) 0 (ct_limit op) flags None));
        mret (true, CHANGE_TRUST_SUCCESS).

(** * AllowTrust *)

(** The asset union of the operation has no issuer: [at_asset] is the asset
    [ci] with the source as its issuer; the native case is its own. *)
Inductive AllowTrustAsset :=
  | AT_NATIVE | AT_CODE4 (assetCode4 : list Z) | AT_CODE12 (assetCode12 : list Z).
Record AllowTrustOp := mkAllowTrust {
  at_trustor : AccountID;
  at_asset : AllowTrustAsset;
  at_authorize : bool }.
Inductive AllowTrustResultCode :=
  | ALLOW_TRUST_SUCCESS | ALLOW_TRUST_MALFORMED | ALLOW_TRUST_NO_TRUST_LINE
  | ALLOW_TRUST_TRUST_NOT_REQUIRED | ALLOW_TRUST_CANT_REVOKE
  | ALLOW_TRUST_SELF_NOT_ALLOWED.

Definition allowTrustAsset (src : AccountID) (a : AllowTrustAsset) : Asset :=
  match a with
  | AT_NATIVE => ASSET_NATIVE
  | AT_CODE4 c => ALPHANUM4 c src
  | AT_CODE12 c => ALPHANUM12 c src
  end.

Definition AllowTrust_doCheckValid (src : AccountID) (op : AllowTrustOp)
    : bool * AllowTrustResultCode :=
  match at_asset op with
  | AT_NATIVE => (false, ALLOW_TRUST_MALFORMED)
  | a =>
      if negb (isAssetValid (allowTrustAsset src a)) then (false, ALLOW_TRUST_MALFORMED)
      else (true, ALLOW_TRUST_SUCCESS)
  end.

(** [loadOffersByAccountAndAsset] on the flat state: the keys of the account's
    offers that buy or sell the asset. *)
Definition offersByAccountAndAsset (account : AccountID) (asset : Asset)
    : M (list LedgerKey) := fun s =>
  Ok (omap (fun kv : LedgerKey * LedgerEntryData =>
              match kv.2 with
              | OFFER o =>
                  if (of_seller o =? account)
                     && (bool_decide (of_buying o = asset)
                         || bool_decide (of_selling o = asset))
                  then Some kv.1 else None
              | _ => None
              end) (map_to_list (st_entries s)), s).

(** The [for (auto& offer : offers)] loop. *)
Fixpoint removeOffers (trustor : AccountID) (ci : Asset) (offers : list LedgerKey)
    : M unit :=
  match offers with
  | [] => mret tt
  | k :: rest =>
      oe ← currentOffer k;
      if negb (of_seller oe =? trustor)
      then throw "Offer not owned by expected account"
      else if negb (bool_decide (of_buying oe = ci) || bool_decide (of_selling oe = ci))
      then throw "Offer not buying or selling expected asset"
      else
        _ ← releaseLiabilities k;
        _ ← loadAccount trustor;
        _ ← modify (KeyAccount trustor) (fun h e => addNumEntries h e (-1));
        _ ← eraseEntry k;
        removeOffers trustor ci rest
  end.

Definition AllowTrust_doApply (src : AccountID) (op : AllowTrustOp)
    : M (bool * AllowTrustResultCode) :=
  header ← currentHeader;
  if (2 <? ledgerVersion header) && (at_trustor op =? src)
  then mret (false, ALLOW_TRUST_SELF_NOT_ALLOWED)
  else
  refused ←
    nested
      (_ ← loadSourceAccount src;
       sourceAccount ← currentAccount (KeyAccount src);
       mret (false,
         if Z.land (acc_flags sourceAccount) AUTH_REQUIRED_FLAG =? 0
         then Some ALLOW_TRUST_TRUST_NOT_REQUIRED
         else if (Z.land (acc_flags sourceAccount) AUTH_REVOCABLE_FLAG =? 0)
                 && negb (at_authorize op)
         then Some ALLOW_TRUST_CANT_REVOKE
         else None));
  match refused with
  | Some code => mret (false, code)
  | None =>
  if at_trustor op =? src then mret (true, ALLOW_TRUST_SUCCESS)
  else
  let ci := allowTrustAsset src (at_asset op) in
  let key := KeyTrustLine (at_trustor op) ci in
  trust ← exists_entry key;
  if negb trust then mret (false, ALLOW_TRUST_NO_TRUST_LINE)
  else
  authorized ← read key (fun _ d => isAuthorized d);
  let didRevokeAuth := authorized && negb (at_authorize op) in
  _ ← (if (10 <=? ledgerVersion header) && didRevokeAuth then
         offers ← offersByAccountAndAsset (at_trustor op) ci;
         removeOffers (at_trustor op) ci offers
       else mret tt);
  _ ← update key (fun d => setAuthorized d (at_authorize op));
  mret (true, ALLOW_TRUST_SUCCESS)
  end.

(** * SetOptions *)
Record SetOptionsOp := mkSetOptions {
  so_inflationDest : option AccountID;
  so_clearFlags : option Z;
  so_setFlags : option Z;
  so_masterWeight : option Z;
  so_lowThreshold : option Z;
  so_medThreshold : option Z;
  so_highThreshold : option Z;
  so_homeDomain : option string;
  so_signer : option Signer }.
Inductive SetOptionsResultCode :=
  | SET_OPTIONS_SUCCESS | SET_OPTIONS_LOW_RESERVE | SET_OPTIONS_TOO_MANY_SIGNERS
  | SET_OPTIONS_BAD_FLAGS | SET_OPTIONS_INVALID_INFLATION
  | SET_OPTIONS_CANT_CHANGE | SET_OPTIONS_UNKNOWN_FLAG
  | SET_OPTIONS_THRESHOLD_OUT_OF_RANGE | SET_OPTIONS_BAD_SIGNER
  | SET_OPTIONS_INVALID_HOME_DOMAIN.

Definition allAccountFlags : Z :=
  Z.lor (Z.lor AUTH_REQUIRED_FLAG AUTH_REVOCABLE_FLAG) AUTH_IMMUTABLE_FLAG.
Definition allAccountAuthFlags : Z :=
  Z.lor (Z.lor AUTH_REQUIRED_FLAG AUTH_REVOCABLE_FLAG) AUTH_IMMUTABLE_FLAG.
Definition UINT8_MAX : Z := 255.
(** [signers.max_size()]: [Signer signers<20>] in the XDR. *)
Definition MAX_SIGNERS : nat := 20.

Definition is_some {A} (o : option A) : bool :=
  match o with Some _ => true | None => false end.

Definition SetOptions_getThresholdLevel (op : SetOptionsOp) : ThresholdLevel :=
  if is_some (so_masterWeight op) || is_some (so_lowThreshold op)
     || is_some (so_medThreshold op) || is_some (so_highThreshold op)
     || is_some (so_signer op)
  then HIGH else MEDIUM.

Definition set_masterWeight (w : Z) (t : Thresholds) : Thresholds :=
  mkThresholds w (thLow t) (thMed t) (thHigh t).
Definition set_thLow (w : Z) (t : Thresholds) : Thresholds :=
  mkThresholds (masterWeight t) w (thMed t) (thHigh t).
Definition set_thMed (w : Z) (t : Thresholds) : Thresholds :=
  mkThresholds (masterWeight t) (thLow t) w (thHigh t).
Definition set_thHigh (w : Z) (t : Thresholds) : Thresholds :=
  mkThresholds (masterWeight t) (thLow t) (thMed t) w.

(** [if (threshold) account.thresholds[i] = *threshold & UINT8_MAX] *)
Definition updateThreshold (threshold : option Z)
    (set : Z -> Thresholds -> Thresholds) (k : LedgerKey) : M unit :=
  match threshold with
  | Some w =>
      updateAccount k (fun a =>
        set_thresholds (set (Z.land w UINT8_MAX) (acc_thresholds a)) a)
  | None => mret tt
  end.

(** Changing the weight of the signers that have the key. *)
Definition changeSigner (signer : Signer) (signers : list Signer) : list Signer :=
  (fun old => if bool_decide (signer_key old = signer_key signer)
              then mkSigner (signer_key old) (signer_weight signer) else old)
  <$> signers.
Definition hasSigner (signer : Signer) (signers : list Signer) : bool :=
  existsb (fun old => bool_decide (signer_key old = signer_key signer)) signers.

(** The loop that deletes a signer: [done] are the signers before [it]. *)
Fixpoint deleteSigners (k : LedgerKey) (key : SignerKey)
    (done_ rest : list Signer) : M unit :=
  match rest with
  | [] => mret tt
  | old :: rest =>
      if bool_decide (signer_key old = key) then
        _ ← updateAccount k (set_signers (done_ ++ rest));
        _ ← modify k (fun h e => addNumEntries h e (-1));
        deleteSigners k key done_ rest
      else deleteSigners k key (done_ ++ [old]) rest
  end.

(** The part that changes the signers; [Some] is the code of a
    [return false]. *)
Definition updateSigner (k : LedgerKey) (signer : Signer)
    : M (option SetOptionsResultCode) :=
  a ← currentAccount k;
  code ←
    (if negb (signer_weight signer =? 0) then
       if hasSigner signer (acc_signers a) then
         _ ← updateAccount k (fun a => set_signers (changeSigner signer (acc_signers a)) a);
         mret None
       else if Nat.eqb (length (acc_signers a)) MAX_SIGNERS
       then mret (Some SET_OPTIONS_TOO_MANY_SIGNERS)
       else
         ok ← modify k (fun h e => addNumEntries h e 1);
         if negb ok then mret (Some SET_OPTIONS_LOW_RESERVE)
         else
           _ ← updateAccount k (fun a => set_signers (acc_signers a ++ [signer]) a);
           mret None
     else
       _ ← deleteSigners k (signer_key signer) [] (acc_signers a);
       mret None);
  match code with
  | Some c => mret (Some c)
  | None =>
      _ ← update k normalizeSigners;
      mret None
  end.

(** Clearing or setting flags, unless the account is immutable. *)
Definition updateFlags (k : LedgerKey) (flags : option Z)
    (f : Z -> Z -> Z) : M (option SetOptionsResultCode) :=
  match flags with
  | None => mret None
  | Some fl =>
      immutable ← read k (fun _ d => isImmutableAuth d);
      if negb (Z.land fl allAccountAuthFlags =? 0) && immutable
      then mret (Some SET_OPTIONS_CANT_CHANGE)
      else
        _ ← updateAccount k (fun a => set_flags (f (acc_flags a) fl) a);
        mret None
  end.

Definition updateInflationDest (src : AccountID) (inflationDest : option AccountID)
    : M (option SetOptionsResultCode) :=
  match inflationDest with
  | None => mret None
  | Some inflationID =>
      found ← (if negb (inflationID =? src)
               then loadAccountWithoutRecord inflationID else mret true);
      if negb found then mret (Some SET_OPTIONS_INVALID_INFLATION)
      else
        _ ← updateAccount (KeyAccount src) (set_inflationDest (Some inflationID));
        mret None
  end.

(** [m], and the rest unless [m] was a [return false]. *)
Definition orFail (m : M (option SetOptionsResultCode))
    (rest : M (bool * SetOptionsResultCode)) : M (bool * SetOptionsResultCode) :=
  code ← m;
  match code with Some c => mret (false, c) | None => rest end.

Definition SetOptions_doApply (src : AccountID) (op : SetOptionsOp)
    : M (bool * SetOptionsResultCode) :=
  let k := KeyAccount src in
  _ ← loadSourceAccount src;
  orFail (updateInflationDest src (so_inflationDest op))
  (orFail (updateFlags k (so_clearFlags op) (fun old fl => Z.land old (u32 (Z.lnot fl))))
  (orFail (updateFlags k (so_setFlags op) Z.lor)
  (_ ← match so_homeDomain op with
       | Some d => updateAccount k (set_homeDomain d)
       | None => mret tt
       end;
   _ ← updateThreshold (so_masterWeight op) set_masterWeight k;
   _ ← updateThreshold (so_lowThreshold op) set_thLow k;
   _ ← updateThreshold (so_medThreshold op) set_thMed k;
   _ ← updateThreshold (so_highThreshold op) set_thHigh k;
   orFail (match so_signer op with
           | Some signer => updateSigner k signer
           | None => mret None
           end)
   (mret (true, SET_OPTIONS_SUCCESS))))).

Definition over_uint8 (threshold : option Z) : bool :=
  match threshold with Some w => UINT8_MAX <? w | None => false end.
Definition unknown_flags (flags : option Z) : bool :=
  match flags with
  | Some fl => negb (Z.land fl (u32 (Z.lnot allAccountFlags)) =? 0)
  | None => false
  end.

Definition SetOptions_doCheckValid (src : AccountID) (op : SetOptionsOp)
    (ledgerVersion : Z) : bool * SetOptionsResultCode :=
  if unknown_flags (so_setFlags op) || unknown_flags (so_clearFlags op)
  then (false, SET_OPTIONS_UNKNOWN_FLAG)
  else if match so_setFlags op, so_clearFlags op with
          | Some s, Some c => negb (Z.land s c =? 0)
          | _, _ => false
          end
  then (false, SET_OPTIONS_BAD_FLAGS)
  else if over_uint8 (so_masterWeight op) || over_uint8 (so_lowThreshold op)
          || over_uint8 (so_medThreshold op) || over_uint8 (so_highThreshold op)
  then (false, SET_OPTIONS_THRESHOLD_OUT_OF_RANGE)
  else
  let badSigner :=
    match so_signer op with
    | None => false
    | Some signer =>
        let isSelf := bool_decide (signer_key signer = SIGNER_KEY_ED25519 src) in
        let isPublicKey := match signer_key signer with
                           | SIGNER_KEY_ED25519 _ => true | _ => false end in
        isSelf || (negb isPublicKey && (ledgerVersion <? 3))
        || ((UINT8_MAX <? signer_weight signer) && (9 <? ledgerVersion))
    end in
  if badSigner then (false, SET_OPTIONS_BAD_SIGNER)
  else
  match so_homeDomain op with
  | Some d =>
      if negb (isString32Valid d) then (false, SET_OPTIONS_INVALID_HOME_DOMAIN)
      else (true, SET_OPTIONS_SUCCESS)
  | None => (true, SET_OPTIONS_SUCCESS)
  end.

(** * Inflation *)
Definition INFLATION_FREQUENCY : Z := 60 * 60 * 24 * 7.
Definition INFLATION_RATE_TRILLIONTHS : Z := 190721000.
Definition TRILLION : Z := 1000000000000.
Definition INFLATION_WIN_MIN_PERCENT : Z := 500000000.
Definition INFLATION_NUM_WINNERS : nat := 2000.
Definition INFLATION_START_TIME : Z := 1404172800.

Inductive InflationResult :=
  | INFLATION_SUCCESS (payouts : list (AccountID * Z)) | INFLATION_NOT_TIME.

(** [ltx.queryInflationWinners] on the flat state. *)
Definition inflationWinners (maxWinners : nat) (minVotes : Z)
    : M (list InflationWinner) := fun s =>
  Ok (flatWinners (mkEntry 0 <$> st_entries s) maxWinners minVotes, s).

Definition updateHeader (f : LedgerHeader -> LedgerHeader) : M unit :=
  h ← currentHeader; setHeader (f h).

(** One round of the loop over the winners: [None] is [continue], otherwise
    the amount paid. *)
Definition dole (amountToDole totalVotes : Z) (w : InflationWinner) : M (option Z) :=
  toDoleThisWinner ← lift (bigDivide amountToDole (w_votes w) totalVotes ROUND_DOWN);
  if toDoleThisWinner =? 0 then mret None
  else
  lh ← currentHeader;
  toDoleThisWinner ←
    (if 10 <=? ledgerVersion lh then
       winner ← loadAccountWithoutRecord (w_accountID w);
       if winner : bool then
         max ← read (KeyAccount (w_accountID w)) getMaxAmountReceive;
         mret (Z.min max toDoleThisWinner)
       else mret toDoleThisWinner
     else mret toDoleThisWinner);
  if (10 <=? ledgerVersion lh) && (toDoleThisWinner =? 0) then mret None
  else
  winner ← loadAccount (w_accountID w);
  if negb winner then mret None
  else
    _ ← (if ledgerVersion lh <=? 7
         then updateHeader (fun h => set_totalCoins (s64 (totalCoins h + toDoleThisWinner)) h)
         else mret tt);
    ok ← modify (KeyAccount (w_accountID w))
           (fun h e => addBalance h e toDoleThisWinner);
    if negb ok then throw "inflation overflowed destination balance"
    else mret (Some toDoleThisWinner).

Fixpoint doleLoop (amountToDole totalVotes : Z) (winners : list InflationWinner)
    (leftAfterDole : Z) (payouts : list (AccountID * Z))
    : M (Z * list (AccountID * Z)) :=
  match winners with
  | [] => mret (leftAfterDole, payouts)
  | w :: winners =>
      paid ← dole amountToDole totalVotes w;
      match paid with
      | None => doleLoop amountToDole totalVotes winners leftAfterDole payouts
      | Some x =>
          doleLoop amountToDole totalVotes winners (s64 (leftAfterDole - x))
            (payouts ++ [(w_accountID w, x)])
      end
  end.

Definition Inflation_doCheckValid : bool := true.

Definition Inflation_doApply : M (bool * InflationResult) :=
  lh ← currentHeader;
  let inflationTime :=
    u64 (INFLATION_START_TIME + inflationSeq lh * INFLATION_FREQUENCY) in
  if s64 (closeTime lh) <? s64 inflationTime then mret (false, INFLATION_NOT_TIME)
  else
  let totalVotes := totalCoins lh in
  minBalance ← lift (bigDivide totalVotes INFLATION_WIN_MIN_PERCENT TRILLION ROUND_DOWN);
  winners ← inflationWinners INFLATION_NUM_WINNERS minBalance;
  inflationAmount ←
    lift (bigDivide (totalCoins lh) INFLATION_RATE_TRILLIONTHS TRILLION ROUND_DOWN);
  let amountToDole := s64 (inflationAmount + feePool lh) in
  _ ← updateHeader (fun h => set_inflationSeq (u32 (inflationSeq h + 1)) (set_feePool 0 h));
  '(leftAfterDole, payouts) ← doleLoop amountToDole totalVotes winners amountToDole [];
  _ ← updateHeader (fun h => set_feePool (s64 (feePool h + leftAfterDole)) h);
  _ ← (if 7 <? ledgerVersion lh
       then updateHeader (fun h => set_totalCoins (s64 (totalCoins h + inflationAmount)) h)
       else mret tt);
  mret (true, INFLATION_SUCCESS payouts).
