(* ===== verification/Upgrades.v ===== *)
(** Protocol upgrades: [src/src/herder/Upgrades.cpp].

    A node's wishes ([UpgradeParameters]), the upgrades it nominates and
    accepts, and what an upgrade does to the ledger.  An [UpgradeType] is an
    opaque string of bytes; how XDR reads it is a parameter.  Times are in
    seconds, as [time_t]. *)

From S2P Require Import Prelude Numeric OfferMath Types OfferOrder LedgerTxn.
From S2P Require Import LedgerState TransactionUtils OfferExchange Operations.

Inductive LedgerUpgrade :=
  | LEDGER_UPGRADE_VERSION (newLedgerVersion : Z)
  | LEDGER_UPGRADE_BASE_FEE (newBaseFee : Z)
  | LEDGER_UPGRADE_MAX_TX_SET_SIZE (newMaxTxSetSize : Z)
  | LEDGER_UPGRADE_BASE_RESERVE (newBaseReserve : Z).
Inductive LedgerUpgradeType :=
  | UPGRADE_VERSION | UPGRADE_BASE_FEE | UPGRADE_MAX_TX_SET_SIZE | UPGRADE_BASE_RESERVE.
Definition upgrade_type (u : LedgerUpgrade) : LedgerUpgradeType :=
  match u with
  | LEDGER_UPGRADE_VERSION _ => UPGRADE_VERSION
  | LEDGER_UPGRADE_BASE_FEE _ => UPGRADE_BASE_FEE
  | LEDGER_UPGRADE_MAX_TX_SET_SIZE _ => UPGRADE_MAX_TX_SET_SIZE
  | LEDGER_UPGRADE_BASE_RESERVE _ => UPGRADE_BASE_RESERVE
  end.
(** The order of XDR unions' discriminants. *)
Definition upgrade_type_rank (t : LedgerUpgradeType) : Z :=
  match t with
  | UPGRADE_VERSION => 1 | UPGRADE_BASE_FEE => 2
  | UPGRADE_MAX_TX_SET_SIZE => 3 | UPGRADE_BASE_RESERVE => 4
  end.

#[export] Instance LedgerUpgrade_eq_dec : EqDecision LedgerUpgrade.
Proof. solve_decision. Defined.
#[export] Instance LedgerUpgradeType_eq_dec : EqDecision LedgerUpgradeType.
Proof. solve_decision. Defined.

Record UpgradeParameters := mkUpgradeParameters {
  mUpgradeTime : Z;
  mUpgradeProtocolVersion : option Z;
  mBaseFee : option Z;
  mMaxTxSize : option Z;
  mBaseReserve : option Z }.

(** [Upgrades::setParameters]; [LEDGER_PROTOCOL_VERSION] is the configured
    limit. *)
Definition setParameters (params : UpgradeParameters) (LEDGER_PROTOCOL_VERSION : Z)
    : outcome UpgradeParameters :=
  match mUpgradeProtocolVersion params with
  | Some v =>
      if LEDGER_PROTOCOL_VERSION <? v then Throw (RuntimeError "Protocol version error")
      else Ok params
  | None => Ok params
  end.

Definition timeForUpgrade (mParams : UpgradeParameters) (time : Z) : bool :=
  mUpgradeTime mParams <=? time.

(** One [if] of [createUpgradesFor]. *)
Definition propose (wish : option Z) (now : Z) (upgrade : Z -> LedgerUpgrade)
    : list LedgerUpgrade :=
  match wish with
  | Some v => if negb (now =? v) then [upgrade v] else []
  | None => []
  end.

Definition createUpgradesFor (mParams : UpgradeParameters) (header : LedgerHeader)
    : list LedgerUpgrade :=
  if negb (timeForUpgrade mParams (closeTime header)) then []
  else
    propose (mUpgradeProtocolVersion mParams) (ledgerVersion header) LEDGER_UPGRADE_VERSION
    ++ propose (mBaseFee mParams) (baseFee header) LEDGER_UPGRADE_BASE_FEE
    ++ propose (mMaxTxSize mParams) (maxTxSetSize header) LEDGER_UPGRADE_MAX_TX_SET_SIZE
    ++ propose (mBaseReserve mParams) (baseReserve header) LEDGER_UPGRADE_BASE_RESERVE.

Section Opaque.
(** [xdr::xdr_from_opaque]: [None] is the exception. *)
Context {UpgradeType : Type} (xdr_from_opaque : UpgradeType -> option LedgerUpgrade).

(** [resetParam]: the wish, and whether it was granted. *)
Definition resetParam (o : option Z) (v : Z) (updated : bool) : option Z * bool :=
  match o with
  | Some x => if x =? v then (None, true) else (o, updated)
  | None => (o, updated)
  end.

Definition removeUpgrade (u : LedgerUpgrade) (r : UpgradeParameters * bool)
    : UpgradeParameters * bool :=
  let '(mkUpgradeParameters t v f m b, updated) := r in
  match u with
  | LEDGER_UPGRADE_VERSION x =>
      let '(v, up) := resetParam v x updated in (mkUpgradeParameters t v f m b, up)
  | LEDGER_UPGRADE_BASE_FEE x =>
      let '(f, up) := resetParam f x updated in (mkUpgradeParameters t v f m b, up)
  | LEDGER_UPGRADE_MAX_TX_SET_SIZE x =>
      let '(m, up) := resetParam m x updated in (mkUpgradeParameters t v f m b, up)
  | LEDGER_UPGRADE_BASE_RESERVE x =>
      let '(b, up) := resetParam b x updated in (mkUpgradeParameters t v f m b, up)
  end.

Definition removeUpgrades (mParams : UpgradeParameters) (updates : list UpgradeType)
    : UpgradeParameters * bool :=
  fold_left (fun r u =>
      match xdr_from_opaque u with
      | Some lu => removeUpgrade lu r
      | None => r
      end) updates (mParams, false).

(** [isValid]: [Some] is [true] with the type it sets. *)
Definition isValid (mParams : UpgradeParameters) (upgrade : UpgradeType)
    (nomination : bool) (LEDGER_PROTOCOL_VERSION : Z) (header : LedgerHeader)
    : option LedgerUpgradeType :=
  if nomination && negb (timeForUpgrade mParams (closeTime header)) then None
  else
    match xdr_from_opaque upgrade with
    | None => None
    | Some lupgrade =>
        let wished (o : option Z) (v : Z) : bool :=
          if nomination then match o with Some x => v =? x | None => false end
          else true in
        let res :=
          match lupgrade with
          | LEDGER_UPGRADE_VERSION newVersion =>
              wished (mUpgradeProtocolVersion mParams) newVersion
              && (newVersion <=? LEDGER_PROTOCOL_VERSION)
              && (ledgerVersion header <? newVersion)
          | LEDGER_UPGRADE_BASE_FEE newFee =>
              wished (mBaseFee mParams) newFee && negb (newFee =? 0)
          | LEDGER_UPGRADE_MAX_TX_SET_SIZE newMax =>
              wished (mMaxTxSize mParams) newMax && negb (newMax =? 0)
          | LEDGER_UPGRADE_BASE_RESERVE newReserve =>
              wished (mBaseReserve mParams) newReserve && negb (newReserve =? 0)
          end in
        if res then Some (upgrade_type lupgrade) else None
    end.
End Opaque.

(** * Liabilities from scratch *)

(** [std::map<Asset, std::unique_ptr<int64_t>>]: [Some None] is the null
    pointer that stands for an overflow. *)
Definition InitialLiabilities : Type := gmap Asset (option Z).

Definition issuedBy (accountID : AccountID) (asset : Asset) : outcome bool :=
  if is_native asset then Ok false
  else issuer ← getIssuer asset; Ok (accountID =? issuer).

Definition addLiabilities (liabilities : InitialLiabilities) (accountID : AccountID)
    (asset : Asset) (delta : Z) : outcome InitialLiabilities :=
  let v := default (Some 0) (liabilities !! asset) in
  issued ← issuedBy accountID asset;
  if issued : bool then Ok (<[asset := v]> liabilities)
  else
    match v with
    | None => Ok (<[asset := v]> liabilities)
    | Some balance =>
        r ← Numeric.addBalance balance delta INT64_MAX;
        Ok (<[asset := r]> liabilities)
    end.

Definition getAvailableBalanceExcludingLiabilities (accountID : AccountID) (asset : Asset)
    (balanceAboveReserve : Z) : M Z :=
  if is_native asset then mret balanceAboveReserve
  else
    issued ← lift (issuedBy accountID asset);
    if issued : bool then mret INT64_MAX
    else
      trust ← loadTrustLineWithoutRecord accountID asset;
      b ← const_line_bool trust;
      auth ← (if b : bool then const_line_isAuthorized trust else mret false);
      if auth : bool then const_line_getBalance trust else mret 0.

Definition getAvailableLimitExcludingLiabilities (accountID : AccountID) (asset : Asset)
    (balance : Z) : M Z :=
  if is_native asset then mret (s64 (INT64_MAX - balance))
  else
    issued ← lift (issuedBy accountID asset);
    if issued : bool then mret INT64_MAX
    else
      let key := KeyTrustLine accountID asset in
      trust ← exists_entry key;
      auth ← (if trust : bool then read key (fun _ d => isAuthorized d) else mret false);
      if auth : bool then
        read key (fun _ d => tl ← trustLine_of d; Ok (s64 (tl_limit tl - tl_balance tl)))
      else mret 0.

Definition shouldDeleteOffer (asset : Asset) (effectiveBalance : Z)
    (liabilities : InitialLiabilities) (getCap : Asset -> Z -> M Z) : M bool :=
  match liabilities !! asset with
  | None => throw "liabilities were not calculated"
  | Some None => mret true
  | Some (Some l) => cap ← getCap asset effectiveBalance; mret (cap <? l)
  end.

Inductive UpdateOfferResult := Unchanged | Adjusted | AdjustedToZero | Erased.

(** [liabilities[asset].buying += x] and the same for selling, with the
    exception when they do not fit. *)
Definition zeroLiabilities : Liabilities := mkLiabilities 0 0.
Definition addBuyingTo (liabilities : gmap Asset Liabilities) (asset : Asset) (x : Z)
    : M (gmap Asset Liabilities) :=
  let l := default zeroLiabilities (liabilities !! asset) in
  r ← lift (Numeric.addBalance (buying l) x INT64_MAX);
  match r with
  | Some b => mret (<[asset := mkLiabilities b (selling l)]> liabilities)
  | None => throw "could not add buying liabilities"
  end.
Definition addSellingTo (liabilities : gmap Asset Liabilities) (asset : Asset) (x : Z)
    : M (gmap Asset Liabilities) :=
  let l := default zeroLiabilities (liabilities !! asset) in
  r ← lift (Numeric.addBalance (selling l) x INT64_MAX);
  match r with
  | Some b => mret (<[asset := mkLiabilities (buying l) b]> liabilities)
  | None => throw "could not add selling liabilities"
  end.

(** The tail of [updateOffer]: the offer stays. *)
Definition keepOffer (offerEntry : LedgerKey) (offer : OfferEntry) (adjAmount : Z)
    (liabilities : gmap Asset Liabilities)
    : M (UpdateOfferResult * gmap Asset Liabilities) :=
  let changed := negb (adjAmount =? of_amount offer) in
  _ ← (if changed then setOfferAmount offerEntry adjAmount else mret tt);
  issuedBuying ← lift (issuedBy (of_seller offer) (of_buying offer));
  liabilities ←
    (if negb issuedBuying then
       x ← read offerEntry getOfferBuyingLiabilities;
       addBuyingTo liabilities (of_buying offer) x
     else mret liabilities);
  issuedSelling ← lift (issuedBy (of_seller offer) (of_selling offer));
  liabilities ←
    (if negb issuedSelling then
       x ← read offerEntry getOfferSellingLiabilities;
       addSellingTo liabilities (of_selling offer) x
     else mret liabilities);
  mret (if changed then Adjusted else Unchanged, liabilities).

Definition updateOffer (offerEntry : LedgerKey) (balance balanceAboveReserve : Z)
    (liabilities : gmap Asset Liabilities)
    (initialBuyingLiabilities initialSellingLiabilities : InitialLiabilities)
    : M (UpdateOfferResult * gmap Asset Liabilities) :=
  offer ← currentOffer offerEntry;
  erase ← shouldDeleteOffer (of_selling offer) balanceAboveReserve initialSellingLiabilities
            (getAvailableBalanceExcludingLiabilities (of_seller offer));
  erase ← (if erase : bool then mret true
           else shouldDeleteOffer (of_buying offer) balance initialBuyingLiabilities
                  (getAvailableLimitExcludingLiabilities (of_seller offer)));
  if erase : bool then _ ← eraseEntry offerEntry; mret (Erased, liabilities)
  else
    adjAmount ← lift (OfferMath.adjustOffer (of_price offer) (of_amount offer) INT64_MAX);
    if adjAmount =? 0 then _ ← eraseEntry offerEntry; mret (AdjustedToZero, liabilities)
    else keepOffer offerEntry offer adjAmount liabilities.

(** ** [prepareLiabilities] *)

(** [ltx.loadAllOffers()] on the flat state: the keys of the offers of every
    seller. *)
Definition sellerOf (k : LedgerKey) : option AccountID :=
  match k with KeyOffer seller _ => Some seller | _ => None end.
Definition addOfferKey (k : LedgerKey) (m : gmap AccountID (list LedgerKey))
    : gmap AccountID (list LedgerKey) :=
  match sellerOf k with
  | Some seller => <[seller := k :: default [] (m !! seller)]> m
  | None => m
  end.
Definition allOffers : M (gmap AccountID (list LedgerKey)) := fun s =>
  Ok (foldr addOfferKey ∅ (map_to_list (st_entries s)).*1, s).

(** The first loop over an account's offers. *)
Fixpoint initialLiabilities (offers : list LedgerKey) (buying selling : InitialLiabilities)
    : M (InitialLiabilities * InitialLiabilities) :=
  match offers with
  | [] => mret (buying, selling)
  | k :: offers =>
      offer ← currentOffer k;
      b ← read k getOfferBuyingLiabilities;
      buying ← lift (addLiabilities buying (of_seller offer) (of_buying offer) b);
      s ← read k getOfferSellingLiabilities;
      selling ← lift (addLiabilities selling (of_seller offer) (of_selling offer) s);
      initialLiabilities offers buying selling
  end.

(** The second: the results are only counted and logged. *)
Fixpoint updateOffers (accountID : AccountID) (offers : list LedgerKey)
    (balance balanceAboveReserve : Z) (liabilities : gmap Asset Liabilities)
    (buying selling : InitialLiabilities) : M (gmap Asset Liabilities) :=
  match offers with
  | [] => mret liabilities
  | k :: offers =>
      '(res, liabilities) ←
        updateOffer k balance balanceAboveReserve liabilities buying selling;
      _ ← (match res with
           | AdjustedToZero | Erased =>
               _ ← modify (KeyAccount accountID) (fun h e => addNumEntries h e (-1)); mret tt
           | _ => mret tt
           end);
      updateOffers accountID offers balance balanceAboveReserve liabilities buying selling
  end.

(** The third, over assets: each one is stored in an entry of its own, so the
    order does not matter. *)
Definition storeLiabilities (accountID : AccountID) (asset : Asset) (liab : Liabilities)
    : M unit :=
  let check (b : bool) (what : string) : M unit := if b then mret tt else throw what in
  let store (getSelling getBuying : M Z) (addSelling addBuying : Z -> M bool) : M unit :=
    oldSelling ← getSelling;
    oldBuying ← getBuying;
    ok ← addSelling (s64 (selling liab - oldSelling));
    _ ← check ok "invalid selling liabilities during upgrade";
    ok ← addBuying (s64 (buying liab - oldBuying));
    check ok "invalid buying liabilities during upgrade" in
  let key := KeyAccount accountID in
  if is_native asset then
    store (read key getSellingLiabilities) (read key getBuyingLiabilities)
      (fun x => modify key (fun h e => addSellingLiabilities h e x))
      (fun x => modify key (fun h e => addBuyingLiabilities h e x))
  else
    trustEntry ← loadTrustLine accountID asset;
    store (line_getSellingLiabilities trustEntry) (line_getBuyingLiabilities trustEntry)
      (line_addSellingLiabilities trustEntry) (line_addBuyingLiabilities trustEntry).
Fixpoint storeAllLiabilities (accountID : AccountID) (l : list (Asset * Liabilities))
    : M unit :=
  match l with
  | [] => mret tt
  | (asset, liab) :: l =>
      _ ← storeLiabilities accountID asset liab; storeAllLiabilities accountID l
  end.

(** The body of the loop over accounts. *)
Definition prepareAccount (accountID : AccountID) (offers : list LedgerKey) : M unit :=
  '(buying, selling) ← initialLiabilities offers ∅ ∅;
  accountEntry ← loadAccount accountID;
  if negb accountEntry then throw "account does not exist"
  else
    acc ← currentAccount (KeyAccount accountID);
    header ← currentHeader;
    let balance := acc_balance acc in
    let minBalance := getMinBalance header (acc_numSubEntries acc) in
    let balanceAboveReserve := s64 (balance - minBalance) in
    liabilities ← updateOffers accountID offers balance balanceAboveReserve ∅ buying selling;
    storeAllLiabilities accountID (map_to_list liabilities).

Fixpoint prepareAccounts (offersByAccount : list (AccountID * list LedgerKey)) : M unit :=
  match offersByAccount with
  | [] => mret tt
  | (accountID, offers) :: rest =>
      _ ← prepareAccount accountID offers; prepareAccounts rest
  end.
Definition prepareLiabilities : M unit :=
  offersByAccount ← allOffers; prepareAccounts (map_to_list offersByAccount).

(** * Applying an upgrade *)
Definition applyVersionUpgrade (newVersion : Z) : M unit :=
  header ← currentHeader;
  let prevVersion := ledgerVersion header in
  _ ← setHeader (set_ledgerVersion newVersion header);
  if (10 <=? newVersion) && (prevVersion <? 10) then prepareLiabilities else mret tt.

Definition applyReserveUpgrade (newReserve : Z) : M unit :=
  header ← currentHeader;
  let didReserveIncrease := baseReserve header <? newReserve in
  _ ← setHeader (set_baseReserve newReserve header);
  if (10 <=? ledgerVersion header) && didReserveIncrease then prepareLiabilities
  else mret tt.

Definition applyTo (upgrade : LedgerUpgrade) : M unit :=
  match upgrade with
  | LEDGER_UPGRADE_VERSION v => applyVersionUpgrade v
  | LEDGER_UPGRADE_BASE_FEE f => updateHeader (set_baseFee f)
  | LEDGER_UPGRADE_MAX_TX_SET_SIZE m => updateHeader (set_maxTxSetSize m)
  | LEDGER_UPGRADE_BASE_RESERVE r => applyReserveUpgrade r
  end.
