(* ===== verification/Lumens.v ===== *)
(** Lumens: the measure whose total is account balances plus fee pool less
    total coins, and what the primitives, the crossing of offers and the
    conversion loop do to it.  A crossing changes the balances of the offer's
    owner only; the taker settles what is left ([taken_lumens]). *)

From S2P Require Import Prelude Numeric OfferMath Types Sums OfferOrder LedgerTxn.
From S2P Require Import LedgerTxnOffers InflationWinners LedgerState TransactionUtils.
From S2P Require Import OfferExchange Converting Accounting Operations.

#[export] Instance lumens : Measure := {
  weight k d := match k, d with KeyAccount _, ACCOUNT a => acc_balance a | _, _ => 0 end;
  header_weight h := feePool h - totalCoins h;
  modulus := 18446744073709551616 }.

Definition native (a : Asset) (x : Z) : Z := if is_native a then x else 0.

(** * What leaves the lumens alone *)
Lemma lumens_offkey k d : is_account_key k = false -> weight k d = 0.
Proof. by destruct k. Qed.
Lemma lumens_liabilities k (h : LedgerHeader) d d' (x : Z) f :
  (forall h d d', f h d x = Ok (Some d') -> liabilities_change d d') ->
  f h d x = Ok (Some d') ->
  LedgerDataKey d' = LedgerDataKey d /\ weight k d' = weight k d.
Proof. intros Hf H. apply Hf in H as []; [done|by destruct k..]. Qed.

Lemma same_addBuying k x :
  keeps same_total (modify k (fun h e => addBuyingLiabilities h e x)).
Proof.
  apply same_modify. intros h d d'.
  apply (lumens_liabilities k h d d' x addBuyingLiabilities).
  intros ???. apply addBuyingLiabilities_change.
Qed.
Lemma same_addSelling k x :
  keeps same_total (modify k (fun h e => addSellingLiabilities h e x)).
Proof.
  apply same_modify. intros h d d'.
  apply (lumens_liabilities k h d d' x addSellingLiabilities).
  intros ???. apply addSellingLiabilities_change.
Qed.
Lemma same_addNumEntries k x :
  keeps same_total (modify k (fun h e => addNumEntries h e x)).
Proof.
  apply same_modify. intros h d d' (a & -> & ->)%addNumEntries_change. by destruct k.
Qed.
Lemma same_addBalance_line k x :
  is_account_key k = false ->
  keeps same_total (modify k (fun h e => addBalance h e x)).
Proof.
  intros Hk. apply same_modify. intros h d d' H%addBalance_change.
  rewrite !lumens_offkey by done. by destruct H.
Qed.
Lemma same_updateAccount k f :
  (forall a, acc_id (f a) = acc_id a /\ acc_balance (f a) = acc_balance a) ->
  keeps same_total (updateAccount k f).
Proof.
  intros Hf. apply same_update. intros h d d'. destruct d as [a| | |]; cbn; try done.
  intros [= <-]. destruct (Hf a) as [Hi Hb]. cbn. by rewrite Hi, Hb; destruct k.
Qed.
Lemma same_updateTrustLine k x :
  keeps same_total (update k (fun d =>
    tl ← trustLine_of d; Ok (TRUSTLINE (set_tl_limit x tl)))).
Proof.
  apply same_update. intros h d d'. destruct d; cbn; try done. intros [= <-].
  by destruct k.
Qed.
Lemma same_setAuthorized k b : keeps same_total (update k (fun d => setAuthorized d b)).
Proof.
  apply same_update. intros h d d'. destruct d; cbn; try done. intros [= <-].
  by destruct k.
Qed.
Lemma same_normalizeSigners k : keeps same_total (update k normalizeSigners).
Proof.
  apply same_update. intros h d d'. destruct d; cbn; try done. intros [= <-].
  by destruct k.
Qed.
Lemma same_setOfferAmount k x : keeps same_total (setOfferAmount k x).
Proof.
  intros s. apply wlp_bind, wlp_current. intros d Hd. apply wlp_bind, wlp_lift.
  intros o Ho. apply wlp_setCurrent. destruct d; try done. injection Ho as ->.
  eapply same_total_insert; [done|done|]. by destruct k.
Qed.
Lemma same_generateID : keeps same_total generateID.
Proof.
  intros s. apply wlp_bind, wlp_currentHeader, wlp_bind, wlp_setHeader, wlp_ret.
  intros Hc. do 2 (split; [done|]). reflexivity.
Qed.
#[export] Hint Resolve same_addBuying same_addSelling same_addNumEntries
  same_updateTrustLine same_setAuthorized same_normalizeSigners same_setOfferAmount
  same_generateID : keeps.

(** ** Wrappers: a trust line holds no lumens *)
Definition line_ok (w : TrustLineWrapper) : Prop :=
  match w with Some (NonIssuer k) => is_account_key k = false | _ => True end.

Lemma same_line_addBuying w x : keeps same_total (line_addBuyingLiabilities w x).
Proof. apply keeps_getImpl; [exact _|]. intros []; cbn; keeps_easy. Qed.
Lemma same_line_addSelling w x : keeps same_total (line_addSellingLiabilities w x).
Proof. apply keeps_getImpl; [exact _|]. intros []; cbn; keeps_easy. Qed.
Lemma same_line_addBalance w x :
  line_ok w -> keeps same_total (line_addBalance w x).
Proof.
  intros Hw. apply keeps_getImpl_at; [exact _|]. intros [k|] ->; cbn; [|keeps_easy].
  by apply same_addBalance_line.
Qed.
#[export] Hint Resolve same_line_addBuying same_line_addSelling : keeps.

(** The wrappers the code makes are all right. *)
Lemma wlp_makeWrapper id asset Q s :
  (forall w, line_ok w -> Q w s) -> wlp (makeTrustLineWrapper id asset) Q s.
Proof.
  intros HQ. unfold makeTrustLineWrapper. destruct (is_native asset); [done|].
  apply wlp_bind, wlp_lift. intros i _. destruct (negb _).
  - apply wlp_bind, wlp_exists_entry. intros [] _; by apply wlp_ret, HQ.
  - by apply wlp_ret, HQ.
Qed.
Lemma wlp_loadTrustLineIfNotNative id asset Q s :
  (forall w, line_ok w -> Q w s) -> wlp (loadTrustLineIfNotNative id asset) Q s.
Proof.
  intros HQ. unfold loadTrustLineIfNotNative. destruct (is_native asset).
  - by apply wlp_ret, HQ.
  - by apply wlp_makeWrapper.
Qed.

(** * What moves lumens *)
Lemma adds_addBalance id x :
  adds (modify (KeyAccount id) (fun h e => addBalance h e x)) (fun b : bool => if b then x else 0).
Proof.
  apply adds_modify. intros h d d' H%addBalance_change Hk.
  destruct H as [a b E|t b E]; [|done]. split; [done|exact E].
Qed.

Lemma adds_addBalanceInner id asset x :
  adds (addBalanceInner id asset x) (fun b : bool => if b then native asset x else 0).
Proof.
  apply adds_nested. intros s Hc. unfold native. destruct (is_native asset).
  - apply wlp_bind. eapply wlp_same_bind; [unfold loadAccount; keeps_easy|by apply moved_refl|].
    intros _ s1 H1. eapply wlp_adds; [apply adds_addBalance|done|].
    intros [] s2 H2; apply wlp_ret; [exact H2|by apply eqm_eq].
  - apply wlp_bind, wlp_bind, wlp_makeWrapper. intros w Hw.
    eapply wlp_same; [by apply same_line_addBalance|by apply moved_refl|].
    intros [] s2 H2; apply wlp_ret; [exact H2|by apply eqm_eq].
Qed.

Definition account_handle (account : option LedgerKey) : Prop :=
  match account with Some k => exists id, k = KeyAccount id | None => True end.

Lemma adds_addBalanceOrThrow what account asset line x :
  account_handle account -> line_ok line ->
  adds (addBalanceOrThrow what account asset line x) (fun _ => native asset x).
Proof.
  intros Ha Hl s Hc. unfold addBalanceOrThrow, native. destruct (is_native asset).
  - destruct account as [k|]; [|done]. destruct Ha as [id ->]. apply wlp_bind. cbn.
    eapply wlp_adds; [apply adds_addBalance|by apply moved_refl|].
    intros [] s' H'; [|done]. apply wlp_ret. exact H'.
  - apply wlp_bind.
    eapply wlp_same; [by apply same_line_addBalance|by apply moved_refl|].
    intros [] s' H'; [by apply wlp_ret|done].
Qed.

(** One bind that leaves the lumens alone. *)
Ltac same_step :=
  eapply wlp_same_bind; [by keeps_auto|eassumption|intros ? ? ?].

(** ** Crossing an offer *)
Lemma same_acquireOrRelease k b : keeps same_total (acquireOrReleaseLiabilities k b).
Proof. unfold acquireOrReleaseLiabilities, loadAccount, loadTrustLine. keeps_auto. Qed.
#[export] Hint Resolve same_acquireOrRelease : keeps.
Lemma same_adjustOffer k a w wl sh sl : keeps same_total (adjustOffer k a w wl sh sl).
Proof. unfold adjustOffer. keeps_auto. Qed.
#[export] Hint Resolve same_adjustOffer : keeps.

Lemma same_eraseOffer id n : keeps same_total (eraseEntry (KeyOffer id n)).
Proof. by apply same_erase. Qed.
Lemma same_eraseTrustLine id a : keeps same_total (eraseEntry (KeyTrustLine id a)).
Proof. by apply same_erase. Qed.
Lemma same_eraseData id n : keeps same_total (eraseEntry (KeyData id n)).
Proof. by apply same_erase. Qed.
#[export] Hint Resolve same_eraseOffer same_eraseTrustLine same_eraseData : keeps.

(** An exchange moves both assets or none. *)
Definition both_or_none (x y : Z) : Prop := x = 0 <-> y = 0.

Lemma wlp_performExchange k a w1 w2 x y (Q : Performed -> LedgerState -> Prop) s :
  (forall p, (pf_type p <> REDUCED_TO_ZERO ->
     both_or_none (pf_numWheatReceived p) (pf_numSheepSend p)) -> Q p s) ->
  wlp (performExchange k a w1 w2 x y) Q s.
Proof.
  intros HQ. unfold performExchange. apply wlp_bind, wlp_currentHeader.
  apply wlp_bind. eapply (wlp_keeps eq); [keeps_auto|]. intros o _ <-.
  apply wlp_bind. eapply (wlp_keeps eq); [keeps_auto|]. intros m1 _ <-.
  apply wlp_bind. eapply (wlp_keeps eq); [keeps_auto|]. intros m2 _ <-.
  apply wlp_bind, wlp_lift. intros _ _. apply wlp_bind, wlp_lift. intros er _.
  destruct (ExchangeResult_type er) eqn:Et; apply wlp_ret, HQ; cbn; try done.
  intros _. unfold ExchangeResult_type in Et. unfold both_or_none.
  destruct (Z.eqb_spec (er_numWheatReceived er) 0),
    (Z.eqb_spec (er_numSheepSend er) 0); cbn in Et; try done;
    destruct (er_reduced er); done.
Qed.

(** What a crossing does to the lumens of everybody but the taker. *)
Definition crossed_lumens (o : OfferEntry) (s : LedgerState) (cr : Crossed)
    (s' : LedgerState) : Prop :=
  cr_result cr <> eOfferCantConvert ->
  moved s s' (native (of_buying o) (cr_numSheepSend cr)
              - native (of_selling o) (cr_numWheatReceived cr)) /\
  both_or_none (cr_numWheatReceived cr) (cr_numSheepSend cr).

Lemma native_zero a : native a 0 = 0.
Proof. unfold native. by destruct (is_native a). Qed.
Lemma native_neg a x : eqm 18446744073709551616 (native a (s64 (- x))) (- native a x).
Proof. unfold native. destruct (is_native a); [apply eqm_s64|reflexivity]. Qed.

Lemma wlp_currentOffer k o (Q : OfferEntry -> LedgerState -> Prop) s :
  st_entries s !! k = Some (OFFER o) -> Q o s -> wlp (currentOffer k) Q s.
Proof.
  intros Hk HQ. apply wlp_bind, wlp_current. rewrite Hk. intros d [= <-].
  apply wlp_lift. by intros ? [= <-].
Qed.

(** The part of [crossOffer] after the exchange is computed. *)
Definition crossOffer_balances (k : LedgerKey) (o : OfferEntry) (p : Performed)
    : M Crossed :=
  let cantConvert :=
    mkCrossed eOfferCantConvert (pf_numWheatReceived p) (pf_numSheepSend p) true [] in
  _ ← (if pf_newAmount p =? 0 then
         _ ← eraseEntry k;
         _ ← loadAccount (of_seller o);
         _ ← modify (KeyAccount (of_seller o)) (fun h e => addNumEntries h e (-1));
         mret tt
       else setOfferAmount k (pf_newAmount p));
  ok1 ← (if pf_numSheepSend p =? 0 then mret true
         else addBalanceInner (of_seller o) (of_buying o) (pf_numSheepSend p));
  if negb ok1 then mret cantConvert
  else
  ok2 ← (if pf_numWheatReceived p =? 0 then mret true
         else addBalanceInner (of_seller o) (of_selling o)
                (s64 (- pf_numWheatReceived p)));
  if negb ok2 then mret cantConvert
  else
  mret (mkCrossed (if pf_newAmount p =? 0 then eOfferTaken else eOfferPartial)
          (pf_numWheatReceived p) (pf_numSheepSend p) true
          [mkClaim (of_seller o) (of_offerID o) (of_selling o) (pf_numWheatReceived p)
             (of_buying o) (pf_numSheepSend p)]).

(** The two changes of the seller's balances together. *)
Lemma eqm_crossed b sl N S :
  eqm 18446744073709551616
    (0 + (if S =? 0 then 0 else native b S) + (if N =? 0 then 0 else native sl (s64 (- N))))
    (native b S - native sl N).
Proof.
  destruct (Z.eqb_spec S 0) as [E|E], (Z.eqb_spec N 0) as [E'|E'];
    rewrite ?E, ?E', ?native_zero, ?native_neg; apply eqm_eq; lia.
Qed.

(** The seller's balance changes by the amount, also when it is not touched
    because the amount is zero. *)
Lemma adds_balance_if id asset n x :
  adds (if n =? 0 then mret true else addBalanceInner id asset x)
    (fun b : bool => if b then (if n =? 0 then 0 else native asset x) else 0).
Proof.
  destruct (n =? 0); [|apply adds_addBalanceInner].
  intros s Hc. by apply wlp_ret, moved_refl.
Qed.

Lemma adds_balance_or_throw_if what account asset line n x :
  account_handle account -> line_ok line ->
  adds (if n =? 0 then mret tt else addBalanceOrThrow what account asset line x)
    (fun _ => if n =? 0 then 0 else native asset x).
Proof.
  intros. destruct (n =? 0); [|by apply adds_addBalanceOrThrow].
  intros s Hc. by apply wlp_ret, moved_refl.
Qed.

Lemma crossOffer_balances_lumens k o p s :
  coherent s -> LedgerDataKey (OFFER o) = k ->
  both_or_none (pf_numWheatReceived p) (pf_numSheepSend p) ->
  wlp (crossOffer_balances k o p) (crossed_lumens o s) s.
Proof.
  intros Hc <- Hp. unfold crossOffer_balances, crossed_lumens.
  eapply wlp_same_bind; [|by apply moved_refl|].
  { destruct (_ =? 0); [|keeps_easy]. cbn. unfold loadAccount. keeps_auto. }
  intros _ s1 H1.
  eapply wlp_adds_bind; [apply adds_balance_if|done|].
  intros [] s2 H2; cbn [negb]; [|by apply wlp_ret].
  eapply wlp_adds_bind; [apply adds_balance_if|done|].
  intros [] s3 H3; cbn [negb]; [|by apply wlp_ret].
  apply wlp_ret. intros _. cbn [cr_numSheepSend cr_numWheatReceived]. split; [|done].
  eapply moved_eqm; [exact H3|]. apply eqm_crossed.
Qed.

Lemma crossOffer_lumens k x y o s :
  coherent s -> st_entries s !! k = Some (OFFER o) ->
  wlp (crossOffer k x y) (crossed_lumens o s) s.
Proof.
  intros Hc Hk. pose proof (Hc _ _ Hk) as Hkey. unfold crossOffer.
  do 2 (apply wlp_bind, wlp_lift; intros _ _).
  eapply wlp_bind, wlp_currentOffer; [done|].
  apply wlp_bind, wlp_exists_entry. intros [] _; [|done]. cbn [negb].
  apply wlp_bind. eapply (wlp_keeps eq);
    [unfold loadTrustLineWithoutRecordIfNotNative; keeps_auto|]. intros ? _ <-.
  apply wlp_bind. eapply (wlp_keeps eq);
    [unfold loadTrustLineWithoutRecordIfNotNative; keeps_auto|]. intros ? _ <-.
  apply wlp_bind, wlp_performExchange. intros p Hp.
  set (m := match pf_type p with REDUCED_TO_ZERO => _ | _ => _ end).
  enough (pf_type p <> REDUCED_TO_ZERO -> wlp m (crossed_lumens o s) s) as Hm.
  { destruct (pf_type p) eqn:Et; [by apply Hm| |by apply Hm]. subst m. by apply wlp_ret. }
  intros Ht. specialize (Hp Ht). 
  assert (m = crossOffer_balances k o p) as ->.
  { subst m. by destruct (pf_type p). }
  by apply crossOffer_balances_lumens.
Qed.

(** ** Crossing from protocol version 10 *)
Lemma exchangeV10_both_or_none p mws mwr mss msr path res :
  exchangeV10 p mws mwr mss msr path = Ok res ->
  both_or_none (numWheatReceived res) (numSheepSend res).
Proof.
  unfold exchangeV10, applyPriceErrorThresholds. intros H.
  apply outcome_bind_Ok in H as (before & _ & H).
  destruct (Z.ltb_spec 0 (numWheatReceived before)),
    (Z.ltb_spec 0 (numSheepSend before)); cbn [andb] in H;
    try (injection H as <-; done).
  apply outcome_bind_Ok in H as (wv & _ & H).
  apply outcome_bind_Ok in H as (sv & _ & H).
  repeat (case_match; try done);
    apply outcome_bind_Ok in H as ([] & _ & H); try done;
    injection H as <-; unfold both_or_none; cbn; lia.
Qed.

Lemma crossOfferV10_lumens k x y path o s :
  coherent s -> st_entries s !! k = Some (OFFER o) ->
  wlp (crossOfferV10 k x y path) (crossed_lumens o s) s.
Proof.
  intros Hc Hk. unfold crossOfferV10, crossed_lumens.
  do 2 (apply wlp_bind, wlp_lift; intros _ _).
  eapply wlp_bind, wlp_currentOffer; [done|].
  apply wlp_bind, wlp_exists_entry. intros [] _; [|done]. cbn [negb].
  eapply wlp_same_bind; [unfold releaseLiabilities; keeps_easy|by apply moved_refl|].
  intros _ s1 H1.
  apply wlp_bind. apply (wlp_mono _ (fun a s' => account_handle a /\ s' = s1)).
  { destruct (_ || _); [|by apply wlp_ret].
    apply wlp_bind, wlp_exists_entry. intros [] _; apply wlp_ret; [|done].
    split; [by eexists|done]. }
  intros account _ [Ha ->].
  apply wlp_bind, wlp_loadTrustLineIfNotNative. intros sheepLine Hsheep.
  apply wlp_bind, wlp_loadTrustLineIfNotNative. intros wheatLine Hwheat.
  do 4 same_step.
  apply wlp_bind, wlp_lift. intros res Hres%exchangeV10_both_or_none.
  eapply wlp_adds_bind; [by apply adds_balance_or_throw_if|eassumption|]. intros ? ? ?.
  eapply wlp_adds_bind; [by apply adds_balance_or_throw_if|eassumption|]. intros ? ? ?.
  unfold loadOffer, loadAccount, acquireLiabilities. do 3 same_step.
  apply wlp_ret. intros _. cbn [cr_numSheepSend cr_numWheatReceived]. split; [|done].
  eapply moved_eqm; [eassumption|]. apply eqm_crossed.
Qed.

(** ** Taking offers off the book *)
Lemma wlp_bestOffer_pair b sl (Q : option LedgerKey -> LedgerState -> Prop) s :
  coherent s -> Q None s ->
  (forall k o, st_entries s !! k = Some (OFFER o) -> of_buying o = b -> of_selling o = sl ->
     Q (Some k) s) ->
  wlp (bestOffer b sl) Q s.
Proof.
  intros Hc HN HQ. unfold wlp, bestOffer.
  destruct (head _) as [o|] eqn:E; cbn; [|done].
  assert (Ho : o ∈ book (mkEntry 0 <$> st_entries s) b sl).
  { destruct (book _ _ _); [done|]. injection E as ->. left. }
  apply elem_of_book in Ho as (Htr & k & e & Hk & He).
  rewrite lookup_fmap in Hk. destruct (st_entries s !! k) as [d|] eqn:Ed; [|done].
  injection Hk as <-. unfold offer_of in He. cbn in He. destruct d; try done.
  injection He as ->. apply Hc in Ed as Hk. cbn in Hk. unfold offer_key. subst k.
  unfold trades in Htr. apply andb_true_iff in Htr as [H1 H2].
  apply bool_decide_eq_true in H1, H2. by eapply HQ.
Qed.

(** A round, and the loop: the taker's side is what is missing. *)
Definition taken_lumens (sheep wheat : Asset) (sheepSend wheatReceived : Z)
    (s s' : LedgerState) : Prop :=
  moved s s' (native sheep sheepSend - native wheat wheatReceived) /\
  both_or_none wheatReceived sheepSend.

Lemma taken_none sheep wheat s : coherent s -> taken_lumens sheep wheat 0 0 s s.
Proof.
  intros Hc. split; [|done]. rewrite !native_zero. by apply moved_refl.
Qed.

Definition round_lumens (sheep wheat : Asset) (s : LedgerState) (r : ConvertRound)
    (s' : LedgerState) : Prop :=
  match r with
  | RoundReturn _ (Some cr) _ | RoundNext cr =>
      taken_lumens sheep wheat (cr_numSheepSend cr) (cr_numWheatReceived cr) s s'
  | _ => s' = s
  end.

Lemma convertRound_lumens sheep wheat mss mwr path filter s :
  coherent s ->
  wlp (convertRound sheep wheat mss mwr path filter) (round_lumens sheep wheat s) s.
Proof.
  intros Hc. unfold convertRound. apply wlp_nested, wlp_bind, wlp_bestOffer_pair; [done| |].
  { by apply wlp_ret. }
  intros k o Hk Hb Hs. eapply wlp_bind, wlp_currentOffer; [done|].
  apply wlp_bind, wlp_lift. intros stop _. destruct stop; [|by apply wlp_ret].
  apply wlp_bind, wlp_currentHeader, wlp_bind.
  apply (wlp_mono _ (crossed_lumens o s)); [destruct (10 <=? _);
    [by apply crossOfferV10_lumens|by apply crossOffer_lumens]|].
  intros cr s1 Hcr. do 4 (apply wlp_bind, wlp_lift; intros ? _).
  rewrite <- Hb, <- Hs.
  destruct (cr_result cr) eqn:Er; [| |by apply wlp_ret];
    (destruct Hcr as [Hm Hbn]; [congruence|]); destruct (negb _); apply wlp_ret;
    (split; [exact Hm|exact Hbn]).
Qed.

Lemma native_add a x y : native a (x + y) = native a x + native a y.
Proof. unfold native. destruct (is_native a); lia. Qed.
Lemma taken_coherent sheep wheat x y s s' :
  taken_lumens sheep wheat x y s s' -> coherent s'.
Proof. by intros [(? & _) _]. Qed.
Lemma taken_trans sheep wheat x y x' y' s0 s1 s2 :
  0 <= x -> 0 <= y -> 0 <= x' -> 0 <= y' ->
  taken_lumens sheep wheat x y s0 s1 -> taken_lumens sheep wheat x' y' s1 s2 ->
  taken_lumens sheep wheat (x + x') (y + y') s0 s2.
Proof.
  intros ???? [Hm Hb] [Hm' Hb']. split; [|unfold both_or_none in *; lia].
  eapply moved_eqm; [by eapply moved_trans|]. rewrite !native_add. apply eqm_eq. lia.
Qed.

Lemma convertLoop_lumens fuel sheep wheat mss mwr path filter ss wr tr s0 s :
  amount mss -> amount mwr -> 0 <= ss -> 0 <= wr ->
  ss + mss <= INT64_MAX -> wr + mwr <= INT64_MAX ->
  taken_lumens sheep wheat ss wr s0 s ->
  wlp (convertLoop fuel sheep wheat mss mwr path filter ss wr tr)
    (fun r s' => forall c, r = Some c ->
       taken_lumens sheep wheat (cv_sheepSend c) (cv_wheatReceived c) s0 s') s.
Proof.
  revert mss mwr ss wr tr s. induction fuel as [|fuel IH];
    intros mss mwr ss wr tr s Hmss Hmwr Hss Hwr Hm1 Hm2 Ht; [by apply wlp_ret|].
  cbn [convertLoop]. apply wlp_bind. eapply wlp_mono.
  { apply wlp_and; [by apply wlp_convertRound|].
    by eapply convertRound_lumens, taken_coherent. }
  intros r s1 [Hr Hl]. destruct r as [|o|res [cr|] tr'|cr]; cbn in Hr, Hl.
  - subst s1. apply wlp_bind, wlp_currentHeader, wlp_ret. by intros ? [= <-].
  - subst s1. apply wlp_ret. by intros ? [= <-].
  - apply wlp_ret. intros ? [= <-]. cbn. rewrite !s64_id by (unfold_ints; lia).
    destruct Hr as [Hw _]. apply (taken_trans sheep wheat _ _ _ _ s0 s s1); try done; lia.
  - subst s1. apply wlp_ret. by intros ? [= <-].
  - destruct Hr as (Hw & _ & _ & _ & ? & ?).
    rewrite !s64_id by (unfold_ints; lia). apply IH; try (unfold_ints; lia).
    apply (taken_trans sheep wheat _ _ _ _ s0 s s1); try done; lia.
Qed.

(** What the conversion leaves for the taker to settle, and its bounds. *)
Lemma convertWithOffers_lumens sheep mss wheat mwr path filter s :
  coherent s -> amount mss -> amount mwr ->
  wlp (convertWithOffers sheep mss wheat mwr path filter)
    (fun c s' => taken_lumens sheep wheat (cv_sheepSend c) (cv_wheatReceived c) s s' /\
       0 <= cv_sheepSend c <= mss /\ 0 <= cv_wheatReceived c <= mwr) s.
Proof.
  intros Hc Hmss Hmwr. unfold convertWithOffers. destruct (_ && _).
  2:{ apply wlp_ret. split; [by apply taken_none|]. cbn. unfold_ints; lia. }
  pose proof (wlp_and _ _ _ s
    (convertLoop_lumens (S (size (st_entries s))) sheep wheat mss mwr path filter 0 0 [] s s
       Hmss Hmwr (Z.le_refl 0) (Z.le_refl 0) ltac:(unfold_ints; lia) ltac:(unfold_ints; lia)
       (taken_none sheep wheat s Hc))
    (wlp_convertLoop (S (size (st_entries s))) sheep wheat mss mwr path filter 0 0 [] s
       ltac:(lia) Hmss Hmwr (Z.le_refl 0) (Z.le_refl 0) ltac:(unfold_ints; lia)
       ltac:(unfold_ints; lia) eq_refl eq_refl)) as H.
  revert H. unfold wlp. destruct (convertLoop _ _ _ _ _ _ _ _ _ _ s) as [[r s1]|]; [|done].
  intros [H1 (c & -> & H2)]. split; [by apply H1|]. lia.
Qed.
