(* ===== verification/Payments.v ===== *)
(** The operations that pay, possibly along a path of offers:
    [src/src/transactions/PathPaymentOpFrame.cpp] and [PaymentOpFrame.cpp]. *)

From S2P Require Import Prelude Numeric OfferMath Types OfferOrder LedgerTxn.
From S2P Require Import LedgerState TransactionUtils OfferExchange Operations.

(** * PathPayment *)
Record PathPaymentOp := mkPathPayment {
  pp_sendAsset : Asset;
  pp_sendMax : Z;
  pp_destination : AccountID;
  pp_destAsset : Asset;
  pp_destAmount : Z;
  pp_path : list Asset }.

Record SimplePaymentResult := mkSimplePayment {
  sp_destination : AccountID; sp_asset : Asset; sp_amount : Z }.

Inductive PathPaymentResult :=
  | PATH_PAYMENT_SUCCESS (offers : list ClaimOfferAtom) (last : SimplePaymentResult)
  | PATH_PAYMENT_MALFORMED | PATH_PAYMENT_UNDERFUNDED | PATH_PAYMENT_SRC_NO_TRUST
  | PATH_PAYMENT_SRC_NOT_AUTHORIZED | PATH_PAYMENT_NO_DESTINATION
  | PATH_PAYMENT_NO_TRUST | PATH_PAYMENT_NOT_AUTHORIZED | PATH_PAYMENT_LINE_FULL
  | PATH_PAYMENT_NO_ISSUER (noIssuer : Asset) | PATH_PAYMENT_TOO_FEW_OFFERS
  | PATH_PAYMENT_OFFER_CROSS_SELF | PATH_PAYMENT_OVER_SENDMAX.

Definition PathPayment_doCheckValid (op : PathPaymentOp) : bool :=
  negb ((pp_destAmount op <=? 0) || (pp_sendMax op <=? 0))
  && (isAssetValid (pp_sendAsset op) && isAssetValid (pp_destAsset op))
  && forallb isAssetValid (pp_path op).

(** [fullPath.size() == 1]: no intermediate asset. *)
Definition bypassIssuerCheck (op : PathPaymentOp) : outcome bool :=
  if negb (is_native (pp_destAsset op))
     && Nat.eqb (length (pp_sendAsset op :: pp_path op)) 1
     && bool_decide (pp_sendAsset op = pp_destAsset op)
  then issuer ← getIssuer (pp_destAsset op); Ok (issuer =? pp_destination op)
  else Ok false.

(** The filter of the operation: stop at one's own offer. *)
Definition ownOfferFilter (src : AccountID) : OfferFilter := fun offer =>
  Ok (if of_seller offer =? src then eStop else eKeep).

(** A step that may end the operation: [Some] is the code of a
    [return false]. *)
Definition Guard : Type := M (option PathPaymentResult).
Definition refuse (code : PathPaymentResult) : Guard := mret (Some code).
Definition pass : Guard := mret None.
Definition guarded (m : Guard) (rest : M (bool * PathPaymentResult))
    : M (bool * PathPaymentResult) :=
  code ← m;
  match code with Some c => mret (false, c) | None => rest end.

Definition issuerExists (asset : Asset) : Guard :=
  i ← lift (getIssuer asset);
  issuer ← loadAccountWithoutRecord i;
  if negb issuer then refuse (PATH_PAYMENT_NO_ISSUER asset) else pass.

(** Paying the destination. *)
Definition creditDestination (bypass : bool) (destination : AccountID)
    (curB : Asset) (curBReceived : Z) : Guard :=
  if is_native curB then
    _ ← loadAccount destination;
    ok ← modify (KeyAccount destination) (fun h e => addBalance h e curBReceived);
    if negb ok then refuse PATH_PAYMENT_MALFORMED else pass
  else
    noIssuer ← (if negb bypass then issuerExists curB else pass);
    match noIssuer with
    | Some c => refuse c
    | None =>
        destLine ← loadTrustLine destination curB;
        b ← line_bool destLine;
        if negb b then refuse PATH_PAYMENT_NO_TRUST
        else
          auth ← line_isAuthorized destLine;
          if negb auth then refuse PATH_PAYMENT_NOT_AUTHORIZED
          else
            ok ← line_addBalance destLine curBReceived;
            if negb ok then refuse PATH_PAYMENT_LINE_FULL else pass
    end.

(** Charging the source. *)
Definition debitSource (bypass doesSourceAccountExist : bool) (src : AccountID)
    (curB : Asset) (curBSent : Z) : Guard :=
  if is_native curB then
    header ← currentHeader;
    sourceAccount ← loadAccount src;
    if (7 <? ledgerVersion header) && negb sourceAccount
    then refuse PATH_PAYMENT_MALFORMED
    else
      avail ← read (KeyAccount src) getAvailableBalance;
      if avail <? curBSent then refuse PATH_PAYMENT_UNDERFUNDED
      else if negb doesSourceAccountExist
      then throw "modifying account that does not exist"
      else
        ok ← modify (KeyAccount src) (fun h e => addBalance h e (s64 (- curBSent)));
        _ ← assertM "ok" ok;
        pass
  else
    noIssuer ← (if negb bypass then issuerExists curB else pass);
    match noIssuer with
    | Some c => refuse c
    | None =>
        sourceLine ← loadTrustLine src curB;
        b ← line_bool sourceLine;
        if negb b then refuse PATH_PAYMENT_SRC_NO_TRUST
        else
          auth ← line_isAuthorized sourceLine;
          if negb auth then refuse PATH_PAYMENT_SRC_NOT_AUTHORIZED
          else
            ok ← line_addBalance sourceLine (s64 (- curBSent));
            if negb ok then refuse PATH_PAYMENT_UNDERFUNDED else pass
    end.

(** One conversion [curA -> curB]: the amount of [curA] that buys
    [curBReceived] of [curB], and the offers taken. *)
Definition convertHop (src : AccountID) (curA curB : Asset) (curBReceived : Z)
    : M (PathPaymentResult + Z * list ClaimOfferAtom) :=
  noIssuer ← (if negb (is_native curA) then issuerExists curA else pass);
  match noIssuer with
  | Some c => mret (inl c)
  | None =>
      r ← convertWithOffers curA INT64_MAX curB curBReceived true
            (Some (ownOfferFilter src));
      _ ← assertM "curASent >= 0" (0 <=? cv_sheepSend r);
      match cv_result r with
      | eFilterStop => mret (inl PATH_PAYMENT_OFFER_CROSS_SELF)
      | eOK =>
          if curBReceived =? cv_wheatReceived r
          then mret (inr (cv_sheepSend r, cv_trail r))
          else mret (inl PATH_PAYMENT_TOO_FEW_OFFERS)
      | ePartial => mret (inl PATH_PAYMENT_TOO_FEW_OFFERS)
      end
  end.

(** The walk over the path, last asset first. *)
Fixpoint walkPath (src : AccountID) (path : list Asset) (curB : Asset)
    (curBReceived : Z) (offers : list ClaimOfferAtom)
    : M (PathPaymentResult + Asset * Z * list ClaimOfferAtom) :=
  match path with
  | [] => mret (inr (curB, curBReceived, offers))
  | curA :: path =>
      if bool_decide (curA = curB) then walkPath src path curB curBReceived offers
      else
        hop ← convertHop src curA curB curBReceived;
        match hop with
        | inl c => mret (inl c)
        | inr (curASent, trail) => walkPath src path curA curASent (trail ++ offers)
        end
  end.

Definition PathPayment_doApply (src : AccountID) (op : PathPaymentOp)
    : M (bool * PathPaymentResult) :=
  let curB := pp_destAsset op in
  let curBReceived := pp_destAmount op in
  let fullPath := pp_sendAsset op :: pp_path op in
  bypass ← lift (bypassIssuerCheck op);
  header ← currentHeader;
  doesSourceAccountExist ←
    (if ledgerVersion header <? 8 then loadAccountWithoutRecord src else mret true);
  guarded
    (if negb bypass then
       destination ← loadAccountWithoutRecord (pp_destination op);
       if negb destination then refuse PATH_PAYMENT_NO_DESTINATION else pass
     else pass)
  (guarded (creditDestination bypass (pp_destination op) curB curBReceived)
  (walked ← walkPath src (rev fullPath) curB curBReceived [];
   match walked with
   | inl c => mret (false, c)
   | inr (curB, curBSent, offers) =>
       if pp_sendMax op <? curBSent then mret (false, PATH_PAYMENT_OVER_SENDMAX)
       else
         guarded (debitSource bypass doesSourceAccountExist src curB curBSent)
           (mret (true, PATH_PAYMENT_SUCCESS offers
                          (mkSimplePayment (pp_destination op) (pp_destAsset op)
                             (pp_destAmount op))))
   end)).

(** * Payment: a path payment with no path *)
Record PaymentOp := mkPayment {
  pay_destination : AccountID; pay_asset : Asset; pay_amount : Z }.
Inductive PaymentResultCode :=
  | PAYMENT_SUCCESS | PAYMENT_MALFORMED | PAYMENT_UNDERFUNDED | PAYMENT_SRC_NO_TRUST
  | PAYMENT_SRC_NOT_AUTHORIZED | PAYMENT_NO_DESTINATION | PAYMENT_NO_TRUST
  | PAYMENT_NOT_AUTHORIZED | PAYMENT_LINE_FULL | PAYMENT_NO_ISSUER.

Definition Payment_doCheckValid (op : PaymentOp) : bool * PaymentResultCode :=
  if pay_amount op <=? 0 then (false, PAYMENT_MALFORMED)
  else if negb (isAssetValid (pay_asset op)) then (false, PAYMENT_MALFORMED)
  else (true, PAYMENT_SUCCESS).

Definition paymentPathOp (op : PaymentOp) : PathPaymentOp :=
  mkPathPayment (pay_asset op) (pay_amount op) (pay_destination op) (pay_asset op)
    (pay_amount op) [].

Definition paymentResultOf (c : PathPaymentResult) : outcome PaymentResultCode :=
  match c with
  | PATH_PAYMENT_UNDERFUNDED => Ok PAYMENT_UNDERFUNDED
  | PATH_PAYMENT_SRC_NOT_AUTHORIZED => Ok PAYMENT_SRC_NOT_AUTHORIZED
  | PATH_PAYMENT_SRC_NO_TRUST => Ok PAYMENT_SRC_NO_TRUST
  | PATH_PAYMENT_NO_DESTINATION => Ok PAYMENT_NO_DESTINATION
  | PATH_PAYMENT_NO_TRUST => Ok PAYMENT_NO_TRUST
  | PATH_PAYMENT_NOT_AUTHORIZED => Ok PAYMENT_NOT_AUTHORIZED
  | PATH_PAYMENT_LINE_FULL => Ok PAYMENT_LINE_FULL
  | PATH_PAYMENT_NO_ISSUER _ => Ok PAYMENT_NO_ISSUER
  | _ => Throw (RuntimeError "Unexpected error code from pathPayment")
  end.

Definition Payment_doApply (src : AccountID) (op : PaymentOp)
    : M (bool * PaymentResultCode) :=
  header ← currentHeader;
  let instantSuccess :=
    if 2 <? ledgerVersion header
    then (pay_destination op =? src) && is_native (pay_asset op)
    else pay_destination op =? src in
  if instantSuccess then mret (true, PAYMENT_SUCCESS)
  else
    let ppOp := paymentPathOp op in
    r ← (if negb (PathPayment_doCheckValid ppOp)
         then mret (false, PATH_PAYMENT_MALFORMED)
         else PathPayment_doApply src ppOp);
    match r with
    | (false, c) => res ← lift (paymentResultOf c); mret (false, res)
    | (true, c) =>
        _ ← assertM "getInnerCode(ppayment.getResult()) == PATH_PAYMENT_SUCCESS"
              (match c with PATH_PAYMENT_SUCCESS _ _ => true | _ => false end);
        mret (true, PAYMENT_SUCCESS)
    end.
