(* ===== verification/ManageOffers.v ===== *)
(** The operations that put offers on the book:
    [src/src/transactions/ManageOfferOpFrame.cpp] and
    [CreatePassiveOfferOpFrame.cpp]. *)

From S2P Require Import Prelude Numeric OfferMath Types OfferOrder LedgerTxn.
From S2P Require Import LedgerState TransactionUtils OfferExchange Operations.

Record ManageOfferOp := mkManageOffer {
  mo_selling : Asset;
  mo_buying : Asset;
  mo_amount : Z;
  mo_price : Price;
  mo_offerID : Z }.

Inductive ManageOfferEffect :=
  | MANAGE_OFFER_CREATED (offer : OfferEntry)
  | MANAGE_OFFER_UPDATED (offer : OfferEntry)
  | MANAGE_OFFER_DELETED.
Inductive ManageOfferResult :=
  | MANAGE_OFFER_SUCCESS (offersClaimed : list ClaimOfferAtom) (effect : ManageOfferEffect)
  | MANAGE_OFFER_MALFORMED | MANAGE_OFFER_SELL_NO_TRUST | MANAGE_OFFER_BUY_NO_TRUST
  | MANAGE_OFFER_SELL_NOT_AUTHORIZED | MANAGE_OFFER_BUY_NOT_AUTHORIZED
  | MANAGE_OFFER_LINE_FULL | MANAGE_OFFER_UNDERFUNDED | MANAGE_OFFER_CROSS_SELF
  | MANAGE_OFFER_SELL_NO_ISSUER | MANAGE_OFFER_BUY_NO_ISSUER
  | MANAGE_OFFER_NOT_FOUND | MANAGE_OFFER_LOW_RESERVE.

Definition ManageOffer_doCheckValid (op : ManageOfferOp) (ledgerVersion : Z)
    : option ManageOfferResult :=
  let sheep := mo_selling op in
  let wheat := mo_buying op in
  if negb (isAssetValid sheep) || negb (isAssetValid wheat)
  then Some MANAGE_OFFER_MALFORMED
  else if compareAsset sheep wheat then Some MANAGE_OFFER_MALFORMED
  else if (mo_amount op <? 0) || (pd (mo_price op) <=? 0) || (pn (mo_price op) <=? 0)
  then Some MANAGE_OFFER_MALFORMED
  else if (2 <? ledgerVersion) && (mo_offerID op =? 0) && (mo_amount op =? 0)
  then Some MANAGE_OFFER_NOT_FOUND
  else None.

Definition buildOffer (account : AccountID) (op : ManageOfferOp) (flags : Z)
    : OfferEntry :=
  mkOffer account (mo_offerID op) (mo_selling op) (mo_buying op) (mo_amount op)
    (mo_price op) flags.

(** ** [checkOfferValid]: [Some] is the code of a [return false].  Its ledger
    transaction is always rolled back. *)
Definition checkSheepLine (src : AccountID) (sheep : Asset) : M (option ManageOfferResult) :=
  if is_native sheep then mret None
  else
    sheepLineA ← loadTrustLine src sheep;
    i ← lift (getIssuer sheep);
    issuer ← loadAccount i;
    if negb issuer then mret (Some MANAGE_OFFER_SELL_NO_ISSUER)
    else
      b ← line_bool sheepLineA;
      if negb b then mret (Some MANAGE_OFFER_SELL_NO_TRUST)
      else
        balance ← line_getBalance sheepLineA;
        if balance =? 0 then mret (Some MANAGE_OFFER_UNDERFUNDED)
        else
          auth ← line_isAuthorized sheepLineA;
          if negb auth then mret (Some MANAGE_OFFER_SELL_NOT_AUTHORIZED)
          else mret None.

Definition checkWheatLine (src : AccountID) (wheat : Asset) : M (option ManageOfferResult) :=
  if is_native wheat then mret None
  else
    wheatLineA ← loadTrustLine src wheat;
    i ← lift (getIssuer wheat);
    issuer ← loadAccount i;
    if negb issuer then mret (Some MANAGE_OFFER_BUY_NO_ISSUER)
    else
      b ← line_bool wheatLineA;
      if negb b then mret (Some MANAGE_OFFER_BUY_NO_TRUST)
      else
        auth ← line_isAuthorized wheatLineA;
        if negb auth then mret (Some MANAGE_OFFER_BUY_NOT_AUTHORIZED)
        else mret None.

Definition checkOfferValid (src : AccountID) (op : ManageOfferOp)
    : M (option ManageOfferResult) :=
  nested
    (code ←
       (if mo_amount op =? 0 then mret None
        else
          code ← checkSheepLine src (mo_selling op);
          match code with
          | Some c => mret (Some c)
          | None => checkWheatLine src (mo_buying op)
          end);
     mret (false, code)).

(** ** [computeOfferExchangeParameters]: [maxSheepSend] and [maxWheatReceive],
    or the code of a [return false].  Its ledger transaction is always rolled
    back, the new subentry included. *)
Definition availableForSheep (src : AccountID) (sheep : Asset)
    (sheepLineA : TrustLineWrapper) : M Z :=
  if is_native sheep then read (KeyAccount src) getAvailableBalance
  else line_getAvailableBalance sheepLineA.
Definition availableForWheat (src : AccountID) (wheat : Asset)
    (wheatLineA : TrustLineWrapper) : M Z :=
  if is_native wheat then read (KeyAccount src) getMaxAmountReceive
  else line_getMaxAmountReceive wheatLineA.

Definition exchangeLimits (src : AccountID) (offer : OfferEntry)
    : M (ManageOfferResult + Z * Z) :=
  let sheep := of_selling offer in
  let wheat := of_buying offer in
  header ← currentHeader;
  sheepLineA ← loadTrustLineIfNotNative src sheep;
  wheatLineA ← loadTrustLineIfNotNative src wheat;
  maxWheatReceive ← canBuyAtMost (Some (KeyAccount src)) wheat wheatLineA;
  if 10 <=? ledgerVersion header then
    availableLimit ← availableForWheat src wheat wheatLineA;
    buyingLiabilities ← lift (getOfferBuyingLiabilities header (OFFER offer));
    if availableLimit <? buyingLiabilities then mret (inl MANAGE_OFFER_LINE_FULL)
    else
      availableBalance ← availableForSheep src sheep sheepLineA;
      sellingLiabilities ← lift (getOfferSellingLiabilities header (OFFER offer));
      if availableBalance <? sellingLiabilities then mret (inl MANAGE_OFFER_UNDERFUNDED)
      else
        maxSheepSend ← canSellAtMost (Some (KeyAccount src)) sheep sheepLineA;
        mret (inr (Z.min (of_amount offer) maxSheepSend, maxWheatReceive))
  else
    maxSheepCanSell ← canSellAtMost (Some (KeyAccount src)) sheep sheepLineA;
    q ← lift (bigDivide_s64 maxWheatReceive (pd (of_price offer)) (pn (of_price offer))
                ROUND_DOWN);
    let maxSheepBasedOnWheat := default INT64_MAX q in
    let maxSheepSend := Z.min maxSheepCanSell maxSheepBasedOnWheat in
    mret (inr (Z.min (of_amount offer) maxSheepSend, maxWheatReceive)).

Definition computeOfferExchangeParameters (src : AccountID) (offer : OfferEntry)
    (creatingNewOffer : bool) : M (ManageOfferResult + Z * Z) :=
  nested
    (header ← currentHeader;
     _ ← loadSourceAccount src;
     ok ← (if creatingNewOffer
              && ((10 <=? ledgerVersion header)
                  || (is_native (of_selling offer) && (8 <? ledgerVersion header)))
           then modify (KeyAccount src) (fun h e => addNumEntries h e 1)
           else mret true);
     r ← (if negb ok then mret (inl MANAGE_OFFER_LOW_RESERVE)
          else exchangeLimits src offer);
     mret (false, r)).

(** ** The filter: a worse price ends the crossing, one's own offer is an
    error. *)
Definition worsePrice (passive : bool) (maxWheatPrice : Price) (o : OfferEntry) : bool :=
  (passive && price_ge (of_price o) maxWheatPrice)
  || price_gt (of_price o) maxWheatPrice.

Definition manageOfferFilter (src : AccountID) (passive : bool) (offerID : Z)
    (maxWheatPrice : Price) : OfferFilter := fun o =>
  _ ← cassert "o.offerID != newOffer.data.offer().offerID"
        (negb (of_offerID o =? offerID));
  Ok (if worsePrice passive maxWheatPrice o then eStop
      else if of_seller o =? src then eStop
      else eKeep).

(** ** Settling what was crossed with the source's own balances *)
Definition settle (what : string) (src : AccountID) (asset : Asset) (delta : Z) : M unit :=
  ok ← (if is_native asset then
          _ ← loadSourceAccount src;
          modify (KeyAccount src) (fun h e => addBalance h e delta)
        else
          line ← loadTrustLine src asset;
          line_addBalance line delta);
  if negb ok then throw what else mret tt.

(** The amount of the offer that stays. *)
Definition remainingAmount (src : AccountID) (offer : OfferEntry)
    (sheepStays : bool) (amount : Z) : M Z :=
  header ← currentHeader;
  if 10 <=? ledgerVersion header then
    if sheepStays then
      _ ← loadAccountWithoutRecord src;
      sheepLineA ← loadTrustLineWithoutRecordIfNotNative src (of_selling offer);
      wheatLineA ← loadTrustLineWithoutRecordIfNotNative src (of_buying offer);
      canSell ← canSellAtMost_const (Some (KeyAccount src)) (of_selling offer) sheepLineA;
      let sheepSendLimit := Z.min amount canSell in
      wheatReceiveLimit ←
        canBuyAtMost_const (Some (KeyAccount src)) (of_buying offer) wheatLineA;
      lift (OfferMath.adjustOffer (of_price offer) sheepSendLimit wheatReceiveLimit)
    else mret 0
  else mret amount.

(** The [if (mManageOffer.amount > 0)] block: the offers claimed and the
    amount that stays, or the code of a [return false]. *)
Definition crossOffers (src : AccountID) (passive creatingNewOffer : bool)
    (offer : OfferEntry) : M (ManageOfferResult + list ClaimOfferAtom * Z) :=
  let sheep := of_selling offer in
  let wheat := of_buying offer in
  let maxWheatPrice := mkPrice (pd (of_price offer)) (pn (of_price offer)) in
  params ← computeOfferExchangeParameters src offer creatingNewOffer;
  match params with
  | inl c => mret (inl c)
  | inr (maxSheepSend, maxWheatReceive) =>
  if maxWheatReceive =? 0 then mret (inl MANAGE_OFFER_LINE_FULL)
  else
  r ← convertWithOffers sheep maxSheepSend wheat maxWheatReceive false
        (Some (manageOfferFilter src passive (of_offerID offer) maxWheatPrice));
  let sheepSent := cv_sheepSend r in
  let wheatReceived := cv_wheatReceived r in
  _ ← assertM "sheepSent >= 0" (0 <=? sheepSent);
  let crossedSelf :=
    match cv_result r, cv_stoppedAt r with
    | eFilterStop, Some o => negb (worsePrice passive maxWheatPrice o)
    | _, _ => false
    end in
  if crossedSelf then mret (inl MANAGE_OFFER_CROSS_SELF)
  else
    let sheepStays := match cv_result r with eOK => false | _ => true end in
    _ ← (if 0 <? wheatReceived then
           _ ← settle "offer claimed over limit" src wheat wheatReceived;
           settle "offer sold more than balance" src sheep (s64 (- sheepSent))
         else mret tt);
    amount ← remainingAmount src offer sheepStays (s64 (maxSheepSend - sheepSent));
    mret (inr (cv_trail r, amount))
  end.

(** The end of [doApply]: leave an offer, or account for the one that is
    gone. *)
Definition placeOffer (src : AccountID) (creatingNewOffer : bool) (offer : OfferEntry)
    : M (ManageOfferResult + ManageOfferEffect) :=
  header ← currentHeader;
  if 0 <? of_amount offer then
    placed ←
      (if creatingNewOffer then
         _ ← loadSourceAccount src;
         ok ← modify (KeyAccount src) (fun h e => addNumEntries h e 1);
         if negb ok then mret None
         else
           id ← generateID;
           mret (Some (set_offerID id offer))
       else mret (Some offer));
    match placed with
    | None => mret (inl MANAGE_OFFER_LOW_RESERVE)
    | Some offer =>
        _ ← createEntry (OFFER offer);
        _ ← (if 10 <=? ledgerVersion header
             then acquireLiabilities (LedgerDataKey (OFFER offer)) else mret tt);
        mret (inr (if creatingNewOffer then MANAGE_OFFER_CREATED offer
                   else MANAGE_OFFER_UPDATED offer))
    end
  else
    _ ← (if negb creatingNewOffer then
           _ ← loadSourceAccount src;
           _ ← modify (KeyAccount src) (fun h e => addNumEntries h e (-1));
           mret tt
         else mret tt);
    mret (inr MANAGE_OFFER_DELETED).

(** The old offer is taken off the book, its liabilities released: the new
    offer, and whether it is passive. *)
Definition startOffer (src : AccountID) (op : ManageOfferOp) (mPassive : bool)
    : M (option (OfferEntry * bool)) :=
  if mo_offerID op =? 0
  then mret (Some (buildOffer src op (if mPassive then PASSIVE_FLAG else 0), mPassive))
  else
    found ← loadOffer src (mo_offerID op);
    if negb found then mret None
    else
      let sellSheepOffer := KeyOffer src (mo_offerID op) in
      header ← currentHeader;
      _ ← (if 10 <=? ledgerVersion header
           then releaseLiabilities sellSheepOffer else mret tt);
      old ← currentOffer sellSheepOffer;
      let flags := of_flags old in
      _ ← eraseEntry sellSheepOffer;
      mret (Some (buildOffer src op flags, negb (Z.land flags PASSIVE_FLAG =? 0))).

(** [doApply]: every [return false] rolls the ledger transaction back. *)
Definition ManageOffer_doApply (src : AccountID) (mPassive : bool) (op : ManageOfferOp)
    : M (bool * ManageOfferResult) :=
  nested
    (invalid ← checkOfferValid src op;
     match invalid with
     | Some c => mret (false, (false, c))
     | None =>
     start ← startOffer src op mPassive;
     match start with
     | None => mret (false, (false, MANAGE_OFFER_NOT_FOUND))
     | Some (newOffer, passive) =>
     let creatingNewOffer := mo_offerID op =? 0 in
     crossed ←
       (if 0 <? mo_amount op then crossOffers src passive creatingNewOffer newOffer
        else mret (inr ([], of_amount newOffer)));
     match crossed with
     | inl c => mret (false, (false, c))
     | inr (claimed, amount) =>
     placed ← placeOffer src creatingNewOffer (set_amount amount newOffer);
     match placed with
     | inl c => mret (false, (false, c))
     | inr effect => mret (true, (true, MANAGE_OFFER_SUCCESS claimed effect))
     end
     end
     end
     end).

(** * CreatePassiveOffer: a manage-offer operation with the passive flag *)
Record CreatePassiveOfferOp := mkCreatePassiveOffer {
  cp_selling : Asset;
  cp_buying : Asset;
  cp_amount : Z;
  cp_price : Price }.

Definition ManageOfferOpHolder (op : CreatePassiveOfferOp) : ManageOfferOp :=
  mkManageOffer (cp_selling op) (cp_buying op) (cp_amount op) (cp_price op) 0.
Definition CreatePassiveOffer_doApply (src : AccountID) (op : CreatePassiveOfferOp)
    : M (bool * ManageOfferResult) :=
  ManageOffer_doApply src true (ManageOfferOpHolder op).
