(* ===== verification/OperationLumens.v ===== *)
(** Every operation that succeeds conserves lumens. *)

From S2P Require Import Prelude Numeric OfferMath Types Sums OfferOrder LedgerTxn.
From S2P Require Import LedgerTxnOffers InflationWinners LedgerState TransactionUtils.
From S2P Require Import OfferExchange Converting Accounting Lumens.
From S2P Require Import Operations Payments ManageOffers.

(** * Operations *)

(** An operation that succeeds conserves lumens. *)
Definition conserves {A} (m : M (bool * A)) : Prop :=
  forall s, coherent s -> wlp m (fun r s' => r.1 = true -> moved s s' 0) s.

Lemma same_conserves {A} (m : M (bool * A)) : keeps same_total m -> conserves m.
Proof.
  intros Hm s Hc. eapply wlp_same; [done|by apply moved_refl|]. auto.
Qed.

#[export] Hint Extern 1 (keeps same_total (updateAccount _ _)) =>
  (apply same_updateAccount; intros; split; reflexivity) : keeps.
#[export] Hint Extern 1 (keeps same_total (setCurrent _ _)) =>
  (apply same_setCurrent; [reflexivity|done]) : keeps.
#[export] Hint Extern 1 (keeps same_total (createEntry _)) =>
  (apply same_create; reflexivity) : keeps.

Lemma conserves_BumpSequence src b : conserves (BumpSequence_doApply src b).
Proof.
  apply same_conserves. unfold BumpSequence_doApply, loadSourceAccount, loadAccount,
    currentAccount. keeps_auto.
Qed.
Lemma conserves_ManageData src op : conserves (ManageData_doApply src op).
Proof.
  apply same_conserves. unfold ManageData_doApply, loadSourceAccount, loadAccount, loadData.
  keeps_auto.
Qed.
Lemma conserves_ChangeTrust src op : conserves (ChangeTrust_doApply src op).
Proof.
  apply same_conserves. unfold ChangeTrust_doApply, loadSourceAccount, loadAccount,
    loadAccountWithoutRecord. keeps_auto.
Qed.

Lemma same_removeOffers trustor ci offers :
  keeps same_total (removeOffers trustor ci offers).
Proof.
  induction offers as [|k offers IH]; [keeps_easy|].
  cbn [removeOffers]. apply same_currentOffer_bind. intros o ->.
  unfold releaseLiabilities, loadAccount. keeps_auto.
Qed.
Lemma keeps_offersBy (R : LedgerState -> LedgerState -> Prop) `{!PreOrder R} a c :
  keeps R (offersByAccountAndAsset a c).
Proof. intros s. unfold wlp, offersByAccountAndAsset. reflexivity. Qed.
#[export] Hint Resolve same_removeOffers keeps_offersBy : keeps.
Lemma conserves_AllowTrust src op : conserves (AllowTrust_doApply src op).
Proof.
  apply same_conserves. unfold AllowTrust_doApply, loadSourceAccount, loadAccount,
    currentAccount. keeps_auto.
Qed.

Lemma same_deleteSigners k key l l' : keeps same_total (deleteSigners k key l l').
Proof. revert l. induction l'; intros l; cbn [deleteSigners]; keeps_auto. Qed.
#[export] Hint Resolve same_deleteSigners : keeps.
Lemma same_updateSigner k signer : keeps same_total (updateSigner k signer).
Proof. unfold updateSigner, currentAccount. keeps_auto. Qed.
#[export] Hint Resolve same_updateSigner : keeps.
Lemma conserves_SetOptions src op : conserves (SetOptions_doApply src op).
Proof.
  apply same_conserves.
  unfold SetOptions_doApply, orFail, updateInflationDest, updateFlags, updateThreshold,
    loadSourceAccount, loadAccount, loadAccountWithoutRecord.
  keeps_auto.
Qed.

Lemma same_assertM what b : keeps same_total (assertM what b).
Proof. unfold assertM. keeps_easy. Qed.
Lemma same_loadAccount id : keeps same_total (loadAccount id).
Proof. unfold loadAccount. keeps_easy. Qed.
Lemma same_loadAccountWithoutRecord id : keeps same_total (loadAccountWithoutRecord id).
Proof. unfold loadAccountWithoutRecord. keeps_easy. Qed.
Lemma same_loadSourceAccount id : keeps same_total (loadSourceAccount id).
Proof. unfold loadSourceAccount, loadAccount. keeps_easy. Qed.
Lemma same_currentAccount k : keeps same_total (currentAccount k).
Proof. unfold currentAccount. keeps_auto. Qed.
#[export] Hint Resolve same_assertM same_loadAccount same_loadAccountWithoutRecord
  same_loadSourceAccount same_currentAccount : keeps.

(** One step of an operation: a bind that leaves the lumens alone, or a test
    one of whose sides refuses. *)
Ltac op_step :=
  first
  [ same_step
  | match goal with
    | |- wlp (if ?b then _ else _) _ _ => destruct b
    | |- wlp (mret (false, _)) _ _ => apply wlp_ret; by intros [=]
    | |- wlp (throw _) _ _ => exact I
    end ].

Lemma conserves_CreateAccount src op : conserves (CreateAccount_doApply src op).
Proof.
  intros s Hc. apply moved_refl in Hc. unfold CreateAccount_doApply. repeat op_step.
  all: try done.
  eapply wlp_adds_bind; [apply adds_addBalance|eassumption|intros ok ? ?].
  apply wlp_bind, wlp_lift. intros _ ->%cassert_Ok.
  eapply wlp_adds_bind; [apply adds_create|eassumption|intros ? ? ?].
  apply wlp_ret. intros _. eapply moved_eqm; [eassumption|].
  cbn [modulus lumens weight LedgerDataKey newAccountEntry acc_balance].
  rewrite eqm_s64. apply eqm_eq. cbn. lia.
Qed.

Lemma wlp_modify_other k f s :
  wlp (modify k f) (fun _ s' => forall j, j <> k -> st_entries s' !! j = st_entries s !! j) s.
Proof.
  apply wlp_modify. intros d _. destruct (f (st_header s) d) as [[d'|]|]; [|done..].
  intros j Hj. cbn. by rewrite lookup_insert_ne.
Qed.
Lemma wlp_currentAccount k (Q : AccountEntry -> LedgerState -> Prop) s :
  (forall a, st_entries s !! k = Some (ACCOUNT a) -> Q a s) -> wlp (currentAccount k) Q s.
Proof.
  intros HQ. apply wlp_bind, wlp_current. intros d Hd. apply wlp_lift. intros a Ha.
  destruct d; try done. injection Ha as ->. by apply HQ.
Qed.

(** The balance that protocol versions 6 and 7 read early is the one that the
    others read later. *)
Lemma wlp_mergeEarly src header s :
  wlp (if (4 <? ledgerVersion header) && (ledgerVersion header <? 8) then
         thisAccount ← exists_entry (KeyAccount src);
         if negb thisAccount then mret None
         else if 5 <? ledgerVersion header then
           a ← currentAccount (KeyAccount src); mret (Some (acc_balance a))
         else mret (Some 0)
       else mret (Some 0))
    (fun early s' => s' = s /\ forall b a, early = Some b ->
       st_entries s !! KeyAccount src = Some (ACCOUNT a) ->
       (if (ledgerVersion header <=? 5) || (8 <=? ledgerVersion header)
        then acc_balance a else b) = acc_balance a) s.
Proof.
  destruct (Z.ltb_spec 4 (ledgerVersion header)),
    (Z.ltb_spec (ledgerVersion header) 8); cbn [andb].
  2-4: apply wlp_ret; split; [done|]; intros b a _ _;
    destruct (Z.leb_spec (ledgerVersion header) 5),
      (Z.leb_spec 8 (ledgerVersion header)); done || lia.
  apply wlp_bind, wlp_exists_entry. intros [] _; [|by apply wlp_ret]. cbn [negb].
  destruct (Z.ltb_spec 5 (ledgerVersion header)).
  - apply wlp_bind, wlp_currentAccount. intros a0 Ha0. apply wlp_ret. split; [done|].
    intros b a [= <-] Ha. rewrite Ha0 in Ha. injection Ha as ->. by case_match.
  - apply wlp_ret. split; [done|]. intros b a _ _.
    by rewrite (proj2 (Z.leb_le (ledgerVersion header) 5)) by lia.
Qed.

Lemma conserves_Merge src dest : src <> dest -> conserves (Merge_doApply src dest).
Proof.
  intros Hne s Hc. unfold Merge_doApply. apply wlp_bind, wlp_currentHeader.
  apply wlp_bind, wlp_exists_entry. intros [] _; cbn [negb]; [|by apply wlp_ret].
  apply wlp_bind. eapply wlp_mono; [apply wlp_mergeEarly|].
  intros early _ [-> Hb]. destruct early as [b|]; [|by apply wlp_ret].
  apply wlp_bind, wlp_exists_entry. intros _ _.
  apply wlp_bind, wlp_currentAccount. intros a Ha. rewrite (Hb b a eq_refl Ha).
  apply wlp_bind, wlp_read. intros d immutable _ _. apply moved_refl in Hc as Hm.
  repeat op_step.
  apply wlp_bind. eapply wlp_mono.
  { apply wlp_and; [apply (adds_addBalance dest (acc_balance a)), Hc|apply wlp_modify_other]. }
  intros [] s1 [Hs1 Hother]; cbn [negb]; [|by apply wlp_ret].
  apply wlp_bind. eapply wlp_erase_moved; [exact Hs1|rewrite Hother by congruence; exact Ha|].
  intros s2 Hs2. apply wlp_ret. intros _. eapply moved_eqm; [exact Hs2|].
  apply eqm_eq. cbn. lia.
Qed.

(** ** Payments *)
Lemma same_issuerExists a : keeps same_total (issuerExists a).
Proof. unfold issuerExists, refuse, pass. keeps_auto. Qed.
Lemma same_pass : keeps same_total pass.
Proof. unfold pass. keeps_easy. Qed.
Lemma same_line_bool w : keeps same_total (line_bool w).
Proof. keeps_easy. Qed.
#[export] Hint Resolve same_issuerExists same_pass : keeps.

(** A guard that lets pass has moved [x]. *)
Definition guards (m : Guard) (x : Z) : Prop :=
  forall s, coherent s -> wlp m (fun r s' => r = None -> moved s s' x) s.

Lemma wlp_guarded (m : Guard) x rest s0 s y :
  guards m x -> moved s0 s y ->
  (forall s', moved s0 s' (y + x) -> wlp rest (fun r s' => r.1 = true -> moved s0 s' 0) s') ->
  wlp (guarded m rest) (fun r s' => r.1 = true -> moved s0 s' 0) s.
Proof.
  intros Hm Hs Hrest. apply wlp_bind. eapply wlp_mono; [apply Hm, Hs|].
  intros [c|] s' H'; [by apply wlp_ret; intros [=]|].
  apply Hrest. eapply moved_trans; [done|by apply H'].
Qed.
Lemma guards_same (m : Guard) : keeps same_total m -> guards m 0.
Proof. intros Hm s Hc. eapply wlp_same; [done|by apply moved_refl|]. auto. Qed.

Ltac guard_step :=
  first
  [ same_step
  | match goal with
    | |- wlp (if ?b then _ else _) _ _ => destruct b
    | |- wlp (refuse _) _ _ => apply wlp_ret; by intros [=]
    | |- wlp (match ?o with _ => _ end) _ _ => destruct o
    | |- wlp (throw _) _ _ => exact I
    end ].


Lemma guards_credit bypass dest curB x :
  guards (creditDestination bypass dest curB x) (native curB x).
Proof.
  intros s Hc%moved_refl. unfold creditDestination, native. destruct (is_native curB).
  - same_step. eapply wlp_adds_bind; [apply adds_addBalance|eassumption|].
    intros [] ? ?; cbn [negb]; [|apply wlp_ret; by intros [=]].
    apply wlp_ret. intros _. eassumption.
  - do 2 guard_step; [guard_step|].
    apply wlp_bind, wlp_makeWrapper. intros w Hw. repeat guard_step.
    eapply wlp_same_bind; [by apply same_line_addBalance|eassumption|].
    intros [] ? ?; cbn [negb]; [|apply wlp_ret; by intros [=]].
    apply wlp_ret. intros _. eassumption.
Qed.
Lemma guards_debit bypass ex src curB x :
  guards (debitSource bypass ex src curB x) (- native curB x).
Proof.
  intros s Hc%moved_refl. unfold debitSource. unfold native at 1. destruct (is_native curB).
  - repeat guard_step.
    eapply wlp_adds_bind; [apply adds_addBalance|eassumption|intros ok ? ?].
    apply wlp_bind, wlp_lift. intros _ ->%cassert_Ok. apply wlp_ret. intros _.
    eapply moved_eqm; [eassumption|]. rewrite eqm_s64. by apply eqm_eq.
  - do 2 guard_step; [guard_step|].
    apply wlp_bind, wlp_makeWrapper. intros w Hw. repeat guard_step.
    eapply wlp_same_bind; [by apply same_line_addBalance|eassumption|].
    intros [] ? ?; cbn [negb]; [|apply wlp_ret; by intros [=]].
    apply wlp_ret. intros _. eassumption.
Qed.

(** One hop, and the walk: what is received of one asset is paid for in the
    next. *)
Lemma wlp_convertHop src curA curB x s0 s y :
  amount x -> moved s0 s y ->
  wlp (convertHop src curA curB x)
    (fun r s' => match r with
                 | inr (sent, _) =>
                     amount sent /\ moved s0 s' (y + (native curA sent - native curB x))
                 | inl _ => True
                 end) s.
Proof.
  intros Hx Hm. unfold convertHop. same_step.
  match goal with |- wlp (match ?o with _ => _ end) _ _ => destruct o end; [by apply wlp_ret|].
  apply wlp_bind. eapply wlp_mono.
  { apply (convertWithOffers_lumens curA INT64_MAX curB x);
      [match goal with H : moved _ ?t _ |- coherent ?t => apply H end
      |unfold amount; unfold_ints; lia|done]. }
  intros c s1 ([Hc _] & Hs & _). apply wlp_bind, wlp_lift. intros _ _.
  destruct (cv_result c); [|by apply wlp_ret..].
  destruct (Z.eqb_spec x (cv_wheatReceived c)) as [->|]; [|by apply wlp_ret].
  apply wlp_ret. split; [done|]. by eapply moved_trans.
Qed.

Lemma wlp_walkPath src path curB x offers s0 s y :
  amount x -> moved s0 s y ->
  wlp (walkPath src path curB x offers)
    (fun r s' => match r with
                 | inr (curB', sent, _) =>
                     moved s0 s' (y + (native curB' sent - native curB x))
                 | inl _ => True
                 end) s.
Proof.
  revert curB x offers s y. induction path as [|curA path IH];
    intros curB x offers s y Hx Hm; cbn [walkPath].
  { apply wlp_ret. by rewrite Z.sub_diag, Z.add_0_r. }
  destruct (bool_decide _); [by apply IH|].
  apply wlp_bind. eapply wlp_mono; [by apply wlp_convertHop|].
  intros [c|[sent trail]] s1; [by intros; apply wlp_ret|]. intros [Hsent H1].
  eapply wlp_mono; [by apply IH|]. intros [c|[[curB' sent'] offers']] s2; [done|].
  intros H2. eapply moved_eqm; [exact H2|]. apply eqm_eq. lia.
Qed.

Lemma conserves_PathPayment src op :
  amount (pp_destAmount op) -> conserves (PathPayment_doApply src op).
Proof.
  intros Hx s Hc%moved_refl. unfold PathPayment_doApply. do 3 same_step.
  eapply wlp_guarded; [apply guards_same|eassumption|].
  { unfold refuse, pass. keeps_auto. }
  intros ? ?. eapply wlp_guarded; [apply guards_credit|eassumption|].
  intros ? ?. apply wlp_bind. eapply wlp_mono; [by apply wlp_walkPath|].
  intros [c|[[curB sent] offers]] s3; [intros _; apply wlp_ret; by intros [=]|].
  intros ?. destruct (_ <? _); [apply wlp_ret; by intros [=]|].
  eapply wlp_guarded; [apply guards_debit|eassumption|].
  intros s4 Hend. apply wlp_ret. intros _. eapply moved_eqm; [exact Hend|]. apply eqm_eq. lia.
Qed.

Lemma conserves_Payment src op :
  amount (pay_amount op) -> conserves (Payment_doApply src op).
Proof.
  intros Hx s Hc. apply moved_refl in Hc as Hm. unfold Payment_doApply.
  apply wlp_bind, wlp_currentHeader.
  match goal with |- wlp (if ?b then _ else _) _ _ => destruct b end.
  { apply wlp_ret. auto. }
  apply wlp_bind. apply (wlp_mono _ (fun r s' => r.1 = true -> moved s s' 0)).
  { destruct (negb _); [apply wlp_ret; by intros [=]|]. by apply conserves_PathPayment. }
  intros [[] c] s1 H1.
  - apply wlp_bind, wlp_lift. intros _ _. apply wlp_ret. by intros _; apply H1.
  - apply wlp_bind, wlp_lift. intros r _. apply wlp_ret. by intros [=].
Qed.

(** ** Offers *)
Lemma adds_settle what src asset x : adds (settle what src asset x) (fun _ => native asset x).
Proof.
  intros s Hc%moved_refl. unfold settle, native. destruct (is_native asset).
  - apply wlp_bind. same_step. eapply wlp_adds; [apply adds_addBalance|eassumption|].
    intros [] ? ?; [|done]. by apply wlp_ret.
  - apply wlp_bind, wlp_bind, wlp_makeWrapper. intros w Hw.
    eapply wlp_same; [by apply same_line_addBalance|eassumption|].
    intros [] ? ?; [by apply wlp_ret|done].
Qed.

Lemma same_checkOfferValid src op : keeps same_total (checkOfferValid src op).
Proof.
  unfold checkOfferValid, checkSheepLine, checkWheatLine, loadTrustLine.
  keeps_auto.
Qed.
Lemma same_startOffer src op passive : keeps same_total (startOffer src op passive).
Proof.
  unfold startOffer, loadOffer, releaseLiabilities. keeps_auto.
Qed.
Lemma same_placeOffer src new offer : keeps same_total (placeOffer src new offer).
Proof.
  unfold placeOffer, acquireLiabilities. keeps_auto.
Qed.
Lemma same_remainingAmount src offer stays x :
  keeps same_total (remainingAmount src offer stays x).
Proof.
  unfold remainingAmount, loadTrustLineWithoutRecordIfNotNative. keeps_auto.
Qed.

(** The limits of the exchange are amounts. *)
Lemma amount_max_s64 z : amount (Z.max (s64 z) 0).
Proof.
  pose proof (s64_range z) as H. unfold amount, in_s64 in *. unfold_ints. lia.
Qed.
Lemma getMaxAmountReceive_amount h d r :
  getMaxAmountReceive h d = Ok r -> amount (Z.max r 0).
Proof.
  unfold getMaxAmountReceive. destruct d as [a|t| |]; cbn; try done.
  - intros H. entry_cases H; subst; [apply amount_max_s64|unfold amount; unfold_ints; lia].
  - intros H. entry_cases H; subst; try apply amount_max_s64;
      unfold amount; unfold_ints; lia.
Qed.

Lemma wlp_getImpl_line {A} w (f : AbstractImpl -> M A) (Q : A -> LedgerState -> Prop) s :
  (forall i, wlp (f (impl_of i)) Q s) -> wlp (i ← getImpl w; f i) Q s.
Proof.
  intros Hf. unfold getImpl. destruct w as [i|]; [|done].
  apply wlp_bind, wlp_bind. eapply (wlp_keeps eq); [keeps_auto|]. intros [] _ <-; [|done].
  apply wlp_ret, Hf.
Qed.

Lemma wlp_canBuyAtMost e a l s :
  wlp (canBuyAtMost e a l) (fun r s' => s' = s /\ amount r) s.
Proof.
  unfold canBuyAtMost. destruct (is_native a).
  - apply wlp_bind. eapply (wlp_keeps eq); [keeps_auto|]. intros k _ <-.
    apply wlp_bind, wlp_read. intros d r _ Hr.
    apply wlp_ret. split; [done|]. by eapply getMaxAmountReceive_amount.
  - apply wlp_bind. eapply (wlp_keeps eq); [keeps_auto|]. intros [] _ <-.
    + apply wlp_bind, wlp_getImpl_line. intros [k|]; cbn.
      * apply wlp_read. intros d r _ Hr. split; [done|].
        by eapply getMaxAmountReceive_amount.
      * split; [done|]. unfold amount; unfold_ints; lia.
    + apply wlp_ret. split; [done|]. unfold amount; unfold_ints; lia.
Qed.
Lemma wlp_canSellAtMost e a l s :
  wlp (canSellAtMost e a l) (fun r s' => s' = s /\ 0 <= r) s.
Proof.
  unfold canSellAtMost. destruct (is_native a).
  - apply wlp_bind. eapply (wlp_keeps eq); [keeps_auto|]. intros k _ <-.
    apply wlp_bind. eapply (wlp_keeps eq); [keeps_auto|]. intros r _ <-.
    apply wlp_ret. split; [done|lia].
  - apply wlp_bind. eapply (wlp_keeps eq); [keeps_auto|]. intros b _ <-.
    apply wlp_bind. eapply (wlp_keeps eq); [keeps_auto|]. intros auth _ <-.
    destruct auth; [|by apply wlp_ret].
    apply wlp_bind. eapply (wlp_keeps eq); [keeps_auto|]. intros r _ <-.
    apply wlp_ret. split; [done|lia].
Qed.

Lemma bigDivide_s64_nonneg A B C r q : bigDivide_s64 A B C r = Ok (Some q) -> 0 <= q.
Proof.
  unfold bigDivide_s64, cassert. destruct (_ && _); cbn; [|done].
  unfold bigDivide_u64. destruct (_ <=? UINT64_MAX); [|done].
  destruct (_ <=? INT64_MAX); [|done]. intros [= <-]. apply u64_range.
Qed.

Definition limits_ok (r : ManageOfferResult + Z * Z) : Prop :=
  match r with inr (mss, mwr) => amount mss /\ amount mwr | inl _ => True end.

Lemma wlp_exchangeLimits src o s :
  amount (of_amount o) ->
  wlp (exchangeLimits src o) (fun r _ => limits_ok r) s.
Proof.
  intros Ho. unfold exchangeLimits. apply wlp_bind, wlp_currentHeader.
  apply wlp_bind. eapply (wlp_keeps eq); [unfold loadTrustLineIfNotNative; keeps_auto|].
  intros l1 _ <-.
  apply wlp_bind. eapply (wlp_keeps eq); [unfold loadTrustLineIfNotNative; keeps_auto|].
  intros l2 _ <-.
  apply wlp_bind. eapply wlp_mono; [apply wlp_canBuyAtMost|]. intros mwr _ [-> Hmwr].
  destruct (10 <=? _).
  - apply wlp_bind. eapply (wlp_keeps eq); [unfold availableForWheat; keeps_auto|].
    intros x _ <-. apply wlp_bind, wlp_lift. intros y _. destruct (_ <? _); [by apply wlp_ret|].
    apply wlp_bind. eapply (wlp_keeps eq); [unfold availableForSheep; keeps_auto|].
    intros x' _ <-. apply wlp_bind, wlp_lift. intros y' _.
    destruct (_ <? _); [by apply wlp_ret|].
    apply wlp_bind. eapply wlp_mono; [apply wlp_canSellAtMost|]. intros r _ [-> Hr].
    apply wlp_ret. cbn. unfold amount in *. lia.
  - apply wlp_bind. eapply wlp_mono; [apply wlp_canSellAtMost|]. intros r _ [-> Hr].
    apply wlp_bind, wlp_lift. intros q Hq. apply wlp_ret. cbn. split; [|done].
    assert (0 <= default INT64_MAX q).
    { destruct q; cbn; [by apply bigDivide_s64_nonneg in Hq|unfold_ints; lia]. }
    unfold amount in *. lia.
Qed.

Lemma wlp_computeParameters src o new s :
  amount (of_amount o) ->
  wlp (computeOfferExchangeParameters src o new) (fun r s' => s' = s /\ limits_ok r) s.
Proof.
  intros Ho. unfold computeOfferExchangeParameters. apply wlp_nested.
  apply wlp_bind, wlp_currentHeader. apply wlp_bind, wlp_exists_entry. intros _ _.
  apply wlp_bind. apply (wlp_mono _ (fun _ _ => True)).
  { unfold wlp. by destruct (_ s) as [[? ?]|]. }
  intros ok s1 _. apply wlp_bind. apply (wlp_mono _ (fun r _ => limits_ok r)).
  { destruct ok; cbn [negb]; [by apply wlp_exchangeLimits|by apply wlp_ret]. }
  intros r s2 Hr. by apply wlp_ret.
Qed.

(** Crossing the book and settling with the source is neutral. *)
Lemma wlp_crossOffers src passive new o s0 s :
  amount (of_amount o) -> moved s0 s 0 ->
  wlp (crossOffers src passive new o)
    (fun r s' => match r with inr _ => moved s0 s' 0 | inl _ => True end) s.
Proof.
  intros Ho Hm. unfold crossOffers.
  apply wlp_bind. eapply wlp_mono; [by apply wlp_computeParameters|].
  intros params _ [-> Hlim]. destruct params as [c|[mss mwr]]; [by apply wlp_ret|].
  destruct Hlim as [Hmss Hmwr]. destruct (mwr =? 0); [by apply wlp_ret|].
  apply wlp_bind. eapply wlp_mono; [by apply convertWithOffers_lumens; [apply Hm|..]|].
  intros c s1 ([Hc Hbn] & _ & Hw). apply wlp_bind, wlp_lift. intros _ _.
  destruct (match cv_result c with eFilterStop => _ | _ => _ end); [by apply wlp_ret|].
  pose proof (moved_trans _ _ _ _ _ Hm Hc) as H1. apply wlp_bind.
  apply (wlp_mono _ (fun _ s' => moved s0 s' 0)).
  { destruct (Z.ltb_spec 0 (cv_wheatReceived c)) as [Hpos|Hzero].
    - eapply wlp_adds_bind; [apply adds_settle|exact H1|]. intros ? s2 H2.
      eapply wlp_adds; [apply adds_settle|exact H2|]. intros ? s3 H3.
      eapply moved_eqm; [exact H3|]. cbv beta. cbn [modulus lumens].
      rewrite native_neg. apply eqm_eq. lia.
    - apply wlp_ret. eapply moved_eqm; [exact H1|].
      assert (cv_wheatReceived c = 0) as E by lia.
      rewrite E, (proj1 Hbn E), !native_zero. by apply eqm_eq. }
  intros _ s2 H2. eapply wlp_same_bind; [apply same_remainingAmount|exact H2|].
  intros x s3 H3. by apply wlp_ret.
Qed.

Lemma wlp_startOffer_amount src op passive s :
  wlp (startOffer src op passive)
    (fun r _ => forall o p, r = Some (o, p) -> of_amount o = mo_amount op) s.
Proof.
  unfold startOffer. destruct (_ =? 0); [apply wlp_ret; by intros o p [= <- _]|].
  apply wlp_bind, wlp_exists_entry. intros [] _; [|by apply wlp_ret]. cbn [negb].
  apply wlp_bind, wlp_currentHeader.
  do 3 (apply wlp_bind; eapply wlp_mono; [apply wlp_top|]; intros ? ? _).
  apply wlp_ret. by intros o p [= <- _].
Qed.

Lemma conserves_ManageOffer src passive op :
  amount (mo_amount op) -> conserves (ManageOffer_doApply src passive op).
Proof.
  intros Ha s Hc%moved_refl. unfold ManageOffer_doApply. apply wlp_nested.
  eapply wlp_same_bind; [apply same_checkOfferValid|exact Hc|]. intros [c|] s1 H1.
  { apply wlp_ret. by intros [=]. }
  apply wlp_bind. eapply wlp_mono.
  { apply wlp_and; [apply wlp_startOffer_amount|].
    eapply wlp_same; [apply same_startOffer|exact H1|]. intros a s' H'. exact H'. }
  intros [[o p]|] s2 [Ho H2]; [|apply wlp_ret; by intros [=]].
  apply wlp_bind. apply (wlp_mono _ (fun r s' =>
    match r with inr _ => moved s s' 0 | inl _ => True end)).
  { destruct (0 <? _); [|by apply wlp_ret]. apply wlp_crossOffers; [|done].
    by rewrite (Ho o p eq_refl). }
  intros [c|[claimed x]] s3 H3; [apply wlp_ret; by intros [=]|].
  eapply wlp_same_bind; [apply same_placeOffer|exact H3|]. intros [c|effect] s4 H4;
    apply wlp_ret; [by intros [=]|]. intros _. exact H4.
Qed.

(** ** Inflation: from version 8 on, what is not paid goes to the fee pool and
    what is new is counted in the total coins *)
Lemma wlp_updateHeader (f : LedgerHeader -> LedgerHeader) x
    (Q : unit -> LedgerState -> Prop) s0 s y :
  moved s0 s y -> ledgerVersion (f (st_header s)) = ledgerVersion (st_header s) ->
  eqm 18446744073709551616 (header_weight (f (st_header s)))
    (header_weight (st_header s) + x) ->
  (forall s', moved s0 s' (y + x) -> st_entries s' = st_entries s ->
     st_header s' = f (st_header s) -> Q tt s') ->
  wlp (updateHeader f) Q s.
Proof.
  intros Hm Hv Hw HQ. apply wlp_bind, wlp_currentHeader, wlp_setHeader.
  apply HQ; [|done..]. eapply moved_trans; [exact Hm|].
  eapply moved_eqm; [apply moved_header; [apply Hm|done]|].
  cbn [modulus lumens]. rewrite Hw. apply eqm_eq. lia.
Qed.

Lemma wlp_dole A T w s0 s y :
  8 <= version s0 -> moved s0 s y ->
  wlp (dole A T w) (fun r s' => moved s0 s' (y + default 0 r)) s.
Proof.
  intros Hv Hm. unfold dole. apply wlp_bind, wlp_lift. intros x _.
  assert (Hnone : moved s0 s (y + default 0 None)).
  { eapply moved_eqm; [exact Hm|]. apply eqm_eq. cbn. lia. }
  destruct (x =? 0); [by apply wlp_ret|]. apply wlp_bind, wlp_currentHeader.
  apply wlp_bind. eapply (wlp_keeps eq); [unfold loadAccountWithoutRecord; keeps_auto|].
  intros x' _ <-. destruct (_ && _); [by apply wlp_ret|].
  apply wlp_bind, wlp_exists_entry. intros [] _; [|by apply wlp_ret]. cbn [negb].
  destruct (Z.leb_spec (ledgerVersion (st_header s)) 7) as [Hle|_].
  { destruct Hm as (_ & V & _). unfold version in *. lia. }
  apply wlp_bind, wlp_ret.
  eapply wlp_adds_bind; [apply adds_addBalance|exact Hm|].
  intros [] s1 H1; [|done]. by apply wlp_ret.
Qed.

Lemma wlp_doleLoop A T ws left payouts s0 s y :
  8 <= version s0 -> moved s0 s y ->
  wlp (doleLoop A T ws left payouts) (fun r s' => moved s0 s' (y + (left - r.1))) s.
Proof.
  intros Hv. revert left payouts s y.
  induction ws as [|w ws IH]; intros left payouts s y Hm; cbn [doleLoop].
  { apply wlp_ret. eapply moved_eqm; [exact Hm|]. apply eqm_eq. cbn. lia. }
  apply wlp_bind. eapply wlp_mono; [by apply wlp_dole|].
  intros [x|] s1 H1; cbn [default from_option] in H1.
  - eapply wlp_mono; [by apply IH|]. intros r s2 H2. eapply moved_eqm; [exact H2|].
    cbn [modulus lumens]. rewrite eqm_s64. apply eqm_eq. unfold id. lia.
  - eapply wlp_mono; [by apply IH|]. intros r s2 H2. eapply moved_eqm; [exact H2|].
    apply eqm_eq. lia.
Qed.

Lemma wlp_Inflation s :
  coherent s -> 8 <= version s ->
  wlp Inflation_doApply (fun r s' => r.1 = true -> moved s s' 0) s.
Proof.
  intros Hc Hv. unfold Inflation_doApply. apply wlp_bind, wlp_currentHeader.
  destruct (_ <? _); [apply wlp_ret; by intros [=]|].
  apply wlp_bind, wlp_lift. intros minBalance _.
  apply wlp_bind. unfold inflationWinners, wlp at 1.
  apply wlp_bind, wlp_lift. intros infl _.
  apply wlp_bind. set (lh := st_header s).
  apply (wlp_updateHeader _ (- feePool lh) _ s s 0); [by apply moved_refl|done| |].
  { apply eqm_eq. cbn. unfold lh. lia. }
  intros s1 H1 _ _. apply wlp_bind. eapply wlp_mono; [by apply wlp_doleLoop|].
  intros [left payouts] s2 H2. cbn [fst] in H2. apply wlp_bind.
  apply (wlp_updateHeader _ left _ s s2 _ H2); [done| |].
  { cbn. rewrite eqm_s64. apply eqm_eq. lia. }
  intros s3 H3 _ _. unfold version in Hv. fold lh in Hv.
  rewrite (proj2 (Z.ltb_lt 7 (ledgerVersion lh))) by lia. apply wlp_bind.
  apply (wlp_updateHeader _ (- infl) _ s s3 _ H3); [done| |].
  { cbn. rewrite eqm_s64. apply eqm_eq. lia. }
  intros s4 H4 _ _. apply wlp_ret. intros _. eapply moved_eqm; [exact H4|].
  cbn [modulus lumens]. rewrite eqm_s64. apply eqm_eq. lia.
Qed.
