(* ===== verification/Transactions.v ===== *)
(** Transactions: [src/src/transactions/SignatureChecker.cpp], [OperationFrame.cpp],
    [MarkAccountOpFrame.cpp] and [TransactionFrame.cpp].

    [verifyAll] of the signature checker is modelled as the source has it: its
    loop body starts with an unconditional [return true], so the verification
    that follows, the weights it adds and the marks it sets on used signatures
    are never reached.

    [getContentsHash] is a parameter (XDR serialisation and SHA-256 are not
    part of the repository), and so is the Bitcoin node that MARK_ACCOUNT
    talks to: whether it takes the raw transaction of a marker, and whether
    generating a block throws.  An operation
    frame is the operation with the index of its result; the results are
    values that the functions return.  Protocol versions from 8 on, see
    [Operations]. *)

From S2P Require Import Prelude Numeric OfferMath Types OfferOrder LedgerTxn LedgerState TransactionUtils.
From S2P Require Import OfferExchange Operations Payments ManageOffers.

(** * Signature checks *)

Record DecoratedSignature := mkSignature { hint : Z; signature : list Z }.

Record SignatureChecker := mkChecker {
  mProtocolVersion : Z;
  mContentsHash : Hash;
  mSignatures : list DecoratedSignature;
  mUsedSignatures : list bool;
  mUsedOneTimeSignerKeys : gmap AccountID (gset SignerKey) }.

Definition makeSignatureChecker (protocolVersion : Z) (contentsHash : Hash)
    (signatures : list DecoratedSignature) : SignatureChecker :=
  mkChecker protocolVersion contentsHash signatures
    (replicate (length signatures) false) ∅.

(** [mUsedOneTimeSignerKeys[accountID].insert(key)] *)
Definition useOneTimeKey (accountID : AccountID) (key : SignerKey)
    (sc : SignatureChecker) : SignatureChecker :=
  mkChecker (mProtocolVersion sc) (mContentsHash sc) (mSignatures sc)
    (mUsedSignatures sc)
    (<[accountID := {[key]} ∪ default ∅ (mUsedOneTimeSignerKeys sc !! accountID)]>
       (mUsedOneTimeSignerKeys sc)).

(** [split] by the type of the key. *)
Definition preAuthSigners : list Signer -> list Signer :=
  List.filter (fun s => match signer_key s with SIGNER_KEY_PRE_AUTH_TX _ => true
                   | _ => false end).
Definition hashXSigners : list Signer -> list Signer :=
  List.filter (fun s => match signer_key s with SIGNER_KEY_HASH_X _ => true
                   | _ => false end).
Definition ed25519Signers : list Signer -> list Signer :=
  List.filter (fun s => match signer_key s with SIGNER_KEY_ED25519 _ => true
                   | _ => false end).

Definition cappedWeight (protocolVersion w : Z) : Z :=
  if (9 <? protocolVersion) && (255 <? w) then 255 else w.

(** The loop over the pre-authorized signers; the [bool] is the early
    [return true]. *)
Fixpoint checkPreAuth (accountID : AccountID) (signers : list Signer)
    (totalWeight neededWeight : Z) (sc : SignatureChecker)
    : bool * SignatureChecker :=
  match signers with
  | [] => (false, sc)
  | s :: rest =>
      if bool_decide (signer_key s = SIGNER_KEY_PRE_AUTH_TX (mContentsHash sc)) then
        let sc := useOneTimeKey accountID (signer_key s) sc in
        let totalWeight :=
          s32 (totalWeight + cappedWeight (mProtocolVersion sc) (signer_weight s)) in
        if neededWeight <=? totalWeight then (true, sc)
        else checkPreAuth accountID rest totalWeight neededWeight sc
      else checkPreAuth accountID rest totalWeight neededWeight sc
  end.

Fixpoint verifyAll (signatures : list DecoratedSignature) (signers : list Signer) : bool :=
  match signatures with
  | [] => false
  | sig :: rest =>
      match signers with
      | _ :: _ => true
      | [] => verifyAll rest signers
      end
  end.

Definition checkSignature (accountID : AccountID) (signersV : list Signer)
    (neededWeight : Z) (sc : SignatureChecker) : bool * SignatureChecker :=
  if mProtocolVersion sc =? 7 then (true, sc)
  else
    let '(enough, sc) :=
      checkPreAuth accountID (preAuthSigners signersV) 0 neededWeight sc in
    if enough then (true, sc)
    else if verifyAll (mSignatures sc) (hashXSigners signersV) then (true, sc)
    else if verifyAll (mSignatures sc) (ed25519Signers signersV) then (true, sc)
    else (false, sc).

Definition checkAllSignaturesUsed (sc : SignatureChecker) : bool :=
  (mProtocolVersion sc =? 7) || forallb id (mUsedSignatures sc).

(** * Data *)
Inductive OperationBody :=
  | CREATE_ACCOUNT (op : CreateAccountOp)
  | PAYMENT (op : PaymentOp)
  | PATH_PAYMENT (op : PathPaymentOp)
  | MANAGE_OFFER (op : ManageOfferOp)
  | CREATE_PASSIVE_OFFER (op : CreatePassiveOfferOp)
  | SET_OPTIONS (op : SetOptionsOp)
  | CHANGE_TRUST (op : ChangeTrustOp)
  | ALLOW_TRUST (op : AllowTrustOp)
  | ACCOUNT_MERGE (destination : AccountID)
  | INFLATION
  | MANAGE_DATA (op : ManageDataOp)
  | BUMP_SEQUENCE (bumpTo : Z)
  | MARK_ACCOUNT (accountMarker : string).

Record Operation := mkOperation {
  op_sourceAccount : option AccountID;
  op_body : OperationBody }.

Record Transaction := mkTransaction {
  tx_sourceAccount : AccountID;
  tx_fee : Z;
  tx_seqNum : Z;
  tx_timeBounds : option (Z * Z);
  tx_memo : list Z;
  tx_operations : list Operation }.
Record TransactionEnvelope := mkEnvelope {
  env_tx : Transaction;
  env_signatures : list DecoratedSignature }.

Inductive MarkAccountResultCode := MARK_ACCOUNT_SUCCESS | MARK_ACCOUNT_BAD_MARKER.

Inductive OperationResultTr :=
  | RES_CREATE_ACCOUNT (r : CreateAccountResultCode)
  | RES_PAYMENT (r : PaymentResultCode)
  | RES_PATH_PAYMENT (r : PathPaymentResult)
  | RES_MANAGE_OFFER (r : ManageOfferResult)
  | RES_SET_OPTIONS (r : SetOptionsResultCode)
  | RES_CHANGE_TRUST (r : ChangeTrustResultCode)
  | RES_ALLOW_TRUST (r : AllowTrustResultCode)
  | RES_ACCOUNT_MERGE (r : AccountMergeResult)
  | RES_INFLATION (r : InflationResult)
  | RES_MANAGE_DATA (r : ManageDataResultCode)
  | RES_BUMP_SEQUENCE (r : BumpSequenceResultCode)
  | RES_MARK_ACCOUNT (r : MarkAccountResultCode).
Inductive OperationResult :=
  | opINNER (tr : OperationResultTr) | opBAD_AUTH | opNO_ACCOUNT | opNOT_SUPPORTED.

(** The result of a transaction: the codes other than these two carry no
    operation results, and setting one destroys them. *)
Inductive TxErrorCode :=
  | txTOO_EARLY | txTOO_LATE | txMISSING_OPERATION | txBAD_SEQ | txBAD_AUTH
  | txINSUFFICIENT_BALANCE | txNO_ACCOUNT | txINSUFFICIENT_FEE | txBAD_AUTH_EXTRA
  | txINTERNAL_ERROR.
Inductive TransactionResultBody :=
  | txSUCCESS (results : list OperationResult)
  | txFAILED (results : list OperationResult)
  | txError (code : TxErrorCode).
Record TransactionResult := mkTxResult {
  feeCharged : Z; tx_result : TransactionResultBody }.

(** [result.results()], which throws on the other arms. *)
Definition resultsOf (b : TransactionResultBody) : outcome (list OperationResult) :=
  match b with
  | txSUCCESS rs | txFAILED rs => Ok rs
  | txError _ => Throw (RuntimeError "result: results accessed when not selected")
  end.

(** What the code takes from outside of the repository. *)
Class Externals := {
  getContentsHash : Transaction -> Hash;
  sendRawTransactionZagg : string -> bool;
  generateBlocks : string -> outcome unit }.

(** * OperationFrame *)
Section Frames.
Context `{Ext : Externals}.

Definition isVersionSupported (body : OperationBody) (ledgerVersion : Z) : bool :=
  match body with
  | BUMP_SEQUENCE _ => BumpSequence_isVersionSupported ledgerVersion
  | MARK_ACCOUNT _ => 10 <=? ledgerVersion
  | _ => true
  end.

Definition getThresholdLevel (body : OperationBody) : ThresholdLevel :=
  match body with
  | ALLOW_TRUST _ | BUMP_SEQUENCE _ | INFLATION => LOW
  | MARK_ACCOUNT _ | ACCOUNT_MERGE _ => HIGH
  | SET_OPTIONS op => SetOptions_getThresholdLevel op
  | _ => MEDIUM
  end.

Definition getNeededThreshold (account : AccountEntry) (level : ThresholdLevel) : Z :=
  match level with
  | LOW => thLow (acc_thresholds account)
  | MEDIUM => thMed (acc_thresholds account)
  | HIGH => thHigh (acc_thresholds account)
  end.

(** The inner result that [mResult.tr().type(...)] leaves: the value of the
    type that XDR makes by default. *)
Definition default_offer : OfferEntry :=
  mkOffer 0 0 ASSET_NATIVE ASSET_NATIVE 0 (mkPrice 0 0) 0.
Definition defaultPathPayment : PathPaymentResult :=
  PATH_PAYMENT_SUCCESS [] (mkSimplePayment 0 ASSET_NATIVE 0).
Definition defaultManageOffer : ManageOfferResult :=
  MANAGE_OFFER_SUCCESS [] (MANAGE_OFFER_CREATED default_offer).

Definition manageOfferChecked (code : option ManageOfferResult) : bool * OperationResultTr :=
  match code with
  | Some c => (false, RES_MANAGE_OFFER c)
  | None => (true, RES_MANAGE_OFFER defaultManageOffer)
  end.

Definition doCheckValid (src : AccountID) (body : OperationBody) (ledgerVersion : Z)
    : bool * OperationResultTr :=
  match body with
  | CREATE_ACCOUNT op => prod_map id RES_CREATE_ACCOUNT (CreateAccount_doCheckValid src op)
  | PAYMENT op => prod_map id RES_PAYMENT (Payment_doCheckValid op)
  | PATH_PAYMENT op =>
      if PathPayment_doCheckValid op then (true, RES_PATH_PAYMENT defaultPathPayment)
      else (false, RES_PATH_PAYMENT PATH_PAYMENT_MALFORMED)
  | MANAGE_OFFER op => manageOfferChecked (ManageOffer_doCheckValid op ledgerVersion)
  | CREATE_PASSIVE_OFFER op =>
      manageOfferChecked (ManageOffer_doCheckValid (ManageOfferOpHolder op) ledgerVersion)
  | SET_OPTIONS op =>
      prod_map id RES_SET_OPTIONS (SetOptions_doCheckValid src op ledgerVersion)
  | CHANGE_TRUST op => prod_map id RES_CHANGE_TRUST (ChangeTrust_doCheckValid op ledgerVersion)
  | ALLOW_TRUST op => prod_map id RES_ALLOW_TRUST (AllowTrust_doCheckValid src op)
  | ACCOUNT_MERGE dest => prod_map id RES_ACCOUNT_MERGE (Merge_doCheckValid src dest)
  | INFLATION => (Inflation_doCheckValid, RES_INFLATION (INFLATION_SUCCESS []))
  | MANAGE_DATA op => prod_map id RES_MANAGE_DATA (ManageData_doCheckValid op ledgerVersion)
  | BUMP_SEQUENCE bumpTo => prod_map id RES_BUMP_SEQUENCE (BumpSequence_doCheckValid bumpTo)
  | MARK_ACCOUNT marker =>
      if sendRawTransactionZagg marker then (true, RES_MARK_ACCOUNT MARK_ACCOUNT_SUCCESS)
      else (false, RES_MARK_ACCOUNT MARK_ACCOUNT_BAD_MARKER)
  end.

(** The block that MARK_ACCOUNT makes the Bitcoin node generate is not part of
    the ledger; the call can throw. *)
Definition doApply (src : AccountID) (body : OperationBody)
    : M (bool * OperationResultTr) :=
  let res {A} (f : A -> OperationResultTr) (m : M (bool * A))
      : M (bool * OperationResultTr) := r ← m; mret (prod_map id f r) in
  match body with
  | CREATE_ACCOUNT op => res RES_CREATE_ACCOUNT (CreateAccount_doApply src op)
  | PAYMENT op => res RES_PAYMENT (Payment_doApply src op)
  | PATH_PAYMENT op => res RES_PATH_PAYMENT (PathPayment_doApply src op)
  | MANAGE_OFFER op => res RES_MANAGE_OFFER (ManageOffer_doApply src false op)
  | CREATE_PASSIVE_OFFER op => res RES_MANAGE_OFFER (CreatePassiveOffer_doApply src op)
  | SET_OPTIONS op => res RES_SET_OPTIONS (SetOptions_doApply src op)
  | CHANGE_TRUST op => res RES_CHANGE_TRUST (ChangeTrust_doApply src op)
  | ALLOW_TRUST op => res RES_ALLOW_TRUST (AllowTrust_doApply src op)
  | ACCOUNT_MERGE dest => res RES_ACCOUNT_MERGE (Merge_doApply src dest)
  | INFLATION => res RES_INFLATION Inflation_doApply
  | MANAGE_DATA op => res RES_MANAGE_DATA (ManageData_doApply src op)
  | BUMP_SEQUENCE bumpTo => res RES_BUMP_SEQUENCE (BumpSequence_doApply src bumpTo)
  | MARK_ACCOUNT marker =>
      _ ← lift (generateBlocks marker); mret (true, RES_MARK_ACCOUNT MARK_ACCOUNT_SUCCESS)
  end.

(** ** The transaction's side of a signature check *)
Definition tx_checkSignature (acc : AccountEntry) (neededWeight : Z)
    (sc : SignatureChecker) : bool * SignatureChecker :=
  let signers :=
    (if negb (masterWeight (acc_thresholds acc) =? 0)
     then [mkSigner (SIGNER_KEY_ED25519 (acc_id acc)) (masterWeight (acc_thresholds acc))]
     else [])
    ++ acc_signers acc in
  checkSignature (acc_id acc) signers neededWeight sc.
Definition checkSignatureNoAccount (accountID : AccountID) (sc : SignatureChecker)
    : bool * SignatureChecker :=
  checkSignature accountID [mkSigner (SIGNER_KEY_ED25519 accountID) 1] 0 sc.

Definition getSourceID (tx : Transaction) (op : Operation) : AccountID :=
  default (tx_sourceAccount tx) (op_sourceAccount op).

(** ** [OperationFrame::checkSignature]: [Some] is the result of a
    [return false]. *)
Definition op_checkSignature (tx : Transaction) (op : Operation) (forApply : bool)
    (sc : SignatureChecker) : M (option OperationResult * SignatureChecker) :=
  let src := getSourceID tx op in
  sourceAccount ← loadSourceAccount src;
  if sourceAccount : bool then
    acc ← currentAccount (KeyAccount src);
    let neededThreshold := getNeededThreshold acc (getThresholdLevel (op_body op)) in
    let '(ok, sc) := tx_checkSignature acc neededThreshold sc in
    mret (if ok : bool then None else Some opBAD_AUTH, sc)
  else if forApply || negb (is_some (op_sourceAccount op))
  then mret (Some opNO_ACCOUNT, sc)
  else
    let '(ok, sc) := checkSignatureNoAccount src sc in
    mret (if ok : bool then None else Some opBAD_AUTH, sc).

(** [checkValid]: an unsupported version only sets a result that the rest
    overwrites. *)
Definition op_checkValid (tx : Transaction) (op : Operation) (forApply : bool)
    (sc : SignatureChecker) : M (bool * OperationResult * SignatureChecker) :=
  nested
    (header ← currentHeader;
     let version := ledgerVersion header in
     let unsupported := negb (isVersionSupported (op_body op) version) in
     '(refused, sc) ←
       (if negb forApply || (version <? 10) then op_checkSignature tx op forApply sc
        else
          found ← loadSourceAccount (getSourceID tx op);
          mret (if negb found then Some opNO_ACCOUNT else None, sc));
     match refused with
     | Some code => mret (false, (false, code, sc))
     | None =>
         let '(ok, tr) := doCheckValid (getSourceID tx op) (op_body op) version in
         mret (false, (ok, opINNER tr, sc))
     end).

Definition op_apply (tx : Transaction) (op : Operation) (sc : SignatureChecker)
    : M (bool * OperationResult * SignatureChecker) :=
  '(res, r, sc) ← op_checkValid tx op true sc;
  if res : bool then
    '(res, tr) ← doApply (getSourceID tx op) (op_body op);
    mret (res, opINNER tr, sc)
  else mret (false, r, sc).

(** * TransactionFrame *)
Definition defaultResult : OperationResult :=
  opINNER (RES_CREATE_ACCOUNT CREATE_ACCOUNT_SUCCESS).
Definition resetResults (tx : Transaction) : TransactionResult :=
  mkTxResult (tx_fee tx) (txSUCCESS (replicate (length (tx_operations tx)) defaultResult)).

Definition getMinFee (tx : Transaction) (header : LedgerHeader) : Z :=
  s64 (baseFee header * Z.max 1 (Z.of_nat (length (tx_operations tx)))).

Definition outsideTimeBounds (tx : Transaction) (header : LedgerHeader)
    : option TxErrorCode :=
  match tx_timeBounds tx with
  | None => None
  | Some (minTime, maxTime) =>
      if closeTime header <? minTime then Some txTOO_EARLY
      else if negb (maxTime =? 0) && (maxTime <? closeTime header) then Some txTOO_LATE
      else None
  end.

Definition commonValidPreSeqNum (tx : Transaction) : M (option TxErrorCode) :=
  if Nat.eqb (length (tx_operations tx)) 0 then mret (Some txMISSING_OPERATION)
  else
    header ← currentHeader;
    match outsideTimeBounds tx header with
    | Some code => mret (Some code)
    | None =>
        if tx_fee tx <? getMinFee tx header then mret (Some txINSUFFICIENT_FEE)
        else
          found ← loadSourceAccount (tx_sourceAccount tx);
          mret (if negb found then Some txNO_ACCOUNT else None)
    end.

Definition processSeqNum (tx : Transaction) : M unit :=
  header ← currentHeader;
  if 10 <=? ledgerVersion header then
    let k := KeyAccount (tx_sourceAccount tx) in
    _ ← loadSourceAccount (tx_sourceAccount tx);
    acc ← currentAccount k;
    if tx_seqNum tx <? acc_seqNum acc then throw "unexpected sequence number"
    else updateAccount k (set_seqNum (tx_seqNum tx))
  else mret tt.

(** ** [commonValid]: how far the checks got, and the code that stopped them *)
Inductive ValidationType :=
  | kInvalid | kInvalidUpdateSeqNum | kInvalidPostAuth | kFullyValid.
Definition validation_rank (v : ValidationType) : Z :=
  match v with
  | kInvalid => 0 | kInvalidUpdateSeqNum => 1 | kInvalidPostAuth => 2 | kFullyValid => 3
  end.

Definition Validation : Type := ValidationType * option TxErrorCode * SignatureChecker.

(** The part after the sequence number. *)
Definition validPostSeqNum (tx : Transaction) (acc : AccountEntry) (applying : bool)
    (sc : SignatureChecker) : M Validation :=
  header ← currentHeader;
  let '(ok, sc) := tx_checkSignature acc (thLow (acc_thresholds acc)) sc in
  if negb ok then mret (kInvalidUpdateSeqNum, Some txBAD_AUTH, sc)
  else
    let feeToPay := if applying && (8 <? ledgerVersion header) then 0 else tx_fee tx in
    avail ← read (KeyAccount (tx_sourceAccount tx)) getAvailableBalance;
    if avail <? feeToPay
    then mret (kInvalidPostAuth, Some txINSUFFICIENT_BALANCE, sc)
    else mret (kFullyValid, None, sc).

Definition commonValid (tx : Transaction) (current : Z) (applying : bool)
    (sc : SignatureChecker) : M Validation :=
  nested
    (code ← commonValidPreSeqNum tx;
     match code with
     | Some c => mret (false, (kInvalid, Some c, sc))
     | None =>
         header ← currentHeader;
         _ ← loadSourceAccount (tx_sourceAccount tx);
         acc ← currentAccount (KeyAccount (tx_sourceAccount tx));
         let current := if current =? 0 then acc_seqNum acc else current in
         if ((10 <=? ledgerVersion header) || negb applying)
            && ((current =? INT64_MAX) || negb (current + 1 =? tx_seqNum tx))
         then mret (false, (kInvalid, Some txBAD_SEQ, sc))
         else
           v ← validPostSeqNum tx acc applying sc;
           mret (false, v)
     end).

(** ** Fees *)
Definition processFeeSeqNum (tx : Transaction) : M TransactionResult :=
  let res := resetResults tx in
  let k := KeyAccount (tx_sourceAccount tx) in
  found ← loadSourceAccount (tx_sourceAccount tx);
  if negb found then throw "Unexpected database state"
  else
  acc ← currentAccount k;
  let fee := if 0 <? feeCharged res then Z.min (acc_balance acc) (feeCharged res)
             else feeCharged res in
  _ ← (if 0 <? feeCharged res then
         newBalance ← lift (Numeric.addBalance (acc_balance acc) (s64 (- fee)) INT64_MAX);
         _ ← updateAccount k (set_balance (default (acc_balance acc) newBalance));
         updateHeader (fun h => set_feePool (s64 (feePool h + fee)) h)
       else mret tt);
  header ← currentHeader;
  _ ← (if ledgerVersion header <=? 9 then
         if negb (s64 (acc_seqNum acc + 1) =? tx_seqNum tx)
         then throw "Unexpected account state"
         else updateAccount k (set_seqNum (tx_seqNum tx))
       else mret tt);
  mret (mkTxResult fee (tx_result res)).

(** ** One-time signers *)
Definition removeSigner (key : SignerKey) : list Signer -> list Signer :=
  fix go l := match l with
              | [] => []
              | s :: l => if bool_decide (signer_key s = key) then l else s :: go l
              end.

Definition removeAccountSigner (k : LedgerKey) (signerKey : SignerKey) : M bool :=
  acc ← currentAccount k;
  if existsb (fun s => bool_decide (signer_key s = signerKey)) (acc_signers acc) then
    removed ← modify k (fun h e => addNumEntries h e (-1));
    _ ← assertM "removed" removed;
    _ ← updateAccount k (fun a => set_signers (removeSigner signerKey (acc_signers a)) a);
    mret true
  else mret false.

(** [std::accumulate] with [r || remove]: nothing more is removed after the
    first success. *)
Fixpoint removeSignersUntil (k : LedgerKey) (keys : list SignerKey) (r : bool) : M bool :=
  match keys with
  | [] => mret r
  | key :: keys =>
      r ← (if r then mret true else removeAccountSigner k key);
      removeSignersUntil k keys r
  end.

Definition removeAccountOneTimeSignerKeys (accountID : AccountID)
    (keys : gset SignerKey) : M unit :=
  found ← loadAccount accountID;
  if negb found then mret tt
  else
    changed ← removeSignersUntil (KeyAccount accountID) (elements keys) false;
    if changed : bool then update (KeyAccount accountID) normalizeSigners
    else mret tt.

(** The accounts of the map are different, so the order of the loop does not
    matter. *)
Fixpoint removeAllOneTimeSignerKeys (used : list (AccountID * gset SignerKey)) : M unit :=
  match used with
  | [] => mret tt
  | (accountID, keys) :: used =>
      _ ← removeAccountOneTimeSignerKeys accountID keys;
      removeAllOneTimeSignerKeys used
  end.
Definition removeUsedOneTimeSignerKeys (sc : SignatureChecker) : M unit :=
  removeAllOneTimeSignerKeys (map_to_list (mUsedOneTimeSignerKeys sc)).

(** ** Results of operations *)
Definition setResult (i : nat) (r : OperationResult) (b : TransactionResultBody)
    : outcome TransactionResultBody :=
  match b with
  | txSUCCESS rs => Ok (txSUCCESS (<[i := r]> rs))
  | txFAILED rs => Ok (txFAILED (<[i := r]> rs))
  | txError _ => Throw (RuntimeError "operation result destroyed")
  end.
Definition markResultFailed (b : TransactionResultBody) : outcome TransactionResultBody :=
  rs ← resultsOf b; Ok (txFAILED rs).

(** ** [processSignatures] *)
Fixpoint checkOpSignatures (tx : Transaction) (ops : list Operation) (i : nat)
    (b : TransactionResultBody) (allOpsValid : bool) (sc : SignatureChecker)
    : M (bool * TransactionResultBody * SignatureChecker) :=
  match ops with
  | [] => mret (allOpsValid, b, sc)
  | op :: ops =>
      '(refused, sc) ← op_checkSignature tx op false sc;
      match refused with
      | Some code =>
          b ← lift (setResult i code b);
          checkOpSignatures tx ops (S i) b false sc
      | None => checkOpSignatures tx ops (S i) b allOpsValid sc
      end
  end.

Definition processSignatures (tx : Transaction) (b : TransactionResultBody)
    (sc : SignatureChecker) : M (bool * TransactionResultBody * SignatureChecker) :=
  header ← currentHeader;
  if ledgerVersion header <? 10 then mret (true, b, sc)
  else
    '(allOpsValid, b, sc) ←
      nested (r ← checkOpSignatures tx (tx_operations tx) 0 b true sc; mret (false, r));
    _ ← removeUsedOneTimeSignerKeys sc;
    if negb allOpsValid then
      b ← lift (markResultFailed b);
      mret (false, b, sc)
    else if negb (checkAllSignaturesUsed sc)
    then mret (false, txError txBAD_AUTH_EXTRA, sc)
    else mret (true, b, sc).

(** ** [checkValid], before a transaction enters a transaction set *)
Fixpoint checkOpsValid (tx : Transaction) (ops : list Operation) (i : nat)
    (b : TransactionResultBody) (sc : SignatureChecker)
    : M (bool * TransactionResultBody) :=
  match ops with
  | [] => mret (true, b)
  | op :: ops =>
      '(ok, r, sc) ← op_checkValid tx op false sc;
      b ← lift (setResult i r b);
      if ok : bool then checkOpsValid tx ops (S i) b sc
      else b ← lift (markResultFailed b); mret (false, b)
  end.

Definition newChecker (env : TransactionEnvelope) (header : LedgerHeader)
    : SignatureChecker :=
  makeSignatureChecker (ledgerVersion header) (getContentsHash (env_tx env))
    (env_signatures env).

(** Unused signatures no longer change the result. *)
Definition tx_checkValid (env : TransactionEnvelope) (current : Z)
    : M (bool * TransactionResult) :=
  let tx := env_tx env in
  let res := resetResults tx in
  nested
    (header ← currentHeader;
     '(cv, code, sc) ← commonValid tx current false (newChecker env header);
     match cv with
     | kFullyValid =>
         '(ok, b) ← checkOpsValid tx (tx_operations tx) 0 (tx_result res) sc;
         mret (false, (ok, mkTxResult (feeCharged res) b))
     | _ =>
         mret (false, (false, mkTxResult (feeCharged res)
                                (from_option txError (tx_result res) code)))
     end).

(** ** [applyOperations] *)
Fixpoint applyOps (tx : Transaction) (ops : list Operation) (i : nat)
    (b : TransactionResultBody) (errorEncountered : bool) (sc : SignatureChecker)
    : M (bool * TransactionResultBody * SignatureChecker) :=
  match ops with
  | [] => mret (errorEncountered, b, sc)
  | op :: ops =>
      '(txRes, r, sc) ← op_apply tx op sc;
      b ← lift (setResult i r b);
      applyOps tx ops (S i) b (errorEncountered || negb txRes) sc
  end.

Definition applyOperations (tx : Transaction) (b : TransactionResultBody)
    (sc : SignatureChecker) : M (bool * TransactionResultBody) :=
  nested
    ('(errorEncountered, b, sc) ← applyOps tx (tx_operations tx) 0 b false sc;
     if negb errorEncountered then
       header ← currentHeader;
       if (ledgerVersion header <? 10) && negb (checkAllSignaturesUsed sc)
       then mret (false, (false, txError txBAD_AUTH_EXTRA))
       else
         _ ← (if ledgerVersion header <? 10
              then removeUsedOneTimeSignerKeys sc else mret tt);
         mret (true, (true, b))
     else
       b ← lift (markResultFailed b);
       mret (false, (false, b))).

(** ** [apply]: [res] is what [processFeeSeqNum] left in [mResult]

    The block whose nested transaction is always committed: the checks, the
    sequence number and the one-time signers. *)
Definition applyChecks (env : TransactionEnvelope) (res : TransactionResult)
    : M (bool * TransactionResultBody * SignatureChecker) :=
  let tx := env_tx env in
  header ← currentHeader;
  '(cv, code, sc) ← commonValid tx 0 true (newChecker env header);
  let b := from_option txError (tx_result res) code in
  _ ← (if 1 <=? validation_rank cv then processSeqNum tx else mret tt);
  '(signaturesValid, b, sc) ←
    (if 2 <=? validation_rank cv then processSignatures tx b sc
     else mret (false, b, sc));
  mret (signaturesValid && (3 <=? validation_rank cv), b, sc).

Definition tx_apply (env : TransactionEnvelope) (res : TransactionResult)
    : M (bool * TransactionResult) :=
  '(valid, b, sc) ← applyChecks env res;
  '(ok, b) ← (if valid : bool then applyOperations (env_tx env) b sc else mret (false, b));
  mret (ok, mkTxResult (feeCharged res) b).
End Frames.
