(* ===== verification/TransactionEffects.v ===== *)
(** What the parts of a transaction leave alone: its checks change nothing,
    and its bookkeeping (sequence number, one-time signers) changes nothing
    but the sequence numbers, signers and sub-entry counts of accounts. *)

From S2P Require Import Prelude Numeric OfferMath Types OfferOrder LedgerTxn.
From S2P Require Import LedgerState TransactionUtils OfferExchange Accounting.
From S2P Require Import Operations Payments ManageOffers Transactions.

Section WithExternals.
Context `{Ext : Externals}.

(** ** The checks change nothing *)
Lemma keeps_op_checkSignature R `{!PreOrder R} tx op b sc :
  keeps R (op_checkSignature tx op b sc).
Proof.
  unfold op_checkSignature, loadSourceAccount, loadAccount, currentAccount. keeps_auto.
Qed.
Lemma wlp_op_checkValid tx op b sc s :
  wlp (op_checkValid tx op b sc) (fun r s' => s' = s /\
    (r.1.1 = true -> exists v, (doCheckValid (getSourceID tx op) (op_body op) v).1 = true)) s.
Proof.
  unfold op_checkValid. apply wlp_nested, wlp_bind, wlp_currentHeader, wlp_bind.
  eapply (wlp_keeps eq).
  { destruct (_ || _); [apply keeps_op_checkSignature; exact _|].
    unfold loadSourceAccount, loadAccount. keeps_auto. }
  intros [refused sc'] _ <-. destruct refused; [by apply wlp_ret|].
  destruct (doCheckValid _ _ _) as [ok tr] eqn:E. apply wlp_ret. split; [done|].
  cbn. intros ->. exists (ledgerVersion (st_header s)). by rewrite E.
Qed.

#[local] Hint Resolve keeps_op_checkSignature : keeps.
Lemma keeps_checkOpSignatures (R : LedgerState -> LedgerState -> Prop) `{!PreOrder R}
    tx ops i b v sc : keeps R (checkOpSignatures tx ops i b v sc).
Proof.
  revert i b v sc. induction ops; intros i b v sc; cbn [checkOpSignatures]; keeps_auto.
Qed.
#[local] Hint Resolve keeps_checkOpSignatures : keeps.
Lemma keeps_commonValid (R : LedgerState -> LedgerState -> Prop) `{!PreOrder R}
    tx c a sc : keeps R (commonValid tx c a sc).
Proof.
  unfold commonValid, commonValidPreSeqNum, validPostSeqNum, loadSourceAccount, loadAccount,
    currentAccount. keeps_auto.
Qed.
#[local] Hint Resolve keeps_commonValid : keeps.
Lemma keeps_op_checkValid tx op b sc : keeps eq (op_checkValid tx op b sc).
Proof.
  intros s. eapply wlp_mono; [apply wlp_op_checkValid|]. by intros r s' [-> _].
Qed.
Lemma keeps_checkOpsValid tx ops i b sc : keeps eq (checkOpsValid tx ops i b sc).
Proof.
  revert i b sc. induction ops as [|op ops IH]; intros i b sc; cbn [checkOpsValid];
    [keeps_easy|]. pose proof keeps_op_checkValid. keeps_auto.
Qed.
Lemma keeps_tx_checkValid env current : keeps eq (tx_checkValid env current).
Proof. unfold tx_checkValid. pose proof keeps_checkOpsValid. keeps_auto. Qed.

(** A transaction that is valid has the sequence number that follows. *)
Lemma tx_checkValid_seqNum env current s :
  wlp (tx_checkValid env current) (fun r _ => r.1 = true ->
    exists acc, st_entries s !! KeyAccount (tx_sourceAccount (env_tx env)) = Some (ACCOUNT acc) /\
      tx_seqNum (env_tx env) = (if current =? 0 then acc_seqNum acc else current) + 1) s.
Proof.
  unfold tx_checkValid. apply wlp_nested, wlp_bind, wlp_currentHeader, wlp_bind.
  apply (wlp_mono _ (fun r _ => r.1.1 = kFullyValid ->
    exists acc, st_entries s !! KeyAccount (tx_sourceAccount (env_tx env)) = Some (ACCOUNT acc) /\
      tx_seqNum (env_tx env) = (if current =? 0 then acc_seqNum acc else current) + 1)).
  - unfold commonValid. apply wlp_nested, wlp_bind.
    eapply (wlp_keeps eq).
    { unfold commonValidPreSeqNum, loadSourceAccount, loadAccount. keeps_auto. }
    intros [code|] _ <-; [by apply wlp_ret|]. apply wlp_bind, wlp_currentHeader, wlp_bind.
    eapply (wlp_keeps eq); [unfold loadSourceAccount, loadAccount; keeps_auto|].
    intros _ _ <-. apply wlp_bind, wlp_bind, wlp_current. intros d Hd.
    apply wlp_lift. intros acc E. destruct d; cbn in E; try done. injection E as ->.
    cbn [negb]. rewrite orb_true_r, andb_true_l.
    destruct (_ || _) eqn:Eseq; [by apply wlp_ret|].
    apply orb_false_iff in Eseq as [_ Eseq]. apply negb_false_iff, Z.eqb_eq in Eseq.
    apply wlp_bind. eapply wlp_mono; [apply wlp_top|]. intros v s' _. apply wlp_ret.
    intros _. by exists acc.
  - intros [[cv code] sc] s1 Hcv. cbn in Hcv. destruct cv; try (by apply wlp_ret).
    apply wlp_bind. eapply wlp_mono; [apply wlp_top|]. intros [ok b] s2 _.
    apply wlp_ret. intros _. by apply Hcv.
Qed.

(** * Bookkeeping *)

(** An entry with at most its sequence number, its sub-entry count and its
    signers changed. *)
Inductive bookkept : LedgerEntryData -> LedgerEntryData -> Prop :=
  | bookkept_same d : bookkept d d
  | bookkept_account a n m l :
      bookkept (ACCOUNT a)
        (ACCOUNT (set_signers l (set_numSubEntries m (set_seqNum n a)))).
#[export] Instance bookkept_preorder : PreOrder bookkept.
Proof.
  split; [constructor|]. intros d1 d2 d3 H12 H23. destruct H12 as [|a n m l]; [done|].
  inversion H23 as [|? n' m' l']; subst; [constructor|].
  exact (bookkept_account a n' m' l').
Qed.

(** Nothing else changed: the header is the same, and so is every entry up to
    bookkeeping. *)
Definition bookkeeping (s s' : LedgerState) : Prop :=
  st_header s' = st_header s /\
  forall k, option_relation bookkept (fun _ => False) (fun _ => False)
              (st_entries s !! k) (st_entries s' !! k).
#[export] Instance bookkeeping_preorder : PreOrder bookkeeping.
Proof.
  split.
  - intros s. split; [done|]. intros k. destruct (st_entries s !! k); cbn; reflexivity.
  - intros s1 s2 s3 [E1 H1] [E2 H2]. split; [congruence|]. intros k.
    specialize (H1 k). specialize (H2 k).
    destruct (st_entries s1 !! k), (st_entries s2 !! k), (st_entries s3 !! k);
      cbn in *; try done. by etransitivity.
Qed.

Lemma bookkeeping_insert s k d d' :
  st_entries s !! k = Some d -> bookkept d d' ->
  bookkeeping s (set_entries (<[k := d']> (st_entries s)) s).
Proof.
  intros Hk Hd. split; [done|]. intros j. cbn. destruct (decide (j = k)) as [->|Hj].
  - by rewrite lookup_insert_eq, Hk.
  - rewrite lookup_insert_ne by done. destruct (st_entries s !! j); cbn; [constructor|done].
Qed.
Lemma bookkeeping_modify k f :
  (forall h d d', f h d = Ok (Some d') -> bookkept d d') -> keeps bookkeeping (modify k f).
Proof.
  intros Hf s. apply wlp_modify. intros d Hd.
  destruct (f _ d) as [[d'|]|] eqn:E; [|reflexivity|done].
  eapply bookkeeping_insert; eauto.
Qed.
Lemma bookkeeping_update k f :
  (forall d d', f d = Ok d' -> bookkept d d') -> keeps bookkeeping (update k f).
Proof.
  intros Hf s. apply wlp_bind, wlp_current. intros d Hd. apply wlp_bind, wlp_lift.
  intros d' E. apply wlp_setCurrent. eapply bookkeeping_insert; eauto.
Qed.
Lemma bookkeeping_updateAccount k f :
  (forall a, bookkept (ACCOUNT a) (ACCOUNT (f a))) ->
  keeps bookkeeping (updateAccount k f).
Proof.
  intros Hf. apply bookkeeping_update. intros [] d'; cbn; try done. by intros [= <-].
Qed.
Lemma bookkeeping_eq {A} (m : M A) : keeps eq m -> keeps bookkeeping m.
Proof. intros Hm s. eapply wlp_mono; [apply Hm|]. by intros ? ? <-. Qed.

(** ** The bookkeeping of a transaction *)
Lemma bookkeeping_addNumEntries k x :
  keeps bookkeeping (modify k (fun h e => addNumEntries h e x)).
Proof.
  apply bookkeeping_modify. intros h d d' H.
  apply addNumEntries_change in H as (a & -> & ->).
  exact (bookkept_account a (acc_seqNum a) _ (acc_signers a)).
Qed.
Lemma bookkeeping_signers k f :
  keeps bookkeeping (updateAccount k (fun a => set_signers (f a) a)).
Proof.
  apply bookkeeping_updateAccount. intros a.
  exact (bookkept_account a (acc_seqNum a) (acc_numSubEntries a) _).
Qed.
Lemma bookkeeping_normalizeSigners k : keeps bookkeeping (update k normalizeSigners).
Proof.
  apply bookkeeping_update. intros [a| | |] d'; cbn; try done. intros [= <-].
  exact (bookkept_account a (acc_seqNum a) (acc_numSubEntries a) _).
Qed.
Lemma bookkeeping_seqNum k n : keeps bookkeeping (updateAccount k (set_seqNum n)).
Proof.
  apply bookkeeping_updateAccount. intros a.
  exact (bookkept_account a _ (acc_numSubEntries a) (acc_signers a)).
Qed.
#[local] Hint Resolve bookkeeping_addNumEntries bookkeeping_signers
  bookkeeping_normalizeSigners bookkeeping_seqNum : keeps.
Lemma bookkeeping_removeAccountSigner k key :
  keeps bookkeeping (removeAccountSigner k key).
Proof. unfold removeAccountSigner, currentAccount, assertM. keeps_auto. Qed.
#[local] Hint Resolve bookkeeping_removeAccountSigner : keeps.
Lemma bookkeeping_removeSignersUntil k keys r :
  keeps bookkeeping (removeSignersUntil k keys r).
Proof. revert r. induction keys; intros r; cbn [removeSignersUntil]; keeps_auto. Qed.
#[local] Hint Resolve bookkeeping_removeSignersUntil : keeps.
Lemma bookkeeping_removeUsedOneTimeSignerKeys sc :
  keeps bookkeeping (removeUsedOneTimeSignerKeys sc).
Proof.
  unfold removeUsedOneTimeSignerKeys. induction (map_to_list _) as [|[id keys] l IH];
    cbn [removeAllOneTimeSignerKeys]; [keeps_easy|].
  unfold removeAccountOneTimeSignerKeys, loadAccount. keeps_auto.
Qed.
Lemma bookkeeping_processSeqNum tx : keeps bookkeeping (processSeqNum tx).
Proof. unfold processSeqNum, loadSourceAccount, loadAccount, currentAccount. keeps_auto. Qed.
Lemma bookkeeping_processSignatures tx b sc :
  keeps bookkeeping (processSignatures tx b sc).
Proof.
  unfold processSignatures. pose proof bookkeeping_removeUsedOneTimeSignerKeys. keeps_auto.
Qed.

Lemma bookkeeping_applyChecks env res : keeps bookkeeping (applyChecks env res).
Proof.
  unfold applyChecks. apply keeps_bind; [exact _|keeps_easy|intros header].
  apply keeps_bind; [exact _|apply keeps_commonValid; exact _|intros [[cv code] sc]].
  apply keeps_bind; [exact _| |intros _].
  { destruct (1 <=? _); [apply bookkeeping_processSeqNum|keeps_easy]. }
  apply keeps_bind; [exact _| |intros [[valid b] sc']; keeps_easy].
  destruct (2 <=? _); [apply bookkeeping_processSignatures|keeps_easy].
Qed.

(** C20. A transaction that fails when it is applied changes nothing but the
    sequence numbers, the signers and the sub-entry counts of accounts: the
    header is the same, no entry appears or disappears, and every entry is the
    same up to these three fields, whatever its operations did before one of
    them failed. *)
Theorem failed_transaction_atomic env res s :
  match tx_apply env res s with
  | Ok (false, _, s') => bookkeeping s s'
  | _ => True
  end.
Proof.
  enough (H : wlp (tx_apply env res) (fun r s' => r.1 = false -> bookkeeping s s') s).
  { unfold wlp in H. destruct (tx_apply env res s) as [[[[] r] s']|]; auto. }
  unfold tx_apply. apply wlp_bind. eapply (wlp_keeps bookkeeping); [apply bookkeeping_applyChecks|].
  intros [[valid b] sc] s1 H1. apply wlp_bind.
  destruct valid; [|apply wlp_ret; by apply wlp_ret].
  unfold applyOperations. apply wlp_nested, wlp_bind.
  eapply wlp_mono; [apply wlp_top|]. intros [[err b'] sc''] s3 _. destruct err; cbn [negb].
  - apply wlp_bind, wlp_lift. intros ? _. apply wlp_ret. by apply wlp_ret.
  - apply wlp_bind, wlp_currentHeader. destruct (_ && _).
    + apply wlp_ret. by apply wlp_ret.
    + apply wlp_bind. eapply wlp_mono; [apply wlp_top|]. intros ? s4 _.
      apply wlp_ret. by apply wlp_ret.
Qed.
End WithExternals.
#[export] Hint Resolve keeps_op_checkSignature keeps_checkOpSignatures keeps_commonValid
  keeps_tx_checkValid : keeps.

(** ** The sample of the examples: an account with a pre-authorized transaction
    that creates another account. *)
Definition sample_externals : Externals := {|
  getContentsHash _ := 42; sendRawTransactionZagg _ := true; generateBlocks _ := Ok tt |}.
Definition sample_source : AccountEntry :=
  mkAccount 1 5000 6 "" 1 None 0 "" (mkThresholds 1 0 0 0)
    [mkSigner (SIGNER_KEY_PRE_AUTH_TX 42) 1] None.
Definition sample_before : LedgerState :=
  mkState (mkHeader 10 7 0 100000 0 0 5 100 10 100)
    (<[KeyAccount 1 := ACCOUNT sample_source]> ∅).
Definition sample_env : TransactionEnvelope :=
  mkEnvelope (mkTransaction 1 100 7 None []
    [mkOperation None (CREATE_ACCOUNT (mkCreateAccount 2 3000))]) [].
