(* ===== verification/TxSets.v ===== *)
(** Transaction sets: [src/src/herder/TxSetFrame.cpp].

    A [TransactionFramePtr] is a pointer, compared as such when a transaction
    is removed, with the envelope it points to.  The hashes are parameters.
    [std::sort] is the interface of [Sorting]. *)

From Stdlib Require Import SpecFloat.
From S2P Require Import Prelude Numeric OfferMath Types Sorting OfferOrder LedgerTxn.
From S2P Require Import LedgerState TransactionUtils OfferExchange Operations.
From S2P Require Import Payments ManageOffers Transactions.

Record TransactionFramePtr := mkTx { tx_ptr : Z; tx_frame : TransactionEnvelope }.
Definition ptr_source (tx : TransactionFramePtr) : AccountID :=
  tx_sourceAccount (env_tx (tx_frame tx)).
Definition getSeqNum (tx : TransactionFramePtr) : Z := tx_seqNum (env_tx (tx_frame tx)).
Definition getFee (tx : TransactionFramePtr) : Z := tx_fee (env_tx (tx_frame tx)).

(** SHA-256 of an envelope, and of a set: the previous ledger's hash followed
    by the envelopes. *)
Class TxSetExternals := {
  getFullHash : TransactionEnvelope -> Hash;
  hashTxSet : Hash -> list TransactionEnvelope -> Hash }.

Record TxSetFrame := mkTxSet {
  mHashIsValid : bool;
  mHash : Hash;
  mPreviousLedgerHash : Hash;
  mTransactions : list TransactionFramePtr }.
Definition set_mTransactions (txs : list TransactionFramePtr) (ts : TxSetFrame)
    : TxSetFrame := mkTxSet false (mHash ts) (mPreviousLedgerHash ts) txs.

Section TxSets.
Context `{Ext : Externals} `{TxExt : TxSetExternals} `{Sort : StdSort}.

Definition txHash (tx : TransactionFramePtr) : Hash := getFullHash (tx_frame tx).
Definition HashTxSorter (tx1 tx2 : TransactionFramePtr) : bool :=
  txHash tx1 <? txHash tx2.
Definition ApplyTxSorter (mSetHash : Hash) (tx1 tx2 : TransactionFramePtr) : bool :=
  lessThanXored (txHash tx1) (txHash tx2) mSetHash.
Definition SeqSorter (tx1 tx2 : TransactionFramePtr) : bool :=
  getSeqNum tx1 <? getSeqNum tx2.

(** ** The set and its hash *)
Definition sortForHash (ts : TxSetFrame) : TxSetFrame :=
  set_mTransactions (std_sort HashTxSorter (mTransactions ts)) ts.

Definition txset_getContentsHash (ts : TxSetFrame) : Hash * TxSetFrame :=
  if mHashIsValid ts then (mHash ts, ts)
  else
    let ts := sortForHash ts in
    let h := hashTxSet (mPreviousLedgerHash ts) (map tx_frame (mTransactions ts)) in
    (h, mkTxSet true h (mPreviousLedgerHash ts) (mTransactions ts)).

(** The version of [previousLedgerHash] that returns a reference. *)
Definition previousLedgerHash (ts : TxSetFrame) : Hash * TxSetFrame :=
  (mPreviousLedgerHash ts,
   mkTxSet false (mHash ts) (mPreviousLedgerHash ts) (mTransactions ts)).

Definition add (tx : TransactionFramePtr) (ts : TxSetFrame) : TxSetFrame :=
  set_mTransactions (mTransactions ts ++ [tx]) ts.

(** [std::find] and [erase]. *)
Fixpoint erase_ptr (tx : TransactionFramePtr) (l : list TransactionFramePtr)
    : list TransactionFramePtr :=
  match l with
  | [] => []
  | t :: l => if tx_ptr t =? tx_ptr tx then l else t :: erase_ptr tx l
  end.
Definition removeTx (tx : TransactionFramePtr) (ts : TxSetFrame) : TxSetFrame :=
  set_mTransactions (erase_ptr tx (mTransactions ts)) ts.

(** ** [sortForApply] *)
Definition addToBatch (st : gmap AccountID nat * list (list TransactionFramePtr))
    (tx : TransactionFramePtr) : gmap AccountID nat * list (list TransactionFramePtr) :=
  let '(accountTxCountMap, txBatches) := st in
  let v := default 0%nat (accountTxCountMap !! ptr_source tx) in
  let txBatches :=
    if Nat.leb (length txBatches) v then resize (v + 4) [] txBatches else txBatches in
  (<[ptr_source tx := S v]> accountTxCountMap,
   alter (fun batch => batch ++ [tx]) v txBatches).
Definition buildBatches (txs : list TransactionFramePtr) : list (list TransactionFramePtr) :=
  (fold_left addToBatch txs (∅, replicate 4 [])).2.

Fixpoint applyBatches (txBatches : list (list TransactionFramePtr)) (ts : TxSetFrame)
    : list TransactionFramePtr * TxSetFrame :=
  match txBatches with
  | [] => ([], ts)
  | batch :: rest =>
      let '(h, ts) := txset_getContentsHash ts in
      let '(retList, ts) := applyBatches rest ts in
      (std_sort (ApplyTxSorter h) batch ++ retList, ts)
  end.
Definition sortForApply (ts : TxSetFrame) : list TransactionFramePtr * TxSetFrame :=
  applyBatches (buildBatches (std_sort SeqSorter (mTransactions ts))) ts.

(** ** [surgePricingFilter]: ratios of fees as doubles *)
Definition double_of_int (z : Z) : spec_float := double_of_int32 z.
Definition feeRatio (tx : TransactionFramePtr) (header : LedgerHeader) : spec_float :=
  SFdiv 53 1024 (double_of_int (getFee tx))
    (double_of_int (getMinFee (env_tx (tx_frame tx)) header)).

Definition addFeeRatio (header : LedgerHeader) (accountFeeMap : gmap AccountID spec_float)
    (tx : TransactionFramePtr) : gmap AccountID spec_float :=
  let r := feeRatio tx header in
  let now := default (S754_zero false) (accountFeeMap !! ptr_source tx) in
  if SFeqb now (S754_zero false) then <[ptr_source tx := r]> accountFeeMap
  else if SFltb r now then <[ptr_source tx := r]> accountFeeMap
  else <[ptr_source tx := now]> accountFeeMap.

Definition SurgeSorter (mAccountFeeMap : gmap AccountID spec_float)
    (tx1 tx2 : TransactionFramePtr) : bool :=
  if ptr_source tx1 =? ptr_source tx2 then getSeqNum tx1 <? getSeqNum tx2
  else
    let fee tx := default (S754_zero false) (mAccountFeeMap !! ptr_source tx) in
    if SFeqb (fee tx1) (fee tx2) then ptr_source tx1 <? ptr_source tx2
    else SFltb (fee tx2) (fee tx1).

Definition surgePricing (header : LedgerHeader) (ts : TxSetFrame) : TxSetFrame :=
  let max := Z.to_nat (maxTxSetSize header) in
  if Nat.ltb max (length (mTransactions ts)) then
    let accountFeeMap := fold_left (addFeeRatio header) (mTransactions ts) ∅ in
    let tempList := std_sort (SurgeSorter accountFeeMap) (mTransactions ts) in
    fold_left (fun ts tx => removeTx tx ts) (drop max tempList) ts
  else ts.
Definition surgePricingFilter (ts : TxSetFrame) : M TxSetFrame :=
  header ← currentHeader; mret (surgePricing header ts).

(** ** [checkOrTrim]

    [S] is what the two lambdas have captured and change. *)
Section CheckOrTrim.
Context {S : Type}
  (processInvalidTxLambda : TransactionFramePtr -> Z -> S -> bool * S)
  (processInsufficientBalance : list TransactionFramePtr -> S -> bool * S).

(** The test of the order, and [accountTxMap]; [None] is [return false]. *)
Fixpoint groupByAccount (txs : list TransactionFramePtr) (lastHash : Hash)
    (accountTxMap : gmap AccountID (list TransactionFramePtr))
    : option (gmap AccountID (list TransactionFramePtr)) :=
  match txs with
  | [] => Some accountTxMap
  | tx :: txs =>
      if txHash tx <? lastHash then None
      else
        groupByAccount txs (txHash tx)
          (<[ptr_source tx := default [] (accountTxMap !! ptr_source tx) ++ [tx]]>
             accountTxMap)
  end.

(** The loop over one account's transactions: [None] is [return false], and
    the last valid transaction comes with the sum of the fees. *)
Fixpoint checkAccountTxs (txs : list TransactionFramePtr)
    (lastTx : option TransactionFramePtr) (lastSeq totFee : Z) (st : S)
    : M (option (option TransactionFramePtr * Z) * S) :=
  match txs with
  | [] => mret (Some (lastTx, totFee), st)
  | tx :: txs =>
      '(ok, _) ← tx_checkValid (tx_frame tx) lastSeq;
      if negb ok then
        let '(goOn, st) := processInvalidTxLambda tx lastSeq st in
        if goOn : bool then checkAccountTxs txs lastTx lastSeq totFee st
        else mret (None, st)
      else
        checkAccountTxs txs (Some tx) (getSeqNum tx) (s64 (totFee + getFee tx)) st
  end.

Fixpoint checkAccounts (accountTxMap : list (AccountID * list TransactionFramePtr)) (st : S)
    : M (bool * S) :=
  match accountTxMap with
  | [] => mret (true, st)
  | (_, item) :: rest =>
      let item := std_sort SeqSorter item in
      '(r, st) ← checkAccountTxs item None 0 0 st;
      match r with
      | None => mret (false, st)
      | Some (None, _) => checkAccounts rest st
      | Some (Some lastTx, totFee) =>
          _ ← loadAccount (ptr_source lastTx);
          avail ← read (KeyAccount (ptr_source lastTx)) getAvailableBalance;
          if avail <? totFee then
            let '(goOn, st) := processInsufficientBalance item st in
            if goOn : bool then checkAccounts rest st else mret (false, st)
          else checkAccounts rest st
      end
  end.

Definition checkOrTrim (mTransactions : list TransactionFramePtr) (st : S) : M (bool * S) :=
  match groupByAccount mTransactions 0 ∅ with
  | None => mret (false, st)
  | Some accountTxMap =>
      nested (r ← checkAccounts (in_key_order accountTxMap) st; mret (false, r))
  end.
End CheckOrTrim.

Definition trimTx (tx : TransactionFramePtr) (st : TxSetFrame * list TransactionFramePtr)
    : TxSetFrame * list TransactionFramePtr := (removeTx tx st.1, st.2 ++ [tx]).

Definition trimInvalid (ts : TxSetFrame) (trimmed : list TransactionFramePtr)
    : M (TxSetFrame * list TransactionFramePtr) :=
  let ts := sortForHash ts in
  '(_, st) ←
    checkOrTrim (fun tx _ st => (true, trimTx tx st))
      (fun item st => (true, fold_left (fun st tx => trimTx tx st) item st))
      (mTransactions ts) (ts, trimmed);
  mret st.

(** [lclHash] is the hash of the last closed ledger. *)
Definition txset_checkValid (lclHash : Hash) (ts : TxSetFrame) : M bool :=
  if negb (lclHash =? mPreviousLedgerHash ts) then mret false
  else
    header ← currentHeader;
    if maxTxSetSize header <? Z.of_nat (length (mTransactions ts)) then mret false
    else
      '(ok, _) ← checkOrTrim (fun _ _ st => (false, st)) (fun _ st => (false, st))
                   (mTransactions ts) tt;
      mret ok.
End TxSets.
