(* ===== verification/ApplyOrder.v ===== *)
(** The order in which a transaction set is applied: every transaction once,
    and the transactions of an account by sequence number; and what removing
    transactions from a set leaves. *)

From stdpp Require Import sorting.
From S2P Require Import Prelude Numeric OfferMath Types Sorting OfferOrder LedgerTxn LedgerState.
From S2P Require Import TransactionUtils OfferExchange Operations Payments ManageOffers Transactions TxSets.

(** * Removing transactions: with distinct pointers, what is left is a filter of the set *)

Definition kept_in (D : list TransactionFramePtr) (t : TransactionFramePtr) : bool :=
  negb (existsb (fun d => tx_ptr d =? tx_ptr t) D).

Lemma erase_ptr_filter tx l :
  NoDup (map tx_ptr l) -> erase_ptr tx l = List.filter (kept_in [tx]) l.
Proof.
  induction l as [|t l IH]; cbn [erase_ptr List.filter map]; [done|].
  intros [Ht Hl]%NoDup_cons. unfold kept_in at 1. cbn [existsb].
  rewrite orb_false_r, Z.eqb_sym. destruct (Z.eqb_spec (tx_ptr tx) (tx_ptr t)) as [E|E];
    cbn [negb]; [|by rewrite IH].
  symmetry. apply forallb_filter_id. apply forallb_forall. intros x Hx.
  unfold kept_in. cbn. rewrite orb_false_r. apply negb_true_iff, Z.eqb_neq. intros Hx'.
  apply Ht. rewrite <- E, Hx'. apply list_elem_of_In, in_map, Hx.
Qed.

Lemma NoDup_map_filter (f : TransactionFramePtr -> bool) l :
  NoDup (map tx_ptr l) -> NoDup (map tx_ptr (List.filter f l)).
Proof.
  induction l as [|t l IH]; cbn; [done|]. intros [Ht Hl]%NoDup_cons.
  destruct (f t); [|auto]. cbn. apply NoDup_cons. split; [|auto].
  intros Hin. apply Ht. rewrite list_elem_of_In in *. apply in_map_iff in Hin as (x & Ex & Hx).
  apply filter_In in Hx as [Hx _]. rewrite <- Ex. by apply in_map.
Qed.
Lemma filter_filter (f g : TransactionFramePtr -> bool) l :
  List.filter f (List.filter g l) = List.filter (fun x => g x && f x) l.
Proof.
  induction l as [|x l IH]; cbn; [done|]. destruct (g x); cbn; [|done].
  destruct (f x); by rewrite IH.
Qed.

Lemma sublist_filter {A} (f : A -> bool) l : sublist (List.filter f l) l.
Proof. induction l as [|x l IH]; cbn; [constructor|]. destruct (f x); by constructor. Qed.

Lemma filter_none {A} (f : A -> bool) l :
  (forall x, In x l -> f x = false) -> List.filter f l = [].
Proof. induction l as [|x l IH]; cbn; [done|]. intros H. rewrite H by auto. auto. Qed.
Lemma kept_out D x : In x D -> kept_in D x = false.
Proof.
  intros Hx. apply negb_false_iff, existsb_exists. exists x. split; [done|apply Z.eqb_refl].
Qed.
Lemma filter_perm {A} (f : A -> bool) l1 l2 :
  Permutation l1 l2 -> Permutation (List.filter f l1) (List.filter f l2).
Proof.
  induction 1; cbn; [done| | |by etransitivity].
  - destruct (f _); auto.
  - destruct (f _), (f _); auto. constructor.
Qed.

Lemma ptr_inj l t1 t2 :
  NoDup (map tx_ptr l) -> In t1 l -> In t2 l -> tx_ptr t1 = tx_ptr t2 -> t1 = t2.
Proof.
  induction l as [|t l IH]; cbn; [done|]. intros [Ht Hl]%NoDup_cons.
  assert (Hno : forall x, In x l -> tx_ptr x <> tx_ptr t).
  { intros x Hx E. apply Ht. rewrite <- E. by apply list_elem_of_In, in_map. }
  intros [<-|H1] [<-|H2] E; [done| | |by apply IH].
  - by destruct (Hno t2).
  - by destruct (Hno t1).
Qed.

Definition removeAll (D : list TransactionFramePtr) (ts : TxSetFrame) : TxSetFrame :=
  fold_left (fun ts tx => removeTx tx ts) D ts.

Lemma removeAll_transactions D ts :
  NoDup (map tx_ptr (mTransactions ts)) ->
  mTransactions (removeAll D ts) = List.filter (kept_in D) (mTransactions ts) /\
  mPreviousLedgerHash (removeAll D ts) = mPreviousLedgerHash ts.
Proof.
  revert ts. induction D as [|d D IH]; intros ts Hd.
  { split; [|done]. symmetry. by apply forallb_filter_id, forallb_forall. }
  cbn [removeAll fold_left]. fold (removeAll D (removeTx d ts)).
  destruct (IH (removeTx d ts)) as [-> ->].
  { cbn. rewrite erase_ptr_filter by done. by apply NoDup_map_filter. }
  cbn. split; [|done]. rewrite erase_ptr_filter, filter_filter by done.
  apply filter_ext. intros t. unfold kept_in. cbn. rewrite orb_false_r.
  by rewrite <- negb_orb.
Qed.

(** The transactions of one account. *)
Definition of_account (a : AccountID) : list TransactionFramePtr -> list TransactionFramePtr :=
  List.filter (fun tx => ptr_source tx =? a).

(** * The batches *)
Lemma concat_takes {A} (bs : list (list A)) (l : list A) :
  (forall i, default [] (bs !! i) = take 1 (drop i l)) -> concat bs = l.
Proof.
  revert l. induction bs as [|b bs IH]; intros l H; cbn.
  - specialize (H 0%nat). by destruct l.
  - pose proof (H 0%nat) as H0. cbn in H0. rewrite drop_0 in H0. subst b.
    rewrite (IH (tail l)).
    + by destruct l.
    + intros i. transitivity (default [] ((take 1 l :: bs) !! S i)); [done|]. rewrite H.
      by destruct l; cbn; rewrite ?drop_nil.
Qed.

Lemma of_account_app a l1 l2 : of_account a (l1 ++ l2) = of_account a l1 ++ of_account a l2.
Proof. apply List.filter_app. Qed.
Lemma of_account_concat a bs : of_account a (concat bs) = concat (map (of_account a) bs).
Proof. induction bs as [|b bs IH]; cbn; [done|]. by rewrite of_account_app, IH. Qed.
Lemma of_account_perm a l1 l2 :
  Permutation l1 l2 -> Permutation (of_account a l1) (of_account a l2).
Proof.
  induction 1; cbn; [done| | |by etransitivity].
  - destruct (_ =? a); auto.
  - destruct (_ =? a), (_ =? a); auto. constructor.
Qed.

Record batched (txs : list TransactionFramePtr)
    (st : gmap AccountID nat * list (list TransactionFramePtr)) : Prop := {
  batched_count a : default 0%nat (st.1 !! a) = length (of_account a txs);
  batched_nth a i :
    of_account a (default [] (st.2 !! i)) = take 1 (drop i (of_account a txs));
  batched_perm : Permutation (concat st.2) txs }.

Lemma lookup_default_resize {A} (bs : list (list A)) n i :
  (length bs <= n)%nat -> default [] (resize n [] bs !! i) = default [] (bs !! i).
Proof.
  intros Hn. destruct (decide (i < length bs)%nat) as [Hi|Hi].
  - by rewrite lookup_resize by lia.
  - rewrite (lookup_ge_None_2 bs) by lia. destruct (decide (i < n)%nat).
    + by rewrite lookup_resize_new by lia.
    + by rewrite lookup_resize_old by lia.
Qed.
Lemma concat_resize {A} (bs : list (list A)) n :
  (length bs <= n)%nat -> concat (resize n [] bs) = concat bs.
Proof.
  intros Hn. rewrite resize_ge by done. rewrite concat_app.
  assert (H : forall k, concat (replicate k (@nil A)) = [])
    by (induction k; cbn; auto).
  by rewrite H, app_nil_r.
Qed.
Lemma concat_alter_snoc {A} (bs : list (list A)) i x :
  (i < length bs)%nat ->
  Permutation (concat (alter (fun b => b ++ [x]) i bs)) (concat bs ++ [x]).
Proof.
  revert i. induction bs as [|b bs IH]; intros [|i] Hi; cbn in *; try lia.
  - rewrite <- !app_assoc. apply Permutation_app_head, Permutation_app_comm.
  - rewrite <- app_assoc. apply Permutation_app_head, IH. lia.
Qed.

Lemma batched_init : batched [] (∅, replicate 4 []).
Proof.
  split; cbn -[lookup]; [by intros; rewrite lookup_empty|intros a i|done].
  by destruct i as [|[|[|[|]]]].
Qed.

Lemma take_drop_snoc {A} (l : list A) x i :
  take 1 (drop i (l ++ [x])) =
    if decide (i = length l) then [x] else take 1 (drop i l).
Proof.
  destruct (decide (i = length l)) as [->|Hi].
  - by rewrite drop_app_length.
  - destruct (decide (i < length l)%nat).
    + rewrite drop_app_le by lia. rewrite take_app_le; [done|].
      rewrite length_drop. lia.
    + rewrite !drop_ge; [done|lia|rewrite length_app; cbn; lia].
Qed.

Lemma batched_add txs st tx : batched txs st -> batched (txs ++ [tx]) (addToBatch st tx).
Proof.
  destruct st as [cnt bs]. intros [Hc Hn Hp]. cbn [fst snd] in *. unfold addToBatch.
  set (v := default 0%nat (cnt !! ptr_source tx)).
  set (bs' := if Nat.leb (length bs) v then _ else bs).
  assert (Hbs' : (v < length bs')%nat /\ concat bs' = concat bs /\
                 forall i, default [] (bs' !! i) = default [] (bs !! i)).
  { subst bs'. destruct (Nat.leb_spec (length bs) v); [|done].
    rewrite length_resize, concat_resize by lia. split; [lia|]. split; [done|].
    intros i. apply lookup_default_resize. lia. }
  destruct Hbs' as (Hv & Hcat & Hlook).
  assert (Hone : forall a, of_account a [tx] = if decide (a = ptr_source tx) then [tx] else []).
  { intros a. cbn. destruct (Z.eqb_spec (ptr_source tx) a), (decide (a = ptr_source tx));
      congruence. }
  split; cbn [fst snd].
  - intros a. rewrite of_account_app, length_app, Hone.
    destruct (decide (a = ptr_source tx)) as [->|Ha].
    + rewrite lookup_insert_eq. cbn. fold v. rewrite <- (Hc (ptr_source tx)). fold v. lia.
    + rewrite lookup_insert_ne by done. cbn. rewrite Hc. lia.
  - intros a i. rewrite of_account_app, Hone. destruct (decide (i = v)) as [->|Hi].
    + rewrite list_lookup_alter_eq. destruct (lookup_lt_is_Some_2 bs' v Hv) as [b Hb].
      assert (Hbv : of_account a b = take 1 (drop v (of_account a txs))).
      { rewrite <- Hn, <- Hlook, Hb. done. }
      rewrite Hb. cbn [fmap option_fmap option_map default from_option id].
      rewrite of_account_app, Hone, Hbv.
      destruct (decide (a = ptr_source tx)) as [->|Ha]; [|by rewrite !app_nil_r].
      rewrite take_drop_snoc. subst v. rewrite Hc. rewrite decide_True by done.
      by rewrite drop_all.
    + rewrite list_lookup_alter_ne by done. rewrite Hlook, Hn.
      destruct (decide (a = ptr_source tx)) as [->|Ha]; [|by rewrite app_nil_r].
      rewrite take_drop_snoc. by rewrite decide_False by (subst v; rewrite Hc in Hi; done).
  - rewrite concat_alter_snoc by done. by rewrite Hcat, Hp.
Qed.

Lemma batched_build txs : batched txs (fold_left addToBatch txs (∅, replicate 4 [])).
Proof.
  assert (H : forall txs2 txs1 st, batched txs1 st ->
    batched (txs1 ++ txs2) (fold_left addToBatch txs2 st)).
  { induction txs2 as [|tx txs2 IH]; intros txs1 st Hst; cbn; [by rewrite app_nil_r|].
    rewrite (cons_middle tx), app_assoc. apply IH, batched_add, Hst. }
  apply (H txs []), batched_init.
Qed.

(** * The order *)
Section WithExternals.
Context `{Ext : Externals} `{TxExt : TxSetExternals} `{Sort : StdSort}.

Lemma SeqSorter_swo P : strict_weak_order P SeqSorter.
Proof.
  split; unfold SeqSorter; intros.
  - zbool. apply Z.ltb_ge. lia.
  - zbool. rewrite !Z.ltb_lt. lia.
Qed.

Lemma of_account_sorted_batch a lt batch :
  (length (of_account a batch) <= 1)%nat ->
  of_account a (std_sort lt batch) = of_account a batch.
Proof.
  intros H1. pose proof (of_account_perm a _ _ (std_sort_perm _ lt batch)) as Hp.
  destruct (of_account a batch) as [|x [|]]; cbn in H1; [| |lia].
  - by apply Permutation_nil_r in Hp.
  - by apply Permutation_singleton_r in Hp.
Qed.

Lemma applyBatches_spec bs ts a :
  Permutation (applyBatches bs ts).1 (concat bs) /\
  (Forall (fun b => (length (of_account a b) <= 1)%nat) bs ->
   of_account a (applyBatches bs ts).1 = of_account a (concat bs)).
Proof.
  revert ts. induction bs as [|b bs IH]; intros ts; [done|]. cbn [applyBatches concat].
  destruct (txset_getContentsHash ts) as [h ts1]. specialize (IH ts1).
  destruct (applyBatches bs ts1) as [ret ts2]. cbn [fst] in *. destruct IH as [IHp IHa].
  split; [by rewrite std_sort_perm, IHp|]. intros [Hb Hbs]%Forall_cons.
  rewrite !of_account_app, of_account_sorted_batch by done. by rewrite IHa.
Qed.

Lemma sortForApply_perm ts : Permutation (sortForApply ts).1 (mTransactions ts).
Proof.
  unfold sortForApply. destruct (batched_build (std_sort SeqSorter (mTransactions ts))) as [_ _ Hp].
  rewrite (proj1 (applyBatches_spec _ ts 0)). unfold buildBatches. rewrite Hp. apply std_sort_perm.
Qed.

(** [sortForApply] returns every transaction of the set exactly once, and
    among those of any one account keeps the order of sequence numbers,
    whatever the hashes and however [std::sort] orders equal elements. *)
Theorem sortForApply_correct ts :
  Permutation (sortForApply ts).1 (mTransactions ts) /\
  forall a, StronglySorted (fun t1 t2 => getSeqNum t1 <= getSeqNum t2)
              (of_account a (sortForApply ts).1).
Proof.
  split; [apply sortForApply_perm|].
  unfold sortForApply. set (sorted := std_sort SeqSorter (mTransactions ts)).
  pose proof (batched_build sorted) as Hb. fold (buildBatches sorted) in *.
  destruct Hb as [_ Hn _]. change (_.2) with (buildBatches sorted) in Hn.
  intros a. destruct (applyBatches_spec (buildBatches sorted) ts a) as [_ Ha].
    rewrite Ha.
    + rewrite of_account_concat, (concat_takes _ (of_account a sorted)).
      * apply StronglySorted_filter. eapply StronglySorted_mono;
          [|apply std_sort_sorted, SeqSorter_swo].
        unfold may_follow, SeqSorter. intros x y _ _ H. by apply Z.ltb_ge in H.
      * intros i. rewrite <- Hn. rewrite list_lookup_fmap.
        by destruct (buildBatches sorted !! i).
    + apply Forall_lookup. intros i b Hi. specialize (Hn a i). rewrite Hi in Hn. cbn in Hn.
      rewrite Hn, length_take. lia.
Qed.
End WithExternals.
