(* ===== verification/TrimValid.v ===== *)
(** Trimming a transaction set makes it valid: what [trimInvalid] leaves is a
    set that [checkValid] accepts. *)

From stdpp Require Import sorting.
From S2P Require Import Prelude Numeric OfferMath Types Sorting OfferOrder LedgerTxn.
From S2P Require Import LedgerState TransactionUtils OfferExchange Operations.
From S2P Require Import Payments ManageOffers Transactions.
From S2P Require Import TransactionEffects TxSets ApplyOrder.

Section WithExternals.
Context `{Ext : Externals} `{TxExt : TxSetExternals} `{Sort : StdSort}.

(** ** Grouping by account *)
Lemma groupByAccount_spec txs h m m' :
  groupByAccount txs h m = Some m' ->
  forall a, m' !! a = match of_account a txs with
                      | [] => m !! a
                      | l => Some (default [] (m !! a) ++ l)
                      end.
Proof using.
  revert h m. induction txs as [|tx txs IH]; intros h m; cbn [groupByAccount].
  { by intros [= <-]. }
  destruct (_ <? _); [done|]. intros H a. rewrite (IH _ _ H). cbn.
  destruct (Z.eqb_spec (ptr_source tx) a) as [<-|Ha].
  - rewrite lookup_insert_eq. cbn. destruct (of_account _ txs) as [|t l]; [done|].
    by rewrite <- app_assoc.
  - by rewrite lookup_insert_ne.
Qed.
Lemma groupByAccount_total txs h m :
  StronglySorted (fun x y => txHash x <= txHash y) txs -> Forall (fun x => h <= txHash x) txs ->
  is_Some (groupByAccount txs h m).
Proof using.
  intros Hs. revert h m. induction Hs as [|x l Hs IH Hx]; intros h m Hh; cbn; [by eexists|].
  apply Forall_cons in Hh as [Hh _]. rewrite (proj2 (Z.ltb_ge _ _)) by done. by apply IH.
Qed.
Lemma groupByAccount_sorted txs h m m' :
  groupByAccount txs h m = Some m' -> StronglySorted (fun x y => txHash x <= txHash y) txs.
Proof using.
  assert (H : forall txs h m m', groupByAccount txs h m = Some m' ->
    StronglySorted (fun x y => txHash x <= txHash y) txs /\ Forall (fun x => h <= txHash x) txs).
  { clear. induction txs as [|x l IH]; intros h m m'; cbn; [repeat constructor|].
    destruct (Z.ltb_spec (txHash x) h); [done|]. intros [Hs Hl]%IH.
    split; constructor; auto; try lia. rewrite Forall_forall in *. intros y Hy. specialize (Hl y Hy). lia. }
  intros Hg. by apply H in Hg as [? _].
Qed.

(** ** One account *)

(** What the loop carries: the last valid transaction and the fees so far. *)
Definition summary (txs : list TransactionFramePtr) (lastTx : option TransactionFramePtr)
    (totFee : Z) : option TransactionFramePtr * Z :=
  fold_left (fun r tx => (Some tx, s64 (r.2 + getFee tx))) txs (lastTx, totFee).

(** [txs] are valid one after the other, from the sequence number [cur] on. *)
Fixpoint chain (s : LedgerState) (txs : list TransactionFramePtr) (cur : Z) : Prop :=
  match txs with
  | [] => True
  | tx :: txs =>
      (exists r, tx_checkValid (tx_frame tx) cur s = Ok (true, r, s)) /\
      chain s txs (getSeqNum tx)
  end.

Lemma chain_checks {S} (fi : TransactionFramePtr -> Z -> S -> bool * S) s txs lastTx cur totFee st :
  chain s txs cur ->
  checkAccountTxs fi txs lastTx cur totFee st s = Ok (Some (summary txs lastTx totFee), st, s).
Proof using.
  revert lastTx cur totFee. induction txs as [|tx txs IH]; intros lastTx cur totFee; [done|].
  intros [[r Hr] Hc]. cbn [checkAccountTxs]. unfold mbind, M_bind at 1. rewrite Hr. cbn [negb].
  by rewrite IH.
Qed.

Definition seqs_ok (s : LedgerState) : Prop :=
  forall a acc, st_entries s !! KeyAccount a = Some (ACCOUNT acc) -> 0 <= acc_seqNum acc.

Lemma tx_checkValid_Ok env cur s ok r s' :
  tx_checkValid env cur s = Ok (ok, r, s') ->
  s' = s /\ (ok = true -> seqs_ok s -> 0 <= cur -> cur < tx_seqNum (env_tx env)).
Proof using.
  intros E. pose proof (keeps_tx_checkValid env cur s) as Hk.
  pose proof (tx_checkValid_seqNum env cur s) as Hq. unfold wlp in Hk, Hq. rewrite E in Hk, Hq.
  split; [done|]. intros -> Hs Hcur. destruct Hq as (acc & Ha & ->); [done|].
  apply Hs in Ha. destruct (Z.eqb_spec cur 0); lia.
Qed.

Lemma chain_increasing s txs cur :
  seqs_ok s -> 0 <= cur -> chain s txs cur ->
  Forall (fun tx => cur < getSeqNum tx) txs /\
  StronglySorted (fun x y => getSeqNum x < getSeqNum y) txs.
Proof using.
  intros Hs. revert cur. induction txs as [|tx txs IH]; intros cur Hcur; [repeat constructor|].
  intros [[r Hr] Hc]. apply tx_checkValid_Ok in Hr as [_ Hr]. specialize (Hr eq_refl Hs Hcur).
  change (cur < getSeqNum tx) in Hr. destruct (IH (getSeqNum tx)) as [H1 H2]; [lia|done|].
  split; constructor; auto. rewrite Forall_forall in *. intros x Hx. specialize (H1 x Hx). lia.
Qed.

(** The loop that goes on after an invalid transaction: the transactions split
    into the valid ones, in order, and the others. *)
Lemma checkAccountTxs_split {S} (f : TransactionFramePtr -> S -> S) s txs lastTx cur totFee st r st' s' :
  checkAccountTxs (fun tx _ st => (true, f tx st)) txs lastTx cur totFee st s = Ok (r, st', s') ->
  s' = s /\ exists kept dropped,
    Permutation (kept ++ dropped) txs /\ chain s kept cur /\
    st' = fold_left (fun st tx => f tx st) dropped st /\
    r = Some (summary kept lastTx totFee).
Proof using.
  revert lastTx cur totFee st. induction txs as [|tx txs IH]; intros lastTx cur totFee st; cbn.
  { intros [= <- <- <-]. split; [done|]. by exists [], []. }
  unfold mbind, M_bind. destruct (tx_checkValid (tx_frame tx) cur s) as [[[ok r1] s1]|] eqn:E; [|done].
  pose proof E as [-> _]%tx_checkValid_Ok. destruct ok; cbn [negb]; intros H;
    apply IH in H as (-> & kept & dropped & Hp & Hc & -> & ->); (split; [done|]).
  - exists (tx :: kept), dropped. split; [by constructor|]. split; [|done].
    split; [by eexists|done].
  - exists kept, (tx :: dropped). split; [|done]. rewrite <- Permutation_middle. by constructor.
Qed.

(** ** Sorting by sequence number *)
Lemma sorted_unique (txs sorted : list TransactionFramePtr) :
  StronglySorted (fun x y => getSeqNum x < getSeqNum y) txs ->
  StronglySorted (may_follow SeqSorter) sorted -> Permutation sorted txs -> sorted = txs.
Proof using.
  intros Hs. revert sorted. induction Hs as [|x txs Hs IH Hx]; intros sorted Hl Hp.
  { by apply Permutation_nil_r in Hp. }
  destruct sorted as [|y sorted]; [by apply Permutation_nil_cons in Hp|].
  apply StronglySorted_inv in Hl as [Hl Hy]. rewrite Forall_forall in Hx, Hy.
  assert (y = x) as ->.
  { assert (Hin : y ∈ x :: txs) by (rewrite <- Hp; set_solver).
    apply elem_of_cons in Hin as [->|Hin]; [done|]. apply Hx in Hin.
    assert (Hin' : x ∈ y :: sorted) by (rewrite Hp; set_solver).
    apply elem_of_cons in Hin' as [->|Hin']; [done|]. apply Hy in Hin'.
    unfold may_follow, SeqSorter in Hin'. apply Z.ltb_ge in Hin'. lia. }
  f_equal. apply IH; [done|]. by apply Permutation_cons_inv in Hp.
Qed.
Lemma std_sort_chain s K item :
  seqs_ok s -> chain s K 0 -> Permutation item K -> std_sort SeqSorter item = K.
Proof using.
  intros Hs Hc Hp. apply sorted_unique; [by eapply chain_increasing|..].
  - apply std_sort_sorted, SeqSorter_swo.
  - by rewrite std_sort_perm.
Qed.

(** ** All accounts *)
Definition funded (s : LedgerState) (K : list TransactionFramePtr) : Prop :=
  match summary K None 0 with
  | (Some lastTx, fee) =>
      exists avail, read (KeyAccount (ptr_source lastTx)) getAvailableBalance s = Ok (avail, s) /\
        fee <= avail
  | _ => True
  end.

Lemma checkAccounts_pass {S} (fi : TransactionFramePtr -> Z -> S -> bool * S) fb l st s :
  Forall (fun ai => chain s (std_sort SeqSorter ai.2) 0 /\ funded s (std_sort SeqSorter ai.2)) l ->
  checkAccounts fi fb l st s = Ok (true, st, s).
Proof using.
  induction 1 as [|[a item] l [Hc Hf] _ IH]; [done|]. cbn [checkAccounts snd] in *.
  unfold mbind at 1, M_bind at 1. rewrite chain_checks by done. cbv beta iota.
  unfold funded in Hf. destruct (summary _ _ _) as [[lastTx|] fee]; [|done].
  destruct Hf as (avail & Hr & Hle).
  unfold loadAccount, exists_entry, mbind, M_bind. cbv beta iota. rewrite Hr.
  rewrite (proj2 (Z.ltb_ge _ _)) by done. exact IH.
Qed.

(** What one account loses and keeps. *)
Definition account_trimmed (s : LedgerState) (ai : AccountID * list TransactionFramePtr)
    (D : list TransactionFramePtr) : Prop :=
  exists K R, Permutation (K ++ R) ai.2 /\ chain s K 0 /\ funded s K /\
    incl R D /\ incl D R.

Definition trimAll (D : list TransactionFramePtr) (st : TxSetFrame * list TransactionFramePtr)
    : TxSetFrame * list TransactionFramePtr := fold_left (fun st tx => trimTx tx st) D st.
Lemma trimAll_app D1 D2 st : trimAll (D1 ++ D2) st = trimAll D2 (trimAll D1 st).
Proof using. apply fold_left_app. Qed.

Lemma checkAccounts_trim l st s b st' s' :
  checkAccounts (fun tx _ st => (true, trimTx tx st)) (fun item st => (true, trimAll item st))
    l st s = Ok (b, st', s') ->
  s' = s /\ exists Ds, st' = trimAll (concat Ds) st /\ Forall2 (account_trimmed s) l Ds.
Proof using.
  revert st. induction l as [|[a item] l IH]; intros st; cbn [checkAccounts].
  { intros [= <- <- <-]. split; [done|]. by exists []. }
  unfold mbind at 1, M_bind at 1.
  destruct (checkAccountTxs _ _ _ _ _ _ s) as [[[r st1] s1]|] eqn:E; [|done].
  apply checkAccountTxs_split in E as (-> & K & R & Hp & Hc & -> & ->).
  rewrite std_sort_perm in Hp. fold (trimAll R st).
  assert (Hnext : forall D st2, st2 = trimAll D st -> account_trimmed s (a, item) D ->
    checkAccounts (fun tx _ st => (true, trimTx tx st)) (fun item st => (true, trimAll item st))
      l st2 s = Ok (b, st', s') ->
    s' = s /\ exists Ds, st' = trimAll (concat Ds) st /\ Forall2 (account_trimmed s) ((a, item) :: l) Ds).
  { intros D st2 -> HD H. apply IH in H as (-> & Ds & -> & HDs). split; [done|].
    exists (D :: Ds). split; [by cbn; rewrite trimAll_app|by constructor]. }
  destruct (summary K None 0) as [[lastTx|] fee] eqn:Esum.
  - unfold loadAccount, exists_entry, mbind, M_bind. cbv beta iota.
    destruct (read _ _ s) as [[avail s2]|] eqn:Er; [|done].
    assert (s2 = s) as -> by by apply read_state in Er.
    destruct (Z.ltb_spec avail fee) as [Hlt|Hge].
    + apply (Hnext (R ++ std_sort SeqSorter item)); [by rewrite trimAll_app|].
      exists [], (std_sort SeqSorter item). cbn. split; [apply std_sort_perm|].
      do 2 (split; [done|]). split; intros x Hx; rewrite ?in_app_iff in *; [auto|].
      destruct Hx as [Hx|]; [|done]. rewrite std_sort_In.
      eapply Permutation_in; [exact Hp|]. rewrite in_app_iff. auto.
    + apply (Hnext R); [done|]. exists K, R. split; [done|]. split; [done|].
      split; [|split; intros x; auto]. unfold funded. rewrite Esum. by exists avail.
  - apply (Hnext R); [done|]. exists K, R. split; [done|]. split; [done|].
    split; [|split; intros x; auto]. unfold funded. by rewrite Esum.
Qed.

(** ** What is left of the set *)
Lemma trimAll_fst D st : (trimAll D st).1 = removeAll D st.1.
Proof using. revert st. induction D as [|d D IH]; intros st; [done|apply IH]. Qed.
Lemma trimAll_transactions D st :
  NoDup (map tx_ptr (mTransactions st.1)) ->
  mTransactions (trimAll D st).1 = List.filter (kept_in D) (mTransactions st.1) /\
  mPreviousLedgerHash (trimAll D st).1 = mPreviousLedgerHash st.1.
Proof using. rewrite trimAll_fst. apply removeAll_transactions. Qed.

Lemma of_account_filter a f l : of_account a (List.filter f l) = List.filter f (of_account a l).
Proof using.
  unfold of_account. rewrite !filter_filter. apply filter_ext. intros x. apply andb_comm.
Qed.

(** The account's transactions that stay are the ones its loop kept. *)
Lemma kept_account s txs (l : list (AccountID * list TransactionFramePtr)) Ds a K R D :
  NoDup (map tx_ptr txs) ->
  Forall2 (account_trimmed s) l Ds ->
  (forall b item, In (b, item) l -> item = of_account b txs) ->
  NoDup l.*1 -> Permutation (K ++ R) (of_account a txs) -> incl R D -> incl D R ->
  (exists i, l !! i = Some (a, of_account a txs) /\ Ds !! i = Some D) ->
  Permutation (List.filter (kept_in (concat Ds)) (of_account a txs)) K.
Proof using.
  intros Hnd HDs Hl Hkeys Hp HRD HDR (i & Hi & HDi).
  assert (Hitem : forall x, In x (K ++ R) <-> In x (of_account a txs))
    by (intros x; split; apply Permutation_in; [|symmetry]; done).
  assert (HinD : forall d, In d D -> In d (concat Ds)).
  { intros d Hd. apply in_concat. exists D. split; [|done].
    apply list_elem_of_In. by eapply list_elem_of_lookup_2. }
  assert (Hfil : forall x, In x (of_account a txs) <-> In x txs /\ ptr_source x = a).
  { intros x. unfold of_account. rewrite filter_In. by rewrite Z.eqb_eq. }
  assert (Hp' : Permutation (List.filter (kept_in (concat Ds)) (of_account a txs))
                  (List.filter (kept_in (concat Ds)) (K ++ R))).
  { symmetry. by apply filter_perm. }
  rewrite Hp', List.filter_app.
  assert (HK : List.filter (kept_in (concat Ds)) K = K).
  { apply forallb_filter_id, forallb_forall. intros k Hk. unfold kept_in.
    apply negb_true_iff. destruct (existsb _ _) eqn:E; [|done]. exfalso.
    apply existsb_exists in E as (d & Hd & Ed%Z.eqb_eq).
    assert (Hkin : In k (of_account a txs)) by (apply Hitem, in_app_iff; auto).
    apply in_concat in Hd as (D' & HD' & Hd). apply list_elem_of_In in HD'.
    apply list_elem_of_lookup in HD' as [j Hj].
    destruct (Forall2_lookup_r _ _ _ _ _ HDs Hj) as ([b item] & Hbj & (K' & R' & Hp2 & _ & _ & _ & HDR')).
    cbn [snd] in Hp2. assert (Eitem : item = of_account b txs).
    { apply Hl, list_elem_of_In. by eapply list_elem_of_lookup_2. }
    assert (Hdin : In d item).
    { eapply Permutation_in; [exact Hp2|]. apply in_app_iff. right. by apply HDR'. }
    subst item. assert (d = k) as ->.
    { eapply ptr_inj; [exact Hnd|..|done].
      - unfold of_account in Hdin. by apply filter_In in Hdin as [? _].
      - by apply Hfil in Hkin as [? _]. }
    assert (b = a) as ->.
    { apply Hfil in Hkin as [_ <-]. unfold of_account in Hdin.
      apply filter_In in Hdin as [_ Hb]. by apply Z.eqb_eq in Hb. }
    assert (j = i) as ->.
    { eapply NoDup_lookup; [exact Hkeys|..]; rewrite list_lookup_fmap, ?Hbj, ?Hi; done. }
    rewrite HDi in Hj. injection Hj as <-. apply HDR in Hd.
    assert (Hndp : NoDup (of_account a txs)).
    { apply NoDup_fmap_1 with (f := tx_ptr). rewrite list_fmap_map || idtac.
      by apply NoDup_map_filter. }
    rewrite <- Hp in Hndp. apply NoDup_app in Hndp as (_ & Hdis & _).
    apply (Hdis k); by apply list_elem_of_In. }
  assert (HR : List.filter (kept_in (concat Ds)) R = []).
  { apply filter_none. intros x Hx. by apply kept_out, HinD, HRD. }
  by rewrite HK, HR, app_nil_r.
Qed.

(** ** The two passes *)
Lemma HashTxSorter_swo P : strict_weak_order P HashTxSorter.
Proof using.
  split; unfold HashTxSorter; intros; zbool.
  - apply Z.ltb_ge. lia.
  - rewrite !Z.ltb_lt. lia.
Qed.
Lemma sortForHash_sorted ts :
  StronglySorted (fun x y => txHash x <= txHash y) (mTransactions (sortForHash ts)).
Proof using.
  cbn. eapply StronglySorted_mono; [|apply std_sort_sorted, HashTxSorter_swo].
  unfold may_follow, HashTxSorter. intros x y _ _ H. by apply Z.ltb_ge in H.
Qed.
Lemma sortForHash_NoDup ts :
  NoDup (map tx_ptr (mTransactions ts)) -> NoDup (map tx_ptr (mTransactions (sortForHash ts))).
Proof using. cbn. intros H. by rewrite std_sort_perm. Qed.

Lemma in_key_order_grouped txs m :
  groupByAccount txs 0 ∅ = Some m ->
  NoDup (in_key_order m).*1 /\
  forall a item, In (a, item) (in_key_order m) <-> item = of_account a txs /\ item <> [].
Proof using.
  intros Hm. unfold in_key_order. split.
  - rewrite insertion_sort_perm. apply NoDup_fst_map_to_list.
  - intros a item. rewrite <- list_elem_of_In, insertion_sort_perm, elem_of_map_to_list.
    rewrite (groupByAccount_spec _ _ _ _ Hm), lookup_empty. cbn.
    destruct (of_account a txs); split.
    + done.
    + by intros [-> ?].
    + by intros [= <-].
    + by intros [-> _].
Qed.
Lemma groupByAccount_ok txs :
  (forall env, 0 <= getFullHash env) ->
  StronglySorted (fun x y => txHash x <= txHash y) txs -> is_Some (groupByAccount txs 0 ∅).
Proof using.
  intros Hh Hs. apply groupByAccount_total; [done|]. apply Forall_forall. intros x _. apply Hh.
Qed.

Lemma Forall2_lookup_In {A B} (R : A -> B -> Prop) l l' x :
  Forall2 R l l' -> In x l -> exists i y, l !! i = Some x /\ l' !! i = Some y /\ R x y.
Proof using.
  intros Hl Hx. apply list_elem_of_In, list_elem_of_lookup in Hx as [i Hi].
  destruct (Forall2_lookup_l _ _ _ _ _ Hl Hi) as (y & Hy & Hxy). by exists i, y.
Qed.

(** What [trimInvalid] computes. *)
Lemma trimInvalid_inv ts tr s ts' tr' s' :
  NoDup (map tx_ptr (mTransactions ts)) -> (forall env, 0 <= getFullHash env) ->
  trimInvalid ts tr s = Ok (ts', tr', s') ->
  let txs := mTransactions (sortForHash ts) in
  s' = s /\ mPreviousLedgerHash ts' = mPreviousLedgerHash ts /\
  exists m Ds, groupByAccount txs 0 ∅ = Some m /\
    Forall2 (account_trimmed s) (in_key_order m) Ds /\
    mTransactions ts' = List.filter (kept_in (concat Ds)) txs.
Proof using.
  intros Hnd Hh. unfold trimInvalid, checkOrTrim. cbv zeta.
  destruct (groupByAccount_ok _ Hh (sortForHash_sorted ts)) as [m Hm]. rewrite Hm.
  unfold mbind, M_bind, nested. intros H.
  change (checkAccounts _ _ (in_key_order m) (sortForHash ts, tr) s) with
    (checkAccounts (fun tx _ st => (true, trimTx tx st)) (fun item st => (true, trimAll item st))
       (in_key_order m) (sortForHash ts, tr) s) in H.
  destruct (checkAccounts _ _ _ _ s) as [[[b st'] s1]|] eqn:E; [|done].
  apply checkAccounts_trim in E as (-> & Ds & -> & HDs).
  unfold mret, M_ret in H. injection H as Hts <-.
  destruct (trimAll_transactions (concat Ds) (sortForHash ts, tr)) as [Ht Hp];
    [by apply sortForHash_NoDup|].
  rewrite Hts in Ht, Hp. split; [done|]. split; [done|]. by exists m, Ds.
Qed.

(** An account of the trimmed set is a permutation of a chain. *)
Lemma trimmed_account s txs m Ds a item :
  NoDup (map tx_ptr txs) -> groupByAccount txs 0 ∅ = Some m ->
  Forall2 (account_trimmed s) (in_key_order m) Ds ->
  item = of_account a (List.filter (kept_in (concat Ds)) txs) -> item <> [] ->
  exists K, Permutation item K /\ chain s K 0 /\ funded s K.
Proof using.
  intros Hnd Hm HDs -> Hne. rewrite of_account_filter in *.
  destruct (in_key_order_grouped _ _ Hm) as [Hkeys Hin].
  assert (Ha : In (a, of_account a txs) (in_key_order m)).
  { apply Hin. split; [done|]. intros E. by rewrite E in Hne. }
  destruct (Forall2_lookup_In _ _ _ _ HDs Ha) as (i & D & Hi & HDi & K & R & Hp & Hc & Hf & HRD & HDR).
  exists K. split; [|done].
  eapply (kept_account s txs (in_key_order m) Ds a K R D); try done.
  - intros b it Hb. by apply Hin in Hb as [-> _].
  - by exists i.
Qed.

(** What [trimInvalid] leaves of a set of distinct transactions is a set
    that [checkValid] accepts in the same ledger, provided it is not larger
    than the ledger allows: dropping the transactions that are invalid, or
    whose account cannot pay, never invalidates one that was kept. *)
Theorem trimInvalid_checkValid ts tr s ts' tr' s' :
  NoDup (map tx_ptr (mTransactions ts)) -> seqs_ok s ->
  (forall env, 0 <= getFullHash env) ->
  trimInvalid ts tr s = Ok (ts', tr', s') ->
  Z.of_nat (length (mTransactions ts')) <= maxTxSetSize (st_header s) ->
  txset_checkValid (mPreviousLedgerHash ts) ts' s' = Ok (true, s').
Proof using.
  intros Hnd Hseq Hh H Hsize.
  apply trimInvalid_inv in H as (-> & Hprev & m & Ds & Hm & HDs & Hts'); [|done..].
  unfold txset_checkValid. rewrite Hprev, Z.eqb_refl. cbn [negb].
  unfold currentHeader, mbind at 1, M_bind at 1. rewrite (proj2 (Z.ltb_ge _ _)) by done.
  unfold checkOrTrim. rewrite Hts'.
  destruct (groupByAccount_ok (List.filter (kept_in (concat Ds)) (mTransactions (sortForHash ts))) Hh)
    as [m2 Hm2]; [apply StronglySorted_filter, sortForHash_sorted|].
  rewrite Hm2. unfold mbind, M_bind, nested. rewrite checkAccounts_pass; [done|].
  apply Forall_forall. intros [a item] Hai. cbn [snd]. apply list_elem_of_In in Hai.
  apply (proj2 (in_key_order_grouped _ _ Hm2)) in Hai as [Hitem Hne].
  destruct (trimmed_account s (mTransactions (sortForHash ts)) m Ds a item)
    as (K & Hp & Hc & Hf); [by apply sortForHash_NoDup|done..|].
  by rewrite (std_sort_chain s K item).
Qed.
End WithExternals.

(** ** A witness *)
Definition sample_txset_externals : TxSetExternals := {|
  getFullHash env := Z.abs (tx_seqNum (env_tx env));
  hashTxSet prev envs := Z.of_nat (length envs) |}.
Definition with_seqNum (n : Z) (env : TransactionEnvelope) : TransactionEnvelope :=
  let tx := env_tx env in
  mkEnvelope (mkTransaction (tx_sourceAccount tx) (tx_fee tx) n (tx_timeBounds tx)
                (tx_memo tx) (tx_operations tx)) (env_signatures env).
(** The sample's account has sequence number 6: 7, 8 and 9 follow it, 11 does
    not. *)
Definition sample_txset : TxSetFrame :=
  mkTxSet false 0 77 [mkTx 1 (with_seqNum 9 sample_env); mkTx 2 (with_seqNum 7 sample_env);
                      mkTx 3 (with_seqNum 11 sample_env); mkTx 4 (with_seqNum 8 sample_env)].
Definition sample_left : TxSetFrame :=
  mkTxSet false 0 77 [mkTx 2 (with_seqNum 7 sample_env); mkTx 4 (with_seqNum 8 sample_env);
                      mkTx 1 (with_seqNum 9 sample_env)].

Lemma sample_seqs_ok : seqs_ok sample_before.
Proof.
  intros a acc. cbn [sample_before st_entries]. destruct (decide (KeyAccount 1 = KeyAccount a)) as [<-|Ha].
  - rewrite lookup_insert_eq. by intros [= <-].
  - by rewrite lookup_insert_ne, lookup_empty.
Qed.

Lemma trimInvalid_checkValid_witness :
  @trimInvalid sample_externals sample_txset_externals insertion_StdSort
    sample_txset [] sample_before =
    Ok (sample_left, [mkTx 3 (with_seqNum 11 sample_env)], sample_before) /\
  @txset_checkValid sample_externals sample_txset_externals insertion_StdSort
    77 sample_left sample_before = Ok (true, sample_before).
Proof.
  assert (H : @trimInvalid sample_externals sample_txset_externals insertion_StdSort
    sample_txset [] sample_before =
    Ok (sample_left, [mkTx 3 (with_seqNum 11 sample_env)], sample_before))
    by (vm_compute; reflexivity).
  split; [exact H|].
  eapply (@trimInvalid_checkValid sample_externals sample_txset_externals insertion_StdSort
    sample_txset []); [| | |exact H|].
  - apply (bool_decide_unpack _). by vm_compute.
  - exact sample_seqs_ok.
  - intros env. apply Z.abs_nonneg.
  - vm_compute. discriminate.
Defined.
