(* ===== verification/Surge.v ===== *)
(** Surge pricing: when a transaction set is too large, it is cut to the size
    the ledger allows, the accounts that pay least per operation first. *)

From Stdlib Require Import SpecFloat.
From stdpp Require Import sorting.
From S2P Require Import Prelude Numeric OfferMath Types Sorting OfferOrder LedgerTxn.
From S2P Require Import LedgerState TransactionUtils OfferExchange Operations.
From S2P Require Import Payments ManageOffers Transactions.
From S2P Require Import TransactionEffects TxSets ApplyOrder.

Definition rates := gmap AccountID spec_float.
Definition rate (m : rates) (tx : TransactionFramePtr) : spec_float :=
  default (S754_zero false) (m !! ptr_source tx).

(** ** The comparison orders by rate, account and sequence number *)
Definition surge_key (m : rates) (tx : TransactionFramePtr) : Z * Z * Z := fkey (rate m tx).

Lemma SurgeSorter_cases m x y :
  plain (rate m x) -> plain (rate m y) ->
  SurgeSorter m x y =
    if ptr_source x =? ptr_source y then getSeqNum x <? getSeqNum y
    else match lexcmp (surge_key m x) (surge_key m y) with
         | Eq => ptr_source x <? ptr_source y
         | Lt => false
         | Gt => true
         end.
Proof.
  intros Hx Hy.
  change (SurgeSorter m x y) with
    (if ptr_source x =? ptr_source y then getSeqNum x <? getSeqNum y
     else if SFeqb (rate m x) (rate m y) then ptr_source x <? ptr_source y
     else SFltb (rate m y) (rate m x)).
  destruct (_ =? _); [done|]. unfold SFeqb, SFltb. rewrite !SFcompare_plain by done.
  unfold surge_key.
  generalize (fkey (rate m x)) (fkey (rate m y)). intros [[a1 a2] a3] [[b1 b2] b3].
  offer_order; cbn in *; simplify_eq; try done; lia.
Qed.
Lemma same_source_rate m x y : ptr_source x = ptr_source y -> surge_key m x = surge_key m y.
Proof. unfold surge_key, rate. by intros ->. Qed.

Lemma SurgeSorter_swo m : strict_weak_order (fun x => plain (rate m x)) (SurgeSorter m).
Proof.
  split.
  - intros x y Hx Hy. rewrite !SurgeSorter_cases by done. rewrite (Z.eqb_sym (ptr_source y)).
    destruct (Z.eqb_spec (ptr_source x) (ptr_source y)); intros; zbool; [apply Z.ltb_ge; lia|].
    generalize dependent (surge_key m x). generalize (surge_key m y).
    intros [[b1 b2] b3] [[a1 a2] a3]. offer_order; cbn in *; intros; zbool; simplify_eq; try done; try lia;
      apply Z.ltb_ge; lia.
  - intros x y z Hx Hy Hz. rewrite !SurgeSorter_cases by done.
    pose proof (same_source_rate m x y) as Exy. pose proof (same_source_rate m y z) as Eyz.
    pose proof (same_source_rate m x z) as Exz.
    generalize dependent (surge_key m x). generalize dependent (surge_key m y).
    generalize dependent (surge_key m z).
    intros [[c1 c2] c3] [[b1 b2] b3] Eyz [[a1 a2] a3] Exy Exz.
    destruct (Z.eqb_spec (ptr_source x) (ptr_source y)) as [E1|E1];
      destruct (Z.eqb_spec (ptr_source y) (ptr_source z)) as [E2|E2];
      destruct (Z.eqb_spec (ptr_source x) (ptr_source z)) as [E3|E3];
      try specialize (Exy E1); try specialize (Eyz E2); try specialize (Exz E3); simplify_eq;
      try lia; offer_order; cbn in *; intros; zbool; simplify_eq; rewrite ?Z.ltb_lt; try done; try lia; auto.
Qed.

(** ** The rate of an account is the lowest of its transactions' *)
Definition lower (r1 r2 : spec_float) : spec_float := if SFltb r2 r1 then r2 else r1.
Definition lowest_rate (header : LedgerHeader) (txs : list TransactionFramePtr) (a : AccountID)
    : spec_float :=
  match map (fun tx => feeRatio tx header) (of_account a txs) with
  | [] => S754_zero false
  | r :: rs => fold_left lower rs r
  end.

Definition rated (header : LedgerHeader) (tx : TransactionFramePtr) : Prop :=
  0 <= getFee tx /\ 0 < getMinFee (env_tx (tx_frame tx)) header /\
  SFeqb (feeRatio tx header) (S754_zero false) = false.

Definition positive (r : spec_float) : Prop := plain r /\ SFeqb r (S754_zero false) = false.
Lemma rated_positive header tx : rated header tx -> positive (feeRatio tx header).
Proof. intros (? & ? & ?). split; [by apply quotient_plain|done]. Qed.

Lemma lowest_rate_snoc header txs tx a :
  lowest_rate header (txs ++ [tx]) a =
    if decide (ptr_source tx = a) then
      match of_account a txs with
      | [] => feeRatio tx header
      | _ => lower (lowest_rate header txs a) (feeRatio tx header)
      end
    else lowest_rate header txs a.
Proof.
  unfold lowest_rate. rewrite of_account_app. cbn [of_account List.filter].
  destruct (Z.eqb_spec (ptr_source tx) a), (decide (ptr_source tx = a)); try done;
    [|by rewrite app_nil_r].
  rewrite map_app. destruct (of_account a txs) as [|t l]; [done|]. cbn. by rewrite fold_left_app.
Qed.
Lemma lowest_rate_positive header txs a :
  Forall (rated header) txs -> of_account a txs <> [] -> positive (lowest_rate header txs a).
Proof.
  induction txs as [|tx txs IH] using rev_ind; [done|].
  intros [Htxs Htx]%Forall_app Hne. apply Forall_singleton, rated_positive in Htx.
  rewrite lowest_rate_snoc. rewrite of_account_app in Hne. cbn in Hne.
  destruct (decide (ptr_source tx = a)) as [<-|Hn].
  - destruct (of_account _ txs); [done|]. unfold lower. destruct (SFltb _ _); [done|]. by apply IH.
  - apply IH; [done|]. rewrite (proj2 (Z.eqb_neq _ _)), app_nil_r in Hne; done.
Qed.

Lemma addFeeRatio_lowest header txs :
  Forall (rated header) txs ->
  forall a, fold_left (addFeeRatio header) txs (∅ : rates) !! a =
    match of_account a txs with [] => None | _ => Some (lowest_rate header txs a) end.
Proof.
  induction txs as [|tx txs IH] using rev_ind; [done|].
  intros [Htxs Htx]%Forall_app a. apply Forall_singleton, rated_positive in Htx.
  rewrite fold_left_app. cbn [fold_left]. rewrite of_account_app, lowest_rate_snoc.
  cbn [of_account List.filter]. specialize (IH Htxs).
  set (m := fold_left _ txs _) in *. unfold addFeeRatio.
  pose proof (lowest_rate_positive header txs (ptr_source tx) Htxs) as Hpos.
  rewrite (IH (ptr_source tx)).
  destruct (Z.eqb_spec (ptr_source tx) a) as [<-|Hn];
    [rewrite decide_True by done|rewrite decide_False, app_nil_r by done].
  - destruct (of_account _ txs) as [|t l]; cbn [default from_option id].
    + cbn -[lookup insert feeRatio]. by rewrite lookup_insert_eq.
    + destruct Hpos as [_ ->]; [done|]. unfold lower. by destruct (SFltb _ _); rewrite lookup_insert_eq.
  - destruct (SFeqb _ _); [|destruct (SFltb _ _)]; rewrite lookup_insert_ne by done; apply IH.
Qed.
Lemma rate_lowest header txs tx :
  Forall (rated header) txs -> In tx txs ->
  rate (fold_left (addFeeRatio header) txs ∅) tx = lowest_rate header txs (ptr_source tx) /\
  plain (lowest_rate header txs (ptr_source tx)).
Proof.
  intros Hr Hin. assert (Hne : of_account (ptr_source tx) txs <> []).
  { intros E. assert (H : In tx (of_account (ptr_source tx) txs))
      by (apply filter_In; split; [done|apply Z.eqb_refl]). by rewrite E in H. }
  split; [|by apply lowest_rate_positive].
  unfold rate. rewrite addFeeRatio_lowest by done. by destruct (of_account _ _).
Qed.

(** ** The cut *)
Section WithExternals.
Context `{Ext : Externals} `{TxExt : TxSetExternals} `{Sort : StdSort}.

Lemma filter_kept_app (T1 T2 : list TransactionFramePtr) :
  NoDup (map tx_ptr (T1 ++ T2)) -> List.filter (kept_in T2) (T1 ++ T2) = T1.
Proof using.
  intros Hnd. rewrite List.filter_app. rewrite map_app in Hnd.
  apply NoDup_app in Hnd as (_ & Hdis & _).
  rewrite (forallb_filter_id (kept_in T2) T1), (filter_none (kept_in T2) T2).
  - apply app_nil_r.
  - apply kept_out.
  - apply forallb_forall. intros x Hx. unfold kept_in. apply negb_true_iff.
    destruct (existsb _ _) eqn:E; [|done]. apply existsb_exists in E as (d & Hd & Ed%Z.eqb_eq).
    destruct (Hdis (tx_ptr x)); apply list_elem_of_In; [by apply in_map|].
    rewrite <- Ed. by apply in_map.
Qed.

(** What the cut leaves is the first part of the sorted list, in the order of
    the set. *)
Lemma surgePricing_split header ts :
  NoDup (map tx_ptr (mTransactions ts)) ->
  let max := Z.to_nat (maxTxSetSize header) in
  let m := fold_left (addFeeRatio header) (mTransactions ts) ∅ in
  let sorted := std_sort (SurgeSorter m) (mTransactions ts) in
  sublist (mTransactions (surgePricing header ts)) (mTransactions ts) /\
  (Permutation (mTransactions (surgePricing header ts)) (take max sorted) \/
   mTransactions (surgePricing header ts) = mTransactions ts /\
   (length (mTransactions ts) <= max)%nat).
Proof using.
  intros Hnd max m sorted. unfold surgePricing. fold max m sorted.
  destruct (Nat.ltb_spec max (length (mTransactions ts))) as [Hlt|Hle]; [|by auto].
  change (fold_left _ _ ts) with (removeAll (drop max sorted) ts).
  destruct (removeAll_transactions (drop max sorted) ts Hnd) as [-> _].
  split; [apply sublist_filter|left].
  assert (Hp : Permutation (mTransactions ts) (take max sorted ++ drop max sorted)).
  { rewrite take_drop. symmetry. apply std_sort_perm. }
  rewrite (filter_perm _ _ _ Hp), filter_kept_app; [done|]. by rewrite <- Hp.
Qed.

(** C30. Surge pricing keeps as many transactions as the ledger allows, in
    their order.  A transaction it drops never precedes, in sequence number, a
    kept transaction of the same account; and the lowest fee per operation of
    the account of a dropped transaction is never higher than that of the
    account of a kept one. *)
Theorem surgePricing_correct header ts :
  NoDup (map tx_ptr (mTransactions ts)) -> Forall (rated header) (mTransactions ts) ->
  let txs := mTransactions ts in
  let txs' := mTransactions (surgePricing header ts) in
  sublist txs' txs /\
  length txs' = Nat.min (length txs) (Z.to_nat (maxTxSetSize header)) /\
  forall kept dropped, In kept txs' -> In dropped txs -> ~ In dropped txs' ->
    if decide (ptr_source kept = ptr_source dropped) then getSeqNum kept <= getSeqNum dropped
    else SFltb (lowest_rate header txs (ptr_source kept))
           (lowest_rate header txs (ptr_source dropped)) = false.
Proof using.
  intros Hnd Hr txs txs'. destruct (surgePricing_split header ts Hnd) as [Hsub Hsplit].
  fold txs' in Hsub, Hsplit. cbv zeta in Hsplit. fold txs in Hsub, Hsplit, Hr.
  set (m := fold_left _ txs ∅) in Hsplit. set (sorted := std_sort _ _) in Hsplit.
  assert (Hlen : length sorted = length txs) by apply std_sort_length.
  split; [done|]. destruct Hsplit as [Hp|[-> Hle]]; [|split; [lia|by intros]].
  split; [rewrite Hp, length_take; lia|]. intros kept dropped Hk Hd Hnot.
  rewrite Hp in Hnot. apply (Permutation_in _ Hp) in Hk.
  assert (Hplain : forall x, In x txs -> plain (rate m x)).
  { intros x Hx. destruct (rate_lowest header txs x Hr Hx) as [E Hpl]. unfold m. by rewrite E. }
  pose proof (std_sort_sorted _ (SurgeSorter m) txs) as Hs. fold sorted in Hs.
  rewrite <- (take_drop (Z.to_nat (maxTxSetSize header)) sorted) in Hs.
  assert (Hd' : In dropped (drop (Z.to_nat (maxTxSetSize header)) sorted)).
  { rewrite <- (std_sort_In (SurgeSorter m)) in Hd. fold sorted in Hd.
    rewrite <- (take_drop (Z.to_nat (maxTxSetSize header)) sorted) in Hd.
    apply in_app_iff in Hd as [Hd|Hd]; [by destruct Hnot|done]. }
  apply StronglySorted_app_inv in Hs as (_ & _ & Hs);
    [|eapply strict_weak_mono; [|apply (SurgeSorter_swo m)]; exact Hplain].
  specialize (Hs _ _ Hk Hd'). unfold may_follow in Hs.
  assert (Hk' : In kept txs).
  { rewrite <- (std_sort_In (SurgeSorter m)). fold sorted.
    rewrite <- (take_drop (Z.to_nat (maxTxSetSize header)) sorted). apply in_app_iff. by left. }
  rewrite SurgeSorter_cases in Hs by auto. destruct (decide _) as [E|E].
  - rewrite (proj2 (Z.eqb_eq _ _)) in Hs by done. by apply Z.ltb_ge in Hs.
  - rewrite (proj2 (Z.eqb_neq _ _)) in Hs by done. unfold SFltb.
    destruct (rate_lowest header txs kept Hr Hk') as [<- Hp1].
    destruct (rate_lowest header txs dropped Hr Hd) as [<- Hp2].
    rewrite SFcompare_plain by auto. unfold surge_key in Hs. fold m.
    revert Hs. generalize (fkey (rate m kept)) (fkey (rate m dropped)).
    intros [[a1 a2] a3] [[b1 b2] b3]. offer_order; cbn in *; intros; simplify_eq; try done; lia.
Qed.
End WithExternals.

(** ** A witness: two accounts, room for two of three transactions *)
Definition surge_env (a fee n : Z) : TransactionEnvelope :=
  mkEnvelope (mkTransaction a fee n None [] (tx_operations (env_tx sample_env))) [].
Definition surge_header : LedgerHeader := mkHeader 10 7 0 100000 0 0 5 100 10 2.
Definition surge_txset : TxSetFrame :=
  mkTxSet false 0 77 [mkTx 1 (surge_env 1 100 7); mkTx 2 (surge_env 2 300 9);
                      mkTx 3 (surge_env 2 200 8)].

Lemma surgePricing_correct_witness :
  let ts' := @surgePricing insertion_StdSort surge_header surge_txset in
  map tx_ptr (mTransactions ts') = [2; 3] /\
  SFltb (lowest_rate surge_header (mTransactions surge_txset) 2)
        (lowest_rate surge_header (mTransactions surge_txset) 1) = false.
Proof.
  intros ts'. split; [vm_compute; reflexivity|].
  pose proof (@surgePricing_correct insertion_StdSort surge_header surge_txset) as H.
  destruct H as (_ & _ & H).
  - cbn. repeat (apply NoDup_cons; split; [set_solver|]). apply NoDup_nil_2.
  - repeat (constructor; [split; [|split]; vm_compute; congruence|]). constructor.
  - apply (H (mkTx 3 (surge_env 2 200 8)) (mkTx 1 (surge_env 1 100 7))).
    + vm_compute. auto.
    + by left.
    + vm_compute. intros [Hn|[Hn|[]]]; discriminate.
Defined.
