(* ===== verification/LedgerClose.v ===== *)
(** Closing a ledger: [src/src/ledger/LedgerManagerImpl.cpp].

    The transaction set that consensus agreed on is applied to the ledger, then
    the upgrades.  The state holds no hashes, so the ones [closeLedger] stores
    in the header are left out, as are the hand-over to the bucket list and the
    database. *)

From S2P Require Import Prelude Numeric OfferMath Types Sorting OfferOrder LedgerTxn.
From S2P Require Import LedgerState TransactionUtils OfferExchange Operations Upgrades.
From S2P Require Import Payments ManageOffers Transactions TxSets.

Definition CURRENT_LEDGER_PROTOCOL_VERSION : Z := 10.

Record StellarValue {UpgradeType : Type} := mkStellarValue {
  sv_txSetHash : Hash;
  sv_closeTime : Z;
  sv_upgrades : list UpgradeType }.
Arguments StellarValue : clear implicits.
Arguments mkStellarValue {UpgradeType}.

(** [try { ... } catch (...)] around a nested transaction: the exception rolls
    it back.  An assertion that fails ends the process. *)
Definition attempt {A} (m : M A) : M (option A) := fun s =>
  match m s with
  | Ok (a, s') => Ok (Some a, s')
  | Throw (AssertFailure what) => Throw (AssertFailure what)
  | Throw _ => Ok (None, s)
  end.

Section LedgerClose.
Context `{Ext : Externals} `{TxExt : TxSetExternals} `{Sort : StdSort}.
Context {UpgradeType : Type} (xdr_from_opaque : UpgradeType -> option LedgerUpgrade).

(** ** [processFeesSeqNums]: the results the fees leave behind *)
Fixpoint processFeesSeqNums (txs : list TransactionFramePtr) : M (list TransactionResult) :=
  match txs with
  | [] => mret []
  | tx :: txs =>
      res ← processFeeSeqNum (env_tx (tx_frame tx));
      results ← processFeesSeqNums txs;
      mret (res :: results)
  end.

(** ** [applyTransactions]

    [tx->apply] commits its checks before it applies the operations, so an
    exception undoes one or the other. *)
Definition internalError (res : TransactionResult) : TransactionResult :=
  mkTxResult (feeCharged res) (txError txINTERNAL_ERROR).
Definition applyTransaction (env : TransactionEnvelope) (res : TransactionResult)
    : M TransactionResult :=
  r ← attempt (applyChecks env res);
  match r with
  | None => mret (internalError res)
  | Some (true, b, sc) =>
      r ← attempt (applyOperations (env_tx env) b sc);
      mret (match r with
            | None => internalError res
            | Some (_, b) => mkTxResult (feeCharged res) b
            end)
  | Some (false, b, _) => mret (mkTxResult (feeCharged res) b)
  end.
Fixpoint applyTransactions (txs : list (TransactionFramePtr * TransactionResult))
    : M (list TransactionResult) :=
  match txs with
  | [] => mret []
  | (tx, res) :: txs =>
      r ← applyTransaction (tx_frame tx) res;
      results ← applyTransactions txs;
      mret (r :: results)
  end.

(** ** The upgrades: one that throws is skipped *)
Fixpoint applyUpgrades (upgrades : list UpgradeType) : M unit :=
  match upgrades with
  | [] => mret tt
  | u :: upgrades =>
      match xdr_from_opaque u with
      | None => throw "Unknown upgrade step"
      | Some lupgrade => _ ← attempt (applyTo lupgrade); applyUpgrades upgrades
      end
  end.

(** [lclHash] is the hash of the last closed ledger. *)
Definition closeLedger (lclHash : Hash) (txSet : TxSetFrame) (sv : StellarValue UpgradeType)
    : M (list TransactionResult) :=
  _ ← updateHeader (fun h => set_ledgerSeq (u32 (ledgerSeq h + 1)) h);
  header ← currentHeader;
  if CURRENT_LEDGER_PROTOCOL_VERSION <? ledgerVersion header
  then throw "cannot apply ledger with not supported version"
  else
    let '(previous, txSet) := previousLedgerHash txSet in
    if negb (previous =? lclHash) then throw "txset mismatch"
    else
    let '(contentsHash, txSet) := txset_getContentsHash txSet in
    if negb (contentsHash =? sv_txSetHash sv) then throw "corrupt transaction set"
    else
      _ ← updateHeader (set_closeTime (sv_closeTime sv));
      let '(txs, _) := sortForApply txSet in
      results ← processFeesSeqNums txs;
      results ← applyTransactions (combine txs results);
      _ ← applyUpgrades (sv_upgrades sv);
      mret results.
End LedgerClose.
