(* ===== verification/Checkpoints.v ===== *)
(** Checkpoints, and which ledgers to catch up:
    [src/src/history/HistoryManagerImpl.cpp], [ledger/LedgerRange.cpp],
    [ledger/CheckpointRange.cpp], [catchup/CatchupConfiguration.cpp] and
    [CatchupWork::makeCatchupRange] of [catchup/CatchupWork.cpp].

    History is published in checkpoints of 64 ledgers, 8 when time is
    accelerated for tests; a checkpoint is called by its last ledger. *)

From S2P Require Import Prelude Numeric.

(** [LedgerNumHashPair] *)
Definition LedgerNumHashPair : Type := Z * option Z.

Record LedgerRange := mkLedgerRange { lr_first : Z; lr_last : Z }.
Definition makeLedgerRange (first last : Z) : outcome LedgerRange :=
  _ ← cassert "mFirst > 0" (0 <? first);
  _ ← cassert "mLast >= mFirst" (first <=? last);
  Ok (mkLedgerRange first last).

Definition GENESIS_LEDGER_SEQ : Z := 1.

(** * CatchupConfiguration *)
Definition CURRENT : Z := 0.
Record CatchupConfiguration := mkCatchupConfiguration {
  cc_count : Z;
  cc_ledgerHashPair : LedgerNumHashPair }.
Definition cc_toLedger (c : CatchupConfiguration) : Z := (cc_ledgerHashPair c).1.
Definition cc_hash (c : CatchupConfiguration) : option Z := (cc_ledgerHashPair c).2.
Definition cc_resolve (c : CatchupConfiguration) (remoteCheckpoint : Z) : CatchupConfiguration :=
  if cc_toLedger c =? CURRENT then mkCatchupConfiguration (cc_count c) (remoteCheckpoint, None)
  else mkCatchupConfiguration (cc_count c) (cc_toLedger c, cc_hash c).

(** [std::stoul], base 10: white space, a sign, digits; the value and how many
    characters it has read.  A negative number wraps. *)
Definition is_space (c : Z) : bool := (c =? 32) || ((9 <=? c) && (c <=? 13)).
Fixpoint scanDigits (l : list Z) (acc : Z) (pos : nat) : Z * nat :=
  match l with
  | c :: l' => if (48 <=? c) && (c <=? 57) then scanDigits l' (10 * acc + (c - 48)) (S pos) else (acc, pos)
  | [] => (acc, pos)
  end.
Fixpoint skipSpace (l : list Z) (pos : nat) : list Z * nat :=
  match l with
  | c :: l' => if is_space c then skipSpace l' (S pos) else (l, pos)
  | [] => (l, pos)
  end.
Definition stoul (str : string) : outcome (Z * nat) :=
  let codes := (fun a => Z.of_N (Ascii.N_of_ascii a)) <$> String.list_ascii_of_string str in
  let '(l, pos) := skipSpace codes 0 in
  let '(negative, l, pos) :=
    match l with
    | 43 :: l => (false, l, S pos)
    | 45 :: l => (true, l, S pos)
    | _ => (false, l, pos)
    end in
  let '(value, pos') := scanDigits l 0 pos in
  if Nat.eqb pos' pos then Throw (RuntimeError "stoul: invalid argument")
  else if UINT64_MAX <? value then Throw (RuntimeError "stoul: out of range")
  else Ok (if negative : bool then u64 (- value) else value, pos').

(** The result is an [unsigned long], what is returned a [uint32_t]. *)
Definition parseLedger (str : string) : outcome Z :=
  if String.eqb str "current" then Ok CURRENT
  else
    '(result, pos) ← stoul str;
    if Nat.ltb pos (String.length str) || (result <? 2)
    then Throw (RuntimeError (str +:+ " is not a valid ledger number"))
    else Ok (u32 result).
Definition parseLedgerCount (str : string) : outcome Z :=
  if String.eqb str "max" then Ok UINT32_MAX
  else
    '(result, pos) ← stoul str;
    if Nat.ltb pos (String.length str)
    then Throw (RuntimeError (str +:+ " is not a valid ledger count"))
    else Ok (u32 result).
(** Numbers from 2^32 on are cut to 32 bits: this one is [CURRENT]. *)
Example parseLedger_cut :
  parseLedger "2" = Ok 2 /\ parseLedger "1" = Throw (RuntimeError "1 is not a valid ledger number") /\
  parseLedger "70x" = Throw (RuntimeError "70x is not a valid ledger number") /\
  parseLedger "4294967296" = Ok CURRENT /\ parseLedger "-1" = Ok UINT32_MAX.
Proof. by vm_compute. Qed.

(** * Checkpoints *)
Definition getCheckpointFrequency (accelerated : bool) : Z := if accelerated then 8 else 64.

Section Checkpoints.
(** [ARTIFICIALLY_ACCELERATE_TIME_FOR_TESTING] *)
Context (accelerated : bool).
#[local] Abbreviation freq := (getCheckpointFrequency accelerated).

Definition nextCheckpointLedger (ledger : Z) : Z :=
  if ledger =? 0 then freq
  else u32 (u32 (u32 (ledger + freq) - 1) / freq * freq).
Definition prevCheckpointLedger (ledger : Z) : Z := u32 (ledger / freq * freq).
Definition checkpointContainingLedger (ledger : Z) : Z :=
  u32 (nextCheckpointLedger (u32 (ledger + 1)) - 1).

Record CheckpointRange := mkCheckpointRange { cr_first : Z; cr_last : Z; cr_frequency : Z }.
Definition makeCheckpointRange (first last frequency : Z) : outcome CheckpointRange :=
  _ ← cassert "mFirst > 0" (0 <? first);
  _ ← cassert "mLast >= mFirst" (first <=? last);
  _ ← cassert "(mFirst + 1) % mFrequency == 0" (u32 (first + 1) mod frequency =? 0);
  _ ← cassert "(mLast + 1) % mFrequency == 0" (u32 (last + 1) mod frequency =? 0);
  Ok (mkCheckpointRange first last frequency).
Definition checkpointRangeOf (r : LedgerRange) : outcome CheckpointRange :=
  makeCheckpointRange (checkpointContainingLedger (lr_first r)) (checkpointContainingLedger (lr_last r)) freq.
Definition cr_count (r : CheckpointRange) : Z :=
  u32 (u32 (cr_last r - cr_first r) / cr_frequency r + 1).

(** * What to catch up *)
Definition firstNotFinishedCheckpoint (lastClosedLedger : Z) : Z :=
  let result := checkpointContainingLedger lastClosedLedger in
  if lastClosedLedger <? result then result else u32 (result + freq).
Definition firstNeededLedger (c : CatchupConfiguration) : Z :=
  let neededCount := Z.max (cc_count c) 1 in
  if neededCount <? cc_toLedger c then u32 (u32 (cc_toLedger c - neededCount) + 1)
  else GENESIS_LEDGER_SEQ.
(** Whether to apply buckets, and the first ledger. *)
Definition computeCatchupStart (smallestLedgerToApply smallestBucketApplyCheckpoint : Z) : bool * Z :=
  let smallestCheckpointToApply := checkpointContainingLedger smallestLedgerToApply in
  if smallestLedgerToApply =? smallestCheckpointToApply then (true, smallestCheckpointToApply)
  else if smallestLedgerToApply <? u32 (freq - 1) then (false, smallestLedgerToApply)
  else
    let smallestCheckpointToApply := u32 (smallestCheckpointToApply - freq) in
    if smallestBucketApplyCheckpoint <=? smallestCheckpointToApply then (true, smallestCheckpointToApply)
    else (false, smallestLedgerToApply).
Definition makeCatchupRange (lastClosedLedger : Z) (c : CatchupConfiguration) : outcome (LedgerRange * bool) :=
  _ ← cassert "lastClosedLedger > 0" (0 <? lastClosedLedger);
  _ ← cassert "configuration.toLedger() >= lastClosedLedger" (lastClosedLedger <=? cc_toLedger c);
  _ ← cassert "configuration.toLedger() != CatchupConfiguration::CURRENT" (negb (cc_toLedger c =? CURRENT));
  let smallestLedgerToApply := Z.max (firstNeededLedger c) lastClosedLedger in
  let smallestBucketApplyCheckpoint := firstNotFinishedCheckpoint lastClosedLedger in
  let catchupStart := computeCatchupStart smallestLedgerToApply smallestBucketApplyCheckpoint in
  range ← makeLedgerRange catchupStart.2 (cc_toLedger c);
  if catchupStart.1 && (catchupStart.2 <=? u32 (lastClosedLedger + 1)) then Ok (range, false)
  else Ok (range, catchupStart.1).

(** * Properties *)

(** The checkpoint that contains a ledger, in exact numbers. *)
Lemma freq_cases : freq = 8 \/ freq = 64.
Proof using. unfold getCheckpointFrequency. destruct accelerated; auto. Qed.
Definition in_reach (l : Z) : Prop := 0 <= l /\ l + 1 + freq < 4294967296.
Lemma u32_exact z : 0 <= z < 4294967296 -> u32 z = z.
Proof using. intros. unfold u32. by apply Z.mod_small. Qed.
Lemma nextCheckpointLedger_exact l :
  0 < l -> l + freq < 4294967296 -> nextCheckpointLedger l = (l + freq - 1) / freq * freq.
Proof using.
  intros Hl Hb. pose proof freq_cases as Hf. unfold nextCheckpointLedger.
  rewrite (proj2 (Z.eqb_neq _ _)) by lia. rewrite (u32_exact (l + freq)) by lia.
  rewrite (u32_exact (l + freq - 1)) by lia. apply u32_exact.
  pose proof (Z.div_mod (l + freq - 1) freq ltac:(lia)). pose proof (Z.mod_pos_bound (l + freq - 1) freq ltac:(lia)).
  split; [|lia]. apply Z.mul_nonneg_nonneg; [apply Z.div_pos|]; lia.
Qed.
(** It is the last of the [freq] ledgers among which the ledger is. *)
Lemma checkpointContainingLedger_spec l :
  in_reach l ->
  let c := checkpointContainingLedger l in
  l <= c < l + freq /\ (c + 1) mod freq = 0 /\ u32 (c + 1) = c + 1.
Proof using.
  intros [Hl Hb]. pose proof freq_cases as Hf. unfold checkpointContainingLedger. cbv zeta.
  rewrite (u32_exact (l + 1)) by lia. rewrite nextCheckpointLedger_exact by lia.
  replace (l + 1 + freq - 1) with (l + freq) by lia.
  set (q := (l + freq) / freq). pose proof (Z.div_mod (l + freq) freq ltac:(lia)) as E1. fold q in E1.
  pose proof (Z.mod_pos_bound (l + freq) freq ltac:(lia)) as E2.
  rewrite (u32_exact (q * freq - 1)) by nia. replace (q * freq - 1 + 1) with (q * freq) by lia.
  split; [nia|]. split; [apply Z.mod_mul; lia|]. apply u32_exact. nia.
Qed.
Lemma checkpoint_unique a b l :
  (a + 1) mod freq = 0 -> (b + 1) mod freq = 0 -> l <= a < l + freq -> l <= b < l + freq -> a = b.
Proof using.
  intros Ha Hb. pose proof freq_cases as Hf. apply Z.mod_divide in Ha as [p Hp]; [|lia]. apply Z.mod_divide in Hb as [q Hq]; [|lia].
  intros. assert (p = q) by nia. nia.
Qed.
Lemma checkpointContainingLedger_mono l l' :
  in_reach l -> in_reach l' -> l <= l' -> checkpointContainingLedger l <= checkpointContainingLedger l'.
Proof using.
  intros H H' Hle. destruct (checkpointContainingLedger_spec l H) as ([? ?] & Hm & _).
  destruct (checkpointContainingLedger_spec l' H') as ([? ?] & Hm' & _). pose proof freq_cases as Hf.
  apply Z.mod_divide in Hm as [p Hp]; [|lia]. apply Z.mod_divide in Hm' as [q Hq]; [|lia]. nia.
Qed.

Lemma checkpointContainingLedger_self l :
  in_reach l -> (l + 1) mod freq = 0 -> checkpointContainingLedger l = l.
Proof using.
  intros H Hm. pose proof freq_cases. destruct (checkpointContainingLedger_spec l H) as (? & Hm' & _).
  apply (checkpoint_unique _ _ l); [done..|lia].
Qed.
Lemma firstNotFinishedCheckpoint_spec l :
  0 <= l -> in_reach (l + 1) -> firstNotFinishedCheckpoint l = checkpointContainingLedger (l + 1).
Proof using.
  intros Hl H. pose proof freq_cases as Hf. assert (Hl' : in_reach l) by (unfold in_reach in *; lia).
  destruct (checkpointContainingLedger_spec l Hl') as ([H1 H2] & Hm & _). unfold firstNotFinishedCheckpoint.
  destruct (checkpointContainingLedger_spec (l + 1) H) as ([H3 H4] & Hm' & _).
  destruct (Z.ltb_spec l (checkpointContainingLedger l)).
  - apply (checkpoint_unique _ _ (l + 1)); [done|done|lia..].
  - rewrite u32_exact by (unfold in_reach in *; lia). apply (checkpoint_unique _ _ (l + 1)); [|done|lia..].
    replace (checkpointContainingLedger l + freq + 1) with (checkpointContainingLedger l + 1 + 1 * freq) by lia.
    rewrite Z.mod_add; [done|lia].
Qed.
(** Two checkpoints that are less than a frequency apart. *)
Lemma checkpoint_le a b : (a + 1) mod freq = 0 -> (b + 1) mod freq = 0 -> a < b + freq -> a <= b.
Proof using.
  intros Ha Hb. pose proof freq_cases as Hf. apply Z.mod_divide in Ha as [p Hp]; [|lia]. apply Z.mod_divide in Hb as [q Hq]; [|lia].
  intros. nia.
Qed.
(** Where catch-up starts: the ledger asked for, or a checkpoint before it. *)
Lemma computeCatchupStart_spec l lcl :
  0 < lcl <= l -> in_reach (l + 1) ->
  let '(b, first) := computeCatchupStart l (checkpointContainingLedger (lcl + 1)) in
  0 < first <= l /\ l < first + freq /\
  (b = true -> (first + 1) mod freq = 0) /\
  (b = false -> first = l /\ checkpointContainingLedger l <= checkpointContainingLedger (lcl + 1)).
Proof using.
  intros Hl H. pose proof freq_cases as Hf. assert (Hl' : in_reach l) by (unfold in_reach in *; lia).
  destruct (checkpointContainingLedger_spec l Hl') as ([H1 H2] & Hm & _).
  destruct (checkpointContainingLedger_spec (lcl + 1)) as ([H3 H4] & Hm' & _); [unfold in_reach in *; lia|].
  unfold computeCatchupStart. destruct (Z.eqb_spec l (checkpointContainingLedger l)) as [E|E].
  { rewrite <- E in *. split; [lia|]. split; [lia|]. split; [done|by intros [=]]. }
  rewrite u32_exact by lia. destruct (Z.ltb_spec l (freq - 1)).
  { split; [lia|]. split; [lia|]. split; [by intros [=]|]. intros _. split; [done|]. apply checkpoint_le; [done..|].
    assert (0 <= checkpointContainingLedger (lcl + 1)) by lia. assert (checkpointContainingLedger l = freq - 1) as ->; [|lia].
    apply (checkpoint_unique _ _ l); [done| |lia..]. replace (freq - 1 + 1) with (1 * freq) by lia. apply Z.mod_mul. lia. }
  assert (Hlow : (checkpointContainingLedger l - freq + 1) mod freq = 0).
  { replace (checkpointContainingLedger l - freq + 1) with (checkpointContainingLedger l + 1 + -1 * freq) by lia.
    rewrite Z.mod_add; [done|lia]. }
  assert (freq - 1 <= checkpointContainingLedger l - freq).
  { apply checkpoint_le; [|done|lia]. replace (freq - 1 + 1) with (1 * freq) by lia. apply Z.mod_mul. lia. }
  rewrite u32_exact by (unfold in_reach in *; lia).
  destruct (Z.leb_spec (checkpointContainingLedger (lcl + 1)) (checkpointContainingLedger l - freq)).
  - split; [lia|]. split; [lia|]. split; [done|by intros [=]].
  - split; [lia|]. split; [lia|]. split; [by intros [=]|]. intros _. split; [done|]. apply checkpoint_le; [done..|lia].
Qed.
Lemma checkpointRangeOf_ok r :
  0 < lr_first r <= lr_last r -> in_reach (lr_last r) -> exists cr, checkpointRangeOf r = Ok cr.
Proof using.
  intros Hr H. pose proof freq_cases as Hf. assert (Hl' : in_reach (lr_first r)) by (unfold in_reach in *; lia).
  destruct (checkpointContainingLedger_spec _ Hl') as (? & Hm & E). destruct (checkpointContainingLedger_spec _ H) as (? & Hm' & E').
  pose proof (checkpointContainingLedger_mono _ _ Hl' H ltac:(lia)).
  unfold checkpointRangeOf, makeCheckpointRange. rewrite E, E', Hm, Hm'.
  rewrite (proj2 (Z.ltb_lt _ _)), (proj2 (Z.leb_le _ _)) by lia. by eexists.
Qed.

(** What to catch up.  For a last closed ledger that is not after the ledger to
    catch up to, the range is never empty and passes the assertions of
    [LedgerRange] and [CheckpointRange].  It ends at that ledger.  It begins early
    enough for as many ledgers as asked for, or at the last closed ledger if that
    is later, and at most one checkpoint's length earlier than needed.  Buckets are
    applied only at a checkpoint that is more than one ledger past the last closed
    one; otherwise the checkpoint with the first ledger is not after that with the
    ledger that follows the last closed one, so no ledger is missing. *)
Theorem makeCatchupRange_correct lcl c :
  0 < lcl <= cc_toLedger c -> in_reach (cc_toLedger c + 1) -> 0 <= cc_count c <= UINT32_MAX ->
  exists r b, makeCatchupRange lcl c = Ok (r, b) /\
    lr_last r = cc_toLedger c /\ 0 < lr_first r <= lr_last r /\
    (exists cr, checkpointRangeOf r = Ok cr) /\
    lr_first r <= Z.max (cc_toLedger c - Z.max (cc_count c) 1 + 1) lcl /\
    lr_last r - lr_first r + 1 <= Z.max (cc_count c) 1 + freq /\
    (b = true -> (lr_first r + 1) mod freq = 0 /\ lcl + 1 < lr_first r) /\
    (b = false -> checkpointContainingLedger (lr_first r) <= checkpointContainingLedger (lcl + 1)).
Proof using.
  intros Hl H Hc. pose proof freq_cases as Hf. unfold makeCatchupRange.
  rewrite (proj2 (Z.ltb_lt 0 lcl)), (proj2 (Z.leb_le lcl _)) by lia. unfold CURRENT.
  rewrite (proj2 (Z.eqb_neq (cc_toLedger c) 0)) by lia. cbn [negb cassert mbind outcome_bind].
  rewrite firstNotFinishedCheckpoint_spec by (unfold in_reach in *; lia).
  assert (Hneed : firstNeededLedger c = Z.max 1 (cc_toLedger c - Z.max (cc_count c) 1 + 1)).
  { unfold firstNeededLedger, GENESIS_LEDGER_SEQ, in_reach in *.
    destruct (Z.ltb_spec (Z.max (cc_count c) 1) (cc_toLedger c)); [|lia].
    rewrite (u32_exact (cc_toLedger c - _)) by lia. rewrite u32_exact by lia. lia. }
  rewrite Hneed. set (l := Z.max (Z.max 1 _) lcl). assert (Hll : lcl <= l <= cc_toLedger c) by (unfold l; lia).
  pose proof (computeCatchupStart_spec l lcl ltac:(lia) ltac:(unfold in_reach in *; lia)) as Hs.
  destruct (computeCatchupStart l _) as [b first]. destruct Hs as (Hfirst & Hlow & Ht & Hnt). cbn [fst snd].
  unfold makeLedgerRange. rewrite (proj2 (Z.ltb_lt 0 first)), (proj2 (Z.leb_le first (cc_toLedger c))) by lia.
  cbn [cassert mbind outcome_bind]. rewrite (u32_exact (lcl + 1)) by (unfold in_reach in *; lia).
  set (r := mkLedgerRange first (cc_toLedger c)).
  assert (Hcr : exists cr, checkpointRangeOf r = Ok cr) by (apply checkpointRangeOf_ok; cbn; unfold in_reach in *; lia).
  assert (Hfirst' : first <= Z.max (cc_toLedger c - Z.max (cc_count c) 1 + 1) lcl) by (unfold l in Hfirst; lia).
  assert (Hlen : cc_toLedger c - first + 1 <= Z.max (cc_count c) 1 + freq) by (unfold l in *; lia).
  destruct b; cbn [andb].
  - specialize (Ht eq_refl).
    destruct (Z.leb_spec first (lcl + 1)); exists r; eexists; (split; [reflexivity|]);
      (split; [done|split; [cbn; lia|split; [exact Hcr|split; [exact Hfirst'|split; [exact Hlen|]]]]]);
      split; intros Hb; try discriminate Hb; [|cbn; split; [done|lia]].
    cbn. rewrite checkpointContainingLedger_self by (done || unfold in_reach in *; lia).
    destruct (checkpointContainingLedger_spec (lcl + 1)) as ([? ?] & _); [unfold in_reach in *; lia|lia].
  - destruct (Hnt eq_refl) as [-> Hle]. exists r, false. split; [reflexivity|].
    split; [done|split; [cbn; lia|split; [exact Hcr|split; [exact Hfirst'|split; [exact Hlen|]]]]].
    by split; [intros [=]|].
Qed.
End Checkpoints.

Example makeCatchupRange_sample :
  exists r, makeCatchupRange false 70 (mkCatchupConfiguration 100 (1000, None)) = Ok (r, true) /\
    lr_first r = 895 /\ (lr_first r + 1) mod 64 = 0 /\ 70 + 1 < lr_first r.
Proof.
  destruct (makeCatchupRange_correct false 70 (mkCatchupConfiguration 100 (1000, None))) as (r & b & E & _ & _ & _ & _ & _ & Hb & _).
  - cbn. lia.
  - cbn. unfold in_reach. cbn. lia.
  - cbn. unfold_ints. lia.
  - exists r. assert (b = true) as -> by (vm_compute in E; congruence). split; [exact E|].
    split; [vm_compute in E; injection E as <-; done|]. by apply Hb.
Qed.
