(* ===== verification/LedgerManager.v ===== *)
(** The ledger manager: [src/src/ledger/LedgerManagerImpl.cpp] and
    [SyncingLedgerChain.cpp].

    It closes the ledgers that consensus agrees on.  When it hears of one that is
    not the next, it buffers what follows, waits for a checkpoint to be published,
    catches up from history to the ledger before the first buffered one, closes
    the buffered ones, and waits for one that is the next.

    What closing a ledger does is [LedgerClose]'s; the manager is stated against
    the interface [LedgerCloser].  The work that catches up ([CatchupWork]) and
    the task queue of the main thread are the environment: the work is there from
    [catchupHistory] to [historyCaughtup], and a task that applies buffered ledgers
    is counted while it waits.  The catch-up manager's only state is that work. *)

From S2P Require Import Prelude Numeric OfferMath Types Sorting OfferOrder LedgerTxn LedgerState TransactionUtils.
From S2P Require Import OfferExchange Operations Payments ManageOffers Transactions TxSets LedgerClose Checkpoints.

(** * Headers with their hashes *)
Definition UpgradeType : Type := list Z.

(** A whole [LedgerHeader]: the fields of [Types], and the rest. *)
Record ChainHeader := mkChainHeader {
  ch_ledger : LedgerHeader;
  ch_previousLedgerHash : Hash;
  ch_txSetHash : Hash;
  ch_upgrades : list UpgradeType;
  ch_txSetResultHash : Hash;
  ch_bucketListHash : Hash;
  ch_skipList : list Hash }.
Definition ch_ledgerSeq (h : ChainHeader) : Z := ledgerSeq (ch_ledger h).
Definition ch_ledgerVersion (h : ChainHeader) : Z := ledgerVersion (ch_ledger h).
Record LedgerHeaderHistoryEntry := mkHistoryEntry {
  hhe_hash : Hash;
  hhe_header : ChainHeader }.
Definition hhe_seq (e : LedgerHeaderHistoryEntry) : Z := ch_ledgerSeq (hhe_header e).

#[export] Instance ChainHeader_eq_dec : EqDecision ChainHeader.
Proof. solve_decision. Defined.

(** * What to close *)
Record LedgerCloseData := mkLedgerCloseData {
  lcd_ledgerSeq : Z;
  lcd_txSet : TxSetFrame;
  lcd_value : StellarValue UpgradeType }.
Definition lcd_previousLedgerHash (d : LedgerCloseData) : Hash := (previousLedgerHash (lcd_txSet d)).1.

(** What the manager asks of closing a ledger: the node's state and the header
    that follow.  [in_step]: the state is that after the ledger of a header;
    [storeHeader] writes a header over the one of the state.  The hash of a
    header is [sha256(xdr::xdr_to_opaque(header))]. *)
Class LedgerCloser := {
  Node : Type;
  header_hash : ChainHeader -> Hash;
  in_step : Node -> ChainHeader -> Prop;
  storeHeader : ChainHeader -> Node -> Node;
  closesTo : Node -> LedgerHeaderHistoryEntry -> LedgerCloseData -> outcome (Node * ChainHeader) }.
(** It is the next ledger, on top of the last closed one, with a set of
    transactions made for that. *)
Class LedgerCloserLaws `{LedgerCloser} : Prop := {
  closes_next : forall n lcl d n' h, in_step n (hhe_header lcl) -> closesTo n lcl d = Ok (n', h) ->
    ch_ledgerSeq h = u32 (hhe_seq lcl + 1) /\ ch_previousLedgerHash h = hhe_hash lcl /\
    lcd_previousLedgerHash d = hhe_hash lcl /\ in_step n' h;
  stores_header : forall n h, in_step (storeHeader h n) h }.

(** * SyncingLedgerChain *)
Inductive SyncingLedgerChainAddResult := CONTIGUOUS | CHAIN_TOO_OLD | CHAIN_TOO_NEW.
Definition chain_front (c : list LedgerCloseData) : option LedgerCloseData := head c.
Definition chain_back (c : list LedgerCloseData) : option LedgerCloseData := last c.
Definition chain_push (c : list LedgerCloseData) (d : LedgerCloseData)
    : list LedgerCloseData * SyncingLedgerChainAddResult :=
  match chain_back c with
  | None => (c ++ [d], CONTIGUOUS)
  | Some back =>
      if u32 (lcd_ledgerSeq back + 1) =? lcd_ledgerSeq d then (c ++ [d], CONTIGUOUS)
      else if lcd_ledgerSeq d <=? lcd_ledgerSeq back then (c, CHAIN_TOO_OLD)
      else (c, CHAIN_TOO_NEW)
  end.

(** * LedgerManagerImpl *)
Inductive State := LM_BOOTING_STATE | LM_SYNCED_STATE | LM_CATCHING_UP_STATE.
Inductive CatchupState :=
  NONE | WAITING_FOR_TRIGGER_LEDGER | APPLYING_HISTORY | APPLYING_BUFFERED_LEDGERS | WAITING_FOR_CLOSING_LEDGER.
Inductive ProgressState := APPLIED_BUCKETS | APPLIED_TRANSACTIONS | FINISHED.
Inductive CloseLedgerIfResult := CLOSED | TOO_OLD | TOO_NEW.
#[export] Instance State_eq_dec : EqDecision State.
Proof. solve_decision. Defined.
#[export] Instance CatchupState_eq_dec : EqDecision CatchupState.
Proof. solve_decision. Defined.

Section Manager.
Context `{Closer : LedgerCloser}.
(** The configuration: [ARTIFICIALLY_ACCELERATE_TIME_FOR_TESTING],
    [CATCHUP_COMPLETE] and [CATCHUP_RECENT]. *)
Context (accelerated CATCHUP_COMPLETE : bool) (CATCHUP_RECENT : Z).

Record LedgerManager := mkLedgerManager {
  mState : State;
  mCatchupState : CatchupState;
  mSyncingLedgers : list LedgerCloseData;
  mCatchupTriggerLedger : Z;
  mLastClosedLedger : LedgerHeaderHistoryEntry;
  lm_node : Node;
  lm_catchupWork : option CatchupConfiguration;   (* [CatchupManagerImpl::mCatchupWork] *)
  lm_posted : nat }.

Definition set_mState (s : State) (m : LedgerManager) : LedgerManager :=
  mkLedgerManager s (mCatchupState m) (mSyncingLedgers m) (mCatchupTriggerLedger m) (mLastClosedLedger m)
    (lm_node m) (lm_catchupWork m) (lm_posted m).
Definition set_mCatchupState (c : CatchupState) (m : LedgerManager) : LedgerManager :=
  mkLedgerManager (mState m) c (mSyncingLedgers m) (mCatchupTriggerLedger m) (mLastClosedLedger m)
    (lm_node m) (lm_catchupWork m) (lm_posted m).
Definition set_mSyncingLedgers (l : list LedgerCloseData) (m : LedgerManager) : LedgerManager :=
  mkLedgerManager (mState m) (mCatchupState m) l (mCatchupTriggerLedger m) (mLastClosedLedger m)
    (lm_node m) (lm_catchupWork m) (lm_posted m).
Definition set_mCatchupTriggerLedger (n : Z) (m : LedgerManager) : LedgerManager :=
  mkLedgerManager (mState m) (mCatchupState m) (mSyncingLedgers m) n (mLastClosedLedger m)
    (lm_node m) (lm_catchupWork m) (lm_posted m).
Definition set_mLastClosedLedger (e : LedgerHeaderHistoryEntry) (m : LedgerManager) : LedgerManager :=
  mkLedgerManager (mState m) (mCatchupState m) (mSyncingLedgers m) (mCatchupTriggerLedger m) e
    (lm_node m) (lm_catchupWork m) (lm_posted m).
Definition set_lm_node (n : Node) (m : LedgerManager) : LedgerManager :=
  mkLedgerManager (mState m) (mCatchupState m) (mSyncingLedgers m) (mCatchupTriggerLedger m) (mLastClosedLedger m)
    n (lm_catchupWork m) (lm_posted m).
Definition set_lm_catchupWork (w : option CatchupConfiguration) (m : LedgerManager) : LedgerManager :=
  mkLedgerManager (mState m) (mCatchupState m) (mSyncingLedgers m) (mCatchupTriggerLedger m) (mLastClosedLedger m)
    (lm_node m) w (lm_posted m).
Definition set_lm_posted (n : nat) (m : LedgerManager) : LedgerManager :=
  mkLedgerManager (mState m) (mCatchupState m) (mSyncingLedgers m) (mCatchupTriggerLedger m) (mLastClosedLedger m)
    (lm_node m) (lm_catchupWork m) n.

Definition getLastClosedLedgerNum (m : LedgerManager) : Z := hhe_seq (mLastClosedLedger m).
Definition setState (s : State) (m : LedgerManager) : LedgerManager :=
  if decide (s = mState m) then m
  else
    let m := set_mState s m in
    if decide (s = LM_CATCHING_UP_STATE) then m else set_mCatchupState NONE m.
Definition setCatchupState (c : CatchupState) (m : LedgerManager) : LedgerManager :=
  setState LM_CATCHING_UP_STATE (set_mCatchupState c m).
Definition bootstrap (m : LedgerManager) : LedgerManager := setState LM_SYNCED_STATE m.

Definition getCatchupCount : Z := if CATCHUP_COMPLETE then UINT32_MAX else CATCHUP_RECENT.

(** [closeLedger] ends with [advanceLedgerPointers]. *)
Definition advanceLedgerPointers (h : ChainHeader) (m : LedgerManager) : LedgerManager :=
  set_mLastClosedLedger (mkHistoryEntry (header_hash h) h) m.
Definition lm_closeLedger (d : LedgerCloseData) (m : LedgerManager) : outcome LedgerManager :=
  '(n, h) ← closesTo (lm_node m) (mLastClosedLedger m) d;
  Ok (advanceLedgerPointers h (set_lm_node n m)).

Definition closeLedgerIf (d : LedgerCloseData) (m : LedgerManager)
    : outcome (CloseLedgerIfResult * LedgerManager) :=
  if u32 (getLastClosedLedgerNum m + 1) =? lcd_ledgerSeq d then
    if hhe_hash (mLastClosedLedger m) =? lcd_previousLedgerHash d then
      m ← lm_closeLedger d m; Ok (CLOSED, m)
    else Throw (RuntimeError "Network consensus inconsistency")
  else if lcd_ledgerSeq d <=? getLastClosedLedgerNum m then Ok (TOO_OLD, m)
  else Ok (TOO_NEW, m).

(** [CatchupManagerImpl::catchupHistory] *)
Definition catchupHistory (c : CatchupConfiguration) (m : LedgerManager) : outcome LedgerManager :=
  match lm_catchupWork m with
  | Some _ => Throw (RuntimeError "Catchup already in progress")
  | None => Ok (set_lm_catchupWork (Some c) m)
  end.
Definition chain_empty {A} (l : list A) : bool := match l with [] => true | _ => false end.
Definition startCatchup (c : CatchupConfiguration) (manualCatchup : bool) (m : LedgerManager)
    : outcome LedgerManager :=
  if negb (cc_toLedger c =? CURRENT) && (cc_toLedger c <=? getLastClosedLedgerNum m)
  then Throw (RuntimeError "Target ledger is not newer than LCL")
  else
    let m := setCatchupState APPLYING_HISTORY m in
    _ ← cassert "manualCatchup == mSyncingLedgers.empty()" (Bool.eqb manualCatchup (chain_empty (mSyncingLedgers m)));
    catchupHistory c m.

Definition addToSyncingLedgers (d : LedgerCloseData) (m : LedgerManager) : LedgerManager :=
  set_mSyncingLedgers (chain_push (mSyncingLedgers m) d).1 m.
Definition startCatchupIf (lastReceivedLedgerSeq : Z) (m : LedgerManager) : outcome LedgerManager :=
  match chain_front (mSyncingLedgers m) with
  | None => Throw (AssertFailure "!mSyncingLedgers.empty()")
  | Some first =>
      _ ← cassert "mCatchupState != CatchupState::NONE" (negb (bool_decide (mCatchupState m = NONE)));
      if negb (bool_decide (mCatchupState m = WAITING_FOR_TRIGGER_LEDGER)) then Ok m
      else if mCatchupTriggerLedger m <=? lastReceivedLedgerSeq then
        let m := setCatchupState APPLYING_HISTORY m in
        startCatchup
          (mkCatchupConfiguration getCatchupCount
             (u32 (lcd_ledgerSeq first - 1), Some (lcd_previousLedgerHash first))) false m
      else Ok m
  end.
Definition initializeCatchup (d : LedgerCloseData) (m : LedgerManager) : outcome LedgerManager :=
  _ ← cassert "mState != LM_CATCHING_UP_STATE" (negb (bool_decide (mState m = LM_CATCHING_UP_STATE)));
  _ ← cassert "mCatchupState == CatchupState::NONE" (bool_decide (mCatchupState m = NONE));
  _ ← cassert "mSyncingLedgers.empty()" (chain_empty (mSyncingLedgers m));
  let m := setState LM_CATCHING_UP_STATE m in
  let m := set_mCatchupTriggerLedger (u32 (nextCheckpointLedger accelerated (lcd_ledgerSeq d) + 1)) m in
  let m := setCatchupState WAITING_FOR_TRIGGER_LEDGER m in
  startCatchupIf (lcd_ledgerSeq d) (addToSyncingLedgers d m).
Definition continueCatchup (d : LedgerCloseData) (m : LedgerManager) : outcome LedgerManager :=
  _ ← cassert "mState == LM_CATCHING_UP_STATE" (bool_decide (mState m = LM_CATCHING_UP_STATE));
  startCatchupIf (lcd_ledgerSeq d) (addToSyncingLedgers d m).
Definition finalizeCatchup (d : LedgerCloseData) (m : LedgerManager) : outcome LedgerManager :=
  _ ← cassert "mState == LM_CATCHING_UP_STATE" (bool_decide (mState m = LM_CATCHING_UP_STATE));
  _ ← cassert "mCatchupState == CatchupState::WAITING_FOR_CLOSING_LEDGER"
        (bool_decide (mCatchupState m = WAITING_FOR_CLOSING_LEDGER));
  _ ← cassert "mSyncingLedgers.empty()" (chain_empty (mSyncingLedgers m));
  '(r, m) ← closeLedgerIf d m;
  match r with
  | CLOSED => Ok (setState LM_SYNCED_STATE m)
  | TOO_OLD => Ok m
  | TOO_NEW => initializeCatchup d (setState LM_BOOTING_STATE m)
  end.
Definition valueExternalized (d : LedgerCloseData) (m : LedgerManager) : outcome LedgerManager :=
  match mState m with
  | LM_BOOTING_STATE | LM_SYNCED_STATE =>
      '(r, m) ← closeLedgerIf d m;
      match r with
      | CLOSED => Ok (setState LM_SYNCED_STATE m)
      | TOO_OLD => Ok m
      | TOO_NEW => initializeCatchup d m
      end
  | LM_CATCHING_UP_STATE =>
      match mCatchupState m with
      | WAITING_FOR_CLOSING_LEDGER => finalizeCatchup d m
      | _ => continueCatchup d m
      end
  end.

(** [applyBufferedLedgers] posts a task, which posts the next. *)
Definition applyBufferedLedgers (m : LedgerManager) : outcome LedgerManager :=
  _ ← cassert "mCatchupState == CatchupState::APPLYING_BUFFERED_LEDGERS"
        (bool_decide (mCatchupState m = APPLYING_BUFFERED_LEDGERS));
  Ok (set_lm_posted (S (lm_posted m)) m).
Definition applyBufferedLedger (m : LedgerManager) : outcome LedgerManager :=
  match mSyncingLedgers m with
  | [] => Ok (setCatchupState WAITING_FOR_CLOSING_LEDGER m)
  | lcd :: rest =>
      let m := set_mSyncingLedgers rest m in
      _ ← cassert "lcd.getLedgerSeq() == mLastClosedLedger.header.ledgerSeq + 1"
            (lcd_ledgerSeq lcd =? u32 (getLastClosedLedgerNum m + 1));
      m ← lm_closeLedger lcd m;
      applyBufferedLedgers m
  end.

(** [APPLIED_BUCKETS] stores the header that the buckets are of: catch-up has put
    their entries in place. *)
Definition lm_historyCaughtup (ec : bool) (progressState : ProgressState) (lastClosed : LedgerHeaderHistoryEntry)
    (m : LedgerManager) : outcome LedgerManager :=
  _ ← cassert "mCatchupState == CatchupState::APPLYING_HISTORY" (bool_decide (mCatchupState m = APPLYING_HISTORY));
  if ec then Ok (set_mSyncingLedgers [] (set_lm_catchupWork None (setState LM_BOOTING_STATE m)))
  else
    match progressState with
    | APPLIED_BUCKETS => Ok (set_mLastClosedLedger lastClosed (set_lm_node (storeHeader (hhe_header lastClosed) (lm_node m)) m))
    | APPLIED_TRANSACTIONS =>
        _ ← cassert "lastClosed.hash == mLastClosedLedger.hash" (hhe_hash lastClosed =? hhe_hash (mLastClosedLedger m));
        _ ← cassert "lastClosed.header == mLastClosedLedger.header"
              (bool_decide (hhe_header lastClosed = hhe_header (mLastClosedLedger m)));
        Ok m
    | FINISHED => applyBufferedLedgers (setCatchupState APPLYING_BUFFERED_LEDGERS (set_lm_catchupWork None m))
    end.
End Manager.

(** * The manager in its environment *)
Section Environment.
Context `{Closer : LedgerCloser}.
Context (accelerated CATCHUP_COMPLETE : bool) (CATCHUP_RECENT : Z).
Abbreviation valueExternalized' := (valueExternalized accelerated CATCHUP_COMPLETE CATCHUP_RECENT) (only parsing).

(** What happens to the manager. *)
Inductive ManagerEvent :=
  | Externalized (d : LedgerCloseData)     (* from the Herder *)
  | Posted                                 (* the task that waits on the main thread *)
  | BucketsApplied (n : Node) (lastClosed : LedgerHeaderHistoryEntry)
  | Replayed (d : LedgerCloseData)         (* catch-up closes a ledger from history *)
  | TransactionsApplied (lastClosed : LedgerHeaderHistoryEntry)
  | CaughtUp
  | CatchupFailed.
Definition noHeader : LedgerHeaderHistoryEntry :=
  mkHistoryEntry 0 (mkChainHeader (mkHeader 0 0 0 0 0 0 0 0 0 0) 0 0 [] 0 0 [0; 0; 0; 0]).
Definition handle_event (e : ManagerEvent) (m : LedgerManager) : outcome LedgerManager :=
  match e with
  | Externalized d => valueExternalized' d m
  | Posted => applyBufferedLedger (set_lm_posted (pred (lm_posted m)) m)
  | BucketsApplied n lastClosed => lm_historyCaughtup false APPLIED_BUCKETS lastClosed (set_lm_node n m)
  | Replayed d => lm_closeLedger d m
  | TransactionsApplied lastClosed => lm_historyCaughtup false APPLIED_TRANSACTIONS lastClosed m
  | CaughtUp => lm_historyCaughtup false FINISHED noHeader m
  | CatchupFailed => lm_historyCaughtup true FINISHED noHeader m
  end.

(** A ledger number with which the arithmetic does not wrap. *)
Definition seq_ok (n : Z) : Prop := 0 < n < UINT32_MAX.
(** What the environment promises.  Consensus may report any ledgers in any
    order, but for the moment between the last buffered ledger and the task that
    finds no more: there the manager relies on the next one ([gap_aborts]).  The work that
    catches up reports only while it is there; it moves the last closed ledger
    forward, up to the target, and says that it has finished when the last closed
    ledger is the target, with the hash asked for. *)
Definition promised (m : LedgerManager) (e : ManagerEvent) : Prop :=
  match e with
  | Externalized d =>
      seq_ok (lcd_ledgerSeq d) /\
      (mCatchupState m = APPLYING_BUFFERED_LEDGERS -> mSyncingLedgers m = [] ->
       lcd_ledgerSeq d = getLastClosedLedgerNum m + 1)
  | Posted => lm_posted m <> 0%nat
  | CatchupFailed => is_Some (lm_catchupWork m)
  | _ =>
      exists c, lm_catchupWork m = Some c /\
      match e with
      | BucketsApplied _ lastClosed => getLastClosedLedgerNum m <= hhe_seq lastClosed <= cc_toLedger c
      | Replayed d => getLastClosedLedgerNum m < cc_toLedger c
      | TransactionsApplied lastClosed => lastClosed = mLastClosedLedger m
      | _ => getLastClosedLedgerNum m = cc_toLedger c /\
          forall h, cc_hash c = Some h -> hhe_hash (mLastClosedLedger m) = h
      end
  end.

(** The errors that are not the manager's own. *)
Definition expected_error (e : exn) : Prop :=
  e = RuntimeError "Network consensus inconsistency" \/ exists n lcl d, closesTo n lcl d = Throw e.

(** ** The invariant *)
Fixpoint contiguous (l : list LedgerCloseData) : Prop :=
  match l with
  | [] => True
  | d :: l' => seq_ok (lcd_ledgerSeq d) /\ contiguous l' /\
      match l' with [] => True | d' :: _ => lcd_ledgerSeq d' = lcd_ledgerSeq d + 1 end
  end.
Definition quiet (m : LedgerManager) : Prop :=
  mSyncingLedgers m = [] /\ lm_catchupWork m = None /\ lm_posted m = 0%nat.
Definition holds_lcl (m : LedgerManager) : Prop := in_step (lm_node m) (hhe_header (mLastClosedLedger m)).
Definition standing (m : LedgerManager) : Prop := holds_lcl m /\ 0 < getLastClosedLedgerNum m < UINT32_MAX.
Definition lm_inv (m : LedgerManager) : Prop :=
  standing m /\ contiguous (mSyncingLedgers m) /\
  match mState m, mCatchupState m with
  | LM_CATCHING_UP_STATE, WAITING_FOR_TRIGGER_LEDGER =>
      lm_catchupWork m = None /\ lm_posted m = 0%nat /\
      exists d, head (mSyncingLedgers m) = Some d /\ getLastClosedLedgerNum m + 1 < lcd_ledgerSeq d
  | LM_CATCHING_UP_STATE, APPLYING_HISTORY =>
      lm_posted m = 0%nat /\
      exists d c, head (mSyncingLedgers m) = Some d /\ lm_catchupWork m = Some c /\
        cc_toLedger c = lcd_ledgerSeq d - 1 /\ cc_hash c = Some (lcd_previousLedgerHash d) /\
        getLastClosedLedgerNum m <= cc_toLedger c
  | LM_CATCHING_UP_STATE, APPLYING_BUFFERED_LEDGERS =>
      lm_catchupWork m = None /\ lm_posted m = 1%nat /\
      forall d, head (mSyncingLedgers m) = Some d -> lcd_ledgerSeq d = getLastClosedLedgerNum m + 1
  | LM_CATCHING_UP_STATE, WAITING_FOR_CLOSING_LEDGER => quiet m
  | LM_CATCHING_UP_STATE, NONE => False
  | _, NONE => quiet m
  | _, _ => False
  end.

Lemma u32_seq n : 0 <= n < 4294967296 -> u32 n = n.
Proof using. intros. unfold u32. by apply Z.mod_small. Qed.
Lemma contiguous_snoc l d :
  contiguous l -> seq_ok (lcd_ledgerSeq d) ->
  match last l with None => True | Some b => lcd_ledgerSeq d = lcd_ledgerSeq b + 1 end ->
  contiguous (l ++ [d]).
Proof using.
  induction l as [|a l IH]; [done|]. intros (Ha & Hl & Hn) Hd Hb. cbn [app contiguous].
  split; [done|]. destruct l as [|b l]; [by cbn in *|]. split; [by apply IH|]. exact Hn.
Qed.
Lemma push_contiguous l d : contiguous l -> seq_ok (lcd_ledgerSeq d) -> contiguous (chain_push l d).1.
Proof using.
  intros Hl Hd. unfold chain_push, chain_back. destruct (last l) as [b|] eqn:E.
  - assert (Hb : seq_ok (lcd_ledgerSeq b)).
    { apply last_Some in E as [l' ->]. clear -Hl. induction l'; cbn in Hl; [by destruct Hl|]. destruct Hl as (_ & Hl & _). auto. }
    destruct (Z.eqb_spec (u32 (lcd_ledgerSeq b + 1)) (lcd_ledgerSeq d)) as [Eq|]; [|by destruct (_ <=? _)].
    apply contiguous_snoc; [done..|]. rewrite E. rewrite u32_seq in Eq; [done|]. unfold seq_ok in *. unfold_ints; lia.
  - apply contiguous_snoc; [done..|]. by rewrite E.
Qed.
Lemma push_head l d a : head l = Some a -> head (chain_push l d).1 = Some a.
Proof using.
  destruct l as [|x l]; [done|]. intros [= ->]. unfold chain_push. destruct (chain_back _); cbn; [|done].
  by repeat case_match.
Qed.
Lemma push_nonempty l d : exists a, head (chain_push l d).1 = Some a.
Proof using. destruct l as [|x l]; [by exists d|]. exists x. by apply push_head. Qed.

(** Whether it succeeds in a good state, or fails for a reason of others. *)
Definition fares {A} (P : A -> Prop) (o : outcome A) : Prop :=
  match o with Ok a => P a | Throw e => expected_error e end.
Lemma fares_bind {A B} (o : outcome A) (f : A -> outcome B) P Q :
  fares P o -> (forall a, P a -> fares Q (f a)) -> fares Q (o ≫= f).
Proof using. destruct o; cbn; auto. Qed.

Context `{!LedgerCloserLaws}.
Lemma closeLedger_fares d m :
  holds_lcl m ->
  fares (fun m' => (getLastClosedLedgerNum m' = u32 (getLastClosedLedgerNum m + 1) /\ holds_lcl m') /\
           m' = set_mLastClosedLedger (mLastClosedLedger m') (set_lm_node (lm_node m') m)) (lm_closeLedger d m).
Proof using All.
  intros Hh. unfold lm_closeLedger. destruct (closesTo _ _ d) as [[n h]|e] eqn:E; cbn; [|right; by do 3 eexists].
  apply closes_next in E as (E & _ & _ & Hs); [|exact Hh]. split; [|done]. split; [exact E|exact Hs].
Qed.
Lemma closeLedgerIf_fares d m :
  seq_ok (lcd_ledgerSeq d) -> standing m ->
  fares (fun rm => match rm.1 with
         | CLOSED => (getLastClosedLedgerNum rm.2 = lcd_ledgerSeq d /\ holds_lcl rm.2) /\ lcd_ledgerSeq d = getLastClosedLedgerNum m + 1 /\
             rm.2 = set_mLastClosedLedger (mLastClosedLedger rm.2) (set_lm_node (lm_node rm.2) m)
         | TOO_OLD => rm.2 = m /\ lcd_ledgerSeq d <= getLastClosedLedgerNum m
         | TOO_NEW => rm.2 = m /\ getLastClosedLedgerNum m + 1 < lcd_ledgerSeq d
         end) (closeLedgerIf d m).
Proof using All.
  intros Hd [Hh Hm]. unfold closeLedgerIf. assert (Hu : u32 (getLastClosedLedgerNum m + 1) = getLastClosedLedgerNum m + 1)
    by (apply u32_seq; unfold_ints; lia). rewrite Hu.
  destruct (Z.eqb_spec (getLastClosedLedgerNum m + 1) (lcd_ledgerSeq d)) as [E|E].
  - destruct (_ =? _); [|by left]. eapply fares_bind; [by apply closeLedger_fares|]. intros m' [[E1 Hh'] E2]. cbn.
    split; [split; [congruence|done]|]. split; [congruence|done].
  - destruct (Z.leb_spec (lcd_ledgerSeq d) (getLastClosedLedgerNum m)); cbn; split; (done || lia).
Qed.

(** ** Each handler *)
Lemma startCatchup_fares d c m :
  mState m = LM_CATCHING_UP_STATE -> contiguous (mSyncingLedgers m) -> standing m ->
  head (mSyncingLedgers m) = Some d -> lm_catchupWork m = None -> lm_posted m = 0%nat ->
  cc_toLedger c = lcd_ledgerSeq d - 1 -> cc_hash c = Some (lcd_previousLedgerHash d) ->
  getLastClosedLedgerNum m + 1 < lcd_ledgerSeq d ->
  fares lm_inv (startCatchup c false m).
Proof using All.
  intros Hs Hc Hl Hd Hw Hp Hto Hh Hlt. unfold startCatchup. rewrite (proj2 (Z.leb_gt _ _)) by lia. rewrite andb_false_r.
  unfold setCatchupState, setState. cbn [mState set_mCatchupState]. rewrite decide_True by done.
  cbn [mSyncingLedgers set_mCatchupState]. destruct (mSyncingLedgers m) as [|x l] eqn:El; [done|]. cbn.
  unfold catchupHistory. cbn [lm_catchupWork set_mCatchupState]. rewrite Hw. cbn. unfold lm_inv. cbn. rewrite Hs, El.
  split; [exact Hl|]. split; [exact Hc|]. split; [exact Hp|]. injection Hd as ->. exists d, c.
  split; [done|]. split; [done|]. split; [done|]. split; [done|]. unfold getLastClosedLedgerNum in *. cbn. lia.
Qed.
Lemma startCatchupIf_fares seq m :
  lm_inv m -> mState m = LM_CATCHING_UP_STATE -> mSyncingLedgers m <> [] ->
  fares lm_inv (startCatchupIf CATCHUP_COMPLETE CATCHUP_RECENT seq m).
Proof using All.
  intros Hinv Hs Hne. pose proof Hinv as (Hl & Hc & Hm). rewrite Hs in Hm. unfold startCatchupIf, chain_front.
  destruct (mSyncingLedgers m) as [|d l] eqn:El; [done|]. cbn [head].
  rewrite (bool_decide_eq_false_2 (mCatchupState m = NONE)) by (intros E; rewrite E in Hm; exact Hm). cbn [negb cassert mbind outcome_bind].
  case_bool_decide as Ht; cbn [negb]; [|exact Hinv]. rewrite Ht in Hm. destruct Hm as (Hw & Hp & d' & [= <-] & Hlt).
  destruct (_ <=? seq); [|exact Hinv]. pose proof (proj1 Hc) as Hd. unfold seq_ok in Hd.
  assert (Hsame : setCatchupState APPLYING_HISTORY m = set_mCatchupState APPLYING_HISTORY m)
    by (unfold setCatchupState, setState; cbn; by rewrite Hs, decide_True).
  rewrite Hsame. apply (startCatchup_fares d); cbn; try done; [by rewrite El|by rewrite El|].
  rewrite u32_seq; [done|]. unfold_ints; lia.
Qed.
Lemma initializeCatchup_fares d m :
  lm_inv m -> mState m <> LM_CATCHING_UP_STATE -> seq_ok (lcd_ledgerSeq d) -> getLastClosedLedgerNum m + 1 < lcd_ledgerSeq d ->
  fares lm_inv (initializeCatchup accelerated CATCHUP_COMPLETE CATCHUP_RECENT d m).
Proof using All.
  intros (Hl & Hc & Hm) Hs Hd Hlt. unfold initializeCatchup.
  assert (Hq : mCatchupState m = NONE /\ quiet m) by (destruct (mState m); [..|congruence]; destruct (mCatchupState m); done).
  destruct Hq as [Hn (Hq1 & Hq2 & Hq3)].
  rewrite (bool_decide_eq_false_2 (mState m = _)) by done. rewrite (bool_decide_eq_true_2 (mCatchupState m = _)) by done. rewrite Hq1. cbn [negb chain_empty cassert mbind outcome_bind].
  unfold setCatchupState, setState. cbn [mState set_mState set_mCatchupState set_mCatchupTriggerLedger].
  rewrite (decide_False (P := LM_CATCHING_UP_STATE = mState m)) by congruence.
  rewrite (decide_True (P := LM_CATCHING_UP_STATE = LM_CATCHING_UP_STATE)) by done.
  cbn [mState set_mState set_mCatchupState set_mCatchupTriggerLedger]. rewrite decide_True by done.
  apply startCatchupIf_fares; [|done|].
  - unfold lm_inv, addToSyncingLedgers. cbn. rewrite Hq1. cbn. split; [exact Hl|]. split; [done|].
    split; [done|]. split; [done|]. exists d. split; [done|exact Hlt].
  - cbn. rewrite Hq1. done.
Qed.
Lemma continueCatchup_fares d m :
  lm_inv m -> promised m (Externalized d) -> mState m = LM_CATCHING_UP_STATE -> mCatchupState m <> WAITING_FOR_CLOSING_LEDGER ->
  fares lm_inv (continueCatchup CATCHUP_COMPLETE CATCHUP_RECENT d m).
Proof using All.
  intros (Hl & Hc & Hm) [Hd Hgap] Hs Hn. unfold continueCatchup. rewrite bool_decide_eq_true_2 by done. cbn [cassert mbind outcome_bind].
  apply startCatchupIf_fares; [|by cbn|].
  2:{ cbn. destruct (push_nonempty (mSyncingLedgers m) d) as [a Ha]. intros E. by rewrite E in Ha. }
  unfold lm_inv, addToSyncingLedgers. cbn. split; [exact Hl|]. split; [by apply push_contiguous|].
  rewrite Hs in Hm |- *. destruct (mCatchupState m) eqn:Ec; try done.
  - destruct Hm as (? & ? & a & Ha & ?). split; [done|]. split; [done|]. exists a. split; [by apply push_head|done].
  - destruct Hm as (? & a & c & Ha & ?). split; [done|]. exists a, c. split; [by apply push_head|done].
  - destruct Hm as (? & ? & Hf). split; [done|]. split; [done|]. intros a Ha. destruct (mSyncingLedgers m) as [|x l] eqn:El.
    + injection Ha as <-. by apply Hgap.
    + apply Hf. rewrite (push_head (x :: l) d x eq_refl) in Ha. exact Ha.
Qed.
Lemma synced_inv m : standing m -> quiet m -> lm_inv (setState LM_SYNCED_STATE m) \/ mState m = LM_SYNCED_STATE.
Proof using.
  intros Hl (Hq1 & Hq2 & Hq3). unfold setState. case_decide as E; [by right|]. left. rewrite decide_False by done.
  unfold lm_inv, quiet. cbn. rewrite Hq1. done.
Qed.
Lemma valueExternalized_fares d m :
  lm_inv m -> promised m (Externalized d) ->
  fares lm_inv (valueExternalized accelerated CATCHUP_COMPLETE CATCHUP_RECENT d m).
Proof using All.
  intros Hinv Hp. pose proof Hinv as (Hl & Hc & Hm). pose proof Hp as [Hd _]. unfold valueExternalized.
  assert (Hclosed : forall m1, getLastClosedLedgerNum m1 = lcd_ledgerSeq d /\ holds_lcl m1 ->
    m1 = set_mLastClosedLedger (mLastClosedLedger m1) (set_lm_node (lm_node m1) m) -> quiet m ->
    (mState m = LM_SYNCED_STATE -> mCatchupState m = NONE) -> lm_inv (setState LM_SYNCED_STATE m1)).
  { intros m1 [E1 Hh1] E2 Hq Hn. assert (Hst : standing m1) by (split; [done|by rewrite E1]). assert (Hq1 : quiet m1) by (rewrite E2; exact Hq).
    destruct (synced_inv m1) as [Hi|Hi]; [exact Hst|exact Hq1|exact Hi|].
    unfold setState. rewrite decide_True by done. unfold lm_inv. rewrite Hi.
    assert (mCatchupState m1 = NONE) as -> by (rewrite E2 in Hi |- *; by apply Hn).
    split; [exact Hst|]. split; [|exact Hq1]. by rewrite (proj1 Hq1). }
  destruct (mState m) eqn:Es.
  1,2: assert (Hq : mCatchupState m = NONE /\ quiet m) by (by destruct (mCatchupState m)); destruct Hq as [Hn Hq];
    (eapply fares_bind; [by apply closeLedgerIf_fares|]); intros [r m1] Hr; cbn [fst snd] in Hr; destruct r;
    [destruct Hr as (E1 & _ & E2); by apply Hclosed|destruct Hr as [-> _]; exact Hinv|destruct Hr as [-> Hlt]];
    apply initializeCatchup_fares; (done || by rewrite Es).
  destruct (decide (mCatchupState m = WAITING_FOR_CLOSING_LEDGER)) as [Ec|Ec].
  2:{ assert (continueCatchup CATCHUP_COMPLETE CATCHUP_RECENT d m = match mCatchupState m with
        WAITING_FOR_CLOSING_LEDGER => finalizeCatchup accelerated CATCHUP_COMPLETE CATCHUP_RECENT d m
        | _ => continueCatchup CATCHUP_COMPLETE CATCHUP_RECENT d m end) as <- by (by destruct (mCatchupState m)).
      by apply continueCatchup_fares. }
  rewrite Ec in Hm |- *. unfold finalizeCatchup. rewrite Es, Ec, !bool_decide_eq_true_2 by done. rewrite (proj1 Hm).
  cbn [cassert chain_empty mbind outcome_bind]. eapply fares_bind; [by apply closeLedgerIf_fares|]. intros [r m1] Hr. cbn [fst snd] in Hr.
  destruct r; [destruct Hr as (E1 & _ & E2)|destruct Hr as [-> _]; exact Hinv|destruct Hr as [-> Hlt]].
  - apply Hclosed; [done..|]. intros [=].
  - assert (Hsame : setState LM_BOOTING_STATE m = set_mCatchupState NONE (set_mState LM_BOOTING_STATE m))
      by (unfold setState; rewrite decide_False by congruence; by rewrite decide_False).
    rewrite Hsame. apply initializeCatchup_fares; [|done|done|exact Hlt].
    unfold lm_inv. cbn. split; [exact Hl|]. split; [exact Hc|exact Hm].
Qed.

Lemma posted_fares m : lm_inv m -> promised m Posted -> fares lm_inv (handle_event Posted m).
Proof using All.
  intros (Hl & Hc & Hm) Hp. cbn [promised handle_event] in *. unfold applyBufferedLedger. cbn [mSyncingLedgers set_lm_posted].
  assert (Hs : mState m = LM_CATCHING_UP_STATE /\ mCatchupState m = APPLYING_BUFFERED_LEDGERS).
  { destruct (mState m), (mCatchupState m); try done; by destruct Hm as (? & ? & ?) || by destruct Hm. }
  destruct Hs as [Hs Hk]. rewrite Hs, Hk in Hm. destruct Hm as (Hw & H1 & Hf).
  destruct (mSyncingLedgers m) as [|d l] eqn:El.
  - unfold setCatchupState, setState. cbn [mState set_mCatchupState set_lm_posted]. rewrite Hs, decide_True by done.
    unfold lm_inv, quiet. cbn. rewrite Hs, El, H1. done.
  - cbn [contiguous] in Hc. destruct Hc as (Hd & Hc & Hn). pose proof (Hf d eq_refl) as Ed. unfold seq_ok in Hd.
    assert (Hu : u32 (getLastClosedLedgerNum m + 1) = lcd_ledgerSeq d) by (rewrite u32_seq; unfold_ints; lia).
    unfold getLastClosedLedgerNum in Hu. cbn [mLastClosedLedger set_mSyncingLedgers set_lm_posted getLastClosedLedgerNum].
    unfold getLastClosedLedgerNum. cbn [mLastClosedLedger set_mSyncingLedgers set_lm_posted].
    rewrite Hu, Z.eqb_refl. cbn [cassert mbind outcome_bind]. eapply fares_bind; [apply closeLedger_fares; exact (proj1 Hl)|].
    intros m' [[E1 Hh'] E2]. unfold applyBufferedLedgers. unfold getLastClosedLedgerNum in E1 at 2. cbn in E1. rewrite Hu in E1.
    rewrite E2. cbn. rewrite Hk, bool_decide_eq_true_2 by done. unfold fares, lm_inv, standing. cbn. unfold getLastClosedLedgerNum in *. cbn. rewrite Hs, Hk, E1, H1.
    split; [split; [exact Hh'|exact Hd]|]. split; [exact Hc|]. split; [exact Hw|]. split; [done|]. intros d' Hd'. destruct l as [|x l]; [done|].
    injection Hd' as <-. exact Hn.
Qed.

(** Of the states only [APPLYING_HISTORY] has the work. *)
Lemma lm_inv_history m c :
  lm_inv m -> lm_catchupWork m = Some c ->
  mState m = LM_CATCHING_UP_STATE /\ mCatchupState m = APPLYING_HISTORY /\ lm_posted m = 0%nat /\
  exists d, head (mSyncingLedgers m) = Some d /\ seq_ok (lcd_ledgerSeq d) /\ cc_toLedger c = lcd_ledgerSeq d - 1 /\
    cc_hash c = Some (lcd_previousLedgerHash d) /\ getLastClosedLedgerNum m <= cc_toLedger c.
Proof using.
  intros (Hl & Hc & Hm) Hw. unfold quiet in Hm. rewrite Hw in Hm.
  destruct (mState m), (mCatchupState m); try done; try (by destruct Hm as (? & ? & ?)); try by destruct Hm.
  destruct Hm as (Hp & d & c' & Hd & [= <-] & Ht & Hh & Hle). do 3 (split; [done|]). exists d. split; [done|].
  split; [|done]. destruct (mSyncingLedgers m); [done|]. injection Hd as ->. apply Hc.
Qed.
(** While the work is there the last closed ledger may move up to its target. *)
Lemma history_moves m c l n :
  lm_inv m -> in_step n (hhe_header l) -> lm_catchupWork m = Some c -> getLastClosedLedgerNum m <= hhe_seq l <= cc_toLedger c ->
  lm_inv (set_mLastClosedLedger l (set_lm_node n m)).
Proof using.
  intros Hinv Hin Hw Hle. destruct (lm_inv_history m c Hinv Hw) as (Hs & Hk & Hp & d & Hd & Hok & Ht & Hh & _).
  destruct Hinv as ([_ Hl] & Hc & Hm). unfold seq_ok in Hok. unfold lm_inv, standing. cbn. rewrite Hs, Hk.
  unfold getLastClosedLedgerNum in *. cbn. split; [split; [exact Hin|lia]|]. split; [exact Hc|]. split; [exact Hp|].
  exists d, c. split; [exact Hd|]. do 3 (split; [done|]). apply Hle.
Qed.
Lemma catchup_fares e m :
  lm_inv m -> promised m e -> (forall d, e <> Externalized d) -> e <> Posted -> fares lm_inv (handle_event e m).
Proof using All.
  intros Hinv Hp Hne Hnp. assert (Hw : exists c, lm_catchupWork m = Some c) by (destruct e; naive_solver). destruct Hw as [c Hw].
  destruct (lm_inv_history m c Hinv Hw) as (Hs & Hk & Hz & d & Hd & Hok & Ht & Hh & Hle). unfold seq_ok in Hok.
  destruct e as [d'|  |n l|d'|l| |]; try (by destruct (Hne d')); try done; cbn [promised handle_event] in *; unfold lm_historyCaughtup;
    try (destruct Hp as (c' & Hw' & Hp); assert (c' = c) as -> by congruence).
  - cbn [mCatchupState set_lm_node]. rewrite Hk, bool_decide_eq_true_2 by done. apply (history_moves m c); [done|apply stores_header|done..].
  - pose proof (closeLedger_fares d' m (proj1 (proj1 Hinv))) as Hcl. destruct (lm_closeLedger d' m) as [m'|]; [|exact Hcl].
    destruct Hcl as [[E1 Hh'] E2]. rewrite u32_seq in E1 by (destruct Hinv as [[_ Hl] _]; unfold_ints; lia). rewrite E2.
    apply (history_moves m c); [done..|].
    unfold getLastClosedLedgerNum in *. lia.
  - subst l. rewrite Hk, Z.eqb_refl, !bool_decide_eq_true_2 by done. exact Hinv.
  - rewrite Hk, bool_decide_eq_true_2 by done. cbn [cassert mbind outcome_bind].
    unfold setCatchupState, setState. cbn [mState set_mCatchupState set_lm_catchupWork]. rewrite Hs, decide_True by done.
    unfold applyBufferedLedgers. cbn [mCatchupState set_mCatchupState]. rewrite bool_decide_eq_true_2 by done.
    unfold fares, lm_inv. cbn. rewrite Hs. destruct Hinv as (Hl & Hc & _). split; [exact Hl|]. split; [exact Hc|].
    split; [done|]. split; [by rewrite Hz|]. intros a Ha. unfold getLastClosedLedgerNum in *. cbn in *.
    assert (a = d) as -> by congruence. lia.
  - rewrite Hk, bool_decide_eq_true_2 by done. cbn [cassert mbind outcome_bind]. unfold setState. rewrite Hs, decide_False by done.
    rewrite decide_False by done. unfold fares, lm_inv, quiet. cbn. destruct Hinv as (Hl & _). done.
Qed.
Lemma handle_event_fares e m : lm_inv m -> promised m e -> fares lm_inv (handle_event e m).
Proof using All.
  intros Hinv Hp. destruct e; try (apply catchup_fares; done).
  - by apply valueExternalized_fares.
  - by apply posted_fares.
Qed.

(** ** What is closed *)
(** The entry that [closeLedger] makes on top of another. *)
Definition on_top (e e' : LedgerHeaderHistoryEntry) : Prop :=
  hhe_seq e' = u32 (hhe_seq e + 1) /\ ch_previousLedgerHash (hhe_header e') = hhe_hash e /\
  hhe_hash e' = header_hash (hhe_header e').
Definition moves (m m' : LedgerManager) : Prop :=
  mLastClosedLedger m' = mLastClosedLedger m \/ on_top (mLastClosedLedger m) (mLastClosedLedger m').
Lemma closeLedger_moves d m m' : holds_lcl m -> lm_closeLedger d m = Ok m' -> on_top (mLastClosedLedger m) (mLastClosedLedger m').
Proof using All.
  intros Hh. unfold lm_closeLedger. destruct (closesTo _ _ d) as [[n h]|e] eqn:E; [|done]. intros [= <-].
  by apply closes_next in E as (E1 & E2 & _).
Qed.
Lemma setState_lcl s m : mLastClosedLedger (setState s m) = mLastClosedLedger m.
Proof using. unfold setState. by repeat case_decide. Qed.
Lemma setCatchupState_lcl s m : mLastClosedLedger (setCatchupState s m) = mLastClosedLedger m.
Proof using. unfold setCatchupState. by rewrite setState_lcl. Qed.
(** Success and nothing else than what is said of it. *)
Definition ends {A} (P : A -> Prop) (o : outcome A) : Prop := forall a, o = Ok a -> P a.
Lemma ends_bind {A B} (o : outcome A) (f : A -> outcome B) P Q :
  ends P o -> (forall a, P a -> ends Q (f a)) -> ends Q (o ≫= f).
Proof using. destruct o as [a|]; cbn; [|done]. intros Ho Hf. by apply (Hf a), Ho. Qed.
Lemma ends_assert {B} what b (f : unit -> outcome B) Q : ends Q (f tt) -> ends Q (cassert what b ≫= f).
Proof using. by destruct b. Qed.
Lemma ends_ok {A} (P : A -> Prop) a : P a -> ends P (Ok a).
Proof using. by intros H' ? [= <-]. Qed.
Abbreviation same m := (fun m' => mLastClosedLedger m' = mLastClosedLedger m).
Lemma startCatchup_same c b m : ends (same m) (startCatchup c b m).
Proof using.
  unfold startCatchup, catchupHistory. destruct (_ && _); [done|]. apply ends_assert.
  case_match; [done|]. apply ends_ok. cbn. apply setCatchupState_lcl.
Qed.
Lemma startCatchupIf_same seq m : ends (same m) (startCatchupIf CATCHUP_COMPLETE CATCHUP_RECENT seq m).
Proof using.
  unfold startCatchupIf. destruct (chain_front _); [|done]. apply ends_assert. destruct (negb _); [by apply ends_ok|].
  destruct (_ <=? _); [|by apply ends_ok]. intros m' E. apply startCatchup_same in E. by rewrite E, setCatchupState_lcl.
Qed.
Lemma initializeCatchup_same d m : ends (same m) (initializeCatchup accelerated CATCHUP_COMPLETE CATCHUP_RECENT d m).
Proof using.
  unfold initializeCatchup. do 3 apply ends_assert. intros m' E. apply startCatchupIf_same in E. rewrite E.
  unfold addToSyncingLedgers. cbn. rewrite setCatchupState_lcl. cbn. apply setState_lcl.
Qed.
Lemma closeLedgerIf_moves d m :
  holds_lcl m -> ends (fun rm => moves m rm.2 /\ (rm.1 <> CLOSED -> rm.2 = m)) (closeLedgerIf d m).
Proof using All.
  intros Hh. unfold closeLedgerIf. destruct (_ =? _).
  - destruct (_ =? _); [|done]. eapply ends_bind; [exact (fun m' => closeLedger_moves d m m' Hh)|]. intros m' H'. apply ends_ok.
    split; [by right|done].
  - destruct (_ <=? _); (apply ends_ok; split; [by left|done]).
Qed.
Lemma value_moves d m : holds_lcl m -> ends (moves m) (valueExternalized accelerated CATCHUP_COMPLETE CATCHUP_RECENT d m).
Proof using All.
  intros Hh. assert (Hcont : ends (moves m) (continueCatchup CATCHUP_COMPLETE CATCHUP_RECENT d m)).
  { unfold continueCatchup. apply ends_assert. intros m' E. apply startCatchupIf_same in E. by left. }
  unfold valueExternalized, finalizeCatchup.
  destruct (mState m); [..|destruct (mCatchupState m); try exact Hcont; do 3 apply ends_assert];
    (eapply ends_bind; [by apply closeLedgerIf_moves|]); intros [[] m1] [Hmv Hr]; cbn [fst snd] in *;
    try (apply ends_ok; unfold moves; by rewrite ?setState_lcl); rewrite Hr by done;
    intros m' E; apply initializeCatchup_same in E; left; by rewrite E, ?setState_lcl.
Qed.
Lemma handle_event_moves e m :
  holds_lcl m -> (forall n l, e <> BucketsApplied n l) -> ends (moves m) (handle_event e m).
Proof using All.
  intros Hh Hn. destruct e as [d| |n l|d|l| |]; cbn [handle_event].
  - by apply value_moves.
  - unfold applyBufferedLedger, applyBufferedLedgers. destruct (mSyncingLedgers _) as [|d l].
    + apply ends_ok. left. by rewrite setCatchupState_lcl.
    + apply ends_assert. eapply ends_bind; [intros m' E; exact (closeLedger_moves _ (set_mSyncingLedgers l (set_lm_posted (pred (lm_posted m)) m)) m' Hh E)|]. intros m' Hm. apply ends_assert, ends_ok. by right.
  - by destruct (Hn n l).
  - intros m' E. right. exact (closeLedger_moves _ _ _ Hh E).
  - unfold lm_historyCaughtup. apply ends_assert. do 2 apply ends_assert. apply ends_ok. by left.
  - unfold lm_historyCaughtup, applyBufferedLedgers. apply ends_assert. apply ends_assert, ends_ok. left. cbn. by rewrite setCatchupState_lcl.
  - unfold lm_historyCaughtup. apply ends_assert, ends_ok. left. cbn. by rewrite setState_lcl.
Qed.

(** ** Runs *)
Fixpoint run_events (es : list ManagerEvent) (m : LedgerManager) : outcome LedgerManager :=
  match es with
  | [] => Ok m
  | e :: es => m ← handle_event e m; run_events es m
  end.
Fixpoint all_promised (es : list ManagerEvent) (m : LedgerManager) : Prop :=
  match es with
  | [] => True
  | e :: es => promised m e /\ forall m', handle_event e m = Ok m' -> all_promised es m'
  end.
(** A chain of entries, each made on top of the one before. *)
Fixpoint chained (e : LedgerHeaderHistoryEntry) (l : list LedgerHeaderHistoryEntry) : Prop :=
  match l with [] => True | e' :: l' => on_top e e' /\ chained e' l' end.
Lemma run_app es es' m : run_events (es ++ es') m = m ← run_events es m; run_events es' m.
Proof using. revert m. induction es as [|e es IH]; intros m; cbn; [done|]. destruct (handle_event e m); cbn; auto. Qed.
Definition from_buckets (e : ManagerEvent) : bool := match e with BucketsApplied _ _ => true | _ => false end.

(** C29. Whatever consensus and the work of catch-up report, in any order the environment can
    keep to ([promised]).  From a state in which the manager's invariant holds - what is buffered is
    contiguous, and in each phase of catching up the work, the task and the first buffered
    ledger are as the next phase needs them - a run keeps the invariant, fails none of the
    manager's assertions and starts no catch-up twice or backwards: the only errors are those of
    closing a ledger and that of a network that disagrees on the last closed ledger.  And what
    it closes is a chain: between the states before and after a run that applies no buckets
    lie closed ledgers of which each has the number after the one before and its hash as
    previous hash, and carries the hash of its header. *)
Theorem manager_runs es m :
  lm_inv m -> all_promised es m ->
  fares (fun m' => lm_inv m' /\
      (existsb from_buckets es = false ->
       exists l, chained (mLastClosedLedger m) l /\ mLastClosedLedger m' = default (mLastClosedLedger m) (last l) /\
         (length l <= length es)%nat))
    (run_events es m).
Proof using All.
  revert m. induction es as [|e es IH]; intros m Hinv; cbn [run_events].
  { intros _. split; [done|]. intros _. by exists []. }
  intros [Hp Hes]. pose proof (handle_event_fares e m Hinv Hp) as Hf.
  destruct (handle_event e m) as [m1|] eqn:E; [|exact Hf]. specialize (IH m1 Hf (Hes m1 eq_refl)).
  cbn [mbind outcome_bind]. destruct (run_events es m1) as [m'|]; [|exact IH]. destruct IH as [Hi IH]. split; [done|].
  intros [Hn1 Hn]%orb_false_iff. destruct (IH Hn) as (l & Hc & Hl & Hlen).
  assert (Hm : moves m m1). { eapply handle_event_moves; [apply Hinv| |exact E]. by intros n k ->. }
  destruct Hm as [<-|Hm]; [exists l; cbn; split; [done|split; [done|lia]]|].
  exists (mLastClosedLedger m1 :: l). cbn [chained]. split; [done|]. split; [|cbn; lia]. rewrite Hl, last_cons. by destruct (last l).
Qed.

(** ** Coming back in sync *)
Lemma fares_ends {A} (P Q : A -> Prop) o : fares P o -> ends Q o -> fares (fun a => P a /\ Q a) o.
Proof using. destruct o; cbn; auto. Qed.
Lemma fares_impl {A} (P Q : A -> Prop) o : (forall a, P a -> Q a) -> fares P o -> fares Q o.
Proof using. destruct o; cbn; auto. Qed.
Lemma posted_step m :
  mState m = LM_CATCHING_UP_STATE -> standing m -> mCatchupState m = APPLYING_BUFFERED_LEDGERS ->
  ends (fun m' => match mSyncingLedgers m with
     | [] => mCatchupState m' = WAITING_FOR_CLOSING_LEDGER /\ getLastClosedLedgerNum m' = getLastClosedLedgerNum m
     | _ :: l => mCatchupState m' = APPLYING_BUFFERED_LEDGERS /\ mSyncingLedgers m' = l /\ lm_posted m' = S (pred (lm_posted m)) /\
         getLastClosedLedgerNum m' = getLastClosedLedgerNum m + 1
     end) (handle_event Posted m).
Proof using All.
  intros Hs Hl Hk. cbn [handle_event]. unfold applyBufferedLedger, applyBufferedLedgers. cbn [mSyncingLedgers set_lm_posted].
  destruct (mSyncingLedgers m) as [|d l] eqn:El.
  - apply ends_ok. unfold getLastClosedLedgerNum. rewrite setCatchupState_lcl. split; [|done].
    unfold setCatchupState, setState. cbn. by rewrite Hs, decide_True.
  - apply ends_assert. eapply ends_bind; [|intros m' Hm; apply ends_assert, ends_ok; exact Hm].
    intros m' E. pose proof (closeLedger_fares d (set_mSyncingLedgers l (set_lm_posted (pred (lm_posted m)) m)) (proj1 Hl)) as Hf.
    rewrite E in Hf. destruct Hf as [[E1 _] E2]. rewrite E2. cbn. split; [exact Hk|]. split; [done|]. split; [done|].
    destruct Hl as [_ Hl]. unfold getLastClosedLedgerNum in *. cbn in *. rewrite E1. apply u32_seq. unfold_ints; lia.
Qed.
Lemma buffered_drained n m :
  lm_inv m -> mCatchupState m = APPLYING_BUFFERED_LEDGERS -> length (mSyncingLedgers m) = n ->
  fares (fun m' => lm_inv m' /\ mCatchupState m' = WAITING_FOR_CLOSING_LEDGER /\
           getLastClosedLedgerNum m' = getLastClosedLedgerNum m + Z.of_nat n) (run_events (replicate (S n) Posted) m).
Proof using All.
  revert m. induction n as [|n IH]; intros m Hinv Hk Hn.
  all: pose proof Hinv as (Hl & _ & Hm); assert (Hs : mState m = LM_CATCHING_UP_STATE) by (rewrite Hk in Hm; by destruct (mState m));
    assert (Hp : promised m Posted) by (rewrite Hs, Hk in Hm; cbn; destruct Hm as (_ & -> & _); done).
  all: pose proof (fares_ends _ _ _ (posted_fares m Hinv Hp) (posted_step m Hs Hl Hk)) as Hstep.
  all: destruct (mSyncingLedgers m) as [|d l]; [try done|try done].
  - cbn [replicate run_events]. eapply fares_bind; [exact Hstep|]. intros m' (? & ? & ?). cbn. split; [done|]. split; [done|lia].
  - rewrite (eq_refl : replicate (S (S n)) Posted = Posted :: replicate (S n) Posted). cbn [run_events].
    eapply fares_bind; [exact Hstep|]. intros m' (Hi & Hk' & Hl' & _ & Hc). eapply fares_impl; [|apply IH; [done..|rewrite Hl'; by injection Hn]].
    intros m2 (? & ? & ?). split; [done|]. split; [done|]. lia.
Qed.
Lemma caught_up_step m :
  mState m = LM_CATCHING_UP_STATE ->
  ends (fun m' => mCatchupState m' = APPLYING_BUFFERED_LEDGERS /\ mSyncingLedgers m' = mSyncingLedgers m /\
         mLastClosedLedger m' = mLastClosedLedger m) (handle_event CaughtUp m).
Proof using.
  intros Hs. cbn [handle_event]. unfold lm_historyCaughtup, applyBufferedLedgers. apply ends_assert, ends_assert, ends_ok. cbn.
  rewrite setCatchupState_lcl. unfold setCatchupState, setState. cbn. rewrite Hs, decide_True by done. done.
Qed.
Lemma closing_ledger_fares d m :
  lm_inv m -> mCatchupState m = WAITING_FOR_CLOSING_LEDGER -> lcd_ledgerSeq d = getLastClosedLedgerNum m + 1 -> seq_ok (lcd_ledgerSeq d) ->
  fares (fun m' => lm_inv m' /\ mState m' = LM_SYNCED_STATE /\ getLastClosedLedgerNum m' = lcd_ledgerSeq d) (handle_event (Externalized d) m).
Proof using All.
  intros Hinv Hk Ed Hd. assert (Hp : promised m (Externalized d)) by (split; [done|by rewrite Hk]).
  apply fares_ends; [by apply valueExternalized_fares|]. destruct Hinv as (Hl & _ & Hm). rewrite Hk in Hm.
  assert (Hs : mState m = LM_CATCHING_UP_STATE) by (by destruct (mState m)). cbn [handle_event]. unfold valueExternalized.
  rewrite Hs, Hk. unfold finalizeCatchup. do 3 apply ends_assert. pose proof (closeLedgerIf_fares d m Hd Hl) as Hc.
  destruct (closeLedgerIf d m) as [[r m1]|]; [|done]. cbn in Hc. cbn [mbind outcome_bind]. destruct r; [|lia|lia].
  destruct Hc as ([E1 _] & _ & E2). apply ends_ok. unfold getLastClosedLedgerNum in *. rewrite setState_lcl. split; [|done].
  unfold setState. case_decide as E; [done|by rewrite decide_False].
Qed.

End Environment.

(** * An example: a node that falls behind, with checkpoints of 8 ledgers *)
Definition sample_closer : LedgerCloser := {|
  Node := Z;
  header_hash h := 1000 + ch_ledgerSeq h;
  in_step n h := n = ch_ledgerSeq h;
  storeHeader h _ := ch_ledgerSeq h;
  closesTo _ lcl d :=
    let seq := u32 (hhe_seq lcl + 1) in
    if lcd_previousLedgerHash d =? hhe_hash lcl
    then Ok (seq, mkChainHeader (mkHeader 10 seq 0 0 0 0 0 100 100 100) (hhe_hash lcl) 0 [] 0 0 [0; 0; 0; 0])
    else Throw (RuntimeError "txset mismatch") |}.
#[local] Existing Instance sample_closer.
#[local] Instance sample_closer_laws : LedgerCloserLaws.
Proof.
  split; [|done]. intros n lcl d n' h _. cbn -[lcd_previousLedgerHash]. destruct (Z.eqb_spec (lcd_previousLedgerHash d) (hhe_hash lcl)) as [E|]; [|done].
  by intros [= <- <-].
Qed.
(** The network's ledger [n]. *)
Definition sample_lcd (n : Z) : LedgerCloseData := mkLedgerCloseData n (mkTxSet false 0 (999 + n) []) (mkStellarValue 0 0 []).
Definition sample_manager : LedgerManager :=
  mkLedgerManager LM_SYNCED_STATE NONE [] 0
    (mkHistoryEntry 1001 (mkChainHeader (mkHeader 10 1 0 0 0 0 0 100 100 100) 0 0 [] 0 0 [0; 0; 0; 0])) 1 None 0.
Definition sample_values (from : Z) (n : nat) : list ManagerEvent := (fun i => Externalized (sample_lcd (from + Z.of_nat i))) <$> seq 0 n.
(** Ledgers 3 to 9 are buffered, ledger 2 comes from history. *)
Definition sample_catchup : list ManagerEvent := sample_values 3 7 ++ [Replayed (sample_lcd 2)].
Definition sample_events : list ManagerEvent := sample_catchup ++ CaughtUp :: replicate 8 Posted ++ [Externalized (sample_lcd 10)].
Definition sample_manager_run (es : list ManagerEvent) : outcome (State * CatchupState * Z * list Z) :=
  m ← run_events true true 0 es sample_manager;
  Ok (mState m, mCatchupState m, getLastClosedLedgerNum m, lcd_ledgerSeq <$> mSyncingLedgers m).
Example sample_falls_behind : sample_manager_run (sample_values 3 5) = Ok (LM_CATCHING_UP_STATE, WAITING_FOR_TRIGGER_LEDGER, 1, [3; 4; 5; 6; 7]).
Proof. vm_compute. reflexivity. Qed.
Example sample_catches_up : sample_manager_run sample_catchup = Ok (LM_CATCHING_UP_STATE, APPLYING_HISTORY, 2, [3; 4; 5; 6; 7; 8; 9]).
Proof. vm_compute. reflexivity. Qed.
Example sample_back_in_sync : sample_manager_run sample_events = Ok (LM_SYNCED_STATE, NONE, 10, []).
Proof. vm_compute. reflexivity. Qed.
(** Between the last buffered ledger and the task that finds no more, a ledger that is not
    the next fails the assertion of that task. *)
Example gap_aborts :
  sample_manager_run (sample_catchup ++ CaughtUp :: replicate 7 Posted ++ [Externalized (sample_lcd 11); Posted]) =
  Throw (AssertFailure "lcd.getLedgerSeq() == mLastClosedLedger.header.ledgerSeq + 1").
Proof. vm_compute. reflexivity. Qed.
(** The command to catch up on a node that is in sync: it buffers the ledgers that follow its
    own last closed one, which are the first it has not when it has caught up. *)
Example manual_catchup_aborts :
  (m ← startCatchup (mkCatchupConfiguration 100 (3, None)) true sample_manager;
   m ← run_events true true 0 [Externalized (sample_lcd 2); Replayed (sample_lcd 2); Replayed (sample_lcd 3); CaughtUp; Posted] m;
   Ok (mState m)) =
  Throw (AssertFailure "lcd.getLedgerSeq() == mLastClosedLedger.header.ledgerSeq + 1").
Proof. vm_compute. reflexivity. Qed.

Lemma sample_manager_inv : lm_inv sample_manager.
Proof. unfold lm_inv, standing, holds_lcl, quiet. cbn. unfold hhe_seq, ch_ledgerSeq. cbn. unfold_ints. split_and!; (done || lia). Qed.

(** The environment's promises for the events of the example, computed. *)
Definition promisedb (m : LedgerManager) (e : ManagerEvent) : bool :=
  match e with
  | Externalized d =>
      (0 <? lcd_ledgerSeq d) && (lcd_ledgerSeq d <? UINT32_MAX) &&
      match mCatchupState m, mSyncingLedgers m with
      | APPLYING_BUFFERED_LEDGERS, [] => lcd_ledgerSeq d =? getLastClosedLedgerNum m + 1
      | _, _ => true
      end
  | Posted => negb (Nat.eqb (lm_posted m) 0)
  | Replayed d => match lm_catchupWork m with Some c => getLastClosedLedgerNum m <? cc_toLedger c | None => false end
  | CaughtUp =>
      match lm_catchupWork m with
      | Some c => (getLastClosedLedgerNum m =? cc_toLedger c) &&
          match cc_hash c with Some h => hhe_hash (mLastClosedLedger m) =? h | None => true end
      | None => false
      end
  | _ => false
  end.
Fixpoint all_promisedb (es : list ManagerEvent) (m : LedgerManager) : bool :=
  match es with
  | [] => true
  | e :: es => promisedb m e && match handle_event true true 0 e m with Ok m' => all_promisedb es m' | Throw _ => true end
  end.
Lemma promisedb_sound m e : promisedb m e = true -> promised m e.
Proof.
  destruct e; cbn; intros H; try discriminate H; try (destruct (lm_catchupWork m) as [c|]; [|discriminate H]); zbool.
  - split; [unfold seq_ok; lia|]. intros Hk Hl. rewrite Hk, Hl in *. by zbool.
  - intros E. by rewrite E in H.
  - by exists c.
  - exists c. split; [done|]. split; [done|]. intros h Hh. rewrite Hh in *. by zbool.
Qed.
Lemma all_promisedb_sound es m : all_promisedb es m = true -> all_promised true true 0 es m.
Proof.
  revert m. induction es as [|e es IH]; intros m; cbn; [done|]. intros [H1%promisedb_sound H2]%andb_true_iff. split; [done|].
  intros m' E. rewrite E in H2. by apply IH.
Qed.
Lemma sample_promised : all_promised true true 0 sample_events sample_manager.
Proof. apply all_promisedb_sound. vm_compute. reflexivity. Qed.

Lemma manager_runs_witness :
  fares (fun m' => lm_inv m' /\
      (existsb from_buckets sample_events = false ->
       exists l, chained (mLastClosedLedger sample_manager) l /\
         mLastClosedLedger m' = default (mLastClosedLedger sample_manager) (last l) /\ (length l <= length sample_events)%nat))
    (run_events true true 0 sample_events sample_manager).
Proof. apply (manager_runs true true 0 sample_events sample_manager sample_manager_inv sample_promised). Defined.

(** From history to the end. *)
Definition sample_applying : LedgerManager :=
  mkLedgerManager LM_CATCHING_UP_STATE APPLYING_HISTORY [sample_lcd 3; sample_lcd 4] 9
    (mkHistoryEntry 1002 (mkChainHeader (mkHeader 10 2 0 0 0 0 0 100 100 100) 1001 0 [] 0 0 [0; 0; 0; 0])) 2
    (Some (mkCatchupConfiguration 0 (2, Some 1002))) 0.
