(* ===== verification/LedgerChain.v ===== *)
(** Verifying the chain of ledger headers that catch-up has downloaded:
    [src/src/catchup/VerifyLedgerChainWork.cpp].

    Files of an archive are what [XDRInputFileStream] reads from them: a list of
    entries.  The work scheduler calls [onSuccess]
    until the state is not [WORK_RUNNING]. *)

From S2P Require Import Prelude Numeric OfferMath Types Sorting OfferOrder LedgerTxn LedgerState TransactionUtils.
From S2P Require Import OfferExchange Operations Payments ManageOffers Transactions TxSets LedgerClose Checkpoints LedgerManager.

Inductive LedgerVerificationStatus :=
  | VERIFY_STATUS_OK | VERIFY_STATUS_ERR_BAD_HASH | VERIFY_STATUS_ERR_BAD_LEDGER_VERSION
  | VERIFY_STATUS_ERR_OVERSHOT | VERIFY_STATUS_ERR_UNDERSHOT | VERIFY_STATUS_ERR_MISSING_ENTRIES.
(** [Work::State] *)
Inductive ChainWorkState :=
  WORK_PENDING | WORK_RUNNING | WORK_SUCCESS | WORK_FAILURE_RETRY | WORK_FAILURE_RAISE | WORK_FAILURE_FATAL.
#[export] Instance VerificationStatus_eq_dec : EqDecision LedgerVerificationStatus.
Proof. solve_decision. Defined.

(** * VerifyLedgerChainWork *)
Record VerifyLedgerChainWork := mkVerifyWork {
  mCurrCheckpoint : Z;
  mVerifiedAhead : LedgerNumHashPair;
  mVerifiedLedgerRangeStart : LedgerHeaderHistoryEntry }.
(** An entry, default constructed. *)
Definition noEntry : LedgerHeaderHistoryEntry := noHeader.

Section Verify.
Context `{Closer : LedgerCloser} (accelerated : bool).
Context (mRange : LedgerRange) (mLastClosed mTrustedEndLedger : LedgerNumHashPair).
(** The files that were downloaded, by checkpoint. *)
Context (ledgerFile : Z -> list LedgerHeaderHistoryEntry).

(** [assert(lastClosedLedger.second)] of the constructor makes this safe. *)
Definition lastClosedHash : Hash := default 0 mLastClosed.2.
Definition makeVerifyWork : outcome VerifyLedgerChainWork :=
  _ ← cassert "range.last() == ledgerRangeEnd.first" (lr_last mRange =? mTrustedEndLedger.1);
  _ ← cassert "lastClosedLedger.second" (match mLastClosed.2 with Some _ => true | None => false end);
  Ok (mkVerifyWork (checkpointContainingLedger accelerated (lr_last mRange)) (0, None) noEntry).

Definition verifyLedgerHistoryEntry (hhe : LedgerHeaderHistoryEntry) : LedgerVerificationStatus :=
  if negb (header_hash (hhe_header hhe) =? hhe_hash hhe) then VERIFY_STATUS_ERR_BAD_HASH else VERIFY_STATUS_OK.
Definition verifyLedgerHistoryLink (prev : Hash) (curr : LedgerHeaderHistoryEntry) : LedgerVerificationStatus :=
  match verifyLedgerHistoryEntry curr with
  | VERIFY_STATUS_OK =>
      if negb (prev =? ch_previousLedgerHash (hhe_header curr)) then VERIFY_STATUS_ERR_BAD_HASH else VERIFY_STATUS_OK
  | entryResult => entryResult
  end.
Definition verifyLastLedgerInCheckpoint (ledger : LedgerHeaderHistoryEntry) (verifiedAhead : LedgerNumHashPair)
    : outcome LedgerVerificationStatus :=
  _ ← cassert "ledger.header.ledgerSeq == verifiedAhead.first" (hhe_seq ledger =? verifiedAhead.1);
  match verifiedAhead.2 with
  | None => Ok VERIFY_STATUS_OK
  | Some trustedHash =>
      if negb (hhe_hash ledger =? trustedHash) then Ok VERIFY_STATUS_ERR_BAD_HASH else Ok VERIFY_STATUS_OK
  end.

(** The first part of the loop: the local last closed ledger and the next. *)
Definition verifyLocal (curr : LedgerHeaderHistoryEntry) : LedgerVerificationStatus :=
  if hhe_seq curr =? mLastClosed.1 then
    if negb (header_hash (hhe_header curr) =? lastClosedHash) then VERIFY_STATUS_ERR_BAD_HASH else VERIFY_STATUS_OK
  else if hhe_seq curr =? u32 (mLastClosed.1 + 1) then verifyLedgerHistoryLink lastClosedHash curr
  else VERIFY_STATUS_OK.
(** The second: the first entry of a file, or the link to the entry before. *)
Definition verifyStep (beginCheckpoint : bool) (prev curr : LedgerHeaderHistoryEntry) : LedgerVerificationStatus :=
  if beginCheckpoint then verifyLedgerHistoryEntry curr
  else
    let expectedSeq := u32 (hhe_seq prev + 1) in
    if hhe_seq curr <? expectedSeq then VERIFY_STATUS_ERR_UNDERSHOT
    else if expectedSeq <? hhe_seq curr then VERIFY_STATUS_ERR_OVERSHOT
    else verifyLedgerHistoryLink (hhe_hash prev) curr.
(** The loop: the status, [curr] and [mVerifiedAhead] when it ends. *)
Fixpoint verifyEntries (beginCheckpoint : bool) (prev curr : LedgerHeaderHistoryEntry) (ahead : LedgerNumHashPair)
    (hdrIn : list LedgerHeaderHistoryEntry) : LedgerVerificationStatus * LedgerHeaderHistoryEntry * LedgerNumHashPair :=
  match hdrIn with
  | [] => (VERIFY_STATUS_OK, curr, ahead)
  | curr :: hdrIn =>
      if CURRENT_LEDGER_PROTOCOL_VERSION <? ch_ledgerVersion (hhe_header curr)
      then (VERIFY_STATUS_ERR_BAD_LEDGER_VERSION, curr, ahead)
      else
      match verifyLocal curr with
      | VERIFY_STATUS_OK =>
          match verifyStep beginCheckpoint prev curr with
          | VERIFY_STATUS_OK =>
              let ahead := if beginCheckpoint
                           then (u32 (hhe_seq curr - 1), Some (ch_previousLedgerHash (hhe_header curr))) else ahead in
              if hhe_seq curr =? lr_last mRange then (VERIFY_STATUS_OK, curr, ahead)
              else verifyEntries false curr curr ahead hdrIn
          | status => (status, curr, ahead)
          end
      | status => (status, curr, ahead)
      end
  end.

Definition verifyHistoryOfSingleCheckpoint (w : VerifyLedgerChainWork)
    : outcome (LedgerVerificationStatus * VerifyLedgerChainWork) :=
  let nextCheckpointFirstLedger := mVerifiedAhead w in
  let '(status, curr, ahead) := verifyEntries true noEntry noEntry (mVerifiedAhead w) (ledgerFile (mCurrCheckpoint w)) in
  let w := mkVerifyWork (mCurrCheckpoint w) ahead (mVerifiedLedgerRangeStart w) in
  match status with
  | VERIFY_STATUS_OK =>
      if negb (hhe_seq curr =? mCurrCheckpoint w) && negb (hhe_seq curr =? lr_last mRange)
      then Ok (VERIFY_STATUS_ERR_MISSING_ENTRIES, w)
      else
        next ← (if hhe_seq curr =? lr_last mRange then
                  _ ← cassert "nextCheckpointFirstLedger.first == 0" (nextCheckpointFirstLedger.1 =? 0);
                  Ok mTrustedEndLedger
                else
                  _ ← cassert "nextCheckpointFirstLedger.second"
                        (match nextCheckpointFirstLedger.2 with Some _ => true | None => false end);
                  _ ← cassert "nextCheckpointFirstLedger.first != 0" (negb (nextCheckpointFirstLedger.1 =? 0));
                  Ok nextCheckpointFirstLedger);
        verifyTrustedHash ← verifyLastLedgerInCheckpoint curr next;
        match verifyTrustedHash with
        | VERIFY_STATUS_OK =>
            Ok (VERIFY_STATUS_OK,
                if mCurrCheckpoint w =? checkpointContainingLedger accelerated (lr_first mRange)
                then mkVerifyWork (mCurrCheckpoint w) ahead curr else w)
        | _ => Ok (verifyTrustedHash, w)
        end
  | _ => Ok (status, w)
  end.
Definition verify_onSuccess (w : VerifyLedgerChainWork) : outcome (ChainWorkState * VerifyLedgerChainWork) :=
  let firstCheckpoint := checkpointContainingLedger accelerated (lr_first mRange) in
  if mCurrCheckpoint w <? firstCheckpoint
  then Throw (RuntimeError "Verification undershot first ledger in the range.")
  else
    '(status, w) ← verifyHistoryOfSingleCheckpoint w;
    match status with
    | VERIFY_STATUS_OK =>
        if mCurrCheckpoint w =? firstCheckpoint then Ok (WORK_SUCCESS, w)
        else Ok (WORK_RUNNING, mkVerifyWork (u32 (mCurrCheckpoint w - getCheckpointFrequency accelerated))
                                 (mVerifiedAhead w) (mVerifiedLedgerRangeStart w))
    | _ => Ok (WORK_FAILURE_FATAL, w)
    end.
(** As often as the scheduler calls it. *)
Fixpoint verifyChain (calls : nat) (w : VerifyLedgerChainWork) : outcome (ChainWorkState * VerifyLedgerChainWork) :=
  match calls with
  | O => Ok (WORK_RUNNING, w)
  | S calls =>
      '(st, w) ← verify_onSuccess w;
      match st with WORK_RUNNING => verifyChain calls w | _ => Ok (st, w) end
  end.
End Verify.

(** * What a verified chain is *)
Section Verified.
Context `{Closer : LedgerCloser} (accelerated : bool).
Context (mRange : LedgerRange) (mLastClosed mTrustedEndLedger : LedgerNumHashPair).
Context (ledgerFile : Z -> list LedgerHeaderHistoryEntry).
#[local] Abbreviation entries := (verifyEntries mRange mLastClosed).
#[local] Abbreviation single := (verifyHistoryOfSingleCheckpoint accelerated mRange mLastClosed mTrustedEndLedger ledgerFile).

(** An entry that is what it says, and agrees with what the node has closed. *)
Definition good_entry (e : LedgerHeaderHistoryEntry) : Prop :=
  hhe_hash e = header_hash (hhe_header e) /\
  ch_ledgerVersion (hhe_header e) <= CURRENT_LEDGER_PROTOCOL_VERSION /\
  (hhe_seq e = mLastClosed.1 -> hhe_hash e = lastClosedHash mLastClosed) /\
  (hhe_seq e <> mLastClosed.1 -> hhe_seq e = u32 (mLastClosed.1 + 1) ->
   ch_previousLedgerHash (hhe_header e) = lastClosedHash mLastClosed).
(** A list of them that is a chain. *)
Definition good_chain (l : list LedgerHeaderHistoryEntry) : Prop :=
  Forall good_entry l /\ match l with [] => True | e :: l => chained e l end.

Lemma good_single e : good_entry e -> good_chain [e].
Proof using. intros H. split; [by apply Forall_singleton|done]. Qed.
Lemma verifyEntry_ok e : verifyLedgerHistoryEntry e = VERIFY_STATUS_OK -> hhe_hash e = header_hash (hhe_header e).
Proof using. unfold verifyLedgerHistoryEntry. destruct (Z.eqb_spec (header_hash (hhe_header e)) (hhe_hash e)); [congruence|done]. Qed.
Lemma verifyLink_ok h e :
  verifyLedgerHistoryLink h e = VERIFY_STATUS_OK ->
  hhe_hash e = header_hash (hhe_header e) /\ ch_previousLedgerHash (hhe_header e) = h.
Proof using.
  unfold verifyLedgerHistoryLink. destruct (verifyLedgerHistoryEntry e) eqn:E; try done. apply verifyEntry_ok in E.
  destruct (Z.eqb_spec h (ch_previousLedgerHash (hhe_header e))); [|done]. by split.
Qed.
Lemma verifyStep_ok b prev e :
  verifyStep b prev e = VERIFY_STATUS_OK ->
  hhe_hash e = header_hash (hhe_header e) /\ (b = false -> on_top prev e).
Proof using.
  unfold verifyStep. destruct b; [intros H%verifyEntry_ok; by split|]. cbv zeta.
  destruct (Z.ltb_spec (hhe_seq e) (u32 (hhe_seq prev + 1))); [done|].
  destruct (Z.ltb_spec (u32 (hhe_seq prev + 1)) (hhe_seq e)); [done|]. intros [H1 H2]%verifyLink_ok.
  split; [done|]. intros _. split; [lia|]. by split.
Qed.
Lemma verified_good b prev e :
  (CURRENT_LEDGER_PROTOCOL_VERSION <? ch_ledgerVersion (hhe_header e)) = false ->
  verifyLocal mLastClosed e = VERIFY_STATUS_OK -> verifyStep b prev e = VERIFY_STATUS_OK -> good_entry e.
Proof using.
  intros Hv Hl [Hs _]%verifyStep_ok. unfold verifyLocal in Hl. split; [done|]. split; [by apply Z.ltb_ge|].
  destruct (Z.eqb_spec (hhe_seq e) mLastClosed.1) as [E|E].
  - destruct (Z.eqb_spec (header_hash (hhe_header e)) (lastClosedHash mLastClosed)); [|done]. split; [congruence|done].
  - split; [done|]. intros _ E2. rewrite (proj2 (Z.eqb_eq _ _) E2) in Hl. by apply verifyLink_ok in Hl as [_ ?].
Qed.

(** What the loop has read when it ends without an error. *)
Lemma entries_ok b prev curr ahead l curr' ahead' :
  entries b prev curr ahead l = (VERIFY_STATUS_OK, curr', ahead') ->
  l = [] /\ curr' = curr /\ ahead' = ahead \/
  exists e es, good_chain (e :: es) /\ (b = false -> on_top prev e) /\ curr' = default e (last es) /\
    ahead' = (if b then (u32 (hhe_seq e - 1), Some (ch_previousLedgerHash (hhe_header e))) else ahead) /\
    (e :: es) `prefix_of` l.
Proof using.
  revert b prev curr ahead. induction l as [|e l IH]; intros b prev curr ahead; cbn [verifyEntries]; [intros [= <- <-]; by left|].
  destruct (_ <? _) eqn:Ev; [done|]. destruct (verifyLocal mLastClosed e) eqn:El; try done.
  destruct (verifyStep b prev e) eqn:Es; try done. pose proof (verified_good _ _ _ Ev El Es) as Hg.
  apply verifyStep_ok in Es as [_ Hon]. intros H. right. destruct (hhe_seq e =? lr_last mRange).
  - injection H as <- <-. exists e, []. split; [by apply good_single|]. split; [done|]. split; [done|]. split; [done|].
    apply prefix_cons, prefix_nil.
  - apply IH in H as [(-> & -> & ->)|(e2 & es & [Hf Hc] & Hon2 & -> & -> & Hp)].
    + exists e, []. split; [by apply good_single|]. split; [done|]. split; [done|]. split; [done|]. done.
    + exists e, (e2 :: es). split; [split; [by constructor|split; [by apply Hon2|exact Hc]]|]. split; [done|].
      split; [rewrite last_cons; by destruct (last es)|]. split; [done|]. by apply prefix_cons.
Qed.
(** A checkpoint that verifies: its chain ends at the end of the range, with the hash that
    is trusted, or just below what was verified before. *)
Lemma single_ok w w' :
  hhe_seq noEntry <> mCurrCheckpoint w -> hhe_seq noEntry <> lr_last mRange ->
  single w = Ok (VERIFY_STATUS_OK, w') ->
  exists e es, let top := default e (last es) in
    good_chain (e :: es) /\ (e :: es) `prefix_of` ledgerFile (mCurrCheckpoint w) /\ mCurrCheckpoint w' = mCurrCheckpoint w /\
    mVerifiedAhead w' = (u32 (hhe_seq e - 1), Some (ch_previousLedgerHash (hhe_header e))) /\
    (mCurrCheckpoint w = checkpointContainingLedger accelerated (lr_first mRange) -> mVerifiedLedgerRangeStart w' = top) /\
    (hhe_seq top = lr_last mRange /\ hhe_seq top = mTrustedEndLedger.1 /\ (forall h, mTrustedEndLedger.2 = Some h -> hhe_hash top = h) \/
     hhe_seq top <> lr_last mRange /\ hhe_seq top = mCurrCheckpoint w /\ mVerifiedAhead w = (hhe_seq top, Some (hhe_hash top))).
Proof using.
  intros Hn1 Hn2. unfold verifyHistoryOfSingleCheckpoint.
  destruct (entries true noEntry noEntry _ _) as [[status curr] ahead] eqn:E. destruct status; try done.
  destruct (entries_ok _ _ _ _ _ _ _ E) as [(_ & -> & _)|(e & es & Hg & _ & Etop & -> & Hp)]; clear E.
  { rewrite (proj2 (Z.eqb_neq (hhe_seq noEntry) _)) by done. cbn [mCurrCheckpoint]. by rewrite (proj2 (Z.eqb_neq _ (lr_last mRange))) by done. }
  cbn [mCurrCheckpoint mVerifiedLedgerRangeStart]. intros H. exists e, es. cbn zeta. rewrite <- Etop.
  destruct (Z.eqb_spec (hhe_seq curr) (lr_last mRange)) as [El|El].
  - rewrite andb_false_r in H. destruct (Z.eqb_spec (mVerifiedAhead w).1 0); [|done]. cbn [cassert mbind outcome_bind] in H.
    unfold verifyLastLedgerInCheckpoint in H. destruct (Z.eqb_spec (hhe_seq curr) mTrustedEndLedger.1) as [Et|]; [|done].
    cbn [cassert mbind outcome_bind] in H. destruct mTrustedEndLedger.2 as [h|] eqn:Eh.
    + destruct (Z.eqb_spec (hhe_hash curr) h); [|done]. cbn in H. injection H as <-. destruct (Z.eqb_spec (mCurrCheckpoint w) (checkpointContainingLedger accelerated (lr_first mRange)));
        (split_and!; try done; left; split_and!; [done|done|]; by intros ? [= <-]).
    + cbn in H. injection H as <-. destruct (Z.eqb_spec (mCurrCheckpoint w) (checkpointContainingLedger accelerated (lr_first mRange)));
        (split_and!; try done; left; by split_and!).
  - destruct (Z.eqb_spec (hhe_seq curr) (mCurrCheckpoint w)) as [Ec|]; [|done]. cbn [andb negb] in H.
    destruct (mVerifiedAhead w) as [n [h|]] eqn:Ea; [|done]. cbn [fst snd] in *. cbn [cassert mbind outcome_bind] in H.
    destruct (Z.eqb_spec n 0); [done|]. cbn [negb cassert mbind outcome_bind] in H.
    unfold verifyLastLedgerInCheckpoint in H. cbn [fst snd] in H. destruct (Z.eqb_spec (hhe_seq curr) n) as [En|]; [|done].
    cbn [cassert mbind outcome_bind] in H. destruct (Z.eqb_spec (hhe_hash curr) h) as [Eh|]; [|done]. cbn in H. injection H as <-.
    destruct (Z.eqb_spec (mCurrCheckpoint w) (checkpointContainingLedger accelerated (lr_first mRange)));
      (split_and!; try done; right; split_and!; [done|done|]; by rewrite En, Eh).
Qed.

(** ** The whole chain *)
Hypothesis (Hrange : 0 < lr_first mRange <= lr_last mRange) (Hreach : in_reach accelerated (lr_last mRange)).
(** A ledger number in a file is a [uint32]. *)
Hypothesis (Hfiles : forall c e, e ∈ ledgerFile c -> in_u32 (hhe_seq e)).

Lemma chained_app f fs e es :
  chained f fs -> on_top (default f (last fs)) e -> chained e es -> chained f (fs ++ e :: es).
Proof using.
  revert f. induction fs as [|g fs IH]; intros f; cbn; [done|]. intros [Hg Hc] Hon He. split; [done|]. apply IH; [done| |done].
  rewrite last_cons in Hon. by destruct (last fs).
Qed.
Definition chain_top (l : list LedgerHeaderHistoryEntry) (top : LedgerHeaderHistoryEntry) : Prop :=
  last l = Some top /\ hhe_seq top = lr_last mRange /\ (forall h, mTrustedEndLedger.2 = Some h -> hhe_hash top = h).
(** What has been verified, from the end of the range down. *)
Definition verified (l : list LedgerHeaderHistoryEntry) (w : VerifyLedgerChainWork) : Prop :=
  good_chain l /\ (forall e, e ∈ l -> exists c, e ∈ ledgerFile c) /\
  match l with
  | [] => mVerifiedAhead w = (0, None)
  | e :: _ => mVerifiedAhead w = (u32 (hhe_seq e - 1), Some (ch_previousLedgerHash (hhe_header e))) /\ exists top, chain_top l top
  end.
Lemma verified_start c x : verified [] (mkVerifyWork c (0, None) x).
Proof using. split; [by split|]. split; [by intros e He%elem_of_nil|done]. Qed.
Lemma u32_pred_succ n : in_u32 n -> n = u32 (u32 (n - 1) + 1).
Proof using. unfold in_u32, u32. intros. rewrite Zplus_mod_idemp_l. rewrite Z.mod_small; unfold_ints; lia. Qed.
Lemma good_app l l' e top :
  good_chain (l ++ [top]) -> good_chain (e :: l') -> on_top top e -> good_chain ((l ++ [top]) ++ e :: l').
Proof using.
  intros [H1 H2] [H3 H4] Hon. split; [by apply Forall_app|]. destruct l as [|f l]; cbn in *; [done|].
  apply chained_app; [exact H2| |exact H4]. by rewrite last_snoc.
Qed.
Lemma onSuccess_verified w l st w' :
  verified l w ->
  verify_onSuccess accelerated mRange mLastClosed mTrustedEndLedger ledgerFile w = Ok (st, w') ->
  st = WORK_RUNNING \/ st = WORK_SUCCESS ->
  exists l', verified l' w' /\
    (st = WORK_SUCCESS -> mVerifiedLedgerRangeStart w' ∈ l' /\
       (hhe_seq (mVerifiedLedgerRangeStart w') = checkpointContainingLedger accelerated (lr_first mRange) \/
        hhe_seq (mVerifiedLedgerRangeStart w') = lr_last mRange)).
Proof using Hrange Hreach Hfiles.
  intros (Hg & Hin & Ha) Hrun Hst. unfold verify_onSuccess in Hrun. cbv zeta in Hrun.
  destruct (Z.ltb_spec (mCurrCheckpoint w) (checkpointContainingLedger accelerated (lr_first mRange))) as [|Hc]; [done|].
  destruct (checkpointContainingLedger_spec accelerated (lr_first mRange)) as ([Hlow _] & _); [unfold in_reach in *; lia|].
  destruct (single w) as [[status w1]|] eqn:E; [|done]. cbn [mbind outcome_bind] in Hrun.
  destruct status; try (injection Hrun as <- <-; by destruct Hst).
  apply single_ok in E; [|cbn; unfold hhe_seq; cbn; lia|unfold hhe_seq; cbn; lia].
  destruct E as (e & es & Hge & Hp & Hcur & Hahead & Hstart & Htop). set (top := default e (last es)) in *.
  assert (Hlast : last (e :: es) = Some top) by (rewrite last_cons; unfold top; by destruct (last es)).
  assert (Hmem : forall x, x ∈ e :: es -> exists c, x ∈ ledgerFile c).
  { intros x Hx. exists (mCurrCheckpoint w). destruct Hp as [k ->]. apply elem_of_app. by left. }
  assert (Hnew : exists l', verified l' w1 /\ top ∈ l').
  { destruct Htop as [(H1 & H2 & H3)|(H1 & H2 & H3)].
    - exists (e :: es). split; [|by apply last_Some_elem_of]. split; [exact Hge|]. split; [exact Hmem|]. split; [exact Hahead|].
      exists top. by split.
    - destruct l as [|f l]; [rewrite Ha in H3; discriminate H3|]. destruct Ha as [Ha [t Ht]]. rewrite Ha in H3.
      injection H3 as E1 E2. exists ((e :: es) ++ f :: l). split; [|apply elem_of_app; left; by apply last_Some_elem_of].
      destruct (Hin f) as [c Hf]; [by left|]. apply Hfiles in Hf. pose proof (u32_pred_succ _ Hf) as E3. rewrite E1 in E3.
      split.
      + apply last_Some in Hlast as [k Ek]. rewrite Ek in *. apply good_app; [done..|]. split; [done|]. split; [done|].
        destruct Hg as [Hg _]. by inversion Hg as [|? ? [Hf1 _]].
      + split; [intros x [Hx|Hx]%elem_of_app; auto|]. cbn. split; [exact Hahead|]. exists t. split; [|by apply Ht].
        rewrite last_cons, last_app. by rewrite (proj1 Ht). }
  destruct Hnew as (l' & Hv & Hmt). destruct (Z.eqb_spec (mCurrCheckpoint w1) (checkpointContainingLedger accelerated (lr_first mRange))) as [Ec|];
    injection Hrun as <- <-.
  - exists l'. split; [done|]. intros _. rewrite Hcur in Ec. rewrite (Hstart Ec). split; [done|].
    destruct Htop as [(H1 & _)|(_ & H2 & _)]; [by right|left; congruence].
  - exists l'. split; [|by intros [=]]. exact Hv.
Qed.
Lemma verifyChain_sound calls w l w' :
  verified l w -> verifyChain accelerated mRange mLastClosed mTrustedEndLedger ledgerFile calls w = Ok (WORK_SUCCESS, w') ->
  exists l' top, good_chain l' /\ chain_top l' top /\ (forall e, e ∈ l' -> exists c, e ∈ ledgerFile c) /\
    mVerifiedLedgerRangeStart w' ∈ l' /\
    (hhe_seq (mVerifiedLedgerRangeStart w') = checkpointContainingLedger accelerated (lr_first mRange) \/
     hhe_seq (mVerifiedLedgerRangeStart w') = lr_last mRange).
Proof using Hrange Hreach Hfiles.
  revert w l. induction calls as [|calls IH]; intros w l Hv; cbn [verifyChain]; [done|].
  destruct (verify_onSuccess _ _ _ _ _ w) as [[st w1]|] eqn:E; [|done]. cbn [mbind outcome_bind].
  destruct st; try done.
  - destruct (onSuccess_verified _ _ _ _ Hv E) as (l' & Hv' & _); [by left|]. by apply (IH w1 l').
  - intros [= ->]. destruct (onSuccess_verified _ _ _ _ Hv E) as (l' & (H1 & H2 & H3) & H4); [by right|].
    destruct (H4 eq_refl) as [H5 H6]. destruct l' as [|f l']; [by apply elem_of_nil in H5|]. destruct H3 as [_ [top Ht]].
    exists (f :: l'), top. by split_and!.
Qed.

(** ** The network's headers *)
Context (N : Z -> LedgerHeaderHistoryEntry).
Hypothesis (HN : forall i, 0 < i < UINT32_MAX -> hhe_seq (N i) = i /\ hhe_hash (N i) = header_hash (hhe_header (N i)) /\
  (1 < i -> ch_previousLedgerHash (hhe_header (N i)) = hhe_hash (N (i - 1)))).
(** Nobody finds two headers with one hash. *)
Hypothesis (Hinj : forall h h', header_hash h = header_hash h' -> h = h').

Lemma same_hash e i : 0 < i < UINT32_MAX -> good_entry e -> hhe_hash e = hhe_hash (N i) -> e = N i.
Proof using HN Hinj.
  intros Hi (He & _) H. destruct (HN i Hi) as (_ & Hh & _). destruct e as [h hd]. cbn in *. destruct (N i) as [h' hd'] eqn:E. cbn in *.
  subst h'. rewrite (Hinj hd hd'); congruence.
Qed.
(** Counting from the end of a chain that ends in one of the network's entries. *)
Lemma chain_is_networks l n k e :
  good_chain l -> 0 < n < UINT32_MAX -> last l = Some (N n) -> reverse l !! k = Some e -> Z.of_nat k < n -> e = N (n - Z.of_nat k).
Proof using HN Hinj.
  intros Hg Hn Hlast Hk. revert e Hk. induction k as [|k IH]; intros e Hk Hkn.
  { rewrite <- head_lookup, head_reverse, Hlast in Hk. injection Hk as <-. f_equal. lia. }
  destruct (reverse l !! k) as [e'|] eqn:Ek.
  2:{ apply lookup_ge_None in Ek. apply lookup_lt_Some in Hk. lia. }
  pose proof (IH e' eq_refl ltac:(lia)) as ->. assert (Hon : on_top e (N (n - Z.of_nat k)) /\ good_entry e).
  { rewrite !reverse_lookup_Some in *. destruct Hk as [Hk Hlen]. destruct Ek as [Ek Hlen'].
    split; [|destruct Hg as [Hg _]; by apply (Forall_lookup_1 _ _ _ _ Hg Hk)].
    replace (length l - S k)%nat with (S (length l - S (S k))) in Ek by lia.
    destruct Hg as [_ Hc]. destruct l as [|f l]; [done|]. revert Hk Ek Hc.
    generalize (length (f :: l) - S (S k))%nat (N (n - Z.of_nat k)). clear. intros i x. revert f l.
    induction i as [|i IHi]; intros f l Hk Ek Hc; destruct l as [|g l]; try done; cbn in Hc.
    - injection Hk as <-. injection Ek as <-. apply Hc.
    - exact (IHi g l Hk Ek (proj2 Hc)). }
  destruct Hon as [(_ & Hp & _) Hge]. destruct (HN (n - Z.of_nat k) ltac:(lia)) as (_ & _ & Hprev).
  apply same_hash; [lia|done|]. rewrite <- Hp, Hprev by lia. f_equal. f_equal. lia.
Qed.

End Verified.

(** * Every verification ends, and honest archives verify *)
Section Honest.
Context `{Closer : LedgerCloser} (accelerated : bool).
Context (mRange : LedgerRange) (mLastClosed mTrustedEndLedger : LedgerNumHashPair).
Context (ledgerFile : Z -> list LedgerHeaderHistoryEntry).
Hypothesis (Hrange : 0 < lr_first mRange <= lr_last mRange) (Hreach : in_reach accelerated (lr_last mRange)).
#[local] Abbreviation freq := (getCheckpointFrequency accelerated).
#[local] Abbreviation firstCheckpoint := (checkpointContainingLedger accelerated (lr_first mRange)).
#[local] Abbreviation lastCheckpoint := (checkpointContainingLedger accelerated (lr_last mRange)).
#[local] Abbreviation chain := (verifyChain accelerated mRange mLastClosed mTrustedEndLedger ledgerFile).

Lemma checkpoints_between : exists k, lastCheckpoint = firstCheckpoint + Z.of_nat k * freq.
Proof using Hrange Hreach.
  destruct (checkpointContainingLedger_spec accelerated _ Hreach) as (_ & H1 & _).
  assert (Hr : in_reach accelerated (lr_first mRange)) by (unfold in_reach in *; lia).
  destruct (checkpointContainingLedger_spec accelerated _ Hr) as (_ & H2 & _). pose proof (freq_cases accelerated) as Hf.
  pose proof (checkpointContainingLedger_mono accelerated _ _ Hr Hreach ltac:(lia)) as Hle.
  apply Z.mod_divide in H1 as [p Hp]; [|lia]. apply Z.mod_divide in H2 as [q Hq]; [|lia].
  exists (Z.to_nat (p - q)). rewrite Z2Nat.id by nia. lia.
Qed.
Lemma firstCheckpoint_bounds : freq - 1 <= firstCheckpoint /\ lr_first mRange <= firstCheckpoint < 4294967296 /\ lr_last mRange <= lastCheckpoint < lr_last mRange + freq /\
  lastCheckpoint < 4294967296.
Proof using Hrange Hreach.
  assert (Hr : in_reach accelerated (lr_first mRange)) by (unfold in_reach in *; lia).
  destruct (checkpointContainingLedger_spec accelerated _ Hr) as (H1 & H2 & _). pose proof (freq_cases accelerated) as Hf.
  destruct (checkpointContainingLedger_spec accelerated _ Hreach) as (H3 & _).
  apply Z.mod_divide in H2 as [q Hq]; [|lia]. unfold in_reach in *. split; [nia|]. lia.
Qed.
(** What a call can come to. *)
Definition finished (o : outcome (ChainWorkState * VerifyLedgerChainWork)) : Prop :=
  match o with
  | Ok (WORK_RUNNING, _) => False
  | Ok _ => True
  | Throw e => exists what, e = AssertFailure what
  end.
Definition asserts {A} (P : A -> Prop) (o : outcome A) : Prop :=
  match o with Ok a => P a | Throw e => exists what, e = AssertFailure what end.
Lemma asserts_bind {A B} (o : outcome A) (f : A -> outcome B) P Q : asserts P o -> (forall a, P a -> asserts Q (f a)) -> asserts Q (o ≫= f).
Proof using. destruct o; cbn; auto. Qed.
Lemma asserts_cassert {B} what b (f : unit -> outcome B) Q : asserts Q (f tt) -> asserts Q (cassert what b ≫= f).
Proof using. destruct b; [done|]. intros _. by eexists. Qed.
Lemma single_asserts w :
  asserts (fun r => mCurrCheckpoint r.2 = mCurrCheckpoint w)
    (verifyHistoryOfSingleCheckpoint accelerated mRange mLastClosed mTrustedEndLedger ledgerFile w).
Proof using.
  unfold verifyHistoryOfSingleCheckpoint, verifyLastLedgerInCheckpoint.
  destruct (verifyEntries _ _ _ _ _ _ _) as [[status curr] ahead]. cbn zeta. destruct status; try done.
  destruct (_ && _); [done|]. apply (asserts_bind _ _ (fun _ => True)).
  { destruct (_ =? _); repeat apply asserts_cassert; done. }
  intros next _. apply (asserts_bind _ _ (fun _ => True)).
  { apply asserts_cassert. destruct next.2; [|done]. by destruct (negb _). }
  intros st _. destruct st; try done. by destruct (_ =? _).
Qed.
Lemma chain_settles k w :
  mCurrCheckpoint w = firstCheckpoint + Z.of_nat k * freq -> mCurrCheckpoint w < 4294967296 -> finished (chain (S k) w).
Proof using Hrange Hreach.
  pose proof (freq_cases accelerated) as Hf. destruct firstCheckpoint_bounds as (Hb & _).
  revert w. induction k as [|k IH]; intros w Hw Hlt; cbn [verifyChain]; unfold verify_onSuccess; cbv zeta;
    rewrite (proj2 (Z.ltb_ge _ _)) by lia.
  all: pose proof (single_asserts w) as Hc; destruct (verifyHistoryOfSingleCheckpoint _ _ _ _ _ w) as [[status w1]|e]; [|exact Hc]; cbn [asserts snd] in Hc.
  all: cbn [mbind outcome_bind]; destruct status; try done; rewrite Hc.
  - by rewrite (proj2 (Z.eqb_eq _ _)) by lia.
  - rewrite (proj2 (Z.eqb_neq _ _)) by nia. cbn [mbind outcome_bind]. apply IH; cbn [mCurrCheckpoint]; rewrite u32_exact by nia; lia.
Qed.
Lemma range_count : exists cr k, checkpointRangeOf accelerated mRange = Ok cr /\ Z.to_nat (cr_count cr) = S k /\
  lastCheckpoint = firstCheckpoint + Z.of_nat k * freq.
Proof using Hrange Hreach.
  destruct (checkpointRangeOf_ok accelerated mRange Hrange Hreach) as [cr Hcr]. destruct checkpoints_between as [k Hk].
  exists cr, k. split; [done|]. split; [|done]. unfold checkpointRangeOf, makeCheckpointRange in Hcr. inv_ok Hcr.
  pose proof (freq_cases accelerated) as Hf. destruct firstCheckpoint_bounds as (? & ? & ? & ?). unfold cr_count. cbn. rewrite Hk.
  replace (firstCheckpoint + Z.of_nat k * freq - firstCheckpoint) with (Z.of_nat k * freq) by lia.
  rewrite (u32_exact (Z.of_nat k * freq)) by lia. rewrite Z.div_mul by lia. rewrite u32_exact by nia. lia.
Qed.
(** Verification ends, whatever an archive holds: after as many calls as there are checkpoints
    in the range the work has succeeded or failed, or one of its assertions did; it never
    goes below the first checkpoint of the range. *)
Theorem verification_ends w0 :
  makeVerifyWork accelerated mRange mLastClosed mTrustedEndLedger = Ok w0 ->
  exists cr, checkpointRangeOf accelerated mRange = Ok cr /\ finished (chain (Z.to_nat (cr_count cr)) w0).
Proof using Hrange Hreach.
  intros Hmake. destruct range_count as (cr & k & Hcr & Hcount & Hk). exists cr. rewrite Hcount. split; [done|].
  unfold makeVerifyWork in Hmake. inv_ok Hmake. pose proof firstCheckpoint_bounds. apply chain_settles; cbn; lia.
Qed.

(** ** An honest archive *)
Section Archive.
Context (N : Z -> LedgerHeaderHistoryEntry).
(** The network's headers, of versions that the node knows. *)
Hypothesis (HN : forall i, 0 < i < UINT32_MAX -> hhe_seq (N i) = i /\ hhe_hash (N i) = header_hash (hhe_header (N i)) /\
  ch_ledgerVersion (hhe_header (N i)) <= CURRENT_LEDGER_PROTOCOL_VERSION /\
  (1 < i -> ch_previousLedgerHash (hhe_header (N i)) = hhe_hash (N (i - 1)))).
(** The first ledger of a checkpoint. *)
Definition firstOf (c : Z) : Z := Z.max 1 (c - freq + 1).
Definition honest_file (c : Z) : list LedgerHeaderHistoryEntry := N <$> seqZ (firstOf c) (c - firstOf c + 1).
Hypothesis (Hfile : forall c, (c + 1) mod freq = 0 -> firstCheckpoint <= c <= lastCheckpoint -> ledgerFile c = honest_file c).
Hypothesis (Hlcl : 0 < mLastClosed.1 < UINT32_MAX - 1 /\ mLastClosed.2 = Some (hhe_hash (N mLastClosed.1))).
Hypothesis (Htrusted : mTrustedEndLedger.1 = lr_last mRange /\
  forall h, mTrustedEndLedger.2 = Some h -> h = hhe_hash (N (lr_last mRange))).

Lemma honest_link i : 1 < i < UINT32_MAX -> verifyLedgerHistoryLink (hhe_hash (N (i - 1))) (N i) = VERIFY_STATUS_OK.
Proof using HN.
  intros Hi. destruct (HN i ltac:(lia)) as (_ & Hh & _ & Hp). unfold verifyLedgerHistoryLink, verifyLedgerHistoryEntry.
  rewrite Hh, Z.eqb_refl, Hp, Z.eqb_refl by lia. done.
Qed.
Lemma honest_local i : 0 < i < UINT32_MAX -> verifyLocal mLastClosed (N i) = VERIFY_STATUS_OK.
Proof using HN Hlcl.
  intros Hi. destruct (HN i Hi) as (Hs & Hh & _). destruct Hlcl as [Hl E]. unfold verifyLocal, lastClosedHash. rewrite E, Hs. cbn [default].
  rewrite (u32_exact (mLastClosed.1 + 1)) by (unfold_ints; lia). destruct (Z.eqb_spec i mLastClosed.1) as [->|].
  - by rewrite <- Hh, Z.eqb_refl.
  - destruct (Z.eqb_spec i (mLastClosed.1 + 1)) as [->|]; [|done].
    replace mLastClosed.1 with (mLastClosed.1 + 1 - 1) at 1 by lia. apply honest_link. lia.
Qed.
Lemma honest_version i : 0 < i < UINT32_MAX -> (CURRENT_LEDGER_PROTOCOL_VERSION <? ch_ledgerVersion (hhe_header (N i))) = false.
Proof using HN. intros Hi. destruct (HN i Hi) as (_ & _ & Hv & _). by apply Z.ltb_ge. Qed.
Lemma seqZ_S a n : seqZ a (Z.of_nat (S n)) = a :: seqZ (a + 1) (Z.of_nat n).
Proof using. rewrite seqZ_cons by lia. f_equal. unfold Z.succ. f_equal; lia. Qed.
Lemma honest_tail n a ahead :
  1 < a <= lr_last mRange -> a + Z.of_nat n < UINT32_MAX -> 
  verifyEntries mRange mLastClosed false (N (a - 1)) (N (a - 1)) ahead (N <$> seqZ a (Z.of_nat n)) =
    (VERIFY_STATUS_OK, N (Z.min (lr_last mRange) (a + Z.of_nat n - 1)), ahead).
Proof using HN Hlcl.
  revert a. induction n as [|n IH]; intros a Ha Hb.
  { replace (Z.min (lr_last mRange) (a + Z.of_nat 0 - 1)) with (a - 1) by lia. done. }
  rewrite seqZ_S. cbn [fmap list_fmap verifyEntries]. rewrite honest_version, honest_local by lia.
  destruct (HN a ltac:(lia)) as (Es & _). destruct (HN (a - 1) ltac:(lia)) as (Ep & _). unfold verifyStep. rewrite Es, Ep.
  rewrite (u32_exact (a - 1 + 1)) by (unfold_ints; lia). cbv zeta. rewrite (proj2 (Z.ltb_ge a (a - 1 + 1))), (proj2 (Z.ltb_ge (a - 1 + 1) a)) by lia.
  rewrite honest_link by lia. destruct (Z.eqb_spec a (lr_last mRange)) as [E|E].
  - by replace (Z.min (lr_last mRange) (a + Z.of_nat (S n) - 1)) with a by lia.
  - replace (N a) with (N (a + 1 - 1)) by (f_equal; lia). rewrite IH by lia.
    by replace (a + 1 + Z.of_nat n - 1) with (a + Z.of_nat (S n) - 1) by lia.
Qed.
Lemma honest_head n a prev curr ahead :
  0 < a <= lr_last mRange -> a + Z.of_nat (S n) < UINT32_MAX ->
  verifyEntries mRange mLastClosed true prev curr ahead (N <$> seqZ a (Z.of_nat (S n))) =
    (VERIFY_STATUS_OK, N (Z.min (lr_last mRange) (a + Z.of_nat n)), (a - 1, Some (ch_previousLedgerHash (hhe_header (N a))))).
Proof using HN Hlcl.
  intros Ha Hb. rewrite seqZ_S. cbn [fmap list_fmap verifyEntries]. rewrite honest_version, honest_local by lia.
  destruct (HN a ltac:(lia)) as (Es & Eh & _). unfold verifyStep, verifyLedgerHistoryEntry. rewrite Eh, Z.eqb_refl. cbn [negb]. rewrite Es.
  rewrite (u32_exact (a - 1)) by (unfold_ints; lia). destruct (Z.eqb_spec a (lr_last mRange)) as [E|E].
  - by replace (Z.min (lr_last mRange) (a + Z.of_nat n)) with a by lia.
  - pose proof (honest_tail n (a + 1) (a - 1, Some (ch_previousLedgerHash (hhe_header (N a)))) ltac:(lia) ltac:(lia)) as H.
    replace (a + 1 - 1) with a in H by lia. rewrite H. by replace (a + 1 + Z.of_nat n - 1) with (a + Z.of_nat n) by lia.
Qed.

(** The state in which a checkpoint is verified. *)
Definition ahead_of (c : Z) : LedgerNumHashPair := if c =? lastCheckpoint then (0, None) else (c, Some (hhe_hash (N c))).
Lemma honest_single w :
  (mCurrCheckpoint w + 1) mod freq = 0 -> firstCheckpoint <= mCurrCheckpoint w <= lastCheckpoint ->
  mVerifiedAhead w = ahead_of (mCurrCheckpoint w) ->
  verifyHistoryOfSingleCheckpoint accelerated mRange mLastClosed mTrustedEndLedger ledgerFile w =
  let c := mCurrCheckpoint w in
  Ok (VERIFY_STATUS_OK, mkVerifyWork c (firstOf c - 1, Some (ch_previousLedgerHash (hhe_header (N (firstOf c)))))
        (if c =? firstCheckpoint then N (Z.min (lr_last mRange) c) else mVerifiedLedgerRangeStart w)).
Proof using HN Hlcl Hfile Hrange Hreach Htrusted.
  destruct w as [c ahead start]. cbn [mCurrCheckpoint mVerifiedAhead mVerifiedLedgerRangeStart]. intros Hm Hc ->.
  pose proof (freq_cases accelerated) as Hf. destruct firstCheckpoint_bounds as (Hb & H1 & H2 & H3). pose proof Hreach as [_ Hr].
  assert (Hc' : c <= lr_last mRange \/ c = lastCheckpoint).
  { destruct (Z.eq_dec c lastCheckpoint) as [|Hn]; [by right|left]. destruct checkpoints_between as [k Hk].
    destruct (checkpointContainingLedger_spec accelerated _ Hreach) as (_ & Hl & _).
    apply Z.mod_divide in Hm as [p Hp]; [|lia]. apply Z.mod_divide in Hl as [q Hq]; [|lia]. nia. }
  assert (Hlow : lastCheckpoint - freq + 1 <= lr_last mRange) by lia.
  unfold verifyHistoryOfSingleCheckpoint. cbn [mCurrCheckpoint mVerifiedAhead mVerifiedLedgerRangeStart].
  rewrite Hfile by done. unfold honest_file. set (a := firstOf c) in *. assert (Ha : a = Z.max 1 (c - freq + 1)) by done.
  replace (c - a + 1) with (Z.of_nat (S (Z.to_nat (c - a)))) by lia. 
  rewrite honest_head by (rewrite ?Nat2Z.inj_succ, ?Z2Nat.id by lia; unfold_ints; lia).
  replace (a + Z.of_nat (Z.to_nat (c - a))) with c by lia. clearbody a.
  set (i := Z.min (lr_last mRange) c). destruct (HN i ltac:(unfold_ints; lia)) as (Ei & Eh & _). rewrite Ei.
  cbn [mCurrCheckpoint mVerifiedLedgerRangeStart]. unfold ahead_of. destruct Htrusted as [Ht1 Ht2].
  destruct Hc' as [Hle|Elast]; [|subst c].
  - assert (Ec : i = c) by lia. rewrite Ec in *. rewrite Z.eqb_refl. cbn [negb andb].
    destruct (Z.eqb_spec c (lr_last mRange)) as [El|El].
    + assert (E : c = lastCheckpoint).
      { apply (checkpoint_unique accelerated c lastCheckpoint c); [done| |lia..].
        by destruct (checkpointContainingLedger_spec accelerated _ Hreach) as (_ & ? & _). }
      rewrite (proj2 (Z.eqb_eq c lastCheckpoint) E). cbn [fst Z.eqb cassert mbind outcome_bind].
      unfold verifyLastLedgerInCheckpoint. rewrite Ei, Ht1, (proj2 (Z.eqb_eq c (lr_last mRange)) El). cbn [cassert mbind outcome_bind].
      destruct mTrustedEndLedger.2 as [h|].
      * rewrite (Ht2 h eq_refl), <- El, Z.eqb_refl. cbn. by destruct (_ =? firstCheckpoint).
      * cbn. by destruct (_ =? firstCheckpoint).
    + assert (E : c <> lastCheckpoint) by lia. rewrite (proj2 (Z.eqb_neq c lastCheckpoint)) by done. cbn [fst snd cassert mbind outcome_bind].
      rewrite (proj2 (Z.eqb_neq c 0)) by lia. cbn [negb cassert mbind outcome_bind].
      unfold verifyLastLedgerInCheckpoint. cbn [fst snd]. rewrite Ei, Z.eqb_refl. cbn [cassert mbind outcome_bind].
      rewrite Z.eqb_refl. cbn. by destruct (_ =? firstCheckpoint).
  - assert (Ec : i = lr_last mRange) by lia. rewrite Ec in *. rewrite !Z.eqb_refl, andb_false_r. cbn [fst Z.eqb cassert mbind outcome_bind].
    unfold verifyLastLedgerInCheckpoint. rewrite Ei, Ht1, Z.eqb_refl. cbn [cassert mbind outcome_bind].
    destruct mTrustedEndLedger.2 as [h|].
    + rewrite (Ht2 h eq_refl), Z.eqb_refl. cbn. by destruct (_ =? firstCheckpoint).
    + cbn. by destruct (_ =? firstCheckpoint).
Qed.
Lemma honest_chain k w :
  mCurrCheckpoint w = firstCheckpoint + Z.of_nat k * freq -> mCurrCheckpoint w <= lastCheckpoint ->
  mVerifiedAhead w = ahead_of (mCurrCheckpoint w) ->
  exists w', chain (S k) w = Ok (WORK_SUCCESS, w') /\ mVerifiedLedgerRangeStart w' = N (Z.min (lr_last mRange) firstCheckpoint).
Proof using HN Hlcl Hfile Hrange Hreach Htrusted.
  pose proof (freq_cases accelerated) as Hf. destruct firstCheckpoint_bounds as (Hb & H1 & H2 & H3).
  assert (Hmod : forall j, (firstCheckpoint + Z.of_nat j * freq + 1) mod freq = 0).
  { intros j. assert (Hr : in_reach accelerated (lr_first mRange)) by (unfold in_reach in *; lia).
    destruct (checkpointContainingLedger_spec accelerated _ Hr) as (_ & H & _).
    replace (firstCheckpoint + Z.of_nat j * freq + 1) with (firstCheckpoint + 1 + Z.of_nat j * freq) by lia. rewrite Z.mod_add by lia. done. }
  revert w. induction k as [|k IH]; intros w Hw Hle Ha.
  all: cbn [verifyChain]; unfold verify_onSuccess; cbv zeta; rewrite (proj2 (Z.ltb_ge _ _)) by lia.
  all: rewrite honest_single by (done || (rewrite Hw; apply Hmod) || lia); cbn [mbind outcome_bind mCurrCheckpoint].
  - assert (E : mCurrCheckpoint w = firstCheckpoint) by lia. rewrite (proj2 (Z.eqb_eq _ _) E). eexists. split; [reflexivity|].
    cbn. by rewrite E.
  - rewrite (proj2 (Z.eqb_neq _ _)) by nia. cbn [mbind outcome_bind mVerifiedAhead mVerifiedLedgerRangeStart].
    assert (Hc : freq <= mCurrCheckpoint w - freq + 1) by nia.
    assert (Ef : firstOf (mCurrCheckpoint w) = mCurrCheckpoint w - freq + 1) by (unfold firstOf; lia). rewrite Ef.
    rewrite u32_exact by lia. apply IH; cbn [mCurrCheckpoint mVerifiedAhead]; [lia..|]. unfold ahead_of.
    rewrite (proj2 (Z.eqb_neq _ lastCheckpoint)) by lia.
    destruct (HN (mCurrCheckpoint w - freq + 1)) as (_ & _ & _ & Hp); [destruct Hreach; unfold_ints; lia|]. rewrite Hp by lia.
    f_equal; [lia|]. do 2 f_equal. f_equal. lia.
Qed.
End Archive.

End Honest.

(** * A network and its archive, with checkpoints of 8 ledgers *)
#[export] Instance LedgerHeader_countable : Countable LedgerHeader.
Proof.
  refine (inj_countable'
    (fun h => (ledgerVersion h, ledgerSeq h, closeTime h, totalCoins h, feePool h, inflationSeq h, idPool h, (baseFee h, baseReserve h, maxTxSetSize h)))
    (fun '(v, n, t, c, f, i, p, (b, r, m)) => mkHeader v n t c f i p b r m) _). by intros [].
Defined.
#[export] Instance ChainHeader_countable : Countable ChainHeader.
Proof.
  refine (inj_countable'
    (fun h => (ch_ledger h, ch_previousLedgerHash h, ch_txSetHash h, ch_upgrades h, ch_txSetResultHash h, ch_bucketListHash h, ch_skipList h))
    (fun '(l, p, t, u, r, b, s) => mkChainHeader l p t u r b s) _). by intros [].
Defined.
Definition network_header (i : Z) : ChainHeader :=
  mkChainHeader (mkHeader 10 i 0 0 0 0 0 100 100 100) (2 * (i - 1)) 0 [] 0 0 [0; 0; 0; 0].
(** No two headers have one hash; the network's have small ones. *)
Definition network_hash (h : ChainHeader) : Hash :=
  if decide (h = network_header (ch_ledgerSeq h)) then 2 * ch_ledgerSeq h else 2 * Zpos (encode h) + 1.
Definition network_entry (i : Z) : LedgerHeaderHistoryEntry := mkHistoryEntry (2 * i) (network_header i).
Lemma network_hash_inj h h' : network_hash h = network_hash h' -> h = h'.
Proof.
  unfold network_hash. destruct (decide _) as [E|E], (decide _) as [E'|E']; intros H; try lia.
  - rewrite E, E'. f_equal. lia.
  - apply (inj encode). lia.
Qed.
Lemma network_entry_ok i :
  hhe_seq (network_entry i) = i /\ hhe_hash (network_entry i) = network_hash (hhe_header (network_entry i)) /\
  ch_ledgerVersion (hhe_header (network_entry i)) <= CURRENT_LEDGER_PROTOCOL_VERSION /\
  (1 < i -> ch_previousLedgerHash (hhe_header (network_entry i)) = hhe_hash (network_entry (i - 1))).
Proof. split; [done|]. split; [|done]. unfold network_hash. by rewrite decide_True. Qed.
#[local] Instance network_closer : LedgerCloser := {|
  Node := unit; header_hash := network_hash; in_step _ _ := True; storeHeader _ n := n;
  closesTo _ _ _ := Throw (RuntimeError "not here") |}.
Definition sample_range : LedgerRange := mkLedgerRange 3 20.
Definition sample_archive (c : Z) : list LedgerHeaderHistoryEntry :=
  if bool_decide (c ∈ [7; 15; 23]) then honest_file true network_entry c else [].
Abbreviation sample_verification archive trusted :=
  (w ← makeVerifyWork true sample_range (2, Some 4) (20, trusted);
   verifyChain true sample_range (2, Some 4) (20, trusted) archive 3 w).
Example sample_verified :
  match sample_verification sample_archive (Some 40) with
  | Ok (WORK_SUCCESS, w) => mVerifiedLedgerRangeStart w = network_entry 7
  | _ => False
  end.
Proof. vm_compute. reflexivity. Qed.
(** An entry that was tampered with, and a hash of the end of the range that is not the one trusted. *)
Definition tampered : LedgerHeaderHistoryEntry :=
  mkHistoryEntry 20 (mkChainHeader (mkHeader 10 10 0 1 0 0 0 100 100 100) 18 0 [] 0 0 [0; 0; 0; 0]).
Example sample_rejected :
  match sample_verification (fun c => (fun e => if hhe_seq e =? 10 then tampered else e) <$> sample_archive c) None,
    sample_verification sample_archive (Some 42) with
  | Ok (WORK_FAILURE_FATAL, _), Ok (WORK_FAILURE_FATAL, _) => True
  | _, _ => False
  end.
Proof. vm_compute. exact I. Qed.
(** A file of the archive that begins late: the node does not reject it but aborts, at
    the file below. *)
Example late_file_aborts :
  sample_verification (fun c => if c =? 15 then drop 2 (sample_archive c) else sample_archive c) (Some 40) =
  Throw (AssertFailure "ledger.header.ledgerSeq == verifiedAhead.first").
Proof. vm_compute. reflexivity. Qed.

Lemma sample_archive_u32 c e : e ∈ sample_archive c -> in_u32 (hhe_seq e).
Proof.
  unfold sample_archive. case_bool_decide as Hc; [|by intros ?%elem_of_nil]. unfold honest_file.
  intros (i & -> & Hi%elem_of_seqZ)%list_elem_of_fmap. rewrite (proj1 (network_entry_ok i)). unfold firstOf, getCheckpointFrequency in Hi.
  unfold in_u32. unfold_ints. set_unfold. lia.
Qed.
Lemma sample_reach : 0 < lr_first sample_range <= lr_last sample_range /\ in_reach true (lr_last sample_range).
Proof. unfold in_reach. cbn. lia. Qed.
