(* ===== verification/Authorization.v ===== *)
(** What the signature checks accept, as they are written.

    [verifyAll] returns before it verifies anything, so these theorems state
    the code's behaviour and not the protocol's: which accounts a transaction
    is authorized for, and that a transaction that carries a signature never
    succeeds. *)

From S2P Require Import Prelude Numeric OfferMath Types OfferOrder LedgerTxn.
From S2P Require Import LedgerState TransactionUtils OfferExchange Accounting.
From S2P Require Import Operations Payments ManageOffers Transactions.
From S2P Require Import TransactionEffects.

(** * [verifyAll] and the pre-authorized signers *)
Lemma verifyAll_spec sigs signers :
  verifyAll sigs signers = negb (Nat.eqb (length sigs) 0) && negb (Nat.eqb (length signers) 0).
Proof.
  induction sigs as [|s sigs IH]; [done|]. destruct signers; cbn in *; [|done].
  rewrite IH. apply andb_false_r.
Qed.

(** The signers that the transaction's hash authorizes, and their weight. *)
Definition authorizing (h : Hash) (signers : list Signer) : list Signer :=
  List.filter (fun s => bool_decide (signer_key s = SIGNER_KEY_PRE_AUTH_TX h)) signers.
Definition weightOf (v : Z) (signers : list Signer) : Z :=
  fold_right (fun s w => cappedWeight v (signer_weight s) + w) 0 signers.

Lemma authorizing_preAuth h signers :
  authorizing h (preAuthSigners signers) = authorizing h signers.
Proof.
  unfold authorizing, preAuthSigners. induction signers as [|[[] w] l IH]; cbn [List.filter];
    rewrite ?IH; try done; cbn; by rewrite IH.
Qed.

Definition weights_ok (v : Z) (signers : list Signer) : Prop :=
  Forall (fun s => 0 <= signer_weight s) signers /\ weightOf v signers <= INT32_MAX.

Lemma cappedWeight_nonneg v w : 0 <= w -> 0 <= cappedWeight v w.
Proof. unfold cappedWeight. destruct (_ && _); lia. Qed.
Lemma weightOf_nonneg v l : Forall (fun s => 0 <= signer_weight s) l -> 0 <= weightOf v l.
Proof.
  induction 1 as [|s l Hs _ IH]; [done|].
  cbn [weightOf fold_right]. fold (weightOf v l). pose proof (cappedWeight_nonneg v _ Hs). lia.
Qed.
Lemma s32_id z : -2147483648 <= z <= 2147483647 -> s32 z = z.
Proof. unfold s32. intros. rewrite Z.mod_small; lia. Qed.

(** The loop accepts when a prefix of the matching signers reaches the weight:
    since no weight is negative, when there is one and all of them do. *)
Lemma checkPreAuth_spec id signers total needed sc :
  0 <= total ->
  Forall (fun s => 0 <= signer_weight s) (authorizing (mContentsHash sc) signers) ->
  total + weightOf (mProtocolVersion sc) (authorizing (mContentsHash sc) signers) <= INT32_MAX ->
  (checkPreAuth id signers total needed sc).1 =
    negb (Nat.eqb (length (authorizing (mContentsHash sc) signers)) 0) &&
    (needed <=? total + weightOf (mProtocolVersion sc) (authorizing (mContentsHash sc) signers)).
Proof.
  revert total sc. induction signers as [|s l IH]; intros total sc Ht Hpos Hmax; [done|].
  cbn [checkPreAuth]. unfold authorizing in *. cbn [List.filter] in *.
  destruct (bool_decide _); [|by apply IH].
  apply Forall_cons in Hpos as [Hs Hpos]. fold (authorizing (mContentsHash sc) l) in *.
  cbn [weightOf fold_right length Nat.eqb negb andb mProtocolVersion useOneTimeKey] in *.
  change (fold_right _ 0 (authorizing _ l))
    with (weightOf (mProtocolVersion sc) (authorizing (mContentsHash sc) l)) in *.
  pose proof (cappedWeight_nonneg (mProtocolVersion sc) _ Hs) as Hw.
  pose proof (weightOf_nonneg (mProtocolVersion sc) _ Hpos) as Hwl.
  rewrite s32_id by (unfold INT32_MAX in *; lia).
  destruct (Z.leb_spec needed (total + cappedWeight (mProtocolVersion sc) (signer_weight s)))
    as [Hn|Hn].
  - cbn. symmetry. apply Z.leb_le. lia.
  - rewrite IH; [|lia|exact Hpos|cbn [mProtocolVersion mContentsHash]; rewrite <- Z.add_assoc; exact Hmax].
    cbn [mProtocolVersion mContentsHash useOneTimeKey]. fold (authorizing (mContentsHash sc) l).
    rewrite Z.add_assoc. destruct (authorizing _ l) eqn:El; [|done].
    cbn [length Nat.eqb negb andb weightOf fold_right]. symmetry. apply Z.leb_gt. lia.
Qed.

(** Signers of the other two types. *)
Definition signing (signers : list Signer) : bool :=
  existsb (fun s => match signer_key s with SIGNER_KEY_PRE_AUTH_TX _ => false
                    | _ => true end) signers.
Lemma signing_split signers :
  negb (Nat.eqb (length (hashXSigners signers)) 0) ||
  negb (Nat.eqb (length (ed25519Signers signers)) 0) = signing signers.
Proof.
  unfold hashXSigners, ed25519Signers. induction signers as [|[[] w] l IH]; cbn; [done|..].
  - by rewrite orb_true_r.
  - done.
  - done.
Qed.

(** ** The marks on signatures never change *)
Definition same_marks (sc sc' : SignatureChecker) : Prop :=
  mProtocolVersion sc' = mProtocolVersion sc /\ mContentsHash sc' = mContentsHash sc /\
  mSignatures sc' = mSignatures sc /\ mUsedSignatures sc' = mUsedSignatures sc.
#[local] Instance same_marks_preorder : PreOrder same_marks.
Proof. split; [by repeat split|]. intros ??? (?&?&?&?) (?&?&?&?). repeat split; congruence. Qed.

Lemma checkPreAuth_marks id signers total needed sc :
  same_marks sc (checkPreAuth id signers total needed sc).2.
Proof.
  revert total sc. induction signers as [|s l IH]; intros total sc; cbn [checkPreAuth];
    [reflexivity|].
  destruct (bool_decide _); [|apply IH]. destruct (_ <=? _); [by repeat split|].
  etransitivity; [|apply IH]. by repeat split.
Qed.
Lemma checkSignature_marks id signers needed sc :
  same_marks sc (checkSignature id signers needed sc).2.
Proof.
  unfold checkSignature. destruct (_ =? 7); [reflexivity|].
  pose proof (checkPreAuth_marks id (preAuthSigners signers) 0 needed sc) as H.
  destruct (checkPreAuth _ _ _ _ _) as [enough sc']. cbn in H.
  destruct enough; [done|]. do 2 (destruct (verifyAll _ _); [done|]). done.
Qed.

(** C27. What [checkSignature] accepts, except in protocol version 7, where it
    accepts everything: a transaction whose hash is among the pre-authorized
    signers with enough weight, or a transaction that carries any signature,
    whatever its bytes, for an account that has any other signer, whatever its
    weight.  It marks no signature as used.  The weights are those of the
    matching pre-authorized signers, cut to 255 from version 10 on, and must
    not overflow the [int] that adds them. *)
Theorem checkSignature_accepts id signers needed sc :
  mProtocolVersion sc <> 7 ->
  weights_ok (mProtocolVersion sc) (authorizing (mContentsHash sc) signers) ->
  ((checkSignature id signers needed sc).1 = true <->
   (authorizing (mContentsHash sc) signers <> [] /\
    needed <= weightOf (mProtocolVersion sc) (authorizing (mContentsHash sc) signers)) \/
   (mSignatures sc <> [] /\
    exists s, In s signers /\ forall h, signer_key s <> SIGNER_KEY_PRE_AUTH_TX h)) /\
  same_marks sc (checkSignature id signers needed sc).2.
Proof.
  intros Hv [Hpos Hmax]. split; [|apply checkSignature_marks].
  unfold checkSignature. rewrite (proj2 (Z.eqb_neq _ _) Hv).
  pose proof (checkPreAuth_spec id (preAuthSigners signers) 0 needed sc) as Hpre.
  pose proof (checkPreAuth_marks id (preAuthSigners signers) 0 needed sc) as (_ & _ & Hsig & _).
  destruct (checkPreAuth _ _ _ _ _) as [enough sc']. cbn [fst snd] in *.
  rewrite authorizing_preAuth, Z.add_0_l in Hpre. specialize (Hpre (Z.le_refl 0) Hpos Hmax).
  subst enough. rewrite !verifyAll_spec, Hsig.
  assert (Hother : signing signers = true <->
    exists s, In s signers /\ forall h, signer_key s <> SIGNER_KEY_PRE_AUTH_TX h).
  { unfold signing. rewrite existsb_exists. split; intros (s & Hs & Hk); exists s;
      (split; [done|]); destruct (signer_key s) eqn:E; try done. by destruct (Hk preAuthTx). }
  rewrite <- Hother, <- signing_split, <- (Z.leb_le needed).
  destruct (authorizing _ _), (mSignatures sc), (needed <=? _), (hashXSigners signers),
    (ed25519Signers signers); cbn; naive_solver.
Qed.

Definition sample_checker : SignatureChecker :=
  makeSignatureChecker 10 42 [mkSignature 0 []].
Definition sample_signers : list Signer :=
  [mkSigner (SIGNER_KEY_ED25519 7) 1; mkSigner (SIGNER_KEY_PRE_AUTH_TX 42) 300].

Lemma checkSignature_accepts_witness :
  ((checkSignature 7 sample_signers 1000 sample_checker).1 = true <->
   (authorizing 42 sample_signers <> [] /\ 1000 <= weightOf 10 (authorizing 42 sample_signers)) \/
   ([mkSignature 0 []] <> [] /\
    exists s, In s sample_signers /\ forall h, signer_key s <> SIGNER_KEY_PRE_AUTH_TX h)) /\
  same_marks sample_checker (checkSignature 7 sample_signers 1000 sample_checker).2.
Proof.
  apply (checkSignature_accepts 7 sample_signers 1000 sample_checker); [done|].
  split; [repeat constructor; done|by vm_compute].
Defined.
(** A signature that is no signature at all is enough. *)
Example empty_signature_accepted :
  (checkSignature 7 sample_signers 1000 sample_checker).1 = true.
Proof. reflexivity. Qed.

(** * A transaction that carries a signature never succeeds *)
Section WithExternals.
Context `{Ext : Externals}.

(** [m] hands back a checker with the marks of [sc]. *)
Definition marks {A} (sc : SignatureChecker) (checker : A -> SignatureChecker) (m : M A)
    : Prop := forall s, wlp m (fun r _ => same_marks sc (checker r)) s.

Lemma marks_ret {A} sc (checker : A -> SignatureChecker) a :
  same_marks sc (checker a) -> marks sc checker (mret a).
Proof. intros H s. by apply wlp_ret. Qed.
Lemma marks_bind {A B} sc (checker : B -> SignatureChecker) (m : M A) (f : A -> M B) :
  (forall a, marks sc checker (f a)) -> marks sc checker (m ≫= f).
Proof.
  intros Hf s. apply wlp_bind. eapply wlp_mono; [apply wlp_top|]. intros a s' _. apply Hf.
Qed.
(** The checker goes through [m] to [f]. *)
Lemma marks_chain {A B} sc (cA : A -> SignatureChecker) (cB : B -> SignatureChecker)
    (m : M A) (f : A -> M B) :
  marks sc cA m -> (forall a, marks (cA a) cB (f a)) -> marks sc cB (m ≫= f).
Proof.
  intros Hm Hf s. apply wlp_bind. eapply wlp_mono; [apply Hm|]. intros a s' Ha.
  eapply wlp_mono; [apply Hf|]. intros b s'' Hb.
  cbv beta in *. by transitivity (cA a).
Qed.
Lemma marks_nested {A} sc (checker : A -> SignatureChecker) (m : M (bool * A)) :
  marks sc (fun r => checker r.2) m -> marks sc checker (nested m).
Proof.
  intros Hm s. apply wlp_nested. eapply wlp_mono; [apply Hm|]. by intros [[] a] s' H.
Qed.

Lemma marks_op_checkSignature tx op b sc : marks sc snd (op_checkSignature tx op b sc).
Proof.
  unfold op_checkSignature, tx_checkSignature, checkSignatureNoAccount.
  apply marks_bind. intros [].
  - apply marks_bind. intros acc.
    match goal with |- context [checkSignature ?a ?l ?w sc] =>
      pose proof (checkSignature_marks a l w sc); destruct (checkSignature a l w sc) end.
    by apply marks_ret.
  - destruct (_ || _); [apply marks_ret; reflexivity|].
    match goal with |- context [checkSignature ?a ?l ?w sc] =>
      pose proof (checkSignature_marks a l w sc); destruct (checkSignature a l w sc) end.
    by apply marks_ret.
Qed.
Lemma marks_op_checkValid tx op b sc : marks sc snd (op_checkValid tx op b sc).
Proof.
  unfold op_checkValid. apply marks_nested, marks_bind. intros header.
  apply (marks_chain sc snd).
  - destruct (_ || _); [apply marks_op_checkSignature|].
    apply marks_bind. intros. apply marks_ret. reflexivity.
  - intros [refused sc']. destruct refused; [apply marks_ret; reflexivity|].
    destruct (doCheckValid _ _ _). apply marks_ret. reflexivity.
Qed.
Lemma marks_op_apply tx op sc : marks sc snd (op_apply tx op sc).
Proof.
  unfold op_apply. eapply (marks_chain sc snd); [apply marks_op_checkValid|].
  intros [[[] r] sc']; [|apply marks_ret; reflexivity].
  apply marks_bind. intros []. apply marks_ret. reflexivity.
Qed.
Lemma marks_applyOps tx ops i b err sc : marks sc snd (applyOps tx ops i b err sc).
Proof.
  revert i b err sc. induction ops as [|op ops IH]; intros i b err sc; cbn [applyOps].
  { apply marks_ret. reflexivity. }
  eapply (marks_chain sc snd); [apply marks_op_apply|]. intros [[txRes r] sc'].
  apply marks_bind. intros b'. apply IH.
Qed.
Lemma marks_checkOpSignatures tx ops i b v sc :
  marks sc snd (checkOpSignatures tx ops i b v sc).
Proof.
  revert i b v sc. induction ops as [|op ops IH]; intros i b v sc; cbn [checkOpSignatures].
  { apply marks_ret. reflexivity. }
  eapply (marks_chain sc snd); [apply marks_op_checkSignature|]. intros [[code|] sc'].
  - apply marks_bind. intros b'. apply IH.
  - apply IH.
Qed.
Lemma marks_commonValid tx current applying sc :
  marks sc snd (commonValid tx current applying sc).
Proof.
  unfold commonValid. apply marks_nested, marks_bind. intros [c|].
  { apply marks_ret. reflexivity. }
  do 3 (apply marks_bind; intros ?). destruct (_ && _); [apply marks_ret; reflexivity|].
  eapply (marks_chain sc snd); [|intros v; apply marks_ret; reflexivity].
  unfold validPostSeqNum, tx_checkSignature. apply marks_bind. intros header.
  match goal with |- context [checkSignature ?a ?l ?w sc] =>
    pose proof (checkSignature_marks a l w sc); destruct (checkSignature a l w sc) as [[] ?] end;
    cbn [negb]; [|by apply marks_ret].
  apply marks_bind. intros ?. destruct (_ <? _); by apply marks_ret.
Qed.

(** Some signature is not used, and it matters. *)
Definition extra (sc : SignatureChecker) : Prop := checkAllSignaturesUsed sc = false.
Lemma extra_marks sc sc' : same_marks sc sc' -> extra sc -> extra sc'.
Proof. unfold extra, checkAllSignaturesUsed. intros (-> & _ & _ & ->). done. Qed.
Lemma extra_newChecker env header :
  8 <= ledgerVersion header -> env_signatures env <> [] -> extra (newChecker env header).
Proof.
  unfold extra, checkAllSignaturesUsed, newChecker, makeSignatureChecker.
  cbn. intros Hv Hs. apply orb_false_iff. split; [apply Z.eqb_neq; lia|].
  by destruct (env_signatures env).
Qed.

Lemma extra_processSignatures tx b sc s :
  extra sc -> 10 <= version s ->
  wlp (processSignatures tx b sc) (fun r _ => r.1.1 = false) s.
Proof.
  intros He Hv. unfold processSignatures. apply wlp_bind, wlp_currentHeader.
  rewrite (proj2 (Z.ltb_ge _ _)) by done. apply wlp_bind, wlp_nested, wlp_bind.
  eapply wlp_mono; [apply marks_checkOpSignatures|]. intros [[valid b'] sc'] s1 Hm.
  apply wlp_ret. cbn. apply wlp_bind. eapply wlp_mono; [apply wlp_top|]. intros _ s2 _.
  destruct valid; cbn [negb].
  - apply (extra_marks _ _ Hm) in He. unfold extra in He. cbn in He. rewrite He. by apply wlp_ret.
  - apply wlp_bind, wlp_lift. intros ? _. by apply wlp_ret.
Qed.

Lemma extra_applyChecks env res s :
  10 <= version s -> env_signatures env <> [] ->
  wlp (applyChecks env res) (fun r _ => r.1.1 = false) s.
Proof.
  intros Hv Hs. unfold applyChecks. apply wlp_bind, wlp_currentHeader, wlp_bind.
  set (sc := newChecker env (st_header s)).
  eapply wlp_mono.
  { apply (wlp_and _ (fun r _ => same_marks sc r.2) (fun _ s' => s = s'));
      [apply marks_commonValid|apply keeps_commonValid; exact _]. }
  intros [[cv code] sc'] _ [Hm <-]. apply wlp_bind. eapply (wlp_keeps bookkeeping).
  { destruct (1 <=? _); [apply bookkeeping_processSeqNum|keeps_easy]. }
  intros _ s1 H1. apply wlp_bind.
  assert (Hv1 : 10 <= version s1) by (unfold version in *; destruct H1 as [-> _]; done).
  apply (wlp_mono _ (fun r _ => r.1.1 = false)).
  - destruct (2 <=? _); [|by apply wlp_ret]. apply extra_processSignatures; [|done].
    apply (extra_marks _ _ Hm), extra_newChecker; [unfold version in Hv; lia|done].
  - intros [[valid b] sc''] s2 E. cbn in E. subst valid. by apply wlp_ret.
Qed.

(** C28. From protocol version 10 on a transaction that carries a signature
    never succeeds: [checkSignature] marks no signature as used, so it ends
    with a failed check or with txBAD_AUTH_EXTRA, and its operations are not
    applied. *)
Theorem signed_never_succeeds env res s :
  10 <= version s -> env_signatures env <> [] ->
  match tx_apply env res s with
  | Ok (ok, r, s') => ok = false /\ bookkeeping s s'
  | Throw _ => True
  end.
Proof.
  intros Hv Hs.
  enough (H : wlp (tx_apply env res) (fun r s' => r.1 = false /\ bookkeeping s s') s).
  { unfold wlp in H. by destruct (tx_apply env res s) as [[[ok r] s']|]. }
  unfold tx_apply. apply wlp_bind. eapply wlp_mono.
  { apply (wlp_and _ (fun r _ => r.1.1 = false) (fun _ s' => bookkeeping s s'));
      [by apply extra_applyChecks|apply bookkeeping_applyChecks]. }
  intros [[valid b] sc] s1 [E H1]. cbn in E. subst valid. by apply wlp_bind, wlp_ret, wlp_ret.
Qed.
End WithExternals.

Definition sample_signed_env : TransactionEnvelope :=
  mkEnvelope (env_tx sample_env) [mkSignature 0 []].
Lemma signed_never_succeeds_witness :
  match tx_apply (Ext := sample_externals) sample_signed_env
          (resetResults (env_tx sample_env)) sample_before with
  | Ok (ok, r, s') => ok = false /\ bookkeeping sample_before s'
  | Throw _ => True
  end.
Proof.
  apply (signed_never_succeeds (Ext := sample_externals) sample_signed_env
    (resetResults (env_tx sample_env)) sample_before); [by vm_compute|discriminate].
Defined.
(** The operation is authorized, and the transaction fails for its signature. *)
Example sample_signed_fails :
  match tx_apply (Ext := sample_externals) sample_signed_env
          (resetResults (env_tx sample_env)) sample_before with
  | Ok (false, r, s') => tx_result r = txError txBAD_AUTH_EXTRA
  | _ => False
  end.
Proof. vm_compute. reflexivity. Qed.

(** An operation that the protocol version does not support is accepted. *)
Example bumpSequence_accepted_at_9 :
  isVersionSupported (BUMP_SEQUENCE 9) 9 = false /\
  match op_checkValid (Ext := sample_externals) (env_tx sample_env)
          (mkOperation None (BUMP_SEQUENCE 9)) true
          (makeSignatureChecker 9 42 [])
          (mkState (mkHeader 9 7 0 100000 0 0 5 100 10 100) (st_entries sample_before)) with
  | Ok (ok, r, _, _) => ok = true
  | _ => False
  end.
Proof. split; vm_compute; reflexivity. Qed.
