(* ===== verification/Conservation.v ===== *)
(** Conservation of lumens by transactions: account balances and the fee pool,
    less the total number of coins, are the same before and after every
    transaction, whether it succeeds or fails. *)

From S2P Require Import Prelude Numeric OfferMath Types Sums OfferOrder LedgerTxn.
From S2P Require Import LedgerState TransactionUtils OfferExchange Converting.
From S2P Require Import Accounting Lumens OperationLumens.
From S2P Require Import Operations Payments ManageOffers Transactions.
From S2P Require Import TransactionEffects.

(** * Transactions *)

(** The fields of an operation are 64-bit numbers. *)
Definition typed_body (body : OperationBody) : Prop :=
  match body with
  | PAYMENT op => in_s64 (pay_amount op)
  | PATH_PAYMENT op => in_s64 (pp_destAmount op)
  | MANAGE_OFFER op => in_s64 (mo_amount op)
  | CREATE_PASSIVE_OFFER op => in_s64 (cp_amount op)
  | _ => True
  end.

Section WithExternals.
Context `{Ext : Externals}.

Lemma positive_amount x : in_s64 x -> (x <=? 0) = false -> amount x.
Proof. intros Hx H0. unfold amount, in_s64 in *. zbool. unfold_ints; lia. Qed.

Lemma payment_amounts op : in_s64 (pay_amount op) -> (Payment_doCheckValid op).1 = true ->
  amount (pay_amount op).
Proof.
  unfold Payment_doCheckValid. intros Hx. destruct (_ <=? 0) eqn:E; [done|].
  intros _. by apply positive_amount.
Qed.
Lemma pathPayment_amounts op : in_s64 (pp_destAmount op) ->
  PathPayment_doCheckValid op = true -> amount (pp_destAmount op).
Proof.
  unfold PathPayment_doCheckValid. intros Hx. destruct (pp_destAmount op <=? 0) eqn:E; [done|].
  intros _. by apply positive_amount.
Qed.
Lemma manageOffer_amounts op v : in_s64 (mo_amount op) ->
  ManageOffer_doCheckValid op v = None -> amount (mo_amount op).
Proof.
  unfold ManageOffer_doCheckValid. intros Hx. destruct (_ || _); [done|].
  destruct (compareAsset _ _); [done|].
  destruct (Z.ltb_spec (mo_amount op) 0); [done|]. intros _.
  unfold amount, in_s64 in *. unfold_ints; lia.
Qed.
Lemma checked_manageOffer c : (manageOfferChecked c).1 = true -> c = None.
Proof. by destruct c. Qed.

Lemma conserves_res {A} (f : A -> OperationResultTr) (m : M (bool * A)) s :
  wlp m (fun r s' => r.1 = true -> moved s s' 0) s ->
  wlp (r ← m; mret (prod_map id f r)) (fun r s' => r.1 = true -> moved s s' 0) s.
Proof.
  intros Hm. apply wlp_bind. eapply wlp_mono; [exact Hm|]. intros [b r] s' Hr.
  apply wlp_ret. exact Hr.
Qed.

Lemma doApply_conserves src body v s :
  coherent s -> 8 <= version s -> typed_body body ->
  (doCheckValid src body v).1 = true ->
  wlp (doApply src body) (fun r s' => r.1 = true -> moved s s' 0) s.
Proof.
  intros Hc Hv Ht Hcheck. destruct body; cbn [doApply doCheckValid typed_body] in *.
  - by apply conserves_res, conserves_CreateAccount.
  - apply conserves_res, conserves_Payment; [|done]. apply payment_amounts; [done|].
    by destruct (Payment_doCheckValid op).
  - apply conserves_res, conserves_PathPayment; [|done]. apply pathPayment_amounts; [done|].
    by destruct (PathPayment_doCheckValid op).
  - apply conserves_res, conserves_ManageOffer; [|done].
    eapply manageOffer_amounts; [done|by apply checked_manageOffer].
  - apply conserves_res, conserves_ManageOffer; [|done].
    eapply manageOffer_amounts; [done|by apply checked_manageOffer].
  - by apply conserves_res, conserves_SetOptions.
  - by apply conserves_res, conserves_ChangeTrust.
  - by apply conserves_res, conserves_AllowTrust.
  - apply conserves_res, conserves_Merge; [|done]. intros ->.
    unfold Merge_doCheckValid in Hcheck. by rewrite Z.eqb_refl in Hcheck.
  - by apply conserves_res, wlp_Inflation.
  - by apply conserves_res, conserves_ManageData.
  - by apply conserves_res, conserves_BumpSequence.
  - apply wlp_bind, wlp_lift. intros ? _. apply wlp_ret. intros _. by apply moved_refl.
Qed.

Lemma wlp_op_apply tx op sc s :
  coherent s -> 8 <= version s -> typed_body (op_body op) ->
  wlp (op_apply tx op sc) (fun r s' => r.1.1 = true -> moved s s' 0) s.
Proof.
  intros Hc Hv Ht. unfold op_apply. apply wlp_bind.
  eapply wlp_mono; [apply wlp_op_checkValid|]. intros [[res r] sc'] _ [-> Hok].
  destruct res; [|apply wlp_ret; by intros [=]].
  destruct Hok as [v Hok]; [done|]. apply wlp_bind.
  eapply wlp_mono; [by eapply doApply_conserves|]. intros [ok tr] s' Hm.
  apply wlp_ret. exact Hm.
Qed.

Lemma wlp_applyOps tx ops i b err sc s0 s :
  8 <= version s0 -> Forall (fun op => typed_body (op_body op)) ops ->
  (err = false -> moved s0 s 0) ->
  wlp (applyOps tx ops i b err sc) (fun r s' => r.1.1 = false -> moved s0 s' 0) s.
Proof.
  intros Hv. revert i b err sc s. induction ops as [|op ops IH];
    intros i b err sc s Ht Hm; cbn [applyOps]; [by apply wlp_ret|].
  apply Forall_cons in Ht as [Hop Ht]. apply wlp_bind. destruct err.
  - eapply wlp_mono; [apply wlp_top|]. intros [[ok r] sc'] s1 _.
    apply wlp_bind, wlp_lift. intros b' _. by apply IH.
  - specialize (Hm eq_refl). eapply wlp_mono.
    { apply wlp_op_apply; [apply Hm| |done]. destruct Hm as (_ & V & _).
      unfold version in *. lia. }
    intros [[ok r] sc'] s1 H1. apply wlp_bind, wlp_lift. intros b' _. apply IH; [done|].
    destruct ok; [|done]. intros _. eapply (moved_trans s0 s s1 0 0); auto.
Qed.

(** ** One-time signers and the sequence number *)
Lemma same_removeAccountSigner k key : keeps same_total (removeAccountSigner k key).
Proof. unfold removeAccountSigner. keeps_auto. Qed.
#[local] Hint Resolve same_removeAccountSigner : keeps.
Lemma same_removeSignersUntil k keys r : keeps same_total (removeSignersUntil k keys r).
Proof. revert r. induction keys; intros r; cbn [removeSignersUntil]; keeps_auto. Qed.
#[local] Hint Resolve same_removeSignersUntil : keeps.
Lemma same_removeUsedOneTimeSignerKeys sc : keeps same_total (removeUsedOneTimeSignerKeys sc).
Proof.
  unfold removeUsedOneTimeSignerKeys. induction (map_to_list _) as [|[id keys] l IH];
    cbn [removeAllOneTimeSignerKeys]; [keeps_easy|].
  unfold removeAccountOneTimeSignerKeys. keeps_auto.
Qed.
#[local] Hint Resolve same_removeUsedOneTimeSignerKeys : keeps.
Lemma same_processSeqNum tx : keeps same_total (processSeqNum tx).
Proof. unfold processSeqNum. keeps_auto. Qed.
Lemma same_processSignatures tx b sc : keeps same_total (processSignatures tx b sc).
Proof. unfold processSignatures. keeps_auto. Qed.
#[local] Hint Resolve same_processSeqNum same_processSignatures : keeps.

Definition typed_tx (tx : Transaction) : Prop :=
  Forall (fun op => typed_body (op_body op)) (tx_operations tx).

Lemma adds_applyOperations tx b sc s :
  coherent s -> 8 <= version s -> typed_tx tx ->
  wlp (applyOperations tx b sc) (fun _ s' => moved s s' 0) s.
Proof.
  intros Hc Hv Ht. apply moved_refl in Hc as Hm. unfold applyOperations.
  apply wlp_nested, wlp_bind. eapply wlp_mono; [by apply wlp_applyOps|].
  intros [[err b'] sc'] s1 H1. cbn in H1. destruct err; cbn [negb].
  - apply wlp_bind, wlp_lift. intros ? _. by apply wlp_ret.
  - specialize (H1 eq_refl). apply wlp_bind, wlp_currentHeader.
    destruct (_ && _); [by apply wlp_ret|]. same_step. by apply wlp_ret.
Qed.

Lemma same_applyChecks env res : keeps same_total (applyChecks env res).
Proof. unfold applyChecks. keeps_auto. Qed.

Lemma tx_apply_lumens env res s :
  coherent s -> 8 <= version s -> typed_tx (env_tx env) ->
  wlp (tx_apply env res) (fun _ s' => moved s s' 0) s.
Proof.
  intros Hc%moved_refl Hv Ht. unfold tx_apply.
  eapply wlp_same_bind; [apply same_applyChecks|exact Hc|]. intros [[valid b] sc] s1 H1.
  apply wlp_bind. apply (wlp_mono _ (fun _ s' => moved s s' 0)); [|intros [ok b'] s2 Hend; by apply wlp_ret].
  destruct valid; [|by apply wlp_ret].
  eapply wlp_mono; [apply adds_applyOperations; [apply H1| |done]|].
  - destruct H1 as (_ & V & _). by rewrite V.
  - intros ? s2 H2. eapply (moved_trans s s1 s2 0 0); eassumption.
Qed.

(** ** The fee goes from the source to the pool *)
Lemma fee_taken balance fee r :
  in_s64 balance -> 0 < fee ->
  Numeric.addBalance balance (s64 (- Z.min balance fee)) INT64_MAX = Ok r ->
  eqm 18446744073709551616 (default balance r) (balance - Z.min balance fee).
Proof.
  intros Hb Hf H. unfold Numeric.addBalance, cassert in H. unfold in_s64 in *.
  destruct (Z.leb_spec 0 balance) as [H0|]; cbn in H; [|done].
  assert (E : s64 (- Z.min balance fee) = - Z.min balance fee)
    by (apply s64_id; unfold in_s64; unfold_ints; lia).
  rewrite E, (s64_id (- balance)), (s64_id (INT64_MAX - balance)) in H
    by (unfold in_s64; unfold_ints; lia).
  destruct (Z.eqb_spec (- Z.min balance fee) 0); [injection H as <-; apply eqm_eq; cbn; lia|].
  rewrite (proj2 (Z.ltb_ge (- Z.min balance fee) (- balance))) in H by lia.
  rewrite (proj2 (Z.ltb_ge (INT64_MAX - balance) _)) in H by (unfold_ints; lia).
  injection H as <-. cbn. rewrite eqm_s64. apply eqm_eq. unfold id. lia.
Qed.

Lemma wlp_set_balance k a b (Q : unit -> LedgerState -> Prop) s0 s x :
  moved s0 s x -> st_entries s !! k = Some (ACCOUNT a) ->
  (forall s', moved s0 s' (x + (b - acc_balance a)) -> Q tt s') ->
  wlp (updateAccount k (set_balance b)) Q s.
Proof.
  intros Hm Hk HQ. apply wlp_bind, wlp_current. rewrite Hk. intros d [= <-].
  apply wlp_bind, wlp_lift. intros d' [= <-]. apply wlp_setCurrent, HQ.
  destruct Hm as (Hc & V & E). apply Hc in Hk as Hkey. cbn in Hkey.
  eapply moved_trans; [split; [exact Hc|split; [exact V|exact E]]|].
  eapply moved_eqm; [by apply moved_insert|]. unfold at_key. rewrite Hk, <- Hkey.
  apply eqm_eq. cbn. lia.
Qed.

Lemma processFeeSeqNum_lumens tx s :
  coherent s ->
  (forall a, st_entries s !! KeyAccount (tx_sourceAccount tx) = Some (ACCOUNT a) ->
     in_s64 (acc_balance a)) ->
  wlp (processFeeSeqNum tx) (fun _ s' => moved s s' 0) s.
Proof.
  intros Hc Hb. apply moved_refl in Hc as Hm. unfold processFeeSeqNum.
  apply wlp_bind, wlp_exists_entry. intros [] _; [|done]. cbn [negb].
  apply wlp_bind, wlp_currentAccount. intros a Ha. specialize (Hb a Ha). cbn [feeCharged].
  apply wlp_bind. apply (wlp_mono _ (fun _ s' => moved s s' 0)).
  - destruct (Z.ltb_spec 0 (feeCharged (resetResults tx))) as [Hf|_]; [|by apply wlp_ret].
    apply wlp_bind, wlp_lift. intros r Hr%fee_taken; [|done..]. apply wlp_bind.
    eapply wlp_set_balance; [exact Hm|exact Ha|]. intros s1 H1.
    eapply (wlp_updateHeader _ (Z.min (acc_balance a) (tx_fee tx))); [exact H1|done| |].
    { cbn. rewrite eqm_s64. apply eqm_eq. lia. }
    intros s2 H2 _ _. eapply moved_eqm; [exact H2|]. cbn [modulus lumens].
    cbn [resetResults feeCharged] in Hr. cbn [resetResults feeCharged]. rewrite Hr.
    apply eqm_eq. lia.
  - intros _ s1 H1. same_step.
    eapply wlp_same_bind; [|eassumption|].
    { destruct (_ <=? 9); [|keeps_easy]. destruct (negb _); keeps_auto. }
    intros _ s2 Hend. by apply wlp_ret.
Qed.

(** Account balances and the fee pool, less the coins that exist. *)
Definition lumens_held (s : LedgerState) : Z :=
  msum (fun k d => match k, d with
                   | KeyAccount _, ACCOUNT a => acc_balance a
                   | _, _ => 0
                   end) (st_entries s) + feePool (st_header s).
Definition lumens_drift (s : LedgerState) : Z :=
  lumens_held s - totalCoins (st_header s).

Lemma eqm_drift s s' :
  eqm modulus (total s') (total s) ->
  s64 (lumens_drift s') = s64 (lumens_drift s) /\
  (in_s64 (lumens_drift s) -> in_s64 (lumens_drift s') -> lumens_drift s' = lumens_drift s).
Proof.
  intros E.
  assert (H64 : s64 (lumens_drift s') = s64 (lumens_drift s)).
  { apply eqm_s64_eq. assert (Et : forall s, lumens_drift s = total s).
    { intros. unfold lumens_drift, lumens_held, total. cbn. unfold weight. cbn. lia. }
    by rewrite !Et. }
  split; [done|]. intros H1 H2. by rewrite <- (s64_id _ H1), <- H64, s64_id.
Qed.
Lemma moved_drift s s' :
  moved s s' 0 ->
  s64 (lumens_drift s') = s64 (lumens_drift s) /\
  (in_s64 (lumens_drift s) -> in_s64 (lumens_drift s') -> lumens_drift s' = lumens_drift s).
Proof. intros (_ & _ & E). apply eqm_drift. by rewrite E, Z.add_0_r. Qed.

(** What the ledger does with one transaction: the fee, then the rest. *)
Definition processTransaction (env : TransactionEnvelope) : M (bool * TransactionResult) :=
  res ← processFeeSeqNum (env_tx env); tx_apply env res.

(** C19. Conservation of lumens.  From protocol version 8 on, whatever the
    transaction, its signatures and its result: if taking the fee and applying
    it do not throw, every entry is still under its own key, the version is the
    same, and the account balances plus the fee pool less the total coins have
    not changed - as 64-bit numbers in any case, and exactly when they fit. *)
Theorem transaction_conserves_lumens env s :
  coherent s -> 8 <= ledgerVersion (st_header s) -> typed_tx (env_tx env) ->
  (forall a, st_entries s !! KeyAccount (tx_sourceAccount (env_tx env)) = Some (ACCOUNT a) ->
     in_s64 (acc_balance a)) ->
  match processTransaction env s with
  | Ok (_, s') =>
      coherent s' /\ ledgerVersion (st_header s') = ledgerVersion (st_header s) /\
      s64 (lumens_drift s') = s64 (lumens_drift s) /\
      (in_s64 (lumens_drift s) -> in_s64 (lumens_drift s') ->
       lumens_drift s' = lumens_drift s)
  | Throw _ => True
  end.
Proof.
  intros Hc Hv Ht Hb.
  assert (Hwlp : wlp (processTransaction env) (fun _ s' => moved s s' 0) s).
  { apply wlp_bind. eapply wlp_mono; [by apply processFeeSeqNum_lumens|].
    intros res s1 H1. eapply wlp_mono.
    - apply tx_apply_lumens; [apply H1| |done]. destruct H1 as (_ & V & _). by rewrite V.
    - intros ? s2 H2. eapply (moved_trans s s1 s2 0 0); eassumption. }
  unfold wlp in Hwlp. destruct (processTransaction env s) as [[r s']|]; [|done].
  split; [apply Hwlp|]. split; [apply Hwlp|]. by apply moved_drift.
Qed.
End WithExternals.

(** ** An example: an account pays for a new one with a pre-authorized
    transaction. *)
Definition sample_run : outcome (bool * TransactionResult * LedgerState) :=
  processTransaction (Ext := sample_externals) sample_env sample_before.

Lemma sample_coherent : coherent sample_before.
Proof. intros k d. cbn. by intros [<- [= <-]]%lookup_singleton_Some. Qed.

(** The transaction succeeds, and the amounts are those expected. *)
Example sample_run_succeeds :
  match sample_run with
  | Ok (true, _, s) =>
      lumens_held s = 5000 /\ feePool (st_header s) = 100 /\
      msum (fun k d => match d with ACCOUNT a => acc_balance a | _ => 0 end)
        (st_entries s) = 4900 /\
      (acc_balance <$> (match st_entries s !! KeyAccount 2 with
                        | Some (ACCOUNT a) => Some a | _ => None end)) = Some 3000
  | _ => False
  end.
Proof. vm_compute. auto. Qed.

Lemma transaction_conserves_lumens_witness :
  match sample_run with
  | Ok (_, s') =>
      coherent s' /\ ledgerVersion (st_header s') = 10 /\
      s64 (lumens_drift s') = s64 (lumens_drift sample_before) /\
      (in_s64 (lumens_drift sample_before) -> in_s64 (lumens_drift s') ->
       lumens_drift s' = lumens_drift sample_before)
  | Throw _ => True
  end.
Proof.
  apply (transaction_conserves_lumens (Ext := sample_externals) sample_env sample_before).
  - exact sample_coherent.
  - vm_compute; discriminate.
  - repeat constructor.
  - intros a. cbn. intros [= <-]. split; vm_compute; congruence.
Defined.
