(* ===== verification/LedgerCloseLumens.v ===== *)
(** Conservation of lumens when a ledger closes. *)

From S2P Require Import Prelude Numeric OfferMath Types Sorting Sums OfferOrder LedgerTxn.
From S2P Require Import LedgerTxnOffers InflationWinners LedgerState TransactionUtils OfferExchange Converting Accounting.
From S2P Require Import Operations Upgrades Lumens Payments ManageOffers OperationLumens Transactions.
From S2P Require Import TransactionEffects TxSets ApplyOrder LedgerClose Conservation.

(** * Upgrades neither create nor destroy lumens *)

Lemma same_addLiabilitiesTo l asset x :
  keeps same_total (addBuyingTo l asset x) /\ keeps same_total (addSellingTo l asset x).
Proof. split; [unfold addBuyingTo|unfold addSellingTo]; keeps_auto. Qed.
Lemma same_keepOffer k o adj l : keeps same_total (keepOffer k o adj l).
Proof.
  unfold keepOffer. destruct (same_addLiabilitiesTo l (of_buying o) 0).
  keeps_auto.
Qed.
#[local] Hint Resolve same_keepOffer : keeps.

(** ** Reading *)
Lemma same_initialLiabilities offers b sl : keeps same_total (initialLiabilities offers b sl).
Proof. revert b sl. induction offers as [|k offers IH]; intros; cbn [initialLiabilities]; keeps_auto. Qed.
Lemma same_excludingLiabilities id asset x :
  keeps same_total (getAvailableBalanceExcludingLiabilities id asset x) /\
  keeps same_total (getAvailableLimitExcludingLiabilities id asset x).
Proof.
  split; [unfold getAvailableBalanceExcludingLiabilities|
          unfold getAvailableLimitExcludingLiabilities]; keeps_auto.
Qed.
Lemma same_shouldDeleteOffer asset x l f :
  (forall a z, keeps same_total (f a z)) -> keeps same_total (shouldDeleteOffer asset x l f).
Proof. intros Hf. unfold shouldDeleteOffer. keeps_auto. Qed.
#[local] Hint Resolve same_initialLiabilities : keeps.

(** ** One account *)
Lemma same_updateOffer k balance above l b sl :
  is_account_key k = false -> keeps same_total (updateOffer k balance above l b sl).
Proof.
  intros Hk. unfold updateOffer.
  assert (He : keeps same_total (eraseEntry k)).
  { apply same_erase. intros d. by apply lumens_offkey. }
  apply keeps_bind; [exact _|keeps_easy|intros o].
  assert (Hb := fun a z => proj1 (same_excludingLiabilities (of_seller o) a z)).
  assert (Hl := fun a z => proj2 (same_excludingLiabilities (of_seller o) a z)).
  apply keeps_bind; [exact _|by apply same_shouldDeleteOffer|intros e].
  apply keeps_bind; [exact _| |intros e']; [|keeps_auto].
  destruct e; [keeps_easy|by apply same_shouldDeleteOffer].
Qed.
Lemma same_updateOffers id offers balance above l b sl :
  Forall (fun k => is_account_key k = false) offers ->
  keeps same_total (updateOffers id offers balance above l b sl).
Proof.
  intros Hk. revert l. induction Hk as [|k offers Hk _ IH]; intros l; cbn [updateOffers];
    [keeps_easy|].
  apply keeps_bind; [exact _|by apply same_updateOffer|intros [res l']]. keeps_auto.
Qed.
Lemma same_storeLiabilities id asset liab : keeps same_total (storeLiabilities id asset liab).
Proof.
  unfold storeLiabilities, loadTrustLine. destruct (is_native asset); [keeps_auto|].
  apply keeps_bind; [exact _|keeps_easy|intros w].
  destruct (keeps_line_liabilities same_total w). keeps_auto.
Qed.
Lemma same_storeAllLiabilities id l : keeps same_total (storeAllLiabilities id l).
Proof.
  induction l as [|[asset liab] l IH]; cbn [storeAllLiabilities]; [keeps_easy|].
  apply keeps_bind; [exact _|apply same_storeLiabilities|done].
Qed.
Lemma same_prepareAccount id offers :
  Forall (fun k => is_account_key k = false) offers -> keeps same_total (prepareAccount id offers).
Proof.
  intros Hk. unfold prepareAccount, loadAccount.
  apply keeps_bind; [exact _|keeps_easy|intros [b sl]].
  apply keeps_bind; [exact _|keeps_easy|intros found]. destruct (negb found); [keeps_easy|].
  apply keeps_bind; [exact _|keeps_easy|intros acc].
  apply keeps_bind; [exact _|keeps_easy|intros h].
  apply keeps_bind; [exact _|by apply same_updateOffers|intros l].
  apply same_storeAllLiabilities.
Qed.

(** ** All accounts *)
Lemma addOfferKey_offers ks :
  map_Forall (fun _ l => Forall (fun k => is_account_key k = false) l)
    (foldr addOfferKey ∅ ks).
Proof.
  induction ks as [|k ks IH]; cbn; [apply map_Forall_empty|].
  unfold addOfferKey. destruct (sellerOf k) as [seller|] eqn:E; [|done].
  apply map_Forall_insert_2; [|done]. constructor; [by destruct k|].
  destruct (_ !! seller) as [l|] eqn:El; [|constructor]. by apply IH in El.
Qed.
Lemma same_prepareLiabilities : keeps same_total prepareLiabilities.
Proof.
  intros s. unfold prepareLiabilities, mbind, M_bind, allOffers, wlp.
  pose proof (addOfferKey_offers (map_to_list (st_entries s)).*1) as Hk.
  set (m := foldr _ _ _) in *. rewrite map_Forall_to_list in Hk.
  assert (H : keeps same_total (prepareAccounts (map_to_list m))).
  { induction Hk as [|[id offers] l Hk _ IH]; cbn [prepareAccounts]; [keeps_easy|].
    apply keeps_bind; [exact _|by apply same_prepareAccount|done]. }
  apply H.
Qed.

(** ** An upgrade keeps the total, but can change the version *)
Definition conserves (s s' : LedgerState) : Prop :=
  coherent s -> coherent s' /\ eqm modulus (total s') (total s).
#[export] Instance conserves_preorder : PreOrder conserves.
Proof.
  split; [by intros s|]. intros a b c Hab Hbc Ha. destruct (Hab Ha) as (Hb & E).
  destruct (Hbc Hb) as (Hc & E'). split; [done|]. by rewrite E'.
Qed.
Lemma conserves_same {A} (m : M A) : keeps same_total m -> keeps conserves m.
Proof.
  intros H s. eapply wlp_mono; [apply H|]. intros a s' Hs Hc. by destruct (Hs Hc) as (? & _ & ?).
Qed.
Lemma conserves_setHeader (f : LedgerHeader -> LedgerHeader) :
  (forall h, header_weight (f h) = header_weight h) -> keeps conserves (updateHeader f).
Proof.
  intros Hf s. apply wlp_bind, wlp_currentHeader, wlp_setHeader. intros Hc. split; [done|].
  unfold total. cbn -[header_weight]. rewrite Hf. apply eqm_eq. done.
Qed.
Lemma conserves_applyTo u : keeps conserves (applyTo u).
Proof.
  pose proof (conserves_same _ same_prepareLiabilities) as Hp.
  assert (Hh : forall h, (forall s, header_weight h = header_weight (st_header s) ->
    wlp (setHeader h) (fun _ s' => conserves s s') s)).
  { intros h s E. apply wlp_setHeader. intros Hc. split; [done|].
    unfold total. cbn -[header_weight]. rewrite E. apply eqm_eq. done. }
  destruct u; cbn [applyTo]; try (by apply conserves_setHeader); intros s;
    apply wlp_bind, wlp_currentHeader, wlp_bind;
    (eapply wlp_mono; [by apply Hh|]); intros ? s1 H1;
    (destruct (_ && _); [|by apply wlp_ret]);
    (eapply wlp_mono; [apply Hp|]); intros ? s2 H2; by transitivity s1.
Qed.

(** ** Exceptions *)
Lemma wlp_attempt {A} (m : M A) (Q : option A -> LedgerState -> Prop) s :
  wlp m (fun a s' => Q (Some a) s') s -> Q None s -> wlp (attempt m) Q s.
Proof. unfold wlp, attempt. destruct (m s) as [[a s']|[]]; auto. Qed.
Lemma keeps_attempt {A} R `{!PreOrder R} (m : M A) : keeps R m -> keeps R (attempt m).
Proof. intros Hm s. apply wlp_attempt; [apply Hm|reflexivity]. Qed.

(** Every balance is a 64-bit number. *)
Definition balances64 (s : LedgerState) : Prop :=
  forall a acc, st_entries s !! KeyAccount a = Some (ACCOUNT acc) -> in_s64 (acc_balance acc).

Section WithExternals.
Context `{Ext : Externals} `{TxExt : TxSetExternals} `{Sort : StdSort}.
Context {UpgradeType : Type} (xdr_from_opaque : UpgradeType -> option LedgerUpgrade).

(** ** The fees keep balances in range *)
Lemma balances64_update k f s (Q : unit -> LedgerState -> Prop) :
  balances64 s -> (forall a, in_s64 (acc_balance a) -> in_s64 (acc_balance (f a))) ->
  (forall s', balances64 s' -> Q tt s') -> wlp (updateAccount k f) Q s.
Proof using.
  intros Hb Hf HQ. apply wlp_bind, wlp_current. intros d Hd. apply wlp_bind, wlp_lift.
  intros d' Hd'. apply wlp_setCurrent, HQ. destruct d as [acc| | |]; try done.
  injection Hd' as <-. intros a acc'. cbn. destruct (decide (k = KeyAccount a)) as [->|Hn].
  - rewrite lookup_insert_eq. intros [= <-]. by apply Hf, (Hb a).
  - rewrite lookup_insert_ne by done. apply Hb.
Qed.
Lemma addBalance_in_s64 b x m r : in_s64 b -> Numeric.addBalance b x m = Ok r -> in_s64 (default b r).
Proof using.
  intros Hb H. unfold Numeric.addBalance in H. inv_ok H.
  destruct (x =? 0); [by injection H as <-|]. destruct (x <? _); [by injection H as <-|].
  destruct (_ <? x); injection H as <-; [done|apply s64_range].
Qed.
Lemma processFeeSeqNum_balances64 tx s :
  balances64 s -> wlp (processFeeSeqNum tx) (fun _ s' => balances64 s') s.
Proof using.
  intros Hb. unfold processFeeSeqNum. apply wlp_bind, wlp_exists_entry. intros [] _; [|done].
  cbn [negb]. apply wlp_bind, wlp_currentAccount. intros a Ha. apply wlp_bind.
  apply (wlp_mono _ (fun _ => balances64)).
  - destruct (0 <? _); [|by apply wlp_ret]. apply wlp_bind, wlp_lift. intros r Hr. apply wlp_bind.
    apply balances64_update; [done| |].
    + intros ? _. cbn. eapply addBalance_in_s64; [by eapply Hb|done].
    + intros s1 H1. apply wlp_bind, wlp_currentHeader, wlp_setHeader. exact H1.
  - intros _ s1 H1. apply wlp_bind, wlp_currentHeader, wlp_bind.
    apply (wlp_mono _ (fun _ => balances64)); [|intros _ s2 H2; by apply wlp_ret].
    destruct (_ <=? 9); [|by apply wlp_ret]. destruct (negb _); [done|].
    by apply balances64_update.
Qed.

(** ** The loops *)
Definition typed_txs (txs : list TransactionFramePtr) : Prop :=
  Forall (fun tx => typed_tx (env_tx (tx_frame tx))) txs.

Lemma processFeesSeqNums_lumens txs s0 s :
  moved s0 s 0 -> balances64 s ->
  wlp (processFeesSeqNums txs) (fun rs s' => moved s0 s' 0 /\ length rs = length txs) s.
Proof using.
  revert s. induction txs as [|tx txs IH]; intros s Hm Hb; cbn [processFeesSeqNums].
  { by apply wlp_ret. }
  apply wlp_bind. eapply wlp_mono.
  { apply wlp_and; [|by apply processFeeSeqNum_balances64].
    apply processFeeSeqNum_lumens; [apply Hm|intros a; apply Hb]. }
  intros res s1 [H1 Hb1]. apply wlp_bind. eapply wlp_mono.
  { apply IH; [|done]. eapply (moved_trans s0 s s1 0 0); eassumption. }
  intros rs s2 [H2 Hl]. apply wlp_ret. split; [done|]. cbn. by rewrite Hl.
Qed.

Lemma applyTransaction_lumens env res s :
  coherent s -> 8 <= version s -> typed_tx (env_tx env) ->
  wlp (applyTransaction env res) (fun _ s' => moved s s' 0) s.
Proof using.
  intros Hc%moved_refl Hv Ht. unfold applyTransaction.
  eapply wlp_same_bind; [apply keeps_attempt; [exact _|apply same_applyChecks]|exact Hc|].
  intros [[[[] b] sc]|] s1 H1; [|by apply wlp_ret..].
  apply wlp_bind, wlp_attempt; [|by apply wlp_ret].
  eapply wlp_mono; [apply adds_applyOperations; [apply H1| |done]|].
  - destruct H1 as (_ & V & _). by rewrite V.
  - intros [ok b'] s2 H2. apply wlp_ret. eapply (moved_trans s s1 s2 0 0); eassumption.
Qed.
Lemma applyTransactions_lumens txs s0 s :
  moved s0 s 0 -> 8 <= version s0 -> typed_txs (map fst txs) ->
  wlp (applyTransactions txs) (fun rs s' => moved s0 s' 0 /\ length rs = length txs) s.
Proof using.
  intros Hm Hv. revert s Hm. induction txs as [|[tx res] txs IH]; intros s Hm Ht;
    cbn [applyTransactions].
  { by apply wlp_ret. }
  apply Forall_cons in Ht as [Htx Ht]. apply wlp_bind. eapply wlp_mono.
  { apply applyTransaction_lumens; [apply Hm| |done]. destruct Hm as (_ & V & _). by rewrite V. }
  intros r s1 H1. apply wlp_bind. eapply wlp_mono.
  { apply IH; [eapply (moved_trans s0 s s1 0 0); eassumption|done]. }
  intros rs s2 [H2 Hl]. apply wlp_ret. split; [done|]. cbn. by rewrite Hl.
Qed.
Lemma conserves_applyUpgrades us : keeps conserves (applyUpgrades xdr_from_opaque us).
Proof using.
  induction us as [|u us IH]; cbn [applyUpgrades]; [keeps_easy|].
  destruct (xdr_from_opaque u); [|keeps_easy].
  apply keeps_bind; [exact _| |done]. apply keeps_attempt; [exact _|apply conserves_applyTo].
Qed.

(** ** [closeLedger] *)
Lemma getContentsHash_perm ts :
  Permutation (mTransactions (txset_getContentsHash ts).2) (mTransactions ts).
Proof using.
  unfold txset_getContentsHash. destruct (mHashIsValid ts); [done|]. cbn. apply std_sort_perm.
Qed.
Lemma typed_txs_perm txs txs' : Permutation txs txs' -> typed_txs txs -> typed_txs txs'.
Proof using. intros Hp. unfold typed_txs. by rewrite Hp. Qed.
Lemma map_fst_combine {A B} (l : list A) (l' : list B) :
  length l' = length l -> map fst (combine l l') = l.
Proof using.
  revert l'. induction l as [|x l IH]; intros [|y l']; cbn; try done. intros [= H]. by rewrite IH.
Qed.
Lemma moved_set_header f s :
  coherent s -> (forall h, ledgerVersion (f h) = ledgerVersion h /\
                           header_weight (f h) = header_weight h) ->
  moved s (mkState (f (st_header s)) (st_entries s)) 0.
Proof using.
  intros Hc Hf. destruct (Hf (st_header s)) as [V W].
  eapply moved_eqm; [by apply moved_header|]. rewrite W. apply eqm_eq. lia.
Qed.

(** What the ledger is like when [closeLedger] returns. *)
Definition closed (lclHash : Hash) (txSet : TxSetFrame) (sv : StellarValue UpgradeType)
    (s : LedgerState) (results : list TransactionResult) (s' : LedgerState) : Prop :=
  ledgerVersion (st_header s) <= CURRENT_LEDGER_PROTOCOL_VERSION /\
  mPreviousLedgerHash txSet = lclHash /\
  hashTxSet lclHash (map tx_frame (std_sort HashTxSorter (mTransactions txSet))) = sv_txSetHash sv /\
  length results = length (mTransactions txSet) /\
  coherent s' /\
  s64 (lumens_drift s') = s64 (lumens_drift s) /\
  (in_s64 (lumens_drift s) -> in_s64 (lumens_drift s') -> lumens_drift s' = lumens_drift s).

(** C2. Conservation of lumens, for a whole ledger.  From protocol version 8
    on, whatever the transaction set, however its transactions end (a
    transaction that throws is undone and counts as failed) and whatever
    upgrades follow (one that throws is skipped): if the ledger closes, then
    its version was supported and the set was the agreed one for the last
    closed ledger; every transaction has a result; and account balances plus
    fee pool less total coins are what they were. *)
Theorem closeLedger_conserves_lumens lclHash txSet sv s :
  coherent s -> balances64 s -> 8 <= ledgerVersion (st_header s) ->
  typed_txs (mTransactions txSet) ->
  match closeLedger xdr_from_opaque lclHash txSet sv s with
  | Ok (results, s') => closed lclHash txSet sv s results s'
  | Throw _ => True
  end.
Proof using.
  intros Hc Hb Hv Ht.
  enough (H : wlp (closeLedger xdr_from_opaque lclHash txSet sv)
                (closed lclHash txSet sv s) s).
  { unfold wlp in H. by destruct (closeLedger _ _ _ _ s) as [[results s']|]. }
  unfold closeLedger. apply wlp_bind, wlp_bind, wlp_currentHeader, wlp_setHeader.
  apply wlp_bind, wlp_currentHeader. cbn [st_header st_entries set_ledgerSeq ledgerVersion].
  destruct (Z.ltb_spec CURRENT_LEDGER_PROTOCOL_VERSION (ledgerVersion (st_header s)))
    as [|Hver]; [done|].
  cbn [previousLedgerHash].
  destruct (Z.eqb_spec (mPreviousLedgerHash txSet) lclHash) as [Hprev|]; [|done]. cbn [negb].
  set (txSet0 := mkTxSet false _ _ _).
  pose proof (getContentsHash_perm txSet0) as Hperm. unfold closed.
  assert (Hh : (txset_getContentsHash txSet0).1 =
    hashTxSet lclHash (map tx_frame (std_sort HashTxSorter (mTransactions txSet))))
    by (cbn; by rewrite Hprev).
  destruct (txset_getContentsHash txSet0) as [h txSet1]. cbn [fst snd] in *.
  destruct (Z.eqb_spec h (sv_txSetHash sv)) as [Hhash|]; [|done]. rewrite Hh in Hhash. cbn [negb].
  apply wlp_bind, wlp_bind, wlp_currentHeader, wlp_setHeader. cbn [st_entries st_header].
  set (s1 := mkState (set_closeTime _ _) _).
  assert (H1 : moved s s1 0).
  { apply (moved_set_header (fun h => set_closeTime (sv_closeTime sv)
             (set_ledgerSeq (u32 (ledgerSeq h + 1)) h))); done. }
  pose proof (sortForApply_perm txSet1) as Hsort.
  destruct (sortForApply txSet1) as [txs ts']. cbn [fst] in Hsort.
  rewrite Hperm in Hsort. apply wlp_bind. eapply wlp_mono.
  { by apply (processFeesSeqNums_lumens txs s). }
  intros rs s2 [H2 Hl]. apply wlp_bind. eapply wlp_mono.
  { apply (applyTransactions_lumens _ s); [done|done|].
    rewrite map_fst_combine by done. by eapply typed_txs_perm; [symmetry|]. }
  intros rs' s3 [H3 Hl']. apply wlp_bind. eapply wlp_mono; [apply conserves_applyUpgrades|].
  intros ? s4 H4. destruct H3 as (Hc3 & _ & E3). destruct (H4 Hc3) as [Hc4 E4]. apply wlp_ret.
  do 3 (split; [done|]). split; [|split; [done|]].
  - rewrite Hl', length_combine, Hl, Nat.min_id. by apply Permutation_length.
  - apply eqm_drift. by rewrite E4, E3, Z.add_0_r.
Qed.
End WithExternals.

(** ** An example: the transaction that creates an account, one that cannot be
    applied, and an upgrade of the base fee. *)
Definition close_externals : TxSetExternals := {|
  getFullHash env := tx_seqNum (env_tx env);
  hashTxSet prev envs := prev + Z.of_nat (length envs) |}.
Definition close_other : TransactionEnvelope :=
  mkEnvelope (mkTransaction 1 100 20 None [] (tx_operations (env_tx sample_env))) [].
Definition close_set : TxSetFrame :=
  mkTxSet false 0 77 [mkTx 2 close_other; mkTx 1 sample_env].
Definition close_value : StellarValue LedgerUpgrade :=
  mkStellarValue 79 1000 [LEDGER_UPGRADE_BASE_FEE 250].
Definition close_run : outcome (list TransactionResult * LedgerState) :=
  closeLedger (Ext := sample_externals) (TxExt := close_externals) (Sort := insertion_StdSort)
    Some 77 close_set close_value sample_before.

Example close_run_results :
  match close_run with
  | Ok (results, s) =>
      map tx_result results =
        [txSUCCESS [opINNER (RES_CREATE_ACCOUNT CREATE_ACCOUNT_SUCCESS)]; txError txBAD_SEQ] /\
      feePool (st_header s) = 200 /\ baseFee (st_header s) = 250 /\ lumens_held s = 5000
  | Throw _ => False
  end.
Proof. vm_compute. auto. Qed.

Lemma closeLedger_conserves_lumens_witness :
  match close_run with
  | Ok (results, s') =>
      @closed close_externals insertion_StdSort LedgerUpgrade 77 close_set close_value
        sample_before results s'
  | Throw _ => True
  end.
Proof.
  apply (closeLedger_conserves_lumens (Ext := sample_externals) (TxExt := close_externals)
           (Sort := insertion_StdSort) Some 77 close_set close_value sample_before).
  - exact sample_coherent.
  - intros a acc. cbn [sample_before st_entries].
    destruct (decide (KeyAccount 1 = KeyAccount a)) as [<-|Ha].
    + rewrite lookup_insert_eq. intros [= <-]. split; vm_compute; congruence.
    + by rewrite lookup_insert_ne, lookup_empty.
  - vm_compute; discriminate.
  - repeat constructor.
Defined.
