(* ===== verification/ValidFees.v ===== *)
(** A valid transaction set can pay: when the ledger closes, every transaction
    of a set that [checkValid] accepted is charged its whole fee. *)

From stdpp Require Import sorting.
From S2P Require Import Prelude Numeric OfferMath Types Sorting OfferOrder LedgerTxn.
From S2P Require Import LedgerState TransactionUtils OfferExchange Operations Upgrades.
From S2P Require Import Payments ManageOffers Transactions.
From S2P Require Import TransactionEffects TxSets ApplyOrder TrimValid LedgerClose.

Definition fees (txs : list TransactionFramePtr) : Z := foldr (fun tx z => getFee tx + z) 0 txs.

Lemma fees_app l1 l2 : fees (l1 ++ l2) = fees l1 + fees l2.
Proof. induction l1 as [|x l1 IH]; cbn; [done|]. fold (fees (l1 ++ l2)) (fees l1). lia. Qed.
#[export] Instance fees_perm : Proper (Permutation ==> eq) fees.
Proof. induction 1; cbn in *; unfold fees in *; lia. Qed.

(** An account as the ledger keeps it: the reserve and what its offers sell
    are not negative and fit together. *)
Definition sound_account (h : LedgerHeader) (acc : AccountEntry) : Prop :=
  amount (acc_balance acc) /\
  0 <= getMinBalance h (acc_numSubEntries acc) /\
  0 <= selling (liabilities_of (acc_ext acc)) /\
  getMinBalance h (acc_numSubEntries acc) + selling (liabilities_of (acc_ext acc)) <= INT64_MAX.
Definition sound_accounts (s : LedgerState) : Prop :=
  forall a acc, st_entries s !! KeyAccount a = Some (ACCOUNT acc) -> sound_account (st_header s) acc.

Lemma available_le h acc avail :
  10 <= ledgerVersion h -> sound_account h acc ->
  getAvailableBalance h (ACCOUNT acc) = Ok avail -> avail <= acc_balance acc.
Proof.
  intros Hv (Hb & Hm & Hs & Hsum) H. unfold getAvailableBalance in H.
  rewrite (proj2 (Z.leb_le 10 _)) in H by done. unfold getSellingLiabilities in H.
  inv_ok H. rewrite (proj2 (Z.ltb_ge _ 10)) in H1 by done.
  injection H0 as <-. injection H1 as <-. unfold liabilities_of in Hs, Hsum.
  generalize dependent (getMinBalance h (acc_numSubEntries acc)). intros m Hm Hsum.
  assert (He : (match acc_ext acc with None => 0 | Some l => selling l end)
               = selling (default (mkLiabilities 0 0) (acc_ext acc)))
    by (by destruct (acc_ext acc)).
  rewrite He. rewrite (s64_id (acc_balance acc - m)) by (unfold_ints; lia).
  rewrite s64_id; unfold_ints; lia.
Qed.

Section WithExternals.
Context `{Ext : Externals} `{TxExt : TxSetExternals} `{Sort : StdSort}.

(** ** What a set that passes is made of *)
Lemma checkAccountTxs_all s txs lastTx cur totFee r st' s' :
  checkAccountTxs (fun _ _ (st : unit) => (false, st)) txs lastTx cur totFee tt s = Ok (r, st', s') ->
  s' = s /\ (r = None \/ chain s txs cur /\ r = Some (summary txs lastTx totFee)).
Proof using.
  revert lastTx cur totFee. induction txs as [|tx txs IH]; intros lastTx cur totFee; cbn.
  { intros [= <- <- <-]. auto. }
  unfold mbind, M_bind. destruct (tx_checkValid (tx_frame tx) cur s) as [[[ok r1] s1]|] eqn:E; [|done].
  pose proof E as [-> _]%tx_checkValid_Ok. destruct ok; cbn [negb].
  - intros H%IH. destruct H as [-> [->|[Hc ->]]]; split; auto. right. split; [|done]. split; [by eexists|done].
  - intros [= <- <- <-]. auto.
Qed.
Lemma checkAccounts_all s l s' u :
  checkAccounts (fun _ _ (st : unit) => (false, st)) (fun _ st => (false, st)) l tt s = Ok (true, u, s') ->
  Forall (fun ai => chain s (std_sort SeqSorter ai.2) 0 /\ funded s (std_sort SeqSorter ai.2)) l.
Proof using.
  induction l as [|[a item] l IH]; cbn [checkAccounts]; [constructor|].
  unfold mbind at 1, M_bind at 1.
  destruct (checkAccountTxs _ _ _ _ _ _ s) as [[[r st1] s1]|] eqn:E; [|done].
  apply checkAccountTxs_all in E as [-> [->|[Hc ->]]]; [done|]. destruct st1.
  destruct (summary (std_sort SeqSorter item) None 0) as [[lastTx|] fee] eqn:Esum.
  - unfold loadAccount, exists_entry, mbind, M_bind. cbv beta iota.
    destruct (read _ _ s) as [[avail s2]|] eqn:Er; [|done].
    assert (s2 = s) as -> by (apply read_state in Er; done).
    destruct (Z.ltb_spec avail fee) as [Hlt|Hge]; [done|]. intros H%IH. constructor; [|done].
    split; [done|]. cbn [snd]. unfold funded. rewrite Esum. by exists avail.
  - intros H%IH. constructor; [|done]. split; [done|]. cbn [snd]. unfold funded. by rewrite Esum.
Qed.

Lemma summary_fees txs lastTx f :
  Forall (fun tx => in_u32 (getFee tx)) txs -> 0 <= f ->
  f + Z.of_nat (length txs) * UINT32_MAX <= INT64_MAX ->
  (summary txs lastTx f).2 = f + fees txs.
Proof using.
  intros Ht. revert lastTx f. induction Ht as [|tx txs Htx _ IH]; intros lastTx f Hf Hb; cbn.
  { lia. }
  cbn [length] in Hb. unfold in_u32, UINT32_MAX, INT64_MAX in *.
  rewrite s64_id by (unfold_ints; lia).
  change ((summary txs (Some tx) (f + getFee tx)).2 = f + (getFee tx + fees txs)).
  rewrite IH by lia. lia.
Qed.
Lemma summary_last txs lastTx f :
  txs <> [] -> exists tx, (summary txs lastTx f).1 = Some tx /\ In tx txs.
Proof using.
  revert lastTx f. induction txs as [|x txs IH]; [done|]. intros lastTx f _.
  destruct txs as [|y txs]; [exists x; cbn; auto|].
  destruct (IH (Some x) (s64 (f + getFee x))) as (tx & E & Hin); [done|]. exists tx. split; [done|by right].
Qed.

(** ** The accounts can pay for the transactions to come *)
Definition covers (s : LedgerState) (txs : list TransactionFramePtr) : Prop :=
  forall a, of_account a txs <> [] -> exists acc,
    st_entries s !! KeyAccount a = Some (ACCOUNT acc) /\
    amount (acc_balance acc) /\ fees (of_account a txs) <= acc_balance acc.

Lemma In_of_account a tx txs : In tx (of_account a txs) <-> In tx txs /\ ptr_source tx = a.
Proof using. unfold of_account. by rewrite filter_In, Z.eqb_eq. Qed.
Lemma of_account_fees a txs :
  Forall (fun tx => in_u32 (getFee tx)) txs ->
  Forall (fun tx => in_u32 (getFee tx)) (of_account a txs).
Proof using.
  rewrite !Forall_forall. intros H x Hx%list_elem_of_In%In_of_account.
  apply H, list_elem_of_In. by destruct Hx.
Qed.

Lemma account_covered s a item acc :
  10 <= ledgerVersion (st_header s) -> sound_account (st_header s) acc ->
  st_entries s !! KeyAccount a = Some (ACCOUNT acc) ->
  item <> [] -> (forall tx, In tx item -> ptr_source tx = a) ->
  Forall (fun tx => in_u32 (getFee tx)) item ->
  Z.of_nat (length item) <= INT32_MAX -> funded s item ->
  fees item <= acc_balance acc.
Proof using.
  intros Hv Hs Ha Hne Hsrc Hfee Hlen Hf. unfold funded in Hf.
  destruct (summary_last item None 0 Hne) as (tx & Etx & Hin).
  pose proof (summary_fees item None 0 Hfee) as Efee.
  destruct (summary item None 0) as [lt fee]. cbn [fst snd] in *. subst lt.
  destruct Hf as (avail & Hr & Hle). rewrite (Hsrc tx Hin) in Hr.
  unfold read, current, lift, mbind, M_bind in Hr. cbn in Hr. rewrite Ha in Hr.
  destruct (getAvailableBalance _ _) as [x|] eqn:Ea; [|done]. injection Hr as ->.
  apply available_le in Ea; [|done..]. rewrite Efee in Hle; unfold_ints; lia.
Qed.

Lemma chain_account s item :
  chain s item 0 -> item <> [] -> exists tx acc, In tx item /\
    st_entries s !! KeyAccount (ptr_source tx) = Some (ACCOUNT acc).
Proof using.
  destruct item as [|x item]; [done|]. intros [[r Hr] _] _.
  pose proof (tx_checkValid_seqNum (tx_frame x) 0 s) as Hq. unfold wlp in Hq. rewrite Hr in Hq.
  destruct Hq as (acc & Hacc & _); [done|]. exists x, acc. by split; [left|].
Qed.
Lemma valid_covers lcl ts s s' :
  10 <= ledgerVersion (st_header s) -> sound_accounts s ->
  Forall (fun tx => in_u32 (getFee tx)) (mTransactions ts) ->
  Z.of_nat (length (mTransactions ts)) <= INT32_MAX ->
  txset_checkValid lcl ts s = Ok (true, s') -> covers s (mTransactions ts).
Proof using.
  intros Hv Hs Hfee Hlen. unfold txset_checkValid. destruct (negb _); [done|].
  unfold currentHeader, mbind at 1, M_bind at 1. destruct (_ <? _); [done|].
  unfold checkOrTrim. destruct (groupByAccount _ 0 ∅) as [m|] eqn:Hm; [|done].
  unfold mbind, M_bind, nested.
  destruct (checkAccounts _ _ _ _ s) as [[[b u] s1]|] eqn:E; [|done]. cbn. intros [= -> <-].
  apply checkAccounts_all in E. rewrite Forall_forall in E.
  intros a Ha. specialize (E (a, of_account a (mTransactions ts))). cbn [snd] in E.
  destruct E as [Hc Hf].
  { apply list_elem_of_In. by apply (in_key_order_grouped _ _ Hm). }
  set (item := std_sort _ _) in *.
  assert (Hp : Permutation item (of_account a (mTransactions ts))) by apply std_sort_perm.
  assert (Hsrc : forall tx, In tx item -> ptr_source tx = a).
  { intros tx Hx. apply (Permutation_in _ Hp), In_of_account in Hx. by destruct Hx. }
  assert (Hne : item <> []) by (intros E; rewrite E in Hp; by apply Permutation_nil_l in Hp).
  destruct (chain_account s item Hc Hne) as (x & acc & Hx & Hacc). rewrite (Hsrc x Hx) in Hacc.
  exists acc. split; [done|]. split; [by apply (Hs a)|]. rewrite <- Hp.
  apply (account_covered s a); auto.
  - by apply (Hs a).
  - rewrite Hp. by apply of_account_fees.
  - rewrite Hp. unfold of_account. pose proof (filter_length_le (fun tx => ptr_source tx =? a) (mTransactions ts)). lia.
Qed.

(** ** Charging the fees *)
Lemma covers_perm s txs txs' : Permutation txs txs' -> covers s txs -> covers s txs'.
Proof using.
  intros Hp Hc a Ha. pose proof (of_account_perm a _ _ Hp) as Hpa.
  destruct (Hc a) as (acc & Hacc & Ham & Hle).
  - intros E. rewrite E in Hpa. by apply Permutation_nil_l in Hpa.
  - exists acc. by rewrite <- Hpa.
Qed.
Lemma of_account_cons a tx txs :
  of_account a (tx :: txs) = if ptr_source tx =? a then tx :: of_account a txs else of_account a txs.
Proof using. done. Qed.
Lemma fees_nonneg txs : Forall (fun tx => in_u32 (getFee tx)) txs -> 0 <= fees txs.
Proof using.
  induction 1 as [|tx txs Htx _ IH]; cbn; [lia|]. fold (fees txs). unfold_ints. lia.
Qed.

Lemma covers_pay s tx txs acc acc' h' :
  covers s (tx :: txs) -> Forall (fun tx => in_u32 (getFee tx)) (tx :: txs) ->
  st_entries s !! KeyAccount (ptr_source tx) = Some (ACCOUNT acc) ->
  acc_balance acc' = acc_balance acc - getFee tx ->
  covers (mkState h' (<[KeyAccount (ptr_source tx) := ACCOUNT acc']> (st_entries s))) txs.
Proof using.
  intros Hc Hf Hacc Hb a Ha. apply Forall_cons in Hf as [Hftx Hf]. cbn [st_entries].
  specialize (Hc a). rewrite of_account_cons in Hc. revert Hc.
  destruct (Z.eqb_spec (ptr_source tx) a) as [E|Hn]; intros Hc; [subst a|].
  - rewrite lookup_insert_eq. exists acc'. split; [done|].
    destruct Hc as (acc0 & H0 & Ham & Hle); [done|]. rewrite Hacc in H0. injection H0 as <-.
    cbn [fees foldr] in Hle. fold (fees (of_account (ptr_source tx) txs)) in Hle.
    pose proof (fees_nonneg _ (of_account_fees (ptr_source tx) _ Hf)). rewrite Hb. unfold_ints. lia.
  - rewrite lookup_insert_ne by congruence. by apply Hc.
Qed.

(** One fee, at protocol version 10 or later. *)
Lemma fee_charged s tx txs :
  10 <= ledgerVersion (st_header s) -> covers s (tx :: txs) ->
  Forall (fun tx => in_u32 (getFee tx)) (tx :: txs) ->
  wp (processFeeSeqNum (env_tx (tx_frame tx)))
    (fun res s' => feeCharged res = getFee tx /\ covers s' txs /\
       ledgerVersion (st_header s') = ledgerVersion (st_header s) /\
       s64 (feePool (st_header s')) = s64 (feePool (st_header s) + getFee tx)) s.
Proof using.
  intros Hv Hc Hf. destruct (Hc (ptr_source tx)) as (acc & Hacc & Ham & Hle).
  { by rewrite of_account_cons, Z.eqb_refl. }
  rewrite of_account_cons, Z.eqb_refl in Hle. cbn [fees foldr] in Hle.
  pose proof Hf as [Hftx Hfs]%Forall_cons.
  pose proof (fees_nonneg _ (of_account_fees (ptr_source tx) _ Hfs)) as Hnn.
  unfold fees in Hnn. unfold processFeeSeqNum, loadSourceAccount, loadAccount.
  change (tx_sourceAccount _) with (ptr_source tx). change (tx_fee _) with (getFee tx).
  apply wp_bind, wp_exists_entry; [by eexists|]. cbn [negb].
  apply wp_bind, wp_bind. eapply wp_current; [exact Hacc|]. eapply wp_lift; [done|].
  cbn [feeCharged resetResults]. change (tx_fee _) with (getFee tx).
  assert (Hlast : forall s1, covers s1 txs ->
    ledgerVersion (st_header s1) = ledgerVersion (st_header s) ->
    s64 (feePool (st_header s1)) = s64 (feePool (st_header s) + getFee tx) ->
    wp (header ← currentHeader;
        _ ← (if ledgerVersion header <=? 9 then
               if negb (s64 (acc_seqNum acc + 1) =? tx_seqNum (env_tx (tx_frame tx)))
               then throw "Unexpected account state"
               else updateAccount (KeyAccount (ptr_source tx))
                      (set_seqNum (tx_seqNum (env_tx (tx_frame tx))))
             else mret tt);
        mret (mkTxResult (getFee tx) (tx_result (resetResults (env_tx (tx_frame tx))))))
      (fun res s' => feeCharged res = getFee tx /\ covers s' txs /\
       ledgerVersion (st_header s') = ledgerVersion (st_header s) /\
       s64 (feePool (st_header s')) = s64 (feePool (st_header s) + getFee tx)) s1).
  { intros s1 Hs1 Hv1 Hp1. apply wp_bind, wp_currentHeader, wp_bind.
    rewrite (proj2 (Z.leb_gt _ 9)) by lia. apply wp_ret, wp_ret. auto. }
  destruct (Z.ltb_spec 0 (getFee tx)) as [Hpos|Hzero].
  - rewrite Z.min_r by lia. apply wp_bind, wp_bind.
    rewrite (s64_id (- getFee tx)) by (unfold_ints; lia).
    eapply wp_lift; [apply addBalance_eq; unfold_ints; lia|].
    rewrite (proj2 (Z.eqb_neq _ 0)) by lia.
    rewrite (proj2 (orb_false_iff _ _))
      by (split; [apply Z.ltb_ge|apply Z.ltb_ge]; unfold_ints; lia).
    cbn [default from_option id]. apply wp_bind, wp_bind. eapply wp_current; [exact Hacc|].
    apply wp_bind. eapply wp_lift; [done|]. unfold wp at 1, setCurrent. cbv beta iota.
    apply wp_bind, wp_currentHeader. unfold wp at 1, setHeader. cbv beta iota.
    apply Hlast; [|done|].
    + eapply covers_pay; [exact Hc|exact Hf|exact Hacc|cbn; lia].
    + cbn. apply s64_id, s64_range.
  - apply wp_bind, wp_ret. assert (E : getFee tx = 0) by (unfold_ints; lia).
    apply Hlast; [|done|by rewrite E, Z.add_0_r].
    intros a Ha. specialize (Hc a). rewrite of_account_cons in Hc. revert Hc.
    destruct (Z.eqb_spec (ptr_source tx) a) as [E'|Hn]; intros Hc; [subst a|by apply Hc].
    destruct Hc as (acc0 & H0 & Ham0 & Hle0); [done|]. exists acc0. do 2 (split; [done|]).
    cbn [fees foldr] in Hle0. fold (fees (of_account (ptr_source tx) txs)) in Hle0. lia.
Qed.

(** C31. A valid transaction set can pay.  From protocol version 10 on, in a
    ledger whose accounts are sound (balances and selling liabilities in range
    and not negative), if [checkValid] accepts a transaction set, of a size
    and with fees as XDR can carry them, then when that ledger is closed with
    it - whatever the order in which the transactions are applied - charging
    the fees does not throw, every transaction is charged exactly the fee it
    offers, and the fee pool grows by their sum.  Before version 10 charging
    a fee also checks the sequence number, and throws if transactions of one
    account come in another order. *)
Theorem valid_set_pays lclHash ts s s' s1 txs :
  10 <= ledgerVersion (st_header s) -> sound_accounts s ->
  Forall (fun tx => in_u32 (getFee tx)) (mTransactions ts) ->
  Z.of_nat (length (mTransactions ts)) <= INT32_MAX ->
  txset_checkValid lclHash ts s = Ok (true, s') ->
  st_entries s1 = st_entries s -> ledgerVersion (st_header s1) = ledgerVersion (st_header s) ->
  Permutation txs (mTransactions ts) ->
  exists results s2,
    processFeesSeqNums txs s1 = Ok (results, s2) /\
    map feeCharged results = map getFee txs /\
    s64 (feePool (st_header s2)) = s64 (feePool (st_header s1) + fees txs).
Proof using.
  intros Hv Hs Hfee Hlen Hvalid He Hver Hp.
  pose proof (valid_covers _ _ _ _ Hv Hs Hfee Hlen Hvalid) as Hc.
  assert (Hc1 : covers s1 txs).
  { apply (covers_perm _ (mTransactions ts)); [done|]. intros a Ha. rewrite He. by apply Hc. }
  rewrite <- Hp in Hfee. rewrite <- Hver in Hv.
  clear -Hv Hc1 Hfee. revert s1 Hv Hc1.
  induction txs as [|tx txs IH]; intros s1 Hv Hc1; cbn [processFeesSeqNums].
  { exists [], s1. do 2 (split; [done|]). cbn. by rewrite Z.add_0_r. }
  pose proof (fee_charged s1 tx txs Hv Hc1 Hfee) as Hw. apply Forall_cons in Hfee as [_ Hfee].
  unfold wp in Hw. unfold mbind, M_bind.
  destruct (processFeeSeqNum _ s1) as [[res s2]|]; [|done]. destruct Hw as (Er & Hc2 & Hv2 & Ep).
  destruct (IH Hfee s2) as (results & s3 & E3 & Er3 & Ep3); [lia|done|]. unfold mbind, M_bind in E3.
  rewrite E3. exists (res :: results), s3. split; [done|]. split; [cbn; by rewrite Er, Er3|].
  rewrite Ep3. cbn [fees foldr]. fold (fees txs). rewrite <- s64_add_l, Ep, s64_add_l. f_equal. lia.
Qed.
End WithExternals.

(** ** A witness: the trimmed sample of [TrimValid] *)
Lemma valid_set_pays_witness :
  exists results s2,
    processFeesSeqNums (mTransactions sample_left) sample_before = Ok (results, s2) /\
    map feeCharged results = [100; 100; 100] /\
    s64 (feePool (st_header s2)) = s64 (feePool (st_header sample_before) + 300).
Proof.
  apply (@valid_set_pays sample_externals sample_txset_externals insertion_StdSort
    77 sample_left sample_before sample_before sample_before (mTransactions sample_left)).
  - vm_compute. discriminate.
  - intros a acc. cbn [sample_before st_entries].
    intros [[= <-] [= <-]]%(lookup_singleton_Some (M := gmap LedgerKey)).
    unfold sound_account. unfold_ints. vm_compute. intuition discriminate.
  - repeat constructor; vm_compute; discriminate.
  - vm_compute. discriminate.
  - vm_compute. reflexivity.
  - reflexivity.
  - reflexivity.
  - reflexivity.
Defined.
