(* ===== verification/UpgradeCycle.v ===== *)
(** The life of an upgrade: what a node proposes it also accepts, and once it
    is applied the node proposes nothing more.  The example at the end shows
    what a base reserve upgrade leaves behind. *)

From S2P Require Import Prelude Numeric OfferMath Types Sums OfferOrder LedgerTxn.
From S2P Require Import LedgerState TransactionUtils OfferExchange Operations Upgrades.

(** ** Preparing liabilities leaves the header alone *)
Definition same_header (s s' : LedgerState) : Prop := st_header s' = st_header s.
#[export] Instance same_header_preorder : PreOrder same_header.
Proof. split; unfold same_header; [by intros s|]. by intros a b c -> ->. Qed.

Lemma header_modify k f : keeps same_header (modify k f).
Proof. intros s. apply wlp_modify. intros d _. by destruct (f _ d) as [[]|]. Qed.
Lemma header_erase k : keeps same_header (eraseEntry k).
Proof. intros s. by apply wlp_erase. Qed.
Lemma header_setCurrent k d : keeps same_header (setCurrent k d).
Proof. done. Qed.
#[local] Hint Resolve header_modify header_erase header_setCurrent : keeps.
Lemma header_setOfferAmount k x : keeps same_header (setOfferAmount k x).
Proof. unfold setOfferAmount. keeps_auto. Qed.
#[local] Hint Resolve header_setOfferAmount : keeps.

Lemma header_line w x :
  keeps same_header (line_addBuyingLiabilities w x) /\
  keeps same_header (line_addSellingLiabilities w x).
Proof. split; (apply keeps_getImpl; [exact _|]); intros []; cbn; keeps_easy. Qed.
Lemma header_storeLiabilities id asset liab : keeps same_header (storeLiabilities id asset liab).
Proof.
  unfold storeLiabilities, loadTrustLine. destruct (is_native asset); [keeps_auto|].
  apply keeps_bind; [exact _|keeps_easy|intros w].
  destruct (keeps_line_liabilities same_header w).
  pose proof (fun x => proj1 (header_line w x)). pose proof (fun x => proj2 (header_line w x)).
  keeps_auto.
Qed.
Lemma header_storeAllLiabilities id l : keeps same_header (storeAllLiabilities id l).
Proof.
  induction l as [|[asset liab] l IH]; cbn [storeAllLiabilities]; [keeps_easy|].
  apply keeps_bind; [exact _|apply header_storeLiabilities|done].
Qed.
Lemma header_updateOffer k balance above l b sl :
  keeps same_header (updateOffer k balance above l b sl).
Proof.
  unfold updateOffer, shouldDeleteOffer, getAvailableBalanceExcludingLiabilities,
    getAvailableLimitExcludingLiabilities, keepOffer, addBuyingTo, addSellingTo. keeps_auto.
Qed.
Lemma header_prepareAccount id offers : keeps same_header (prepareAccount id offers).
Proof.
  assert (Hi : forall b sl, keeps same_header (initialLiabilities offers b sl)).
  { clear id. induction offers as [|k offers IH]; intros; cbn [initialLiabilities]; keeps_auto. }
  assert (Hu : forall l balance above b sl,
    keeps same_header (updateOffers id offers balance above l b sl)).
  { clear Hi. induction offers as [|k offers IH]; intros; cbn [updateOffers]; [keeps_easy|].
    apply keeps_bind; [exact _|apply header_updateOffer|intros [res l']].
    apply keeps_bind; [exact _| |intros _; apply IH]. destruct res; keeps_auto. }
  unfold prepareAccount, loadAccount.
  apply keeps_bind; [exact _|apply Hi|intros [b sl]].
  apply keeps_bind; [exact _|keeps_easy|intros found]. destruct (negb found); [keeps_easy|].
  apply keeps_bind; [exact _|keeps_auto|intros acc].
  apply keeps_bind; [exact _|keeps_easy|intros header].
  apply keeps_bind; [exact _|apply Hu|intros l]. apply header_storeAllLiabilities.
Qed.
Lemma header_prepareLiabilities : keeps same_header prepareLiabilities.
Proof.
  intros s. unfold prepareLiabilities, mbind, M_bind, allOffers, wlp.
  assert (H : forall l, keeps same_header (prepareAccounts l)).
  { induction l as [|[id offers] l IH]; cbn [prepareAccounts]; [keeps_easy|].
    apply keeps_bind; [exact _|apply header_prepareAccount|done]. }
  apply H.
Qed.

(** ** What an upgrade does to the header *)
Definition upgraded (u : LedgerUpgrade) (h : LedgerHeader) : LedgerHeader :=
  match u with
  | LEDGER_UPGRADE_VERSION v => set_ledgerVersion v h
  | LEDGER_UPGRADE_BASE_FEE f => set_baseFee f h
  | LEDGER_UPGRADE_MAX_TX_SET_SIZE m => set_maxTxSetSize m h
  | LEDGER_UPGRADE_BASE_RESERVE r => set_baseReserve r h
  end.
Lemma wlp_applyTo u s : wlp (applyTo u) (fun _ s' => st_header s' = upgraded u (st_header s)) s.
Proof.
  assert (Hl : forall (b : bool) s1,
    wlp (if b then prepareLiabilities else mret tt) (fun _ s' => st_header s' = st_header s1) s1).
  { intros [] s1; [apply header_prepareLiabilities|by apply wlp_ret]. }
  destruct u; cbn [applyTo].
  - apply wlp_bind, wlp_currentHeader, wlp_bind, wlp_setHeader.
    eapply wlp_mono; [apply Hl|]. by intros _ s' ->.
  - by apply wlp_bind, wlp_currentHeader, wlp_setHeader.
  - by apply wlp_bind, wlp_currentHeader, wlp_setHeader.
  - apply wlp_bind, wlp_currentHeader, wlp_bind, wlp_setHeader.
    eapply wlp_mono; [apply Hl|]. by intros _ s' ->.
Qed.

Fixpoint applyAll (us : list LedgerUpgrade) : M unit :=
  match us with [] => mret tt | u :: us => _ ← applyTo u; applyAll us end.
Lemma wlp_applyAll us s :
  wlp (applyAll us) (fun _ s' => st_header s' = fold_left (fun h u => upgraded u h) us (st_header s)) s.
Proof.
  revert s. induction us as [|u us IH]; intros s; cbn [applyAll fold_left]; [done|].
  apply wlp_bind. eapply wlp_mono; [apply wlp_applyTo|]. intros ? s1 E1.
  eapply wlp_mono; [apply IH|]. intros ? s2 E2. by rewrite E2, E1.
Qed.

(** What validation asks of the value of an upgrade, beyond that the node wishes it. *)
Definition sensible (limit : Z) (h : LedgerHeader) (u : LedgerUpgrade) : bool :=
  match u with
  | LEDGER_UPGRADE_VERSION v => (ledgerVersion h <? v) && (v <=? limit)
  | LEDGER_UPGRADE_BASE_FEE v | LEDGER_UPGRADE_MAX_TX_SET_SIZE v | LEDGER_UPGRADE_BASE_RESERVE v => negb (v =? 0)
  end.

Lemma in_propose o now u x : In x (propose o now u) <-> exists v, o = Some v /\ now <> v /\ x = u v.
Proof.
  unfold propose. destruct o as [v|]; [|split; [done|by intros (? & ? & _)]].
  destruct (Z.eqb_spec now v) as [E|E]; cbn; split.
  - done.
  - by intros (w & [= <-] & Hn & _).
  - intros [<-|[]]. by exists v.
  - intros (w & [= <-] & _ & ->). by left.
Qed.
Lemma propose_nil o now u : (forall v, o = Some v -> now = v) -> propose o now u = [].
Proof.
  intros H. destruct (propose o now u) as [|x l] eqn:E; [done|].
  assert (Hx : In x (propose o now u)) by (rewrite E; by left).
  apply in_propose in Hx as (v & Hv & Hn & _). by apply H in Hv.
Qed.

Section Opaque.
Context {UpgradeType : Type} (xdr_from_opaque : UpgradeType -> option LedgerUpgrade)
  (xdr_to_opaque : LedgerUpgrade -> UpgradeType).

Lemma created_isValid params limit h u :
  (forall u, xdr_from_opaque (xdr_to_opaque u) = Some u) ->
  In u (createUpgradesFor params h) ->
  isValid xdr_from_opaque params (xdr_to_opaque u) true limit h =
    if sensible limit h u then Some (upgrade_type u) else None.
Proof.
  intros Hx. unfold createUpgradesFor, isValid.
  destruct (timeForUpgrade _ _); cbn [negb andb]; [|done]. rewrite Hx.
  rewrite !in_app_iff, !in_propose.
  intros [(v & E & Hn & ->)|[(v & E & Hn & ->)|[(v & E & Hn & ->)|(v & E & Hn & ->)]]];
    rewrite E, Z.eqb_refl; cbn [andb sensible]; [by rewrite andb_comm|done..].
Qed.
(** [setParameters] sees to the limit only. *)
Lemma set_sensible params limit h u :
  setParameters params limit = Ok params -> In u (createUpgradesFor params h) ->
  sensible limit h u = match u with
                       | LEDGER_UPGRADE_VERSION v => ledgerVersion h <? v
                       | LEDGER_UPGRADE_BASE_FEE v | LEDGER_UPGRADE_MAX_TX_SET_SIZE v | LEDGER_UPGRADE_BASE_RESERVE v =>
                           negb (v =? 0)
                       end.
Proof.
  intros Hs Hu. destruct u as [v| | |]; try done. cbn [sensible]. unfold createUpgradesFor in Hu.
  destruct (timeForUpgrade _ _); [|done]. cbn [negb] in Hu. rewrite !in_app_iff, !in_propose in Hu.
  destruct Hu as [(w & E & _ & [= <-])|[(? & _ & _ & [=])|[(? & _ & _ & [=])|(? & _ & _ & [=])]]].
  unfold setParameters in Hs. rewrite E in Hs. destruct (Z.ltb_spec limit v); [done|].
  by rewrite (proj2 (Z.leb_le v limit)), andb_true_r by lia.
Qed.
End Opaque.

(** The header after all proposals is as the node wishes. *)
Lemma fold_propose (field : LedgerHeader -> Z) o now u h :
  (forall h v, field (upgraded (u v) h) = v) -> field h = now ->
  forall v, o = Some v ->
    field (fold_left (fun h u => upgraded u h) (propose o now u) h) = v.
Proof.
  intros Hu Hnow v ->. cbn. destruct (Z.eqb_spec now v); cbn; [congruence|apply Hu].
Qed.
Lemma fold_propose_other (field : LedgerHeader -> Z) o now u h :
  (forall h v, field (upgraded (u v) h) = field h) ->
  field (fold_left (fun h u => upgraded u h) (propose o now u) h) = field h.
Proof. intros Hu. destruct o as [v|]; cbn; [|done]. destruct (negb _); cbn; [apply Hu|done]. Qed.

Definition upgrade_all (us : list LedgerUpgrade) (h : LedgerHeader) : LedgerHeader :=
  fold_left (fun h u => upgraded u h) us h.
Lemma closeTime_upgrade_all us h : closeTime (upgrade_all us h) = closeTime h.
Proof.
  revert h. induction us as [|u us IH]; intros h; [done|].
  unfold upgrade_all in *. cbn. rewrite IH. by destruct u.
Qed.
Lemma createUpgrades_fixed params h :
  createUpgradesFor params (upgrade_all (createUpgradesFor params h) h) = [].
Proof.
  set (h' := upgrade_all _ h). unfold createUpgradesFor at 1. subst h'.
  rewrite closeTime_upgrade_all. unfold createUpgradesFor.
  destruct (negb (timeForUpgrade params (closeTime h))); [done|].
  unfold upgrade_all. rewrite !fold_left_app.
  rewrite !propose_nil; [done|..]; intros v Hv.
  - by apply fold_propose; [|repeat rewrite (fold_propose_other baseReserve)|].
  - rewrite (fold_propose_other maxTxSetSize) by done.
    by apply fold_propose; [|repeat rewrite (fold_propose_other maxTxSetSize)|].
  - do 2 rewrite (fold_propose_other baseFee) by done.
    by apply fold_propose; [|repeat rewrite (fold_propose_other baseFee)|].
  - do 3 rewrite (fold_propose_other ledgerVersion) by done. by apply fold_propose.
Qed.

Section Cycle.
Context {UpgradeType : Type} (xdr_from_opaque : UpgradeType -> option LedgerUpgrade)
  (xdr_to_opaque : LedgerUpgrade -> UpgradeType).

(** C32. What becomes of the upgrades a node proposes for a ledger.  With parameters that
    [setParameters] takes, its own validation for nomination accepts, with the right type, all
    but those that would lower the protocol version or set a fee, size or reserve of zero, which
    [setParameters] does not refuse; and once the proposals are applied - if none of them
    throws - the header is as the node wishes, so that it proposes nothing more. *)
Theorem upgrade_cycle params limit s :
  (forall u, xdr_from_opaque (xdr_to_opaque u) = Some u) ->
  setParameters params limit = Ok params ->
  let us := createUpgradesFor params (st_header s) in
  Forall (fun u => isValid xdr_from_opaque params (xdr_to_opaque u) true limit (st_header s) =
    if match u with
       | LEDGER_UPGRADE_VERSION v => ledgerVersion (st_header s) <? v
       | LEDGER_UPGRADE_BASE_FEE v | LEDGER_UPGRADE_MAX_TX_SET_SIZE v | LEDGER_UPGRADE_BASE_RESERVE v => negb (v =? 0)
       end
    then Some (upgrade_type u) else None) us /\
  match applyAll us s with
  | Ok (_, s') => createUpgradesFor params (st_header s') = []
  | Throw _ => True
  end.
Proof using.
  intros Hx Hset us. split.
  - apply Forall_forall. intros u Hu%list_elem_of_In. rewrite <- (set_sensible params limit) by done. by apply created_isValid.
  - pose proof (wlp_applyAll us s) as Hw. unfold wlp in Hw.
    destruct (applyAll us s) as [[[] s']|]; [|done]. rewrite Hw. apply createUpgrades_fixed.
Qed.
End Cycle.

(** ** A witness *)
Definition sample_params : UpgradeParameters :=
  mkUpgradeParameters 0 (Some 10) (Some 250) None (Some 20).
Definition old_ledger : LedgerState :=
  mkState (mkHeader 9 7 1000 100000 0 0 5 100 10 100) ∅.
(** The base reserve is not a wish that validation accepts. *)
Definition zero_params : UpgradeParameters := mkUpgradeParameters 0 (Some 10) (Some 250) None (Some 0).
Lemma upgrade_cycle_witness :
  createUpgradesFor zero_params (st_header old_ledger) =
    [LEDGER_UPGRADE_VERSION 10; LEDGER_UPGRADE_BASE_FEE 250; LEDGER_UPGRADE_BASE_RESERVE 0] /\
  Forall (fun u => isValid Some zero_params u true 10 (st_header old_ledger) =
    if match u with
       | LEDGER_UPGRADE_VERSION v => ledgerVersion (st_header old_ledger) <? v
       | LEDGER_UPGRADE_BASE_FEE v | LEDGER_UPGRADE_MAX_TX_SET_SIZE v | LEDGER_UPGRADE_BASE_RESERVE v => negb (v =? 0)
       end
    then Some (upgrade_type u) else None) (createUpgradesFor zero_params (st_header old_ledger)) /\
  match applyAll (createUpgradesFor sample_params (st_header old_ledger)) old_ledger with
  | Ok (_, s') => createUpgradesFor sample_params (st_header s') = []
  | Throw _ => True
  end.
Proof.
  split; [reflexivity|]. split.
  - exact (proj1 (upgrade_cycle Some (fun u => u) zero_params 10 old_ledger (fun _ => eq_refl) eq_refl)).
  - exact (proj2 (upgrade_cycle Some (fun u => u) sample_params 10 old_ledger (fun _ => eq_refl) eq_refl)).
Defined.

(** ** Stale liabilities

    When the reserve rises above what an account owns, its offers are erased,
    but only the liabilities of assets that still have an offer are stored
    anew: an account whose last offer in an asset is erased keeps the
    liabilities of that offer. *)
Definition eur : Asset := ALPHANUM4 [69; 85; 82; 0] 9.
Definition one_offer : LedgerState :=
  mkState (mkHeader 10 7 0 100000 0 0 5 100 10 100)
    (<[KeyAccount 1 := ACCOUNT (mkAccount 1 60 0 "" 2 None 0 "" (mkThresholds 1 0 0 0) []
                                 (Some (mkLiabilities 0 15)))]>
     (<[KeyTrustLine 1 eur := TRUSTLINE (mkTrustLine 1 eur 0 1000 1 (Some (mkLiabilities 30 0)))]>
      (<[KeyOffer 1 5 := OFFER (mkOffer 1 5 ASSET_NATIVE eur 15 (mkPrice 2 1) 0)]> ∅))).
Example stale_liabilities :
  match applyTo (LEDGER_UPGRADE_BASE_RESERVE 12) one_offer with
  | Ok (_, s) =>
      st_entries s !! KeyOffer 1 5 = None /\
      (match st_entries s !! KeyAccount 1 with
       | Some (ACCOUNT a) => acc_numSubEntries a = 1 /\ acc_ext a = Some (mkLiabilities 0 15)
       | _ => False
       end) /\
      (match st_entries s !! KeyTrustLine 1 eur with
       | Some (TRUSTLINE t) => tl_ext t = Some (mkLiabilities 30 0)
       | _ => False
       end)
  | Throw _ => False
  end.
Proof. vm_compute. auto. Qed.
