(* ===== verification/ClosedHeaders.v ===== *)
(** The headers of closed ledgers: [ledgerClosed], [startNewLedger] and
    [genesisLedger] of [src/src/ledger/LedgerManagerImpl.cpp], and the skip list
    of [src/src/bucket/BucketManagerImpl.cpp].

    [closeLedger] of [LedgerClose], with the header that [ledgerClosed] completes,
    implements what the ledger manager asks of closing a ledger: nothing a
    transaction or an upgrade does changes the number of the ledger. *)

From S2P Require Import Prelude Numeric OfferMath Types Sums Sorting OfferOrder LedgerTxn LedgerState TransactionUtils OfferExchange.
From S2P Require Import Operations Payments ManageOffers Transactions TransactionEffects TxSets Upgrades UpgradeCycle Accounting Conservation LedgerClose Checkpoints LedgerManager.

Ltac divlia := Z.to_euclidean_division_equations; lia.

(** ** The number of the ledger is kept *)
Definition same_seq (s s' : LedgerState) : Prop := ledgerSeq (st_header s') = ledgerSeq (st_header s).
#[export] Instance same_seq_preorder : PreOrder same_seq.
Proof. split; unfold same_seq; [by intros s|]. by intros a b c -> ->. Qed.

Lemma seq_modify k f : keeps same_seq (modify k f).
Proof. intros s. apply wlp_modify. intros d _. by destruct (f _ d) as [[]|]. Qed.
Lemma seq_erase k : keeps same_seq (eraseEntry k).
Proof. intros s. by apply wlp_erase. Qed.
Lemma seq_create d : keeps same_seq (createEntry d).
Proof. intros s. by apply wlp_create. Qed.
Lemma seq_setCurrent k d : keeps same_seq (setCurrent k d).
Proof. done. Qed.
Lemma seq_updateHeader f : (forall h, ledgerSeq (f h) = ledgerSeq h) -> keeps same_seq (updateHeader f).
Proof. intros Hf s. unfold updateHeader. apply wlp_bind, wlp_currentHeader, wlp_setHeader. apply Hf. Qed.
#[local] Hint Resolve seq_modify seq_erase seq_create seq_setCurrent : keeps.
#[local] Hint Extern 1 (keeps same_seq (updateHeader _)) => apply seq_updateHeader; done : keeps.
Lemma seq_same_header {A} (m : M A) : keeps UpgradeCycle.same_header m -> keeps same_seq m.
Proof. intros H s. eapply wlp_mono; [apply H|]. intros ? ? E. unfold same_seq. by rewrite E. Qed.
Lemma seq_update k f : keeps same_seq (update k f).
Proof. unfold update. keeps_auto. Qed.
Lemma seq_line w x :
  keeps same_seq (line_addBalance w x) /\ keeps same_seq (line_addBuyingLiabilities w x) /\ keeps same_seq (line_addSellingLiabilities w x).
Proof. split_and!; (apply keeps_getImpl; [exact _|]); intros []; cbn; keeps_easy. Qed.
Lemma seq_line_addBalance w x : keeps same_seq (line_addBalance w x).
Proof. apply seq_line. Qed.
Lemma seq_line_addBuying w x : keeps same_seq (line_addBuyingLiabilities w x).
Proof. apply seq_line. Qed.
Lemma seq_line_addSelling w x : keeps same_seq (line_addSellingLiabilities w x).
Proof. apply seq_line. Qed.
#[local] Hint Resolve seq_update seq_line_addBalance seq_line_addBuying seq_line_addSelling : keeps.
Lemma seq_generateID : keeps same_seq generateID.
Proof. done. Qed.
#[local] Hint Resolve seq_generateID : keeps.

Ltac seq_unfold := unfold loadAccount, loadAccountWithoutRecord, loadSourceAccount, currentAccount, updateAccount, assertM,
  currentOffer, loadOffer, loadData, loadTrustLine, loadTrustLineIfNotNative, loadTrustLineWithoutRecordIfNotNative.
Lemma seq_acquireOrRelease k b : keeps same_seq (acquireOrReleaseLiabilities k b).
Proof. unfold acquireOrReleaseLiabilities. seq_unfold. keeps_auto. Qed.
#[local] Hint Resolve seq_acquireOrRelease : keeps.
Lemma seq_setOfferAmount k x : keeps same_seq (setOfferAmount k x).
Proof. unfold setOfferAmount. keeps_auto. Qed.
#[local] Hint Resolve seq_setOfferAmount : keeps.
Ltac seq_auto := seq_unfold; unfold acquireLiabilities, releaseLiabilities; keeps_auto.

(** ** Crossing *)
Lemma seq_crossOffer k a b : keeps same_seq (crossOffer k a b).
Proof. unfold crossOffer, performExchange, canSellAtMostBasedOnSheep, canSellAtMost_const, canBuyAtMost_const, addBalanceInner. seq_auto. Qed.
Lemma seq_crossOfferV10 k a b p : keeps same_seq (crossOfferV10 k a b p).
Proof. unfold crossOfferV10, adjustOffer, canSellAtMost, canBuyAtMost, addBalanceOrThrow. seq_auto. Qed.
#[local] Hint Resolve seq_crossOffer seq_crossOfferV10 : keeps.
Lemma seq_convertRound a b x y p f : keeps same_seq (convertRound a b x y p f).
Proof. unfold convertRound. seq_auto. Qed.
#[local] Hint Resolve seq_convertRound : keeps.
Lemma seq_convertLoop fuel a b x y p f ss wr tr : keeps same_seq (convertLoop fuel a b x y p f ss wr tr).
Proof. revert x y ss wr tr. induction fuel; intros; cbn [convertLoop]; keeps_auto. Qed.
Lemma seq_convertWithOffers a x b y p f : keeps same_seq (convertWithOffers a x b y p f).
Proof.
  unfold convertWithOffers. destruct (_ && _); [|keeps_easy]. intros s.
  pose proof (seq_convertLoop (S (size (st_entries s))) a b x y p f 0 0 [] s) as H. unfold wlp in *.
  by destruct (convertLoop _ _ _ _ _ _ _ _ _ _ s) as [[[c|] s']|].
Qed.
#[local] Hint Resolve seq_convertWithOffers : keeps.

(** ** The operations *)
Lemma seq_removeOffers t a l : keeps same_seq (removeOffers t a l).
Proof. induction l; cbn [removeOffers]; seq_auto. Qed.
Lemma seq_offersBy a b : keeps same_seq (offersByAccountAndAsset a b).
Proof. done. Qed.
Lemma seq_deleteSigners k key d l : keeps same_seq (deleteSigners k key d l).
Proof. revert d. induction l; intros; cbn [deleteSigners]; seq_auto. Qed.
Lemma seq_inflationWinners n v : keeps same_seq (inflationWinners n v).
Proof. done. Qed.
Lemma seq_dole a v w : keeps same_seq (dole a v w).
Proof. unfold dole. seq_auto. Qed.
#[local] Hint Resolve seq_removeOffers seq_offersBy seq_deleteSigners seq_inflationWinners seq_dole : keeps.
Lemma seq_doleLoop a v ws x l : keeps same_seq (doleLoop a v ws x l).
Proof. revert x l. induction ws; intros; cbn [doleLoop]; keeps_auto. Qed.
Lemma seq_walkPath src p b x l : keeps same_seq (walkPath src p b x l).
Proof. revert b x l. induction p; intros; cbn [walkPath]; [keeps_easy|]. unfold convertHop, issuerExists, refuse, pass. seq_auto. Qed.
#[local] Hint Resolve seq_doleLoop seq_walkPath : keeps.
Lemma seq_PathPayment src op : keeps same_seq (PathPayment_doApply src op).
Proof. unfold PathPayment_doApply, guarded, creditDestination, debitSource, issuerExists, refuse, pass. seq_auto. Qed.
#[local] Hint Resolve seq_PathPayment : keeps.
Lemma seq_exchangeLimits src o : keeps same_seq (exchangeLimits src o).
Proof. unfold exchangeLimits, availableForWheat, availableForSheep, canBuyAtMost, canSellAtMost. seq_auto. Qed.
Lemma seq_remainingAmount src o b x : keeps same_seq (remainingAmount src o b x).
Proof. unfold remainingAmount, canBuyAtMost_const, canSellAtMost_const. seq_auto. Qed.
#[local] Hint Resolve seq_exchangeLimits seq_remainingAmount : keeps.
Lemma seq_crossOffers src p c o : keeps same_seq (crossOffers src p c o).
Proof. unfold crossOffers, computeOfferExchangeParameters, settle. seq_auto. Qed.
#[local] Hint Resolve seq_crossOffers : keeps.
Lemma seq_ManageOffer src p op : keeps same_seq (ManageOffer_doApply src p op).
Proof. unfold ManageOffer_doApply, checkOfferValid, checkSheepLine, checkWheatLine, startOffer, placeOffer. seq_auto. Qed.
#[local] Hint Resolve seq_ManageOffer : keeps.
Lemma seq_SetOptions src op : keeps same_seq (SetOptions_doApply src op).
Proof. unfold SetOptions_doApply, orFail, updateInflationDest, updateFlags, updateThreshold, updateSigner. seq_auto. Qed.
#[local] Hint Resolve seq_SetOptions : keeps.

Section WithExternals.
Context `{Ext : Externals} `{TxExt : TxSetExternals} `{Sort : StdSort}.
Lemma seq_doApply src body : keeps same_seq (doApply src body).
Proof.
  destruct body; cbn [doApply]; unfold CreateAccount_doApply, Payment_doApply, CreatePassiveOffer_doApply, ChangeTrust_doApply, AllowTrust_doApply,
    Merge_doApply, Inflation_doApply, ManageData_doApply, BumpSequence_doApply; seq_auto.
Qed.
#[local] Hint Resolve seq_doApply : keeps.

(** ** Transactions and upgrades *)
Lemma seq_eq {A} (m : M A) : keeps eq m -> keeps same_seq m.
Proof using. intros H s. eapply wlp_mono; [apply H|]. by intros ? ? <-. Qed.
Lemma seq_op_checkValid tx op b sc : keeps same_seq (op_checkValid tx op b sc).
Proof using. apply seq_eq, keeps_op_checkValid. Qed.
#[local] Hint Resolve seq_op_checkValid : keeps.
Lemma seq_applyOps tx ops i b err sc : keeps same_seq (applyOps tx ops i b err sc).
Proof using. revert i b err sc. induction ops; intros; cbn [applyOps]; unfold op_apply; seq_auto. Qed.
Lemma seq_removeSignersUntil k keys r : keeps same_seq (removeSignersUntil k keys r).
Proof using. revert r. induction keys; intros; cbn [removeSignersUntil]; unfold removeAccountSigner; seq_auto. Qed.
#[local] Hint Resolve seq_applyOps seq_removeSignersUntil : keeps.
Lemma seq_removeUsed sc : keeps same_seq (removeUsedOneTimeSignerKeys sc).
Proof using.
  unfold removeUsedOneTimeSignerKeys. induction (map_to_list _) as [|[id keys] l IH]; cbn [removeAllOneTimeSignerKeys]; [keeps_easy|].
  unfold removeAccountOneTimeSignerKeys. seq_auto.
Qed.
#[local] Hint Resolve seq_removeUsed : keeps.
Lemma seq_applyChecks env res : keeps same_seq (applyChecks env res).
Proof using. pose proof (keeps_commonValid same_seq). unfold applyChecks, processSeqNum, processSignatures. seq_auto. Qed.
Lemma seq_applyOperations tx b sc : keeps same_seq (applyOperations tx b sc).
Proof using. unfold applyOperations. seq_auto. Qed.
Lemma seq_processFeeSeqNum tx : keeps same_seq (processFeeSeqNum tx).
Proof using. unfold processFeeSeqNum. seq_auto. Qed.
Lemma seq_setHeader {A} (f : LedgerHeader -> LedgerHeader) (g : LedgerHeader -> M A) :
  (forall h, ledgerSeq (f h) = ledgerSeq h) -> (forall h, keeps same_seq (g h)) ->
  keeps same_seq (h ← currentHeader; _ ← setHeader (f h); g h).
Proof using.
  intros Hf Hg s. apply wlp_bind, wlp_currentHeader, wlp_bind, wlp_setHeader. eapply wlp_mono; [apply Hg|].
  intros a s' E. unfold same_seq in *. rewrite E. apply Hf.
Qed.
Lemma seq_applyTo u : keeps same_seq (applyTo u).
Proof using.
  pose proof (seq_same_header _ header_prepareLiabilities). destruct u as [v| | |r]; cbn [applyTo]; [|seq_auto..|].
  - apply (seq_setHeader (set_ledgerVersion v) (fun h => if (10 <=? v) && (ledgerVersion h <? 10) then prepareLiabilities else mret tt));
      [done|intros; seq_auto].
  - apply (seq_setHeader (set_baseReserve r) (fun h => if (10 <=? ledgerVersion h) && (baseReserve h <? r) then prepareLiabilities else mret tt));
      [done|intros; seq_auto].
Qed.

(** ** [closeLedger] *)
Lemma seq_attempt {A} (m : M A) : keeps same_seq m -> keeps same_seq (attempt m).
Proof using. intros H s. specialize (H s). unfold wlp, attempt in *. by destruct (m s) as [[a s']|[]]. Qed.
Lemma seq_processFees txs : keeps same_seq (processFeesSeqNums txs).
Proof using. pose proof seq_processFeeSeqNum. induction txs; cbn [processFeesSeqNums]; seq_auto. Qed.
Lemma seq_applyTransaction env res : keeps same_seq (applyTransaction env res).
Proof using.
  pose proof (fun e r => seq_attempt _ (seq_applyChecks e r)). pose proof (fun t b sc => seq_attempt _ (seq_applyOperations t b sc)).
  unfold applyTransaction. seq_auto.
Qed.
Lemma seq_applyTransactions txs : keeps same_seq (applyTransactions txs).
Proof using. pose proof seq_applyTransaction. induction txs; cbn [applyTransactions]; seq_auto. Qed.
Lemma seq_applyUpgrades {UpgradeType} (from : UpgradeType -> option LedgerUpgrade) us : keeps same_seq (applyUpgrades from us).
Proof using. pose proof (fun u => seq_attempt _ (seq_applyTo u)). induction us; cbn [applyUpgrades]; seq_auto. Qed.

(** A ledger that closes has the number after the one in the header, and a transaction set
    with the previous hash and the contents that were agreed on. *)
Lemma closeLedger_next {UpgradeType} (from : UpgradeType -> option LedgerUpgrade) lclHash txSet sv s :
  wlp (closeLedger from lclHash txSet sv) (fun _ s' =>
    ledgerSeq (st_header s') = u32 (ledgerSeq (st_header s) + 1) /\ (previousLedgerHash txSet).1 = lclHash /\
    (txset_getContentsHash (previousLedgerHash txSet).2).1 = sv_txSetHash sv) s.
Proof using.
  unfold closeLedger. apply wlp_bind, wlp_bind, wlp_currentHeader, wlp_setHeader. apply wlp_bind, wlp_currentHeader.
  destruct (_ <? _); [done|]. destruct (previousLedgerHash txSet) as [previous txSet'] eqn:E.
  destruct (Z.eqb_spec previous lclHash) as [->|]; [|done]. cbn [negb snd]. destruct (txset_getContentsHash txSet') as [h txSet''].
  destruct (Z.eqb_spec h (sv_txSetHash sv)) as [->|]; [|done]. cbn [negb]. destruct (sortForApply txSet'') as [txs ?]. eapply (wlp_keeps same_seq).
  - pose proof (seq_processFees txs). pose proof seq_applyTransactions. pose proof (seq_applyUpgrades from). seq_auto.
  - intros a s' Hs. split; [exact Hs|]. by split.
Qed.
End WithExternals.

(** * The skip list *)
Definition SKIP_1 : Z := 50.
Definition SKIP_2 : Z := 5000.
Definition SKIP_3 : Z := 50000.
Definition SKIP_4 : Z := 500000.
Definition set_bucketListHash (b : Hash) (h : ChainHeader) : ChainHeader :=
  mkChainHeader (ch_ledger h) (ch_previousLedgerHash h) (ch_txSetHash h) (ch_upgrades h) (ch_txSetResultHash h) b (ch_skipList h).
Definition set_skip (i : nat) (x : Hash) (h : ChainHeader) : ChainHeader :=
  mkChainHeader (ch_ledger h) (ch_previousLedgerHash h) (ch_txSetHash h) (ch_upgrades h) (ch_txSetResultHash h)
    (ch_bucketListHash h) (<[i := x]> (ch_skipList h)).
Definition skip (i : nat) (h : ChainHeader) : Hash := ch_skipList h !!! i.
(** [int v] is signed. *)
Definition calculateSkipValues (h : ChainHeader) : ChainHeader :=
  let n := ch_ledgerSeq h in
  if n mod SKIP_1 =? 0 then
    let v := s32 (u32 (n - SKIP_1)) in
    let h :=
      if (0 <? v) && (Z.rem v SKIP_2 =? 0) then
        let v := s32 (u32 (n - SKIP_2 - SKIP_1)) in
        let h :=
          if (0 <? v) && (Z.rem v SKIP_3 =? 0) then
            let v := s32 (u32 (n - SKIP_3 - SKIP_2 - SKIP_1)) in
            let h := if (0 <? v) && (Z.rem v SKIP_4 =? 0) then set_skip 3 (skip 2 h) h else h in
            set_skip 2 (skip 1 h) h
          else h in
        set_skip 1 (skip 0 h) h
      else h in
    set_skip 0 (ch_bucketListHash h) h
  else h.

(** The skip list is that of the header before, and what [calculateSkipValues] changes. *)
Definition carries (h h' : ChainHeader) : Prop :=
  ch_skipList h' = ch_skipList (calculateSkipValues
    (mkChainHeader (ch_ledger h') 0 0 [] 0 (ch_bucketListHash h') (ch_skipList h))).

(** * What a closed ledger hands over *)
(** The bucket manager, as far as the ledger manager asks: it takes what changed between
    two states, and has a hash. *)
Class BucketKeeper := {
  BucketStore : Type;
  bm_addBatch : Z -> LedgerState -> LedgerState -> BucketStore -> outcome BucketStore;
  bm_getHash : BucketStore -> Hash }.

Section Closing.
Context `{Ext : Externals} `{TxExt : TxSetExternals} `{Sort : StdSort} `{Keeper : BucketKeeper}.
Context (xdr_from_opaque : UpgradeType -> option LedgerUpgrade) (headerHash : ChainHeader -> Hash)
  (resultHash : list TransactionResult -> Hash).

Definition snapshotLedger (bl : BucketStore) (h : ChainHeader) : ChainHeader :=
  calculateSkipValues (set_bucketListHash (bm_getHash bl) h).
(** [storeCurrentLedger] writes to the database; its assertion is kept. *)
Definition storeCurrentLedger (h : ChainHeader) : outcome unit := cassert "!isZero(hash)" (negb (headerHash h =? 0)).
Definition ledgerClosed (before after : LedgerState) (h : ChainHeader) (bl : BucketStore)
    : outcome (BucketStore * ChainHeader) :=
  bl ← bm_addBatch (ch_ledgerSeq h) before after bl;
  let h := snapshotLedger bl h in
  _ ← storeCurrentLedger h;
  Ok (bl, h).

(** The whole of [closeLedger]. *)
Definition closeLedgerOn (n : LedgerState * BucketStore) (lcl : LedgerHeaderHistoryEntry) (d : LedgerCloseData)
    : outcome ((LedgerState * BucketStore) * ChainHeader) :=
  let '(before, bl) := n in
  let sv := lcd_value d in
  '(results, after) ← closeLedger xdr_from_opaque (hhe_hash lcl) (lcd_txSet d) sv before;
  '(bl, h) ← ledgerClosed before after
    (mkChainHeader (st_header after) (hhe_hash lcl) (sv_txSetHash sv) (sv_upgrades sv) (resultHash results)
       (ch_bucketListHash (hhe_header lcl)) (ch_skipList (hhe_header lcl))) bl;
  Ok ((after, bl), h).

#[export] Instance node_closer : LedgerCloser := {|
  Node := LedgerState * BucketStore;
  header_hash := headerHash;
  in_step n h := st_header n.1 = ch_ledger h;
  storeHeader h n := (mkState (ch_ledger h) (st_entries n.1), n.2);
  closesTo := closeLedgerOn |}.

(** ** The first ledger *)
Definition GENESIS_LEDGER_VERSION : Z := 0.
Definition GENESIS_LEDGER_BASE_FEE : Z := 100.
Definition GENESIS_LEDGER_BASE_RESERVE : Z := 100000000.
Definition GENESIS_LEDGER_MAX_TX_SIZE : Z := 100.
Definition GENESIS_LEDGER_TOTAL_COINS : Z := 1000000000000000000.
Definition genesisLedger : ChainHeader :=
  mkChainHeader
    (mkHeader GENESIS_LEDGER_VERSION GENESIS_LEDGER_SEQ 0 GENESIS_LEDGER_TOTAL_COINS 0 0 0
       GENESIS_LEDGER_BASE_FEE GENESIS_LEDGER_BASE_RESERVE GENESIS_LEDGER_MAX_TX_SIZE)
    0 0 [] 0 0 [0; 0; 0; 0].
(** [root] is the key that the network's id gives. *)
Definition rootEntry (root : AccountID) (genesis : ChainHeader) : AccountEntry :=
  mkAccount root (totalCoins (ch_ledger genesis)) 0 "" 0 None 0 "" (mkThresholds 1 0 0 0) [] None.
Definition startNewLedger (root : AccountID) (genesis : ChainHeader) (m : LedgerManager) : outcome LedgerManager :=
  let before := mkState (ch_ledger genesis) (st_entries (lm_node m).1) in
  '(_, created) ← createEntry (ACCOUNT (rootEntry root genesis)) before;
  '(bl, h) ← ledgerClosed before created genesis (lm_node m).2;
  Ok (advanceLedgerPointers h (set_lm_node (created, bl) m)).

(** ** The header that closing a ledger leaves *)
Lemma skipValues_kept h :
  ch_ledger (calculateSkipValues h) = ch_ledger h /\ ch_previousLedgerHash (calculateSkipValues h) = ch_previousLedgerHash h /\
  ch_bucketListHash (calculateSkipValues h) = ch_bucketListHash h.
Proof using. unfold calculateSkipValues. by repeat (destruct (_ =? _); cbn) || destruct (_ && _); cbn. Qed.
Lemma ledgerClosed_header before after h bl bl' h' :
  ledgerClosed before after h bl = Ok (bl', h') -> h' = snapshotLedger bl' h /\ headerHash h' <> 0.
Proof using.
  unfold ledgerClosed. destruct (bm_addBatch _ _ _ _) as [bl1|]; [|done]. cbn. unfold storeCurrentLedger.
  destruct (Z.eqb_spec (headerHash (snapshotLedger bl1 h)) 0); [done|]. by intros [= <- <-].
Qed.
Lemma skipValues_fields h :
  ch_txSetHash (calculateSkipValues h) = ch_txSetHash h /\ ch_upgrades (calculateSkipValues h) = ch_upgrades h /\
  ch_skipList (calculateSkipValues h) =
  ch_skipList (calculateSkipValues (mkChainHeader (ch_ledger h) 0 0 [] 0 (ch_bucketListHash h) (ch_skipList h))).
Proof using. unfold calculateSkipValues, ch_ledgerSeq. by repeat (destruct (_ =? _); cbn) || destruct (_ && _); cbn. Qed.
Lemma snapshot_header bl h :
  let h' := snapshotLedger bl h in
  ch_ledger h' = ch_ledger h /\ ch_previousLedgerHash h' = ch_previousLedgerHash h /\ ch_txSetHash h' = ch_txSetHash h /\
  ch_upgrades h' = ch_upgrades h /\ ch_bucketListHash h' = bm_getHash bl /\ carries h h'.
Proof using.
  unfold snapshotLedger, carries. cbn zeta. destruct (skipValues_kept (set_bucketListHash (bm_getHash bl) h)) as (-> & -> & ->).
  destruct (skipValues_fields (set_bucketListHash (bm_getHash bl) h)) as (-> & -> & ->). done.
Qed.
Lemma closeLedgerOn_spec n lcl d after bl h :
  closeLedgerOn n lcl d = Ok ((after, bl), h) ->
  ledgerSeq (st_header after) = u32 (ledgerSeq (st_header n.1) + 1) /\ lcd_previousLedgerHash d = hhe_hash lcl /\
  (txset_getContentsHash (previousLedgerHash (lcd_txSet d)).2).1 = sv_txSetHash (lcd_value d) /\
  exists r, h = snapshotLedger bl (mkChainHeader (st_header after) (hhe_hash lcl) (sv_txSetHash (lcd_value d))
                  (sv_upgrades (lcd_value d)) r (ch_bucketListHash (hhe_header lcl)) (ch_skipList (hhe_header lcl))) /\
  headerHash h <> 0.
Proof using.
  unfold closeLedgerOn. destruct n as [before bl0]. cbn [fst].
  pose proof (closeLedger_next xdr_from_opaque (hhe_hash lcl) (lcd_txSet d) (lcd_value d) before) as Hc. unfold wlp in Hc.
  destruct (closeLedger _ _ _ _ before) as [[results s]|]; [|done]. destruct Hc as (Hseq & Hprev & Hset). cbn [mbind outcome_bind].
  destruct (ledgerClosed _ _ _ _) as [[bl' h']|] eqn:E; [|done]. apply ledgerClosed_header in E as [-> Hz].
  intros [= <- <- <-]. split; [done|]. split; [done|]. split; [done|]. eexists. split; [reflexivity|done].
Qed.
#[export] Instance node_closer_laws : LedgerCloserLaws (H := node_closer).
Proof using.
  split; [|done]. intros n lcl d [after bl] h Hin E. apply closeLedgerOn_spec in E as (Hseq & Hprev & _ & r & -> & _).
  destruct (snapshot_header bl (mkChainHeader (st_header after) (hhe_hash lcl) (sv_txSetHash (lcd_value d)) (sv_upgrades (lcd_value d)) r
    (ch_bucketListHash (hhe_header lcl)) (ch_skipList (hhe_header lcl)))) as (E1 & E2 & _).
  cbn in Hin |- *. unfold ch_ledgerSeq, hhe_seq. rewrite E1, E2. cbn. rewrite Hseq. by rewrite Hin.
Qed.

(** What a closed ledger's header says: the number after that of the last closed ledger
    and its hash as previous hash, the hash of a transaction set with exactly the contents
    that were agreed on and made for that ledger, the upgrades agreed on, the hash of the
    bucket list with the ledger's changes, the skip list carried on from the last closed
    ledger, and the state it leaves. *)
Theorem closeLedger_header n lcl d after bl h :
  st_header n.1 = ch_ledger (hhe_header lcl) -> closeLedgerOn n lcl d = Ok ((after, bl), h) ->
  ch_ledger h = st_header after /\ ch_ledgerSeq h = u32 (hhe_seq lcl + 1) /\
  ch_previousLedgerHash h = hhe_hash lcl /\ lcd_previousLedgerHash d = hhe_hash lcl /\
  ch_txSetHash h = (txset_getContentsHash (previousLedgerHash (lcd_txSet d)).2).1 /\
  ch_upgrades h = sv_upgrades (lcd_value d) /\ ch_bucketListHash h = bm_getHash bl /\
  carries (hhe_header lcl) h /\ headerHash h <> 0.
Proof using.
  intros Hin E. apply closeLedgerOn_spec in E as (Hseq & Hprev & Hset & r & -> & Hz).
  destruct (snapshot_header bl (mkChainHeader (st_header after) (hhe_hash lcl) (sv_txSetHash (lcd_value d)) (sv_upgrades (lcd_value d)) r
    (ch_bucketListHash (hhe_header lcl)) (ch_skipList (hhe_header lcl)))) as (E1 & E2 & E3 & E4 & E5 & E6).
  unfold ch_ledgerSeq at 1, hhe_seq. rewrite E1, E2, E3, E4, E5, Hset. cbn. rewrite Hseq, Hin. done.
Qed.

(** A new network starts right: closing the genesis ledger over an empty database leaves one
    account that holds all coins, a header with the genesis ledger's values and the hashes of
    what was closed, and a ledger manager whose invariant holds before and after
    [bootstrap], which makes it synced. *)
Theorem startNewLedger_correct root genesis m m' :
  mState m = LM_BOOTING_STATE -> mCatchupState m = NONE -> quiet m -> seq_ok (ch_ledgerSeq genesis) ->
  st_entries (lm_node m).1 = ∅ -> startNewLedger root genesis m = Ok m' ->
  lm_inv m' /\ lm_inv (bootstrap m') /\ mState (bootstrap m') = LM_SYNCED_STATE /\
  ch_ledger (hhe_header (mLastClosedLedger m')) = ch_ledger genesis /\
  hhe_hash (mLastClosedLedger m') = headerHash (hhe_header (mLastClosedLedger m')) /\
  carries genesis (hhe_header (mLastClosedLedger m')) /\
  st_entries (lm_node m').1 = {[ KeyAccount root := ACCOUNT (rootEntry root genesis) ]} /\
  lumens_drift (lm_node m').1 = feePool (ch_ledger genesis).
Proof using.
  intros Hs Hk (Hq1 & Hq2 & Hq3) Hseq Hempty. unfold startNewLedger, createEntry. rewrite Hempty. cbn [st_entries]. rewrite lookup_empty. cbn [mbind outcome_bind].
  destruct (ledgerClosed _ _ _ _) as [[bl h]|] eqn:E; [|done]. apply ledgerClosed_header in E as [-> _].
  destruct (snapshot_header bl genesis) as (E1 & _ & _ & _ & _ & E6). intros [= <-].
  assert (Hin : standing (advanceLedgerPointers (snapshotLedger bl genesis)
    (set_lm_node (set_entries (<[LedgerDataKey (ACCOUNT (rootEntry root genesis)) := ACCOUNT (rootEntry root genesis)]> ∅)
       (mkState (ch_ledger genesis) ∅), bl) m))).
  { split; [cbn; by rewrite E1|]. unfold getLastClosedLedgerNum, hhe_seq, ch_ledgerSeq. cbn. rewrite E1. exact Hseq. }
  unfold bootstrap, setState. cbn [mState advanceLedgerPointers set_mLastClosedLedger set_lm_node]. rewrite Hs, decide_False by done.
  rewrite decide_False by done. split_and!; try done.
  - unfold lm_inv, quiet. cbn. rewrite Hs, Hk, Hq1. done.
  - unfold lm_inv, quiet. cbn. rewrite Hq1. done.
  - unfold lumens_drift, lumens_held. cbn. rewrite msum_insert_new by apply lookup_empty. rewrite msum_empty. cbn. lia.
Qed.
End Closing.

(** ** What the skip list holds *)
(** The bucket list's hash at the last multiple of [m] that is [off] or more back. *)
Definition skipped (b : Z -> Hash) (m off n : Z) : Hash :=
  let k := (n - off) / m in if 0 <? k then b (m * k) else 0.

Section Skipped.
Context (b : Z -> Hash) (m off : Z) (Hm : 1 < m).
Lemma skipped_here n : 0 < n - off -> (n - off) mod m = 0 -> skipped b m off n = b (n - off).
Proof using Hm.
  intros Hp Hz. pose proof (Z.div_mod (n - off) m ltac:(lia)) as E. rewrite Hz, Z.add_0_r in E. unfold skipped. cbn zeta. rewrite <- E.
  destruct (Z.ltb_spec 0 ((n - off) / m)); [done|nia].
Qed.
Lemma skipped_keep n : 0 <= off -> ~ (0 < n - off /\ (n - off) mod m = 0) -> skipped b m off n = skipped b m off (n - 1).
Proof using Hm.
  intros Ho Hn. unfold skipped. pose proof (Z.div_mod (n - off) m ltac:(lia)) as E. pose proof (Z.mod_pos_bound (n - off) m ltac:(lia)) as B.
  destruct (Z.eq_dec ((n - off) mod m) 0) as [Hz|Hz].
  - assert (n - off <= 0) by lia. assert (Hq : (n - off) / m <= 0) by nia.
    assert (Hq' : (n - 1 - off) / m <= 0) by (transitivity ((n - off) / m); [apply Z.div_le_mono; lia|done]).
    by rewrite (proj2 (Z.ltb_ge 0 ((n - off) / m)) Hq), (proj2 (Z.ltb_ge 0 ((n - 1 - off) / m)) Hq').
  - assert ((n - 1 - off) / m = (n - off) / m) as -> by (apply floor_unique; nia). done.
Qed.
Lemma skipped_before n : (n - off) mod m = 0 -> 0 < n - off - m -> skipped b m off (n - 1) = b (n - off - m).
Proof using Hm.
  intros Hz Hp. unfold skipped. pose proof (Z.div_mod (n - off) m ltac:(lia)) as E. rewrite Hz, Z.add_0_r in E.
  assert (Hq : (n - 1 - off) / m = (n - off) / m - 1) by (apply floor_unique; nia). cbn zeta. rewrite Hq.
  destruct (Z.ltb_spec 0 ((n - off) / m - 1)); [f_equal; nia|nia].
Qed.
End Skipped.

Lemma s32_small z : - 2147483648 <= z < 2147483648 -> s32 z = z.
Proof. unfold s32. intros. rewrite Z.mod_small; lia. Qed.
Lemma s32_u32 z : - 2147483648 <= z < 2147483648 -> s32 (u32 z) = z.
Proof.
  intros. unfold u32, s32. rewrite Zplus_mod_idemp_l. rewrite Z.mod_small; lia.
Qed.
(** Whether slot [i] changes: [v] is as much before the ledger as the slots below skip. *)
Lemma slot_test n off m : 0 < n < 2147483648 -> 0 <= off < 2147483648 -> 0 < m ->
  (0 <? s32 (u32 (n - off))) && (Z.rem (s32 (u32 (n - off))) m =? 0) = bool_decide (0 < n - off /\ (n - off) mod m = 0).
Proof.
  intros Hn Ho Hm. rewrite s32_u32 by lia. destruct (Z.ltb_spec 0 (n - off)) as [Hp|Hp]; cbn [andb].
  - rewrite Z.rem_mod_nonneg by lia. destruct (Z.eqb_spec ((n - off) mod m) 0); symmetry; [by apply bool_decide_eq_true|].
    apply bool_decide_eq_false. by intros [_ ?].
  - symmetry. apply bool_decide_eq_false. lia.
Qed.
Definition skipSpec (b : Z -> Hash) (n : Z) : list Hash :=
  [skipped b SKIP_1 0 n; skipped b SKIP_2 SKIP_1 n; skipped b SKIP_3 (SKIP_2 + SKIP_1) n; skipped b SKIP_4 (SKIP_3 + SKIP_2 + SKIP_1) n].
Lemma calculateSkipValues_spec b h :
  0 < ch_ledgerSeq h < 2147483648 -> ch_bucketListHash h = b (ch_ledgerSeq h) -> ch_skipList h = skipSpec b (ch_ledgerSeq h - 1) ->
  ch_skipList (calculateSkipValues h) = skipSpec b (ch_ledgerSeq h).
Proof.
  intros Hn Hb Hs. unfold calculateSkipValues. cbn zeta. remember (ch_ledgerSeq h) as n eqn:En. clear En.
  replace (n - SKIP_2 - SKIP_1) with (n - (SKIP_2 + SKIP_1)) by lia.
  replace (n - SKIP_3 - SKIP_2 - SKIP_1) with (n - (SKIP_3 + SKIP_2 + SKIP_1)) by lia.
  rewrite !slot_test by (unfold SKIP_1, SKIP_2, SKIP_3, SKIP_4; lia).
  unfold skipSpec in *. destruct (Z.eqb_spec (n mod SKIP_1) 0) as [H1|H1].
  2:{ rewrite Hs. f_equal; [|f_equal; [|f_equal; [|f_equal]]]; symmetry; apply skipped_keep; unfold SKIP_1, SKIP_2, SKIP_3, SKIP_4 in *; divlia. }
  case_bool_decide as H2; [case_bool_decide as H3; [case_bool_decide as H4|]|]; cbn; unfold skip; cbn; rewrite Hs; cbn; rewrite Hb.
  all: repeat match goal with |- _ :: _ = _ :: _ => f_equal end; try done.
  all: unfold SKIP_1, SKIP_2, SKIP_3, SKIP_4 in *.
  all: repeat match goal with |- context [(?x :: ?l) !!! 0%nat] => change ((x :: l) !!! 0%nat) with x end.
  all: first [ symmetry; apply skipped_keep; divlia
             | symmetry; etrans; [apply skipped_here; divlia|f_equal; lia]
             | etrans; [apply skipped_before; divlia|symmetry; etrans; [apply skipped_here; divlia|f_equal; lia]] ].
Qed.

(** The skip list of ledger [n] of a network, whose headers carry it on from one ledger to
    the next as closing a ledger does, holds hashes of the bucket list in the past: slot
    [0] that of the last multiple of 50, the slots after it those of the last multiples of
    5000, 50000 and 500000 that are at least 50, 5050 and 55050 ledgers back; a slot holds
    zero while there is none.  [h 0] is the header that [startNewLedger] begins with. *)
Theorem skipList_correct (h : nat -> ChainHeader) n :
  ch_skipList (h 0%nat) = [0; 0; 0; 0] ->
  (forall k, (k < n)%nat -> ch_ledgerSeq (h (S k)) = Z.of_nat (S k) /\ carries (h k) (h (S k))) ->
  Z.of_nat n < 2 ^ 31 ->
  ch_skipList (h n) = skipSpec (fun i => ch_bucketListHash (h (Z.to_nat i))) (Z.of_nat n).
Proof.
  intros H0. remember (fun i => ch_bucketListHash (h (Z.to_nat i))) as b eqn:Eb. induction n as [|n IH]; intros Hc Hn.
  - rewrite H0. done.
  - destruct (Hc n ltac:(lia)) as [Hseq Hcar]. rewrite Hcar.
    specialize (IH (fun k Hk => Hc k ltac:(lia)) ltac:(lia)).
    assert (Es : forall x y, ch_ledgerSeq (mkChainHeader (ch_ledger (h (S n))) 0 0 [] 0 x y) = Z.of_nat (S n)) by (intros; exact Hseq).
    rewrite (calculateSkipValues_spec b); rewrite ?Es; [done|lia|subst b; cbn; by rewrite Nat2Z.id|].
    cbn [ch_skipList]. rewrite IH. f_equal. lia.
Qed.

(** ** The headers of a network in which the bucket list's hash is the ledger's number and 100 *)
Definition header_after (h : ChainHeader) (n : Z) : ChainHeader :=
  calculateSkipValues (mkChainHeader (mkHeader 10 n 0 0 0 0 0 100 100 100) 0 0 [] 0 (100 + n) (ch_skipList h)).
Fixpoint sample_headers (n : nat) : ChainHeader :=
  match n with
  | O => mkChainHeader (mkHeader 10 1 0 0 0 0 0 100 100 100) 0 0 [] 0 0 [0; 0; 0; 0]
  | S k => header_after (sample_headers k) (Z.of_nat (S k))
  end.
Lemma sample_headers_fields k :
  ch_ledgerSeq (sample_headers (S k)) = Z.of_nat (S k) /\ ch_bucketListHash (sample_headers (S k)) = 100 + Z.of_nat (S k) /\
  carries (sample_headers k) (sample_headers (S k)).
Proof.
  cbn [sample_headers]. generalize (sample_headers k) (Z.of_nat (S k)). intros h n. unfold header_after, carries.
  set (h0 := mkChainHeader (mkHeader 10 n 0 0 0 0 0 100 100 100) 0 0 [] 0 (100 + n) (ch_skipList h)).
  destruct (skipValues_kept h0) as (E1 & _ & E2). unfold ch_ledgerSeq. by rewrite E1, E2.
Qed.
(** After 5100 ledgers: the hashes of ledgers 5100 and 5000. *)
Example skipList_sample :
  ch_skipList (sample_headers (Z.to_nat 5100)) =
    skipSpec (fun i => ch_bucketListHash (sample_headers (Z.to_nat i))) 5100 /\
  skipSpec (fun i => 100 + i) 5100 = [5200; 5100; 0; 0].
Proof.
  split; [|reflexivity]. pose proof (skipList_correct sample_headers (Z.to_nat 5100)) as H.
  rewrite Z2Nat.id in H by lia. apply H.
  - reflexivity.
  - intros k _. destruct (sample_headers_fields k) as (? & _ & ?). by split.
  - lia.
Qed.

(** ** A new network, whose buckets are counted *)
Definition counting_keeper : BucketKeeper := {|
  BucketStore := Z;
  bm_addBatch seq _ _ n := if 0 <? seq then Ok (n + 1) else Throw (RuntimeError "Invalid ledger");
  bm_getHash n := 1000 + n |}.
Definition seq_hash (h : ChainHeader) : Hash := 1 + ch_ledgerSeq h + ch_bucketListHash h.
Section NewNetwork.
Context `{Ext : Externals} `{TxExt : TxSetExternals} `{Sort : StdSort}.
#[local] Existing Instance counting_keeper.
#[local] Instance counting_closer : LedgerCloser := node_closer (fun _ => None) seq_hash (fun _ => 0).
Definition blank_manager : LedgerManager :=
  mkLedgerManager LM_BOOTING_STATE NONE [] 0 noHeader (mkState (mkHeader 0 0 0 0 0 0 0 0 0 0) ∅, 0) None 0.
Example new_network :
  match startNewLedger (fun _ => None) seq_hash (fun _ => 0) 7 genesisLedger blank_manager with
  | Ok m => hhe_seq (mLastClosedLedger m) = 1 /\ hhe_hash (mLastClosedLedger m) = 1003 /\
      option_map (fun d => match d with ACCOUNT a => acc_balance a | _ => 0 end) (st_entries (lm_node m).1 !! KeyAccount 7) =
        Some 1000000000000000000
  | Throw _ => False
  end.
Proof. vm_compute. auto. Qed.
End NewNetwork.
