(* ===== verification/HerderSCPDriver.v ===== *)
(** The Herder: what SCP asks of it, [src/src/herder/HerderSCPDriver.cpp], and its
    queue of transactions and the ledgers it triggers, [HerderImpl.cpp].

    Validation, extraction and combination of values, the consensus the node
    tracks, and the timers of its slots.  A value is the opaque bytes of a
    [StellarValue]; how XDR reads and writes it, and SHA-256, are parameters.
    What the driver reads of the rest of the node is a [HerderView]; the last
    closed ledger is the state of the monad.  Metrics, logs and signatures are
    left out.

    The transactions a node has heard of wait in four generations, by source
    account; each close of a ledger makes them a generation older.  To nominate,
    all of them form a set that is trimmed, cut and checked.  A hash table is a
    finite map; the order in which the code goes through one is left to
    [map_to_list], as the set is sorted next.  The messages that go out are
    results.  Persistence is left out. *)

From S2P Require Import Prelude Numeric OfferMath Types Sorting Quorums Ballots SlotState.
From S2P Require Import OfferOrder LedgerTxn LedgerState TransactionUtils OfferExchange Operations Upgrades Payments.
From S2P Require Import ManageOffers Transactions TxSets LedgerClose.

(** XDR and SHA-256; [None] is the exception. *)
Class HerderExternals := {
  upgrade_from_opaque : Value -> option LedgerUpgrade;
  upgrade_to_opaque : LedgerUpgrade -> Value;
  value_from_opaque : Value -> option (StellarValue Value);
  value_to_opaque : StellarValue Value -> Value;
  sha256 : Value -> Hash }.
(** Reading back what was written. *)
Class HerderExternalsLaws (Ex : HerderExternals) : Prop := {
  upgrade_roundtrip u : upgrade_from_opaque (upgrade_to_opaque u) = Some u;
  value_roundtrip v : value_from_opaque (value_to_opaque v) = Some v;
  value_not_empty v : value_to_opaque v <> [] }.

Definition MAX_TIME_SLIP_SECONDS : Z := 60.
Definition LEDGER_VALIDITY_BRACKET : Z := 100.
Definition MAX_SLOTS_TO_REMEMBER : Z := 12.

Record ConsensusData := mkConsensus {
  mConsensusIndex : Z;
  mConsensusValue : StellarValue Value }.
(** A timer of a slot: the timeout it is armed with, if any.  The ledger being
    nominated has no value before the first nomination; nothing reads it then. *)
Record HerderSCPDriver := mkDriver {
  mTrackingSCP : option ConsensusData;
  mLastTrackingSCP : option ConsensusData;
  mLedgerSeqNominating : Z;
  mCurrentValue : Value;
  mSCPTimers : gmap Z (gmap Z (option Z)) }.
Definition newDriver : HerderSCPDriver := mkDriver None None 0 [] ∅.

(** The hash of the last closed ledger, whether the ledger manager is in sync
    with the network, the time, the transaction sets that are cached, the
    upgrades this node wishes for, and the configured limit on versions. *)
Record HerderView := mkView {
  hv_lclHash : Hash;
  hv_isSynced : bool;
  hv_timeNow : Z;
  hv_getTxSet : Hash -> option TxSetFrame;
  hv_upgrades : UpgradeParameters;
  hv_LEDGER_PROTOCOL_VERSION : Z }.

Inductive HerderStateKind := HERDER_SYNCING_STATE | HERDER_TRACKING_STATE.
Definition driver_getState (d : HerderSCPDriver) : HerderStateKind :=
  match mTrackingSCP d, mLastTrackingSCP d with
  | Some _, Some _ => HERDER_TRACKING_STATE
  | _, _ => HERDER_SYNCING_STATE
  end.
Definition lostSync (d : HerderSCPDriver) : HerderSCPDriver :=
  mkDriver None (mTrackingSCP d) (mLedgerSeqNominating d) (mCurrentValue d) (mSCPTimers d).
Definition driver_restoreSCPState (index : Z) (value : StellarValue Value) (d : HerderSCPDriver)
    : HerderSCPDriver :=
  mkDriver (Some (mkConsensus index value)) (mLastTrackingSCP d) (mLedgerSeqNominating d)
    (mCurrentValue d) (mSCPTimers d).
Definition lastConsensusLedgerIndex (d : HerderSCPDriver) : outcome Z :=
  match mTrackingSCP d with
  | Some c =>
      _ ← cassert "mTrackingSCP->mConsensusIndex <= UINT32_MAX" (mConsensusIndex c <=? UINT32_MAX);
      mret (u32 (mConsensusIndex c))
  | None => Throw (AssertFailure "mTrackingSCP")
  end.
Definition nextConsensusLedgerIndex (d : HerderSCPDriver) : outcome Z :=
  i ← lastConsensusLedgerIndex d; mret (u32 (i + 1)).

(** ** Values *)
Section Values.
Context `{Ext : Externals} `{TxExt : TxSetExternals} `{Sort : StdSort} `{Ex : HerderExternals}.
Context (V : HerderView) (d : HerderSCPDriver).

Definition isSlotCompatibleWithCurrentState (slotIndex : Z) : M bool :=
  if hv_isSynced V then header ← currentHeader; mret (slotIndex =? u32 (ledgerSeq header + 1))
  else mret false.
Definition checkCloseTime (lastCloseTime : Z) (b : StellarValue Value) : bool :=
  if sv_closeTime b <=? lastCloseTime then false
  else negb (u64 (hv_timeNow V + MAX_TIME_SLIP_SECONDS) <? sv_closeTime b).

Definition validateValueHelper (slotIndex : Z) (b : StellarValue Value) : M ValidationLevel :=
  compat ← isSlotCompatibleWithCurrentState slotIndex;
  lcl ← currentHeader;
  let lastCloseTime := closeTime lcl in
  if compat : bool then
    if negb (checkCloseTime lastCloseTime b) then mret kInvalidValue
    else
      match hv_getTxSet V (sv_txSetHash b) with
      | None => mret kInvalidValue
      | Some txSet =>
          ok ← txset_checkValid (hv_lclHash V) txSet;
          mret (if ok : bool then kFullyValidatedValue else kInvalidValue)
      end
  else if (if slotIndex =? ledgerSeq lcl then negb (sv_closeTime b =? lastCloseTime)
           else if slotIndex <? ledgerSeq lcl then lastCloseTime <=? sv_closeTime b
           else negb (checkCloseTime lastCloseTime b))
  then mret kInvalidValue
  else
    match mTrackingSCP d with
    | None => mret kMaybeValidValue
    | Some tracking =>
        next ← lift (nextConsensusLedgerIndex d);
        if slotIndex <? next then mret kMaybeValidValue
        else if next <? slotIndex then mret kInvalidValue
        else if negb (checkCloseTime (sv_closeTime (mConsensusValue tracking)) b) then mret kInvalidValue
        else mret kMaybeValidValue
    end.

(** The loop over the upgrades: each one valid, and of a type above the one
    before it ([None] at the first). *)
Fixpoint checkUpgrades (nomination : bool) (header : LedgerHeader)
    (lastUpgradeType : option LedgerUpgradeType) (upgrades : list Value) : bool :=
  match upgrades with
  | [] => true
  | upgrade :: upgrades =>
      match isValid upgrade_from_opaque (hv_upgrades V) upgrade nomination
              (hv_LEDGER_PROTOCOL_VERSION V) header with
      | None => false
      | Some thisUpgradeType =>
          if match lastUpgradeType with
             | Some last => upgrade_type_rank thisUpgradeType <=? upgrade_type_rank last
             | None => false
             end
          then false
          else checkUpgrades nomination header (Some thisUpgradeType) upgrades
      end
  end.
Definition herder_validateValue (slotIndex : Z) (value : Value) (nomination : bool)
    : M ValidationLevel :=
  match value_from_opaque value with
  | None => mret kInvalidValue
  | Some b =>
      res ← validateValueHelper slotIndex b;
      match res with
      | kInvalidValue => mret kInvalidValue
      | _ =>
          header ← currentHeader;
          mret (if checkUpgrades nomination header None (sv_upgrades b) then res else kInvalidValue)
      end
  end.

(** The upgrades this node would nominate. *)
Definition likedUpgrades (header : LedgerHeader) (upgrades : list Value) : list Value :=
  List.filter (fun upgrade =>
    match isValid upgrade_from_opaque (hv_upgrades V) upgrade true
            (hv_LEDGER_PROTOCOL_VERSION V) header with
    | Some _ => true | None => false end) upgrades.
Definition herder_extractValidValue (slotIndex : Z) (value : Value) : M Value :=
  match value_from_opaque value with
  | None => mret []
  | Some b =>
      level ← validateValueHelper slotIndex b;
      match level with
      | kFullyValidatedValue =>
          header ← currentHeader;
          mret (value_to_opaque (mkStellarValue (sv_txSetHash b) (sv_closeTime b)
                                   (likedUpgrades header (sv_upgrades b))))
      | _ => mret []
      end
  end.

(** ** Combining candidates *)

(** The larger of two upgrades of one type. *)
Definition maxUpgrade (clUpgrade lupgrade : LedgerUpgrade) : LedgerUpgrade :=
  match clUpgrade, lupgrade with
  | LEDGER_UPGRADE_VERSION v, LEDGER_UPGRADE_VERSION w => LEDGER_UPGRADE_VERSION (Z.max v w)
  | LEDGER_UPGRADE_BASE_FEE v, LEDGER_UPGRADE_BASE_FEE w => LEDGER_UPGRADE_BASE_FEE (Z.max v w)
  | LEDGER_UPGRADE_MAX_TX_SET_SIZE v, LEDGER_UPGRADE_MAX_TX_SET_SIZE w =>
      LEDGER_UPGRADE_MAX_TX_SET_SIZE (Z.max v w)
  | LEDGER_UPGRADE_BASE_RESERVE v, LEDGER_UPGRADE_BASE_RESERVE w =>
      LEDGER_UPGRADE_BASE_RESERVE (Z.max v w)
  | _, _ => clUpgrade
  end.
(** The map [upgrades]: its values in the order of their types. *)
Fixpoint mergeUpgrade (lupgrade : LedgerUpgrade) (upgrades : list LedgerUpgrade) : list LedgerUpgrade :=
  let rank u := upgrade_type_rank (upgrade_type u) in
  match upgrades with
  | [] => [lupgrade]
  | x :: rest =>
      if rank lupgrade <? rank x then lupgrade :: upgrades
      else if rank x <? rank lupgrade then x :: mergeUpgrade lupgrade rest
      else maxUpgrade x lupgrade :: rest
  end.
Fixpoint mergeUpgrades (us : list Value) (upgrades : list LedgerUpgrade) : outcome (list LedgerUpgrade) :=
  match us with
  | [] => mret upgrades
  | u :: us =>
      match upgrade_from_opaque u with
      | None => Throw (RuntimeError "xdr_runtime_error")
      | Some lupgrade => mergeUpgrades us (mergeUpgrade lupgrade upgrades)
      end
  end.
(** The loop over the candidates: their values, the exclusive or of their
    hashes, the latest close time, the upgrades. *)
Fixpoint readCandidates (candidates : list Value) (values : list (StellarValue Value))
    (candidatesHash time : Z) (upgrades : list LedgerUpgrade)
    : outcome (list (StellarValue Value) * Hash * Z * list LedgerUpgrade) :=
  match candidates with
  | [] => mret (values, candidatesHash, time, upgrades)
  | c :: rest =>
      match value_from_opaque c with
      | None => Throw (RuntimeError "xdr_runtime_error")
      | Some sv =>
          upgrades ← mergeUpgrades (sv_upgrades sv) upgrades;
          readCandidates rest (values ++ [sv]) (Z.lxor candidatesHash (sha256 c))
            (if time <? sv_closeTime sv then sv_closeTime sv else time) upgrades
      end
  end.
Definition betterTxSet (candidatesHash : Hash) (best : option (Hash * TxSetFrame))
    (sv : StellarValue Value) : option (Hash * TxSetFrame) :=
  match hv_getTxSet V (sv_txSetHash sv) with
  | None => best
  | Some cTxSet =>
      let '(previous, cTxSet) := previousLedgerHash cTxSet in
      if negb (previous =? hv_lclHash V) then best
      else
        match best with
        | None => Some (sv_txSetHash sv, cTxSet)
        | Some (highest, highestTxSet) =>
            let size ts := length (mTransactions ts) in
            if Nat.ltb (size highestTxSet) (size cTxSet)
               || Nat.eqb (size cTxSet) (size highestTxSet)
                  && lessThanXored highest (sv_txSetHash sv) candidatesHash
            then Some (sv_txSetHash sv, cTxSet) else best
        end
  end.
(** The value, and the transaction set to post when some transaction was
    removed from it. *)
Definition herder_combineCandidates (candidates : list Value) : M (Value * option TxSetFrame) :=
  '(candidateValues, candidatesHash, time, upgrades) ← lift (readCandidates candidates [] 0 0 []);
  match fold_left (betterTxSet candidatesHash) candidateValues None with
  | None => throw "null TxSetFramePtr"
  | Some (_, highestTxSet) =>
      '(bestTxSet, removed) ← trimInvalid highestTxSet [];
      let '(h, bestTxSet) := txset_getContentsHash bestTxSet in
      mret (value_to_opaque (mkStellarValue h time (upgrade_to_opaque <$> upgrades)),
            match removed with [] => None | _ => Some bestTxSet end)
  end.
End Values.

(** ** Externalization and timers *)

(** [Herder::getCurrentLedgerSeq]; [lcl] is the number of the last closed
    ledger. *)
Definition getCurrentLedgerSeq (lcl : Z) (d : HerderSCPDriver) : Z :=
  let later (res : Z) (c : option ConsensusData) :=
    match c with
    | Some c => if res <? mConsensusIndex c then u32 (mConsensusIndex c) else res
    | None => res
    end in
  later (later lcl (mTrackingSCP d)) (mLastTrackingSCP d).
(** What [valueExternalized] and the timers call. *)
Inductive HerderCall :=
  | StopNomination (slotIndex : Z)
  | HerderValueExternalized (slotIndex : Z) (value : StellarValue Value)
  | TimerCallback (slotIndex timerID : Z).

Section Events.
Context `{Ex : HerderExternals} (lcl : Z).
Definition setupTimer (slotIndex timerID : Z) (timeout : Z) (cb : bool) (d : HerderSCPDriver)
    : HerderSCPDriver :=
  let with_timers ts :=
    mkDriver (mTrackingSCP d) (mLastTrackingSCP d) (mLedgerSeqNominating d) (mCurrentValue d) ts in
  if slotIndex <=? getCurrentLedgerSeq lcl d then with_timers (delete slotIndex (mSCPTimers d))
  else
    let slotTimers := default ∅ (mSCPTimers d !! slotIndex) in
    with_timers
      (<[slotIndex := <[timerID := if cb then Some timeout else None]> slotTimers]> (mSCPTimers d)).
(** A timer that fires. *)
Definition timerCallbackWrapper (slotIndex timerID : Z) (d : HerderSCPDriver)
    : outcome (list HerderCall * HerderSCPDriver) :=
  match mTrackingSCP d with
  | Some _ =>
      next ← nextConsensusLedgerIndex d;
      if negb (next =? slotIndex) then mret ([], setupTimer slotIndex timerID 1000 true d)
      else mret ([TimerCallback slotIndex timerID], d)
  | None => mret ([TimerCallback slotIndex timerID], d)
  end.
Definition driver_valueExternalized (slotIndex : Z) (value : Value) (d : HerderSCPDriver)
    : outcome (list HerderCall * HerderSCPDriver) :=
  let timers := base.filter (fun kv : Z * gmap Z (option Z) => slotIndex < kv.1) (mSCPTimers d) in
  let d := mkDriver (mTrackingSCP d) (mLastTrackingSCP d) (mLedgerSeqNominating d)
             (mCurrentValue d) timers in
  if slotIndex <=? getCurrentLedgerSeq lcl d then mret ([], d)
  else
    match value_from_opaque value with
    | None => Throw (AssertFailure "abort")
    | Some b =>
        let '(calls, currentValue) :=
          match mCurrentValue d with
          | [] => ([], [])
          | _ => ([StopNomination (mLedgerSeqNominating d)], [])
          end in
        let tracking := mkConsensus slotIndex b in
        let last := match mLastTrackingSCP d with Some c => c | None => tracking end in
        mret (calls ++ [HerderValueExternalized slotIndex b],
              mkDriver (Some tracking) (Some last) (mLedgerSeqNominating d) currentValue timers)
    end.
(** [HerderSCPDriver::nominate]: the driver, and the arguments of
    [SCP::nominate]. *)
Definition driver_nominate (slotIndex : Z) (value previousValue : StellarValue Value)
    (d : HerderSCPDriver) : (Z * Value * Value) * HerderSCPDriver :=
  let currentValue := value_to_opaque value in
  ((slotIndex, currentValue, value_to_opaque previousValue),
   mkDriver (mTrackingSCP d) (mLastTrackingSCP d) (u32 slotIndex) currentValue (mSCPTimers d)).
End Events.

(** * The queue of transactions and the ledgers it triggers *)

Record TxMap := mkTxMap {
  mMaxSeq : Z;
  mTotalFees : Z;
  txmap_mTransactions : gmap Hash TransactionFramePtr }.
Abbreviation AccountTxMap := (gmap AccountID TxMap) (only parsing).
(** [mPendingTransactions], the youngest generation first. *)
Abbreviation PendingTransactions := (list AccountTxMap) (only parsing).
Definition newPending : PendingTransactions := replicate 4 ∅.
Definition emptyTxMap : TxMap := mkTxMap 0 0 ∅.

Inductive TransactionSubmitStatus := TX_STATUS_PENDING | TX_STATUS_DUPLICATE | TX_STATUS_ERROR.
#[export] Instance TransactionSubmitStatus_eq_dec : EqDecision TransactionSubmitStatus.
Proof. solve_decision. Defined.

Section Herder.
Context `{Ext : Externals} `{TxExt : TxSetExternals} `{Sort : StdSort} `{Ex : HerderExternals}.

(** ** [TxMap] *)
Definition addTx (tx : TransactionFramePtr) (m : TxMap) : TxMap :=
  match txmap_mTransactions m !! txHash tx with
  | Some _ => m
  | None =>
      mkTxMap (Z.max (getSeqNum tx) (mMaxSeq m)) (s64 (mTotalFees m + getFee tx))
        (<[txHash tx := tx]> (txmap_mTransactions m))
  end.
Definition txsOf (m : TxMap) : list TransactionFramePtr := (map_to_list (txmap_mTransactions m)).*2.
Definition recalculate (m : TxMap) : TxMap :=
  fold_left (fun m tx => mkTxMap (Z.max (getSeqNum tx) (mMaxSeq m)) (s64 (mTotalFees m + getFee tx))
                           (txmap_mTransactions m))
    (txsOf m) (mkTxMap 0 0 (txmap_mTransactions m)).

(** ** Receiving a transaction *)

(** The loop over the generations: [None] is [TX_STATUS_DUPLICATE]. *)
Fixpoint scanPending (tx : TransactionFramePtr) (mPendingTransactions : PendingTransactions)
    (totFee highSeq : Z) : option (Z * Z) :=
  match mPendingTransactions with
  | [] => Some (totFee, highSeq)
  | map :: rest =>
      match map !! ptr_source tx with
      | None => scanPending tx rest totFee highSeq
      | Some txmap =>
          match txmap_mTransactions txmap !! txHash tx with
          | Some _ => None
          | None => scanPending tx rest (s64 (totFee + mTotalFees txmap)) (Z.max highSeq (mMaxSeq txmap))
          end
      end
  end.
(** [findOrAdd], then [addTx] on what it returns. *)
Definition addPending (tx : TransactionFramePtr) (mPendingTransactions : PendingTransactions)
    : PendingTransactions :=
  match mPendingTransactions with
  | [] => []
  | acc :: rest =>
      <[ptr_source tx := addTx tx (default emptyTxMap (acc !! ptr_source tx))]> acc :: rest
  end.
Definition recvTransaction (tx : TransactionFramePtr) (mPendingTransactions : PendingTransactions)
    : M (TransactionSubmitStatus * PendingTransactions) :=
  match scanPending tx mPendingTransactions (getFee tx) 0 with
  | None => mret (TX_STATUS_DUPLICATE, mPendingTransactions)
  | Some (totFee, highSeq) =>
      ok ← nested
        ('(valid, _) ← tx_checkValid (tx_frame tx) highSeq;
         if negb valid then mret (false, false)
         else
           _ ← loadAccount (ptr_source tx);
           avail ← read (KeyAccount (ptr_source tx)) getAvailableBalance;
           mret (false, negb (avail <? totFee)));
      mret (if ok : bool then (TX_STATUS_PENDING, addPending tx mPendingTransactions)
            else (TX_STATUS_ERROR, mPendingTransactions))
  end.
Definition getMaxSeqInPendingTxs (acc : AccountID) (mPendingTransactions : PendingTransactions) : Z :=
  fold_left (fun highSeq m => match m !! acc with
                              | None => highSeq
                              | Some txmap => Z.max (mMaxSeq txmap) highSeq
                              end) mPendingTransactions 0.

(** ** Dropping transactions *)

(** One transaction: the generation, and the accounts to recalculate. *)
Definition dropTx (st : AccountTxMap * gset AccountID) (tx : TransactionFramePtr)
    : AccountTxMap * gset AccountID :=
  let '(m, toRecalculate) := st in
  match m !! ptr_source tx with
  | None => st
  | Some txmap =>
      match txmap_mTransactions txmap !! txHash tx with
      | None => st
      | Some _ =>
          let txs := delete (txHash tx) (txmap_mTransactions txmap) in
          if decide (txs = ∅) then (delete (ptr_source tx) m, toRecalculate)
          else (<[ptr_source tx := mkTxMap (mMaxSeq txmap) (mTotalFees txmap) txs]> m,
                {[ptr_source tx]} ∪ toRecalculate)
      end
  end.
Definition removeFrom (dropTxs : list TransactionFramePtr) (m : AccountTxMap) : AccountTxMap :=
  if decide (m = ∅) then m
  else
    let '(m, toRecalculate) := fold_left dropTx dropTxs (m, ∅) in
    map_imap (fun acc txmap =>
      Some (if decide (acc ∈ toRecalculate) then recalculate txmap else txmap)) m.
Definition removeReceivedTxs (dropTxs : list TransactionFramePtr)
    (mPendingTransactions : PendingTransactions) : PendingTransactions :=
  List.map (removeFrom dropTxs) mPendingTransactions.

(** All transactions waiting. *)
Definition generationTxs (m : AccountTxMap) : list TransactionFramePtr :=
  concat (List.map (fun pair => txsOf pair.2) (map_to_list m)).
Definition pendingTxs (mPendingTransactions : PendingTransactions) : list TransactionFramePtr :=
  concat (List.map generationTxs mPendingTransactions).
Definition addAll (txs : list TransactionFramePtr) (ts : TxSetFrame) : TxSetFrame :=
  fold_left (fun ts tx => add tx ts) txs ts.
(** The transactions to broadcast, and the queue. *)
Definition updatePendingTransactions (applied : list TransactionFramePtr)
    (mPendingTransactions : PendingTransactions) : list TransactionFramePtr * PendingTransactions :=
  let pending := removeReceivedTxs applied mPendingTransactions in
  let pending := ∅ :: removelast pending in
  ((sortForApply (addAll (pendingTxs pending) (mkTxSet false 0 0 []))).1, pending).

(** ** Triggering a ledger *)

(** What [triggerNextLedger] does: it adds a transaction set to those known,
    and nominates a value. *)
Record Trigger := mkTrigger {
  tr_txSetHash : Hash;
  tr_slotIndex : Z;
  tr_proposedSet : TxSetFrame;
  tr_nominate : option (StellarValue Value) }.
Definition UPGRADE_TYPE_MAX_SIZE : nat := 128.
Definition proposedUpgrades (V : HerderView) (header : LedgerHeader) : list Value :=
  List.filter (fun v : Value => negb (Nat.leb UPGRADE_TYPE_MAX_SIZE (length v)))
    (upgrade_to_opaque <$> createUpgradesFor (hv_upgrades V) header).
Definition triggerNextLedger (V : HerderView) (tracking : bool) (ledgerSeqToTrigger : Z)
    (mPendingTransactions : PendingTransactions) : M (option Trigger * PendingTransactions) :=
  if negb tracking || negb (hv_isSynced V) then mret (None, mPendingTransactions)
  else
    lcl ← currentHeader;
    let proposedSet := addAll (pendingTxs mPendingTransactions) (mkTxSet false 0 (hv_lclHash V) []) in
    '(proposedSet, removed) ← trimInvalid proposedSet [];
    let pending := removeReceivedTxs removed mPendingTransactions in
    proposedSet ← surgePricingFilter proposedSet;
    valid ← txset_checkValid (hv_lclHash V) proposedSet;
    if negb valid then throw "wanting to emit an invalid txSet"
    else
      let '(txSetHash, proposedSet) := txset_getContentsHash proposedSet in
      let slotIndex := u32 (ledgerSeq lcl + 1) in
      if negb (ledgerSeqToTrigger =? slotIndex)
      then mret (Some (mkTrigger txSetHash slotIndex proposedSet None), pending)
      else
        let nextCloseTime :=
          if hv_timeNow V <=? closeTime lcl then u64 (closeTime lcl + 1) else hv_timeNow V in
        let newProposedValue :=
          mkStellarValue txSetHash nextCloseTime (proposedUpgrades V lcl) in
        mret (Some (mkTrigger txSetHash slotIndex proposedSet (Some newProposedValue)), pending).
End Herder.
