(* ===== verification/Combination.v ===== *)
(** The value the Herder composes out of candidates is one it validates.

    Combining keeps the latest close time, the largest transaction set and the
    largest upgrade of each type.  When every candidate is valid the result is
    valid as well, and no transaction is trimmed from its set. *)

From stdpp Require Import sorting.
From S2P Require Import Prelude Numeric OfferMath Types Sorting Quorums Ballots.
From S2P Require Import SlotState OfferOrder LedgerTxn LedgerState TransactionUtils OfferExchange Operations Upgrades.
From S2P Require Import Payments ManageOffers Transactions TransactionEffects TxSets ApplyOrder TrimValid.
From S2P Require Import Surge LedgerClose ValidFees HerderSCPDriver.

(** * Valid transaction sets, account by account *)

Section Sets.
Context `{Ext : Externals} `{TxExt : TxSetExternals} `{Sort : StdSort}.

(** The transactions of every account follow each other and can be paid for. *)
Definition valid_txs (s : LedgerState) (txs : list TransactionFramePtr) : Prop :=
  forall a, of_account a txs <> [] ->
  exists K, Permutation (of_account a txs) K /\ chain s K 0 /\ funded s K.
Definition by_hash : list TransactionFramePtr -> Prop := StronglySorted (fun x y => txHash x <= txHash y).

Lemma accounts_pass s txs m :
  seqs_ok s -> valid_txs s txs -> groupByAccount txs 0 ∅ = Some m ->
  Forall (fun ai => chain s (std_sort SeqSorter ai.2) 0 /\ funded s (std_sort SeqSorter ai.2)) (in_key_order m).
Proof using.
  intros Hs Hv Hm. apply Forall_forall. intros [a item] Hai. cbn [snd]. apply list_elem_of_In in Hai.
  apply (proj2 (in_key_order_grouped _ _ Hm)) in Hai as [-> Hne].
  destruct (Hv a Hne) as (K & Hp & Hc & Hf). by rewrite (std_sort_chain s K (of_account a txs)).
Qed.
Lemma valid_checkValid s ts :
  (forall env, 0 <= getFullHash env) -> seqs_ok s -> by_hash (mTransactions ts) ->
  valid_txs s (mTransactions ts) -> Z.of_nat (length (mTransactions ts)) <= maxTxSetSize (st_header s) ->
  txset_checkValid (mPreviousLedgerHash ts) ts s = Ok (true, s).
Proof using.
  intros Hh Hs Hsort Hv Hsize. unfold txset_checkValid. rewrite Z.eqb_refl. cbn [negb].
  unfold currentHeader, mbind at 1, M_bind at 1. rewrite (proj2 (Z.ltb_ge _ _)) by done.
  unfold checkOrTrim. destruct (groupByAccount_ok _ Hh Hsort) as [m Hm]. rewrite Hm.
  unfold mbind, M_bind, nested. by rewrite checkAccounts_pass by by apply (accounts_pass s _ m Hs Hv Hm).
Qed.
Lemma checkValid_state s ts lclHash ok s' : txset_checkValid lclHash ts s = Ok (ok, s') -> s' = s.
Proof using.
  unfold txset_checkValid. destruct (negb _); [by intros [= _ <-]|].
  unfold currentHeader, mbind at 1, M_bind at 1. destruct (_ <? _); [by intros [= _ <-]|].
  unfold checkOrTrim. destruct (groupByAccount _ _ _) as [m|]; [|by intros [= _ <-]].
  unfold mbind, M_bind, nested. destruct (checkAccounts _ _ _ _ s) as [[[b u] s1]|]; [|done].
  by intros [= _ <-].
Qed.
(** What [checkValid] accepts is valid. *)
Lemma checkValid_valid s ts lclHash s' :
  txset_checkValid lclHash ts s = Ok (true, s') ->
  s' = s /\ lclHash = mPreviousLedgerHash ts /\ by_hash (mTransactions ts) /\ valid_txs s (mTransactions ts) /\
  Z.of_nat (length (mTransactions ts)) <= maxTxSetSize (st_header s).
Proof using.
  unfold txset_checkValid. destruct (Z.eqb_spec lclHash (mPreviousLedgerHash ts)); cbn [negb]; [|done].
  unfold currentHeader, mbind at 1, M_bind at 1.
  destruct (Z.ltb_spec (maxTxSetSize (st_header s)) (Z.of_nat (length (mTransactions ts)))); [done|].
  unfold checkOrTrim. destruct (groupByAccount _ _ _) as [m|] eqn:Hm; [|done].
  unfold mbind, M_bind, nested.
  destruct (checkAccounts _ _ _ _ s) as [[[ok u] s1]|] eqn:E; [|done].
  intros [= -> <-]. split; [done|]. split; [done|]. split; [by eapply groupByAccount_sorted|]. split; [|done].
  apply checkAccounts_all in E. rewrite Forall_forall in E. intros a Hne.
  destruct (E (a, of_account a (mTransactions ts))) as [Hc Hf].
  { apply list_elem_of_In, (in_key_order_grouped _ _ Hm). done. }
  cbn [snd] in Hc, Hf. eexists. split; [symmetry; apply std_sort_perm|done].
Qed.
Lemma valid_txs_perm s txs txs' : Permutation txs txs' -> valid_txs s txs -> valid_txs s txs'.
Proof using.
  intros Hp Hv a Hne. destruct (Hv a) as (K & HK & H).
  { intros E. apply Hne. pose proof (of_account_perm a _ _ Hp) as H. rewrite E in H.
    by apply Permutation_nil_l in H. }
  exists K. split; [|done]. rewrite <- HK. symmetry. by apply of_account_perm.
Qed.
(** Trimming. *)
Lemma trimInvalid_valid ts tr s ts' tr' s' :
  NoDup (map tx_ptr (mTransactions ts)) -> (forall env, 0 <= getFullHash env) ->
  trimInvalid ts tr s = Ok (ts', tr', s') ->
  s' = s /\ mPreviousLedgerHash ts' = mPreviousLedgerHash ts /\ by_hash (mTransactions ts') /\
  valid_txs s (mTransactions ts') /\ NoDup (map tx_ptr (mTransactions ts')) /\
  incl (mTransactions ts') (mTransactions ts).
Proof using.
  intros Hnd Hh H. apply trimInvalid_inv in H as (-> & Hprev & m & Ds & Hm & HDs & Hts'); [|done..].
  split; [done|]. split; [done|]. rewrite Hts'.
  split; [apply StronglySorted_filter, sortForHash_sorted|].
  split; [|split].
  - intros a Hne. eapply (trimmed_account s (mTransactions (sortForHash ts)) m Ds a); try done.
    by apply sortForHash_NoDup.
  - apply NoDup_map_filter. by apply sortForHash_NoDup.
  - intros x [Hx _]%filter_In. by apply std_sort_In in Hx.
Qed.
Lemma trimInvalid_none ts s :
  (forall env, 0 <= getFullHash env) -> seqs_ok s -> valid_txs s (mTransactions ts) ->
  trimInvalid ts [] s = Ok (sortForHash ts, [], s).
Proof using.
  intros Hh Hs Hv. unfold trimInvalid, checkOrTrim. cbv zeta.
  destruct (groupByAccount_ok _ Hh (sortForHash_sorted ts)) as [m Hm]. rewrite Hm.
  assert (Hv' : valid_txs s (mTransactions (sortForHash ts))).
  { eapply valid_txs_perm; [|done]. cbn. symmetry. apply std_sort_perm. }
  unfold mbind, M_bind, nested. by rewrite checkAccounts_pass by by apply (accounts_pass s _ m Hs Hv' Hm).
Qed.
End Sets.

(** ** The upgrades *)
Definition rank (u : LedgerUpgrade) : Z := upgrade_type_rank (upgrade_type u).
Definition by_rank : list LedgerUpgrade -> Prop := StronglySorted (fun u w => rank u < rank w).

Lemma maxUpgrade_or u w : maxUpgrade u w = u \/ maxUpgrade u w = w.
Proof.
  destruct u, w; cbn; auto;
    match goal with |- context [Z.max ?a ?b] => destruct (Z.max_spec a b) as [[_ ->]|[_ ->]]; auto end.
Qed.
Lemma maxUpgrade_rank u w : rank (maxUpgrade u w) = rank u.
Proof. by destruct u, w. Qed.
Lemma mergeUpgrade_In u us x : In x (mergeUpgrade u us) -> x = u \/ In x us.
Proof.
  induction us as [|y us IH]; cbn [mergeUpgrade]; [intros [->|[]]; auto|].
  destruct (_ <? _); [intros [->|Hx]; auto|]. destruct (_ <? _).
  - intros [->|Hx]; [by right; left|]. apply IH in Hx as [->|Hx]; [by left|by right; right].
  - intros [<-|Hx]; [|by right; right]. destruct (maxUpgrade_or y u) as [->| ->]; [by right; left|by left].
Qed.
Lemma mergeUpgrade_sorted u us : by_rank us -> by_rank (mergeUpgrade u us).
Proof.
  unfold by_rank. induction 1 as [|y us Hs IH Hy]; cbn [mergeUpgrade]; [repeat constructor|].
  change (upgrade_type_rank (upgrade_type ?x)) with (rank x).
  rewrite Forall_forall in Hy.
  destruct (Z.ltb_spec (rank u) (rank y)); [|destruct (Z.ltb_spec (rank y) (rank u))].
  - constructor; [by constructor; [|apply Forall_forall]|]. constructor; [done|].
    apply Forall_forall. intros x Hx. specialize (Hy x Hx). lia.
  - constructor; [done|]. apply Forall_forall. intros x Hx%list_elem_of_In.
    apply mergeUpgrade_In in Hx as [->|Hx]; [done|]. by apply Hy, list_elem_of_In.
  - constructor; [done|]. apply Forall_forall. intros x Hx. rewrite maxUpgrade_rank. auto.
Qed.

Section Combination.
Context `{Ext : Externals} `{TxExt : TxSetExternals} `{Sort : StdSort} `{Ex : HerderExternals}.

(** The header lets [u] through in a ballot. *)
Definition passes (limit : Z) (h : LedgerHeader) (u : LedgerUpgrade) : Prop :=
  match u with
  | LEDGER_UPGRADE_VERSION v => v <= limit /\ ledgerVersion h < v
  | LEDGER_UPGRADE_BASE_FEE v | LEDGER_UPGRADE_MAX_TX_SET_SIZE v | LEDGER_UPGRADE_BASE_RESERVE v => v <> 0
  end.
Lemma isValid_passes params limit nomination h u t :
  isValid upgrade_from_opaque params u nomination limit h = Some t ->
  exists lu, upgrade_from_opaque u = Some lu /\ passes limit h lu /\ t = upgrade_type lu.
Proof using.
  unfold isValid. destruct (nomination && _); [done|]. destruct (upgrade_from_opaque u) as [lu|]; [|done].
  intros H. exists lu. split; [done|].
  destruct lu as [v|v|v|v]; cbn beta iota zeta in H;
    (destruct (_ && _) eqn:E; [|done]; injection H as <-; split; [|done]; apply andb_prop in E as [E E']).
  - apply andb_prop in E as [_ E]. by apply Z.leb_le in E; apply Z.ltb_lt in E'.
  - by apply negb_true_iff, Z.eqb_neq in E'.
  - by apply negb_true_iff, Z.eqb_neq in E'.
  - by apply negb_true_iff, Z.eqb_neq in E'.
Qed.
Lemma passes_isValid `{Laws : !HerderExternalsLaws Ex} params limit h u :
  passes limit h u ->
  isValid upgrade_from_opaque params (upgrade_to_opaque u) false limit h = Some (upgrade_type u).
Proof using.
  unfold isValid. cbn [andb]. rewrite upgrade_roundtrip. destruct u; cbn [passes andb].
  - intros [? ?]. by rewrite (proj2 (Z.leb_le _ _)), (proj2 (Z.ltb_lt _ _)).
  - intros ?. by rewrite (proj2 (Z.eqb_neq _ _)).
  - intros ?. by rewrite (proj2 (Z.eqb_neq _ _)).
  - intros ?. by rewrite (proj2 (Z.eqb_neq _ _)).
Qed.
Lemma checkUpgrades_passes V nomination h last us :
  checkUpgrades V nomination h last us = true ->
  Forall (fun u => exists lu, upgrade_from_opaque u = Some lu /\
            passes (hv_LEDGER_PROTOCOL_VERSION V) h lu) us.
Proof using.
  revert last. induction us as [|u us IH]; intros last; cbn [checkUpgrades]; [constructor|].
  destruct (isValid _ _ _ _ _ _) as [t|] eqn:E; [|done].
  apply isValid_passes in E as (lu & Elu & Hp & _).
  destruct (match last with Some _ => _ | None => _ end); [done|]. intros H%IH. constructor; eauto.
Qed.
Lemma passes_checkUpgrades `{Laws : !HerderExternalsLaws Ex} V h last us :
  Forall (passes (hv_LEDGER_PROTOCOL_VERSION V) h) us -> by_rank us ->
  match last with Some t => Forall (fun u => upgrade_type_rank t < rank u) us | None => True end ->
  checkUpgrades V false h last (upgrade_to_opaque <$> us) = true.
Proof using.
  intros Hp. revert last. induction Hp as [|u us Hu Hus IH]; intros last Hs Hl; [done|].
  cbn [fmap list_fmap checkUpgrades]. rewrite passes_isValid by done.
  apply StronglySorted_inv in Hs as [Hs Hlt].
  destruct last as [t|]; [|by apply IH].
  apply Forall_cons in Hl as [Hl _]. rewrite (proj2 (Z.leb_gt _ _)) by done. by apply IH.
Qed.

(** ** The values *)
Definition legal (limit : Z) (h : LedgerHeader) (us : list LedgerUpgrade) : Prop :=
  Forall (passes limit h) us /\ by_rank us.
Definition readable (limit : Z) (h : LedgerHeader) (sv : StellarValue Value) : Prop :=
  Forall (fun u => exists lu, upgrade_from_opaque u = Some lu /\ passes limit h lu) (sv_upgrades sv).

Lemma mergeUpgrades_legal limit h us :
  Forall (fun u => exists lu, upgrade_from_opaque u = Some lu /\ passes limit h lu) us ->
  forall acc, legal limit h acc -> exists acc', mergeUpgrades us acc = Ok acc' /\ legal limit h acc'.
Proof using.
  induction 1 as [|u us (lu & Elu & Hp) _ IH]; intros acc Hacc; cbn [mergeUpgrades]; [by exists acc|].
  rewrite Elu. apply IH. destruct Hacc as [Ha Hs]. split; [|by apply mergeUpgrade_sorted].
  apply Forall_forall. intros x Hx%list_elem_of_In. apply mergeUpgrade_In in Hx as [->|Hx]; [done|].
  rewrite Forall_forall in Ha. by apply Ha, list_elem_of_In.
Qed.
Lemma readCandidates_legal limit h cs values :
  Forall2 (fun c sv => value_from_opaque c = Some sv /\ readable limit h sv) cs values ->
  forall before H t us, legal limit h us ->
  exists H' t' us', readCandidates cs before H t us = Ok (before ++ values, H', t', us') /\
    legal limit h us' /\ t <= t' /\ Forall (fun sv => sv_closeTime sv <= t') values /\
    (t' = t \/ In t' (sv_closeTime <$> values)).
Proof using.
  induction 1 as [|c sv cs values [Ec Hr] _ IH]; intros before H t us Hus; cbn [readCandidates].
  { exists H, t, us. rewrite app_nil_r. repeat (split; [done || lia|]). by left. }
  rewrite Ec. destruct (mergeUpgrades_legal limit h _ Hr us Hus) as (us1 & Em & Hus1).
  rewrite Em. cbn [mbind outcome_bind].
  set (t1 := if t <? sv_closeTime sv then _ else t).
  assert (Ht1 : t <= t1 /\ sv_closeTime sv <= t1 /\ (t1 = t \/ t1 = sv_closeTime sv))
    by (subst t1; destruct (Z.ltb_spec t (sv_closeTime sv)); split; [|split| |split]; auto; lia).
  destruct (IH (before ++ [sv]) (Z.lxor H (sha256 c)) t1 us1 Hus1)
    as (H' & t' & us' & E & Hus' & Hle & Hall & Hin).
  exists H', t', us'. rewrite E, <- app_assoc. split; [done|]. split; [done|]. split; [lia|].
  split; [constructor; [lia|done]|].
  destruct Hin as [->|Hin]; [|by right; right]. destruct Ht1 as (_ & _ & [->| ->]); [by left|by right; left].
Qed.

(** ** The transaction set *)
Section Cache.
Context (V : HerderView) (d : HerderSCPDriver).

(** A cached set is known by the hash of its contents, its transactions are
    distinct objects, and two with one hash are the same. *)
Record cached (h : Hash) (ts : TxSetFrame) : Prop := {
  cached_distinct : NoDup (map tx_ptr (mTransactions ts));
  cached_hashes : forall x y, In x (mTransactions ts) -> In y (mTransactions ts) ->
    txHash x = txHash y -> tx_frame x = tx_frame y;
  cached_key : hashTxSet (mPreviousLedgerHash ts)
                 (map tx_frame (mTransactions (sortForHash ts))) = h }.

Definition size (ts : TxSetFrame) : nat := length (mTransactions ts).
Definition best_of (good : Hash -> TxSetFrame -> Prop) (best : option (Hash * TxSetFrame)) : Prop :=
  forall k ts, best = Some (k, ts) -> exists ts0, good k ts0 /\ ts = (previousLedgerHash ts0).2.

Lemma betterTxSet_good (good : Hash -> TxSetFrame -> Prop) H best sv ts :
  hv_getTxSet V (sv_txSetHash sv) = Some ts -> mPreviousLedgerHash ts = hv_lclHash V ->
  good (sv_txSetHash sv) ts -> best_of good best ->
  exists k ts0, betterTxSet V H best sv = Some (k, (previousLedgerHash ts0).2) /\ good k ts0 /\
    (size ts <= size ts0)%nat /\ forall k' ts', best = Some (k', ts') -> (size ts' <= size ts0)%nat.
Proof using.
  intros Hget Hprev Hgood Hb. unfold betterTxSet. rewrite Hget. cbn [previousLedgerHash].
  rewrite Hprev, Z.eqb_refl. cbn [negb].
  destruct best as [[k0 ts0]|].
  - destruct (Hb k0 ts0 eq_refl) as (ts1 & Hu & ->). cbn [previousLedgerHash snd mTransactions].
    fold (size ts) (size ts1).
    destruct (Nat.ltb_spec (size ts1) (size ts)); cbn [orb]; [|destruct (Nat.eqb_spec (size ts) (size ts1))];
      [|destruct (lessThanXored _ _ _)|];
      cbn [andb]; [exists (sv_txSetHash sv), ts| exists (sv_txSetHash sv), ts|exists k0, ts1|exists k0, ts1];
      cbn; rewrite ?Hprev; (split; [done|]; split; [done|]; split; [lia|]);
      intros ? ? [= <- <-]; change (size (mkTxSet _ _ _ (mTransactions ts1))) with (size ts1); lia.
  - exists (sv_txSetHash sv), ts. cbn. rewrite Hprev. by repeat split.
Qed.
Lemma bestTxSet_good (good : Hash -> TxSetFrame -> Prop) H values best :
  (forall k ts, good k ts -> hv_getTxSet V k = Some ts /\ mPreviousLedgerHash ts = hv_lclHash V) ->
  Forall (fun sv => exists ts, good (sv_txSetHash sv) ts) values ->
  best_of good best -> (values = [] -> is_Some best) ->
  exists k ts, fold_left (betterTxSet V H) values best = Some (k, (previousLedgerHash ts).2) /\ good k ts /\
    (forall k' ts', best = Some (k', ts') -> (size ts' <= size ts)%nat) /\
    forall sv ts', In sv values -> hv_getTxSet V (sv_txSetHash sv) = Some ts' -> (size ts' <= size ts)%nat.
Proof using.
  intros Hg Hv. revert best.
  induction Hv as [|sv values (ts & Hts) _ IH]; intros best Hb Hne; cbn [fold_left].
  { destruct (Hne eq_refl) as [[k ts] ->]. destruct (Hb k ts eq_refl) as (ts0 & Hu & ->). exists k, ts0.
    split; [done|]. split; [done|]. split; [by intros ? ? [= <- <-]|done]. }
  destruct (Hg _ _ Hts) as [Hget Hprev].
  destruct (betterTxSet_good good H best sv ts Hget Hprev Hts Hb) as (k0 & ts0 & -> & Hg0 & Hle & Hlb).
  destruct (IH (Some (k0, (previousLedgerHash ts0).2))) as (k & ts1 & E & Hg1 & Hlb1 & Hall);
    [intros ? ? [= <- <-]; eauto|by eexists|].
  specialize (Hlb1 _ _ eq_refl). change (size (previousLedgerHash ts0).2) with (size ts0) in Hlb1.
  exists k, ts1. split; [done|]. split; [done|]. split.
  - intros k' ts' E'. specialize (Hlb k' ts' E'). lia.
  - intros sv' ts' [<-|Hin] Hget'; [|by eapply Hall]. rewrite Hget in Hget'. injection Hget' as <-. lia.
Qed.

(** Sorting twice is sorting once, as far as the envelopes go. *)
Lemma sorted_envelopes (l1 l2 : list TransactionEnvelope) :
  let R e1 e2 := getFullHash e1 <= getFullHash e2 in
  StronglySorted R l1 -> StronglySorted R l2 -> Permutation l1 l2 ->
  (forall e1 e2, In e1 l2 -> In e2 l2 -> getFullHash e1 = getFullHash e2 -> e1 = e2) -> l1 = l2.
Proof using.
  intros R H1. revert l2. induction H1 as [|x l1 H1 IH Hx]; intros l2 H2 Hp Hinj.
  { by apply Permutation_nil_l in Hp as ->. }
  destruct H2 as [|y l2 H2 Hy]; [by apply Permutation_nil_r in Hp|]. rewrite Forall_forall in Hx, Hy.
  assert (Hxin : In x (y :: l2)) by (eapply Permutation_in; [exact Hp|by left]).
  assert (Hyin : In y (x :: l1)) by (eapply Permutation_in; [symmetry; exact Hp|by left]).
  assert (x = y) as ->.
  { apply Hinj; [done|by left|]. destruct Hxin as [->|Hxin]; [done|]. destruct Hyin as [->|Hyin]; [done|].
    apply list_elem_of_In in Hxin, Hyin. apply Hy in Hxin. apply Hx in Hyin. unfold R in *. lia. }
  f_equal. apply IH; [done|by apply Permutation_cons_inv in Hp|]. intros ? ? ? ?. by apply Hinj; right.
Qed.
Lemma by_hash_envelopes l :
  by_hash l -> StronglySorted (fun e1 e2 => getFullHash e1 <= getFullHash e2) (map tx_frame l).
Proof using.
  unfold by_hash. induction 1 as [|x l Hl IH Hx]; cbn; constructor; [done|].
  rewrite Forall_forall in Hx. apply Forall_forall. intros e He%list_elem_of_In%in_map_iff.
  destruct He as (y & <- & Hy%list_elem_of_In). by apply Hx.
Qed.
Lemma contentsHash_sorted h ts :
  cached h ts -> (txset_getContentsHash (sortForHash ts)).1 = h.
Proof using.
  intros [_ Hi Hk]. rewrite <- Hk. cbn. f_equal. pose proof (std_sort_perm _ HashTxSorter) as Hp.
  apply sorted_envelopes.
  - apply by_hash_envelopes, (sortForHash_sorted (sortForHash ts)).
  - apply by_hash_envelopes, sortForHash_sorted.
  - apply Permutation_map, Hp.
  - intros e1 e2 (x & <- & Hx)%in_map_iff (y & <- & Hy)%in_map_iff.
    apply std_sort_In in Hx, Hy. by apply Hi.
Qed.

Context (slotIndex : Z) (s : LedgerState).
(** What a fully validated value is made of. *)
Definition validated (ts : TxSetFrame) : Prop :=
  txset_checkValid (hv_lclHash V) ts s = Ok (true, s).
Definition timely (sv : StellarValue Value) : Prop :=
  checkCloseTime V (closeTime (st_header s)) sv = true.
Definition current_slot : Prop :=
  hv_isSynced V = true /\ slotIndex = u32 (ledgerSeq (st_header s) + 1).

Lemma compatible_current :
  isSlotCompatibleWithCurrentState V slotIndex s = Ok (bool_decide current_slot, s).
Proof using.
  unfold isSlotCompatibleWithCurrentState, current_slot.
  destruct (hv_isSynced V); [|by rewrite bool_decide_eq_false_2 by (by intros [])].
  unfold currentHeader, mbind, M_bind, mret, M_ret. do 2 f_equal.
  destruct (Z.eqb_spec slotIndex (u32 (ledgerSeq (st_header s) + 1))) as [E|E]; symmetry;
    [by apply bool_decide_eq_true_2|by apply bool_decide_eq_false_2; intros []].
Qed.
Lemma validateValueHelper_full sv s' :
  validateValueHelper V d slotIndex sv s = Ok (kFullyValidatedValue, s') <->
  s' = s /\ current_slot /\ timely sv /\
  exists ts, hv_getTxSet V (sv_txSetHash sv) = Some ts /\ validated ts.
Proof using.
  unfold validateValueHelper. unfold mbind at 1, M_bind at 1. rewrite compatible_current.
  unfold currentHeader, mbind, M_bind, mret, M_ret, timely.
  destruct (bool_decide_reflect current_slot) as [Hc|Hc].
  - destruct (checkCloseTime _ _ _); cbn [negb]; [|split; [done|by intros (_ & _ & ? & _)]].
    destruct (hv_getTxSet _ _) as [ts|]; [|split; [done|by intros (_ & _ & _ & ? & ? & _)]]. split.
    + destruct (txset_checkValid _ _ s) as [[[] s1]|] eqn:E; [|done..]. intros [= <-].
      pose proof E as [-> _]%checkValid_valid. do 3 (split; [done|]). by exists ts.
    + intros (-> & _ & _ & ? & [= <-] & ->). done.
  - split; [|by intros (_ & ? & _)].
    destruct (if slotIndex =? _ then _ else _); [done|].
    destruct (mTrackingSCP d) as [tracking|]; [|done]. unfold lift.
    destruct (nextConsensusLedgerIndex d) as [next|]; [|done].
    destruct (slotIndex <? next); [done|]. destruct (next <? slotIndex); [done|].
    by destruct (negb _).
Qed.
Lemma validateValue_full c nomination s' :
  herder_validateValue V d slotIndex c nomination s = Ok (kFullyValidatedValue, s') <->
  s' = s /\ current_slot /\ exists sv, value_from_opaque c = Some sv /\ timely sv /\
    checkUpgrades V nomination (st_header s) None (sv_upgrades sv) = true /\
    exists ts, hv_getTxSet V (sv_txSetHash sv) = Some ts /\ validated ts.
Proof using.
  unfold herder_validateValue. destruct (value_from_opaque c) as [sv|];
    [|split; [done|by intros (_ & _ & ? & ? & _)]].
  pose proof (validateValueHelper_full sv) as Hfull. unfold mbind, M_bind, currentHeader, mret, M_ret.
  split.
  - destruct (validateValueHelper _ _ _ _ s) as [[[] s1]|]; [done| |by destruct (checkUpgrades _ _ _ _ _)|done].
    destruct (proj1 (Hfull s1) eq_refl) as (-> & Hc & Ht & Hts).
    destruct (checkUpgrades _ _ _ _ _) eqn:Eu; [|done]. intros [= <-]. do 2 (split; [done|]). by exists sv.
  - intros (-> & Hc & ? & [= <-] & Ht & Hu & Hts). rewrite (proj2 (Hfull s)) by done. by rewrite Hu.
Qed.

Lemma candidates_values nomination cs :
  Forall (fun c => herder_validateValue V d slotIndex c nomination s = Ok (kFullyValidatedValue, s)) cs ->
  exists values,
    Forall2 (fun c sv => value_from_opaque c = Some sv /\
               readable (hv_LEDGER_PROTOCOL_VERSION V) (st_header s) sv) cs values /\
    Forall (fun sv => timely sv /\ exists ts, hv_getTxSet V (sv_txSetHash sv) = Some ts /\ validated ts) values /\
    (cs <> [] -> current_slot).
Proof using.
  induction 1 as [|c cs Hc _ (values & Hcs & Hvs & _)]; [by exists []|].
  apply validateValue_full in Hc as (_ & Hcur & sv & Esv & Ht & Hu & Hts).
  exists (sv :: values). split; [constructor; [split; [done|by eapply checkUpgrades_passes]|done]|].
  split; [by constructor|done].
Qed.
Lemma latest_close values t :
  0 <= closeTime (st_header s) -> values <> [] ->
  Forall (fun sv => timely sv /\ exists ts, hv_getTxSet V (sv_txSetHash sv) = Some ts /\ validated ts) values ->
  Forall (fun sv => sv_closeTime sv <= t) values ->
  t = 0 \/ In t (sv_closeTime <$> values) -> In t (sv_closeTime <$> values).
Proof using.
  intros Hc Hne Hvs Hle [->|Ht]; [|done]. destruct Hvs as [|sv values [Hsv _] _]; [done|].
  apply Forall_cons in Hle as [Hle _]. unfold timely, checkCloseTime in Hsv.
  destruct (Z.leb_spec (sv_closeTime sv) (closeTime (st_header s))); [done|]. lia.
Qed.
End Cache.
Lemma values_of_candidates (P : StellarValue Value -> Prop) cs values :
  Forall2 (fun c sv => value_from_opaque c = Some sv /\ P sv) cs values ->
  value_from_opaque <$> cs = Some <$> values.
Proof using. induction 1 as [|c sv cs values [E _] _ IH]; [done|]. cbn. by rewrite E, IH. Qed.

(** C11. What the Herder composes it also accepts.  If every candidate was
    fully valid, then [combineCandidates] returns, without removing a
    transaction, a value that [validateValue] accepts as fully valid in a
    ballot.  Its transaction set is that of a candidate and none has more
    transactions, its close time is the latest of the candidates'. *)
Theorem combineCandidates_valid `{Laws : !HerderExternalsLaws Ex} V d slotIndex nomination candidates s :
  (forall env, 0 <= getFullHash env) -> seqs_ok s -> 0 <= closeTime (st_header s) ->
  (forall h ts, hv_getTxSet V h = Some ts -> cached h ts) ->
  candidates <> [] ->
  Forall (fun c => herder_validateValue V d slotIndex c nomination s = Ok (kFullyValidatedValue, s)) candidates ->
  exists values h t us ts, let value := value_to_opaque (mkStellarValue h t us) in
    herder_combineCandidates V candidates s = Ok ((value, None), s) /\
    herder_validateValue V d slotIndex value false s = Ok (kFullyValidatedValue, s) /\
    (value_from_opaque <$> candidates) = Some <$> values /\
    In t (sv_closeTime <$> values) /\ Forall (fun sv => sv_closeTime sv <= t) values /\
    In h (sv_txSetHash <$> values) /\ hv_getTxSet V h = Some ts /\
    forall sv ts', In sv values -> hv_getTxSet V (sv_txSetHash sv) = Some ts' -> (size ts' <= size ts)%nat.
Proof using.
  intros Hh Hs Hclose Hcache Hne Hall.
  destruct (candidates_values _ _ _ _ _ _ Hall) as (values & Hcs & Hvs & Hcur). specialize (Hcur Hne).
  destruct (readCandidates_legal _ _ _ _ Hcs [] 0 0 []) as (H & t & us & Eread & [Hpass Hrank] & _ & Hle & Ht).
  { split; constructor. }
  assert (Hvs' : values <> []) by (intros ->; by apply Forall2_nil_inv_r in Hcs).
  apply (latest_close V s) in Ht; [|done..].
  set (good k ts := hv_getTxSet V k = Some ts /\ validated V s ts /\ In k (sv_txSetHash <$> values)).
  destruct (bestTxSet_good V good H values None) as (k & ts & Ebest & (Hget & Hts & Hin) & _ & Hbest).
  - intros ? ts (E & Hv%checkValid_valid & _). split; [done|]. symmetry. apply Hv.
  - rewrite Forall_forall in *. intros sv Hsv. pose proof Hsv as [_ (ts & ? & ?)]%Hvs. exists ts.
    split; [done|]. split; [done|]. apply list_elem_of_In. by apply list_elem_of_fmap_2.
  - done.
  - done.
  - exists values, k, t, (upgrade_to_opaque <$> us), ts. intros value.
    split; [|split; [|split; [by apply values_of_candidates in Hcs|done]]].
    + unfold herder_combineCandidates, lift, mbind, M_bind. rewrite Eread. cbn [app]. rewrite Ebest.
      pose proof Hts as (_ & Hprev & _ & Hvalid & _)%checkValid_valid.
      rewrite (trimInvalid_none (previousLedgerHash ts).2) by done.
      pose proof (contentsHash_sorted k ts (Hcache _ _ Hget)) as Ek.
      change (sortForHash (previousLedgerHash ts).2) with (sortForHash ts).
      destruct (txset_getContentsHash (sortForHash ts)) as [k' ts']. cbn in Ek. by subst k'.
    + apply validateValue_full. do 2 (split; [done|]).
      exists (mkStellarValue k t (upgrade_to_opaque <$> us)). cbn [sv_txSetHash sv_closeTime sv_upgrades].
      split; [apply value_roundtrip|]. split; [|split; [by apply passes_checkUpgrades|by exists ts]].
      apply list_elem_of_In, list_elem_of_fmap_1 in Ht as (sv & -> & Hsv).
      rewrite Forall_forall in Hvs. destruct (Hvs sv Hsv) as [Hsvt _]. exact Hsvt.
Qed.
End Combination.
