(* ===== verification/Proposal.v ===== *)
(** What a node proposes for a ledger: surge pricing leaves a valid set valid,
    so [triggerNextLedger] never finds its own set invalid, and the value it
    nominates is one that it validates itself. *)

From Stdlib Require Import SpecFloat.
From stdpp Require Import sorting.
From S2P Require Import Prelude Numeric OfferMath Types Sums Sorting OfferOrder LedgerTxn.
From S2P Require Import LedgerState TransactionUtils OfferExchange Operations Upgrades.
From S2P Require Import Payments ManageOffers Transactions UpgradeCycle.
From S2P Require Import TransactionEffects TxSets ApplyOrder TrimValid Surge LedgerClose ValidFees.
From S2P Require Import Quorums Ballots SlotState HerderSCPDriver Combination.

(** ** Rates are numbers *)

(** A transaction as XDR can carry it, in a ledger that charges something. *)
Definition priced (header : LedgerHeader) (tx : TransactionFramePtr) : Prop :=
  in_u32 (getFee tx) /\ 0 < getMinFee (env_tx (tx_frame tx)) header.

Lemma addFeeRatio_plain header txs :
  Forall (priced header) txs -> forall m : gmap AccountID spec_float, (forall a r, m !! a = Some r -> plain r) ->
  forall a r, fold_left (addFeeRatio header) txs m !! a = Some r -> plain r.
Proof.
  induction 1 as [|tx txs [Hfee Hmin] _ IH]; intros m Hm; cbn [fold_left]; [done|].
  apply IH. intros a r. unfold addFeeRatio.
  assert (Hr : plain (feeRatio tx header)) by (apply quotient_plain; unfold_ints; lia).
  assert (Hnow : plain (default (S754_zero false) (m !! ptr_source tx))).
  { destruct (m !! ptr_source tx) eqn:E; [by eapply Hm|done]. }
  destruct (SFeqb _ _); [|destruct (SFltb _ _)];
    (destruct (decide (ptr_source tx = a)) as [<-|Hn];
     [rewrite lookup_insert_eq; by intros [= <-]|rewrite lookup_insert_ne by done; apply Hm]).
Qed.
Lemma rate_plain header txs tx :
  Forall (priced header) txs -> plain (rate (fold_left (addFeeRatio header) txs ∅) tx).
Proof.
  intros Hp. unfold rate. destruct (_ !! _) as [r|] eqn:E; [|done].
  by eapply (addFeeRatio_plain header txs Hp ∅).
Qed.

Section Proposal.
Context `{Ext : Externals} `{TxExt : TxSetExternals} `{Sort : StdSort} `{Ex : HerderExternals}.

(** ** A prefix of a chain *)
Lemma chain_prefix s K1 K2 cur : chain s (K1 ++ K2) cur -> chain s K1 cur.
Proof using. revert cur. induction K1 as [|x K1 IH]; intros cur; [done|]. intros [Hx Hc]. by split; [|apply IH]. Qed.
Lemma funded_prefix s a K1 K2 :
  (forall tx, In tx (K1 ++ K2) -> ptr_source tx = a) ->
  Forall (fun tx => in_u32 (getFee tx)) (K1 ++ K2) -> Z.of_nat (length (K1 ++ K2)) <= INT32_MAX ->
  funded s (K1 ++ K2) -> funded s K1.
Proof using.
  intros Hsrc Hfee Hlen Hf. destruct K1 as [|x K1]; [done|]. set (K := x :: K1) in *.
  rewrite length_app in Hlen.
  pose proof Hfee as [Hf1 Hf2]%Forall_app.
  destruct (summary_last K None 0) as (t1 & E1 & Ht1); [done|].
  destruct (summary_last (K ++ K2) None 0) as (t2 & E2 & Ht2); [done|].
  pose proof (summary_fees K None 0 Hf1) as F1. pose proof (summary_fees (K ++ K2) None 0 Hfee) as F2.
  rewrite length_app in F2. rewrite fees_app in F2. pose proof (fees_nonneg _ Hf2) as Hn.
  unfold funded in *. destruct (summary K None 0) as [l1 f1]. destruct (summary (K ++ K2) None 0) as [l2 f2].
  cbn [fst snd] in *. subst l1 l2. destruct Hf as (avail & Er & Hle). exists avail.
  rewrite (Hsrc t1) by (apply in_app_iff; by left). rewrite (Hsrc t2) in Er by done. split; [done|].
  unfold_ints. lia.
Qed.

(** ** Surge pricing keeps a valid set valid *)
Lemma surgePricing_filter header ts :
  NoDup (map tx_ptr (mTransactions ts)) ->
  mPreviousLedgerHash (surgePricing header ts) = mPreviousLedgerHash ts /\
  exists f, mTransactions (surgePricing header ts) = List.filter f (mTransactions ts).
Proof using.
  intros Hnd. unfold surgePricing. destruct (Nat.ltb _ _).
  - change (fold_left _ ?D ts) with (removeAll D ts).
    destruct (removeAll_transactions (drop (Z.to_nat (maxTxSetSize header))
      (std_sort (SurgeSorter (fold_left (addFeeRatio header) (mTransactions ts) ∅)) (mTransactions ts))) ts Hnd)
      as [-> ->]. eauto.
  - split; [done|]. exists (fun _ => true). symmetry. by apply forallb_filter_id, forallb_forall.
Qed.
(** Sorted for the cut, an account's transactions stay in their chain. *)
Lemma surge_account s header txs a K :
  seqs_ok s -> Forall (priced header) txs -> chain s K 0 -> Permutation (of_account a txs) K ->
  of_account a (std_sort (SurgeSorter (fold_left (addFeeRatio header) txs ∅)) txs) = K.
Proof using.
  intros Hs Hp Hc HK. set (m := fold_left _ _ _). apply sorted_unique.
  - by eapply chain_increasing.
  - eapply StronglySorted_mono; [|apply StronglySorted_filter, (std_sort_sorted _ (SurgeSorter m))].
    + intros x y [_ Hx]%filter_In [_ Hy]%filter_In. apply Z.eqb_eq in Hx, Hy.
      unfold may_follow, SurgeSorter, SeqSorter. by rewrite Hx, Hy, Z.eqb_refl.
    + eapply strict_weak_mono; [|apply (SurgeSorter_swo m)]. intros x _. by apply rate_plain.
  - rewrite <- HK. apply of_account_perm, std_sort_perm.
Qed.
Lemma surge_valid s header ts :
  seqs_ok s -> NoDup (map tx_ptr (mTransactions ts)) -> Forall (priced header) (mTransactions ts) ->
  Z.of_nat (length (mTransactions ts)) <= INT32_MAX -> 0 <= maxTxSetSize header ->
  by_hash (mTransactions ts) -> valid_txs s (mTransactions ts) ->
  let ts' := surgePricing header ts in
  mPreviousLedgerHash ts' = mPreviousLedgerHash ts /\ by_hash (mTransactions ts') /\
  valid_txs s (mTransactions ts') /\ Z.of_nat (length (mTransactions ts')) <= maxTxSetSize header.
Proof using.
  intros Hs Hnd Hp Hlen Hmax Hh Hv ts'.
  destruct (surgePricing_filter header ts Hnd) as [Hprev [f Hf]].
  destruct (surgePricing_split header ts Hnd) as [_ Hsplit]. cbv zeta in Hsplit. fold ts' in Hsplit, Hf, Hprev.
  set (sorted := std_sort (SurgeSorter _) (mTransactions ts)) in Hsplit.
  split; [done|]. split; [rewrite Hf; by apply StronglySorted_filter|].
  destruct Hsplit as [Hsplit|[-> Hle]]; [|split; [done|lia]].
  split; [|rewrite (Permutation_length Hsplit), length_take; lia].
  apply (valid_txs_perm _ _ _ (symmetry Hsplit)). intros a Hne.
  set (max := Z.to_nat (maxTxSetSize header)) in *.
  destruct (Hv a) as (K & HK & Hc & Hfund).
  { intros E. assert (Hp' : Permutation (mTransactions ts) (take max sorted ++ drop max sorted))
      by (rewrite take_drop; symmetry; apply std_sort_perm).
    apply (of_account_perm a) in Hp'. rewrite E, of_account_app in Hp'. apply Permutation_nil_l in Hp'.
    symmetry in Hp'. by apply app_eq_nil in Hp' as [Hp' _]. }
  pose proof (surge_account s header _ a K Hs Hp Hc HK) as Ek. fold sorted in Ek.
  rewrite <- (take_drop max sorted), of_account_app in Ek. subst K.
  eexists. split; [done|]. split; [by eapply chain_prefix|].
  assert (Hin : forall tx, In tx (of_account a (take max sorted) ++ of_account a (drop max sorted)) ->
            In tx (mTransactions ts) /\ ptr_source tx = a).
  { intros tx Htx. apply In_of_account. by eapply Permutation_in; [symmetry; exact HK|]. }
  eapply (funded_prefix s a); [|apply Forall_forall| |done].
  - intros tx Htx. by apply Hin.
  - intros tx Htx%list_elem_of_In. apply Hin in Htx as [Htx _].
    rewrite Forall_forall in Hp. by apply Hp, list_elem_of_In.
  - rewrite <- (Permutation_length HK). unfold of_account.
    pose proof (filter_length_le (fun tx => ptr_source tx =? a) (mTransactions ts)). lia.
Qed.

(** ** The upgrades it proposes are valid, in the order of their types *)
Lemma by_rank_propose o now mk l (bound : Z) :
  (forall v, rank (mk v) = bound) -> by_rank l -> Forall (fun u => bound < rank u) l ->
  by_rank (propose o now mk ++ l).
Proof using.
  intros Hr Hl Hb. unfold propose. destruct o as [v|]; [|done]. destruct (negb _); [|done].
  constructor; [done|]. rewrite Hr. done.
Qed.
Lemma Forall_propose (P : LedgerUpgrade -> Prop) o now mk l :
  (forall v, P (mk v)) -> Forall P l -> Forall P (propose o now mk ++ l).
Proof using.
  intros Hm Hl. unfold propose. destruct o as [v|]; [|done]. destruct (negb _); [|done]. by constructor.
Qed.
Lemma created_by_rank params header : by_rank (createUpgradesFor params header).
Proof using.
  unfold createUpgradesFor. destruct (negb _); [constructor|].
  rewrite <- (app_nil_r (propose (mBaseReserve params) _ _)).
  apply (by_rank_propose _ _ _ _ 1); [done|apply (by_rank_propose _ _ _ _ 2);
    [done|apply (by_rank_propose _ _ _ _ 3); [done|apply (by_rank_propose _ _ _ _ 4); [done|constructor..]|]|]|].
  all: repeat (apply Forall_propose; [by intros|]); constructor.
Qed.
Lemma checkUpgrades_of V header us last :
  by_rank us ->
  match last with Some t => Forall (fun u => upgrade_type_rank t < rank u) us | None => True end ->
  Forall (fun u => isValid upgrade_from_opaque (hv_upgrades V) (upgrade_to_opaque u) true (hv_LEDGER_PROTOCOL_VERSION V) header =
            if sensible (hv_LEDGER_PROTOCOL_VERSION V) header u then Some (upgrade_type u) else None) us ->
  checkUpgrades V true header last (upgrade_to_opaque <$> us) = forallb (sensible (hv_LEDGER_PROTOCOL_VERSION V) header) us.
Proof using.
  intros Hr Hl Hv. revert last Hr Hl. induction Hv as [|u us Hu _ IH]; intros last Hr Hl; [done|].
  cbn [fmap list_fmap checkUpgrades forallb]. rewrite Hu. destruct (sensible _ _ u); [|done]. apply StronglySorted_inv in Hr as [Hr Hlt].
  destruct last as [t|]; [|by apply IH].
  apply Forall_cons in Hl as [Hl _]. rewrite (proj2 (Z.leb_gt _ _)) by done. by apply IH.
Qed.
Lemma filter_fmap {A B} (f : B -> bool) (g : A -> B) l :
  List.filter f (g <$> l) = g <$> List.filter (fun x => f (g x)) l.
Proof using. induction l as [|x l IH]; cbn; [done|]. destruct (f (g x)); cbn; by rewrite IH. Qed.
(** The upgrades of the value it nominates. *)
Definition nominatedUpgrades (V : HerderView) (header : LedgerHeader) : list LedgerUpgrade :=
  List.filter (fun u => negb (Nat.leb UPGRADE_TYPE_MAX_SIZE (length (upgrade_to_opaque u))))
    (createUpgradesFor (hv_upgrades V) header).
Lemma proposed_valid `{Laws : !HerderExternalsLaws Ex} V header :
  checkUpgrades V true header None (proposedUpgrades V header) =
    forallb (sensible (hv_LEDGER_PROTOCOL_VERSION V) header) (nominatedUpgrades V header).
Proof using.
  unfold proposedUpgrades. rewrite filter_fmap. apply checkUpgrades_of; [|done|].
  - apply StronglySorted_filter, created_by_rank.
  - apply Forall_forall. intros u [Hu _]%list_elem_of_In%filter_In.
    apply created_isValid; [apply upgrade_roundtrip|done].
Qed.

(** ** The value it nominates *)
Lemma addAll_transactions txs ts :
  mTransactions (addAll txs ts) = mTransactions ts ++ txs /\
  mPreviousLedgerHash (addAll txs ts) = mPreviousLedgerHash ts.
Proof using.
  revert ts. unfold addAll. induction txs as [|x txs IH]; intros ts; cbn [fold_left]; [by rewrite app_nil_r|].
  destruct (IH (add x ts)) as [-> ->]. cbn. by rewrite <- app_assoc.
Qed.
(** What [addTxSet] makes known. *)
Definition knowing (V : HerderView) (h : Hash) (ts : TxSetFrame) : HerderView :=
  mkView (hv_lclHash V) (hv_isSynced V) (hv_timeNow V)
    (fun k => if k =? h then Some ts else hv_getTxSet V k) (hv_upgrades V) (hv_LEDGER_PROTOCOL_VERSION V).

Lemma nextCloseTime_valid V header h us :
  0 <= closeTime header < UINT64_MAX -> 0 <= hv_timeNow V -> hv_timeNow V + MAX_TIME_SLIP_SECONDS <= UINT64_MAX ->
  checkCloseTime V (closeTime header)
    (mkStellarValue h (if hv_timeNow V <=? closeTime header then u64 (closeTime header + 1) else hv_timeNow V) us)
  = (closeTime header <? hv_timeNow V + MAX_TIME_SLIP_SECONDS).
Proof using.
  unfold checkCloseTime, MAX_TIME_SLIP_SECONDS. cbn [sv_closeTime]. intros Hc Hn Hnow.
  rewrite (u64_id (hv_timeNow V + 60)) by (unfold_ints; lia).
  destruct (Z.leb_spec (hv_timeNow V) (closeTime header)); rewrite ?(u64_id (closeTime header + 1)) by (unfold_ints; lia);
    rewrite (proj2 (Z.leb_gt _ _)) by lia; destruct (Z.ltb_spec (closeTime header) (hv_timeNow V + 60)).
  1, 3: by rewrite (proj2 (Z.ltb_ge _ _)) by lia.
  all: by rewrite (proj2 (Z.ltb_lt _ _)) by lia.
Qed.

Lemma getContentsHash_keeps ts :
  by_hash (mTransactions ts) ->
  let ts' := (txset_getContentsHash ts).2 in
  mPreviousLedgerHash ts' = mPreviousLedgerHash ts /\ by_hash (mTransactions ts') /\
  Permutation (mTransactions ts) (mTransactions ts').
Proof using.
  intros Hh. unfold txset_getContentsHash. destruct (mHashIsValid ts); cbn; [done|].
  split; [done|]. split; [apply (sortForHash_sorted ts)|]. symmetry. apply std_sort_perm.
Qed.
(** The set after trimming and the cut. *)
Lemma proposedSet_valid V s pending ts1 removed s1 :
  (forall env, 0 <= getFullHash env) -> seqs_ok s ->
  NoDup (map tx_ptr (pendingTxs pending)) -> Forall (priced (st_header s)) (pendingTxs pending) ->
  Z.of_nat (length (pendingTxs pending)) <= INT32_MAX -> 0 <= maxTxSetSize (st_header s) ->
  trimInvalid (addAll (pendingTxs pending) (mkTxSet false 0 (hv_lclHash V) [])) [] s = Ok (ts1, removed, s1) ->
  s1 = s /\ let ts2 := surgePricing (st_header s) ts1 in
  mPreviousLedgerHash ts2 = hv_lclHash V /\ by_hash (mTransactions ts2) /\ valid_txs s (mTransactions ts2) /\
  Z.of_nat (length (mTransactions ts2)) <= maxTxSetSize (st_header s) /\
  incl (mTransactions ts2) (pendingTxs pending).
Proof using.
  intros Hh Hs Hnd Hp Hlen Hmax Ht.
  destruct (addAll_transactions (pendingTxs pending) (mkTxSet false 0 (hv_lclHash V) [])) as [Et Eprev].
  cbn [mTransactions mPreviousLedgerHash app] in Et, Eprev.
  apply trimInvalid_valid in Ht as (-> & Hprev & Hbh & Hv & Hnd1 & Hincl); [|by rewrite Et|done].
  rewrite Et in Hincl. rewrite Eprev in Hprev. split; [done|]. intros ts2.
  assert (Hlen1 : (length (mTransactions ts1) <= length (pendingTxs pending))%nat).
  { apply NoDup_incl_length; [|done]. apply NoDup_ListNoDup. by eapply NoDup_fmap_1. }
  destruct (surge_valid s (st_header s) ts1) as (Hprev2 & Hbh2 & Hv2 & Hsize2); [done|done| |lia|done..|].
  { rewrite Forall_forall in *. intros x Hx. apply Hp, list_elem_of_In, Hincl. by apply list_elem_of_In. }
  split; [by rewrite <- Hprev|]. do 3 (split; [done|]).
  destruct (surgePricing_filter (st_header s) ts1 Hnd1) as [_ [f Hf]].
  unfold ts2. rewrite Hf. intros x [Hx _]%filter_In. by apply Hincl.
Qed.

(** C12. A node validates what it proposes.  When [triggerNextLedger] runs on a
    node in sync, whatever transactions wait in its queue, the set it builds
    is valid and made of waiting transactions - the exception about an invalid
    set is never thrown, and any exception is one of [trimInvalid].  If the
    ledger to trigger is not the next one it nominates nothing; if it is, it
    nominates a value for that slot, and its own [validateValue] finds that
    value fully valid exactly if the last close time is less than a minute
    ahead of its clock and none of the upgrades that it put into the value
    lowers the protocol version, is past the version it supports or sets a
    fee, size or reserve to zero.  The waiting transactions are distinct, the
    minimum fee is not zero, and sequence numbers, fees, sizes and times are in
    the range of their types. *)
Theorem triggerNextLedger_valid `{Laws : !HerderExternalsLaws Ex} V d ledgerSeqToTrigger pending s :
  (forall env, 0 <= getFullHash env) -> seqs_ok s ->
  NoDup (map tx_ptr (pendingTxs pending)) -> Forall (priced (st_header s)) (pendingTxs pending) ->
  Z.of_nat (length (pendingTxs pending)) <= INT32_MAX -> 0 <= maxTxSetSize (st_header s) ->
  0 <= closeTime (st_header s) < UINT64_MAX ->
  0 <= hv_timeNow V -> hv_timeNow V + MAX_TIME_SLIP_SECONDS <= UINT64_MAX ->
  hv_isSynced V = true ->
  match triggerNextLedger V true ledgerSeqToTrigger pending s with
  | Ok (Some tr, _, s') =>
      let next := u32 (ledgerSeq (st_header s) + 1) in
      s' = s /\ tr_slotIndex tr = next /\ incl (mTransactions (tr_proposedSet tr)) (pendingTxs pending) /\
      txset_checkValid (hv_lclHash V) (tr_proposedSet tr) s = Ok (true, s) /\
      if ledgerSeqToTrigger =? next then
        exists value, tr_nominate tr = Some value /\
          (herder_validateValue (knowing V (tr_txSetHash tr) (tr_proposedSet tr)) d next
             (value_to_opaque value) true s = Ok (kFullyValidatedValue, s) <->
           closeTime (st_header s) < hv_timeNow V + MAX_TIME_SLIP_SECONDS /\
           Forall (fun u => sensible (hv_LEDGER_PROTOCOL_VERSION V) (st_header s) u = true)
             (nominatedUpgrades V (st_header s)))
      else tr_nominate tr = None
  | Ok (None, _, _) => False
  | Throw e =>
      trimInvalid (addAll (pendingTxs pending) (mkTxSet false 0 (hv_lclHash V) [])) [] s = Throw e
  end.
Proof using.
  intros Hh Hs Hnd Hp Hlen Hmax Hclose Hnow Hslip Hsync. unfold triggerNextLedger.
  rewrite Hsync. cbn [negb orb]. unfold mbind at 1, M_bind at 1, currentHeader.
  unfold mbind at 1, M_bind at 1.
  destruct (trimInvalid _ _ s) as [[[ts1 removed] s1]|e] eqn:Et; [|done].
  destruct (proposedSet_valid V s pending ts1 removed s1) as (-> & Hprev & Hbh & Hv & Hsize & Hincl); [done..|].
  unfold surgePricingFilter, currentHeader, mbind, M_bind, mret, M_ret.
  set (ts2 := surgePricing (st_header s) ts1) in *.
  assert (Hok : txset_checkValid (hv_lclHash V) ts2 s = Ok (true, s))
    by (rewrite <- Hprev; by apply valid_checkValid).
  rewrite Hok. cbn [negb].
  destruct (getContentsHash_keeps ts2 Hbh) as (Hprev' & Hbh' & Hp').
  destruct (txset_getContentsHash ts2) as [h ts3]. cbn [snd] in Hprev', Hbh', Hp'.
  assert (Hcheck : txset_checkValid (hv_lclHash V) ts3 s = Ok (true, s)).
  { rewrite <- Hprev, <- Hprev'. apply valid_checkValid; [done..|by eapply valid_txs_perm|].
    by rewrite <- (Permutation_length Hp'). }
  assert (Hincl3 : incl (mTransactions ts3) (pendingTxs pending)).
  { intros x Hx. apply Hincl. by eapply Permutation_in; [symmetry; exact Hp'|]. }
  destruct (_ =? _); cbn [negb]; (split; [done|]; split; [done|]; split; [done|]; split; [done|]); [|done].
  eexists. split; [done|]. set (V' := knowing V h ts3).
  pose proof (nextCloseTime_valid V' (st_header s) h (proposedUpgrades V (st_header s)) Hclose Hnow Hslip) as Et'.
  pose proof (proposed_valid V' (st_header s)) as Eu.
  rewrite <- Z.ltb_lt, Forall_forall. cbn [tr_txSetHash tr_proposedSet]. rewrite validateValue_full. split.
  - intros (_ & _ & sv & Esv & Htime & Hup & _). rewrite value_roundtrip in Esv. injection Esv as <-.
    split; [exact (eq_trans (eq_sym Et') Htime)|]. intros u Hu%list_elem_of_In.
    eapply forallb_forall; [exact (eq_trans (eq_sym Eu) Hup)|exact Hu].
  - intros [Htime Hup]. split; [done|]. split; [done|]. eexists. split; [apply value_roundtrip|].
    split; [exact (eq_trans Et' Htime)|].
    split; [exact (eq_trans Eu (proj2 (forallb_forall _ _) (fun u Hu => Hup u (proj2 (list_elem_of_In _ _) Hu))))|].
    exists ts3. cbn [V' knowing hv_getTxSet hv_lclHash sv_txSetHash]. by rewrite Z.eqb_refl.
Qed.
End Proposal.
