(* ===== verification/Extraction.v ===== *)
(** Extracting a valid value: what the Herder makes of a value whose upgrades it
    does not like, and the driver it is for the slots of [Nomination].

    It starts with a concrete encoding of values and a small network's view,
    on which the examples of the Herder's theorems evaluate. *)

From stdpp Require Import sorting.
From S2P Require Import Prelude Numeric OfferMath Types Sorting Quorums Ballots SlotState.
From S2P Require Import NominationTermination OfferOrder LedgerTxn LedgerState TransactionUtils OfferExchange Operations Nomination.
From S2P Require Import Upgrades Payments ManageOffers Transactions TransactionEffects TxSets ApplyOrder.
From S2P Require Import TrimValid Surge LedgerClose ValidFees UpgradeCycle HerderSCPDriver Combination.
From S2P Require Import Proposal.

(** * A concrete encoding of values *)

(** ** The encoding: lengths before the contents *)
Definition write_upgrade (u : LedgerUpgrade) : Value :=
  match u with
  | LEDGER_UPGRADE_VERSION v => [1; v]
  | LEDGER_UPGRADE_BASE_FEE v => [2; v]
  | LEDGER_UPGRADE_MAX_TX_SET_SIZE v => [3; v]
  | LEDGER_UPGRADE_BASE_RESERVE v => [4; v]
  end.
Definition read_upgrade (u : Value) : option LedgerUpgrade :=
  match u with
  | [1; v] => Some (LEDGER_UPGRADE_VERSION v)
  | [2; v] => Some (LEDGER_UPGRADE_BASE_FEE v)
  | [3; v] => Some (LEDGER_UPGRADE_MAX_TX_SET_SIZE v)
  | [4; v] => Some (LEDGER_UPGRADE_BASE_RESERVE v)
  | _ => None
  end.
Definition write_list (us : list Value) : Value :=
  concat (List.map (fun u : Value => Z.of_nat (length u) :: u) us).
Fixpoint read_list (n : nat) (l : Value) : option (list Value) :=
  match n, l with
  | O, _ => Some []
  | S n, len :: l => cons (take (Z.to_nat len) l) <$> read_list n (drop (Z.to_nat len) l)
  | S _, [] => None
  end.
Definition write_value (v : StellarValue Value) : Value :=
  sv_txSetHash v :: sv_closeTime v :: Z.of_nat (length (sv_upgrades v)) :: write_list (sv_upgrades v).
Definition read_value (v : Value) : option (StellarValue Value) :=
  match v with
  | h :: t :: n :: l => mkStellarValue h t <$> read_list (Z.to_nat n) l
  | _ => None
  end.
Lemma read_write_list us : read_list (length us) (write_list us) = Some us.
Proof.
  induction us as [|u us IH]; [done|]. cbn [length write_list List.map concat app read_list].
  fold (write_list us). by rewrite Nat2Z.id, take_app_length, drop_app_length, IH.
Qed.
#[export] Instance sample_herder_externals : HerderExternals := {|
  upgrade_from_opaque := read_upgrade; upgrade_to_opaque := write_upgrade;
  value_from_opaque := read_value; value_to_opaque := write_value;
  sha256 v := Z.abs (foldr Z.add 0 v) |}.
#[export] Instance sample_herder_laws : HerderExternalsLaws sample_herder_externals.
Proof.
  split.
  - by intros [].
  - intros [h t us]. cbn [value_from_opaque value_to_opaque sample_herder_externals read_value write_value].
    cbn [sv_txSetHash sv_closeTime sv_upgrades]. by rewrite Nat2Z.id, read_write_list.
  - done.
Qed.

(** ** A node in sync, about to close ledger 8: it knows a set of three
    transactions and one of two *)
Definition smaller_set : TxSetFrame :=
  mkTxSet false 0 77 [mkTx 2 (with_seqNum 7 sample_env); mkTx 4 (with_seqNum 8 sample_env)].
Definition sample_wishes : UpgradeParameters := mkUpgradeParameters 0 (Some 11) (Some 200) None None.
Definition sample_view : HerderView :=
  mkView 77 true 100
    (fun h => if h =? 3 then Some sample_left else if h =? 2 then Some smaller_set else None)
    sample_wishes 11.
Definition sample_candidates : list Value :=
  [write_value (mkStellarValue 2 9 [write_upgrade (LEDGER_UPGRADE_VERSION 11)]);
   write_value (mkStellarValue 3 5 [write_upgrade (LEDGER_UPGRADE_BASE_FEE 200)])].
Definition sample_combined : Value :=
  write_value (mkStellarValue 3 9 [write_upgrade (LEDGER_UPGRADE_VERSION 11);
                                   write_upgrade (LEDGER_UPGRADE_BASE_FEE 200)]).
Abbreviation sample_combine := (@herder_combineCandidates sample_externals sample_txset_externals
  insertion_StdSort sample_herder_externals sample_view sample_candidates sample_before) (only parsing).
Abbreviation sample_validate := (@herder_validateValue sample_externals sample_txset_externals
  insertion_StdSort sample_herder_externals sample_view newDriver 8) (only parsing).

Lemma sample_cached h ts :
  hv_getTxSet sample_view h = Some ts ->
  @cached sample_txset_externals insertion_StdSort h ts.
Proof.
  cbn. destruct (Z.eqb_spec h 3) as [->|]; [|destruct (Z.eqb_spec h 2) as [->|]; [|done]];
    intros [= <-]; split.
  1, 4: cbn; repeat (apply NoDup_cons; split; [set_solver|]); apply NoDup_nil_2.
  2, 4: done.
  all: cbn; intros x y Hx Hy; intuition (subst; done).
Qed.
Lemma combineCandidates_valid_witness :
  sample_combine = Ok ((sample_combined, None), sample_before) /\
  sample_validate sample_combined false sample_before = Ok (kFullyValidatedValue, sample_before).
Proof.
  assert (E : sample_combine = Ok ((sample_combined, None), sample_before)) by (vm_compute; reflexivity).
  split; [exact E|].
  destruct (@combineCandidates_valid sample_externals sample_txset_externals insertion_StdSort
    sample_herder_externals sample_herder_laws sample_view newDriver 8 true sample_candidates sample_before)
    as (values & h & t & us & ts & Ec & Ev & _).
  - intros env. apply Z.abs_nonneg.
  - exact sample_seqs_ok.
  - reflexivity.
  - exact sample_cached.
  - discriminate.
  - repeat constructor; vm_compute; reflexivity.
  - rewrite E in Ec. apply (f_equal (fun o => match o with Ok (v, _, _) => v | Throw _ => [] end)) in Ec.
    cbv beta iota in Ec. rewrite Ec. exact Ev.
Defined.

(** ** The queue of that node: four transactions, one of them out of sequence,
    in a ledger with room for two *)
Definition busy_before : LedgerState :=
  mkState (mkHeader 10 7 0 100000 0 0 5 100 10 2) (st_entries sample_before).
Definition sample_pending : list (gmap AccountID TxMap) :=
  (fold_left (fun p tx => @addPending sample_txset_externals tx p) (mTransactions sample_txset) newPending).
Abbreviation sample_trigger := (@triggerNextLedger sample_externals sample_txset_externals
  insertion_StdSort sample_herder_externals sample_view true 8 sample_pending busy_before) (only parsing).
Definition sample_proposal : StellarValue Value :=
  mkStellarValue 2 100 [write_upgrade (LEDGER_UPGRADE_VERSION 11); write_upgrade (LEDGER_UPGRADE_BASE_FEE 200)].

#[export] Instance priced_dec header tx : Decision (priced header tx).
Proof. unfold priced, in_u32. apply _. Defined.
Lemma triggerNextLedger_valid_witness :
  exists tr pending, sample_trigger = Ok (Some tr, pending, busy_before) /\
    tr_nominate tr = Some sample_proposal /\
    map tx_ptr (mTransactions (tr_proposedSet tr)) = [2; 4] /\
    @herder_validateValue sample_externals sample_txset_externals insertion_StdSort sample_herder_externals
      (knowing sample_view (tr_txSetHash tr) (tr_proposedSet tr)) newDriver 8
      (write_value sample_proposal) true busy_before = Ok (kFullyValidatedValue, busy_before).
Proof.
  assert (E : exists tr pending, sample_trigger = Ok (Some tr, pending, busy_before) /\
    tr_nominate tr = Some sample_proposal /\ map tx_ptr (mTransactions (tr_proposedSet tr)) = [2; 4])
    by (do 2 eexists; split; [vm_compute; reflexivity|split; reflexivity]).
  destruct E as (tr & pending & E & Et & Em). exists tr, pending.
  pose proof (@triggerNextLedger_valid sample_externals sample_txset_externals insertion_StdSort
    sample_herder_externals sample_herder_laws sample_view newDriver 8 sample_pending busy_before) as H.
  rewrite E in H. destruct H as (_ & _ & _ & _ & H).
  - intros env. apply Z.abs_nonneg.
  - exact sample_seqs_ok.
  - apply (bool_decide_unpack _). by vm_compute.
  - apply (bool_decide_unpack _). by vm_compute.
  - by vm_compute.
  - by vm_compute.
  - by split.
  - by vm_compute.
  - by vm_compute.
  - reflexivity.
  - do 3 (split; [done|]).
    change (8 =? u32 (ledgerSeq (st_header busy_before) + 1)) with true in H. cbv iota in H.
    destruct H as (value & Ev & H). rewrite Et in Ev. injection Ev as <-.
    apply H. split; [done|]. apply (bool_decide_unpack _). by vm_compute.
Defined.

Section Extraction.
Context `{Ext : Externals} `{TxExt : TxSetExternals} `{Sort : StdSort} `{Ex : HerderExternals}.
Context `{Laws : !HerderExternalsLaws Ex} (V : HerderView) (d : HerderSCPDriver) (slotIndex : Z).

Definition type_rank (u : Value) : Z := match upgrade_from_opaque u with Some lu => rank lu | None => 0 end.
(** The types of the upgrades ascend. *)
Definition ascending : list Value -> Prop := StronglySorted (fun u w => type_rank u < type_rank w).
Definition liked (header : LedgerHeader) (u : Value) : Prop :=
  exists t, isValid upgrade_from_opaque (hv_upgrades V) u true (hv_LEDGER_PROTOCOL_VERSION V) header = Some t.

Lemma likedUpgrades_liked header us : Forall (liked header) (likedUpgrades V header us).
Proof using.
  apply Forall_forall. intros u [_ Hu]%list_elem_of_In%filter_In. unfold liked.
  destruct (isValid _ _ _ _ _ _) as [t|]; [by exists t|done].
Qed.
Lemma liked_likedUpgrades header us : Forall (liked header) us -> likedUpgrades V header us = us.
Proof using. induction 1 as [|u us [t Ht] _ IH]; [done|]. unfold likedUpgrades in *. cbn. by rewrite Ht, IH. Qed.
Lemma checkUpgrades_ascending header last us :
  Forall (liked header) us ->
  checkUpgrades V true header last us = true <->
  ascending us /\ match last with Some t => Forall (fun u => upgrade_type_rank t < type_rank u) us | None => True end.
Proof using.
  intros Hl. revert last. unfold ascending. induction Hl as [|u us [t Ht] _ IH]; intros last; cbn [checkUpgrades].
  { split; [|done]. intros _. split; [constructor|]. by destruct last. }
  rewrite Ht. pose proof Ht as (lu & Elu & _ & ->)%isValid_passes.
  assert (Er : type_rank u = upgrade_type_rank (upgrade_type lu)) by (unfold type_rank; by rewrite Elu).
  split.
  - destruct (match last with Some _ => _ | None => _ end) eqn:El; [done|]. intros [Ha Hu]%IH.
    rewrite <- Er in Hu. split; [by constructor|]. destruct last as [t0|]; [|done].
    apply Z.leb_gt in El. rewrite <- Er in El. constructor; [done|].
    eapply Forall_impl; [exact Hu|]. cbn. lia.
  - intros [[Ha Hu]%StronglySorted_inv Hlast].
    destruct last as [t0|]; [apply Forall_cons in Hlast as [Hlast _]; rewrite (proj2 (Z.leb_gt _ _)) by lia|];
      (apply IH; split; [done|by rewrite <- Er]).
Qed.

Lemma validateValueHelper_state sv s level s' :
  validateValueHelper V d slotIndex sv s = Ok (level, s') -> s' = s.
Proof using.
  unfold validateValueHelper. unfold mbind at 1, M_bind at 1. rewrite compatible_current.
  unfold currentHeader, mbind, M_bind, mret, M_ret.
  destruct (bool_decide _).
  - destruct (negb _); [by intros [= _ <-]|]. destruct (hv_getTxSet _ _) as [ts|]; [|by intros [= _ <-]].
    destruct (txset_checkValid _ _ s) as [[ok s1]|] eqn:E; [|done]. intros [= _ <-].
    by apply checkValid_state in E.
  - destruct (if slotIndex =? _ then _ else _); [by intros [= _ <-]|].
    destruct (mTrackingSCP d) as [tracking|]; [|by intros [= _ <-]]. unfold lift.
    destruct (nextConsensusLedgerIndex d) as [next|]; [|done].
    destruct (slotIndex <? next); [by intros [= _ <-]|]. destruct (next <? slotIndex); [by intros [= _ <-]|].
    destruct (negb _); by intros [= _ <-].
Qed.

Lemma extracted_again sv s :
  validateValueHelper V d slotIndex sv s = Ok (kFullyValidatedValue, s) ->
  let w := value_to_opaque (mkStellarValue (sv_txSetHash sv) (sv_closeTime sv)
             (likedUpgrades V (st_header s) (sv_upgrades sv))) in
  herder_extractValidValue V d slotIndex w s = Ok (w, s).
Proof using Laws.
  intros (_ & Hc & Ht & Hts)%validateValueHelper_full w. unfold w, herder_extractValidValue.
  rewrite value_roundtrip. unfold mbind, M_bind.
  rewrite (proj2 (validateValueHelper_full V d slotIndex s (mkStellarValue _ _ _) s)) by done.
  cbn [sv_upgrades sv_txSetHash sv_closeTime currentHeader mret M_ret].
  by rewrite (liked_likedUpgrades _ _ (likedUpgrades_liked _ _)).
Qed.

(** C16. Extracting a valid value either gives nothing, or gives the value with
    some of its upgrades left out.  Extracting again changes nothing, and
    [validateValue] finds what was extracted fully valid in a nomination
    exactly if the types of the upgrades that were kept ascend. *)
Theorem herder_extractValidValue_correct value s :
  match herder_extractValidValue V d slotIndex value s with
  | Ok (w, s') => s' = s /\
      (w = [] \/ exists sv us, value_from_opaque value = Some sv /\ sublist us (sv_upgrades sv) /\
        w = value_to_opaque (mkStellarValue (sv_txSetHash sv) (sv_closeTime sv) us) /\
        herder_extractValidValue V d slotIndex w s = Ok (w, s) /\
        (herder_validateValue V d slotIndex w true s = Ok (kFullyValidatedValue, s) <-> ascending us))
  | Throw e => exists sv, value_from_opaque value = Some sv /\ validateValueHelper V d slotIndex sv s = Throw e
  end.
Proof using Laws.
  destruct (value_from_opaque value) as [sv|] eqn:Ev; unfold herder_extractValidValue at 1; rewrite Ev;
    [|by split; [|left]].
  unfold mbind at 1, M_bind at 1.
  destruct (validateValueHelper V d slotIndex sv s) as [[level s1]|e] eqn:El; [|by exists sv].
  pose proof El as ->%validateValueHelper_state.
  destruct level; cbn [mret M_ret]; [by split; [|left]| |by split; [|left]].
  unfold currentHeader, mbind, M_bind, mret, M_ret. split; [done|]. right.
  set (us := likedUpgrades V (st_header s) (sv_upgrades sv)).
  exists sv, us. split; [done|]. split; [apply sublist_filter|]. split; [done|].
  assert (Hu : Forall (liked (st_header s)) us) by apply likedUpgrades_liked.
  split; [by apply extracted_again|]. apply validateValueHelper_full in El as (_ & Hc & Ht & Hts).
  - rewrite validateValue_full. split.
    + intros (_ & _ & sv' & Esv & _ & Hcheck & _). rewrite value_roundtrip in Esv. injection Esv as <-.
      cbn [sv_upgrades] in Hcheck. by apply checkUpgrades_ascending in Hcheck as [Ha _].
    + intros Ha. split; [done|]. split; [done|]. eexists. split; [apply value_roundtrip|].
      split; [exact Ht|]. split; [by apply checkUpgrades_ascending|done].
Qed.

(** ** The driver of the slots *)
Definition HerderDriver (D : SCPDriver) (s : LedgerState) : SCPDriver := {|
  getQSet := @getQSet D;
  validateValue slotIndex v nomination :=
    match herder_validateValue V d slotIndex v nomination s with Ok (level, _) => level | Throw _ => kInvalidValue end;
  extractValidValue slotIndex v :=
    match herder_extractValidValue V d slotIndex v s with Ok (w, _) => w | Throw _ => [] end;
  signEnvelope := @signEnvelope D;
  computeHashNode := @computeHashNode D;
  computeValueHash := @computeValueHash D;
  combineCandidates slotIndex candidates :=
    match herder_combineCandidates V candidates s with Ok (v, _, _) => v | Throw _ => [] end |}.
End Extraction.

Section Driver.
Context `{Ext : Externals} `{TxExt : TxSetExternals} `{Sort : StdSort} `{Ex : HerderExternals}.
Context `{Laws : !HerderExternalsLaws Ex} (V : HerderView) (d : HerderSCPDriver).

Lemma extract_again slotIndex v s w s' :
  herder_extractValidValue V d slotIndex v s = Ok (w, s') ->
  w = [] \/ herder_extractValidValue V d slotIndex w s = Ok (w, s).
Proof using Laws.
  unfold herder_extractValidValue at 1. destruct (value_from_opaque v) as [sv|]; [|intros [= <- _]; by left].
  unfold mbind at 1, M_bind at 1.
  destruct (validateValueHelper V d slotIndex sv s) as [[level s1]|] eqn:El; [|done].
  pose proof El as ->%validateValueHelper_state. destruct level; [intros [= <- _]; by left| |intros [= <- _]; by left].
  intros [= <- _]. right. by apply extracted_again.
Qed.
(** It keeps what the termination of slots asks of a driver. *)
Lemma herder_extracts_settle D s slotIndex : extracts_settle (HerderDriver V d D s) slotIndex.
Proof using Laws.
  intros v w. subst w. cbn [extractValidValue HerderDriver].
  destruct (herder_extractValidValue V d slotIndex v s) as [[w s']|] eqn:E; [|by left].
  apply extract_again in E as [->| ->]; [by left|by do 3 right].
Qed.
End Driver.

(** A value whose upgrades are both wished for, in the wrong order: it is
    extracted as it is and then found invalid. *)
Definition unordered_value : Value :=
  write_value (mkStellarValue 3 5 [write_upgrade (LEDGER_UPGRADE_BASE_FEE 200);
                                   write_upgrade (LEDGER_UPGRADE_VERSION 11)]).
Abbreviation sample_extract := (@herder_extractValidValue sample_externals sample_txset_externals
  insertion_StdSort sample_herder_externals sample_view newDriver 8) (only parsing).
Example extracted_yet_invalid :
  sample_extract unordered_value sample_before = Ok (unordered_value, sample_before) /\
  sample_validate unordered_value true sample_before = Ok (kInvalidValue, sample_before).
Proof. split; vm_compute; reflexivity. Qed.
(** A fee the node does not wish for is left out, and what remains is valid. *)
Definition disliked_value : Value :=
  write_value (mkStellarValue 3 5 [write_upgrade (LEDGER_UPGRADE_VERSION 11);
                                   write_upgrade (LEDGER_UPGRADE_BASE_FEE 300)]).
Definition extracted_value : Value :=
  write_value (mkStellarValue 3 5 [write_upgrade (LEDGER_UPGRADE_VERSION 11)]).
Lemma herder_extractValidValue_correct_witness :
  sample_extract disliked_value sample_before = Ok (extracted_value, sample_before) /\
  sample_extract extracted_value sample_before = Ok (extracted_value, sample_before).
Proof.
  assert (E : sample_extract disliked_value sample_before = Ok (extracted_value, sample_before))
    by (vm_compute; reflexivity).
  split; [exact E|].
  pose proof (@herder_extractValidValue_correct sample_externals sample_txset_externals insertion_StdSort
    sample_herder_externals sample_herder_laws sample_view newDriver 8 disliked_value sample_before) as H.
  rewrite E in H. destruct H as [_ [H|(sv & us & _ & _ & _ & H & _)]]; [discriminate|exact H].
Defined.
