(* ===== verification/PendingQueue.v ===== *)
(** The queue of pending transactions: what it knows of an account is exact,
    and a transaction stays in it for four ledgers, unless it is dropped. *)

From S2P Require Import Prelude Numeric OfferMath Types Sorting OfferOrder LedgerTxn.
From S2P Require Import LedgerState TransactionUtils OfferExchange Operations Upgrades.
From S2P Require Import Payments ManageOffers Transactions.
From S2P Require Import TransactionEffects TxSets ApplyOrder TrimValid LedgerClose ValidFees.
From S2P Require Import Quorums Ballots SlotState HerderSCPDriver.

Fixpoint max_seq (txs : list TransactionFramePtr) : Z :=
  match txs with [] => 0 | tx :: txs => Z.max (getSeqNum tx) (max_seq txs) end.
Lemma max_seq_nonneg txs : 0 <= max_seq txs.
Proof. induction txs as [|x txs IH]; cbn [max_seq]; lia. Qed.
Lemma max_seq_app l1 l2 : max_seq (l1 ++ l2) = Z.max (max_seq l1) (max_seq l2).
Proof.
  induction l1 as [|x l1 IH]; cbn [max_seq app]; [pose proof (max_seq_nonneg l2)|]; lia.
Qed.
#[export] Instance max_seq_perm : Proper (Permutation ==> eq) max_seq.
Proof. induction 1; cbn [max_seq]; lia. Qed.

Lemma s64_add a b : s64 (s64 a + s64 b) = s64 (a + b).
Proof. by rewrite s64_add_l, Z.add_comm, s64_add_l, Z.add_comm. Qed.

Section Queue.
Context `{Ext : Externals} `{TxExt : TxSetExternals} `{Sort : StdSort}.
Implicit Types (tm : TxMap) (m : gmap AccountID TxMap) (p : list (gmap AccountID TxMap)).

(** ** One account of one generation *)
Definition keyed (a : AccountID) tm : Prop :=
  txmap_mTransactions tm <> ∅ /\
  map_Forall (fun h tx => txHash tx = h /\ ptr_source tx = a) (txmap_mTransactions tm).
Definition exact tm : Prop :=
  mMaxSeq tm = max_seq (txsOf tm) /\ mTotalFees tm = s64 (fees (txsOf tm)).

Lemma txsOf_add tx tm :
  txmap_mTransactions tm !! txHash tx = None -> Permutation (txsOf (addTx tx tm)) (tx :: txsOf tm).
Proof using.
  intros H. unfold addTx, txsOf. rewrite H. cbn [txmap_mTransactions].
  by rewrite (map_to_list_insert _ _ _ H).
Qed.
Lemma addTx_exact tx tm : exact tm -> exact (addTx tx tm).
Proof using.
  intros [Hs Hf]. destruct (txmap_mTransactions tm !! txHash tx) eqn:E; [by unfold addTx; rewrite E|].
  unfold exact. rewrite (txsOf_add tx tm E). unfold addTx. rewrite E. cbn [mMaxSeq mTotalFees].
  rewrite Hs, Hf. cbn. split; [done|]. rewrite s64_add_l. f_equal. unfold fees. lia.
Qed.
Lemma recalculate_exact tm : exact (recalculate tm) /\ txmap_mTransactions (recalculate tm) = txmap_mTransactions tm.
Proof using.
  unfold recalculate, exact, txsOf.
  assert (H : forall l tm0 z, mTotalFees tm0 = s64 z -> 0 <= mMaxSeq tm0 ->
    let r := fold_left (fun t tx => mkTxMap (Z.max (getSeqNum tx) (mMaxSeq t)) (s64 (mTotalFees t + getFee tx))
               (txmap_mTransactions t)) l tm0 in
    txmap_mTransactions r = txmap_mTransactions tm0 /\ mMaxSeq r = Z.max (mMaxSeq tm0) (max_seq l) /\
    mTotalFees r = s64 (z + fees l)).
  { induction l as [|x l IH]; intros tm0 z Hz H0; cbn [fold_left].
    - cbn. rewrite Z.add_0_r. split; [done|]. split; [lia|done].
    - destruct (IH (mkTxMap (Z.max (getSeqNum x) (mMaxSeq tm0)) (s64 (mTotalFees tm0 + getFee x))
                 (txmap_mTransactions tm0)) (z + getFee x)) as (-> & -> & ->).
      + cbn. by rewrite Hz, s64_add_l.
      + cbn. lia.
      + cbn. split; [done|]. split; [lia|]. f_equal. unfold fees. lia. }
  destruct (H (txsOf tm) (mkTxMap 0 0 (txmap_mTransactions tm)) 0) as (E1 & E2 & E3); [done|done|].
  cbn [txmap_mTransactions mMaxSeq] in E1, E2. unfold txsOf in *. rewrite E1, E2, E3. split; [|done].
  split; [|done]. pose proof (max_seq_nonneg ((map_to_list (txmap_mTransactions tm)).*2)). lia.
Qed.

(** ** A generation *)
Definition gen_get m (a : AccountID) (h : Hash) : option TransactionFramePtr :=
  tm ← m !! a; txmap_mTransactions tm !! h.
Definition gen_ok m : Prop := map_Forall (fun a tm => keyed a tm /\ exact tm) m.
Definition same_key (a : AccountID) (h : Hash) (tx : TransactionFramePtr) : bool :=
  (ptr_source tx =? a) && (txHash tx =? h).
Definition in_keys (a : AccountID) (h : Hash) (txs : list TransactionFramePtr) : bool :=
  existsb (same_key a h) txs.

(** While transactions are dropped, what is known of an account may be out of
    date, if the account is among those to recalculate. *)
Definition dropping (st : gmap AccountID TxMap * gset AccountID) : Prop :=
  map_Forall (fun a tm => keyed a tm /\ (a ∉ st.2 -> exact tm)) st.1.
Lemma dropTx_ok st tx :
  dropping st -> dropping (dropTx st tx) /\
  forall a h, gen_get (dropTx st tx).1 a h = if same_key a h tx then None else gen_get st.1 a h.
Proof using.
  destruct st as [m rc]. intros Hd. unfold dropTx, same_key, gen_get.
  assert (Hsame : m !! ptr_source tx ≫= (fun tm => txmap_mTransactions tm !! txHash tx) = None ->
    forall a h, m !! a ≫= (fun tm => txmap_mTransactions tm !! h) =
      if (ptr_source tx =? a) && (txHash tx =? h) then None
      else m !! a ≫= (fun tm => txmap_mTransactions tm !! h)).
  { intros H a h. destruct (Z.eqb_spec (ptr_source tx) a) as [<-|]; [|done].
    by destruct (Z.eqb_spec (txHash tx) h) as [<-|]. }
  destruct (m !! ptr_source tx) as [tm|] eqn:Em; [|split; [done|apply Hsame; by rewrite ?Em]].
  destruct (txmap_mTransactions tm !! txHash tx) as [tx0|] eqn:Et;
    [|split; [done|apply Hsame; by rewrite ?Em]]. clear Hsame.
  destruct (Hd _ _ Em) as [[Hne Hk] Hx]. cbn [fst snd] in *.
  destruct (decide _) as [Hempty|Hmore]; cbn [fst snd]; split.
  - intros a tm'. cbn [fst]. intros [_ H]%lookup_delete_Some. by apply Hd.
  - intros a h. destruct (Z.eqb_spec (ptr_source tx) a) as [<-|Hn]; cbn [andb];
      [|by rewrite lookup_delete_ne].
    rewrite lookup_delete_eq, Em. cbn. destruct (Z.eqb_spec (txHash tx) h) as [|Hh]; [done|].
    rewrite <- (lookup_delete_ne _ (txHash tx)) by done. by rewrite Hempty.
  - intros a tm'. cbn [fst snd]. destruct (decide (ptr_source tx = a)) as [<-|Hn].
    + rewrite lookup_insert_eq. intros [= <-]. split; [|set_solver]. split; [done|]. by apply map_Forall_delete.
    + rewrite lookup_insert_ne by done. intros H. destruct (Hd _ _ H) as [Hk' Hx']. split; [done|].
      cbn in Hx' |- *. intros Hni. apply Hx'. set_solver.
  - intros a h. destruct (Z.eqb_spec (ptr_source tx) a) as [<-|Hn]; cbn [andb];
      [|by rewrite lookup_insert_ne].
    rewrite lookup_insert_eq, Em. cbn. destruct (Z.eqb_spec (txHash tx) h) as [<-|Hh];
      [apply lookup_delete_eq|by rewrite lookup_delete_ne].
Qed.
Lemma dropTxs_ok txs st :
  dropping st -> dropping (fold_left dropTx txs st) /\
  forall a h, gen_get (fold_left dropTx txs st).1 a h = if in_keys a h txs then None else gen_get st.1 a h.
Proof using.
  revert st. induction txs as [|tx txs IH]; intros st Hd; cbn [fold_left]; [done|].
  destruct (dropTx_ok st tx Hd) as [Hd' Hg]. destruct (IH _ Hd') as [H1 H2]. split; [done|].
  intros a h. rewrite H2, Hg. unfold in_keys. cbn [existsb]. by destruct (same_key a h tx), (existsb _ _).
Qed.
Lemma gen_get_empty a h : gen_get ∅ a h = None.
Proof using. unfold gen_get. by rewrite lookup_empty. Qed.
Lemma removeFrom_ok txs m :
  gen_ok m -> gen_ok (removeFrom txs m) /\
  forall a h, gen_get (removeFrom txs m) a h = if in_keys a h txs then None else gen_get m a h.
Proof using.
  intros Hm. unfold removeFrom. destruct (decide (m = ∅)) as [->|Hne].
  { split; [done|]. intros a h. rewrite gen_get_empty. by destruct (in_keys _ _ _). }
  destruct (dropTxs_ok txs (m, ∅)) as [Hd Hg].
  { intros a tm H. destruct (Hm _ _ H). by split. }
  destruct (fold_left dropTx txs (m, ∅)) as [m' rc]. cbn [fst] in Hg. split.
  - intros a tm. rewrite map_lookup_imap. destruct (m' !! a) as [tm0|] eqn:E; [|done]. cbn.
    destruct (Hd a tm0 E) as [Hk Hx]. intros [= <-]. destruct (decide (a ∈ rc)); [|by split; [|apply Hx]].
    destruct (recalculate_exact tm0) as [He Ht]. split; [|done]. unfold keyed. by rewrite Ht.
  - intros a h. rewrite <- Hg. unfold gen_get. rewrite map_lookup_imap.
    destruct (m' !! a) as [tm0|]; [|done]. cbn. destruct (decide _); [|done].
    by destruct (recalculate_exact tm0) as [_ ->].
Qed.
Lemma addPending_ok tx m p :
  gen_ok m -> exists m', addPending tx (m :: p) = m' :: p /\ gen_ok m' /\
  forall a h, gen_get m' a h =
    if same_key a h tx then Some (default tx (gen_get m a h)) else gen_get m a h.
Proof using.
  intros Hm. eexists. split; [done|].
  set (tm := default emptyTxMap (m !! ptr_source tx)).
  assert (Htm : map_Forall (fun h t => txHash t = h /\ ptr_source t = ptr_source tx) (txmap_mTransactions tm) /\
            exact tm /\ forall h, gen_get m (ptr_source tx) h = txmap_mTransactions tm !! h).
  { subst tm. unfold gen_get. destruct (m !! ptr_source tx) as [tm|] eqn:E.
    - destruct (Hm _ _ E) as [[_ Hk] He]. done.
    - split; [apply map_Forall_empty|]. split; [done|]. intros h. cbn. by rewrite lookup_empty. }
  destruct Htm as (Hk & He & Hget). split.
  - apply map_Forall_insert_2; [|done]. split; [|by apply addTx_exact]. unfold addTx.
    destruct (txmap_mTransactions tm !! txHash tx) eqn:E; cbn [txmap_mTransactions].
    + split; [|done]. intros E0. by rewrite E0, lookup_empty in E.
    + split; [apply insert_non_empty|]. by apply map_Forall_insert_2.
  - intros a h. unfold same_key. unfold gen_get at 1.
    destruct (Z.eqb_spec (ptr_source tx) a) as [<-|Hn]; cbn [andb]; [|by rewrite lookup_insert_ne].
    rewrite lookup_insert_eq, Hget. cbn. unfold addTx.
    destruct (Z.eqb_spec (txHash tx) h) as [<-|Hh].
    + destruct (txmap_mTransactions tm !! txHash tx) eqn:E; [done|]. apply lookup_insert_eq.
    + destruct (txmap_mTransactions tm !! txHash tx) eqn:E; [done|]. by apply lookup_insert_ne.
Qed.

(** ** The whole queue *)

(** The transactions of an account, in all generations. *)
Definition account_txs p (a : AccountID) : list TransactionFramePtr :=
  concat (List.map (fun m => match m !! a with Some tm => txsOf tm | None => [] end) p).
(** A transaction with that source and that hash waits. *)
Definition waits p (a : AccountID) (h : Hash) : Prop := Exists (fun m => is_Some (gen_get m a h)) p.

Lemma scanPending_spec tx p f high :
  Forall gen_ok p -> 0 <= high ->
  match scanPending tx p (s64 f) high with
  | None => waits p (ptr_source tx) (txHash tx)
  | Some (totFee, highSeq) => ~ waits p (ptr_source tx) (txHash tx) /\
      totFee = s64 (f + fees (account_txs p (ptr_source tx))) /\
      highSeq = Z.max high (max_seq (account_txs p (ptr_source tx)))
  end.
Proof using.
  intros Hp. revert f high. unfold waits, account_txs.
  induction Hp as [|m p Hm _ IH]; intros f high Hh; cbn [scanPending List.map concat].
  { split; [by rewrite Exists_nil; intros []|]. cbn. rewrite Z.add_0_r. split; [done|lia]. }
  assert (Hno : gen_get m (ptr_source tx) (txHash tx) = None ->
    Exists (fun m => is_Some (gen_get m (ptr_source tx) (txHash tx))) (m :: p) <->
    Exists (fun m => is_Some (gen_get m (ptr_source tx) (txHash tx))) p).
  { intros E. rewrite Exists_cons, E. split; [by intros [[]|]|by right]. }
  unfold gen_get in Hno at 1. pose proof (Hm (ptr_source tx)) as Hx.
  destruct (m !! ptr_source tx) as [tm|] eqn:Em; cbn [mbind option_bind] in Hno.
  - destruct (Hx tm eq_refl) as [_ [Hseq Hfee]].
    destruct (txmap_mTransactions tm !! txHash tx) eqn:Et.
    + apply Exists_cons_hd. unfold gen_get. rewrite Em. by eexists.
    + rewrite Hfee, s64_add. specialize (IH (f + fees (txsOf tm)) (Z.max high (mMaxSeq tm))).
      destruct (scanPending _ _ _ _) as [[totFee highSeq]|]; [|apply Hno; [done|]; apply IH; lia].
      rewrite Hno, fees_app, max_seq_app, <- Hseq by done.
      destruct IH as (Hn & -> & ->); [lia|]. split; [done|]. split; [f_equal; lia|lia].
  - cbn [app]. specialize (IH f high Hh).
    destruct (scanPending _ _ _ _) as [[totFee highSeq]|]; by rewrite Hno.
Qed.

(** The transaction is valid after those that wait, and its account can pay
    the fees of all of them. *)
Definition accepted p (tx : TransactionFramePtr) (s : LedgerState) : Prop :=
  let waiting := account_txs p (ptr_source tx) in
  exists r avail, tx_checkValid (tx_frame tx) (max_seq waiting) s = Ok (true, r, s) /\
    read (KeyAccount (ptr_source tx)) getAvailableBalance s = Ok (avail, s) /\
    s64 (getFee tx + fees waiting) <= avail.

(** What receiving a transaction is to do. *)
Definition received_as p (tx : TransactionFramePtr) (s : LedgerState) : Prop :=
  match recvTransaction tx p s with
  | Ok (status, p', s') => s' = s /\
      match status with
      | TX_STATUS_DUPLICATE => waits p (ptr_source tx) (txHash tx) /\ p' = p
      | TX_STATUS_PENDING =>
          ~ waits p (ptr_source tx) (txHash tx) /\ accepted p tx s /\ p' = addPending tx p
      | TX_STATUS_ERROR => ~ waits p (ptr_source tx) (txHash tx) /\ ~ accepted p tx s /\ p' = p
      end
  | Throw e => ~ waits p (ptr_source tx) (txHash tx) /\ ~ accepted p tx s
  end.
Lemma recvTransaction_spec tx p s :
  Forall gen_ok p -> in_u32 (getFee tx) -> received_as p tx s.
Proof using.
  intros Hp Hfee. unfold received_as, recvTransaction. pose proof (scanPending_spec tx p (getFee tx) 0 Hp) as Hscan.
  rewrite (s64_id (getFee tx)) in Hscan by (unfold_ints; lia).
  destruct (scanPending tx p (getFee tx) 0) as [[totFee highSeq]|]; [|split; [done|]; split; [|done]; by apply Hscan].
  destruct Hscan as (Hno & -> & Eseq); [done|].
  rewrite Z.max_r in Eseq by apply max_seq_nonneg. subst highSeq.
  unfold accepted, nested, mbind, M_bind.
  destruct (tx_checkValid _ _ s) as [[[valid r] s1]|] eqn:Ev;
    [|split; [done|]; by intros (? & ? & ? & _)].
  pose proof Ev as [-> _]%tx_checkValid_Ok.
  destruct valid; cbn [negb]; [|split; [done|]; split; [done|]; split; [|done]; by intros (? & ? & ? & _)].
  unfold loadAccount, exists_entry. cbv beta iota.
  destruct (read _ _ s) as [[avail s2]|] eqn:Er; [|split; [done|]; by intros (? & ? & _ & ? & _)].
  assert (s2 = s) as -> by (apply read_state in Er; done).
  destruct (Z.ltb_spec avail (s64 (getFee tx + fees (account_txs p (ptr_source tx))))); cbn [negb].
  - split; [done|]. split; [done|]. split; [|done]. intros (? & ? & _ & [= <-] & ?). lia.
  - split; [done|]. split; [done|]. split; [|done]. by exists r, avail.
Qed.

(** ** The life of a transaction in the queue *)
Inductive QueueEvent :=
  | Received (tx : TransactionFramePtr) (status : TransactionSubmitStatus)
  | Closed (applied : list TransactionFramePtr)
  | Trimmed (removed : list TransactionFramePtr).
Inductive queue_step : PendingTransactions -> QueueEvent -> PendingTransactions -> Prop :=
  | step_received tx status p p' s s' :
      recvTransaction tx p s = Ok (status, p', s') -> in_u32 (getFee tx) -> queue_step p (Received tx status) p'
  | step_closed applied p : queue_step p (Closed applied) (updatePendingTransactions applied p).2
  | step_trimmed removed p : queue_step p (Trimmed removed) (removeReceivedTxs removed p).
Inductive queue_run : PendingTransactions -> list QueueEvent -> PendingTransactions -> Prop :=
  | run_nil p : queue_run p [] p
  | run_snoc p events p1 e p2 : queue_run p events p1 -> queue_step p1 e p2 -> queue_run p (events ++ [e]) p2.
Definition closes (events : list QueueEvent) : nat :=
  length (List.filter (fun e => match e with Closed _ => true | _ => false end) events).
Definition drops (tx : TransactionFramePtr) (e : QueueEvent) : bool :=
  match e with
  | Received _ _ => false
  | Closed txs | Trimmed txs => in_keys (ptr_source tx) (txHash tx) txs
  end.

(** [tx] waits in the generation [i]. *)
Definition waits_at p (i : nat) (tx : TransactionFramePtr) : Prop :=
  exists m, p !! i = Some m /\ gen_get m (ptr_source tx) (txHash tx) = Some tx.
Definition queue_ok p : Prop := length p = 4%nat /\ Forall gen_ok p.

Lemma removeReceivedTxs_ok txs p :
  queue_ok p -> queue_ok (removeReceivedTxs txs p) /\
  forall i tx, waits_at (removeReceivedTxs txs p) i tx <->
    waits_at p i tx /\ in_keys (ptr_source tx) (txHash tx) txs = false.
Proof using.
  intros [Hlen Hp]. unfold removeReceivedTxs. rewrite Forall_forall in Hp. split.
  - split; [by rewrite length_map|]. apply Forall_forall. intros m Hm.
    apply list_elem_of_fmap_1 in Hm as (m0 & -> & Hm0). by apply removeFrom_ok, Hp.
  - intros i tx. unfold waits_at. change (List.map ?f p) with (f <$> p). split.
    + intros (m & Hm & Hg). rewrite list_lookup_fmap in Hm. destruct (p !! i) as [m0|] eqn:E; [|done].
      injection Hm as <-. destruct (removeFrom_ok txs m0) as [_ Hr]; [by eapply Hp, list_elem_of_lookup_2|].
      rewrite Hr in Hg. destruct (in_keys _ _ _); [done|]. split; [by exists m0|done].
    + intros [(m & Hm & Hg) Hn]. exists (removeFrom txs m). rewrite list_lookup_fmap, Hm. split; [done|].
      destruct (removeFrom_ok txs m) as [_ Hr]; [by eapply Hp, list_elem_of_lookup_2|]. by rewrite Hr, Hn.
Qed.
Lemma updatePending_ok applied p :
  queue_ok p -> let p' := (updatePendingTransactions applied p).2 in
  queue_ok p' /\ forall i tx, waits_at p' i tx <->
    (exists j, i = S j /\ (i < 4)%nat /\ waits_at p j tx /\ in_keys (ptr_source tx) (txHash tx) applied = false).
Proof using.
  intros Hp. destruct (removeReceivedTxs_ok applied p Hp) as [[Hlen Hok] Hw]. unfold updatePendingTransactions.
  cbn [snd]. set (q := removeReceivedTxs applied p) in *. split.
  - split.
    + cbn [length]. rewrite removelast_firstn_len, length_take, Hlen. lia.
    + constructor; [apply map_Forall_empty|]. rewrite removelast_firstn_len. by apply Forall_take.
  - intros i tx. rewrite removelast_firstn_len, Hlen. destruct i as [|j].
    + split; [|by intros (? & ? & _)]. intros (m & [= <-] & Hg). by rewrite gen_get_empty in Hg.
    + assert (E : waits_at (∅ :: take (Nat.pred 4) q) (S j) tx <-> waits_at q j tx /\ (j < 3)%nat).
      { unfold waits_at. cbn [lookup list_lookup].
        setoid_rewrite lookup_take_Some. cbn. naive_solver. }
      rewrite E, Hw. split; [intros [[? ?] ?]; exists j; repeat split; [lia|done..]|].
      intros (j' & [= <-] & ? & ? & ?). repeat split; [done..|lia].
Qed.
Lemma recv_step_ok tx status p p' s s' :
  queue_ok p -> in_u32 (getFee tx) -> recvTransaction tx p s = Ok (status, p', s') ->
  queue_ok p' /\ forall i tx', waits_at p' i tx' <->
    waits_at p i tx' \/ (status = TX_STATUS_PENDING /\ i = 0%nat /\ tx' = tx).
Proof using.
  intros [Hlen Hp] Hfee H. pose proof (recvTransaction_spec tx p s Hp Hfee) as Hr.
  unfold received_as in Hr. rewrite H in Hr. destruct Hr as [-> Hst].
  assert (Hsame : status <> TX_STATUS_PENDING -> forall i tx', waits_at p i tx' <->
    waits_at p i tx' \/ (status = TX_STATUS_PENDING /\ i = 0%nat /\ tx' = tx)) by naive_solver.
  destruct status; [clear Hsame| |].
  2, 3: assert (p' = p) as -> by tauto; split; [done|by apply Hsame].
  destruct Hst as (Hno & _ & ->). destruct p as [|m p]; [done|].
  apply Forall_cons in Hp as [Hm Hp]. destruct (addPending_ok tx m p Hm) as (m' & -> & Hm' & Hg).
  split; [by split; [|constructor]|]. unfold waits in Hno. rewrite Exists_cons in Hno.
  assert (Hnone : gen_get m (ptr_source tx) (txHash tx) = None).
  { destruct (gen_get m _ _) eqn:E; [|done]. destruct Hno. left. by eexists. }
  intros i tx'. unfold waits_at. destruct i as [|i]; cbn [lookup list_lookup]; [|naive_solver].
  split.
  - intros (? & [= <-] & E). rewrite Hg in E. unfold same_key in E.
    destruct (Z.eqb_spec (ptr_source tx) (ptr_source tx')) as [Es|]; cbn [andb] in E; [|left; by exists m].
    destruct (Z.eqb_spec (txHash tx) (txHash tx')) as [Eh|]; [|left; by exists m].
    rewrite <- Es, <- Eh, Hnone in E. injection E as <-. by right.
  - intros [(? & [= <-] & E)|(_ & _ & ->)]; exists m'; (split; [done|]); rewrite Hg.
    + rewrite E. by destruct (same_key _ _ _).
    + unfold same_key. by rewrite !Z.eqb_refl, Hnone.
Qed.

Lemma newPending_ok : queue_ok newPending /\ forall i tx, ~ waits_at newPending i tx.
Proof using.
  split; [split; [done|]; apply Forall_forall; intros m [-> _]%elem_of_replicate; apply map_Forall_empty|].
  intros i tx (m & Hm & Hg). apply lookup_replicate_1 in Hm as [-> _]. by rewrite gen_get_empty in Hg.
Qed.
(** When [tx] was received, and what happened since. *)
Definition entered (events : list QueueEvent) (i : nat) (tx : TransactionFramePtr) : Prop :=
  (i < 4)%nat /\ exists before since, events = before ++ Received tx TX_STATUS_PENDING :: since /\
    closes since = i /\ forallb (fun e => negb (drops tx e)) since = true.
Lemma entered_snoc events e i tx :
  entered (events ++ [e]) i tx <->
    (e = Received tx TX_STATUS_PENDING /\ i = 0%nat) \/
    (drops tx e = false /\ (i < 4)%nat /\
     match e with Closed _ => exists j, i = S j /\ entered events j tx | _ => entered events i tx end).
Proof using.
  unfold entered, closes. split.
  - intros (Hi & before & since & E & Hc & Hd). destruct since as [|e' since _] using rev_ind.
    + apply app_inj_tail in E as [-> ->]. by left.
    + rewrite app_comm_cons, app_assoc in E. apply app_inj_tail in E as [-> ->]. right.
      rewrite forallb_app in Hd. apply andb_prop in Hd as [Hd1 Hd2]. cbn in Hd2.
      rewrite List.filter_app, length_app in Hc. split; [by destruct (drops tx e')|]. split; [done|].
      destruct e'; cbn in Hc; [|eexists (i - 1)%nat; split; [lia|]|]; (split; [lia|]); exists before, since;
        repeat split; try done; lia.
  - intros [[-> ->]|(Hd & Hi & He)]; [split; [lia|]; by exists events, []|].
    assert (H : exists j, entered events j tx /\
              i = (j + length (List.filter (fun e => match e with Closed _ => true | _ => false end) [e]))%nat).
    { destruct e; cbn; [exists i|destruct He as (j & -> & He); exists j|exists i]; split; try done; lia. }
    destruct H as (j & (_ & before & since & -> & Hc & Hs) & ->). split; [done|].
    exists before, (since ++ [e]). rewrite <- app_assoc. split; [done|].
    rewrite List.filter_app, length_app. unfold closes in Hc. rewrite Hc. split; [done|].
    rewrite forallb_app, Hs. cbn. by rewrite Hd.
Qed.

Lemma getMaxSeq_spec a p : Forall gen_ok p -> getMaxSeqInPendingTxs a p = max_seq (account_txs p a).
Proof using.
  intros Hp. unfold getMaxSeqInPendingTxs, account_txs.
  assert (H : forall z, 0 <= z -> fold_left (fun highSeq m => match m !! a with
      | None => highSeq | Some txmap => Z.max (mMaxSeq txmap) highSeq end) p z =
    Z.max z (max_seq (concat (List.map (fun m => match m !! a with Some tm => txsOf tm | None => [] end) p)))).
  { induction Hp as [|m p Hm _ IH]; intros z Hz; cbn [fold_left List.map concat]; [cbn; lia|].
    rewrite max_seq_app. pose proof (Hm a) as Hx. destruct (m !! a) as [tm|].
    - destruct (Hx tm eq_refl) as [_ [Hs _]]. rewrite IH, Hs by lia. lia.
    - rewrite IH by done. cbn. pose proof (max_seq_nonneg (concat (List.map (fun m => match m !! a with Some tm => txsOf tm | None => [] end) p))). lia. }
  rewrite H by done. apply Z.max_r, max_seq_nonneg.
Qed.
(** At most one transaction waits with a source and a hash, in one place. *)
Definition unique p : Prop :=
  forall i j tx tx', waits_at p i tx -> waits_at p j tx' ->
    ptr_source tx = ptr_source tx' -> txHash tx = txHash tx' -> i = j /\ tx = tx'.
Lemma waits_at_waits p i tx : waits_at p i tx -> waits p (ptr_source tx) (txHash tx).
Proof using.
  intros (m & Hm & Hg). apply Exists_exists. exists m. split; [by eapply list_elem_of_lookup_2|].
  rewrite Hg. by eexists.
Qed.
Lemma step_unique p e p' : queue_ok p -> unique p -> queue_step p e p' -> unique p'.
Proof using.
  intros Hok Hu H. destruct H as [tx status p p' s s' Hrecv Hfee|applied p|removed p].
  - destruct (recv_step_ok tx status p p' s s' Hok Hfee Hrecv) as [_ Hw].
    assert (Hnew : forall i tx', status = TX_STATUS_PENDING -> waits_at p i tx' ->
              ptr_source tx = ptr_source tx' -> txHash tx = txHash tx' -> False).
    { intros i tx' -> Ht Es Eh. apply waits_at_waits in Ht. rewrite <- Es, <- Eh in Ht.
      pose proof (recvTransaction_spec tx p s (proj2 Hok) Hfee) as Hr. unfold received_as in Hr.
      rewrite Hrecv in Hr. by destruct Hr as (_ & Hr & _). }
    intros i j t t' [Hi|(E & -> & ->)]%Hw [Hj|(E' & -> & ->)]%Hw Es Eh; [by eapply Hu| | |done].
    + by destruct (Hnew i t).
    + by destruct (Hnew j t').
  - destruct (updatePending_ok applied p Hok) as [_ Hw].
    intros i j t t' (i' & -> & _ & Hi & _)%Hw (j' & -> & _ & Hj & _)%Hw Es Eh.
    destruct (Hu i' j' t t' Hi Hj Es Eh) as [-> ->]. done.
  - destruct (removeReceivedTxs_ok removed p Hok) as [_ Hw].
    intros i j t t' [Hi _]%Hw [Hj _]%Hw Es Eh. by eapply Hu.
Qed.

(** C13. The queue of pending transactions is right after any history of
    transactions received, ledgers closed and transactions trimmed.  A
    transaction waits exactly if its reception was answered "pending", fewer
    than four ledgers closed since - it is in the generation of their number -
    and none of the lists of applied or trimmed transactions had its source
    and hash; no two waiting transactions share these.  The sequence numbers
    and fees kept for an account are exact, so that the next transaction is
    answered "duplicate" exactly if one like it waits, and "pending" exactly
    if it is valid after the highest sequence number its account waits with and
    the account can pay the fees of everything it waits for and this one. *)
Theorem queue_correct events p :
  queue_run newPending events p ->
  queue_ok p /\ unique p /\ (forall i tx, waits_at p i tx <-> entered events i tx) /\
  (forall a, getMaxSeqInPendingTxs a p = max_seq (account_txs p a)) /\
  forall tx s, in_u32 (getFee tx) -> received_as p tx s.
Proof using.
  intros H. cut (queue_ok p /\ unique p /\ forall i tx, waits_at p i tx <-> entered events i tx).
  { intros (Hok & Hu & Hw). do 3 (split; [done|]). split; [intros a; apply getMaxSeq_spec, Hok|].
    intros tx s. apply recvTransaction_spec, Hok. }
  remember newPending as p0 eqn:E0. induction H as [|p0 events p1 e p2 Hrun IH Hstep]; subst.
  { split; [apply newPending_ok|]. split; [by intros ???? []%newPending_ok|].
    intros i tx. split; [by intros ?%newPending_ok|].
    intros (_ & before & since & E & _). by destruct before. }
  destruct (IH eq_refl) as (Hok & Hu & Hw). clear IH. pose proof (step_unique _ _ _ Hok Hu Hstep) as Hu'.
  destruct Hstep as [tx status p p' s s' Hrecv Hfee|applied p|removed p].
  - destruct (recv_step_ok tx status p p' s s' Hok Hfee Hrecv) as [Hok' Hw']. do 2 (split; [done|]).
    intros i tx'. rewrite Hw', entered_snoc, Hw. cbn [drops]. split.
    + intros [He|(-> & -> & ->)]; [right|by left]. split; [done|]. split; [apply He|done].
    + intros [[[= -> ->] ->]|(_ & _ & He)]; [by right|by left].
  - destruct (updatePending_ok applied p Hok) as [Hok' Hw']. do 2 (split; [done|]).
    intros i tx'. rewrite Hw', entered_snoc. cbn [drops]. setoid_rewrite Hw. naive_solver.
  - destruct (removeReceivedTxs_ok removed p Hok) as [Hok' Hw']. do 2 (split; [done|]).
    intros i tx'. rewrite Hw', entered_snoc, Hw. cbn [drops]. split.
    + intros [He Hn]. right. split; [done|]. split; [apply He|done].
    + intros [[? _]|(Hn & _ & He)]; [done|by split].
Qed.
End Queue.

(** A transaction is received, another one with its hash is a duplicate, and
    two ledgers close. *)
Abbreviation sample_recv := (@recvTransaction sample_externals sample_txset_externals) (only parsing).
Definition queued_tx : TransactionFramePtr := mkTx 2 (with_seqNum 7 sample_env).
Definition queued : list (gmap AccountID TxMap) := @addPending sample_txset_externals queued_tx newPending.
Definition closed_twice : list (gmap AccountID TxMap) :=
  let close p := (@updatePendingTransactions sample_txset_externals insertion_StdSort [] p).2 in
  close (close queued).
Definition queue_history : list QueueEvent :=
  [Received queued_tx TX_STATUS_PENDING;
   Received (mkTx 9 (with_seqNum 7 sample_env)) TX_STATUS_DUPLICATE; Closed []; Closed []].
Lemma queue_correct_witness :
  @queue_run sample_externals sample_txset_externals insertion_StdSort newPending queue_history closed_twice /\
  @waits_at sample_txset_externals closed_twice 2 queued_tx.
Proof.
  assert (H : @queue_run sample_externals sample_txset_externals insertion_StdSort
                newPending queue_history closed_twice).
  { change queue_history with (((([] ++ [Received queued_tx TX_STATUS_PENDING]) ++
      [Received (mkTx 9 (with_seqNum 7 sample_env)) TX_STATUS_DUPLICATE]) ++ [Closed []]) ++ [Closed []]).
    eapply run_snoc; [eapply run_snoc; [eapply run_snoc; [eapply run_snoc; [constructor|]|]|]|].
    - eapply (step_received _ _ _ queued sample_before sample_before); [vm_compute; reflexivity|].
      unfold_ints. cbn. lia.
    - eapply (step_received _ _ _ queued sample_before sample_before); [vm_compute; reflexivity|].
      unfold_ints. cbn. lia.
    - apply (step_closed []).
    - apply (step_closed []). }
  split; [exact H|].
  apply (@queue_correct sample_externals sample_txset_externals insertion_StdSort _ _ H).
  split; [lia|]. exists [], (tl queue_history). repeat split.
Defined.
