(* ===== verification/Envelopes.v ===== *)
(** Envelopes on their way to SCP: [src/src/herder/PendingEnvelopes.cpp], the
    trackers that fetch what they refer to ([src/src/overlay/ItemFetcher.cpp],
    [Tracker.cpp]), the cache of what was fetched ([src/lib/util/lrucache.hpp])
    and the Herder's side of it ([src/src/herder/HerderImpl.cpp]).

    A cache is the list of its items, the latest used first.  A [std::set] of
    envelopes is a list without repetitions: nothing depends on its order.
    Peers are numbers; the requests that go out and the envelopes that are
    broadcast are logged.  Metrics are left out. *)

From S2P Require Import Prelude Types Sorting OfferOrder LedgerTxn LedgerState.
From S2P Require Import TransactionUtils OfferExchange Operations Payments ManageOffers Transactions TxSets LedgerClose.
From S2P Require Import Upgrades Quorums QuorumSearch Ballots SlotState BallotProtocol Nomination HerderSCPDriver.

(** * [lru_cache] *)
Record lru_cache (V : Type) := mkLru {
  _max_size : nat;
  _cache_items_list : list (Z * V) }.
Arguments mkLru {V} _ _.
Arguments _max_size {V} _.
Arguments _cache_items_list {V} _.

Section Cache.
Context {V : Type}.
Implicit Types c : lru_cache V.

Definition lru_exists (key : Z) c : bool := existsb (fun i => i.1 =? key) (_cache_items_list c).
Definition lru_without (key : Z) c : list (Z * V) :=
  List.filter (fun i => negb (i.1 =? key)) (_cache_items_list c).
Definition lru_put (key : Z) (value : V) c : lru_cache V :=
  let items := (key, value) :: lru_without key c in
  mkLru (_max_size c) (if Nat.ltb (_max_size c) (length items) then removelast items else items).
(** [None] is the [range_error]; what is found comes with the cache. *)
Definition lru_get (key : Z) c : option (V * lru_cache V) :=
  match List.find (fun i => i.1 =? key) (_cache_items_list c) with
  | None => None
  | Some i => Some (i.2, mkLru (_max_size c) (i :: lru_without key c))
  end.
Definition lru_erase_if (f : V -> bool) c : lru_cache V :=
  mkLru (_max_size c) (List.filter (fun i => negb (f i.2)) (_cache_items_list c)).
Definition lru_clear c : lru_cache V := mkLru (_max_size c) [].
End Cache.

(** * [Tracker] *)
Record Tracker := mkTracker {
  mLastAskedPeer : option Z;
  mNumListRebuild : Z;
  mPeersToAsk : list Z;
  mTimer : option Z;
  mWaitingEnvelopes : list SCPEnvelope;
  mLastSeenSlotIndex : Z }.
Definition newTracker : Tracker := mkTracker None 0 [] None [] 0.
Definition env_slot (e : SCPEnvelope) : Z := slotIndex (statement e).

(** What the overlay manager answers at the time. *)
Record Overlay := mkOverlay {
  getPeersKnows : SCPEnvelope -> list Z;
  getRandomAuthenticatedPeers : list Z;
  isAuthenticated : Z -> bool }.

Definition MS_TO_WAIT_FOR_FETCH_REPLY : Z := 1500.
Definition MAX_REBUILD_FETCH_LIST : Z := 1000.

Definition tracker_empty (t : Tracker) : bool :=
  match mWaitingEnvelopes t with [] => true | _ => false end.
Definition set_waiting (l : list SCPEnvelope) (t : Tracker) : Tracker :=
  mkTracker (mLastAskedPeer t) (mNumListRebuild t) (mPeersToAsk t) (mTimer t) l (mLastSeenSlotIndex t).
(** The back of the vector; it is called on a tracker that is not empty. *)
Definition tracker_pop (t : Tracker) : option (SCPEnvelope * Tracker) :=
  match last (mWaitingEnvelopes t) with
  | Some env => Some (env, set_waiting (removelast (mWaitingEnvelopes t)) t)
  | None => None
  end.
Definition clearEnvelopesBelow (slotIndex : Z) (t : Tracker) : bool * Tracker :=
  let t := set_waiting (List.filter (fun e => negb (env_slot e <? slotIndex)) (mWaitingEnvelopes t)) t in
  if negb (tracker_empty t) then (true, t)
  else (false, mkTracker None (mNumListRebuild t) (mPeersToAsk t) None [] (mLastSeenSlotIndex t)).
Definition rebuildList (O : Overlay) (t : Tracker) : Tracker :=
  match mPeersToAsk t, mLastAskedPeer t with
  | [], None =>
      let peersWithEnvelope := concat (List.map (getPeersKnows O) (mWaitingEnvelopes t)) in
      let peers := fold_left (fun l p => if existsb (Z.eqb p) peersWithEnvelope then l ++ [p] else p :: l)
                     (getRandomAuthenticatedPeers O) [] in
      mkTracker None (s32 (mNumListRebuild t + 1)) peers (mTimer t) (mWaitingEnvelopes t)
        (mLastSeenSlotIndex t)
  | _, _ => t
  end.
(** The loop that takes peers from the back, here the list reversed. *)
Fixpoint pickPeer (O : Overlay) (peers : list Z) : option Z * list Z :=
  match peers with
  | [] => (None, [])
  | p :: peers => if isAuthenticated O p then (Some p, peers) else pickPeer O peers
  end.
(** The tracker, and the peer that is asked. *)
Definition tryNextPeer (O : Overlay) (t : Tracker) : Tracker * option Z :=
  let t := rebuildList O t in
  let '(peer, rest) := pickPeer O (rev (mPeersToAsk t)) in
  let nextTry :=
    match peer with
    | None =>
        MS_TO_WAIT_FOR_FETCH_REPLY *
          (if MAX_REBUILD_FETCH_LIST <? mNumListRebuild t then MAX_REBUILD_FETCH_LIST else mNumListRebuild t)
    | Some _ => MS_TO_WAIT_FOR_FETCH_REPLY
    end in
  (mkTracker peer (mNumListRebuild t) (rev rest) (Some nextTry) (mWaitingEnvelopes t) (mLastSeenSlotIndex t),
   peer).
Definition tracker_doesntHave (O : Overlay) (peer : Z) (t : Tracker) : Tracker * option Z :=
  if decide (mLastAskedPeer t = Some peer) then tryNextPeer O t else (t, None).
Definition listen (env : SCPEnvelope) (t : Tracker) : Tracker :=
  mkTracker (mLastAskedPeer t) (mNumListRebuild t) (mPeersToAsk t) (mTimer t)
    (mWaitingEnvelopes t ++ [env]) (Z.max (env_slot env) (mLastSeenSlotIndex t)).
Definition tracker_discard (env : SCPEnvelope) (t : Tracker) : Tracker :=
  set_waiting (List.filter (fun e => negb (bool_decide (e = env))) (mWaitingEnvelopes t)) t.
Definition cancel (t : Tracker) : Tracker :=
  mkTracker (mLastAskedPeer t) (mNumListRebuild t) (mPeersToAsk t) None (mWaitingEnvelopes t) 0.

(** * [ItemFetcher] *)
Record ItemFetcher := mkFetcher {
  mTrackers : gmap Hash Tracker;
  fetcher_asked : list (Z * Hash) }.
Definition newFetcher : ItemFetcher := mkFetcher ∅ [].
Definition ask (itemHash : Hash) (r : Tracker * option Z) (f : ItemFetcher) : ItemFetcher :=
  mkFetcher (<[itemHash := r.1]> (mTrackers f))
    (fetcher_asked f ++ match r.2 with Some peer => [(peer, itemHash)] | None => [] end).

Definition fetch (O : Overlay) (itemHash : Hash) (envelope : SCPEnvelope) (f : ItemFetcher) : ItemFetcher :=
  match mTrackers f !! itemHash with
  | None => ask itemHash (tryNextPeer O (listen envelope newTracker)) f
  | Some tracker => mkFetcher (<[itemHash := listen envelope tracker]> (mTrackers f)) (fetcher_asked f)
  end.
Definition stopFetch (itemHash : Hash) (envelope : SCPEnvelope) (f : ItemFetcher) : ItemFetcher :=
  match mTrackers f !! itemHash with
  | None => f
  | Some tracker =>
      let tracker := tracker_discard envelope tracker in
      let tracker := if tracker_empty tracker then cancel tracker else tracker in
      mkFetcher (<[itemHash := tracker]> (mTrackers f)) (fetcher_asked f)
  end.
Definition getLastSeenSlotIndex (itemHash : Hash) (f : ItemFetcher) : Z :=
  match mTrackers f !! itemHash with None => 0 | Some tracker => mLastSeenSlotIndex tracker end.
Definition fetchingFor (itemHash : Hash) (f : ItemFetcher) : list SCPEnvelope :=
  match mTrackers f !! itemHash with None => [] | Some tracker => mWaitingEnvelopes tracker end.
(** What [stopFetchingBelow] posts. *)
Definition stopFetchingBelowInternal (slotIndex : Z) (f : ItemFetcher) : ItemFetcher :=
  mkFetcher (omap (fun t => let '(cared, t) := clearEnvelopesBelow slotIndex t in
                            if cared : bool then Some t else None) (mTrackers f))
    (fetcher_asked f).
Definition fetcher_doesntHave (O : Overlay) (itemHash : Hash) (peer : Z) (f : ItemFetcher) : ItemFetcher :=
  match mTrackers f !! itemHash with
  | None => f
  | Some tracker => ask itemHash (tracker_doesntHave O peer tracker) f
  end.
(** One round of the loop of [recv]: the envelope that goes to the Herder. *)
Definition recv_pop (itemHash : Hash) (f : ItemFetcher) : option (SCPEnvelope * ItemFetcher) :=
  tracker ← mTrackers f !! itemHash;
  '(env, tracker) ← tracker_pop tracker;
  mret (env, mkFetcher (<[itemHash := tracker]> (mTrackers f)) (fetcher_asked f)).
(** What [recv] does when the loop is over. *)
Definition recv_done (itemHash : Hash) (f : ItemFetcher) : ItemFetcher :=
  mkFetcher (alter cancel itemHash (mTrackers f)) (fetcher_asked f).
(** The timer of a tracker expires. *)
Definition fetcher_timeout (O : Overlay) (itemHash : Hash) (f : ItemFetcher) : ItemFetcher :=
  match mTrackers f !! itemHash with
  | None => f
  | Some tracker => ask itemHash (tryNextPeer O tracker) f
  end.

(** * [PendingEnvelopes] *)
Record SlotEnvelopes := mkSlotEnvelopes {
  mProcessedEnvelopes : list SCPEnvelope;
  mDiscardedEnvelopes : list SCPEnvelope;
  mFetchingEnvelopes : list SCPEnvelope;
  mReadyEnvelopes : list SCPEnvelope }.
Definition newSlotEnvelopes : SlotEnvelopes := mkSlotEnvelopes [] [] [] [].
Record PendingEnvelopes := mkPending {
  mEnvelopes : gmap Z SlotEnvelopes;
  mQsetCache : lru_cache SCPQuorumSet;
  mTxSetFetcher : ItemFetcher;
  mQuorumSetFetcher : ItemFetcher;
  mTxSetCache : lru_cache (Z * TxSetFrame);
  mNodesInQuorum : lru_cache bool;
  pending_broadcast : list SCPEnvelope }.
Definition QSET_CACHE_SIZE : nat := 10000.
Definition TXSET_CACHE_SIZE : nat := 10000.
Definition NODES_QUORUM_CACHE_SIZE : nat := 1000.
Definition newPendingEnvelopes : PendingEnvelopes :=
  mkPending ∅ (mkLru QSET_CACHE_SIZE []) newFetcher newFetcher (mkLru TXSET_CACHE_SIZE [])
    (mkLru NODES_QUORUM_CACHE_SIZE []) [].

Inductive EnvelopeStatus :=
  | ENVELOPE_STATUS_DISCARDED | ENVELOPE_STATUS_FETCHING
  | ENVELOPE_STATUS_READY | ENVELOPE_STATUS_PROCESSED.
#[export] Instance EnvelopeStatus_eq_dec : EqDecision EnvelopeStatus.
Proof. solve_decision. Defined.

Definition set_mEnvelopes (m : gmap Z SlotEnvelopes) (p : PendingEnvelopes) : PendingEnvelopes :=
  mkPending m (mQsetCache p) (mTxSetFetcher p) (mQuorumSetFetcher p) (mTxSetCache p) (mNodesInQuorum p)
    (pending_broadcast p).
Definition set_mQsetCache (c : lru_cache SCPQuorumSet) (p : PendingEnvelopes) : PendingEnvelopes :=
  mkPending (mEnvelopes p) c (mTxSetFetcher p) (mQuorumSetFetcher p) (mTxSetCache p) (mNodesInQuorum p)
    (pending_broadcast p).
Definition set_mTxSetCache (c : lru_cache (Z * TxSetFrame)) (p : PendingEnvelopes) : PendingEnvelopes :=
  mkPending (mEnvelopes p) (mQsetCache p) (mTxSetFetcher p) (mQuorumSetFetcher p) c (mNodesInQuorum p)
    (pending_broadcast p).
Definition set_mNodesInQuorum (c : lru_cache bool) (p : PendingEnvelopes) : PendingEnvelopes :=
  mkPending (mEnvelopes p) (mQsetCache p) (mTxSetFetcher p) (mQuorumSetFetcher p) (mTxSetCache p) c
    (pending_broadcast p).
Definition set_fetchers (txSets qsets : ItemFetcher) (p : PendingEnvelopes) : PendingEnvelopes :=
  mkPending (mEnvelopes p) (mQsetCache p) txSets qsets (mTxSetCache p) (mNodesInQuorum p)
    (pending_broadcast p).
Definition add_broadcast (e : SCPEnvelope) (p : PendingEnvelopes) : PendingEnvelopes :=
  mkPending (mEnvelopes p) (mQsetCache p) (mTxSetFetcher p) (mQuorumSetFetcher p) (mTxSetCache p)
    (mNodesInQuorum p) (pending_broadcast p ++ [e]).
(** [mEnvelopes[slotIndex]], which creates the entry, and a change of it. *)
Definition envelopes_at (slotIndex : Z) (p : PendingEnvelopes) : SlotEnvelopes :=
  default newSlotEnvelopes (mEnvelopes p !! slotIndex).
Definition on_envelopes (slotIndex : Z) (f : SlotEnvelopes -> SlotEnvelopes) (p : PendingEnvelopes)
    : PendingEnvelopes :=
  set_mEnvelopes (<[slotIndex := f (envelopes_at slotIndex p)]> (mEnvelopes p)) p.

Definition has_env (e : SCPEnvelope) (l : list SCPEnvelope) : bool := bool_decide (e ∈ l).
Definition without_env (e : SCPEnvelope) (l : list SCPEnvelope) : list SCPEnvelope :=
  List.filter (fun e' => negb (bool_decide (e' = e))) l.
(** [std::set::insert] *)
Definition insert_env (e : SCPEnvelope) (l : list SCPEnvelope) : list SCPEnvelope :=
  if has_env e l then l else l ++ [e].

Section Pending.
Context `{Ex : HerderExternals}.

(** [getStellarValues] and [getTxSetHashes]: [None] is the XDR exception. *)
Definition getTxSetHashes (envelope : SCPEnvelope) : option (list Hash) :=
  foldr (fun v hs => match value_from_opaque v, hs with
                     | Some sv, Some hs => Some (sv_txSetHash sv :: hs)
                     | _, _ => None
                     end) (Some []) (getStatementValues (statement envelope)).
Definition qSetHash (envelope : SCPEnvelope) : Hash :=
  getCompanionQuorumSetHashFromStatement (statement envelope).

Definition isDiscarded (envelope : SCPEnvelope) (p : PendingEnvelopes) : bool :=
  match mEnvelopes p !! env_slot envelope with
  | None => false
  | Some s => has_env envelope (mDiscardedEnvelopes s)
  end.
Definition pending_isNodeInQuorum (scp_isNodeInQuorum : NodeID -> TriBool) (node : NodeID)
    (p : PendingEnvelopes) : bool * PendingEnvelopes :=
  match lru_get node (mNodesInQuorum p) with
  | Some (res, c) => (res, set_mNodesInQuorum c p)
  | None =>
      let res := match scp_isNodeInQuorum node with TB_FALSE => false | _ => true end in
      (res, set_mNodesInQuorum (lru_put node res (mNodesInQuorum p)) p)
  end.
Definition touchTxSet (slotIndex : Z) (c : lru_cache (Z * TxSetFrame)) (h : Hash)
    : lru_cache (Z * TxSetFrame) :=
  match lru_get h c with
  | None => c
  | Some ((last, ts), c) =>
      mkLru (_max_size c) ((h, (Z.max last slotIndex, ts)) :: tl (_cache_items_list c))
  end.
(** The state, and whether the hashes could be read. *)
Definition touchFetchCache (envelope : SCPEnvelope) (p : PendingEnvelopes) : PendingEnvelopes * bool :=
  let p := match lru_get (qSetHash envelope) (mQsetCache p) with
           | Some (_, c) => set_mQsetCache c p
           | None => p
           end in
  match getTxSetHashes envelope with
  | None => (p, false)
  | Some hs => (set_mTxSetCache (fold_left (touchTxSet (env_slot envelope)) hs (mTxSetCache p)) p, true)
  end.
Definition isFullyFetched (envelope : SCPEnvelope) (p : PendingEnvelopes) : bool :=
  lru_exists (qSetHash envelope) (mQsetCache p) &&
  forallb (fun h => lru_exists h (mTxSetCache p)) (default [] (getTxSetHashes envelope)).
Definition startFetch (O : Overlay) (envelope : SCPEnvelope) (p : PendingEnvelopes) : PendingEnvelopes :=
  let qsets := if lru_exists (qSetHash envelope) (mQsetCache p) then mQuorumSetFetcher p
               else fetch O (qSetHash envelope) envelope (mQuorumSetFetcher p) in
  let txSets := fold_left (fun f h => if lru_exists h (mTxSetCache p) then f else fetch O h envelope f)
                  (default [] (getTxSetHashes envelope)) (mTxSetFetcher p) in
  set_fetchers txSets qsets p.
Definition pending_stopFetch (envelope : SCPEnvelope) (p : PendingEnvelopes) : PendingEnvelopes :=
  set_fetchers
    (fold_left (fun f h => stopFetch h envelope f) (default [] (getTxSetHashes envelope)) (mTxSetFetcher p))
    (stopFetch (qSetHash envelope) envelope (mQuorumSetFetcher p)) p.
Definition envelopeReady (envelope : SCPEnvelope) (p : PendingEnvelopes) : PendingEnvelopes :=
  on_envelopes (env_slot envelope)
    (fun s => mkSlotEnvelopes (mProcessedEnvelopes s) (mDiscardedEnvelopes s) (mFetchingEnvelopes s)
                (mReadyEnvelopes s ++ [envelope]))
    (add_broadcast envelope p).

Definition pending_recvSCPEnvelope (O : Overlay) (scp_isNodeInQuorum : NodeID -> TriBool)
    (envelope : SCPEnvelope) (p : PendingEnvelopes) : EnvelopeStatus * PendingEnvelopes :=
  let '(inQuorum, p) := pending_isNodeInQuorum scp_isNodeInQuorum (nodeID (statement envelope)) p in
  if negb inQuorum then (ENVELOPE_STATUS_DISCARDED, p)
  else if isDiscarded envelope p then (ENVELOPE_STATUS_DISCARDED, p)
  else
    let '(p, readable) := touchFetchCache envelope p in
    if negb readable then (ENVELOPE_STATUS_DISCARDED, p)
    else
      let slotIndex := env_slot envelope in
      let p := on_envelopes slotIndex id p in
      let s := envelopes_at slotIndex p in
      let fetching := has_env envelope (mFetchingEnvelopes s) in
      if negb fetching && has_env envelope (mProcessedEnvelopes s) then (ENVELOPE_STATUS_PROCESSED, p)
      else
        let p :=
          if fetching then p
          else
            startFetch O envelope
              (on_envelopes slotIndex
                 (fun s => mkSlotEnvelopes (mProcessedEnvelopes s) (mDiscardedEnvelopes s)
                             (insert_env envelope (mFetchingEnvelopes s)) (mReadyEnvelopes s)) p) in
        if isFullyFetched envelope p then
          let p := on_envelopes slotIndex
                     (fun s => mkSlotEnvelopes (mProcessedEnvelopes s ++ [envelope]) (mDiscardedEnvelopes s)
                                 (without_env envelope (mFetchingEnvelopes s)) (mReadyEnvelopes s)) p in
          (ENVELOPE_STATUS_READY, envelopeReady envelope p)
        else (ENVELOPE_STATUS_FETCHING, p).

(** The exception of [stopFetch] is caught: the quorum set's fetcher has
    stopped by then. *)
Definition discardSCPEnvelope (envelope : SCPEnvelope) (p : PendingEnvelopes) : PendingEnvelopes :=
  if isDiscarded envelope p then p
  else
    pending_stopFetch envelope
      (on_envelopes (env_slot envelope)
         (fun s => mkSlotEnvelopes (mProcessedEnvelopes s) (insert_env envelope (mDiscardedEnvelopes s))
                     (without_env envelope (mFetchingEnvelopes s)) (mReadyEnvelopes s)) p).
Definition discardSCPEnvelopesWithQSet (hash : Hash) (p : PendingEnvelopes) : PendingEnvelopes :=
  fold_left (fun p envelope => discardSCPEnvelope envelope p) (fetchingFor hash (mQuorumSetFetcher p)) p.

(** What [addSCPQuorumSet] and [addTxSet] do before [ItemFetcher::recv]. *)
Definition putSCPQuorumSet (hash : Hash) (q : SCPQuorumSet) (p : PendingEnvelopes) : PendingEnvelopes :=
  set_mQsetCache (lru_put hash q (mQsetCache p)) (set_mNodesInQuorum (lru_clear (mNodesInQuorum p)) p).
Definition putTxSet (hash : Hash) (lastSeenSlotIndex : Z) (txset : TxSetFrame) (p : PendingEnvelopes)
    : PendingEnvelopes :=
  set_mTxSetCache (lru_put hash (lastSeenSlotIndex, txset) (mTxSetCache p)) p.

(** The two fetchers, for quorum sets and for transaction sets. *)
Definition fetcher_of (kind : bool) (p : PendingEnvelopes) : ItemFetcher :=
  if kind then mQuorumSetFetcher p else mTxSetFetcher p.
Definition with_fetcher (kind : bool) (f : ItemFetcher) (p : PendingEnvelopes) : PendingEnvelopes :=
  if kind then set_fetchers (mTxSetFetcher p) f p else set_fetchers f (mQuorumSetFetcher p) p.

(** [ItemFetcher::recv]: [herder] is what the Herder does with an envelope, and
    the rounds of the loop are at most [fuel]. *)
Section Recv.
Context (herder : SCPEnvelope -> PendingEnvelopes -> PendingEnvelopes) (fuel : nat).

Fixpoint recvLoop (rounds : nat) (kind : bool) (itemHash : Hash) (p : PendingEnvelopes)
    : option PendingEnvelopes :=
  match rounds with
  | O => None
  | S rounds =>
      match recv_pop itemHash (fetcher_of kind p) with
      | None => Some (with_fetcher kind (recv_done itemHash (fetcher_of kind p)) p)
      | Some (env, f) => recvLoop rounds kind itemHash (herder env (with_fetcher kind f p))
      end
  end.
(** [None] is a loop that has not ended. *)
Definition addSCPQuorumSet (hash : Hash) (q : SCPQuorumSet) (p : PendingEnvelopes)
    : outcome (option PendingEnvelopes) :=
  _ ← cassert "isQuorumSetSane(q, false)" (isQuorumSetSane q false);
  mret (recvLoop fuel true hash (putSCPQuorumSet hash q p)).
Definition recvSCPQuorumSet (hash : Hash) (q : SCPQuorumSet) (p : PendingEnvelopes)
    : outcome (bool * option PendingEnvelopes) :=
  if getLastSeenSlotIndex hash (mQuorumSetFetcher p) <=? 0 then mret (false, Some p)
  else if isQuorumSetSane q false then p ← addSCPQuorumSet hash q p; mret (true, p)
  else mret (false, Some (discardSCPEnvelopesWithQSet hash p)).
Definition addTxSet (hash : Hash) (lastSeenSlotIndex : Z) (txset : TxSetFrame) (p : PendingEnvelopes)
    : option PendingEnvelopes :=
  recvLoop fuel false hash (putTxSet hash lastSeenSlotIndex txset p).
Definition recvTxSet (hash : Hash) (txset : TxSetFrame) (p : PendingEnvelopes)
    : bool * option PendingEnvelopes :=
  let lastSeenSlotIndex := getLastSeenSlotIndex hash (mTxSetFetcher p) in
  if lastSeenSlotIndex =? 0 then (false, Some p) else (true, addTxSet hash lastSeenSlotIndex txset p).
End Recv.
Definition pending_peerDoesntHave (O : Overlay) (kind : bool) (itemID : Hash) (peer : Z) (p : PendingEnvelopes)
    : PendingEnvelopes :=
  with_fetcher kind (fetcher_doesntHave O itemID peer (fetcher_of kind p)) p.

(** The ready envelopes of the slots up to [slotIndex], in their order. *)
Fixpoint popFrom (slotIndex : Z) (slots : list (Z * SlotEnvelopes)) : option (Z * SCPEnvelope) :=
  match slots with
  | [] => None
  | (k, s) :: slots =>
      if k <=? slotIndex then
        match last (mReadyEnvelopes s) with
        | Some e => Some (k, e)
        | None => popFrom slotIndex slots
        end
      else None
  end.
Definition pending_pop (slotIndex : Z) (p : PendingEnvelopes) : option (SCPEnvelope * PendingEnvelopes) :=
  '(k, e) ← popFrom slotIndex (in_key_order (mEnvelopes p));
  mret (e, on_envelopes k (fun s => mkSlotEnvelopes (mProcessedEnvelopes s) (mDiscardedEnvelopes s)
                                     (mFetchingEnvelopes s) (removelast (mReadyEnvelopes s))) p).
Definition readySlots (p : PendingEnvelopes) : list Z :=
  (List.filter (fun ks : Z * SlotEnvelopes => match mReadyEnvelopes ks.2 with [] => false | _ => true end)
     (in_key_order (mEnvelopes p))).*1.
Definition eraseBelow (slotIndex : Z) (p : PendingEnvelopes) : PendingEnvelopes :=
  let p := set_mEnvelopes (base.filter (fun ks : Z * SlotEnvelopes => ~ ks.1 < slotIndex) (mEnvelopes p)) p in
  set_mTxSetCache (lru_erase_if (fun i => negb (i.1 =? 0) && (i.1 <? slotIndex)) (mTxSetCache p)) p.
(** The state, and the slot below which fetching stops - a call that is
    posted. *)
Definition slotClosed (slotIndex : Z) (p : PendingEnvelopes) : PendingEnvelopes * option Z :=
  let p := set_mNodesInQuorum (lru_clear (mNodesInQuorum p)) p in
  if MAX_SLOTS_TO_REMEMBER <? slotIndex then
    let slotIndex := slotIndex - MAX_SLOTS_TO_REMEMBER in
    let p := set_mEnvelopes (delete slotIndex (mEnvelopes p)) p in
    (set_mTxSetCache (lru_erase_if (fun i => i.1 =? slotIndex) (mTxSetCache p)) p, Some (slotIndex + 1))
  else (p, None).
Definition pending_getTxSet (hash : Hash) (p : PendingEnvelopes) : option (TxSetFrame * PendingEnvelopes) :=
  '(i, c) ← lru_get hash (mTxSetCache p); mret (i.2, set_mTxSetCache c p).
Definition pending_getQSet (hash : Hash) (p : PendingEnvelopes) : option (SCPQuorumSet * PendingEnvelopes) :=
  '(q, c) ← lru_get hash (mQsetCache p); mret (q, set_mQsetCache c p).

(** * The Herder *)

(** What [HerderImpl::recvSCPEnvelope] asks before it passes an envelope on. *)
Record HerderFilter := mkFilter {
  hf_MANUAL_CLOSE : bool;
  hf_nodeID : NodeID;
  hf_currentLedgerSeq : Z;
  hf_nextConsensusLedgerIndex : option Z }.
Definition inBracket (F : HerderFilter) (slotIndex : Z) : bool :=
  let minLedgerSeq :=
    if MAX_SLOTS_TO_REMEMBER <? hf_currentLedgerSeq F
    then u32 (hf_currentLedgerSeq F - MAX_SLOTS_TO_REMEMBER) else hf_currentLedgerSeq F in
  let maxLedgerSeq :=
    match hf_nextConsensusLedgerIndex F with
    | Some next => u32 (next + LEDGER_VALIDITY_BRACKET)
    | None => UINT32_MAX
    end in
  negb ((maxLedgerSeq <? slotIndex) || (slotIndex <? minLedgerSeq)).
Definition admitted (F : HerderFilter) (envelope : SCPEnvelope) : bool :=
  negb (hf_MANUAL_CLOSE F) && negb (nodeID (statement envelope) =? hf_nodeID F)
  && inBracket F (env_slot envelope).
(** [HerderImpl::recvSCPEnvelope], up to the processing of the queue. *)
Definition herder_recvSCPEnvelope (F : HerderFilter) (O : Overlay) (scp_isNodeInQuorum : NodeID -> TriBool)
    (envelope : SCPEnvelope) (p : PendingEnvelopes) : EnvelopeStatus * PendingEnvelopes :=
  if negb (admitted F envelope) then (ENVELOPE_STATUS_DISCARDED, p)
  else pending_recvSCPEnvelope O scp_isNodeInQuorum envelope p.
End Pending.
