(* ===== verification/EnvelopeFacts.v ===== *)
(** An envelope is handed to SCP at most once while its slot is remembered, and
    one that is being fetched is never forgotten. *)

From S2P Require Import Prelude Types Sorting OfferOrder LedgerTxn LedgerState.
From S2P Require Import TransactionUtils OfferExchange Operations Payments ManageOffers Transactions TxSets LedgerClose.
From S2P Require Import Upgrades Quorums QuorumSearch Ballots SlotState BallotProtocol Nomination HerderSCPDriver Envelopes.

(** ** Caches *)
Section Cache.
Context {V : Type}.
Implicit Types c : lru_cache V.

Lemma lru_exists_In key c : lru_exists key c = true <-> key ∈ (_cache_items_list c).*1.
Proof using.
  unfold lru_exists. rewrite existsb_exists, list_elem_of_fmap. split.
  - intros (i & Hi & E%Z.eqb_eq). exists i. split; [done|]. by apply list_elem_of_In.
  - intros (i & -> & Hi%list_elem_of_In). exists i. split; [done|]. apply Z.eqb_refl.
Qed.
Lemma lru_without_In key h c : h ∈ (lru_without key c).*1 <-> h ∈ (_cache_items_list c).*1 /\ h <> key.
Proof using.
  unfold lru_without. rewrite !list_elem_of_fmap. split.
  - intros (i & -> & [Hi Hn]%list_elem_of_In%filter_In). apply negb_true_iff, Z.eqb_neq in Hn.
    split; [exists i; split; [done|]; by apply list_elem_of_In|done].
  - intros [(i & -> & Hi) Hn]. exists i. split; [done|]. apply list_elem_of_In, filter_In.
    split; [by apply list_elem_of_In|]. by apply negb_true_iff, Z.eqb_neq.
Qed.
Lemma lru_put_self key v c : (0 < _max_size c)%nat -> lru_exists key (lru_put key v c) = true.
Proof using.
  intros Hm. apply lru_exists_In. unfold lru_put. cbn [_cache_items_list].
  destruct (Nat.ltb_spec (_max_size c) (length ((key, v) :: lru_without key c))) as [Hl|]; [|set_solver].
  destruct (lru_without key c) as [|i l]; [cbn in Hl; lia|]. cbn [removelast]. set_solver.
Qed.
Lemma lru_put_other key h v c :
  lru_exists h (lru_put key v c) = true -> h = key \/ lru_exists h c = true.
Proof using.
  rewrite !lru_exists_In. unfold lru_put. cbn [_cache_items_list]. intros H.
  assert (Hin : h ∈ ((key, v) :: lru_without key c).*1).
  { destruct (Nat.ltb _ _); [|done]. rewrite removelast_firstn_len, fmap_take in H. by apply elem_of_take in H as (? & ?%list_elem_of_lookup_2 & _). }
  apply elem_of_cons in Hin as [->|Hin]; [by left|]. apply lru_without_In in Hin as [? _]. by right.
Qed.
Lemma lru_get_exists key h c v c' :
  lru_get key c = Some (v, c') -> _max_size c' = _max_size c /\ (lru_exists h c' = lru_exists h c).
Proof using.
  unfold lru_get. destruct (List.find _ _) as [i|] eqn:E; [|done]. intros [= <- <-]. split; [done|].
  apply List.find_some in E as [Hi Ek%Z.eqb_eq]. apply Bool.eq_true_iff_eq. rewrite !lru_exists_In.
  cbn [_cache_items_list fmap list_fmap]. rewrite elem_of_cons, lru_without_In. split.
  - intros [->|[? _]]; [|done]. apply list_elem_of_fmap. exists i. split; [done|]. by apply list_elem_of_In.
  - intros H. destruct (decide (h = key)) as [->|]; [by left|by right].
Qed.
Lemma lru_erase_if_exists f h c : lru_exists h (lru_erase_if f c) = true -> lru_exists h c = true.
Proof using.
  rewrite !lru_exists_In, !list_elem_of_fmap. intros (i & -> & Hi). exists i. split; [done|].
  apply list_elem_of_In in Hi. apply list_elem_of_In. by apply filter_In in Hi as [Hi _].
Qed.
End Cache.
Lemma touchTxSet_exists slot c k h :
  _max_size (touchTxSet slot c k) = _max_size c /\ lru_exists h (touchTxSet slot c k) = lru_exists h c.
Proof.
  unfold touchTxSet. destruct (lru_get k c) as [[[n ts] c']|] eqn:E; [|done].
  pose proof (lru_get_exists k h c _ _ E) as [<- <-]. split; [done|].
  unfold lru_get in E. destruct (List.find _ _) as [i|] eqn:Ef; [|done]. injection E as _ <-.
  apply List.find_some in Ef as [_ Ek%Z.eqb_eq]. unfold lru_exists. cbn. by rewrite Ek.
Qed.
Lemma touchTxSets_exists slot hs c h :
  _max_size (fold_left (touchTxSet slot) hs c) = _max_size c /\
  lru_exists h (fold_left (touchTxSet slot) hs c) = lru_exists h c.
Proof.
  revert c. induction hs as [|k hs IH]; intros c; cbn [fold_left]; [done|].
  destruct (IH (touchTxSet slot c k)) as [-> ->]. apply touchTxSet_exists.
Qed.

(** ** Who waits for what *)
Lemma tryNextPeer_waiting O t : mWaitingEnvelopes (tryNextPeer O t).1 = mWaitingEnvelopes t.
Proof.
  unfold tryNextPeer. destruct (pickPeer O _) as [peer rest]. cbn. unfold rebuildList.
  by destruct (mPeersToAsk t), (mLastAskedPeer t).
Qed.
Lemma fetchingFor_insert h h' t ts asked :
  fetchingFor h' (mkFetcher (<[h := t]> ts) asked) =
    if decide (h = h') then mWaitingEnvelopes t else fetchingFor h' (mkFetcher ts asked).
Proof.
  unfold fetchingFor. cbn [mTrackers].
  destruct (decide (h = h')) as [<-|Hn]; [by rewrite lookup_insert_eq|by rewrite lookup_insert_ne].
Qed.
Lemma fetchingFor_asked h ts asked f : mTrackers f = ts -> fetchingFor h (mkFetcher ts asked) = fetchingFor h f.
Proof. by intros <-. Qed.
Lemma fetch_waiting O h env f h' e :
  e ∈ fetchingFor h' (fetch O h env f) <-> e ∈ fetchingFor h' f \/ (h' = h /\ e = env).
Proof.
  unfold fetch, ask. destruct (mTrackers f !! h) as [t|] eqn:E; rewrite fetchingFor_insert;
    (destruct (decide (h = h')) as [<-|Hn]; [|rewrite (fetchingFor_asked h' _ _ f) by done; naive_solver]);
    unfold fetchingFor; rewrite E, ?tryNextPeer_waiting; cbn; set_solver.
Qed.
Lemma discard_waiting env t e :
  e ∈ mWaitingEnvelopes (tracker_discard env t) <-> e ∈ mWaitingEnvelopes t /\ e <> env.
Proof.
  cbn. rewrite !list_elem_of_In, filter_In, negb_true_iff, bool_decide_eq_false. done.
Qed.
Lemma stopFetch_waiting h env f h' e :
  e ∈ fetchingFor h' (stopFetch h env f) <-> e ∈ fetchingFor h' f /\ ~ (h' = h /\ e = env).
Proof.
  unfold stopFetch. destruct (mTrackers f !! h) as [t|] eqn:E.
  - rewrite fetchingFor_insert. destruct (decide (h = h')) as [<-|Hn];
      [|rewrite (fetchingFor_asked h' _ _ f) by done; naive_solver].
    assert (Ew : mWaitingEnvelopes (if tracker_empty (tracker_discard env t) then cancel (tracker_discard env t)
                 else tracker_discard env t) = mWaitingEnvelopes (tracker_discard env t))
      by by destruct (tracker_empty _).
    rewrite Ew, discard_waiting. unfold fetchingFor. rewrite E. naive_solver.
  - split; [|by intros [? _]]. intros He. split; [done|]. intros [-> ->].
    unfold fetchingFor in He. rewrite E in He. by apply elem_of_nil in He.
Qed.
Lemma stopBelow_waiting k f h e :
  e ∈ fetchingFor h (stopFetchingBelowInternal k f) <-> e ∈ fetchingFor h f /\ k <= env_slot e.
Proof.
  unfold fetchingFor, stopFetchingBelowInternal. cbn [mTrackers]. rewrite lookup_omap.
  destruct (mTrackers f !! h) as [t|]; [|cbn; set_solver]. cbn [option_bind mbind].
  unfold clearEnvelopesBelow, tracker_empty. cbn [set_waiting mWaitingEnvelopes].
  assert (Hin : e ∈ List.filter (fun e => negb (env_slot e <? k)) (mWaitingEnvelopes t) <->
            e ∈ mWaitingEnvelopes t /\ k <= env_slot e)
    by (rewrite !list_elem_of_In, filter_In, negb_true_iff, Z.ltb_ge; done).
  destruct (List.filter _ _) as [|x l] eqn:El; cbn; rewrite <- Hin; [done|]. cbn. by rewrite ?El.
Qed.
Lemma ask_waiting h t r f h' :
  mTrackers f !! h = Some t -> mWaitingEnvelopes r.1 = mWaitingEnvelopes t ->
  fetchingFor h' (ask h r f) = fetchingFor h' f.
Proof.
  intros E Ew. unfold ask. rewrite fetchingFor_insert.
  destruct (decide (h = h')) as [<-|]; [|by apply fetchingFor_asked]. unfold fetchingFor. by rewrite E.
Qed.
Lemma doesntHave_waiting O h peer f h' : fetchingFor h' (fetcher_doesntHave O h peer f) = fetchingFor h' f.
Proof.
  unfold fetcher_doesntHave. destruct (mTrackers f !! h) as [t|] eqn:E; [|done].
  eapply ask_waiting; [done|]. unfold tracker_doesntHave. destruct (decide _); [apply tryNextPeer_waiting|done].
Qed.
Lemma timeout_waiting O h f h' : fetchingFor h' (fetcher_timeout O h f) = fetchingFor h' f.
Proof.
  unfold fetcher_timeout. destruct (mTrackers f !! h) as [t|] eqn:E; [|done].
  eapply ask_waiting; [done|]. apply tryNextPeer_waiting.
Qed.
Lemma done_waiting h f h' : fetchingFor h' (recv_done h f) = fetchingFor h' f.
Proof.
  unfold fetchingFor, recv_done. cbn [mTrackers]. rewrite lookup_alter.
  destruct (decide (h = h')) as [<-|]; [|done]. by destruct (mTrackers f !! h).
Qed.
Lemma last_removelast {A} (l : list A) x : last l = Some x -> l = removelast l ++ [x].
Proof.
  destruct l as [|y l] using rev_ind; [done|]. rewrite last_snoc. intros [= ->].
  by rewrite removelast_last.
Qed.
Lemma recv_pop_waiting h f env f' h' :
  recv_pop h f = Some (env, f') ->
  env ∈ fetchingFor h f /\
  forall e, e ∈ fetchingFor h' f -> e ∈ fetchingFor h' f' \/ (h' = h /\ e = env).
Proof.
  unfold recv_pop. destruct (mTrackers f !! h) as [t|] eqn:E; [|done]. cbn [mbind option_bind].
  unfold tracker_pop. destruct (last (mWaitingEnvelopes t)) as [x|] eqn:El; [|done].
  cbn. intros [= <- <-]. apply last_removelast in El. split.
  - unfold fetchingFor. rewrite E, El. set_solver.
  - intros e. rewrite fetchingFor_insert. destruct (decide (h = h')) as [<-|Hn];
      [|rewrite (fetchingFor_asked h' _ _ f) by done; by left].
    unfold fetchingFor. rewrite E. cbn. intros He. rewrite El in He. set_solver.
Qed.

(** ** The steps

    [ItemFetcher::recv] hands envelopes to the Herder, which may process the
    queue, close a slot and call back; so its loop is cut into rounds, and any
    step may come between two of them.  The world remembers what was handed to
    SCP since a slot's entry was made, the items that left a cache, the
    envelopes that were turned down when an item of theirs arrived, and the slot
    below which fetching was stopped. *)
Definition Item : Type := bool * Hash.
Record World := mkWorld {
  w_pending : PendingEnvelopes;
  w_delivered : Z -> list SCPEnvelope;
  w_lost : Item -> Prop;
  w_refused : SCPEnvelope -> Prop;
  w_floor : Z }.
Definition newWorld : World := mkWorld newPendingEnvelopes (fun _ => []) (fun _ => False) (fun _ => False) 0.

Section Steps.
Context `{Ex : HerderExternals}.
Implicit Types (p : PendingEnvelopes) (e env : SCPEnvelope) (i : Item).

Definition items e : list Item :=
  (true, qSetHash e) :: ((fun h => (false, h)) <$> default [] (getTxSetHashes e)).
Definition is_cached p i : bool :=
  if i.1 then lru_exists i.2 (mQsetCache p) else lru_exists i.2 (mTxSetCache p).
Definition waits_for p i e : Prop := e ∈ fetchingFor i.2 (fetcher_of i.1 p).
(** What left the caches between two states. *)
Definition lost_between p p' i : Prop := is_cached p i = true /\ is_cached p' i = false.
Definition lose p p' (lost : Item -> Prop) i : Prop := lost i \/ lost_between p p' i.
Definition forget (P : Z -> bool) (delivered : Z -> list SCPEnvelope) (k : Z) : list SCPEnvelope :=
  if P k then [] else delivered k.
Definition deliver e (delivered : Z -> list SCPEnvelope) (k : Z) : list SCPEnvelope :=
  if env_slot e =? k then delivered k ++ [e] else delivered k.

Inductive step : World -> World -> Prop :=
  (** An envelope comes from a peer. *)
  | step_receive F O q env p D L R n :
      step (mkWorld p D L R n) (mkWorld (herder_recvSCPEnvelope F O q env p).2 D L R n)
  (** An item is put into its cache, the Herder gets the envelopes that wait
      for it, and the tracker stops. *)
  | step_qset h qset p D L R n :
      let p' := putSCPQuorumSet h qset p in
      step (mkWorld p D L R n) (mkWorld p' D (lose p p' L) R n)
  | step_txset h last ts p D L R n :
      let p' := putTxSet h last ts p in
      step (mkWorld p D L R n) (mkWorld p' D (lose p p' L) R n)
  | step_redeliver i env f F O q p D (L : Item -> Prop) (R : SCPEnvelope -> Prop) n :
      is_cached p i = true \/ L i ->
      recv_pop i.2 (fetcher_of i.1 p) = Some (env, f) ->
      let r := herder_recvSCPEnvelope F O q env (with_fetcher i.1 f p) in
      step (mkWorld p D L R n)
        (mkWorld r.2 D L (fun e => R e \/ e = env /\ r.1 = ENVELOPE_STATUS_DISCARDED) n)
  | step_done i p D L R n :
      step (mkWorld p D L R n) (mkWorld (with_fetcher i.1 (recv_done i.2 (fetcher_of i.1 p)) p) D L R n)
  (** A quorum set turns out not to be sane. *)
  | step_discard h p D L R n :
      step (mkWorld p D L R n) (mkWorld (discardSCPEnvelopesWithQSet h p) D L R n)
  (** A peer does not have an item; a request times out. *)
  | step_doesntHave O i peer p D L R n :
      step (mkWorld p D L R n)
        (mkWorld (with_fetcher i.1 (fetcher_doesntHave O i.2 peer (fetcher_of i.1 p)) p) D L R n)
  | step_timeout O i p D L R n :
      step (mkWorld p D L R n)
        (mkWorld (with_fetcher i.1 (fetcher_timeout O i.2 (fetcher_of i.1 p)) p) D L R n)
  (** SCP takes an envelope, or asks for an item. *)
  | step_pop k e p p' D L R n :
      pending_pop k p = Some (e, p') -> step (mkWorld p D L R n) (mkWorld p' (deliver e D) L R n)
  | step_getQSet h qset p p' D L R n :
      pending_getQSet h p = Some (qset, p') -> step (mkWorld p D L R n) (mkWorld p' D L R n)
  | step_getTxSet h ts p p' D L R n :
      pending_getTxSet h p = Some (ts, p') -> step (mkWorld p D L R n) (mkWorld p' D L R n)
  (** Ledgers close. *)
  | step_eraseBelow k p D L R n :
      let p' := eraseBelow k p in
      step (mkWorld p D L R n) (mkWorld p' (forget (fun j => j <? k) D) (lose p p' L) R n)
  | step_slotClosed k p D L R n :
      let p' := (slotClosed k p).1 in
      step (mkWorld p D L R n)
        (mkWorld p' (forget (fun j => (MAX_SLOTS_TO_REMEMBER <? k) && (j =? k - MAX_SLOTS_TO_REMEMBER)) D)
           (lose p p' L) R n)
  | step_stopBelow k p D L R n :
      step (mkWorld p D L R n)
        (mkWorld (set_fetchers (stopFetchingBelowInternal k (mTxSetFetcher p))
                    (stopFetchingBelowInternal k (mQuorumSetFetcher p)) p) D L R (Z.max n k)).

(** ** What every state satisfies *)
Record slot_ok (D : Z -> list SCPEnvelope) (k : Z) (s : SlotEnvelopes) : Prop := {
  ok_processed : NoDup (mProcessedEnvelopes s);
  ok_delivered : Permutation (mProcessedEnvelopes s) (mReadyEnvelopes s ++ D k);
  ok_slot e : e ∈ mProcessedEnvelopes s \/ e ∈ mFetchingEnvelopes s -> env_slot e = k;
  ok_fetching e : e ∈ mFetchingEnvelopes s -> e ∉ mProcessedEnvelopes s /\ e ∉ mDiscardedEnvelopes s }.
Definition slots_ok (D : Z -> list SCPEnvelope) p : Prop :=
  forall k, slot_ok D k (envelopes_at k p).
Definition processed p e : Prop := e ∈ mProcessedEnvelopes (envelopes_at (env_slot e) p).
Definition discarded p e : Prop := e ∈ mDiscardedEnvelopes (envelopes_at (env_slot e) p).
Definition being_fetched p e : Prop := e ∈ mFetchingEnvelopes (envelopes_at (env_slot e) p).
(** [e] waits for each missing item, and for one at least. *)
Definition tracked (L : Item -> Prop) p e : Prop :=
  (forall i, i ∈ items e -> is_cached p i = true \/ waits_for p i e \/ L i) /\
  ((forall i, i ∈ items e -> ~ L i) -> exists i, i ∈ items e /\ waits_for p i e).
Record world_ok (w : World) : Prop := {
  w_slots : slots_ok (w_delivered w) (w_pending w);
  w_sizes : (0 < _max_size (mQsetCache (w_pending w)))%nat /\ (0 < _max_size (mTxSetCache (w_pending w)))%nat;
  w_tracked e : being_fetched (w_pending w) e -> ~ w_refused w e -> w_floor w <= env_slot e ->
    tracked (w_lost w) (w_pending w) e }.

Lemma newWorld_ok : world_ok newWorld.
Proof using.
  split; cbn.
  - intros k. unfold envelopes_at. cbn. rewrite lookup_empty. cbn. split; cbn; try set_solver.
    constructor.
  - split; [unfold QSET_CACHE_SIZE|unfold TXSET_CACHE_SIZE]; lia.
  - intros e He. unfold being_fetched, envelopes_at in He. cbn in He. rewrite lookup_empty in He.
    cbn in He. by apply elem_of_nil in He.
Qed.

(** ** Receiving an envelope *)

(** The caches hold the same items and nobody stops waiting. *)
Definition steady p p' : Prop :=
  (forall i, is_cached p' i = is_cached p i) /\
  (_max_size (mQsetCache p') = _max_size (mQsetCache p) /\ _max_size (mTxSetCache p') = _max_size (mTxSetCache p)) /\
  (forall i e, waits_for p i e -> waits_for p' i e).
#[local] Instance steady_preorder : PreOrder steady.
Proof using.
  split; [done|]. intros p1 p2 p3 (A1 & [B1 C1] & D1) (A2 & [B2 C2] & D2). split; [|split; [split|]].
  - intros i. by rewrite A2. - by rewrite B2. - by rewrite C2. - intros i e H. by apply D2, D1.
Qed.
Definition same_slots p p' : Prop := forall k, envelopes_at k p' = envelopes_at k p.
Lemma envelopes_at_on k j f p :
  envelopes_at k (on_envelopes j f p) = if j =? k then f (envelopes_at k p) else envelopes_at k p.
Proof using.
  unfold envelopes_at, on_envelopes. cbn [set_mEnvelopes mEnvelopes].
  destruct (Z.eqb_spec j k) as [<-|Hn]; [by rewrite lookup_insert_eq|by rewrite lookup_insert_ne].
Qed.
Lemma steady_on j f p : steady p (on_envelopes j f p).
Proof using. done. Qed.
Lemma steady_quorum q node p :
  let p' := (pending_isNodeInQuorum q node p).2 in steady p p' /\ same_slots p p'.
Proof using. unfold pending_isNodeInQuorum. by destruct (lru_get _ _) as [[]|]. Qed.
Lemma steady_touch e p : let p' := (touchFetchCache e p).1 in steady p p' /\ same_slots p p'.
Proof using.
  unfold touchFetchCache.
  set (p1 := match lru_get (qSetHash e) (mQsetCache p) with Some (_, c) => _ | None => p end).
  assert (H1 : steady p p1 /\ same_slots p p1).
  { subst p1. destruct (lru_get _ _) as [[v c]|] eqn:E; [|done]. split; [|done]. split; [|split; [split|done]].
    - intros [[] h]; [|done]. by destruct (lru_get_exists _ h _ _ _ E) as [_ Eh].
    - by destruct (lru_get_exists _ 0 _ _ _ E) as [Em _].
    - done. }
  destruct (getTxSetHashes e) as [hs|]; [|done]. cbn [fst]. destruct H1 as [H1 Hs]. split; [|done].
  etransitivity; [exact H1|]. split; [|split; [split; [done|]|done]].
  - intros [[] h]; [done|]. unfold is_cached. cbn [fst snd set_mTxSetCache mTxSetCache].
    by destruct (touchTxSets_exists (env_slot e) hs (mTxSetCache p1) h) as [_ ->].
  - cbn [set_mTxSetCache mTxSetCache]. by destruct (touchTxSets_exists (env_slot e) hs (mTxSetCache p1) 0) as [-> _].
Qed.
Lemma fetch_all_waiting O env (skip : Hash -> bool) hs f h e :
  let f' := fold_left (fun f h => if skip h then f else fetch O h env f) hs f in
  e ∈ fetchingFor h f' <-> e ∈ fetchingFor h f \/ (e = env /\ h ∈ hs /\ skip h = false).
Proof using.
  revert f. induction hs as [|k hs IH]; intros f; cbn [fold_left].
  { rewrite elem_of_nil. tauto. }
  rewrite IH, elem_of_cons. destruct (skip k) eqn:Ek; [|rewrite fetch_waiting]; split.
  - tauto.
  - intros [?|(? & [->|?] & ?)]; [tauto|congruence|tauto].
  - intros [[?|[-> ->]]|?]; tauto.
  - intros [?|(? & [->|?] & ?)]; tauto.
Qed.
Lemma steady_startFetch O env p :
  let p' := startFetch O env p in
  steady p p' /\ same_slots p p' /\ forall i, i ∈ items env -> is_cached p i = true \/ waits_for p' i env.
Proof using.
  intros p'. split; [split; [done|split; [done|]]|split; [done|]].
  - intros [[] h] e; unfold waits_for; cbn; intros H.
    + destruct (lru_exists _ _); [done|]. apply fetch_waiting. by left.
    + apply (fetch_all_waiting O env (fun h => lru_exists h (mTxSetCache p))). by left.
  - intros i [->|Hi]%elem_of_cons; unfold waits_for, is_cached; cbn.
    + destruct (lru_exists _ _); [by left|right]. apply fetch_waiting. by right.
    + apply list_elem_of_fmap in Hi as (h & -> & Hh). cbn. destruct (lru_exists h _) eqn:E; [by left|right].
      apply (fetch_all_waiting O env (fun h => lru_exists h (mTxSetCache p))). by right.
Qed.
Lemma isFullyFetched_items e p :
  isFullyFetched e p = true <-> forall i, i ∈ items e -> is_cached p i = true.
Proof using.
  unfold isFullyFetched, items. rewrite andb_true_iff, forallb_forall. split.
  - intros [Hq Ht] i [->|Hi]%elem_of_cons; [done|]. apply list_elem_of_fmap in Hi as (h & -> & Hh).
    apply Ht. by apply list_elem_of_In.
  - intros H. split; [apply (H (true, _)); set_solver|]. intros h Hh. apply (H (false, h)).
    apply elem_of_cons. right. apply list_elem_of_fmap. exists h. split; [done|]. by apply list_elem_of_In.
Qed.

Definition add_fetching env (s : SlotEnvelopes) : SlotEnvelopes :=
  mkSlotEnvelopes (mProcessedEnvelopes s) (mDiscardedEnvelopes s) (insert_env env (mFetchingEnvelopes s))
    (mReadyEnvelopes s).
Definition make_ready env (s : SlotEnvelopes) : SlotEnvelopes :=
  mkSlotEnvelopes (mProcessedEnvelopes s ++ [env]) (mDiscardedEnvelopes s)
    (without_env env (mFetchingEnvelopes s)) (mReadyEnvelopes s ++ [env]).
Lemma without_insert env l : without_env env (insert_env env l) = without_env env l.
Proof using.
  unfold insert_env. destruct (has_env env l); [done|]. unfold without_env. rewrite List.filter_app. cbn.
  by rewrite bool_decide_eq_true_2, app_nil_r.
Qed.
(** What receiving an envelope does to its slot. *)
Definition received_as env p (st : EnvelopeStatus) p' : Prop :=
  let s := envelopes_at (env_slot env) p in
  let changed f := forall k, envelopes_at k p' = if env_slot env =? k then f (envelopes_at k p) else envelopes_at k p in
  steady p p' /\
  match st with
  | ENVELOPE_STATUS_DISCARDED => same_slots p p'
  | ENVELOPE_STATUS_PROCESSED => same_slots p p' /\ env ∉ mFetchingEnvelopes s /\ env ∈ mProcessedEnvelopes s
  | ENVELOPE_STATUS_FETCHING =>
      env ∉ mDiscardedEnvelopes s /\ (exists i, i ∈ items env /\ is_cached p i = false) /\
      (env ∈ mFetchingEnvelopes s \/ env ∉ mProcessedEnvelopes s /\
         forall i, i ∈ items env -> is_cached p i = true \/ waits_for p' i env) /\ changed (add_fetching env)
  | ENVELOPE_STATUS_READY =>
      env ∉ mDiscardedEnvelopes s /\ (env ∈ mFetchingEnvelopes s \/ env ∉ mProcessedEnvelopes s) /\
      (forall i, i ∈ items env -> is_cached p i = true) /\ changed (make_ready env)
  end.
Lemma received_evaluated env p pA :
  let s := envelopes_at (env_slot env) p in
  steady p pA -> env ∉ mDiscardedEnvelopes s ->
  (forall k, envelopes_at k pA = if env_slot env =? k then add_fetching env (envelopes_at k p) else envelopes_at k p) ->
  (env ∈ mFetchingEnvelopes s \/ env ∉ mProcessedEnvelopes s /\
     forall i, i ∈ items env -> is_cached p i = true \/ waits_for pA i env) ->
  let '(st, p') :=
    if isFullyFetched env pA then
      (ENVELOPE_STATUS_READY, envelopeReady env
        (on_envelopes (env_slot env)
           (fun s => mkSlotEnvelopes (mProcessedEnvelopes s ++ [env]) (mDiscardedEnvelopes s)
                       (without_env env (mFetchingEnvelopes s)) (mReadyEnvelopes s)) pA))
    else (ENVELOPE_STATUS_FETCHING, pA) in
  received_as env p st p'.
Proof using.
  intros s Hst Hnd Hadd Hold. destruct (isFullyFetched env pA) eqn:E.
  - split; [exact Hst|]. split; [done|]. split; [tauto|]. split.
    + intros i Hi. destruct Hst as [<- _]. by apply (proj1 (isFullyFetched_items env pA) E).
    + intros k. unfold envelopeReady. rewrite envelopes_at_on.
      change (envelopes_at k (add_broadcast env ?x)) with (envelopes_at k x).
      rewrite envelopes_at_on, Hadd. destruct (env_slot env =? k); [|done].
      unfold make_ready, add_fetching.
      cbn [mProcessedEnvelopes mDiscardedEnvelopes mFetchingEnvelopes mReadyEnvelopes]. by rewrite without_insert.
  - split; [exact Hst|]. split; [done|]. split; [|split; [exact Hold|exact Hadd]].
    apply not_true_iff_false in E. rewrite isFullyFetched_items in E.
    destruct (existsb (fun i => negb (is_cached p i)) (items env)) eqn:Em.
    + apply existsb_exists in Em as (i & Hi & Hc). exists i. split; [by apply list_elem_of_In|].
      by destruct (is_cached p i).
    + destruct E. intros i Hi. destruct Hst as [-> _]. apply not_true_iff_false in Em.
      destruct (is_cached p i) eqn:Ec; [done|]. destruct Em. apply existsb_exists. exists i.
      split; [by apply list_elem_of_In|]. by rewrite Ec.
Qed.
Lemma recv_spec O q env p :
  let '(st, p') := pending_recvSCPEnvelope O q env p in received_as env p st p'.
Proof using.
  unfold pending_recvSCPEnvelope. pose proof (steady_quorum q (nodeID (statement env)) p) as H1. cbv zeta in H1.
  destruct (pending_isNodeInQuorum q _ p) as [inQ p1]. cbn [snd] in H1. destruct H1 as [H1 S1].
  destruct inQ; cbn [negb]; [|done]. destruct (isDiscarded env p1) eqn:Ed; [done|].
  pose proof (steady_touch env p1) as H2. cbv zeta in H2.
  destruct (touchFetchCache env p1) as [p2 readable]. cbn [fst] in H2. destruct H2 as [H2 S2].
  assert (H02 : steady p p2) by (by etransitivity). assert (S02 : same_slots p p2) by (intros k; by rewrite S2).
  destruct readable; cbn [negb]; [|done].
  set (slot := env_slot env) in *. set (p3 := on_envelopes slot id p2).
  assert (H3 : steady p p3) by exact H02.
  assert (S3 : same_slots p p3).
  { intros k. unfold p3. rewrite envelopes_at_on, S02. by destruct (slot =? k). }
  rewrite S3. set (s := envelopes_at slot p).
  assert (Hnd : env ∉ mDiscardedEnvelopes s).
  { unfold isDiscarded in Ed. unfold s. rewrite <- S1. unfold envelopes_at. fold slot in Ed.
    destruct (mEnvelopes p1 !! slot); [by apply bool_decide_eq_false in Ed|]. cbn. apply not_elem_of_nil. }
  destruct (has_env env (mFetchingEnvelopes s)) eqn:Ef; cbn [negb andb].
  - apply bool_decide_eq_true in Ef. apply received_evaluated; [done|done| |by left].
    intros k. rewrite S3. unfold slot. destruct (Z.eqb_spec (env_slot env) k) as [<-|]; [|done].
    fold slot s. unfold add_fetching, insert_env, has_env. rewrite bool_decide_eq_true_2 by done. by destruct s.
  - apply bool_decide_eq_false in Ef.
    destruct (has_env env (mProcessedEnvelopes s)) eqn:Ep; [apply bool_decide_eq_true in Ep; by split; [exact H3|split]|].
    apply bool_decide_eq_false in Ep.
    match goal with |- context [startFetch O env ?x] => set (p4 := x) end.
    destruct (steady_startFetch O env p4) as (H5 & S5 & W5).
    apply received_evaluated; [by transitivity p4|done| |right; split; [done|]].
    + intros k. rewrite S5. unfold p4. rewrite envelopes_at_on, S3. done.
    + intros i Hi. destruct (W5 i Hi) as [Hc|Hw]; [left|by right]. destruct H3 as [E _].
      change (is_cached p4 i) with (is_cached p3 i) in Hc. by rewrite <- E.
Qed.

Lemma herder_spec F O q env p :
  let r := herder_recvSCPEnvelope F O q env p in received_as env p r.1 r.2.
Proof using.
  unfold herder_recvSCPEnvelope. destruct (negb _); [done|].
  pose proof (recv_spec O q env p) as H. by destruct (pending_recvSCPEnvelope O q env p).
Qed.
Lemma insert_env_In e env l : e ∈ insert_env env l <-> e = env \/ e ∈ l.
Proof using.
  unfold insert_env, has_env. destruct (bool_decide_reflect (env ∈ l)) as [H|H].
  - split; [by right|intros [->|]; done].
  - rewrite elem_of_app, list_elem_of_singleton. tauto.
Qed.
Lemma without_env_In e env l : e ∈ without_env env l <-> e ∈ l /\ e <> env.
Proof using. unfold without_env. by rewrite !list_elem_of_In, filter_In, negb_true_iff, bool_decide_eq_false. Qed.

Lemma add_fetching_ok D env s :
  slot_ok D (env_slot env) s -> env ∉ mDiscardedEnvelopes s ->
  (env ∈ mFetchingEnvelopes s \/ env ∉ mProcessedEnvelopes s) -> slot_ok D (env_slot env) (add_fetching env s).
Proof using.
  intros [H1 H2 H3 H4] Hnd Hf. split; cbn; [done|done| |].
  - intros e [He|[->|He]%insert_env_In]; [|done|]; apply H3; auto.
  - intros e [->|He]%insert_env_In; [|by apply H4]. split; [|done]. destruct Hf as [Hf|]; [|done]. by apply H4.
Qed.
Lemma make_ready_ok D env s :
  slot_ok D (env_slot env) s -> env ∉ mDiscardedEnvelopes s ->
  (env ∈ mFetchingEnvelopes s \/ env ∉ mProcessedEnvelopes s) -> slot_ok D (env_slot env) (make_ready env s).
Proof using.
  intros [H1 H2 H3 H4] Hnd Hf.
  assert (Hn : env ∉ mProcessedEnvelopes s) by (destruct Hf as [Hf|]; [by apply H4|done]).
  split; cbn.
  - apply NoDup_app. split; [done|]. split; [|apply NoDup_singleton].
    intros e He ->%list_elem_of_singleton. done.
  - rewrite H2, <- !app_assoc. apply Permutation_app_head, Permutation_app_comm.
  - intros e [[He| ->%list_elem_of_singleton]%elem_of_app|[He _]%without_env_In]; [|done|]; apply H3; auto.
  - intros e [He Hne]%without_env_In. destruct (H4 e He) as [Hp Hd]. split; [|done].
    intros [?| ->%list_elem_of_singleton]%elem_of_app; done.
Qed.

(** Receiving [env] keeps the world in order, when all that may be wrong before
    is that [env] itself waits for nothing. *)
Lemma receive_ok env st p p' D (L : Item -> Prop) (R R' : SCPEnvelope -> Prop) n :
  slots_ok D p -> ((0 < _max_size (mQsetCache p))%nat /\ (0 < _max_size (mTxSetCache p))%nat) ->
  (forall e, being_fetched p e -> ~ R e -> n <= env_slot e ->
     (forall i, i ∈ items e -> is_cached p i = true \/ waits_for p i e \/ L i) /\
     (e <> env -> tracked L p e)) ->
  received_as env p st p' -> (forall e, R e -> R' e) ->
  (st = ENVELOPE_STATUS_DISCARDED -> being_fetched p env -> ~ R' env -> n <= env_slot env -> tracked L p env) ->
  world_ok (mkWorld p' D L R' n).
Proof using.
  intros Hslots Hsizes Htr [[Hc [[Hm1 Hm2] Hw]] Hst] HR Hdis.
  assert (Hmono : forall e, tracked L p e -> tracked L p' e).
  { intros e [Ha Hb]. split.
    - intros i Hi. destruct (Ha i Hi) as [H|[H|H]]; [left; by rewrite Hc|right; left; by apply Hw|by right; right].
    - intros Hl. destruct (Hb Hl) as (i & Hi & H). exists i. split; [done|by apply Hw]. }
  assert (Hother : forall e, e <> env -> being_fetched p e -> ~ R' e -> n <= env_slot e -> tracked L p' e).
  { intros e Hne Hf Hr Hn. apply Hmono. apply (Htr e Hf); [intros ?; apply Hr; by apply HR|done..]. }
  split; cbn [w_pending w_delivered w_lost w_refused w_floor].
  - (* slots *)
    intros k. specialize (Hslots k). destruct st.
    + rewrite Hst. done.
    + destruct Hst as (Hnd & _ & Hf & Hch). rewrite Hch. destruct (Z.eqb_spec (env_slot env) k) as [<-|]; [|done].
      apply add_fetching_ok; [done..|tauto].
    + destruct Hst as (Hnd & Hf & _ & Hch). rewrite Hch. destruct (Z.eqb_spec (env_slot env) k) as [<-|]; [|done].
      by apply make_ready_ok.
    + destruct Hst as [Hs _]. by rewrite Hs.
  - by rewrite Hm1, Hm2.
  - intros e Hf Hr Hn. destruct (decide (e = env)) as [->|Hne].
    + (* the envelope itself *)
      destruct st.
      * unfold being_fetched in Hf. rewrite Hst in Hf.
        by apply Hmono, Hdis.
      * destruct Hst as (_ & (i & Hi & Hmiss) & Hnew & _).
        assert (Ha : forall i, i ∈ items env -> is_cached p' i = true \/ waits_for p' i env \/ L i).
        { intros j Hj. rewrite Hc. destruct Hnew as [Hold|[_ Hnew]]; [|destruct (Hnew j Hj); auto].
          destruct (Htr env Hold) as [Ht _]; [intros ?; apply Hr; by apply HR|done|].
          destruct (Ht j Hj) as [?|[?|?]]; [by left|right; left; by apply Hw|by right; right]. }
        split; [done|]. intros Hl. exists i. split; [done|].
        destruct (Ha i Hi) as [H|[H|H]]; [rewrite Hc in H; congruence|done|by destruct (Hl i)].
      * destruct Hst as (_ & _ & _ & Hch). unfold being_fetched in Hf. rewrite Hch, Z.eqb_refl in Hf.
        cbn in Hf. by apply without_env_In in Hf as [_ Hf].
      * destruct Hst as (Hs & Hst & _). unfold being_fetched in Hf. by rewrite Hs in Hf.
    + (* the others *)
      apply Hother; [done| |done|done]. unfold being_fetched in *. destruct st.
      * by rewrite Hst in Hf.
      * destruct Hst as (_ & _ & _ & Hch). rewrite Hch in Hf. destruct (env_slot env =? env_slot e); [|done].
        cbn in Hf. by apply insert_env_In in Hf as [->|Hf].
      * destruct Hst as (_ & _ & _ & Hch). rewrite Hch in Hf. destruct (env_slot env =? env_slot e); [|done].
        cbn in Hf. by apply without_env_In in Hf as [Hf _].
      * destruct Hst as [Hs _]. by rewrite Hs in Hf.
Qed.

(** ** The other steps *)
Definition keeps_world p p' D' (L L' : Item -> Prop) n' : Prop :=
  slots_ok D' p' /\
  (_max_size (mQsetCache p') = _max_size (mQsetCache p) /\ _max_size (mTxSetCache p') = _max_size (mTxSetCache p)) /\
  (forall i, is_cached p i = true -> is_cached p' i = true \/ L' i) /\ (forall i, L i -> L' i) /\
  forall e, being_fetched p' e -> being_fetched p e /\ forall i, n' <= env_slot e -> waits_for p i e -> waits_for p' i e.
Lemma frame_ok p p' D D' (L L' : Item -> Prop) R n n' :
  world_ok (mkWorld p D L R n) -> n <= n' -> keeps_world p p' D' L L' n' -> world_ok (mkWorld p' D' L' R n').
Proof using.
  intros [Hs Hm Ht] Hn (Hs' & [Hm1 Hm2] & Hc & HL & Hf). cbn in *.
  split; cbn; [done|by rewrite Hm1, Hm2|]. intros e He Hr Hfl. destruct (Hf e He) as [He0 Hw].
  destruct (Ht e He0 Hr) as [Ha Hb]; [lia|]. split.
  - intros i Hi. destruct (Ha i Hi) as [H|[H|H]].
    + destruct (Hc i H); auto.
    + right. left. by apply Hw.
    + right. right. by apply HL.
  - intros Hl. destruct Hb as (i & Hi & H); [intros i Hi ?; apply (Hl i Hi); by apply HL|].
    exists i. split; [done|]. by apply Hw.
Qed.
Lemma lose_cached p p' L i : is_cached p i = true -> is_cached p' i = true \/ lose p p' L i.
Proof using. intros H. destruct (is_cached p' i) eqn:E; [by left|right; right; by split]. Qed.
Lemma lose_lost p p' (L : Item -> Prop) i : L i -> lose p p' L i.
Proof using. by left. Qed.
(** A step that only touches fetchers, without taking an envelope from them. *)
Lemma fetcher_keeps kind f p D L n :
  slots_ok D p -> (forall h, fetchingFor h f = fetchingFor h (fetcher_of kind p)) ->
  keeps_world p (with_fetcher kind f p) D L L n.
Proof using.
  intros Hs Hf. destruct kind; (split; [done|split; [done|split; [by left|split; [done|]]]]);
    intros e He; (split; [done|]); intros [[] h] _; unfold waits_for; cbn in *; by rewrite ?Hf.
Qed.
Lemma cache_keeps p p' D L n :
  slots_ok D p -> mEnvelopes p' = mEnvelopes p ->
  mTxSetFetcher p' = mTxSetFetcher p -> mQuorumSetFetcher p' = mQuorumSetFetcher p ->
  _max_size (mQsetCache p') = _max_size (mQsetCache p) -> _max_size (mTxSetCache p') = _max_size (mTxSetCache p) ->
  keeps_world p p' D L (lose p p' L) n.
Proof using.
  intros Hs He Hf1 Hf2 Hm1 Hm2.
  assert (Hat : forall k, envelopes_at k p' = envelopes_at k p) by (intros k; unfold envelopes_at; by rewrite He).
  split; [intros k; by rewrite Hat|]. split; [done|]. split; [apply lose_cached|]. split; [apply lose_lost|].
  intros e. unfold being_fetched. rewrite Hat. split; [done|]. intros [[] h] _; unfold waits_for; cbn; by rewrite ?Hf1, ?Hf2.
Qed.
(** The slots of [P] are forgotten. *)
Lemma new_slot_ok k : slot_ok (fun _ => []) k newSlotEnvelopes.
Proof using.
  split; cbn; [constructor|done| |]; intros e; rewrite ?elem_of_nil; tauto.
Qed.
Lemma slot_ok_ext D D' k s : D k = D' k -> slot_ok D k s -> slot_ok D' k s.
Proof using. intros E [H1 H2 H3 H4]. split; [done|by rewrite <- E|done|done]. Qed.
Lemma forget_keeps (P : Z -> bool) p p' D L n :
  slots_ok D p -> (forall k, envelopes_at k p' = if P k then newSlotEnvelopes else envelopes_at k p) ->
  mTxSetFetcher p' = mTxSetFetcher p -> mQuorumSetFetcher p' = mQuorumSetFetcher p ->
  _max_size (mQsetCache p') = _max_size (mQsetCache p) -> _max_size (mTxSetCache p') = _max_size (mTxSetCache p) ->
  keeps_world p p' (forget P D) L (lose p p' L) n.
Proof using.
  intros Hs He Hf1 Hf2 Hm1 Hm2. split.
  { intros k. rewrite He. destruct (P k) eqn:EP.
    - eapply slot_ok_ext; [|apply new_slot_ok]. unfold forget. by rewrite EP.
    - eapply slot_ok_ext; [|apply Hs]. unfold forget. by rewrite EP. }
  split; [done|]. split; [apply lose_cached|]. split; [apply lose_lost|].
  intros e. unfold being_fetched. rewrite He. destruct (P _); [cbn; by rewrite elem_of_nil|].
  split; [done|]. intros [[] h] _; unfold waits_for; cbn; by rewrite ?Hf1, ?Hf2.
Qed.
Lemma eraseBelow_at j k p :
  envelopes_at k (eraseBelow j p) = if k <? j then newSlotEnvelopes else envelopes_at k p.
Proof using.
  unfold eraseBelow, envelopes_at. cbn. destruct (Z.ltb_spec k j).
  - rewrite map_lookup_filter_None_2; [done|]. right. intros s _ Hn. cbn in Hn. lia.
  - destruct (mEnvelopes p !! k) as [s|] eqn:E.
    + rewrite (map_lookup_filter_Some_2 _ _ k s); [done|done|]. cbn. lia.
    + rewrite map_lookup_filter_None_2; [done|]. by left.
Qed.
Lemma slotClosed_at j k p :
  envelopes_at k (slotClosed j p).1 =
    if (MAX_SLOTS_TO_REMEMBER <? j) && (k =? j - MAX_SLOTS_TO_REMEMBER) then newSlotEnvelopes else envelopes_at k p.
Proof using.
  unfold slotClosed, envelopes_at. destruct (MAX_SLOTS_TO_REMEMBER <? j); [|done]. cbn [andb fst set_mTxSetCache set_mEnvelopes mEnvelopes set_mNodesInQuorum].
  destruct (Z.eqb_spec k (j - MAX_SLOTS_TO_REMEMBER)) as [->|]; [by rewrite lookup_delete_eq|by rewrite lookup_delete_ne].
Qed.

Lemma keeps_world_trans p1 p2 p3 D (L : Item -> Prop) n :
  keeps_world p1 p2 D L L n -> keeps_world p2 p3 D L L n -> keeps_world p1 p3 D L L n.
Proof using.
  intros (_ & [A1 B1] & C1 & _ & F1) (S2 & [A2 B2] & C2 & _ & F2). split; [done|].
  split; [split; congruence|]. split; [|split; [done|]].
  - intros i Hi. destruct (C1 i Hi) as [H|]; [by apply C2|by right].
  - intros e He. destruct (F2 e He) as [H2 W2]. destruct (F1 e H2) as [H1 W1]. split; [done|].
    intros i Hn Hw. by apply W2, W1.
Qed.
Lemma stopFetches_waiting env hs f h e :
  e <> env -> e ∈ fetchingFor h f -> e ∈ fetchingFor h (fold_left (fun f h => stopFetch h env f) hs f).
Proof using.
  intros Hn. revert f. induction hs as [|k hs IH]; intros f He; cbn [fold_left]; [done|].
  apply IH, stopFetch_waiting. split; [done|]. by intros [_ ->].
Qed.
Lemma discard_keeps env p D (L : Item -> Prop) n :
  slots_ok D p -> keeps_world p (discardSCPEnvelope env p) D L L n.
Proof using.
  intros Hs. unfold discardSCPEnvelope. destruct (isDiscarded env p).
  { split; [done|]. split; [done|]. split; [by left|]. split; [done|]. by intros e He. }
  set (f := fun s => _). split; [|split; [done|split; [by left|split; [done|]]]].
  - intros k. change (envelopes_at k (pending_stopFetch env ?x)) with (envelopes_at k x).
    rewrite envelopes_at_on. destruct (_ =? k); [|apply Hs]. destruct (Hs k) as [H1 H2 H3 H4].
    split; cbn; [done|done| |].
    + intros e [He|[He _]%without_env_In]; apply H3; auto.
    + intros e [He Hne]%without_env_In. destruct (H4 e He) as [Hp Hd]. split; [done|].
      by intros [->|?]%insert_env_In.
  - intros e. unfold being_fetched at 1.
    change (envelopes_at ?k (pending_stopFetch env ?x)) with (envelopes_at k x). rewrite envelopes_at_on.
    intros He. assert (Hne : e <> env /\ being_fetched p e).
    { destruct (Z.eqb_spec (env_slot env) (env_slot e)) as [E|E]; [|split; [by intros ->|done]].
      cbn in He. by apply without_env_In in He as [? ?]. }
    destruct Hne as [Hne Hf]. split; [done|]. intros [[] h] _; unfold waits_for; cbn; intros Hw.
    + apply stopFetch_waiting. split; [done|]. by intros [_ ->].
    + by apply stopFetches_waiting.
Qed.
Lemma discards_keep h p D (L : Item -> Prop) n :
  slots_ok D p -> keeps_world p (discardSCPEnvelopesWithQSet h p) D L L n.
Proof using.
  unfold discardSCPEnvelopesWithQSet. generalize (fetchingFor h (mQuorumSetFetcher p)) as l.
  intros l. revert p. induction l as [|env l IH]; intros p Hs; cbn [fold_left].
  { split; [done|]. split; [done|]. split; [by left|]. split; [done|]. by intros e He. }
  eapply keeps_world_trans; [by apply (discard_keeps env p D L n)|]. apply IH.
  by destruct (discard_keeps env p D L n Hs) as [? _].
Qed.
Lemma popFrom_Some k slots j e :
  popFrom k slots = Some (j, e) -> exists s, (j, s) ∈ slots /\ last (mReadyEnvelopes s) = Some e.
Proof using.
  induction slots as [|[j' s] slots IH]; cbn [popFrom]; [done|]. destruct (_ <=? _); [|done].
  destruct (last (mReadyEnvelopes s)) eqn:El; [|intros H; destruct (IH H) as (s' & ? & ?); exists s'; set_solver].
  intros [= <- <-]. exists s. split; [set_solver|done].
Qed.
Lemma pop_spec k e p p' :
  pending_pop k p = Some (e, p') -> exists j s,
    mEnvelopes p !! j = Some s /\ last (mReadyEnvelopes s) = Some e /\
    p' = on_envelopes j (fun s => mkSlotEnvelopes (mProcessedEnvelopes s) (mDiscardedEnvelopes s)
                                    (mFetchingEnvelopes s) (removelast (mReadyEnvelopes s))) p.
Proof using.
  unfold pending_pop. destruct (popFrom _ _) as [[j e0]|] eqn:E; [|done]. cbn. intros [= -> <-].
  apply popFrom_Some in E as (s & Hs & El). exists j, s. split; [|done].
  unfold in_key_order in Hs. rewrite insertion_sort_perm in Hs. by apply elem_of_map_to_list in Hs.
Qed.
Lemma pop_keeps k e p p' D (L : Item -> Prop) n :
  slots_ok D p -> pending_pop k p = Some (e, p') -> keeps_world p p' (deliver e D) L L n.
Proof using.
  intros Hs (j & s & Hj & El & ->)%pop_spec.
  assert (Eat : envelopes_at j p = s) by (unfold envelopes_at; by rewrite Hj).
  pose proof (Hs j) as Hok. rewrite Eat in Hok. apply last_removelast in El.
  assert (Eslot : env_slot e = j).
  { apply (ok_slot _ _ _ Hok). left. rewrite (ok_delivered _ _ _ Hok), El. set_solver. }
  split; [|split; [done|split; [by left|split; [done|]]]].
  - intros i. rewrite envelopes_at_on. destruct (Z.eqb_spec j i) as [<-|Hn].
    + rewrite Eat. destruct Hok as [H1 H2 H3 H4]. split; cbn; [done| |done|done].
      unfold deliver. rewrite Eslot, Z.eqb_refl. rewrite H2, El at 1. rewrite <- app_assoc.
      apply Permutation_app_head, Permutation_app_comm.
    + eapply slot_ok_ext; [|apply Hs]. unfold deliver. by rewrite Eslot, (proj2 (Z.eqb_neq j i)).
  - intros e0. unfold being_fetched. rewrite envelopes_at_on. split; [by destruct (j =? env_slot e0)|done].
Qed.

Lemma with_fetcher_tracked kind f p e (L : Item -> Prop) i env :
  recv_pop i.2 (fetcher_of i.1 p) = Some (env, f) -> kind = i.1 -> is_cached p i = true \/ L i ->
  tracked L p e ->
  (forall j, j ∈ items e -> is_cached (with_fetcher kind f p) j = true \/ waits_for (with_fetcher kind f p) j e \/ L j) /\
  (e <> env -> tracked L (with_fetcher kind f p) e).
Proof using.
  intros Hpop -> Hi [Ha Hb]. set (p1 := with_fetcher i.1 f p).
  assert (Hc : forall j, is_cached p1 j = is_cached p j) by (intros j; unfold p1; by destruct i.1).
  assert (Hw : forall j, waits_for p j e -> waits_for p1 j e \/ (j = i /\ e = env)).
  { intros [k h] H. unfold waits_for, p1 in *. destruct i as [k0 h0]. cbn [fst snd] in *.
    destruct (decide (k = k0)) as [->|Hn].
    - destruct (recv_pop_waiting h0 _ env f h Hpop) as [_ Hr].
      assert (Hf : fetchingFor h (fetcher_of k0 (with_fetcher k0 f p)) = fetchingFor h f) by by destruct k0.
      rewrite Hf. destruct (Hr e H) as [?|[-> ->]]; auto.
    - left. by destruct k, k0. }
  assert (Ha' : forall j, j ∈ items e -> is_cached p1 j = true \/ waits_for p1 j e \/ L j).
  { intros j Hj. rewrite Hc. destruct (Ha j Hj) as [H|[H|H]]; [by left| |by right; right].
    destruct (Hw j H) as [?|[-> _]]; [by right; left|]. destruct Hi; auto. }
  split; [exact Ha'|]. intros Hne. split; [exact Ha'|]. intros Hl. destruct (Hb Hl) as (j & Hj & H).
  exists j. split; [done|]. by destruct (Hw j H) as [?|[_ ?]].
Qed.
Lemma step_ok w w' : step w w' -> world_ok w -> world_ok w'.
Proof using.
  intros Hst Hok. pose proof Hok as [Hs Hm Ht].
  destruct Hst; cbn [w_pending w_delivered w_lost w_refused w_floor] in Hs, Hm, Ht.
  - eapply receive_ok; [exact Hs|exact Hm| |apply herder_spec|done|].
    + intros e He Hr Hn. by split; [apply (Ht e He Hr Hn)|intros _; apply (Ht e He Hr Hn)].
    + intros _. apply Ht.
  - eapply frame_ok; [exact Hok|lia|]. by apply cache_keeps.
  - eapply frame_ok; [exact Hok|lia|]. by apply cache_keeps.
  - assert (Hpop := H0). eapply (receive_ok env _ (with_fetcher i.1 f p)); [| | |apply herder_spec|by left|].
    + intros k. specialize (Hs k). by destruct i.1.
    + by destruct i.1.
    + intros e He Hr Hn. assert (He' : being_fetched p e) by by destruct i.1.
      by apply (with_fetcher_tracked _ f p e L i env Hpop), (Ht e He' Hr Hn).
    + intros Hst _ Hr _. destruct Hr. by right.
  - eapply frame_ok; [exact Hok|lia|]. apply fetcher_keeps; [done|]. intros h. apply done_waiting.
  - eapply frame_ok; [exact Hok|lia|]. by apply discards_keep.
  - eapply frame_ok; [exact Hok|lia|]. apply fetcher_keeps; [done|]. intros h. apply doesntHave_waiting.
  - eapply frame_ok; [exact Hok|lia|]. apply fetcher_keeps; [done|]. intros h. apply timeout_waiting.
  - eapply frame_ok; [exact Hok|lia|]. by eapply pop_keeps.
  - eapply frame_ok; [exact Hok|lia|]. unfold pending_getQSet in H.
    destruct (lru_get h (mQsetCache p)) as [[v c]|] eqn:E; [|done]. cbn in H. injection H as <- <-.
    split; [done|]. split; [split; [|done]; by destruct (lru_get_exists _ 0 _ _ _ E)|].
    split; [|split; [done|by intros e He]]. intros [[] h'] Hc; left; [|done].
    destruct (lru_get_exists _ h' _ _ _ E) as [_ Eh]. exact (eq_trans Eh Hc).
  - eapply frame_ok; [exact Hok|lia|]. unfold pending_getTxSet in H.
    destruct (lru_get h (mTxSetCache p)) as [[v c]|] eqn:E; [|done]. cbn in H. injection H as <- <-.
    split; [done|]. split; [split; [done|]; by destruct (lru_get_exists _ 0 _ _ _ E)|].
    split; [|split; [done|by intros e He]]. intros [[] h'] Hc; left; [done|].
    destruct (lru_get_exists _ h' _ _ _ E) as [_ Eh]. exact (eq_trans Eh Hc).
  - eapply frame_ok; [exact Hok|lia|]. apply forget_keeps; try done. intros k'. apply eraseBelow_at.
  - eapply frame_ok; [exact Hok|lia|]. apply forget_keeps; try done; [intros k'; apply slotClosed_at| | | |];
      unfold p', slotClosed; by destruct (MAX_SLOTS_TO_REMEMBER <? k).
  - eapply frame_ok; [exact Hok|lia|]. split; [done|split; [done|split; [by left|split; [done|]]]].
    intros e He. split; [done|]. intros [[] h] Hn; unfold waits_for; cbn; rewrite stopBelow_waiting; (split; [done|lia]).
Qed.

(** C14. Whatever is received, fetched, evicted, discarded and closed, and in
    whatever order, the envelopes of a slot are those handed to SCP and those
    ready to be, each once, so that SCP gets an envelope at most once as long
    as its slot is remembered; an envelope being fetched is neither processed nor
    discarded.  One becomes ready only if it was neither and all that it refers
    to is cached.  And none is forgotten: as long as no item it refers to was evicted
    from a cache, it was not turned down when an item arrived, and its slot is not
    below those for which fetching stopped, an envelope being fetched waits for
    every item that is missing - and for at least one that is missing or about to
    be announced to it. *)
Theorem envelopes_safe w :
  rtc step newWorld w ->
  let p := w_pending w in
  (forall k, let s := envelopes_at k p in
     NoDup (mProcessedEnvelopes s) /\
     Permutation (mProcessedEnvelopes s) (mReadyEnvelopes s ++ w_delivered w k) /\
     (forall e, e ∈ mProcessedEnvelopes s \/ e ∈ mFetchingEnvelopes s -> env_slot e = k) /\
     forall e, e ∈ mFetchingEnvelopes s -> e ∉ mProcessedEnvelopes s /\ e ∉ mDiscardedEnvelopes s) /\
  (forall F O q e, (herder_recvSCPEnvelope F O q e p).1 = ENVELOPE_STATUS_READY ->
     ~ processed p e /\ ~ discarded p e /\ forall i, i ∈ items e -> is_cached p i = true) /\
  forall e, being_fetched p e -> ~ w_refused w e -> w_floor w <= env_slot e ->
    (forall i, i ∈ items e -> ~ w_lost w i) ->
    (forall i, i ∈ items e -> is_cached p i = true \/ waits_for p i e) /\
    exists i, i ∈ items e /\ waits_for p i e.
Proof using.
  intros Hr p. assert (Hok : world_ok w).
  { assert (H : forall w0, rtc step w0 w -> world_ok w0 -> world_ok w)
      by (induction 1 as [|w0 w1 w2 Hst _ IH]; [done|]; intros Hok; by apply IH, (step_ok _ _ Hst)).
    by apply (H newWorld), newWorld_ok. }
  destruct Hok as [Hs _ Ht]. split; [|split].
  - intros k s. by destruct (Hs k).
  - intros F O q e Hst. destruct (herder_spec F O q e p) as [_ Hre]. rewrite Hst in Hre.
    destruct Hre as (Hd & Hp & Hc & _). split; [|done].
    destruct Hp as [Hp|]; [|done]. destruct (Hs (env_slot e)) as [_ _ _ H4]. by apply H4.
  - intros e He Hn Hfl Hl. destruct (Ht e He Hn Hfl) as [Ha Hb]. split; [|by apply Hb].
    intros i Hi. destruct (Ha i Hi) as [?|[?|?]]; [by left|by right|by destruct (Hl i)].
Qed.
End Steps.
