(* ===== verification/EnvelopeDelivery.v ===== *)
(** What happens when an item arrives that envelopes wait for
    ([PendingEnvelopes::recvTxSet] and [recvSCPQuorumSet]), and the theorems on
    envelopes at work. *)

From S2P Require Import Prelude Types Sorting OfferOrder LedgerTxn LedgerState TransactionUtils OfferExchange Operations Payments ManageOffers Transactions TxSets LedgerClose.
From S2P Require Import TrimValid Upgrades Quorums QuorumSearch Ballots SlotState BallotProtocol Nomination HerderSCPDriver Envelopes EnvelopeFacts Extraction.

Section Arrival.
Context `{Ex : HerderExternals}.
Implicit Types (p : PendingEnvelopes) (e env : SCPEnvelope) (i : Item).

(** ** An item arrives *)
Lemma fetch_other O k env f h : k <> h -> fetchingFor h (fetch O k env f) = fetchingFor h f.
Proof using.
  intros Hn. unfold fetch, ask. destruct (mTrackers f !! k); rewrite fetchingFor_insert;
    destruct (decide (k = h)); try done; by apply fetchingFor_asked.
Qed.
(** Nobody starts to wait for an item that is there. *)
Definition unchanged_for i p p' : Prop :=
  fetchingFor i.2 (fetcher_of i.1 p') = fetchingFor i.2 (fetcher_of i.1 p).
Lemma startFetch_cached O env p i : is_cached p i = true -> unchanged_for i p (startFetch O env p).
Proof using.
  unfold unchanged_for. destruct i as [[] h]; unfold is_cached; cbn [fst snd]; intros Hc.
  - unfold startFetch. cbn. destruct (lru_exists (qSetHash env) _) eqn:E; [done|]. apply fetch_other.
    intros Eq. rewrite Eq in E. congruence.
  - unfold startFetch. cbn. generalize (default [] (getTxSetHashes env)). intros hs.
    generalize (mTxSetFetcher p). induction hs as [|k hs IH]; intros f; cbn [fold_left]; [done|].
    rewrite IH. destruct (lru_exists k _) eqn:E; [done|]. apply fetch_other. intros ->. congruence.
Qed.
Lemma herder_cached F O q env p i :
  is_cached p i = true -> unchanged_for i p (herder_recvSCPEnvelope F O q env p).2.
Proof using.
  intros Hc. unfold herder_recvSCPEnvelope. destruct (negb (admitted F env)); [done|].
  unfold pending_recvSCPEnvelope.
  assert (H1 : let p1 := (pending_isNodeInQuorum q (nodeID (statement env)) p).2 in unchanged_for i p p1)
    by (unfold pending_isNodeInQuorum; by destruct (lru_get _ _) as [[]|]).
  pose proof (steady_quorum q (nodeID (statement env)) p) as [S1 _].
  destruct (pending_isNodeInQuorum q _ p) as [inQ p1]. cbn [snd] in *.
  destruct (negb inQ); [done|]. destruct (isDiscarded env p1); [done|].
  assert (H2 : unchanged_for i p1 (touchFetchCache env p1).1).
  { unfold touchFetchCache. destruct (lru_get _ _) as [[]|]; by destruct (getTxSetHashes env). }
  pose proof (steady_touch env p1) as [S2 _]. destruct (touchFetchCache env p1) as [p2 readable]. cbn [fst] in *.
  assert (H02 : unchanged_for i p p2) by (unfold unchanged_for in *; congruence).
  destruct (negb readable); [done|].
  match goal with |- context [if ?b then (ENVELOPE_STATUS_PROCESSED, _) else _] => destruct b; [done|] end.
  match goal with |- context [isFullyFetched env ?x] => set (p3 := x) end.
  assert (H3 : unchanged_for i p p3).
  { unfold p3. destruct (has_env _ _); [done|].
    match goal with |- context [startFetch O env ?x] => set (p4 := x) end.
    unfold unchanged_for. rewrite (startFetch_cached O env p4 i); [done|].
    change (is_cached p4 i) with (is_cached p2 i). destruct S1 as [S1 _], S2 as [S2 _]. by rewrite S2, S1. }
  by destruct (isFullyFetched env p3).
Qed.
(** The node is not taken to be outside the quorum, now or by an answer in the
    cache. *)
Definition trusted (q : NodeID -> TriBool) node p : Prop :=
  q node <> TB_FALSE /\ forall r, (node, r) ∈ _cache_items_list (mNodesInQuorum p) -> r = true.
Lemma lru_get_items {V} key (c : lru_cache V) v c' x :
  lru_get key c = Some (v, c') ->
  (key, v) ∈ _cache_items_list c /\ (x ∈ _cache_items_list c' -> x ∈ _cache_items_list c).
Proof using.
  unfold lru_get. destruct (List.find _ _) as [i|] eqn:E; [|done]. intros [= <- <-].
  apply List.find_some in E as [Hi Ek%Z.eqb_eq]. apply list_elem_of_In in Hi. split.
  - rewrite <- Ek. by destruct i.
  - cbn [_cache_items_list]. intros [->|Hx]%elem_of_cons; [done|].
    unfold lru_without in Hx. apply list_elem_of_In, filter_In in Hx as [Hx _]. by apply list_elem_of_In.
Qed.
Lemma lru_put_items {V} key v (c : lru_cache V) x :
  x ∈ _cache_items_list (lru_put key v c) -> x = (key, v) \/ x ∈ _cache_items_list c.
Proof using.
  unfold lru_put. cbn [_cache_items_list]. intros H.
  assert (Hin : x ∈ (key, v) :: lru_without key c).
  { destruct (Nat.ltb _ _); [|done]. rewrite removelast_firstn_len in H.
    by apply elem_of_take in H as (? & ?%list_elem_of_lookup_2 & _). }
  apply elem_of_cons in Hin as [->|Hin]; [by left|right].
  unfold lru_without in Hin. apply list_elem_of_In, filter_In in Hin as [Hin _]. by apply list_elem_of_In.
Qed.
Lemma trusted_in q node p : trusted q node p -> (pending_isNodeInQuorum q node p).1 = true.
Proof using.
  intros [Hq Hc]. unfold pending_isNodeInQuorum. destruct (lru_get _ _) as [[res c]|] eqn:E.
  - apply (lru_get_items _ _ _ _ (node, res)) in E as [E _]. by apply Hc.
  - cbn. by destruct (q node).
Qed.
Lemma trusted_kept q node node' p : trusted q node p -> trusted q node (pending_isNodeInQuorum q node' p).2.
Proof using.
  intros [Hq Hc]. split; [done|]. intros r. unfold pending_isNodeInQuorum.
  destruct (lru_get _ _) as [[res c]|] eqn:E; cbn; intros Hr.
  - apply Hc. eapply lru_get_items in E as [_ E]. by apply E.
  - apply lru_put_items in Hr as [[= <- ->]|Hr]; [by destruct (q node)|by apply Hc].
Qed.
Lemma herder_nodes F O q env p :
  mNodesInQuorum (herder_recvSCPEnvelope F O q env p).2 = mNodesInQuorum p \/
  mNodesInQuorum (herder_recvSCPEnvelope F O q env p).2 =
    mNodesInQuorum (pending_isNodeInQuorum q (nodeID (statement env)) p).2.
Proof using.
  unfold herder_recvSCPEnvelope. destruct (negb (admitted F env)); [by left|right].
  unfold pending_recvSCPEnvelope. destruct (pending_isNodeInQuorum q _ p) as [inQ p1]. cbn [snd].
  destruct (negb inQ); [done|]. destruct (isDiscarded env p1); [done|].
  assert (H2 : mNodesInQuorum (touchFetchCache env p1).1 = mNodesInQuorum p1)
    by (unfold touchFetchCache; destruct (lru_get _ _) as [[]|]; by destruct (getTxSetHashes env)).
  destruct (touchFetchCache env p1) as [p2 readable]. cbn [fst] in H2.
  destruct (negb readable); [done|]. rewrite <- H2.
  match goal with |- context [if ?b then (ENVELOPE_STATUS_PROCESSED, _) else _] => destruct b; [done|] end.
  destruct (has_env _ _); by destruct (isFullyFetched env _).
Qed.
(** Nothing keeps the envelope from SCP but that it has not been evaluated. *)
Record deliverable F q p e : Prop := {
  del_admitted : admitted F e = true;
  del_trusted : trusted q (nodeID (statement e)) p;
  del_kept : e ∉ mDiscardedEnvelopes (envelopes_at (env_slot e) p);
  del_readable : getTxSetHashes e <> None;
  del_cached i : i ∈ items e -> is_cached p i = true }.

Lemma herder_turns_down F O q env p :
  let r := herder_recvSCPEnvelope F O q env p in
  r.1 = ENVELOPE_STATUS_DISCARDED -> ~ deliverable F q p env.
Proof using.
  intros r Hr [Ha Ht Hk Hg _]. unfold r, herder_recvSCPEnvelope in Hr. rewrite Ha in Hr. cbn [negb] in Hr.
  unfold pending_recvSCPEnvelope in Hr. pose proof (trusted_in q _ p Ht) as HQ.
  pose proof (steady_quorum q (nodeID (statement env)) p) as [_ S1].
  destruct (pending_isNodeInQuorum q _ p) as [inQ p1]. cbn [fst snd] in *. subst inQ. cbn [negb] in Hr.
  assert (Hd : isDiscarded env p1 = false).
  { rewrite <- S1 in Hk. unfold isDiscarded, envelopes_at in *. destruct (mEnvelopes p1 !! _); [|done].
    by apply bool_decide_eq_false. }
  rewrite Hd in Hr. assert (Hs : (touchFetchCache env p1).2 = true)
    by (unfold touchFetchCache; by destruct (getTxSetHashes env)).
  destruct (touchFetchCache env p1) as [p2 readable]. cbn [snd] in Hs. subst readable. cbn [negb] in Hr.
  match goal with H : context [if ?b then (ENVELOPE_STATUS_PROCESSED, _) else _] |- _ => destruct b; [done|] end.
  by destruct (isFullyFetched env _).
Qed.
Lemma herder_delivers F O q env p :
  deliverable F q p env -> processed (herder_recvSCPEnvelope F O q env p).2 env.
Proof using.
  intros Hd. destruct (herder_spec F O q env p) as [_ Hr].
  destruct (herder_recvSCPEnvelope F O q env p).1 eqn:E.
  - by apply herder_turns_down in E.
  - destruct Hr as (_ & (i & Hi & Hn) & _). rewrite (del_cached _ _ _ _ Hd i Hi) in Hn. done.
  - destruct Hr as (_ & _ & _ & Hr). unfold processed. rewrite Hr, Z.eqb_refl. cbn. set_solver.
  - destruct Hr as (Hs & _ & Hp). unfold processed. by rewrite Hs.
Qed.
(** The slots after an envelope was received. *)
Lemma herder_slots F O q env p e :
  let p' := (herder_recvSCPEnvelope F O q env p).2 in
  (processed p e -> processed p' e) /\
  mDiscardedEnvelopes (envelopes_at (env_slot e) p') = mDiscardedEnvelopes (envelopes_at (env_slot e) p).
Proof using.
  intros p'. destruct (herder_spec F O q env p) as [_ Hr]. fold p' in Hr. unfold processed.
  destruct (herder_recvSCPEnvelope F O q env p).1.
  - by rewrite Hr.
  - destruct Hr as (_ & _ & _ & ->). by destruct (_ =? _).
  - destruct Hr as (_ & _ & _ & ->). destruct (_ =? _); [|done]. cbn. split; [set_solver|done].
  - destruct Hr as (Hs & _). by rewrite Hs.
Qed.
Lemma herder_deliverable F O q env p e :
  deliverable F q p e -> deliverable F q (herder_recvSCPEnvelope F O q env p).2 e.
Proof using.
  intros [Ha Ht Hk Hg Hc]. destruct (herder_spec F O q env p) as [[Hs _] _]. split; [done| | |done|].
  - destruct (herder_nodes F O q env p) as [E|E]; (split; [apply Ht|]); rewrite E; [apply Ht|].
    by apply (trusted_kept q _ (nodeID (statement env))).
  - destruct (herder_slots F O q env p e) as [_ ->]. done.
  - intros i Hi. rewrite Hs. by apply Hc.
Qed.
Lemma recv_pop_length h f env f' :
  recv_pop h f = Some (env, f') ->
  fetchingFor h f = fetchingFor h f' ++ [env].
Proof using.
  unfold recv_pop. destruct (mTrackers f !! h) as [t|] eqn:E; [|done]. cbn [mbind option_bind].
  unfold tracker_pop. destruct (last (mWaitingEnvelopes t)) as [x|] eqn:El; [|done].
  cbn. intros [= <- <-]. apply last_removelast in El. rewrite fetchingFor_insert, decide_True by done.
  unfold fetchingFor. by rewrite E.
Qed.
Lemma recv_pop_None h f : recv_pop h f = None -> fetchingFor h f = [].
Proof using.
  unfold recv_pop, fetchingFor. destruct (mTrackers f !! h) as [t|]; [|done]. cbn [mbind option_bind].
  unfold tracker_pop. destruct (mWaitingEnvelopes t) as [|x l] using rev_ind; [done|].
  by rewrite last_snoc.
Qed.
(** The loop of [recv] ends when the item is there: each round takes an envelope
    that waits for it. *)
Lemma recvLoop_ends F O q kind h rounds p :
  is_cached p (kind, h) = true -> (length (fetchingFor h (fetcher_of kind p)) < rounds)%nat ->
  exists p', recvLoop (fun e p => (herder_recvSCPEnvelope F O q e p).2) rounds kind h p = Some p' /\
    fetchingFor h (fetcher_of kind p') = [] /\ getLastSeenSlotIndex h (fetcher_of kind p') = 0 /\
    (forall e, processed p e -> processed p' e) /\
    forall e, waits_for p (kind, h) e -> deliverable F q p e -> processed p' e.
Proof using.
  revert p. induction rounds as [|rounds IH]; intros p Hc Hl; [lia|]. cbn [recvLoop].
  destruct (recv_pop h (fetcher_of kind p)) as [[env f]|] eqn:E.
  - set (p1 := with_fetcher kind f p). set (p2 := (herder_recvSCPEnvelope F O q env p1).2).
    pose proof (recv_pop_length _ _ _ _ E) as El.
    assert (Hc1 : forall i, is_cached p1 i = is_cached p i) by (intros i; unfold p1; by destruct kind).
    assert (Hf1 : fetchingFor h (fetcher_of kind p1) = fetchingFor h f) by (unfold p1; by destruct kind).
    assert (Hd1 : forall e, deliverable F q p e -> deliverable F q p1 e).
    { intros e [Ha Ht Hk Hg Hi]. split; [done| | |done|]; unfold p1; by destruct kind. }
    assert (Hp1 : forall e, processed p e -> processed p1 e) by (intros e; unfold p1; by destruct kind).
    pose proof (herder_cached F O q env p1 (kind, h)) as Hu. unfold unchanged_for in Hu. cbn [fst snd] in Hu.
    rewrite Hc1 in Hu. specialize (Hu Hc). fold p2 in Hu. rewrite Hf1 in Hu.
    destruct (herder_spec F O q env p1) as [[Hc2 _] _]. fold p2 in Hc2.
    destruct (IH p2) as (p' & Ep & Hw & Hz & Hold & Hdel).
    + by rewrite Hc2, Hc1.
    + rewrite Hu. rewrite El, length_app in Hl. cbn in Hl. lia.
    + exists p'. split; [exact Ep|]. split; [done|]. split; [done|]. split.
      * intros e He. by apply Hold, (herder_slots F O q env p1 e), Hp1.
      * intros e Hwe Hde. unfold waits_for in Hwe, Hdel. cbn [fst snd] in Hwe, Hdel. rewrite El in Hwe.
        apply elem_of_app in Hwe as [Hwe| ->%list_elem_of_singleton].
        -- apply Hdel; [by rewrite Hu|]. by apply herder_deliverable, Hd1.
        -- by apply Hold, herder_delivers, Hd1.
  - eexists. split; [done|]. apply recv_pop_None in E.
    assert (Ed : forall kind0 h0, fetchingFor h0 (fetcher_of kind0 (with_fetcher kind (recv_done h (fetcher_of kind p)) p)) =
              fetchingFor h0 (fetcher_of kind0 p)) by (intros [] h0; destruct kind; cbn; by rewrite ?done_waiting).
    split; [by rewrite Ed|]. split; [|split].
    + assert (forall f, getLastSeenSlotIndex h (recv_done h f) = 0).
      { intros f. unfold getLastSeenSlotIndex, recv_done. cbn. rewrite lookup_alter_eq. by destruct (mTrackers f !! h). }
      destruct kind; exact (H _).
    + intros e. by destruct kind.
    + intros e He. unfold waits_for in He. cbn [fst snd] in He. rewrite E in He. by apply elem_of_nil in He.
Qed.
(** Discarding. *)
Lemma discard_discards env p e :
  discarded (discardSCPEnvelope env p) e <-> discarded p e \/ e = env.
Proof using.
  unfold discardSCPEnvelope, discarded. destruct (isDiscarded env p) eqn:Ed.
  - split; [by left|]. intros [?| ->]; [done|]. unfold isDiscarded in Ed. unfold envelopes_at.
    destruct (mEnvelopes p !! _); [|done]. by apply bool_decide_eq_true in Ed.
  - change (envelopes_at ?k (pending_stopFetch env ?x)) with (envelopes_at k x). rewrite envelopes_at_on.
    destruct (Z.eqb_spec (env_slot env) (env_slot e)) as [E|E]; cbn.
    + rewrite insert_env_In. tauto.
    + split; [by left|]. intros [?| ->]; done.
Qed.
Lemma discards_discard h p e :
  discarded (discardSCPEnvelopesWithQSet h p) e <-> discarded p e \/ waits_for p (true, h) e.
Proof using.
  unfold discardSCPEnvelopesWithQSet, waits_for. cbn [fst snd fetcher_of].
  generalize (fetchingFor h (mQuorumSetFetcher p)). intros l. revert p.
  induction l as [|env l IH]; intros p; cbn [fold_left]; [rewrite elem_of_nil; tauto|].
  rewrite IH, discard_discards, elem_of_cons. tauto.
Qed.
Lemma put_cached :
  (forall h qset p, (0 < _max_size (mQsetCache p))%nat -> is_cached (putSCPQuorumSet h qset p) (true, h) = true) /\
  (forall h last ts p, (0 < _max_size (mTxSetCache p))%nat -> is_cached (putTxSet h last ts p) (false, h) = true).
Proof using. split; intros; by apply lru_put_self. Qed.

(** An item that was asked for has come, into [p], and [p'] is left. *)
Record delivered F q (i : Item) p p' : Prop := {
  nobody_waits : fetchingFor i.2 (fetcher_of i.1 p') = [];
  not_asked : getLastSeenSlotIndex i.2 (fetcher_of i.1 p') = 0;
  processed_kept e : processed p e -> processed p' e;
  waiting_processed e : waits_for p i e -> deliverable F q p e -> processed p' e }.
(** C15. When a transaction set arrives, it is ignored if it was not asked for;
    otherwise it is cached, and as many rounds as envelopes wait for it are
    enough for all of them to be taken back to the Herder: then nobody waits for
    it, and each one that waited, is admitted, readable and not discarded, comes
    from the quorum and has all its items cached by now is processed.  The same
    for a quorum set, if it is sane; one that is not is answered by discarding
    exactly the envelopes that wait for it.  The assertion on its sanity never
    fails. *)
Theorem items_delivered F O q fuel p :
  let herder e p := (herder_recvSCPEnvelope F O q e p).2 in
  (0 < _max_size (mQsetCache p))%nat -> (0 < _max_size (mTxSetCache p))%nat ->
  (forall i, length (fetchingFor i.2 (fetcher_of i.1 p)) < fuel)%nat ->
  (forall h ts,
     if getLastSeenSlotIndex h (mTxSetFetcher p) =? 0 then recvTxSet herder fuel h ts p = (false, Some p)
     else exists p', recvTxSet herder fuel h ts p = (true, Some p') /\
            delivered F q (false, h) (putTxSet h (getLastSeenSlotIndex h (mTxSetFetcher p)) ts p) p') /\
  forall h qset,
    if getLastSeenSlotIndex h (mQuorumSetFetcher p) <=? 0 then
      recvSCPQuorumSet herder fuel h qset p = Ok (false, Some p)
    else if isQuorumSetSane qset false then
      exists p', recvSCPQuorumSet herder fuel h qset p = Ok (true, Some p') /\
        delivered F q (true, h) (putSCPQuorumSet h qset p) p'
    else exists p', recvSCPQuorumSet herder fuel h qset p = Ok (false, Some p') /\
           forall e, discarded p' e <-> discarded p e \/ waits_for p (true, h) e.
Proof using.
  intros herder Hq Ht Hf. destruct put_cached as [Cq Ct]. split.
  - intros h ts. unfold recvTxSet, addTxSet. destruct (_ =? 0); [done|].
    set (p0 := putTxSet _ _ _ _).
    destruct (recvLoop_ends F O q false h fuel p0) as (p' & E & A1 & A2 & A3 & A4);
      [by apply Ct|apply (Hf (false, h))|]. exists p'. unfold herder. by rewrite E.
  - intros h qset. unfold recvSCPQuorumSet, addSCPQuorumSet. destruct (_ <=? 0); [done|].
    destruct (isQuorumSetSane qset false) eqn:Es.
    + set (p0 := putSCPQuorumSet _ _ _).
      destruct (recvLoop_ends F O q true h fuel p0) as (p' & E & A1 & A2 & A3 & A4);
        [by apply Cq|apply (Hf (true, h))|]. exists p'. unfold herder. cbn. by rewrite E.
    + eexists. split; [done|]. intros e. apply discards_discard.
Qed.
End Arrival.

(** ** A node that has closed ledger 8 and hears from node 5 about slot 9 *)
Definition vote (h : Hash) (slot txSet : Z) : SCPEnvelope :=
  mkEnvelope (mkStatement 5 slot (PREPARE (mkPrepare h (mkBallot 1 (write_value (mkStellarValue txSet 9 [])))
                                            None None 0 0))) 0.
Definition sample_env9 : SCPEnvelope := vote 4 9 3.
Definition sample_filter : HerderFilter := mkFilter false 0 8 (Some 9).
Definition sample_overlay : Overlay := mkOverlay (fun _ => [2]) [1; 2] (fun _ => true).
Definition everybody (_ : NodeID) : TriBool := TB_TRUE.
Definition sample_qset : SCPQuorumSet := mkQSet 1 [5] [].
Definition hears (e : SCPEnvelope) (p : PendingEnvelopes) : EnvelopeStatus * PendingEnvelopes :=
  herder_recvSCPEnvelope sample_filter sample_overlay everybody e p.
Definition sample_asking : PendingEnvelopes := (hears sample_env9 newPendingEnvelopes).2.
Definition sample_waiting : PendingEnvelopes :=
  match recvSCPQuorumSet (fun e p => (hears e p).2) 2 4 sample_qset sample_asking with
  | Ok (_, Some p) => p
  | _ => sample_asking
  end.
Definition sample_ready : PendingEnvelopes :=
  default sample_waiting (recvTxSet (fun e p => (hears e p).2) 2 3 sample_left sample_waiting).2.

(** Both items are asked of peer 2, which knows the envelope. *)
Example asks_for_both :
  (hears sample_env9 newPendingEnvelopes).1 = ENVELOPE_STATUS_FETCHING /\
  fetcher_asked (mQuorumSetFetcher sample_asking) = [(2, 4)] /\
  fetcher_asked (mTxSetFetcher sample_asking) = [(2, 3)].
Proof. by vm_compute. Qed.
Example ready_when_both_are_there :
  readySlots sample_waiting = [] /\ readySlots sample_ready = [9] /\
  pending_broadcast sample_ready = [sample_env9] /\ (hears sample_env9 sample_ready).1 = ENVELOPE_STATUS_PROCESSED.
Proof. by vm_compute. Qed.
(** The tracker of an item that was received, or that nobody waited for any
    more, is kept without its timer: when the item is wanted again, because the
    cache dropped it, nobody is asked for it. *)
Definition sample_dropped : PendingEnvelopes := eraseBelow 100 sample_ready.
Example not_asked_again :
  let r := hears (vote 4 10 3) sample_dropped in
  lru_exists 3 (mTxSetCache sample_dropped) = false /\ r.1 = ENVELOPE_STATUS_FETCHING /\
  fetcher_asked (mTxSetFetcher r.2) = [(2, 3)] /\
  (mTimer <$> mTrackers (mTxSetFetcher r.2) !! 3) = Some None.
Proof. by vm_compute. Qed.
(** The slot that a close forgets is still admitted: what was delivered for it is
    delivered again. *)
Example delivered_again :
  let closed := (slotClosed (9 + MAX_SLOTS_TO_REMEMBER) sample_ready).1 in
  let F := mkFilter false 0 (9 + MAX_SLOTS_TO_REMEMBER) (Some (10 + MAX_SLOTS_TO_REMEMBER)) in
  inBracket F 9 = true /\
  (herder_recvSCPEnvelope F sample_overlay everybody sample_env9 sample_ready).1 = ENVELOPE_STATUS_PROCESSED /\
  (herder_recvSCPEnvelope F sample_overlay everybody sample_env9 closed).1 = ENVELOPE_STATUS_FETCHING.
Proof. by vm_compute. Qed.

Section Decide.
Context `{Ex : HerderExternals}.
#[export] Instance waits_for_dec p i e : Decision (waits_for p i e).
Proof using. unfold waits_for. apply _. Defined.
#[export] Instance being_fetched_dec p e : Decision (being_fetched p e).
Proof using. unfold being_fetched. apply _. Defined.
End Decide.
Lemma few_wait n f h :
  (0 < n)%nat -> bool_decide (map_Forall (fun _ t => (length (mWaitingEnvelopes t) < n)%nat) (mTrackers f)) = true ->
  (length (fetchingFor h f) < n)%nat.
Proof.
  intros Hn Hf%bool_decide_eq_true. unfold fetchingFor. destruct (mTrackers f !! h) as [t|] eqn:E; [|done].
  by apply (Hf h).
Qed.
Lemma items_delivered_witness :
  exists p', recvTxSet (fun e p => (hears e p).2) 2 3 sample_left sample_waiting = (true, Some p') /\
    processed p' sample_env9.
Proof.
  destruct (items_delivered sample_filter sample_overlay everybody 2 sample_waiting) as [H _].
  - apply Nat.ltb_lt. by vm_compute.
  - apply Nat.ltb_lt. by vm_compute.
  - intros [[] h]; (apply few_wait; [lia|by vm_compute]).
  - specialize (H 3 sample_left).
    replace (getLastSeenSlotIndex 3 (mTxSetFetcher sample_waiting) =? 0) with false in H by by vm_compute.
    destruct H as (p' & E & Hd). exists p'. split; [exact E|]. apply (waiting_processed _ _ _ _ _ Hd).
    + apply (bool_decide_unpack _). by vm_compute.
    + split.
      * by vm_compute.
      * split; [done|]. intros r. set (l := _cache_items_list _). assert (El : l = [(5, true)]) by by vm_compute.
        rewrite El. by intros [= ->]%list_elem_of_singleton.
      * apply (bool_decide_unpack _). by vm_compute.
      * by vm_compute.
      * intros i. set (l := items _). assert (El : l = [(true, 4); (false, 3)]) by by vm_compute.
        rewrite El. intros [->|[->|[]%elem_of_nil]%elem_of_cons]%elem_of_cons; by vm_compute.
Defined.

(** The same in steps: the quorum set comes, the envelope is taken back and waits
    for the transaction set; that comes too, and SCP takes the envelope. *)
Definition popped (i : Item) (p : PendingEnvelopes) : PendingEnvelopes :=
  match recv_pop i.2 (fetcher_of i.1 p) with Some (_, f) => with_fetcher i.1 f p | None => p end.
Definition taken (i : Item) (p : PendingEnvelopes) : PendingEnvelopes := (hears sample_env9 (popped i p)).2.
Definition told_p : PendingEnvelopes := putSCPQuorumSet 4 sample_qset sample_asking.
Definition half_p : PendingEnvelopes := taken (true, 4) told_p.
Definition complete_p : PendingEnvelopes := putTxSet 3 9 sample_left half_p.
Definition ready_p : PendingEnvelopes := taken (false, 3) complete_p.
Definition final_p : PendingEnvelopes :=
  match pending_pop 9 ready_p with Some (_, p) => p | None => ready_p end.
Lemma step_taken i p D L (R : SCPEnvelope -> Prop) n :
  is_cached p i = true -> bool_decide (fst <$> recv_pop i.2 (fetcher_of i.1 p) = Some sample_env9) = true ->
  bool_decide ((hears sample_env9 (popped i p)).1 = ENVELOPE_STATUS_DISCARDED) = false ->
  exists R', step (mkWorld p D L R n) (mkWorld (taken i p) D L R' n) /\ forall e, R' e -> R e.
Proof.
  intros Hc Hp%bool_decide_eq_true Hs%bool_decide_eq_false. unfold taken, popped in *.
  destruct (recv_pop i.2 _) as [[e f]|] eqn:E; [|done]. cbn in Hp. injection Hp as ->.
  eexists. split; [by apply (step_redeliver i sample_env9 f sample_filter sample_overlay everybody); [left|]|].
  by intros e [?|[_ ?]].
Qed.
Lemma final_popped : pending_pop 9 ready_p = Some (sample_env9, final_p).
Proof.
  unfold final_p. assert (E : bool_decide (fst <$> pending_pop 9 ready_p = Some sample_env9) = true) by by vm_compute.
  apply bool_decide_eq_true in E. destruct (pending_pop 9 ready_p) as [[e p]|]; [|done]. by injection E as ->.
Qed.
Lemma envelopes_safe_witness :
  (being_fetched half_p sample_env9 /\ waits_for half_p (false, 3) sample_env9 /\
   ((forall i, i ∈ items sample_env9 -> is_cached half_p i = true \/ waits_for half_p i sample_env9) /\
    exists i, i ∈ items sample_env9 /\ waits_for half_p i sample_env9)) /\
  mReadyEnvelopes (envelopes_at 9 final_p) = [] /\
  Permutation (mProcessedEnvelopes (envelopes_at 9 final_p))
    (mReadyEnvelopes (envelopes_at 9 final_p) ++ [sample_env9]).
Proof.
  destruct (step_taken (true, 4) told_p (fun _ => []) (lose sample_asking told_p (fun _ => False)) (fun _ => False) 0)
    as (R1 & S1 & HR1); [by vm_compute..|].
  destruct (step_taken (false, 3) complete_p (fun _ => []) (lose half_p complete_p
    (lose sample_asking told_p (fun _ => False))) R1 0) as (R2 & S2 & _); [by vm_compute..|].
  assert (H1 : rtc step newWorld (mkWorld half_p (fun _ => []) (lose sample_asking told_p (fun _ => False)) R1 0)).
  { eapply rtc_l; [apply (step_receive sample_filter sample_overlay everybody sample_env9)|].
    eapply rtc_l; [apply (step_qset 4 sample_qset)|]. by apply rtc_once. }
  assert (H2 : rtc step newWorld (mkWorld final_p (deliver sample_env9 (fun _ => []))
    (lose half_p complete_p (lose sample_asking told_p (fun _ => False))) R2 0)).
  { etransitivity; [exact H1|]. eapply rtc_l; [apply (step_txset 3 9 sample_left)|].
    eapply rtc_l; [exact S2|]. apply rtc_once, (step_pop 9), final_popped. }
  split.
  - destruct (envelopes_safe _ H1) as (_ & _ & H). cbn [w_pending w_refused w_floor w_lost] in H.
    assert (Hf : being_fetched half_p sample_env9) by (apply (bool_decide_unpack _); by vm_compute).
    split; [exact Hf|]. split; [apply (bool_decide_unpack _); by vm_compute|]. apply (H sample_env9 Hf).
    + by intros ?%HR1.
    + by vm_compute.
    + intros i _ [[]|[Hc _]]. destruct i as [[] h]; discriminate Hc.
  - destruct (envelopes_safe _ H2) as (H & _). specialize (H 9) as (_ & H & _).
    split; [by vm_compute|]. exact H.
Defined.
