(* ===== verification/Books.v ===== *)
(** Books: linear accounts kept over the entries of a ledger.

    A book gives a coefficient to the sub-entries of every account, and to its
    buying and selling liabilities in every asset.  An account enters its
    sub-entry count less its signers, and the liabilities it records are taken
    off; a trust line, an offer and a data entry each take off one sub-entry;
    an offer enters the liabilities it stands for.  So the book that counts the
    sub-entries of one account is level exactly if its [numSubEntries] is the
    number of its signers and entries, and that of its liabilities in one asset
    is level exactly if what it records is what its offers come to.  A ledger
    is [balanced] if its entries are in range and every book is level.

    This file follows a book through the functions on entries and through the
    crossing of offers, from protocol version 10 on. *)

From Stdlib Require Import ZifyBool.
From stdpp Require Import sorting.
From S2P Require Import Prelude Numeric OfferMath Types Sums OfferOrder LedgerTxn LedgerTxnOffers InflationWinners.
From S2P Require Import LedgerState TransactionUtils OfferExchange Converting Accounting Operations Lumens.

(** * Entries in range *)
Definition sane_entry (d : LedgerEntryData) : Prop :=
  match d with
  | ACCOUNT a =>
      let l := liabilities_of (acc_ext a) in
      0 <= acc_numSubEntries a < 2147483648 /\ 0 <= acc_balance a /\ 0 <= buying l /\
      acc_balance a + buying l <= INT64_MAX /\ 0 <= selling l <= INT64_MAX
  | TRUSTLINE t =>
      let l := liabilities_of (tl_ext t) in
      0 <= selling l <= tl_balance t /\ 0 <= buying l /\
      tl_balance t + buying l <= tl_limit t /\ tl_limit t <= INT64_MAX /\
      (Z.land (tl_flags t) AUTHORIZED_FLAG = 0 -> buying l = 0 /\ selling l = 0) /\
      is_native (tl_asset t) = false
  | OFFER o => valid_price (of_price o) /\ 0 <= of_amount o <= INT64_MAX
  | DATA _ => True
  end.
#[export] Instance sane_entry_dec d : Decision (sane_entry d).
Proof. destruct d; cbn; unfold valid_price; apply _. Defined.
Definition sane (s : LedgerState) : Prop :=
  coherent s /\ 10 <= version s /\ forall k d, st_entries s !! k = Some d -> sane_entry d.

(** * Books *)
Class Book := {
  w_count : AccountID -> Z;
  w_buy : AccountID -> Asset -> Z;
  w_sell : AccountID -> Asset -> Z }.

(** What an offer stands for: what it may buy, and what it may sell. *)
Definition offer_liabilities (o : OfferEntry) : Liabilities :=
  match exchangeV10WithoutPriceErrorThresholds (of_price o) (of_amount o) INT64_MAX INT64_MAX INT64_MAX false with
  | Ok res => mkLiabilities (numSheepSend res) (numWheatReceived res)
  | Throw _ => mkLiabilities 0 0
  end.
Definition issues (id : AccountID) (a : Asset) : bool :=
  match getIssuer a with Ok i => i =? id | Throw _ => false end.

Section Book.
Context `{B : Book}.

(** What the owner of an offer should have recorded. *)
Definition pledged (o : OfferEntry) : Z :=
  (if issues (of_seller o) (of_buying o) then 0
   else w_buy (of_seller o) (of_buying o) * buying (offer_liabilities o))
  + (if issues (of_seller o) (of_selling o) then 0
     else w_sell (of_seller o) (of_selling o) * selling (offer_liabilities o)).
Definition posting (d : LedgerEntryData) : Z :=
  match d with
  | ACCOUNT a =>
      let l := liabilities_of (acc_ext a) in
      w_count (acc_id a) * (acc_numSubEntries a - Z.of_nat (length (acc_signers a)))
      - w_buy (acc_id a) ASSET_NATIVE * buying l - w_sell (acc_id a) ASSET_NATIVE * selling l
  | TRUSTLINE t =>
      let l := liabilities_of (tl_ext t) in
      - w_count (tl_account t) - w_buy (tl_account t) (tl_asset t) * buying l
      - w_sell (tl_account t) (tl_asset t) * selling l
  | OFFER o => pledged o - w_count (of_seller o)
  | DATA d => - w_count (da_account d)
  end.
Definition book_of (s : LedgerState) : Z := msum (fun _ d => posting d) (st_entries s).

(** [s] is reached from [s0] with [x] posted. *)
Definition posted (s0 s : LedgerState) (x : Z) : Prop :=
  sane s /\ version s = version s0 /\ book_of s = book_of s0 + x.
Definition same_book (s s' : LedgerState) : Prop := sane s -> posted s s' 0.

Lemma posted_refl s : sane s -> posted s s 0.
Proof using. intros. split; [done|split; [done|lia]]. Qed.
Lemma posted_trans s0 s1 s2 x y : posted s0 s1 x -> posted s1 s2 y -> posted s0 s2 (x + y).
Proof using. intros (_ & V & E) (Hs & V' & E'). split; [done|split; [congruence|lia]]. Qed.
Lemma posted_eq s0 s x y : posted s0 s x -> x = y -> posted s0 s y.
Proof using. by intros ? <-. Qed.
Lemma posted_sane s0 s x : posted s0 s x -> sane s.
Proof using. by intros (? & _). Qed.
Lemma posted_same s0 s1 s2 x : posted s0 s1 x -> same_book s1 s2 -> posted s0 s2 x.
Proof using.
  intros H Hs. eapply posted_eq; [eapply posted_trans; [exact H|apply Hs, H]|lia].
Qed.
#[export] Instance same_book_preorder : PreOrder same_book.
Proof using.
  split; [intros s Hs; by apply posted_refl|]. intros a b c Hab Hbc Ha. eapply posted_same; [by apply Hab|done].
Qed.

(** ** Changes of one entry *)
Lemma posted_insert s k d :
  sane s -> LedgerDataKey d = k -> sane_entry d ->
  posted s (set_entries (<[k := d]> (st_entries s)) s)
    (posting d - at_key (fun _ d => posting d) (st_entries s) k).
Proof using.
  intros (Hc & Hv & Hs) Hk Hd. split; [split; [|split; [done|]]|split; [done|]].
  - intros j d'. cbn. rewrite lookup_insert. case_decide; [by intros [= <-]; congruence|apply Hc].
  - intros j d'. cbn. rewrite lookup_insert. case_decide; [by intros [= <-]|apply Hs].
  - unfold book_of. cbn. rewrite msum_insert. lia.
Qed.
Lemma posted_delete s k :
  sane s -> posted s (set_entries (delete k (st_entries s)) s) (- at_key (fun _ d => posting d) (st_entries s) k).
Proof using.
  intros (Hc & Hv & Hs). split; [split; [|split; [done|]]|split; [done|]].
  - intros j d'. cbn. intros [_ ?]%lookup_delete_Some. by apply Hc.
  - intros j d'. cbn. intros [_ ?]%lookup_delete_Some. by eapply Hs.
  - unfold book_of. cbn. rewrite msum_delete. lia.
Qed.
Lemma posted_header s h : sane s -> ledgerVersion h = version s -> posted s (mkState h (st_entries s)) 0.
Proof using.
  intros (Hc & Hv & Hs) E. split; [|split; [done|unfold book_of; cbn; lia]].
  split; [done|]. split; [|done]. unfold version. cbn. by rewrite E.
Qed.

(** ** Computations with a known posting *)
Definition posts {A} (m : M A) (x : A -> Z) : Prop :=
  forall s, sane s -> wlp m (fun a s' => posted s s' (x a)) s.

Lemma wlp_posts {A} (m : M A) x (Q : A -> LedgerState -> Prop) s0 s y :
  posts m x -> posted s0 s y -> (forall a s', posted s0 s' (y + x a) -> Q a s') -> wlp m Q s.
Proof using.
  intros Hm Hs HQ. eapply wlp_mono; [apply Hm, Hs|]. intros a s' H. apply HQ. by eapply posted_trans.
Qed.
Lemma wlp_posts_bind {A C} (m : M A) x (f : A -> M C) (Q : C -> LedgerState -> Prop) s0 s y :
  posts m x -> posted s0 s y -> (forall a s', posted s0 s' (y + x a) -> wlp (f a) Q s') -> wlp (m ≫= f) Q s.
Proof using. intros. apply wlp_bind. by eapply wlp_posts. Qed.
Lemma wlp_book {A} (m : M A) (Q : A -> LedgerState -> Prop) s0 s x :
  keeps same_book m -> posted s0 s x -> (forall a s', posted s0 s' x -> Q a s') -> wlp m Q s.
Proof using.
  intros Hm Hs HQ. eapply (wlp_keeps same_book); [done|]. intros a s' H. apply HQ. by eapply posted_same.
Qed.
Lemma wlp_book_bind {A C} (m : M A) (f : A -> M C) (Q : C -> LedgerState -> Prop) s0 s x :
  keeps same_book m -> posted s0 s x -> (forall a s', posted s0 s' x -> wlp (f a) Q s') -> wlp (m ≫= f) Q s.
Proof using. intros. apply wlp_bind. by eapply wlp_book. Qed.
Lemma posts_keeps {A} (m : M A) : posts m (fun _ => 0) -> keeps same_book m.
Proof using.
  intros Hm s. unfold posts, wlp in *. destruct (m s) as [[a s']|] eqn:E; [|done].
  intros Hs. specialize (Hm s Hs). by rewrite E in Hm.
Qed.
(** It is enough to keep the book from a state that is in order. *)
Lemma keeps_book_intro {A} (m : M A) :
  (forall s, sane s -> wlp m (fun _ s' => posted s s' 0) s) -> keeps same_book m.
Proof using. intros Hm. by apply posts_keeps. Qed.

(** A change of the entry under a handle that is in range. *)
Lemma posts_modify k f x :
  (forall h d d', 10 <= ledgerVersion h -> LedgerDataKey d = k -> sane_entry d -> f h d = Ok (Some d') ->
     LedgerDataKey d' = k /\ sane_entry d' /\ posting d' = posting d + x) ->
  posts (modify k f) (fun b : bool => if b then x else 0).
Proof using.
  intros Hf s Hs. apply wlp_modify. intros d Hd. destruct Hs as (Hc & Hv & He).
  destruct (f (st_header s) d) as [[d'|]|] eqn:E; [|by apply posted_refl|done].
  apply Hf in E as (Hk & Hd' & Hp); [|done|by apply Hc|by eapply He].
  eapply posted_eq; [by apply posted_insert|]. unfold at_key. rewrite Hd. cbn. lia.
Qed.
Lemma book_update k f :
  (forall d d', LedgerDataKey d = k -> sane_entry d -> f d = Ok d' ->
     LedgerDataKey d' = k /\ sane_entry d' /\ posting d' = posting d) ->
  keeps same_book (update k f).
Proof using.
  intros Hf. apply keeps_book_intro. intros s Hs. apply wlp_bind, wlp_current. intros d Hd.
  apply wlp_bind, wlp_lift. intros d' Hd'. apply wlp_setCurrent. pose proof Hs as (Hc & _ & He).
  apply Hf in Hd' as (Hk & Hd' & Hp); [|by apply Hc|by eapply He].
  eapply posted_eq; [by apply posted_insert|]. unfold at_key. rewrite Hd. cbn. lia.
Qed.
Lemma posts_create d : sane_entry d -> posts (createEntry d) (fun _ => posting d).
Proof using.
  intros Hd s Hs. apply wlp_create. intros Hn. eapply posted_eq; [by apply posted_insert|].
  unfold at_key. rewrite Hn. cbn. lia.
Qed.
Lemma wlp_erase_posted k d (Q : unit -> LedgerState -> Prop) s0 s x :
  posted s0 s x -> st_entries s !! k = Some d ->
  (forall s', posted s0 s' (x - posting d) -> Q tt s') -> wlp (eraseEntry k) Q s.
Proof using.
  intros Hm Hk HQ. apply wlp_erase. intros _. apply HQ.
  eapply posted_eq; [eapply posted_trans; [exact Hm|by apply posted_delete, Hm]|].
  unfold at_key. rewrite Hk. cbn. lia.
Qed.
Lemma book_updateHeader f : (forall h, ledgerVersion (f h) = ledgerVersion h) -> keeps same_book (updateHeader f).
Proof using.
  intros Hf. apply keeps_book_intro. intros s Hs. apply wlp_bind, wlp_currentHeader, wlp_setHeader.
  by apply posted_header.
Qed.
Lemma posts_nested {A} (m : M (bool * A)) (x : A -> Z) :
  (forall s, sane s -> wlp m (fun r s' => if r.1 then posted s s' (x r.2) else x r.2 = 0) s) ->
  posts (nested m) x.
Proof using.
  intros Hm s Hs. apply wlp_nested. eapply wlp_mono; [by apply Hm|].
  intros [[] a] s' H; cbn in *; [done|]. rewrite H. by apply posted_refl.
Qed.
End Book.

(** * The functions on entries *)
Section Entries.
Context `{B : Book}.

Lemma numeric_addBalance_range b x m b' :
  Numeric.addBalance b x m = Ok (Some b') -> b <= INT64_MAX -> m <= INT64_MAX ->
  0 <= b' /\ b' = b + x /\ (x = 0 \/ b' <= m).
Proof using.
  unfold Numeric.addBalance, cassert. intros H Hb Hm.
  destruct (Z.leb_spec 0 b) as [H0|]; [|done]. destruct (Z.leb_spec 0 m) as [H1|]; [|done]. cbn in H.
  rewrite !s64_id in H by (unfold in_s64; unfold_ints; lia).
  destruct (Z.eqb_spec x 0); [injection H as <-; lia|].
  destruct (Z.ltb_spec x (- b)); [done|]. destruct (Z.ltb_spec (m - b) x); [done|].
  injection H as <-. rewrite s64_id by (unfold in_s64; unfold_ints; lia). lia.
Qed.
Lemma liabilities_read h d :
  10 <= ledgerVersion h ->
  (getBuyingLiabilities h d = match d with
     | ACCOUNT a => Ok (buying (liabilities_of (acc_ext a))) | TRUSTLINE t => Ok (buying (liabilities_of (tl_ext t)))
     | _ => unknown_type end) /\
  (getSellingLiabilities h d = match d with
     | ACCOUNT a => Ok (selling (liabilities_of (acc_ext a))) | TRUSTLINE t => Ok (selling (liabilities_of (tl_ext t)))
     | _ => unknown_type end).
Proof using.
  intros Hv. unfold getBuyingLiabilities, getSellingLiabilities.
  rewrite (proj2 (Z.ltb_ge _ _)) by done. destruct d as [a|t| |]; try done; cbn.
  - by destruct (acc_ext a).
  - by destruct (tl_ext t).
Qed.
(** The account or trust line [d] becomes [d'], in range, with [x] posted. *)
Definition entry_posts (d : LedgerEntryData) (x : Z) (d' : LedgerEntryData) : Prop :=
  LedgerDataKey d' = LedgerDataKey d /\ sane_entry d' /\ posting d' = posting d + x.

Lemma authorized_nonzero t : isAuthorized (TRUSTLINE t) = Ok true -> Z.land (tl_flags t) AUTHORIZED_FLAG <> 0.
Proof using. cbn. intros [= H]. apply negb_true_iff, Z.eqb_neq in H. done. Qed.
Lemma addBalance_books h d x d' :
  10 <= ledgerVersion h -> sane_entry d -> addBalance h d x = Ok (Some d') -> entry_posts d 0 d'.
Proof using.
  intros Hv Hs H. unfold entry_posts. destruct d as [a|t| |]; cbn [addBalance] in H; try done.
  - destruct (Z.eqb_spec x 0) as [->|_]; [injection H as <-; split; [done|split; [done|lia]]|].
    destruct (Numeric.addBalance _ _ _) as [[b|]|] eqn:E; cbn [mbind outcome_bind] in H; try done.
    cbn in Hs. apply numeric_addBalance_range in E; [|unfold_ints; lia..].
    destruct (liabilities_read h (ACCOUNT a) Hv) as [Eb Es]. rewrite Eb, Es, (proj2 (Z.leb_le _ _)) in H by done.
    cbn [mbind outcome_bind] in H. destruct (_ && _); [done|].
    rewrite s64_id in H by (unfold in_s64; unfold_ints; lia).
    destruct (Z.ltb_spec (INT64_MAX - buying (liabilities_of (acc_ext a))) b); [done|]. injection H as <-.
    split; [done|]. split; [cbn; lia|]. cbn. lia.
  - destruct (Z.eqb_spec x 0) as [->|_]; [injection H as <-; split; [done|split; [done|lia]]|].
    destruct (isAuthorized (TRUSTLINE t)) as [auth|] eqn:Ea; cbn [mbind outcome_bind] in H; [|done].
    destruct auth; [|done]. apply authorized_nonzero in Ea. cbn [negb] in H.
    destruct (Numeric.addBalance _ _ _) as [[b|]|] eqn:E; cbn [mbind outcome_bind] in H; try done.
    cbn in Hs. apply numeric_addBalance_range in E; [|unfold_ints; lia..].
    destruct (liabilities_read h (TRUSTLINE t) Hv) as [Eb Es]. rewrite Eb, Es, (proj2 (Z.leb_le _ _)) in H by done.
    cbn [mbind outcome_bind] in H. destruct (Z.ltb_spec b (selling (liabilities_of (tl_ext t)))); [done|].
    rewrite s64_id in H by (unfold in_s64; unfold_ints; lia).
    destruct (Z.ltb_spec (tl_limit t - buying (liabilities_of (tl_ext t))) b); [done|]. injection H as <-.
    split; [done|]. split; [cbn; lia|]. cbn. lia.
Qed.

(** The coefficients under which an entry's liabilities are posted. *)
Definition buy_rate (k : LedgerKey) : Z :=
  match k with KeyAccount id => w_buy id ASSET_NATIVE | KeyTrustLine id asset => w_buy id asset | _ => 0 end.
Definition sell_rate (k : LedgerKey) : Z :=
  match k with KeyAccount id => w_sell id ASSET_NATIVE | KeyTrustLine id asset => w_sell id asset | _ => 0 end.

Lemma addBuyingLiabilities_books h d x d' :
  10 <= ledgerVersion h -> sane_entry d -> addBuyingLiabilities h d x = Ok (Some d') ->
  entry_posts d (- buy_rate (LedgerDataKey d) * x) d'.
Proof using.
  intros Hv Hs H. unfold entry_posts, addBuyingLiabilities in *.
  destruct (liabilities_read h d Hv) as [Eb _]. rewrite Eb in H. destruct d as [a|t| |]; try done.
  - cbn [mbind outcome_bind] in H.
    destruct (Z.eqb_spec x 0) as [->|]; [injection H as <-; split; [done|split; [done|lia]]|].
    destruct (Numeric.addBalance _ _ _) as [[b|]|] eqn:E; cbn [mbind outcome_bind] in H; try done.
    injection H as <-. cbn in Hs.
    rewrite s64_id in E by (unfold in_s64; unfold_ints; lia).
    apply numeric_addBalance_range in E; [|unfold_ints; lia..].
    split; [done|]. cbn. unfold set_buying, set_selling. unfold liabilities_of in *. cbn in *.
    split; [unfold_ints; lia|]. destruct E as (_ & -> & _). ring.
  - cbn [mbind outcome_bind] in H.
    destruct (Z.eqb_spec x 0) as [->|]; [injection H as <-; split; [done|split; [done|lia]]|].
    destruct (isAuthorized (TRUSTLINE t)) as [auth|] eqn:Ea; cbn [mbind outcome_bind] in H; [|done].
    destruct auth; [|done]. apply authorized_nonzero in Ea. cbn [negb] in H.
    destruct (Numeric.addBalance _ _ _) as [[b|]|] eqn:E; cbn [mbind outcome_bind] in H; try done.
    injection H as <-. cbn in Hs.
    rewrite s64_id in E by (unfold in_s64; unfold_ints; lia).
    apply numeric_addBalance_range in E; [|unfold_ints; lia..].
    split; [done|]. cbn. unfold set_buying, set_selling. unfold liabilities_of in *. cbn in *.
    split; [unfold_ints; lia|]. destruct E as (_ & -> & _). ring.
Qed.
Lemma addSellingLiabilities_books h d x d' :
  10 <= ledgerVersion h -> sane_entry d -> addSellingLiabilities h d x = Ok (Some d') ->
  entry_posts d (- sell_rate (LedgerDataKey d) * x) d'.
Proof using.
  intros Hv Hs H. unfold entry_posts, addSellingLiabilities in *.
  destruct (liabilities_read h d Hv) as [_ Es]. rewrite Es in H. destruct d as [a|t| |]; try done.
  - cbn [mbind outcome_bind] in H.
    destruct (Z.eqb_spec x 0) as [->|]; [injection H as <-; split; [done|split; [done|lia]]|].
    set (m := s64 (acc_balance a - _)) in H. destruct (Z.ltb_spec m 0); [done|].
    assert (Hm : m <= INT64_MAX) by (pose proof (s64_range (acc_balance a - getMinBalance h (acc_numSubEntries a))) as Hr;
      unfold in_s64 in Hr; unfold m; unfold_ints; lia).
    destruct (Numeric.addBalance _ _ _) as [[b|]|] eqn:E; cbn [mbind outcome_bind] in H; try done.
    injection H as <-. cbn in Hs. apply numeric_addBalance_range in E; [|unfold_ints; lia..].
    split; [done|]. cbn. unfold set_buying, set_selling. unfold liabilities_of in *. cbn in *.
    split; [unfold_ints; lia|]. destruct E as (_ & -> & _). ring.
  - cbn [mbind outcome_bind] in H.
    destruct (Z.eqb_spec x 0) as [->|]; [injection H as <-; split; [done|split; [done|lia]]|].
    destruct (isAuthorized (TRUSTLINE t)) as [auth|] eqn:Ea; cbn [mbind outcome_bind] in H; [|done].
    destruct auth; [|done]. apply authorized_nonzero in Ea. cbn [negb] in H.
    destruct (Numeric.addBalance _ _ _) as [[b|]|] eqn:E; cbn [mbind outcome_bind] in H; try done.
    injection H as <-. cbn in Hs. apply numeric_addBalance_range in E; [|unfold_ints; lia..].
    split; [done|]. cbn. unfold set_buying, set_selling. unfold liabilities_of in *. cbn in *.
    split; [unfold_ints; lia|]. destruct E as (_ & -> & _). ring.
Qed.
Lemma counter_exact y :
  -1 <= y <= 2147483648 -> 0 <= s32 (u32 y) -> u32 (s32 (u32 y)) = y /\ y < 2147483648 /\ 0 <= y.
Proof using.
  intros Hy Hr. destruct (decide (y = -1)) as [->|]; [by vm_compute in Hr|].
  destruct (decide (y = 2147483648)) as [->|]; [by vm_compute in Hr|].
  unfold s32, u32. rewrite (Z.mod_small y), (Z.mod_small (y + _)), Z.mod_small by lia. lia.
Qed.
Lemma addNumEntries_books h d x d' :
  sane_entry d -> x = 1 \/ x = -1 -> addNumEntries h d x = Ok (Some d') ->
  exists a, d = ACCOUNT a /\ entry_posts d (w_count (acc_id a) * x) d'.
Proof using.
  intros Hs Hx H. pose proof (addNumEntries_change h d x d' H) as (a & -> & ->). exists a. split; [done|].
  unfold entry_posts. cbn in Hs. unfold addNumEntries in H. cbn in H.
  assert (Hr : 0 <= s32 (u32 (acc_numSubEntries a + x))) by (revert H; destruct (Z.ltb_spec (s32 (u32 (acc_numSubEntries a + x))) 0); done).
  pose proof (counter_exact (acc_numSubEntries a + x) ltac:(lia) Hr) as E.
  destruct E as (-> & Hlt & Hge). split; [done|]. split; [cbn; lia|]. cbn. ring.
Qed.
(** Fewer sub-entries are never refused. *)
Lemma addNumEntries_drop h d d' x : addNumEntries h d (-1) = Ok d' -> d' = Some x \/ is_Some d'.
Proof using.
  unfold addNumEntries. destruct (account_of d); cbn [mbind outcome_bind]; [|done]. destruct (_ <? 0); [done|].
  destruct (10 <=? _); cbn; [destruct (getSellingLiabilities h d); cbn; [|done]|]; intros [= <-]; right; by eexists.
Qed.

(** ** Through handles *)
Lemma book_addBalance k x : keeps same_book (modify k (fun h e => addBalance h e x)).
Proof using.
  apply posts_keeps. intros s Hs. eapply wlp_mono.
  - apply (posts_modify k _ 0); [|exact Hs]. intros h d d' Hv <- Hd H.
    by apply (addBalance_books h d x d').
  - by intros [] s'.
Qed.
Lemma posts_addBuying k x :
  posts (modify k (fun h e => addBuyingLiabilities h e x)) (fun b : bool => if b then - buy_rate k * x else 0).
Proof using.
  apply posts_modify. intros h d d' Hv <- Hd H. by apply (addBuyingLiabilities_books h d x d').
Qed.
Lemma posts_addSelling k x :
  posts (modify k (fun h e => addSellingLiabilities h e x)) (fun b : bool => if b then - sell_rate k * x else 0).
Proof using.
  apply posts_modify. intros h d d' Hv <- Hd H. by apply (addSellingLiabilities_books h d x d').
Qed.
Lemma posts_addSubEntry id :
  posts (modify (KeyAccount id) (fun h e => addNumEntries h e 1)) (fun b : bool => if b then w_count id else 0).
Proof using.
  apply posts_modify. intros h d d' Hv Hk Hd H.
  apply addNumEntries_books in H as (a & -> & H); [|done|by left]. cbn in Hk. injection Hk as <-.
  destruct H as (E & ? & ->). split; [done|split; [done|lia]].
Qed.
Lemma posts_dropSubEntry id :
  posts (modify (KeyAccount id) (fun h e => addNumEntries h e (-1))) (fun _ => - w_count id).
Proof using.
  intros s Hs. apply wlp_modify. intros d Hd. pose proof Hs as (Hc & Hv & He).
  destruct (addNumEntries (st_header s) d (-1)) as [[d'|]|] eqn:E; [| |done].
  - apply addNumEntries_books in E as (a & -> & E & ? & Hp); [|by eapply He|by right].
    pose proof (Hc _ _ Hd) as Hk. cbn in Hk. injection Hk as Hk.
    eapply posted_eq; [apply posted_insert; [done|by rewrite E; cbn; rewrite Hk|done]|].
    unfold at_key. rewrite Hd, Hp, Hk. cbn -[posting]. lia.
  - by apply (addNumEntries_drop _ _ _ d) in E as [?|[? ?]].
Qed.
Lemma book_updateAccount k f :
  (forall a, acc_id (f a) = acc_id a /\ acc_balance (f a) = acc_balance a /\ acc_numSubEntries (f a) = acc_numSubEntries a /\
     acc_ext (f a) = acc_ext a /\ length (acc_signers (f a)) = length (acc_signers a)) ->
  keeps same_book (updateAccount k f).
Proof using.
  intros Hf. apply book_update. intros d d' Hk Hs. destruct d as [a| | |]; cbn; try done. intros [= <-].
  destruct (Hf a) as (E1 & E2 & E3 & E4 & E5). cbn in *. rewrite E1, E2, E3, E4, E5. done.
Qed.
Lemma book_normalizeSigners k : keeps same_book (update k normalizeSigners).
Proof using.
  apply book_update. intros d d' Hk Hs. destruct d as [a| | |]; cbn; try done. intros [= <-]. cbn.
  by rewrite (Permutation_length (merge_sort_Permutation signer_le (acc_signers a))).
Qed.
Lemma book_generateID : keeps same_book generateID.
Proof using.
  apply keeps_book_intro. intros s Hs. apply wlp_bind, wlp_currentHeader, wlp_bind, wlp_setHeader, wlp_ret.
  by apply posted_header.
Qed.
End Entries.
#[export] Hint Resolve book_addBalance book_normalizeSigners book_generateID : keeps.

(** * Offers stay where they are *)
Definition offers_kept (s s' : LedgerState) : Prop :=
  forall k o, st_entries s !! k = Some (OFFER o) -> st_entries s' !! k = Some (OFFER o).
#[export] Instance offers_kept_preorder : PreOrder offers_kept.
Proof. split; [intros s k o H; exact H|]. intros a b c H H' k o Ho. by apply H', H. Qed.

Lemma kept_modify k f : (forall h o d', f h (OFFER o) <> Ok (Some d')) -> keeps offers_kept (modify k f).
Proof.
  intros Hf s. apply wlp_modify. intros d Hd. destruct (f (st_header s) d) as [[d'|]|] eqn:E; [|done..].
  intros j o Ho. cbn. rewrite lookup_insert_ne; [done|]. intros ->. rewrite Hd in Ho. injection Ho as ->.
  by apply Hf in E.
Qed.
Lemma kept_addBalance k x : keeps offers_kept (modify k (fun h e => addBalance h e x)).
Proof. apply kept_modify. by intros h o d' [=]. Qed.
Lemma kept_addNumEntries k x : keeps offers_kept (modify k (fun h e => addNumEntries h e x)).
Proof. apply kept_modify. by intros h o d' [=]. Qed.
Lemma kept_addBuying k x : keeps offers_kept (modify k (fun h e => addBuyingLiabilities h e x)).
Proof.
  apply kept_modify. intros h o d'. unfold addBuyingLiabilities, getBuyingLiabilities.
  by destruct (_ <? _).
Qed.
Lemma kept_addSelling k x : keeps offers_kept (modify k (fun h e => addSellingLiabilities h e x)).
Proof.
  apply kept_modify. intros h o d'. unfold addSellingLiabilities, getSellingLiabilities.
  by destruct (_ <? _).
Qed.
#[export] Hint Resolve kept_addBalance kept_addNumEntries kept_addBuying kept_addSelling : keeps.
Lemma kept_line_addBalance w x : keeps offers_kept (line_addBalance w x).
Proof. apply keeps_getImpl; [exact _|]. intros []; cbn; keeps_easy. Qed.
Lemma kept_line_addBuying w x : keeps offers_kept (line_addBuyingLiabilities w x).
Proof. apply keeps_getImpl; [exact _|]. intros []; cbn; keeps_easy. Qed.
Lemma kept_line_addSelling w x : keeps offers_kept (line_addSellingLiabilities w x).
Proof. apply keeps_getImpl; [exact _|]. intros []; cbn; keeps_easy. Qed.
#[export] Hint Resolve kept_line_addBalance kept_line_addBuying kept_line_addSelling : keeps.
Lemma kept_acquireOrRelease k b : keeps offers_kept (acquireOrReleaseLiabilities k b).
Proof. unfold acquireOrReleaseLiabilities, loadAccount, loadTrustLine. keeps_auto. Qed.
#[export] Hint Resolve kept_acquireOrRelease : keeps.

(** * Liabilities of an offer *)
Section Liabilities.
Context `{B : Book}.

(** The wrapper of an account's line in an asset. *)
Definition wrapper_at (id : AccountID) (asset : Asset) (w : TrustLineWrapper) : Prop :=
  match w with
  | None => True
  | Some (NonIssuer k) => k = KeyTrustLine id asset /\ issues id asset = false
  | Some Issuer => issues id asset = true
  end.
Lemma wlp_makeWrapper_at id asset (Q : TrustLineWrapper -> LedgerState -> Prop) s :
  (forall w, wrapper_at id asset w -> Q w s) -> wlp (makeTrustLineWrapper id asset) Q s.
Proof using.
  intros HQ. unfold makeTrustLineWrapper. destruct (is_native asset); [done|].
  apply wlp_bind, wlp_lift. intros i Hi. destruct (Z.eqb_spec i id) as [->|Hn]; cbn [negb].
  - apply wlp_ret, HQ. cbn. unfold issues. rewrite Hi. apply Z.eqb_refl.
  - apply wlp_bind, wlp_exists_entry. intros [] _; apply wlp_ret, HQ; cbn; [|done].
    split; [done|]. unfold issues. rewrite Hi. by apply Z.eqb_neq.
Qed.
Lemma book_line_addBalance w x : keeps same_book (line_addBalance w x).
Proof using. apply keeps_getImpl; [exact _|]. intros []; cbn; keeps_easy. Qed.

Lemma wlp_getImpl {A} w (f : AbstractImpl -> M A) (Q : A -> LedgerState -> Prop) s :
  (forall i, w = Some i -> wlp (f (impl_of i)) Q s) -> wlp (i ← getImpl w; f i) Q s.
Proof using.
  intros Hf. unfold getImpl. destruct w as [i|]; [|done]. specialize (Hf i eq_refl).
  apply wlp_bind, wlp_bind. cbn [line_bool].
  assert (Hb : keeps eq (impl_bool (impl_of i))) by (destruct i; cbn; keeps_easy).
  eapply (wlp_keeps eq); [exact Hb|]. intros [] s' <-; [|done]. by apply wlp_ret.
Qed.
Lemma posts_line_addBuying id asset w x s0 s y (Q : bool -> LedgerState -> Prop) :
  wrapper_at id asset w -> posted s0 s y ->
  (forall (b : bool) s', posted s0 s' (y + (if b then if issues id asset then 0 else - w_buy id asset * x else 0)) -> Q b s') ->
  wlp (line_addBuyingLiabilities w x) Q s.
Proof using.
  intros Hw Hs HQ. apply wlp_getImpl. intros [k|] ->; cbn.
  - destruct Hw as [-> Ei]. eapply wlp_posts; [apply posts_addBuying|exact Hs|].
    intros b s' H. apply HQ. by rewrite Ei.
  - cbn in Hw. apply wlp_ret, HQ. rewrite Hw. by rewrite Z.add_0_r.
Qed.
Lemma posts_line_addSelling id asset w x s0 s y (Q : bool -> LedgerState -> Prop) :
  wrapper_at id asset w -> posted s0 s y ->
  (forall (b : bool) s', posted s0 s' (y + (if b then if issues id asset then 0 else - w_sell id asset * x else 0)) -> Q b s') ->
  wlp (line_addSellingLiabilities w x) Q s.
Proof using.
  intros Hw Hs HQ. apply wlp_getImpl. intros [k|] ->; cbn.
  - destruct Hw as [-> Ei]. eapply wlp_posts; [apply posts_addSelling|exact Hs|].
    intros b s' H. apply HQ. by rewrite Ei.
  - cbn in Hw. apply wlp_ret, HQ. rewrite Hw. by rewrite Z.add_0_r.
Qed.

Lemma offer_liabilities_range o :
  0 <= buying (offer_liabilities o) <= INT64_MAX /\ 0 <= selling (offer_liabilities o) <= INT64_MAX.
Proof using.
  unfold offer_liabilities. destruct (exchangeV10WithoutPriceErrorThresholds _ _ _ _ _ _) as [res|] eqn:E;
    [|cbn; unfold_ints; lia].
  unfold exchangeV10WithoutPriceErrorThresholds in E.
  apply outcome_bind_Ok in E as (wv & _ & E). apply outcome_bind_Ok in E as (sv & _ & E).
  apply outcome_bind_Ok in E as ([wr ss] & _ & E).
  destruct (_ || _) eqn:E1; [done|]. destruct ((ss <? 0) || _) eqn:E2; [done|]. injection E as <-.
  apply orb_false_iff in E1 as [E1%Z.ltb_ge E1'%Z.ltb_ge], E2 as [E2%Z.ltb_ge E2'%Z.ltb_ge].
  cbn. lia.
Qed.
Lemma offer_liabilities_read h o :
  10 <= ledgerVersion h ->
  (forall x, getOfferBuyingLiabilities h (OFFER o) = Ok x -> x = buying (offer_liabilities o)) /\
  (forall x, getOfferSellingLiabilities h (OFFER o) = Ok x -> x = selling (offer_liabilities o)).
Proof using.
  intros Hv. unfold getOfferBuyingLiabilities, getOfferSellingLiabilities, offer_liabilities.
  rewrite (proj2 (Z.ltb_ge _ _)) by done. cbn [offer_data mbind outcome_bind].
  destruct (exchangeV10WithoutPriceErrorThresholds _ _ _ _ _ _); cbn; split; intros x; try done; by intros [= <-].
Qed.
Lemma issues_native id a : is_native a = true -> issues id a = false.
Proof using. by destruct a. Qed.

Lemma wlp_acquireOrRelease k o (b : bool) (Q : unit -> LedgerState -> Prop) s0 s x :
  posted s0 s x -> st_entries s !! k = Some (OFFER o) ->
  (forall s', posted s0 s' (x + (if b then - pledged o else pledged o)) ->
     st_entries s' !! k = Some (OFFER o) -> Q tt s') ->
  wlp (acquireOrReleaseLiabilities k b) Q s.
Proof using.
  intros Hs Hk HQ.
  eapply wlp_mono;
    [apply (wlp_and _ (fun _ s' => posted s0 s' (x + (if b then - pledged o else pledged o))));
       [|apply (kept_acquireOrRelease k b)]
    |intros [] s' [H Hkept]; apply HQ; [exact H|by apply Hkept]].
  assert (Hv : 10 <= version s) by apply Hs. destruct (offer_liabilities_read (st_header s) o Hv) as [Lb Ls].
  destruct (offer_liabilities_range o) as [Rb Rs].
  unfold acquireOrReleaseLiabilities. apply wlp_bind, wlp_currentHeader.
  apply wlp_bind, wlp_current. rewrite Hk. intros d [= <-]. apply wlp_bind, wlp_lift. intros o' [= <-].
  destruct (bool_decide _); [done|]. cbv zeta.
  apply wlp_bind, wlp_lift. intros lb ->%Lb.
  set (nb := if b then _ else _). assert (Enb : nb = (if b then 1 else -1) * buying (offer_liabilities o))
    by (unfold nb; destruct b; [lia|rewrite s64_id; [lia|unfold in_s64; unfold_ints; lia]]).
  apply wlp_bind. apply (wlp_mono _ (fun _ s1 => posted s0 s1 (x +
    (if issues (of_seller o) (of_buying o) then 0 else - w_buy (of_seller o) (of_buying o) * nb)))).
  { destruct (is_native (of_buying o)) eqn:En.
    - rewrite (issues_native _ _ En). assert (of_buying o = ASSET_NATIVE) as -> by (by destruct (of_buying o)).
      unfold loadAccount. apply wlp_bind, wlp_bind, wlp_exists_entry. intros [] _; [|done]. apply wlp_ret.
      eapply wlp_posts_bind; [apply posts_addBuying|exact Hs|]. intros [] s1 H1; [|done]. by apply wlp_ret.
    - apply wlp_bind, wlp_bind. unfold loadTrustLine. apply wlp_makeWrapper_at. intros w Hw.
      apply wlp_bind. eapply (wlp_keeps eq); [apply keeps_line_bool; exact _|]. intros [] s1 <-; [|done]. apply wlp_ret.
      apply wlp_bind. eapply posts_line_addBuying; [exact Hw|exact Hs|]. intros [] s1 H1; [|done]. by apply wlp_ret. }
  intros [] s1 H1. apply wlp_bind, wlp_lift. intros ls ->%Ls.
  set (ns := if b then _ else _). assert (Ens : ns = (if b then 1 else -1) * selling (offer_liabilities o))
    by (unfold ns; destruct b; [lia|rewrite s64_id; [lia|unfold in_s64; unfold_ints; lia]]).
  apply (wlp_mono _ (fun _ s2 => posted s0 s2 (x +
    (if issues (of_seller o) (of_buying o) then 0 else - w_buy (of_seller o) (of_buying o) * nb) +
    (if issues (of_seller o) (of_selling o) then 0 else - w_sell (of_seller o) (of_selling o) * ns)))).
  { destruct (is_native (of_selling o)) eqn:En.
    - rewrite (issues_native _ _ En). assert (of_selling o = ASSET_NATIVE) as -> by (by destruct (of_selling o)).
      unfold loadAccount. apply wlp_bind, wlp_bind, wlp_exists_entry. intros [] _; [|done]. apply wlp_ret.
      eapply wlp_posts_bind; [apply posts_addSelling|exact H1|]. intros [] s2 H2; [|done]. by apply wlp_ret.
    - apply wlp_bind, wlp_bind. unfold loadTrustLine. apply wlp_makeWrapper_at. intros w Hw.
      apply wlp_bind. eapply (wlp_keeps eq); [apply keeps_line_bool; exact _|]. intros [] s2 <-; [|done]. apply wlp_ret.
      apply wlp_bind. eapply posts_line_addSelling; [exact Hw|exact H1|]. intros [] s2 H2; [|done]. by apply wlp_ret. }
  intros [] s2 H2. eapply posted_eq; [exact H2|]. rewrite Enb, Ens. unfold pledged.
  destruct b, (issues (of_seller o) (of_buying o)), (issues (of_seller o) (of_selling o)); lia.
Qed.
End Liabilities.
#[export] Hint Resolve book_line_addBalance : keeps.
