(* ===== verification/OperationBooks.v ===== *)
(** Every operation that succeeds keeps every book level.

    While an offer is being crossed its liabilities are released: the book is
    then off by what the offer at that key enters ([detached]), until the offer
    is erased or its liabilities are acquired again. *)

From stdpp Require Import sorting.
From S2P Require Import Prelude Numeric OfferMath Types Sums OfferOrder LedgerTxn LedgerTxnOffers InflationWinners.
From S2P Require Import LedgerState TransactionUtils OfferExchange Converting Accounting Operations Lumens Payments ManageOffers.
From S2P Require Import OperationLumens Books.

(** * Crossing offers *)

(** One bind that keeps the book. *)
Ltac book_step := eapply wlp_book_bind; [by keeps_auto|eassumption|intros ? ? ?].

Section Crossing.
Context `{B : Book}.

Definition detached (k : LedgerKey) (s s' : LedgerState) : Prop :=
  sane s -> forall o, st_entries s !! k = Some (OFFER o) ->
  exists o', st_entries s' !! k = Some (OFFER o') /\ of_seller o' = of_seller o /\
    posted s s' (posting (OFFER o') - posting (OFFER o)).
#[export] Instance detached_preorder k : PreOrder (detached k).
Proof using.
  split.
  - intros s Hs o Ho. exists o. split; [done|split; [done|]]. rewrite Z.sub_diag. by apply posted_refl.
  - intros a b c Hab Hbc Ha o Ho. destruct (Hab Ha o Ho) as (o1 & H1 & E1 & P1).
    destruct (Hbc (posted_sane _ _ _ P1) o1 H1) as (o2 & H2 & E2 & P2).
    exists o2. split; [done|split; [congruence|]]. eapply posted_eq; [by eapply posted_trans|lia].
Qed.
Lemma detached_same {A} k (m : M A) : keeps same_book m -> keeps offers_kept m -> keeps (detached k) m.
Proof using.
  intros Hb Hk s. eapply wlp_mono; [apply wlp_and; [apply Hb|apply Hk]|]. intros a s' [H H'] Hs o Ho.
  exists o. split; [by apply H'|split; [done|]]. rewrite Z.sub_diag. by apply H.
Qed.
Lemma detached_setOfferAmount k x : 0 <= x <= INT64_MAX -> keeps (detached k) (setOfferAmount k x).
Proof using.
  intros Hx s. apply wlp_bind, wlp_current. intros d Hd. apply wlp_bind, wlp_lift. intros o Ho.
  apply wlp_setCurrent. intros Hs o0 Ho0. rewrite Hd in Ho0. injection Ho0 as ->. injection Ho as <-.
  eexists. split; [apply lookup_insert_eq|]. split; [done|]. pose proof Hs as (Hc & _ & He).
  eapply posted_eq; [apply posted_insert; [done|apply (Hc _ _ Hd)|]|].
  - destruct (He _ _ Hd) as [Hp _]. done.
  - unfold at_key. by rewrite Hd.
Qed.
Lemma exchangeV10_received p mws mwr mss msr path res :
  exchangeV10 p mws mwr mss msr path = Ok res -> 0 <= numWheatReceived res <= Z.min mws mwr.
Proof using.
  unfold exchangeV10. intros H. apply outcome_bind_Ok in H as (before & Hb & H).
  assert (0 <= numWheatReceived before <= Z.min mws mwr) as Hr.
  { unfold exchangeV10WithoutPriceErrorThresholds in Hb.
    apply outcome_bind_Ok in Hb as (wv & _ & Hb). apply outcome_bind_Ok in Hb as (sv & _ & Hb).
    apply outcome_bind_Ok in Hb as ([wr ss] & _ & Hb).
    destruct (_ || _) eqn:E1; [done|]. destruct ((ss <? 0) || _) eqn:E2; [done|]. injection Hb as <-.
    apply orb_false_iff in E1 as [E1%Z.ltb_ge E1'%Z.ltb_ge]. cbn. lia. }
  enough (numWheatReceived res = numWheatReceived before \/ numWheatReceived res = 0) by lia.
  revert H. unfold applyPriceErrorThresholds. destruct (_ && _); [|intros [= <-]; cbn; auto].
  intros H. apply outcome_bind_Ok in H as (? & _ & H). apply outcome_bind_Ok in H as (? & _ & H).
  repeat (case_match; try done); apply outcome_bind_Ok in H as ([] & _ & H); try done;
    injection H as <-; auto.
Qed.
Lemma adjustOffer_range p w r x : OfferMath.adjustOffer p w r = Ok x -> 0 <= x <= INT64_MAX.
Proof using.
  unfold OfferMath.adjustOffer. intros H. apply outcome_bind_Ok in H as (res & H%exchangeV10_received & [= <-]).
  lia.
Qed.
Lemma detached_adjustOffer k a w wl sh sl : keeps (detached k) (adjustOffer k a w wl sh sl).
Proof using.
  intros s. unfold adjustOffer. do 3 (apply wlp_bind; eapply (wlp_keeps eq); [keeps_auto|intros ? _ <-]).
  apply wlp_bind, wlp_lift. intros x Hx%adjustOffer_range. by apply detached_setOfferAmount.
Qed.
Lemma book_addBalanceOrThrow what a asset l x : keeps same_book (addBalanceOrThrow what a asset l x).
Proof using. unfold addBalanceOrThrow. keeps_auto. Qed.
Lemma kept_addBalanceOrThrow what a asset l x : keeps offers_kept (addBalanceOrThrow what a asset l x).
Proof using. unfold addBalanceOrThrow. keeps_auto. Qed.
Lemma detached_addBalanceOrThrow k what a asset l x : keeps (detached k) (addBalanceOrThrow what a asset l x).
Proof using. apply detached_same; [apply book_addBalanceOrThrow|apply kept_addBalanceOrThrow]. Qed.
#[local] Hint Resolve detached_adjustOffer detached_addBalanceOrThrow : keeps.

(** The book is off by what the offer at [k] enters, and by its sub-entry. *)
Definition loose (s0 : LedgerState) (k : LedgerKey) (id : AccountID) (s : LedgerState) : Prop :=
  exists o, st_entries s !! k = Some (OFFER o) /\ of_seller o = id /\ posted s0 s (w_count id + posting (OFFER o)).
Lemma wlp_loose {A} s0 k id (m : M A) s :
  keeps (detached k) m -> loose s0 k id s -> wlp m (fun _ s' => loose s0 k id s') s.
Proof using.
  intros Hm (o & Hk & E & P). eapply (wlp_keeps (detached k)); [exact Hm|]. intros a s' H.
  destruct (H (posted_sane _ _ _ P) o Hk) as (o' & Hk' & E' & P').
  exists o'. split; [done|split; [congruence|]]. eapply posted_eq; [by eapply posted_trans|lia].
Qed.
Lemma wlp_loose_bind {A C} s0 k id (m : M A) (f : A -> M C) (Q : C -> LedgerState -> Prop) s :
  keeps (detached k) m -> loose s0 k id s -> (forall a s', loose s0 k id s' -> wlp (f a) Q s') -> wlp (m ≫= f) Q s.
Proof using. intros Hm Hs HQ. apply wlp_bind. eapply wlp_mono; [by eapply wlp_loose|]. auto. Qed.

(** The same, with the amount of the offer. *)
Definition loose_at (s0 : LedgerState) (k : LedgerKey) (id : AccountID) (amount : Z) (s : LedgerState) : Prop :=
  exists o, st_entries s !! k = Some (OFFER o) /\ of_seller o = id /\ of_amount o = amount /\
    posted s0 s (w_count id + posting (OFFER o)).
Lemma loose_at_loose s0 k id x s : loose_at s0 k id x s -> loose s0 k id s.
Proof using. intros (o & ? & ? & ? & ?). by exists o. Qed.
Lemma wlp_loose_at_bind {A C} s0 k id x (m : M A) (f : A -> M C) (Q : C -> LedgerState -> Prop) s :
  keeps same_book m -> keeps offers_kept m -> loose_at s0 k id x s ->
  (forall a s', loose_at s0 k id x s' -> wlp (f a) Q s') -> wlp (m ≫= f) Q s.
Proof using.
  intros Hb Hm (o & Hk & E & Ex & P) HQ. apply wlp_bind. eapply wlp_mono; [apply wlp_and; [apply Hb|apply Hm]|].
  intros a s' [H H']. apply HQ. exists o. split; [by apply H'|]. split; [done|]. split; [done|].
  by eapply posted_same.
Qed.

(** The last block: the offer is gone, or its liabilities are acquired again. *)
Lemma settled_offer s0 s id offerID res :
  loose s0 (KeyOffer id offerID) id s ->
  wlp (nested
        (found ← loadOffer id offerID;
         _ ← (match res with
              | eOfferTaken =>
                  _ ← eraseEntry (KeyOffer id offerID);
                  _ ← loadAccount id;
                  _ ← modify (KeyAccount id) (fun h e => addNumEntries h e (-1));
                  mret tt
              | _ => acquireLiabilities (KeyOffer id offerID)
              end);
         mret (true, tt))) (fun _ s' => posted s0 s' 0) s.
Proof using.
  intros (o & Hk & <- & Hs). apply wlp_nested. unfold loadOffer. apply wlp_bind, wlp_exists_entry. intros found _.
  apply wlp_bind.
  assert (Hacq : wlp (acquireLiabilities (KeyOffer (of_seller o) offerID)) (fun _ s' => posted s0 s' 0) s).
  { eapply wlp_acquireOrRelease; [exact Hs|exact Hk|]. intros s' H _. eapply posted_eq; [exact H|].
    cbn [posting]. lia. }
  apply (wlp_mono _ (fun _ s' => posted s0 s' 0)); [|intros [] s' H; apply wlp_ret; exact H].
  destruct res; [exact Hacq| |exact Hacq].
  apply wlp_bind. eapply wlp_erase_posted; [exact Hs|exact Hk|]. intros s1 H1.
  unfold loadAccount. apply wlp_bind, wlp_exists_entry. intros ? _.
  eapply wlp_posts_bind; [apply posts_dropSubEntry|exact H1|]. intros ? s2 H2. apply wlp_ret.
  eapply posted_eq; [exact H2|]. lia.
Qed.
(** The amount that is left. *)
Lemma wlp_left_amount s0 k id (stays : bool) o received (account : option LedgerKey) wheat wl sheep sl s :
  st_entries s !! k = Some (OFFER o) -> loose s0 k id s -> 0 <= received <= of_amount o -> of_amount o <= INT64_MAX ->
  wlp (if stays then
         offer ← currentOffer k;
         _ ← setOfferAmount k (s64 (of_amount offer - received));
         adjustOffer k account wheat wl sheep sl
       else setOfferAmount k 0) (fun _ s' => loose s0 k id s') s.
Proof using.
  intros Hk Hs Hr Ho. destruct stays.
  - eapply wlp_bind, wlp_currentOffer; [exact Hk|]. rewrite s64_id by (unfold in_s64; unfold_ints; lia).
    eapply wlp_loose_bind; [apply detached_setOfferAmount; lia|exact Hs|]. intros _ s1 D.
    apply wlp_loose; [apply detached_adjustOffer|exact D].
  - apply wlp_loose; [apply detached_setOfferAmount; unfold_ints; lia|exact Hs].
Qed.
Lemma book_crossOfferV10 k x y path : keeps same_book (crossOfferV10 k x y path).
Proof using.
  apply keeps_book_intro. intros s Hs. unfold crossOfferV10.
  do 2 (apply wlp_bind, wlp_lift; intros _ _).
  apply wlp_bind, wlp_bind, wlp_current. intros d Hk. apply wlp_lift. intros o Ho.
  destruct d as [| |o0|]; try done. injection Ho as ->.
  assert (k = KeyOffer (of_seller o) (of_offerID o)) as -> by (destruct Hs as [Hc _]; symmetry; apply (Hc _ _ Hk)).
  unfold loadAccountWithoutRecord. apply wlp_bind, wlp_exists_entry. intros [] _; [|done]. cbn [negb].
  apply wlp_bind. eapply wlp_acquireOrRelease; [by apply posted_refl|exact Hk|]. intros s1 H1 Hk1.
  assert (D : loose s (KeyOffer (of_seller o) (of_offerID o)) (of_seller o) s1)
    by (exists o; split; [done|split; [done|eapply posted_eq; [exact H1|cbn [posting]; lia]]]).
  clear H1 Hk1. revert s1 D.
  (* each step keeps the offer detached *)
  unfold loadAccount, loadTrustLineIfNotNative, loadTrustLine.
  do 5 (intros ? D; eapply wlp_loose_bind; [|exact D|clear D; intros ?]; [by keeps_auto|]).
  intros s2 (o2 & Hk2 & E2 & P2). eapply wlp_bind, wlp_currentOffer; [exact Hk2|].
  assert (D : loose_at s (KeyOffer (of_seller o) (of_offerID o)) (of_seller o) (of_amount o2) s2) by (by exists o2).
  destruct (posted_sane _ _ _ P2) as (_ & _ & He2). destruct (He2 _ _ Hk2) as [_ Ha2].
  clear He2 Hk2 E2 P2. revert s2 D.
  intros ? D. eapply wlp_loose_at_bind; [| |exact D|clear D; intros ?]; [by keeps_auto..|].
  intros ? D. apply wlp_bind, wlp_lift. intros res Hres%exchangeV10_received. revert D.
  do 2 (intros D; eapply wlp_loose_at_bind; [| |exact D|clear D; intros ? ?]; [by keeps_auto..|]).
  intros (o3 & Hk3 & E3 & Ea & P3). rewrite <- Ea in Hres, Ha2. apply wlp_bind.
  eapply wlp_mono.
  { apply (wlp_left_amount s (KeyOffer (of_seller o) (of_offerID o)) (of_seller o) (wheatStays res) o3); [done|by exists o3|lia|lia]. }
  intros ? s4 D. eapply wlp_loose_bind; [|exact D|clear D; intros ? ? D]; [by keeps_auto|].
  apply wlp_bind. eapply wlp_mono; [by apply settled_offer|]. intros [] s5 H. by apply wlp_ret.
Qed.

(** * Converting *)
Lemma book_convertRound sheep wheat x y path filter :
  keeps same_book (convertRound sheep wheat x y path filter).
Proof using.
  apply keeps_book_intro. intros s Hs. unfold convertRound. apply wlp_nested, wlp_bind.
  apply wlp_bestOffer_pair; [apply Hs|by apply wlp_ret, posted_refl|]. intros k o Hk _ _.
  eapply wlp_bind, wlp_currentOffer; [done|].
  apply wlp_bind, wlp_lift. intros stop _. destruct stop; [|by apply wlp_ret, posted_refl].
  apply wlp_bind, wlp_currentHeader.
  assert (Hv : 10 <= version s) by apply Hs. unfold version in Hv.
  rewrite (proj2 (Z.leb_le _ _)) by done.
  eapply wlp_book_bind; [apply book_crossOfferV10|by apply posted_refl|]. intros cr s1 H1.
  do 4 (apply wlp_bind, wlp_lift; intros _ _).
  destruct (cr_result cr); [| |by apply wlp_ret, posted_refl]; destruct (negb _); by apply wlp_ret.
Qed.
Lemma book_convertLoop fuel sheep wheat x y path filter ss wr tr :
  keeps same_book (convertLoop fuel sheep wheat x y path filter ss wr tr).
Proof using.
  revert x y ss wr tr. induction fuel as [|fuel IH]; intros; [keeps_easy|]. cbn [convertLoop].
  pose proof book_convertRound. keeps_auto.
Qed.
Lemma book_convertWithOffers sheep x wheat y path filter :
  keeps same_book (convertWithOffers sheep x wheat y path filter).
Proof using.
  unfold convertWithOffers. destruct (_ && _); [|keeps_easy]. intros s.
  pose proof (book_convertLoop (S (size (st_entries s))) sheep wheat x y path filter 0 0 [] s) as H.
  unfold wlp in *. destruct (convertLoop _ _ _ _ _ _ _ _ _ _ s) as [[[c|] s']|]; done.
Qed.
End Crossing.
#[export] Hint Resolve book_convertWithOffers book_addBalanceOrThrow : keeps.

(** * Operations *)

(** * Operations that keep the book *)
Section Keeping.
Context `{B : Book}.

(** If the operation succeeds, the book is as it was. *)
Definition levels {A} (m : M (bool * A)) : Prop :=
  forall s, sane s -> wlp m (fun r s' => r.1 = true -> posted s s' 0) s.
Lemma levels_keeps {A} (m : M (bool * A)) : keeps same_book m -> levels m.
Proof using. intros Hm s Hs. eapply wlp_book; [exact Hm|by apply posted_refl|]. auto. Qed.

Ltac settle_step := first
  [ eapply wlp_book_bind; [by keeps_auto|eassumption|intros ? ? ?]
  | match goal with
    | |- wlp (if ?b then _ else _) _ _ => destruct b eqn:?
    | |- wlp (mret (false, _)) _ _ => apply wlp_ret; by intros [=]
    | |- wlp (throw _) _ _ => exact I
    end ].

Lemma book_seqNum k n : keeps same_book (updateAccount k (set_seqNum n)).
Proof using. by apply book_updateAccount. Qed.
Lemma levels_BumpSequence src n : levels (BumpSequence_doApply src n).
Proof using.
  apply levels_keeps. unfold BumpSequence_doApply, loadSourceAccount, loadAccount, currentAccount.
  pose proof book_seqNum. keeps_auto.
Qed.

(** ** Payments *)
Lemma book_convertHop src a b x : keeps same_book (convertHop src a b x).
Proof using.
  unfold convertHop, issuerExists, assertM, loadAccountWithoutRecord, refuse, pass. keeps_auto.
Qed.
Lemma book_walkPath src path curB x offers : keeps same_book (walkPath src path curB x offers).
Proof using.
  revert curB x offers. induction path; intros; cbn [walkPath]; [keeps_easy|].
  pose proof book_convertHop. keeps_auto.
Qed.
Lemma book_PathPayment src op : keeps same_book (PathPayment_doApply src op).
Proof using.
  unfold PathPayment_doApply, guarded, creditDestination, debitSource, issuerExists, assertM,
    loadAccount, loadAccountWithoutRecord, loadTrustLine, refuse, pass.
  pose proof book_walkPath. keeps_auto.
Qed.
Lemma levels_Payment src op : levels (Payment_doApply src op).
Proof using.
  apply levels_keeps. unfold Payment_doApply, assertM. pose proof book_PathPayment. keeps_auto.
Qed.

(** ** Inflation *)
#[local] Hint Extern 1 (keeps same_book (updateHeader _)) => apply book_updateHeader; done : keeps.
Lemma book_dole A T w : keeps same_book (dole A T w).
Proof using. unfold dole, loadAccount, loadAccountWithoutRecord. keeps_auto. Qed.
Lemma book_doleLoop A T ws left payouts : keeps same_book (doleLoop A T ws left payouts).
Proof using.
  revert left payouts. induction ws; intros; cbn [doleLoop]; [keeps_easy|]. pose proof book_dole. keeps_auto.
Qed.
Lemma keeps_inflationWinners (R : LedgerState -> LedgerState -> Prop) `{!PreOrder R} n v :
  keeps R (inflationWinners n v).
Proof using. intros s. unfold wlp, inflationWinners. reflexivity. Qed.
Lemma levels_Inflation : levels Inflation_doApply.
Proof using.
  apply levels_keeps. unfold Inflation_doApply. pose proof book_doleLoop.
  pose proof keeps_inflationWinners. keeps_auto.
Qed.

(** ** Offers *)
Lemma book_settle what src asset x : keeps same_book (settle what src asset x).
Proof using. unfold settle, loadSourceAccount, loadAccount, loadTrustLine. keeps_auto. Qed.
Lemma book_computeParameters src o new : keeps same_book (computeOfferExchangeParameters src o new).
Proof using.
  intros s. unfold computeOfferExchangeParameters. apply wlp_nested, wlp_bind, wlp_currentHeader.
  do 3 (apply wlp_bind; eapply wlp_mono; [apply wlp_top|]; intros ? ? _). apply wlp_ret. cbn. reflexivity.
Qed.
Lemma wlp_remainingAmount src o stays x s :
  10 <= version s ->
  wlp (remainingAmount src o stays x) (fun r s' => s' = s /\ 0 <= r <= INT64_MAX) s.
Proof using.
  intros Hv. unfold remainingAmount, loadTrustLineWithoutRecordIfNotNative, loadAccountWithoutRecord.
  unfold version in Hv. apply wlp_bind, wlp_currentHeader. rewrite (proj2 (Z.leb_le _ _)) by done.
  destruct stays; [|apply wlp_ret; split; [done|unfold_ints; lia]].
  do 5 (apply wlp_bind; eapply (wlp_keeps eq); [by keeps_auto|intros ? _ <-]).
  apply wlp_lift. by intros r Hr%adjustOffer_range.
Qed.
(** Crossing the book keeps the books, and what is left is an amount. *)
Lemma wlp_crossOffers_posted src passive new o s0 s x :
  posted s0 s x ->
  wlp (crossOffers src passive new o)
    (fun r s' => posted s0 s' x /\ match r with inr (_, a) => 0 <= a <= INT64_MAX | inl _ => True end) s.
Proof using.
  intros Hs. unfold crossOffers, assertM.
  eapply wlp_book_bind; [apply book_computeParameters|exact Hs|]. intros [c|[mss mwr]] s1 H1; [by apply wlp_ret|].
  destruct (_ =? 0); [by apply wlp_ret|].
  eapply wlp_book_bind; [keeps_easy|exact H1|]. intros cv s2 H2. apply wlp_bind, wlp_lift. intros _ _.
  match goal with |- wlp (if ?b then _ else _) _ _ => destruct b end; [by apply wlp_ret|].
  pose proof book_settle. eapply wlp_book_bind; [by keeps_auto|exact H2|]. intros _ s3 H3.
  apply wlp_bind. eapply wlp_mono; [apply wlp_remainingAmount; apply H3|]. intros a _ [-> Ha]. by apply wlp_ret.
Qed.
Lemma wlp_startOffer_posted src op passive s :
  sane s ->
  wlp (startOffer src op passive)
    (fun r s' => forall o p, r = Some (o, p) ->
       (of_seller o = src /\ of_price o = mo_price op /\ of_amount o = mo_amount op) /\
       posted s s' (if mo_offerID op =? 0 then 0 else w_count src)) s.
Proof using.
  intros Hs. unfold startOffer. destruct (_ =? 0).
  { apply wlp_ret. intros o p [= <- _]. split; [done|]. by apply posted_refl. }
  unfold loadOffer. apply wlp_bind, wlp_exists_entry. intros [] _; [|by apply wlp_ret]. cbn [negb].
  apply wlp_bind, wlp_currentHeader.
  assert (Hv : 10 <= version s) by apply Hs. unfold version in Hv. rewrite (proj2 (Z.leb_le _ _)) by done.
  pose proof Hs as (Hc & _ & _). set (k := KeyOffer src (mo_offerID op)) in *.
  destruct (st_entries s !! k) as [d|] eqn:Hk.
  2:{ unfold releaseLiabilities, acquireOrReleaseLiabilities.
      apply wlp_bind, wlp_bind, wlp_currentHeader, wlp_bind, wlp_current. by rewrite Hk. }
  pose proof (Hc _ _ Hk) as Hkey. unfold k in Hkey. destruct d as [| |o|]; try done.
  cbn in Hkey. injection Hkey as Hseller Hid.
  apply wlp_bind. eapply wlp_acquireOrRelease; [by apply posted_refl|exact Hk|]. intros s1 H1 Hk1.
  eapply wlp_bind, wlp_currentOffer; [exact Hk1|]. apply wlp_bind.
  eapply wlp_erase_posted; [exact H1|exact Hk1|]. intros s2 H2. apply wlp_ret.
  intros o' p [= <- _]. repeat (split; [done|]). eapply posted_eq; [exact H2|]. cbn [posting]. rewrite Hseller. lia.
Qed.
Lemma wlp_placeOffer_posted src new offer s0 s :
  of_seller offer = src -> valid_price (of_price offer) -> of_amount offer <= INT64_MAX ->
  posted s0 s (if new : bool then 0 else w_count src) ->
  wlp (placeOffer src new offer)
    (fun r s' => match r with inr _ => posted s0 s' 0 | inl _ => True end) s.
Proof using.
  intros Hsel Hp Ha Hs. unfold placeOffer. apply wlp_bind, wlp_currentHeader.
  assert (Hv : 10 <= ledgerVersion (st_header s)) by apply Hs.
  destruct (Z.ltb_spec 0 (of_amount offer)).
  - apply wlp_bind. apply (wlp_mono _ (fun r s' => forall o, r = Some o ->
      (of_seller o = src /\ sane_entry (OFFER o)) /\ posted s0 s' (w_count src))).
    { destruct new; [|apply wlp_ret; intros o [= <-]; split; [split; [done|split; [done|cbn; lia]]|done]].
      unfold loadSourceAccount, loadAccount. apply wlp_bind, wlp_exists_entry. intros _ _.
      eapply wlp_posts_bind; [apply posts_addSubEntry|exact Hs|]. intros [] s1 H1; cbn [negb].
      - eapply wlp_book_bind; [keeps_easy|exact H1|]. intros id s2 H2. apply wlp_ret.
        intros o [= <-]. split; [|done]. split; [done|]. split; [done|cbn; lia].
      - apply wlp_ret. by intros o [=]. }
    intros [o|] s1 H1; [|by apply wlp_ret]. destruct (H1 o eq_refl) as [[Ho Hsane] H1']. clear H1.
    rewrite (proj2 (Z.leb_le _ _)) by done. apply wlp_bind, wlp_create. intros Hn.
    assert (H2 : posted s0 (set_entries (<[LedgerDataKey (OFFER o) := OFFER o]> (st_entries s1)) s1)
      (pledged o)).
    { eapply posted_eq; [eapply posted_trans; [exact H1'|apply posted_insert; [apply H1'|done|done]]|].
      unfold at_key. rewrite Hn. cbn [posting from_option]. rewrite Ho. lia. }
    apply wlp_bind. eapply wlp_acquireOrRelease; [exact H2|apply lookup_insert_eq|]. intros s3 H3 _.
    apply wlp_ret. eapply posted_eq; [exact H3|]. lia.
  - apply wlp_bind. apply (wlp_mono _ (fun _ s' => posted s0 s' 0)); [|intros [] s9 H9; by apply wlp_ret].
    destruct new; cbn [negb]; [by apply wlp_ret|].
    unfold loadSourceAccount, loadAccount. apply wlp_bind, wlp_exists_entry. intros _ _.
    eapply wlp_posts_bind; [apply posts_dropSubEntry|exact Hs|]. intros ? s1 H1. apply wlp_ret.
    eapply posted_eq; [exact H1|]. lia.
Qed.
Lemma book_checkOfferValid src op : keeps same_book (checkOfferValid src op).
Proof using.
  unfold checkOfferValid, checkSheepLine, checkWheatLine, loadTrustLine, loadAccount. keeps_auto.
Qed.
Lemma levels_ManageOffer src passive op :
  valid_price (mo_price op) -> 0 <= mo_amount op <= INT64_MAX -> levels (ManageOffer_doApply src passive op).
Proof using.
  intros Hp Ha s Hs. unfold ManageOffer_doApply. apply wlp_nested.
  eapply wlp_book_bind; [apply book_checkOfferValid|by apply posted_refl|]. intros [c|] s1 H1.
  { apply wlp_ret. by intros [=]. }
  apply wlp_bind. eapply wlp_mono; [apply wlp_startOffer_posted, H1|].
  intros [[o p]|] s2 H2; [|apply wlp_ret; by intros [=]].
  destruct (H2 o p eq_refl) as [(Hsel & Eprice & Eamount) H2']. clear H2.
  pose proof (posted_trans _ _ _ _ _ H1 H2') as H2.
  apply wlp_bind. eapply wlp_mono.
  { apply (wlp_mono _ (fun r s' => posted s s' (0 + (if mo_offerID op =? 0 then 0 else w_count src)) /\
      match r with inr (_, a) => 0 <= a <= INT64_MAX | inl _ => True end)).
    - destruct (0 <? mo_amount op); [by apply wlp_crossOffers_posted|]. apply wlp_ret. split; [done|]. by rewrite Eamount.
    - intros r s3 H3. exact H3. }
  intros [c|[claimed x]] s3 [H3 Hx]; [apply wlp_ret; by intros [=]|].
  apply wlp_bind. eapply wlp_mono; [apply (wlp_placeOffer_posted src _ _ s)|].
  { done. }
  { cbn. by rewrite Eprice. }
  { apply Hx. }
  { exact H3. }
  intros [c|e] s4 H4; apply wlp_ret; [by intros [=]|]. intros _. exact H4.
Qed.
Lemma buying_None : buying (liabilities_of None) = 0.
Proof using. done. Qed.
Lemma selling_None : selling (liabilities_of None) = 0.
Proof using. done. Qed.

(** ** Data entries and trust lines *)
Lemma wlp_exists_case k (Q : bool -> LedgerState -> Prop) s :
  (forall d, st_entries s !! k = Some d -> Q true s) -> (st_entries s !! k = None -> Q false s) ->
  wlp (exists_entry k) Q s.
Proof using.
  intros HS HN. apply wlp_exists_entry. intros [] [H1 H2].
  - destruct (H1 eq_refl) as [d Hd]. by eapply HS.
  - apply HN. destruct (st_entries s !! k); [|done]. by discriminate H2.
Qed.
Lemma wlp_dropSubEntry {A} src (f : bool -> M A) (Q : A -> LedgerState -> Prop) s0 s x :
  posted s0 s x -> (forall b s', posted s0 s' (x - w_count src) -> wlp (f b) Q s') ->
  wlp (_ ← loadAccount src; r ← modify (KeyAccount src) (fun h e => addNumEntries h e (-1)); f r) Q s.
Proof using.
  intros Hs HQ. unfold loadAccount. apply wlp_bind, wlp_exists_entry. intros _ _.
  eapply wlp_posts_bind; [apply posts_dropSubEntry|exact Hs|]. intros b s' H. apply HQ.
  eapply posted_eq; [exact H|]. cbv beta. lia.
Qed.
Lemma levels_ManageData src op : levels (ManageData_doApply src op).
Proof using.
  intros s Hs. pose proof Hs as (Hc & _). apply posted_refl in Hs as Hr. unfold ManageData_doApply.
  apply wlp_bind, wlp_currentHeader. destruct (_ =? 3); [done|].
  unfold loadData. set (k := KeyData src (md_dataName op)). apply wlp_bind, wlp_exists_case; [intros d Hk|intros Hk]; cbn [negb].
  - pose proof (Hc _ _ Hk) as Hkey.
    destruct d as [| | |da]; try done. injection Hkey as Hacc _.
    destruct (md_dataValue op) as [v|].
    + apply wlp_bind, wlp_setCurrent, wlp_ret. intros _.
      eapply posted_eq; [by apply posted_insert|]. unfold at_key. rewrite Hk. cbn. rewrite Hacc. lia.
    + apply wlp_bind. eapply wlp_erase_posted; [exact Hr|exact Hk|]. intros s1 H1.
      eapply wlp_dropSubEntry; [exact H1|]. intros b s2 H2. apply wlp_ret. intros _.
      eapply posted_eq; [exact H2|]. cbn. rewrite Hacc. lia.
  - destruct (md_dataValue op) as [v|]; [|apply wlp_ret; by intros [=]].
    unfold loadSourceAccount, loadAccount. apply wlp_bind, wlp_exists_entry. intros _ _.
    eapply wlp_posts_bind; [apply posts_addSubEntry|exact Hr|]. intros [] s1 H1; cbn [negb];
      [|apply wlp_ret; by intros [=]].
    eapply wlp_posts_bind; [by apply posts_create|exact H1|]. intros ? s2 H2. apply wlp_ret. intros _.
    eapply posted_eq; [exact H2|]. cbn. lia.
Qed.

Lemma levels_ChangeTrust src op :
  0 <= ct_limit op <= INT64_MAX -> levels (ChangeTrust_doApply src op).
Proof using.
  intros Hl s Hs. pose proof Hs as (Hc & Hv & He). apply posted_refl in Hs as Hr. unfold ChangeTrust_doApply.
  apply wlp_bind, wlp_currentHeader. apply wlp_bind, wlp_lift. intros i Hi.
  destruct (_ && _); [apply wlp_ret; by intros [=]|]. destruct (i =? src) eqn:Eis.
  { destruct (_ <? _); [apply wlp_ret; by intros [=]|]. unfold loadAccountWithoutRecord.
    apply wlp_bind, wlp_exists_entry. intros [] _; apply wlp_ret; [done|by intros [=]]. }
  set (k := KeyTrustLine src (ct_line op)). apply wlp_bind, wlp_exists_case; [intros d Hk|intros Hk].
  - apply wlp_bind, wlp_read. intros d' m Hd' Hm. rewrite Hk in Hd'. injection Hd' as <-.
    pose proof (Hc _ _ Hk) as Hkey. destruct d as [|t| |]; try done. injection Hkey as Hacc Hasset.
    pose proof (He _ _ Hk) as Ht. cbn in Ht.
    assert (m = tl_balance t + buying (liabilities_of (tl_ext t))) as ->.
    { unfold getMinimumLimit in Hm. rewrite (proj2 (Z.leb_le _ _)) in Hm by done.
      rewrite (proj1 (liabilities_read _ (TRUSTLINE t) Hv)) in Hm. cbn [trustLine_of mbind outcome_bind] in Hm.
      injection Hm as <-. apply s64_id. unfold in_s64; unfold_ints; lia. }
    destruct (Z.ltb_spec (ct_limit op) (tl_balance t + buying (liabilities_of (tl_ext t))));
      [apply wlp_ret; by intros [=]|].
    destruct (Z.eqb_spec (ct_limit op) 0) as [E0|].
    + apply wlp_bind. eapply wlp_erase_posted; [exact Hr|exact Hk|]. intros s1 H1.
      eapply wlp_dropSubEntry; [exact H1|]. intros b s2 H2. apply wlp_ret. intros _.
      eapply posted_eq; [exact H2|]. cbn. rewrite Hacc.
      assert (buying (liabilities_of (tl_ext t)) = 0) as -> by lia.
      assert (selling (liabilities_of (tl_ext t)) = 0) as -> by lia. lia.
    + unfold loadAccountWithoutRecord. apply wlp_bind, wlp_exists_entry. intros [] _; cbn [negb];
        [|apply wlp_ret; by intros [=]].
      apply wlp_bind, wlp_bind, wlp_current. rewrite Hk. intros d [= <-].
      apply wlp_bind, wlp_lift. intros d' [= <-]. apply wlp_setCurrent, wlp_ret. intros _.
      eapply posted_eq; [apply posted_insert; [done|cbn; unfold k; congruence|cbn; tauto]|].
      unfold at_key. rewrite Hk. cbn. lia.
  - destruct (_ =? 0); [apply wlp_ret; by intros [=]|].
    unfold loadAccountWithoutRecord. apply wlp_bind, wlp_exists_entry. intros [] _; cbn [negb];
      [|apply wlp_ret; by intros [=]].
    unfold loadSourceAccount, loadAccount. apply wlp_bind, wlp_exists_entry. intros _ _.
    eapply wlp_posts_bind; [apply posts_addSubEntry|exact Hr|]. intros [] s1 H1; cbn [negb];
      [|apply wlp_ret; by intros [=]].
    apply wlp_bind, wlp_read. intros d required _ _.
    eapply wlp_posts_bind; [apply posts_create|exact H1|].
    { cbn. rewrite buying_None, selling_None. assert (is_native (ct_line op) = false) by (by destruct (ct_line op)).
      intuition lia. }
    intros ? s2 H2. apply wlp_ret. intros _. eapply posted_eq; [exact H2|]. cbn. rewrite buying_None, selling_None. lia.
Qed.

(** ** Accounts *)
Lemma levels_CreateAccount src op :
  0 <= ca_startingBalance op -> levels (CreateAccount_doApply src op).
Proof using.
  intros Hb s Hs. apply posted_refl in Hs as Hr. unfold CreateAccount_doApply, loadAccount.
  apply wlp_bind, wlp_exists_entry. intros [] _; cbn [negb]; [apply wlp_ret; by intros [=]|].
  apply wlp_bind, wlp_currentHeader. destruct (_ <? _); [apply wlp_ret; by intros [=]|].
  eapply wlp_book_bind; [unfold loadAccountWithoutRecord; by keeps_auto|exact Hr|]. intros ex s1 H1.
  eapply wlp_book_bind; [unfold loadSourceAccount, loadAccount; by keeps_auto|exact H1|]. intros _ s2 H2.
  apply wlp_bind, wlp_read. intros d avail Hd Ha.
  destruct (Z.ltb_spec avail (ca_startingBalance op)) as [|Hle]; [apply wlp_ret; by intros [=]|].
  assert (avail <= INT64_MAX).
  { unfold getAvailableBalance in Ha. apply outcome_bind_Ok in Ha as (x & _ & Ha).
    assert (10 <= version s2) as Hv by apply H2. unfold version in Hv.
    rewrite (proj2 (Z.leb_le _ _)) in Ha by done. apply outcome_bind_Ok in Ha as (y & _ & Ha).
    injection Ha as <-. apply s64_range. }
  destruct ex; cbn [negb]; [|done].
  eapply wlp_book_bind; [keeps_easy|exact H2|]. intros ok s3 H3. apply wlp_bind, wlp_lift. intros _ _.
  eapply wlp_posts_bind; [apply posts_create|exact H3|].
  { cbn. rewrite buying_None, selling_None. unfold_ints; lia. }
  intros ? s4 H4. apply wlp_ret. intros _. eapply posted_eq; [exact H4|].
  cbn. rewrite buying_None, selling_None. lia.
Qed.

(** ** Signers *)
Lemma wlp_updateSigners id a f (Q : unit -> LedgerState -> Prop) s0 s x :
  posted s0 s x -> st_entries s !! KeyAccount id = Some (ACCOUNT a) ->
  (acc_id (f a) = acc_id a /\ acc_balance (f a) = acc_balance a /\ acc_numSubEntries (f a) = acc_numSubEntries a /\
     acc_ext (f a) = acc_ext a) ->
  (forall s', posted s0 s' (x + w_count id *
       (Z.of_nat (length (acc_signers a)) - Z.of_nat (length (acc_signers (f a))))) ->
     st_entries s' !! KeyAccount id = Some (ACCOUNT (f a)) -> Q tt s') ->
  wlp (updateAccount (KeyAccount id) f) Q s.
Proof using.
  intros Hs Hk (E1 & E2 & E3 & E4) HQ. apply wlp_bind, wlp_current. rewrite Hk. intros d [= <-].
  apply wlp_bind, wlp_lift. intros d' [= <-]. apply wlp_setCurrent.
  pose proof (posted_sane _ _ _ Hs) as (Hc & _ & He). pose proof (Hc _ _ Hk) as Hkey. cbn in Hkey. injection Hkey as Hid.
  apply HQ; [|apply lookup_insert_eq].
  eapply posted_eq; [eapply posted_trans; [exact Hs|apply posted_insert; [apply Hs|cbn; congruence|]]|].
  - pose proof (He _ _ Hk) as Ha. cbn in *. by rewrite E2, E3, E4.
  - unfold at_key. rewrite Hk. cbn. rewrite E1, E3, E4, Hid. lia.
Qed.
Lemma wlp_numEntries_signers k x a s :
  st_entries s !! k = Some (ACCOUNT a) ->
  wlp (modify k (fun h e => addNumEntries h e x))
    (fun _ s' => exists a', st_entries s' !! k = Some (ACCOUNT a') /\ acc_signers a' = acc_signers a) s.
Proof using.
  intros Hk. apply wlp_modify. intros d Hd. rewrite Hk in Hd. injection Hd as <-.
  destruct (addNumEntries _ _ _) as [[d'|]|] eqn:E; [|by exists a|done].
  apply addNumEntries_change in E as (a0 & [= <-] & ->). eexists. split; [apply lookup_insert_eq|done].
Qed.
Lemma wlp_deleteSigners id key done_ rest a s0 s :
  posted s0 s 0 -> st_entries s !! KeyAccount id = Some (ACCOUNT a) -> acc_signers a = done_ ++ rest ->
  wlp (deleteSigners (KeyAccount id) key done_ rest) (fun _ s' => posted s0 s' 0) s.
Proof using.
  revert done_ a s. induction rest as [|old rest IH]; intros done_ a s Hs Hk Ha; cbn [deleteSigners]; [by apply wlp_ret|].
  case_bool_decide.
  - apply wlp_bind. eapply wlp_updateSigners; [exact Hs|exact Hk|done|]. intros s1 H1 Hk1. apply wlp_bind.
    eapply wlp_mono; [apply wlp_and; [|by eapply wlp_numEntries_signers]|].
    { eapply wlp_posts; [apply posts_dropSubEntry|exact H1|]. intros b s2 H2. exact H2. }
    intros b s2 [H2 (a' & Hk2 & Ha')]. eapply IH; [|exact Hk2|exact Ha'].
    eapply posted_eq; [exact H2|]. cbn -[length]. rewrite Ha, !length_app. cbn [length]. lia.
  - eapply IH; [exact Hs|exact Hk|]. by rewrite Ha, <- app_assoc.
Qed.
Lemma wlp_updateSigner id signer s0 s :
  posted s0 s 0 -> wlp (updateSigner (KeyAccount id) signer)
    (fun r s' => r = None -> posted s0 s' 0) s.
Proof using.
  intros Hs. unfold updateSigner. apply wlp_bind, wlp_currentAccount. intros a Hk. apply wlp_bind.
  apply (wlp_mono _ (fun r s' => r = None -> posted s0 s' 0)).
  - destruct (negb _).
    + destruct (hasSigner _ _).
      * apply wlp_bind. eapply wlp_updateSigners; [exact Hs|exact Hk|done|]. intros s1 H1 _. apply wlp_ret. intros _.
        eapply posted_eq; [exact H1|]. unfold changeSigner. cbn. rewrite length_fmap. lia.
      * destruct (Nat.eqb _ _); [apply wlp_ret; by intros [=]|]. apply wlp_bind.
        eapply wlp_mono; [apply wlp_and; [|by eapply wlp_numEntries_signers]|].
        { eapply wlp_posts; [apply posts_addSubEntry|exact Hs|]. intros b s2 H2. exact H2. }
        intros [] s2 [H2 (a' & Hk2 & Ha')]; cbn [negb]; [|apply wlp_ret; by intros [=]].
        apply wlp_bind. eapply wlp_updateSigners; [exact H2|exact Hk2|done|]. intros s3 H3 _. apply wlp_ret. intros _.
        eapply posted_eq; [exact H3|]. cbn. rewrite length_app. cbn [length]. lia.
    + apply wlp_bind. eapply wlp_mono; [by eapply wlp_deleteSigners|]. intros ? s1 H1. by apply wlp_ret.
  - intros [c|] s1 H1; [apply wlp_ret; by intros [=]|].
    eapply wlp_book_bind; [apply book_normalizeSigners|by apply H1|]. intros _ s2 H2. by apply wlp_ret.
Qed.
#[local] Hint Extern 1 (keeps same_book (updateAccount _ _)) => apply book_updateAccount; done : keeps.
Lemma levels_SetOptions src op : levels (SetOptions_doApply src op).
Proof using.
  intros s Hs%posted_refl. unfold SetOptions_doApply, orFail, updateInflationDest, updateFlags, updateThreshold,
    loadSourceAccount, loadAccount, loadAccountWithoutRecord.
  eapply wlp_book_bind; [keeps_easy|exact Hs|intros ? ? ?].
  do 3 (eapply wlp_book_bind; [by keeps_auto|eassumption|]; intros [c|] ? ?; [apply wlp_ret; by intros [=]|]).
  do 5 (eapply wlp_book_bind; [by keeps_auto|eassumption|intros ? ? ?]).
  apply wlp_bind. apply (wlp_mono _ (fun r s' => r = None -> posted s s' 0)).
  - destruct (so_signer op); [by apply wlp_updateSigner|by apply wlp_ret].
  - intros [c|] s9 H'; apply wlp_ret; [by intros [=]|]. intros _. by apply H'.
Qed.
End Keeping.
