(* ===== verification/TransactionBooks.v ===== *)
(** Every transaction keeps the ledger balanced: its entries in range, and
    every book level.

    AllowTrust and AccountMerge need more of the ledger than the book they post
    to: that the offers removed with an authorization are all there were, and
    that an account without sub-entries has no offers. *)

From stdpp Require Import sorting.
From S2P Require Import Prelude Numeric OfferMath Types Sums OfferOrder LedgerTxn LedgerTxnOffers InflationWinners.
From S2P Require Import LedgerState TransactionUtils OfferExchange Converting Accounting Operations Lumens Payments ManageOffers.
From S2P Require Import OperationLumens Transactions TransactionEffects Conservation Books OperationBooks.

(** * Balanced ledgers *)

(** In range, and every book level. *)
Definition balanced (s : LedgerState) : Prop := sane s /\ forall B : Book, book_of s = 0.

Definition counting (id : AccountID) : Book := {|
  w_count i := if i =? id then 1 else 0; w_buy _ _ := 0; w_sell _ _ := 0 |}.
Definition buying_in (id : AccountID) (asset : Asset) : Book := {|
  w_count _ := 0;
  w_buy i a := if bool_decide (i = id /\ a = asset) then 1 else 0;
  w_sell _ _ := 0 |}.
Definition selling_in (id : AccountID) (asset : Asset) : Book := {|
  w_count _ := 0;
  w_buy _ _ := 0;
  w_sell i a := if bool_decide (i = id /\ a = asset) then 1 else 0 |}.

Lemma wlp_forall {A X} (m : M A) (Q : X -> A -> LedgerState -> Prop) s :
  (forall x, wlp m (Q x) s) -> wlp m (fun a s' => forall x, Q x a s') s.
Proof. unfold wlp. by destruct (m s) as [[a s']|]. Qed.
Lemma posted_balanced s s' : balanced s -> (forall B : Book, posted s s' 0) -> balanced s'.
Proof.
  intros [_ Hb] H. split; [apply (H (counting 0))|]. intros B. destruct (H B) as (_ & _ & ->).
  by rewrite Hb.
Qed.
Lemma balanced_levels {A} (m : M (bool * A)) s :
  (forall B : Book, levels m) -> balanced s -> wlp m (fun r s' => r.1 = true -> balanced s') s.
Proof.
  intros Hm Hs. eapply wlp_mono; [apply (wlp_forall _ (fun (B : Book) r s' => r.1 = true -> posted s s' 0))|].
  - intros B. apply Hm, Hs.
  - intros r s' H Hr. apply (posted_balanced s); [done|]. intros B. by apply H.
Qed.

(** A level book of which only one entry has a part. *)
Lemma level_alone `{B : Book} s k d :
  book_of s = 0 -> st_entries s !! k = Some d ->
  (forall j d', j <> k -> st_entries s !! j = Some d' -> posting d' = 0) -> posting d = 0.
Proof.
  intros Hb Hk Hrest. unfold book_of in Hb.
  assert (E : msum (fun _ d => posting d) (delete k (st_entries s)) = 0).
  { apply msum_zero. intros j d' [? ?]%lookup_delete_Some. by eapply Hrest. }
  rewrite msum_delete in E. unfold at_key in E. rewrite Hk in E. cbn in E. lia.
Qed.

(** A line none of whose offers are on the book has no liabilities. *)
Definition no_offers_in (id : AccountID) (asset : Asset) (s : LedgerState) : Prop :=
  forall k o, st_entries s !! k = Some (OFFER o) -> of_seller o = id ->
    of_buying o <> asset /\ of_selling o <> asset.
Lemma line_unpledged s id asset t :
  balanced s -> asset <> ASSET_NATIVE -> no_offers_in id asset s ->
  st_entries s !! KeyTrustLine id asset = Some (TRUSTLINE t) ->
  buying (liabilities_of (tl_ext t)) = 0 /\ selling (liabilities_of (tl_ext t)) = 0.
Proof.
  intros [(Hc & _) Hb] Hn Ho Hk. pose proof (Hc _ _ Hk) as Hkey. injection Hkey as Hacc Hasset.
  assert (Hrest : forall j d, j <> KeyTrustLine id asset -> st_entries s !! j = Some d ->
    posting (B := buying_in id asset) d = 0 /\ posting (B := selling_in id asset) d = 0).
  { intros j d Hj Hd. pose proof (Hc _ _ Hd) as Hkd. destruct d as [a|t'|o|da]; cbn.
    - rewrite !bool_decide_eq_false_2 by naive_solver. lia.
    - rewrite !bool_decide_eq_false_2 by (intros [<- <-]; by apply Hj). lia.
    - unfold pledged. cbn. rewrite !bool_decide_eq_false_2 by (intros [H1 H2]; destruct (Ho _ _ Hd H1); congruence). by repeat case_match.
    - done. }
  pose proof (level_alone (B := buying_in id asset) s _ _ (Hb _) Hk (fun j d Hj Hd => proj1 (Hrest j d Hj Hd))) as E1.
  pose proof (level_alone (B := selling_in id asset) s _ _ (Hb _) Hk (fun j d Hj Hd => proj2 (Hrest j d Hj Hd))) as E2.
  cbn in E1, E2. rewrite bool_decide_eq_true_2 in E1, E2 by done. lia.
Qed.

(** An account with no sub-entries but its signers owns no entry, and has no
    liabilities. *)
Definition owner (d : LedgerEntryData) : AccountID :=
  match d with
  | ACCOUNT a => acc_id a | TRUSTLINE t => tl_account t | OFFER o => of_seller o | DATA d => da_account d
  end.
Lemma counting_posting id d :
  is_account_key (LedgerDataKey d) = false ->
  posting (B := counting id) d = if owner d =? id then -1 else 0.
Proof.
  destruct d as [a|t|o|da]; cbn; try done; intros _; try (destruct (_ =? id); lia).
  unfold pledged. cbn. repeat case_match; lia.
Qed.
Lemma unowned s id a :
  balanced s -> st_entries s !! KeyAccount id = Some (ACCOUNT a) ->
  acc_numSubEntries a = Z.of_nat (length (acc_signers a)) ->
  forall j d, j <> KeyAccount id -> st_entries s !! j = Some d -> owner d <> id.
Proof.
  intros [(Hc & _) Hb] Hk Hn j d Hj Hd Howner.
  pose proof (Hc _ _ Hk) as Hkey. injection Hkey as Hid.
  specialize (Hb (counting id)). unfold book_of in Hb.
  set (f := fun (_ : LedgerKey) d => posting (B := counting id) d) in *.
  assert (Hneg : forall k d, st_entries s !! k = Some d -> f k d <= 0).
  { intros k d' Hd'. unfold f. destruct (is_account_key (LedgerDataKey d')) eqn:E.
    - destruct d' as [a'| | |]; try done. cbn. destruct (Z.eqb_spec (acc_id a') id) as [Ei|]; [|lia].
      pose proof (Hc _ _ Hd') as Hk'. cbn in Hk'. rewrite Ei in Hk'. subst k. rewrite Hk in Hd'. injection Hd' as <-. lia.
    - rewrite counting_posting by done. destruct (_ =? _); lia. }
  assert (Esum : msum (fun k d => - f k d) (st_entries s) = - msum f (st_entries s)).
  { pose proof (msum_plus f (fun k d => - f k d) (st_entries s)) as Hp.
    rewrite (msum_zero (fun k d => f k d + - f k d)) in Hp by (intros; lia). lia. }
  assert (Hge : at_key (fun k d => - f k d) (st_entries s) j <= 0).
  { etransitivity; [apply msum_ge_at|rewrite Esum, Hb; done]. intros k v Hv. specialize (Hneg k v Hv). lia. }
  unfold at_key in Hge. rewrite Hd in Hge. cbn in Hge.
  enough (f j d = -1) by lia.
  unfold f. rewrite counting_posting; [by rewrite (proj2 (Z.eqb_eq _ _))|].
  destruct d as [a'| | |]; try done. cbn in Howner. pose proof (Hc _ _ Hd) as Hk'. cbn in Hk'. congruence.
Qed.
Lemma unowned_liabilities s id a :
  balanced s -> st_entries s !! KeyAccount id = Some (ACCOUNT a) ->
  acc_numSubEntries a = Z.of_nat (length (acc_signers a)) ->
  buying (liabilities_of (acc_ext a)) = 0 /\ selling (liabilities_of (acc_ext a)) = 0.
Proof.
  intros Hs Hk Hn. pose proof (unowned s id a Hs Hk Hn) as Hother. destruct Hs as [(Hc & _) Hb].
  pose proof (Hc _ _ Hk) as Hkey. injection Hkey as Hid.
  assert (Hrest : forall j d, j <> KeyAccount id -> st_entries s !! j = Some d ->
    posting (B := buying_in id ASSET_NATIVE) d = 0 /\ posting (B := selling_in id ASSET_NATIVE) d = 0).
  { intros j d Hj Hd. pose proof (Hother j d Hj Hd) as Ho. destruct d as [a'|t'|o|da]; cbn in *;
      [| |unfold pledged; cbn|done]; rewrite !bool_decide_eq_false_2 by naive_solver; by repeat case_match. }
  pose proof (level_alone (B := buying_in id ASSET_NATIVE) s _ _ (Hb _) Hk (fun j d Hj Hd => proj1 (Hrest j d Hj Hd))) as E1.
  pose proof (level_alone (B := selling_in id ASSET_NATIVE) s _ _ (Hb _) Hk (fun j d Hj Hd => proj2 (Hrest j d Hj Hd))) as E2.
  cbn in E1, E2. rewrite bool_decide_eq_true_2 in E1, E2 by done. lia.
Qed.

(** * Revoking the authorization of a trust line *)
Definition fewer_offers (s s' : LedgerState) : Prop :=
  forall k o, st_entries s' !! k = Some (OFFER o) -> st_entries s !! k = Some (OFFER o).
#[export] Instance fewer_offers_preorder : PreOrder fewer_offers.
Proof. split; [intros s k o H; exact H|]. intros a b c H H' k o Ho. by apply H, H'. Qed.
Lemma fewer_modify k f :
  (forall h d o, f h d = Ok (Some (OFFER o)) -> d = OFFER o) -> keeps fewer_offers (modify k f).
Proof.
  intros Hf s. apply wlp_modify. intros d Hd. destruct (f (st_header s) d) as [[d'|]|] eqn:E; [|done..].
  intros j o. cbn. rewrite lookup_insert. case_decide; [|done]. intros [= ->]. apply Hf in E. congruence.
Qed.
Lemma liabilities_not_offer d o : liabilities_change d (OFFER o) -> d = OFFER o.
Proof. by inversion 1. Qed.
Lemma fewer_addBuying k x : keeps fewer_offers (modify k (fun h e => addBuyingLiabilities h e x)).
Proof. apply fewer_modify. intros h d o H%addBuyingLiabilities_change. by apply liabilities_not_offer. Qed.
Lemma fewer_addSelling k x : keeps fewer_offers (modify k (fun h e => addSellingLiabilities h e x)).
Proof. apply fewer_modify. intros h d o H%addSellingLiabilities_change. by apply liabilities_not_offer. Qed.
Lemma fewer_addNumEntries k x : keeps fewer_offers (modify k (fun h e => addNumEntries h e x)).
Proof. apply fewer_modify. by intros h d o (a & -> & [=])%addNumEntries_change. Qed.
Lemma fewer_erase k : keeps fewer_offers (eraseEntry k).
Proof. intros s. apply wlp_erase. intros _ j o. cbn. by intros [_ ?]%lookup_delete_Some. Qed.
#[local] Hint Resolve fewer_addBuying fewer_addSelling fewer_addNumEntries fewer_erase : keeps.
Lemma fewer_line_addBuying w x : keeps fewer_offers (line_addBuyingLiabilities w x).
Proof. apply keeps_getImpl; [exact _|]. intros []; cbn; keeps_easy. Qed.
Lemma fewer_line_addSelling w x : keeps fewer_offers (line_addSellingLiabilities w x).
Proof. apply keeps_getImpl; [exact _|]. intros []; cbn; keeps_easy. Qed.
#[local] Hint Resolve fewer_line_addBuying fewer_line_addSelling : keeps.
Lemma fewer_acquireOrRelease k b : keeps fewer_offers (acquireOrReleaseLiabilities k b).
Proof. unfold acquireOrReleaseLiabilities, loadAccount, loadTrustLine. keeps_auto. Qed.
#[local] Hint Resolve fewer_acquireOrRelease : keeps.
Lemma fewer_removeOffers trustor ci l : keeps fewer_offers (removeOffers trustor ci l).
Proof. induction l; cbn [removeOffers]; unfold releaseLiabilities, loadAccount; keeps_auto. Qed.

(** The offers are gone. *)
Lemma wlp_removeOffers_gone trustor ci l s :
  wlp (removeOffers trustor ci l)
    (fun _ s' => forall k o, k ∈ l -> st_entries s' !! k <> Some (OFFER o)) s.
Proof.
  revert s. induction l as [|k l IH]; intros s; cbn [removeOffers]; [apply wlp_ret; intros k o H; by inversion H|].
  apply wlp_bind. eapply wlp_mono; [apply wlp_top|]. intros o s1 _. destruct (negb _); [done|]. destruct (negb _); [done|].
  do 3 (apply wlp_bind; eapply wlp_mono; [apply wlp_top|]; intros ? ? _).
  apply wlp_bind, wlp_erase. intros _. eapply wlp_mono; [apply wlp_and; [apply IH|apply fewer_removeOffers]|].
  intros [] s2 [Hgone Hfew] j o' Hj. apply elem_of_cons in Hj as [->|Hj]; [|by apply Hgone].
  intros Ho%Hfew. cbn in Ho. by rewrite lookup_delete_eq in Ho.
Qed.
Lemma wlp_removeOffers_book `{B : Book} trustor ci l s0 s :
  posted s0 s 0 -> wlp (removeOffers trustor ci l) (fun _ s' => posted s0 s' 0) s.
Proof.
  revert s. induction l as [|k l IH]; intros s Hs; cbn [removeOffers]; [by apply wlp_ret|].
  apply wlp_bind, wlp_bind, wlp_current. intros d Hk. apply wlp_lift. intros o Ho.
  destruct d as [| |o'|]; try done. injection Ho as ->.
  destruct (Z.eqb_spec (of_seller o) trustor) as [Et|]; cbn [negb]; [|done]. destruct (negb _); [done|].
  apply wlp_bind. eapply wlp_acquireOrRelease; [exact Hs|exact Hk|]. intros s1 H1 Hk1.
  unfold loadAccount. apply wlp_bind, wlp_exists_entry. intros _ _. apply wlp_bind.
  eapply wlp_mono; [apply wlp_and; [|apply (kept_addNumEntries (KeyAccount trustor) (-1))]|].
  { eapply wlp_posts; [apply posts_dropSubEntry|exact H1|]. intros b s2 H2. exact H2. }
  intros b s2 [H2 Hkept]. apply wlp_bind. eapply wlp_erase_posted; [exact H2|by apply Hkept|].
  intros s3 H3. apply IH. eapply posted_eq; [exact H3|]. cbn. rewrite Et. lia.
Qed.
Lemma wlp_removeAll trustor ci s :
  balanced s ->
  wlp (offers ← offersByAccountAndAsset trustor ci; removeOffers trustor ci offers)
    (fun _ s' => balanced s' /\ no_offers_in trustor ci s') s.
Proof.
  intros Hs. apply wlp_bind. unfold offersByAccountAndAsset. unfold wlp at 1.
  set (offers := omap _ _). eapply wlp_mono.
  { apply wlp_and; [apply (wlp_forall _ (fun (B : Book) _ s' => posted s s' 0)); intros B;
      apply wlp_removeOffers_book, posted_refl, Hs|].
    apply wlp_and; [apply (wlp_removeOffers_gone trustor ci offers)|apply fewer_removeOffers]. }
  intros [] s1 (Hp & Hgone & Hfew). split; [by eapply posted_balanced|].
  intros k o Hk Hsel. enough (~ (of_buying o = ci \/ of_selling o = ci)) by tauto. intros Hci.
  apply (Hgone k o); [|done]. apply Hfew in Hk. subst offers.
  apply list_elem_of_omap. exists (k, OFFER o). split; [by apply elem_of_map_to_list|]. cbn.
  rewrite (proj2 (Z.eqb_eq _ _)) by done. cbn [andb].
  destruct Hci as [?|?]; [rewrite bool_decide_eq_true_2 by done|
    rewrite (bool_decide_eq_true_2 (of_selling o = ci)), orb_true_r by done]; done.
Qed.

Definition unpledged_line (id : AccountID) (asset : Asset) (s : LedgerState) : Prop :=
  forall t, st_entries s !! KeyTrustLine id asset = Some (TRUSTLINE t) ->
    buying (liabilities_of (tl_ext t)) = 0 /\ selling (liabilities_of (tl_ext t)) = 0.
Lemma authorize_flag (b : bool) f :
  Z.land (if b then Z.lor f AUTHORIZED_FLAG else Z.land f (u32 (Z.lnot AUTHORIZED_FLAG))) AUTHORIZED_FLAG = 0 ->
  b = false.
Proof.
  destruct b; [|done]. unfold AUTHORIZED_FLAG. intros H. apply (f_equal (fun z => Z.testbit z 0)) in H.
  rewrite Z.land_spec, Z.lor_spec in H. change (Z.testbit 1 0) with true in H. by rewrite orb_true_r in H.
Qed.
Lemma balanced_setAuthorized id asset b s :
  balanced s -> (b = false -> unpledged_line id asset s) ->
  wlp (update (KeyTrustLine id asset) (fun d => setAuthorized d b)) (fun _ s' => balanced s') s.
Proof.
  intros Hs Hb. pose proof Hs as [(Hc & _ & He) _].
  eapply wlp_mono; [apply (wlp_forall _ (fun (B : Book) _ s' => posted s s' 0))|].
  2:{ intros ? s' H. by apply (posted_balanced s). }
  intros B. apply wlp_bind, wlp_current. intros d Hk. pose proof (Hc _ _ Hk) as Hkey.
  destruct d as [|t| |]; try done. injection Hkey as Hacc Hasset.
  apply wlp_bind, wlp_lift. intros d' [= <-]. apply wlp_setCurrent.
  eapply posted_eq; [apply posted_insert; [apply Hs|cbn; congruence|]|].
  - pose proof (He _ _ Hk) as (H1 & H2 & H3 & H4 & _ & H6). cbn. repeat (split; [done|]).
    split; [|done]. intros H%authorize_flag. by apply Hb.
  - unfold at_key. rewrite Hk. cbn. lia.
Qed.
Lemma balanced_AllowTrust src op s :
  allowTrustAsset src (at_asset op) <> ASSET_NATIVE -> balanced s ->
  wlp (AllowTrust_doApply src op) (fun r s' => r.1 = true -> balanced s') s.
Proof.
  intros Hn Hs. unfold AllowTrust_doApply. apply wlp_bind, wlp_currentHeader.
  destruct (_ && _); [apply wlp_ret; by intros [=]|].
  apply wlp_bind. eapply (wlp_keeps eq); [unfold loadSourceAccount, loadAccount, currentAccount; keeps_auto|].
  intros [c|] _ <-; [apply wlp_ret; by intros [=]|]. destruct (_ =? src); [by apply wlp_ret|].
  set (ci := allowTrustAsset src (at_asset op)) in *. set (id := at_trustor op).
  apply wlp_bind, wlp_exists_entry. intros [] _; cbn [negb]; [|apply wlp_ret; by intros [=]].
  apply wlp_bind, wlp_read. intros d auth Hd Hauth. pose proof Hs as [(Hc & Hv & He) _].
  unfold version in Hv. rewrite (proj2 (Z.leb_le _ _)) by done. cbn [andb]. apply wlp_bind.
  apply (wlp_mono _ (fun _ s' => balanced s' /\ (at_authorize op = false -> unpledged_line id ci s'))).
  - destruct (auth && negb (at_authorize op)) eqn:Er.
    + eapply wlp_mono; [by apply wlp_removeAll|]. intros [] s1 [H1 Hno]. split; [done|].
      intros _ t Ht. by eapply line_unpledged.
    + apply wlp_ret. split; [done|]. intros Ea t Ht. rewrite Ea in Er. cbn in Er.
      rewrite andb_true_r in Er. rewrite Ht in Hd. injection Hd as <-. rewrite Er in Hauth. cbn in Hauth.
      injection Hauth as Hf%negb_false_iff%Z.eqb_eq. apply (He _ _ Ht) in Hf. done.
  - intros [] s1 [H1 Hb]. apply wlp_bind. eapply wlp_mono; [by apply balanced_setAuthorized|].
    intros ? s2 H2. by apply wlp_ret.
Qed.

(** * Merging an account *)
Lemma balanced_Merge src dest s :
  src <> dest -> balanced s ->
  wlp (Merge_doApply src dest) (fun r s' => r.1 = true -> balanced s') s.
Proof.
  intros Hne Hs. eapply wlp_mono;
    [apply (wlp_forall _ (fun (B : Book) r s' => r.1 = true -> posted s s' 0))
    |intros r s' H Hr; apply (posted_balanced s); auto].
  intros B. pose proof Hs as [Hsane _]. apply posted_refl in Hsane as Hp.
  unfold Merge_doApply, loadAccount. apply wlp_bind, wlp_currentHeader.
  apply wlp_bind, wlp_exists_entry. intros [] _; cbn [negb]; [|by apply wlp_ret].
  apply wlp_bind. eapply wlp_mono; [apply wlp_mergeEarly|].
  intros early _ [-> Hb]. destruct early as [b|]; [|by apply wlp_ret].
  apply wlp_bind, wlp_exists_entry. intros _ _.
  apply wlp_bind, wlp_currentAccount. intros a Ha. rewrite (Hb b a eq_refl Ha).
  apply wlp_bind, wlp_read. intros d immutable _ _. destruct immutable; [by apply wlp_ret|].
  destruct (Z.eqb_spec (acc_numSubEntries a) (Z.of_nat (length (acc_signers a)))) as [En|]; cbn [negb];
    [|by apply wlp_ret].
  destruct (_ && _); [by apply wlp_ret|]. destruct (unowned_liabilities s src a Hs Ha En) as [E1 E2].
  apply wlp_bind. eapply wlp_mono.
  { apply wlp_and; [eapply wlp_book; [apply (book_addBalance (KeyAccount dest) (acc_balance a))|exact Hp|]|
      apply wlp_modify_other]. intros r s1 H. exact H. }
  intros [] s1 [H1 Hother]; cbn [negb]; [|by apply wlp_ret].
  apply wlp_bind. eapply wlp_erase_posted; [exact H1|rewrite Hother by congruence; exact Ha|].
  intros s2 H2. apply wlp_ret. intros _. eapply posted_eq; [exact H2|].
  cbn. rewrite E1, E2, En. lia.
Qed.

(** * Transactions *)

(** The fields of an operation are in the range of their types. *)
Definition typed_price (p : Price) : Prop := pn p <= INT32_MAX /\ pd p <= INT32_MAX.
Definition wide_body (body : OperationBody) : Prop :=
  match body with
  | CHANGE_TRUST op => in_s64 (ct_limit op)
  | MANAGE_OFFER op => in_s64 (mo_amount op) /\ typed_price (mo_price op)
  | CREATE_PASSIVE_OFFER op => in_s64 (cp_amount op) /\ typed_price (cp_price op)
  | _ => True
  end.
Definition wide_tx (tx : Transaction) : Prop :=
  Forall (fun op => wide_body (op_body op)) (tx_operations tx).

Section WithExternals.
Context `{Ext : Externals}.

Lemma balanced_res {A} (f : A -> OperationResultTr) (m : M (bool * A)) s :
  wlp m (fun r s' => r.1 = true -> balanced s') s ->
  wlp (r ← m; mret (prod_map id f r)) (fun r s' => r.1 = true -> balanced s') s.
Proof using.
  intros Hm. apply wlp_bind. eapply wlp_mono; [exact Hm|]. intros [b r] s' Hr. apply wlp_ret. exact Hr.
Qed.
Lemma manageOffer_checked src passive op v :
  in_s64 (mo_amount op) -> typed_price (mo_price op) ->
  (manageOfferChecked (ManageOffer_doCheckValid op v)).1 = true ->
  forall B : Book, levels (ManageOffer_doApply src passive op).
Proof using.
  intros Ha [Hn Hd] Hc%checked_manageOffer B. pose proof (manageOffer_amounts op v Ha Hc) as Ham.
  apply levels_ManageOffer; [|exact Ham]. unfold ManageOffer_doCheckValid in Hc.
  destruct (_ || _); [done|]. destruct (compareAsset _ _); [done|].
  destruct (Z.ltb_spec (mo_amount op) 0), (Z.leb_spec (pd (mo_price op)) 0), (Z.leb_spec (pn (mo_price op)) 0);
    try done; unfold valid_price; lia.
Qed.
Lemma doApply_balanced src body v s :
  balanced s -> wide_body body -> (doCheckValid src body v).1 = true ->
  wlp (doApply src body) (fun r s' => r.1 = true -> balanced s') s.
Proof using.
  intros Hs Hw Hcheck. destruct body; cbn [doApply doCheckValid wide_body] in *;
    [..|apply wlp_bind, wlp_lift; intros ? _; by apply wlp_ret].
  all: apply balanced_res.
  all: match goal with
       | |- wlp (AllowTrust_doApply _ _) _ _ => idtac
       | |- wlp (Merge_doApply _ _) _ _ => idtac
       | _ => apply balanced_levels; [intros B|exact Hs]
       end.
  - apply levels_CreateAccount. unfold CreateAccount_doCheckValid in Hcheck.
    destruct (Z.leb_spec (ca_startingBalance op) 0); [done|lia].
  - apply levels_Payment.
  - apply levels_keeps, book_PathPayment.
  - destruct Hw. by eapply manageOffer_checked.
  - destruct Hw. by eapply manageOffer_checked.
  - apply levels_SetOptions.
  - apply levels_ChangeTrust. unfold ChangeTrust_doCheckValid in Hcheck.
    destruct (Z.ltb_spec (ct_limit op) 0); [done|]. unfold in_s64 in Hw. unfold_ints; lia.
  - apply balanced_AllowTrust; [|done]. unfold AllowTrust_doCheckValid in Hcheck.
    by destruct (at_asset op).
  - apply balanced_Merge; [|done]. intros ->.
    unfold Merge_doCheckValid in Hcheck. by rewrite Z.eqb_refl in Hcheck.
  - apply levels_Inflation.
  - apply levels_ManageData.
  - apply levels_BumpSequence.
Qed.
Lemma op_apply_balanced tx op sc s :
  balanced s -> wide_body (op_body op) ->
  wlp (op_apply tx op sc) (fun r s' => r.1.1 = true -> balanced s') s.
Proof using.
  intros Hs Hw. unfold op_apply. apply wlp_bind.
  eapply wlp_mono; [apply wlp_op_checkValid|]. intros [[res r] sc'] _ [-> Hok].
  destruct res; [|apply wlp_ret; by intros [=]].
  destruct Hok as [v Hok]; [done|]. apply wlp_bind.
  eapply wlp_mono; [by eapply doApply_balanced|]. intros [ok tr] s' Hm. by apply wlp_ret.
Qed.
Lemma applyOps_balanced tx ops i b err sc s :
  Forall (fun op => wide_body (op_body op)) ops -> (err = false -> balanced s) ->
  wlp (applyOps tx ops i b err sc) (fun r s' => r.1.1 = false -> balanced s') s.
Proof using.
  revert i b err sc s. induction ops as [|op ops IH];
    intros i b err sc s Hw Hs; cbn [applyOps]; [by apply wlp_ret|].
  apply Forall_cons in Hw as [Hop Hw]. apply wlp_bind. destruct err.
  - eapply wlp_mono; [apply wlp_top|]. intros [[ok r] sc'] s1 _.
    apply wlp_bind, wlp_lift. intros b' _. by apply IH.
  - eapply wlp_mono; [apply op_apply_balanced; [by apply Hs|done]|].
    intros [[ok r] sc'] s1 H1. apply wlp_bind, wlp_lift. intros b' _. apply IH; [done|].
    destruct ok; [|done]. auto.
Qed.

(** ** One-time signers, sequence numbers and fees *)
Section Bookkeeping.
Context `{B : Book}.
#[local] Hint Extern 1 (keeps same_book (updateAccount _ _)) => apply book_updateAccount; done : keeps.

Lemma removeSigner_length key l :
  existsb (fun s => bool_decide (signer_key s = key)) l = true ->
  Z.of_nat (length (removeSigner key l)) = Z.of_nat (length l) - 1.
Proof using.
  induction l as [|s l IH]; [done|]. cbn. case_bool_decide; cbn -[Z.of_nat]; [lia|].
  intros H'. rewrite Nat2Z.inj_succ. specialize (IH H'). cbn in IH. lia.
Qed.
Lemma book_removeAccountSigner id key : keeps same_book (removeAccountSigner (KeyAccount id) key).
Proof using.
  apply keeps_book_intro. intros s Hs%posted_refl. unfold removeAccountSigner, assertM.
  apply wlp_bind, wlp_currentAccount. intros a Ha. destruct (existsb _ _) eqn:Ek; [|by apply wlp_ret].
  apply wlp_bind. eapply wlp_mono; [apply wlp_and; [|by eapply wlp_numEntries_signers]|].
  { eapply wlp_posts; [apply posts_dropSubEntry|exact Hs|]. intros b s2 H2. exact H2. }
  intros removed s1 [H1 (a' & Ha' & E)]. apply wlp_bind, wlp_lift. intros _ _. apply wlp_bind.
  eapply wlp_updateSigners; [exact H1|exact Ha'|done|]. intros s2 H2 _. apply wlp_ret.
  eapply posted_eq; [exact H2|]. cbn -[length removeSigner]. rewrite E, removeSigner_length by done. lia.
Qed.
#[local] Hint Resolve book_removeAccountSigner : keeps.
Lemma book_removeSignersUntil id keys r : keeps same_book (removeSignersUntil (KeyAccount id) keys r).
Proof using. revert r. induction keys; intros r; cbn [removeSignersUntil]; keeps_auto. Qed.
#[local] Hint Resolve book_removeSignersUntil : keeps.
Lemma book_removeUsedOneTimeSignerKeys sc : keeps same_book (removeUsedOneTimeSignerKeys sc).
Proof using.
  unfold removeUsedOneTimeSignerKeys. induction (map_to_list _) as [|[id keys] l IH];
    cbn [removeAllOneTimeSignerKeys]; [keeps_easy|].
  unfold removeAccountOneTimeSignerKeys, loadAccount. keeps_auto.
Qed.
#[local] Hint Resolve book_removeUsedOneTimeSignerKeys : keeps.
Lemma book_processSeqNum tx : keeps same_book (processSeqNum tx).
Proof using. unfold processSeqNum, loadSourceAccount, loadAccount, currentAccount. keeps_auto. Qed.
Lemma book_processSignatures tx b sc : keeps same_book (processSignatures tx b sc).
Proof using. unfold processSignatures. keeps_auto. Qed.
#[local] Hint Resolve book_processSeqNum book_processSignatures : keeps.
Lemma book_applyChecks env res : keeps same_book (applyChecks env res).
Proof using. unfold applyChecks. keeps_auto. Qed.

Lemma fee_in_range balance fee r :
  0 <= balance <= INT64_MAX -> 0 < fee ->
  Numeric.addBalance balance (s64 (- Z.min balance fee)) INT64_MAX = Ok r ->
  0 <= default balance r <= balance.
Proof using.
  intros Hb Hf H. rewrite s64_id in H by (unfold in_s64; unfold_ints; lia).
  destruct r as [b|]; [|cbn; unfold id; lia].
  apply numeric_addBalance_range in H; [|unfold_ints; lia..]. cbn. unfold id. lia.
Qed.
Lemma book_processFeeSeqNum tx : keeps same_book (processFeeSeqNum tx).
Proof using.
  apply keeps_book_intro. intros s Hs. unfold processFeeSeqNum, loadSourceAccount, loadAccount.
  apply wlp_bind, wlp_exists_entry. intros [] _; [|done]. cbn [negb].
  apply wlp_bind, wlp_currentAccount. intros a Ha.
  apply wlp_bind. apply (wlp_mono _ (fun _ s' => posted s s' 0)).
  - destruct (Z.ltb_spec 0 (feeCharged (resetResults tx))) as [Hf|_]; [|by apply wlp_ret, posted_refl].
    pose proof Hs as (Hc & _ & He). pose proof (Hc _ _ Ha) as Hkey. pose proof (He _ _ Ha) as Hr. cbn in Hr.
    apply wlp_bind, wlp_lift. intros r H%fee_in_range; [|unfold_ints; lia|done]. apply wlp_bind.
    apply wlp_bind, wlp_current. rewrite Ha. intros d [= <-]. apply wlp_bind, wlp_lift. intros d' [= <-].
    apply wlp_setCurrent. eapply wlp_book; [apply book_updateHeader; done|apply posted_insert; [done|done|]|].
    + cbn. lia.
    + intros _ s2 H2. eapply posted_eq; [exact H2|]. unfold at_key. rewrite Ha. cbn. lia.
  - intros _ s1 H1. eapply wlp_book; [|exact H1|intros ? ? H2; exact H2].
    keeps_auto.
Qed.
End Bookkeeping.

Lemma balanced_keeps {A} (m : M A) s :
  (forall B : Book, keeps same_book m) -> balanced s -> wlp m (fun _ s' => balanced s') s.
Proof using.
  intros Hm Hs. eapply wlp_mono; [apply (wlp_forall _ (fun (B : Book) _ s' => posted s s' 0))|].
  - intros B. eapply wlp_mono; [apply Hm|]. intros a s' H. apply H, Hs.
  - intros a s' H. by apply (posted_balanced s).
Qed.
Lemma applyOperations_balanced tx b sc s :
  balanced s -> wide_tx tx -> wlp (applyOperations tx b sc) (fun _ s' => balanced s') s.
Proof using.
  intros Hs Hw. unfold applyOperations. apply wlp_nested, wlp_bind.
  eapply wlp_mono; [by apply applyOps_balanced|].
  intros [[err b'] sc'] s1 H1. cbn in H1. destruct err; cbn [negb].
  - apply wlp_bind, wlp_lift. intros ? _. by apply wlp_ret.
  - apply wlp_bind, wlp_currentHeader. destruct (_ && _); [by apply wlp_ret|]. apply wlp_bind.
    eapply wlp_mono; [apply balanced_keeps; [|by apply H1]|intros ? s2 H2; by apply wlp_ret].
    intros B. destruct (_ <? _); [apply book_removeUsedOneTimeSignerKeys|keeps_easy].
Qed.
Lemma tx_apply_balanced env res s :
  balanced s -> wide_tx (env_tx env) -> wlp (tx_apply env res) (fun _ s' => balanced s') s.
Proof using.
  intros Hs Hw. unfold tx_apply. apply wlp_bind.
  eapply wlp_mono; [apply balanced_keeps; [intros B; apply book_applyChecks|exact Hs]|].
  intros [[valid b] sc] s1 H1. apply wlp_bind.
  apply (wlp_mono _ (fun _ s' => balanced s')); [|intros [ok b'] s2 H2; by apply wlp_ret].
  destruct valid; [by apply applyOperations_balanced|by apply wlp_ret].
Qed.
Lemma processTransaction_balanced env s :
  balanced s -> wide_tx (env_tx env) -> wlp (processTransaction env) (fun _ s' => balanced s') s.
Proof using.
  intros Hs Hw. apply wlp_bind.
  eapply wlp_mono; [apply balanced_keeps; [intros B; apply book_processFeeSeqNum|exact Hs]|].
  intros res s1 H1. by apply tx_apply_balanced.
Qed.
End WithExternals.

(** * What a level book says *)

(** The entries of an account other than itself. *)
Definition owned (id : AccountID) (s : LedgerState) : Z :=
  msum (fun k d => if negb (is_account_key k) && (owner d =? id) then 1 else 0) (st_entries s).
(** What its offers may buy, and what they may sell, of an asset. *)
Definition offers_buying (id : AccountID) (asset : Asset) (s : LedgerState) : Z :=
  msum (fun _ d => match d with
                   | OFFER o => if (of_seller o =? id) && bool_decide (of_buying o = asset)
                                then buying (offer_liabilities o) else 0
                   | _ => 0
                   end) (st_entries s).
Definition offers_selling (id : AccountID) (asset : Asset) (s : LedgerState) : Z :=
  msum (fun _ d => match d with
                   | OFFER o => if (of_seller o =? id) && bool_decide (of_selling o = asset)
                                then selling (offer_liabilities o) else 0
                   | _ => 0
                   end) (st_entries s).

(** One entry's part is what the others' parts come to. *)
Lemma level_split `{B : Book} (g : LedgerKey -> LedgerEntryData -> Z) s k d :
  book_of s = 0 -> st_entries s !! k = Some d -> g k d = 0 ->
  (forall j d', j <> k -> st_entries s !! j = Some d' -> posting d' = g j d') ->
  posting d = - msum g (st_entries s).
Proof.
  intros Hb Hk Hg Hrest. unfold book_of in Hb.
  assert (E : msum (fun _ d => posting d) (delete k (st_entries s)) = msum g (delete k (st_entries s))).
  { apply msum_ext. intros j d' [? ?]%lookup_delete_Some. by apply Hrest. }
  rewrite !msum_delete in E. unfold at_key in E. rewrite Hk in E. cbn in E. lia.
Qed.
Lemma balanced_count s id a :
  balanced s -> st_entries s !! KeyAccount id = Some (ACCOUNT a) ->
  acc_numSubEntries a = Z.of_nat (length (acc_signers a)) + owned id s.
Proof.
  intros [(Hc & _) Hb] Hk. pose proof (Hc _ _ Hk) as Hkey. injection Hkey as Hid.
  pose proof (level_split (B := counting id)
    (fun k d => - (if negb (is_account_key k) && (owner d =? id) then 1 else 0)) s _ _ (Hb _) Hk eq_refl) as E.
  pose proof (msum_plus (fun k d => if negb (is_account_key k) && (owner d =? id) then 1 else 0)
    (fun k d => - (if negb (is_account_key k) && (owner d =? id) then 1 else 0)) (st_entries s)) as Hp.
  rewrite (msum_zero (fun k d => _ + _)) in Hp by (intros; lia).
  cbn [posting w_count w_buy w_sell counting] in E. rewrite Hid, Z.eqb_refl in E. unfold owned.
  enough (forall j d', j <> KeyAccount id -> st_entries s !! j = Some d' ->
    posting (B := counting id) d' = - (if negb (is_account_key j) && (owner d' =? id) then 1 else 0)) as H
    by (specialize (E H); lia).
  intros j d Hj Hd. pose proof (Hc _ _ Hd) as <-. destruct (is_account_key (LedgerDataKey d)) eqn:Ea.
  - destruct d as [a'| | |]; try done. cbn. destruct (Z.eqb_spec (acc_id a') id) as [<-|]; [done|lia].
  - rewrite counting_posting by done. cbn. by destruct (_ =? _).
Qed.

(** The liabilities that an account or a trust line records are those of the
    account's offers in that asset. *)
Lemma balanced_liabilities s id asset k d l :
  balanced s -> st_entries s !! k = Some d -> issues id asset = false ->
  (match d with
   | ACCOUNT a => k = KeyAccount id /\ asset = ASSET_NATIVE /\ l = liabilities_of (acc_ext a)
   | TRUSTLINE t => k = KeyTrustLine id asset /\ asset <> ASSET_NATIVE /\ l = liabilities_of (tl_ext t)
   | _ => False
   end) ->
  buying l = offers_buying id asset s /\ selling l = offers_selling id asset s.
Proof.
  intros [(Hc & _ & He) Hb] Hk Hi Hl. pose proof (Hc _ _ Hk) as Hkey.
  set (gb := fun (_ : LedgerKey) d => match d with
                   | OFFER o => if (of_seller o =? id) && bool_decide (of_buying o = asset)
                                then buying (offer_liabilities o) else 0
                   | _ => 0
                   end).
  set (gs := fun (_ : LedgerKey) d => match d with
                   | OFFER o => if (of_seller o =? id) && bool_decide (of_selling o = asset)
                                then selling (offer_liabilities o) else 0
                   | _ => 0
                   end).
  assert (Hrest : forall j d', j <> k -> st_entries s !! j = Some d' ->
    posting (B := buying_in id asset) d' = gb j d' /\ posting (B := selling_in id asset) d' = gs j d').
  { intros j d' Hj Hd. pose proof (Hc _ _ Hd) as Hkd. destruct d' as [a|t'|o|da]; cbn.
    - rewrite !bool_decide_eq_false_2; [lia|..]; intros [E E']; apply Hj; destruct d; naive_solver.
    - assert (tl_asset t' <> ASSET_NATIVE).
      { intros E. destruct (He _ _ Hd) as (_ & _ & _ & _ & _ & Hn). by rewrite E in Hn. }
      rewrite !bool_decide_eq_false_2; [lia|..]; intros [E E']; apply Hj; destruct d; naive_solver.
    - unfold pledged. cbn. destruct (Z.eqb_spec (of_seller o) id) as [Es|]; cbn [andb].
      + rewrite Es. split; repeat case_bool_decide; try tauto;
          try match goal with E : _ = asset |- _ => rewrite E, Hi end; repeat case_match; lia.
      + split; repeat case_bool_decide; try tauto; repeat case_match; lia.
    - done. }
  pose proof (level_split (B := buying_in id asset) gb s k d (Hb _) Hk) as E1.
  pose proof (level_split (B := selling_in id asset) gs s k d (Hb _) Hk) as E2.
  destruct d as [a|t| |]; try done; destruct Hl as (-> & Ha & ->); injection Hkey;
    intros; cbn in E1, E2; rewrite bool_decide_eq_true_2 in E1, E2 by (split; congruence).
  all: specialize (E1 eq_refl (fun j d' Hj Hd => proj1 (Hrest j d' Hj Hd))).
  all: specialize (E2 eq_refl (fun j d' Hj Hd => proj2 (Hrest j d' Hj Hd))).
  all: unfold offers_buying, offers_selling; fold gb gs; lia.
Qed.
