(* ===== verification/Reserves.v ===== *)
(** Reserves: whenever an operation takes lumens from an account, or makes one,
    its balance covers its reserve and its selling liabilities. *)

From Stdlib Require Import ZifyBool.
From stdpp Require Import sorting.
From S2P Require Import Prelude Numeric OfferMath Types Sums OfferOrder LedgerTxn LedgerTxnOffers InflationWinners.
From S2P Require Import LedgerState TransactionUtils OfferExchange Converting Accounting Operations Lumens Payments ManageOffers.
From S2P Require Import OperationLumens Books OperationBooks TransactionBooks.

(** The reserve in exact numbers. *)
Definition reserve (r n : Z) : Z := u32 (2 + n) * r.
Definition covered (r : Z) (a : AccountEntry) : Prop :=
  reserve r (acc_numSubEntries a) + selling (liabilities_of (acc_ext a)) <= acc_balance a.
(** The largest reserve of one more sub-entry, and a balance that far from the
    largest number. *)
Definition MAX_RESERVE : Z := 2147483648.
Definition rich (a : AccountEntry) : Prop := INT64_MAX - MAX_RESERVE < acc_balance a.
(** The sum of reserve and liabilities can only overflow for a rich account. *)
Definition fine (r : Z) (a : AccountEntry) : Prop := covered r a \/ rich a.

Definition funded (r : Z) (o o' : option LedgerEntryData) : Prop :=
  match o' with
  | Some (ACCOUNT a') =>
      match o with
      | Some (ACCOUNT a) => (fine r a -> fine r a') /\ (fine r a' \/ acc_balance a <= acc_balance a')
      | _ => fine r a'
      end
  | _ => True
  end.
#[export] Instance funded_preorder r : PreOrder (funded r).
Proof.
  split.
  - intros [[a| | |]|]; cbn; try done. split; [done|]. right. lia.
  - intros [[a| | |]|] [[a'| | |]|] [[a''| | |]|]; cbn; try tauto. intros [H1 H2] [H3 H4]. split; [tauto|].
    destruct H2 as [H2|H2]; [tauto|]. destruct H4 as [H4|H4]; [tauto|]. right. lia.
Qed.

(** Fields in the range of their types, from version 10 on. *)
Definition typed_entry (d : LedgerEntryData) : Prop :=
  match d with
  | ACCOUNT a => 0 <= acc_balance a <= INT64_MAX /\ in_u32 (acc_numSubEntries a) /\
      0 <= selling (liabilities_of (acc_ext a)) <= INT64_MAX
  | _ => True
  end.
Definition typed_state (s : LedgerState) : Prop :=
  10 <= version s /\ 0 <= baseReserve (st_header s) <= MAX_RESERVE /\
  forall k d, st_entries s !! k = Some d -> typed_entry d.
Definition reserves (s s' : LedgerState) : Prop :=
  typed_state s ->
  typed_state s' /\ version s' = version s /\ baseReserve (st_header s') = baseReserve (st_header s) /\
  forall k, funded (baseReserve (st_header s)) (st_entries s !! k) (st_entries s' !! k).
#[export] Instance reserves_preorder : PreOrder reserves.
Proof.
  split; [by intros s Hs|]. intros a b c Hab Hbc Ha. destruct (Hab Ha) as (Hb & V & E & F).
  destruct (Hbc Hb) as (Hc & V' & E' & F'). split; [done|split; [congruence|split; [congruence|]]].
  intros k. transitivity (st_entries b !! k); [done|]. rewrite <- E. apply F'.
Qed.

Lemma sane_typed_state s :
  sane s -> 0 <= baseReserve (st_header s) <= MAX_RESERVE -> typed_state s.
Proof.
  intros (_ & Hv & He) Hr. split; [done|split; [done|]]. intros k [a| | |] Hk; try done.
  destruct (He _ _ Hk) as (? & ? & ? & ? & ?). cbn. unfold in_u32. unfold_ints; lia.
Qed.

(** ** The changes *)
Lemma reserves_insert s k d :
  typed_entry d -> (typed_state s -> funded (baseReserve (st_header s)) (st_entries s !! k) (Some d)) ->
  reserves s (set_entries (<[k := d]> (st_entries s)) s).
Proof.
  intros Hd Hf Hs. pose proof Hs as (Hv & Hr & He). split; [split; [done|split; [done|]]|split; [done|split; [done|]]].
  - intros j d'. cbn. rewrite lookup_insert. case_decide; [by intros [= <-]|apply He].
  - intros j. cbn. rewrite lookup_insert. case_decide; [subst; by apply Hf|reflexivity].
Qed.
Lemma reserves_erase k : keeps reserves (eraseEntry k).
Proof.
  intros s. apply wlp_erase. intros _ (Hv & Hr & He). split; [split; [done|split; [done|]]|split; [done|split; [done|]]].
  - intros j d'. cbn. intros [_ ?]%lookup_delete_Some. by eapply He.
  - intros j. cbn. destruct (decide (k = j)) as [->|]; [by rewrite lookup_delete_eq|by rewrite lookup_delete_ne].
Qed.
Lemma reserves_create d :
  match d with ACCOUNT _ => False | _ => True end -> keeps reserves (createEntry d).
Proof. intros Hd s. apply wlp_create. intros _. by apply reserves_insert; destruct d. Qed.
Lemma reserves_setCurrent k d :
  match d with ACCOUNT _ => False | _ => True end -> keeps reserves (setCurrent k d).
Proof. intros Hd s. apply wlp_setCurrent. by apply reserves_insert; destruct d. Qed.
Lemma reserves_updateHeader f :
  (forall h, ledgerVersion (f h) = ledgerVersion h /\ baseReserve (f h) = baseReserve h) ->
  keeps reserves (updateHeader f).
Proof.
  intros Hf s. apply wlp_bind, wlp_currentHeader, wlp_setHeader. intros (Hv & Hr & He).
  destruct (Hf (st_header s)) as [E1 E2]. unfold typed_state, version in *. cbn. rewrite E1, E2.
  repeat (split; [done|]). reflexivity.
Qed.
Lemma reserves_generateID : keeps reserves generateID.
Proof.
  intros s. apply wlp_bind, wlp_currentHeader, wlp_bind, wlp_setHeader, wlp_ret. intros (Hv & Hr & He).
  repeat (split; [done|]). reflexivity.
Qed.
Lemma reserves_update k f :
  (forall d d', f d = Ok d' ->
     match d' with
     | ACCOUNT a' => exists a, d = ACCOUNT a /\ acc_balance a' = acc_balance a /\
         acc_numSubEntries a' = acc_numSubEntries a /\ acc_ext a' = acc_ext a
     | _ => True
     end) ->
  keeps reserves (update k f).
Proof.
  intros Hf s. apply wlp_bind, wlp_current. intros d Hd. apply wlp_bind, wlp_lift. intros d' Hd'%Hf. apply wlp_setCurrent.
  intros Hs. apply reserves_insert; [| |done].
  - destruct d' as [a'| | |]; try done. destruct Hd' as (a & -> & E1 & E2 & E3).
    destruct Hs as (_ & _ & He). pose proof (He _ _ Hd) as Ha. cbn in *. by rewrite E1, E2, E3.
  - intros _. rewrite Hd. destruct d' as [a'| | |]; try done. destruct Hd' as (a & -> & E1 & E2 & E3).
    cbn. unfold fine, covered, rich. rewrite E1, E2, E3. split; [done|]. right. lia.
Qed.
Lemma reserves_modify k f :
  (forall h d d', 10 <= ledgerVersion h -> 0 <= baseReserve h <= MAX_RESERVE -> typed_entry d ->
     f h d = Ok (Some d') -> typed_entry d' /\ funded (baseReserve h) (Some d) (Some d')) ->
  keeps reserves (modify k f).
Proof.
  intros Hf s. apply wlp_modify. intros d Hd. destruct (f (st_header s) d) as [[d'|]|] eqn:E; [|reflexivity|done].
  intros Hs. pose proof Hs as (Hv & Hr & He). apply Hf in E as [Ht Hfd]; [|done|done|by eapply He].
  apply reserves_insert; [done| |done]. intros _. by rewrite Hd.
Qed.

(** ** The functions on entries *)
Lemma getMinBalance_exact h n :
  10 <= ledgerVersion h -> 0 <= baseReserve h <= MAX_RESERVE ->
  getMinBalance h n = reserve (baseReserve h) n /\ 0 <= reserve (baseReserve h) n <= INT64_MAX.
Proof.
  intros Hv Hr. unfold getMinBalance, reserve. rewrite (proj2 (Z.leb_gt _ _)) by lia.
  assert (0 <= u32 (2 + n) < 4294967296) by (unfold u32; apply Z.mod_pos_bound; lia).
  unfold MAX_RESERVE in Hr. rewrite s64_id by (unfold in_s64; unfold_ints; nia). unfold_ints. nia.
Qed.
Lemma addBalance_typed b x m b' :
  in_s64 b -> in_s64 m -> Numeric.addBalance b x m = Ok (Some b') -> 0 <= b' <= INT64_MAX /\ b' = b + x /\ (x = 0 \/ b' <= m).
Proof.
  unfold Numeric.addBalance, cassert, in_s64. intros Hb Hm H.
  destruct (Z.leb_spec 0 b) as [H0|]; [|done]. destruct (Z.leb_spec 0 m) as [H1|]; [|done]. cbn in H.
  rewrite !s64_id in H by (unfold in_s64; unfold_ints; lia).
  destruct (Z.eqb_spec x 0); [injection H as <-; lia|].
  destruct (Z.ltb_spec x (- b)); [done|]. destruct (Z.ltb_spec (m - b) x); [done|].
  injection H as <-. rewrite s64_id by (unfold in_s64; unfold_ints; lia). unfold_ints; lia.
Qed.
Lemma reserves_addBalance k x : keeps reserves (modify k (fun h e => addBalance h e x)).
Proof.
  apply reserves_modify. intros h d d' Hv Hr Hd H. destruct d as [a|t| |]; try done.
  2:{ apply addBalance_change in H. by inversion H. }
  cbn in H, Hd. destruct (Z.eqb_spec x 0) as [->|_].
  { injection H as <-. split; [done|reflexivity]. }
  destruct (Numeric.addBalance _ _ _) as [[b|]|] eqn:E; cbn [mbind outcome_bind] in H; try done.
  apply addBalance_typed in E as (Hb & -> & _); [|unfold in_s64; unfold_ints; lia..].
  destruct (liabilities_read h (ACCOUNT a) Hv) as [Eb Es]. rewrite Eb, Es, (proj2 (Z.leb_le _ _)) in H by done.
  cbn [mbind outcome_bind] in H. destruct (getMinBalance_exact h (acc_numSubEntries a) Hv Hr) as [Em Hmin].
  rewrite Em in H. assert (Ht : typed_entry (ACCOUNT (set_balance (acc_balance a + x) a))).
  { split; [cbn; lia|apply Hd]. }
  destruct (Z.ltb_spec x 0); cbn [andb] in H.
  - rewrite s64_id in H by (unfold in_s64; unfold_ints; lia).
    destruct (Z.ltb_spec (acc_balance a + x - reserve (baseReserve h) (acc_numSubEntries a))
                (selling (liabilities_of (acc_ext a)))) as [|Hge]; [done|].
    destruct (_ <? _); [done|]. injection H as <-. split; [done|].
    assert (fine (baseReserve h) (set_balance (acc_balance a + x) a)) by (left; unfold covered; cbn; lia).
    cbn. tauto.
  - destruct (_ <? _); [done|]. injection H as <-. split; [done|]. cbn. unfold fine, covered, rich. cbn. lia.
Qed.
Lemma reserves_addBuying k x : keeps reserves (modify k (fun h e => addBuyingLiabilities h e x)).
Proof.
  apply reserves_modify. intros h d d' Hv Hr Hd H. destruct d as [a|t| |].
  2-4: apply addBuyingLiabilities_change in H; by inversion H.
  unfold addBuyingLiabilities in H. rewrite (proj1 (liabilities_read h (ACCOUNT a) Hv)) in H. cbn [mbind outcome_bind] in H.
  destruct (x =? 0); [injection H as <-; split; [done|reflexivity]|].
  destruct (Numeric.addBalance _ _ _) as [[b|]|] eqn:E; cbn [mbind outcome_bind] in H; try done.
  injection H as <-. split; [done|]. cbn. unfold fine, covered, rich, set_buying. unfold liabilities_of. cbn. lia.
Qed.
Lemma reserves_addSelling k x : keeps reserves (modify k (fun h e => addSellingLiabilities h e x)).
Proof.
  apply reserves_modify. intros h d d' Hv Hr Hd H. destruct d as [a|t| |].
  2-4: apply addSellingLiabilities_change in H; by inversion H.
  unfold addSellingLiabilities in H. rewrite (proj2 (liabilities_read h (ACCOUNT a) Hv)) in H. cbn [mbind outcome_bind] in H.
  destruct (Z.eqb_spec x 0); [injection H as <-; split; [done|reflexivity]|].
  destruct (getMinBalance_exact h (acc_numSubEntries a) Hv Hr) as [Em Hmin]. rewrite Em in H.
  cbn in Hd. rewrite s64_id in H by (unfold in_s64; unfold_ints; lia).
  destruct (Z.ltb_spec (acc_balance a - reserve (baseReserve h) (acc_numSubEntries a)) 0) as [|Hge]; [done|].
  destruct (Numeric.addBalance _ _ _) as [[b|]|] eqn:E; cbn [mbind outcome_bind] in H; try done.
  injection H as <-. apply addBalance_typed in E as (Hb & -> & [?|Hm]); [done| |unfold in_s64; unfold_ints; lia..].
  split; [cbn; unfold set_selling, liabilities_of in *; cbn in *; tauto|].
  assert (fine (baseReserve h) (set_ext (set_selling (selling (liabilities_of (acc_ext a)) + x) (acc_ext a)) a)).
  { left. unfold covered, set_selling. unfold liabilities_of in *. cbn in *. lia. }
  cbn. tauto.
Qed.
Lemma count_up num :
  in_u32 num -> 0 <= s32 (u32 (num + 1)) ->
  u32 (2 + u32 (s32 (u32 (num + 1)))) <= u32 (2 + num) + 1.
Proof.
  unfold in_u32. unfold_ints. intros Hn Hr. destruct (decide (num = 4294967295)) as [->|]; [by vm_compute|].
  unfold s32, u32 in *. rewrite (Z.mod_small (num + 1)) in * by lia.
  destruct (Z.le_gt_cases 2147483647 num).
  - rewrite (Z.mod_eq (num + 1 + 2147483648)) in Hr by lia.
    assert ((num + 1 + 2147483648) / 4294967296 = 1) as E by (symmetry; apply (Z.div_unique _ _ 1 (num + 1 + 2147483648 - 4294967296)); lia).
    lia.
  - rewrite (Z.mod_small (num + 1 + 2147483648)) by lia. rewrite (Z.mod_small (_ - _)) by lia.
    rewrite !Z.mod_small by lia. lia.
Qed.
Lemma count_down num :
  in_u32 num -> 0 <= s32 (u32 (num + -1)) ->
  u32 (2 + u32 (s32 (u32 (num + -1)))) <= u32 (2 + num).
Proof.
  unfold in_u32. unfold_ints. intros Hn Hr. destruct (decide (num = 0)) as [->|]; [by vm_compute in Hr|].
  unfold s32, u32 in *. rewrite (Z.mod_small (num + -1)) in * by lia.
  destruct (Z.le_gt_cases 2147483649 num).
  - rewrite (Z.mod_eq (num + -1 + 2147483648)) in Hr by lia.
    assert ((num + -1 + 2147483648) / 4294967296 = 1) as E by (symmetry; apply (Z.div_unique _ _ 1 (num + -1 + 2147483648 - 4294967296)); lia).
    lia.
  - rewrite (Z.mod_small (num + -1 + 2147483648)) by lia. rewrite (Z.mod_small (_ - _)) by lia.
    rewrite !Z.mod_small by lia. lia.
Qed.
Lemma reserves_addNumEntries k x :
  x = 1 \/ x = -1 -> keeps reserves (modify k (fun h e => addNumEntries h e x)).
Proof.
  intros Hx. apply reserves_modify. intros h d d' Hv Hr Hd H.
  pose proof (addNumEntries_change h d x d' H) as (a & -> & ->). unfold addNumEntries in H. cbn [account_of mbind outcome_bind] in H.
  set (n := s32 (u32 (acc_numSubEntries a + x))) in *. cbn in Hd. destruct Hd as (Hb & Hn & Hl).
  destruct (Z.ltb_spec n 0) as [|Hn0]; [done|]. rewrite (proj2 (Z.leb_le _ _)) in H by done.
  rewrite (proj2 (liabilities_read h (ACCOUNT a) Hv)) in H. cbn [mbind outcome_bind] in H.
  destruct (getMinBalance_exact h (u32 n) Hv Hr) as [Em Hmin]. rewrite Em in H.
  assert (Ht : in_u32 (u32 n)) by (unfold in_u32, u32; pose proof (Z.mod_pos_bound n 4294967296); unfold_ints; lia).
  split; [cbn; tauto|]. cbn. unfold fine, covered, rich. cbn [acc_balance acc_numSubEntries acc_ext set_numSubEntries].
  split; [|right; lia]. intros [Hc|]; [|by right]. destruct Hx as [-> | ->].
  - destruct (Z.le_gt_cases (acc_balance a) (INT64_MAX - MAX_RESERVE)); [|by right]. left.
    assert (reserve (baseReserve h) (u32 n) <= reserve (baseReserve h) (acc_numSubEntries a) + MAX_RESERVE) as Hle.
    { pose proof (count_up _ Hn Hn0). unfold reserve, n. nia. }
    rewrite s64_id in H by (unfold in_s64; unfold_ints; lia).
    destruct (Z.ltb_spec (acc_balance a) (reserve (baseReserve h) (u32 n) + selling (liabilities_of (acc_ext a))));
      [done|lia].
  - left. etransitivity; [|exact Hc]. apply Z.add_le_mono_r. pose proof (count_down _ Hn Hn0). unfold reserve, n. nia.
Qed.

(** * Relations kept by every step

    What every function on an entry and every change of the state that the
    operations make keep, the operations keep as well. *)
Definition not_account (d : LedgerEntryData) : Prop := match d with ACCOUNT _ => False | _ => True end.
Definition same_funds (f : AccountEntry -> AccountEntry) : Prop := forall a,
  acc_balance (f a) = acc_balance a /\ acc_numSubEntries (f a) = acc_numSubEntries a /\ acc_ext (f a) = acc_ext a.
Class Stepwise (R : LedgerState -> LedgerState -> Prop) := {
  sw_preorder :: PreOrder R;
  sw_addBalance k x : keeps R (modify k (fun h e => addBalance h e x));
  sw_addBuying k x : keeps R (modify k (fun h e => addBuyingLiabilities h e x));
  sw_addSelling k x : keeps R (modify k (fun h e => addSellingLiabilities h e x));
  sw_addEntry k : keeps R (modify k (fun h e => addNumEntries h e 1));
  sw_dropEntry k : keeps R (modify k (fun h e => addNumEntries h e (-1)));
  sw_erase k : keeps R (eraseEntry k);
  sw_create d : not_account d -> keeps R (createEntry d);
  sw_setCurrent k d : not_account d -> keeps R (setCurrent k d);
  sw_updateAccount k f : same_funds f -> keeps R (updateAccount k f);
  sw_updateLimit k x :
    keeps R (update k (fun d => tl ← trustLine_of d; Ok (TRUSTLINE (set_tl_limit x tl))));
  sw_setAuthorized k b : keeps R (update k (fun d => setAuthorized d b));
  sw_normalizeSigners k : keeps R (update k normalizeSigners);
  sw_generateID : keeps R generateID }.
#[export] Hint Resolve sw_addBalance sw_addBuying sw_addSelling sw_addEntry sw_dropEntry sw_erase
  sw_updateLimit sw_setAuthorized sw_normalizeSigners sw_generateID : keeps.
#[export] Hint Extern 1 (keeps _ (createEntry _)) => apply sw_create; exact I : keeps.
#[export] Hint Extern 1 (keeps _ (setCurrent _ _)) => apply sw_setCurrent; exact I : keeps.
#[export] Hint Extern 1 (keeps _ (updateAccount _ _)) => apply sw_updateAccount; done : keeps.

Section Stepwise.
Context R `{!Stepwise R}.

Lemma sw_setOfferAmount k x : keeps R (setOfferAmount k x).
Proof using All. unfold setOfferAmount. keeps_auto. Qed.
Lemma sw_line_addBalance w x : keeps R (line_addBalance w x).
Proof using All. apply keeps_getImpl; [exact _|]. intros []; cbn; keeps_easy. Qed.
Lemma sw_line_addBuying w x : keeps R (line_addBuyingLiabilities w x).
Proof using All. apply keeps_getImpl; [exact _|]. intros []; cbn; keeps_easy. Qed.
Lemma sw_line_addSelling w x : keeps R (line_addSellingLiabilities w x).
Proof using All. apply keeps_getImpl; [exact _|]. intros []; cbn; keeps_easy. Qed.
#[local] Hint Resolve sw_setOfferAmount sw_line_addBalance sw_line_addBuying sw_line_addSelling : keeps.
Lemma sw_acquireOrRelease k b : keeps R (acquireOrReleaseLiabilities k b).
Proof using All. unfold acquireOrReleaseLiabilities, loadAccount, loadTrustLine. keeps_auto. Qed.
#[local] Hint Resolve sw_acquireOrRelease : keeps.
Lemma sw_adjustOffer k a w wl sh sl : keeps R (adjustOffer k a w wl sh sl).
Proof using All. unfold adjustOffer. keeps_auto. Qed.
Lemma sw_addBalanceOrThrow e k a l x : keeps R (addBalanceOrThrow e k a l x).
Proof using All. unfold addBalanceOrThrow. keeps_auto. Qed.
Lemma sw_addBalanceInner i a x : keeps R (addBalanceInner i a x).
Proof using All. unfold addBalanceInner, loadAccount, loadTrustLine. keeps_auto. Qed.
#[local] Hint Resolve sw_adjustOffer sw_addBalanceOrThrow sw_addBalanceInner : keeps.
Lemma sw_crossOffer k x y : keeps R (crossOffer k x y).
Proof using All.
  unfold crossOffer, loadAccount, loadAccountWithoutRecord, loadTrustLineWithoutRecordIfNotNative. keeps_auto.
Qed.
Lemma sw_crossOfferV10 k x y p : keeps R (crossOfferV10 k x y p).
Proof using All.
  unfold crossOfferV10, loadAccount, loadAccountWithoutRecord, loadOffer, releaseLiabilities,
    acquireLiabilities, loadTrustLineIfNotNative. keeps_auto.
Qed.
#[local] Hint Resolve sw_crossOffer sw_crossOfferV10 : keeps.
Lemma sw_convertRound sheep wheat x y path filter : keeps R (convertRound sheep wheat x y path filter).
Proof using All. unfold convertRound. keeps_auto. Qed.
#[local] Hint Resolve sw_convertRound : keeps.
Lemma sw_convertLoop fuel sheep wheat x y path filter ss wr tr :
  keeps R (convertLoop fuel sheep wheat x y path filter ss wr tr).
Proof using All.
  revert x y ss wr tr. induction fuel as [|fuel IH]; intros; cbn [convertLoop]; keeps_auto.
Qed.
Lemma sw_convertWithOffers sheep x wheat y path filter : keeps R (convertWithOffers sheep x wheat y path filter).
Proof using All.
  unfold convertWithOffers. destruct (_ && _); [|keeps_easy]. intros s.
  pose proof (sw_convertLoop (S (size (st_entries s))) sheep wheat x y path filter 0 0 [] s) as H.
  unfold wlp in *. destruct (convertLoop _ _ _ _ _ _ _ _ _ _ s) as [[[c|] s']|]; done.
Qed.
#[local] Hint Resolve sw_convertWithOffers : keeps.

(** ** Operations *)
Lemma sw_BumpSequence src n : keeps R (BumpSequence_doApply src n).
Proof using All. unfold BumpSequence_doApply, loadSourceAccount, loadAccount, currentAccount. keeps_auto. Qed.
Lemma sw_ManageData src op : keeps R (ManageData_doApply src op).
Proof using All. unfold ManageData_doApply, loadSourceAccount, loadAccount, loadData. keeps_auto. Qed.
Lemma sw_ChangeTrust src op : keeps R (ChangeTrust_doApply src op).
Proof using All.
  unfold ChangeTrust_doApply, loadSourceAccount, loadAccount, loadAccountWithoutRecord. keeps_auto.
Qed.
Lemma sw_removeOffers trustor ci l : keeps R (removeOffers trustor ci l).
Proof using All. induction l; cbn [removeOffers]; unfold releaseLiabilities, loadAccount; keeps_auto. Qed.
#[local] Hint Resolve sw_removeOffers : keeps.
Lemma sw_AllowTrust src op : keeps R (AllowTrust_doApply src op).
Proof using All.
  unfold AllowTrust_doApply, loadSourceAccount, loadAccount, currentAccount. keeps_auto.
Qed.
Lemma sw_deleteSigners k key l l' : keeps R (deleteSigners k key l l').
Proof using All. revert l. induction l'; intros l; cbn [deleteSigners]; keeps_auto. Qed.
#[local] Hint Resolve sw_deleteSigners : keeps.
Lemma sw_SetOptions src op : keeps R (SetOptions_doApply src op).
Proof using All.
  unfold SetOptions_doApply, orFail, updateInflationDest, updateFlags, updateThreshold, updateSigner,
    currentAccount, loadSourceAccount, loadAccount, loadAccountWithoutRecord. keeps_auto.
Qed.
Lemma sw_Merge src dest : keeps R (Merge_doApply src dest).
Proof using All.
  unfold Merge_doApply, loadSourceAccount, loadAccount, currentAccount. keeps_auto.
Qed.
Lemma sw_walkPath src path curB x offers : keeps R (walkPath src path curB x offers).
Proof using All.
  revert curB x offers. induction path; intros; cbn [walkPath]; unfold convertHop, issuerExists, assertM,
    loadAccountWithoutRecord, refuse, pass; keeps_auto.
Qed.
#[local] Hint Resolve sw_walkPath : keeps.
Lemma sw_creditDestination bypass dest curB x : keeps R (creditDestination bypass dest curB x).
Proof using All.
  unfold creditDestination, issuerExists, loadAccount, loadAccountWithoutRecord, loadTrustLine, refuse, pass. keeps_auto.
Qed.
Lemma sw_debitSource bypass ex src curB x : keeps R (debitSource bypass ex src curB x).
Proof using All.
  unfold debitSource, issuerExists, assertM, loadAccount, loadAccountWithoutRecord, loadTrustLine, refuse, pass.
  keeps_auto.
Qed.
#[local] Hint Resolve sw_creditDestination sw_debitSource : keeps.
Lemma sw_PathPayment src op : keeps R (PathPayment_doApply src op).
Proof using All. unfold PathPayment_doApply, guarded, loadAccountWithoutRecord, refuse, pass. keeps_auto. Qed.
#[local] Hint Resolve sw_PathPayment : keeps.
Lemma sw_Payment src op : keeps R (Payment_doApply src op).
Proof using All. unfold Payment_doApply, assertM. keeps_auto. Qed.
Lemma sw_checkOfferValid src op : keeps R (checkOfferValid src op).
Proof using All. unfold checkOfferValid, checkSheepLine, checkWheatLine, loadTrustLine, loadAccount. keeps_auto. Qed.
Lemma sw_startOffer src op passive : keeps R (startOffer src op passive).
Proof using All. unfold startOffer, loadOffer, releaseLiabilities. keeps_auto. Qed.
Lemma sw_settle what src asset x : keeps R (settle what src asset x).
Proof using All. unfold settle, loadSourceAccount, loadAccount, loadTrustLine. keeps_auto. Qed.
Lemma sw_computeParameters src o new : keeps R (computeOfferExchangeParameters src o new).
Proof using All.
  intros s. unfold computeOfferExchangeParameters. apply wlp_nested, wlp_bind, wlp_currentHeader.
  do 3 (apply wlp_bind; eapply wlp_mono; [apply wlp_top|]; intros ? ? _). apply wlp_ret. cbn. reflexivity.
Qed.
#[local] Hint Resolve sw_checkOfferValid sw_startOffer sw_settle sw_computeParameters : keeps.
Lemma sw_crossOffers src passive new o : keeps R (crossOffers src passive new o).
Proof using All.
  unfold crossOffers, assertM, remainingAmount, loadTrustLineWithoutRecordIfNotNative, loadAccountWithoutRecord.
  keeps_auto.
Qed.
Lemma sw_placeOffer src new offer : keeps R (placeOffer src new offer).
Proof using All. unfold placeOffer, acquireLiabilities, loadSourceAccount, loadAccount. keeps_auto. Qed.
#[local] Hint Resolve sw_crossOffers sw_placeOffer : keeps.
Lemma sw_ManageOffer src passive op : keeps R (ManageOffer_doApply src passive op).
Proof using All. unfold ManageOffer_doApply. keeps_auto. Qed.
End Stepwise.
#[export] Hint Resolve sw_BumpSequence sw_ManageData sw_ChangeTrust sw_AllowTrust sw_SetOptions sw_Merge
  sw_PathPayment sw_Payment sw_ManageOffer : keeps.

#[export] Instance reserves_stepwise : Stepwise reserves.
Proof.
  constructor; [apply reserves_preorder|intros..].
  - apply reserves_addBalance.
  - apply reserves_addBuying.
  - apply reserves_addSelling.
  - apply reserves_addNumEntries. lia.
  - apply reserves_addNumEntries. lia.
  - apply reserves_erase.
  - by apply reserves_create.
  - by apply reserves_setCurrent.
  - apply reserves_update. intros d d'. destruct d as [a| | |]; cbn; try done. intros [= <-]. by exists a.
  - apply reserves_update. intros [] d'; cbn; try done. by intros [= <-].
  - apply reserves_update. intros [] d'; cbn; try done. by intros [= <-].
  - apply reserves_update. intros [a| | |] d'; cbn; try done. intros [= <-]. by exists a.
  - apply reserves_generateID.
Qed.
Lemma reserves_CreateAccount src op : keeps reserves (CreateAccount_doApply src op).
Proof.
  unfold CreateAccount_doApply, loadAccount. apply keeps_bind; [exact _|keeps_easy|]. intros [];
    cbn [negb]; [keeps_easy|]. intros s. apply wlp_bind, wlp_currentHeader.
  destruct (Z.ltb_spec (ca_startingBalance op) (getMinBalance (st_header s) 0)) as [|Hmin]; [by apply wlp_ret|].
  apply wlp_bind. eapply (wlp_keeps eq); [unfold loadAccountWithoutRecord; by keeps_auto|]. intros ex _ <-.
  apply wlp_bind. eapply (wlp_keeps eq); [unfold loadSourceAccount, loadAccount; by keeps_auto|]. intros _ _ <-.
  apply wlp_bind, wlp_read. intros d avail Hd Ha.
  destruct (Z.ltb_spec avail (ca_startingBalance op)) as [|Hle]; [by apply wlp_ret|].
  destruct ex; cbn [negb]; [|done].
  apply wlp_bind. eapply wlp_keeps; [apply reserves_addBalance|]. intros ok s1 H1.
  apply wlp_bind, wlp_lift. intros _ _. apply wlp_bind, wlp_create. intros Hn. apply wlp_ret.
  intros Hs. destruct (H1 Hs) as (Hs1 & V & E & F).
  destruct Hs as (Hv & Hr & _). destruct (getMinBalance_exact (st_header s) 0 Hv Hr) as [Em Hpos]. rewrite Em in Hmin.
  assert (avail <= INT64_MAX).
  { unfold getAvailableBalance in Ha. apply outcome_bind_Ok in Ha as (x & _ & Ha). unfold version in Hv.
    rewrite (proj2 (Z.leb_le _ _)) in Ha by done. apply outcome_bind_Ok in Ha as (y & _ & Ha).
    injection Ha as <-. apply s64_range. }
  set (new := ACCOUNT _).
  assert (Hfine : funded (baseReserve (st_header s)) None (Some new)).
  { cbn. left. unfold covered. cbn. rewrite selling_None. lia. }
  assert (Hc : reserves s1 (set_entries (<[LedgerDataKey new := new]> (st_entries s1)) s1)).
  { apply reserves_insert.
    - cbn. unfold in_u32. rewrite selling_None. unfold_ints; lia.
    - intros _. fold new in Hn. rewrite Hn, E. done. }
  destruct (Hc Hs1) as (Hs2 & V2 & E2 & F2). split; [done|split; [congruence|split; [congruence|]]].
  intros k. transitivity (st_entries s1 !! k); [done|]. rewrite <- E. apply F2.
Qed.
#[local] Hint Extern 1 (keeps reserves (updateHeader _)) => apply reserves_updateHeader; done : keeps.
Lemma reserves_Inflation : keeps reserves Inflation_doApply.
Proof.
  pose proof keeps_inflationWinners.
  assert (forall A T w, keeps reserves (dole A T w))
    by (intros; unfold dole, loadAccount, loadAccountWithoutRecord; keeps_auto).
  assert (forall A T ws left payouts, keeps reserves (doleLoop A T ws left payouts))
    by (intros A T ws; induction ws; intros; cbn [doleLoop]; keeps_auto).
  unfold Inflation_doApply. keeps_auto.
Qed.

(** ** The coins in circulation *)
Definition same_pool (s s' : LedgerState) : Prop :=
  totalCoins (st_header s') = totalCoins (st_header s) /\ feePool (st_header s') = feePool (st_header s).
#[export] Instance same_pool_preorder : PreOrder same_pool.
Proof. split; [done|]. intros a b c [? ?] [? ?]. split; congruence. Qed.
Lemma pool_entries s m : same_pool s (set_entries m s).
Proof. done. Qed.
Lemma pool_modify k f : keeps same_pool (modify k f).
Proof. intros s. apply wlp_modify. intros d _. by destruct (f (st_header s) d) as [[d'|]|]. Qed.
Lemma pool_update k f : keeps same_pool (update k f).
Proof. intros s. apply wlp_bind, wlp_current. intros d _. apply wlp_bind, wlp_lift. intros d' _. by apply wlp_setCurrent. Qed.
#[export] Instance same_pool_stepwise : Stepwise same_pool.
Proof.
  constructor; [apply same_pool_preorder|intros..]; try apply pool_modify; try apply pool_update.
  - intros s. by apply wlp_erase.
  - intros s. by apply wlp_create.
  - intros s. by apply wlp_setCurrent.
  - intros s. by apply wlp_bind, wlp_currentHeader, wlp_bind, wlp_setHeader, wlp_ret.
Qed.
#[export] Hint Resolve reserves_CreateAccount : keeps.
Lemma pool_CreateAccount src op : keeps same_pool (CreateAccount_doApply src op).
Proof.
  assert (forall d, keeps same_pool (createEntry d)) by (intros d s; by apply wlp_create).
  unfold CreateAccount_doApply, assertM, loadSourceAccount, loadAccount, loadAccountWithoutRecord. keeps_auto.
Qed.
