(* ===== verification/Invariants.v ===== *)
(** The invariants that are checked after each operation
    ([src/src/invariant/]): [ConservationOfLumens], [AccountSubEntriesCountIsValid],
    [LiabilitiesMatchOffers] and [LedgerEntryIsValid], and the one that is checked
    after each bucket, [BucketListIsConsistentWithDatabase].

    A check returns a message, which is empty if the invariant holds.  A
    message is represented by what it says ([Violation]), the empty one by
    [None].  The deltas are visited in the order of the model's maps, the code's
    is that of its hash tables: which of several violations is reported differs,
    whether there is one does not. *)

From S2P Require Import Prelude Numeric OfferMath Types Buckets BucketList OfferOrder LedgerTxn LedgerState.
From S2P Require Import TransactionUtils OfferExchange Operations Payments ManageOffers Transactions.

Inductive Violation :=
  (* ConservationOfLumens *)
  | TotalCoinsMismatch (deltaTotalCoins deltaFeePool inflationPayouts : Z)
  | BalancesMismatch (deltaBalances inflationPayouts : Z)
  | TotalCoinsChanged (previous current : Z)
  | FeePoolChanged (previous current : Z)
  | BalancesChanged (deltaBalances : Z)
  (* AccountSubEntriesCountIsValid *)
  | SubEntriesMismatch (account : AccountID) (numSubEntries calculated : Z)
  | DeletedWithSubEntries (account : AccountID) (otherSubEntries : Z)
  (* LiabilitiesMatchOffers *)
  | UnauthorizedWithLiabilities (trust : TrustLineEntry)
  | BuyingLiabilitiesDiffer (delta : Z) (account : AccountID) (asset : Asset)
  | SellingLiabilitiesDiffer (delta : Z) (account : AccountID) (asset : Asset)
  | AccountBalanceIncompatible (account : AccountEntry)
  | TrustLineBalanceIncompatible (trust : TrustLineEntry)
  (* LedgerEntryIsValid *)
  | LedgerSeqExceedsLimits (ledgerSeq : Z)
  | EntryInvalid (reason : string) (entry : LedgerEntry)
  (* BucketListIsConsistentWithDatabase *)
  | OutOfOrder (previous current : BucketEntry)
  | LastModifiedBelow (seq oldestLedger : Z) (entry : LedgerEntry)
  | LastModifiedAbove (seq newestLedger : Z) (entry : LedgerEntry)
  | NotFoundInDatabase (entry : LedgerEntry)
  | InconsistentWithDatabase (db live : LedgerEntry)
  | DeadEntryInDatabase (db : LedgerEntry)
  | IncorrectCount (type : Z) (bucket database : Z).

(** What [checkOnOperationApply] is given and returns. *)
Definition Check : Type :=
  Operation -> OperationResult -> LedgerTxnDelta -> outcome (option Violation).

(** A loop over the entries of a delta with an accumulator, and one that
    returns at the first violation. *)
Fixpoint accumulate {A B} (f : B -> A -> outcome B) (l : list A) (b : B) : outcome B :=
  match l with
  | [] => Ok b
  | x :: l => b' ← f b x; accumulate f l b'
  end.
Fixpoint firstViolation {A} (f : A -> outcome (option Violation)) (l : list A)
    : outcome (option Violation) :=
  match l with
  | [] => Ok None
  | x :: l => v ← f x; match v with Some v => Ok (Some v) | None => firstViolation f l end
  end.

Definition EntryDelta : Type := option LedgerEntry * option LedgerEntry.
Definition deltas (d : LedgerTxnDelta) : list EntryDelta := (map_to_list (delta_entry d)).*2.
(** [current ? current : previous] *)
Definition validOf (d : EntryDelta) : option LedgerEntry :=
  match d.1 with Some e => Some e | None => d.2 end.
(** A field of an entry that may be missing: 0 then. *)
Definition ifPresent (e : option LedgerEntry) (f : LedgerEntryData -> outcome Z) : outcome Z :=
  match e with Some e => f (le_data e) | None => Ok 0 end.

(** * ConservationOfLumens *)
Definition calculateDeltaBalance (d : EntryDelta) : outcome Z :=
  match validOf d with
  | None => Throw (AssertFailure "current || previous")
  | Some valid =>
      match le_data valid with
      | ACCOUNT _ =>
          let balance d := a ← account_of d; Ok (acc_balance a) in
          c ← ifPresent d.1 balance;
          p ← ifPresent d.2 balance;
          Ok (s64 (c - p))
      | _ => Ok 0
      end
  end.

(** [result.tr()] and [inflationResult().payouts()] throw on the other arms. *)
Definition resultTr (result : OperationResult) : outcome OperationResultTr :=
  match result with
  | opINNER tr => Ok tr
  | _ => Throw (RuntimeError "OperationResult: tr accessed when not selected")
  end.
Definition payoutsOf (r : InflationResult) : outcome (list (AccountID * Z)) :=
  match r with
  | INFLATION_SUCCESS payouts => Ok payouts
  | _ => Throw (RuntimeError "InflationResult: payouts accessed when not selected")
  end.

Definition ConservationOfLumens_checkOnOperationApply : Check := fun _ result ltxDelta =>
  let '(lhCurr, lhPrev) := delta_header ltxDelta in
  let deltaTotalCoins := s64 (totalCoins lhCurr - totalCoins lhPrev) in
  let deltaFeePool := s64 (feePool lhCurr - feePool lhPrev) in
  deltaBalances ← accumulate
    (fun lhs d => x ← calculateDeltaBalance d; Ok (s64 (lhs + x))) (deltas ltxDelta) 0;
  tr ← resultTr result;
  match tr with
  | RES_INFLATION r =>
      payouts ← payoutsOf r;
      let inflationPayouts := foldl (fun lhs p => s64 (lhs + p.2)) 0 payouts in
      if negb (deltaTotalCoins =? s64 (inflationPayouts + deltaFeePool))
      then Ok (Some (TotalCoinsMismatch deltaTotalCoins deltaFeePool inflationPayouts))
      else if negb (deltaBalances =? inflationPayouts)
      then Ok (Some (BalancesMismatch deltaBalances inflationPayouts))
      else Ok None
  | _ =>
      if negb (deltaTotalCoins =? 0)
      then Ok (Some (TotalCoinsChanged (totalCoins lhPrev) (totalCoins lhCurr)))
      else if negb (deltaFeePool =? 0)
      then Ok (Some (FeePoolChanged (feePool lhPrev) (feePool lhCurr)))
      else if negb (deltaBalances =? 0) then Ok (Some (BalancesChanged deltaBalances))
      else Ok None
  end.

(** * AccountSubEntriesCountIsValid *)
Record SubEntriesChange := mkSubEntriesChange {
  sc_numSubEntries : Z;
  sc_calculatedSubEntries : Z;
  sc_signers : Z }.
Abbreviation SubEntriesChanges := (gmap AccountID SubEntriesChange) (only parsing).
Definition noSubEntriesChange : SubEntriesChange := mkSubEntriesChange 0 0 0.
Definition changeOf (m : SubEntriesChanges) (id : AccountID) : SubEntriesChange :=
  default noSubEntriesChange (m !! id).

Definition calculateDelta (d : EntryDelta) : Z :=
  (match d.1 with Some _ => 1 | None => 0 end) - (match d.2 with Some _ => 1 | None => 0 end).
Definition addCalculated (id : AccountID) (x : Z) (m : SubEntriesChanges) : SubEntriesChanges :=
  let c := changeOf m id in
  <[id := mkSubEntriesChange (sc_numSubEntries c) (s32 (sc_calculatedSubEntries c + x)) (sc_signers c)]> m.

Definition updateChangedSubEntriesCount (m : SubEntriesChanges) (d : EntryDelta)
    : outcome SubEntriesChanges :=
  match validOf d with
  | None => Throw (AssertFailure "valid")
  | Some valid =>
      match le_data valid with
      | ACCOUNT acc =>
          let id := acc_id acc in
          let subEntries d := a ← account_of d; Ok (s32 (acc_numSubEntries a)) in
          let numSigners d := a ← account_of d; Ok (s32 (Z.of_nat (length (acc_signers a)))) in
          cn ← ifPresent d.1 subEntries;
          pn ← ifPresent d.2 subEntries;
          cs ← ifPresent d.1 numSigners;
          ps ← ifPresent d.2 numSigners;
          let signers := s32 (cs - ps) in
          Ok (<[id := mkSubEntriesChange (s32 (cn - pn))
                        (s32 (sc_calculatedSubEntries (changeOf m id) + signers)) signers]> m)
      | TRUSTLINE t => Ok (addCalculated (tl_account t) (calculateDelta d) m)
      | OFFER o => Ok (addCalculated (of_seller o) (calculateDelta d) m)
      | DATA da => Ok (addCalculated (da_account da) (calculateDelta d) m)
      end
  end.

(** The body of the second loop. *)
Definition checkDeletedAccount (m : SubEntriesChanges) (d : EntryDelta)
    : outcome (option Violation) :=
  match d with
  | (Some _, _) => Ok None
  | (None, None) => Throw (AssertFailure "entryDelta.second.previous")
  | (None, Some previous) =>
      match le_data previous with
      | ACCOUNT account =>
          let change := changeOf m (acc_id account) in
          let numSigners :=
            s32 (u32 (acc_numSubEntries account + sc_numSubEntries change - sc_signers change)) in
          let size := s32 (Z.of_nat (length (acc_signers account))) in
          if negb (numSigners =? size)
          then Ok (Some (DeletedWithSubEntries (acc_id account)
                           (s32 (s32 (acc_numSubEntries account) - size))))
          else Ok None
      | _ => Ok None
      end
  end.

Definition AccountSubEntriesCountIsValid_checkOnOperationApply : Check := fun _ _ ltxDelta =>
  subEntriesChange ← accumulate updateChangedSubEntriesCount (deltas ltxDelta) ∅;
  v ← firstViolation (fun kv : AccountID * SubEntriesChange =>
        let change := kv.2 in
        if negb (sc_numSubEntries change =? sc_calculatedSubEntries change)
        then Ok (Some (SubEntriesMismatch kv.1 (sc_numSubEntries change) (sc_calculatedSubEntries change)))
        else Ok None) (map_to_list subEntriesChange);
  match v with
  | Some v => Ok (Some v)
  | None => firstViolation (checkDeletedAccount subEntriesChange) (deltas ltxDelta)
  end.

(** * LiabilitiesMatchOffers

    The file has its own copies of the helpers of [TransactionUtils]; these do
    not look at the version. *)
Definition lmo_getMinBalance (header : LedgerHeader) (ownerCount : Z) : Z :=
  if ledgerVersion header <=? 8
  then u32 (u32 (2 + ownerCount) * baseReserve header)
  else s64 (u32 (2 + ownerCount) * baseReserve header).
Definition lmo_offerExchange (oe : OfferEntry) : outcome ExchangeResultV10 :=
  exchangeV10WithoutPriceErrorThresholds (of_price oe) (of_amount oe)
    INT64_MAX INT64_MAX INT64_MAX false.
Definition lmo_getOfferBuyingLiabilities (oe : OfferEntry) : outcome Z :=
  res ← lmo_offerExchange oe; Ok (numSheepSend res).
Definition lmo_getOfferSellingLiabilities (oe : OfferEntry) : outcome Z :=
  res ← lmo_offerExchange oe; Ok (numWheatReceived res).
Definition lmo_getBuyingLiabilities (le : LedgerEntry) : outcome Z :=
  match le_data le with
  | ACCOUNT acc => Ok (match acc_ext acc with None => 0 | Some l => buying l end)
  | TRUSTLINE tl => Ok (match tl_ext tl with None => 0 | Some l => buying l end)
  | _ => Throw (RuntimeError "Unknown LedgerEntry type")
  end.
Definition lmo_getSellingLiabilities (le : LedgerEntry) : outcome Z :=
  match le_data le with
  | ACCOUNT acc => Ok (match acc_ext acc with None => 0 | Some l => selling l end)
  | TRUSTLINE tl => Ok (match tl_ext tl with None => 0 | Some l => selling l end)
  | _ => Throw (RuntimeError "Unknown LedgerEntry type")
  end.

Definition checkAuthorized (current : option LedgerEntry) : outcome (option Violation) :=
  match current with
  | None => Ok None
  | Some le =>
      match le_data le with
      | TRUSTLINE trust =>
          if Z.land (tl_flags trust) AUTHORIZED_FLAG =? 0 then
            sell ← lmo_getSellingLiabilities le;
            buy ← lmo_getBuyingLiabilities le;
            if (0 <? sell) || (0 <? buy) then Ok (Some (UnauthorizedWithLiabilities trust))
            else Ok None
          else Ok None
      | _ => Ok None
      end
  end.

(** The nested maps [deltaLiabilities[account][asset]] as one map. *)
Abbreviation DeltaLiabilities := (gmap (AccountID * Asset) Liabilities) (only parsing).
Definition deltaAt (m : DeltaLiabilities) (k : AccountID * Asset) : Liabilities :=
  default (mkLiabilities 0 0) (m !! k).
Definition addBuyingDelta (k : AccountID * Asset) (x : Z) (m : DeltaLiabilities) : DeltaLiabilities :=
  <[k := mkLiabilities (s64 (buying (deltaAt m k) + x)) (selling (deltaAt m k))]> m.
Definition addSellingDelta (k : AccountID * Asset) (x : Z) (m : DeltaLiabilities) : DeltaLiabilities :=
  <[k := mkLiabilities (buying (deltaAt m k)) (s64 (selling (deltaAt m k) + x))]> m.

(** [asset.type() == ASSET_TYPE_NATIVE || !(getIssuer(asset) == account)] *)
Definition owedByOthers (asset : Asset) (account : AccountID) : outcome bool :=
  if is_native asset then Ok true
  else i ← getIssuer asset; Ok (negb (i =? account)).

Definition addOrSubtractLiabilities (m : DeltaLiabilities) (entry : option LedgerEntry) (isAdd : bool)
    : outcome DeltaLiabilities :=
  match entry with
  | None => Ok m
  | Some le =>
      let sign := if isAdd then 1 else -1 in
      let record k :=
        sell ← lmo_getSellingLiabilities le;
        buy ← lmo_getBuyingLiabilities le;
        Ok (addBuyingDelta k (- s64 (sign * buy)) (addSellingDelta k (- s64 (sign * sell)) m)) in
      match le_data le with
      | ACCOUNT account => record (acc_id account, ASSET_NATIVE)
      | TRUSTLINE trust => record (tl_account trust, tl_asset trust)
      | OFFER offer =>
          s ← owedByOthers (of_selling offer) (of_seller offer);
          m ← (if s : bool then
                 x ← lmo_getOfferSellingLiabilities offer;
                 Ok (addSellingDelta (of_seller offer, of_selling offer) (s64 (sign * x)) m)
               else Ok m);
          b ← owedByOthers (of_buying offer) (of_seller offer);
          if b : bool then
            x ← lmo_getOfferBuyingLiabilities offer;
            Ok (addBuyingDelta (of_seller offer, of_buying offer) (s64 (sign * x)) m)
          else Ok m
      | DATA _ => Ok m
      end
  end.
Definition accumulateLiabilities (m : DeltaLiabilities) (d : EntryDelta) : outcome DeltaLiabilities :=
  m ← addOrSubtractLiabilities m d.1 true;
  addOrSubtractLiabilities m d.2 false.

(** Both comparisons of liabilities are of the current ones with themselves. *)
Definition shouldCheckAccount (current : LedgerEntry) (previous : option LedgerEntry)
    (ledgerVersion : Z) : outcome bool :=
  match previous with
  | None => Ok true
  | Some previous =>
      currAcc ← account_of (le_data current);
      prevAcc ← account_of (le_data previous);
      let didBalanceDecrease := acc_balance currAcc <? acc_balance prevAcc in
      if 10 <=? ledgerVersion then
        s1 ← lmo_getSellingLiabilities current;
        s2 ← lmo_getSellingLiabilities current;
        b1 ← lmo_getBuyingLiabilities current;
        b2 ← lmo_getBuyingLiabilities current;
        let sellingLiabilitiesInc := s2 <? s1 in
        let buyingLiabilitiesInc := b2 <? b1 in
        let didLiabilitiesIncrease := sellingLiabilitiesInc || buyingLiabilitiesInc in
        Ok (didBalanceDecrease || didLiabilitiesIncrease)
      else Ok didBalanceDecrease
  end.

Definition checkBalanceAndLimit (header : LedgerHeader) (version : Z) (d : EntryDelta)
    : outcome (option Violation) :=
  match d.1 with
  | None => Ok None
  | Some current =>
      let liabilities :=
        if 10 <=? version then
          s ← lmo_getSellingLiabilities current;
          b ← lmo_getBuyingLiabilities current;
          Ok (mkLiabilities b s)
        else Ok (mkLiabilities 0 0) in
      match le_data current with
      | ACCOUNT account =>
          should ← shouldCheckAccount current d.2 version;
          if should : bool then
            l ← liabilities;
            let minBalance := lmo_getMinBalance header (acc_numSubEntries account) in
            if (acc_balance account <? s64 (minBalance + selling l))
               || (s64 (INT64_MAX - acc_balance account) <? buying l)
            then Ok (Some (AccountBalanceIncompatible account))
            else Ok None
          else Ok None
      | TRUSTLINE trust =>
          l ← liabilities;
          if (tl_balance trust <? selling l) || (s64 (tl_limit trust - tl_balance trust) <? buying l)
          then Ok (Some (TrustLineBalanceIncompatible trust))
          else Ok None
      | _ => Ok None
      end
  end.

(** The first loop: a violation, or the accumulated differences. *)
Fixpoint gatherLiabilities (l : list EntryDelta) (m : DeltaLiabilities)
    : outcome (Violation + DeltaLiabilities) :=
  match l with
  | [] => Ok (inr m)
  | d :: l =>
      v ← checkAuthorized d.1;
      match v with
      | Some v => Ok (inl v)
      | None => m ← accumulateLiabilities m d; gatherLiabilities l m
      end
  end.
Definition checkDelta (kv : AccountID * Asset * Liabilities) : outcome (option Violation) :=
  let '(account, asset, l) := kv in
  if negb (buying l =? 0) then Ok (Some (BuyingLiabilitiesDiffer (buying l) account asset))
  else if negb (selling l =? 0) then Ok (Some (SellingLiabilitiesDiffer (selling l) account asset))
  else Ok None.

Definition LiabilitiesMatchOffers_checkOnOperationApply : Check := fun _ _ ltxDelta =>
  let header := (delta_header ltxDelta).1 in
  let version := ledgerVersion header in
  v ← (if 10 <=? version then
         g ← gatherLiabilities (deltas ltxDelta) ∅;
         match g with
         | inl v => Ok (Some v)
         | inr deltaLiabilities => firstViolation checkDelta (map_to_list deltaLiabilities)
         end
       else Ok None);
  match v with
  | Some v => Ok (Some v)
  | None => firstViolation (checkBalanceAndLimit header version) (deltas ltxDelta)
  end.

(** * LedgerEntryIsValid *)
Definition MASK_ACCOUNT_FLAGS : Z := 7.
Definition MASK_TRUSTLINE_FLAGS : Z := 1.
Definition MASK_OFFERENTRY_FLAGS : Z := 1.
Definition otherFlags (flags mask : Z) : bool := negb (Z.land flags (u32 (Z.lnot mask)) =? 0).

(** [std::adjacent_find] of two signers that do not increase. *)
Fixpoint signersIncrease (l : list Signer) : bool :=
  match l with
  | s1 :: (s2 :: _) as l' => signer_key_lt (signer_key s1) (signer_key s2) && signersIncrease l'
  | _ => true
  end.

Definition checkAccountIsValid (ae : AccountEntry) (version : Z) : option string :=
  if acc_balance ae <? 0 then Some "Account balance is negative"
  else if acc_seqNum ae <? 0 then Some "Account seqNum is negative"
  else if INT32_MAX <? acc_numSubEntries ae then Some "Account numSubEntries exceeds limit"
  else if otherFlags (acc_flags ae) MASK_ACCOUNT_FLAGS then Some "Account flags are invalid"
  else if negb (isString32Valid (acc_homeDomain ae)) then Some "Account homeDomain is invalid"
  else if negb (signersIncrease (acc_signers ae)) then Some "Account signers are not strictly increasing"
  else if (9 <? version)
          && negb (forallb (fun s => (signer_weight s <=? UINT8_MAX) && negb (signer_weight s =? 0))
                     (acc_signers ae))
  then Some "Account signers have invalid weights"
  else None.
Definition checkTrustLineIsValid (tl : TrustLineEntry) : option string :=
  if is_native (tl_asset tl) then Some "TrustLine asset is native"
  else if negb (isAssetValid (tl_asset tl)) then Some "TrustLine asset is invalid"
  else if tl_balance tl <? 0 then Some "TrustLine balance is negative"
  else if tl_limit tl <=? 0 then Some "TrustLine balance is not positive"
  else if tl_limit tl <? tl_balance tl then Some "TrustLine balance exceeds limit"
  else if otherFlags (tl_flags tl) MASK_TRUSTLINE_FLAGS then Some "TrustLine flags are invalid"
  else None.
Definition checkOfferIsValid (oe : OfferEntry) : option string :=
  if INT64_MAX <? of_offerID oe then Some "Offer offerID exceeds limit"
  else if negb (isAssetValid (of_selling oe)) then Some "Offer selling asset is invalid"
  else if negb (isAssetValid (of_buying oe)) then Some "Offer buying asset is invalid"
  else if of_amount oe <=? 0 then Some "Offer amount is not positive"
  else if (pn (of_price oe) <=? 0) || (pd (of_price oe) <? 1) then Some "Offer price is invalid"
  else if otherFlags (of_flags oe) MASK_OFFERENTRY_FLAGS then Some "Offer flags are invalid"
  else None.
Definition checkDataIsValid (de : DataEntry) : option string :=
  if Nat.eqb (String.length (da_name de)) 0 then Some "Data dataName is empty"
  else if negb (isString32Valid (da_name de)) then Some "Data dataName is invalid"
  else None.
Definition checkIsValid (le : LedgerEntry) (seq version : Z) : option string :=
  if negb (lastModifiedLedgerSeq le =? seq)
  then Some "LedgerEntry lastModifiedLedgerSeq does not equal LedgerHeader ledgerSeq"
  else match le_data le with
  | ACCOUNT a => checkAccountIsValid a version
  | TRUSTLINE t => checkTrustLineIsValid t
  | OFFER o => checkOfferIsValid o
  | DATA d => checkDataIsValid d
  end.

Definition LedgerEntryIsValid_checkOnOperationApply : Check := fun _ _ ltxDelta =>
  let header := (delta_header ltxDelta).1 in
  if INT32_MAX <? ledgerSeq header then Ok (Some (LedgerSeqExceedsLimits (ledgerSeq header)))
  else
    firstViolation (fun d : EntryDelta =>
      Ok (match d.1 with
          | None => None
          | Some current =>
              (fun reason => EntryInvalid reason current)
                <$> checkIsValid current (ledgerSeq header) (ledgerVersion header)
          end)) (deltas ltxDelta).

(** * BucketListIsConsistentWithDatabase

    The database is the ledger behind [LedgerTxnRoot]; a nested transaction
    that only reads without recording sees the same entries. *)
Definition checkLiveAgainstDatabase (root : Ledger) (entry : LedgerEntry) : option Violation :=
  match getNewestVersion root (LedgerEntryKey entry) with
  | None => Some (NotFoundInDatabase entry)
  | Some fromDb =>
      if bool_decide (fromDb = entry) then None else Some (InconsistentWithDatabase fromDb entry)
  end.
Definition checkDeadAgainstDatabase (root : Ledger) (key : LedgerKey) : option Violation :=
  DeadEntryInDatabase <$> getNewestVersion root key.

(** [nAccounts], [nTrustLines], [nOffers] and [nData] by the entry's type. *)
Definition entryType (e : LedgerEntry) : Z := keyType (LedgerEntryKey e).
Definition countOne (e : LedgerEntry) (counts : Z -> Z) (t : Z) : Z :=
  if t =? entryType e then u64 (counts t + 1) else counts t.

Fixpoint checkBucketEntries (root : Ledger) (oldestLedger newestLedger : Z)
    (previousEntry : option BucketEntry) (iter : list BucketEntry) (counts : Z -> Z)
    : Violation + (Z -> Z) :=
  match iter with
  | [] => inr counts
  | e :: iter =>
      let outOfOrder :=
        match previousEntry with
        | Some previous => if negb (BucketEntryIdCmp previous e) then Some (OutOfOrder previous e) else None
        | None => None
        end in
      match outOfOrder with
      | Some v => inl v
      | None =>
          match e with
          | LIVEENTRY live =>
              if lastModifiedLedgerSeq live <? oldestLedger
              then inl (LastModifiedBelow (lastModifiedLedgerSeq live) oldestLedger live)
              else if newestLedger <? lastModifiedLedgerSeq live
              then inl (LastModifiedAbove (lastModifiedLedgerSeq live) newestLedger live)
              else match checkLiveAgainstDatabase root live with
                   | Some v => inl v
                   | None => checkBucketEntries root oldestLedger newestLedger (Some e) iter
                               (countOne live counts)
                   end
          | DEADENTRY dead =>
              match checkDeadAgainstDatabase root dead with
              | Some v => inl v
              | None => checkBucketEntries root oldestLedger newestLedger (Some e) iter counts
              end
          end
      end
  end.

(** [LedgerTxnRoot::countObjects(let, range)]: an SQL query on one table, the
    bounds as [int]s. *)
Definition countObjects (root : Ledger) (type oldestLedger newestLedger : Z) : Z :=
  u64 (Z.of_nat (length (filter (fun kv : LedgerKey * LedgerEntry =>
    keyType kv.1 = type /\ s32 oldestLedger <= lastModifiedLedgerSeq kv.2 <= s32 newestLedger)
    (map_to_list (view root))))).

Fixpoint checkCounts (root : Ledger) (oldestLedger newestLedger : Z) (counts : Z -> Z) (types : list Z)
    : option Violation :=
  match types with
  | [] => None
  | t :: types =>
      let inDb := countObjects root t oldestLedger newestLedger in
      if negb (inDb =? counts t) then Some (IncorrectCount t (counts t) inDb)
      else checkCounts root oldestLedger newestLedger counts types
  end.
Definition BucketListIsConsistentWithDatabase_checkOnBucketApply (root : Ledger) (bucket : Bucket)
    (oldestLedger newestLedger : Z) : outcome (option Violation) :=
  match checkBucketEntries root oldestLedger newestLedger None bucket (fun _ => 0) with
  | inl v => Ok (Some v)
  | inr counts =>
      (* the constructor of [LedgerRange] *)
      _ ← cassert "mFirst > 0" (0 <? oldestLedger);
      _ ← cassert "mLast >= mFirst" (oldestLedger <=? newestLedger);
      Ok (checkCounts root oldestLedger newestLedger counts [0; 1; 2; 3])
  end.
