(* ===== verification/InvariantManager.v ===== *)
(** The invariant manager: [src/src/invariant/InvariantManagerImpl.cpp].

    It registers invariants, enables those whose names match a pattern, and runs
    the enabled ones after each operation and each bucket. *)

From S2P Require Import Prelude Numeric OfferMath Types Buckets BucketList OfferOrder LedgerTxn LedgerState.
From S2P Require Import TransactionUtils OfferExchange Operations Payments ManageOffers Transactions Invariants.

(** * InvariantManagerImpl

    An invariant is what its class overrides; the others return the empty
    string. *)
Record Invariant := mkInvariant {
  getName : string;
  isStrict : bool;
  onOperationApply : Check;
  onBucketApply : Ledger -> Bucket -> Z -> Z -> outcome (option Violation) }.
Definition noOperationCheck : Check := fun _ _ _ => Ok None.
Definition noBucketCheck : Ledger -> Bucket -> Z -> Z -> outcome (option Violation) := fun _ _ _ _ => Ok None.
Definition ConservationOfLumens : Invariant :=
  mkInvariant "ConservationOfLumens" false ConservationOfLumens_checkOnOperationApply noBucketCheck.
Definition AccountSubEntriesCountIsValid : Invariant :=
  mkInvariant "AccountSubEntriesCountIsValid" false AccountSubEntriesCountIsValid_checkOnOperationApply noBucketCheck.
(** Its name is the one that the acceptance tests expect. *)
Definition LiabilitiesMatchOffers : Invariant :=
  mkInvariant "MinimumAccountBalance" false LiabilitiesMatchOffers_checkOnOperationApply noBucketCheck.
Definition LedgerEntryIsValid : Invariant :=
  mkInvariant "LedgerEntryIsValid" false LedgerEntryIsValid_checkOnOperationApply noBucketCheck.
Definition BucketListIsConsistentWithDatabase : Invariant :=
  mkInvariant "BucketListIsConsistentWithDatabase" true noOperationCheck
    BucketListIsConsistentWithDatabase_checkOnBucketApply.

(** A message names the invariant, what it is about and the violation. *)
Inductive FailureMessage :=
  | OnBucket (name : string) (isCurr : bool) (level : Z) (bucket : Bucket) (result : Violation)
  | OnOperation (name : string) (result : Violation) (operation : Operation).
Record InvariantFailureInformation := mkFailure {
  lastFailedOnLedger : Z;
  lastFailedWithMessage : FailureMessage }.

(** [mInvariants] is a [std::map], kept in the order of the names.  An
    invariant is registered once, under its own name: the pointers of
    [mEnabled] are compared by it. *)
Record InvariantManager := mkManager {
  mInvariants : list Invariant;
  mEnabled : list Invariant;
  mInvariantFailureCount : Z;
  mFailureInformation : gmap string InvariantFailureInformation }.
Definition newInvariantManager : InvariantManager := mkManager [] [] 0 ∅.
Definition set_mEnabled (l : list Invariant) (m : InvariantManager) : InvariantManager :=
  mkManager (mInvariants m) l (mInvariantFailureCount m) (mFailureInformation m).

Definition hasName (name : string) (l : list Invariant) : bool :=
  existsb (fun i => String.eqb (getName i) name) l.
Fixpoint insertByName (i : Invariant) (l : list Invariant) : list Invariant :=
  match l with
  | [] => [i]
  | j :: l' => if String.ltb (getName i) (getName j) then i :: l else j :: insertByName i l'
  end.
Definition registerInvariant (i : Invariant) (m : InvariantManager) : outcome InvariantManager :=
  if hasName (getName i) (mInvariants m)
  then Throw (RuntimeError ("Invariant " +:+ getName i +:+ " already registered"))
  else Ok (mkManager (insertByName i (mInvariants m)) (mEnabled m) (mInvariantFailureCount m)
             (mFailureInformation m)).
Definition getEnabledInvariants (m : InvariantManager) : list string := getName <$> mEnabled m.

(** [onInvariantFailure] and [handleInvariantFailure]: the failure is recorded
    even if it then throws. *)
Definition onInvariantFailure (i : Invariant) (message : FailureMessage) (ledger : Z)
    (m : InvariantManager) : InvariantManager * outcome unit :=
  (mkManager (mInvariants m) (mEnabled m) (s64 (mInvariantFailureCount m + 1))
     (<[getName i := mkFailure ledger message]> (mFailureInformation m)),
   if isStrict i then Throw (RuntimeError "InvariantDoesNotHold") else Ok tt).

(** The loop over [mEnabled]. *)
Fixpoint checkEnabled (check : Invariant -> outcome (option Violation))
    (message : Invariant -> Violation -> FailureMessage) (ledger : Z)
    (enabled : list Invariant) (m : InvariantManager) : InvariantManager * outcome unit :=
  match enabled with
  | [] => (m, Ok tt)
  | i :: enabled =>
      match check i with
      | Throw e => (m, Throw e)
      | Ok None => checkEnabled check message ledger enabled m
      | Ok (Some v) =>
          let '(m, r) := onInvariantFailure i (message i v) ledger m in
          match r with
          | Throw e => (m, Throw e)
          | Ok _ => checkEnabled check message ledger enabled m
          end
      end
  end.
Definition checkOnOperationApply (operation : Operation) (opres : OperationResult)
    (ltxDelta : LedgerTxnDelta) (m : InvariantManager) : InvariantManager * outcome unit :=
  let header := (delta_header ltxDelta).1 in
  if ledgerVersion header <? 8 then (m, Ok tt)
  else checkEnabled (fun i => onOperationApply i operation opres ltxDelta)
         (fun i v => OnOperation (getName i) v operation) (ledgerSeq header) (mEnabled m) m.
Definition checkOnBucketApply (kNumLevels : Z) (root : Ledger) (bucket : Bucket) (ledger level : Z)
    (isCurr : bool) (m : InvariantManager) : InvariantManager * outcome unit :=
  match (if isCurr then oldestLedgerInCurr else oldestLedgerInSnap) kNumLevels ledger level,
        (if isCurr then sizeOfCurr else sizeOfSnap) kNumLevels ledger level with
  | Some oldestLedger, Some size =>
      let newestLedger := u32 (oldestLedger - 1 + size) in
      checkEnabled (fun i => onBucketApply i root bucket oldestLedger newestLedger)
        (fun i v => OnBucket (getName i) isCurr level bucket v) ledger (mEnabled m) m
  | _, _ => (m, Throw (RuntimeError "out of fuel"))
  end.

(** ** Enabling

    [std::regex] is the standard library's: whether a pattern is a regular
    expression, and whether a name matches it, are parameters. *)
Class Regex := {
  regex_valid : string -> bool;
  regex_match : string -> string -> bool }.
Section Enabling.
Context `{Rx : Regex}.

(** The loop: the invariants enabled so far stay so if it throws. *)
Fixpoint enableMatching (pattern : string) (invariants : list Invariant) (enabledSome : bool)
    (m : InvariantManager) : InvariantManager * outcome bool :=
  match invariants with
  | [] => (m, Ok enabledSome)
  | i :: invariants =>
      if regex_match pattern (getName i) then
        if hasName (getName i) (mEnabled m)
        then (m, Throw (RuntimeError ("Invariant " +:+ getName i +:+ " already enabled")))
        else enableMatching pattern invariants true (set_mEnabled (mEnabled m ++ [i]) m)
      else enableMatching pattern invariants enabledSome m
  end.
Definition enableInvariant (invPattern : string) (m : InvariantManager)
    : InvariantManager * outcome unit :=
  if String.eqb invPattern "" then (m, Throw (RuntimeError "Invariant pattern must be non empty"))
  else if negb (regex_valid invPattern)
  then (m, Throw (RuntimeError "Invalid invariant pattern"))
  else
    let '(m, r) := enableMatching invPattern (mInvariants m) false m in
    (m, match r with
        | Throw e => Throw e
        | Ok true => Ok tt
        | Ok false => Throw (RuntimeError "Invariant pattern did not match any invariants")
        end).
End Enabling.

(** * Which invariants are enabled, and which failures recorded *)

Lemma hasName_spec name l : hasName name l = true <-> name ∈ getName <$> l.
Proof.
  unfold hasName. rewrite existsb_exists, list_elem_of_fmap. split.
  - intros (i & Hi & E%String.eqb_eq). exists i. split; [done|]. by apply list_elem_of_In.
  - intros (i & -> & Hi). exists i. split; [by apply list_elem_of_In|apply String.eqb_refl].
Qed.
Lemma hasName_false name l : hasName name l = false <-> name ∉ getName <$> l.
Proof. rewrite <- hasName_spec. by destruct (hasName name l). Qed.

Lemma NoDup_names_filter (P : Invariant -> Prop) `{!forall i, Decision (P i)} l :
  NoDup (getName <$> l) -> NoDup (getName <$> filter P l).
Proof.
  induction l as [|i l IH]; [done|]. rewrite fmap_cons, filter_cons. intros [Hi Hl]%NoDup_cons.
  destruct (decide (P i)); [|by apply IH]. rewrite fmap_cons. apply NoDup_cons. split; [|by apply IH].
  intros (j & E & [_ Hj]%list_elem_of_filter)%list_elem_of_fmap. apply Hi. rewrite E. by apply list_elem_of_fmap_2.
Qed.

(** * Enabling *)
Section Enabling.
Context `{Rx : Regex}.

Definition matching (pattern : string) (m : InvariantManager) : list Invariant :=
  filter (fun i => regex_match pattern (getName i) = true) (mInvariants m).
(** What the loop leaves as it was. *)
Definition same_but_enabled (m m' : InvariantManager) : Prop :=
  mInvariants m' = mInvariants m /\ mInvariantFailureCount m' = mInvariantFailureCount m /\
  mFailureInformation m' = mFailureInformation m.

Lemma enableMatching_spec pattern l b m m' r :
  NoDup (getName <$> l) -> enableMatching pattern l b m = (m', r) ->
  let new := filter (fun i => regex_match pattern (getName i) = true) l in
  let fresh i := getName i ∉ getEnabledInvariants m in
  same_but_enabled m m' /\
  ((Forall fresh new /\ r = Ok (b || negb (Nat.eqb (length new) 0)) /\ mEnabled m' = mEnabled m ++ new) \/
   (exists e some i rest, r = Throw e /\ new = some ++ i :: rest /\ Forall fresh some /\ ~ fresh i /\
      mEnabled m' = mEnabled m ++ some)).
Proof using.
  revert b m. induction l as [|i l IH]; intros b m Hnd H; cbn in H.
  { injection H as <- <-. split; [done|]. left. cbn. by rewrite orb_false_r, app_nil_r. }
  rewrite fmap_cons in Hnd. apply NoDup_cons in Hnd as [Hi Hnd]. cbv zeta. rewrite filter_cons.
  destruct (regex_match pattern (getName i)) eqn:Em; [rewrite decide_True by done|rewrite decide_False by done; by apply IH].
  set (new := filter _ l) in *. destruct (hasName (getName i) (mEnabled m)) eqn:Eh.
  - injection H as <- <-. split; [done|]. apply hasName_spec in Eh. right.
    eexists _, [], i, new. rewrite app_nil_r. split; [done|]. split; [done|]. split; [constructor|]. split; [|done].
    intros Hn. by apply Hn.
  - apply hasName_false in Eh. specialize (IH true _ Hnd H). cbv zeta in IH. fold new in IH.
    assert (Heq : forall j, j ∈ new -> (getName j ∉ getEnabledInvariants (set_mEnabled (mEnabled m ++ [i]) m)
                                         <-> getName j ∉ getEnabledInvariants m)).
    { intros j [_ Hj]%list_elem_of_filter. unfold getEnabledInvariants. cbn. rewrite fmap_app, not_elem_of_app. cbn.
      split; [by intros [? _]|]. intros ?. split; [done|]. rewrite list_elem_of_singleton. intros E. apply Hi. rewrite <- E.
      by apply list_elem_of_fmap_2. }
    destruct IH as [Hsame IH]. split; [exact Hsame|]. destruct IH as [(Hf & -> & ->)|(e & some & j & rest & -> & E & Hf & Hj & ->)].
    + left. split; [apply Forall_cons; split; [exact Eh|]; rewrite Forall_forall in Hf |- *; intros j Hj; by apply Heq, Hf|].
      split; [by destruct b|]. cbn. by rewrite <- app_assoc.
    + right. exists e, (i :: some), j, rest. split; [done|]. rewrite E. split; [done|].
      assert (Hin : forall x, x ∈ some \/ x = j -> x ∈ new).
      { intros x Hx. rewrite E. set_solver. }
      split; [apply Forall_cons; split; [exact Eh|]; rewrite Forall_forall in Hf |- *; intros x Hx; apply Heq; auto|].
      split; [intros Hn; apply Hj, Heq; auto|]. cbn. by rewrite <- app_assoc.
Qed.

(** Enabling invariants.  A pattern is refused if it is empty, not a regular
    expression, matches no registered invariant, or matches one that is enabled
    already; otherwise exactly the registered invariants that it matches are
    enabled, after those that were.  Whatever happens, no invariant is enabled
    twice, those that were enabled stay so, and a refused pattern enables at most
    the matches before the one that was enabled already. *)
Theorem enableInvariant_correct pattern m m' r :
  NoDup (getName <$> mInvariants m) -> NoDup (getEnabledInvariants m) ->
  enableInvariant pattern m = (m', r) ->
  same_but_enabled m m' /\ NoDup (getEnabledInvariants m') /\
  (r = Ok tt <->
     pattern <> "" /\ regex_valid pattern = true /\ matching pattern m <> [] /\
     Forall (fun i => getName i ∉ getEnabledInvariants m) (matching pattern m)) /\
  (r = Ok tt -> mEnabled m' = mEnabled m ++ matching pattern m) /\
  (exists some, mEnabled m' = mEnabled m ++ some /\ some `prefix_of` matching pattern m).
Proof using.
  intros Hnd Hen H. unfold enableInvariant in H.
  assert (Hsub : forall some rest, matching pattern m = some ++ rest ->
    Forall (fun i => getName i ∉ getEnabledInvariants m) some -> NoDup (getName <$> (mEnabled m ++ some))).
  { intros some rest E Hf. rewrite fmap_app. apply NoDup_app. split; [done|]. split.
    - intros n Hn (i & -> & Hi)%list_elem_of_fmap. rewrite Forall_forall in Hf. by apply (Hf i Hi).
    - assert (Hm : NoDup (getName <$> matching pattern m)) by by apply NoDup_names_filter.
      rewrite E, fmap_app in Hm. by apply NoDup_app in Hm as [? _]. }
  destruct (String.eqb_spec pattern "") as [->|Hne].
  { injection H as <- <-. split; [done|]. split; [done|]. split; [split; [done|by intros [? _]]|].
    split; [done|]. exists []. rewrite app_nil_r. split; [done|apply prefix_nil]. }
  destruct (regex_valid pattern) eqn:Ev; cbn [negb] in H.
  2:{ injection H as <- <-. split; [done|]. split; [done|]. split; [split; [done|by intros (_ & ? & _)]|].
    split; [done|]. exists []. rewrite app_nil_r. split; [done|apply prefix_nil]. }
  destruct (enableMatching pattern (mInvariants m) false m) as [m1 r1] eqn:E1. injection H as <- <-.
  apply enableMatching_spec in E1; [|done]. cbv zeta in E1. fold (matching pattern m) in E1.
  destruct E1 as [Hsame [(Hf & -> & Ee)|(e & some & i & rest & -> & E & Hf & Hi & Ee)]].
  - split; [done|]. unfold getEnabledInvariants at 1. rewrite Ee. split; [by apply (Hsub _ []); [rewrite app_nil_r|]|].
    split; [|split; [done|by exists (matching pattern m)]].
    destruct (matching pattern m); cbn; split; try done. by intros (_ & _ & ? & _).
  - split; [done|]. unfold getEnabledInvariants at 1. rewrite Ee. split; [by apply (Hsub _ (i :: rest))|].
    split; [|split; [done|exists some; split; [done|]; rewrite E; by apply prefix_app_r]].
    split; [done|]. intros (_ & _ & _ & Hall). rewrite E in Hall. by apply Forall_app in Hall as [_ [? _]%Forall_cons].
Qed.
End Enabling.

(** * Failures *)

(** The invariants that a check gets to: a strict one that does not hold ends
    it. *)
Fixpoint reached (verdict : Invariant -> option Violation) (l : list Invariant) : list Invariant :=
  match l with
  | [] => []
  | i :: l => i :: if bool_decide (is_Some (verdict i)) && isStrict i then [] else reached verdict l
  end.
Definition failing (verdict : Invariant -> option Violation) (l : list Invariant) : list Invariant :=
  filter (fun i => is_Some (verdict i)) (reached verdict l).
Lemma failing_cons verdict i l :
  failing verdict (i :: l) =
    match verdict i with
    | None => failing verdict l
    | Some _ => i :: if isStrict i then [] else failing verdict l
    end.
Proof.
  unfold failing. cbn [reached]. rewrite filter_cons. destruct (verdict i) as [v|].
  - rewrite decide_True by by eexists. rewrite bool_decide_eq_true_2 by by eexists. by destruct (isStrict i).
  - rewrite decide_False by by intros [? [=]]. rewrite bool_decide_eq_false_2 by by intros [? [=]]. done.
Qed.
Lemma failing_subset verdict l i : i ∈ failing verdict l -> i ∈ l.
Proof.
  induction l as [|j l IH]; [done|]. rewrite failing_cons. destruct (verdict j); [|by right; apply IH].
  intros [->|Hi]%elem_of_cons; [by left|]. right. destruct (isStrict j); [by inversion Hi|by apply IH].
Qed.
(** The failure recorded under a name. *)
Definition recorded (message : Invariant -> Violation -> FailureMessage) (ledger : Z)
    (verdict : Invariant -> option Violation) (l : list Invariant) (n : string)
    : option InvariantFailureInformation :=
  i ← List.find (fun i => String.eqb (getName i) n) l;
  v ← verdict i; Some (mkFailure ledger (message i v)).
Lemma recorded_absent message ledger verdict l n :
  n ∉ getName <$> l -> recorded message ledger verdict l n = None.
Proof.
  unfold recorded. induction l as [|i l IH]; [done|]. rewrite fmap_cons, not_elem_of_cons. intros [Hi Hl]. cbn.
  destruct (String.eqb_spec (getName i) n); [congruence|by apply IH].
Qed.
Lemma checkEnabled_spec check message ledger verdict l m m' r :
  NoDup (getName <$> l) -> (forall i, i ∈ l -> check i = Ok (verdict i)) -> in_s64 (mInvariantFailureCount m) ->
  checkEnabled check message ledger l m = (m', r) ->
  let bad := failing verdict l in
  mInvariants m' = mInvariants m /\ mEnabled m' = mEnabled m /\
  mInvariantFailureCount m' = s64 (mInvariantFailureCount m + Z.of_nat (length bad)) /\
  (forall n, mFailureInformation m' !! n =
     match recorded message ledger verdict bad n with Some f => Some f | None => mFailureInformation m !! n end) /\
  (r = Ok tt <-> Forall (fun i => isStrict i = false) bad).
Proof.
  revert m. induction l as [|i l IH]; intros m Hnd Hcheck Hc H; cbn in H.
  { injection H as <- <-. cbn. rewrite Z.add_0_r, s64_id by done. repeat split; done. }
  rewrite fmap_cons in Hnd. apply NoDup_cons in Hnd as [Hi Hnd]. cbv zeta. rewrite failing_cons.
  rewrite Hcheck in H by left. assert (Hcheck' : forall j, j ∈ l -> check j = Ok (verdict j)) by (intros; apply Hcheck; by right).
  destruct (verdict i) as [v|] eqn:Ev; [|by apply IH].
  unfold onInvariantFailure in H. destruct (isStrict i) eqn:Es.
  - injection H as <- <-. cbn. repeat split; try done.
    + intros n. rewrite lookup_insert. unfold recorded. cbn.
      destruct (String.eqb_spec (getName i) n); cbn; [by rewrite Ev, decide_True|by rewrite decide_False].
    + intros Hf. apply Forall_cons in Hf as [? _]. congruence.
  - apply IH in H; [|done|done|apply s64_range]. cbn in H. destruct H as (E1 & E2 & E3 & E4 & E5).
    split; [done|split; [done|]]. split; [|split].
    + rewrite E3, s64_add_l. cbn [length]. f_equal. lia.
    + intros n. rewrite E4, lookup_insert. unfold recorded at 2. cbn. destruct (String.eqb_spec (getName i) n) as [<-|Hn]; cbn.
      * rewrite Ev, decide_True by done. rewrite recorded_absent; [done|].
        intros (j & E & Hj%failing_subset)%list_elem_of_fmap. apply Hi. rewrite E. by apply list_elem_of_fmap_2.
      * rewrite decide_False by done. done.
    + rewrite E5. split; [by constructor|by intros [_ ?]%Forall_cons].
Qed.

(** C37. Failures are recorded.  After an operation, from version 8 on, the
    enabled invariants are checked in the order in which they were enabled, up to
    and including the first strict one that does not hold.  The check throws
    exactly if there is such a one.  Each invariant found not to hold, the strict
    one too, is counted once and recorded under its name, with the ledger and the
    message, in place of what was recorded before; nothing else is recorded. *)
Theorem checkOnOperationApply_records op opres d m verdict :
  8 <= ledgerVersion (delta_header d).1 -> NoDup (getEnabledInvariants m) ->
  (forall i, i ∈ mEnabled m -> onOperationApply i op opres d = Ok (verdict i)) ->
  in_s64 (mInvariantFailureCount m) ->
  let '(m', r) := checkOnOperationApply op opres d m in
  let bad := failing verdict (mEnabled m) in
  mInvariants m' = mInvariants m /\ mEnabled m' = mEnabled m /\
  mInvariantFailureCount m' = s64 (mInvariantFailureCount m + Z.of_nat (length bad)) /\
  (forall n, mFailureInformation m' !! n =
     match recorded (fun i v => OnOperation (getName i) v op) (ledgerSeq (delta_header d).1) verdict bad n with
     | Some f => Some f
     | None => mFailureInformation m !! n
     end) /\
  (r = Ok tt <-> Forall (fun i => isStrict i = false) bad).
Proof.
  intros Hv Hnd Hcheck Hc. destruct (checkOnOperationApply op opres d m) as [m' r] eqn:E.
  unfold checkOnOperationApply in E. rewrite (proj2 (Z.ltb_ge _ _)) in E by lia.
  exact (checkEnabled_spec _ _ _ _ _ _ _ _ Hnd Hcheck Hc E).
Qed.

(** ** Examples *)
Definition glob_regex : Regex := {|
  regex_valid p := negb (String.eqb p "(");
  regex_match p n := String.eqb p ".*" || String.eqb p n |}.
Definition two_registered : InvariantManager :=
  mkManager [ConservationOfLumens; LedgerEntryIsValid] [] 0 ∅.
Lemma enableInvariant_correct_witness :
  let '(m', r) := enableInvariant (Rx := glob_regex) ".*" two_registered in
  r = Ok tt /\ getEnabledInvariants m' = ["ConservationOfLumens"; "LedgerEntryIsValid"]%string /\
  NoDup (getEnabledInvariants m').
Proof.
  destruct (enableInvariant (Rx := glob_regex) ".*" two_registered) as [m' r] eqn:E.
  pose proof (enableInvariant_correct (Rx := glob_regex) ".*" two_registered m' r) as H.
  destruct H as (_ & Hnd & Hok & Hen & _).
  - apply (bool_decide_unpack _). by vm_compute.
  - constructor.
  - exact E.
  - assert (r = Ok tt) as Hr.
    { apply Hok. split; [done|]. split; [done|]. split.
      { intros El. apply (f_equal length) in El. by vm_compute in El. }
      apply Forall_forall. intros i _. apply not_elem_of_nil. }
    split; [exact Hr|]. unfold getEnabledInvariants. rewrite (Hen Hr). split; [by vm_compute|].
    unfold getEnabledInvariants in Hnd. rewrite (Hen Hr) in Hnd. exact Hnd.
Defined.

(** An account gets a stroop from nowhere. *)
Definition stroop_account (n : Z) : LedgerEntry :=
  mkEntry 7 (ACCOUNT (mkAccount 1 n 6 "" 0 None 0 "" (mkThresholds 1 0 0 0) [] None)).
Definition stroop_delta : LedgerTxnDelta :=
  let h := mkHeader 10 7 0 100000 0 0 5 100 10 100 in
  mkDelta {[KeyAccount 1 := (Some (stroop_account 5001), Some (stroop_account 5000))]} (h, h).
Definition stroop_manager : InvariantManager :=
  mkManager [] [LedgerEntryIsValid; ConservationOfLumens] 0 ∅.
Definition stroop_op : Operation := mkOperation None (BUMP_SEQUENCE 0).
Definition stroop_verdict (i : Invariant) : option Violation :=
  if String.eqb (getName i) "ConservationOfLumens" then Some (BalancesChanged 1) else None.
Definition stroop_checked : InvariantManager * outcome unit :=
  checkOnOperationApply stroop_op (opINNER (RES_CREATE_ACCOUNT CREATE_ACCOUNT_SUCCESS)) stroop_delta stroop_manager.
Lemma checkOnOperationApply_records_witness :
  let '(m', r) := stroop_checked in
  r = Ok tt /\ mInvariantFailureCount m' = 1 /\
  mFailureInformation m' !! "ConservationOfLumens"%string =
    Some (mkFailure 7 (OnOperation "ConservationOfLumens" (BalancesChanged 1) stroop_op)) /\
  mFailureInformation m' !! "LedgerEntryIsValid"%string = None.
Proof.
  pose proof (checkOnOperationApply_records stroop_op (opINNER (RES_CREATE_ACCOUNT CREATE_ACCOUNT_SUCCESS))
    stroop_delta stroop_manager stroop_verdict) as H.
  assert (NoDup (getEnabledInvariants stroop_manager)) as Hnd by (apply (bool_decide_unpack _); by vm_compute).
  assert (forall i, i ∈ mEnabled stroop_manager ->
    onOperationApply i stroop_op (opINNER (RES_CREATE_ACCOUNT CREATE_ACCOUNT_SUCCESS)) stroop_delta
    = Ok (stroop_verdict i)) as Hcheck.
  { intros i [->|[->|[]%not_elem_of_nil]%elem_of_cons]%elem_of_cons; by vm_compute. }
  specialize (H ltac:(by vm_compute) Hnd Hcheck ltac:(by vm_compute)).
  fold stroop_checked in H. destruct stroop_checked as [m' r]. cbv zeta in H. destruct H as (_ & _ & Hc & Hi & Hr).
  split; [apply Hr, (bool_decide_unpack _); by vm_compute|]. split; [rewrite Hc; by vm_compute|].
  split; rewrite Hi; by vm_compute.
Defined.
