(* ===== verification/InvariantFacts.v ===== *)
(** The checks after an operation pass: what a delta sums up to, and the
    successful operations of a balanced ledger. *)

From Stdlib Require Import ZifyBool.
From S2P Require Import Prelude Numeric OfferMath Types Sums OfferOrder LedgerTxn LedgerTxnOffers InflationWinners.
From S2P Require Import LedgerState TransactionUtils OfferExchange Converting Accounting Operations Lumens Payments ManageOffers.
From S2P Require Import OperationLumens Transactions TransactionEffects Conservation Books OperationBooks TransactionBooks Reserves.
From S2P Require Import Invariants.

(** * Deltas

    [d] is the difference of the states [s] and [s']: it has every key at which
    they differ, with the entries of both. *)
Record describes (s s' : LedgerState) (d : LedgerTxnDelta) : Prop := {
  ds_current : (delta_header d).1 = st_header s';
  ds_previous : (delta_header d).2 = st_header s;
  ds_entry k c p : delta_entry d !! k = Some (c, p) ->
    le_data <$> c = st_entries s' !! k /\ le_data <$> p = st_entries s !! k /\ (is_Some c \/ is_Some p);
  ds_other k : delta_entry d !! k = None -> st_entries s' !! k = st_entries s !! k }.

(** The delta of a ledger transaction describes what it makes of its parent. *)
Definition flat_state (l : Ledger) : LedgerState := mkState (getHeader l) (le_data <$> view l).
Lemma getDelta_describes t parent d t' :
  chain_ok (Txn t parent) -> getDelta t parent = Ok (d, t') ->
  describes (flat_state parent) (flat_state (Txn t parent)) d.
Proof.
  intros (Hl & Hw & Ht) H. unfold getDelta in H. apply outcome_bind_Ok in H as ([entries t1] & Hs & H).
  injection H as <- <-.
  assert (He : forall k, (fmap le_data <$> entries !! k) = (fmap le_data <$> mEntry t !! k)).
  { intros k. unfold sealed_entries in Hs. destruct (mIsSealed t); [by injection Hs as <- <-|].
    apply outcome_bind_Ok in Hs as (es & Hes & Hs). injection Hs as <- <-. unfold maybeUpdateLastModified in Hes.
    apply outcome_bind_Ok in Hes as (? & _ & Hes). injection Hes as <-. rewrite lookup_fmap.
    destruct (mEntry t !! k) as [[e|]|]; cbn; [|done..]. unfold stamp. by destruct (mShouldUpdateLastModified t). }
  split; cbn; [done..| |].
  - intros k c p. rewrite map_lookup_imap. destruct (entries !! k) as [oe|] eqn:Ek; cbn; [|done].
    intros [= <- <-]. specialize (He k). rewrite Ek in He. rewrite lookup_fmap, !lookup_overlay, lookup_fmap, lookup_view.
    destruct (mEntry t !! k) as [oe'|] eqn:Et; [|done]. cbn in He. injection He as He.
    split; [done|]. split; [done|]. destruct oe as [e|]; [by left; eexists|]. destruct oe'; [done|].
    right. destruct Ht as (_ & Ht & _). by apply (Ht k).
  - intros k. rewrite map_lookup_imap. specialize (He k). destruct (entries !! k); cbn in *; [done|]. intros _.
    rewrite !lookup_fmap, lookup_overlay. by destruct (mEntry t !! k).
Qed.

(** ** Sums over a delta *)
Definition lsum {A} (f : A -> Z) (l : list A) : Z := foldr (fun x acc => f x + acc) 0 l.
Lemma lsum_cons {A} (f : A -> Z) x l : lsum f (x :: l) = f x + lsum f l.
Proof. done. Qed.
Lemma lsum_app {A} (f : A -> Z) l l' : lsum f (l ++ l') = lsum f l + lsum f l'.
Proof. induction l as [|x l IH]; cbn in *; [done|]. unfold lsum in *. rewrite IH. lia. Qed.
Definition part (f : LedgerEntryData -> Z) (e : option LedgerEntry) : Z := from_option (fun e => f (le_data e)) 0 e.
Lemma delta_sum f s s' d :
  describes s s' d ->
  lsum (fun ed : EntryDelta => part f ed.1 - part f ed.2) (deltas d)
  = msum (fun _ x => f x) (st_entries s') - msum (fun _ x => f x) (st_entries s).
Proof.
  intros Hd. set (cur := (fun ed : option LedgerEntry * option LedgerEntry => le_data <$> ed.1) <$> delta_entry d).
  assert (E : st_entries s' = merge (fun o b => match o with Some oe => oe | None => b end) cur (st_entries s)).
  { apply map_eq. intros k. rewrite lookup_merge. unfold cur. rewrite lookup_fmap.
    destruct (delta_entry d !! k) as [[c p]|] eqn:Ek; cbn.
    - destruct (ds_entry _ _ _ Hd _ _ _ Ek) as (<- & _). by destruct (st_entries s !! k).
    - rewrite (ds_other _ _ _ Hd) by done. by destruct (st_entries s !! k). }
  rewrite E, msum_merge_overlay. unfold cur. rewrite msum_fmap.
  transitivity (msum (fun k (ed : option LedgerEntry * option LedgerEntry) => part f ed.1 - part f ed.2) (delta_entry d)).
  { unfold msum, deltas. rewrite map_fold_foldr. induction (map_to_list (delta_entry d)) as [|[k x] l IH]; cbn; [done|].
    by rewrite <- IH. }
  enough (msum (fun k (ed : option LedgerEntry * option LedgerEntry) => part f ed.1 - part f ed.2) (delta_entry d)
    = msum (fun k ed => from_option (fun x => f x) 0 (le_data <$> ed.1) - at_key (fun _ x => f x) (st_entries s) k) (delta_entry d))
    by lia.
  apply msum_ext. intros k [c p] Ek. destruct (ds_entry _ _ _ Hd _ _ _ Ek) as (_ & Ep & _).
  unfold at_key. rewrite <- Ep. by destruct c, p.
Qed.

(** The two versions of an entry are under one key, and there is at least one. *)
Definition delta_ok (ed : EntryDelta) : Prop :=
  (is_Some ed.1 \/ is_Some ed.2) /\
  exists k, (forall e, ed.1 = Some e -> LedgerEntryKey e = k) /\ (forall e, ed.2 = Some e -> LedgerEntryKey e = k).
Lemma delta_elem s s' d ed :
  describes s s' d -> ed ∈ deltas d ->
  exists k, le_data <$> ed.1 = st_entries s' !! k /\ le_data <$> ed.2 = st_entries s !! k /\ (is_Some ed.1 \/ is_Some ed.2).
Proof.
  intros Hd (kv & -> & Hin)%list_elem_of_fmap. destruct kv as [k [c p]]. apply elem_of_map_to_list in Hin.
  exists k. by apply (ds_entry _ _ _ Hd).
Qed.
Lemma deltas_ok s s' d : describes s s' d -> coherent s -> coherent s' -> Forall delta_ok (deltas d).
Proof.
  intros Hd Hs Hs'. apply Forall_forall. intros [c p] (k & Hc & Hp & Hsome)%(delta_elem s s'); [|done].
  split; [done|]. exists k. cbn in *. split; intros e ->; cbn in *.
  - apply Hs'. by rewrite <- Hc.
  - apply Hs. by rewrite <- Hp.
Qed.
Lemma key_kind a b :
  LedgerDataKey a = LedgerDataKey b ->
  match a, b with
  | ACCOUNT x, ACCOUNT y => acc_id x = acc_id y
  | TRUSTLINE x, TRUSTLINE y => tl_account x = tl_account y /\ tl_asset x = tl_asset y
  | OFFER x, OFFER y => of_seller x = of_seller y
  | DATA x, DATA y => da_account x = da_account y
  | _, _ => False
  end.
Proof. destruct a, b; cbn; try done; by intros [=]. Qed.

(** * ConservationOfLumens *)
Definition balance_of (d : LedgerEntryData) : Z := match d with ACCOUNT a => acc_balance a | _ => 0 end.

Lemma calculateDeltaBalance_part ed :
  delta_ok ed -> exists x, calculateDeltaBalance ed = Ok x /\
    eqm 18446744073709551616 x (part balance_of ed.1 - part balance_of ed.2).
Proof.
  intros (Hsome & k & Hc & Hp). destruct ed as [[[sc c]|] [[sp p]|]]; cbn in *.
  - pose proof (Hc _ eq_refl) as E. rewrite <- (Hp _ eq_refl) in E. apply key_kind in E.
    unfold calculateDeltaBalance, validOf, ifPresent; cbn.
    destruct c, p; try done; cbn; eexists; (split; [done|]); [apply eqm_s64|by apply eqm_eq..].
  - unfold calculateDeltaBalance, validOf, ifPresent; cbn.
    destruct c; cbn; eexists; (split; [done|]); [apply eqm_s64|by apply eqm_eq..].
  - unfold calculateDeltaBalance, validOf, ifPresent; cbn.
    destruct p; cbn; eexists; (split; [done|]); [apply eqm_s64|by apply eqm_eq..].
  - destruct Hsome as [[? [=]]|[? [=]]].
Qed.
Lemma accumulate_balances l b :
  Forall delta_ok l -> in_s64 b ->
  exists x, accumulate (fun lhs d => x ← calculateDeltaBalance d; Ok (s64 (lhs + x))) l b = Ok x /\ in_s64 x /\
    eqm 18446744073709551616 x (b + lsum (fun ed : EntryDelta => part balance_of ed.1 - part balance_of ed.2) l).
Proof.
  revert b. induction l as [|ed l IH]; intros b Hl Hb; cbn.
  { exists b. split; [done|split; [done|apply eqm_eq; lia]]. }
  apply Forall_cons in Hl as [Hed Hl]. destruct (calculateDeltaBalance_part ed Hed) as (x & -> & Hx).
  cbn [mbind outcome_bind]. destruct (IH (s64 (b + x)) Hl (s64_range _)) as (y & -> & Hy & Ey).
  exists y. split; [done|split; [done|]]. rewrite Ey, eqm_s64, Hx. apply eqm_eq. unfold lsum. lia.
Qed.
Lemma eqm_s64_zero x : in_s64 x -> eqm 18446744073709551616 x 0 -> x = 0.
Proof. intros Hx H. rewrite <- (s64_id x Hx). by rewrite (eqm_s64_eq _ _ H). Qed.
Lemma eqm_s64_same x y : in_s64 x -> in_s64 y -> eqm 18446744073709551616 x y -> x = y.
Proof. intros Hx Hy H. rewrite <- (s64_id x Hx), <- (s64_id y Hy). by apply eqm_s64_eq. Qed.

(** What the result of an operation says of the coins. *)
Definition payouts_total (payouts : list (AccountID * Z)) : Z := lsum snd payouts.
Definition coins_of (r : OperationResultTr) (s s' : LedgerState) : Prop :=
  match r with
  | RES_INFLATION (INFLATION_SUCCESS payouts) =>
      eqm 18446744073709551616
        (totalCoins (st_header s') - totalCoins (st_header s) - (feePool (st_header s') - feePool (st_header s)))
        (payouts_total payouts)
  | RES_INFLATION INFLATION_NOT_TIME => False
  | _ => same_pool s s'
  end.
Lemma payouts_fold payouts b :
  in_s64 b -> in_s64 (foldl (fun lhs (p : AccountID * Z) => s64 (lhs + p.2)) b payouts) /\
  eqm 18446744073709551616 (foldl (fun lhs (p : AccountID * Z) => s64 (lhs + p.2)) b payouts) (b + payouts_total payouts).
Proof.
  revert b. induction payouts as [|p l IH]; intros b Hb; cbn.
  { split; [done|]. apply eqm_eq. unfold payouts_total. cbn. lia. }
  destruct (IH (s64 (b + p.2)) (s64_range _)) as [H1 H2]. split; [done|]. rewrite H2, eqm_s64. apply eqm_eq.
  unfold payouts_total, lsum. cbn. lia.
Qed.

Lemma total_balances t :
  coherent t -> total t = msum (fun _ x => balance_of x) (st_entries t) + (feePool (st_header t) - totalCoins (st_header t)).
Proof.
  intros Ht. unfold total. cbn. f_equal. apply msum_ext. intros k v Hv. rewrite <- (Ht k v Hv). by destruct v.
Qed.
Lemma conservation_passes op r s s' d :
  describes s s' d -> coherent s -> moved s s' 0 -> coins_of r s s' ->
  ConservationOfLumens_checkOnOperationApply op (opINNER r) d = Ok None.
Proof.
  intros Hd Hc (Hc' & _ & Hm) Hcoins. unfold ConservationOfLumens_checkOnOperationApply.
  destruct (delta_header d) as [lhCurr lhPrev] eqn:Eh. pose proof (ds_current _ _ _ Hd) as E1.
  pose proof (ds_previous _ _ _ Hd) as E2. rewrite Eh in E1, E2. cbn in E1, E2. subst lhCurr lhPrev.
  destruct (accumulate_balances (deltas d) 0) as (bal & -> & Hbal & Ebal);
    [by eapply deltas_ok|unfold in_s64; unfold_ints; lia|].
  rewrite (delta_sum balance_of s s' d Hd) in Ebal. rewrite (total_balances s), (total_balances s') in Hm by done.
  cbn [modulus lumens] in Hm. cbn [mbind outcome_bind resultTr].
  set (A := msum _ (st_entries s)) in *. set (A' := msum _ (st_entries s')) in *.
  assert (Hm' : eqm 18446744073709551616 bal (totalCoins (st_header s') - totalCoins (st_header s)
    - (feePool (st_header s') - feePool (st_header s)))).
  { rewrite Ebal. destruct Hm as [q Hq]. exists q. lia. }
  destruct r; cbn in Hcoins; try (destruct Hcoins as [E1 E2]; rewrite E1, E2 in *; rewrite !Z.sub_diag in *;
    change (s64 0) with 0; cbn; by rewrite (eqm_s64_zero bal Hbal Hm')).
  destruct r as [payouts|]; [|done]. cbn [payoutsOf mbind outcome_bind].
  destruct (payouts_fold payouts 0) as [Hp Ep]; [unfold in_s64; unfold_ints; lia|].
  set (P := foldl _ 0 payouts) in *. rewrite Z.add_0_l in Ep.
  assert (s64 (totalCoins (st_header s') - totalCoins (st_header s)) = s64 (P + s64 (feePool (st_header s') - feePool (st_header s)))) as ->.
  { apply eqm_s64_eq. rewrite eqm_s64, Ep, <- Hcoins. apply eqm_eq. lia. }
  rewrite Z.eqb_refl. cbn [negb].
  assert (bal = P) as ->; [|by rewrite Z.eqb_refl]. apply eqm_s64_same; [done..|]. by rewrite Hm', Ep, Hcoins.
Qed.

(** ** The coins of each operation *)
Lemma wlp_dole_header A T w s :
  8 <= version s -> wlp (dole A T w) (fun _ s' => st_header s' = st_header s) s.
Proof.
  intros Hv. unfold dole, loadAccount, loadAccountWithoutRecord. apply wlp_bind, wlp_lift. intros x _. destruct (x =? 0); [by apply wlp_ret|].
  apply wlp_bind, wlp_currentHeader. apply wlp_bind. eapply (wlp_keeps eq); [by keeps_auto|]. intros y _ <-.
  destruct (_ && _); [by apply wlp_ret|]. apply wlp_bind, wlp_exists_entry. intros [] _; cbn [negb]; [|by apply wlp_ret].
  rewrite (proj2 (Z.leb_gt (ledgerVersion (st_header s)) 7)) by (unfold version in Hv; lia).
  apply wlp_bind, wlp_ret, wlp_bind, wlp_modify. intros d _.
  destruct (addBalance (st_header s) d y) as [[d'|]|]; [by apply wlp_ret|done..].
Qed.
Lemma wlp_doleLoop_payouts A T ws left payouts s :
  8 <= version s ->
  wlp (doleLoop A T ws left payouts) (fun r s' => st_header s' = st_header s /\
    eqm 18446744073709551616 (r.1 + payouts_total r.2) (left + payouts_total payouts)) s.
Proof.
  revert left payouts s. induction ws as [|w ws IH]; intros left payouts s Hv; cbn [doleLoop].
  { apply wlp_ret. split; [done|]. reflexivity. }
  apply wlp_bind. eapply wlp_mono; [by apply wlp_dole_header|]. intros [x|] s1 H1.
  - eapply wlp_mono; [apply IH; unfold version in *; by rewrite H1|]. intros r s2 [H2 E]. split; [congruence|].
    rewrite E. unfold payouts_total. rewrite lsum_app. cbn. rewrite eqm_s64. apply eqm_eq. lia.
  - eapply wlp_mono; [apply IH; unfold version in *; by rewrite H1|]. intros r s2 [H2 E]. split; [congruence|done].
Qed.
Lemma wlp_Inflation_coins s :
  8 <= version s ->
  wlp Inflation_doApply (fun r s' => r.1 = true -> coins_of (RES_INFLATION r.2) s s') s.
Proof.
  intros Hv. unfold Inflation_doApply. apply wlp_bind, wlp_currentHeader.
  destruct (_ <? _); [apply wlp_ret; by intros [=]|].
  apply wlp_bind, wlp_lift. intros minBalance _. apply wlp_bind. unfold inflationWinners, wlp at 1.
  apply wlp_bind, wlp_lift. intros infl _. set (lh := st_header s).
  apply wlp_bind, wlp_bind, wlp_currentHeader, wlp_setHeader. fold lh.
  apply wlp_bind. eapply wlp_mono; [apply wlp_doleLoop_payouts; exact Hv|].
  intros [left payouts] s2 [H2 E]. cbn [fst snd] in E. cbn in H2.
  apply wlp_bind, wlp_bind, wlp_currentHeader, wlp_setHeader. rewrite H2. unfold version in Hv. fold lh in Hv.
  rewrite (proj2 (Z.ltb_lt 7 (ledgerVersion lh))) by lia.
  apply wlp_bind, wlp_bind, wlp_currentHeader, wlp_setHeader, wlp_ret. intros _. cbn. fold lh.
  rewrite !eqm_s64. assert (E' : eqm 18446744073709551616 (payouts_total payouts) (infl + feePool lh - left)).
  { rewrite eqm_s64 in E. destruct E as [q Hq]. exists q. unfold payouts_total at 2 in Hq. cbn in Hq. lia. }
  rewrite E'. apply eqm_eq. lia.
Qed.

Section WithExternals.
Context `{Ext : Externals}.

Lemma coins_res {A} (f : A -> OperationResultTr) (m : M (bool * A)) s :
  wlp m (fun r s' => r.1 = true -> coins_of (f r.2) s s') s ->
  wlp (r ← m; mret (prod_map id f r)) (fun r s' => r.1 = true -> coins_of r.2 s s') s.
Proof.
  intros Hm. apply wlp_bind. eapply wlp_mono; [exact Hm|]. intros [b r] s' Hr. apply wlp_ret. exact Hr.
Qed.
Lemma coins_keeps {A} (f : A -> OperationResultTr) (m : M (bool * A)) s :
  (forall a s', same_pool s s' -> coins_of (f a) s s') -> keeps same_pool m ->
  wlp m (fun r s' => r.1 = true -> coins_of (f r.2) s s') s.
Proof. intros Hf Hm. eapply wlp_keeps; [exact Hm|]. intros r s' H _. by apply Hf. Qed.
Lemma doApply_coins src body s :
  8 <= version s -> wlp (doApply src body) (fun r s' => r.1 = true -> coins_of r.2 s s') s.
Proof.
  intros Hv. destruct body; cbn [doApply];
    [..|apply wlp_bind, wlp_lift; intros ? _; apply wlp_ret; intros _; by cbn].
  all: apply coins_res; try (apply coins_keeps; [done|keeps_easy]).
  - apply pool_CreateAccount.
  - by apply wlp_Inflation_coins.
Qed.
Lemma doApply_reserves src body : keeps reserves (doApply src body).
Proof.
  destruct body; cbn [doApply]; (apply keeps_bind; [exact _| |intros; keeps_easy]); try keeps_easy.
  - apply reserves_Inflation.
Qed.
End WithExternals.

(** * AccountSubEntriesCountIsValid *)
Lemma eqm_s32 z : eqm 4294967296 (s32 z) z.
Proof.
  unfold s32. exists (- ((z + 2147483648) / 4294967296)).
  rewrite Z.mod_eq by lia. lia.
Qed.
Lemma eqm_u32 z : eqm 4294967296 (u32 z) z.
Proof. unfold u32. exists (- (z / 4294967296)). rewrite Z.mod_eq by lia. lia. Qed.
Lemma s32_range z : -2147483648 <= s32 z <= 2147483647.
Proof. unfold s32. pose proof (Z.mod_pos_bound (z + 2147483648) 4294967296). lia. Qed.
Lemma eqm_s32_eq a b : eqm 4294967296 a b -> s32 a = s32 b.
Proof.
  intros [k ->]. unfold s32. replace (b + k * 4294967296 + 2147483648) with (b + 2147483648 + k * 4294967296) by lia.
  by rewrite Z_mod_plus_full.
Qed.
Definition s32_valued (z : Z) : Prop := s32 z = z.
Lemma s32_valued_s32 z : s32_valued (s32 z).
Proof. apply eqm_s32_eq, eqm_s32. Qed.
Lemma s32_valued_eq a b : s32_valued a -> s32_valued b -> eqm 4294967296 a b -> a = b.
Proof. intros Ha Hb H. rewrite <- Ha, <- Hb. by apply eqm_s32_eq. Qed.

Lemma firstViolation_None {A} (f : A -> outcome (option Violation)) l :
  (forall x, x ∈ l -> f x = Ok None) -> firstViolation f l = Ok None.
Proof.
  induction l as [|x l IH]; cbn; intros H; [done|]. rewrite H by left. cbn. apply IH. intros y Hy. apply H. by right.
Qed.

(** The parts of an entry in the counts of [id]. *)
Definition num_part (id : AccountID) (d : LedgerEntryData) : Z :=
  match d with ACCOUNT a => if acc_id a =? id then acc_numSubEntries a else 0 | _ => 0 end.
Definition signers_part (id : AccountID) (d : LedgerEntryData) : Z :=
  match d with ACCOUNT a => if acc_id a =? id then Z.of_nat (length (acc_signers a)) else 0 | _ => 0 end.
Definition calculated_part (id : AccountID) (d : LedgerEntryData) : Z :=
  match d with
  | ACCOUNT a => signers_part id d
  | _ => if owner d =? id then 1 else 0
  end.
Definition diff (f : LedgerEntryData -> Z) (ed : EntryDelta) : Z := part f ed.1 - part f ed.2.
(** The account of which an entry is. *)
Definition account_id (ed : EntryDelta) : option AccountID :=
  match validOf ed with
  | Some e => match le_data e with ACCOUNT a => Some (acc_id a) | _ => None end
  | None => None
  end.
Lemma account_parts ed id :
  delta_ok ed -> account_id ed <> Some id -> diff (num_part id) ed = 0 /\ diff (signers_part id) ed = 0.
Proof.
  intros (Hsome & k & Hc & Hp). destruct ed as [[[sc c]|] [[sp p]|]]; cbn in *.
  - pose proof (Hc _ eq_refl) as E. rewrite <- (Hp _ eq_refl) in E. apply key_kind in E.
    unfold account_id, validOf, diff, part; cbn. intros Hne.
    destruct c as [c| | |], p as [p| | |]; cbn; try done. rewrite <- E.
    destruct (Z.eqb_spec (acc_id c) id); [congruence|done].
  - unfold account_id, validOf, diff, part; cbn. intros Hne. destruct c as [c| | |]; cbn; try done.
    destruct (Z.eqb_spec (acc_id c) id); [congruence|done].
  - unfold account_id, validOf, diff, part; cbn. intros Hne. destruct p as [p| | |]; cbn; try done.
    destruct (Z.eqb_spec (acc_id p) id); [congruence|done].
  - done.
Qed.

Definition counted (id : AccountID) (m m' : gmap AccountID SubEntriesChange) (ed : EntryDelta) : Prop :=
  let c := changeOf m id in
  let c' := changeOf m' id in
  (s32_valued (sc_calculatedSubEntries c) -> s32_valued (sc_calculatedSubEntries c')) /\
  eqm 4294967296 (sc_calculatedSubEntries c') (sc_calculatedSubEntries c + diff (calculated_part id) ed) /\
  (if decide (account_id ed = Some id)
   then sc_numSubEntries c' = s32 (diff (num_part id) ed) /\ sc_signers c' = s32 (diff (signers_part id) ed)
   else sc_numSubEntries c' = sc_numSubEntries c /\ sc_signers c' = sc_signers c).
(** A delta has one version, or two of the same kind. *)
Lemma delta_cases ed :
  delta_ok ed ->
  match ed with
  | (Some c, Some p) =>
      match le_data c, le_data p with
      | ACCOUNT x, ACCOUNT y => acc_id x = acc_id y
      | TRUSTLINE x, TRUSTLINE y => tl_account x = tl_account y /\ tl_asset x = tl_asset y
      | OFFER x, OFFER y => of_seller x = of_seller y
      | DATA x, DATA y => da_account x = da_account y
      | _, _ => False
      end
  | (None, None) => False
  | _ => True
  end.
Proof.
  intros (Hsome & k & Hc & Hp). destruct ed as [[c|] [p|]]; cbn in *; try done.
  - apply key_kind. by rewrite <- (Hp p) in Hc by done; apply Hc.
  - by destruct Hsome as [[? [=]]|[? [=]]].
Qed.
Lemma s32_sub a b : s32 (s32 a - s32 b) = s32 (a - b).
Proof. apply eqm_s32_eq. by rewrite !eqm_s32. Qed.
Lemma update_account m ed i :
  delta_ok ed -> account_id ed = Some i ->
  updateChangedSubEntriesCount m ed =
    Ok (<[i := mkSubEntriesChange (s32 (diff (num_part i) ed))
                 (s32 (sc_calculatedSubEntries (changeOf m i) + s32 (diff (signers_part i) ed)))
                 (s32 (diff (signers_part i) ed))]> m).
Proof.
  intros Hed%delta_cases. unfold account_id, updateChangedSubEntriesCount, validOf, ifPresent, diff, part.
  destruct ed as [[[sc c]|] [[sp p]|]]; cbn in *; [|destruct c as [c| | |]|destruct p as [p| | |]|]; try done.
  - destruct c as [c| | |], p as [p| | |]; cbn; try done. intros [= <-].
    by rewrite Hed, !Z.eqb_refl, !s32_sub.
  - intros [= <-]. cbn. by rewrite !Z.eqb_refl, !(s32_sub _ 0).
  - intros [= <-]. cbn. by rewrite !Z.eqb_refl, !(s32_sub 0).
Qed.
Lemma update_other m ed :
  delta_ok ed -> account_id ed = None ->
  exists j, updateChangedSubEntriesCount m ed = Ok (addCalculated j (calculateDelta ed) m) /\
    forall id, diff (calculated_part id) ed = if j =? id then calculateDelta ed else 0.
Proof.
  intros Hed%delta_cases. unfold account_id, updateChangedSubEntriesCount, validOf, calculateDelta, diff, part.
  destruct ed as [[[sc c]|] [[sp p]|]]; cbn in *; [|destruct c|destruct p|]; try done.
  1: destruct c, p; cbn; try done; try destruct Hed as [Hed _].
  all: intros _; eexists; (split; [reflexivity|]); intros id; cbn; rewrite ?Hed; by destruct (_ =? id).
Qed.
Lemma update_counted m ed :
  delta_ok ed -> exists m', updateChangedSubEntriesCount m ed = Ok m' /\ forall id, counted id m m' ed.
Proof.
  intros Hed. destruct (account_id ed) as [i|] eqn:Ha.
  - rewrite (update_account m ed i Hed Ha). eexists. split; [done|]. intros id. unfold counted, changeOf.
    rewrite Ha, lookup_insert. destruct (decide (i = id)) as [->|Hne].
    + rewrite decide_True by done. cbn. split; [intros _; apply s32_valued_s32|]. split; [|done].
      rewrite !eqm_s32. apply eqm_eq. f_equal. unfold diff, part, account_id, validOf in *.
      apply delta_cases in Hed. destruct ed as [[[sc c]|] [[sp p]|]]; cbn in *; try done;
        [destruct c, p|destruct c|destruct p]; done.
    + rewrite decide_False by congruence. split; [done|]. split; [|done]. apply eqm_eq.
      destruct (account_parts ed id Hed) as [_ E]; [congruence|].
      enough (diff (calculated_part id) ed = diff (signers_part id) ed) by lia.
      unfold diff, part, account_id, validOf in *.
      apply delta_cases in Hed. destruct ed as [[[sc c]|] [[sp p]|]]; cbn in *; try done;
        [destruct c, p|destruct c|destruct p]; done.
  - destruct (update_other m ed Hed Ha) as (j & -> & Hdiff). eexists. split; [done|]. intros id.
    unfold counted, addCalculated, changeOf. rewrite Ha, (decide_False (P := None = Some id)) by done.
    rewrite Hdiff, lookup_insert. destruct (decide (j = id)) as [->|Hj].
    + rewrite Z.eqb_refl. cbn. split; [intros _; apply s32_valued_s32|]. split; [apply eqm_s32|done].
    + rewrite (proj2 (Z.eqb_neq _ _)) by done. split; [done|]. split; [|done]. apply eqm_eq. lia.
Qed.

Lemma accumulate_counts l m :
  Forall delta_ok l -> NoDup (omap account_id l) ->
  exists m', accumulate updateChangedSubEntriesCount l m = Ok m' /\ forall id,
    (s32_valued (sc_calculatedSubEntries (changeOf m id)) -> s32_valued (sc_calculatedSubEntries (changeOf m' id))) /\
    eqm 4294967296 (sc_calculatedSubEntries (changeOf m' id))
      (sc_calculatedSubEntries (changeOf m id) + lsum (diff (calculated_part id)) l) /\
    (id ∉ omap account_id l -> sc_numSubEntries (changeOf m' id) = sc_numSubEntries (changeOf m id) /\
       sc_signers (changeOf m' id) = sc_signers (changeOf m id)) /\
    (forall ed, ed ∈ l -> account_id ed = Some id ->
       sc_numSubEntries (changeOf m' id) = s32 (diff (num_part id) ed) /\
       sc_signers (changeOf m' id) = s32 (diff (signers_part id) ed)).
Proof.
  revert m. induction l as [|ed l IH]; intros m Hl Hnd; cbn [accumulate].
  { exists m. split; [done|]. intros id. split; [done|]. split; [apply eqm_eq; cbn; lia|]. split; [done|].
    intros ed He. by inversion He. }
  apply Forall_cons in Hl as [Hed Hl]. destruct (update_counted m ed Hed) as (m1 & -> & H1). cbn [mbind outcome_bind].
  assert (Hnd' : NoDup (omap account_id l)) by (cbn in Hnd; destruct (account_id ed); [by apply NoDup_cons in Hnd as [_ ?]|done]).
  destruct (IH m1 Hl Hnd') as (m' & -> & H2). exists m'. split; [done|]. intros id.
  destruct (H1 id) as (V1 & C1 & N1). destruct (H2 id) as (V2 & C2 & N2 & N2'). split; [auto|].
  split; [rewrite C2, C1, lsum_cons; apply eqm_eq; lia|]. cbn [omap list_omap] in *. split.
  - intros Hn. destruct (account_id ed) as [i|] eqn:Ha.
    + apply not_elem_of_cons in Hn as [Hi Hn]. rewrite decide_False in N1 by congruence.
      destruct (N2 Hn) as [-> ->]. done.
    + destruct (N2 Hn) as [-> ->]. done.
  - intros ed' [->|Hin]%elem_of_cons Ha; [|by apply N2'].
    rewrite Ha in Hnd, N1. apply NoDup_cons in Hnd as [Hn _]. rewrite decide_True in N1 by done.
    destruct (N2 Hn) as [-> ->]. done.
Qed.
(** Only the delta of the account has a part in its own counts. *)
Lemma account_sum id l :
  Forall delta_ok l -> NoDup (omap account_id l) ->
  (id ∉ omap account_id l -> lsum (diff (num_part id)) l = 0) /\
  (forall ed, ed ∈ l -> account_id ed = Some id -> lsum (diff (num_part id)) l = diff (num_part id) ed).
Proof.
  induction l as [|ed l IH]; intros Hl Hnd; [split; [done|]; intros ed He; by inversion He|].
  apply Forall_cons in Hl as [Hed Hl]. cbn [omap list_omap] in *.
  assert (Hnd' : NoDup (omap account_id l)) by (destruct (account_id ed); [by apply NoDup_cons in Hnd as [_ ?]|done]).
  destruct (IH Hl Hnd') as [IH1 IH2]. rewrite lsum_cons. split.
  - intros Hn. assert (account_id ed <> Some id) as Hne by (intros E; rewrite E in Hn; apply Hn; left).
    rewrite (proj1 (account_parts ed id Hed Hne)), IH1; [done|]. by destruct (account_id ed); [apply not_elem_of_cons in Hn as [_ ?]|].
  - intros ed' [->|Hin]%elem_of_cons Ha.
    + rewrite Ha in Hnd. apply NoDup_cons in Hnd as [Hn _]. rewrite IH1 by done. lia.
    + rewrite (IH2 ed' Hin Ha). assert (account_id ed <> Some id) as Hne.
      { intros E. rewrite E in Hnd. apply NoDup_cons in Hnd as [Hn _]. apply Hn. apply list_elem_of_omap. by exists ed'. }
      rewrite (proj1 (account_parts ed id Hed Hne)). lia.
Qed.
Lemma deltas_nodup s s' d :
  describes s s' d -> coherent s -> coherent s' -> NoDup (omap account_id (deltas d)).
Proof.
  intros Hd Hs Hs'. unfold deltas.
  assert (Hkeys : forall k ed i, delta_entry d !! k = Some ed -> account_id ed = Some i -> k = KeyAccount i).
  { intros k [c p] i Hk. destruct (ds_entry _ _ _ Hd _ _ _ Hk) as (Ec & Ep & _). unfold account_id, validOf. cbn.
    destruct c as [[sc c]|]; cbn in *.
    - destruct c; cbn; try done. intros [= <-]. by rewrite <- (Hs' k _ (eq_sym Ec)).
    - destruct p as [[sp p]|]; cbn in *; [|done]. destruct p; cbn; try done. intros [= <-]. by rewrite <- (Hs k _ (eq_sym Ep)). }
  pose proof (NoDup_fst_map_to_list (delta_entry d)) as Hnd.
  assert (Hin : forall kv, kv ∈ map_to_list (delta_entry d) -> delta_entry d !! kv.1 = Some kv.2)
    by (intros [k ed]; apply elem_of_map_to_list).
  induction (map_to_list (delta_entry d)) as [|[k ed] l IH]; [constructor|]. cbn in *. apply NoDup_cons in Hnd as [Hk Hnd].
  specialize (IH Hnd ltac:(intros kv ?; apply Hin; by right)). destruct (account_id ed) as [i|] eqn:Ha; [|done].
  apply NoDup_cons. split; [|done]. intros (ed' & Hed' & Ha')%list_elem_of_omap.
  apply list_elem_of_fmap in Hed' as ([k' ed''] & -> & Hkv). apply Hk. apply list_elem_of_fmap. exists (k', ed''). split; [|done].
  cbn in *. rewrite (Hkeys k ed i) by (done || by apply (Hin (k, ed)); left).
  symmetry. apply (Hkeys k' ed'' i); [|done]. apply (Hin (k', ed'')). by right.
Qed.

Lemma lsum_sub {A} (f g h : A -> Z) l :
  (forall x, x ∈ l -> h x = f x - g x) -> lsum h l = lsum f l - lsum g l.
Proof.
  induction l as [|x l IH]; intros H; [done|]. rewrite !lsum_cons, H, IH; [lia|..].
  - intros y Hy. apply H. by right.
  - by left.
Qed.
(** The second loop never finds anything. *)
Lemma deleted_pass s s' d m :
  describes s s' d -> coherent s -> coherent s' ->
  accumulate updateChangedSubEntriesCount (deltas d) ∅ = Ok m ->
  firstViolation (checkDeletedAccount m) (deltas d) = Ok None.
Proof.
  intros Hd Hs Hs' Hm. pose proof (deltas_ok _ _ _ Hd Hs Hs') as Hok.
  destruct (accumulate_counts (deltas d) ∅ Hok) as (m' & Hm' & H); [by eapply deltas_nodup|].
  rewrite Hm in Hm'. injection Hm' as <-. apply firstViolation_None. intros [[c|] [p|]] Hin; try done.
  - cbn. destruct (le_data p) as [a| | |] eqn:Ep; try done.
    destruct (H (acc_id a)) as (_ & _ & _ & Hed).
    destruct (Hed _ Hin) as [-> ->]; [unfold account_id, validOf; cbn; by rewrite Ep|].
    unfold diff, part. cbn. rewrite Ep. cbn. rewrite Z.eqb_refl.
    rewrite (s32_valued_eq _ (s32 (Z.of_nat (length (acc_signers a))))); [by rewrite Z.eqb_refl|apply s32_valued_s32..|].
    rewrite !eqm_s32, eqm_u32, !eqm_s32. apply eqm_eq. lia.
  - rewrite Forall_forall in Hok. destruct (Hok _ Hin) as ([[? [=]]|[? [=]]] & _).
Qed.
Lemma sub_entries_pass op r s s' d :
  describes s s' d -> balanced s -> balanced s' ->
  AccountSubEntriesCountIsValid_checkOnOperationApply op r d = Ok None.
Proof.
  intros Hd [(Hs & _) Hb] [(Hs' & _) Hb']. pose proof (deltas_ok _ _ _ Hd Hs Hs') as Hok.
  pose proof (deltas_nodup _ _ _ Hd Hs Hs') as Hnd.
  destruct (accumulate_counts (deltas d) ∅ Hok Hnd) as (m & Hm & H).
  unfold AccountSubEntriesCountIsValid_checkOnOperationApply. rewrite Hm. cbn [mbind outcome_bind].
  rewrite (firstViolation_None _ (map_to_list m)); [by apply (deleted_pass s s')|]. intros [id c] Hc%elem_of_map_to_list. cbn [fst snd].
  destruct (H id) as (V & C & N & N'). assert (changeOf m id = c) as E by (unfold changeOf; by rewrite Hc). rewrite E in *.
  change (changeOf ∅ id) with noSubEntriesChange in *. cbn in C, N, V.
  assert (Hnum : s32_valued (sc_numSubEntries c) /\ eqm 4294967296 (sc_numSubEntries c) (lsum (diff (num_part id)) (deltas d))).
  { destruct (account_sum id (deltas d) Hok Hnd) as [A1 A2].
    destruct (decide (id ∈ omap account_id (deltas d))) as [(ed & Hin & Ha)%list_elem_of_omap|Hn].
    - destruct (N' ed Hin Ha) as [-> _]. split; [apply s32_valued_s32|]. rewrite eqm_s32, (A2 ed Hin Ha). done.
    - destruct (N Hn) as [-> _]. split; [done|]. by rewrite A1. }
  destruct Hnum as [Vn En].
  assert (Hbook : lsum (diff (num_part id)) (deltas d) - lsum (diff (calculated_part id)) (deltas d) = 0).
  { rewrite <- (lsum_sub _ _ (fun ed : EntryDelta => part (posting (B := counting id)) ed.1 - part (posting (B := counting id)) ed.2)).
    - rewrite (delta_sum _ s s' d Hd). specialize (Hb (counting id)). specialize (Hb' (counting id)).
      unfold book_of in *. lia.
    - intros [x y] _. unfold diff.
      assert (Hpart : forall e, part (posting (B := counting id)) e = part (num_part id) e - part (calculated_part id) e).
      { intros [[q e]|]; cbn; [|done]. destruct (is_account_key (LedgerDataKey e)) eqn:Ek.
        - destruct e as [a| | |]; cbn; try done. destruct (_ =? id); lia.
        - rewrite counting_posting by done. destruct e; cbn; try done; by destruct (_ =? id). }
      rewrite !Hpart. lia. }
  rewrite (s32_valued_eq (sc_numSubEntries c) (sc_calculatedSubEntries c)); [by rewrite Z.eqb_refl|done|by apply V|].
  rewrite En, C. apply eqm_eq. lia.
Qed.
