(* ===== verification/OperationChecks.v ===== *)
(** What the checks after an operation promise: from a balanced ledger, no
    successful operation violates the invariants on lumens, sub-entries and
    liabilities. *)

From Stdlib Require Import ZifyBool.
From S2P Require Import Prelude Numeric OfferMath Types Sums OfferOrder LedgerTxn LedgerTxnOffers InflationWinners.
From S2P Require Import LedgerState TransactionUtils OfferExchange Converting Accounting Operations Lumens Payments ManageOffers.
From S2P Require Import OperationLumens Transactions TransactionEffects Conservation Books OperationBooks TransactionBooks Reserves.
From S2P Require Import Invariants InvariantManager InvariantFacts.

(** * LiabilitiesMatchOffers *)

Abbreviation DeltaMap := (gmap (AccountID * Asset) Liabilities) (only parsing).

(** [m'] is [m] with other amounts added, modulo 2^64. *)
Definition valued (l : Liabilities) : Prop := in_s64 (buying l) /\ in_s64 (selling l).
Definition shifts (m m' : DeltaMap) (fb fs : AccountID -> Asset -> Z) : Prop := forall id a,
  (valued (deltaAt m (id, a)) -> valued (deltaAt m' (id, a))) /\
  eqm 18446744073709551616 (buying (deltaAt m' (id, a))) (buying (deltaAt m (id, a)) + fb id a) /\
  eqm 18446744073709551616 (selling (deltaAt m' (id, a))) (selling (deltaAt m (id, a)) + fs id a).
Lemma shifts_refl m fb fs : (forall id a, fb id a = 0) -> (forall id a, fs id a = 0) -> shifts m m fb fs.
Proof. intros Hb Hs id a. split; [done|]. rewrite Hb, Hs. split; apply eqm_eq; lia. Qed.
Lemma shifts_trans m1 m2 m3 fb1 fs1 fb2 fs2 fb fs :
  shifts m1 m2 fb1 fs1 -> shifts m2 m3 fb2 fs2 ->
  (forall id a, eqm 18446744073709551616 (fb id a) (fb1 id a + fb2 id a)) ->
  (forall id a, eqm 18446744073709551616 (fs id a) (fs1 id a + fs2 id a)) -> shifts m1 m3 fb fs.
Proof.
  intros H1 H2 Hb Hs id a. destruct (H1 id a) as (V1 & B1 & S1). destruct (H2 id a) as (V2 & B2 & S2).
  split; [auto|]. split; [rewrite B2, B1, Hb|rewrite S2, S1, Hs]; apply eqm_eq; lia.
Qed.
Definition at_pair (id : AccountID) (asset : Asset) (x : Z) (i : AccountID) (a : Asset) : Z :=
  if bool_decide (id = i /\ asset = a) then x else 0.
Lemma deltaAt_insert k k' l m : deltaAt (<[k := l]> m) k' = if decide (k = k') then l else deltaAt m k'.
Proof. unfold deltaAt. rewrite lookup_insert. by case_decide. Qed.
Lemma at_pair_eq id asset x : at_pair id asset x id asset = x.
Proof. unfold at_pair. by rewrite bool_decide_eq_true_2. Qed.
Lemma at_pair_ne id asset x i a : (id, asset) <> (i, a) -> at_pair id asset x i a = 0.
Proof. intros H. unfold at_pair. rewrite bool_decide_eq_false_2; [done|]. intros [-> ->]. done. Qed.
Lemma shifts_addBuying id asset x m :
  shifts m (addBuyingDelta (id, asset) x m) (at_pair id asset x) (fun _ _ => 0).
Proof.
  intros i a. unfold addBuyingDelta. rewrite deltaAt_insert. case_decide as H.
  - injection H as <- <-. rewrite at_pair_eq. cbn. split; [intros [_ ?]; split; [apply s64_range|done]|].
    split; [apply eqm_s64|apply eqm_eq; lia].
  - rewrite at_pair_ne by done. split; [done|]. split; apply eqm_eq; lia.
Qed.
Lemma shifts_addSelling id asset x m :
  shifts m (addSellingDelta (id, asset) x m) (fun _ _ => 0) (at_pair id asset x).
Proof.
  intros i a. unfold addSellingDelta. rewrite deltaAt_insert. case_decide as H.
  - injection H as <- <-. rewrite at_pair_eq. cbn. split; [intros [? _]; split; [done|apply s64_range]|].
    split; [apply eqm_eq; lia|apply eqm_s64].
  - rewrite at_pair_ne by done. split; [done|]. split; apply eqm_eq; lia.
Qed.

(** ** One entry *)
Lemma owedByOthers_issues asset id : owedByOthers asset id = Ok (negb (issues id asset)).
Proof. unfold owedByOthers, issues. by destruct asset. Qed.
Lemma offer_exchange_sane o :
  sane_entry (OFFER o) -> exists res, lmo_offerExchange o = Ok res /\
    offer_liabilities o = mkLiabilities (numSheepSend res) (numWheatReceived res).
Proof.
  intros [Hp Ha]. unfold lmo_offerExchange, offer_liabilities.
  rewrite exchangeV10_before_eq by (done || (unfold amount; unfold_ints; lia)). by eexists.
Qed.
Lemma lmo_read le :
  match le_data le with
  | ACCOUNT a => lmo_getBuyingLiabilities le = Ok (buying (liabilities_of (acc_ext a))) /\
      lmo_getSellingLiabilities le = Ok (selling (liabilities_of (acc_ext a)))
  | TRUSTLINE t => lmo_getBuyingLiabilities le = Ok (buying (liabilities_of (tl_ext t))) /\
      lmo_getSellingLiabilities le = Ok (selling (liabilities_of (tl_ext t)))
  | _ => True
  end.
Proof.
  unfold lmo_getBuyingLiabilities, lmo_getSellingLiabilities. destruct le as [q [a|t| |]]; cbn; try done.
  - by destruct (acc_ext a).
  - by destruct (tl_ext t).
Qed.
Lemma posting_buying id asset d :
  posting (B := buying_in id asset) d =
    match d with
    | ACCOUNT a => - at_pair (acc_id a) ASSET_NATIVE (buying (liabilities_of (acc_ext a))) id asset
    | TRUSTLINE t => - at_pair (tl_account t) (tl_asset t) (buying (liabilities_of (tl_ext t))) id asset
    | OFFER o => if issues (of_seller o) (of_buying o) then 0
                 else at_pair (of_seller o) (of_buying o) (buying (offer_liabilities o)) id asset
    | DATA _ => 0
    end.
Proof. unfold at_pair. destruct d; cbn; [..|done]; try (case_bool_decide; lia). unfold pledged. cbn. repeat case_match; lia. Qed.
Lemma posting_selling id asset d :
  posting (B := selling_in id asset) d =
    match d with
    | ACCOUNT a => - at_pair (acc_id a) ASSET_NATIVE (selling (liabilities_of (acc_ext a))) id asset
    | TRUSTLINE t => - at_pair (tl_account t) (tl_asset t) (selling (liabilities_of (tl_ext t))) id asset
    | OFFER o => if issues (of_seller o) (of_selling o) then 0
                 else at_pair (of_seller o) (of_selling o) (selling (offer_liabilities o)) id asset
    | DATA _ => 0
    end.
Proof. unfold at_pair. destruct d; cbn; [..|done]; try (case_bool_decide; lia). unfold pledged. cbn. repeat case_match; lia. Qed.

Lemma eqm_at_pair id asset x y i a :
  eqm 18446744073709551616 x y -> eqm 18446744073709551616 (at_pair id asset x i a) (at_pair id asset y i a).
Proof. intros H. unfold at_pair. case_bool_decide; [done|reflexivity]. Qed.
Lemma at_pair_scale id asset k x i a : at_pair id asset (k * x) i a = k * at_pair id asset x i a.
Proof. unfold at_pair. case_bool_decide; lia. Qed.
Lemma shifts_ext m m' fb fs gb gs :
  shifts m m' fb fs -> (forall id a, eqm 18446744073709551616 (gb id a) (fb id a)) ->
  (forall id a, eqm 18446744073709551616 (gs id a) (fs id a)) -> shifts m m' gb gs.
Proof.
  intros H Hb Hs id a. destruct (H id a) as (V & B & S). split; [done|]. split; [by rewrite B, Hb|by rewrite S, Hs].
Qed.

(** The sign with which an entry is entered. *)
Definition sign_of (isAdd : bool) : Z := if isAdd then 1 else -1.
Definition shifts_by (m m' : DeltaMap) (f : forall B : Book, Z) : Prop :=
  shifts m m' (fun id a => f (buying_in id a)) (fun id a => f (selling_in id a)).
Lemma at_pair_taken id asset k x i a :
  eqm 18446744073709551616 (at_pair id asset (- s64 (k * x)) i a) (k * - at_pair id asset x i a).
Proof. unfold at_pair. case_bool_decide; [rewrite eqm_s64|]; apply eqm_eq; lia. Qed.
Lemma shifts_record id asset b s k m :
  shifts m (addBuyingDelta (id, asset) (- s64 (k * b)) (addSellingDelta (id, asset) (- s64 (k * s)) m))
    (fun i a => k * - at_pair id asset b i a) (fun i a => k * - at_pair id asset s i a).
Proof.
  eapply shifts_trans; [apply shifts_addSelling|apply shifts_addBuying|..]; intros i a; cbn;
    rewrite at_pair_taken; apply eqm_eq; lia.
Qed.
Lemma addOrSubtract_shifts m le isAdd :
  sane_entry (le_data le) ->
  exists m', addOrSubtractLiabilities m (Some le) isAdd = Ok m' /\
    shifts_by m m' (fun B => sign_of isAdd * posting (B := B) (le_data le)).
Proof.
  intros Hs. pose proof (lmo_read le) as Hread. unfold addOrSubtractLiabilities, shifts_by. cbv zeta.
  fold (sign_of isAdd). set (k := sign_of isAdd). destruct (le_data le) as [a|t|o|da].
  - destruct Hread as [-> ->]. eexists. split; [reflexivity|].
    eapply shifts_ext; [apply shifts_record|..]; intros i asset; rewrite ?posting_buying, ?posting_selling; reflexivity.
  - destruct Hread as [-> ->]. eexists. split; [reflexivity|].
    eapply shifts_ext; [apply shifts_record|..]; intros i asset; rewrite ?posting_buying, ?posting_selling; reflexivity.
  - destruct (offer_exchange_sane o Hs) as (res & Hres & Hol).
    rewrite !owedByOthers_issues. unfold lmo_getOfferSellingLiabilities, lmo_getOfferBuyingLiabilities.
    rewrite Hres. cbn [mbind outcome_bind].
    assert (E : exists m', (if negb (issues (of_seller o) (of_selling o))
        then Ok (addSellingDelta (of_seller o, of_selling o) (s64 (k * numWheatReceived res)) m) else Ok m) = Ok m' /\
      shifts m m' (fun _ _ => 0) (fun i a => k * posting (B := selling_in i a) (OFFER o))).
    { destruct (issues (of_seller o) (of_selling o)) eqn:Ei; cbn [negb]; eexists; (split; [reflexivity|]).
      - apply shifts_refl; [done|]. intros i a. rewrite posting_selling, Ei. lia.
      - eapply shifts_ext; [apply shifts_addSelling|done|]. intros i a. rewrite posting_selling, Ei, Hol. cbn [selling].
        rewrite <- at_pair_scale. apply eqm_at_pair. by rewrite eqm_s64. }
    destruct E as (m1 & -> & H1). cbn [mbind outcome_bind].
    assert (E : exists m', (if negb (issues (of_seller o) (of_buying o))
        then Ok (addBuyingDelta (of_seller o, of_buying o) (s64 (k * numSheepSend res)) m1) else Ok m1) = Ok m' /\
      shifts m1 m' (fun i a => k * posting (B := buying_in i a) (OFFER o)) (fun _ _ => 0)).
    { destruct (issues (of_seller o) (of_buying o)) eqn:Ei; cbn [negb]; eexists; (split; [reflexivity|]).
      - apply shifts_refl; [|done]. intros i a. rewrite posting_buying, Ei. lia.
      - eapply shifts_ext; [apply shifts_addBuying| |done]. intros i a. rewrite posting_buying, Ei, Hol. cbn [buying].
        rewrite <- at_pair_scale. apply eqm_at_pair. by rewrite eqm_s64. }
    destruct E as (m2 & -> & H2). exists m2. split; [done|].
    eapply shifts_trans; [exact H1|exact H2|..]; intros i a; apply eqm_eq; lia.
  - eexists. split; [reflexivity|]. apply shifts_refl; intros i a; cbn; lia.
Qed.

(** ** The first loop *)
Definition sane_delta (ed : EntryDelta) : Prop :=
  from_option (fun e => sane_entry (le_data e)) True ed.1 /\ from_option (fun e => sane_entry (le_data e)) True ed.2.
Lemma deltas_sane s s' d : describes s s' d -> sane s -> sane s' -> Forall sane_delta (deltas d).
Proof.
  intros Hd (_ & _ & Hs) (_ & _ & Hs'). apply Forall_forall. intros [c p] (k & Hc & Hp & _)%(delta_elem s s'); [|done].
  cbn in *. split; cbn; [destruct c as [e|]; cbn in *; [|done]; by apply (Hs' k)|].
  destruct p as [e|]; cbn in *; [|done]. by apply (Hs k).
Qed.
Lemma checkAuthorized_pass e :
  from_option (fun e => sane_entry (le_data e)) True e -> checkAuthorized e = Ok None.
Proof.
  destruct e as [le|]; [|done]. cbn. intros Hs. pose proof (lmo_read le) as Hread.
  destruct (le_data le) as [|t| |]; try done. destruct Hread as [-> ->].
  destruct (Z.eqb_spec (Z.land (tl_flags t) AUTHORIZED_FLAG) 0) as [E|]; [|done].
  destruct Hs as (_ & _ & _ & _ & Hu & _). destruct (Hu E) as [-> ->]. done.
Qed.
Lemma addOrSubtract_part m e isAdd :
  from_option (fun e => sane_entry (le_data e)) True e ->
  exists m', addOrSubtractLiabilities m e isAdd = Ok m' /\
    shifts_by m m' (fun B => sign_of isAdd * part (posting (B := B)) e).
Proof.
  destruct e as [le|]; [apply addOrSubtract_shifts|]. intros _. exists m. split; [done|].
  apply shifts_refl; intros i a; cbn; lia.
Qed.
Lemma shifts_by_trans m1 m2 m3 (f g h : forall B : Book, Z) :
  shifts_by m1 m2 f -> shifts_by m2 m3 g -> (forall B, h B = f B + g B) -> shifts_by m1 m3 h.
Proof. intros Hf Hg E. eapply shifts_trans; [exact Hf|exact Hg|..]; intros; rewrite E; reflexivity. Qed.
Lemma gatherLiabilities_shifts l m :
  Forall sane_delta l ->
  exists m', gatherLiabilities l m = Ok (inr m') /\
    shifts_by m m' (fun B => lsum (fun ed : EntryDelta => part (posting (B := B)) ed.1 - part (posting (B := B)) ed.2) l).
Proof.
  revert m. induction l as [|[c p] l IH]; intros m Hl; cbn [gatherLiabilities].
  { exists m. split; [done|]. by apply shifts_refl. }
  apply Forall_cons in Hl as [[Hc Hp] Hl]. cbn [fst snd] in *. rewrite (checkAuthorized_pass c Hc). cbn [mbind outcome_bind].
  destruct (addOrSubtract_part m c true Hc) as (m1 & E1 & S1). destruct (addOrSubtract_part m1 p false Hp) as (m2 & E2 & S2).
  unfold accumulateLiabilities. cbn [fst snd]. rewrite E1. cbn [mbind outcome_bind]. rewrite E2. cbn [mbind outcome_bind].
  destruct (IH m2 Hl) as (m3 & E3 & S3). exists m3. split; [exact E3|].
  eapply shifts_by_trans; [exact S1|eapply shifts_by_trans; [exact S2|exact S3|intros B; reflexivity]|].
  intros B. rewrite lsum_cons. cbn [fst snd sign_of]. lia.
Qed.

(** ** The second loop *)
Lemma minBalance_lmo h n :
  10 <= ledgerVersion h -> 0 <= baseReserve h <= MAX_RESERVE ->
  lmo_getMinBalance h n = reserve (baseReserve h) n.
Proof.
  intros Hv Hr. destruct (getMinBalance_exact h n Hv Hr) as [_ Hrange]. unfold lmo_getMinBalance.
  rewrite (proj2 (Z.leb_gt (ledgerVersion h) 8)) by lia. apply s64_id. unfold in_s64. unfold reserve in *.
  unfold_ints; lia.
Qed.
Lemma shouldCheckAccount_spec current previous a v :
  le_data current = ACCOUNT a ->
  from_option (fun p => exists b, le_data p = ACCOUNT b) True previous ->
  shouldCheckAccount current previous v =
    Ok (from_option (fun p => match le_data p with ACCOUNT b => acc_balance a <? acc_balance b | _ => true end) true previous).
Proof.
  intros Ha Hp. destruct previous as [p|]; [|done]. destruct Hp as [b Hb]. cbn. rewrite Ha, Hb. cbn.
  pose proof (lmo_read current) as Hread. rewrite Ha in Hread. destruct Hread as [-> ->]. cbn.
  destruct (10 <=? v); [|done]. by rewrite !Z.ltb_irrefl, !orb_false_r.
Qed.
Definition no_rich (s : LedgerState) : Prop := forall k a, st_entries s !! k = Some (ACCOUNT a) -> ~ rich a.
Lemma checkBalanceAndLimit_pass s s' d ed :
  describes s s' d -> sane s -> sane s' -> reserves s s' -> 0 <= baseReserve (st_header s) <= MAX_RESERVE ->
  no_rich s' -> ed ∈ deltas d ->
  checkBalanceAndLimit (st_header s') (version s') ed = Ok None.
Proof.
  intros Hd Hs Hs' Hres Hr Hrich Hin. destruct (Hres (sane_typed_state _ Hs Hr)) as (_ & Hv & Hbase & Hf).
  pose proof (deltas_sane _ _ _ Hd Hs Hs') as Hsane. rewrite Forall_forall in Hsane. specialize (Hsane _ Hin).
  assert (Hok : delta_ok ed).
  { destruct Hs as [Hc _], Hs' as [Hc' _]. pose proof (deltas_ok _ _ _ Hd Hc Hc') as H. rewrite Forall_forall in H. by apply H. }
  apply (delta_elem s s') in Hin as (k & Hck & Hpk & _); [|done]. specialize (Hf k).
  destruct Hs' as (_ & Hver & _). destruct ed as [[c|] p]; cbn [fst snd] in *; [|done]. destruct Hsane as [Hc _]. cbn in Hc, Hck.
  unfold checkBalanceAndLimit. cbn [fst snd]. rewrite (proj2 (Z.leb_le _ _) Hver).
  pose proof (lmo_read c) as Hread. rewrite <- Hck, <- Hpk in Hf.
  destruct (le_data c) as [a|t| |] eqn:Ec; try done.
  - destruct Hread as [E1 E2].
    rewrite (shouldCheckAccount_spec c p a) by (done || (destruct p as [p|]; [|done]; apply delta_cases in Hok; cbn in *;
      rewrite Ec in Hok; destruct (le_data p); [by eexists|done..])).
    cbn [mbind outcome_bind]. rewrite E1, E2. cbn [mbind outcome_bind buying selling].
    destruct Hc as (Hn & Hb & Hbuy & Hlim & Hsell).
    rewrite minBalance_lmo by (done || by rewrite Hbase). rewrite Hbase.
    destruct (getMinBalance_exact (st_header s) (acc_numSubEntries a)) as [_ Hmin]; [unfold version in *; lia|done|].
    match goal with |- context [if ?x then _ else Ok None] => destruct x eqn:Eshould end; [|done].
    assert (Hcov : covered (baseReserve (st_header s)) a).
    { specialize (Hrich k a (eq_sym Hck)). enough (fine (baseReserve (st_header s)) a) as [?|?] by done.
      destruct p as [p|]; cbn in *; [|done]. destruct (le_data p); try done.
      destruct Hf as [_ [?|?]]; [done|lia]. }
    unfold covered in Hcov. unfold_ints. rewrite !s64_id by (unfold in_s64; unfold_ints; lia).
    rewrite (proj2 (Z.ltb_ge _ _)) by lia. rewrite (proj2 (Z.ltb_ge _ _)) by lia. done.
  - destruct Hread as [-> ->]. cbn [mbind outcome_bind buying selling].
    destruct Hc as (Hsell & Hbuy & Hlim & Hmax & _). unfold_ints.
    rewrite !s64_id by (unfold in_s64; unfold_ints; lia).
    rewrite (proj2 (Z.ltb_ge _ _)) by lia. rewrite (proj2 (Z.ltb_ge _ _)) by lia. done.
Qed.

Lemma liabilities_pass op r s s' d :
  describes s s' d -> balanced s -> balanced s' -> reserves s s' ->
  0 <= baseReserve (st_header s) <= MAX_RESERVE -> no_rich s' ->
  LiabilitiesMatchOffers_checkOnOperationApply op r d = Ok None.
Proof.
  intros Hd [Hs Hb] [Hs' Hb'] Hres Hr Hrich. unfold LiabilitiesMatchOffers_checkOnOperationApply.
  rewrite (ds_current _ _ _ Hd). rewrite (proj2 (Z.leb_le 10 _)) by apply Hs'.
  destruct (gatherLiabilities_shifts (deltas d) ∅) as (m & -> & Hm); [by eapply deltas_sane|]. cbn [mbind outcome_bind].
  rewrite (firstViolation_None checkDelta).
  - cbn. apply firstViolation_None. intros ed Hin. by apply (checkBalanceAndLimit_pass s s' d).
  - intros [[id a] l] Hl%elem_of_map_to_list. destruct (Hm id a) as (V & B & S).
    rewrite (delta_sum _ s s' d Hd) in B. rewrite (delta_sum _ s s' d Hd) in S. fold (book_of (B := buying_in id a) s) (book_of (B := buying_in id a) s') in B.
    fold (book_of (B := selling_in id a) s) (book_of (B := selling_in id a) s') in S.
    rewrite Hb, Hb' in B, S. unfold deltaAt in *. rewrite Hl, lookup_empty in *. cbn in *.
    destruct V as [V1 V2]; [split; unfold in_s64; unfold_ints; cbn; lia|].
    by rewrite (eqm_s64_zero _ V1 B), (eqm_s64_zero _ V2 S).
Qed.

(** * Every operation passes *)

(** The delta with every entry of two states, all last modified in the current
    ledger. *)
Definition fullDelta (s s' : LedgerState) : LedgerTxnDelta :=
  let entry s d := mkEntry (ledgerSeq (st_header s)) d in
  mkDelta (merge (fun c p => match c, p with
                             | None, None => None
                             | _, _ => Some (entry s' <$> c, entry s <$> p)
                             end) (st_entries s') (st_entries s))
    (st_header s', st_header s).
Lemma fullDelta_describes s s' : describes s s' (fullDelta s s').
Proof.
  split; [done|done|..].
  - intros k c p. cbn. rewrite lookup_merge.
    destruct (st_entries s' !! k), (st_entries s !! k); cbn; try done; intros [= <- <-]; cbn;
      (split; [done|]); (split; [done|]); [left|left|right]; by eexists.
  - intros k. cbn. rewrite lookup_merge. by destruct (st_entries s' !! k), (st_entries s !! k).
Qed.

Definition ledger_invariants : list Invariant :=
  [ConservationOfLumens; AccountSubEntriesCountIsValid; LiabilitiesMatchOffers].

Section WithExternals.
Context `{Ext : Externals}.

Lemma checkEnabled_pass check message ledger enabled m :
  Forall (fun i => check i = Ok None) enabled ->
  checkEnabled check message ledger enabled m = (m, Ok tt).
Proof. induction 1 as [|i l Hi _ IH]; cbn; [done|]. by rewrite Hi. Qed.

Lemma doApply_checks src op v s r s' d :
  balanced s -> 0 <= baseReserve (st_header s) <= MAX_RESERVE -> typed_body (op_body op) -> wide_body (op_body op) ->
  (doCheckValid src (op_body op) v).1 = true ->
  doApply src (op_body op) s = Ok ((true, r), s') -> describes s s' d -> no_rich s' ->
  Forall (fun i => onOperationApply i op (opINNER r) d = Ok None) ledger_invariants.
Proof.
  intros Hb Hr Ht Hw Hcheck Hrun Hd Hrich. pose proof Hb as [(Hc & Hv & _) _].
  assert (Hv8 : 8 <= version s) by lia.
  pose proof (doApply_balanced src (op_body op) v s Hb Hw Hcheck) as H1.
  pose proof (doApply_conserves src (op_body op) v s Hc Hv8 Ht Hcheck) as H2.
  pose proof (doApply_coins src (op_body op) s Hv8) as H3.
  pose proof (doApply_reserves src (op_body op) s) as H4.
  unfold wlp in H1, H2, H3, H4. rewrite Hrun in H1, H2, H3, H4. cbn in H1, H2, H3, H4.
  repeat constructor; cbn [onOperationApply ConservationOfLumens AccountSubEntriesCountIsValid LiabilitiesMatchOffers].
  - eapply conservation_passes; eauto.
  - eapply sub_entries_pass; eauto.
  - eapply liabilities_pass; eauto.
Qed.

(** C3. The invariants hold.  From version 10 on, in a ledger whose sub-entry
    counts and liabilities match its entries, no operation that succeeds is ever
    reported by the invariants on lumens, sub-entry counts and liabilities,
    whichever of them are enabled: given the delta of the operation, however
    much it records of what did not change, [checkOnOperationApply] returns,
    and leaves the failure count and the failures as they were.  The base
    reserve is at most 2^31 stroops and no account is left with more than
    2^63 - 2^31 stroops, where the sum of its reserve and its liabilities could
    overflow. *)
Theorem operation_passes_invariants tx op sc s r sc' s' d m :
  balanced s -> 0 <= baseReserve (st_header s) <= MAX_RESERVE ->
  typed_body (op_body op) -> wide_body (op_body op) ->
  op_apply tx op sc s = Ok ((true, r, sc'), s') ->
  describes s s' d -> no_rich s' ->
  mEnabled m ⊆ ledger_invariants ->
  checkOnOperationApply op r d m = (m, Ok tt).
Proof.
  intros Hb Hr Ht Hw Hrun Hd Hrich Hen. pose proof (wlp_op_checkValid tx op true sc s) as Hv.
  unfold op_apply, mbind, M_bind in Hrun. unfold wlp in Hv.
  destruct (op_checkValid tx op true sc s) as [[[[b r0] sc0] s0]|]; [|done]. destruct Hv as [-> Hv].
  destruct b; [|by injection Hrun]. destruct (Hv eq_refl) as [v Hchk].
  destruct (doApply _ _ s) as [[[ok tr] s1]|] eqn:Hap; [|done]. injection Hrun as -> <- <- <-.
  pose proof (doApply_checks _ op v s tr s1 d Hb Hr Ht Hw Hchk Hap Hd Hrich) as Hall.
  unfold checkOnOperationApply. destruct (_ <? 8); [done|]. apply checkEnabled_pass.
  apply Forall_forall. intros i Hi%Hen. rewrite Forall_forall in Hall. by apply Hall.
Qed.

(** C4. Transactions keep the ledger balanced.  From version 10 on - [balanced] says that the
    version is one of these and the entries are in range - whatever the transaction, with the
    fields of its operations in the range of their types, and whatever its result: after its
    fee and its application, if these do not throw, the ledger is balanced again.  Every
    account's number of sub-entries is that of its signers and of the trust lines, offers and
    data it owns, and what accounts and trust lines record as buying and selling
    liabilities is what their offers come to. *)
Theorem transaction_keeps_balance env s :
  balanced s -> wide_tx (env_tx env) ->
  match processTransaction env s with
  | Ok (_, s') =>
      balanced s' /\
      (forall id a, st_entries s' !! KeyAccount id = Some (ACCOUNT a) ->
         acc_numSubEntries a = Z.of_nat (length (acc_signers a)) + owned id s') /\
      (forall id a, st_entries s' !! KeyAccount id = Some (ACCOUNT a) ->
         let l := liabilities_of (acc_ext a) in
         buying l = offers_buying id ASSET_NATIVE s' /\ selling l = offers_selling id ASSET_NATIVE s') /\
      (forall id asset t, st_entries s' !! KeyTrustLine id asset = Some (TRUSTLINE t) -> issues id asset = false ->
         let l := liabilities_of (tl_ext t) in
         buying l = offers_buying id asset s' /\ selling l = offers_selling id asset s')
  | Throw _ => True
  end.
Proof.
  intros Hb Hw. pose proof (processTransaction_balanced env s Hb Hw) as H. unfold wlp in H.
  destruct (processTransaction env s) as [[r s']|]; [|done]. split; [done|].
  split; [intros id a Hk; by apply balanced_count|]. split.
  - intros id a Hk. by eapply (balanced_liabilities s' id ASSET_NATIVE).
  - intros id asset t Hk Hi. eapply (balanced_liabilities s' id asset); [done..|]. split; [done|]. split; [|done].
    intros ->. destruct H as [(Hc & _ & He) _]. destruct (He _ _ Hk) as (_ & _ & _ & _ & _ & Hn).
    pose proof (Hc _ _ Hk) as E. injection E as _ E. by rewrite E in Hn.
Qed.
End WithExternals.

(** * Violations that are not found *)
Lemma firstViolation_from {A} (f : A -> outcome (option Violation)) l v :
  firstViolation f l = Ok (Some v) -> exists x, x ∈ l /\ f x = Ok (Some v).
Proof.
  induction l as [|x l IH]; [done|]. cbn. intros H.
  destruct (f x) as [[w|]|] eqn:E; cbn in H; [|destruct (IH H) as (y & Hy & Ey)|done].
  - injection H as ->. exists x. split; [by left|done].
  - exists y. split; [by right|done].
Qed.

(** Deleted accounts are not checked.  The second loop of
    [AccountSubEntriesCountIsValid] compares the signers of a deleted account with
    its sub-entries plus their change less the change of its signers.  As the
    changes are those of the deletion itself, that is always the number of its
    signers: whatever the operation, and whatever sub-entries the account had, it
    never reports that a deleted account had sub-entries left. *)
Theorem deleted_account_never_reported op r s s' d id n :
  describes s s' d -> coherent s -> coherent s' ->
  AccountSubEntriesCountIsValid_checkOnOperationApply op r d <> Ok (Some (DeletedWithSubEntries id n)).
Proof.
  intros Hd Hs Hs' H. unfold AccountSubEntriesCountIsValid_checkOnOperationApply in H.
  destruct (accumulate_counts (deltas d) ∅) as (m & Hm & _); [by eapply deltas_ok|by eapply deltas_nodup|].
  rewrite Hm in H. cbn [mbind outcome_bind] in H. rewrite (deleted_pass s s' d m Hd Hs Hs' Hm) in H.
  destruct (firstViolation _ (map_to_list m)) as [[v|]|] eqn:E; cbn in H; [|done..]. injection H as ->.
  apply firstViolation_from in E as ([k c] & _ & E). cbn in E. by destruct (negb _).
Qed.

(** Rising liabilities are not checked.  [shouldCheckAccount] compares the
    liabilities of the current version of an account with themselves.  So an
    account whose balance did not decrease is not checked against its reserve,
    its selling and its buying liabilities, however much these have increased. *)
Theorem rising_liabilities_unchecked header version c p a b :
  le_data c = ACCOUNT a -> le_data p = ACCOUNT b -> acc_balance b <= acc_balance a ->
  checkBalanceAndLimit header version (Some c, Some p) = Ok None.
Proof.
  intros Ha Hb Hle. unfold checkBalanceAndLimit. cbn [fst snd]. rewrite Ha.
  rewrite (shouldCheckAccount_spec c (Some p) a) by (done || by exists b). cbn. rewrite Hb.
  by rewrite (proj2 (Z.ltb_ge _ _) Hle).
Qed.

(** ** Examples *)
Definition book_dollar : Asset := ALPHANUM4 [85; 83; 68; 0] 9.
(** An account that sells all its hundred dollars for lumens. *)
Definition book_seller : LedgerState :=
  mkState (mkHeader 10 7 0 100000 0 0 5 100 10 100)
    (<[KeyOffer 1 1 := OFFER (mkOffer 1 1 book_dollar ASSET_NATIVE 100 (mkPrice 1 1) 0)]>
     (<[KeyTrustLine 1 book_dollar := TRUSTLINE (mkTrustLine 1 book_dollar 100 1000 1 (Some (mkLiabilities 0 100)))]>
      (<[KeyAccount 1 := ACCOUNT (mkAccount 1 5000 6 "" 3 None 0 "" (mkThresholds 1 0 0 0)
           [mkSigner (SIGNER_KEY_PRE_AUTH_TX 42) 1] (Some (mkLiabilities 100 0)))]> ∅))).
(** It withdraws the offer. *)
Definition book_op : Operation :=
  mkOperation None (MANAGE_OFFER (mkManageOffer book_dollar ASSET_NATIVE 0 (mkPrice 1 1) 1)).
Definition book_tx : Transaction := mkTransaction 1 100 7 None [] [book_op].
Definition book_run : outcome (bool * OperationResult * SignatureChecker * LedgerState) :=
  op_apply (Ext := sample_externals) book_tx book_op (makeSignatureChecker 10 42 []) book_seller.

Lemma book_seller_balanced : balanced book_seller.
Proof.
  split; [split; [|split; [vm_compute; discriminate|]]|].
  - intros k d. cbn. rewrite !lookup_insert. repeat case_decide; try (intros [= <-]; done).
  - intros k d. cbn. rewrite !lookup_insert.
    repeat case_decide; intros [= <-]; by apply (bool_decide_unpack _); vm_compute.
  - intros B. unfold book_of. cbn [st_entries book_seller]. rewrite !msum_insert, msum_empty. unfold at_key.
    rewrite !lookup_insert_ne, !lookup_empty by done. cbn [from_option posting]. unfold pledged.
    assert (offer_liabilities (mkOffer 1 1 book_dollar ASSET_NATIVE 100 (mkPrice 1 1) 0) = mkLiabilities 100 100) as -> by by vm_compute.
    unfold liabilities_of. cbn. lia.
Qed.

Definition checking_manager : InvariantManager :=
  mkManager ledger_invariants ledger_invariants 0 ∅.
Example book_run_releases :
  match book_run with
  | Ok (true, _, _, s) =>
      (match st_entries s !! KeyAccount 1 with
       | Some (ACCOUNT a) => Some (acc_numSubEntries a, liabilities_of (acc_ext a)) | _ => None end)
      = Some (2, mkLiabilities 0 0)
  | _ => False
  end.
Proof. by vm_compute. Qed.
Definition poor_entry (d : LedgerEntryData) : Prop :=
  match d with ACCOUNT a => ~ rich a | _ => True end.
#[export] Instance poor_entry_dec d : Decision (poor_entry d).
Proof. destruct d; cbn; unfold rich; apply _. Defined.
Example book_run_not_rich :
  match book_run with
  | Ok (_, s) => bool_decide (map_Forall (fun _ d => poor_entry d) (st_entries s)) = true
  | Throw _ => False
  end.
Proof. by vm_compute. Qed.
Lemma operation_passes_invariants_witness :
  match book_run with
  | Ok (true, r, _, s') =>
      checkOnOperationApply book_op r (fullDelta book_seller s') checking_manager = (checking_manager, Ok tt)
  | _ => False
  end.
Proof.
  pose proof book_run_releases as Hok.
  destruct book_run as [[[[[] r] sc'] s']|] eqn:E; [|done..].
  apply (operation_passes_invariants (Ext := sample_externals) book_tx book_op (makeSignatureChecker 10 42 [])
           book_seller r sc' s').
  - exact book_seller_balanced.
  - vm_compute. split; discriminate.
  - vm_compute. split; discriminate.
  - repeat split; vm_compute; discriminate.
  - exact E.
  - apply fullDelta_describes.
  - pose proof book_run_not_rich as H. rewrite E in H. intros k a Hk. apply bool_decide_eq_true in H.
    exact (H _ _ Hk).
  - reflexivity.
Defined.

(** A transaction that creates an account. *)
Lemma sample_balanced : balanced sample_before.
Proof.
  split; [split; [exact sample_coherent|split; [vm_compute; discriminate|]]|].
  - intros k d. cbn. rewrite lookup_insert. case_decide; intros [= <-]; by apply (bool_decide_unpack _); vm_compute.
  - intros B. unfold book_of. cbn [st_entries sample_before]. rewrite msum_insert, msum_empty. unfold at_key, posting, liabilities_of. rewrite lookup_empty. cbn. lia.
Qed.
Example sample_run_owned :
  match sample_run with Ok (_, s') => owned 1 s' = 0 | Throw _ => False end.
Proof. by vm_compute. Qed.
Lemma transaction_keeps_balance_witness :
  match sample_run with
  | Ok (_, s') => balanced s' /\ owned 1 s' = 0
  | Throw _ => False
  end.
Proof.
  pose proof (transaction_keeps_balance (Ext := sample_externals) sample_env sample_before sample_balanced) as H.
  specialize (H ltac:(repeat constructor)). fold sample_run in H. pose proof sample_run_owned as Ho.
  destruct sample_run as [[r s']|]; [|done]. split; [apply H|exact Ho].
Defined.

(** An account with two sub-entries, which stay, is deleted. *)
Definition left_line : LedgerEntryData := TRUSTLINE (mkTrustLine 1 book_dollar 0 1000 1 None).
Definition left_account (n : Z) : LedgerEntryData :=
  ACCOUNT (mkAccount 1 5000 6 "" n None 0 "" (mkThresholds 1 0 0 0) [] None).
Definition left_before : LedgerState :=
  mkState (mkHeader 10 7 0 100000 0 0 5 100 10 100)
    (<[KeyTrustLine 1 book_dollar := left_line]> (<[KeyAccount 1 := left_account 1]> ∅)).
Definition left_after : LedgerState :=
  mkState (mkHeader 10 7 0 100000 0 0 5 100 10 100) (<[KeyTrustLine 1 book_dollar := left_line]> ∅).
Lemma deleted_account_never_reported_witness :
  AccountSubEntriesCountIsValid_checkOnOperationApply book_op opBAD_AUTH (fullDelta left_before left_after)
    = Ok (Some (SubEntriesMismatch 1 (-1) 0)) /\
  AccountSubEntriesCountIsValid_checkOnOperationApply book_op opBAD_AUTH (fullDelta left_before left_after)
    <> Ok (Some (DeletedWithSubEntries 1 1)).
Proof.
  split; [by vm_compute|].
  apply (deleted_account_never_reported book_op opBAD_AUTH left_before left_after (fullDelta left_before left_after) 1 1).
  - apply fullDelta_describes.
  - intros k d. cbn. rewrite !lookup_insert. repeat case_decide; by intros [= <-].
  - intros k d. cbn. rewrite lookup_insert. case_decide; by intros [= <-].
Defined.

(** A new offer sells a hundred lumens of an account that has fifty: the check
    passes, though a new account in that state would be reported. *)
Definition broke_account (selling : Z) : LedgerEntry :=
  mkEntry 7 (ACCOUNT (mkAccount 1 50 6 "" 1 None 0 "" (mkThresholds 1 0 0 0) [] (Some (mkLiabilities 0 selling)))).
Definition broke_offer : LedgerEntry :=
  mkEntry 7 (OFFER (mkOffer 1 1 ASSET_NATIVE book_dollar 100 (mkPrice 1 1) 0)).
Definition broke_line (buying : Z) : LedgerEntry :=
  mkEntry 7 (TRUSTLINE (mkTrustLine 1 book_dollar 0 1000 1 (Some (mkLiabilities buying 0)))).
Definition broke_delta : LedgerTxnDelta :=
  mkDelta (<[KeyOffer 1 1 := (Some broke_offer, None)]>
           (<[KeyTrustLine 1 book_dollar := (Some (broke_line 100), Some (broke_line 0))]>
            {[KeyAccount 1 := (Some (broke_account 100), Some (broke_account 0))]}))
    (st_header left_after, st_header left_after).
Lemma rising_liabilities_unchecked_witness :
  LiabilitiesMatchOffers_checkOnOperationApply book_op opBAD_AUTH broke_delta = Ok None /\
  checkBalanceAndLimit (st_header left_after) 10 (Some (broke_account 100), Some (broke_account 0)) = Ok None /\
  exists v, checkBalanceAndLimit (st_header left_after) 10 (Some (broke_account 100), None) = Ok (Some v).
Proof.
  split; [by vm_compute|]. split; [|eexists; by vm_compute].
  by eapply (rising_liabilities_unchecked (st_header left_after) 10 (broke_account 100) (broke_account 0)).
Defined.
